(* ===== verification/_CoqProject ===== *)
-Q . S2P
Prelude.v
Errors.v
Protocol.v
Layout.v
Ring.v
RingInv.v
RingSeq.v
RingConc.v
Waiter.v
Parking.v
Registry.v
Meta.v
Message.v
Assembly.v
Reassembly.v
Send.v
Superblock.v
Remainder.v
Standard.v
Reservation.v
Lifecycle.v
Negotiate.v
Calls.v
Streams.v
Shutdown.v
RequestCtx.v
Dispatch.v
Rendezvous.v
Acceptor.v
Codec.v
Pool.v
Kill.v
Session.v
SessionInv.v
SessionOps.v
SessionReads.v
SessionWire.v
SessionRuns.v
Serve.v
ServeEnd.v
Response.v
IdlTypes.v
IdlSizes.v
IdlModel.v
IdlPlan.v
IdlLex.v
IdlParse.v
IdlCheck.v
IdlFunc.v
IdlSpec.v
IdlCycles.v
IdlSound.v
IdlAnnot.v
IdlRules.v
IdlAccept.v
IdlNames.v
IdlCanon.v
