(* ===== verification/Prelude.v ===== *)
(** * HQQ: shared-memory IPC over lock-free MPMC packet rings

    This library models the Go implementation of HQQ and proves what its parts
    promise each other and their users.

    ** The program

    Two processes share one memory segment. Its first page, the superblock,
    decides who initializes the segment and who joins it; behind it lie two
    rings (one per direction) and the payload buffers, one per ring slot. A
    ring slot carries a 64-byte packet. On this stand two kinds of link:

    - the Standard link sends a message as one packet and one buffer, and
      reads messages whole, partially, in place or through a reservation;
    - the Advanced link negotiates a version and features on it, cuts messages
      of any size into chunks, reassembles what an untrusted peer sends, hands
      messages to streams and responses to calls, serves requests with deadlines
      and cancellation, and shuts down gracefully.

    A service with many clients has a listener, a segment with one ring in which
    clients announce the links they created and an acceptor finds them.

    On links stands the bindgen tool: it reads the description of a C interface,
    checks it, and derives a wire format and its limits, from which client and
    server code is generated; its runtime carries the calls of a generated client
    over sessions, each a Standard link, which a pool lends to goroutines.

    ** Files and what they model

    - Prelude: machine words with their wrap-around, little-endian words,
      slices, the error monad, the shared tactics and the hint database [hqq].
    - Errors (errors.go, errors_listener.go): the error values, their [Unwrap]
      chains and [errors.Is].
    - Protocol (internal/protocol/protocol.go): packets as 64 bytes, and the
      hot-path constructor of standard.go.
    - Layout (mpmc.go, superblock.go, listener_layout.go): sizes and offsets of
      rings, segments and listeners with the overflow checks of the code.
    - Ring (internal/mpmc/mpmc.go): the words of a ring and the operations on
      them, a claim split at its atomic accesses. RingInv: what the words mean
      ([rep] relates them to positions, phases and values). RingSeq:
      formatting, attaching and the operations of one party, with the class
      [BoundedQueue] that states the promise of a ring to its clients and
      [ring_queue], which shows that the ring keeps it. RingConc: any number of
      producers and consumers interleaved access by access.
    - Waiter (mpmc.go): cancellation, deadlines and one backoff step of a
      blocked operation. Parking (internal/mpmc/waitgroup.go): sleeping and
      waking, across processes ([Parking.Futex]) and among the goroutines of
      one process ([Parking.Group]). Registry (waitgroup.go): which operations
      share a group.
    - Superblock (superblock.go, options.go): claiming, initializing and
      publishing a segment under interference, and the peer monitor.
    - Remainder (standard.go, [recvRemainder]): the FIFO of unread tails over
      shared buffers. Standard (standard.go, packetconn.go): the calls of a
      Standard link on a ring whose elements are packet and buffer.
      Reservation (reservation.go): slots held across calls. Lifecycle
      (standard.go, [Close]): closing while calls run.
    - Meta (advanced_request.go): the metadata block of a request. Message
      (message.go): pooled message buffers. Assembly (advanced_io.go): the
      receive path for chunks. Send (advanced_io.go): the chunks of a message.
      Reassembly: both together.
    - Negotiate (advanced.go), Calls (advanced_dispatch.go, advanced_io.go),
      Streams (advanced_stream.go, advanced_control.go), Shutdown and RequestCtx
      (advanced_request.go), Dispatch (advanced_io.go, advanced_dispatch.go,
      stream.go): the Advanced link above its messages. Dispatch is the receive
      loop: who reads the ring, and how messages reach the queues of streams and
      of the server. RequestCtx is the context of a request through its reuse.
    - Rendezvous (listener_layout.go, listener.go, connect.go): names, connect
      records, the header of a listener from its claim to its publication, and
      what acceptor and client decide. Acceptor (listener.go): the recovery of
      stuck queue slots and the goroutines of an acceptor.
    - Serve (rpc.go): the receiver, the watchdog and the workers of an RPC
      server, and what is where at every moment. ServeEnd: who waits for whom,
      and that [Serve] ends. Response (rpc.go): response writers, the mux and the
      responses.
    - Codec (codec.go, wire.go, handle.go, errors.go, options.go and dial.go of
      bindgen/rt): the wire format and the handshake of a session. Session
      (conn.go): requests, flow control, responses, waiting and closing.
      SessionInv: its invariant. SessionOps: every call keeps it. SessionReads:
      how many frames a call reads. SessionWire: what goes over the wire. SessionRuns: concrete runs. Kill (conn.go):
      closing a session from another goroutine. Pool (pool.go): lending
      sessions.
    - IdlLex, IdlParse, IdlCheck, IdlFunc, IdlSpec (lex.go, parse.go, check.go,
      func.go, goname.go, diag.go of bindgen/idl): from the bytes of an interface
      description to its model. IdlModel, IdlTypes, IdlPlan (model.go, types.go,
      plan.go): the model, the sizes of types, and the bodies of requests and
      responses. IdlCanon (canon.go): the canonical text that identifies an
      interface. IdlSizes: sizes against encodings. IdlCycles, IdlSound, IdlAnnot
      (the annotations of parameters), IdlRules, IdlAccept, IdlNames: what the
      checks establish, pass by pass and put together.

    Definitions keep the names of the code. State is a record per component;
    an operation is a function from state to state and result, [result error]
    where the code returns an error. Code that other parties interleave with
    is cut into steps at its atomic accesses, critical sections or channel
    operations, and a step relation lets everybody take steps in any order.
    A pointer that is shared is an index into a store.

    ** What the theorems show

    - The ring is linearizable: every interleaving is a run of one bounded FIFO
      queue; slots are exclusive; stale completions fail. One party at a time,
      the calls refine a bounded queue. Formatting is all or nothing.
    - No wake-up is lost, waiter aggregation keeps one leader, and a canceled
      or expired operation gives up within a bounded number of steps.
    - A segment is claimed only as the roles allow, a look that claims nothing
      changes nothing, publishing is atomic against takeovers, and a peer is
      declared gone only after its heartbeat stood still.
    - A direction of a Standard link refines a bounded queue of messages with a
      FIFO of unread tails; reservations equal the direct calls; messages are
      delivered before the loss of the peer is reported; after [Close] no call
      touches the segment.
    - What the Advanced link sends in chunks is reassembled exactly or refused
      as a whole, whatever frames are interleaved; no frame breaks the memory
      budget; metadata reads back as written.
    - Negotiating endpoints agree; messages are delivered in order, each once or
      lost for a documented reason that holds at that moment, whoever receives; responses reach the calls
      they are for; accepting streams neither blocks nor loses slots; stream IDs
      never collide; a request context ends for the first reason and is recycled
      clean; [Shutdown] drains.
    - A listener is claimed only when nobody serves it; an acceptor takes exactly
      the records that respect its limits, and those of its clients do; it counts
      every record and loses no link.
    - An RPC server has one receiver, answers every request once, never stalls,
      and ends with all its goroutines after receiving ended; a response is what
      its handler wrote.
    - A session keeps its flow control and its tables whatever the server sends;
      no call panics but in one case, and every call but [Close] reads a bounded
      number of frames. It puts the frames of a request on the wire, delivers the
      body of a response, and keeps it until it is released; a killed session
      closes its link when its owner is out of it; a pool lends each session to
      one goroutine.
    - The lexer and the parser of the interface language compute exactly what its
      grammar defines; the search for cycles is exact; the sizes of types bound
      every encoding; an interface that is accepted has distinct names, types
      within the limits, functions and handles that obey the rules, plans within
      the bounds and valid Go names; the canonical text is equal exactly for
      equal interfaces.
    - Behaviour that differs from the documentation is stated as theorems too:
      [Shutdown.concurrent_shutdown_hangs], [SessionRuns.sync_timeout_panics],
      [Serve.serve_late_callback], [Acceptor.late_publish_stops_listener],
      [Acceptor.recovered_slot_repeats_record], the last part of
      [SessionReads.session_no_panic], and, as a lemma and an example,
      [IdlAccept.syntax_error_not_alone] and
      [Reservation.local_release_through_copy_corrupts].

    ** Bounds, fuel and assumptions

    - Integers have the width of the code on 64-bit platforms; arithmetic wraps
      where the code's does. The ring cursors wrap too: RingConc only assumes
      that no thread sleeps between loading a cursor and using it while [2^61]
      claims go by. Parking has no step for a sleeper that lets [2^32] bumps of
      its 32-bit word go by between loading it and [futexWait], nor for the
      [2^32]nd registered waiter; there the words of the code come round. Its
      check of slot and cancellation before sleeping is one step. Serve assumes fewer than [2^61] inline runs of handlers in
      one call, and Response a message limit that is a Go [int].
    - Atomic accesses are sequentially consistent, as Go's are.
    - Fuel: a claim takes at most three accesses between two waits when nobody
      else runs, so [Ring.claim_fuel] (eight, and four per wait) is enough and
      RingSeq proves that the calls return; [Errors.errors_is] walks chains of
      at most four errors; [Meta.parse_tlvs], [Send.send_loop] and
      [Superblock.zeroInChunks] have a fuel of the length of their input, and
      lemmas show that they do not run out of it. The loops of a session
      have one unit more than its world holds frames, of which there are any
      finite number. This is no bound of the code's: SessionReads shows that all
      loops but the one of [Close] end after the frames that flow control
      counted. [Close] reads for as long as responses come, since a ring looks at
      deadlines only when it has nothing to give. The lexer and the parser have one unit
      per byte or token left, and one more; an annotation has nine, the depth of
      its rules; the search for cycles has one per declaration, the sizes of
      types [IdlTypes.info_fuel] and the decimal digits of a number one per
      bit. Theorems show that all of them end with a result. Waiting is not
      fuel: a blocked call is a function of the list of its waits ([waits],
      [inbox]) and is [None] while it waits on, or a goroutine that has no step.
    - A request of Serve is answered when [respond] was called for it; whether a
      response is sent (not for a caller that canceled) is in Response. In Kill,
      the condition of [afterOp] is that the owner uses no slot. In Dispatch the
      flag of Shutdown is part of the state, and refuses requests.
    - Clocks, contexts, recycled buffers, map iteration orders and the results
      of sends are arguments, or choices of the step relation, and theorems hold
      for all of them. RequestCtx assumes that no hour passes between the
      creation of a timer and the call that stops it.

    ** Not modelled

    - System calls (shared memory, mapping, futexes, processes) and what is only
      a shell around them: the platform parkers, named links, the retry loops of
      [Connect], [Listen] and [Dial], and the launcher with the verification of
      executables.
    - [Stream.Send] and [Stream.CallWith] as definitions of their own: they test
      the state of the stream and call modelled parts in turn. What a stream
      sends when it is closed is a control packet of Streams.
    - The code generators of bindgen, which print text, and its header reader, a
      set of regular expressions without a specification to hold it against; the
      hash over the canonical text, which is the Standard Library's SHA-256.
    - The test vectors, the interoperability driver, the texts of error messages,
      statistics other than the counters that occur in the records, generated
      code, and the C, C++ and Rust sources. *)
From Stdlib Require Export ZArith Lia Bool.
From stdpp Require Export base tactics list numbers option gmap functions.

Open Scope Z_scope.

(** ** Machine integers *)

(** The value range of a [w]-bit unsigned word. *)
Definition word (w : Z) (x : Z) : Prop := 0 <= x < 2 ^ w.

(** Go's unsigned arithmetic wraps modulo [2^w]. *)
Definition wrap (w x : Z) : Z := x mod 2 ^ w.

Definition u8 (x : Z) : Z := wrap 8 x.
Definition u16 (x : Z) : Z := wrap 16 x.
Definition u32 (x : Z) : Z := wrap 32 x.
Definition u64 (x : Z) : Z := wrap 64 x.

(** [int64(x)] for a [uint64] [x]: the two's complement reading. *)
Definition i64 (x : Z) : Z :=
  let y := u64 x in if y <? 2 ^ 63 then y else y - 2 ^ 64.

(** The bounds of [int] / [int64] on the supported (64-bit) platforms. *)
Definition max_int : Z := 2 ^ 63 - 1.
Definition max_uint64 : Z := 2 ^ 64 - 1.

(** Go's [a &^ b] (bit clear) on unsigned words. *)
Definition and_not (a b : Z) : Z := Z.ldiff a b.

(** [flags & bit != 0] *)
Definition has_bits (flags bits : Z) : bool := negb (Z.land flags bits =? 0).

(** ** Bytes *)

Abbreviation bytes := (list Z).

Definition is_byte (b : Z) : Prop := 0 <= b < 256.

(** [binary.LittleEndian.PutUintN]: the [n] bytes of [v], low byte first. *)
Fixpoint le_put (n : nat) (v : Z) : bytes :=
  match n with
  | O => []
  | S n' => v mod 256 :: le_put n' (v / 256)
  end.

(** [binary.LittleEndian.UintN] *)
Fixpoint le_get (bs : bytes) : Z :=
  match bs with
  | [] => 0
  | b :: bs' => b + 256 * le_get bs'
  end.

(** ** Slices *)

(** [b[lo:hi]] *)
Definition slice {A} (lo hi : nat) (l : list A) : list A := take (hi - lo) (drop lo l).

(** [copy(dst[off:], src)] for a [src] that fits: the bytes of [dst] with
    those from [off] on replaced by [src]. *)
Definition blit {A} (off : nat) (src dst : list A) : list A :=
  take off dst ++ src ++ drop (off + length src) dst.

(** The number of elements [copy(dst, src)] copies. *)
Definition copy_n {A} (dst src : list A) : nat := Nat.min (length dst) (length src).

(** [copy(dst, src)]: overwrite a prefix of [dst]. *)
Definition copy_to {A} (dst src : list A) : list A :=
  take (copy_n dst src) src ++ drop (copy_n dst src) dst.

(** ** Results of fallible code *)

Inductive result (E A : Type) : Type :=
| Ok (a : A)
| Err (e : E).
Arguments Ok {E A} a.
Arguments Err {E A} e.

Definition rbind {E A B} (m : result E A) (f : A -> result E B) : result E B :=
  match m with Ok a => f a | Err e => Err e end.

Declare Scope hqq_scope.
Delimit Scope hqq_scope with hqq.
Notation "'let!' x ':=' m 'in' k" := (rbind m (fun x => k))
  (at level 10, x pattern, m at level 100, k at level 200) : hqq_scope.
Open Scope hqq_scope.

(** ** Tactics *)

(** Linear arithmetic with [/] and [mod] by constants. *)
Ltac zlia := Z.div_mod_to_equations; lia.

(** Turn the boolean tests of the code into propositions. *)
Ltac breflect :=
  repeat match goal with
  | H : (_ && _) = true |- _ => apply andb_true_iff in H; destruct H
  | H : (_ || _) = false |- _ => apply orb_false_iff in H; destruct H
  | H : negb _ = true |- _ => apply negb_true_iff in H
  | H : negb _ = false |- _ => apply negb_false_iff in H
  | H : (_ =? _) = true |- _ => apply Z.eqb_eq in H
  | H : (_ =? _) = false |- _ => apply Z.eqb_neq in H
  | H : (_ <? _) = true |- _ => apply Z.ltb_lt in H
  | H : (_ <? _) = false |- _ => apply Z.ltb_ge in H
  | H : (_ <=? _) = true |- _ => apply Z.leb_le in H
  | H : (_ <=? _) = false |- _ => apply Z.leb_gt in H
  end.

(** Case analysis on the tests of a definition, with their meaning. *)
Ltac bcase :=
  match goal with
  | |- context [if ?b then _ else _] => destruct b eqn:?; breflect
  | H : context [if ?b then _ else _] |- _ => destruct b eqn:?; breflect
  end.


Create HintDb hqq.
Create Rewrite HintDb hqq.

(** ** Machine integers: lemmas *)

Section Words.
Implicit Types (a b x y : Z).

Lemma wrap_range w x : 0 <= w -> word w (wrap w x).
Proof. intros Hw. unfold word, wrap. apply Z.mod_pos_bound. lia. Qed.

Lemma wrap_small w x : word w x -> wrap w x = x.
Proof. intros H. unfold wrap. apply Z.mod_small. exact H. Qed.

Lemma u64_range x : word 64 (u64 x).
Proof. apply wrap_range. lia. Qed.

Lemma u32_range x : word 32 (u32 x).
Proof. apply wrap_range. lia. Qed.

Lemma u64_small x : word 64 x -> u64 x = x.
Proof. apply wrap_small. Qed.

Lemma u64_idem x : u64 (u64 x) = u64 x.
Proof. apply u64_small, u64_range. Qed.

Lemma u64_add_l x y : u64 (u64 x + y) = u64 (x + y).
Proof. unfold u64, wrap. apply Zplus_mod_idemp_l. Qed.

Lemma u64_sub_lr x y : u64 (u64 x - u64 y) = u64 (x - y).
Proof. unfold u64, wrap. rewrite Zminus_mod_idemp_l, Zminus_mod_idemp_r. done. Qed.

(** [int64(a - b)] on wrapped counters recovers the true distance as long as
    the counters are less than [2^63] apart. *)
Lemma i64_distance x y : -2 ^ 63 <= x - y < 2 ^ 63 -> i64 (u64 x - u64 y) = x - y.
Proof.
  intros H. unfold i64. rewrite u64_sub_lr. unfold u64, wrap.
  destruct (Z.ltb_spec ((x - y) mod 2 ^ 64) (2 ^ 63)) as [Hlt|Hge]; zlia.
Qed.

Lemma i64_sub_zero a b : word 64 a -> word 64 b -> i64 (a - b) = 0 <-> a = b.
Proof.
  unfold word, i64, u64, wrap. intros Ha Hb.
  destruct (Z.ltb_spec ((a - b) mod 2 ^ 64) (2 ^ 63)); split; zlia.
Qed.

Lemma i64_small x : 0 <= x < 2 ^ 63 -> i64 x = x.
Proof. intros Hx. unfold i64. cbv zeta. rewrite u64_small by (unfold word; lia). by destruct (Z.ltb_spec x (2 ^ 63)); [|lia]. Qed.

Lemma i64_range x : - 2 ^ 63 <= i64 x < 2 ^ 63.
Proof.
  unfold i64, u64, wrap. destruct (Z.ltb_spec (x mod 2 ^ 64) (2 ^ 63)); zlia.
Qed.

(** Two counters less than [2^64] apart with the same wrapped value are equal. *)
Lemma u64_inj_near x y : - 2 ^ 64 < x - y < 2 ^ 64 -> u64 x = u64 y -> x = y.
Proof. unfold u64, wrap. intros. zlia. Qed.

(** The slot index [pos & mask] of a ring of [2^k] slots. *)
Lemma land_mask x k : 0 <= k -> Z.land x (2 ^ k - 1) = x mod 2 ^ k.
Proof. intros Hk. rewrite <- Z.land_ones by lia. f_equal. rewrite Z.ones_equiv. lia. Qed.

Lemma mod_pow_u64 x k : 0 <= k <= 64 -> u64 x mod 2 ^ k = x mod 2 ^ k.
Proof.
  intros Hk. unfold u64, wrap. apply Z.mod_mod_divide.
  exists (2 ^ (64 - k)). rewrite <- Z.pow_add_r by lia. f_equal. lia.
Qed.

(** [n & (n-1) == 0] holds exactly for powers of two. *)
Lemma pow2_test_land k : 0 <= k -> Z.land (2 ^ k) (2 ^ k - 1) = 0.
Proof.
  intros Hk. rewrite land_mask by lia. apply Z.mod_same.
  apply Z.pow_nonzero; lia.
Qed.

Lemma land_pred_pow2 n : 0 < n -> Z.land n (n - 1) = 0 -> exists k, 0 <= k /\ n = 2 ^ k.
Proof.
  intros Hn Hl. exists (Z.log2 n). split; [apply Z.log2_nonneg|].
  destruct (Z.log2_spec n Hn) as [Hlo Hhi].
  destruct (Z.eq_dec n (2 ^ Z.log2 n)) as [|Hne]; [done|exfalso].
  assert (Hb1 : Z.testbit n (Z.log2 n) = true) by (apply Z.bit_log2; lia).
  assert (Hlog : Z.log2 (n - 1) = Z.log2 n).
  { apply Z.log2_unique; [apply Z.log2_nonneg|]. lia. }
  assert (Hb2 : Z.testbit (n - 1) (Z.log2 n) = true).
  { rewrite <- Hlog. apply Z.bit_log2.
    assert (0 < 2 ^ Z.log2 n) by (apply Z.pow_pos_nonneg; [lia|apply Z.log2_nonneg]). lia. }
  assert (Z.testbit (Z.land n (n - 1)) (Z.log2 n) = true) as Hb
    by (rewrite Z.land_spec, Hb1, Hb2; done).
  rewrite Hl, Z.bits_0 in Hb. discriminate.
Qed.

End Words.

#[export] Hint Resolve u64_range u32_range i64_range : hqq.
#[export] Hint Rewrite u64_idem u64_add_l u64_sub_lr : hqq.

(** ** Little-endian words: lemmas *)

Section LittleEndian.

Lemma length_le_put n v : length (le_put n v) = n.
Proof. revert v; induction n as [|n IH]; intros v; simpl; [done|]. by rewrite IH. Qed.

Lemma le_put_bytes n v : Forall is_byte (le_put n v).
Proof.
  revert v; induction n as [|n IH]; intros v; simpl; constructor; [|apply IH].
  unfold is_byte. zlia.
Qed.

Lemma le_get_put n v : le_get (le_put n v) = v mod 256 ^ Z.of_nat n.
Proof.
  revert v; induction n as [|n IH]; intros v; simpl le_put; simpl le_get.
  - rewrite Z.mod_1_r. done.
  - rewrite IH, Nat2Z.inj_succ, Z.pow_succ_r by lia.
    rewrite Z.rem_mul_r by lia. done.
Qed.

Lemma le_get_put_word n v : 0 <= v < 256 ^ Z.of_nat n -> le_get (le_put n v) = v.
Proof. intros H. rewrite le_get_put. by apply Z.mod_small. Qed.

Lemma le_get_range bs : Forall is_byte bs -> 0 <= le_get bs < 256 ^ Z.of_nat (length bs).
Proof.
  induction 1 as [|b bs Hb _ IH]; simpl length; simpl le_get; [simpl; lia|].
  rewrite Nat2Z.inj_succ, Z.pow_succ_r by lia. unfold is_byte in Hb. nia.
Qed.

Lemma le_put_get bs : Forall is_byte bs -> le_put (length bs) (le_get bs) = bs.
Proof.
  induction 1 as [|b bs Hb _ IH]; simpl; [done|]. unfold is_byte in Hb.
  f_equal; [zlia|].
  replace ((b + 256 * le_get bs) / 256) with (le_get bs) by zlia. exact IH.
Qed.

Lemma le_put_0 n : le_put n 0 = replicate n 0.
Proof.
  induction n as [|n IH]; [done|]. cbn [le_put replicate].
  change (0 / 256) with 0. by rewrite IH.
Qed.

End LittleEndian.

#[export] Hint Rewrite length_le_put : hqq.
#[export] Hint Resolve le_put_bytes : hqq.

(** ** Slices: lemmas *)

Section Slices.
Context {A : Type}.
Implicit Types (l src dst : list A) (lo hi off : nat).

Lemma length_slice lo hi l : (lo <= hi <= length l)%nat -> length (slice lo hi l) = (hi - lo)%nat.
Proof. intros H. unfold slice. rewrite length_take, length_drop. lia. Qed.

Lemma length_blit off src dst :
  (off + length src <= length dst)%nat -> length (blit off src dst) = length dst.
Proof.
  intros H. unfold blit. rewrite !length_app, length_take, length_drop. lia.
Qed.

Lemma slice_full l : slice 0 (length l) l = l.
Proof. unfold slice. rewrite drop_0, Nat.sub_0_r. apply take_ge. lia. Qed.

Lemma slice_blit_same off src dst :
  (off + length src <= length dst)%nat -> slice off (off + length src) (blit off src dst) = src.
Proof.
  intros H. unfold slice, blit.
  rewrite drop_app_ge by (rewrite length_take; lia).
  rewrite length_take, Nat.min_l by lia. rewrite Nat.sub_diag, drop_0.
  rewrite take_app_le by lia. apply take_ge. lia.
Qed.

Lemma lookup_blit_lt off src dst i :
  (off <= length dst)%nat -> (i < off)%nat -> blit off src dst !! i = dst !! i.
Proof.
  intros H Hi. unfold blit.
  rewrite lookup_app_l by (rewrite length_take; lia). apply lookup_take_lt. lia.
Qed.

Lemma lookup_blit_in off src dst i :
  (off <= length dst)%nat -> (off <= i < off + length src)%nat ->
  blit off src dst !! i = src !! (i - off)%nat.
Proof.
  intros H Hi. unfold blit.
  rewrite lookup_app_r by (rewrite length_take; lia).
  rewrite length_take, Nat.min_l by lia. apply lookup_app_l. lia.
Qed.

Lemma lookup_blit_ge off src dst i :
  (off + length src <= length dst)%nat -> (off + length src <= i)%nat ->
  blit off src dst !! i = dst !! i.
Proof.
  intros H Hi. unfold blit.
  rewrite lookup_app_r by (rewrite length_take; lia).
  rewrite length_take, Nat.min_l by lia.
  rewrite lookup_app_r by lia. rewrite lookup_drop. f_equal. lia.
Qed.

Lemma lookup_slice lo hi l i :
  (i < hi - lo)%nat -> slice lo hi l !! i = l !! (lo + i)%nat.
Proof. intros H. unfold slice. rewrite lookup_take_lt by lia. apply lookup_drop. Qed.

Lemma slice_ext lo hi l l' :
  (forall i, (lo <= i < hi)%nat -> l !! i = l' !! i) -> slice lo hi l = slice lo hi l'.
Proof.
  intros H. apply list_eq. intros i.
  destruct (decide (i < hi - lo)%nat) as [Hi|Hi].
  - rewrite !lookup_slice by lia. apply H. lia.
  - unfold slice. rewrite !lookup_take_ge by lia. done.
Qed.

Lemma slice_blit_before off src dst lo hi :
  (off <= length dst)%nat -> (hi <= off)%nat -> slice lo hi (blit off src dst) = slice lo hi dst.
Proof. intros H Hh. apply slice_ext. intros i Hi. apply lookup_blit_lt; lia. Qed.

Lemma slice_blit_after off src dst lo hi :
  (off + length src <= length dst)%nat -> (off + length src <= lo)%nat ->
  slice lo hi (blit off src dst) = slice lo hi dst.
Proof. intros H Hl. apply slice_ext. intros i Hi. apply lookup_blit_ge; lia. Qed.

Lemma Forall_blit (P : A -> Prop) off src dst :
  Forall P src -> Forall P dst -> Forall P (blit off src dst).
Proof.
  intros Hs Hd. unfold blit. rewrite !Forall_app. split_and!; [by apply Forall_take|done|by apply Forall_drop].
Qed.

Lemma blit_end off src dst :
  (length dst = off + length src)%nat -> blit off src dst = take off dst ++ src.
Proof. intros H. unfold blit. rewrite drop_ge by lia. by rewrite app_nil_r. Qed.

Lemma copy_to_fits dst src :
  (length src <= length dst)%nat -> take (length src) (copy_to dst src) = src.
Proof.
  intros H. unfold copy_to, copy_n. rewrite Nat.min_r by lia.
  rewrite take_app_le by (rewrite length_take; lia).
  rewrite take_take, Nat.min_id. apply take_ge. lia.
Qed.

Lemma length_copy_to dst src : length (copy_to dst src) = length dst.
Proof. unfold copy_to, copy_n. rewrite length_app, length_take, length_drop. lia. Qed.

End Slices.

#[export] Hint Resolve Forall_blit : hqq.
#[export] Hint Rewrite @length_copy_to : hqq.

(** ** Threads: lemmas

    The threads of an interleaving are a list of program points; [countb]
    counts those that satisfy a test. *)

Section Threads.
Context {A : Type}.
Implicit Types (l : list A) (p : A -> bool) (x y z : A).

Definition countb p l : Z := Z.of_nat (length (filter (fun x => p x) l)).

Lemma countb_nonneg p l : 0 <= countb p l.
Proof. unfold countb. lia. Qed.

Lemma countb_nil p : countb p [] = 0.
Proof. done. Qed.

Lemma countb_cons p x l : countb p (x :: l) = (if p x then 1 else 0) + countb p l.
Proof. unfold countb. rewrite filter_cons. destruct (p x); simpl; lia. Qed.

Lemma countb_app p l1 l2 : countb p (l1 ++ l2) = countb p l1 + countb p l2.
Proof. unfold countb. rewrite list.filter_app, length_app. lia. Qed.

Lemma countb_insert p l i x y :
  l !! i = Some x -> countb p (<[i := y]> l) = countb p l - (if p x then 1 else 0) + (if p y then 1 else 0).
Proof.
  intros H. pose proof (lookup_lt_Some _ _ _ H) as Hlt. rewrite insert_take_drop by done.
  rewrite <- (take_drop_middle l i x) at 3 by done. rewrite !countb_app, !countb_cons. destruct (p x), (p y); lia.
Qed.

Lemma countb_pos p l x : x ∈ l -> p x = true -> 0 < countb p l.
Proof.
  intros [i Hi]%list_elem_of_lookup Hp. rewrite <- (take_drop_middle l i x) by done.
  rewrite countb_app, countb_cons, Hp. pose proof (countb_nonneg p (take i l)). pose proof (countb_nonneg p (drop (S i) l)). lia.
Qed.

Lemma countb_zero p l x : countb p l = 0 -> x ∈ l -> p x = false.
Proof. intros H Hx. destruct (p x) eqn:E; [|done]. pose proof (countb_pos p l x Hx E). lia. Qed.

Lemma countb_exists p l : 0 < countb p l -> exists i x, l !! i = Some x /\ p x = true.
Proof.
  induction l as [|y l IH]; rewrite ?countb_nil, ?countb_cons; [lia|]. intros H.
  destruct (p y) eqn:E; [by exists 0%nat, y|]. destruct IH as (i & x & Hi & Hx); [lia|]. by exists (S i), x.
Qed.

Lemma elem_insert_inv l i x y : x ∈ <[i := y]> l -> x = y \/ x ∈ l.
Proof.
  intros [j Hj]%list_elem_of_lookup. apply list_lookup_insert_Some in Hj as [(-> & -> & _)|[_ Hj]]; [by left|].
  right. by eapply list_elem_of_lookup_2.
Qed.

Lemma elem_insert_keep l i x y z : l !! i = Some z -> x ∈ l -> x <> z -> x ∈ <[i := y]> l.
Proof.
  intros Hi [j Hj]%list_elem_of_lookup Hne. destruct (decide (i = j)) as [->|Hij]; [congruence|].
  eapply list_elem_of_lookup_2. by rewrite list_lookup_insert_ne.
Qed.

Lemma elem_insert_new l i y z : l !! i = Some z -> y ∈ <[i := y]> l.
Proof. intros Hi. eapply list_elem_of_lookup_2. apply list_lookup_insert_eq. by eapply lookup_lt_Some. Qed.

End Threads.
