(* ===== verification/Errors.v ===== *)
(** * Errors: the error values of the package and their matching

    Models [errors.go], [errors_listener.go] and the ring errors of
    [internal/mpmc/mpmc.go]: every sentinel is a constructor of [error], the
    [Unwrap] chain is the function [unwrap], and [errors_is] is the walk
    [errors.Is] makes along it. The numeric [ErrorCode]s carried in packets
    are translated by [errorFromCode]. *)
From S2P Require Import Prelude.

(** ** Error codes carried in packets *)

Definition ErrCodeMemoryAlign : Z := 1.
Definition ErrCodeInvalidSize : Z := 2.
Definition ErrCodeMemorySmall : Z := 3.
Definition ErrCodeFailedInit : Z := 4.
Definition ErrCodeConnNotFound : Z := 5.
Definition ErrCodeInvalidOp : Z := 6.
Definition ErrCodeBufferOverflow : Z := 7.
Definition ErrCodeShuttingDown : Z := 8.

(** The layout configuration of a segment. *)
Record Geometry := mkGeometry {
  g_BufferCount : Z;
  g_BufferSize : Z;
  g_LayoutSize : Z;
  g_PageSize : Z
}.

#[export] Instance Geometry_eq_dec : EqDecision Geometry.
Proof. solve_decision. Defined.

(** ** Error values *)

Inductive error : Type :=
(* base sentinels of errors.go *)
| ErrMemoryAlign | ErrInvalidSize | ErrMemorySmall | ErrFailedInit
| ErrConnNotFound | ErrInvalidOp | ErrBufferOverflow | ErrTimeout
(* refined sentinels of errors.go *)
| ErrClosed | ErrPeerClosed | ErrPeerGone | ErrLinkBusy | ErrIncompatibleLayout
| ErrNotNegotiated | ErrAlreadyNegotiated | ErrNegotiationFailed
| ErrNegotiationRejected | ErrUnexpectedPacket | ErrProtocol | ErrNotListening
| ErrAlreadyListening | ErrIncomingOverflow | ErrMessageAborted
| ErrShuttingDown | ErrReassemblyLimit
(* transient attach errors *)
| errSegmentNotReady | errInitContended | errNoLiveEndpoint
(* errors_listener.go *)
| ErrListenerBusy | ErrListenerClosed | ErrListenerGone | ErrAcceptorClosed
| errListenerNotReady | errListenerDead | errInstanceMismatch | errBadRecord
(* an error of package shm *)
| ErrInvalidName
(* errors with data *)
| unknownCodeError (code : Z)
| GeometryError (want got : Geometry)
| ResponseError (status : Z) (payload : bytes)
(* errors of the ring (package mpmc) *)
| mpmc_ErrClosed | mpmc_ErrTimeout | mpmc_ErrCanceled
(* errors of the standard library the package returns or wraps *)
| net_ErrClosed | io_EOF | os_ErrDeadlineExceeded
| ctx_Canceled | ctx_DeadlineExceeded
(* the receive loop of Serve after Shutdown *)
| errServeStopped.

#[export] Instance error_eq_dec : EqDecision error.
Proof. solve_decision. Defined.

(** [Unwrap]: the broader error an error wraps. *)
Definition unwrap (e : error) : option error :=
  match e with
  | ErrClosed => Some net_ErrClosed
  | ErrPeerClosed => Some io_EOF
  | ErrPeerGone => Some ErrConnNotFound
  | ErrLinkBusy | ErrIncompatibleLayout => Some ErrFailedInit
  | ErrNotNegotiated | ErrAlreadyNegotiated | ErrNegotiationFailed
  | ErrNegotiationRejected | ErrUnexpectedPacket | ErrProtocol | ErrNotListening
  | ErrAlreadyListening | ErrShuttingDown => Some ErrInvalidOp
  | ErrIncomingOverflow | ErrReassemblyLimit => Some ErrBufferOverflow
  | ErrMessageAborted => Some ErrProtocol
  | errSegmentNotReady | errInitContended | errNoLiveEndpoint => Some ErrFailedInit
  | ErrTimeout => Some os_ErrDeadlineExceeded
  | ErrListenerBusy => Some ErrLinkBusy
  | ErrListenerClosed => Some ErrPeerClosed
  | ErrListenerGone => Some ErrPeerGone
  | ErrAcceptorClosed => Some ErrClosed
  | errListenerNotReady | errListenerDead => Some ErrFailedInit
  | errInstanceMismatch => Some ErrConnNotFound
  | errBadRecord => Some ErrProtocol
  | unknownCodeError _ => Some ErrProtocol
  | GeometryError _ _ => Some ErrInvalidSize
  | _ => None
  end.

(** [ResponseError.Is]: the only [Is] method of the package. *)
Definition is_method (e target : error) : bool :=
  match e with
  | ResponseError status _ =>
      bool_decide (target = ErrShuttingDown) && (status =? ErrCodeShuttingDown)
  | _ => false
  end.

(** [errors.Is]: equal, or accepted by an [Is] method, or so for what the
    error wraps. [fuel] bounds the walk; [unwrap_depth] below shows that four
    steps exhaust every chain of the package. *)
Fixpoint errors_is_fuel (fuel : nat) (e target : error) : bool :=
  bool_decide (e = target) || is_method e target ||
  match fuel, unwrap e with
  | S fuel', Some e' => errors_is_fuel fuel' e' target
  | _, _ => false
  end.

Definition errors_is (e target : error) : bool := errors_is_fuel 4 e target.

(** [errorFromCode]: the error of a protocol error code. *)
Definition errorFromCode (code : Z) : error :=
  if code =? ErrCodeMemoryAlign then ErrMemoryAlign
  else if code =? ErrCodeInvalidSize then ErrInvalidSize
  else if code =? ErrCodeMemorySmall then ErrMemorySmall
  else if code =? ErrCodeFailedInit then ErrFailedInit
  else if code =? ErrCodeConnNotFound then ErrConnNotFound
  else if code =? ErrCodeInvalidOp then ErrInvalidOp
  else if code =? ErrCodeShuttingDown then ErrShuttingDown
  else if code =? ErrCodeBufferOverflow then ErrBufferOverflow
  else unknownCodeError code.

(** ** Theorems *)

(** Unwrapping at most four times reaches an error that wraps nothing, so the
    fuel of [errors_is] never cuts a walk short. *)
Fixpoint unwrap_n (n : nat) (e : error) : option error :=
  match n with
  | O => Some e
  | S n' => e' ← unwrap e; unwrap_n n' e'
  end.

Lemma unwrap_depth e : unwrap_n 4 e = None.
Proof. destruct e; reflexivity. Qed.

Lemma errors_is_fuel_enough e target fuel :
  (4 <= fuel)%nat -> errors_is_fuel fuel e target = errors_is e target.
Proof.
  intros H. destruct fuel as [|[|[|[|fuel]]]]; try lia.
  unfold errors_is. destruct e; reflexivity.
Qed.

Lemma errors_is_refl e : errors_is e e = true.
Proof. unfold errors_is. simpl. by rewrite bool_decide_eq_true_2. Qed.

(** The error of a code says which code it was: distinct codes never yield
    the same error. *)
Lemma errorFromCode_inj c1 c2 : errorFromCode c1 = errorFromCode c2 -> c1 = c2.
Proof.
  unfold errorFromCode. intros H.
  repeat (bcase; [repeat (bcase; try discriminate); congruence|]).
  by injection H.
Qed.
