(* ===== verification/Protocol.v ===== *)
(** * Protocol: the fixed 64-byte packet ABI

    Models [internal/protocol/protocol.go]: a packet is its 64 bytes, and
    every accessor reads or writes one little-endian 64-bit word of them. The
    hot-path constructor [storeCopyPacket] of [standard.go], which writes only
    four of the eight words, is here too. *)
From S2P Require Import Prelude.

(** ** Constants *)

Definition HQQProtocolMajorVersion : Z := 1.
Definition HQQProtocolMinorVersion : Z := 1.
Definition PacketWordCount : Z := 8.
Definition PacketOperandCount : Z := PacketWordCount - 1.
Definition PacketSize : nat := 64.

(** ** Opcodes *)

Definition OpError : Z := 0x00.
Definition OpConnCreate : Z := 0x01.
Definition OpConnAccept : Z := 0x02.
Definition OpConnClose : Z := 0x03.
Definition OpConnCopy : Z := 0x04.
Definition OpProtoNegotiate : Z := 0x05.
Definition OpProtoAck : Z := 0x06.
Definition OpCancel : Z := 0x07.
Definition OpStandardLinkTombstone : Z := 0xFE.
Definition OpStandardLinkCopy : Z := 0xFF.

(** ** Packets *)

(** [type Packet [PacketSize]byte] *)
Abbreviation Packet := bytes.

Definition packet_wf (p : Packet) : Prop := length p = PacketSize /\ Forall is_byte p.

Definition zero_packet : Packet := replicate PacketSize 0.

(** [binary.LittleEndian.PutUint64(p[off:off+8], v)] *)
Definition PutUint64 (off : nat) (v : Z) (p : bytes) : bytes := blit off (le_put 8 v) p.

(** [binary.LittleEndian.Uint64(p[off:off+8])] *)
Definition Uint64 (off : nat) (p : bytes) : Z := le_get (slice off (off + 8) p).

Definition Op (p : Packet) : Z := Z.land (Uint64 0 p) 0xFF.

Definition SetOp (op : Z) (p : Packet) : Packet := PutUint64 0 op p.

Definition Operand (p : Packet) (i : Z) : Z :=
  if (i <? 0) || (PacketOperandCount <=? i) then 0
  else Uint64 (Z.to_nat ((i + 1) * 8)) p.

Definition SetOperand (i v : Z) (p : Packet) : Packet :=
  if (i <? 0) || (PacketOperandCount <=? i) then p
  else PutUint64 (Z.to_nat ((i + 1) * 8)) v p.

(** The operand loop of [NewPacket], from index [i] on. *)
Fixpoint set_operands (i : Z) (operands : list Z) (p : Packet) : Packet :=
  match operands with
  | [] => p
  | operand :: rest =>
      if PacketOperandCount <=? i then p
      else set_operands (i + 1) rest (SetOperand i operand p)
  end.

Definition NewPacket (op : Z) (operands : list Z) : Packet :=
  set_operands 0 operands (SetOp op zero_packet).

Definition NewStandardLinkCopyPacket (copyID bufferIndex size : Z) : Packet :=
  PutUint64 24 size (PutUint64 16 bufferIndex (PutUint64 8 copyID
    (PutUint64 0 OpStandardLinkCopy zero_packet))).

Definition NewStandardLinkTombstonePacket (copyID bufferIndex reason : Z) : Packet :=
  PutUint64 24 reason (PutUint64 16 bufferIndex (PutUint64 8 copyID
    (PutUint64 0 OpStandardLinkTombstone zero_packet))).

Definition NewConnCopyPacket
  (connectionID messageID totalSize chunkOffset chunkSize flags aux : Z) : Packet :=
  PutUint64 56 aux (PutUint64 48 flags (PutUint64 40 chunkSize (PutUint64 32 chunkOffset
    (PutUint64 24 totalSize (PutUint64 16 messageID (PutUint64 8 connectionID
      (PutUint64 0 OpConnCopy zero_packet))))))).

(** [standard.go], [storeCopyPacket]: write the copy packet into the slot
    packet [p], touching only the four words that carry data. *)
Definition storeCopyPacket (p : Packet) (copyID slot size : Z) : Packet :=
  PutUint64 24 size (PutUint64 16 slot (PutUint64 8 copyID
    (PutUint64 0 OpStandardLinkCopy p))).

(** ** Lemmas *)

Section PacketLemmas.
Implicit Types (p : bytes) (off : nat) (v : Z).

Lemma length_PutUint64 off v p :
  (off + 8 <= length p)%nat -> length (PutUint64 off v p) = length p.
Proof. intros H. unfold PutUint64. apply length_blit. by rewrite length_le_put. Qed.

Lemma Uint64_PutUint64_same off v p :
  (off + 8 <= length p)%nat -> Uint64 off (PutUint64 off v p) = u64 v.
Proof.
  intros H. unfold Uint64, PutUint64.
  pose proof (slice_blit_same off (le_put 8 v) p) as E.
  rewrite length_le_put in E. rewrite E by done. rewrite le_get_put. done.
Qed.

Lemma Uint64_PutUint64_other off off' v p :
  (off + 8 <= length p)%nat -> (off' + 8 <= off \/ off + 8 <= off')%nat ->
  Uint64 off' (PutUint64 off v p) = Uint64 off' p.
Proof.
  intros H [Ho|Ho]; unfold Uint64, PutUint64; f_equal.
  - apply slice_blit_before; lia.
  - apply slice_blit_after; rewrite ?length_le_put; lia.
Qed.

Lemma packet_wf_PutUint64 off v p :
  (off + 8 <= PacketSize)%nat -> packet_wf p -> packet_wf (PutUint64 off v p).
Proof.
  intros Ho [Hl Hb]. split.
  - rewrite length_PutUint64; [done|]. by rewrite Hl.
  - apply Forall_blit; [apply le_put_bytes|done].
Qed.

Lemma zero_packet_wf : packet_wf zero_packet.
Proof. split; [done|]. apply Forall_replicate. unfold is_byte. lia. Qed.

Lemma Uint64_range off p : Forall is_byte p -> word 64 (Uint64 off p).
Proof.
  intros H. unfold Uint64, word.
  assert (Hb : Forall is_byte (slice off (off + 8) p))
    by (unfold slice; by apply Forall_take, Forall_drop).
  pose proof (le_get_range _ Hb) as Hr.
  assert (length (slice off (off + 8) p) <= 8)%nat as Hl
    by (unfold slice; rewrite length_take; lia).
  assert (256 ^ Z.of_nat (length (slice off (off + 8) p)) <= 256 ^ 8)
    by (apply Z.pow_le_mono_r; lia).
  change (256 ^ 8) with (2 ^ 64) in *. lia.
Qed.

Lemma packet_wf_SetOperand i v p : packet_wf p -> packet_wf (SetOperand i v p).
Proof.
  intros H. unfold SetOperand. bcase; [done|].
  apply packet_wf_PutUint64; [|done]. unfold PacketOperandCount, PacketWordCount, PacketSize in *. lia.
Qed.

Lemma packet_wf_set_operands l : forall i p, packet_wf p -> packet_wf (set_operands i l p).
Proof.
  induction l as [|x l IH]; intros i p H; simpl; [done|].
  bcase; [done|]. by apply IH, packet_wf_SetOperand.
Qed.

Lemma Operand_SetOperand i j v p :
  packet_wf p -> word 64 v -> 0 <= i < PacketOperandCount ->
  Operand (SetOperand i v p) j = if i =? j then v else Operand p j.
Proof.
  intros [Hl Hb] Hv Hi. unfold Operand, SetOperand, PacketOperandCount, PacketWordCount in *.
  destruct (i <? 0) eqn:E1; breflect; [lia|]. destruct (8 - 1 <=? i) eqn:E2; breflect; [lia|]. simpl.
  unfold PacketSize in Hl.
  destruct (Z.eqb_spec i j) as [->|Hne].
  - rewrite (proj2 (Z.ltb_ge _ _)), (proj2 (Z.leb_gt _ _)) by lia. simpl.
    rewrite Uint64_PutUint64_same by lia. by apply u64_small.
  - destruct (j <? 0) eqn:E3; [done|]. destruct (8 - 1 <=? j) eqn:E4; [done|]. breflect. simpl.
    apply Uint64_PutUint64_other; lia.
Qed.

Lemma Op_SetOperand i v p : packet_wf p -> 0 <= i < PacketOperandCount -> Op (SetOperand i v p) = Op p.
Proof.
  intros [Hl Hb] Hi. unfold Op, SetOperand, PacketOperandCount, PacketWordCount in *.
  bcase; [done|]. f_equal. apply Uint64_PutUint64_other; unfold PacketSize in Hl; lia.
Qed.

Lemma set_operands_spec l : forall i p j,
  packet_wf p -> Forall (word 64) l -> 0 <= i ->
  Operand (set_operands i l p) j =
    if (i <=? j) && (j <? Z.min PacketOperandCount (i + Z.of_nat (length l)))
    then default 0 (l !! Z.to_nat (j - i)) else Operand p j.
Proof.
  induction l as [|x l IH]; intros i p j Hp Hl Hi; simpl set_operands.
  - simpl length. destruct (i <=? j) eqn:E1, (j <? Z.min PacketOperandCount (i + Z.of_nat 0)) eqn:E2;
      breflect; try done. lia.
  - inv Hl. destruct (PacketOperandCount <=? i) eqn:E; breflect.
    + destruct (i <=? j) eqn:E1, (j <? _) eqn:E2; breflect; try done. lia.
    + rewrite IH by (auto using packet_wf_SetOperand; lia).
      rewrite Operand_SetOperand by (auto; lia). simpl length.
      destruct (Z.eqb_spec i j) as [->|Hne].
      * rewrite (proj2 (Z.leb_gt (j + 1) j)), Z.leb_refl by lia. simpl.
        rewrite (proj2 (Z.ltb_lt _ _)) by lia. rewrite Z.sub_diag. done.
      * replace (i + 1 <=? j) with (i <=? j) by (destruct (i <=? j) eqn:?, (i + 1 <=? j) eqn:?; breflect; lia).
        replace (i + 1 + Z.of_nat (length l)) with (i + Z.of_nat (S (length l))) by lia.
        destruct (i <=? j) eqn:E1; [|done]. breflect.
        replace (Z.to_nat (j - i)) with (S (Z.to_nat (j - (i + 1)))) by lia. done.
Qed.

Lemma set_operands_Op l : forall i p,
  packet_wf p -> 0 <= i -> Op (set_operands i l p) = Op p.
Proof.
  induction l as [|x l IH]; intros i p Hp Hi; simpl; [done|].
  bcase; [done|]. rewrite IH by (auto using packet_wf_SetOperand; lia).
  apply Op_SetOperand; [done|lia].
Qed.

Lemma packet_wf_SetOp op p : packet_wf p -> packet_wf (SetOp op p).
Proof. apply packet_wf_PutUint64. unfold PacketSize. lia. Qed.

Lemma NewPacket_wf op l : packet_wf (NewPacket op l).
Proof. apply packet_wf_set_operands, packet_wf_SetOp, zero_packet_wf. Qed.

Lemma Op_SetOp op p : packet_wf p -> word 8 op -> Op (SetOp op p) = op.
Proof.
  intros [Hl Hb] Ho. unfold Op, SetOp. unfold PacketSize in Hl.
  rewrite Uint64_PutUint64_same by lia. unfold word in Ho.
  rewrite u64_small by (unfold word; lia).
  change 0xFF with (2 ^ 8 - 1). rewrite land_mask by lia. apply Z.mod_small. lia.
Qed.

Lemma zero_packet_Operand j : Operand zero_packet j = 0.
Proof.
  unfold Operand, PacketOperandCount, PacketWordCount. bcase; [done|].
  unfold Uint64, zero_packet, PacketSize. 
  assert (Hj : j = 0 \/ j = 1 \/ j = 2 \/ j = 3 \/ j = 4 \/ j = 5 \/ j = 6) by (simpl in *; lia).
  destruct Hj as [->|[->|[->|[->|[->|[->| ->]]]]]]; reflexivity.
Qed.

(** The words of a packet determine it. *)
Lemma le_get_inj a b :
  length a = length b -> Forall is_byte a -> Forall is_byte b -> le_get a = le_get b -> a = b.
Proof.
  intros Hl Ha Hb H. rewrite <- (le_put_get a Ha), <- (le_put_get b Hb), Hl, H. done.
Qed.

End PacketLemmas.

#[export] Hint Resolve zero_packet_wf NewPacket_wf packet_wf_SetOperand packet_wf_SetOp : hqq.

Lemma NewPacket_Op op l : word 8 op -> Op (NewPacket op l) = op.
Proof.
  intros Hop. unfold NewPacket. rewrite set_operands_Op by (auto with hqq; lia). apply Op_SetOp; auto with hqq.
Qed.

Lemma NewPacket_Operand op operands j :
  Forall (word 64) operands ->
  Operand (NewPacket op operands) j =
    if (0 <=? j) && (j <? PacketOperandCount) then default 0 (operands !! Z.to_nat j) else 0.
Proof.
  intros Hops. unfold NewPacket. rewrite set_operands_spec by (auto with hqq; lia). rewrite Z.add_0_l, Z.sub_0_r.
  assert (Hz : Operand (SetOp op zero_packet) j = 0).
  { rewrite <- (zero_packet_Operand j). unfold Operand at 1. unfold Operand. bcase; [done|].
    apply Uint64_PutUint64_other; unfold PacketOperandCount, PacketWordCount in *; [simpl; lia|lia]. }
  destruct (0 <=? j) eqn:E0; breflect; simpl; [|exact Hz].
  destruct (Z.ltb_spec j PacketOperandCount) as [E1|E1].
  - destruct (Z.ltb_spec j (Z.min PacketOperandCount (Z.of_nat (length operands)))) as [E2|E2]; [done|].
    rewrite (lookup_ge_None_2 operands) by lia. exact Hz.
  - rewrite (proj2 (Z.ltb_ge _ _)) by lia. exact Hz.
Qed.

(** ** Properties *)

(** Every packet [NewPacket] builds reads back as what it was built from:
    [Op] yields the opcode, [Operand j] the j-th operand given, and zero for
    the operands not given and for every out-of-range index. *)
Theorem NewPacket_roundtrip (op : Z) (operands : list Z)
  (Hop : word 8 op) (Hops : Forall (word 64) operands) :
  packet_wf (NewPacket op operands) /\
  Op (NewPacket op operands) = op /\
  forall j, Operand (NewPacket op operands) j =
    if (0 <=? j) && (j <? PacketOperandCount) then default 0 (operands !! Z.to_nat j) else 0.
Proof.
  split_and!; [apply NewPacket_wf|by apply NewPacket_Op|intros j; by apply NewPacket_Operand].
Qed.

Lemma NewPacket_roundtrip_witness :
  word 8 OpConnClose /\ Operand (NewPacket OpConnClose [7; 0]) 0 = 7.
Proof.
  assert (H : word 8 OpConnClose) by (unfold word, OpConnClose; lia).
  assert (H2 : Forall (word 64) [7; 0]) by (repeat constructor; lia).
  split; [exact H|].
  destruct (NewPacket_roundtrip OpConnClose [7; 0] H H2) as (_ & _ & E).
  rewrite E. reflexivity.
Defined.

(** The specialised constructors are the general one: the straight-line code
    that builds copy, tombstone and chunk packets yields byte for byte the
    packet of the operand loop. *)
Theorem specialised_packets_equal_NewPacket :
  (forall copyID bufferIndex size,
     NewStandardLinkCopyPacket copyID bufferIndex size =
     NewPacket OpStandardLinkCopy [copyID; bufferIndex; size]) /\
  (forall copyID bufferIndex reason,
     NewStandardLinkTombstonePacket copyID bufferIndex reason =
     NewPacket OpStandardLinkTombstone [copyID; bufferIndex; reason]) /\
  (forall connectionID messageID totalSize chunkOffset chunkSize flags aux,
     NewConnCopyPacket connectionID messageID totalSize chunkOffset chunkSize flags aux =
     NewPacket OpConnCopy
       [connectionID; messageID; totalSize; chunkOffset; chunkSize; flags; aux]).
Proof. split_and!; intros; reflexivity. Qed.

(** The tail words a slot must already have at zero for [storeCopyPacket] to
    build a full copy packet. *)
Definition tail_zero (p : Packet) : Prop :=
  length p = PacketSize /\ drop 32 p = replicate 32 0.

Lemma storeCopyPacket_app p a b c :
  length p = PacketSize ->
  storeCopyPacket p a b c =
    le_put 8 OpStandardLinkCopy ++ le_put 8 a ++ le_put 8 b ++ le_put 8 c ++ drop 32 p.
Proof.
  intros H. rewrite <- (take_drop 32 p) at 1.
  assert (Hl : length (take 32 p) = 32%nat) by (rewrite length_take, H; done).
  destruct (take 32 p) as [|x0 [|x1 [|x2 [|x3 [|x4 [|x5 [|x6 [|x7 [|x8 [|x9 [|x10 [|x11 [|x12 [|x13 [|x14
   [|x15 [|x16 [|x17 [|x18 [|x19 [|x20 [|x21 [|x22 [|x23 [|x24 [|x25 [|x26 [|x27 [|x28 [|x29 [|x30
   [|x31 [|? ?]]]]]]]]]]]]]]]]]]]]]]]]]]]]]]]]]; try discriminate. reflexivity.
Qed.

Lemma storeCopyPacket_copy p copyID slot size :
  tail_zero p -> storeCopyPacket p copyID slot size = NewStandardLinkCopyPacket copyID slot size.
Proof. intros [Hl Hz]. rewrite storeCopyPacket_app by done. rewrite Hz. reflexivity. Qed.

(** The hot path is the protocol constructor: on a slot whose four last words
    are zero, [storeCopyPacket] stores exactly [NewStandardLinkCopyPacket], and
    it keeps those words zero, as does a tombstone. A send ring of a Standard
    link therefore keeps the precondition once it is zeroed by [Format]. *)
Theorem storeCopyPacket_equiv (p : Packet) (copyID slot size : Z) (Hp : tail_zero p) :
  storeCopyPacket p copyID slot size = NewStandardLinkCopyPacket copyID slot size /\
  tail_zero (storeCopyPacket p copyID slot size) /\
  (forall reason, tail_zero (NewStandardLinkTombstonePacket copyID slot reason)) /\
  tail_zero zero_packet.
Proof.
  pose proof (storeCopyPacket_copy p copyID slot size Hp) as E.
  split; [exact E|]. rewrite E. repeat split.
Qed.

Lemma storeCopyPacket_equiv_witness :
  storeCopyPacket (NewStandardLinkTombstonePacket 1 2 3) 4 5 6 = NewStandardLinkCopyPacket 4 5 6.
Proof.
  apply (storeCopyPacket_equiv (NewStandardLinkTombstonePacket 1 2 3) 4 5 6).
  split; reflexivity.
Defined.
