(* ===== verification/Layout.v ===== *)
(** * Layout: sizes and offsets of rings and segments

    Models the size arithmetic of [internal/mpmc/mpmc.go] ([stride],
    [validRingSize], [SizeMPMCRing]), of [superblock.go] ([validConfig],
    [computeLayout], [alignedSum], [alignPage], [SizeStandardLink]), of
    [listener_layout.go] ([listenerLayoutSize]) and of [standard.go]
    ([AlignedBuffer], [splitBuffers]) on 64-bit platforms: [int], [uint] and
    [uintptr] have 64 bits. The page size is a parameter, since the code reads
    it from the system. *)
From S2P Require Import Prelude.

(** ** Ring sizes (mpmc.go) *)

Definition HeaderSize : Z := 512.
Definition slotAlign : Z := 64.

(** [stride[T]], from [unsafe.Sizeof(_melem[T]{})] *)
Definition stride (elemSize : Z) : Z :=
  and_not (u64 (elemSize + slotAlign - 1)) (slotAlign - 1).

Definition validRingSize (n : Z) : bool := (2 <=? n) && (Z.land n (n - 1) =? 0).

Definition SizeMPMCRing (elemSize n : Z) : Z :=
  if negb (validRingSize n) then 0
  else
    let st := stride elemSize in
    if (max_uint64 - HeaderSize) / st <? n then 0
    else u64 (HeaderSize + u64 (st * n)).

(** [unsafe.Sizeof] of a slot of a packet ring and of a listener ring: the
    sequence word and the element. *)
Definition packetSlotSize : Z := 8 + 64.
Definition mpmcSlotSize : Z := 8 + 248.

(** ** Segment layout (superblock.go) *)

Definition MinBufferCount : Z := 2.
Definition MinBufferSize : Z := 8.
Definition BufferSizeAlignment : Z := 8.
Definition maxBufferCount : Z := 2 ^ 24.
Definition maxBufferSize : Z := 2 ^ 30.

(** [unsafe.Sizeof(standardSuperblock{})]: 16 words and two 16-word records. *)
Definition superblockSize : Z := 16 * 8 + 2 * (16 * 8).

Definition isPowerOfTwo (v : Z) : bool := (0 <? v) && (Z.land v (v - 1) =? 0).

Definition validConfig (bufferCount bufferSize : Z) : bool :=
  isPowerOfTwo bufferCount &&
  (MinBufferCount <=? bufferCount) &&
  (bufferCount <=? maxBufferCount) &&
  (MinBufferSize <=? bufferSize) &&
  (bufferSize <=? maxBufferSize) &&
  (Z.rem bufferSize BufferSizeAlignment =? 0).

Record segmentLayout := mkLayout {
  ly_ring0 : Z; ly_buf0 : Z; ly_ring1 : Z; ly_buf1 : Z; ly_total : Z
}.

Section Segments.
Variable pagesize : Z.

(** [bits.Add] twice: the sum and the page rounding, each with its carry. *)
Definition alignedSum (a b : Z) : option Z :=
  let s := u64 (a + b) in
  let carry := (a + b) / 2 ^ 64 in
  if negb (carry =? 0) then None
  else
    let s' := u64 (s + u64 (pagesize - 1)) in
    let carry' := (s + u64 (pagesize - 1)) / 2 ^ 64 in
    if negb (carry' =? 0) then None
    else Some (u64 (s' / pagesize * pagesize)).

Definition alignPage (size : Z) : Z :=
  u64 (u64 (size + pagesize - 1) / pagesize * pagesize).

Definition computeLayout (bufferCount bufferSize : Z) : option segmentLayout :=
  if negb (validConfig bufferCount bufferSize) then None
  else
    let ringSize := SizeMPMCRing packetSlotSize bufferCount in
    if ringSize =? 0 then None
    else
      let hi := (bufferCount * bufferSize) / 2 ^ 64 in
      let buffersSize := u64 (bufferCount * bufferSize) in
      if negb (hi =? 0) || (max_int <? buffersSize) then None
      else
        let ring0 := alignPage superblockSize in
        buf0 ← alignedSum ring0 ringSize;
        ring1 ← alignedSum buf0 buffersSize;
        buf1 ← alignedSum ring1 ringSize;
        total ← alignedSum buf1 buffersSize;
        if total <=? max_int then Some (mkLayout ring0 buf0 ring1 buf1 total) else None.

Definition SizeStandardLink (bufferCount bufferSize : Z) : Z :=
  match computeLayout bufferCount bufferSize with
  | Some l => ly_total l
  | None => 0
  end.

(** [AlignedBuffer]: where in the backing array the aligned slice of [size]
    bytes starts, when the backing array is at address [base]. *)
Definition AlignedBuffer_start (base : Z) : Z :=
  let off := base mod pagesize in
  if negb (off =? 0) then pagesize - off else 0.

(** ** Listener segments (listener_layout.go) *)

Definition listenerRingOffset : Z := 4096.
Definition maxAcceptorQueueSize : Z := 2 ^ 16.

Definition listenerLayoutSize (capacity : Z) : Z :=
  if negb (isPowerOfTwo capacity) || (capacity <? 2) || (maxAcceptorQueueSize <? capacity) then 0
  else
    let ring := SizeMPMCRing mpmcSlotSize capacity in
    if ring =? 0 then 0
    else match alignedSum listenerRingOffset ring with
         | Some total => total
         | None => 0
         end.

End Segments.

(** ** Payload buffers (standard.go) *)

(** [splitBuffers]: the [i]-th payload buffer is [region[i*size:(i+1)*size]]. *)
Definition splitBuffers (region : bytes) (count size : nat) : list bytes :=
  map (fun i => let start := (i * size)%nat in slice start (start + size) region) (seq 0 count).

(** ** Lemmas *)

Lemma stride_packet : stride packetSlotSize = 128.
Proof. reflexivity. Qed.

Lemma stride_connectRecord : stride mpmcSlotSize = 256.
Proof. reflexivity. Qed.

Lemma validRingSize_pow2 n :
  validRingSize n = true <-> exists k, 1 <= k /\ n = 2 ^ k.
Proof.
  unfold validRingSize. split.
  - intros H. breflect. destruct (land_pred_pow2 n) as (k & Hk & ->); [lia|done|].
    exists k. split; [|done]. destruct (Z.eq_dec k 0) as [->|]; lia.
  - intros (k & Hk & ->). apply andb_true_iff. split.
    + apply Z.leb_le. change 2 with (2 ^ 1) at 1. apply Z.pow_le_mono_r; lia.
    + apply Z.eqb_eq, pow2_test_land. lia.
Qed.

Lemma isPowerOfTwo_pow2 n : isPowerOfTwo n = true <-> exists k, 0 <= k /\ n = 2 ^ k.
Proof.
  unfold isPowerOfTwo. split.
  - intros H. breflect. by apply land_pred_pow2.
  - intros (k & Hk & ->). apply andb_true_iff. split.
    + apply Z.ltb_lt, Z.pow_pos_nonneg; lia.
    + apply Z.eqb_eq, pow2_test_land. lia.
Qed.

Section LayoutLemmas.
Context (pagesize : Z).
Hypothesis Hpage : superblockSize <= pagesize <= 2 ^ 31.

Lemma round_up s :
  s <= (s + (pagesize - 1)) / pagesize * pagesize < s + pagesize /\
  ((s + (pagesize - 1)) / pagesize * pagesize) mod pagesize = 0.
Proof.
  unfold superblockSize in Hpage.
  split; [|apply Z_mod_mult].
  pose proof (Z.div_mod (s + (pagesize - 1)) pagesize).
  pose proof (Z.mod_pos_bound (s + (pagesize - 1)) pagesize). nia.
Qed.

Lemma alignedSum_spec a b :
  0 <= a -> 0 <= b ->
  match alignedSum pagesize a b with
  | Some s => a + b <= s < a + b + pagesize /\ s mod pagesize = 0 /\ s < 2 ^ 64
  | None => 2 ^ 64 <= a + b + (pagesize - 1)
  end.
Proof.
  intros Ha Hb. unfold alignedSum. unfold superblockSize in Hpage.
  rewrite (u64_small (pagesize - 1)) by (unfold word; lia).
  destruct (Z.eqb_spec ((a + b) / 2 ^ 64) 0) as [E|E]; simpl; [|zlia].
  assert (Hs : word 64 (a + b)) by (unfold word; zlia).
  rewrite (u64_small (a + b)) by done.
  destruct (Z.eqb_spec ((a + b + (pagesize - 1)) / 2 ^ 64) 0) as [E2|E2]; simpl; [|zlia].
  assert (Hs2 : word 64 (a + b + (pagesize - 1))) by (unfold word in *; zlia).
  rewrite (u64_small (a + b + (pagesize - 1))) by done.
  destruct (round_up (a + b)) as [Hr Hm].
  assert ((a + b + (pagesize - 1)) / pagesize * pagesize <= a + b + (pagesize - 1)).
  { pose proof (Z.mul_div_le (a + b + (pagesize - 1)) pagesize). lia. }
  rewrite u64_small by (unfold word in *; lia). unfold word in *. split_and!; try lia; done.
Qed.

Lemma SizeMPMCRing_bound elemSize n :
  0 < stride elemSize <= 2 ^ 10 -> validRingSize n = true -> n <= 2 ^ 24 ->
  SizeMPMCRing elemSize n = HeaderSize + stride elemSize * n.
Proof.
  intros Hst Hv Hn. unfold SizeMPMCRing. rewrite Hv. simpl.
  unfold validRingSize in Hv. breflect.
  assert (2 ^ 24 <= (max_uint64 - HeaderSize) / stride elemSize).
  { apply Z.div_le_lower_bound; [lia|]. unfold max_uint64, HeaderSize. nia. }
  rewrite (proj2 (Z.ltb_ge _ _)) by lia.
  rewrite (u64_small (stride elemSize * n)) by (unfold word; nia).
  apply u64_small. unfold word, HeaderSize. nia.
Qed.

Lemma validConfig_spec bc bs :
  validConfig bc bs = true ->
  validRingSize bc = true /\ 2 <= bc <= 2 ^ 24 /\ 8 <= bs <= 2 ^ 30 /\ Z.rem bs 8 = 0.
Proof.
  unfold validConfig, isPowerOfTwo, validRingSize, MinBufferCount, maxBufferCount,
    MinBufferSize, maxBufferSize, BufferSizeAlignment.
  intros H. breflect. split_and!; try lia.
Qed.

Lemma alignPage_superblock :
  alignPage pagesize superblockSize = pagesize.
Proof.
  unfold alignPage, superblockSize in *.
  rewrite (u64_small (_ + _ - 1)) by (unfold word; lia).
  replace ((16 * 8 + 2 * (16 * 8) + pagesize - 1) / pagesize) with 1.
  - rewrite Z.mul_1_l. apply u64_small. unfold word. lia.
  - apply Z.div_unique with (16 * 8 + 2 * (16 * 8) - 1); lia.
Qed.

Lemma alignedSum_total a b :
  0 <= a -> 0 <= b -> a + b < 2 ^ 60 ->
  exists s, alignedSum pagesize a b = Some s /\ a + b <= s < a + b + pagesize /\ s mod pagesize = 0.
Proof.
  intros Ha Hb H. pose proof (alignedSum_spec a b Ha Hb) as Hs.
  destruct (alignedSum pagesize a b) as [s|]; [|lia]. exists s. tauto.
Qed.

End LayoutLemmas.

(** ** Properties *)

(** Where the five regions of a segment lie: in order, page-aligned, each
    large enough for what it holds, inside a total size that fits in an
    [int]. *)
Definition layout_sound (pagesize bufferCount bufferSize : Z) (l : segmentLayout) : Prop :=
  let ring := HeaderSize + stride packetSlotSize * bufferCount in
  let bufs := bufferCount * bufferSize in
  superblockSize <= ly_ring0 l /\ ly_ring0 l + ring <= ly_buf0 l /\
  ly_buf0 l + bufs <= ly_ring1 l /\ ly_ring1 l + ring <= ly_buf1 l /\
  ly_buf1 l + bufs <= ly_total l /\ ly_total l <= max_int /\
  ly_ring0 l mod pagesize = 0 /\ ly_buf0 l mod pagesize = 0 /\ ly_ring1 l mod pagesize = 0 /\
  ly_buf1 l mod pagesize = 0 /\ ly_total l mod pagesize = 0.

(** [computeLayout] succeeds on exactly the valid configurations, and the
    layout it returns places superblock, rings and buffer pools in disjoint
    page-aligned regions without overflow. *)
Theorem computeLayout_correct (pagesize bufferCount bufferSize : Z)
  (Hpage : superblockSize <= pagesize <= 2 ^ 31) :
  (validConfig bufferCount bufferSize = true /\
   exists l, computeLayout pagesize bufferCount bufferSize = Some l /\
             SizeStandardLink pagesize bufferCount bufferSize = ly_total l /\
             layout_sound pagesize bufferCount bufferSize l) \/
  (validConfig bufferCount bufferSize = false /\
   computeLayout pagesize bufferCount bufferSize = None /\
   SizeStandardLink pagesize bufferCount bufferSize = 0).
Proof.
  unfold SizeStandardLink, computeLayout.
  destruct (validConfig bufferCount bufferSize) eqn:Hv; [left|right]; simpl; [|done].
  split; [done|].
  destruct (validConfig_spec _ _ Hv) as (Hr & Hc & Hs & _).
  rewrite (SizeMPMCRing_bound packetSlotSize bufferCount) by (rewrite ?stride_packet; lia || done).
  rewrite stride_packet. unfold HeaderSize.
  rewrite (proj2 (Z.eqb_neq (512 + 128 * bufferCount) 0)) by lia.
  assert (Hmul : 0 <= bufferCount * bufferSize <= 2 ^ 54) by nia.
  rewrite (Z.div_small (bufferCount * bufferSize)) by lia. simpl.
  rewrite u64_small by (unfold word; lia).
  rewrite (proj2 (Z.ltb_ge max_int _)) by (unfold max_int; lia).
  rewrite alignPage_superblock by done.
  unfold superblockSize in *. unfold layout_sound.
  destruct (alignedSum_total pagesize Hpage pagesize (512 + 128 * bufferCount)) as (b0 & E0 & Hb0 & Hm0); [lia..|].
  destruct (alignedSum_total pagesize Hpage b0 (bufferCount * bufferSize)) as (r1 & E1 & Hr1 & Hm1); [lia..|].
  destruct (alignedSum_total pagesize Hpage r1 (512 + 128 * bufferCount)) as (b1 & E2 & Hb1 & Hm2); [lia..|].
  destruct (alignedSum_total pagesize Hpage b1 (bufferCount * bufferSize)) as (t & E3 & Ht & Hm3); [lia..|].
  rewrite E0. simpl. rewrite E1. simpl. rewrite E2. simpl. rewrite E3. simpl.
  rewrite (proj2 (Z.leb_le t max_int)) by (unfold max_int; lia).
  exists (mkLayout pagesize b0 r1 b1 t). split_and!; try done; simpl; unfold HeaderSize, superblockSize;
    rewrite ?stride_packet; try lia; try (unfold max_int; lia).
  apply Z_mod_same_full.
Qed.

Lemma computeLayout_correct_witness :
  computeLayout 4096 4 64 = Some (mkLayout 4096 8192 12288 16384 20480) /\
  SizeStandardLink 4096 4 64 = 20480 /\ SizeStandardLink 4096 3 64 = 0.
Proof.
  assert (H : superblockSize <= 4096 <= 2 ^ 31) by (unfold superblockSize; lia).
  destruct (computeLayout_correct 4096 4 64 H) as [(_ & l & E & S & _)|(C & _)];
    [|vm_compute in C; discriminate].
  destruct (computeLayout_correct 4096 3 64 H) as [(C & _)|(_ & _ & S3)];
    [vm_compute in C; discriminate|].
  split; [reflexivity|]. split; [rewrite S|exact S3].
  assert (l = mkLayout 4096 8192 12288 16384 20480) as -> by (vm_compute in E; congruence).
  reflexivity.
Defined.

Lemma concat_slices (region : bytes) (size : nat) : forall count start,
  (start + count * size <= length region)%nat ->
  concat (map (fun i => slice (start + i * size) (start + i * size + size) region) (seq 0 count)) =
  slice start (start + count * size) region.
Proof.
  induction count as [|count IH]; intros start Hl.
  - simpl. unfold slice. rewrite Nat.add_0_r, Nat.sub_diag. done.
  - rewrite seq_S, map_app, concat_app. rewrite IH by lia. simpl. rewrite app_nil_r.
    unfold slice.
    replace (start + count * size - start)%nat with (count * size)%nat by lia.
    replace (start + count * size + size - (start + count * size))%nat with size by lia.
    replace (start + (size + count * size) - start)%nat with (count * size + size)%nat by lia.
    rewrite <- (drop_drop region (count * size) start).
    apply take_take_drop.
Qed.

(** The payload buffers of a direction partition its region: there are
    [count] of them, each of [size] bytes, and together they are the region,
    so that no two slots share a byte. *)
Theorem splitBuffers_partition (region : bytes) (count size : nat)
  (Hl : length region = (count * size)%nat) :
  length (splitBuffers region count size) = count /\
  Forall (fun b => length b = size) (splitBuffers region count size) /\
  concat (splitBuffers region count size) = region.
Proof.
  unfold splitBuffers. split_and!.
  - by rewrite length_map, length_seq.
  - apply Forall_map, Forall_forall. intros i Hi%in_seq.
    rewrite length_slice; [lia|]. rewrite Hl. nia.
  - pose proof (concat_slices region size count 0) as H. simpl in H.
    rewrite H by lia. rewrite <- Hl. apply slice_full.
Qed.

Lemma splitBuffers_partition_witness :
  splitBuffers [1; 2; 3; 4; 5; 6] 3 2 = [[1; 2]; [3; 4]; [5; 6]] /\
  concat (splitBuffers [1; 2; 3; 4; 5; 6] 3 2) = [1; 2; 3; 4; 5; 6].
Proof.
  split; [reflexivity|].
  apply (splitBuffers_partition [1; 2; 3; 4; 5; 6] 3 2). reflexivity.
Defined.

Lemma AlignedBuffer_aligned pagesize base :
  0 < pagesize -> 
  (base + AlignedBuffer_start pagesize base) mod pagesize = 0 /\
  0 <= AlignedBuffer_start pagesize base < pagesize.
Proof.
  intros Hp. unfold AlignedBuffer_start.
  pose proof (Z.mod_pos_bound base pagesize Hp).
  destruct (Z.eqb_spec (base mod pagesize) 0) as [E|E]; simpl; split; try lia.
  - by rewrite Z.add_0_r.
  - rewrite Z.add_comm, <- Zplus_mod_idemp_r.
    replace (pagesize - base mod pagesize + base mod pagesize) with (1 * pagesize) by lia.
    apply Z_mod_mult.
Qed.

(** A listener segment holds its header and its ring: [listenerLayoutSize] is
    non-zero exactly for a power-of-two capacity in [2..maxAcceptorQueueSize],
    and is then a page multiple with room for the ring behind the header. *)
Theorem listenerLayoutSize_correct (pagesize capacity : Z)
  (Hpage : superblockSize <= pagesize <= 2 ^ 31) :
  let n := listenerLayoutSize pagesize capacity in
  (n <> 0 <-> isPowerOfTwo capacity = true /\ 2 <= capacity <= maxAcceptorQueueSize) /\
  (n <> 0 -> listenerRingOffset + HeaderSize + 256 * capacity <= n /\ n mod pagesize = 0).
Proof.
  unfold listenerLayoutSize, maxAcceptorQueueSize.
  destruct (isPowerOfTwo capacity) eqn:Hp; simpl; [|split; [split; [done|intros []; done]|done]].
  destruct (Z.ltb_spec capacity 2) as [|H2]; simpl; [split; [split; [done|lia]|done]|].
  destruct (Z.ltb_spec (2 ^ 16) capacity) as [|H3]; simpl; [split; [split; [done|lia]|done]|].
  assert (Hv : validRingSize capacity = true).
  { unfold validRingSize, isPowerOfTwo in *. breflect. apply andb_true_iff.
    split; [by apply Z.leb_le|by apply Z.eqb_eq]. }
  rewrite (SizeMPMCRing_bound mpmcSlotSize capacity) by (rewrite ?stride_connectRecord; lia || done).
  rewrite stride_connectRecord. unfold HeaderSize.
  rewrite (proj2 (Z.eqb_neq _ 0)) by lia.
  destruct (alignedSum_total pagesize Hpage listenerRingOffset (512 + 256 * capacity)) as (s & E & Hs & Hm);
    [unfold listenerRingOffset; lia..|].
  rewrite E. unfold listenerRingOffset in *. split; [split; [done|lia]|]. intros _. split; [lia|done].
Qed.

Lemma listenerLayoutSize_correct_witness :
  listenerLayoutSize 4096 64 = 24576 /\ 24576 mod 4096 = 0.
Proof.
  split; [reflexivity|].
  apply (listenerLayoutSize_correct 4096 64); [unfold superblockSize; lia|].
  vm_compute. discriminate.
Defined.
