(* ===== verification/Ring.v ===== *)
(** * Ring: the MPMC ring in shared memory

    Models the ring header, the slots and the operations of
    [internal/mpmc/mpmc.go]. The shared memory is the record [mring]; the
    handle a process keeps ([MPMCRing]) is separate from it. Operations are
    functions on the memory and return the wake-ups they issue. A claim is
    split at its atomic accesses: [claim_step] is one access of
    [claimProducer]/[claimProducerSlow] (side [NotFull]) or
    [claimConsumer]/[claimConsumerSlow] (side [NotEmpty]), so that the same
    definition serves the interleaving semantics of RingConc and the
    single-threaded runs below. *)
From S2P Require Import Prelude Errors Layout.

(** ** Constants *)

Definition layoutVersion : Z := 2.
Definition mpmc_magic : Z := 0xc9d8c1d43f096702.
Definition mpmc_reserved : Z := 1.
Definition mpmc_init : Z := 2.
Definition FormatSlice : Z := 1024.

Inductive Side := NotEmpty | NotFull.

Inductive WaitPolicy := WaitAdaptive | WaitSpin.

(** What a waker does: wake the futex waiters of a side's wait word, or grant
    tokens through the Parker. *)
Inductive wake_event :=
| FutexWake (side : Side)
| ParkerWake (side : Side) (n : Z).

#[export] Instance Side_eq_dec : EqDecision Side.
Proof. solve_decision. Defined.

(** ** Shared memory *)

(** [_melem[T]]: a sequence number followed by the payload. *)
Record melem (T : Type) := mkElem { e_seq : Z; e_data : T }.
Arguments mkElem {T} _ _.
Arguments e_seq {T} _.
Arguments e_data {T} _.

(** [_mring] and the slots behind it. *)
Record mring (T : Type) := mkRing {
  m_magic : Z; m_size : Z; m_flag : Z; m_stride : Z; m_version : Z;
  m_r : Z;
  m_w : Z;
  notEmpty : Z; emptyWaiters : Z; notFull : Z; fullWaiters : Z;
  slots : list (melem T)
}.
Arguments mkRing {T} _ _ _ _ _ _ _ _ _ _ _ _.
Arguments m_magic {T} _.
Arguments m_size {T} _.
Arguments m_flag {T} _.
Arguments m_stride {T} _.
Arguments m_version {T} _.
Arguments m_r {T} _.
Arguments m_w {T} _.
Arguments notEmpty {T} _.
Arguments emptyWaiters {T} _.
Arguments notFull {T} _.
Arguments fullWaiters {T} _.
Arguments slots {T} _.

(** [MPMCRing]: the process-local handle. [h_parker] tells whether a Parker
    was set. *)
Record MPMCRing := mkHandle {
  h_mask : Z; h_size : Z; h_stride : Z; h_policy : WaitPolicy; h_parker : bool
}.

Section Ring.
Context {T : Type}.
Implicit Types (m : mring T) (h : MPMCRing) (pos slot : Z).

(** *** Word accesses *)

Definition with_slots m (l : list (melem T)) : mring T :=
  mkRing (m_magic m) (m_size m) (m_flag m) (m_stride m) (m_version m) (m_r m) (m_w m)
    (notEmpty m) (emptyWaiters m) (notFull m) (fullWaiters m) l.

(** Magic and flag, the two words that mark the ring as initialised. *)
Definition with_marks m (magic flag : Z) : mring T :=
  mkRing magic (m_size m) flag (m_stride m) (m_version m) (m_r m) (m_w m)
    (notEmpty m) (emptyWaiters m) (notFull m) (fullWaiters m) (slots m).

(** The cursor a side claims from: producers wait for [NotFull] and claim
    from [w], consumers wait for [NotEmpty] and claim from [r]. *)
Definition cursor (side : Side) m : Z :=
  match side with NotFull => m_w m | NotEmpty => m_r m end.

Definition set_cursor (side : Side) (v : Z) m : mring T :=
  let (r', w') := match side with NotFull => (m_r m, v) | NotEmpty => (v, m_w m) end in
  mkRing (m_magic m) (m_size m) (m_flag m) (m_stride m) (m_version m) r' w'
    (notEmpty m) (emptyWaiters m) (notFull m) (fullWaiters m) (slots m).

(** [site(side)]: the waiter count and the wait word of a side. *)
Definition waiters (side : Side) m : Z :=
  match side with NotEmpty => emptyWaiters m | NotFull => fullWaiters m end.

Definition bump_word (side : Side) m : mring T :=
  let (ne, nf) := match side with
                  | NotEmpty => (u32 (notEmpty m + 1), notFull m)
                  | NotFull => (notEmpty m, u32 (notFull m + 1))
                  end in
  mkRing (m_magic m) (m_size m) (m_flag m) (m_stride m) (m_version m) (m_r m) (m_w m)
    ne (emptyWaiters m) nf (fullWaiters m) (slots m).

Definition load_seq m slot : Z :=
  match slots m !! Z.to_nat slot with Some e => e_seq e | None => 0 end.

Definition store_seq slot (v : Z) m : mring T :=
  with_slots m (alter (fun e => mkElem v (e_data e)) (Z.to_nat slot) (slots m)).

Definition load_data m slot : option T := e_data <$> slots m !! Z.to_nat slot.

Definition store_data slot (v : T) m : mring T :=
  with_slots m (alter (fun e => mkElem (e_seq e) v) (Z.to_nat slot) (slots m)).

(** *** Initialisation *)

(** The body of the slot loop of [FormatGuarded]: [n] slots from index [i]
    on; [check k] is the result of the [k]-th call of the check function. *)
Fixpoint format_loop (zero : T) (check : option (nat -> option error)) (n : nat) (i : Z) (k : nat)
  (l : list (melem T)) : list (melem T) * nat * option error :=
  match n with
  | O => (l, k, None)
  | S n' =>
      let write l := <[Z.to_nat i := mkElem i zero]> l in
      match check with
      | Some c =>
          if negb (i =? 0) && (i mod FormatSlice =? 0) then
            match c k with
            | Some err => (l, S k, Some err)
            | None => format_loop zero check n' (i + 1) (S k) (write l)
            end
          else format_loop zero check n' (i + 1) k (write l)
      | None => format_loop zero check n' (i + 1) k (write l)
      end
  end.

(** One run of the check function: its error, if any, and the next index. *)
Definition run_check (check : option (nat -> option error)) (k : nat) : option error * nat :=
  match check with Some c => (c k, S k) | None => (None, k) end.

(** [FormatGuarded]. [None] is the panic on an invalid size. *)
Definition FormatGuarded (zero : T) (elemSize size : Z) (check : option (nat -> option error)) m
  : option (mring T * option error) :=
  if negb (validRingSize size) then None
  else
    let (e0, k0) := run_check check 0 in
    match e0 with
    | Some err => Some (m, Some err)
    | None =>
        let m1 := with_marks m 0 0 in
        let '(l, k1, e1) := format_loop zero check (Z.to_nat size) 0 k0 (slots m1) in
        let m2 := with_slots m1 l in
        match e1 with
        | Some err => Some (m2, Some err)
        | None =>
            match run_check check k1 with
            | (Some err, _) => Some (m2, Some err)
            | (None, _) =>
                Some (mkRing mpmc_magic size mpmc_init (stride elemSize) layoutVersion
                        0 0 0 0 0 0 l, None)
            end
        end
    end.

Definition Format (zero : T) (elemSize size : Z) m : option (mring T) :=
  fst <$> FormatGuarded zero elemSize size None m.

(** One look of [Attach] at the header. *)
Inductive attach_look := LookReady (h : MPMCRing) | LookIncompatible | LookNotReady.

Definition attach_once (elemSize : Z) m : attach_look :=
  if (m_magic m =? mpmc_magic) && has_bits (m_flag m) mpmc_init then
    let size := m_size m in
    let st := stride elemSize in
    if negb (m_stride m =? st) || negb (m_version m =? layoutVersion) || negb (validRingSize size)
    then LookIncompatible
    else LookReady (mkHandle (size - 1) size st WaitAdaptive false)
  else LookNotReady.

(** [Attach]: each iteration sees the memory at that time and the time since
    the call; the outer [None] means that the listed iterations did not
    finish the call. *)
Fixpoint Attach (elemSize timeout : Z) (looks : list (Z * mring T)) : option (option MPMCRing) :=
  match looks with
  | [] => None
  | (since, m) :: rest =>
      match attach_once elemSize m with
      | LookReady h => Some (Some h)
      | LookIncompatible => Some None
      | LookNotReady =>
          if (0 <? timeout) && (timeout <=? since) then Some None else Attach elemSize timeout rest
      end
  end.

(** *** Wake-ups *)

Definition wakeWord (side : Side) m : mring T * list wake_event :=
  (bump_word side m, [FutexWake side]).

Definition wakeOne h (side : Side) m : mring T * list wake_event :=
  if h_parker h then
    if negb (waiters side m =? 0) then (m, [ParkerWake side 1]) else (m, [])
  else wakeWord side m.

Definition wakeAll h (side : Side) m : mring T * list wake_event :=
  if h_parker h then
    let n := waiters side m in
    if negb (n =? 0) then (m, [ParkerWake side n]) else (m, [])
  else wakeWord side m.

Definition WakeAll h m : mring T * list wake_event :=
  let (m1, e1) := wakeAll h NotEmpty m in
  let (m2, e2) := wakeAll h NotFull m1 in
  (m2, e1 ++ e2).

Definition notifyConsumers h m : mring T * list wake_event :=
  if negb (emptyWaiters m =? 0) then wakeOne h NotEmpty m else (m, []).

Definition notifyProducers h m : mring T * list wake_event :=
  if negb (fullWaiters m =? 0) then wakeOne h NotFull m else (m, []).

(** *** Claims *)

(** Where a claim is: [ClLoad slow] is about to load the cursor, [ClSeq] about
    to load the slot's sequence number, [ClCas] about to compare-and-swap the
    cursor, [ClWait] inside [w.wait]. [slow] tells the fast function from its
    [Slow] continuation. *)
Inductive claim_pc :=
| ClLoad (slow : bool)
| ClSeq (slow : bool) (pos : Z)
| ClCas (slow : bool) (pos : Z)
| ClWait (pos : Z)
| ClDone (pos : Z)
| ClErr (e : error).

(** The sequence number that makes position [pos] claimable by a side. *)
Definition target (side : Side) pos : Z :=
  match side with NotFull => pos | NotEmpty => u64 (pos + 1) end.

(** The slot index [pos & mask]. *)
Definition slot_of h pos : Z := Z.land pos (h_mask h).

(** The [switch] on [diff]. *)
Definition claim_switch (side : Side) (slow : bool) (seq pos : Z) : claim_pc :=
  let diff := i64 (seq - target side pos) in
  if diff =? 0 then ClCas slow pos
  else if 0 <? diff then ClLoad slow
  else if slow then ClWait pos else ClSeq true pos.

(** One atomic access of a claim. [wait_err] is the result of the [wait] call
    the claim is in, if it is in one. *)
Definition claim_step (side : Side) h (wait_err : option error) m (pc : claim_pc) : mring T * claim_pc :=
  match pc with
  | ClLoad slow => (m, ClSeq slow (cursor side m))
  | ClSeq slow pos => (m, claim_switch side slow (load_seq m (slot_of h pos)) pos)
  | ClCas slow pos =>
      if cursor side m =? pos then (set_cursor side (u64 (pos + 1)) m, ClDone pos)
      else (m, ClLoad slow)
  | ClWait pos =>
      match wait_err with
      | Some e => (m, ClErr e)
      | None => (m, ClSeq true pos)
      end
  | ClDone pos => (m, ClDone pos)
  | ClErr e => (m, ClErr e)
  end.

Definition claim_final (pc : claim_pc) : bool :=
  match pc with ClDone _ | ClErr _ => true | _ => false end.

(** A claim run on its own: between two steps only a wait lets other parties
    run, so [waits] lists what each [wait] call returns together with the
    memory it returns to. [None]: still waiting after the listed waits. *)
Fixpoint claim_run (fuel : nat) (side : Side) h (waits : list (option error * mring T)) m (pc : claim_pc)
  : option (mring T * result error Z) :=
  match fuel with
  | O => None
  | S fuel' =>
      match pc with
      | ClDone pos => Some (m, Ok pos)
      | ClErr e => Some (m, Err e)
      | ClWait _ =>
          match waits with
          | [] => None
          | (we, m') :: waits' =>
              let (m2, pc2) := claim_step side h we m' pc in claim_run fuel' side h waits' m2 pc2
          end
      | _ => let (m2, pc2) := claim_step side h None m pc in claim_run fuel' side h waits m2 pc2
      end
  end.

(** Steps a claim that is never overtaken needs: load, at most two passes
    before each wait and the final one, and the result. *)
Definition claim_fuel (waits : list (option error * mring T)) : nat := 8 + 4 * length waits.

Definition claimProducer h waits m : option (mring T * result error Z) :=
  claim_run (claim_fuel waits) NotFull h waits m (ClLoad false).

Definition claimConsumer h waits m : option (mring T * result error Z) :=
  claim_run (claim_fuel waits) NotEmpty h waits m (ClLoad false).

(** *** Completing a claim *)

Definition publish h pos m : mring T * list wake_event :=
  notifyConsumers h (store_seq (slot_of h pos) (u64 (pos + 1)) m).

Definition release h pos m : mring T * list wake_event :=
  notifyProducers h (store_seq (slot_of h pos) (u64 (pos + h_mask h + 1)) m).

(** [publishSlot]/[releaseSlot]: the compare-and-swap variants. *)
Definition publishSlot h pos m : mring T * list wake_event * bool :=
  if load_seq m (slot_of h pos) =? pos then
    let (m1, ev) := notifyConsumers h (store_seq (slot_of h pos) (u64 (pos + 1)) m) in (m1, ev, true)
  else (m, [], false).

Definition releaseSlot h pos m : mring T * list wake_event * bool :=
  if load_seq m (slot_of h pos) =? u64 (pos + 1) then
    let (m1, ev) := notifyProducers h (store_seq (slot_of h pos) (u64 (pos + h_mask h + 1)) m) in (m1, ev, true)
  else (m, [], false).

(** *** Slots held by callers *)

(** [ProducerSlot]/[ConsumerSlot]: the position and the [done] flag of this
    copy; [cs_elem] tells a reserved slot from the zero value. *)
Record ClaimedSlot := mkSlot { cs_pos : Z; cs_elem : bool; cs_done : bool }.

Definition Valid (s : ClaimedSlot) : bool := cs_elem s && negb (cs_done s).

Definition producer_Owned h (s : ClaimedSlot) m : bool :=
  Valid s && (load_seq m (slot_of h (cs_pos s)) =? cs_pos s).

Definition consumer_Owned h (s : ClaimedSlot) m : bool :=
  Valid s && (load_seq m (slot_of h (cs_pos s)) =? u64 (cs_pos s + 1)).

Definition Slot h (s : ClaimedSlot) : Z := slot_of h (cs_pos s).

(** [Commit]: the slot (with [done] set), the memory, the wake-ups, the result. *)
Definition Commit h (s : ClaimedSlot) m : ClaimedSlot * mring T * list wake_event * bool :=
  if negb (Valid s) then (s, m, [], false)
  else
    let '(m1, ev, b) := publishSlot h (cs_pos s) m in
    (mkSlot (cs_pos s) (cs_elem s) true, m1, ev, b).

Definition Release h (s : ClaimedSlot) m : ClaimedSlot * mring T * list wake_event * bool :=
  if negb (Valid s) then (s, m, [], false)
  else
    let '(m1, ev, b) := releaseSlot h (cs_pos s) m in
    (mkSlot (cs_pos s) (cs_elem s) true, m1, ev, b).

Definition CommitOwned h (s : ClaimedSlot) m : mring T * list wake_event := publish h (cs_pos s) m.

Definition ReleaseOwned h (s : ClaimedSlot) m : mring T * list wake_event := release h (cs_pos s) m.

Definition ReserveProducerCancel h waits m : option (mring T * result error ClaimedSlot) :=
  '(m1, r) ← claimProducer h waits m;
  Some (m1, match r with Ok pos => Ok (mkSlot pos true false) | Err e => Err e end).

Definition ReserveConsumerCancel h waits m : option (mring T * result error ClaimedSlot) :=
  '(m1, r) ← claimConsumer h waits m;
  Some (m1, match r with Ok pos => Ok (mkSlot pos true false) | Err e => Err e end).

(** *** Whole operations *)

(** [EnqueueZeroCopyCancel]: [fn] maps the slot index and the old element to
    the element it leaves, or [None] when it panics. *)
Definition EnqueueZeroCopyCancel (zero : T) h waits (fn : Z -> T -> option T) m
  : option (mring T * list wake_event * option error) :=
  '(m1, r) ← claimProducer h waits m;
  match r with
  | Err e => Some (m1, [], Some e)
  | Ok pos =>
      let slot := slot_of h pos in
      let old := default zero (load_data m1 slot) in
      let new := default zero (fn slot old) in
      let (m2, ev) := publish h pos (store_data slot new m1) in
      Some (m2, ev, None)
  end.

(** [DequeueZeroCopyCancel]: the slot is released whether [fn] returns or
    panics; the result carries what [fn] was given. *)
Definition DequeueZeroCopyCancel (zero : T) h waits m
  : option (mring T * list wake_event * result error (Z * T)) :=
  '(m1, r) ← claimConsumer h waits m;
  match r with
  | Err e => Some (m1, [], Err e)
  | Ok pos =>
      let slot := slot_of h pos in
      let seen := default zero (load_data m1 slot) in
      let (m2, ev) := release h pos m1 in
      Some (m2, ev, Ok (slot, seen))
  end.

Definition EnqueueWithContext h waits (v : T) m : option (mring T * list wake_event * bool) :=
  '(m1, r) ← claimProducer h waits m;
  match r with
  | Err _ => Some (m1, [], false)
  | Ok pos =>
      let (m2, ev) := publish h pos (store_data (slot_of h pos) v m1) in Some (m2, ev, true)
  end.

Definition DequeueWithContext (zero : T) h waits m
  : option (mring T * list wake_event * option T) :=
  '(m1, r) ← claimConsumer h waits m;
  match r with
  | Err _ => Some (m1, [], None)
  | Ok pos =>
      let elem := default zero (load_data m1 (slot_of h pos)) in
      let (m2, ev) := release h pos m1 in Some (m2, ev, Some elem)
  end.

End Ring.

Arguments attach_look : clear implicits.
