(* ===== verification/RingInv.v ===== *)
(** * RingInv: the representation invariant of the ring

    What the words of a ring mean. A ghost state gives every absolute
    position (the unbounded count of claims, of which the ring stores the
    value modulo [2^64]) a phase and a value; [rep] relates it to the memory.
    One lemma per operation of Ring shows what the operation does to the
    ghost state. RingConc and the single-threaded theorems share them. *)
From S2P Require Import Prelude Errors Layout Ring.

(** The life of a position: claimed by a producer, published, claimed by a
    consumer, released (or never used). *)
Inductive phase := Writing | Full | Reading | Free.

#[export] Instance phase_eq_dec : EqDecision phase.
Proof. solve_decision. Defined.

Section Rep.
Context {T : Type}.

(** [gW]/[gR]: claims made so far by producers and consumers. *)
Record ghost := mkGhost { gW : Z; gR : Z; ph : Z -> phase; val : Z -> T }.

(** The sequence number of a slot whose latest position is [p]. *)
Definition seqof (n p : Z) (f : phase) : Z :=
  match f with Writing => p | Full | Reading => p + 1 | Free => p + n end.

Record rep (k : Z) (h : MPMCRing) (m : mring T) (g : ghost) : Prop := {
  rep_k : 1 <= k <= 61;
  rep_mask : h_mask h = 2 ^ k - 1;
  rep_len : length (slots m) = Z.to_nat (2 ^ k);
  rep_w : m_w m = u64 (gW g);
  rep_r : m_r m = u64 (gR g);
  rep_cursors : 0 <= gR g <= gW g /\ gW g <= gR g + 2 ^ k;
  rep_seq : forall p, gW g - 2 ^ k <= p < gW g ->
    load_seq m (p mod 2 ^ k) = u64 (seqof (2 ^ k) p (ph g p));
  rep_old : forall p, p < 0 \/ p < gW g - 2 ^ k -> ph g p = Free;
  rep_busy : forall p, gR g <= p < gW g -> ph g p = Writing \/ ph g p = Full;
  rep_done : forall p, p < gR g -> ph g p = Reading \/ ph g p = Free;
  rep_data : forall p, p < gW g -> ph g p = Full \/ ph g p = Reading ->
    load_data m (p mod 2 ^ k) = Some (val g p)
}.

(** The abstract queue: the values claimed by producers and not yet by
    consumers, oldest first. *)
Definition contents (g : ghost) : list T :=
  map (fun i => val g (gR g + Z.of_nat i)) (seq 0 (Z.to_nat (gW g - gR g))).

(** ** Lemmas *)

Section RepLemmas.
Context (k : Z) (h : MPMCRing).
Implicit Types (m : mring T) (g : ghost) (p q : Z).

Lemma pow_bounds : 1 <= k <= 61 -> 2 <= 2 ^ k <= 2 ^ 61.
Proof.
  intros H. split.
  - change 2 with (2 ^ 1) at 1. apply Z.pow_le_mono_r; lia.
  - apply Z.pow_le_mono_r; lia.
Qed.

Lemma slot_of_u64 m g p : rep k h m g -> slot_of h (u64 p) = p mod 2 ^ k.
Proof.
  intros H. destruct H. unfold slot_of. rewrite rep_mask0, land_mask by lia.
  apply mod_pow_u64. lia.
Qed.

(** Only slots and cursors matter. *)
Lemma rep_ext m m' g :
  slots m' = slots m -> m_w m' = m_w m -> m_r m' = m_r m -> rep k h m g -> rep k h m' g.
Proof.
  intros Es Ew Er H. destruct H. unfold load_seq, load_data in *.
  constructor; rewrite ?Es, ?Ew, ?Er; auto; unfold load_seq, load_data; rewrite ?Es; auto.
Qed.

(** The position of the last [n] that shares the slot of [p]. *)
Definition latest (w p : Z) : Z := w - 2 ^ k + (p - (w - 2 ^ k)) mod 2 ^ k.

Lemma latest_spec w p :
  1 <= k <= 61 ->
  w - 2 ^ k <= latest w p < w /\ latest w p mod 2 ^ k = p mod 2 ^ k.
Proof.
  intros Hk. pose proof (pow_bounds Hk). unfold latest.
  pose proof (Z.mod_pos_bound (p - (w - 2 ^ k)) (2 ^ k)). split; [lia|].
  rewrite Zplus_mod_idemp_r. f_equal. lia.
Qed.

Lemma latest_cursor w : 1 <= k <= 61 -> latest w w = w - 2 ^ k.
Proof.
  intros Hk. pose proof (pow_bounds Hk). unfold latest.
  replace (w - (w - 2 ^ k)) with (2 ^ k) by lia. rewrite Z.mod_same by lia. lia.
Qed.

Lemma same_slot_eq p q :
  1 <= k <= 61 -> p mod 2 ^ k = q mod 2 ^ k -> - 2 ^ k < p - q < 2 ^ k -> p = q.
Proof.
  intros Hk E H. pose proof (pow_bounds Hk).
  pose proof (Z.div_mod p (2 ^ k)). pose proof (Z.div_mod q (2 ^ k)).
  assert (p / 2 ^ k = q / 2 ^ k) by nia. lia.
Qed.

Lemma load_seq_latest m g p :
  rep k h m g ->
  load_seq m (p mod 2 ^ k) =
    u64 (seqof (2 ^ k) (latest (gW g) p) (ph g (latest (gW g) p))).
Proof.
  intros H. destruct (latest_spec (gW g) p (rep_k _ _ _ _ H)) as [Hr <-].
  apply (rep_seq _ _ _ _ H). exact Hr.
Qed.

Lemma seqof_range p f : 1 <= k <= 61 -> p <= seqof (2 ^ k) p f <= p + 2 ^ k.
Proof. intros Hk. pose proof (pow_bounds Hk). destruct f; simpl; lia. Qed.

(** The distance the code computes is the true one for a thread that is not
    too far behind. *)
Lemma claim_diff m g side p :
  rep k h m g -> 0 <= p <= gW g -> gW g - p < 2 ^ 62 ->
  i64 (load_seq m (slot_of h (u64 p)) - target side (u64 p)) =
    seqof (2 ^ k) (latest (gW g) p) (ph g (latest (gW g) p)) -
    match side with NotFull => p | NotEmpty => p + 1 end.
Proof.
  intros H Hp Hf. pose proof (rep_k _ _ _ _ H) as Hk. pose proof (pow_bounds Hk).
  rewrite (slot_of_u64 m g) by done. rewrite (load_seq_latest m g) by done.
  destruct (latest_spec (gW g) p Hk) as [Hl _].
  pose proof (seqof_range (latest (gW g) p) (ph g (latest (gW g) p)) Hk).
  destruct side; unfold target; rewrite ?u64_add_l; apply i64_distance; lia.
Qed.

(** A producer that finds its position claimable at the current cursor finds
    the slot released. *)
Lemma producer_cas_sound m g slow p :
  rep k h m g -> 0 <= p <= gW g -> gW g - p < 2 ^ 62 ->
  claim_switch NotFull slow (load_seq m (slot_of h (u64 p))) (u64 p) = ClCas slow (u64 p) ->
  p = gW g -> ph g (gW g - 2 ^ k) = Free.
Proof.
  intros H Hp Hf Hc ->. pose proof (rep_k _ _ _ _ H) as Hk. pose proof (pow_bounds Hk).
  unfold claim_switch in Hc. rewrite (claim_diff m g) in Hc by (done || lia).
  pose proof (latest_cursor (gW g) Hk) as El.
  rewrite El in Hc. destruct (ph g (gW g - 2 ^ k)) eqn:Hph; simpl in Hc; [..|done];
    repeat bcase; try discriminate; lia.
Qed.

Lemma consumer_latest m g : rep k h m g -> gR g < gW g -> latest (gW g) (gR g) = gR g.
Proof.
  intros H HR. pose proof (rep_k _ _ _ _ H) as Hk. pose proof (pow_bounds Hk).
  pose proof (rep_cursors _ _ _ _ H). destruct (latest_spec (gW g) (gR g) Hk) as [Hl Hm].
  apply same_slot_eq; [done|done|]. lia.
Qed.

Lemma consumer_cas_sound m g slow p :
  rep k h m g -> 0 <= p <= gR g -> gR g - p < 2 ^ 61 ->
  claim_switch NotEmpty slow (load_seq m (slot_of h (u64 p))) (u64 p) = ClCas slow (u64 p) ->
  p = gR g -> gR g < gW g /\ ph g (gR g) = Full.
Proof.
  intros H Hp Hf Hc ->. pose proof (rep_k _ _ _ _ H) as Hk. pose proof (pow_bounds Hk).
  pose proof (rep_cursors _ _ _ _ H).
  unfold claim_switch in Hc. rewrite (claim_diff m g) in Hc by (done || lia).
  destruct (Z.eq_dec (gR g) (gW g)) as [E|E].
  - exfalso. rewrite E, (latest_cursor (gW g) Hk) in Hc. destruct (ph g (gW g - 2 ^ k)); simpl in Hc; repeat bcase; try discriminate; lia.
  - split; [lia|]. rewrite (consumer_latest m g) in Hc by (done || lia).
    destruct (rep_busy _ _ _ _ H (gR g)) as [Hph|Hph]; [lia| |done].
    rewrite Hph in Hc. simpl in Hc. repeat bcase; try discriminate; lia.
Qed.

(** Conversely, an up-to-date producer facing a released slot goes for the
    compare-and-swap, and an up-to-date consumer facing a published one. *)
Lemma producer_sees_free m g slow :
  rep k h m g -> ph g (gW g - 2 ^ k) = Free ->
  claim_switch NotFull slow (load_seq m (slot_of h (u64 (gW g)))) (u64 (gW g)) = ClCas slow (u64 (gW g)).
Proof.
  intros H Hph. pose proof (rep_k _ _ _ _ H) as Hk. pose proof (pow_bounds Hk).
  pose proof (rep_cursors _ _ _ _ H).
  unfold claim_switch. rewrite (claim_diff m g) by (done || lia).
  pose proof (latest_cursor (gW g) Hk) as El.
  rewrite El, Hph. simpl. rewrite (proj2 (Z.eqb_eq _ 0)) by lia. done.
Qed.

Lemma producer_sees_busy m g slow :
  rep k h m g -> ph g (gW g - 2 ^ k) <> Free ->
  claim_switch NotFull slow (load_seq m (slot_of h (u64 (gW g)))) (u64 (gW g)) =
    if slow then ClWait (u64 (gW g)) else ClSeq true (u64 (gW g)).
Proof.
  intros H Hph. pose proof (rep_k _ _ _ _ H) as Hk. pose proof (pow_bounds Hk).
  pose proof (rep_cursors _ _ _ _ H).
  unfold claim_switch. rewrite (claim_diff m g) by (done || lia).
  pose proof (latest_cursor (gW g) Hk) as El.
  rewrite El. assert (seqof (2 ^ k) (gW g - 2 ^ k) (ph g (gW g - 2 ^ k)) - gW g < 0).
  { destruct (ph g (gW g - 2 ^ k)); simpl; try lia. done. }
  rewrite (proj2 (Z.eqb_neq _ 0)), (proj2 (Z.ltb_ge 0 _)) by lia. done.
Qed.

Lemma consumer_sees_full m g slow :
  rep k h m g -> gR g < gW g -> ph g (gR g) = Full -> gW g - gR g < 2 ^ 62 ->
  claim_switch NotEmpty slow (load_seq m (slot_of h (u64 (gR g)))) (u64 (gR g)) = ClCas slow (u64 (gR g)).
Proof.
  intros H HR Hph Hf. pose proof (rep_cursors _ _ _ _ H).
  unfold claim_switch. rewrite (claim_diff m g) by (done || lia).
  rewrite (consumer_latest m g) by done. rewrite Hph. simpl.
  rewrite (proj2 (Z.eqb_eq _ 0)) by lia. done.
Qed.

Lemma consumer_sees_unpublished m g slow :
  rep k h m g -> (gR g = gW g \/ ph g (gR g) = Writing) ->
  claim_switch NotEmpty slow (load_seq m (slot_of h (u64 (gR g)))) (u64 (gR g)) =
    if slow then ClWait (u64 (gR g)) else ClSeq true (u64 (gR g)).
Proof.
  intros H Hor. pose proof (rep_k _ _ _ _ H) as Hk. pose proof (pow_bounds Hk).
  pose proof (rep_cursors _ _ _ _ H).
  unfold claim_switch. rewrite (claim_diff m g) by (done || lia).
  assert (seqof (2 ^ k) (latest (gW g) (gR g)) (ph g (latest (gW g) (gR g))) - (gR g + 1) < 0).
  { destruct (Z.eq_dec (gR g) (gW g)) as [E|E].
    - rewrite E, (latest_cursor (gW g) Hk). destruct (ph g (gW g - 2 ^ k)); simpl; lia.
    - destruct Hor as [?|Hph]; [done|]. rewrite (consumer_latest m g) by (done || lia).
      rewrite Hph. simpl. lia. }
  rewrite (proj2 (Z.eqb_neq _ 0)), (proj2 (Z.ltb_ge 0 _)) by lia. done.
Qed.

(** *** What the operations do to the ghost state *)

Definition set_ph (p : Z) (f : phase) g : ghost := mkGhost (gW g) (gR g) (<[p := f]> (ph g)) (val g).
Definition claimP (v : T) g : ghost :=
  mkGhost (gW g + 1) (gR g) (<[gW g := Writing]> (ph g)) (<[gW g := v]> (val g)).
Definition claimC g : ghost := mkGhost (gW g) (gR g + 1) (<[gR g := Reading]> (ph g)) (val g).

Lemma fn_insert_eq {B} (f : Z -> B) p b : (<[p := b]> f) p = b.
Proof. apply fn_lookup_insert. Qed.

Lemma fn_insert_ne {B} (f : Z -> B) p q b : p <> q -> (<[p := b]> f) q = f q.
Proof. apply fn_lookup_insert_ne. Qed.

Lemma load_seq_store_seq m i j v :
  0 <= i < Z.of_nat (length (slots m)) -> 0 <= j ->
  load_seq (store_seq i v m) j = if i =? j then v else load_seq m j.
Proof.
  intros Hi Hj. unfold load_seq, store_seq, with_slots. simpl.
  destruct (Z.eqb_spec i j) as [->|Hne].
  - rewrite list_lookup_alter_eq.
    destruct (lookup_lt_is_Some_2 (slots m) (Z.to_nat j)) as [e ->]; [lia|]. done.
  - rewrite list_lookup_alter_ne by lia. done.
Qed.

Lemma load_data_store_seq m i v j : load_data (store_seq i v m) j = load_data m j.
Proof.
  unfold load_data, store_seq, with_slots. simpl.
  destruct (decide (Z.to_nat i = Z.to_nat j)) as [->|].
  - rewrite list_lookup_alter_eq. by destruct (slots m !! Z.to_nat j).
  - by rewrite list_lookup_alter_ne.
Qed.

Lemma load_seq_store_data m i v j : load_seq (store_data i v m) j = load_seq m j.
Proof.
  unfold load_seq, store_data, with_slots. simpl.
  destruct (decide (Z.to_nat i = Z.to_nat j)) as [->|].
  - rewrite list_lookup_alter_eq. by destruct (slots m !! Z.to_nat j).
  - by rewrite list_lookup_alter_ne.
Qed.

Lemma load_data_store_data m i j v :
  0 <= i < Z.of_nat (length (slots m)) -> 0 <= j ->
  load_data (store_data i v m) j = if i =? j then Some v else load_data m j.
Proof.
  intros Hi Hj. unfold load_data, store_data, with_slots. simpl.
  destruct (Z.eqb_spec i j) as [->|Hne].
  - rewrite list_lookup_alter_eq.
    destruct (lookup_lt_is_Some_2 (slots m) (Z.to_nat j)) as [e ->]; [lia|]. done.
  - rewrite list_lookup_alter_ne by lia. done.
Qed.

Lemma slot_in_range m g p : rep k h m g -> 0 <= p mod 2 ^ k < Z.of_nat (length (slots m)).
Proof.
  intros H. pose proof (pow_bounds (rep_k _ _ _ _ H)). rewrite (rep_len _ _ _ _ H).
  pose proof (Z.mod_pos_bound p (2 ^ k)). lia.
Qed.

(** A phase other than [Free] belongs to the last [n] positions. *)
Lemma busy_in_window m g p : rep k h m g -> p < gW g -> ph g p <> Free -> gW g - 2 ^ k <= p /\ 0 <= p.
Proof.
  intros H Hp Hne. split.
  - destruct (Z.le_gt_cases (gW g - 2 ^ k) p) as [|E]; [done|].
    destruct Hne. apply (rep_old _ _ _ _ H). lia.
  - destruct (Z.le_gt_cases 0 p) as [|E]; [done|].
    destruct Hne. apply (rep_old _ _ _ _ H). lia.
Qed.

Lemma rep_claimP m g v :
  rep k h m g -> ph g (gW g - 2 ^ k) = Free ->
  rep k h (set_cursor NotFull (u64 (gW g + 1)) m) (claimP v g).
Proof.
  intros H Hf. pose proof (pow_bounds (rep_k _ _ _ _ H)) as Hb.
  destruct H as [Hk Hm Hl Hw Hr Hc Hs Ho Hbu Hd Hda].
  assert (Hroom : gW g < gR g + 2 ^ k).
  { destruct (Z.eq_dec (gW g) (gR g + 2 ^ k)) as [E|]; [|lia].
    destruct (Hbu (gW g - 2 ^ k)) as [?|?]; [lia|congruence..]. }
  constructor; simpl; auto; try lia.
  - intros p Hp. destruct (Z.eq_dec p (gW g)) as [->|Hne].
    + rewrite fn_insert_eq. change (load_seq _ ?x) with (load_seq m x).
      replace (gW g mod 2 ^ k) with ((gW g - 2 ^ k) mod 2 ^ k).
      * rewrite Hs by lia. rewrite Hf. simpl. f_equal. lia.
      * replace (gW g - 2 ^ k) with (gW g + (-1) * 2 ^ k) by lia. apply Z_mod_plus_full.
    + rewrite fn_insert_ne by lia. apply Hs. lia.
  - intros p Hp. rewrite fn_insert_ne by lia.
    destruct (Z.eq_dec p (gW g - 2 ^ k)) as [->|]; [done|]. apply Ho. lia.
  - intros p Hp. destruct (Z.eq_dec p (gW g)) as [->|Hne].
    + rewrite fn_insert_eq. by left.
    + rewrite fn_insert_ne by lia. apply Hbu. lia.
  - intros p Hp. rewrite fn_insert_ne by lia. by apply Hd.
  - intros p Hp Hph. destruct (Z.eq_dec p (gW g)) as [->|Hne].
    + rewrite fn_insert_eq in Hph. by destruct Hph.
    + rewrite fn_insert_ne in Hph by lia. rewrite fn_insert_ne by lia. apply Hda; [lia|done].
Qed.

Lemma rep_claimC m g :
  rep k h m g -> gR g < gW g -> ph g (gR g) = Full ->
  rep k h (set_cursor NotEmpty (u64 (gR g + 1)) m) (claimC g).
Proof.
  intros H HR Hf. pose proof (pow_bounds (rep_k _ _ _ _ H)) as Hb.
  destruct H as [Hk Hm Hl Hw Hr Hc Hs Ho Hbu Hd Hda].
  constructor; simpl; auto; try lia.
  - intros p Hp. change (load_seq _ ?x) with (load_seq m x). rewrite Hs by lia.
    destruct (Z.eq_dec p (gR g)) as [->|Hne].
    + rewrite fn_insert_eq, Hf. done.
    + by rewrite fn_insert_ne by lia.
  - intros p Hp. rewrite fn_insert_ne by lia. by apply Ho.
  - intros p Hp. rewrite fn_insert_ne by lia. apply Hbu. lia.
  - intros p Hp. destruct (Z.eq_dec p (gR g)) as [->|Hne].
    + rewrite fn_insert_eq. by left.
    + rewrite fn_insert_ne by lia. apply Hd. lia.
  - intros p Hp Hph. destruct (Z.eq_dec p (gR g)) as [->|Hne].
    + apply Hda; auto.
    + rewrite fn_insert_ne in Hph by lia. by apply Hda.
Qed.

Lemma rep_store_data m g p v :
  rep k h m g -> p < gW g -> ph g p = Writing -> rep k h (store_data (p mod 2 ^ k) v m) g.
Proof.
  intros H Hp Hf. pose proof (slot_in_range m g p H) as Hsl.
  pose proof (busy_in_window m g p H Hp) as Hw. pose proof (pow_bounds (rep_k _ _ _ _ H)) as Hb.
  assert (Hother : forall q, q < gW g -> ph g q = Full \/ ph g q = Reading -> q mod 2 ^ k <> p mod 2 ^ k).
  { intros q Hq Hph E. destruct (busy_in_window m g q H Hq); [destruct Hph; congruence|].
    destruct Hw; [congruence|].
    assert (q = p) as -> by (apply same_slot_eq; [apply (rep_k _ _ _ _ H)|done|lia]).
    destruct Hph; congruence. }
  destruct H as [Hk Hm Hl Hww Hr Hc Hs Ho Hbu Hd Hda].
  constructor; simpl; auto.
  - by rewrite length_alter.
  - intros q Hq. rewrite load_seq_store_data. by apply Hs.
  - intros q Hq Hph. pose proof (Z.mod_pos_bound q (2 ^ k)).
    rewrite load_data_store_data by lia.
    rewrite (proj2 (Z.eqb_neq _ _)) by (specialize (Hother q Hq Hph); lia). by apply Hda.
Qed.

(** Storing the sequence number of a position's next phase. *)
Lemma rep_set_phase m g p f :
  rep k h m g -> p < gW g -> ph g p <> Free ->
  (gR g <= p -> f = Writing \/ f = Full) -> (p < gR g -> f = Reading \/ f = Free) ->
  (f = Full \/ f = Reading -> load_data m (p mod 2 ^ k) = Some (val g p)) ->
  rep k h (store_seq (p mod 2 ^ k) (u64 (seqof (2 ^ k) p f)) m) (set_ph p f g).
Proof.
  intros H Hp Hne Hlo Hhi Hdat. pose proof (slot_in_range m g p H) as Hsl.
  destruct (busy_in_window m g p H Hp Hne) as [Hwin Hpos].
  pose proof (pow_bounds (rep_k _ _ _ _ H)) as Hb.
  destruct H as [Hk Hm Hl Hww Hr Hc Hs Ho Hbu Hd Hda].
  constructor; simpl; auto.
  - by rewrite length_alter.
  - intros q Hq. pose proof (Z.mod_pos_bound q (2 ^ k)).
    rewrite load_seq_store_seq by lia.
    destruct (Z.eqb_spec (p mod 2 ^ k) (q mod 2 ^ k)) as [E|E].
    + assert (p = q) as -> by (apply same_slot_eq; [done|done|lia]). by rewrite fn_insert_eq.
    + rewrite fn_insert_ne by congruence. by apply Hs.
  - intros q Hq. rewrite fn_insert_ne by lia. by apply Ho.
  - intros q Hq. destruct (Z.eq_dec p q) as [->|]; [rewrite fn_insert_eq; apply Hlo; lia|].
    rewrite fn_insert_ne by done. by apply Hbu.
  - intros q Hq. destruct (Z.eq_dec p q) as [->|]; [rewrite fn_insert_eq; apply Hhi; lia|].
    rewrite fn_insert_ne by done. by apply Hd.
  - intros q Hq Hph. rewrite load_data_store_seq.
    destruct (Z.eq_dec p q) as [->|]; [rewrite fn_insert_eq in Hph; by apply Hdat|].
    rewrite fn_insert_ne in Hph by done. by apply Hda.
Qed.

Lemma writing_not_consumed m g p : rep k h m g -> p < gW g -> ph g p = Writing -> gR g <= p.
Proof.
  intros H Hp Hf. destruct (Z.le_gt_cases (gR g) p) as [|E]; [done|].
  destruct (rep_done _ _ _ _ H p E); congruence.
Qed.

Lemma reading_consumed m g p : rep k h m g -> p < gW g -> ph g p = Reading -> p < gR g.
Proof.
  intros H Hp Hf. destruct (Z.lt_ge_cases p (gR g)) as [|E]; [done|].
  destruct (rep_busy _ _ _ _ H p); [lia|congruence..].
Qed.

Lemma rep_publish m g p :
  rep k h m g -> p < gW g -> ph g p = Writing -> load_data m (p mod 2 ^ k) = Some (val g p) ->
  rep k h (store_seq (p mod 2 ^ k) (u64 (p + 1)) m) (set_ph p Full g).
Proof.
  intros H Hp Hf Hd. pose proof (writing_not_consumed m g p H Hp Hf).
  apply (rep_set_phase m g p Full); auto; [congruence|lia].
Qed.

Lemma rep_release m g p :
  rep k h m g -> p < gW g -> ph g p = Reading ->
  rep k h (store_seq (p mod 2 ^ k) (u64 (p + 2 ^ k)) m) (set_ph p Free g).
Proof.
  intros H Hp Hf. pose proof (reading_consumed m g p H Hp Hf).
  apply (rep_set_phase m g p Free); auto; [congruence|lia|intros [?|?]; discriminate].
Qed.

Lemma rep_notifyConsumers hd m g : rep k h m g -> rep k h (notifyConsumers hd m).1 g.
Proof.
  intros H. unfold notifyConsumers, wakeOne, wakeWord.
  repeat bcase; simpl; try done; by apply (rep_ext m).
Qed.

Lemma rep_notifyProducers hd m g : rep k h m g -> rep k h (notifyProducers hd m).1 g.
Proof.
  intros H. unfold notifyProducers, wakeOne, wakeWord.
  repeat bcase; simpl; try done; by apply (rep_ext m).
Qed.

(** *** The slot of a claimed position *)

Lemma claimed_seq m g p : rep k h m g -> p < gW g -> ph g p <> Free ->
  load_seq m (slot_of h (u64 p)) = u64 (seqof (2 ^ k) p (ph g p)).
Proof.
  intros H Hp Hf. rewrite (slot_of_u64 m g) by done.
  destruct (busy_in_window m g p H Hp Hf). apply (rep_seq _ _ _ _ H). lia.
Qed.

Lemma publish_rep m g p :
  rep k h m g -> p < gW g -> ph g p = Writing -> load_data m (p mod 2 ^ k) = Some (val g p) ->
  rep k h (publish h (u64 p) m).1 (set_ph p Full g).
Proof.
  intros H Hp Hf Hd. unfold publish. apply rep_notifyConsumers.
  rewrite (slot_of_u64 m g) by done. rewrite u64_add_l. by apply rep_publish.
Qed.

Lemma release_rep m g p :
  rep k h m g -> p < gW g -> ph g p = Reading -> rep k h (release h (u64 p) m).1 (set_ph p Free g).
Proof.
  intros H Hp Hf. unfold release. apply rep_notifyProducers.
  rewrite (slot_of_u64 m g) by done. rewrite (rep_mask _ _ _ _ H).
  replace (u64 (u64 p + (2 ^ k - 1) + 1)) with (u64 (p + 2 ^ k)).
  - by apply rep_release.
  - rewrite <- Z.add_assoc, u64_add_l. f_equal. lia.
Qed.

End RepLemmas.
End Rep.

Arguments ghost : clear implicits.
