(* ===== verification/RingSeq.v ===== *)
(** * RingSeq: initialisation and single-threaded behaviour of the ring

    [FormatGuarded] and [Attach] on every branch, and the operations of one
    party at a time as operations of a bounded FIFO queue. *)
From S2P Require Import Prelude Errors Layout Ring RingInv.

Section Init.
Context {T : Type} (zero : T).
Implicit Types (m : mring T) (l : list (melem T)).

Lemma format_loop_spec check : forall n i k l l' k' e,
  0 <= i -> (Z.to_nat i + n <= length l)%nat ->
  format_loop zero check n i k l = (l', k', e) ->
  length l' = length l /\
  (e = None -> forall j, 0 <= j ->
     l' !! Z.to_nat j =
       if (i <=? j) && (j <? i + Z.of_nat n) then Some (mkElem j zero) else l !! Z.to_nat j).
Proof.
  induction n as [|n IH]; intros i k l l' k' e Hi Hl E.
  { simpl in E. injection E as <- <- <-. split; [done|]. intros _ j Hj.
    destruct (i <=? j) eqn:?, (j <? i + Z.of_nat 0) eqn:?; breflect; try done; lia. }
  assert (Hstep : forall k0, format_loop zero check n (i + 1) k0 (<[Z.to_nat i := mkElem i zero]> l) = (l', k', e) ->
    length l' = length l /\
    (e = None -> forall j, 0 <= j ->
     l' !! Z.to_nat j =
       if (i <=? j) && (j <? i + Z.of_nat (S n)) then Some (mkElem j zero) else l !! Z.to_nat j)).
  { intros k0 E0. apply IH in E0; [|lia|rewrite length_insert; lia].
    destruct E0 as [El Hs]. rewrite length_insert in El. split; [done|].
    intros He j Hj. rewrite Hs by done.
    destruct (Z.eq_dec i j) as [->|Hne].
    - rewrite (proj2 (Z.leb_gt (j + 1) j)), Z.leb_refl by lia. simpl.
      rewrite (proj2 (Z.ltb_lt _ _)) by lia. apply list_lookup_insert_eq. lia.
    - rewrite list_lookup_insert_ne by lia.
      destruct (i + 1 <=? j) eqn:?, (j <? i + 1 + Z.of_nat n) eqn:?, (i <=? j) eqn:?, (j <? i + Z.of_nat (S n)) eqn:?;
        breflect; simpl; try done; lia. }
  simpl format_loop in E. destruct check as [c|]; [|by apply Hstep in E].
  destruct (_ && _); [|by apply Hstep in E].
  destruct (c k); [|by apply Hstep in E].
  injection E as <- <- <-. done.
Qed.

(** The ghost state of a fresh ring: no claim made, every slot free. *)
Definition fresh_ghost : ghost T := mkGhost 0 0 (fun _ => Free) (fun _ => zero).

Lemma formatted_rep k h m' :
  1 <= k <= 61 -> h_mask h = 2 ^ k - 1 -> length (slots m') = Z.to_nat (2 ^ k) ->
  m_w m' = 0 -> m_r m' = 0 ->
  (forall j, 0 <= j < 2 ^ k -> slots m' !! Z.to_nat j = Some (mkElem j zero)) ->
  rep k h m' fresh_ghost.
Proof.
  intros Hk Hm Hl Hw Hr Hs. pose proof (pow_bounds k Hk).
  constructor; simpl; auto; try lia; try (intros ? ? [?|?]; discriminate).
  intros p Hp. pose proof (Z.mod_pos_bound p (2 ^ k)). unfold load_seq.
  rewrite Hs by lia. simpl. rewrite u64_small by (unfold word; lia).
  symmetry. apply (Z.mod_unique p (2 ^ k) (-1)); lia.
Qed.

(** A failed loop returns an error of the check function. *)
Lemma format_loop_err check : forall n i k l l' k' err,
  format_loop zero check n i k l = (l', k', Some err) ->
  exists c j, check = Some c /\ c j = Some err.
Proof.
  induction n as [|n IH]; intros i k l l' k' err; simpl; [congruence|].
  destruct check as [c|]; [|apply IH].
  destruct (_ && _); [|apply IH]. destruct (c k) eqn:E; [|apply IH].
  intros [= <- <- <-]. eauto.
Qed.

(** The header words written last make a fully written ring attachable. *)
Lemma format_done elemSize size check k0 l0 l k1 :
  validRingSize size = true -> size <= 2 ^ 61 -> length l0 = Z.to_nat size ->
  format_loop zero check (Z.to_nat size) 0 k0 l0 = (l, k1, None) ->
  let m' := mkRing mpmc_magic size mpmc_init (stride elemSize) layoutVersion 0 0 0 0 0 0 l in
  exists h, attach_once elemSize m' = LookReady h /\ h_size h = size /\
  exists k, size = 2 ^ k /\ rep k h m' fresh_ghost.
Proof.
  intros Hv Hmax Hlen El m'. apply format_loop_spec in El; [|lia|rewrite Hlen; lia].
  destruct El as [Hl Hs]. pose proof Hv as (k & Hk & Hpow)%validRingSize_pow2.
  exists (mkHandle (size - 1) size (stride elemSize) WaitAdaptive false).
  split; [unfold attach_once; simpl; rewrite !Z.eqb_refl, Hv; reflexivity|].
  split; [done|]. exists k. split; [done|].
  assert (k <= 61) by (apply (Z.pow_le_mono_r_iff 2); lia).
  assert (Hp : 0 < 2 ^ k) by (apply Z.pow_pos_nonneg; lia).
  apply formatted_rep; simpl; try lia; try congruence.
  intros j Hj. rewrite (Hs eq_refl) by lia.
  rewrite (proj2 (Z.leb_le _ _)), (proj2 (Z.ltb_lt _ _)) by lia. done.
Qed.

End Init.

(** ** Properties *)

(** [FormatGuarded] is all or nothing for attachers. An invalid size panics.
    If every check passes, the ring is formatted: [Attach] accepts it with the
    requested size and it represents the empty queue. If a check fails, its
    error is returned and the memory is either untouched (the first check
    failed) or not attachable, exactly as after a crash inside [Format]. *)
Theorem FormatGuarded_all_or_nothing {T : Type} (zero : T) (elemSize size : Z)
  (check : option (nat -> option error)) (m : mring T)
  (Hlen : length (slots m) = Z.to_nat size) (Hmax : size <= 2 ^ 61) :
  match FormatGuarded zero elemSize size check m with
  | None => validRingSize size = false
  | Some (m', None) =>
      exists h, attach_once elemSize m' = LookReady h /\ h_size h = size /\
      exists k, size = 2 ^ k /\ rep k h m' (fresh_ghost zero)
  | Some (m', Some err) =>
      (exists c i, check = Some c /\ c i = Some err) /\
      (m' = m \/ attach_once elemSize m' = LookNotReady)
  end.
Proof.
  unfold FormatGuarded. destruct (validRingSize size) eqn:Hv; simpl; [|done].
  destruct (run_check check 0) as [[err|] k0] eqn:E0.
  { split; [|by left]. destruct check as [c|]; simpl in E0; [|discriminate]. exists c, 0%nat. naive_solver. }
  destruct (format_loop _ _ _ _ _ _) as [[l k1] [err|]] eqn:El.
  { split; [by apply format_loop_err in El|by right]. }
  destruct (run_check check k1) as [[err|] k2] eqn:E2.
  { split; [|by right]. destruct check as [c|]; simpl in E2; [|discriminate]. exists c, k1. naive_solver. }
  by eapply format_done.
Qed.

Lemma FormatGuarded_all_or_nothing_witness :
  match FormatGuarded 0 72 2 (Some (fun i => if (i =? 0)%nat then None else Some ErrClosed))
          (mkRing 7 0 7 0 0 0 0 0 0 0 0 [mkElem 5 5; mkElem 6 6]) with
  | Some (m', Some err) => attach_once 72 m' = LookNotReady /\ err = ErrClosed
  | _ => False
  end.
Proof.
  pose proof (FormatGuarded_all_or_nothing 0 72 2
    (Some (fun i => if (i =? 0)%nat then None else Some ErrClosed))
    (mkRing 7 0 7 0 0 0 0 0 0 0 0 [mkElem 5 5; mkElem 6 6]) eq_refl ltac:(lia)) as H.
  cbv -[attach_once] in H |- *. destruct H as [_ [H|H]]; [discriminate|]. split; [exact H|reflexivity].
Defined.

(** ** One party at a time *)

Section Seq.
Context {T : Type} (zero : T) (k : Z) (h : MPMCRing).
Implicit Types (m : mring T) (g : ghost T) (waits : list (option error * mring T)).

(** One step of a claim run. *)
Lemma claim_run_load f side waits m slow :
  claim_run (S f) side h waits m (ClLoad slow) = claim_run f side h waits m (ClSeq slow (cursor side m)).
Proof. done. Qed.

Lemma claim_run_seq f side waits m slow pos :
  claim_run (S f) side h waits m (ClSeq slow pos) =
  claim_run f side h waits m (claim_switch side slow (load_seq m (slot_of h pos)) pos).
Proof. done. Qed.

Lemma claim_run_cas f side waits m slow pos :
  cursor side m = pos ->
  claim_run (S (S f)) side h waits m (ClCas slow pos) =
  Some (set_cursor side (u64 (pos + 1)) m, Ok pos).
Proof. intros <-. simpl. by rewrite Z.eqb_refl. Qed.

Lemma claim_run_wait f side waits m m' pos we :
  claim_run (S (S f)) side h ((we, m') :: waits) m (ClWait pos) =
  match we with
  | Some e => Some (m', Err e)
  | None => claim_run (S f) side h waits m' (ClSeq true pos)
  end.
Proof. by destruct we. Qed.

Lemma claimProducer_free waits m g :
  rep k h m g -> ph g (gW g - 2 ^ k) = Free ->
  claimProducer h waits m = Some (set_cursor NotFull (u64 (gW g + 1)) m, Ok (u64 (gW g))).
Proof.
  intros H Hf. unfold claimProducer, claim_fuel. change (8 + ?x)%nat with (S (S (S (S (4 + x))))).
  rewrite claim_run_load, claim_run_seq. simpl cursor. rewrite (rep_w _ _ _ _ H), (producer_sees_free k h m g) by done.
  rewrite claim_run_cas by apply (rep_w _ _ _ _ H). by rewrite u64_add_l.
Qed.

(** A full ring: the claim waits, and gives up with the error of the wait or
    goes on with the memory the wait returned to. *)
Lemma claimProducer_full waits m g :
  rep k h m g -> ph g (gW g - 2 ^ k) <> Free ->
  claimProducer h waits m =
    match waits with
    | [] => None
    | (Some e, m') :: _ => Some (m', Err e)
    | (None, m') :: waits' =>
        claim_run (8 + 4 * length waits') NotFull h waits' m' (ClSeq true (u64 (gW g)))
    end.
Proof.
  intros H Hf. unfold claimProducer, claim_fuel. change (8 + ?x)%nat with (S (S (S (5 + x)))).
  rewrite claim_run_load, claim_run_seq. simpl cursor. rewrite (rep_w _ _ _ _ H), (producer_sees_busy k h m g) by done.
  rewrite claim_run_seq, (producer_sees_busy k h m g) by done.
  destruct waits as [|[we m'] waits']; [done|].
  change (5 + ?x)%nat with (S (S (3 + x))). rewrite claim_run_wait. destruct we; [done|].
  f_equal. simpl length. lia.
Qed.

Lemma claimConsumer_full waits m g :
  rep k h m g -> gR g < gW g -> ph g (gR g) = Full ->
  claimConsumer h waits m = Some (set_cursor NotEmpty (u64 (gR g + 1)) m, Ok (u64 (gR g))).
Proof.
  intros H HR Hf. pose proof (pow_bounds k (rep_k _ _ _ _ H)). pose proof (rep_cursors _ _ _ _ H).
  unfold claimConsumer, claim_fuel. change (8 + ?x)%nat with (S (S (S (S (4 + x))))).
  rewrite claim_run_load, claim_run_seq. simpl cursor.
  rewrite (rep_r _ _ _ _ H), (consumer_sees_full k h m g) by (done || lia).
  rewrite claim_run_cas by apply (rep_r _ _ _ _ H). by rewrite u64_add_l.
Qed.

Lemma claimConsumer_empty waits m g :
  rep k h m g -> (gR g = gW g \/ ph g (gR g) = Writing) ->
  claimConsumer h waits m =
    match waits with
    | [] => None
    | (Some e, m') :: _ => Some (m', Err e)
    | (None, m') :: waits' =>
        claim_run (8 + 4 * length waits') NotEmpty h waits' m' (ClSeq true (u64 (gR g)))
    end.
Proof.
  intros H Hor. unfold claimConsumer, claim_fuel. change (8 + ?x)%nat with (S (S (S (5 + x)))).
  rewrite claim_run_load, claim_run_seq. simpl cursor. rewrite (rep_r _ _ _ _ H), (consumer_sees_unpublished k h m g) by done.
  rewrite claim_run_seq, (consumer_sees_unpublished k h m g) by done.
  destruct waits as [|[we m'] waits']; [done|].
  change (5 + ?x)%nat with (S (S (3 + x))). rewrite claim_run_wait. destruct we; [done|].
  f_equal. simpl length. lia.
Qed.

(** No claim is outstanding: the queue is exactly the published positions. *)
Definition quiescent g : Prop :=
  (forall p, gR g <= p < gW g -> ph g p = Full) /\ (forall p, p < gR g -> ph g p = Free).

(** The ring memory [m] holds the queue [q]. *)
Definition holds m (q : list T) : Prop :=
  exists g, rep k h m g /\ quiescent g /\ contents g = q.

Lemma length_contents g : length (contents g) = Z.to_nat (gW g - gR g).
Proof. unfold contents. by rewrite length_map, length_seq. Qed.

Lemma contents_claimP m g v :
  rep k h m g -> contents (claimP v g) = contents g ++ [v].
Proof.
  intros H. pose proof (rep_cursors _ _ _ _ H). unfold contents, claimP. simpl.
  replace (Z.to_nat (gW g + 1 - gR g)) with (S (Z.to_nat (gW g - gR g))) by lia.
  rewrite seq_S, map_app. simpl. f_equal.
  - apply map_ext_in. intros i Hi%in_seq. apply fn_insert_ne. lia.
  - f_equal. replace (gR g + Z.of_nat (Z.to_nat (gW g - gR g))) with (gW g) by lia.
    apply fn_insert_eq.
Qed.

Lemma contents_claimC g : gR g < gW g -> contents g = val g (gR g) :: contents (claimC g).
Proof.
  intros HR. unfold contents, claimC. simpl.
  replace (Z.to_nat (gW g - gR g)) with (S (Z.to_nat (gW g - (gR g + 1)))) by lia.
  cbn [seq map]. f_equal; [f_equal; lia|].
  rewrite <- seq_shift, map_map. apply map_ext. intros i. f_equal. lia.
Qed.

Lemma contents_set_ph p f g : contents (set_ph p f g) = contents g.
Proof. done. Qed.

Lemma quiescent_room m g :
  rep k h m g -> quiescent g -> (gW g < gR g + 2 ^ k <-> ph g (gW g - 2 ^ k) = Free).
Proof.
  intros H [Hf He]. split; intros Hx.
  - apply He. lia.
  - destruct (Z.lt_ge_cases (gW g) (gR g + 2 ^ k)) as [|E]; [done|].
    pose proof (pow_bounds k (rep_k _ _ _ _ H)). pose proof (rep_cursors _ _ _ _ H).
    rewrite Hf in Hx by lia. discriminate.
Qed.

(** A producer claim on a ring with room: the claimed position is the cursor,
    and publishing whatever was stored in the slot appends it. *)
Lemma producer_reserve waits m q :
  holds m q -> Z.of_nat (length q) < 2 ^ k ->
  let pos := m_w m in
  let m1 := set_cursor NotFull (u64 (pos + 1)) m in
  claimProducer h waits m = Some (m1, Ok pos) /\
  0 <= slot_of h pos < Z.of_nat (length (slots m)) /\ load_seq m1 (slot_of h pos) = pos /\
  forall v, holds (publish h pos (store_data (slot_of h pos) v m1)).1 (q ++ [v]).
Proof.
  intros (g & H & Hq & <-) Hlen pos m1. rewrite length_contents in Hlen. pose proof (rep_cursors _ _ _ _ H).
  assert (Hf : ph g (gW g - 2 ^ k) = Free) by (apply (quiescent_room m g); [done..|lia]).
  assert (Em1 : m1 = set_cursor NotFull (u64 (gW g + 1)) m)
    by (unfold m1, pos; rewrite (rep_w _ _ _ _ H); by rewrite u64_add_l).
  unfold pos. rewrite (rep_w _ _ _ _ H). rewrite (slot_of_u64 k h m g) by done.
  split; [by rewrite Em1, (claimProducer_free waits m g)|]. split; [by apply (slot_in_range k h m g)|].
  assert (H1 : forall v, rep k h m1 (claimP v g)) by (intros v; rewrite Em1; by apply rep_claimP).
  split.
  { pose proof (claimed_seq k h m1 (claimP (val g 0) g) (gW g) (H1 _)) as Hs. simpl in Hs.
    rewrite fn_insert_eq, (slot_of_u64 k h m g) in Hs by done. apply Hs; [lia|done]. }
  intros v. specialize (H1 v).
  exists (set_ph (gW g) Full (claimP v g)). split_and!.
  - apply publish_rep; simpl; [apply rep_store_data; simpl; [done|lia|apply fn_insert_eq]|lia|apply fn_insert_eq|].
    pose proof (slot_in_range k h m1 _ (gW g) H1).
    rewrite load_data_store_data, Z.eqb_refl by lia. by rewrite fn_insert_eq.
  - destruct Hq as [Hq1 Hq2]. split; simpl; intros p Hp.
    + destruct (Z.eq_dec (gW g) p) as [->|]; [apply fn_insert_eq|].
      rewrite !fn_insert_ne by done. apply Hq1. lia.
    + rewrite !fn_insert_ne by lia. by apply Hq2.
  - by rewrite contents_set_ph, (contents_claimP m).
Qed.

(** A consumer claim on a non-empty ring: the slot shows the oldest element,
    and releasing it removes the element. *)
Lemma consumer_reserve waits m x q :
  holds m (x :: q) ->
  let pos := m_r m in
  let m1 := set_cursor NotEmpty (u64 (pos + 1)) m in
  claimConsumer h waits m = Some (m1, Ok pos) /\
  load_data m1 (slot_of h pos) = Some x /\ load_seq m1 (slot_of h pos) = u64 (pos + 1) /\ holds (release h pos m1).1 q.
Proof.
  intros (g & H & Hq & Hc) pos m1. pose proof (rep_cursors _ _ _ _ H).
  assert (HR : gR g < gW g).
  { assert (length (contents g) = S (length q)) as E by (by rewrite Hc).
    rewrite length_contents in E. lia. }
  rewrite contents_claimC in Hc by done. injection Hc as Hx Hc.
  destruct Hq as [Hq1 Hq2]. assert (Hf : ph g (gR g) = Full) by (apply Hq1; lia).
  assert (Em1 : m1 = set_cursor NotEmpty (u64 (gR g + 1)) m)
    by (unfold m1, pos; rewrite (rep_r _ _ _ _ H); by rewrite u64_add_l).
  assert (H1 : rep k h m1 (claimC g)) by (rewrite Em1; by apply rep_claimC).
  unfold pos. rewrite (rep_r _ _ _ _ H). split; [by rewrite Em1, (claimConsumer_full waits m g)|].
  split; [rewrite (slot_of_u64 k h m g), <- Hx by done; rewrite Em1; apply (rep_data _ _ _ _ H); auto|].
  split.
  { pose proof (claimed_seq k h m1 (claimC g) (gR g) H1) as Hs. simpl in Hs. rewrite fn_insert_eq in Hs.
    rewrite Hs by (done || lia). simpl. by rewrite u64_add_l. }
  exists (set_ph (gR g) Free (claimC g)). split_and!.
  - apply release_rep; simpl; [done|lia|apply fn_insert_eq].
  - split; simpl; intros p Hp.
    + rewrite !fn_insert_ne by lia. apply Hq1. lia.
    + destruct (Z.eq_dec (gR g) p) as [->|]; [apply fn_insert_eq|].
      rewrite !fn_insert_ne by done. apply Hq2. lia.
  - by rewrite contents_set_ph.
Qed.

Lemma producer_blocked waits e m' m q :
  holds m q -> Z.of_nat (length q) = 2 ^ k ->
  claimProducer h ((Some e, m') :: waits) m = Some (m', Err e).
Proof.
  intros (g & H & Hq & <-) Hlen. rewrite length_contents in Hlen.
  pose proof (rep_cursors _ _ _ _ H). rewrite (claimProducer_full _ m g); [done..|].
  intros Hf. apply (quiescent_room m g) in Hf; [lia|done..].
Qed.

Lemma consumer_blocked waits e m' m :
  holds m [] -> claimConsumer h ((Some e, m') :: waits) m = Some (m', Err e).
Proof.
  intros (g & H & Hq & Hc). pose proof (rep_cursors _ _ _ _ H).
  assert (gR g = gW g).
  { assert (length (contents g) = O) as E by (by rewrite Hc). rewrite length_contents in E. lia. }
  rewrite (claimConsumer_empty _ m g); [done..|by left].
Qed.

Lemma enqueue_holds waits v m q :
  holds m q -> Z.of_nat (length q) < 2 ^ k ->
  exists m' ev, EnqueueWithContext h waits v m = Some (m', ev, true) /\ holds m' (q ++ [v]).
Proof.
  intros H Hlen. destruct (producer_reserve waits m q H Hlen) as (E & _ & _ & Hp).
  unfold EnqueueWithContext. rewrite E. simpl. specialize (Hp v).
  destruct (publish _ _ _) as [m2 ev]. by exists m2, ev.
Qed.

Lemma dequeue_holds waits m x q :
  holds m (x :: q) ->
  exists m' ev, DequeueWithContext zero h waits m = Some (m', ev, Some x) /\ holds m' q.
Proof.
  intros H. destruct (consumer_reserve waits m x q H) as (E & Ex & _ & Hq).
  unfold DequeueWithContext. rewrite E. simpl. rewrite Ex. simpl.
  destruct (release _ _ _) as [m2 ev]. by exists m2, ev.
Qed.

Lemma enqueue_full waits e m' v m q :
  holds m q -> Z.of_nat (length q) = 2 ^ k ->
  EnqueueWithContext h ((Some e, m') :: waits) v m = Some (m', [], false).
Proof. intros H Hl. unfold EnqueueWithContext. by rewrite (producer_blocked _ _ _ _ q). Qed.

Lemma dequeue_empty waits e m' m :
  holds m [] -> DequeueWithContext zero h ((Some e, m') :: waits) m = Some (m', [], None).
Proof. intros H. unfold DequeueWithContext. by rewrite consumer_blocked. Qed.

End Seq.

(** ** The queue interface *)

(** What a bounded FIFO queue promises: operations that never wait, an
    abstraction to the list of its elements, and the four laws. *)
Class BoundedQueue (Q V : Type) := {
  bq_cap : Z;
  bq_abs : Q -> list V -> Prop;
  bq_enq : V -> Q -> option (Q * bool);
  bq_deq : Q -> option (Q * option V);
  bq_enq_room q l v : bq_abs q l -> Z.of_nat (length l) < bq_cap ->
    exists q', bq_enq v q = Some (q', true) /\ bq_abs q' (l ++ [v]);
  bq_enq_full q l v : bq_abs q l -> Z.of_nat (length l) = bq_cap ->
    exists q', bq_enq v q = Some (q', false) /\ bq_abs q' l;
  bq_deq_some q x l : bq_abs q (x :: l) -> exists q', bq_deq q = Some (q', Some x) /\ bq_abs q' l;
  bq_deq_none q : bq_abs q [] -> exists q', bq_deq q = Some (q', None) /\ bq_abs q' [];
  bq_bound q l : bq_abs q l -> Z.of_nat (length l) <= bq_cap
}.

Inductive queue_op (V : Type) := Enq (v : V) | Deq.
Arguments Enq {V} v.
Arguments Deq {V}.

Inductive queue_out (V : Type) := OutEnq (ok : bool) | OutDeq (v : option V).
Arguments OutEnq {V} ok.
Arguments OutDeq {V} v.

(** The specification: a list of at most [cap] elements. *)
Definition spec_op {V} (cap : Z) (op : queue_op V) (l : list V) : list V * queue_out V :=
  match op with
  | Enq v => if Z.of_nat (length l) <? cap then (l ++ [v], OutEnq true) else (l, OutEnq false)
  | Deq => match l with x :: l' => (l', OutDeq (Some x)) | [] => ([], OutDeq None) end
  end.

Fixpoint spec_run {V} (cap : Z) (ops : list (queue_op V)) (l : list V) : list V * list (queue_out V) :=
  match ops with
  | [] => (l, [])
  | op :: rest =>
      let (l1, o) := spec_op cap op l in
      let (l2, os) := spec_run cap rest l1 in (l2, o :: os)
  end.

Section Client.
Context {Q V : Type} `{!BoundedQueue Q V}.

Definition impl_op (op : queue_op V) (q : Q) : option (Q * queue_out V) :=
  match op with
  | Enq v => '(q', b) ← bq_enq v q; Some (q', OutEnq b)
  | Deq => '(q', o) ← bq_deq q; Some (q', OutDeq o)
  end.

Fixpoint impl_run (ops : list (queue_op V)) (q : Q) : option (Q * list (queue_out V)) :=
  match ops with
  | [] => Some (q, [])
  | op :: rest =>
      '(q1, o) ← impl_op op q;
      '(q2, os) ← impl_run rest q1;
      Some (q2, o :: os)
  end.

(** Every run of a queue that satisfies the interface is a run of the list. *)
Lemma impl_run_refines ops : forall q l,
  bq_abs q l ->
  exists q', impl_run ops q = Some (q', (spec_run bq_cap ops l).2) /\
             bq_abs q' (spec_run bq_cap ops l).1.
Proof.
  induction ops as [|op ops IH]; intros q l Hq; simpl; [by exists q|].
  assert (Hop : exists q1, impl_op op q = Some (q1, (spec_op bq_cap op l).2) /\
                           bq_abs q1 (spec_op bq_cap op l).1).
  { destruct op as [v|]; simpl.
    - destruct (Z.ltb_spec (Z.of_nat (length l)) bq_cap) as [Hl|Hl]; simpl.
      + destruct (bq_enq_room q l v Hq Hl) as (q' & -> & ?). by exists q'.
      + pose proof (bq_bound q l Hq).
        destruct (bq_enq_full q l v Hq) as (q' & -> & ?); [lia|]. by exists q'.
    - destruct l as [|x l]; simpl.
      + destruct (bq_deq_none q Hq) as (q' & -> & ?). by exists q'.
      + destruct (bq_deq_some q x l Hq) as (q' & -> & ?). by exists q'. }
  destruct Hop as (q1 & -> & H1). simpl.
  destruct (spec_op bq_cap op l) as [l1 o] eqn:E1. simpl in H1 |- *.
  destruct (IH q1 l1 H1) as (q2 & -> & H2). simpl.
  destruct (spec_run bq_cap ops l1) as [l2 os]. by exists q2.
Qed.
End Client.

(** The ring implements the interface: [EnqueueWithContext] and
    [DequeueWithContext] with a context that is already done, so that an
    operation that would have to wait fails instead. *)
Definition ring_enq {T : Type} (h : MPMCRing) (v : T) (m : mring T) : option (mring T * bool) :=
  '(m', _, b) ← EnqueueWithContext h [(Some mpmc_ErrCanceled, m)] v m; Some (m', b).

Definition ring_deq {T : Type} (zero : T) (h : MPMCRing) (m : mring T) : option (mring T * option T) :=
  '(m', _, o) ← DequeueWithContext zero h [(Some mpmc_ErrCanceled, m)] m; Some (m', o).

Program Definition ring_queue {T : Type} (zero : T) (k : Z) (h : MPMCRing) : BoundedQueue (mring T) T := {|
  bq_cap := 2 ^ k;
  bq_abs := holds k h;
  bq_enq := ring_enq h;
  bq_deq := ring_deq zero h
|}.
Next Obligation.
  intros T zero k h m l v H Hl. unfold ring_enq. destruct (enqueue_holds k h [(Some mpmc_ErrCanceled, m)] v m l H Hl) as (m' & ev & -> & ?).
  by exists m'.
Qed.
Next Obligation.
  intros T zero k h m l v H Hl. unfold ring_enq. rewrite (enqueue_full k h [] _ m v m l) by done. by exists m.
Qed.
Next Obligation.
  intros T zero k h m x l H. unfold ring_deq. destruct (dequeue_holds zero k h [(Some mpmc_ErrCanceled, m)] m x l H) as (m' & ev & -> & ?).
  by exists m'.
Qed.
Next Obligation.
  intros T zero k h m H. unfold ring_deq. rewrite (dequeue_empty zero k h [] _ m m) by done. by exists m.
Qed.
Next Obligation.
  intros T zero k h m l (g & H & _ & <-). rewrite length_contents.
  pose proof (rep_cursors _ _ _ _ H). lia.
Qed.

(** Any sequence of [EnqueueWithContext] and [DequeueWithContext] calls on a
    ring returns what the same calls return on a list bounded by the ring
    size, and leaves the ring holding that list: elements come out in the
    order they went in, none is lost or duplicated, an enqueue fails exactly
    on a full ring and a dequeue exactly on an empty one. *)
Theorem ring_refines_bounded_queue {T : Type} (zero : T) (k : Z) (h : MPMCRing)
  (ops : list (queue_op T)) (m : mring T) (q : list T) (Hm : holds k h m q) :
  exists m', @impl_run _ _ (ring_queue zero k h) ops m = Some (m', (spec_run (2 ^ k) ops q).2) /\
             holds k h m' (spec_run (2 ^ k) ops q).1.
Proof. apply (@impl_run_refines _ _ (ring_queue zero k h) ops m q Hm). Qed.

Lemma ring_refines_bounded_queue_witness :
  let m := mkRing mpmc_magic 2 mpmc_init 128 layoutVersion 0 0 0 0 0 0 [mkElem 0 0; mkElem 1 0] in
  let h := mkHandle 1 2 128 WaitAdaptive false in
  exists m', @impl_run _ _ (ring_queue 0 1 h) [Enq 5; Enq 6; Enq 7; Deq; Deq; Deq] m =
    Some (m', [OutEnq true; OutEnq true; OutEnq false; OutDeq (Some 5); OutDeq (Some 6); OutDeq None]).
Proof.
  intros m h.
  assert (Hm : holds 1 h m []).
  { exists (fresh_ghost 0). split_and!; [|split; [simpl; lia|done]|done].
    apply formatted_rep; try done; try lia.
    intros j Hj. assert (j = 0 \/ j = 1) as [-> | ->] by lia; reflexivity. }
  destruct (ring_refines_bounded_queue 0 1 h [Enq 5; Enq 6; Enq 7; Deq; Deq; Deq] m [] Hm) as (m' & E & _).
  exists m'. exact E.
Defined.
