(* ===== verification/RingConc.v ===== *)
(** * RingConc: producers and consumers interleaved on one ring

    Any number of threads run [Enqueue]/[Commit] and [Dequeue]/[Release] on a
    shared ring; a step of the system is one atomic access of one thread, with
    the code of the access taken from Ring ([claim_step], [publish],
    [publishSlot], ...). Waking parked waiters is part of the step that
    publishes or releases (Parking treats it access by access). Ghost fields
    record the absolute positions behind the wrapped counters.

    The cursors wrap around: the only assumption on the schedule ([fresh]) is
    that no thread sleeps between loading a cursor and using it while [2^61]
    claims go by. *)
From S2P Require Import Prelude Errors Layout Ring RingInv RingSeq.

Section Conc.
Context {T : Type} (zero : T).

(** ** Threads *)

Inductive pc :=
| Idle
| PClaim (v : T) (c : claim_pc)
| PWrite (v : T) (pos : Z)
| PPublish (v : T) (pos : Z)
| CClaim (c : claim_pc)
| CRead (pos : Z)
| CRelease (pos : Z) (v : T).

(** What a step shows to the outside: a producer's claim, a consumer's claim,
    the return of a dequeued value, a completion that found its slot already
    completed. *)
Inductive event :=
| Tau
| EvEnq (v : T)
| EvDeq
| EvRet (v : T)
| EvStale.

#[export] Instance event_eq_dec `{EqDecision T} : EqDecision event.
Proof. solve_decision. Defined.

(** One atomic access of a thread. [cas] selects the completion: the plain
    store of [publish]/[release] or the compare-and-swap of
    [publishSlot]/[releaseSlot]. *)
Definition thread_step (h : MPMCRing) (cas : bool) (we : option error) (m : mring T) (p : pc)
  : mring T * pc * event :=
  match p with
  | Idle => (m, Idle, Tau)
  | PClaim v c =>
      let (m', c') := claim_step NotFull h we m c in
      match c' with
      | ClDone pos => (m', PWrite v pos, EvEnq v)
      | ClErr _ => (m', Idle, Tau)
      | _ => (m', PClaim v c', Tau)
      end
  | PWrite v pos => (store_data (slot_of h pos) v m, PPublish v pos, Tau)
  | PPublish v pos =>
      if cas then
        let '(m', _, ok) := publishSlot h pos m in (m', Idle, if ok then Tau else EvStale)
      else ((publish h pos m).1, Idle, Tau)
  | CClaim c =>
      let (m', c') := claim_step NotEmpty h we m c in
      match c' with
      | ClDone pos => (m', CRead pos, EvDeq)
      | ClErr _ => (m', Idle, Tau)
      | _ => (m', CClaim c', Tau)
      end
  | CRead pos => (m, CRelease pos (default zero (load_data m (slot_of h pos))), Tau)
  | CRelease pos v =>
      if cas then
        let '(m', _, ok) := releaseSlot h pos m in (m', Idle, if ok then EvRet v else EvStale)
      else ((release h pos m).1, Idle, EvRet v)
  end.

(** ** The system *)

Record state := mkState {
  mem : mring T;
  thr : nat -> pc;
  gst : ghost T;        (* ghost: absolute cursors, phases, values *)
  gpos : nat -> Z       (* ghost: the absolute position a thread works on *)
}.

(** The ghost updates that accompany a step from [p] to [p']. *)
Definition ghost_step (t : nat) (p p' : pc) (g : ghost T) (gp : nat -> Z) : ghost T * (nat -> Z) :=
  match p, p' with
  | PClaim _ (ClLoad _), _ => (g, <[t := gW g]> gp)
  | CClaim (ClLoad _), _ => (g, <[t := gR g]> gp)
  | PClaim v (ClCas _ _), PWrite _ _ => (claimP v g, gp)
  | CClaim (ClCas _ _), CRead _ => (claimC g, gp)
  | PPublish _ _, _ => (set_ph (gp t) Full g, gp)
  | CRelease _ _, _ => (set_ph (gp t) Free g, gp)
  | _, _ => (g, gp)
  end.

(** A claiming thread is less than [2^61] claims behind. *)
Definition fresh (s : state) (t : nat) : Prop :=
  match thr s t with
  | PClaim _ (ClLoad _) | CClaim (ClLoad _) => True
  | PClaim _ _ => gW (gst s) - gpos s t < 2 ^ 61
  | CClaim _ => gR (gst s) - gpos s t < 2 ^ 61
  | _ => True
  end.

(** A step of thread [t]. *)
Inductive step (h : MPMCRing) (s : state) : nat -> event -> state -> Prop :=
| step_enqueue t v :
    thr s t = Idle ->
    step h s t Tau (mkState (mem s) (<[t := PClaim v (ClLoad false)]> (thr s)) (gst s) (gpos s))
| step_dequeue t :
    thr s t = Idle ->
    step h s t Tau (mkState (mem s) (<[t := CClaim (ClLoad false)]> (thr s)) (gst s) (gpos s))
| step_access t cas we m' p' ev g' gp' :
    thr s t <> Idle -> fresh s t ->
    thread_step h cas we (mem s) (thr s t) = (m', p', ev) ->
    ghost_step t (thr s t) p' (gst s) (gpos s) = (g', gp') ->
    step h s t ev (mkState m' (<[t := p']> (thr s)) g' gp').

(** A freshly formatted ring and no operation in progress. *)
Definition initial (k : Z) (h : MPMCRing) (s : state) : Prop :=
  rep k h (mem s) (fresh_ghost zero) /\ gst s = fresh_ghost zero /\ forall t, thr s t = Idle.

Inductive reachable (k : Z) (h : MPMCRing) : state -> Prop :=
| reach_init s : initial k h s -> reachable k h s
| reach_step s t ev s' : reachable k h s -> step h s t ev s' -> reachable k h s'.

(** An execution and the trace of its visible steps. *)
Inductive exec (h : MPMCRing) (s0 : state) : list (nat * event) -> state -> Prop :=
| exec_nil : exec h s0 [] s0
| exec_step tr s t ev s' :
    exec h s0 tr s -> step h s t ev s' -> exec h s0 (tr ++ [(t, ev)]) s'.

(** ** The specification: an atomic bounded queue

    A claim is the linearisation point: it appends to, or takes the head of,
    one list of at most [n] values; a thread that has taken a value returns
    exactly that value. *)
Record aqueue := mkAQ { aq_items : list T; aq_taken : nat -> option T }.

Inductive spec_step (n : Z) (a : aqueue) (t : nat) : event -> aqueue -> Prop :=
| spec_tau a' :
    aq_items a' = aq_items a -> (forall t', aq_taken a' t' = aq_taken a t') ->
    spec_step n a t Tau a'
| spec_enq v a' :
    Z.of_nat (length (aq_items a)) < n -> aq_items a' = aq_items a ++ [v] ->
    (forall t', aq_taken a' t' = aq_taken a t') ->
    spec_step n a t (EvEnq v) a'
| spec_deq v a' :
    aq_items a = v :: aq_items a' -> aq_taken a t = None -> aq_taken a' t = Some v ->
    (forall t', t' <> t -> aq_taken a' t' = aq_taken a t') ->
    spec_step n a t EvDeq a'
| spec_ret v a' :
    aq_items a' = aq_items a -> aq_taken a t = Some v -> aq_taken a' t = None ->
    (forall t', t' <> t -> aq_taken a' t' = aq_taken a t') ->
    spec_step n a t (EvRet v) a'.

Inductive spec_exec (n : Z) (a0 : aqueue) : list (nat * event) -> aqueue -> Prop :=
| spec_exec_nil : spec_exec n a0 [] a0
| spec_exec_step tr a t ev a' :
    spec_exec n a0 tr a -> spec_step n a t ev a' -> spec_exec n a0 (tr ++ [(t, ev)]) a'.

(** The abstract state of a system state. *)
Definition abs (s : state) : aqueue :=
  mkAQ (contents (gst s))
    (fun t => match thr s t with
              | CRead _ | CRelease _ _ => Some (val (gst s) (gpos s t))
              | _ => None
              end).

(** ** Invariant *)

Section Invariant.
Context (k : Z) (h : MPMCRing).

(** What a thread's program counter says about the ghost state. *)
Definition pc_ok (m : mring T) (g : ghost T) (q : Z) (p : pc) : Prop :=
  match p with
  | Idle | PClaim _ (ClLoad _) | CClaim (ClLoad _) => True
  | PClaim _ (ClSeq _ pos) | PClaim _ (ClWait pos) => pos = u64 q /\ 0 <= q <= gW g
  | PClaim _ (ClCas _ pos) =>
      pos = u64 q /\ 0 <= q <= gW g /\ (q = gW g -> ph g (gW g - 2 ^ k) = Free)
  | CClaim (ClSeq _ pos) | CClaim (ClWait pos) => pos = u64 q /\ 0 <= q <= gR g
  | CClaim (ClCas _ pos) =>
      pos = u64 q /\ 0 <= q <= gR g /\ (q = gR g -> gR g < gW g /\ ph g (gR g) = Full)
  | PClaim _ _ | CClaim _ => False
  | PWrite v pos => pos = u64 q /\ q < gW g /\ ph g q = Writing /\ val g q = v
  | PPublish v pos =>
      pos = u64 q /\ q < gW g /\ ph g q = Writing /\ val g q = v /\ load_data m (q mod 2 ^ k) = Some v
  | CRead pos => pos = u64 q /\ q < gW g /\ ph g q = Reading
  | CRelease pos v => pos = u64 q /\ q < gW g /\ ph g q = Reading /\ val g q = v
  end.

Definition holder (p : pc) : bool :=
  match p with PWrite _ _ | PPublish _ _ | CRead _ | CRelease _ _ => true | _ => false end.

Record Inv (s : state) : Prop := {
  inv_rep : rep k h (mem s) (gst s);
  inv_pc : forall t, pc_ok (mem s) (gst s) (gpos s t) (thr s t);
  inv_distinct : forall t1 t2, t1 <> t2 -> holder (thr s t1) = true -> holder (thr s t2) = true ->
    gpos s t1 <> gpos s t2
}.

Implicit Types (m : mring T) (g : ghost T) (q : Z) (p : pc).

(** A thread that holds a position holds one of the last [n]. *)
Lemma holder_phase m g q p : pc_ok m g q p -> holder p = true -> q < gW g /\ ph g q <> Free.
Proof. destruct p; simpl; try done; intros; destruct_and?; split; congruence || done. Qed.

(** *** What other threads know survives a step *)

Lemma pc_ok_claimP m g q p v :
  rep k h m g -> pc_ok m g q p ->
  pc_ok (set_cursor NotFull (u64 (gW g + 1)) m) (claimP v g) q p.
Proof.
  intros H. pose proof (rep_cursors _ _ _ _ H).
  destruct p as [|w c|w pos|w pos|c|pos|pos w]; simpl; try done;
    try (destruct c; simpl; try done; intros; destruct_and?; split_and?; try done; try lia; intros; try lia);
    try (intros; destruct_and?; rewrite ?fn_insert_ne by lia; split_and?; done || lia).
  subst q. match goal with E : _ -> _ /\ _ |- _ => destruct E as [? ?]; [done|] end. rewrite fn_insert_ne by lia. split; [lia|done].
Qed.

Lemma pc_ok_claimC m g q p :
  rep k h m g -> gR g < gW g -> ph g (gR g) = Full -> pc_ok m g q p ->
  pc_ok (set_cursor NotEmpty (u64 (gR g + 1)) m) (claimC g) q p.
Proof.
  intros H HR Hf. pose proof (rep_cursors _ _ _ _ H).
  assert (Hne : forall q f, f <> Full -> ph g q = f -> (<[gR g := Reading]> (ph g)) q = f).
  { intros q' f Hn E. rewrite fn_insert_ne; [done|]. intros <-. congruence. }
  destruct p as [|w c|w pos|w pos|c|pos|pos w]; simpl; try done;
    try (destruct c; simpl; try done; intros; destruct_and?; split_and?; try done; try lia; intros; try lia; auto);
    try (intros; destruct_and?; split_and?; auto; done).
Qed.

Lemma pc_ok_set_ph m m' g q p x0 f :
  (forall j, load_data m' j = load_data m j) -> ph g x0 <> Free -> x0 < gW g ->
  (f = Full -> ph g x0 = Writing) -> (f = Free -> ph g x0 = Reading) -> f = Full \/ f = Free ->
  (holder p = true -> q <> x0) -> pc_ok m g q p -> pc_ok m' (set_ph x0 f g) q p.
Proof.
  intros Hd Hn0 Hlt Hful Hfre Hf Hne.
  assert (Hfree : forall x, ph g x = Free -> (<[x0 := f]> (ph g)) x = Free).
  { intros x Hx. rewrite fn_insert_ne; [done|congruence]. }
  assert (Hfull : forall x, ph g x = Full -> (<[x0 := f]> (ph g)) x = Full).
  { intros x Hx. rewrite fn_insert_ne; [done|]. intros <-. destruct Hf as [-> | ->].
    - specialize (Hful eq_refl). congruence.
    - specialize (Hfre eq_refl). congruence. }
  destruct p as [|w c|w pos|w pos|c|pos|pos w]; simpl in *; try done;
    try (destruct c; simpl; try done; intros; destruct_and?; split_and?; try done; intros; split_and?;
         repeat match goal with E : _ -> _ /\ _ |- _ => destruct E as [? ?]; [done|] end; auto);
    intros; destruct_and?; rewrite ?fn_insert_ne by (specialize (Hne eq_refl); congruence);
    rewrite ?Hd; split_and?; done.
Qed.

Lemma pc_ok_store_data m g q p x0 v :
  rep k h m g -> x0 < gW g -> ph g x0 = Writing -> (holder p = true -> q <> x0) ->
  pc_ok m g q p -> pc_ok (store_data (x0 mod 2 ^ k) v m) g q p.
Proof.
  intros H Hlt Hw Hne Hp. destruct p; try exact Hp. simpl in *. destruct_and?. split_and?; try done.
  pose proof (slot_in_range k h m g x0 H). pose proof (slot_in_range k h m g q H).
  rewrite load_data_store_data by lia.
  destruct (Z.eqb_spec (x0 mod 2 ^ k) (q mod 2 ^ k)) as [E|]; [exfalso|done].
  destruct (busy_in_window k h m g x0 H) as [? _]; [done|congruence|].
  destruct (busy_in_window k h m g q H) as [? _]; [done|congruence|].
  specialize (Hne eq_refl). apply Hne. symmetry.
  apply (same_slot_eq k); [apply (rep_k _ _ _ _ H)|done|lia].
Qed.

(** *** Preservation *)

Lemma thr_insert_eq {B} (f : nat -> B) t b : (<[t := b]> f) t = b.
Proof. apply fn_lookup_insert. Qed.

Lemma thr_insert_ne {B} (f : nat -> B) t t' b : t <> t' -> (<[t := b]> f) t' = f t'.
Proof. apply fn_lookup_insert_ne. Qed.

Lemma inv_update s t m' p' g' gp' :
  Inv s -> rep k h m' g' -> (forall t', t' <> t -> gp' t' = gpos s t') ->
  pc_ok m' g' (gp' t) p' ->
  (forall t', t' <> t -> pc_ok m' g' (gpos s t') (thr s t')) ->
  (holder p' = true -> forall t', t' <> t -> holder (thr s t') = true -> gp' t <> gpos s t') ->
  Inv (mkState m' (<[t := p']> (thr s)) g' gp').
Proof.
  intros [Hr Hp Hd] Hr' Hg Ht Ho Hdis. constructor; simpl; [done| |].
  - intros t'. destruct (decide (t = t')) as [<-|Hne]; [by rewrite thr_insert_eq|].
    rewrite thr_insert_ne, Hg by congruence. by apply Ho.
  - intros t1 t2 Hne. destruct (decide (t = t1)) as [<-|N1]; destruct (decide (t = t2)) as [<-|N2];
      rewrite ?thr_insert_eq, ?thr_insert_ne by done; intros H1 H2; try done.
    + rewrite (Hg t2) by congruence. by apply Hdis.
    + rewrite (Hg t1) by congruence. intros E. symmetry in E. revert E. by apply Hdis.
    + rewrite !Hg by congruence. by apply Hd.
Qed.

(** Steps that change neither memory nor ghost state. *)
Lemma inv_local s t p' gp' :
  Inv s -> (forall t', t' <> t -> gp' t' = gpos s t') ->
  pc_ok (mem s) (gst s) (gp' t) p' ->
  (holder p' = true -> holder (thr s t) = true /\ gp' t = gpos s t) ->
  Inv (mkState (mem s) (<[t := p']> (thr s)) (gst s) gp').
Proof.
  intros H Hg Hp Hh.
  apply (inv_update s); [done|apply (inv_rep _ H)|done|done|intros; apply (inv_pc _ H)|].
  intros Hp' t' Hne Ht'. destruct (Hh Hp') as [H1 H2]. rewrite H2. by apply (inv_distinct _ H).
Qed.

Lemma claim_switch_cases side slow seq pos :
  let c := claim_switch side slow seq pos in
  c = ClCas slow pos \/ c = ClLoad slow \/ c = ClWait pos \/ c = ClSeq true pos.
Proof. unfold claim_switch. repeat bcase; auto. Qed.

Lemma holders_below s t : Inv s -> holder (thr s t) = true -> gpos s t < gW (gst s).
Proof. intros H Hh. by destruct (holder_phase _ _ _ _ (inv_pc _ H t) Hh). Qed.

Lemma inv_producer_claim s t v c we m' p' ev g' gp' :
  Inv s -> thr s t = PClaim v c -> fresh s t -> forall cas,
  thread_step h cas we (mem s) (PClaim v c) = (m', p', ev) ->
  ghost_step t (PClaim v c) p' (gst s) (gpos s) = (g', gp') ->
  Inv (mkState m' (<[t := p']> (thr s)) g' gp').
Proof.
  intros H Ht Hf cas E Eg. pose proof (inv_pc _ H t) as Hp. rewrite Ht in Hp.
  pose proof (inv_rep _ H) as Hr. pose proof (rep_cursors _ _ _ _ Hr) as Hc.
  unfold fresh in Hf. rewrite Ht in Hf.
  destruct c as [b|b pos|b pos|pos|pos|e]; simpl in Hp; try done; destruct_and?; subst; simpl in E.
  - simplify_eq. simpl in Eg. simplify_eq. apply inv_local; [done|intros; by apply thr_insert_ne| |done].
    simpl. rewrite thr_insert_eq. split; [by apply (rep_w _ _ _ _ Hr)|lia].
  - destruct (claim_switch_cases NotFull b (load_seq (mem s) (slot_of h (u64 (gpos s t)))) (u64 (gpos s t)))
      as [Es|[Es|[Es|Es]]]; rewrite Es in E; simplify_eq; simpl in Eg; simplify_eq;
      apply inv_local; try done; simpl; split_and?; try done.
    by eapply producer_cas_sound; [|lia|lia|exact Es].
  - destruct (Z.eqb_spec (m_w (mem s)) (u64 (gpos s t))) as [Ew|Ew]; simplify_eq; simpl in Eg; simplify_eq.
    + rewrite (rep_w _ _ _ _ Hr) in Ew. apply u64_inj_near in Ew; [|lia].
      assert (Hfree : ph (gst s) (gW (gst s) - 2 ^ k) = Free) by auto.
      rewrite <- Ew, u64_add_l. apply (inv_update s); auto.
      * by apply rep_claimP.
      * simpl. rewrite <- Ew. rewrite !fn_insert_eq. split_and?; try done. lia.
      * intros t' Hne. apply pc_ok_claimP; [done|]. apply (inv_pc _ H).
      * intros _ t' Hne Hh. pose proof (holders_below s t' H Hh). lia.
    + apply inv_local; done.
  - destruct we; simplify_eq; simpl in Eg; simplify_eq; apply inv_local; try done; simpl; split_and?; done.
Qed.

Lemma inv_consumer_claim s t c we m' p' ev g' gp' :
  Inv s -> thr s t = CClaim c -> fresh s t -> forall cas,
  thread_step h cas we (mem s) (CClaim c) = (m', p', ev) ->
  ghost_step t (CClaim c) p' (gst s) (gpos s) = (g', gp') ->
  Inv (mkState m' (<[t := p']> (thr s)) g' gp').
Proof.
  intros H Ht Hf cas E Eg. pose proof (inv_pc _ H t) as Hp. rewrite Ht in Hp.
  pose proof (inv_rep _ H) as Hr. pose proof (rep_cursors _ _ _ _ Hr) as Hc.
  unfold fresh in Hf. rewrite Ht in Hf. pose proof (pow_bounds k (rep_k _ _ _ _ Hr)).
  destruct c as [b|b pos|b pos|pos|pos|e]; simpl in Hp; try done; destruct_and?; subst; simpl in E.
  - simplify_eq. simpl in Eg. simplify_eq. apply inv_local; [done|intros; by apply thr_insert_ne| |done].
    simpl. rewrite thr_insert_eq. split; [by apply (rep_r _ _ _ _ Hr)|lia].
  - destruct (claim_switch_cases NotEmpty b (load_seq (mem s) (slot_of h (u64 (gpos s t)))) (u64 (gpos s t)))
      as [Es|[Es|[Es|Es]]]; rewrite Es in E; simplify_eq; simpl in Eg; simplify_eq;
      apply inv_local; try done; simpl; split_and?; try done.
    by eapply consumer_cas_sound; [|lia|lia|exact Es].
  - destruct (Z.eqb_spec (m_r (mem s)) (u64 (gpos s t))) as [Ew|Ew]; simplify_eq; simpl in Eg; simplify_eq.
    + rewrite (rep_r _ _ _ _ Hr) in Ew. apply u64_inj_near in Ew; [|lia].
      assert (Hfull : gR (gst s) < gW (gst s) /\ ph (gst s) (gR (gst s)) = Full) by auto.
      destruct Hfull as [HRW Hfull]. rewrite <- Ew, u64_add_l. apply (inv_update s); auto.
      * by apply rep_claimC.
      * simpl. rewrite <- Ew. rewrite !fn_insert_eq. done.
      * intros t' Hne. apply pc_ok_claimC; [done..|]. apply (inv_pc _ H).
      * intros _ t' Hne Hh E. rewrite <- Ew in E.
        pose proof (inv_pc _ H t') as Hp'. rewrite <- E in Hp'.
        destruct (thr s t'); simpl in Hh, Hp'; try done; destruct_and?; congruence.
    + apply inv_local; done.
  - destruct we; simplify_eq; simpl in Eg; simplify_eq; apply inv_local; try done; simpl; split_and?; done.
Qed.

(** The compare-and-swap of the holder of a slot always succeeds. *)
Lemma publishSlot_owner m g q :
  rep k h m g -> q < gW g -> ph g q = Writing ->
  publishSlot h (u64 q) m = ((publish h (u64 q) m).1, (publish h (u64 q) m).2, true).
Proof.
  intros H Hq Hw. unfold publishSlot, publish.
  rewrite (claimed_seq k h m g) by (done || congruence). rewrite Hw. simpl. rewrite Z.eqb_refl.
  by destruct (notifyConsumers _ _).
Qed.

Lemma releaseSlot_owner m g q :
  rep k h m g -> q < gW g -> ph g q = Reading ->
  releaseSlot h (u64 q) m = ((release h (u64 q) m).1, (release h (u64 q) m).2, true).
Proof.
  intros H Hq Hw. unfold releaseSlot, release.
  rewrite (claimed_seq k h m g) by (done || congruence). rewrite Hw. simpl. rewrite u64_add_l, Z.eqb_refl.
  by destruct (notifyProducers _ _).
Qed.

Lemma load_data_publish hd pos m j : load_data (publish hd pos m).1 j = load_data m j.
Proof.
  unfold publish, notifyConsumers, wakeOne, wakeWord. repeat bcase; simpl;
    apply (load_data_store_seq m).
Qed.

Lemma load_data_release hd pos m j : load_data (release hd pos m).1 j = load_data m j.
Proof.
  unfold release, notifyProducers, wakeOne, wakeWord. repeat bcase; simpl;
    apply (load_data_store_seq m).
Qed.

Lemma inv_complete s t p m' f :
  Inv s -> thr s t = p -> holder p = true ->
  rep k h m' (set_ph (gpos s t) f (gst s)) -> (forall j, load_data m' j = load_data (mem s) j) ->
  (f = Full -> ph (gst s) (gpos s t) = Writing) -> (f = Free -> ph (gst s) (gpos s t) = Reading) ->
  f = Full \/ f = Free ->
  Inv (mkState m' (<[t := Idle]> (thr s)) (set_ph (gpos s t) f (gst s)) (gpos s)).
Proof.
  intros H Ht Hh Hr Hd H1 H2 H3. rewrite <- Ht in Hh.
  destruct (holder_phase _ _ _ _ (inv_pc _ H t) Hh) as [Hlt Hnf].
  apply (inv_update s); [done|done|done|done| |done].
  intros t' Hne. apply (pc_ok_set_ph (mem s)); [done..| |apply (inv_pc _ H)].
  intros Hh'. by apply (inv_distinct _ H).
Qed.

Lemma inv_step s t ev s' : Inv s -> step h s t ev s' -> Inv s'.
Proof.
  intros H Hs. destruct Hs as [t v Hi|t Hi|t cas we m' p' ev' g' gp' Hni Hf E Eg].
  - apply inv_local; done.
  - apply inv_local; done.
  - pose proof (inv_pc _ H t) as Hp. pose proof (inv_rep _ H) as Hr.
    destruct (thr s t) as [|v c|v pos|v pos|c|pos|pos v] eqn:Ht.
    + done.
    + by eapply inv_producer_claim.
    + simpl in Hp. destruct_and?. subst. simpl in E, Eg. simplify_eq.
      rewrite (slot_of_u64 k h (mem s) (gst s)) by done.
      apply (inv_update s); [done|by apply rep_store_data|done| | |].
      * simpl. split_and?; try done.
        pose proof (slot_in_range k h _ _ (gpos s t) Hr). by rewrite load_data_store_data, Z.eqb_refl by lia.
      * intros t' Hne. apply (pc_ok_store_data _ (gst s)); [done..| |apply (inv_pc _ H)].
        intros Hh. apply (inv_distinct _ H); [done..|by rewrite Ht].
      * intros _ t' Hne Hh. apply (inv_distinct _ H); [done|by rewrite Ht|done].
    + simpl in Hp. destruct_and?. subst. simpl in E, Eg. simplify_eq.
      assert (E' : m' = (publish h (u64 (gpos s t)) (mem s)).1 /\ p' = Idle).
      { destruct cas; [|by simplify_eq].
        rewrite (publishSlot_owner _ (gst s)) in E by done. by simplify_eq. }
      destruct E' as [-> ->]. eapply (inv_complete s t); eauto using load_data_publish; [|congruence].
      by apply publish_rep; auto.
    + by eapply inv_consumer_claim.
    + simpl in Hp. destruct_and?. subst. simpl in E, Eg. simplify_eq.
      apply inv_local; auto; [|by rewrite Ht].
      simpl. split_and?; try done. rewrite (slot_of_u64 k h (mem s) (gst s)) by done.
      rewrite (rep_data _ _ _ _ Hr) by auto. done.
    + simpl in Hp. destruct_and?. subst. simpl in E, Eg. simplify_eq.
      assert (E' : m' = (release h (u64 (gpos s t)) (mem s)).1 /\ p' = Idle).
      { destruct cas; [|by simplify_eq].
        rewrite (releaseSlot_owner _ (gst s)) in E by done. by simplify_eq. }
      destruct E' as [-> ->]. eapply (inv_complete s t); eauto using load_data_release; [|congruence].
      by apply release_rep.
Qed.

Lemma inv_reachable s : reachable k h s -> Inv s.
Proof.
  induction 1 as [s (Hr & Hg & Ht)|s t ev s' _ IH Hs]; [|by eapply inv_step].
  constructor.
  - by rewrite Hg.
  - intros t. by rewrite Ht.
  - intros t1 t2 _. by rewrite Ht.
Qed.

Lemma exec_reachable s0 tr s : initial k h s0 -> exec h s0 tr s -> reachable k h s.
Proof. intros H0. induction 1; [by constructor|by eapply reach_step]. Qed.

(** *** Simulation *)

(** The claims of other threads leave what a thread has taken alone. *)
Lemma taken_claimP s t v : Inv s ->
  val (claimP v (gst s)) (gpos s t) = val (gst s) (gpos s t) \/ holder (thr s t) = false.
Proof.
  intros H. destruct (holder (thr s t)) eqn:Hh; [|by right]. left. simpl.
  pose proof (holders_below s t H Hh). apply fn_insert_ne. lia.
Qed.

Lemma abs_insert s t m' p' g' gp' :
  (forall t', t' <> t -> gp' t' = gpos s t') ->
  (forall t', t' <> t -> val g' (gpos s t') = val (gst s) (gpos s t') \/ holder (thr s t') = false) ->
  forall t', t' <> t ->
  aq_taken (abs (mkState m' (<[t := p']> (thr s)) g' gp')) t' = aq_taken (abs s) t'.
Proof.
  intros Hg Hv t' Hne. simpl. rewrite thr_insert_ne, Hg by congruence.
  destruct (Hv t' Hne) as [->|Hh]; [done|]. by destruct (thr s t').
Qed.

Definition takes (p : pc) : bool := match p with CRead _ | CRelease _ _ => true | _ => false end.

(** A step that neither claims nor returns is invisible. *)
Lemma sim_tau s t m' p' f x gp' :
  takes p' = takes (thr s t) -> (takes p' = true -> gp' t = gpos s t) ->
  (forall t', t' <> t -> gp' t' = gpos s t') ->
  let g' := match f with Some f => set_ph x f (gst s) | None => gst s end in
  spec_step (2 ^ k) (abs s) t Tau (abs (mkState m' (<[t := p']> (thr s)) g' gp')).
Proof.
  intros Hp Hgt Hg g'. assert (Hv : forall y, val g' y = val (gst s) y) by (by destruct f).
  apply spec_tau.
  - simpl. by destruct f.
  - intros t'. destruct (decide (t' = t)) as [->|Hne].
    + simpl. rewrite thr_insert_eq, Hv. destruct p', (thr s t); simpl in *; try done; by rewrite Hgt.
    + apply abs_insert; [done| |done]. auto.
Qed.

Lemma sim_producer_claim s t v c we m' p' ev g' gp' :
  Inv s -> thr s t = PClaim v c -> fresh s t -> forall cas,
  thread_step h cas we (mem s) (PClaim v c) = (m', p', ev) ->
  ghost_step t (PClaim v c) p' (gst s) (gpos s) = (g', gp') ->
  spec_step (2 ^ k) (abs s) t ev (abs (mkState m' (<[t := p']> (thr s)) g' gp')).
Proof.
  intros H Ht Hf cas E Eg. pose proof (inv_pc _ H t) as Hp. rewrite Ht in Hp.
  pose proof (inv_rep _ H) as Hr. pose proof (rep_cursors _ _ _ _ Hr) as Hc.
  assert (Hlocal : forall gp p, holder p = false -> (forall t', t' <> t -> gp t' = gpos s t') ->
    spec_step (2 ^ k) (abs s) t Tau (abs (mkState (mem s) (<[t := p]> (thr s)) (gst s) gp))).
  { intros gp p Hp0 Hg. apply (sim_tau s t (mem s) p None 0); rewrite ?Ht; simpl; destruct p; done. }
  unfold fresh in Hf. rewrite Ht in Hf.
  destruct c as [b|b pos|b pos|pos|pos|e]; simpl in Hp; try done; destruct_and?; subst; simpl in E.
  - simplify_eq. simpl in Eg. simplify_eq. apply Hlocal; [done|]. intros. by apply thr_insert_ne.
  - destruct (claim_switch_cases NotFull b (load_seq (mem s) (slot_of h (u64 (gpos s t)))) (u64 (gpos s t)))
      as [Es|[Es|[Es|Es]]]; rewrite Es in E; simplify_eq; simpl in Eg; simplify_eq; by apply Hlocal.
  - destruct (Z.eqb_spec (m_w (mem s)) (u64 (gpos s t))) as [Ew|Ew]; simplify_eq; simpl in Eg; simplify_eq.
    + rewrite (rep_w _ _ _ _ Hr) in Ew. apply u64_inj_near in Ew; [|lia].
      assert (Hfree : ph (gst s) (gW (gst s) - 2 ^ k) = Free) by auto.
      assert (Hroom : gW (gst s) - gR (gst s) < 2 ^ k).
      { destruct (decide (gW (gst s) - 2 ^ k < gR (gst s))); [lia|].
        destruct (rep_busy _ _ _ _ Hr (gW (gst s) - 2 ^ k)); [|congruence..].
        pose proof (pow_bounds k (rep_k _ _ _ _ Hr)). lia. }
      apply spec_enq.
      * simpl. rewrite length_contents. lia.
      * simpl. eapply contents_claimP; eauto.
      * intros t'. destruct (decide (t' = t)) as [->|Hne].
        -- simpl. by rewrite thr_insert_eq, Ht.
        -- apply abs_insert; [done| |done]. intros. by apply taken_claimP.
    + by apply Hlocal.
  - destruct we; simplify_eq; simpl in Eg; simplify_eq; by apply Hlocal.
Qed.

Lemma sim_consumer_claim s t c we m' p' ev g' gp' :
  Inv s -> thr s t = CClaim c -> fresh s t -> forall cas,
  thread_step h cas we (mem s) (CClaim c) = (m', p', ev) ->
  ghost_step t (CClaim c) p' (gst s) (gpos s) = (g', gp') ->
  spec_step (2 ^ k) (abs s) t ev (abs (mkState m' (<[t := p']> (thr s)) g' gp')).
Proof.
  intros H Ht Hf cas E Eg. pose proof (inv_pc _ H t) as Hp. rewrite Ht in Hp.
  pose proof (inv_rep _ H) as Hr. pose proof (rep_cursors _ _ _ _ Hr) as Hc.
  assert (Hlocal : forall gp p, holder p = false -> (forall t', t' <> t -> gp t' = gpos s t') ->
    spec_step (2 ^ k) (abs s) t Tau (abs (mkState (mem s) (<[t := p]> (thr s)) (gst s) gp))).
  { intros gp p Hp0 Hg. apply (sim_tau s t (mem s) p None 0); rewrite ?Ht; simpl; destruct p; done. }
  unfold fresh in Hf. rewrite Ht in Hf.
  destruct c as [b|b pos|b pos|pos|pos|e]; simpl in Hp; try done; destruct_and?; subst; simpl in E.
  - simplify_eq. simpl in Eg. simplify_eq. apply Hlocal; [done|]. intros. by apply thr_insert_ne.
  - destruct (claim_switch_cases NotEmpty b (load_seq (mem s) (slot_of h (u64 (gpos s t)))) (u64 (gpos s t)))
      as [Es|[Es|[Es|Es]]]; rewrite Es in E; simplify_eq; simpl in Eg; simplify_eq; by apply Hlocal.
  - destruct (Z.eqb_spec (m_r (mem s)) (u64 (gpos s t))) as [Ew|Ew]; simplify_eq; simpl in Eg; simplify_eq.
    + rewrite (rep_r _ _ _ _ Hr) in Ew. apply u64_inj_near in Ew; [|lia].
      assert (Hfull : gR (gst s) < gW (gst s) /\ ph (gst s) (gR (gst s)) = Full) by auto.
      destruct Hfull as [HRW Hfull]. apply (spec_deq _ _ _ (val (gst s) (gR (gst s)))).
      * simpl. by rewrite contents_claimC.
      * simpl. by rewrite Ht.
      * simpl. by rewrite thr_insert_eq, Ew.
      * apply abs_insert; [done|]. by left.
    + by apply Hlocal.
  - destruct we; simplify_eq; simpl in Eg; simplify_eq; by apply Hlocal.
Qed.

Lemma sim_step s t ev s' : Inv s -> step h s t ev s' -> spec_step (2 ^ k) (abs s) t ev (abs s').
Proof.
  intros H Hs. destruct Hs as [t v Hi|t Hi|t cas we m' p' ev' g' gp' Hni Hf E Eg].
  - apply (sim_tau s t (mem s) (PClaim v (ClLoad false)) None 0); by rewrite ?Hi.
  - apply (sim_tau s t (mem s) (CClaim (ClLoad false)) None 0); by rewrite ?Hi.
  - pose proof (inv_pc _ H t) as Hp. pose proof (inv_rep _ H) as Hr.
    destruct (thr s t) as [|v c|v pos|v pos|c|pos|pos v] eqn:Ht.
    + done.
    + by eapply sim_producer_claim.
    + simpl in E, Eg. simplify_eq. apply (sim_tau s t _ (PPublish v pos) None 0); by rewrite ?Ht.
    + simpl in Hp. destruct_and?. subst. simpl in E, Eg. simplify_eq.
      assert (E' : p' = Idle /\ ev' = Tau).
      { destruct cas; [|by simplify_eq].
        rewrite (publishSlot_owner _ (gst s)) in E by done. by simplify_eq. }
      destruct E' as [-> ->]. apply (sim_tau s t _ Idle (Some Full)); by rewrite ?Ht.
    + by eapply sim_consumer_claim.
    + simpl in E, Eg. simplify_eq.
      apply (sim_tau s t _ (CRelease pos (default zero (load_data (mem s) (slot_of h pos)))) None 0);
        by rewrite ?Ht.
    + simpl in Hp. destruct_and?. subst. simpl in E, Eg. simplify_eq.
      assert (E' : p' = Idle /\ ev' = EvRet (val (gst s) (gpos s t))).
      { destruct cas; [|by simplify_eq].
        rewrite (releaseSlot_owner _ (gst s)) in E by done. by simplify_eq. }
      destruct E' as [-> ->]. apply spec_ret.
      * simpl. done.
      * simpl. by rewrite Ht.
      * simpl. by rewrite thr_insert_eq.
      * apply abs_insert; [done|]. by left.
Qed.

(** *** Stale copies *)

(** The sequence number of a position's slot has moved past the number that
    position waits for once the position is completed. *)
Lemma passed_seq m g q d :
  rep k h m g -> 0 <= q < gW g -> gW g - q < 2 ^ 62 -> 0 <= d <= 1 ->
  q + d < seqof (2 ^ k) q (ph g q) ->
  load_seq m (slot_of h (u64 q)) <> u64 (q + d).
Proof.
  intros H Hq Hw Hd Hs E. pose proof (rep_k _ _ _ _ H) as Hk. pose proof (pow_bounds k Hk).
  rewrite (slot_of_u64 k h m g), (load_seq_latest k h m g) in E by done.
  destruct (latest_spec k (gW g) q Hk) as [Hl Hm].
  pose proof (seqof_range k (latest k (gW g) q) (ph g (latest k (gW g) q)) Hk).
  assert (Hgt : q + d < seqof (2 ^ k) (latest k (gW g) q) (ph g (latest k (gW g) q))).
  { destruct (decide (latest k (gW g) q = q)) as [->|Hne]; [done|].
    destruct (decide (latest k (gW g) q < q + 2 ^ k)); [|lia].
    exfalso. apply Hne. apply (same_slot_eq k); [done..|lia]. }
  apply u64_inj_near in E; lia.
Qed.

End Invariant.

(** ** Running a schedule

    A schedule names, step by step, the thread that moves and what it starts;
    running it gives an execution, so that concrete interleavings are
    computed. *)

Inductive move := StartEnq (v : T) | StartDeq | Access (cas : bool) (we : option error).

Definition freshb (s : state) (t : nat) : bool :=
  match thr s t with
  | PClaim _ (ClLoad _) | CClaim (ClLoad _) => true
  | PClaim _ _ => gW (gst s) - gpos s t <? 2 ^ 61
  | CClaim _ => gR (gst s) - gpos s t <? 2 ^ 61
  | _ => true
  end.

Definition sched_step (h : MPMCRing) (s : state) (t : nat) (mv : move) : option (event * state) :=
  match thr s t, mv with
  | Idle, StartEnq v =>
      Some (Tau, mkState (mem s) (<[t := PClaim v (ClLoad false)]> (thr s)) (gst s) (gpos s))
  | Idle, StartDeq =>
      Some (Tau, mkState (mem s) (<[t := CClaim (ClLoad false)]> (thr s)) (gst s) (gpos s))
  | Idle, Access _ _ => None
  | p, Access cas we =>
      if freshb s t then
        let '(m', p', ev) := thread_step h cas we (mem s) p in
        let '(g', gp') := ghost_step t p p' (gst s) (gpos s) in
        Some (ev, mkState m' (<[t := p']> (thr s)) g' gp')
      else None
  | _, _ => None
  end.

Fixpoint sched_run (h : MPMCRing) (s : state) (l : list (nat * move)) : option (list (nat * event) * state) :=
  match l with
  | [] => Some ([], s)
  | (t, mv) :: l' =>
      match sched_step h s t mv with
      | None => None
      | Some (ev, s1) =>
          match sched_run h s1 l' with
          | None => None
          | Some (tr, s2) => Some ((t, ev) :: tr, s2)
          end
      end
  end.

Lemma freshb_sound s t : freshb s t = true -> fresh s t.
Proof.
  unfold freshb, fresh. destruct (thr s t) as [|v c|v p|v p|c|p|p v]; try done; destruct c; try done;
    apply Z.ltb_lt.
Qed.

Lemma sched_step_sound h s t mv ev s' : sched_step h s t mv = Some (ev, s') -> step h s t ev s'.
Proof.
  unfold sched_step. intros E.
  assert (Hd : thr s t = Idle \/ thr s t <> Idle) by (destruct (thr s t); by (left + right)).
  destruct Hd as [Ht|Ht].
  - rewrite Ht in E. destruct mv; simplify_eq; by constructor.
  - destruct mv as [v| |cas we]; [destruct (thr s t); congruence..|].
    assert (E' : (if freshb s t then
        let '(m', p', ev) := thread_step h cas we (mem s) (thr s t) in
        let '(g', gp') := ghost_step t (thr s t) p' (gst s) (gpos s) in
        Some (ev, mkState m' (<[t := p']> (thr s)) g' gp') else None) = Some (ev, s'))
      by (destruct (thr s t); [congruence|exact E..]).
    clear E. destruct (freshb s t) eqn:Hf; [|discriminate].
    destruct (thread_step _ _ _ _ _) as [[m' p'] ev'] eqn:Et.
    destruct (ghost_step _ _ _ _ _) as [g' gp'] eqn:Eg. simplify_eq.
    eapply step_access; eauto using freshb_sound.
Qed.

Lemma exec_cons h s0 t ev s1 tr s : step h s0 t ev s1 -> exec h s1 tr s -> exec h s0 ((t, ev) :: tr) s.
Proof.
  intros Hs. induction 1 as [|tr s2 t' ev' s3 _ IH Hs'].
  - apply (exec_step h s0 [] s0); [constructor|done].
  - by apply (exec_step h s0 ((t, ev) :: tr) s2).
Qed.

Lemma sched_run_sound h l : forall s tr s', sched_run h s l = Some (tr, s') -> exec h s tr s'.
Proof.
  induction l as [|[t mv] l IH]; intros s tr s' E; simpl in E; [simplify_eq; constructor|].
  destruct (sched_step h s t mv) as [[ev s1]|] eqn:E1; [|discriminate].
  destruct (sched_run h s1 l) as [[tr' s2]|] eqn:E2; simplify_eq.
  eapply exec_cons; [by eapply sched_step_sound|by apply IH].
Qed.

Lemma sched_run_reachable k h l s tr s' :
  initial k h s -> sched_run h s l = Some (tr, s') -> reachable k h s'.
Proof. intros Hi E%sched_run_sound. by eapply exec_reachable. Qed.

End Conc.


(** A formatted ring of two slots with idle threads. *)
Definition two_slots : state := mkState
  (mkRing mpmc_magic 2 mpmc_init 128 layoutVersion 0 0 0 0 0 0 [mkElem 0 0; mkElem 1 0])
  (fun _ => Idle) (fresh_ghost 0) (fun _ => 0).

Definition two_handle : MPMCRing := mkHandle 1 2 128 WaitAdaptive false.

Lemma two_slots_initial : initial 0 1 two_handle two_slots.
Proof.
  split_and!; [|done..]. apply formatted_rep; try done; try lia.
  intros j Hj. assert (j = 0 \/ j = 1) as [-> | ->] by lia; reflexivity.
Qed.

(** Two producers race for position 0, thread 1 loses the compare-and-swap
    and takes position 1; both write; a consumer takes position 0 while
    thread 1 has not yet published. *)
Definition race : list (nat * move) :=
  let a t := (t, Access true None) in
  [(0%nat, StartEnq 7); (1%nat, StartEnq 8)] ++ map a [0;1;0;1;0;1;1;1;1;0;1;0]%nat ++
  [(2%nat, StartDeq)] ++ map a [2;2;2;2]%nat.

(** ** Properties *)

(** C1. The ring is a linearizable bounded FIFO queue for any number of producers
    and consumers: every interleaving of their atomic accesses is, claim for
    claim, a run of one atomic queue of at most [2^k] values, in which every
    consumer returns the value that was at the head of the queue at its claim.
    In particular no completion ever finds its slot taken away ([EvStale] is
    not a step of the specification). *)
Theorem ring_linearizable {T : Type} (zero : T) (k : Z) (h : MPMCRing) (s0 s : state) tr
  (H0 : initial zero k h s0) (He : exec zero h s0 tr s) :
  aq_items (abs s0) = [] /\ spec_exec (2 ^ k) (abs s0) tr (abs s).
Proof.
  split; [simpl; destruct H0 as (_ & -> & _); reflexivity|].
  induction He as [|tr s t ev s' He IH Hs]; [constructor|].
  eapply spec_exec_step; [done|]. eapply sim_step; [|done].
  eapply inv_reachable, exec_reachable; done.
Qed.

Lemma ring_linearizable_witness :
  exists tr s, sched_run 0 two_handle two_slots race = Some (tr, s) /\
    filter (fun e => e <> Tau) (map snd tr) = [EvEnq 7; EvEnq 8; EvDeq] /\
    spec_exec 2 (abs two_slots) tr (abs s) /\ aq_items (abs s) = [8].
Proof.
  assert (Ht : option_map (fun x => (filter (fun e => e <> Tau) (map snd x.1), aq_items (abs x.2)))
    (sched_run 0 two_handle two_slots race) = Some ([EvEnq 7; EvEnq 8; EvDeq], [8]))
    by (vm_compute; reflexivity).
  destruct (sched_run 0 two_handle two_slots race) as [[tr s]|] eqn:E; [|discriminate Ht].
  exists tr, s. simpl in Ht. injection Ht as Ht Hi. split; [done|]. split; [exact Ht|].
  split; [|exact Hi].
  apply (ring_linearizable 0 1 two_handle two_slots s tr two_slots_initial).
  by apply (sched_run_sound 0 two_handle race).
Defined.

(** C5. No two threads ever hold the same slot: a position a thread has claimed
    and not yet completed is in a slot no other thread reads or writes. *)
Theorem ring_slots_exclusive {T : Type} (zero : T) (k : Z) (h : MPMCRing) (s : state) (t1 t2 : nat)
  (Hr : reachable zero k h s) (Hne : t1 <> t2)
  (H1 : holder (thr s t1) = true) (H2 : holder (thr s t2) = true) :
  slot_of h (u64 (gpos s t1)) <> slot_of h (u64 (gpos s t2)).
Proof.
  pose proof (inv_reachable zero k h s Hr) as H. pose proof (inv_rep _ _ _ H) as Hrep.
  rewrite !(slot_of_u64 k h (mem s) (gst s)) by done. intros E.
  destruct (holder_phase k _ _ _ _ (inv_pc _ _ _ H t1) H1) as [L1 F1].
  destruct (holder_phase k _ _ _ _ (inv_pc _ _ _ H t2) H2) as [L2 F2].
  destruct (busy_in_window k h _ _ _ Hrep L1 F1), (busy_in_window k h _ _ _ Hrep L2 F2).
  apply (inv_distinct _ _ _ H t1 t2 Hne H1 H2).
  apply (same_slot_eq k); [apply (rep_k _ _ _ _ Hrep)|done|lia].
Qed.

Lemma ring_slots_exclusive_witness :
  exists tr s, sched_run 0 two_handle two_slots (take 11 race) = Some (tr, s) /\
    slot_of two_handle (u64 (gpos s 0)) <> slot_of two_handle (u64 (gpos s 1)).
Proof.
  assert (Ht : option_map (fun x => (holder (thr x.2 0%nat), holder (thr x.2 1%nat)))
    (sched_run 0 two_handle two_slots (take 11 race)) = Some (true, true)) by (vm_compute; reflexivity).
  destruct (sched_run 0 two_handle two_slots (take 11 race)) as [[tr s]|] eqn:E; [|discriminate Ht].
  exists tr, s. simpl in Ht. injection Ht as H0 H1. split; [done|].
  apply (ring_slots_exclusive 0 1 two_handle s 0 1); [|lia|exact H0|exact H1].
  exact (sched_run_reachable 0 1 two_handle _ _ _ _ two_slots_initial E).
Defined.

(** A second completion of a slot does nothing: once a position is published
    its producer's copies can no longer publish it, and once it is released
    its consumer's copies can no longer release it, however many other
    positions have used the slot since (less than [2^62]). *)
Theorem ring_stale_completions_fail {T : Type} (zero : T) (k : Z) (h : MPMCRing) (s : state) (q : Z)
  (Hr : reachable zero k h s) (Hq : 0 <= q < gW (gst s)) (Hw : gW (gst s) - q < 2 ^ 62) :
  (ph (gst s) q <> Writing -> publishSlot h (u64 q) (mem s) = (mem s, [], false)) /\
  (ph (gst s) q = Free -> releaseSlot h (u64 q) (mem s) = (mem s, [], false)).
Proof.
  pose proof (inv_rep _ _ _ (inv_reachable zero k h s Hr)) as Hrep.
  pose proof (pow_bounds k (rep_k _ _ _ _ Hrep)).
  split; intros Hp; unfold publishSlot, releaseSlot.
  - rewrite (proj2 (Z.eqb_neq _ _)); [done|]. rewrite <- (Z.add_0_r q) at 2.
    apply (passed_seq k h _ (gst s)); try done; try lia. destruct (ph (gst s) q); simpl; [done|lia..].
  - rewrite u64_add_l, (proj2 (Z.eqb_neq _ _)); [done|].
    apply (passed_seq k h _ (gst s)); try done; try lia. rewrite Hp. simpl. lia.
Qed.

Lemma ring_stale_completions_fail_witness :
  exists tr s, sched_run 0 two_handle two_slots race = Some (tr, s) /\
    publishSlot two_handle 0 (mem s) = (mem s, [], false).
Proof.
  assert (Ht : option_map (fun x => (gW (gst x.2), ph (gst x.2) 0))
    (sched_run 0 two_handle two_slots race) = Some (2, Reading)) by (vm_compute; reflexivity).
  destruct (sched_run 0 two_handle two_slots race) as [[tr s]|] eqn:E; [|discriminate Ht].
  exists tr, s. simpl in Ht. injection Ht as HW Hp. split; [done|].
  apply (ring_stale_completions_fail 0 1 two_handle s 0); [|lia..|by rewrite Hp].
  exact (sched_run_reachable 0 1 two_handle _ _ _ _ two_slots_initial E).
Defined.
