(* ===== verification/Waiter.v ===== *)
(** * Waiter: one backoff step of a blocked operation

    Models [Cancel], [poll], [slowChecks], [stillBlocked] and [waiter.wait] of
    internal/mpmc/mpmc.go. A call of [wait] is a function of the waiter's
    state and of what the call observes (the slot re-reads, the clock, the
    cancellation sources), and answers with the result and with how the
    goroutine gives up its thread. Times are nanoseconds; Go's zero time is
    [None]. What parking does is modelled in Parking. *)
From S2P Require Import Prelude Errors Layout Ring.

(** ** Tuning knobs *)

Definition microsecond : Z := 1000.
Definition millisecond : Z := 1000 * 1000.
Definition spinIterations : Z := 256.
Definition spinBatch : nat := 4.
Definition pollEvery : Z := 8.
Definition yieldIterations : Z := 256.
Definition maxPark : Z := 100 * millisecond.
Definition checkInterval : Z := 50 * millisecond.
Definition minSleep : Z := 20 * microsecond.
Definition maxSleep : Z := 2 * millisecond.

(** ** Cancellation *)

(** [Cancel] as one call sees it: whether [Ctx] is done and [Closed] closed,
    the two deadlines, [NoWait], and what [Check] would return ([None]: no
    [Check] installed). *)
Record Cancel := mkCancel {
  ctx_done : bool;
  closed : bool;
  Deadline : option Z;
  DeadlineFunc : option (option Z);
  NoWait : bool;
  CheckFn : option (option error)
}.

(** [Cancel.deadline]: the earlier of the two. *)
Definition deadline (c : Cancel) : option Z :=
  match DeadlineFunc c with
  | None => Deadline c
  | Some None => Deadline c
  | Some (Some f) =>
      match Deadline c with
      | None => Some f
      | Some d => if f <? d then Some f else Some d
      end
  end.

Definition poll (c : option Cancel) : option error :=
  match c with
  | None => None
  | Some c => if ctx_done c then Some mpmc_ErrCanceled else if closed c then Some mpmc_ErrClosed else None
  end.

(** [waiter] without the parking state. *)
Record waiter := mkWaiter { iter : Z; nextCheck : option Z; w_sleep : Z }.

Definition new_waiter : waiter := mkWaiter 0 None 0.

Definition slowChecks (w : waiter) (c : option Cancel) (now : Z) : waiter * option error :=
  match c with
  | None => (w, None)
  | Some c =>
      if match deadline c with Some d => d <=? now | None => false end then (w, Some mpmc_ErrTimeout)
      else
        match CheckFn c with
        | None => (w, None)
        | Some r =>
            if match nextCheck w with None => true | Some n => n <=? now end
            then (mkWaiter (iter w) (Some (now + checkInterval)) (w_sleep w), r)
            else (w, None)
        end
  end.

Definition stillBlocked (seq tgt : Z) : bool := i64 (seq - tgt) <? 0.

(** ** One step *)

(** How a step ends when the operation is not abandoned. *)
Inductive action :=
| Retry                 (* returns at once *)
| Gosched               (* yields to the scheduler *)
| Sleep (d : Z)         (* time.Sleep *)
| Park (timeout : Z).   (* waiter.park *)

(** What the platform offers: a parker on the ring, [parkingSupported],
    [processLocalParking]. *)
Record platform := mkPlatform { has_parker : bool; parkingSupported : bool; processLocalParking : bool }.

(** The park timeout before the platform's backoff. *)
Definition park_timeout (w : waiter) (c : option Cancel) (now : Z) : Z :=
  match c with
  | None => maxPark
  | Some c =>
      let t1 := match deadline c with
                | Some d => if d - now <? maxPark then d - now else maxPark
                | None => maxPark
                end in
      match CheckFn c with
      | None => t1
      | Some _ =>
          (* nextCheck.Sub(now); slowChecks has set nextCheck *)
          let d := default 0 (nextCheck w) - now in if d <? t1 then d else t1
      end
  end.

(** The exponential backoff of platforms without cross-process parking. *)
Definition next_sleep (s : Z) : Z :=
  if s =? 0 then minSleep else if maxSleep <? s * 2 then maxSleep else s * 2.

(** The parking phase of [wait]. *)
Definition wait_park (pf : platform) (w : waiter) (c : option Cancel) (now : Z) : waiter * (result error action) :=
  let (w, e) := slowChecks w c now in
  match e with
  | Some e => (w, Err e)
  | None =>
      let timeout := park_timeout w c now in
      if timeout <=? 0 then (w, Ok Retry)
      else if negb (has_parker pf) && negb (parkingSupported pf) then
        let w := mkWaiter (iter w) (nextCheck w) (next_sleep (w_sleep w)) in
        if negb (processLocalParking pf) then (w, Ok (Sleep (Z.min (w_sleep w) timeout)))
        else (w, Ok (Park (Z.min (w_sleep w) timeout)))
      else (w, Ok (Park timeout))
  end.

(** [waiter.wait]. [reads] are the slot's sequence numbers at the re-reads of
    a spin step. *)
Definition wait (policy : WaitPolicy) (pf : platform) (c : option Cancel) (reads : list Z) (tgt now : Z)
    (w : waiter) : waiter * result error action :=
  let spin := match policy with WaitSpin => true | WaitAdaptive => false end in
  let spinning := spin || (iter w <? spinIterations) in
  let abandon :=
    if negb spinning || (Z.land (iter w) (pollEvery - 1) =? 0) then
      match poll c with
      | Some e => Some e
      | None => match c with Some c => if NoWait c then Some mpmc_ErrTimeout else None | None => None end
      end
    else None in
  match abandon with
  | Some e => (w, Err e)
  | None =>
      let w := mkWaiter (iter w + 1) (nextCheck w) (w_sleep w) in
      if spinning && existsb (fun s => negb (stillBlocked s tgt)) (take spinBatch reads) then (w, Ok Retry)
      else if spin then
        if Z.land (iter w) 63 =? 0 then
          let (w, e) := slowChecks w c now in
          match e with Some e => (w, Err e) | None => (w, Ok Gosched) end
        else (w, Ok Retry)
      else if spinning then (w, Ok Retry)
      else if iter w <=? spinIterations + yieldIterations then
        if Z.land (iter w) 15 =? 0 then
          let (w, e) := slowChecks w c now in
          match e with Some e => (w, Err e) | None => (w, Ok Gosched) end
        else (w, Ok Gosched)
      else wait_park pf w c now
  end.

(** A blocked operation: successive calls of [wait], each with what it
    observes. The outcome is the first error, or the actions taken. *)
Record observation := mkObs { ob_cancel : option Cancel; ob_reads : list Z; ob_now : Z }.

Fixpoint wait_loop (policy : WaitPolicy) (pf : platform) (tgt : Z) (obs : list observation) (w : waiter)
  : waiter * result error (list action) :=
  match obs with
  | [] => (w, Ok [])
  | o :: obs' =>
      match wait policy pf (ob_cancel o) (ob_reads o) tgt (ob_now o) w with
      | (w', Err e) => (w', Err e)
      | (w', Ok a) =>
          match wait_loop policy pf tgt obs' w' with
          | (w'', Err e) => (w'', Err e)
          | (w'', Ok l) => (w'', Ok (a :: l))
          end
      end
  end.

(** ** Lemmas *)

Lemma slowChecks_iter w c now : iter (slowChecks w c now).1 = iter w /\ w_sleep (slowChecks w c now).1 = w_sleep w.
Proof. unfold slowChecks. repeat case_match; done. Qed.

(** A step that does not abandon the operation counts. *)
Lemma wait_iter policy pf c reads tgt now w w' a :
  wait policy pf c reads tgt now w = (w', Ok a) -> iter w' = iter w + 1.
Proof.
  pose proof (slowChecks_iter (mkWaiter (iter w + 1) (nextCheck w) (w_sleep w)) c now) as [Hi Hs].
  unfold wait, wait_park. destruct (slowChecks _ _ _) as [w1 e1]. simpl in Hi, Hs.
  simpl. intros E. repeat (case_match; simplify_eq; simpl in *; try done).
Qed.

(** The calls a surviving loop makes. *)
Lemma wait_loop_calls policy pf tgt obs : forall w w' l i o,
  wait_loop policy pf tgt obs w = (w', Ok l) -> obs !! i = Some o ->
  exists wi wi' a, iter wi = iter w + Z.of_nat i /\
    wait policy pf (ob_cancel o) (ob_reads o) tgt (ob_now o) wi = (wi', Ok a).
Proof.
  induction obs as [|o obs IH]; intros w w' l i o' E Hi; simpl in *; [by destruct i|].
  destruct (wait _ _ _ _ _ _ w) as [w1 [a|e]] eqn:Ew; [|done].
  destruct (wait_loop _ _ _ obs w1) as [w2 [l2|e]] eqn:El; [|done]. simplify_eq.
  destruct i as [|i]; simpl in Hi; [simplify_eq; exists w, w1, a; split; [lia|done]|].
  destruct (IH _ _ _ _ _ El Hi) as (wi & wi' & a' & Hit & Hw).
  exists wi, wi', a'. split; [|done]. apply wait_iter in Ew. lia.
Qed.

Lemma land_pow2_mask x k : 0 <= k -> Z.land x (2 ^ k - 1) = x mod 2 ^ k.
Proof. intros. by apply land_mask. Qed.

(** An operation whose cancellation is visible is abandoned at a polling step. *)
Lemma wait_polls policy pf c reads tgt now w :
  (exists e, poll (Some c) = Some e) \/ NoWait c = true ->
  iter w mod 8 = 0 -> exists e, (wait policy pf (Some c) reads tgt now w).2 = Err e.
Proof.
  intros Hc Hi. unfold wait. change (pollEvery - 1) with (2 ^ 3 - 1). rewrite land_pow2_mask by lia.
  change (2 ^ 3) with 8. rewrite Hi. rewrite Z.eqb_refl, orb_true_r.
  destruct (poll (Some c)) eqn:Ep; [by eexists|]. destruct Hc as [[e He]|Hc]; [done|].
  rewrite Hc. by eexists.
Qed.

(** The deadline check of [slowChecks]. *)
Lemma slowChecks_expired w c now d :
  deadline c = Some d -> d <= now -> slowChecks w (Some c) now = (w, Some mpmc_ErrTimeout).
Proof. intros E Hd. unfold slowChecks. rewrite E. by rewrite (proj2 (Z.leb_le _ _)). Qed.

(** The backoff of a waiter: not started, or between the two bounds. *)
Definition sleep_ok (w : waiter) : Prop := w_sleep w = 0 \/ minSleep <= w_sleep w <= maxSleep.

Lemma next_sleep_bounds s : s = 0 \/ minSleep <= s <= maxSleep -> minSleep <= next_sleep s <= maxSleep.
Proof. unfold next_sleep, minSleep, maxSleep, microsecond, millisecond. intros. repeat bcase; lia. Qed.

Lemma park_timeout_bounds w c now :
  park_timeout w c now <= maxPark /\
  forall c', c = Some c' ->
    (forall d, deadline c' = Some d -> park_timeout w c now <= d - now) /\
    (CheckFn c' <> None -> forall n, nextCheck w = Some n -> park_timeout w c now <= n - now).
Proof.
  unfold park_timeout. destruct c as [c|]; [|split; [lia|done]].
  split.
  - repeat case_match; repeat bcase; lia.
  - intros ? [= <-]. split.
    + intros d ->. repeat case_match; repeat bcase; lia.
    + intros Hc n ->. destruct (CheckFn c); [|done]. simpl. repeat case_match; repeat bcase; lia.
Qed.

(** After the checks of the parking phase, a [Check] is scheduled. *)
Lemma slowChecks_next w c now w' :
  slowChecks w (Some c) now = (w', None) -> CheckFn c <> None ->
  exists n, nextCheck w' = Some n /\ now < n.
Proof.
  unfold slowChecks. intros E Hc. destruct (CheckFn c) as [r|]; [|done].
  destruct (match deadline c with Some d => d <=? now | None => false end); [done|].
  destruct (nextCheck w) as [n|] eqn:En.
  - destruct (Z.leb_spec n now); simplify_eq.
    + exists (now + checkInterval). split; [done|]. unfold checkInterval, millisecond. lia.
    + exists n. done.
  - simplify_eq. exists (now + checkInterval). split; [done|]. unfold checkInterval, millisecond. lia.
Qed.

(** A step that looks at the clock finds an expired deadline. *)
Lemma wait_expired policy pf c reads tgt now w d :
  deadline c = Some d -> d <= now ->
  existsb (fun s => negb (stillBlocked s tgt)) (take spinBatch reads) = false ->
  (policy = WaitSpin /\ (iter w + 1) mod 64 = 0) \/
  (policy = WaitAdaptive /\ 256 <= iter w /\ (iter w + 1) mod 16 = 0) ->
  exists e, (wait policy pf (Some c) reads tgt now w).2 = Err e.
Proof.
  intros Ed Hle Hex Hcase. unfold wait. rewrite Hex, andb_false_r.
  set (w1 := mkWaiter (iter w + 1) (nextCheck w) (w_sleep w)).
  pose proof (slowChecks_expired w1 c now d Ed Hle) as Hsl.
  destruct (if _ || _ then _ else None) as [e|]; [by exists e|].
  assert (H64 : (iter w + 1) mod 64 = 0 -> (Z.land (iter w1) 63 =? 0) = true).
  { intros E. change 63 with (2 ^ 6 - 1). rewrite land_pow2_mask by lia. by apply Z.eqb_eq. }
  assert (H16 : (iter w + 1) mod 16 = 0 -> (Z.land (iter w1) 15 =? 0) = true).
  { intros E. change 15 with (2 ^ 4 - 1). rewrite land_pow2_mask by lia. by apply Z.eqb_eq. }
  destruct Hcase as [[-> Hm]|[-> [Hi Hm]]].
  - rewrite H64 by done. rewrite Hsl. by exists mpmc_ErrTimeout.
  - simpl orb. rewrite (proj2 (Z.ltb_ge _ _)) by (unfold spinIterations; lia).
    destruct (iter w1 <=? _).
    + rewrite H16 by done. rewrite Hsl. by exists mpmc_ErrTimeout.
    + unfold wait_park. rewrite Hsl. by exists mpmc_ErrTimeout.
Qed.

(** How long a step may block the goroutine. *)
Definition blocked_for (a : action) : option Z :=
  match a with Park d | Sleep d => Some d | _ => None end.

(** Only the parking phase blocks. *)
Lemma wait_blocks policy pf c reads tgt now w w' a d :
  wait policy pf c reads tgt now w = (w', Ok a) -> blocked_for a = Some d ->
  policy = WaitAdaptive /\ spinIterations + yieldIterations <= iter w /\ poll c = None /\
  (forall c', c = Some c' -> NoWait c' = false) /\
  wait_park pf (mkWaiter (iter w + 1) (nextCheck w) (w_sleep w)) c now = (w', Ok a).
Proof.
  unfold wait. intros Hw Ha. destruct policy; simpl orb in Hw;
    [|repeat (case_match; simplify_eq; try done)].
  destruct (Z.ltb_spec (iter w) spinIterations) as [|Hit]; simpl in Hw;
    [repeat (case_match; simplify_eq; try done)|].
  destruct (poll c) eqn:Ep; [done|].
  assert (HNW : forall c', c = Some c' -> NoWait c' = false) by (intros c' ->; by destruct (NoWait c')).
  assert (En : match c with Some c => if NoWait c then Some mpmc_ErrTimeout else None | None => None end = None)
    by (destruct c as [c'|]; [by rewrite HNW|done]).
  rewrite En in Hw. destruct (Z.leb_spec (iter w + 1) (spinIterations + yieldIterations)).
  - repeat (case_match; simplify_eq; try done).
  - split_and!; [done|lia|done|done|done].
Qed.

Lemma wait_park_bounds pf c now w w' a d :
  sleep_ok w -> wait_park pf w c now = (w', Ok a) -> blocked_for a = Some d ->
  0 < d <= park_timeout w' c now /\ sleep_ok w' /\
  (has_parker pf = false -> parkingSupported pf = false -> d <= maxSleep) /\
  forall c', c = Some c' -> CheckFn c' <> None -> nextCheck w' <> None.
Proof.
  unfold wait_park. intros Hs Hw Ha. pose proof (slowChecks_iter w c now) as [_ Hsl].
  destruct (slowChecks w c now) as [w1 [e|]] eqn:Es; [done|]. simpl in Hsl.
  assert (Hs1 : sleep_ok w1) by (unfold sleep_ok; by rewrite Hsl).
  assert (Hck : forall c', c = Some c' -> CheckFn c' <> None -> nextCheck w1 <> None).
  { intros c' -> Hc. destruct (slowChecks_next _ _ _ _ Es Hc) as (n & -> & _). done. }
  pose proof (next_sleep_bounds _ Hs1).
  assert (0 < minSleep) by (unfold minSleep, microsecond; lia).
  destruct (Z.leb_spec (park_timeout w1 c now) 0); [by simplify_eq|].
  destruct (negb _ && negb _) eqn:Ep.
  - assert (Hd : d = Z.min (next_sleep (w_sleep w1)) (park_timeout w1 c now) /\
      w' = mkWaiter (iter w1) (nextCheck w1) (next_sleep (w_sleep w1)))
      by (destruct (processLocalParking pf); simpl in Hw; simplify_eq; simpl in Ha; by simplify_eq).
    destruct Hd as [-> ->]. change (park_timeout (mkWaiter _ _ _)) with (park_timeout w1).
    split_and!; [lia|lia|by right|lia|done].
  - simplify_eq. simpl in Ha. simplify_eq. split_and!; [lia|lia|done| |done].
    intros E1 E2. by rewrite E1, E2 in Ep.
Qed.

(** ** Properties *)

(** Cancellation latency. From any point of a blocked operation, whatever the
    wait policy, the platform and the state of the slot, eight consecutive
    steps that run after the context was canceled, the link was closed or a
    [NoWait] operation blocked contain one that returns the error. *)
Theorem wait_cancel_latency (policy : WaitPolicy) (pf : platform) (tgt : Z) (w : waiter) (obs : list observation)
  (Hn : (8 <= length obs)%nat)
  (Hc : Forall (fun o => exists c, ob_cancel o = Some c /\
                   ((exists e, poll (Some c) = Some e) \/ NoWait c = true)) obs) :
  exists e, (wait_loop policy pf tgt obs w).2 = Err e.
Proof.
  destruct (wait_loop policy pf tgt obs w) as [w' [l|e]] eqn:E; [exfalso|by exists e].
  pose proof (Z.mod_pos_bound (- iter w) 8 ltac:(lia)) as Hb.
  destruct (lookup_lt_is_Some_2 obs (Z.to_nat (- iter w mod 8))) as [o Ho]; [lia|].
  destruct (wait_loop_calls _ _ _ _ _ _ _ _ _ E Ho) as (wi & wi' & a & Hit & Hw).
  rewrite Forall_lookup in Hc. destruct (Hc _ _ Ho) as (c & Ec & Hpoll).
  destruct (wait_polls policy pf c (ob_reads o) tgt (ob_now o) wi Hpoll) as [e He].
  - rewrite Hit, Z2Nat.id by lia. zlia.
  - rewrite <- Ec, Hw in He. done.
Qed.

Lemma wait_cancel_latency_witness :
  let c := mkCancel true false None None false None in
  (wait_loop WaitAdaptive (mkPlatform false true true) 5 (replicate 8 (mkObs (Some c) [4; 4; 4; 4] 0))
    (mkWaiter 3 None 0)).2 = Err mpmc_ErrCanceled /\
  exists e, (wait_loop WaitAdaptive (mkPlatform false true true) 5 (replicate 8 (mkObs (Some c) [4; 4; 4; 4] 0))
    (mkWaiter 3 None 0)).2 = Err e.
Proof.
  intros c. split; [vm_compute; reflexivity|].
  apply (wait_cancel_latency WaitAdaptive (mkPlatform false true true) 5 (mkWaiter 3 None 0)
    (replicate 8 (mkObs (Some c) [4; 4; 4; 4] 0))); [simpl; lia|].
  apply Forall_replicate. exists c. split; [reflexivity|]. left. exists mpmc_ErrCanceled. reflexivity.
Defined.

(** Blocking bounds. A step that puts the goroutine to sleep (in the kernel or
    with time.Sleep) runs only under the adaptive policy after the spin and
    yield phases, when no cancellation is visible; it sleeps for a positive
    time of at most [maxPark], not past the deadline and not past the next
    [Check], which is always scheduled; without cross-process parking it
    sleeps at most [maxSleep]. The backoff state stays in its range. *)
Theorem wait_block_bounds (policy : WaitPolicy) (pf : platform) (c : option Cancel) (reads : list Z)
  (tgt now : Z) (w w' : waiter) (a : action) (d : Z) (Hs : sleep_ok w)
  (Hw : wait policy pf c reads tgt now w = (w', Ok a)) (Ha : blocked_for a = Some d) :
  policy = WaitAdaptive /\ spinIterations + yieldIterations <= iter w /\ poll c = None /\
  0 < d <= maxPark /\ sleep_ok w' /\
  (has_parker pf = false -> parkingSupported pf = false -> d <= maxSleep) /\
  forall c', c = Some c' -> NoWait c' = false /\
    (forall dl, deadline c' = Some dl -> now + d <= dl) /\
    (CheckFn c' <> None -> exists n, nextCheck w' = Some n /\ now + d <= n).
Proof.
  destruct (wait_blocks _ _ _ _ _ _ _ _ _ _ Hw Ha) as (Hp & Hi & Hpl & HNW & Hw').
  destruct (wait_park_bounds pf c now (mkWaiter (iter w + 1) (nextCheck w) (w_sleep w)) w' a d Hs Hw' Ha) as (Hd & Hs' & Hm & Hck).
  destruct (park_timeout_bounds w' c now) as [Hmax Hc].
  split_and!; try done; try lia.
  intros c' Ec. destruct (Hc c' Ec) as [Hdl Hn]. split; [by apply HNW|]. split.
  - intros dl E. specialize (Hdl dl E). lia.
  - intros Hne. destruct (nextCheck w') as [n|] eqn:En; [|by destruct (Hck c' Ec Hne)].
    exists n. split; [done|]. specialize (Hn Hne n eq_refl). lia.
Qed.

Lemma wait_block_bounds_witness :
  let c := mkCancel false false (Some 1030) None false (Some None) in
  exists w', wait WaitAdaptive (mkPlatform false true true) (Some c) [] 5 1000 (mkWaiter 600 (Some 1020) 0) =
    (w', Ok (Park 20)) /\ poll (Some c) = None.
Proof.
  intros c. exists (mkWaiter 601 (Some 1020) 0).
  assert (E : wait WaitAdaptive (mkPlatform false true true) (Some c) [] 5 1000 (mkWaiter 600 (Some 1020) 0) =
    (mkWaiter 601 (Some 1020) 0, Ok (Park 20))) by (vm_compute; reflexivity).
  split; [exact E|].
  apply (wait_block_bounds WaitAdaptive (mkPlatform false true true) (Some c) [] 5 1000
    (mkWaiter 600 (Some 1020) 0) (mkWaiter 601 (Some 1020) 0) (Park 20) 20 (or_introl eq_refl) E eq_refl).
Defined.

(** Deadline latency. An operation whose deadline has passed while its slot
    stays blocked is abandoned within [spinIterations] + 16 steps, whatever
    its progress, policy or platform. *)
Theorem wait_deadline_latency (policy : WaitPolicy) (pf : platform) (tgt : Z) (w : waiter) (obs : list observation)
  (Hi : 0 <= iter w) (Hn : (272 <= length obs)%nat)
  (Hd : Forall (fun o => (exists c d, ob_cancel o = Some c /\ deadline c = Some d /\ d <= ob_now o) /\
                   Forall (fun s => stillBlocked s tgt = true) (ob_reads o)) obs) :
  exists e, (wait_loop policy pf tgt obs w).2 = Err e.
Proof.
  destruct (wait_loop policy pf tgt obs w) as [w' [l|e]] eqn:E; [exfalso|by exists e].
  set (i := match policy with
            | WaitSpin => (- (iter w + 1)) mod 64
            | WaitAdaptive => Z.max 0 (256 - iter w) + (- (iter w + Z.max 0 (256 - iter w) + 1)) mod 16
            end).
  assert (Hb : 0 <= i < 272) by (unfold i; destruct policy; zlia).
  destruct (lookup_lt_is_Some_2 obs (Z.to_nat i)) as [o Ho]; [lia|].
  destruct (wait_loop_calls _ _ _ _ _ _ _ _ _ E Ho) as (wi & wi' & a & Hit & Hw).
  rewrite Forall_lookup in Hd. destruct (Hd _ _ Ho) as ((c & d & Ec & Ed & Hle) & Hbl).
  rewrite Z2Nat.id in Hit by lia. rewrite Ec in Hw.
  assert (Hex : existsb (fun s => negb (stillBlocked s tgt)) (take spinBatch (ob_reads o)) = false).
  { apply not_true_is_false. intros (s & Hs & Hneg)%existsb_exists.
    rewrite Forall_forall in Hbl. rewrite (Hbl s) in Hneg; [done|].
    apply list_elem_of_In in Hs. eapply elem_of_take in Hs. destruct Hs as (? & ? & _).
    apply list_elem_of_In. by eapply list_elem_of_lookup_2. }
  destruct (wait_expired policy pf c (ob_reads o) tgt (ob_now o) wi d Ed Hle Hex) as [e He].
  - destruct policy; [right|left]; (split; [done|]); subst i; zlia.
  - by rewrite Hw in He.
Qed.

Lemma wait_deadline_latency_witness :
  let c := mkCancel false false (Some 10) None false None in
  let obs := replicate 272 (mkObs (Some c) [4; 4; 4; 4] 10) in
  (wait_loop WaitSpin (mkPlatform false true true) 5 obs new_waiter).2 = Err mpmc_ErrTimeout /\
  exists e, (wait_loop WaitSpin (mkPlatform false true true) 5 obs new_waiter).2 = Err e.
Proof.
  intros c obs. split; [vm_compute; reflexivity|].
  apply (wait_deadline_latency WaitSpin (mkPlatform false true true) 5 new_waiter obs).
  - simpl. lia.
  - unfold obs. rewrite length_replicate. lia.
  - apply Forall_replicate. split; [|simpl; repeat constructor].
    exists c, 10. split_and!; [reflexivity|reflexivity|simpl; lia].
Defined.
