(* ===== verification/Parking.v ===== *)
(** * Parking: blocked operations sleep and are woken

    Two machines. [Futex] interleaves, access by access, the leaders of any
    number of processes that park on one wait word ([waiter.park] of
    internal/mpmc/waitgroup.go) with the publishers, releasers and cancelers
    that wake them ([notifyConsumers], [wakeOne], [wakeWord], [wakeAll] of
    mpmc.go): no wake-up is lost. [Group] interleaves the goroutines of one
    process that share a wait word: one of them leads and the others follow
    it ([enter], [exitLeader], [leave]). *)
From S2P Require Import Prelude Errors Layout Ring RingInv Waiter.

Module Futex.

(** ** Threads

    A waiter: about to register, to load the word, to re-check, to call
    [futexWait], asleep in the kernel, about to deregister; it waits for slot
    [j] to reach [tgt]. A waker: about to load the waiter count, to bump the
    word, to call [futexWake]. *)
Inductive pc :=
| Idle
| WReg (j tgt : Z)
| WLoad (j tgt : Z)
| WCheck (j tgt v : Z)
| WWait (j tgt v : Z)
| WAsleep (j tgt : Z)
| WDone
| KLoad
| KBump
| KWake.

Record state := mkState {
  wword : Z;                (* the wait word *)
  count : Z;                (* the waiter count of the site *)
  seqs : Z -> Z;            (* the slots' sequence numbers *)
  canceled : nat -> bool;   (* the thread's context is done or its link closed *)
  pcs : nat -> pc;
  bumps : Z;                (* ghost: the word without wrap-around *)
  loaded : nat -> Z;        (* ghost: [bumps] when a waiter loaded the word *)
  stale : Z;                (* registrations of processes killed while parked *)
  reg : gset nat            (* ghost: the registered threads *)
}.

Definition with_pc (t : nat) (p : pc) (s : state) : state :=
  mkState (wword s) (count s) (seqs s) (canceled s) (<[t := p]> (pcs s)) (bumps s) (loaded s) (stale s) (reg s).

(** What a thread does next where the code leaves a choice: start waiting,
    publish a sequence number, cancel thread [u], or continue ([Go]; for a
    sleeping waiter that is a timeout or a spurious return). *)
Inductive move :=
| StartWait (j tgt : Z)
| StartPublish (j v : Z)
| StartCancel (u : nat)
| Go.

(** One atomic access. [futexWait] compares the word with [v] and falls
    asleep in one step; [futexWake] wakes every sleeper of the word. [WCheck]
    is the look at the slot and the poll of the cancellation, which come right
    after each other, in one step. There is no step for a waiter that would be
    the [2^32]nd to register, nor for a [futexWait] that comes [2^32] or more
    bumps after the load of its value: there the 32-bit words of the code come
    round, and the waiter can miss its wake-up. *)
Definition park_step (s : state) (t : nat) (mv : move) : option state :=
  match pcs s t, mv with
  | Idle, StartWait j tgt => Some (with_pc t (WReg j tgt) s)
  | Idle, StartPublish j v =>
      Some (mkState (wword s) (count s) (<[j := v]> (seqs s)) (canceled s) (<[t := KLoad]> (pcs s))
              (bumps s) (loaded s) (stale s) (reg s))
  | Idle, StartCancel u =>
      Some (mkState (wword s) (count s) (seqs s) (<[u := true]> (canceled s)) (<[t := KBump]> (pcs s))
              (bumps s) (loaded s) (stale s) (reg s))
  | WReg j tgt, Go =>
      if Z.of_nat (size (reg s)) + stale s + 1 <? 2 ^ 32 then
        Some (mkState (wword s) (u32 (count s + 1)) (seqs s) (canceled s) (<[t := WLoad j tgt]> (pcs s))
                (bumps s) (loaded s) (stale s) ({[t]} ∪ reg s))
      else None
  | WLoad j tgt, Go =>
      Some (mkState (wword s) (count s) (seqs s) (canceled s) (<[t := WCheck j tgt (wword s)]> (pcs s))
              (bumps s) (<[t := bumps s]> (loaded s)) (stale s) (reg s))
  | WCheck j tgt v, Go =>
      Some (with_pc t (if stillBlocked (seqs s j) tgt && negb (canceled s t) then WWait j tgt v else WDone) s)
  | WWait j tgt v, Go =>
      if bumps s - loaded s t <? 2 ^ 32 then
        Some (with_pc t (if wword s =? v then WAsleep j tgt else WDone) s)
      else None
  | WAsleep _ _, Go => Some (with_pc t WDone s)
  | WDone, Go =>
      Some (mkState (wword s) (u32 (count s - 1)) (seqs s) (canceled s) (<[t := Idle]> (pcs s))
              (bumps s) (loaded s) (stale s) (reg s ∖ {[t]}))
  | KLoad, Go => Some (with_pc t (if count s =? 0 then Idle else KBump) s)
  | KBump, Go =>
      Some (mkState (u32 (wword s + 1)) (count s) (seqs s) (canceled s) (<[t := KWake]> (pcs s))
              (bumps s + 1) (loaded s) (stale s) (reg s))
  | KWake, Go =>
      Some (mkState (wword s) (count s) (seqs s) (canceled s)
              (<[t := Idle]> (fun u => match pcs s u with WAsleep _ _ => WDone | p => p end))
              (bumps s) (loaded s) (stale s) (reg s))
  | _, _ => None
  end.

(** [n] accesses of one thread on its own. *)
Fixpoint solo (n : nat) (t : nat) (s : state) : option state :=
  match n with O => Some s | S n => s' ← park_step s t Go; solo n t s' end.

Definition initial (s : state) : Prop :=
  (forall t, pcs s t = Idle) /\ reg s = ∅ /\ 0 <= stale s < 2 ^ 32 /\ count s = stale s /\ wword s = u32 (bumps s).

Inductive reachable : state -> Prop :=
| reach_init s : initial s -> reachable s
| reach_step s t mv s' : reachable s -> park_step s t mv = Some s' -> reachable s'.

(** ** Invariant *)

Definition registered (p : pc) : bool :=
  match p with WLoad _ _ | WCheck _ _ _ | WWait _ _ _ | WAsleep _ _ | WDone => true | _ => false end.

(** The reason thread [t] should not be asleep. *)
Definition ready (s : state) (t : nat) (j tgt : Z) : Prop :=
  stillBlocked (seqs s j) tgt = false \/ canceled s t = true.

Definition will_bump (p : pc) : bool := match p with KLoad | KBump => true | _ => false end.
Definition will_wake (p : pc) : bool := match p with KLoad | KBump | KWake => true | _ => false end.

Definition waiter_ok (s : state) (t : nat) : Prop :=
  match pcs s t with
  | WCheck _ _ v => v = u32 (loaded s t) /\ loaded s t <= bumps s
  | WWait j tgt v => v = u32 (loaded s t) /\ loaded s t <= bumps s /\
      (ready s t j tgt -> loaded s t < bumps s \/ exists k, will_bump (pcs s k) = true)
  | WAsleep j tgt => ready s t j tgt -> exists k, will_wake (pcs s k) = true
  | _ => True
  end.

Record Inv (s : state) : Prop := {
  inv_word : wword s = u32 (bumps s);
  inv_reg : forall t, t ∈ reg s <-> registered (pcs s t) = true;
  inv_count : count s = u32 (Z.of_nat (size (reg s)) + stale s);
  inv_stale : 0 <= stale s /\ Z.of_nat (size (reg s)) + stale s < 2 ^ 32;
  inv_waiters : forall t, waiter_ok s t
}.

Lemma fupd_eq {B} (f : nat -> B) t b : (<[t := b]> f) t = b.
Proof. apply fn_lookup_insert. Qed.

Lemma fupd_ne {B} (f : nat -> B) t u b : t <> u -> (<[t := b]> f) u = f u.
Proof. apply fn_lookup_insert_ne. Qed.

(** A waker that is not the thread that moves stays. *)
Lemma waker_kept (pcs0 : nat -> pc) (P : pc -> bool) t p :
  P (pcs0 t) = false \/ P p = true ->
  (exists k, P (pcs0 k) = true) -> exists k, P ((<[t := p]> pcs0) k) = true.
Proof.
  intros Hp [k Hk]. destruct (decide (t = k)) as [->|Hne].
  - exists k. rewrite fupd_eq. destruct Hp; congruence.
  - exists k. by rewrite fupd_ne.
Qed.

Lemma size_pos (X : gset nat) t : t ∈ X -> (0 < size X)%nat.
Proof.
  intros H. destruct (Nat.eq_0_gt_0_cases (size X)) as [E|]; [|done].
  apply size_empty_inv in E. apply E in H. by apply not_elem_of_empty in H.
Qed.

(** While somebody is registered the count is not zero. *)
Lemma count_registered s t : Inv s -> registered (pcs s t) = true -> count s <> 0.
Proof.
  intros [_ Hr Hc Hs _] Ht. apply Hr in Ht. rewrite Hc. unfold u32. rewrite wrap_small by (unfold word; lia).
  pose proof (size_pos _ _ Ht). lia.
Qed.

(** *** Preservation *)

(** What a waiter knows survives the step of another thread [t] to [p], unless
    that step makes it ready without [t] going on to wake it, or [t] stops
    being a waker. *)
Lemma other_ok s s' t p u :
  t <> u -> pcs s' = <[t := p]> (pcs s) -> loaded s' u = loaded s u -> bumps s <= bumps s' ->
  (forall j tgt, ready s' u j tgt -> ready s u j tgt \/ will_bump p = true) ->
  will_bump (pcs s t) = false \/ will_bump p = true \/ bumps s < bumps s' ->
  will_wake (pcs s t) = false \/ will_wake p = true ->
  waiter_ok s u -> waiter_ok s' u.
Proof.
  intros Hne Hpcs Hl Hb Hr Hbump Hwake Hok. unfold waiter_ok in *.
  rewrite Hpcs, fupd_ne by done. rewrite Hl.
  assert (Hp : forall P : pc -> bool, P p = true -> exists k, P ((<[t := p]> (pcs s)) k) = true)
    by (intros P HP; exists t; by rewrite fupd_eq).
  destruct (pcs s u) eqn:Eu; try done.
  - destruct_and?. split; [done|lia].
  - destruct Hok as (Hv & Hle & Hx). split_and!; [done|lia|]. intros Hrd.
    destruct (Hr _ _ Hrd) as [Hrd'|HP]; [|right; by apply Hp].
    destruct (Hx Hrd') as [|Hk]; [left; lia|].
    destruct Hbump as [Hnb|[Hpb|Hlt]]; [|right; by apply Hp|left; lia].
    right. apply waker_kept; auto.
  - intros Hrd. destruct (Hr _ _ Hrd) as [Hrd'|HP].
    + apply waker_kept; auto.
    + apply Hp. by destruct p.
Qed.

(** The registration fields when the step changes no registration. *)
Lemma reg_kept (s : state) t p :
  (forall u, u ∈ reg s <-> registered (pcs s u) = true) -> registered p = registered (pcs s t) ->
  forall u, u ∈ reg s <-> registered ((<[t := p]> (pcs s)) u) = true.
Proof.
  intros Hr Hp u. destruct (decide (t = u)) as [<-|Hne].
  - by rewrite fupd_eq, Hp.
  - by rewrite fupd_ne.
Qed.

Lemma u32_add_l x y : u32 (u32 x + y) = u32 (x + y).
Proof. unfold u32, wrap. apply Zplus_mod_idemp_l. Qed.

Lemma u32_inj_near x y : - 2 ^ 32 < x - y < 2 ^ 32 -> u32 x = u32 y -> x = y.
Proof. unfold u32, wrap. intros. zlia. Qed.

Lemma size_register (s : state) t :
  t ∉ reg s -> Z.of_nat (size ({[t]} ∪ reg s)) = Z.of_nat (size (reg s)) + 1.
Proof. intros H. rewrite size_union by (intros u ->%elem_of_singleton; done). rewrite size_singleton. lia. Qed.

Lemma size_deregister (s : state) t :
  t ∈ reg s -> Z.of_nat (size (reg s ∖ {[t]})) = Z.of_nat (size (reg s)) - 1.
Proof.
  intros H. rewrite size_difference by (intros u ->%elem_of_singleton; done). rewrite size_singleton.
  pose proof (size_pos _ _ H). lia.
Qed.

(** Steps that only move the thread and keep its registration. *)
Lemma inv_move s t p :
  Inv s -> registered p = registered (pcs s t) ->
  will_bump (pcs s t) = false \/ will_bump p = true ->
  will_wake (pcs s t) = false \/ will_wake p = true ->
  waiter_ok (with_pc t p s) t -> Inv (with_pc t p s).
Proof.
  intros [Hw Hr Hc Hs Ho] Hreg Hb Hk Ht. constructor; simpl; try done.
  - by apply reg_kept.
  - intros u. destruct (decide (t = u)) as [<-|Hne]; [done|].
    apply (other_ok s _ t p u); try done; simpl; [auto|tauto].
Qed.

Lemma inv_wake s t :
  Inv s -> pcs s t = KWake ->
  Inv (mkState (wword s) (count s) (seqs s) (canceled s)
         (<[t := Idle]> (fun u => match pcs s u with WAsleep _ _ => WDone | p => p end))
         (bumps s) (loaded s) (stale s) (reg s)).
Proof.
  intros [Hw Hr Hc Hs Ho] Et. constructor; simpl; try done.
  - intros u. rewrite Hr. destruct (decide (t = u)) as [<-|Hne].
    + by rewrite fupd_eq, Et.
    + rewrite fupd_ne by done. by destruct (pcs s u).
  - intros u. unfold waiter_ok. simpl. destruct (decide (t = u)) as [<-|Hne]; [by rewrite fupd_eq|].
    rewrite fupd_ne by done. specialize (Ho u). unfold waiter_ok in Ho.
    destruct (pcs s u); try done. destruct Ho as (Hv & Hle & Hx). split_and!; [done..|].
    intros Hrd. destruct (Hx Hrd) as [|[k Hk]]; [by left|right].
    assert (t <> k) by (intros <-; by rewrite Et in Hk). exists k. rewrite fupd_ne by done. by destruct (pcs s k).
Qed.

Lemma inv_register s t j tgt :
  Inv s -> pcs s t = WReg j tgt -> Z.of_nat (size (reg s)) + stale s + 1 < 2 ^ 32 ->
  Inv (mkState (wword s) (u32 (count s + 1)) (seqs s) (canceled s) (<[t := WLoad j tgt]> (pcs s))
         (bumps s) (loaded s) (stale s) ({[t]} ∪ reg s)).
Proof.
  intros [Hw Hr Hc Hs Ho] Et Hlt.
  assert (Hnr : t ∉ reg s) by (rewrite Hr, Et; done).
  constructor; simpl; rewrite ?(size_register s t) by done; try done; try lia.
  - intros u. destruct (decide (t = u)) as [<-|Hne].
    + rewrite fupd_eq, elem_of_union, elem_of_singleton. intuition done.
    + rewrite fupd_ne, <- Hr, elem_of_union, elem_of_singleton by done. intuition congruence.
  - rewrite Hc, u32_add_l. f_equal. lia.
  - intros u. destruct (decide (t = u)) as [<-|Hne]; [by unfold waiter_ok; simpl; rewrite fupd_eq|].
    apply (other_ok s _ t (WLoad j tgt) u); try done; simpl; rewrite ?Et; auto.
Qed.

Lemma inv_deregister s t :
  Inv s -> pcs s t = WDone ->
  Inv (mkState (wword s) (u32 (count s - 1)) (seqs s) (canceled s) (<[t := Idle]> (pcs s))
         (bumps s) (loaded s) (stale s) (reg s ∖ {[t]})).
Proof.
  intros [Hw Hr Hc Hs Ho] Et.
  assert (Hin : t ∈ reg s) by (rewrite Hr, Et; done).
  constructor; simpl; rewrite ?(size_deregister s t) by done; try done; try lia.
  - intros u. destruct (decide (t = u)) as [<-|Hne].
    + rewrite fupd_eq, elem_of_difference, elem_of_singleton. intuition done.
    + rewrite fupd_ne, <- Hr, elem_of_difference, elem_of_singleton by done. intuition congruence.
  - rewrite Hc. rewrite <- Z.add_opp_r, u32_add_l. f_equal. lia.
  - intros u. destruct (decide (t = u)) as [<-|Hne]; [by unfold waiter_ok; simpl; rewrite fupd_eq|].
    apply (other_ok s _ t Idle u); try done; simpl; rewrite ?Et; auto.
Qed.

(** A waker that found no waiter registered leaves nobody behind. *)
Lemma inv_no_waiters s t : Inv s -> pcs s t = KLoad -> count s = 0 -> Inv (with_pc t Idle s).
Proof.
  intros H Et Hc0. pose proof (fun u => count_registered s u H) as Hreg.
  destruct H as [Hw Hr Hc Hs Ho]. constructor; simpl; try done.
  - apply reg_kept; [done|by rewrite Et].
  - intros u. unfold waiter_ok. simpl. destruct (decide (t = u)) as [<-|Hne]; [by rewrite fupd_eq|].
    rewrite fupd_ne by done. specialize (Hreg u). destruct (pcs s u); try done; by destruct Hreg.
Qed.

(** The start of a publication, a cancellation, and a bump. *)
Lemma inv_change s s' t p :
  Inv s -> pcs s' = <[t := p]> (pcs s) -> registered p = false -> registered (pcs s t) = false ->
  loaded s' = loaded s -> stale s' = stale s -> reg s' = reg s -> count s' = count s ->
  wword s' = u32 (bumps s') -> bumps s <= bumps s' ->
  (will_bump p = true \/ bumps s < bumps s' /\ (forall u j tgt, ready s' u j tgt -> ready s u j tgt)) ->
  will_wake p = true -> Inv s'.
Proof.
  intros [Hw Hr Hc Hs Ho] Hpcs Hp Hpt Hl Hst Hrg Hct Hww Hb Hx Hwk.
  constructor; rewrite ?Hst, ?Hrg, ?Hct, ?Hpcs; try done.
  - apply reg_kept; [done|congruence].
  - intros u. destruct (decide (t = u)) as [<-|Hne].
    + unfold waiter_ok. rewrite Hpcs, fupd_eq. by destruct p.
    + apply (other_ok s s' t p u); try done; [by rewrite Hl| | |by right].
      * intros j tgt Hrd. destruct Hx as [|[_ Hx]]; [by right|left; eauto].
      * destruct Hx as [|[Hlt _]]; auto.
Qed.

Lemma futex_inv_step s t mv s' : Inv s -> park_step s t mv = Some s' -> Inv s'.
Proof.
  intros H E. pose proof (inv_waiters _ H t) as Ht. unfold waiter_ok in Ht. unfold park_step in E.
  destruct (pcs s t) as [|j tgt|j tgt|j tgt v|j tgt v|j tgt| | | |] eqn:Et; destruct mv; simplify_eq;
    try (destruct (_ <? _) eqn:Elt; simplify_eq; apply Z.ltb_lt in Elt).
  - apply inv_move; rewrite ?Et; auto. unfold waiter_ok. simpl. by rewrite fupd_eq.
  - eapply (inv_change s _ t KLoad); rewrite ?Et; auto; simpl; [apply (inv_word _ H)|lia].
  - eapply (inv_change s _ t KBump); rewrite ?Et; auto; simpl; [apply (inv_word _ H)|lia].
  - by apply inv_register.
  - destruct H as [Hw Hr Hc Hs Ho]. constructor; simpl; try done.
    + apply reg_kept; [done|by rewrite Et].
    + intros u. destruct (decide (t = u)) as [<-|Hne].
      * unfold waiter_ok. simpl. rewrite !fupd_eq. split; [done|lia].
      * apply (other_ok s _ t (WCheck j tgt (wword s)) u); try done; simpl; rewrite ?Et; auto.
        by apply fupd_ne.
  - apply inv_move; rewrite ?Et; auto; [by destruct (_ && _)|].
    unfold waiter_ok. simpl. rewrite fupd_eq.
      destruct (stillBlocked (seqs s j) tgt) eqn:Eb; simpl; [|done].
      destruct (canceled s t) eqn:Ec; simpl; [done|]. split_and!; [apply Ht..|].
      intros [Hx|Hx]; simpl in Hx; congruence.
  - apply inv_move; rewrite ?Et; auto; [by destruct (_ =? _)|].
    unfold waiter_ok. simpl. rewrite fupd_eq. destruct Ht as (-> & Hle & Hx).
      destruct (Z.eqb_spec (wword s) (u32 (loaded s t))) as [Ew|]; [|done].
      rewrite (inv_word _ H) in Ew. apply u32_inj_near in Ew; [|lia].
      intros Hrd. destruct (Hx Hrd) as [?|[k Hk]]; [lia|].
      apply waker_kept; [left; by rewrite Et|]. exists k. by destruct (pcs s k).
  - apply inv_move; rewrite ?Et; auto. unfold waiter_ok. simpl. by rewrite fupd_eq.
  - by apply inv_deregister.
  - destruct (Z.eqb_spec (count s) 0); [by apply inv_no_waiters|].
    apply inv_move; rewrite ?Et; auto. unfold waiter_ok. simpl. by rewrite fupd_eq.
  - eapply (inv_change s _ t KWake); rewrite ?Et; auto; simpl.
    + rewrite (inv_word _ H). apply u32_add_l.
    + lia.
    + right. split; [lia|]. auto.
  - by apply inv_wake.
Qed.

Lemma futex_inv_reachable s : reachable s -> Inv s.
Proof.
  induction 1 as [s (Hp & Hr & Hs & Hc & Hw)|s t mv s' _ IH E]; [|by eapply futex_inv_step].
  constructor; try done.
  - intros t. rewrite Hp, Hr. by rewrite elem_of_empty.
  - rewrite Hr, size_empty, Hc. unfold u32. rewrite wrap_small by (unfold word; lia). lia.
  - rewrite Hr, size_empty. lia.
  - intros t. unfold waiter_ok. by rewrite Hp.
Qed.

Lemma solo_S n t s : solo (S n) t s = match park_step s t Go with Some s' => solo n t s' | None => None end.
Proof. done. Qed.

(** A waker on its own wakes every sleeper. *)
Lemma wakes s k t j tgt :
  Inv s -> will_wake (pcs s k) = true -> pcs s t = WAsleep j tgt ->
  exists n s', (n <= 3)%nat /\ solo n k s = Some s' /\ pcs s' t = WDone.
Proof.
  intros H Hk Ht. assert (Hne : k <> t) by (intros ->; by rewrite Ht in Hk).
  pose proof (count_registered s t H) as Hc. rewrite Ht in Hc. specialize (Hc eq_refl).
  assert (Hgo : forall s1, pcs s1 k = KWake -> pcs s1 t = WAsleep j tgt ->
    exists s', solo 1 k s1 = Some s' /\ pcs s' t = WDone).
  { intros s1 E1 E2. rewrite solo_S. unfold park_step. rewrite E1. eexists. split; [reflexivity|].
    simpl. rewrite fupd_ne by done. by rewrite E2. }
  assert (Hgo2 : forall s1, pcs s1 k = KBump -> pcs s1 t = WAsleep j tgt ->
    exists s', solo 2 k s1 = Some s' /\ pcs s' t = WDone).
  { intros s1 E1 E2. rewrite solo_S. unfold park_step. rewrite E1.
    apply Hgo; simpl; [by rewrite fupd_eq|by rewrite fupd_ne]. }
  destruct (pcs s k) eqn:Ek; try done.
  - exists 3%nat. rewrite solo_S. unfold park_step. rewrite Ek, (proj2 (Z.eqb_neq _ _) Hc).
    destruct (Hgo2 (with_pc k KBump s)) as (s' & E & E'); simpl; [by rewrite fupd_eq|by rewrite fupd_ne|].
    by exists s'.
  - destruct (Hgo2 s Ek Ht) as (s' & ? & ?). exists 2%nat, s'. split_and!; [lia|done..].
  - destruct (Hgo s Ek Ht) as (s' & ? & ?). exists 1%nat, s'. split_and!; [lia|done..].
Qed.

(** ** Property *)

(** C4. No wake-up is lost. Whenever a thread sleeps in the kernel although its
    slot has reached its target or it has been canceled, some thread is in the
    middle of waking it: at most three accesses of that thread alone return
    the sleeper from [futexWait]. The word may wrap around, but not all the way
    between a waiter's load of it and its [futexWait]: fewer than [2^32] bumps
    go by there, and fewer than [2^32] waiters are registered, dead ones
    included. The waiter count may be raised by processes that died while
    parked. *)
Theorem no_lost_wakeup (s : state) (t : nat) (j tgt : Z)
  (Hr : reachable s) (Ht : pcs s t = WAsleep j tgt)
  (Hready : stillBlocked (seqs s j) tgt = false \/ canceled s t = true) :
  exists k n s', (n <= 3)%nat /\ solo n k s = Some s' /\ pcs s' t = WDone.
Proof.
  pose proof (futex_inv_reachable s Hr) as H. pose proof (inv_waiters _ H t) as Hw.
  unfold waiter_ok in Hw. rewrite Ht in Hw. destruct (Hw Hready) as [k Hk].
  exists k. by eapply wakes.
Qed.

(** Running a schedule. *)
Fixpoint run (s : state) (l : list (nat * move)) : option state :=
  match l with
  | [] => Some s
  | (t, mv) :: l' => match park_step s t mv with Some s' => run s' l' | None => None end
  end.

Lemma run_reachable l : forall s s', reachable s -> run s l = Some s' -> reachable s'.
Proof.
  induction l as [|[t mv] l IH]; simpl; intros s s' H E; [by simplify_eq|].
  destruct (park_step s t mv) as [s1|] eqn:E1; [|done]. eapply IH; [|done]. by eapply reach_step.
Qed.

Definition quiet : state :=
  mkState (2 ^ 32 - 1) 1 (fun _ => 0) (fun _ => false) (fun _ => Idle) (2 ^ 32 - 1) (fun _ => 0) 1 ∅.

(** Thread 0 falls asleep for slot 3 to reach 1; thread 1 publishes it and has
    not yet looked at the waiter count. *)
Lemma no_lost_wakeup_witness :
  exists s, run quiet [(0%nat, StartWait 3 1); (0%nat, Go); (0%nat, Go); (0%nat, Go); (0%nat, Go);
                       (1%nat, StartPublish 3 1)] = Some s /\
  exists k n s', (n <= 3)%nat /\ solo n k s = Some s' /\ pcs s' 0 = WDone.
Proof.
  assert (Hx : option_map (fun s => (pcs s 0%nat, stillBlocked (seqs s 3) 1))
    (run quiet [(0%nat, StartWait 3 1); (0%nat, Go); (0%nat, Go); (0%nat, Go); (0%nat, Go);
                (1%nat, StartPublish 3 1)]) = Some (WAsleep 3 1, false)) by (vm_compute; reflexivity).
  destruct (run quiet _) as [s|] eqn:E; [|discriminate Hx].
  exists s. split; [reflexivity|]. simpl in Hx. injection Hx as H1 H2.
  apply (no_lost_wakeup s 0 3 1); [|exact H1|left; exact H2].
  refine (run_reachable _ quiet s _ E). apply reach_init. unfold initial, quiet. simpl.
  split_and!; try done; lia.
Defined.

End Futex.

Module Group.

(** ** The group of one wait word

    Channels are identified by numbers; [full] holds the wake channels that
    carry a value, [pool] is wakeChans. *)
Record parkGroup := mkGroup { leader : bool; wakes : list nat }.

(** [enter]: leader, or follower on the channel [ch] taken from the pool. *)
Definition enter (g : parkGroup) (ch : nat) : parkGroup * bool :=
  if negb (leader g) then (mkGroup true (wakes g), true)
  else (mkGroup true (wakes g ++ [ch]), false).

(** A send on a buffered channel of capacity one: [None] blocks. *)
Definition send (ch : nat) (full : gset nat) : option (gset nat) :=
  if decide (ch ∈ full) then None else Some ({[ch]} ∪ full).

Fixpoint send_all (chs : list nat) (full : gset nat) : option (gset nat) :=
  match chs with [] => Some full | ch :: rest => full' ← send ch full; send_all rest full' end.

Definition exitLeader (g : parkGroup) (full : gset nat) : option (parkGroup * gset nat) :=
  full' ← send_all (wakes g) full; Some (mkGroup false [], full').

Fixpoint index_of (ch : nat) (l : list nat) : option nat :=
  match l with [] => None | x :: r => if (x =? ch)%nat then Some 0%nat else S <$> index_of ch r end.

(** [leave]: withdraw the channel (swap with the last), or drain it; either
    way it goes back to the pool. *)
Definition leave (g : parkGroup) (ch : nat) (full pool : gset nat) : parkGroup * gset nat * gset nat :=
  match index_of ch (wakes g) with
  | Some i =>
      let last := (length (wakes g) - 1)%nat in
      (mkGroup (leader g) (take last (<[i := default 0%nat (wakes g !! last)]> (wakes g))), full, {[ch]} ∪ pool)
  | None => (g, full ∖ {[ch]}, {[ch]} ∪ pool)
  end.

(** ** Goroutines *)

(** Outside, leading, blocked in the select of [follow] on a channel, about to
    call [leave]. *)
Inductive pc := Out | Leading | Following (ch : nat) | Leaving (ch : nat).

Record state := mkState {
  grp : parkGroup;
  full : gset nat;
  pool : gset nat;
  pcs : nat -> pc
}.

(** [Enter ch]: the channel a follower gets from the pool, or a new one.
    [GiveUp]: context, close or timer. [Drop ch]: the pool forgets a channel. *)
Inductive move := Enter (ch : nat) | Exit | Receive | GiveUp | Leave | Drop (ch : nat).

Definition group_step (s : state) (t : nat) (mv : move) : option state :=
  match pcs s t, mv with
  | Out, Enter ch =>
      let (g, lead) := enter (grp s) ch in
      if lead then Some (mkState g (full s) (pool s) (<[t := Leading]> (pcs s)))
      else Some (mkState g (full s) (pool s ∖ {[ch]}) (<[t := Following ch]> (pcs s)))
  | Leading, Exit =>
      '(g, f) ← exitLeader (grp s) (full s);
      Some (mkState g f (pool s) (<[t := Out]> (pcs s)))
  | Following ch, Receive =>
      if decide (ch ∈ full s)
      then Some (mkState (grp s) (full s ∖ {[ch]}) (pool s) (<[t := Leaving ch]> (pcs s)))
      else None
  | Following ch, GiveUp => Some (mkState (grp s) (full s) (pool s) (<[t := Leaving ch]> (pcs s)))
  | Leaving ch, Leave =>
      let '(g, f, p) := leave (grp s) ch (full s) (pool s) in
      Some (mkState g f p (<[t := Out]> (pcs s)))
  | Out, Drop ch => Some (mkState (grp s) (full s) (pool s ∖ {[ch]}) (pcs s))
  | _, _ => None
  end.

Definition chan (p : pc) : option nat :=
  match p with Following ch | Leaving ch => Some ch | _ => None end.

(** sync.Pool: [Get] returns a pooled channel or a newly made (empty) one. *)
Definition pool_get (s : state) (ch : nat) : Prop :=
  ch ∈ pool s \/ (ch ∉ full s) /\ forall t, chan (pcs s t) <> Some ch.

Definition legal (s : state) (mv : move) : Prop :=
  match mv with Enter ch => pool_get s ch | _ => True end.

Definition initial (s : state) : Prop :=
  grp s = mkGroup false [] /\ full s = ∅ /\ pool s = ∅ /\ forall t, pcs s t = Out.

Inductive reachable : state -> Prop :=
| reach_init s : initial s -> reachable s
| reach_step s t mv s' : reachable s -> legal s mv -> group_step s t mv = Some s' -> reachable s'.

(** ** Invariant *)

Record Inv (s : state) : Prop := {
  inv_leading : forall t, pcs s t = Leading -> leader (grp s) = true;
  inv_one : forall t u, pcs s t = Leading -> pcs s u = Leading -> t = u;
  inv_led : leader (grp s) = true -> exists t, pcs s t = Leading;
  inv_wakes : wakes (grp s) <> [] -> leader (grp s) = true;
  inv_nodup : NoDup (wakes (grp s));
  inv_owned : forall ch, ch ∈ wakes (grp s) -> exists t, chan (pcs s t) = Some ch;
  inv_empty : forall ch, ch ∈ wakes (grp s) -> ch ∉ full s;
  inv_pool : forall ch, ch ∈ pool s -> (ch ∉ full s) /\ forall t, chan (pcs s t) <> Some ch;
  inv_excl : forall t u ch, chan (pcs s t) = Some ch -> chan (pcs s u) = Some ch -> t = u;
  inv_held : forall t ch, pcs s t = Following ch -> ch ∈ wakes (grp s) \/ ch ∈ full s
}.

(** *** Channels *)

Lemma index_of_lookup ch l i : index_of ch l = Some i -> l !! i = Some ch.
Proof.
  revert i. induction l as [|x l IH]; simpl; intros i; [done|].
  destruct (Nat.eqb_spec x ch) as [->|]; [by intros [= <-]|].
  destruct (index_of ch l) as [k|]; simpl; [|done]. intros [= <-]. simpl. by apply IH.
Qed.

Lemma index_of_None ch l : index_of ch l = None -> ch ∉ l.
Proof.
  induction l as [|x l IH]; simpl; [intros _; apply not_elem_of_nil|].
  destruct (Nat.eqb_spec x ch) as [->|Hne]; [done|]. destruct (index_of ch l); simpl; [done|].
  intros _. apply not_elem_of_cons. split; [congruence|by apply IH].
Qed.

(** Swap with the last element and shrink: exactly one element goes. *)
Lemma swap_remove_perm ch l i :
  index_of ch l = Some i ->
  l ≡ₚ ch :: take (length l - 1) (<[i := default 0%nat (l !! (length l - 1)%nat)]> l).
Proof.
  intros Hi%index_of_lookup. destruct l as [|x l0] using rev_ind; [done|]. clear IHl0.
  rewrite length_app. simpl. replace (length l0 + 1 - 1)%nat with (length l0) by lia.
  rewrite lookup_app_r, Nat.sub_diag by lia. simpl.
  pose proof (lookup_lt_Some _ _ _ Hi) as Hlt. rewrite length_app in Hlt. simpl in Hlt.
  destruct (decide (i = length l0)) as [->|Hne].
  - rewrite lookup_app_r, Nat.sub_diag in Hi by lia. simpl in Hi. injection Hi as ->.
    rewrite take_insert_ge by lia.
    rewrite take_app_length. apply (Permutation_app_comm l0 [ch]).
  - rewrite lookup_app_l in Hi by lia. rewrite insert_app_l by lia.
    rewrite take_app_le by (rewrite length_insert; lia).
    rewrite take_ge by (rewrite length_insert; lia).
    rewrite insert_take_drop by lia. rewrite <- (take_drop_middle _ _ _ Hi) at 1.
    rewrite <- app_assoc. simpl. rewrite <- Permutation_middle. constructor.
    apply Permutation_app_head. apply Permutation_app_comm.
Qed.

Lemma send_all_ok chs : forall full,
  NoDup chs -> (forall ch, ch ∈ chs -> ch ∉ full) ->
  exists full', send_all chs full = Some full' /\ forall ch, ch ∈ full' <-> ch ∈ chs \/ ch ∈ full.
Proof.
  induction chs as [|c chs IH]; intros full Hnd Hf; simpl.
  - exists full. split; [done|]. intros ch. rewrite elem_of_nil. tauto.
  - apply list.NoDup_cons in Hnd. destruct Hnd as [Hc Hnd]. unfold send.
    rewrite decide_False by (apply Hf; constructor). simpl.
    destruct (IH ({[c]} ∪ full) Hnd) as (f' & E & Hin).
    { intros ch Hch. rewrite elem_of_union, elem_of_singleton. intros [->|Hx]; [done|].
      by apply (Hf ch); [constructor|]. }
    exists f'. split; [done|]. intros ch. rewrite Hin, elem_of_union, elem_of_singleton, elem_of_cons. tauto.
Qed.

(** *** Preservation *)

Ltac upd :=
  repeat match goal with
  | H : context [ (<[?t := ?p]> ?f) ?u ] |- _ =>
      destruct (decide (t = u)) as [?|?]; [subst; rewrite fn_lookup_insert in H|rewrite fn_lookup_insert_ne in H by done]
  | |- context [ (<[?t := ?p]> ?f) ?u ] =>
      destruct (decide (t = u)) as [?|?]; [subst; rewrite fn_lookup_insert|rewrite fn_lookup_insert_ne by done]
  end.

Lemma inv_enter_leader s t :
  Inv s -> pcs s t = Out -> leader (grp s) = false ->
  Inv (mkState (mkGroup true (wakes (grp s))) (full s) (pool s) (<[t := Leading]> (pcs s))).
Proof.
  intros [] Et Hl. constructor; simpl.
  - done.
  - intros u v Hu Hv. upd; eauto;
      repeat match goal with H : pcs s _ = Leading |- _ => apply inv_leading0 in H end; congruence.
  - intros _. exists t. upd; done.
  - done.
  - done.
  - intros ch Hch. destruct (inv_owned0 ch Hch) as [u Hu]. exists u. upd; [|done]. by rewrite Et in Hu.
  - done.
  - intros ch Hch. destruct (inv_pool0 ch Hch) as [H1 H2]. split; [done|]. intros u. upd; [done|]. apply H2.
  - intros u v ch Hu Hv. upd; try done. eauto.
  - intros u ch Hu. upd; [done|]. eauto.
Qed.

Lemma inv_enter_follow s t ch0 :
  Inv s -> pcs s t = Out -> leader (grp s) = true -> pool_get s ch0 ->
  Inv (mkState (mkGroup true (wakes (grp s) ++ [ch0])) (full s) (pool s ∖ {[ch0]}) (<[t := Following ch0]> (pcs s))).
Proof.
  intros [] Et Hl Hget.
  assert (Hnew : (ch0 ∉ full s) /\ forall u, chan (pcs s u) <> Some ch0)
    by (destruct Hget as [Hg|Hg]; [by apply inv_pool0|done]).
  destruct Hnew as [Hnf Hnc].
  constructor; simpl.
  - done.
  - intros u v Hu Hv. upd; try done. eauto.
  - intros _. destruct (inv_led0 Hl) as [u Hu]. exists u. upd; congruence.
  - done.
  - apply list.NoDup_app. split_and!; [done| |apply NoDup_singleton].
    intros ch Hch ->%list_elem_of_singleton. destruct (inv_owned0 _ Hch) as [u Hu]. by apply (Hnc u).
  - intros ch [Hch| ->%list_elem_of_singleton]%elem_of_app; [|by exists t; upd].
    destruct (inv_owned0 ch Hch) as [u Hu]. exists u. upd; [|done]. by rewrite Et in Hu.
  - intros ch [Hch| ->%list_elem_of_singleton]%elem_of_app; [auto|done].
  - intros ch [Hch Hne]%elem_of_difference. rewrite elem_of_singleton in Hne.
    destruct (inv_pool0 ch Hch) as [H1 H2]. split; [done|]. intros u. upd; [simpl; congruence|]. apply H2.
  - intros u v ch Hu Hv. upd; simpl in *; simplify_eq; try done; [exfalso; eapply Hnc; eassumption..|eauto].
  - intros u ch Hu. rewrite elem_of_app. upd; simplify_eq; [left; right; by apply list_elem_of_singleton|].
    destruct (inv_held0 _ _ Hu); auto.
Qed.

Lemma inv_exit s t f :
  Inv s -> pcs s t = Leading -> (forall ch, ch ∈ f <-> ch ∈ wakes (grp s) \/ ch ∈ full s) ->
  Inv (mkState (mkGroup false []) f (pool s) (<[t := Out]> (pcs s))).
Proof.
  intros [] Et Hf. constructor; simpl; try done.
  - intros u Hu. upd; [done|]. specialize (inv_one0 _ _ Et Hu). congruence.
  - intros u v Hu Hv. upd; try done. eauto.
  - constructor.
  - intros ch []%not_elem_of_nil.
  - intros ch []%not_elem_of_nil.
  - intros ch Hch. destruct (inv_pool0 ch Hch) as [H1 H2]. split; [|intros u; upd; [done|apply H2]].
    rewrite Hf. intros [Hw|Hx]; [|done]. destruct (inv_owned0 _ Hw) as [u Hu]. by apply (H2 u).
  - intros u v ch Hu Hv. upd; try done. eauto.
  - intros u ch Hu. upd; [done|]. right. apply Hf. eauto.
Qed.

(** A follower leaves the select, with or without the value. *)
Lemma inv_select s t ch0 f :
  Inv s -> pcs s t = Following ch0 -> f = full s \/ f = full s ∖ {[ch0]} ->
  Inv (mkState (grp s) f (pool s) (<[t := Leaving ch0]> (pcs s))).
Proof.
  intros [] Et Hf.
  assert (Hsub : forall ch, ch ∈ f -> ch ∈ full s) by (intros ch; destruct Hf as [-> | ->]; [done|]; rewrite elem_of_difference; tauto).
  assert (Hsup : forall ch, ch <> ch0 -> ch ∈ full s -> ch ∈ f)
    by (intros ch Hne Hch; destruct Hf as [-> | ->]; [done|]; rewrite elem_of_difference, elem_of_singleton; tauto).
  assert (Hch : forall u, chan ((<[t := Leaving ch0]> (pcs s)) u) = chan (pcs s u)) by (intros u; upd; [by rewrite Et|done]).
  constructor; simpl; try done.
  - intros u Hu. upd; [done|]. eauto.
  - intros u v Hu Hv. upd; try done. eauto.
  - intros Hl. destruct (inv_led0 Hl) as [u Hu]. exists u. upd; congruence.
  - intros ch Hw. destruct (inv_owned0 ch Hw) as [u Hu]. exists u. by rewrite Hch.
  - intros ch Hw Hx. apply (inv_empty0 ch); auto.
  - intros ch Hp. destruct (inv_pool0 ch Hp) as [H1 H2]. split; [auto|]. intros u. rewrite Hch. apply H2.
  - intros u v ch. rewrite !Hch. apply inv_excl0.
  - intros u ch Hu. upd; [done|]. destruct (inv_held0 _ _ Hu) as [|Hx]; [by left|right].
    apply Hsup; [|done]. intros ->. assert (t = u); [|done]. apply (inv_excl0 t u ch0); by rewrite ?Et, ?Hu.
Qed.

Lemma inv_leave s t ch0 :
  Inv s -> pcs s t = Leaving ch0 ->
  let '(g, f, p) := leave (grp s) ch0 (full s) (pool s) in
  Inv (mkState g f p (<[t := Out]> (pcs s))).
Proof.
  intros H Et. destruct (leave (grp s) ch0 (full s) (pool s)) as [[g f] p] eqn:E.
  assert (Hx : leader g = leader (grp s) /\ p = {[ch0]} ∪ pool s /\ NoDup (wakes g) /\
    (forall ch, ch ∈ wakes g <-> ch ∈ wakes (grp s) /\ ch <> ch0) /\
    (forall ch, ch ∈ f <-> ch ∈ full s /\ ch <> ch0)).
  { unfold leave in E. destruct (index_of ch0 (wakes (grp s))) as [i|] eqn:Ei; simplify_eq; simpl.
    - pose proof (swap_remove_perm _ _ _ Ei) as Hp. pose proof (inv_nodup _ H) as Hnd.
      set (l' := take _ _) in *. clearbody l'.
      rewrite Hp in Hnd. apply list.NoDup_cons in Hnd. destruct Hnd as [Hn Hnd].
      split_and!; [done..| |].
      + intros ch. rewrite Hp, elem_of_cons. split; [|intuition congruence].
        intros Hch. split; [by right|]. by intros ->.
      + intros ch. split; [|tauto]. intros Hch. split; [done|]. intros ->.
        apply (inv_empty _ H ch0); [|done]. apply index_of_lookup in Ei. by eapply list_elem_of_lookup_2.
    - split_and!; [done..|apply (inv_nodup _ H)| |].
      + intros ch. split; [|tauto]. intros Hch. split; [done|]. intros ->. by apply index_of_None in Ei.
      + intros ch. by rewrite elem_of_difference, elem_of_singleton. }
  destruct Hx as (Hl & -> & Hnd & Hw & Hf). destruct H.
  constructor; simpl; rewrite ?Hl.
  - intros u Hu. upd; [done|]. eauto.
  - intros u v Hu Hv. upd; try done. eauto.
  - intros Hld. destruct (inv_led0 Hld) as [u Hu]. exists u. upd; congruence.
  - intros Hne. apply inv_wakes0. intros E0. destruct (wakes g) as [|c l] eqn:Eg; [done|].
    destruct (proj1 (Hw c)) as [Hc _]; [constructor|]. rewrite E0 in Hc. by apply not_elem_of_nil in Hc.
  - done.
  - intros ch [Hch Hne]%Hw. destruct (inv_owned0 ch Hch) as [u Hu]. exists u. upd; [|done].
    rewrite Et in Hu. simpl in Hu. congruence.
  - intros ch [Hch Hne]%Hw [Hx _]%Hf. by apply (inv_empty0 ch).
  - intros ch [->%elem_of_singleton|Hp]%elem_of_union.
    + split; [rewrite Hf; tauto|]. intros u. upd; [done|]. intros Hu. assert (t = u); [|done].
      apply (inv_excl0 t u ch0); [by rewrite Et|done].
    + destruct (inv_pool0 ch Hp) as [H1 H2]. split; [rewrite Hf; tauto|]. intros u. upd; [done|apply H2].
  - intros u v ch Hu Hv. upd; try done. eauto.
  - intros u ch Hu. upd; [done|]. rewrite Hw, Hf.
    assert (ch <> ch0) by (intros ->; assert (t = u); [|done]; apply (inv_excl0 t u ch0); by rewrite ?Et, ?Hu).
    destruct (inv_held0 _ _ Hu); auto.
Qed.

Lemma group_inv_step s t mv s' : Inv s -> legal s mv -> group_step s t mv = Some s' -> Inv s'.
Proof.
  intros H Hlg E. unfold group_step in E. destruct (pcs s t) as [| |ch|ch] eqn:Et; destruct mv as [c| | | | |c]; try done.
  - unfold enter in E. destruct (leader (grp s)) eqn:Hl; simpl in E; simplify_eq.
    + by apply inv_enter_follow.
    + by apply inv_enter_leader.
  - simplify_eq. destruct H. constructor; simpl; try done.
    intros ch [Hch _]%elem_of_difference. auto.
  - unfold exitLeader in E.
    destruct (send_all_ok (wakes (grp s)) (full s) (inv_nodup _ H) (inv_empty _ H)) as (f & Ef & Hf).
    rewrite Ef in E. simpl in E. simplify_eq. by apply inv_exit.
  - destruct (decide _); simplify_eq. apply inv_select; auto.
  - simplify_eq. apply inv_select; auto.
  - pose proof (inv_leave s t ch H Et) as Hx. destruct (leave _ _ _ _) as [[g f] p]. by simplify_eq.
Qed.

Lemma group_inv_reachable s : reachable s -> Inv s.
Proof.
  induction 1 as [s (Hg & Hf & Hp & Ht)|s t mv s' _ IH Hl E]; [|by eapply group_inv_step].
  constructor; rewrite ?Hg, ?Hf, ?Hp; simpl; try done.
  all: first [intros ? []%not_elem_of_nil | intros ? []%not_elem_of_empty | by constructor
             | intros ?; rewrite Ht; done | intros ? ?; rewrite Ht; done | intros ? ? ?; rewrite Ht; done].
Qed.

(** ** Property *)

(** C6. Waiter aggregation is safe. In every reachable state at most one goroutine
    of the group parks in the kernel; when the leader returns it can release
    every follower without blocking, whatever they are doing; a follower that
    is still in its select while nobody leads has a release waiting in its
    channel, so no follower is left behind; the pool only holds empty channels
    that nobody waits on. *)
Theorem park_group_safe (s : state) (Hr : reachable s) :
  (forall t u, pcs s t = Leading -> pcs s u = Leading -> t = u) /\
  (forall t, pcs s t = Leading -> exists s', group_step s t Exit = Some s' /\
     forall u ch, pcs s u = Following ch -> exists s'', group_step s' u Receive = Some s'') /\
  (forall u ch, leader (grp s) = false -> pcs s u = Following ch -> exists s', group_step s u Receive = Some s') /\
  (forall ch, ch ∈ pool s -> (ch ∉ full s) /\ forall t, chan (pcs s t) <> Some ch).
Proof.
  pose proof (group_inv_reachable s Hr) as H. split_and!.
  - apply (inv_one _ H).
  - intros t Et.
    destruct (send_all_ok (wakes (grp s)) (full s) (inv_nodup _ H) (inv_empty _ H)) as (f & Ef & Hf).
    eexists. split; [unfold group_step, exitLeader; rewrite Et, Ef; reflexivity|].
    intros u ch Hu. unfold group_step. simpl. rewrite fn_lookup_insert_ne by (intros ->; congruence). rewrite Hu.
    rewrite decide_True by (apply Hf, (inv_held _ H _ _ Hu)). by eexists.
  - intros u ch Hl Hu. unfold group_step. rewrite Hu.
    destruct (inv_held _ H _ _ Hu) as [Hw|Hx]; [|rewrite decide_True by done; by eexists].
    rewrite (inv_wakes _ H) in Hl; [done|]. intros E. rewrite E in Hw. by apply not_elem_of_nil in Hw.
  - apply (inv_pool _ H).
Qed.

Definition nobody : state := mkState (mkGroup false []) ∅ ∅ (fun _ => Out).

Lemma park_group_safe_witness :
  exists s, (s1 ← group_step nobody 0 (Enter 9); group_step s1 1 (Enter 5)) = Some s /\ pcs s 1 = Following 5 /\
  exists s', group_step s 0 Exit = Some s' /\ forall u ch, pcs s u = Following ch -> exists s'', group_step s' u Receive = Some s''.
Proof.
  destruct (group_step nobody 0 (Enter 9)) as [s1|] eqn:E1; [|discriminate E1].
  destruct (group_step s1 1 (Enter 5)) as [s|] eqn:E2;
    [|injection E1 as <-; discriminate E2].
  exists s. split; [exact E2|].
  assert (H1 : reachable s1).
  { eapply (reach_step nobody); [by apply reach_init| |exact E1].
    right. split; [apply not_elem_of_empty|done]. }
  assert (H2 : reachable s).
  { eapply (reach_step s1); [exact H1| |exact E2]. injection E1 as <-.
    right. split; [apply not_elem_of_empty|]. intros [|t]; done. }
  split; [injection E1 as <-; injection E2 as <-; reflexivity|].
  apply (park_group_safe s H2). injection E1 as <-. injection E2 as <-. reflexivity.
Defined.

End Group.
