(* ===== verification/Registry.v ===== *)
(** * Registry: the park groups of a process

    Models [acquireParkGroup] and [releaseParkGroup] of waitgroup.go: the table
    that gives all blocked operations on one wait word the same park group
    (Parking), counts who uses it, and recycles groups that nobody uses. Each
    call is one critical section; any number of operations run. A wait word is
    its address, a group a number. *)
From stdpp Require Import gmap.
From S2P Require Import Prelude.

Definition maxFreeParkGroups : nat := 64.

(** [parkGroups], with the [refs] of every group; [next] is the number of
    groups made so far. *)
Record registry := mkRegistry { m : gmap Z nat; free : list nat; refs : nat -> Z; next : nat }.

Definition add_ref (d : Z) (g : nat) (f : nat -> Z) : nat -> Z := fun x => if decide (x = g) then f x + d else f x.

Definition acquireParkGroup (word : Z) (s : registry) : nat * registry :=
  match m s !! word with
  | Some g => (g, mkRegistry (m s) (free s) (add_ref 1 g (refs s)) (next s))
  | None =>
      match reverse (free s) with
      | g :: rest => (g, mkRegistry (<[word := g]> (m s)) (reverse rest) (add_ref 1 g (refs s)) (next s))
      | [] => (next s, mkRegistry (<[word := next s]> (m s)) (free s) (add_ref 1 (next s) (refs s)) (S (next s)))
      end
  end.

Definition releaseParkGroup (word : Z) (g : nat) (s : registry) : registry :=
  let r := add_ref (-1) g (refs s) in
  if r g =? 0 then
    mkRegistry (delete word (m s)) (if (length (free s) <? maxFreeParkGroups)%nat then free s ++ [g] else free s) r (next s)
  else mkRegistry (m s) (free s) r (next s).

(** The operations of a process: each holds nothing, or the group it got for its
    word. *)
Record process := mkProcess { reg : registry; ops : list (option (Z * nat)) }.

Inductive proc_step : process -> process -> Prop :=
| ps_acquire s i word g r : ops s !! i = Some None -> acquireParkGroup word (reg s) = (g, r) -> proc_step s (mkProcess r (<[i := Some (word, g)]> (ops s)))
| ps_release s i word g : ops s !! i = Some (Some (word, g)) -> proc_step s (mkProcess (releaseParkGroup word g (reg s)) (<[i := None]> (ops s))).

Definition new_process (n : nat) : process := mkProcess (mkRegistry ∅ [] (fun _ => 0) 0) (replicate n None).

(** ** Invariant *)

Definition uses (g : nat) (o : option (Z * nat)) : bool := match o with Some (_, g') => bool_decide (g' = g) | None => false end.

Record reg_inv (s : process) : Prop := mkRegInv {
  ri_held : forall i word g, ops s !! i = Some (Some (word, g)) -> m (reg s) !! word = Some g;
  ri_inj : forall w w' g, m (reg s) !! w = Some g -> m (reg s) !! w' = Some g -> w = w';
  ri_refs : forall g, refs (reg s) g = countb (uses g) (ops s);
  ri_used : forall w g, m (reg s) !! w = Some g -> 0 < refs (reg s) g /\ (g < next (reg s))%nat /\ g ∉ free (reg s);
  ri_free : NoDup (free (reg s)) /\ (length (free (reg s)) <= maxFreeParkGroups)%nat /\ forall g, g ∈ free (reg s) -> refs (reg s) g = 0 /\ (g < next (reg s))%nat;
  ri_fresh : forall g, (next (reg s) <= g)%nat -> refs (reg s) g = 0
}.

Lemma add_ref_eq d g f : add_ref d g f g = f g + d. Proof. unfold add_ref. by rewrite decide_True. Qed.
Lemma add_ref_ne d g f x : x <> g -> add_ref d g f x = f x. Proof. intros. unfold add_ref. by rewrite decide_False. Qed.

Lemma insert_uses s i o o' g : ops s !! i = Some o -> countb (uses g) (<[i := o']> (ops s)) = countb (uses g) (ops s) - (if uses g o then 1 else 0) + (if uses g o' then 1 else 0).
Proof. apply countb_insert. Qed.

Lemma uses_self w g : uses g (Some (w, g)) = true. Proof. simpl. by rewrite bool_decide_eq_true_2. Qed.
Lemma uses_other w g g' : g' <> g -> uses g (Some (w, g')) = false. Proof. intros. simpl. by rewrite bool_decide_eq_false_2. Qed.

(** A group comes into use for a word without one. *)
Lemma acquire_new s i word g rest fr nx : reg_inv s -> ops s !! i = Some None -> m (reg s) !! word = None -> refs (reg s) g = 0 -> (forall w, m (reg s) !! w <> Some g) ->
  NoDup fr -> (length fr <= maxFreeParkGroups)%nat -> (forall x, x ∈ fr -> x ∈ free (reg s) /\ x <> g) -> (next (reg s) <= nx)%nat -> (g < nx)%nat -> rest = fr ->
  reg_inv (mkProcess (mkRegistry (<[word := g]> (m (reg s))) rest (add_ref 1 g (refs (reg s))) nx) (<[i := Some (word, g)]> (ops s))).
Proof.
  intros [H1 H2 H3 H4 (H5 & H5' & H6) H7] Hi Hm Hr Hg Hnd Hlen Hfr Hnx Hgn ->.
  assert (Hother : forall w x, m (reg s) !! w = Some x -> x <> g) by (intros w x Hx ->; by apply (Hg w)).
  constructor; simpl.
  - intros j w x Hj. apply list_lookup_insert_Some in Hj as [(<- & [= <- <-] & _)|[Hne Hj]]; [by rewrite lookup_insert_eq|].
    specialize (H1 j w x Hj). rewrite lookup_insert_ne; [done|]. intros ->. congruence.
  - intros w w' x Hw Hw'. apply lookup_insert_Some in Hw as [[<- <-]|[N Hw]]; apply lookup_insert_Some in Hw' as [[<- E]|[N' Hw']]; try done.
    + by destruct (Hother _ _ Hw').
    + subst x. by destruct (Hother _ _ Hw).
    + by eapply H2.
  - intros x. rewrite (insert_uses s i None) by done. rewrite <- H3. destruct (decide (x = g)) as [->|Hne]; [rewrite add_ref_eq, uses_self; simpl; lia|].
    rewrite add_ref_ne, uses_other by done. simpl. lia.
  - intros w x Hw. apply lookup_insert_Some in Hw as [[<- <-]|[N Hw]].
    + rewrite add_ref_eq. split_and!; [lia|done|]. intros [_ ?]%Hfr. done.
    + destruct (H4 w x Hw) as (K1 & K2 & K3). rewrite add_ref_ne by (by eapply Hother). split_and!; [done|lia|]. intros [? _]%Hfr. done.
  - split_and!; [done|done|]. intros x Hx. destruct (Hfr x Hx) as [Hx' Hne]. destruct (H6 x Hx'). rewrite add_ref_ne by done. split; [done|lia].
  - intros x Hx. rewrite add_ref_ne by lia. apply H7. lia.
Qed.

Lemma acquire_inv s i word g r : reg_inv s -> ops s !! i = Some None -> acquireParkGroup word (reg s) = (g, r) -> reg_inv (mkProcess r (<[i := Some (word, g)]> (ops s))).
Proof.
  intros Hs Hi E. pose proof Hs as [H1 H2 H3 H4 (H5 & H5' & H6) H7]. unfold acquireParkGroup in E. destruct (m (reg s) !! word) as [g0|] eqn:Em.
  - injection E as <- <-. constructor; simpl; try done.
    + intros j w x Hj. apply list_lookup_insert_Some in Hj as [(<- & [= <- <-] & _)|[Hne Hj]]; [done|eauto].
    + intros x. rewrite (insert_uses s i None) by done. rewrite <- H3. destruct (decide (x = g0)) as [->|Hne]; [rewrite add_ref_eq, uses_self; simpl; lia|].
      rewrite add_ref_ne, uses_other by done. simpl. lia.
    + intros w x Hw. destruct (H4 w x Hw) as (K1 & K2 & K3). unfold add_ref. case_decide; split_and!; try done; lia.
    + split_and!; [done|done|]. intros x Hx. destruct (H6 x Hx). destruct (H4 _ _ Em) as (_ & _ & K). rewrite add_ref_ne by (intros ->; done). done.
    + intros x Hx. destruct (H4 _ _ Em) as (_ & K & _). rewrite add_ref_ne by lia. by apply H7.
  - destruct (reverse (free (reg s))) as [|g1 rest] eqn:Er; injection E as <- <-.
    + apply (acquire_new s i word (next (reg s)) _ (free (reg s))); try done; [by apply H7| |by rewrite <- (reverse_involutive (free (reg s))), Er; intros x Hx; apply elem_of_nil in Hx|lia|lia].
      intros w Hw. destruct (H4 _ _ Hw) as (_ & K & _). lia.
    + assert (Ef : free (reg s) = reverse rest ++ [g1]) by (rewrite <- (reverse_involutive (free (reg s))), Er; apply reverse_cons).
      assert (Hg1 : g1 ∈ free (reg s)) by (rewrite Ef; apply list.elem_of_app; right; apply list_elem_of_singleton; done).
      destruct (H6 g1 Hg1) as [K1 K2]. rewrite Ef in H5, H5'. apply list.NoDup_app in H5 as (N1 & N2 & _). rewrite length_app in H5'. simpl in H5'.
      apply (acquire_new s i word g1 _ (reverse rest)); try done; [|lia|].
      * intros w Hw. destruct (H4 _ _ Hw) as (_ & _ & K). done.
      * intros x Hx. split; [rewrite Ef; apply list.elem_of_app; by left|]. intros ->. apply (N2 g1 Hx). by apply list_elem_of_singleton.
Qed.

Lemma release_inv s i word g : reg_inv s -> ops s !! i = Some (Some (word, g)) -> reg_inv (mkProcess (releaseParkGroup word g (reg s)) (<[i := None]> (ops s))).
Proof.
  intros [H1 H2 H3 H4 (H5 & H5' & H6) H7] Hi. pose proof (H1 _ _ _ Hi) as Hm. destruct (H4 _ _ Hm) as (K1 & K2 & K3).
  assert (Hrefs : forall x, add_ref (-1) g (refs (reg s)) x = countb (uses x) (<[i := None]> (ops s))).
  { intros x. rewrite (insert_uses s i (Some (word, g))) by done. rewrite <- H3. destruct (decide (x = g)) as [->|Hne]; [rewrite add_ref_eq, uses_self; simpl; lia|].
    rewrite add_ref_ne, uses_other by done. simpl. lia. }
  assert (Hheld : forall j w x, <[i := None]> (ops s) !! j = Some (Some (w, x)) -> m (reg s) !! w = Some x).
  { intros j w x Hj. apply list_lookup_insert_Some in Hj as [(_ & [=] & _)|[_ Hj]]. by eapply H1. }
  unfold releaseParkGroup. destruct (Z.eqb_spec (add_ref (-1) g (refs (reg s)) g) 0) as [E|E].
  - assert (Hne : forall w x, delete word (m (reg s)) !! w = Some x -> m (reg s) !! w = Some x /\ x <> g).
    { intros w x [N Hw]%lookup_delete_Some. split; [done|]. intros ->. apply N. by eapply H2. }
    assert (Hfree : forall x, x ∈ (if (length (free (reg s)) <? maxFreeParkGroups)%nat then free (reg s) ++ [g] else free (reg s)) -> x ∈ free (reg s) \/ x = g).
    { intros x. case_match; [|by left]. intros [Hx|Hx%list_elem_of_singleton]%list.elem_of_app; auto. }
    constructor; simpl; auto.
    + intros j w x Hj. apply lookup_delete_Some. split; [|by eapply Hheld]. intros <-. pose proof (Hheld j word x Hj). simplify_eq.
      assert (0 < countb (uses g) (<[i := None]> (ops s))); [|rewrite <- Hrefs in *; lia].
      eapply countb_pos; [by eapply list_elem_of_lookup_2|apply uses_self].
    + intros w w' x [Hw _]%Hne [Hw' _]%Hne. by eapply H2.
    + intros w x Hw. destruct (Hne w x Hw) as [Hw' Hx]. destruct (H4 w x Hw') as (L1 & L2 & L3). rewrite add_ref_ne by done. split_and!; [done|done|]. by intros [|]%Hfree.
    + split_and!.
      * case_match; [|done]. apply list.NoDup_app. split_and!; [done|intros x Hx ->%list_elem_of_singleton; done|apply NoDup_singleton].
      * case_match eqn:El; [|done]. apply Nat.ltb_lt in El. rewrite length_app. simpl. lia.
      * intros x [Hx| ->]%Hfree; [|by split]. destruct (H6 x Hx). rewrite add_ref_ne by (intros ->; done). done.
    + intros x Hx. rewrite add_ref_ne by lia. by apply H7.
  - constructor; simpl; auto.
    + intros w x Hw. destruct (H4 w x Hw) as (L1 & L2 & L3). split_and!; [|done|done]. destruct (decide (x = g)) as [->|Hx]; [|by rewrite add_ref_ne].
      pose proof (countb_nonneg (uses g) (<[i := None]> (ops s))). rewrite <- Hrefs in *. lia.
    + split_and!; [done|done|]. intros x Hx. destruct (H6 x Hx). rewrite add_ref_ne by (intros ->; done). done.
    + intros x Hx. rewrite add_ref_ne by lia. by apply H7.
Qed.

Lemma registry_reachable n s : rtc proc_step (new_process n) s -> reg_inv s.
Proof.
  assert (G : forall a b, rtc proc_step a b -> reg_inv a -> reg_inv b).
  { induction 1 as [|x y z Hst _ IH]; [done|]. intros Hx. apply IH. destruct Hst; [by eapply acquire_inv|by apply release_inv]. }
  intros H. eapply G; [exact H|]. constructor; simpl; try done.
  - intros i w g Hi. apply lookup_replicate in Hi as [[=] _].
  - intros g. symmetry. clear. induction n; [done|]. simpl. rewrite countb_cons. done.
  - split_and!; [apply NoDup_nil_2|lia|]. intros g Hg. by apply elem_of_nil in Hg.
Qed.

(** Park groups. Whatever operations start and end: those blocked on one wait
    word share one group and those on different words never do, so that a wake-up
    of a word reaches everybody who waits on it; a group is in the table exactly
    while somebody uses it; and the groups kept for later, at most 64, are used by
    nobody. *)
Theorem park_groups_shared n s (Hs : rtc proc_step (new_process n) s) :
  (forall i j w w' g g', ops s !! i = Some (Some (w, g)) -> ops s !! j = Some (Some (w', g')) -> w = w' <-> g = g') /\
  (forall w g, m (reg s) !! w = Some g <-> exists i, ops s !! i = Some (Some (w, g))) /\
  (length (free (reg s)) <= maxFreeParkGroups)%nat /\
  (forall g i w, g ∈ free (reg s) -> ops s !! i <> Some (Some (w, g))).
Proof.
  apply registry_reachable in Hs as [H1 H2 H3 H4 (H5 & H5' & H6) H7]. split_and!; [|split|done|].
  - intros i j w w' g g' Hi%H1 Hj%H1. split; [intros <-; congruence|intros <-; by eapply H2].
  - intros Hw. destruct (H4 w g Hw) as (K & _). rewrite H3 in K. apply countb_exists in K as (i & [[w' g']|] & Hi & Hu); [|done]. simpl in Hu. apply bool_decide_eq_true in Hu as ->.
    exists i. rewrite Hi. do 3 f_equal. by apply (H2 w' w g); [eapply H1|].
  - intros [i Hi]. by eapply H1.
  - intros g i w Hg Hi%H1. destruct (H4 w g Hi) as (_ & _ & K). done.
Qed.

Lemma park_groups_shared_witness : exists s, rtc proc_step (new_process 3) s /\ ops s = [Some (100, 0%nat); Some (100, 0%nat); Some (200, 1%nat)] /\
  (100 = 200 <-> 0%nat = 1%nat).
Proof.
  assert (H : rtc proc_step (new_process 3) (mkProcess (acquireParkGroup 200 (acquireParkGroup 100 (acquireParkGroup 100 (reg (new_process 3))).2).2).2
    [Some (100, 0%nat); Some (100, 0%nat); Some (200, 1%nat)])).
  { eapply rtc_l; [eapply (ps_acquire _ 0%nat 100 0%nat); reflexivity|]. eapply rtc_l; [eapply (ps_acquire _ 1%nat 100 0%nat); reflexivity|].
    eapply rtc_l; [eapply (ps_acquire _ 2%nat 200 1%nat); reflexivity|apply rtc_refl]. }
  eexists. split; [exact H|]. split; [reflexivity|]. exact (proj1 (park_groups_shared 3 _ H) 0%nat 2%nat 100 200 0%nat 1%nat eq_refl eq_refl).
Defined.
