(* ===== verification/Meta.v ===== *)
(** * Meta: the metadata block of a request

    Models [putMeta] and [parseMeta] of advanced_request.go, the TLV block in
    front of the payload of a request that carries AdvFlagMeta, and shows that
    what one endpoint writes the other reads, and that no input makes the
    parser read outside the message. *)
From S2P Require Import Prelude Errors.

Definition metaHeaderSize : nat := 4.
Definition metaTagBudget : Z := 1.
Definition metaTagCaller : Z := 2.
Definition metaTagTrace : Z := 3.
Definition metaMaxBlock : nat := metaHeaderSize + (2 + 8) + (2 + 8) + (2 + 16).

Record CallOptions := mkCallOptions { Caller : Z; Trace : bytes }.

Definition zero_trace : bytes := replicate 16 0.

(** [msgMeta]; the arrival time is set by [stripMeta]. *)
Record msgMeta := mkMeta {
  present : bool;
  hasBudget : bool;
  budget : Z;
  caller : Z;
  trace : bytes
}.

Definition no_meta : msgMeta := mkMeta false false 0 0 zero_trace.

(** [dst[n], dst[n+1] = tag, len(value)] followed by the value at [n+2]. *)
Definition put_tlv (tag : Z) (value : bytes) (st : bytes * nat) : bytes * nat :=
  let (dst, n) := st in
  (blit (n + 2) value (blit n [tag; Z.of_nat (length value)] dst), (n + 2 + length value)%nat).

(** [putMeta]: the block, [None] when there is nothing to send. *)
Definition putMeta (dst : bytes) (budget_ns : Z) (opts : CallOptions) : option bytes :=
  let st := (dst, metaHeaderSize) in
  let st := if 0 <? budget_ns then put_tlv metaTagBudget (le_put 8 (u64 budget_ns)) st else st in
  let st := if negb (Caller opts =? 0) then put_tlv metaTagCaller (le_put 8 (Caller opts)) st else st in
  let st := if decide (Trace opts = zero_trace) then st else put_tlv metaTagTrace (Trace opts) st in
  let (dst, n) := st in
  if (n =? metaHeaderSize)%nat then None
  else Some (take n (blit 0 (le_put 2 (u16 (Z.of_nat (n - metaHeaderSize)))) dst)).

(** One known tag; the value has been cut out of the block. *)
Definition apply_tag (tag : Z) (value : bytes) (m : msgMeta) : result error msgMeta :=
  if tag =? metaTagBudget then
    if negb (length value =? 8)%nat then Err ErrProtocol
    else Ok (mkMeta (present m) true (Z.min (le_get value) max_int) (caller m) (trace m))
  else if tag =? metaTagCaller then
    if negb (length value =? 8)%nat then Err ErrProtocol
    else Ok (mkMeta (present m) (hasBudget m) (budget m) (le_get value) (trace m))
  else if tag =? metaTagTrace then
    if negb (length value =? 16)%nat then Err ErrProtocol
    else Ok (mkMeta (present m) (hasBudget m) (budget m) (caller m) value)
  else Ok m.

(** The TLV loop; every round consumes at least two bytes, so the length of
    the input is enough fuel. [None]: out of fuel. *)
Fixpoint parse_tlvs (fuel : nat) (tlv : bytes) (m : msgMeta) : option (result error msgMeta) :=
  match tlv with
  | [] => Some (Ok m)
  | _ =>
      match fuel with
      | O => None
      | S fuel' =>
          match tlv with
          | tag :: len :: rest =>
              if (length rest <? Z.to_nat len)%nat then Some (Err ErrProtocol)
              else
                let value := take (Z.to_nat len) rest in
                match apply_tag tag value m with
                | Err e => Some (Err e)
                | Ok m' => parse_tlvs fuel' (drop (length value) rest) m'
                end
          | _ => Some (Err ErrProtocol)
          end
      end
  end.

(** [parseMeta]: the block and its size. *)
Definition parseMeta (data : bytes) : option (result error (msgMeta * nat)) :=
  if (length data <? metaHeaderSize)%nat then Some (Err ErrProtocol)
  else
    let end_ := (metaHeaderSize + Z.to_nat (le_get (take 2 data)))%nat in
    if (length data <? end_)%nat then Some (Err ErrProtocol)
    else
      let tlv := slice metaHeaderSize end_ data in
      match parse_tlvs (length tlv) tlv (mkMeta true false 0 0 zero_trace) with
      | None => None
      | Some (Err e) => Some (Err e)
      | Some (Ok m) => Some (Ok (m, end_))
      end.

(** ** Lemmas *)

(** The loop never runs out of fuel. *)
Lemma parse_tlvs_total fuel : forall tlv m, (length tlv <= fuel)%nat -> exists r, parse_tlvs fuel tlv m = Some r.
Proof.
  induction fuel as [|fuel IH]; intros tlv m Hf; destruct tlv as [|tag [|len rest]]; simpl in *;
    try (by eexists); try lia.
  destruct (Nat.ltb_spec (length rest) (Z.to_nat len)); [by eexists|].
  destruct (apply_tag _ _ _); [|by eexists]. apply IH. rewrite length_drop. lia.
Qed.

Lemma parse_tlvs_more fuel : forall tlv m r fuel',
  parse_tlvs fuel tlv m = Some r -> (fuel <= fuel')%nat -> parse_tlvs fuel' tlv m = Some r.
Proof.
  induction fuel as [|fuel IH]; intros tlv m r fuel' E Hle; destruct tlv as [|tag [|len rest]];
    destruct fuel' as [|fuel']; simpl in *; try done; try lia.
  destruct (length rest <? _)%nat; [done|]. destruct (apply_tag _ _ _); [|done].
  apply IH; [done|lia].
Qed.

(** The parser keeps the budget in the range of a duration. *)
Lemma apply_tag_budget tag value m m' :
  Forall is_byte value -> 0 <= budget m <= max_int -> apply_tag tag value m = Ok m' -> 0 <= budget m' <= max_int.
Proof.
  intros Hb Hm E. pose proof (le_get_range value Hb). unfold apply_tag in E.
  repeat (case_match; simplify_eq); simpl; try done. unfold max_int in *. lia.
Qed.

Lemma parse_tlvs_budget fuel : forall tlv m m',
  Forall is_byte tlv -> 0 <= budget m <= max_int -> parse_tlvs fuel tlv m = Some (Ok m') -> 0 <= budget m' <= max_int.
Proof.
  induction fuel as [|fuel IH]; intros tlv m m' Hb Hm E; destruct tlv as [|tag [|len rest]]; simpl in *;
    simplify_eq; try done.
  destruct (length rest <? _)%nat; [done|]. destruct (apply_tag _ _ _) as [m1|] eqn:Ea; [|done].
  inv Hb as [|? ? _ Hb']. inv Hb' as [|? ? _ Hr].
  apply (IH _ _ _ (Forall_drop _ _ _ Hr)) in E; [done|].
  eapply apply_tag_budget; [|exact Hm|exact Ea]. by apply Forall_take.
Qed.

Lemma parse_tlvs_present fuel : forall tlv m m',
  parse_tlvs fuel tlv m = Some (Ok m') -> present m' = present m.
Proof.
  induction fuel as [|fuel IH]; intros tlv m m' E; destruct tlv as [|tag [|len rest]]; simpl in *; simplify_eq; try done.
  destruct (length rest <? _)%nat; [done|]. destruct (apply_tag _ _ _) as [m1|] eqn:Ea; [|done].
  apply IH in E. rewrite E. unfold apply_tag in Ea. repeat (case_match; simplify_eq); done.
Qed.

Lemma parse_tlvs_err fuel : forall tlv m e, parse_tlvs fuel tlv m = Some (Err e) -> e = ErrProtocol.
Proof.
  induction fuel as [|fuel IH]; intros tlv m e E; destruct tlv as [|tag [|len rest]]; simpl in *; simplify_eq; try done.
  destruct (length rest <? _)%nat; [by simplify_eq|]. destruct (apply_tag _ _ _) as [m1|] eqn:Ea; [by eapply IH|].
  simplify_eq. unfold apply_tag in Ea. repeat (case_match; simplify_eq); done.
Qed.

(** One well-formed TLV at the front of the input. *)
Lemma parse_tlvs_cons fuel tag value rest m m' :
  (length value < 256)%nat -> apply_tag tag value m = Ok m' ->
  parse_tlvs (S fuel) (tag :: Z.of_nat (length value) :: value ++ rest) m = parse_tlvs fuel rest m'.
Proof.
  intros Hlen Ea. cbn [parse_tlvs]. rewrite Nat2Z.id, length_app.
  destruct (Nat.ltb_spec (length value + length rest) (length value)); [lia|].
  rewrite take_app_length, Ea, drop_app_length. done.
Qed.

(** A TLV written at the end of what is already there. *)
Definition tlv (tag : Z) (value : bytes) : bytes := tag :: Z.of_nat (length value) :: value.

Lemma blit_append (pre src : bytes) k :
  (length src <= k)%nat -> blit (length pre) src (pre ++ replicate k 0) = (pre ++ src) ++ replicate (k - length src) 0.
Proof.
  intros H. unfold blit. rewrite take_app_length.
  rewrite drop_app_ge by lia. replace (length pre + length src - length pre)%nat with (length src) by lia.
  rewrite drop_replicate. by rewrite app_assoc.
Qed.

Lemma put_tlv_append tag value pre k :
  (2 + length value <= k)%nat ->
  put_tlv tag value (pre ++ replicate k 0, length pre) =
  ((pre ++ tlv tag value) ++ replicate (k - length (tlv tag value)) 0, length (pre ++ tlv tag value)).
Proof.
  intros H. unfold put_tlv. rewrite blit_append by (simpl; lia).
  set (hd := [tag; Z.of_nat (length value)]).
  replace (length pre + 2)%nat with (length (pre ++ hd)) by (rewrite length_app; done).
  rewrite blit_append by (simpl; lia). unfold tlv. rewrite <- !app_assoc. simpl.
  f_equal; [|rewrite !length_app; simpl; lia].
  replace (k - 2 - length value)%nat with (k - S (S (length value)))%nat by lia. done.
Qed.

(** The TLVs of a block in the order they are written. *)
Definition tlvs_of (budget_ns : Z) (opts : CallOptions) : bytes :=
  (if 0 <? budget_ns then tlv metaTagBudget (le_put 8 (u64 budget_ns)) else []) ++
  (if negb (Caller opts =? 0) then tlv metaTagCaller (le_put 8 (Caller opts)) else []) ++
  (if decide (Trace opts = zero_trace) then [] else tlv metaTagTrace (Trace opts)).

Lemma length_tlvs_of b opts :
  length (Trace opts) = 16%nat -> (length (tlvs_of b opts) <= 38)%nat.
Proof.
  intros Ht. unfold tlvs_of, tlv. rewrite !length_app.
  repeat case_match; simpl; rewrite ?length_le_put; lia.
Qed.

Lemma put_opt (b : bool) tag value pre k :
  (2 + length value <= k)%nat ->
  (if b then put_tlv tag value (pre ++ replicate k 0, length pre) else (pre ++ replicate k 0, length pre)) =
  let out := if b then tlv tag value else [] in
  ((pre ++ out) ++ replicate (k - length out) 0, length (pre ++ out)).
Proof.
  intros H. destruct b; cbv zeta; [by apply put_tlv_append|]. by rewrite app_nil_r, Nat.sub_0_r.
Qed.

(** What [putMeta] writes. *)
Lemma putMeta_layout b opts :
  length (Trace opts) = 16%nat ->
  putMeta (replicate metaMaxBlock 0) b opts =
  if decide (tlvs_of b opts = []) then None
  else Some (le_put 2 (Z.of_nat (length (tlvs_of b opts))) ++ [0; 0] ++ tlvs_of b opts).
Proof.
  intros Ht. unfold putMeta.
  change (replicate metaMaxBlock 0, metaHeaderSize) with ([0; 0; 0; 0] ++ replicate 38 0, length [0; 0; 0; 0]).
  rewrite put_opt by (rewrite length_le_put; lia). cbv zeta.
  set (t1 := if 0 <? b then _ else []).
  assert (H1 : (length t1 <= 10)%nat) by (unfold t1; destruct (0 <? b); simpl; lia).
  rewrite put_opt by (rewrite length_le_put; lia). cbv zeta.
  set (t2 := if negb _ then _ else []).
  assert (H2 : (length t2 <= 10)%nat) by (unfold t2; destruct (negb _); simpl; lia).
  set (t3 := if decide (Trace opts = zero_trace) then [] else tlv metaTagTrace (Trace opts)).
  assert (H3 : (length t3 <= 18)%nat) by (unfold t3; destruct (decide _); simpl; lia).
  assert (E3 : (if decide (Trace opts = zero_trace)
       then ((([0; 0; 0; 0] ++ t1) ++ t2) ++ replicate (38 - length t1 - length t2) 0, length (([0; 0; 0; 0] ++ t1) ++ t2))
       else put_tlv metaTagTrace (Trace opts)
         ((([0; 0; 0; 0] ++ t1) ++ t2) ++ replicate (38 - length t1 - length t2) 0, length (([0; 0; 0; 0] ++ t1) ++ t2))) =
     (((([0; 0; 0; 0] ++ t1) ++ t2) ++ t3) ++ replicate (38 - length t1 - length t2 - length t3) 0,
      length ((([0; 0; 0; 0] ++ t1) ++ t2) ++ t3))).
  { unfold t3. destruct (decide _); [by rewrite app_nil_r, Nat.sub_0_r|]. apply put_tlv_append. lia. }
  rewrite E3. change (tlvs_of b opts) with (t1 ++ t2 ++ t3). set (ts := t1 ++ t2 ++ t3).
  assert (Ea : (([0; 0; 0; 0] ++ t1) ++ t2) ++ t3 = [0; 0; 0; 0] ++ ts) by (unfold ts; by rewrite !app_assoc).
  rewrite Ea. set (k := (38 - length t1 - length t2 - length t3)%nat).
  assert (Hts : (length ts <= 38)%nat) by (unfold ts; rewrite !length_app; lia).
  clearbody ts k. rewrite length_app. simpl length.
  destruct (decide (ts = [])) as [->|Hne]; [done|].
  destruct (Nat.eqb_spec (4 + length ts) metaHeaderSize) as [E|_].
  { destruct ts; simpl in E; unfold metaHeaderSize in E; [done|lia]. }
  f_equal. unfold metaHeaderSize. replace (4 + length ts - 4)%nat with (length ts) by lia.
  unfold u16. rewrite wrap_small by (unfold word; lia).
  unfold blit. rewrite length_le_put. simpl. f_equal. f_equal. f_equal. f_equal. apply take_app_length.
Qed.

Lemma byte_le_put8 v : 0 <= v < 2 ^ 64 -> le_get (le_put 8 v) = v.
Proof. intros H. apply le_get_put_word. exact H. Qed.

(** The tags read back. *)
Lemma parse_tlvs_of b opts fuel :
  b < 2 ^ 63 -> word 64 (Caller opts) -> length (Trace opts) = 16%nat ->
  (length (tlvs_of b opts) <= fuel)%nat ->
  parse_tlvs fuel (tlvs_of b opts) (mkMeta true false 0 0 zero_trace) =
  Some (Ok (mkMeta true (0 <? b) (Z.max 0 b) (Caller opts) (Trace opts))).
Proof.
  intros Hb Hc Ht Hf.
  assert (H3 : exists f, parse_tlvs f (tlvs_of b opts) (mkMeta true false 0 0 zero_trace) =
    Some (Ok (mkMeta true (0 <? b) (Z.max 0 b) (Caller opts) (Trace opts)))).
  { exists 3%nat. unfold tlvs_of.
    set (t3 := if decide _ then [] else _).
    assert (E3 : forall f m, trace m = zero_trace -> parse_tlvs (S f) t3 m =
      Some (Ok (mkMeta (present m) (hasBudget m) (budget m) (caller m) (Trace opts)))).
    { intros f m Hm. unfold t3. destruct (decide (Trace opts = zero_trace)) as [->|].
      - simpl. rewrite <- Hm. by destruct m.
      - unfold tlv. rewrite <- (app_nil_r (Trace opts)) at 2.
        erewrite parse_tlvs_cons; [by destruct f|lia|]. unfold apply_tag. simpl. by rewrite Ht. }
    set (t2 := if negb _ then _ else []).
    assert (E2 : forall f m, caller m = 0 -> trace m = zero_trace -> parse_tlvs (S (S f)) (t2 ++ t3) m =
      Some (Ok (mkMeta (present m) (hasBudget m) (budget m) (Caller opts) (Trace opts)))).
    { intros f m Hm Hm'. unfold t2. destruct (Z.eqb_spec (Caller opts) 0) as [->|]; cbn [negb app].
      - rewrite E3 by done. by rewrite Hm.
      - unfold tlv. cbn [app]. erewrite parse_tlvs_cons; [|rewrite length_le_put; lia|].
        2:{ unfold apply_tag. rewrite length_le_put. reflexivity. }
        rewrite E3 by done. simpl.
        do 3 f_equal. apply (byte_le_put8 (Caller opts)). exact Hc. }
    destruct (Z.ltb_spec 0 b).
    - unfold tlv. cbn [app]. erewrite parse_tlvs_cons; [|rewrite length_le_put; lia|].
      2:{ unfold apply_tag. rewrite length_le_put. reflexivity. }
      rewrite E2 by done. cbn [present hasBudget budget caller trace]. do 3 f_equal.
      rewrite (byte_le_put8 (u64 b)) by apply u64_range. rewrite u64_small by (unfold word; lia).
      unfold max_int. lia.
    - cbn [app]. rewrite E2 by done. simpl. do 3 f_equal. lia. }
  destruct H3 as [f E].
  destruct (parse_tlvs_total fuel (tlvs_of b opts) (mkMeta true false 0 0 zero_trace) Hf) as [r Er].
  pose proof (parse_tlvs_more _ _ _ _ (f + fuel) E ltac:(lia)) as E1.
  pose proof (parse_tlvs_more _ _ _ _ (f + fuel) Er ltac:(lia)) as E2. congruence.
Qed.

(** The block is read back whatever follows it. *)
Lemma parseMeta_block b opts payload :
  b < 2 ^ 63 -> word 64 (Caller opts) -> length (Trace opts) = 16%nat ->
  parseMeta ((le_put 2 (Z.of_nat (length (tlvs_of b opts))) ++ [0; 0] ++ tlvs_of b opts) ++ payload) =
  Some (Ok (mkMeta true (0 <? b) (Z.max 0 b) (Caller opts) (Trace opts), (4 + length (tlvs_of b opts))%nat)).
Proof.
  intros Hb Hc Ht. pose proof (length_tlvs_of b opts Ht) as Hlen.
  pose proof (parse_tlvs_of b opts (length (tlvs_of b opts)) Hb Hc Ht (le_n _)) as Hp.
  set (ts := tlvs_of b opts) in *. clearbody ts.
  unfold parseMeta. rewrite !length_app, length_le_put. change (length [0; 0]) with 2%nat.
  destruct (Nat.ltb_spec (2 + (2 + length ts) + length payload) metaHeaderSize); [unfold metaHeaderSize in *; lia|].
  rewrite <- !app_assoc, take_app_le, take_ge by (rewrite length_le_put; lia).
  rewrite le_get_put_word by (simpl; lia). rewrite Nat2Z.id. unfold metaHeaderSize.
  destruct (Nat.ltb_spec (2 + (2 + length ts) + length payload) (4 + length ts)); [lia|].
  assert (Es : slice 4 (4 + length ts) (le_put 2 (Z.of_nat (length ts)) ++ [0; 0] ++ ts ++ payload) = ts).
  { unfold slice. simpl drop. replace (4 + length ts - 4)%nat with (length ts) by lia. apply take_app_length. }
  cbv zeta. rewrite Es, Hp. done.
Qed.

(** ** Properties *)

(** Request metadata survives the trip: whatever payload follows, the parser
    reads back exactly the budget, caller and trace ID the sender encoded and
    finds the end of the block; the sender omits the block exactly when there
    is nothing to say. *)
Theorem meta_roundtrip (b : Z) (opts : CallOptions) (payload : bytes)
  (Hb : b < 2 ^ 63) (Hc : word 64 (Caller opts)) (Ht : length (Trace opts) = 16%nat) :
  match putMeta (replicate metaMaxBlock 0) b opts with
  | None => b <= 0 /\ Caller opts = 0 /\ Trace opts = zero_trace
  | Some block =>
      parseMeta (block ++ payload) =
        Some (Ok (mkMeta true (0 <? b) (Z.max 0 b) (Caller opts) (Trace opts), length block)) /\
      (length block <= metaMaxBlock)%nat
  end.
Proof.
  rewrite putMeta_layout by done. pose proof (length_tlvs_of b opts Ht) as Hlen.
  destruct (decide (tlvs_of b opts = [])) as [E|_].
  - unfold tlvs_of in E. apply app_eq_nil in E as [E1 [E2 E3]%app_eq_nil].
    destruct (Z.ltb_spec 0 b); [done|]. destruct (Z.eqb_spec (Caller opts) 0); [|done].
    destruct (decide (Trace opts = zero_trace)); done.
  - split; [|rewrite !length_app, length_le_put; unfold metaMaxBlock, metaHeaderSize; simpl; lia].
    rewrite parseMeta_block by done. by rewrite !length_app, length_le_put.
Qed.

Lemma meta_roundtrip_witness :
  match putMeta (replicate metaMaxBlock 0) 1500 (mkCallOptions 7 zero_trace) with
  | Some block => parseMeta (block ++ [1; 2; 3]) =
      Some (Ok (mkMeta true true 1500 7 zero_trace, 24%nat))
  | None => False
  end.
Proof.
  pose proof (meta_roundtrip 1500 (mkCallOptions 7 zero_trace) [1; 2; 3] ltac:(lia)
    ltac:(unfold word; simpl; lia) eq_refl) as H.
  destruct (putMeta _ _ _) as [block|] eqn:E; [|vm_compute in E; discriminate].
  vm_compute in E. injection E as <-. exact (proj1 H).
Defined.

(** The parser is total and stays inside the message: on any bytes it answers,
    and when it accepts, the block it strips lies within the message and the
    budget is a valid duration. *)
Theorem parseMeta_safe (data : bytes) (Hd : Forall is_byte data) :
  match parseMeta data with
  | None => False
  | Some (Err e) => e = ErrProtocol
  | Some (Ok (m, n)) =>
      (metaHeaderSize <= n <= length data)%nat /\ present m = true /\ 0 <= budget m <= max_int
  end.
Proof.
  unfold parseMeta. destruct (Nat.ltb_spec (length data) metaHeaderSize); [done|].
  set (e := (metaHeaderSize + _)%nat). destruct (Nat.ltb_spec (length data) e); [done|].
  set (t := slice metaHeaderSize e data).
  destruct (parse_tlvs_total (length t) t (mkMeta true false 0 0 zero_trace) (le_n _)) as [r Er].
  rewrite Er. destruct r as [m|err].
  - split; [unfold e; lia|]. split.
    + by apply parse_tlvs_present in Er.
    + apply (parse_tlvs_budget _ _ _ _ (Forall_take _ _ _ (Forall_drop _ _ _ Hd))) in Er; [done|].
      simpl. unfold max_int. lia.
  - by apply parse_tlvs_err in Er.
Qed.

Lemma parseMeta_safe_witness :
  parseMeta [6; 0; 0; 0; 9; 4; 0; 0] = Some (Err ErrProtocol) /\
  match parseMeta [3; 0; 0; 0; 9; 1; 5; 77] with
  | Some (Ok (m, n)) => (metaHeaderSize <= n <= 8)%nat /\ present m = true /\ 0 <= budget m <= max_int
  | _ => False
  end.
Proof.
  split; [reflexivity|].
  assert (Hd : Forall is_byte [3; 0; 0; 0; 9; 1; 5; 77]) by (repeat constructor; unfold is_byte; lia).
  pose proof (parseMeta_safe [3; 0; 0; 0; 9; 1; 5; 77] Hd) as H.
  destruct (parseMeta [3; 0; 0; 0; 9; 1; 5; 77]) as [[[m n]|e]|] eqn:E;
    [exact H|vm_compute in E; discriminate|vm_compute in E; discriminate].
Defined.
