(* ===== verification/Message.v ===== *)
(** * Message: pooled message buffers

    Models message.go: the header of an advanced message, the [Message] with
    its backing buffer, the size classes of [msgPool], and [stripMeta] of
    advanced_request.go. A buffer taken from the pool is a recycled one: its
    contents are arbitrary, only its length is known. *)
From S2P Require Import Prelude Errors Meta.

Definition minMessageClass : Z := 6.

(** ** Flags (advanced.go) *)

Definition AdvFlagBegin : Z := 1.
Definition AdvFlagEnd : Z := 2.
Definition AdvFlagAbort : Z := 4.
Definition AdvFlagRequest : Z := 8.
Definition AdvFlagResponse : Z := 16.
Definition AdvFlagError : Z := 32.
Definition AdvFlagMeta : Z := 64.
Definition advancedKnownFlags : Z :=
  Z.lor AdvFlagBegin (Z.lor AdvFlagEnd (Z.lor AdvFlagAbort
    (Z.lor AdvFlagRequest (Z.lor AdvFlagResponse AdvFlagError)))).

Record advHeader := mkHeader { streamID : Z; messageID : Z; hflags : Z; haux : Z }.

Definition zero_header : advHeader := mkHeader 0 0 0 0.

Definition isRequest (h : advHeader) : bool := has_bits (hflags h) AdvFlagRequest.
Definition isResponse (h : advHeader) : bool := has_bits (hflags h) AdvFlagResponse.
Definition isError (h : advHeader) : bool := has_bits (hflags h) AdvFlagError.
Definition isAbort (h : advHeader) : bool := has_bits (hflags h) AdvFlagAbort.

(** [Message], with the fields of the receive path. *)
Record Message := mkMsg {
  m_hdr : advHeader;
  m_data : bytes;       (* backing buffer: as long as its size class *)
  m_off : nat;
  m_n : nat;
  m_class : Z;
  m_meta : msgMeta;
  m_recvAt : Z
}.

Definition Bytes (m : Message) : bytes := slice (m_off m) (m_off m + m_n m) (m_data m).

Definition Len (m : Message) : nat := m_n m.

(** [Release]: what goes back to the pool. *)
Definition Release (m : Message) : Message :=
  mkMsg zero_header (m_data m) 0 0 (m_class m) (if present (m_meta m) then no_meta else m_meta m) (m_recvAt m).

(** ** The pool *)

(** [bits.Len64] *)
Definition Len64 (x : Z) : Z := if x =? 0 then 0 else Z.log2 x + 1.

Definition classOf (n : Z) : Z :=
  if n <=? 2 ^ minMessageClass then 0 else Len64 (n - 1) - minMessageClass.

(** [newMsgPool]: the number of classes. *)
Definition pool_classes (maxSize : Z) : Z := classOf (Z.min maxSize max_int) + 1.

Definition classSize (maxSize c : Z) : Z := Z.min (u64 (Z.shiftl 1 (c + minMessageClass))) maxSize.

(** [get]: [recycle c] is the buffer class [c] hands out; [None] is an index
    out of range. *)
Definition get (maxSize : Z) (recycle : Z -> bytes) (n : Z) : option Message :=
  let c := classOf n in
  if (0 <=? c) && (c <? pool_classes maxSize)
  then Some (mkMsg zero_header (recycle c) 0 (Z.to_nat n) c no_meta 0)
  else None.

(** [stripMeta] *)
Definition stripMeta (m : Message) (recvAt : Z) : result error Message :=
  match parseMeta (take (m_n m) (m_data m)) with
  | Some (Ok (meta, n)) =>
      Ok (mkMsg (m_hdr m) (m_data m) n (m_n m - n) (m_class m) meta recvAt)
  | Some (Err e) => Err e
  | None => Err ErrProtocol
  end.

(** ** Lemmas *)

Lemma Len64_bounds x : 0 < x -> 2 ^ (Len64 x - 1) <= x < 2 ^ Len64 x.
Proof.
  intros H. unfold Len64. destruct (Z.eqb_spec x 0); [lia|].
  replace (Z.log2 x + 1 - 1) with (Z.log2 x) by lia. apply Z.log2_spec. lia.
Qed.

Lemma classOf_nonneg n : 0 <= n -> 0 <= classOf n.
Proof.
  intros H. unfold classOf, minMessageClass. destruct (Z.leb_spec n (2 ^ 6)); [lia|].
  destruct (Len64_bounds (n - 1)) as [_ Hu]; [lia|].
  destruct (Z.lt_ge_cases (Len64 (n - 1)) 6) as [Hl|]; [|lia].
  assert (2 ^ Len64 (n - 1) <= 2 ^ 6); [|lia].
  apply Z.pow_le_mono_r; lia.
Qed.

Lemma Len64_mono x y : 0 <= x <= y -> Len64 x <= Len64 y.
Proof.
  intros H. unfold Len64. destruct (Z.eqb_spec x 0), (Z.eqb_spec y 0); try lia.
  - pose proof (Z.log2_nonneg y). lia.
  - pose proof (Z.log2_le_mono x y). lia.
Qed.

Lemma classOf_mono n m : 0 <= n <= m -> classOf n <= classOf m.
Proof.
  intros H. pose proof (classOf_nonneg m ltac:(lia)) as Hm. unfold classOf in *.
  destruct (Z.leb_spec n (2 ^ minMessageClass)), (Z.leb_spec m (2 ^ minMessageClass)); try lia.
  pose proof (Len64_mono (n - 1) (m - 1)). unfold minMessageClass in *. lia.
Qed.

(** The class of [n] holds [n] bytes and wastes less than half of itself. *)
Lemma classOf_size n :
  0 <= n <= max_int -> n <= 2 ^ (classOf n + 6) < Z.max 128 (2 * n) /\ classOf n + 6 <= 63.
Proof.
  intros H. unfold max_int in H. unfold classOf, minMessageClass. destruct (Z.leb_spec n (2 ^ 6)).
  - simpl. lia.
  - replace (Len64 (n - 1) - 6 + 6) with (Len64 (n - 1)) by lia.
    destruct (Len64_bounds (n - 1)) as [Hlo Hhi]; [lia|].
    assert (Hp : 1 <= Len64 (n - 1)).
    { unfold Len64. destruct (Z.eqb_spec (n - 1) 0); [lia|]. pose proof (Z.log2_nonneg (n - 1)). lia. }
    assert (E : 2 ^ Len64 (n - 1) = 2 * 2 ^ (Len64 (n - 1) - 1)).
    { rewrite <- Z.pow_succ_r by lia. f_equal. lia. }
    split; [lia|]. unfold Len64. destruct (Z.eqb_spec (n - 1) 0); [lia|].
    assert (Z.log2 (n - 1) < 63); [|lia]. apply Z.log2_lt_pow2; lia.
Qed.

Lemma classSize_fits maxSize n :
  0 <= n <= maxSize -> n <= max_int -> n <= classSize maxSize (classOf n).
Proof.
  intros Hn Hi. destruct (classOf_size n) as [[Hf _] H63]; [lia|].
  pose proof (classOf_nonneg n ltac:(lia)). unfold classSize. rewrite Z.shiftl_1_l.
  change minMessageClass with 6. rewrite u64_small; [lia|].
  split; [apply Z.pow_nonneg; lia|]. apply Z.pow_lt_mono_r; lia.
Qed.

Lemma get_ok maxSize recycle n :
  0 <= n <= maxSize -> n <= max_int ->
  get maxSize recycle n = Some (mkMsg zero_header (recycle (classOf n)) 0 (Z.to_nat n) (classOf n) no_meta 0).
Proof.
  intros Hn Hi. unfold get, pool_classes.
  pose proof (classOf_nonneg n ltac:(lia)). pose proof (classOf_mono n (Z.min maxSize max_int) ltac:(lia)).
  rewrite (proj2 (Z.leb_le _ _)), (proj2 (Z.ltb_lt _ _)) by lia. done.
Qed.

(** ** Property *)

(** The pool hands out a buffer that holds the message: for every size up to
    the maximum the class index is in range, the class's buffers hold at least
    that many bytes, less than twice as many unless the message is tiny, and
    never more than the maximum. *)
Theorem msgPool_get_fits (maxSize n : Z) (recycle : Z -> bytes)
  (Hn : 0 <= n <= maxSize) (Hi : n <= max_int)
  (Hr : forall c, 0 <= c < pool_classes maxSize -> Z.of_nat (length (recycle c)) = classSize maxSize c) :
  exists m, get maxSize recycle n = Some m /\ Z.of_nat (Len m) = n /\
    n <= Z.of_nat (length (m_data m)) <= maxSize /\ Z.of_nat (length (m_data m)) < Z.max 128 (2 * n).
Proof.
  eexists. split; [by apply get_ok|]. simpl. split; [lia|].
  pose proof (classOf_nonneg n ltac:(lia)). pose proof (classOf_mono n (Z.min maxSize max_int) ltac:(lia)).
  rewrite Hr by (unfold pool_classes; lia).
  pose proof (classSize_fits maxSize n Hn Hi). destruct (classOf_size n) as [[_ Hw] H63]; [lia|].
  split; [unfold classSize in *; lia|]. unfold classSize. rewrite Z.shiftl_1_l. change minMessageClass with 6.
  rewrite u64_small; [lia|]. split; [apply Z.pow_nonneg; lia|apply Z.pow_lt_mono_r; lia].
Qed.

Lemma msgPool_get_fits_witness :
  let recycle c := replicate (Z.to_nat (classSize 1000 c)) 7 in
  exists m, get 1000 recycle 100 = Some m /\ Z.of_nat (Len m) = 100 /\
    100 <= Z.of_nat (length (m_data m)) <= 1000 /\ Z.of_nat (length (m_data m)) < Z.max 128 (2 * 100).
Proof.
  intros recycle. apply (msgPool_get_fits 1000 100 recycle); [lia|unfold max_int; lia|].
  intros c Hc. unfold recycle. rewrite length_replicate. apply Z2Nat.id.
  unfold classSize. pose proof (u64_range (Z.shiftl 1 (c + minMessageClass))) as H. unfold word in H. lia.
Defined.
