(* ===== verification/Assembly.v ===== *)
(** * Assembly: reassembling advanced messages from chunks

    Models the receive path of advanced_io.go: [consumeAdvancedChunk] with
    [dropAssembly], [reclaimIdle], [reclaim], [rejectMessage] and
    [forgetRejected]. The peer is untrusted: the chunk header words and the
    buffer are arbitrary. Go's map iteration order in [reclaimIdle] is a
    parameter ([order]); so are the contents of recycled message buffers
    ([recycle]) and the clock ([now]). *)
From S2P Require Import Prelude Errors Protocol Meta Message.

Definition advancedAssemblyOverhead : Z := 256.
Definition maxRejectedMessages : nat := 1024.
Definition advancedAssemblyIdleChunks : Z := 2 ^ 16.
Definition FeatureMetadata : Z := 8.

(** [advancedMessageKey]: connection, message, kind. *)
Abbreviation advancedMessageKey := (Z * Z * Z)%type.

(** [advancedAssembly] *)
Record advancedAssembly := mkAsm {
  a_hdr : advHeader;
  a_msg : Message;
  a_size : Z;
  a_next : Z;
  a_seen : Z;
  a_recvAt : Z
}.

Definition charge (a : advancedAssembly) : Z := u64 (a_size a + advancedAssemblyOverhead).

(** The fields of [AdvancedLink] guarded by receiveMu, and its limits. *)
Record rx := mkRx {
  assemblies : gmap advancedMessageKey advancedAssembly;
  assemblyBytes : Z;
  rejected : gset advancedMessageKey;
  rejectedOrder : list advancedMessageKey;
  rejectedEvicted : bool;
  chunks : Z;
  chunksAtSweep : Z;
  reclaimed : list advHeader;
  droppedMessages : Z
}.

Record limits := mkLimits {
  maxReassemblyBytes : Z;
  maxMessageSize : Z;
  features : Z            (* the negotiated feature bits *)
}.

Definition new_rx : rx := mkRx ∅ 0 ∅ [] false 0 0 [] 0.

(** ** Rejected messages *)

Definition isRejected (l : rx) (key : advancedMessageKey) : bool := bool_decide (key ∈ rejected l).

Definition rejectMessage (l : rx) (key : advancedMessageKey) : rx :=
  let '(rj, ord, ev) :=
    if (maxRejectedMessages <=? length (rejectedOrder l))%nat then
      match rejectedOrder l with
      | k0 :: rest => (rejected l ∖ {[k0]}, rest, true)
      | [] => (rejected l, [], true)
      end
    else (rejected l, rejectedOrder l, rejectedEvicted l) in
  mkRx (assemblies l) (assemblyBytes l) ({[key]} ∪ rj) (ord ++ [key]) ev
    (chunks l) (chunksAtSweep l) (reclaimed l) (droppedMessages l).

(** [slices.Index] and [slices.Delete] of one element *)
Fixpoint delete_first (key : advancedMessageKey) (l : list advancedMessageKey) : list advancedMessageKey :=
  match l with
  | [] => []
  | k :: rest => if decide (k = key) then rest else k :: delete_first key rest
  end.

Definition forgetRejected (l : rx) (key : advancedMessageKey) : rx * bool :=
  if negb (isRejected l key) then (l, false)
  else (mkRx (assemblies l) (assemblyBytes l) (rejected l ∖ {[key]}) (delete_first key (rejectedOrder l))
          (rejectedEvicted l) (chunks l) (chunksAtSweep l) (reclaimed l) (droppedMessages l), true).

(** ** Assemblies *)

Definition dropAssembly (l : rx) (key : advancedMessageKey) : rx :=
  match assemblies l !! key with
  | None => l
  | Some a =>
      mkRx (delete key (assemblies l)) (u64 (assemblyBytes l - charge a)) (rejected l) (rejectedOrder l)
        (rejectedEvicted l) (chunks l) (chunksAtSweep l) (reclaimed l) (droppedMessages l)
  end.

Definition reclaim (l : rx) (key : advancedMessageKey) (a : advancedAssembly) : rx :=
  let hdr := mkHeader (streamID (a_hdr a)) (messageID (a_hdr a)) (Z.lor (hflags (a_hdr a)) AdvFlagAbort)
               (haux (a_hdr a)) in
  let l := rejectMessage (dropAssembly l key) key in
  mkRx (assemblies l) (assemblyBytes l) (rejected l) (rejectedOrder l) (rejectedEvicted l)
    (chunks l) (chunksAtSweep l)
    (if isRequest hdr || isResponse hdr then reclaimed l ++ [hdr] else reclaimed l)
    (droppedMessages l + 1).

(** The sweep of [reclaimIdle] over the map in iteration order [order]. *)
Fixpoint sweep (lim : limits) (chg : Z) (order : list advancedMessageKey) (l : rx) : rx :=
  match order with
  | [] => l
  | key :: rest =>
      match assemblies l !! key with
      | None => sweep lim chg rest l
      | Some a =>
          if assemblyBytes l <=? maxReassemblyBytes lim - chg then l
          else
            sweep lim chg rest
              (if advancedAssemblyIdleChunks <=? u64 (chunks l - a_seen a) then reclaim l key a else l)
      end
  end.

Definition reclaimIdle (lim : limits) (order : list advancedMessageKey) (l : rx) (chg : Z) : rx :=
  if (maxReassemblyBytes lim <? chg) || (assemblyBytes l <=? maxReassemblyBytes lim - chg) then l
  else if u64 (chunks l - chunksAtSweep l) <? Z.max advancedAssemblyIdleChunks (Z.of_nat (size (assemblies l))) then l
  else
    sweep lim chg order
      (mkRx (assemblies l) (assemblyBytes l) (rejected l) (rejectedOrder l) (rejectedEvicted l)
         (chunks l) (chunks l) (reclaimed l) (droppedMessages l)).

(** ** One chunk *)

(** The header words of an OpConnCopy frame. *)
Record chunk := mkChunk {
  c_conn : Z; c_msg : Z; c_total : Z; c_offset : Z; c_size : Z; c_flags : Z; c_aux : Z
}.

Definition chunk_of (p : Packet) : chunk :=
  mkChunk (Operand p 0) (Operand p 1) (Operand p 2) (Operand p 3) (Operand p 4) (Operand p 5) (Operand p 6).

Definition kind_of (flags : Z) : Z := Z.land flags (Z.lor AdvFlagRequest AdvFlagResponse).

Definition chunk_key (c : chunk) : advancedMessageKey := (c_conn c, c_msg c, kind_of (c_flags c)).

Definition begin_end : Z := Z.lor AdvFlagBegin AdvFlagEnd.

(** [flags &^ known != 0 || ...] *)
Definition flags_bad (lim : limits) (flags : Z) : bool :=
  let known := if has_bits (features lim) FeatureMetadata
               then Z.lor advancedKnownFlags AdvFlagMeta else advancedKnownFlags in
  negb (and_not flags known =? 0)
  || (has_bits flags AdvFlagRequest && has_bits flags AdvFlagResponse)
  || (has_bits flags AdvFlagError && negb (has_bits flags AdvFlagResponse))
  || (has_bits flags AdvFlagMeta && negb (has_bits flags AdvFlagRequest)).

(** The size checks in front of the assembly, in the order of the switch. *)
Definition size_error (lim : limits) (c : chunk) (buffer : bytes) : option error :=
  if (Z.of_nat (length buffer) <? c_size c) || (c_total c <? c_offset c)
     || (u64 (c_total c - c_offset c) <? c_size c) then Some ErrInvalidSize
  else if (0 <? maxMessageSize lim) && (maxMessageSize lim <? c_total c) then Some ErrBufferOverflow
  else if (c_total c =? 0)
       && (negb (c_offset c =? 0) || negb (c_size c =? 0) || negb (Z.land (c_flags c) begin_end =? begin_end))
    then Some ErrInvalidSize
  else if (0 <? c_total c) && (c_size c =? 0) then Some ErrInvalidSize
  else if negb (c_offset c =? 0) && negb (c_aux c =? 0) then Some ErrInvalidSize
  else if max_int <? c_total c then Some ErrBufferOverflow
  else None.

(** What [consumeAdvancedChunk] returns. *)
Inductive outcome :=
| Partial
| Complete (m : Message)
| Aborted (h : advHeader)
| Refused (h : advHeader)
| Failed (e : error).

Definition fail (l : rx) (key : advancedMessageKey) (e : error) : rx * outcome :=
  ((forgetRejected (dropAssembly l key) key).1, Failed e).

(** A complete message: its metadata block is stripped if it has one. *)
Definition finish (m : Message) (recvAt : Z) : outcome :=
  if has_bits (hflags (m_hdr m)) AdvFlagMeta then
    match stripMeta m recvAt with Ok m' => Complete m' | Err e => Failed e end
  else Complete m.

Definition set_hdr (h : advHeader) (m : Message) : Message :=
  mkMsg h (m_data m) (m_off m) (m_n m) (m_class m) (m_meta m) (m_recvAt m).

Definition set_data (d : bytes) (m : Message) : Message :=
  mkMsg (m_hdr m) d (m_off m) (m_n m) (m_class m) (m_meta m) (m_recvAt m).

(** The tail of [consumeAdvancedChunk] from [assembly.seen = l.chunks] on. *)
Definition add_chunk (l : rx) (c : chunk) (buffer : bytes) (a : advancedAssembly) : rx * outcome :=
  let key := chunk_key c in
  let put a := mkRx (<[key := a]> (assemblies l)) (assemblyBytes l) (rejected l) (rejectedOrder l)
                 (rejectedEvicted l) (chunks l) (chunksAtSweep l) (reclaimed l) (droppedMessages l) in
  let a := mkAsm (a_hdr a) (a_msg a) (a_size a) (a_next a) (chunks l) (a_recvAt a) in
  if negb (c_offset c =? a_next a) || negb (a_size a =? c_total c) then fail (put a) key ErrInvalidSize
  else
    let d := blit (Z.to_nat (c_offset c)) (take (Z.to_nat (c_size c)) buffer) (m_data (a_msg a)) in
    let a := mkAsm (a_hdr a) (set_data d (a_msg a)) (a_size a) (u64 (a_next a + c_size c)) (a_seen a) (a_recvAt a) in
    if negb (has_bits (c_flags c) AdvFlagEnd) then (put a, Partial)
    else if negb (a_next a =? c_total c) then fail (put a) key ErrInvalidSize
    else
      let h := a_hdr a in
      let m := set_hdr (mkHeader (streamID h) (messageID h) (Z.lor (hflags h) begin_end) (haux h)) (a_msg a) in
      (dropAssembly (put a) key, finish m (a_recvAt a)).

Definition consumeAdvancedChunk (lim : limits) (recycle : Z -> bytes) (order : list advancedMessageKey) (now : Z)
    (l : rx) (c : chunk) (buffer : bytes) : option (rx * outcome) :=
  let l := mkRx (assemblies l) (assemblyBytes l) (rejected l) (rejectedOrder l) (rejectedEvicted l)
             (u64 (chunks l + 1)) (chunksAtSweep l) (reclaimed l) (droppedMessages l) in
  let flags := c_flags c in
  let key := chunk_key c in
  if flags_bad lim flags then Some (l, Failed ErrProtocol)
  else if has_bits flags AdvFlagAbort then
    let (l, known) := forgetRejected (dropAssembly l key) key in
    Some (l, if known then Partial else Aborted (mkHeader (c_conn c) (c_msg c) flags (c_aux c)))
  else
    match size_error lim c buffer with
    | Some e => Some (fail l key e)
    | None =>
        let asm := assemblies l !! key in
        if has_bits flags AdvFlagBegin then
          if negb (c_offset c =? 0) || bool_decide (is_Some asm) || isRejected l key
          then Some (fail l key ErrInvalidSize)
          else if has_bits flags AdvFlagEnd then
            if negb (c_size c =? c_total c) then Some (fail l key ErrInvalidSize)
            else
              m ← get (maxMessageSize lim) recycle (c_total c);
              let m := set_hdr (mkHeader (c_conn c) (c_msg c) flags (c_aux c)) m in
              let m := set_data (copy_to (m_data m) (take (Z.to_nat (c_size c)) buffer)) m in
              Some (l, finish m now)
          else
            let header := mkHeader (c_conn c) (c_msg c) (and_not flags begin_end) (c_aux c) in
            let chg := u64 (c_total c + advancedAssemblyOverhead) in
            let l := reclaimIdle lim order l chg in
            if (maxReassemblyBytes lim <? chg) || (maxReassemblyBytes lim - chg <? assemblyBytes l) then
              Some (rejectMessage l key,
                    Refused (mkHeader (c_conn c) (c_msg c) (Z.lor (and_not flags begin_end) AdvFlagAbort) (c_aux c)))
            else
              m ← get (maxMessageSize lim) recycle (c_total c);
              let a := mkAsm header m (c_total c) 0 0 (if has_bits flags AdvFlagMeta then now else 0) in
              let l := mkRx (<[key := a]> (assemblies l)) (u64 (assemblyBytes l + chg)) (rejected l) (rejectedOrder l)
                         (rejectedEvicted l) (chunks l) (chunksAtSweep l) (reclaimed l) (droppedMessages l) in
              Some (add_chunk l c buffer a)
        else
          match asm with
          | Some a => Some (add_chunk l c buffer a)
          | None =>
              if isRejected l key || rejectedEvicted l then
                Some (if has_bits flags AdvFlagEnd then (forgetRejected l key).1 else l, Partial)
              else Some (l, Failed ErrProtocol)
          end
    end.

(** ** Invariant *)

Definition lim_ok (lim : limits) : Prop := 0 < maxMessageSize lim /\ word 64 (maxReassemblyBytes lim).

Definition chunk_ok (c : chunk) : Prop :=
  word 64 (c_total c) /\ word 64 (c_offset c) /\ word 64 (c_size c) /\ 0 <= c_flags c.

Definition recycle_ok (lim : limits) (recycle : Z -> bytes) : Prop :=
  forall c, 0 <= c < pool_classes (maxMessageSize lim) ->
    Z.of_nat (length (recycle c)) = classSize (maxMessageSize lim) c.

(** The bytes charged by a set of assemblies. *)
Definition charged (m : gmap advancedMessageKey advancedAssembly) : Z := map_fold (fun _ a s => charge a + s) 0 m.

Record asm_ok (lim : limits) (key : advancedMessageKey) (a : advancedAssembly) : Prop := {
  asm_size : 0 <= a_size a <= max_int /\ a_size a <= maxMessageSize lim;
  asm_key : key = (streamID (a_hdr a), messageID (a_hdr a), kind_of (hflags (a_hdr a)));
  asm_next : 0 <= a_next a <= a_size a;
  asm_n : m_n (a_msg a) = Z.to_nat (a_size a) /\ m_off (a_msg a) = 0%nat;
  asm_data : a_size a <= Z.of_nat (length (m_data (a_msg a)))
}.

Record wf (lim : limits) (l : rx) : Prop := {
  wf_bytes : assemblyBytes l = charged (assemblies l);
  wf_limit : assemblyBytes l <= maxReassemblyBytes lim;
  wf_asm : map_Forall (asm_ok lim) (assemblies l);
  wf_rej : forall k, k ∈ rejected l <-> k ∈ rejectedOrder l;
  wf_nodup : NoDup (rejectedOrder l);
  wf_rejlen : (length (rejectedOrder l) <= maxRejectedMessages)%nat;
  wf_disj : forall k, k ∈ rejected l -> assemblies l !! k = None
}.

(** *** Charges *)

Lemma charged_insert m k a : m !! k = None -> charged (<[k := a]> m) = charge a + charged m.
Proof. intros H. unfold charged. apply (map_fold_insert_L (fun _ a s => charge a + s) 0 k a m); [|done]. intros. lia. Qed.

Lemma charged_delete m k a : m !! k = Some a -> charged m = charge a + charged (delete k m).
Proof. intros H. rewrite <- (insert_delete_id m k a H) at 1. apply charged_insert. apply lookup_delete_eq. Qed.

Lemma charged_update m k a a' : m !! k = Some a -> charge a' = charge a -> charged (<[k := a']> m) = charged m.
Proof.
  intros H E. rewrite <- insert_delete_eq. rewrite charged_insert by apply lookup_delete_eq.
  rewrite E. symmetry. by apply charged_delete.
Qed.

Lemma charged_nonneg m : 0 <= charged m.
Proof.
  unfold charged. apply (map_fold_weak_ind (fun s _ => 0 <= s)); [done|].
  intros i a m' s _ Hs. pose proof (u64_range (a_size a + advancedAssemblyOverhead)) as H.
  unfold charge, word in *. lia.
Qed.

Lemma charge_size lim k a : asm_ok lim k a -> charge a = a_size a + 256.
Proof. intros H. pose proof (asm_size _ _ _ H). unfold charge, advancedAssemblyOverhead, max_int in *. apply u64_small. unfold word. lia. Qed.

(** Every incomplete message is charged at least its bookkeeping. *)
Lemma charged_count lim m : map_Forall (asm_ok lim) m -> 256 * Z.of_nat (size m) <= charged m.
Proof.
  induction m as [|k a m Hk IH] using map_ind; intros H.
  - unfold charged. rewrite map_size_empty, map_fold_empty. lia.
  - rewrite charged_insert, map_size_insert_None by done. apply map_Forall_insert in H as [Ha H]; [|done].
    rewrite (charge_size lim k a Ha). pose proof (asm_size _ _ _ Ha). specialize (IH H). lia.
Qed.

(** *** Rejections *)

Lemma delete_first_spec key l : NoDup l -> NoDup (delete_first key l) /\
  (forall k, k ∈ delete_first key l <-> k ∈ l /\ k <> key) /\ (length (delete_first key l) <= length l)%nat.
Proof.
  induction l as [|x l IH]; simpl; intros Hnd.
  - split_and!; [done| |lia]. intros k. rewrite elem_of_nil. tauto.
  - apply list.NoDup_cons in Hnd as [Hx Hnd]. destruct (IH Hnd) as (Hn & Hin & Hl).
    destruct (decide (x = key)) as [->|Hne].
    + split_and!; [done| |lia]. intros k. rewrite elem_of_cons. split; [|intuition congruence].
      intros Hk. split; [by right|]. intros ->. done.
    + split_and!; [| |simpl; lia].
      * apply list.NoDup_cons. split; [|done]. rewrite Hin. tauto.
      * intros k. rewrite !elem_of_cons, Hin. intuition congruence.
Qed.

(** Everything but the rejection fields. *)
Definition same_asm (l l' : rx) : Prop :=
  assemblies l' = assemblies l /\ assemblyBytes l' = assemblyBytes l.

Lemma wf_rejectMessage lim l key :
  wf lim l -> key ∉ rejected l -> assemblies l !! key = None -> wf lim (rejectMessage l key).
Proof.
  intros [] Hk Ha. unfold rejectMessage.
  assert (Hko : key ∉ rejectedOrder l) by (by rewrite <- wf_rej0).
  destruct (Nat.leb_spec maxRejectedMessages (length (rejectedOrder l))) as [Hle|Hlt].
  - destruct (rejectedOrder l) as [|k0 rest] eqn:Eo; [unfold maxRejectedMessages in *; simpl in *; lia|].
    apply list.NoDup_cons in wf_nodup0 as [H0 Hnd].
    constructor; simpl; try done.
    + intros k. rewrite elem_of_union, elem_of_difference, !elem_of_singleton, elem_of_app, list_elem_of_singleton, wf_rej0, elem_of_cons.
      split; [intuition congruence|]. intros [Hr|Hr]; [|by left]. right. split; [by right|]. intros ->. done.
    + apply list.NoDup_app. split_and!; [done| |apply NoDup_singleton].
      intros k Hkr ->%list_elem_of_singleton. apply Hko. by right.
    + rewrite length_app. simpl in *. lia.
    + intros k. rewrite elem_of_union, elem_of_difference, !elem_of_singleton. intros [->|[Hr _]]; auto.
  - constructor; simpl; try done.
    + intros k. rewrite elem_of_union, elem_of_singleton, elem_of_app, list_elem_of_singleton, wf_rej0. tauto.
    + apply list.NoDup_app. split_and!; [done| |apply NoDup_singleton].
      intros k Hkr ->%list_elem_of_singleton. done.
    + rewrite length_app. simpl. lia.
    + intros k. rewrite elem_of_union, elem_of_singleton. intros [->|Hr]; auto.
Qed.

Lemma rejectMessage_asm l key :
  assemblies (rejectMessage l key) = assemblies l /\ chunks (rejectMessage l key) = chunks l.
Proof. unfold rejectMessage. destruct (_ <=? _)%nat; [destruct (rejectedOrder l)|]; done. Qed.

Lemma rejectMessage_subset l key k : k ∈ rejected (rejectMessage l key) -> k = key \/ k ∈ rejected l.
Proof.
  unfold rejectMessage. destruct (_ <=? _)%nat; [destruct (rejectedOrder l)|]; simpl;
    rewrite elem_of_union, elem_of_singleton, ?elem_of_difference; tauto.
Qed.

Lemma wf_forgetRejected lim l key : wf lim l -> wf lim (forgetRejected l key).1.
Proof.
  intros H. unfold forgetRejected. destruct (negb (isRejected l key)); [done|]. destruct H.
  destruct (delete_first_spec key (rejectedOrder l) wf_nodup0) as (Hn & Hin & Hl).
  constructor; simpl; try done; try lia.
  - intros k. rewrite elem_of_difference, elem_of_singleton, Hin, wf_rej0. tauto.
  - intros k. rewrite elem_of_difference. intros [Hr _]. auto.
Qed.

Lemma wf_dropAssembly lim l key : lim_ok lim -> wf lim l -> wf lim (dropAssembly l key).
Proof.
  intros [_ Hm] H. unfold dropAssembly. destruct (assemblies l !! key) as [a|] eqn:E; [|done]. destruct H.
  pose proof (charged_delete _ _ _ E) as Hc. pose proof (charged_nonneg (delete key (assemblies l))) as Hn.
  assert (0 <= charge a) by (apply u64_range).
  unfold word in Hm. assert (Eb : u64 (assemblyBytes l - charge a) = charged (delete key (assemblies l))).
  { rewrite u64_small by (unfold word; lia). lia. }
  constructor; simpl; try done.
  - lia.
  - by apply map_Forall_delete.
  - intros k Hk. rewrite lookup_delete_None. auto.
Qed.

Lemma dropAssembly_lookup l key : assemblies (dropAssembly l key) !! key = None.
Proof. unfold dropAssembly. destruct (assemblies l !! key) eqn:E; simpl; [apply lookup_delete_eq|done]. Qed.

Lemma dropAssembly_rejected l key : rejected (dropAssembly l key) = rejected l.
Proof. unfold dropAssembly. by destruct (assemblies l !! key). Qed.

Lemma wf_fail lim l key e : lim_ok lim -> wf lim l -> wf lim (fail l key e).1.
Proof. intros Hl H. simpl. by apply wf_forgetRejected, wf_dropAssembly. Qed.

(** Counters and reports do not matter. *)
Lemma wf_counters lim l ch cs rc dr :
  wf lim l -> wf lim (mkRx (assemblies l) (assemblyBytes l) (rejected l) (rejectedOrder l) (rejectedEvicted l) ch cs rc dr).
Proof. by intros []. Qed.

Lemma wf_reclaim lim l key a :
  lim_ok lim -> wf lim l -> assemblies l !! key = Some a -> wf lim (reclaim l key a).
Proof.
  intros Hl H E. unfold reclaim. apply wf_counters. apply wf_rejectMessage.
  - by apply wf_dropAssembly.
  - rewrite dropAssembly_rejected. intros Hr. apply (wf_disj _ _ H) in Hr. congruence.
  - apply dropAssembly_lookup.
Qed.

Lemma wf_sweep lim chg order : forall l, lim_ok lim -> wf lim l -> wf lim (sweep lim chg order l).
Proof.
  induction order as [|key rest IH]; simpl; intros l Hl H; [done|].
  destruct (assemblies l !! key) as [a|] eqn:E; [|by apply IH].
  destruct (_ <=? _); [done|]. apply IH; [done|]. destruct (_ <=? _); [|done]. by apply wf_reclaim.
Qed.

Lemma wf_reclaimIdle lim order l chg : lim_ok lim -> wf lim l -> wf lim (reclaimIdle lim order l chg).
Proof.
  intros Hl H. unfold reclaimIdle. destruct (_ || _); [done|]. destruct (_ <? _); [done|].
  by apply wf_sweep, wf_counters.
Qed.

(** *** One chunk *)

Lemma size_error_None lim c buffer :
  lim_ok lim -> chunk_ok c -> size_error lim c buffer = None ->
  c_size c <= Z.of_nat (length buffer) /\ c_offset c + c_size c <= c_total c /\
  c_total c <= maxMessageSize lim /\ c_total c <= max_int /\ (0 < c_total c -> 0 < c_size c).
Proof.
  intros [Hm _] (Ht & Ho & Hs & _) E. unfold size_error in E. unfold word in *.
  destruct (_ || _ || _) eqn:E1; [done|]. destruct (_ && _) eqn:E2; [done|].
  destruct ((c_total c =? 0) && _) eqn:E3; [done|]. destruct ((0 <? c_total c) && _) eqn:E4; [done|].
  destruct (negb _ && negb _) eqn:E5; [done|]. destruct (max_int <? c_total c) eqn:E6; [done|].
  clear E3 E5 E. breflect. rewrite (proj2 (Z.ltb_lt 0 _)) in E2 by lia. simpl in E2. breflect.
  rewrite u64_small in * by (unfold word; lia). split_and!; lia.
Qed.

(** The data after a chunk was added. *)
Definition with_chunk (c : chunk) (buffer : bytes) (m : Message) : Message :=
  set_data (blit (Z.to_nat (c_offset c)) (take (Z.to_nat (c_size c)) buffer) (m_data m)) m.

Lemma wf_put lim l key a a' :
  wf lim l -> assemblies l !! key = Some a -> asm_ok lim key a' -> a_size a' = a_size a ->
  wf lim (mkRx (<[key := a']> (assemblies l)) (assemblyBytes l) (rejected l) (rejectedOrder l)
            (rejectedEvicted l) (chunks l) (chunksAtSweep l) (reclaimed l) (droppedMessages l)).
Proof.
  intros [] E Hok Es. constructor; simpl; try done.
  - rewrite wf_bytes0. symmetry. apply (charged_update _ _ a); [done|]. unfold charge. by rewrite Es.
  - by apply map_Forall_insert_2.
  - intros k Hk. pose proof (wf_disj0 k Hk). rewrite lookup_insert_ne; [done|]. intros <-. congruence.
Qed.

Lemma asm_ok_next lim key a c buffer :
  asm_ok lim key a -> c_offset c = a_next a -> a_size a = c_total c ->
  0 <= c_size c -> c_offset c + c_size c <= c_total c -> c_size c <= Z.of_nat (length buffer) ->
  asm_ok lim key (mkAsm (a_hdr a) (with_chunk c buffer (a_msg a)) (a_size a) (u64 (a_next a + c_size c))
                    (a_seen a) (a_recvAt a)).
Proof.
  intros [] Eo Es Hs Ht Hb. unfold max_int in *.
  constructor; simpl; try done.
  - rewrite u64_small by (unfold word; lia). lia.
  - rewrite length_blit; [done|]. rewrite length_take. lia.
Qed.

Lemma add_chunk_wf lim l c buffer a :
  lim_ok lim -> chunk_ok c -> size_error lim c buffer = None ->
  wf lim l -> assemblies l !! chunk_key c = Some a -> wf lim (add_chunk l c buffer a).1.
Proof.
  intros Hl Hc He H E. pose proof (size_error_None _ _ _ Hl Hc He) as (Hb & Hs & _ & _ & _).
  pose proof (wf_asm _ _ H _ _ E) as Ha. simpl in Ha. destruct Hc as (_ & _ & [Hcs _] & _).
  assert (Ha1 : asm_ok lim (chunk_key c) (mkAsm (a_hdr a) (a_msg a) (a_size a) (a_next a) (chunks l) (a_recvAt a)))
    by (destruct Ha; constructor; done).
  unfold add_chunk. cbn [a_next a_size a_hdr a_msg a_seen a_recvAt].
  destruct (negb _ || negb _) eqn:Eo.
  { apply wf_fail; [done|]. by eapply wf_put. }
  breflect.
  pose proof (asm_ok_next lim _ _ c buffer Ha1 ltac:(done) ltac:(done) Hcs Hs Hb) as Ha2.
  cbn [a_next a_size a_hdr a_msg a_seen a_recvAt] in Ha2.
  change (set_data (blit _ _ _) (a_msg a)) with (with_chunk c buffer (a_msg a)).
  pose proof (wf_put lim l _ _ _ H E Ha2 eq_refl) as Hw.
  destruct (negb (has_bits _ _)); [done|]. destruct (negb _).
  - by apply wf_fail.
  - by apply wf_dropAssembly.
Qed.

Lemma recycle_get lim recycle n :
  lim_ok lim -> recycle_ok lim recycle -> 0 <= n <= maxMessageSize lim -> n <= max_int ->
  exists m, get (maxMessageSize lim) recycle n = Some m /\ m_n m = Z.to_nat n /\ m_off m = 0%nat /\
    n <= Z.of_nat (length (m_data m)).
Proof.
  intros Hl Hr Hn Hi. eexists. split; [by apply get_ok|]. simpl. split_and!; [done..|].
  pose proof (classOf_nonneg n ltac:(lia)). pose proof (classOf_mono n (Z.min (maxMessageSize lim) max_int) ltac:(lia)).
  rewrite Hr by (unfold pool_classes; lia). by apply classSize_fits.
Qed.

Lemma kind_of_header flags : 0 <= flags -> kind_of (and_not flags begin_end) = kind_of flags.
Proof.
  intros H. unfold kind_of, and_not, begin_end. apply Z.bits_inj'. intros n Hn.
  rewrite !Z.land_spec, Z.ldiff_spec.
  change (Z.lor AdvFlagRequest AdvFlagResponse) with 24. change (Z.lor AdvFlagBegin AdvFlagEnd) with 3.
  destruct (Z.testbit 24 n) eqn:E24; [|by rewrite !andb_false_r]. rewrite !andb_true_r.
  assert (Hn' : n = 3 \/ n = 4).
  { destruct (decide (n < 5)); [|rewrite (Z.bits_above_log2 24 n) in E24 by (simpl; lia); done].
    assert (n = 0 \/ n = 1 \/ n = 2 \/ n = 3 \/ n = 4) as [->|[->|[->|[->| ->]]]] by lia; try (by left); try (by right); discriminate E24. }
  destruct Hn' as [-> | ->]; by rewrite andb_true_r.
Qed.

(** A message admitted into the budget. *)
Lemma wf_admit lim l key a :
  lim_ok lim -> wf lim l -> assemblies l !! key = None -> key ∉ rejected l -> asm_ok lim key a ->
  charge a <= maxReassemblyBytes lim -> assemblyBytes l <= maxReassemblyBytes lim - charge a ->
  wf lim (mkRx (<[key := a]> (assemblies l)) (u64 (assemblyBytes l + charge a)) (rejected l) (rejectedOrder l)
            (rejectedEvicted l) (chunks l) (chunksAtSweep l) (reclaimed l) (droppedMessages l)).
Proof.
  intros [_ Hm] [] Hn Hnr Hok Hc Hb. unfold word in Hm.
  pose proof (charged_nonneg (assemblies l)). assert (0 <= charge a) by apply u64_range.
  assert (Eb : u64 (assemblyBytes l + charge a) = charge a + charged (assemblies l))
    by (rewrite u64_small by (unfold word; lia); lia).
  constructor; simpl; try done.
  - by rewrite charged_insert.
  - lia.
  - by apply map_Forall_insert_2.
  - intros k Hk. rewrite lookup_insert_ne; [auto|]. by intros <-.
Qed.

(** Keys that are not being assembled stay so under reclamation; a key that is
    not rejected is only rejected if it was being assembled. *)
Lemma reclaimIdle_None lim order l chg key :
  assemblies l !! key = None -> key ∉ rejected l ->
  assemblies (reclaimIdle lim order l chg) !! key = None /\ key ∉ rejected (reclaimIdle lim order l chg).
Proof.
  unfold reclaimIdle. destruct (_ || _); [done|]. destruct (_ <? _); [done|].
  set (l0 := mkRx _ _ _ _ _ _ _ _ _). change (assemblies l) with (assemblies l0). change (rejected l) with (rejected l0).
  clearbody l0. clear l. revert l0. induction order as [|k rest IH]; simpl; intros l Hn Hr; [done|].
  destruct (assemblies l !! k) as [a|] eqn:E; [|by apply IH]. destruct (_ <=? _); [done|].
  apply IH; destruct (_ <=? _); try done; simpl.
  - destruct (rejectMessage_asm (dropAssembly l k) k) as [-> _].
    unfold dropAssembly. rewrite E. simpl. rewrite lookup_delete_None. by right.
  - intros [->|Hin]%rejectMessage_subset; [congruence|]. by rewrite dropAssembly_rejected in Hin.
Qed.

Lemma consume_wf lim recycle order now l c buffer :
  lim_ok lim -> recycle_ok lim recycle -> chunk_ok c -> wf lim l ->
  exists l' o, consumeAdvancedChunk lim recycle order now l c buffer = Some (l', o) /\ wf lim l'.
Proof.
  intros Hl Hrc Hc H0. unfold consumeAdvancedChunk. cbv zeta.
  pose proof (wf_counters lim l (u64 (chunks l + 1)) (chunksAtSweep l) (reclaimed l) (droppedMessages l) H0) as H.
  set (l1 := mkRx _ _ _ _ _ _ _ _ _) in *. clearbody l1. clear H0.
  destruct (flags_bad _ _); [by eexists _, _|].
  destruct (has_bits (c_flags c) AdvFlagAbort).
  { pose proof (wf_forgetRejected lim _ (chunk_key c) (wf_dropAssembly lim l1 (chunk_key c) Hl H)) as Hf.
    destruct (forgetRejected _ _) as [l2 known]. by eexists _, _. }
  destruct (size_error lim c buffer) as [e|] eqn:He.
  { eexists _, _. split; [reflexivity|]. by apply (wf_fail _ _ _ e). }
  pose proof (size_error_None _ _ _ Hl Hc He) as (Hb & Hs & Hmax & Hint & _).
  pose proof Hc as ([Ht _] & [Ho _] & [Hsz _] & Hfl).
  destruct (recycle_get lim recycle (c_total c) Hl Hrc ltac:(lia) Hint) as (m & Em & Emn & Emo & Emd).
  destruct (has_bits (c_flags c) AdvFlagBegin).
  - destruct (negb (c_offset c =? 0) || _ || _) eqn:Ek.
    { eexists _, _. split; [reflexivity|]. by apply (wf_fail _ _ _ ErrInvalidSize). }
    breflect. apply bool_decide_eq_false in H2. apply eq_None_not_Some in H2.
    unfold isRejected in H1. apply bool_decide_eq_false in H1.
    destruct (has_bits (c_flags c) AdvFlagEnd).
    { destruct (negb _); [eexists _, _; split; [reflexivity|by apply (wf_fail _ _ _ ErrInvalidSize)]|].
      rewrite Em. simpl. by eexists _, _. }
    pose proof (wf_reclaimIdle lim order l1 (u64 (c_total c + advancedAssemblyOverhead)) Hl H) as Hw.
    pose proof (reclaimIdle_None lim order l1 (u64 (c_total c + advancedAssemblyOverhead)) _ H2 H1) as [Hn Hnr].
    set (l2 := reclaimIdle _ _ _ _) in *. clearbody l2.
    destruct (_ || _) eqn:Ebud.
    { eexists _, _. split; [reflexivity|]. by apply wf_rejectMessage. }
    breflect. rewrite Em. cbn [mbind option_bind].
    eexists _, _. split; [apply f_equal, surjective_pairing|].
    apply (add_chunk_wf lim); try done; [|simpl; apply lookup_insert_eq].
    apply (wf_admit lim l2 (chunk_key c) (mkAsm _ _ _ _ _ _)); try done.
    constructor; simpl; try done; try lia. by rewrite kind_of_header.
  - destruct (assemblies l1 !! chunk_key c) as [a|] eqn:Ea.
    + eexists _, _. split; [apply f_equal, surjective_pairing|]. by apply (add_chunk_wf lim).
    + destruct (_ || _); [|by eexists _, _]. eexists _, _. split; [reflexivity|].
      destruct (has_bits _ _); [by apply wf_forgetRejected|done].
Qed.

Lemma wf_new lim : lim_ok lim -> wf lim new_rx.
Proof.
  intros [_ [Hm _]]. constructor; simpl.
  - unfold charged. by rewrite map_fold_empty.
  - done.
  - apply map_Forall_empty.
  - intros k. rewrite elem_of_empty, elem_of_nil. done.
  - constructor.
  - unfold maxRejectedMessages. lia.
  - done.
Qed.

(** ** Property *)

(** C3. The receive path survives any peer. Whatever frame arrives, on a link in a
    valid state, the frame is processed without an out-of-range access and the
    link stays valid: the bytes charged are exactly those of the incomplete
    messages and never exceed the budget, every incomplete message fits its
    buffer, at most 1024 refused messages are remembered, without duplicates,
    and none of them is also being assembled. *)
Theorem consumeAdvancedChunk_safe (lim : limits) (recycle : Z -> bytes) (order : list advancedMessageKey)
  (now : Z) (l : rx) (p : Packet) (buffer : bytes)
  (Hlim : lim_ok lim) (Hrec : recycle_ok lim recycle) (Hp : Forall is_byte p) (Hwf : wf lim l) :
  exists l' o, consumeAdvancedChunk lim recycle order now l (chunk_of p) buffer = Some (l', o) /\ wf lim l' /\
    256 * Z.of_nat (size (assemblies l')) <= assemblyBytes l' <= maxReassemblyBytes lim.
Proof.
  assert (Hop : forall i, word 64 (Operand p i)).
  { intros i. unfold Operand. destruct (_ || _); [unfold word; lia|]. by apply Uint64_range. }
  destruct (consume_wf lim recycle order now l (chunk_of p) buffer Hlim Hrec) as (l' & o & E & H); [|done|].
  - split_and!; try apply Hop.
  - exists l', o. split_and!; [done..| |apply (wf_limit _ _ H)].
    rewrite (wf_bytes _ _ H). apply (charged_count lim). apply (wf_asm _ _ H).
Qed.

Lemma consumeAdvancedChunk_safe_witness :
  let lim := mkLimits 1000 100 0 in
  let recycle c := replicate (Z.to_nat (classSize 100 c)) 7 in
  let p := NewConnCopyPacket 1 1 90 0 4 AdvFlagBegin 0 in
  exists l' o, consumeAdvancedChunk lim recycle [] 0 new_rx (chunk_of p) [1; 2; 3; 4] = Some (l', o) /\ wf lim l' /\
    256 * Z.of_nat (size (assemblies l')) <= assemblyBytes l' <= 1000.
Proof.
  intros lim recycle p.
  assert (Hlim : lim_ok lim) by (split; unfold word; simpl; lia).
  apply (consumeAdvancedChunk_safe lim recycle [] 0 new_rx p [1; 2; 3; 4] Hlim).
  - intros c Hc. unfold recycle. rewrite length_replicate. apply Z2Nat.id.
    unfold classSize. pose proof (u64_range (Z.shiftl 1 (c + minMessageClass))) as H. unfold word in H. simpl. lia.
  - vm_compute. repeat constructor; congruence.
  - apply (wf_new lim Hlim).
Defined.
