(* ===== verification/Reassembly.v ===== *)
(** * Reassembly: interleaved chunks come out as the messages that went in

    The chunks of one message, interleaved with arbitrary frames of other
    messages (well-formed or not), are reassembled to exactly the payload, or
    refused as a whole when the reassembly budget is exhausted. *)
From S2P Require Import Prelude Errors Protocol Meta Message Assembly.

(** One received OpConnCopy frame with everything [consumeAdvancedChunk]
    observes besides the link: the slot's buffer, the map iteration order of a
    sweep, the recycled buffers and the clock. *)
Record frame := mkFrame {
  f_chunk : chunk;
  f_buf : bytes;
  f_order : list advancedMessageKey;
  f_recycle : Z -> bytes;
  f_now : Z
}.

Definition f_key (f : frame) : advancedMessageKey := chunk_key (f_chunk f).

Definition consume_frame (lim : limits) (l : rx) (f : frame) : option (rx * outcome) :=
  consumeAdvancedChunk lim (f_recycle f) (f_order f) (f_now f) l (f_chunk f) (f_buf f).

(** Frames in the order they arrive, with the outcome of each. *)
Fixpoint run (lim : limits) (l : rx) (fs : list frame) : option (rx * list (advancedMessageKey * outcome)) :=
  match fs with
  | [] => Some (l, [])
  | f :: rest =>
      '(l1, o) ← consume_frame lim l f;
      '(l2, os) ← run lim l1 rest;
      Some (l2, (f_key f, o) :: os)
  end.

Definition frame_ok (lim : limits) (f : frame) : Prop := chunk_ok (f_chunk f) /\ recycle_ok lim (f_recycle f).

Section Reassembly.
Context (lim : limits) (Hlim : lim_ok lim).
Context (conn msg base aux : Z) (d : bytes).

(** The key and header of the message. *)
Definition k : advancedMessageKey := (conn, msg, kind_of base).
Definition h : advHeader := mkHeader conn msg base aux.

Definition total : Z := Z.of_nat (length d).

(** Message [k] has received the first [off] bytes of [d]; [j] frames have
    arrived since its last chunk. *)
Definition in_progress (l : rx) (off : Z) (j : Z) : Prop :=
  exists a, assemblies l !! k = Some a /\ a_hdr a = h /\ a_size a = total /\ a_next a = off /\
    take (Z.to_nat off) (m_data (a_msg a)) = take (Z.to_nat off) d /\
    chunks l = u64 (a_seen a + j) /\ 0 <= j.

(** Message [k] was refused: its remaining chunks are drained. *)
Definition draining (l : rx) : Prop :=
  assemblies l !! k = None /\ (isRejected l k || rejectedEvicted l) = true.

Definition untouched (l : rx) : Prop := assemblies l !! k = None /\ k ∉ rejected l.

(** *** Frames of other messages *)

Lemma dropAssembly_other l k' : k' <> k -> assemblies (dropAssembly l k') !! k = assemblies l !! k.
Proof.
  intros Hne. unfold dropAssembly. destruct (assemblies l !! k'); simpl; [|done]. by apply lookup_delete_ne.
Qed.

Lemma forgetRejected_asm l k' : assemblies (forgetRejected l k').1 = assemblies l.
Proof. unfold forgetRejected. by destruct (negb _). Qed.

Lemma forgetRejected_other l k' : k' <> k ->
  isRejected (forgetRejected l k').1 k = isRejected l k /\
  rejectedEvicted (forgetRejected l k').1 = rejectedEvicted l /\ chunks (forgetRejected l k').1 = chunks l.
Proof.
  intros Hne. unfold forgetRejected. destruct (negb _); [done|]. simpl. split; [|done].
  unfold isRejected. simpl. apply bool_decide_ext. rewrite elem_of_difference, elem_of_singleton.
  intuition congruence.
Qed.

Lemma isRejected_dropAssembly l k' :
  isRejected (dropAssembly l k') k = isRejected l k /\
  rejectedEvicted (dropAssembly l k') = rejectedEvicted l /\ chunks (dropAssembly l k') = chunks l.
Proof. unfold dropAssembly, isRejected. by destruct (assemblies l !! k'). Qed.

(** A refusal of another message never makes this one look unknown. *)
Lemma rejectMessage_drain l k' : k' <> k ->
  (isRejected l k || rejectedEvicted l) = true ->
  (isRejected (rejectMessage l k') k || rejectedEvicted (rejectMessage l k')) = true.
Proof.
  intros Hne H. unfold rejectMessage, isRejected in *.
  destruct (_ <=? _)%nat; [destruct (rejectedOrder l); simpl; by rewrite orb_true_r|]. simpl.
  apply orb_true_iff in H as [H|H]; [|by rewrite H, orb_true_r].
  apply bool_decide_eq_true in H. rewrite bool_decide_eq_true_2; [done|]. set_solver.
Qed.

(** What a frame of another message may do to [k]. *)
Record preserved (l l' : rx) : Prop := {
  pr_asm : assemblies l' !! k = assemblies l !! k;
  pr_unrej : k ∉ rejected l -> k ∉ rejected l';
  pr_drain : (isRejected l k || rejectedEvicted l) = true -> (isRejected l' k || rejectedEvicted l') = true;
  pr_chunks : chunks l' = chunks l
}.

Lemma preserved_refl l : preserved l l.
Proof. done. Qed.

Lemma preserved_trans l1 l2 l3 : preserved l1 l2 -> preserved l2 l3 -> preserved l1 l3.
Proof. intros [] []. constructor; try congruence; auto. Qed.

Lemma preserved_drop l k' : k' <> k -> preserved l (dropAssembly l k').
Proof.
  intros Hne. destruct (isRejected_dropAssembly l k') as (E1 & E2 & E3).
  constructor; [by apply dropAssembly_other|by rewrite dropAssembly_rejected|by rewrite E1, E2|done].
Qed.

Lemma preserved_forget l k' : k' <> k -> preserved l (forgetRejected l k').1.
Proof.
  intros Hne. destruct (forgetRejected_other l k' Hne) as (E1 & E2 & E3).
  constructor; [by rewrite forgetRejected_asm| |by rewrite E1, E2|done].
  unfold isRejected in E1. intros Hn Hin. by rewrite !bool_decide_decide, decide_True, decide_False in E1.
Qed.

Lemma preserved_fail l k' e : k' <> k -> preserved l (fail l k' e).1.
Proof.
  intros Hne. simpl. eapply preserved_trans; [by apply preserved_drop|by apply preserved_forget].
Qed.

Lemma preserved_reject l k' : k' <> k -> preserved l (rejectMessage l k').
Proof.
  intros Hne. destruct (rejectMessage_asm l k') as [Ea Ec].
  constructor; [by rewrite Ea| |by apply rejectMessage_drain|done].
  intros Hn [E|Hin]%rejectMessage_subset; [congruence|done].
Qed.

Lemma preserved_fields l l' :
  assemblies l' = assemblies l -> rejected l' = rejected l -> rejectedEvicted l' = rejectedEvicted l ->
  chunks l' = chunks l -> preserved l l'.
Proof. intros E1 E2 E3 E4. unfold isRejected. constructor; unfold isRejected; rewrite ?E1, ?E2, ?E3; done. Qed.

Lemma preserved_reclaim l k' a : k' <> k -> preserved l (reclaim l k' a).
Proof.
  intros Hne. eapply preserved_trans; [apply (preserved_drop _ k' Hne)|].
  eapply preserved_trans; [apply (preserved_reject _ k' Hne)|]. by apply preserved_fields.
Qed.

(** A sweep leaves [k] alone while it is not idle. *)
Definition busy (l : rx) : Prop :=
  forall a, assemblies l !! k = Some a -> u64 (chunks l - a_seen a) < advancedAssemblyIdleChunks.

Lemma busy_preserved l l' : preserved l l' -> busy l -> busy l'.
Proof. intros [] H a. rewrite pr_asm0, pr_chunks0. apply H. Qed.

Lemma preserved_sweep chg order : forall l, busy l -> preserved l (sweep lim chg order l).
Proof.
  induction order as [|k' rest IH]; simpl; intros l Hb; [apply preserved_refl|].
  destruct (assemblies l !! k') as [a|] eqn:E; [|by apply IH]. destruct (_ <=? _); [apply preserved_refl|].
  destruct (Z.leb_spec advancedAssemblyIdleChunks (u64 (chunks l - a_seen a))) as [Hi|]; [|by apply IH].
  assert (Hne : k' <> k). { intros ->. specialize (Hb a E). lia. }
  pose proof (preserved_reclaim l k' a Hne) as Hp.
  eapply preserved_trans; [exact Hp|]. apply IH. by eapply busy_preserved.
Qed.

Lemma preserved_reclaimIdle order l chg : busy l -> preserved l (reclaimIdle lim order l chg).
Proof.
  intros Hb. unfold reclaimIdle. destruct (_ || _); [apply preserved_refl|].
  destruct (_ <? _); [apply preserved_refl|].
  eapply preserved_trans; [|apply preserved_sweep]; [by apply preserved_fields|done].
Qed.

Lemma preserved_put l k' a l' : k' <> k ->
  assemblies l' = <[k' := a]> (assemblies l) -> rejected l' = rejected l -> rejectedEvicted l' = rejectedEvicted l ->
  chunks l' = chunks l -> preserved l l'.
Proof.
  intros Hne E1 E2 E3 E4. constructor; unfold isRejected; rewrite ?E1, ?E2, ?E3; try done. by apply lookup_insert_ne.
Qed.

Lemma preserved_add_chunk l c buffer a : chunk_key c <> k -> preserved l (add_chunk l c buffer a).1.
Proof.
  intros Hne. unfold add_chunk. cbn [a_next a_size a_hdr a_msg a_seen a_recvAt].
  set (put a' := mkRx (<[chunk_key c := a']> (assemblies l)) (assemblyBytes l) (rejected l) (rejectedOrder l)
                   (rejectedEvicted l) (chunks l) (chunksAtSweep l) (reclaimed l) (droppedMessages l)).
  assert (Hput : forall a', preserved l (put a')) by (intros a'; by eapply (preserved_put l _ a')).
  destruct (negb _ || negb _).
  { eapply preserved_trans; [apply Hput|by apply preserved_fail]. }
  destruct (negb (has_bits _ _)); [apply Hput|]. destruct (negb _).
  - eapply preserved_trans; [apply Hput|by apply preserved_fail].
  - eapply preserved_trans; [apply Hput|by apply preserved_drop].
Qed.

(** The counter step at the start of every frame. *)
Definition tick (l : rx) : rx :=
  mkRx (assemblies l) (assemblyBytes l) (rejected l) (rejectedOrder l) (rejectedEvicted l)
    (u64 (chunks l + 1)) (chunksAtSweep l) (reclaimed l) (droppedMessages l).

Lemma preserved_consume l f l' o :
  f_key f <> k -> busy (tick l) -> consume_frame lim l f = Some (l', o) -> preserved (tick l) l'.
Proof.
  intros Hne Hb E. unfold consume_frame, consumeAdvancedChunk in E. cbv zeta in E.
  change (mkRx (assemblies l) (assemblyBytes l) (rejected l) (rejectedOrder l) (rejectedEvicted l)
    (u64 (chunks l + 1)) (chunksAtSweep l) (reclaimed l) (droppedMessages l)) with (tick l) in E.
  set (l1 := tick l) in *. clearbody l1. clear l. unfold f_key in Hne.
  set (c := f_chunk f) in *. set (buf := f_buf f) in *.
  destruct (flags_bad _ _); [simplify_eq; apply preserved_refl|].
  destruct (has_bits (c_flags c) AdvFlagAbort).
  { pose proof (preserved_forget (dropAssembly l1 (chunk_key c)) _ Hne) as Hf.
    destruct (forgetRejected _ _) as [l2 known]. simplify_eq.
    eapply preserved_trans; [by apply preserved_drop|exact Hf]. }
  assert (Hfail : forall e, Some (fail l1 (chunk_key c) e) = Some (l', o) -> preserved l1 l').
  { intros e [= <- _]. by apply (preserved_fail l1 _ ErrInvalidSize). }
  destruct (size_error lim c buf); [by eapply Hfail|].
  destruct (has_bits (c_flags c) AdvFlagBegin).
  - destruct (_ || _ || _); [by eapply Hfail|].
    destruct (has_bits (c_flags c) AdvFlagEnd).
    { destruct (negb _); [by eapply Hfail|].
      destruct (get _ _ _); simpl in E; simplify_eq. apply preserved_refl. }
    set (chg := u64 _) in *. pose proof (preserved_reclaimIdle (f_order f) l1 chg Hb) as Hr.
    set (l2 := reclaimIdle _ _ _ _) in *. clearbody l2. destruct (_ || _).
    { simplify_eq. eapply preserved_trans; [exact Hr|by apply preserved_reject]. }
    destruct (get _ _ _); simpl in E; [|done]. injection E as E.
    match type of E with add_chunk ?l3 ?c ?b ?a = _ =>
      pose proof (preserved_add_chunk l3 c b a Hne) as Hp; rewrite E in Hp end.
    eapply preserved_trans; [exact Hr|]. eapply preserved_trans; [|exact Hp].
    by eapply (preserved_put l2 (chunk_key c)).
  - destruct (assemblies l1 !! chunk_key c) as [a|].
    + injection E as E. pose proof (preserved_add_chunk l1 c buf a Hne) as Hp. by rewrite E in Hp.
    + destruct (_ || _); simplify_eq; [|apply preserved_refl].
      destruct (has_bits _ _); [by apply preserved_forget|apply preserved_refl].
Qed.

(** *** Frames of the message itself *)

(** The kinds of message the link sends: data, request, response, error
    response, request with metadata (if negotiated). *)
Definition base_ok : Prop :=
  base = 0 \/ base = AdvFlagRequest \/ base = AdvFlagResponse \/ base = Z.lor AdvFlagResponse AdvFlagError \/
  base = Z.lor AdvFlagRequest AdvFlagMeta /\ has_bits (features lim) FeatureMetadata = true.

Context (Hbase : base_ok).
Context (Hmax : total <= maxMessageSize lim) (Hint : total <= max_int).

Definition flags_at (off size : Z) : Z :=
  Z.lor base (Z.lor (if off =? 0 then AdvFlagBegin else 0) (if off + size =? total then AdvFlagEnd else 0)).

Lemma flags_facts off size :
  let fl := flags_at off size in
  has_bits fl AdvFlagBegin = (off =? 0) /\ has_bits fl AdvFlagEnd = (off + size =? total) /\
  has_bits fl AdvFlagAbort = false /\ has_bits fl AdvFlagMeta = has_bits base AdvFlagMeta /\
  kind_of fl = kind_of base /\ and_not fl begin_end = base /\
  flags_bad lim fl = false /\ 0 <= fl /\
  (off = 0 -> off + size = total -> fl = Z.lor base begin_end /\ Z.land fl begin_end = begin_end).
Proof.
  unfold flags_at, flags_bad. destruct (Z.eqb_spec off 0), (Z.eqb_spec (off + size) total);
    destruct Hbase as [->|[->|[->|[->|[-> Hf]]]]]; try rewrite Hf; destruct (has_bits (features lim) FeatureMetadata);
    cbv zeta; split_and!; try reflexivity; try done; try (intros; split; reflexivity); try (intros; lia).
Qed.

(** The frame that carries bytes [off, off + c_size) of [d]. *)
Record own_ok (off : Z) (f : frame) : Prop := {
  own_conn : c_conn (f_chunk f) = conn;
  own_msg : c_msg (f_chunk f) = msg;
  own_total : c_total (f_chunk f) = total;
  own_offset : c_offset (f_chunk f) = off;
  own_size : 0 <= c_size (f_chunk f) /\ off + c_size (f_chunk f) <= total /\ (total = 0 \/ 0 < c_size (f_chunk f));
  own_flags : c_flags (f_chunk f) = flags_at off (c_size (f_chunk f));
  own_aux : c_aux (f_chunk f) = if off =? 0 then aux else 0;
  own_buf : c_size (f_chunk f) <= Z.of_nat (length (f_buf f));
  own_data : take (Z.to_nat (c_size (f_chunk f))) (f_buf f) =
             slice (Z.to_nat off) (Z.to_nat (off + c_size (f_chunk f))) d
}.

Lemma own_key off f : own_ok off f -> f_key f = k.
Proof.
  intros []. unfold f_key, chunk_key, k. rewrite own_conn0, own_msg0, own_flags0.
  destruct (flags_facts off (c_size (f_chunk f))) as (_ & _ & _ & _ & -> & _). done.
Qed.

Lemma own_size_ok off f : 0 <= off -> own_ok off f -> size_error lim (f_chunk f) (f_buf f) = None.
Proof.
  intros Ho H. destruct H. destruct (flags_facts off (c_size (f_chunk f))) as (_ & _ & _ & _ & _ & _ & _ & _ & Hbe).
  unfold size_error. rewrite own_total0, own_offset0, own_aux0, own_flags0.
  assert (0 <= total) by (unfold total; lia). unfold max_int in *.
  rewrite u64_small by (unfold word; lia).
  destruct (Z.ltb_spec (Z.of_nat (length (f_buf f))) (c_size (f_chunk f))); [lia|].
  destruct (Z.ltb_spec total off); [lia|]. destruct (Z.ltb_spec (total - off) (c_size (f_chunk f))); [lia|]. simpl.
  destruct (Z.ltb_spec (maxMessageSize lim) total); [lia|]. rewrite andb_false_r.
  destruct (Z.eqb_spec total 0) as [E|E]; simpl.
  - assert (off = 0 /\ c_size (f_chunk f) = 0) as [Eo Ez] by lia. rewrite Eo, Ez in *. simpl.
    destruct Hbe as [_ ->]; [done|lia|]. rewrite E. done.
  - destruct (Z.ltb_spec 0 total); [|lia]. destruct (Z.eqb_spec (c_size (f_chunk f)) 0); [lia|]. simpl.
    destruct (Z.eqb_spec off 0); simpl; destruct (Z.ltb_spec (2 ^ 63 - 1) total); try done; lia.
Qed.

Lemma own_chunk_ok off f : 0 <= off -> own_ok off f -> chunk_ok (f_chunk f).
Proof.
  intros Ho []. unfold chunk_ok, word. rewrite own_total0, own_offset0, own_flags0.
  destruct (flags_facts off (c_size (f_chunk f))) as (_ & _ & _ & _ & _ & _ & _ & H & _).
  assert (0 <= total) by (unfold total; lia). unfold max_int in *. split_and!; lia.
Qed.

(** Appending one chunk to a correct prefix. *)
Lemma prefix_step (data : bytes) (off size : nat) (src : bytes) :
  (off + size <= length d)%nat -> (off + size <= length data)%nat -> src = slice off (off + size) d ->
  take off data = take off d -> take (off + size) (blit off src data) = take (off + size) d.
Proof.
  intros Hd Hl -> E.
  assert (Hs : length (slice off (off + size) d) = size) by (rewrite length_slice; lia).
  unfold blit. rewrite E. rewrite app_assoc. rewrite take_app_le by (rewrite length_app, length_take, Hs; lia).
  rewrite take_ge by (rewrite length_app, length_take, Hs; lia).
  unfold slice. replace (off + size - off)%nat with size by lia. by rewrite take_take_drop.
Qed.

(** What is handed to the caller when the last chunk arrived. *)
Definition delivered (o : outcome) : Prop :=
  exists m t, o = finish m t /\ Bytes m = d /\ m_off m = 0%nat /\ m_n m = length d /\
    m_hdr m = mkHeader conn msg (Z.lor base begin_end) aux.

Lemma own_add l f off a :
  0 <= off -> own_ok off f -> wf lim l -> word 64 (chunks l) -> assemblies l !! k = Some a ->
  a_hdr a = h -> a_size a = total -> a_next a = off ->
  take (Z.to_nat off) (m_data (a_msg a)) = take (Z.to_nat off) d ->
  exists l' o, add_chunk l (f_chunk f) (f_buf f) a = (l', o) /\
  (if off + c_size (f_chunk f) =? total then delivered o /\ assemblies l' !! k = None
   else o = Partial /\ in_progress l' (off + c_size (f_chunk f)) 0).
Proof.
  intros Ho Hf Hw Hch Ea Eh Es En Ed. pose proof (own_key _ _ Hf) as Ek. unfold f_key in Ek.
  destruct Hf. pose proof (wf_asm _ _ Hw _ _ Ea) as Ha. simpl in Ha.
  destruct (flags_facts off (c_size (f_chunk f))) as (_ & Hend & _).
  pose proof (asm_data _ _ _ Ha) as Hdl. pose proof (asm_n _ _ _ Ha) as [Hmn Hmo].
  assert (Hd : forall o s, 0 <= o -> 0 <= s -> o + s <= total -> (Z.to_nat o + Z.to_nat s <= length d)%nat)
    by (unfold total; lia).
  assert (Hpre : take (Z.to_nat (off + c_size (f_chunk f)))
      (blit (Z.to_nat off) (take (Z.to_nat (c_size (f_chunk f))) (f_buf f)) (m_data (a_msg a))) =
      take (Z.to_nat (off + c_size (f_chunk f))) d).
  { rewrite Z2Nat.inj_add by lia. apply prefix_step; [apply Hd; lia|lia| |done].
    rewrite own_data0. f_equal. lia. }
  unfold add_chunk. cbn [a_next a_size a_hdr a_msg a_seen a_recvAt].
  rewrite own_offset0, own_total0, En, Es, !Z.eqb_refl. simpl orb. rewrite own_flags0, Hend, Ek.
  assert (Hnext : u64 (off + c_size (f_chunk f)) = off + c_size (f_chunk f))
    by (apply u64_small; unfold word, max_int in *; lia). rewrite Hnext.
  destruct (Z.eqb_spec (off + c_size (f_chunk f)) total) as [Et|Et]; simpl negb; cbv iota.
  - eexists _, _. split; [reflexivity|]. split; [|apply dropAssembly_lookup].
    eexists _, _. split; [reflexivity|]. unfold Bytes. simpl.
    rewrite Hmn, Hmo, Es. split_and!; [|done|unfold total; lia|by rewrite Eh].
    unfold slice. rewrite drop_0. rewrite Et in Hpre. unfold total in *. rewrite Nat2Z.id in *.
    rewrite Nat.add_0_l, Nat.sub_0_r, Hpre. apply take_ge. lia.
  - eexists _, _. split; [reflexivity|]. split; [done|].
    eexists. split; [simpl; apply lookup_insert_eq|]. simpl. split_and!; try done.
    rewrite Z.add_0_r. symmetry. by apply u64_small.
Qed.

Lemma tick_wf l : wf lim l -> wf lim (tick l) /\ word 64 (chunks (tick l)).
Proof. intros H. split; [by apply wf_counters|apply u64_range]. Qed.

(** A continuation chunk of a message in progress. *)
Lemma own_next l f off j :
  0 < off -> own_ok off f -> wf lim l -> in_progress l off j ->
  exists l' o, consume_frame lim l f = Some (l', o) /\
  (if off + c_size (f_chunk f) =? total then delivered o /\ assemblies l' !! k = None
   else o = Partial /\ in_progress l' (off + c_size (f_chunk f)) 0).
Proof.
  intros Ho Hf Hw (a & Ea & Eh & Es & En & Ed & _). destruct (tick_wf l Hw) as [Hw1 Hc1].
  pose proof (own_size_ok off f ltac:(lia) Hf) as Hse. pose proof (own_key _ _ Hf) as Ek. unfold f_key in Ek.
  destruct (flags_facts off (c_size (f_chunk f))) as (Hb & _ & Hab & _ & _ & _ & Hbad & _).
  destruct (own_add (tick l) f off a ltac:(lia) Hf Hw1 Hc1 Ea Eh Es En Ed) as (l' & o & E & Hres).
  exists l', o. split; [|done]. unfold consume_frame, consumeAdvancedChunk. cbv zeta.
  fold (tick l). rewrite Hse, Ek. rewrite (own_flags _ _ Hf), Hbad, Hab, Hb.
  destruct (Z.eqb_spec off 0); [lia|]. simpl assemblies. rewrite Ea. by rewrite E.
Qed.

(** A continuation chunk of a refused message. *)
Lemma own_drained l f off :
  0 < off -> own_ok off f -> draining l ->
  exists l', consume_frame lim l f = Some (l', Partial) /\
  (off + c_size (f_chunk f) <> total -> draining l').
Proof.
  intros Ho Hf [Ha Hr].
  pose proof (own_size_ok off f ltac:(lia) Hf) as Hse. pose proof (own_key _ _ Hf) as Ek. unfold f_key in Ek.
  destruct (flags_facts off (c_size (f_chunk f))) as (Hb & He & Hab & _ & _ & _ & Hbad & _).
  unfold consume_frame, consumeAdvancedChunk. cbv zeta. fold (tick l).
  rewrite Hse, Ek. rewrite (own_flags _ _ Hf), Hbad, Hab, Hb, He.
  destruct (Z.eqb_spec off 0); [lia|]. simpl assemblies. rewrite Ha.
  change (isRejected (tick l) k) with (isRejected l k). change (rejectedEvicted (tick l)) with (rejectedEvicted l).
  rewrite Hr. eexists. split; [reflexivity|]. intros Hne.
  destruct (Z.eqb_spec (off + c_size (f_chunk f)) total); [done|]. split; [exact Ha|exact Hr].
Qed.

(** The first chunk. *)
Lemma own_first l f :
  own_ok 0 f -> recycle_ok lim (f_recycle f) -> wf lim l -> untouched l -> busy (tick l) ->
  exists l' o, consume_frame lim l f = Some (l', o) /\
  (if c_size (f_chunk f) =? total then delivered o
   else (exists h', o = Refused h' /\ isAbort h' = true) /\ draining l' \/
        o = Partial /\ in_progress l' (c_size (f_chunk f)) 0).
Proof.
  intros Hf Hrc Hw [Ha Hr] Hbusy. destruct (tick_wf l Hw) as [Hw1 Hc1].
  pose proof (own_size_ok 0 f ltac:(lia) Hf) as Hse. pose proof (own_key _ _ Hf) as Ek. unfold f_key in Ek.
  destruct (flags_facts 0 (c_size (f_chunk f))) as (Hb & He & Hab & Hmt & Hkd & Hno & Hbad & Hpos & Hbe).
  assert (0 <= total) by (unfold total; lia).
  destruct (recycle_get lim (f_recycle f) total Hlim Hrc ltac:(lia) Hint) as (m & Em & Emn & Emo & Emd).
  unfold consume_frame, consumeAdvancedChunk. cbv zeta. fold (tick l).
  rewrite Hse, Ek, (own_offset _ _ Hf), (own_total _ _ Hf), (own_conn _ _ Hf), (own_msg _ _ Hf), (own_aux _ _ Hf).
  rewrite (own_flags _ _ Hf), Hbad, Hab, Hb, He. simpl (0 =? 0). cbv iota. simpl (assemblies (tick l)).
  rewrite Ha, bool_decide_eq_false_2 by (intros [? ?]; done).
  unfold isRejected at 1. rewrite bool_decide_eq_false_2 by exact Hr. simpl orb. cbv iota.
  rewrite Z.add_0_l. destruct (Z.eqb_spec (c_size (f_chunk f)) total) as [Et|Et]; simpl negb; cbv iota.
  - rewrite Em. cbn [mbind option_bind]. eexists _, _. split; [reflexivity|].
    destruct (Hbe eq_refl ltac:(lia)) as [Hfl _]. rewrite Hfl.
    eexists _, _. split; [reflexivity|]. unfold Bytes. simpl. rewrite Emn, Emo.
    pose proof (own_data _ _ Hf) as Hd. rewrite Et in *. rewrite Z.add_0_l in Hd.
    unfold total in *. rewrite Nat2Z.id in *. split_and!; [|done..].
    rewrite Hd. rewrite slice_full. unfold slice. rewrite drop_0, Nat.add_0_l, Nat.sub_0_r.
    apply copy_to_fits. lia.
  - rewrite Hno. set (chg := u64 (total + advancedAssemblyOverhead)).
    pose proof (wf_reclaimIdle lim (f_order f) (tick l) chg Hlim Hw1) as Hw2.
    pose proof (preserved_reclaimIdle (f_order f) (tick l) chg Hbusy) as [P1 P2 _ P4].
    set (l2 := reclaimIdle _ _ _ _) in *. clearbody l2.
    destruct (_ || _) eqn:Ebud.
    + eexists _, _. split; [reflexivity|]. left. split.
      * eexists. split; [reflexivity|]. unfold isAbort. simpl hflags.
        destruct Hbase as [->|[->|[->|[->|[-> _]]]]]; reflexivity.
      * destruct (rejectMessage_asm l2 k) as [E1 _]. split; [by rewrite E1, P1|].
        unfold isRejected, rejectMessage. destruct (_ <=? _)%nat; [destruct (rejectedOrder l2)|]; simpl;
          rewrite bool_decide_eq_true_2 by (apply elem_of_union; left; by apply elem_of_singleton); done.
    + breflect. rewrite Em. cbn [mbind option_bind].
      set (a := mkAsm _ m total 0 0 _). set (l3 := mkRx (<[k := a]> (assemblies l2)) _ _ _ _ _ _ _ _).
      assert (Hak : asm_ok lim k a) by (constructor; simpl; try done; lia).
      assert (Hchg : chg = charge a) by done.
      assert (Hw3 : wf lim l3).
      { unfold l3. rewrite Hchg in *. apply (wf_admit lim l2 k a); try done; [by rewrite P1|auto]. }
      destruct (own_add l3 f 0 a ltac:(lia) Hf Hw3) as (l' & o & E & Hres); try done.
      { simpl. by rewrite P4. }
      { simpl. apply lookup_insert_eq. }
      exists l', o. split; [by rewrite E|]. right. rewrite Z.add_0_l in Hres.
      destruct (Z.eqb_spec (c_size (f_chunk f)) total); [done|]. exact Hres.
Qed.

(** *** Whole messages *)

(** The frames of the message from byte [off] on. *)
Fixpoint rest_ok (off : Z) (own : list frame) : Prop :=
  match own with
  | [] => off = total
  | f :: rest => own_ok off f /\ (rest <> [] -> off + c_size (f_chunk f) < total) /\ rest_ok (off + c_size (f_chunk f)) rest
  end.

Definition own_frames (fs : list frame) : list frame := filter (fun f => f_key f = k) fs.
Definition own_outcomes (os : list (advancedMessageKey * outcome)) : list outcome :=
  map snd (filter (fun x => x.1 = k) os).

Lemma run_total fs : forall l, wf lim l -> Forall (frame_ok lim) fs ->
  exists l' os, run lim l fs = Some (l', os) /\ wf lim l' /\ map fst os = map f_key fs.
Proof.
  induction fs as [|f fs IH]; intros l Hw Hf; simpl; [by exists l, []|].
  apply Forall_cons_iff in Hf as [[Hc Hr] Hf].
  destruct (consume_wf lim (f_recycle f) (f_order f) (f_now f) l (f_chunk f) (f_buf f) Hlim Hr Hc Hw) as (l1 & o & E & Hw1).
  unfold consume_frame. rewrite E. simpl. destruct (IH l1 Hw1 Hf) as (l2 & os & -> & Hw2 & Hk). simpl.
  exists l2, ((f_key f, o) :: os). split_and!; [done..|]. simpl. by rewrite Hk.
Qed.

Lemma own_outcomes_cons f o os :
  own_outcomes ((f_key f, o) :: os) = if decide (f_key f = k) then o :: own_outcomes os else own_outcomes os.
Proof. unfold own_outcomes. rewrite filter_cons. simpl. by destruct (decide _). Qed.

Lemma own_frames_cons f fs :
  own_frames (f :: fs) = if decide (f_key f = k) then f :: own_frames fs else own_frames fs.
Proof. unfold own_frames. by rewrite filter_cons. Qed.

(** Frames of other messages alone have no outcome for this one. *)
Lemma no_own_outcomes fs os : map fst os = map f_key fs -> own_frames fs = [] -> own_outcomes os = [].
Proof.
  revert os. induction fs as [|f fs IH]; intros [|[k' o] os] E Ho; try done. simpl in E. injection E as -> E.
  rewrite own_outcomes_cons, own_frames_cons in *.
  destruct (decide (f_key f = k)); [done|]. by apply IH.
Qed.

(** One step of a run, split by whose frame it is. *)
Lemma run_cons l f fs l1 o l2 os :
  consume_frame lim l f = Some (l1, o) -> run lim l1 fs = Some (l2, os) ->
  run lim l (f :: fs) = Some (l2, (f_key f, o) :: os).
Proof. intros E1 E2. simpl. rewrite E1. simpl. by rewrite E2. Qed.

Lemma other_wf l f : wf lim l -> frame_ok lim f ->
  exists l' o, consume_frame lim l f = Some (l', o) /\ wf lim l'.
Proof. intros Hw [Hc Hr]. by apply consume_wf. Qed.

(** A frame of another message while this one is in progress. *)
Lemma progress_other l f off j l' o :
  f_key f <> k -> j + 1 < 2 ^ 16 -> in_progress l off j -> consume_frame lim l f = Some (l', o) ->
  in_progress l' off (j + 1).
Proof.
  intros Hne Hj (a & Ea & Eh & Es & En & Ed & Ec & Hj0) E.
  assert (Hb : busy (tick l)).
  { intros a' Ea'. simpl in Ea'. simplify_eq. simpl. rewrite Ec.
    unfold u64, wrap, advancedAssemblyIdleChunks. zlia. }
  destruct (preserved_consume l f l' o Hne Hb E) as [P1 _ _ P4].
  exists a. split_and!; try done; [by rewrite P1| |lia]. rewrite P4. simpl. rewrite Ec, u64_add_l. f_equal. lia.
Qed.

Lemma run_progress fs : forall l off j,
  wf lim l -> in_progress l off j -> 0 < off < total -> Forall (frame_ok lim) fs ->
  rest_ok off (own_frames fs) -> j + Z.of_nat (length fs) < 2 ^ 16 ->
  exists l' os o, run lim l fs = Some (l', os) /\ delivered o /\
    own_outcomes os = replicate (length (own_frames fs) - 1) Partial ++ [o].
Proof.
  induction fs as [|f fs IH]; intros l off j Hw Hp Ho Hf Hr Hlen; [simpl in Hr; lia|].
  assert (Hj0 : 0 <= j) by (destruct Hp as (? & ? & ? & ? & ? & ? & ? & ?); done).
  apply Forall_cons_iff in Hf as [Hf0 Hf]. rewrite own_frames_cons in *. simpl length in Hlen.
  destruct (decide (f_key f = k)) as [Hk|Hk].
  - simpl in Hr. destruct Hr as (Hown & Hmore & Hrest).
    destruct (own_next l f off j ltac:(lia) Hown Hw Hp) as (l1 & o & E & Hres).
    destruct (other_wf l f Hw Hf0) as (l1' & o' & E' & Hw1). rewrite E in E'. simplify_eq.
    destruct (Z.eqb_spec (off + c_size (f_chunk f)) total) as [Et|Et].
    + assert (Hn : own_frames fs = []) by (destruct (own_frames fs); [done|]; specialize (Hmore ltac:(done)); lia).
      destruct (run_total fs l1' Hw1 Hf) as (l2 & os & E2 & _ & Hks).
      exists l2, ((f_key f, o') :: os), o'. split_and!; [by eapply run_cons|by destruct Hres|].
      rewrite own_outcomes_cons, decide_True by done. rewrite (no_own_outcomes _ _ Hks Hn), Hn. done.
    + destruct Hres as [-> Hp1]. destruct Hown.
      destruct (own_frames fs) as [|f2 rest] eqn:En; [by simpl in Hrest|].
      specialize (Hmore ltac:(done)).
      destruct (IH l1' _ 0 Hw1 Hp1) as (l2 & os & o & E2 & Hd & Hos); [lia|done|done|lia|].
      exists l2, ((f_key f, Partial) :: os), o. split_and!; [by eapply run_cons|done|].
      rewrite own_outcomes_cons, decide_True by done. rewrite Hos. simpl. by rewrite Nat.sub_0_r.
  - destruct (other_wf l f Hw Hf0) as (l1 & o & E & Hw1).
    pose proof (progress_other l f off j l1 o Hk ltac:(lia) Hp E) as Hp1.
    destruct (IH l1 off (j + 1) Hw1 Hp1 Ho Hf Hr ltac:(lia)) as (l2 & os & o2 & E2 & Hd & Hos).
    exists l2, ((f_key f, o) :: os), o2. split_and!; [by eapply run_cons|done|].
    by rewrite own_outcomes_cons, decide_False.
Qed.

Lemma run_draining fs : forall l off,
  wf lim l -> draining l -> 0 < off < total -> Forall (frame_ok lim) fs -> rest_ok off (own_frames fs) ->
  exists l' os, run lim l fs = Some (l', os) /\
    own_outcomes os = replicate (length (own_frames fs)) Partial.
Proof.
  induction fs as [|f fs IH]; intros l off Hw Hd Ho Hf Hr; [simpl in Hr; lia|].
  apply Forall_cons_iff in Hf as [Hf0 Hf]. rewrite own_frames_cons in *.
  destruct (other_wf l f Hw Hf0) as (l1 & o & E & Hw1).
  destruct (decide (f_key f = k)) as [Hk|Hk].
  - simpl in Hr. destruct Hr as (Hown & Hmore & Hrest).
    destruct (own_drained l f off ltac:(lia) Hown Hd) as (l1' & E' & Hdr). rewrite E in E'. simplify_eq.
    destruct (decide (off + c_size (f_chunk f) = total)) as [Et|Et].
    + assert (Hn : own_frames fs = []) by (destruct (own_frames fs); [done|]; specialize (Hmore ltac:(done)); lia).
      destruct (run_total fs l1' Hw1 Hf) as (l2 & os & E2 & _ & Hks).
      exists l2, ((f_key f, Partial) :: os). split; [by eapply run_cons|].
      rewrite own_outcomes_cons, decide_True by done. rewrite (no_own_outcomes _ _ Hks Hn), Hn. done.
    + destruct Hown. destruct (own_frames fs) as [|f2 rest] eqn:En; [by simpl in Hrest|].
      specialize (Hmore ltac:(done)).
      destruct (IH l1' (off + c_size (f_chunk f)) Hw1 (Hdr Et)) as (l2 & os & E2 & Hos); [lia|done|done|].
      exists l2, ((f_key f, Partial) :: os). split; [by eapply run_cons|].
      rewrite own_outcomes_cons, decide_True by done. by rewrite Hos.
  - assert (Hb : busy (tick l)) by (intros a Ea; simpl in Ea; destruct Hd; congruence).
    destruct (preserved_consume l f l1 o Hk Hb E) as [P1 _ P3 _].
    destruct Hd as [D1 D2].
    destruct (IH l1 off Hw1) as (l2 & os & E2 & Hos); [split; [by rewrite P1|by apply P3]|done..|].
    exists l2, ((f_key f, o) :: os). split; [by eapply run_cons|]. by rewrite own_outcomes_cons, decide_False.
Qed.

(** The message is delivered whole, or refused whole. *)
Definition whole (n : nat) (os : list outcome) : Prop :=
  (exists o, delivered o /\ os = replicate (n - 1) Partial ++ [o]) \/
  (exists h', isAbort h' = true /\ os = Refused h' :: replicate (n - 1) Partial).

Lemma run_message fs : forall l,
  wf lim l -> untouched l -> Forall (frame_ok lim) fs -> own_frames fs <> [] ->
  rest_ok 0 (own_frames fs) -> Z.of_nat (length fs) <= 2 ^ 16 ->
  exists l' os, run lim l fs = Some (l', os) /\ whole (length (own_frames fs)) (own_outcomes os).
Proof.
  induction fs as [|f fs IH]; intros l Hw Hu Hf Hne Hr Hlen; [done|].
  apply Forall_cons_iff in Hf as [Hf0 Hf]. rewrite own_frames_cons in *. simpl length in Hlen.
  assert (Hb : busy (tick l)) by (intros a Ea; simpl in Ea; destruct Hu; congruence).
  destruct (other_wf l f Hw Hf0) as (l1 & o & E & Hw1).
  destruct (decide (f_key f = k)) as [Hk|Hk].
  - simpl in Hr. destruct Hr as (Hown & Hmore & Hrest). rewrite Z.add_0_l in *.
    destruct (own_first l f Hown (proj2 Hf0) Hw Hu Hb) as (l1' & o' & E' & Hres). rewrite E in E'. simplify_eq.
    destruct (Z.eqb_spec (c_size (f_chunk f)) total) as [Et|Et].
    + assert (Hn : own_frames fs = []) by (destruct (own_frames fs); [done|]; specialize (Hmore ltac:(done)); lia).
      destruct (run_total fs l1' Hw1 Hf) as (l2 & os & E2 & _ & Hks).
      exists l2, ((f_key f, o') :: os). split; [by eapply run_cons|]. left. exists o'. split; [done|].
      rewrite own_outcomes_cons, decide_True by done. rewrite (no_own_outcomes _ _ Hks Hn), Hn. done.
    + pose proof (own_size _ _ Hown). assert (0 <= total) by (unfold total; lia).
      destruct (own_frames fs) as [|f2 rest] eqn:En; [by simpl in Hrest|]. specialize (Hmore ltac:(done)).
      destruct Hres as [[(h' & -> & Hab) Hd]|[-> Hp]].
      * destruct (run_draining fs l1' (c_size (f_chunk f)) Hw1 Hd) as (l2 & os & E2 & Hos); [lia|done|by rewrite En|].
        exists l2, ((f_key f, Refused h') :: os). split; [by eapply run_cons|]. right. exists h'. split; [done|].
        rewrite own_outcomes_cons, decide_True by done. rewrite Hos, En. done.
      * destruct (run_progress fs l1' (c_size (f_chunk f)) 0 Hw1 Hp) as (l2 & os & o & E2 & Hd & Hos);
          [lia|done|by rewrite En|lia|].
        exists l2, ((f_key f, Partial) :: os). split; [by eapply run_cons|]. left. exists o. split; [done|].
        rewrite own_outcomes_cons, decide_True by done. rewrite Hos, En. simpl. by rewrite Nat.sub_0_r.
  - destruct (preserved_consume l f l1 o Hk Hb E) as [P1 P2 _ _]. destruct Hu as [U1 U2].
    destruct (IH l1 Hw1) as (l2 & os & E2 & Hos); [split; [by rewrite P1|by apply P2]|done..|lia|].
    exists l2, ((f_key f, o) :: os). split; [by eapply run_cons|]. by rewrite own_outcomes_cons, decide_False.
Qed.

End Reassembly.
