(* ===== verification/Send.v ===== *)
(** * Send: publishing a message as chunks

    Models [sendAdvancedPayload] and [sendAdvancedChunk] of advanced_io.go and
    the error mapping of the link ([mapWaitErr] of standard.go, [mapCtxErr] of
    advanced.go), and closes the loop with Reassembly: what [Call], [Send] or
    a response writer sends is what the peer's receive path hands out. *)
From S2P Require Import Prelude Errors Protocol Meta Message Assembly Reassembly.

(** ** Errors of ring waits *)

Definition mapWaitErr (e : error) : error :=
  match e with
  | mpmc_ErrClosed => ErrClosed
  | mpmc_ErrTimeout => ErrTimeout
  | e => e
  end.

(** [ctx_err]: [ctx.Err()], [None] for a live or nil context. *)
Definition mapCtxErr (ctx_err : option error) (e : error) : error :=
  match e with
  | mpmc_ErrCanceled => default ctx_Canceled ctx_err
  | e => mapWaitErr e
  end.

(** ** One frame *)

(** The slot buffer after the two copies, and the number of bytes copied. *)
Definition fill_buffer (buf head tail : bytes) : bytes * nat :=
  let n := copy_n buf head in
  let buf := copy_to buf head in
  let rest := drop n buf in
  (take n buf ++ copy_to rest tail, (n + copy_n rest tail)%nat).

(** [sendAdvancedChunk]: the packet and the buffer of the claimed slot, whose
    buffer held [buf]. *)
Definition sendAdvancedChunk (connectionID messageID totalSize chunkOffset flags aux : Z)
    (head tail buf : bytes) : Packet * bytes :=
  let (buf', n) := fill_buffer buf head tail in
  (NewConnCopyPacket connectionID messageID totalSize chunkOffset (Z.of_nat n) flags aux, buf').

(** What the receiver reads in the packet of a chunk. *)
Lemma chunk_of_ConnCopy conn msg total off size flags aux :
  Forall (word 64) [conn; msg; total; off; size; flags; aux] ->
  chunk_of (NewConnCopyPacket conn msg total off size flags aux) = mkChunk conn msg total off size flags aux.
Proof.
  intros H. change (NewConnCopyPacket conn msg total off size flags aux) with
    (set_operands 0 [conn; msg; total; off; size; flags; aux] (SetOp OpConnCopy zero_packet)).
  unfold chunk_of. rewrite !set_operands_spec by (auto with hqq; lia). reflexivity.
Qed.

(** ** A whole message *)

(** The environment of the ring: the result of the [i]-th enqueue ([None]:
    published) and the buffer of the slot it claims. *)
Record tx_env := mkTx { enq : nat -> option error; slot_buf : nat -> bytes }.

Section Send.
Context (ctx_err : option error) (env : tx_env) (connectionID messageID baseFlags aux : Z).
Context (chunkSize : Z) (prefix payload : bytes).

Definition totalSize : Z := Z.of_nat (length prefix) + Z.of_nat (length payload).

(** Bytes [offset, end) of prefix||payload: the part in prefix, the part in
    payload. *)
Definition head_of (offset end_ : Z) : bytes :=
  if offset <? Z.of_nat (length prefix)
  then slice (Z.to_nat offset) (Z.to_nat (Z.min end_ (Z.of_nat (length prefix)))) prefix else [].

Definition tail_of (offset end_ : Z) : bytes :=
  if Z.of_nat (length prefix) <? end_
  then slice (Z.to_nat (Z.max offset (Z.of_nat (length prefix)) - Z.of_nat (length prefix)))
         (Z.to_nat (end_ - Z.of_nat (length prefix))) payload
  else [].

(** The chunk loop from [offset] on; [i] counts the enqueues. *)
Fixpoint send_loop (fuel : nat) (i : nat) (offset : Z) : option (list (Packet * bytes) * option error) :=
  if offset <? totalSize then
    match fuel with
    | O => None
    | S fuel' =>
        let end_ := Z.min (u64 (offset + chunkSize)) totalSize in
        let flags := Z.lor baseFlags (if offset =? 0 then AdvFlagBegin else 0) in
        let flags := Z.lor flags (if end_ =? totalSize then AdvFlagEnd else 0) in
        let chunkAux := if offset =? 0 then aux else 0 in
        match enq env i with
        | Some e =>
            let abort :=
              if 0 <? offset then
                match enq env (S i) with
                | None => [sendAdvancedChunk connectionID messageID 0 0 (Z.lor AdvFlagAbort baseFlags) 0 [] []
                             (slot_buf env (S i))]
                | Some _ => []
                end
              else [] in
            Some (abort, Some (mapCtxErr ctx_err e))
        | None =>
            match send_loop fuel' (S i) (u64 (offset + chunkSize)) with
            | None => None
            | Some (l, r) =>
                Some (sendAdvancedChunk connectionID messageID totalSize offset flags chunkAux
                        (head_of offset end_) (tail_of offset end_) (slot_buf env i) :: l, r)
            end
        end
    end
  else Some ([], None).

(** [sendAdvancedPayload]: the frames published and the error returned.
    [entered] is the result of [enterTx]. *)
Definition sendAdvancedPayload (maxMessageSize : Z) (entered : option error)
  : option (list (Packet * bytes) * option error) :=
  if (0 <? maxMessageSize) && (maxMessageSize <? totalSize) then Some ([], Some ErrBufferOverflow)
  else
    match entered with
    | Some e => Some ([], Some e)
    | None =>
        if totalSize =? 0 then
          match enq env 0 with
          | Some e => Some ([], Some (mapCtxErr ctx_err e))
          | None =>
              Some ([sendAdvancedChunk connectionID messageID 0 0
                       (Z.lor (Z.lor AdvFlagBegin AdvFlagEnd) baseFlags) aux [] [] (slot_buf env 0)], None)
          end
        else send_loop (S (length prefix + length payload)) 0 0
    end.

(** ** Lemmas *)

Lemma totalSize_app : totalSize = Z.of_nat (length (prefix ++ payload)).
Proof. unfold totalSize. rewrite length_app. lia. Qed.

(** The two parts make up the bytes of the chunk. *)
Lemma head_tail offset end_ :
  0 <= offset <= end_ -> end_ <= totalSize ->
  head_of offset end_ ++ tail_of offset end_ = slice (Z.to_nat offset) (Z.to_nat end_) (prefix ++ payload).
Proof.
  intros Ho He. unfold head_of, tail_of, slice, totalSize in *.
  destruct (Z.ltb_spec offset (Z.of_nat (length prefix))) as [H1|H1];
    destruct (Z.ltb_spec (Z.of_nat (length prefix)) end_) as [H2|H2].
  - rewrite Z.min_r, Z.max_r by lia. rewrite Z.sub_diag. simpl Z.to_nat. rewrite drop_0, Nat2Z.id.
    rewrite drop_app_le by lia. rewrite take_app. rewrite length_drop. f_equal.
    + rewrite (take_ge (drop _ prefix)) by (rewrite length_drop; lia).
      rewrite take_ge by (rewrite length_drop; lia). done.
    + f_equal. lia.
  - rewrite Z.min_l by lia. rewrite app_nil_r. rewrite drop_app_le by lia.
    rewrite take_app_le by (rewrite length_drop; lia). done.
  - rewrite Z.max_l by lia. simpl. rewrite drop_app_ge by lia. f_equal; [lia|]. f_equal. lia.
  - assert (offset = end_) by lia. subst. simpl. by rewrite Nat.sub_diag.
Qed.

Lemma fill_buffer_fits buf head tail :
  (length head + length tail <= length buf)%nat ->
  take (length (head ++ tail)) (fill_buffer buf head tail).1 = head ++ tail /\
  (fill_buffer buf head tail).2 = length (head ++ tail) /\
  length (fill_buffer buf head tail).1 = length buf.
Proof.
  intros H. unfold fill_buffer. simpl.
  assert (En : copy_n buf head = length head) by (unfold copy_n; lia). rewrite En.
  assert (Eh : take (length head) (copy_to buf head) = head) by (apply copy_to_fits; lia). rewrite Eh.
  set (rest := drop (length head) (copy_to buf head)).
  assert (Hr : length rest = (length buf - length head)%nat) by (unfold rest; rewrite length_drop, length_copy_to; done).
  split_and!.
  - rewrite length_app, take_app_add. f_equal. apply copy_to_fits. lia.
  - rewrite length_app. unfold copy_n. lia.
  - rewrite length_app, length_copy_to, Hr. lia.
Qed.

(** *** The receiver's view of the frames *)

Context (lim : limits).
Context (Henq : forall i, enq env i = None) (Hbuf : forall i, Z.of_nat (length (slot_buf env i)) = chunkSize).
Context (Hcs : 0 < chunkSize < 2 ^ 62) (Hint : totalSize <= max_int).
Context (Hwords : Forall (word 64) [connectionID; messageID; aux]).
Context (Hbase : base_ok lim baseFlags).

(** The frames received are the frames sent. *)
Definition matches (own : list frame) (sent : list (Packet * bytes)) : Prop :=
  Forall2 (fun f x => f_chunk f = chunk_of x.1 /\ f_buf f = x.2) own sent.

Lemma totalSize_bounds : 0 <= totalSize < 2 ^ 63.
Proof. unfold totalSize, max_int in *. lia. Qed.

Lemma flags_word (b e : bool) : word 64 (Z.lor (Z.lor baseFlags (if b then AdvFlagBegin else 0)) (if e then AdvFlagEnd else 0)).
Proof.
  destruct Hbase as [->|[->|[->|[->|[-> _]]]]]; destruct b, e; unfold word; vm_compute; split; congruence || done.
Qed.

Lemma own_ok_sent i offset (f : frame) :
  0 <= offset -> (offset < totalSize \/ totalSize = 0 /\ offset = 0) ->
  let end_ := Z.min (u64 (offset + chunkSize)) totalSize in
  let x := sendAdvancedChunk connectionID messageID totalSize offset
    (Z.lor (Z.lor baseFlags (if offset =? 0 then AdvFlagBegin else 0)) (if end_ =? totalSize then AdvFlagEnd else 0))
    (if offset =? 0 then aux else 0) (head_of offset end_) (tail_of offset end_) (slot_buf env i) in
  f_chunk f = chunk_of x.1 -> f_buf f = x.2 ->
  own_ok connectionID messageID baseFlags aux (prefix ++ payload) offset f /\
  offset + c_size (f_chunk f) = end_.
Proof.
  assert (W : word 64 connectionID /\ word 64 messageID /\ word 64 aux)
    by (inv Hwords as [|? ? W1 HW]; inv HW as [|? ? W2 HW2]; inv HW2; done).
  destruct W as (W1 & W2 & W3). intros Ho Hlt end_ x Ef Eb. pose proof totalSize_bounds as Ht.
  assert (Hu : u64 (offset + chunkSize) = offset + chunkSize) by (apply u64_small; unfold word; lia).
  assert (He : offset <= end_ <= totalSize /\ end_ - offset <= chunkSize /\ (totalSize = 0 \/ offset < end_))
    by (unfold end_; rewrite Hu; lia).
  clearbody end_. clear Hu.
  pose proof (head_tail offset end_ ltac:(lia) ltac:(lia)) as Hht.
  assert (Hlen : length (head_of offset end_ ++ tail_of offset end_) = (Z.to_nat end_ - Z.to_nat offset)%nat)
    by (rewrite Hht; apply length_slice; pose proof totalSize_app; lia).
  pose proof (Hbuf i) as Hbl.
  destruct (fill_buffer_fits (slot_buf env i) (head_of offset end_) (tail_of offset end_)) as (F1 & F2 & F3);
    [rewrite length_app in Hlen; lia|].
  unfold sendAdvancedChunk in x. destruct (fill_buffer _ _ _) as [buf n]. simpl in F1, F2, F3. subst x. simpl in Ef, Eb.
  pose proof (flags_word (offset =? 0) (end_ =? totalSize)) as Wf.
  rewrite chunk_of_ConnCopy in Ef.
  2:{ repeat constructor; try done; try (unfold word in *; lia); destruct (offset =? 0); unfold word in *; lia. }
  assert (Esz : c_size (f_chunk f) = end_ - offset) by (rewrite Ef; simpl; lia).
  split; [|lia]. constructor; rewrite ?Esz; rewrite ?Ef; simpl; try done; try lia.
  - unfold total. by rewrite totalSize_app.
  - unfold total. rewrite <- totalSize_app. lia.
  - unfold flags_at, total. rewrite <- totalSize_app.
    replace (offset + (end_ - offset)) with end_ by lia. by rewrite Z.lor_assoc.
  - rewrite Eb. lia.
  - rewrite Eb. rewrite F2 in *. replace (Z.to_nat (end_ - offset)) with (length (head_of offset end_ ++ tail_of offset end_)) by lia.
    rewrite F1, Hht. f_equal. lia.
Qed.

Lemma send_loop_ok fuel : forall i offset,
  0 <= offset -> offset <= totalSize + chunkSize -> totalSize - offset < Z.of_nat fuel -> 0 < totalSize ->
  exists l, send_loop fuel i offset = Some (l, None) /\
    (totalSize <= offset -> l = []) /\ (offset < totalSize -> l <> []) /\
    forall own, matches own l ->
      rest_ok connectionID messageID baseFlags aux (prefix ++ payload) (Z.min offset totalSize) own.
Proof.
  pose proof totalSize_bounds as Ht.
  induction fuel as [|fuel IH]; intros i offset Ho Hub Hf Hpos; simpl.
  - destruct (Z.ltb_spec offset totalSize); [lia|]. exists []. split_and!; [done..|lia|].
    intros own Hm. inv Hm. simpl. unfold total. rewrite <- totalSize_app. lia.
  - destruct (Z.ltb_spec offset totalSize).
    2:{ exists []. split_and!; [done..|lia|]. intros own Hm. inv Hm. simpl. unfold total. rewrite <- totalSize_app. lia. }
    rewrite Henq. assert (Hu : u64 (offset + chunkSize) = offset + chunkSize) by (apply u64_small; unfold word; lia).
    destruct (IH (S i) (u64 (offset + chunkSize))) as (l & El & Hnil & Hne & Hrest); rewrite ?Hu; try lia.
    rewrite Hu in *. rewrite El. eexists. split; [reflexivity|]. split_and!; [lia|done|].
    intros own Hm. inv Hm as [|f x own' l' [Ef Eb] Hm']. 
    pose proof (own_ok_sent i offset f Ho ltac:(lia)) as Hown. cbv zeta in Hown. rewrite Hu in Hown.
    destruct (Hown Ef Eb) as [Hok Hend]. rewrite Z.min_l by lia. simpl. split; [done|]. rewrite Hend.
    split; [|by apply Hrest]. intros Hn. unfold total. rewrite <- totalSize_app.
    destruct (Z.lt_ge_cases (offset + chunkSize) totalSize) as [|Hge]; [lia|].
    rewrite (Hnil Hge) in Hm'. inv Hm'.
Qed.

Lemma sent_rest_ok sent own :
  totalSize <= maxMessageSize lim ->
  sendAdvancedPayload (maxMessageSize lim) None = Some (sent, None) -> matches own sent ->
  own <> [] /\ rest_ok connectionID messageID baseFlags aux (prefix ++ payload) 0 own.
Proof.
  intros Hmax E Hm. pose proof totalSize_bounds as Ht. unfold sendAdvancedPayload in E.
  destruct (Z.ltb_spec (maxMessageSize lim) totalSize); [lia|]. rewrite andb_false_r in E.
  destruct (Z.eqb_spec totalSize 0) as [E0|E0].
  - rewrite Henq in E. simplify_eq. inv Hm as [|f x own' l' [Ef Eb] Hm']. inv Hm'. split; [done|].
    pose proof (own_ok_sent 0 0 f ltac:(lia) ltac:(right; done)) as Hown. cbv zeta in Hown.
    rewrite Z.add_0_l, u64_small in Hown by (unfold word; lia).
    rewrite (Z.min_r chunkSize totalSize) in Hown by lia. rewrite E0 in Hown.
    assert (Eh : head_of 0 0 = [] /\ tail_of 0 0 = []).
    { unfold head_of, tail_of, totalSize in *. destruct (Z.ltb_spec 0 (Z.of_nat (length prefix))); [lia|].
      destruct (Z.ltb_spec (Z.of_nat (length prefix)) 0); [lia|]. done. }
    destruct Eh as [Eh1 Eh2]. rewrite Eh1, Eh2 in Hown. simpl (0 =? 0) in Hown. cbv iota in Hown.
    assert (Efl : Z.lor (Z.lor AdvFlagBegin AdvFlagEnd) baseFlags = Z.lor (Z.lor baseFlags AdvFlagBegin) AdvFlagEnd)
      by (rewrite Z.lor_comm; apply Z.lor_assoc).
    rewrite Efl in *. destruct (Hown Ef Eb) as [Hok Hend]. simpl. split; [done|]. split; [done|].
    unfold total. rewrite <- totalSize_app. lia.
  - destruct (send_loop_ok (S (length prefix + length payload)) 0 0) as (l & El & _ & Hne & Hrest);
      [lia|lia|unfold totalSize in *; lia|lia|].
    rewrite El in E. simplify_eq. specialize (Hrest own Hm). rewrite Z.min_l in Hrest by lia.
    split; [|done]. intros ->. inv Hm. by apply Hne; [lia|].
Qed.

End Send.

(** ** Delivery *)

(** The metadata block a message of kind [base] starts with. *)
Definition prefix_ok (base : Z) (prefix : bytes) (meta : msgMeta) : Prop :=
  if has_bits base AdvFlagMeta then
    exists b opts, b < 2 ^ 63 /\ word 64 (Caller opts) /\ length (Trace opts) = 16%nat /\
      putMeta (replicate metaMaxBlock 0) b opts = Some prefix /\
      meta = mkMeta true (0 <? b) (Z.max 0 b) (Caller opts) (Trace opts)
  else prefix = [] /\ meta = no_meta.

(** A delivered message shows the payload and the metadata. *)
Lemma delivered_complete lim conn msg base aux prefix payload meta o :
  base_ok lim base -> prefix_ok base prefix meta ->
  delivered conn msg base aux (prefix ++ payload) o ->
  exists m, o = Complete m /\ Bytes m = payload /\
    m_hdr m = mkHeader conn msg (Z.lor base begin_end) aux /\
    (has_bits base AdvFlagMeta = true -> m_meta m = meta).
Proof.
  intros Hb Hp (m & t & -> & Hd & Ho & Hn & Hh).
  assert (Hmt : has_bits (hflags (m_hdr m)) AdvFlagMeta = has_bits base AdvFlagMeta).
  { rewrite Hh. simpl. destruct Hb as [->|[->|[->|[->|[-> _]]]]]; reflexivity. }
  unfold finish. rewrite Hmt. unfold prefix_ok in Hp. destruct (has_bits base AdvFlagMeta).
  - destruct Hp as (b & opts & Hb1 & Hc & Ht & Eput & ->). rewrite putMeta_layout in Eput by done.
    destruct (decide _) as [|_]; [done|]. apply (inj Some) in Eput.
    assert (Edata : take (m_n m) (m_data m) = prefix ++ payload).
    { rewrite <- Hd. unfold Bytes. rewrite Ho. unfold slice. rewrite drop_0, Nat.add_0_l. f_equal. lia. }
    assert (Elen : length prefix = (4 + length (tlvs_of b opts))%nat)
      by (rewrite <- Eput, !length_app, length_le_put; simpl; lia).
    assert (Epar : parseMeta (prefix ++ payload) =
      Some (Ok (mkMeta true (0 <? b) (Z.max 0 b) (Caller opts) (Trace opts), length prefix)))
      by (rewrite Elen, <- Eput; by apply parseMeta_block).
    unfold stripMeta. rewrite Edata, Epar.
    eexists. split; [reflexivity|]. unfold Bytes. simpl. split_and!; [|done|done].
    rewrite Hn, length_app.
    replace (length prefix + (length prefix + length payload - length prefix))%nat with (length prefix + length payload)%nat by lia.
    unfold slice. replace (length prefix + length payload - length prefix)%nat with (length payload) by lia.
    rewrite <- (take_drop (m_n m) (m_data m)), Edata. rewrite <- app_assoc. rewrite drop_app_length.
    apply take_app_length.
  - destruct Hp as [-> ->]. exists m. done.
Qed.

(** ** Property *)

(** C2. Messages survive chunking, interleaving and reassembly. A message of any
    size within the limits (data, request with or without metadata, response
    or error response) is cut into chunks of the link's buffer size, whatever
    the slot buffers held before. The receiver sees these frames in order,
    interleaved with any other frames (fewer than 2^16 in all, so that the
    message does not count as idle), on a link in any valid state. Then every
    chunk but the last yields nothing, and the last yields one message with
    exactly the payload, header and metadata that were sent; or the first
    chunk is refused because of the reassembly budget and the others are
    drained without error. *)
Theorem advanced_roundtrip (ctx_err : option error) (env : tx_env) (lim : limits)
  (conn msg base aux chunkSize : Z) (prefix payload : bytes) (meta : msgMeta)
  (sent : list (Packet * bytes)) (l : rx) (fs : list frame)
  (Hlim : lim_ok lim)
  (Henq : forall i, enq env i = None) (Hbuf : forall i, Z.of_nat (length (slot_buf env i)) = chunkSize)
  (Hcs : 0 < chunkSize < 2 ^ 62)
  (Hmax : totalSize prefix payload <= maxMessageSize lim) (Hint : totalSize prefix payload <= max_int)
  (Hwords : Forall (word 64) [conn; msg; aux]) (Hbase : base_ok lim base)
  (Hprefix : prefix_ok base prefix meta)
  (Hsend : sendAdvancedPayload ctx_err env conn msg base aux chunkSize prefix payload (maxMessageSize lim) None =
           Some (sent, None))
  (Hwf : wf lim l) (Hnew : untouched conn msg base l)
  (Hframes : Forall (frame_ok lim) fs) (Hlen : Z.of_nat (length fs) <= 2 ^ 16)
  (Harrive : matches (own_frames conn msg base fs) sent) :
  exists l' os, run lim l fs = Some (l', os) /\
    ((exists m, own_outcomes conn msg base os = replicate (length sent - 1) Partial ++ [Complete m] /\
        Bytes m = payload /\ m_hdr m = mkHeader conn msg (Z.lor base begin_end) aux /\
        (has_bits base AdvFlagMeta = true -> m_meta m = meta)) \/
     (exists h, isAbort h = true /\
        own_outcomes conn msg base os = Refused h :: replicate (length sent - 1) Partial)).
Proof.
  destruct (sent_rest_ok ctx_err env conn msg base aux chunkSize prefix payload lim Henq Hbuf Hcs Hint Hwords Hbase
    sent _ Hmax Hsend Harrive) as [Hne Hrest].
  rewrite totalSize_app in *.
  destruct (run_message lim Hlim conn msg base aux (prefix ++ payload) Hbase Hmax Hint fs l Hwf Hnew Hframes Hne Hrest Hlen)
    as (l' & os & E & Hw).
  rewrite (Forall2_length Harrive) in Hw.
  exists l', os. split; [done|]. destruct Hw as [(o & Hd & Hos)|(h & Ha & Hos)]; [left|right; by exists h].
  destruct (delivered_complete lim conn msg base aux prefix payload meta o Hbase Hprefix Hd) as (m & -> & Hm).
  exists m. split; [exact Hos|exact Hm].
Qed.

(** A request of six bytes over four-byte buffers, with a malformed frame of
    another message in between. *)
Lemma advanced_roundtrip_witness :
  let env := mkTx (fun _ => None) (fun _ => [9; 9; 9; 9]) in
  let lim := mkLimits 10000 100 0 in
  let recycle c := replicate (Z.to_nat (classSize 100 c)) 7 in
  exists sent fs l' os,
    sendAdvancedPayload None env 1 5 AdvFlagRequest 77 4 [] [1; 2; 3; 4; 5; 6] 100 None = Some (sent, None) /\
    length sent = 2%nat /\ length fs = 3%nat /\
    run lim new_rx fs = Some (l', os) /\
    exists m, own_outcomes 1 5 AdvFlagRequest os = [Partial; Complete m] /\ Bytes m = [1; 2; 3; 4; 5; 6].
Proof.
  intros env lim recycle.
  destruct (sendAdvancedPayload None env 1 5 AdvFlagRequest 77 4 [] [1; 2; 3; 4; 5; 6] 100 None)
    as [[sent [e|]]|] eqn:E; [vm_compute in E; discriminate| |vm_compute in E; discriminate].
  assert (Hs : exists x1 x2, sent = [x1; x2]) by (vm_compute in E; injection E as <-; by eexists _, _).
  destruct Hs as (x1 & x2 & ->).
  set (fr x := mkFrame (chunk_of x.1) x.2 [] recycle 0).
  set (junk := mkFrame (mkChunk 2 2 9 9 9 255 0) [] [] recycle 0).
  exists [x1; x2], [fr x1; junk; fr x2].
  assert (Hrec : recycle_ok lim recycle).
  { intros c Hc. unfold recycle. rewrite length_replicate. apply Z2Nat.id.
    unfold classSize. pose proof (u64_range (Z.shiftl 1 (c + minMessageClass))) as H. unfold word in H. simpl. lia. }
  assert (Hx : x1 = ([4; 0; 0; 0; 0; 0; 0; 0; 1; 0; 0; 0; 0; 0; 0; 0; 5; 0; 0; 0; 0; 0; 0; 0; 6; 0; 0; 0; 0; 0; 0; 0;
      0; 0; 0; 0; 0; 0; 0; 0; 4; 0; 0; 0; 0; 0; 0; 0; 9; 0; 0; 0; 0; 0; 0; 0; 77; 0; 0; 0; 0; 0; 0; 0], [1; 2; 3; 4]) /\
    x2 = ([4; 0; 0; 0; 0; 0; 0; 0; 1; 0; 0; 0; 0; 0; 0; 0; 5; 0; 0; 0; 0; 0; 0; 0; 6; 0; 0; 0; 0; 0; 0; 0;
      4; 0; 0; 0; 0; 0; 0; 0; 2; 0; 0; 0; 0; 0; 0; 0; 10; 0; 0; 0; 0; 0; 0; 0; 0; 0; 0; 0; 0; 0; 0; 0], [5; 6; 9; 9])).
  { vm_compute in E. injection E as <- <-. split; reflexivity. }
  assert (Hok : Forall (frame_ok lim) [fr x1; junk; fr x2]).
  { destruct Hx as [-> ->]. repeat (constructor; [split; [|exact Hrec]; vm_compute; repeat split; congruence || done|]).
    constructor. }
  destruct (advanced_roundtrip None env lim 1 5 AdvFlagRequest 77 4 [] [1; 2; 3; 4; 5; 6] no_meta [x1; x2] new_rx
    [fr x1; junk; fr x2]) as (l' & os & Er & Hres).
  - split; unfold word; simpl; lia.
  - reflexivity.
  - reflexivity.
  - lia.
  - vm_compute. congruence.
  - vm_compute. congruence.
  - repeat constructor; lia.
  - right. left. reflexivity.
  - split; reflexivity.
  - exact E.
  - apply (wf_new lim). split; unfold word; simpl; lia.
  - split; [reflexivity|]. apply not_elem_of_empty.
  - exact Hok.
  - simpl. lia.
  - destruct Hx as [-> ->]. rewrite !own_frames_cons.
    rewrite decide_True, decide_False, decide_True by (vm_compute; congruence || reflexivity).
    repeat constructor.
  - exists l', os. split_and!; [reflexivity..|exact Er|].
    destruct Hres as [(m & Hos & Hb & _)|(h & _ & Hos)]; [exists m; split; [exact Hos|exact Hb]|exfalso].
    clear E Hok. destruct Hx as [-> ->]. vm_compute in Er. injection Er as _ <-. discriminate Hos.
Defined.
