(* ===== verification/Superblock.v ===== *)
(** * Superblock: claiming, initializing and watching a segment

    Models superblock.go: the superblock words, the decision an endpoint makes
    at each look of [claimSuperblock], the initialization protocol
    ([beginInit], [initSession], [zeroInChunks], [publishSuperblock],
    [commitInit]) and the peer monitor ([checkPeer]), together with
    [LinkOptions.normalized] of options.go.

    Other processes write the same words: between the shared accesses of a look
    they may run, which the [itf] argument (for interference) stands for; the
    theorems hold for every [itf]. The words read together to be compared as a
    whole (the first page, the layout stamp, the geometry, an endpoint record)
    are read at one point. Durations and monotonic times are
    nanoseconds; Go's zero time is [None]. *)
From S2P Require Import Prelude Errors.

(** ** Options *)

Definition second : Z := 1000 * 1000 * 1000.
Definition DefaultHeartbeatInterval : Z := 250 * 1000 * 1000.
Definition DefaultPeerTimeout : Z := 5 * second.
Definition DefaultAttachTimeout : Z := 5 * second.

Inductive attachRole := roleAny | roleCreator | roleOpener.

#[export] Instance attachRole_eq_dec : EqDecision attachRole.
Proof. solve_decision. Defined.

Record LinkOptions := mkOpts {
  HeartbeatInterval : Z;
  PeerTimeout : Z;
  AttachTimeout : Z;
  role : attachRole;
  o_creatorToken : Z;
  initStale : Z
}.

Definition normalized (o : LinkOptions) : LinkOptions :=
  let hb := if HeartbeatInterval o =? 0 then DefaultHeartbeatInterval else HeartbeatInterval o in
  let hb := if hb <? 0 then 0 else hb in
  mkOpts hb
    (if PeerTimeout o <=? 0 then DefaultPeerTimeout else PeerTimeout o)
    (if AttachTimeout o <=? 0 then DefaultAttachTimeout else AttachTimeout o)
    (role o) (o_creatorToken o) (initStale o).

Definition initStaleWindow (o : LinkOptions) : Z :=
  if 0 <? initStale o then initStale o else Z.max (PeerTimeout o) (2 * second).

(** ** The superblock *)

Definition superblockMagic : Z := 0x4851515f53544c33.
Definition superblockMajor : Z := 3.
Definition superblockMinor : Z := 0.
Definition knownRequiredFeatures : Z := 0.
Definition superblockStateEmpty : Z := 0.
Definition superblockStateInitializing : Z := 1.
Definition superblockStateReady : Z := 2.
Definition detachedToken : Z := 1.

Record endpointRecord := mkEp { ep_token : Z; ep_pid : Z; ep_heartbeat : Z; ep_interval : Z }.

Definition zero_ep : endpointRecord := mkEp 0 0 0 0.

#[export] Instance endpointRecord_eq_dec : EqDecision endpointRecord.
Proof. solve_decision. Defined.

Record standardSuperblock := mkSb {
  sb_magic : Z; sb_state : Z; sb_major : Z; sb_minor : Z;
  sb_pageSize : Z; sb_bufferCount : Z; sb_bufferSize : Z; sb_layoutSize : Z;
  sb_epoch : Z; sb_initToken : Z; sb_initHeartbeat : Z; sb_requiredFeatures : Z;
  sb_creatorToken : Z;
  sb_primary : endpointRecord;
  sb_secondary : endpointRecord;
  sb_rest : bytes           (* the remaining bytes of the page *)
}.

Definition set_state (v : Z) (s : standardSuperblock) : standardSuperblock :=
  mkSb (sb_magic s) v (sb_major s) (sb_minor s) (sb_pageSize s) (sb_bufferCount s) (sb_bufferSize s)
    (sb_layoutSize s) (sb_epoch s) (sb_initToken s) (sb_initHeartbeat s) (sb_requiredFeatures s)
    (sb_creatorToken s) (sb_primary s) (sb_secondary s) (sb_rest s).

Definition set_init (tok creator hb : Z) (s : standardSuperblock) : standardSuperblock :=
  mkSb (sb_magic s) (sb_state s) (sb_major s) (sb_minor s) (sb_pageSize s) (sb_bufferCount s) (sb_bufferSize s)
    (sb_layoutSize s) (sb_epoch s) tok hb (sb_requiredFeatures s) creator (sb_primary s) (sb_secondary s) (sb_rest s).

Definition set_secondary (e : endpointRecord) (s : standardSuperblock) : standardSuperblock :=
  mkSb (sb_magic s) (sb_state s) (sb_major s) (sb_minor s) (sb_pageSize s) (sb_bufferCount s) (sb_bufferSize s)
    (sb_layoutSize s) (sb_epoch s) (sb_initToken s) (sb_initHeartbeat s) (sb_requiredFeatures s)
    (sb_creatorToken s) (sb_primary s) e (sb_rest s).

Definition set_primary (e : endpointRecord) (s : standardSuperblock) : standardSuperblock :=
  mkSb (sb_magic s) (sb_state s) (sb_major s) (sb_minor s) (sb_pageSize s) (sb_bufferCount s) (sb_bufferSize s)
    (sb_layoutSize s) (sb_epoch s) (sb_initToken s) (sb_initHeartbeat s) (sb_requiredFeatures s)
    (sb_creatorToken s) e (sb_secondary s) (sb_rest s).

Definition set_geometry (ps bc bs ls : Z) (s : standardSuperblock) : standardSuperblock :=
  mkSb (sb_magic s) (sb_state s) (sb_major s) (sb_minor s) ps bc bs ls (sb_epoch s) (sb_initToken s)
    (sb_initHeartbeat s) (sb_requiredFeatures s) (sb_creatorToken s) (sb_primary s) (sb_secondary s) (sb_rest s).

Definition set_magic (v : Z) (s : standardSuperblock) : standardSuperblock :=
  mkSb v (sb_state s) (sb_major s) (sb_minor s) (sb_pageSize s) (sb_bufferCount s) (sb_bufferSize s)
    (sb_layoutSize s) (sb_epoch s) (sb_initToken s) (sb_initHeartbeat s) (sb_requiredFeatures s)
    (sb_creatorToken s) (sb_primary s) (sb_secondary s) (sb_rest s).

Definition set_epoch (v : Z) (s : standardSuperblock) : standardSuperblock :=
  mkSb (sb_magic s) (sb_state s) (sb_major s) (sb_minor s) (sb_pageSize s) (sb_bufferCount s) (sb_bufferSize s)
    (sb_layoutSize s) v (sb_initToken s) (sb_initHeartbeat s) (sb_requiredFeatures s)
    (sb_creatorToken s) (sb_primary s) (sb_secondary s) (sb_rest s).

Definition stampLayout (s : standardSuperblock) : standardSuperblock :=
  mkSb (sb_magic s) (sb_state s) superblockMajor superblockMinor (sb_pageSize s) (sb_bufferCount s) (sb_bufferSize s)
    (sb_layoutSize s) (sb_epoch s) (sb_initToken s) (sb_initHeartbeat s) 0
    (sb_creatorToken s) (sb_primary s) (sb_secondary s) (sb_rest s).

Definition ep_zero (e : endpointRecord) : bool := bool_decide (e = zero_ep).

Definition firstPageZero (s : standardSuperblock) : bool :=
  (sb_magic s =? 0) && (sb_state s =? 0) && (sb_major s =? 0) && (sb_minor s =? 0) && (sb_pageSize s =? 0)
  && (sb_bufferCount s =? 0) && (sb_bufferSize s =? 0) && (sb_layoutSize s =? 0) && (sb_epoch s =? 0)
  && (sb_initToken s =? 0) && (sb_initHeartbeat s =? 0) && (sb_requiredFeatures s =? 0)
  && (sb_creatorToken s =? 0) && ep_zero (sb_primary s) && ep_zero (sb_secondary s)
  && forallb (Z.eqb 0) (sb_rest s).

Definition isOwnerToken (t : Z) : bool := negb (t =? 0) && negb (t =? detachedToken).

Definition checkLayoutCompat (s : standardSuperblock) (initializing : bool) : option error :=
  if negb (and_not (sb_requiredFeatures s) knownRequiredFeatures =? 0) then Some ErrIncompatibleLayout
  else if negb initializing then
    if negb (sb_magic s =? superblockMagic) || negb (sb_major s =? superblockMajor)
    then Some ErrIncompatibleLayout else None
  else if negb (sb_magic s =? 0) && negb (sb_magic s =? superblockMagic) then Some ErrIncompatibleLayout
  else if negb (sb_major s =? superblockMajor) && (negb (sb_major s =? 0) || negb (sb_initToken s =? 0))
    then Some ErrIncompatibleLayout
  else None.

(** ** Liveness of an endpoint record *)

Definition heartbeatFutureSlack : Z := second.

(** [wall]: the wall clock in unix nanoseconds. *)
Definition wallAge (wall ts : Z) : Z := wall - i64 ts.

Definition heartbeatFresh (wall ts timeout : Z) : bool :=
  let age := wallAge wall ts in (- heartbeatFutureSlack <? age) && (age <? timeout).

Definition effectivePeerTimeout (opts : LinkOptions) (interval : Z) : Z :=
  if PeerTimeout opts <? 4 * interval then 4 * interval else PeerTimeout opts.

(** The progress watch of [endpointAliveAtOpen]: what each pass of its loop
    observes, until the window ends ([samples] exhausted): the error of the
    sleep, or the record. *)
Fixpoint watch_progress (hb tok : Z) (samples : list (result error endpointRecord)) : result error bool :=
  match samples with
  | [] => Ok false
  | Err e :: _ => Err e
  | Ok rec :: rest =>
      if negb (ep_heartbeat rec =? hb) || negb (ep_token rec =? tok)
      then Ok (isOwnerToken (ep_token rec))
      else watch_progress hb tok rest
  end.

Definition endpointAliveAtOpen (opts : LinkOptions) (wall : Z) (rec : endpointRecord)
    (samples : list (result error endpointRecord)) : result error bool :=
  let tok := ep_token rec in
  if negb (isOwnerToken tok) then Ok false
  else
    let interval := i64 (ep_interval rec) in
    if interval <=? 0 then Ok true
    else
      let hb := ep_heartbeat rec in
      if hb =? 0 then Ok true
      else if heartbeatFresh wall hb (effectivePeerTimeout opts interval) then Ok true
      else watch_progress hb tok samples.

Definition clearEndpoint (_ : endpointRecord) : endpointRecord := zero_ep.

Definition fillEndpoint (pid wall : Z) (opts : LinkOptions) (e : endpointRecord) : endpointRecord :=
  mkEp (ep_token e) pid wall (u64 (HeartbeatInterval opts)).

(** ** Initialization *)

(** [beginInit]: [itf] is what other endpoints do between the stamp and the
    compare-and-swap. *)
Definition beginInit (itf : standardSuperblock -> standardSuperblock) (token expected wall : Z) (opts : LinkOptions)
    (s : standardSuperblock) : standardSuperblock * bool :=
  let s := itf (stampLayout s) in
  if sb_initToken s =? expected then (set_init token (o_creatorToken opts) wall s, true) else (s, false).

(** [initSession.check] *)
Definition init_check (ctx_err : option error) (token : Z) (s : standardSuperblock) : option error :=
  match ctx_err with
  | Some e => Some e
  | None => if sb_initToken s =? token then None else Some errInitContended
  end.

(** [initSession.progress] *)
Definition init_progress (token wall : Z) (s : standardSuperblock) : standardSuperblock :=
  if sb_initToken s =? token then set_init token (sb_creatorToken s) wall s else s.

(** [zeroInChunks]: [check i] is the result of the [i]-th check. Returns the
    buffer, the number of progress calls and the error. *)
Fixpoint zeroInChunks (fuel : nat) (b : bytes) (chunk : nat) (check : nat -> option error) (i : nat)
  : option (bytes * nat * option error) :=
  match b with
  | [] => Some ([], i, None)
  | _ =>
      match fuel with
      | O => None
      | S fuel' =>
          match check i with
          | Some e => Some (b, i, Some e)
          | None =>
              let n := Nat.min (length b) chunk in
              match zeroInChunks fuel' (drop n b) chunk check (S i) with
              | None => None
              | Some (rest, i', e) => Some (replicate n 0 ++ rest, i', e)
              end
          end
      end
  end.

(** The write steps of [publishSuperblock]. *)
Definition publish_writes (ps bc bs ls token pid wall : Z) (opts : LinkOptions)
  : list (standardSuperblock -> standardSuperblock) :=
  [ stampLayout;
    set_geometry ps bc bs ls;
    (fun s => set_secondary (clearEndpoint (sb_secondary s)) s);
    (fun s => set_primary (fillEndpoint pid wall opts (mkEp token (ep_pid (sb_primary s)) 0 0)) s);
    set_magic superblockMagic ].

Definition commitInit (token : Z) (s : standardSuperblock) : standardSuperblock * result error Z :=
  if sb_initToken s =? token then
    let epoch := u64 (sb_epoch s + 1) in
    (set_state superblockStateReady (set_epoch epoch (set_init 0 (sb_creatorToken s) (sb_initHeartbeat s) s)), Ok epoch)
  else (s, Err errInitContended).

(** The write loop: [itf] runs before every check, [ctx] is the context error
    at every check. *)
Fixpoint publish_loop (itf : nat -> standardSuperblock -> standardSuperblock) (ctx : nat -> option error) (token : Z)
    (writes : list (standardSuperblock -> standardSuperblock)) (i : nat) (s : standardSuperblock)
  : standardSuperblock * result error Z :=
  match writes with
  | [] => commitInit token (itf i s)
  | w :: rest =>
      let s := itf i s in
      match init_check (ctx i) token s with
      | Some e => (s, Err e)
      | None => publish_loop itf ctx token rest (S i) (w s)
      end
  end.

Definition publishSuperblock itf ctx (ps bc bs ls token pid wall : Z) (opts : LinkOptions) (s : standardSuperblock) :=
  publish_loop itf ctx token (publish_writes ps bc bs ls token pid wall opts) 0 s.

(** ** One look of [claimSuperblock] *)

Inductive LinkMode := LinkModePrimary | LinkModeSecondary.

#[export] Instance LinkMode_eq_dec : EqDecision LinkMode.
Proof. solve_decision. Defined.

(** [initWatch] and [emptySince]. *)
Record claim_local := mkClaim {
  watch : option (Z * Z * Z);   (* token, heartbeat, since *)
  emptySince : option Z
}.

Inductive look :=
| Claimed (mode : LinkMode) (mustInit : bool)
| Failed (e : error)
| Again                  (* continue *)
| Poll.                  (* sleep claimPollInterval and look again *)

(** What one look observes besides the superblock. *)
Record look_env := mkEnv {
  le_ctx : option error;                       (* ctx.Err() *)
  le_now : Z;                                  (* monotonic clock *)
  le_wall : Z;                                 (* wall clock *)
  le_deadline : Z;                             (* deadline of the claim *)
  le_alive : endpointRecord -> result error bool;  (* endpointAliveAtOpen *)
  le_pid : Z
}.

(** The end of an iteration: give up, look again or sleep. *)
Definition claim_tail (env : look_env) (stale : Z) (stalling emptyWait : bool) (loc : claim_local)
    (s : standardSuperblock) : standardSuperblock * claim_local * look :=
  let limit :=
    match watch loc with
    | Some (_, _, since) =>
        if stalling && (since <? le_deadline env) then Z.max (le_deadline env) (since + stale) else le_deadline env
    | None => le_deadline env
    end in
  if negb emptyWait && (limit <? le_now env) then
    if stalling && match watch loc with Some (_, _, since) => stale <=? le_now env - since | None => false end
    then (s, loc, Again) else (s, loc, Failed errInitContended)
  else (s, loc, Poll).

(** Compare-and-swap of the state and, if it succeeds, [beginInit] with the
    [initToken] loaded after it. *)
Definition claim_state (itf : nat -> standardSuperblock -> standardSuperblock) (env : look_env) (token from : Z)
    (opts : LinkOptions) (s : standardSuperblock) : option (standardSuperblock * look) :=
  let s := itf 1%nat s in
  if sb_state s =? from then
    let s := itf 2%nat (set_state superblockStateInitializing s) in
    let (s, ok) := beginInit (itf 3%nat) token (sb_initToken s) (le_wall env) opts s in
    Some (s, if ok then Claimed LinkModePrimary true else Failed errInitContended)
  else None.

Definition claim_look (itf : nat -> standardSuperblock -> standardSuperblock) (env : look_env) (want : Geometry)
    (token : Z) (opts : LinkOptions) (loc : claim_local) (s : standardSuperblock)
  : standardSuperblock * claim_local * look :=
  match le_ctx env with
  | Some e => (s, loc, Failed e)
  | None =>
      let s := itf 0%nat s in
      let st := sb_state s in
      let stale := initStaleWindow opts in
      let loc := mkClaim (if st =? superblockStateInitializing then watch loc else None)
                         (if st =? superblockStateEmpty then emptySince loc else None) in
      let s := itf 4%nat s in
      if st =? superblockStateEmpty then
        if negb (firstPageZero s) then
          let s := itf 1%nat s in
          if negb (sb_state s =? superblockStateEmpty) then (s, loc, Again) else (s, loc, Failed ErrIncompatibleLayout)
        else if decide (role opts = roleOpener) then
          let since := default (le_now env) (emptySince loc) in
          let loc := mkClaim (watch loc) (Some since) in
          if AttachTimeout opts <=? le_now env - since then (s, loc, Failed errSegmentNotReady)
          else claim_tail env stale false true loc s
        else
          match claim_state itf env token superblockStateEmpty opts s with
          | Some (s, r) => (s, loc, r)
          | None => claim_tail env stale false false loc (itf 1%nat s)
          end
      else if st =? superblockStateInitializing then
        let tok := sb_initToken s in
        let s := itf 5%nat s in
        let hb := sb_initHeartbeat s in
        let s := itf 6%nat s in
        match checkLayoutCompat s true with
        | Some e => (s, loc, Failed e)
        | None =>
            if decide (role opts = roleOpener) then claim_tail env stale false false loc s
            else
              match watch loc with
              | Some (wtok, whb, since) =>
                  if negb (wtok =? tok) || negb (whb =? hb) then
                    claim_tail env stale true false (mkClaim (Some (tok, hb, le_now env)) (emptySince loc)) s
                  else if stale <=? le_now env - since then
                    let (s, ok) := beginInit (itf 3%nat) token tok (le_wall env) opts s in
                    if ok then (s, loc, Claimed LinkModePrimary true)
                    else claim_tail env stale true false (mkClaim None (emptySince loc)) s
                  else claim_tail env stale true false loc s
              | None => claim_tail env stale true false (mkClaim (Some (tok, hb, le_now env)) (emptySince loc)) s
              end
        end
      else if st =? superblockStateReady then
        match checkLayoutCompat s false with
        | Some e => (s, loc, Failed e)
        | None =>
            let s := itf 5%nat s in
            match le_alive env (sb_primary s) with
            | Err e => (s, loc, Failed e)
            | Ok primaryAlive =>
                let s := itf 6%nat s in
                match le_alive env (sb_secondary s) with
                | Err e => (s, loc, Failed e)
                | Ok secondaryAlive =>
                    if negb primaryAlive && negb secondaryAlive then
                      if decide (role opts = roleOpener) then (s, loc, Failed errNoLiveEndpoint)
                      else
                        match claim_state itf env token superblockStateReady opts s with
                        | Some (s, r) => (s, loc, r)
                        | None => (itf 1%nat s, loc, Again)
                        end
                    else if decide (role opts = roleCreator) then (s, loc, Failed ErrLinkBusy)
                    else
                      let s := itf 7%nat s in
                      let got := mkGeometry (i64 (sb_bufferCount s)) (i64 (sb_bufferSize s)) (sb_layoutSize s) (sb_pageSize s) in
                      if negb (bool_decide (got = want)) then (s, loc, Failed (GeometryError want got))
                      else
                        let s := itf 8%nat s in
                        if primaryAlive && (ep_token (sb_secondary s) =? 0) then
                          let s := itf 1%nat s in
                          if ep_token (sb_secondary s) =? 0 then
                            (set_secondary (fillEndpoint (le_pid env) (le_wall env) opts
                               (mkEp token (ep_pid (sb_secondary s)) (ep_heartbeat (sb_secondary s)) (ep_interval (sb_secondary s)))) s,
                             loc, Claimed LinkModeSecondary false)
                          else (s, loc, Again)
                        else (s, loc, Failed ErrLinkBusy)
                end
            end
        end
      else (s, loc, Failed ErrIncompatibleLayout)
  end.

(** ** The peer monitor *)

Inductive PeerState := PeerNotConnected | PeerConnected | PeerClosed | PeerGone.

Definition peer_err (s : PeerState) : option error :=
  match s with PeerClosed => Some ErrPeerClosed | PeerGone => Some ErrPeerGone | _ => None end.

Record peerMonitor := mkMonitor { status : PeerState; pm_token : Z; lastHB : Z; lastChange : Z }.

Definition new_monitor : peerMonitor := mkMonitor PeerNotConnected 0 0 0.

(** What an endpoint knows about itself: role index, token, epoch. *)
Record identity := mkId { id_primary : bool; id_token : Z; id_epoch : Z }.

Definition self_rec (i : identity) (s : standardSuperblock) : endpointRecord :=
  if id_primary i then sb_primary s else sb_secondary s.
Definition peer_rec (i : identity) (s : standardSuperblock) : endpointRecord :=
  if id_primary i then sb_secondary s else sb_primary s.

Definition with_status (st : PeerState) (m : peerMonitor) : peerMonitor :=
  mkMonitor st (pm_token m) (lastHB m) (lastChange m).

Definition checkPeer (opts : LinkOptions) (i : identity) (now : Z) (s : standardSuperblock) (m : peerMonitor)
  : peerMonitor * option error :=
  match peer_err (status m) with
  | Some e => (m, Some e)
  | None =>
      if negb (sb_epoch s =? id_epoch i) || negb (ep_token (self_rec i s) =? id_token i)
      then (with_status PeerGone m, Some ErrPeerGone)
      else
        let rec := peer_rec i s in
        let tok := ep_token rec in
        if tok =? detachedToken then (with_status PeerClosed m, Some ErrPeerClosed)
        else if pm_token m =? 0 then
          if negb (tok =? 0) then (mkMonitor PeerConnected tok (ep_heartbeat rec) now, None) else (m, None)
        else if negb (tok =? pm_token m) then (with_status PeerGone m, Some ErrPeerGone)
        else
          let interval := i64 (ep_interval rec) in
          if interval <=? 0 then (m, None)
          else if negb (ep_heartbeat rec =? lastHB m) then
            (mkMonitor (status m) (pm_token m) (ep_heartbeat rec) now, None)
          else if effectivePeerTimeout opts interval <? now - lastChange m
            then (with_status PeerGone m, Some ErrPeerGone)
          else (m, None)
  end.

(** A sequence of checks, each with the time and memory it sees. *)
Fixpoint checks (opts : LinkOptions) (i : identity) (obs : list (Z * standardSuperblock)) (m : peerMonitor) : peerMonitor :=
  match obs with
  | [] => m
  | (now, s) :: rest => checks opts i rest (checkPeer opts i now s m).1
  end.

(** ** Lemmas *)

Lemma firstPageZero_spec s :
  firstPageZero s = true -> sb_state s = 0 /\ sb_initToken s = 0 /\ sb_epoch s = 0 /\
    sb_primary s = zero_ep /\ sb_secondary s = zero_ep.
Proof.
  unfold firstPageZero, ep_zero. intros H. repeat (apply andb_true_iff in H; destruct H as [H ?]).
  breflect. repeat match goal with E : bool_decide _ = true |- _ => apply bool_decide_eq_true in E end. done.
Qed.

Lemma beginInit_ok itf token expected wall opts s s' :
  beginInit itf token expected wall opts s = (s', true) ->
  sb_initToken s' = token /\ sb_creatorToken s' = o_creatorToken opts.
Proof. unfold beginInit. destruct (_ =? _); intros; simplify_eq. done. Qed.

Lemma claim_tail_look env stale st ew loc s :
  let '(s', _, r) := claim_tail env stale st ew loc s in
  s' = s /\ (r = Again \/ r = Failed errInitContended \/ r = Poll).
Proof. unfold claim_tail. repeat case_match; simplify_eq; auto. Qed.

(** The ways a look can claim the segment as Primary. *)
Lemma claim_state_ok itf env token from opts s s' r :
  claim_state itf env token from opts s = Some (s', r) ->
  (r = Claimed LinkModePrimary true /\ sb_initToken s' = token) \/ r = Failed errInitContended.
Proof.
  unfold claim_state. destruct (_ =? from); [|done].
  destruct (beginInit _ _ _ _ _ _) as [s1 ok] eqn:E. intros. simplify_eq. destruct ok; [left|by right].
  split; [done|]. by eapply beginInit_ok.
Qed.

(** A tail never claims. *)
Ltac tail_case :=
  match goal with
  | H : claim_tail ?env ?stale ?st ?ew ?loc ?s = _ |- _ =>
      pose proof (claim_tail_look env stale st ew loc s) as Ht; rewrite H in Ht;
      destruct Ht as [Hst [Hr|[Hr|Hr]]]; simplify_eq
  end.

(** ** Properties *)

(** What a look may decide, whatever other processes do between its accesses.
    Only an endpoint that is not an opener ever becomes Primary; it then owns
    the initialization, and if it took it over from another initializer, that
    one had shown no progress for the whole stale window. Only an endpoint
    that is not a creator ever becomes Secondary, on a segment seen Ready with
    its own geometry, a live Primary and a secondary slot that was never used
    and that the compare-and-swap found unused still. Each condition is about
    the superblock as the access that checks it found it. *)
Theorem claim_look_sound (itf : nat -> standardSuperblock -> standardSuperblock) (env : look_env) (want : Geometry)
  (token : Z) (opts : LinkOptions) (loc loc' : claim_local) (s s' : standardSuperblock) (mode : LinkMode) (mustInit : bool)
  (H : claim_look itf env want token opts loc s = (s', loc', Claimed mode mustInit)) :
  let seen := itf 0%nat s in
  let seen4 := itf 4%nat seen in let seen5 := itf 5%nat seen4 in let seen6 := itf 6%nat seen5 in
  let seen7 := itf 7%nat seen6 in let seen8 := itf 8%nat seen7 in
  match mode with
  | LinkModePrimary =>
      mustInit = true /\ role opts <> roleOpener /\ sb_initToken s' = token /\
      ((sb_state seen = superblockStateEmpty /\ firstPageZero seen4 = true) \/
       (sb_state seen = superblockStateReady /\ checkLayoutCompat seen4 false = None /\
        le_alive env (sb_primary seen5) = Ok false /\ le_alive env (sb_secondary seen6) = Ok false) \/
       (sb_state seen = superblockStateInitializing /\ checkLayoutCompat seen6 true = None /\
        exists since, watch loc = Some (sb_initToken seen4, sb_initHeartbeat seen5, since) /\
          initStaleWindow opts <= le_now env - since))
  | LinkModeSecondary =>
      mustInit = false /\ role opts <> roleCreator /\ sb_state seen = superblockStateReady /\
      checkLayoutCompat seen4 false = None /\ le_alive env (sb_primary seen5) = Ok true /\
      want = mkGeometry (i64 (sb_bufferCount seen7)) (i64 (sb_bufferSize seen7)) (sb_layoutSize seen7) (sb_pageSize seen7) /\
      ep_token (sb_secondary seen8) = 0 /\ ep_token (sb_secondary (itf 1%nat seen8)) = 0 /\
      ep_token (sb_secondary s') = token
  end.
Proof.
  intros seen seen4 seen5 seen6 seen7 seen8. unfold claim_look in H. cbv zeta in H. destruct (le_ctx env); [done|].
  fold seen in H. fold seen4 in H. fold seen5 in H. fold seen6 in H. fold seen7 in H. fold seen8 in H.
  destruct (Z.eqb_spec (sb_state seen) superblockStateEmpty) as [E0|E0].
  - destruct (firstPageZero seen4) eqn:Ez; simpl in H; [|by destruct (_ =? _)].
    destruct (decide (role opts = roleOpener)); [destruct (_ <=? _); [done|]; by tail_case|].
    destruct (claim_state _ _ _ _ _ _) as [[s1 r]|] eqn:Ec; [|by tail_case].
    apply claim_state_ok in Ec as [[-> Ht]| ->]; simplify_eq. split_and!; try done. by left.
  - destruct (Z.eqb_spec (sb_state seen) superblockStateInitializing) as [E1|E1].
    + destruct (checkLayoutCompat seen6 true) eqn:El; [done|].
      destruct (decide (role opts = roleOpener)); [by tail_case|].
      simpl in H.
      destruct (watch loc) as [[[wt wh] since]|] eqn:Ew; [|by tail_case].
      destruct (negb _ || negb _) eqn:En; [by tail_case|]. breflect.
      destruct (Z.leb_spec (initStaleWindow opts) (le_now env - since)) as [Hs|Hs]; [|by tail_case].
      destruct (beginInit _ _ _ _ _ _) as [s1 [|]] eqn:Eb; [|by tail_case]. simplify_eq.
      apply beginInit_ok in Eb as [Hi _]. split_and!; try done. right. right. split_and!; try done.
      exists since. split; [congruence|done].
    + destruct (Z.eqb_spec (sb_state seen) superblockStateReady) as [E2|E2]; [|done].
      destruct (checkLayoutCompat seen4 false) eqn:El; [done|].
      destruct (le_alive env (sb_primary seen5)) as [pa|] eqn:Ep; [|done].
      destruct (le_alive env (sb_secondary seen6)) as [sa|] eqn:Es; [|done].
      destruct (negb pa && negb sa) eqn:Ed.
      * destruct (decide (role opts = roleOpener)); [done|].
        destruct (claim_state _ _ _ _ _ _) as [[s1 r]|] eqn:Ec; [|done].
        apply claim_state_ok in Ec as [[-> Ht]| ->]; simplify_eq. split_and!; try done.
        right. left. destruct pa, sa; done.
      * destruct (decide (role opts = roleCreator)); [done|].
        destruct (negb (bool_decide _)) eqn:Eg; [done|]. apply negb_false_iff, bool_decide_eq_true in Eg.
        destruct (pa && _) eqn:Ea; [|done]. apply andb_true_iff in Ea as [-> Ea]. apply Z.eqb_eq in Ea.
        destruct (_ =? 0) eqn:Ecas; [|done]. apply Z.eqb_eq in Ecas. simplify_eq. done.
Qed.

(** Refusing changes nothing. With nobody else running, a look that fails or
    goes on waiting leaves every word of the superblock as it is: foreign
    data, segments of other layouts and live sessions are never touched. *)
Theorem claim_look_harmless (env : look_env) (want : Geometry) (token : Z) (opts : LinkOptions)
  (loc : claim_local) (s : standardSuperblock) :
  let '(s', _, r) := claim_look (fun _ x => x) env want token opts loc s in
  match r with
  | Claimed _ _ => True
  | _ => s' = s
  end.
Proof.
  assert (Hcs : forall from x s1 r, claim_state (fun _ y => y) env token from opts x = Some (s1, r) ->
    exists m b, r = Claimed m b).
  { intros from x s1 r. unfold claim_state, beginInit. destruct (_ =? from); [|done]. simpl.
    rewrite Z.eqb_refl. intros. simplify_eq. eauto. }
  destruct (claim_look _ _ _ _ _ _ _) as [[s' loc'] r] eqn:H. unfold claim_look in H. cbv zeta beta in H.
  destruct (le_ctx env); [by simplify_eq|].
  destruct (_ =? superblockStateEmpty).
  { destruct (negb (firstPageZero s)); [destruct (negb _); by simplify_eq|].
    destruct (decide _); [destruct (_ <=? _); [by simplify_eq|]; by tail_case|].
    destruct (claim_state _ _ _ _ _ _) as [[s1 r1]|] eqn:Ec; [|by tail_case].
    destruct (Hcs _ _ _ _ Ec) as (m & b & ->). by simplify_eq. }
  destruct (sb_state s =? superblockStateInitializing).
  { destruct (checkLayoutCompat s true); [by simplify_eq|]. destruct (decide _); [by tail_case|]. simpl in H.
    destruct (watch loc) as [[[wt wh] since]|]; [|by tail_case].
    destruct (negb _ || negb _); [by tail_case|]. destruct (_ <=? _); [|by tail_case].
    unfold beginInit in H. simpl in H. rewrite Z.eqb_refl in H. by simplify_eq. }
  destruct (_ =? superblockStateReady); [|by simplify_eq].
  destruct (checkLayoutCompat s false); [by simplify_eq|].
  destruct (le_alive env (sb_primary s)); [|by simplify_eq]. destruct (le_alive env (sb_secondary s)); [|by simplify_eq].
  destruct (negb _ && negb _).
  { destruct (decide _); [by simplify_eq|].
    destruct (claim_state _ _ _ _ _ _) as [[s1 r1]|] eqn:Ec; [|by simplify_eq].
    destruct (Hcs _ _ _ _ Ec) as (m & b & ->). by simplify_eq. }
  destruct (decide _); [by simplify_eq|]. destruct (negb _); [by simplify_eq|].
  destruct (_ && _); [|by simplify_eq]. destruct (_ =? 0); by simplify_eq.
Qed.

(** A page of zeros. *)
Definition blank : standardSuperblock := mkSb 0 0 0 0 0 0 0 0 0 0 0 0 0 zero_ep zero_ep (replicate 16 0).

Definition default_opts (r : attachRole) : LinkOptions := normalized (mkOpts 0 0 0 r 0 0).

Lemma claim_look_sound_witness :
  let env := mkEnv None 0 0 0 (fun _ => Ok false) 42 in
  exists s', claim_look (fun _ x => x) env (mkGeometry 4 64 0 0) 9 (default_opts roleCreator) (mkClaim None None) blank =
    (s', mkClaim None None, Claimed LinkModePrimary true) /\ sb_initToken s' = 9.
Proof.
  intros env. eexists. split; [vm_compute; reflexivity|].
  match goal with |- sb_initToken ?s1 = _ =>
    pose proof (claim_look_sound (fun _ y => y) env (mkGeometry 4 64 0 0) 9 (default_opts roleCreator)
      (mkClaim None None) (mkClaim None None) blank s1 LinkModePrimary true eq_refl) as H end.
  exact (proj1 (proj2 (proj2 H))).
Defined.

(** *** Initialization *)

Lemma publish_loop_lost itf ctx token writes : forall i s j,
  (i <= j <= i + length writes)%nat -> (forall x, sb_initToken (itf j x) <> token) ->
  exists i' s0 e, (i' <= j)%nat /\ publish_loop itf ctx token writes i s = (itf i' s0, Err e).
Proof.
  induction writes as [|w writes IH]; intros i s j Hj Hl; simpl in *.
  - assert (i = j) by lia. subst. unfold commitInit. rewrite (proj2 (Z.eqb_neq _ _) (Hl s)).
    exists j, s, errInitContended. done.
  - destruct (init_check (ctx i) token (itf i s)) as [e|] eqn:E; [exists i, s, e; split; [lia|done]|].
    destruct (decide (i = j)) as [->|Hne].
    + unfold init_check in E. destruct (ctx j); [done|]. destruct (Z.eqb_spec (sb_initToken (itf j s)) token); [|done].
      by destruct (Hl s).
    + apply IH; [lia|done].
Qed.

(** Publishing. On its own, an initializer that owns the segment leaves it
    Ready, with its layout, its geometry, itself as the live Primary, an
    unused secondary slot, nobody initializing and the epoch advanced. If
    another endpoint takes the initialization over before any of the six
    checks, publishing fails and what it leaves is what the others left at
    the check that failed: not a single store follows the takeover. *)
Theorem publishSuperblock_correct (ps bc bs ls token pid wall : Z) (opts : LinkOptions) (s : standardSuperblock)
  (Hown : sb_initToken s = token) :
  (exists s', publishSuperblock (fun _ x => x) (fun _ => None) ps bc bs ls token pid wall opts s =
      (s', Ok (u64 (sb_epoch s + 1))) /\
    sb_state s' = superblockStateReady /\ checkLayoutCompat s' false = None /\
    (sb_pageSize s', sb_bufferCount s', sb_bufferSize s', sb_layoutSize s') = (ps, bc, bs, ls) /\
    sb_primary s' = mkEp token pid wall (u64 (HeartbeatInterval opts)) /\ sb_secondary s' = zero_ep /\
    sb_initToken s' = 0 /\ sb_epoch s' = u64 (sb_epoch s + 1)) /\
  (forall itf ctx j, (j <= 5)%nat -> (forall x, sb_initToken (itf j x) <> token) ->
     exists i s0 e, (i <= j)%nat /\
       publishSuperblock itf ctx ps bc bs ls token pid wall opts s = (itf i s0, Err e)).
Proof.
  split.
  - eexists. unfold publishSuperblock. split.
    + unfold publish_writes. cbn -[commitInit Z.eqb]. rewrite Hown, !Z.eqb_refl. cbn -[Z.eqb].
      unfold commitInit. cbn -[Z.eqb]. rewrite Hown, Z.eqb_refl. reflexivity.
    + split_and!; reflexivity.
  - intros itf ctx j Hj Hl. apply publish_loop_lost; [simpl; lia|done].
Qed.

Lemma publishSuperblock_correct_witness :
  let s := set_init 9 0 0 blank in
  (exists s', publishSuperblock (fun _ x => x) (fun _ => None) 4096 4 64 1000 9 42 7 (default_opts roleCreator) s =
     (s', Ok 1) /\ sb_state s' = superblockStateReady) /\
  exists i s0 e, (i <= 3)%nat /\
    publishSuperblock (fun i x => if (i =? 3)%nat then set_init 10 0 0 x else x) (fun _ => None)
      4096 4 64 1000 9 42 7 (default_opts roleCreator) s =
    ((if (i =? 3)%nat then set_init 10 0 0 s0 else s0), Err e).
Proof.
  intros s. pose proof (publishSuperblock_correct 4096 4 64 1000 9 42 7 (default_opts roleCreator) s eq_refl) as [H1 H2].
  split.
  - destruct H1 as (s' & E & Hs & _). exists s'. split; [exact E|exact Hs].
  - apply (H2 (fun i x => if (i =? 3)%nat then set_init 10 0 0 x else x) (fun _ => None) 3%nat); [lia|].
    intros x. simpl. lia.
Defined.

(** Zeroing in slices: it terminates; when every check passes the whole buffer
    is zero; when the check before slice [n] fails, exactly the [n] slices
    before it are zero and everything behind them is untouched. *)
Theorem zeroInChunks_correct (b : bytes) (chunk : nat) (check : nat -> option error) (Hc : (0 < chunk)%nat) :
  exists out n e, zeroInChunks (length b) b chunk check 0 = Some (out, n, e) /\ length out = length b /\
    match e with
    | None => out = replicate (length b) 0
    | Some err => check n = Some err /\ (n * chunk < length b)%nat /\
        out = replicate (n * chunk) 0 ++ drop (n * chunk) b
    end.
Proof.
  assert (G : forall fuel b i, (length b <= fuel)%nat -> exists out n e,
    zeroInChunks fuel b chunk check i = Some (out, (i + n)%nat, e) /\ length out = length b /\
    match e with
    | None => out = replicate (length b) 0
    | Some err => check (i + n)%nat = Some err /\ (n * chunk < length b)%nat /\
        out = replicate (n * chunk) 0 ++ drop (n * chunk) b
    end).
  { induction fuel as [|fuel IH]; intros b0 i Hf; destruct b0 as [|x b0]; simpl in Hf; try lia.
    - exists [], 0%nat, None. rewrite Nat.add_0_r. done.
    - exists [], 0%nat, None. rewrite Nat.add_0_r. done.
    - cbn [zeroInChunks]. destruct (check i) as [err|] eqn:Ei.
      { exists (x :: b0), 0%nat, (Some err). rewrite Nat.add_0_r. split_and!; [done..|simpl; lia|done]. }
      set (l := x :: b0) in *. set (k := Nat.min (length l) chunk).
      assert (Hk : (1 <= k <= length l)%nat) by (unfold k, l; cbn [length]; lia).
      destruct (IH (drop k l) (S i)) as (out & n & e & E & Hlen & Hres); [rewrite length_drop; unfold l in *; simpl in *; lia|].
      rewrite E. exists (replicate k 0 ++ out), (S n), e. rewrite length_drop in Hlen.
      split; [do 3 f_equal; lia|]. split; [rewrite length_app, length_replicate; lia|].
      destruct e as [err|].
      + destruct Hres as (Hch & Hlt & ->). rewrite length_drop in Hlt.
        assert (Ek : k = chunk) by (destruct (Nat.min_spec (length l) chunk) as [[? E2]|[? E2]]; fold k in E2; lia).
        replace (i + S n)%nat with (S i + n)%nat by lia. split_and!; [done|lia|].
        rewrite drop_drop, app_assoc, <- replicate_add. by rewrite Ek.
      + rewrite Hres, length_drop, <- replicate_add. f_equal. lia. }
  destruct (G (length b) b 0%nat (le_n _)) as (out & n & e & E & H). exists out, n, e. done.
Qed.

Lemma zeroInChunks_correct_witness :
  exists out n e, zeroInChunks 5 [1; 2; 3; 4; 5] 2 (fun i => if (i =? 1)%nat then Some errInitContended else None) 0 =
    Some (out, n, e) /\ length out = 5%nat /\ out = [0; 0; 3; 4; 5].
Proof.
  destruct (zeroInChunks_correct [1; 2; 3; 4; 5] 2 (fun i => if (i =? 1)%nat then Some errInitContended else None) ltac:(lia))
    as (out & n & e & E & Hl & _).
  exists out, n, e. split; [exact E|]. split; [exact Hl|]. vm_compute in E. injection E as <- _ _. reflexivity.
Defined.

(** The create/open handshake with nobody else around: a creator claims a blank
    page, initializes and publishes it; an endpoint that opens it then, with
    the same geometry and before the creator's first heartbeat is due, joins
    as the Secondary; a third one, whatever its role, finds the link busy. *)
Theorem create_open_handshake (g : Geometry) (opts1 opts2 opts3 : LinkOptions) (t1 t2 t3 pid1 pid2 now wall : Z)
  (Ht1 : isOwnerToken t1 = true) (Ht2 : isOwnerToken t2 = true)
  (Hg : word 63 (g_BufferCount g) /\ word 63 (g_BufferSize g))
  (Hr1 : role opts1 <> roleOpener) (Hr2 : role opts2 <> roleCreator)
  (Hw : 0 < wall < 2 ^ 63) (Hp2 : 0 < PeerTimeout opts2) (Hp3 : 0 < PeerTimeout opts3) :
  let env o := mkEnv None now wall now (fun r => endpointAliveAtOpen o wall r []) in
  let start := mkClaim None None in
  exists s1 s2 s3,
    claim_look (fun _ x => x) (env opts1 pid1) g t1 opts1 start blank = (s1, start, Claimed LinkModePrimary true) /\
    publishSuperblock (fun _ x => x) (fun _ => None) (g_PageSize g) (g_BufferCount g) (g_BufferSize g)
      (g_LayoutSize g) t1 pid1 wall opts1 s1 = (s2, Ok 1) /\
    claim_look (fun _ x => x) (env opts2 pid2) g t2 opts2 start s2 = (s3, start, Claimed LinkModeSecondary false) /\
    ep_token (sb_primary s3) = t1 /\ ep_token (sb_secondary s3) = t2 /\
    claim_look (fun _ x => x) (env opts3 pid2) g t3 opts3 start s3 = (s3, start, Failed ErrLinkBusy).
Proof.
  intros env start.
  assert (Hi64 : forall x, word 63 x -> i64 x = x).
  { intros x Hx. unfold i64, word in *. rewrite u64_small by (unfold word; lia).
    destruct (Z.ltb_spec x (2 ^ 63)); lia. }
  assert (Halive : forall o t i p, 0 < PeerTimeout o -> isOwnerToken t = true ->
    endpointAliveAtOpen o wall (mkEp t p wall i) [] = Ok true).
  { intros o t i p Hp Ht. unfold endpointAliveAtOpen. simpl. rewrite Ht. simpl.
    destruct (Z.leb_spec (i64 i) 0); [done|]. destruct (Z.eqb_spec wall 0); [done|].
    unfold heartbeatFresh, wallAge, heartbeatFutureSlack, second. rewrite (Hi64 wall) by (unfold word; lia).
    rewrite Z.sub_diag. simpl. destruct (Z.ltb_spec 0 (effectivePeerTimeout o (i64 i))) as [|Hle]; [done|].
    unfold effectivePeerTimeout in Hle. destruct (PeerTimeout o <? 4 * i64 i) eqn:E; breflect; lia. }
  assert (Hdead : forall o, endpointAliveAtOpen o wall zero_ep [] = Ok false) by done.
  set (ep1 := mkEp t1 pid1 wall (u64 (HeartbeatInterval opts1))).
  set (ep2 := mkEp t2 pid2 wall (u64 (HeartbeatInterval opts2))).
  set (ready e := mkSb superblockMagic superblockStateReady superblockMajor superblockMinor (g_PageSize g)
    (g_BufferCount g) (g_BufferSize g) (g_LayoutSize g) 1 0 wall 0 (o_creatorToken opts1) ep1 e (sb_rest blank)).
  exists (set_init t1 (o_creatorToken opts1) wall (stampLayout (set_state superblockStateInitializing blank))),
    (ready zero_ep), (ready ep2).
  assert (Hgeo : mkGeometry (i64 (g_BufferCount g)) (i64 (g_BufferSize g)) (g_LayoutSize g) (g_PageSize g) = g).
  { destruct Hg as [Hg1 Hg2]. rewrite !Hi64 by done. by destruct g. }
  split_and!.
  - unfold claim_look. cbn -[decide Z.eqb]. rewrite decide_False by done. reflexivity.
  - unfold publishSuperblock, publish_writes. cbn -[Z.eqb commitInit]. rewrite !Z.eqb_refl. cbn -[Z.eqb].
    unfold commitInit. cbn -[Z.eqb]. rewrite Z.eqb_refl. reflexivity.
  - unfold claim_look. cbn -[decide endpointAliveAtOpen i64 bool_decide]. unfold ep1. rewrite Halive by done.
    rewrite Hdead. simpl negb. simpl andb. cbv iota. rewrite decide_False by done. rewrite Hgeo.
    rewrite bool_decide_eq_true_2 by done. reflexivity.
  - done.
  - done.
  - unfold claim_look. cbn -[decide endpointAliveAtOpen i64 bool_decide Z.eqb]. unfold ep1, ep2.
    rewrite !Halive by done. simpl negb. simpl andb. cbv iota. rewrite Hgeo.
    rewrite bool_decide_eq_true_2 by done. simpl negb. cbv iota.
    assert (E2 : (t2 =? 0) = false) by (unfold isOwnerToken in Ht2; by destruct (t2 =? 0)). rewrite E2.
    destruct (decide (role opts3 = roleCreator)); reflexivity.
Qed.

Lemma create_open_handshake_witness :
  let env o := mkEnv None 0 5 0 (fun r => endpointAliveAtOpen o 5 r []) in
  exists s1 s2 s3,
    claim_look (fun _ x => x) (env (default_opts roleCreator) 1) (mkGeometry 4 64 9 9) 7 (default_opts roleCreator)
      (mkClaim None None) blank = (s1, mkClaim None None, Claimed LinkModePrimary true) /\
    publishSuperblock (fun _ x => x) (fun _ => None) 9 4 64 9 7 1 5 (default_opts roleCreator) s1 = (s2, Ok 1) /\
    claim_look (fun _ x => x) (env (default_opts roleOpener) 2) (mkGeometry 4 64 9 9) 8 (default_opts roleOpener)
      (mkClaim None None) s2 = (s3, mkClaim None None, Claimed LinkModeSecondary false) /\
    ep_token (sb_secondary s3) = 8.
Proof.
  intros env.
  destruct (create_open_handshake (mkGeometry 4 64 9 9) (default_opts roleCreator) (default_opts roleOpener)
    (default_opts roleAny) 7 8 9 1 2 0 5 eq_refl eq_refl) as (s1 & s2 & s3 & H1 & H2 & H3 & _ & H5 & _).
  - split; unfold word; simpl; lia.
  - discriminate.
  - discriminate.
  - lia.
  - vm_compute. reflexivity.
  - vm_compute. reflexivity.
  - exists s1, s2, s3. split; [exact H1|]. split; [exact H2|]. split; [exact H3|exact H5].
Defined.

(** *** The peer monitor *)

(** A death verdict on a connected peer that still holds its slot, with the
    timeout it is based on. *)
Definition same_session (i : identity) (tok interval : Z) (s : standardSuperblock) : Prop :=
  sb_epoch s = id_epoch i /\ ep_token (self_rec i s) = id_token i /\
  ep_token (peer_rec i s) = tok /\ i64 (ep_interval (peer_rec i s)) = interval.

(** The monitor remembers when the current heartbeat value was first seen. *)
Lemma checks_since opts i tok interval obs : forall m,
  isOwnerToken tok = true -> 0 < interval -> pm_token m = tok -> status m = PeerConnected ->
  Forall (fun o => same_session i tok interval o.2) obs ->
  let m' := checks opts i obs m in
  status m' = PeerConnected ->
  pm_token m' = tok /\
  ((lastHB m' = lastHB m /\ lastChange m' = lastChange m /\
    Forall (fun o => ep_heartbeat (peer_rec i o.2) = lastHB m') obs) \/
   exists pre o post, obs = pre ++ o :: post /\ lastChange m' = o.1 /\
    ep_heartbeat (peer_rec i o.2) = lastHB m' /\
    Forall (fun o => ep_heartbeat (peer_rec i o.2) = lastHB m') post).
Proof.
  induction obs as [|[now s] obs IH]; intros m Ht Hi Hm Hs Hall m' Hst; simpl in *.
  - split; [done|]. left. done.
  - apply Forall_cons_iff in Hall as [(E1 & E2 & E3 & E4) Hall]. simpl in E1, E2, E3, E4.
    assert (Hd : (ep_token (peer_rec i s) =? detachedToken) = false).
    { rewrite E3. unfold isOwnerToken in Ht. by destruct (tok =? 0), (tok =? detachedToken). }
    assert (H0 : (tok =? 0) = false) by (unfold isOwnerToken in Ht; by destruct (tok =? 0)).
    assert (Ecp : checkPeer opts i now s m =
      if negb (ep_heartbeat (peer_rec i s) =? lastHB m) then (mkMonitor PeerConnected tok (ep_heartbeat (peer_rec i s)) now, None)
      else if effectivePeerTimeout opts interval <? now - lastChange m then (with_status PeerGone m, Some ErrPeerGone)
      else (m, None)).
    { unfold checkPeer. rewrite Hs. simpl peer_err. cbv iota.
      rewrite E1, E2, !Z.eqb_refl, Hd, E3, Hm, H0, Z.eqb_refl, E4. simpl.
      destruct (Z.leb_spec interval 0); [lia|]. done. }
    subst m'. rewrite Ecp in *. destruct (Z.eqb_spec (ep_heartbeat (peer_rec i s)) (lastHB m)) as [Ehb|Ehb]; simpl in *.
    + destruct (effectivePeerTimeout opts interval <? now - lastChange m); simpl in *.
      * assert (Hg : forall obs m, status m = PeerGone -> status (checks opts i obs m) = PeerGone).
        { clear. induction obs as [|[n s] obs IH]; intros m H; simpl; [done|]. apply IH. unfold checkPeer. by rewrite H. }
        rewrite (Hg obs (with_status PeerGone m)) in Hst by done. done.
      * destruct (IH m Ht Hi Hm Hs Hall Hst) as [Htok [(F1 & F2 & F3)|(pre & o & post & -> & F)]]; split; try done.
        -- left. split_and!; try done. constructor; [simpl; congruence|done].
        -- right. exists ((now, s) :: pre), o, post. done.
    + destruct (IH (mkMonitor PeerConnected tok (ep_heartbeat (peer_rec i s)) now) Ht Hi eq_refl eq_refl Hall Hst)
        as [Htok [(F1 & F2 & F3)|(pre & o & post & -> & F)]]; split; try done.
      * right. exists [], (now, s), obs. done.
      * right. exists ((now, s) :: pre), o, post. done.
Qed.

(** No false death. A connected peer that still holds its slot is declared
    gone only if the endpoint has seen the very same heartbeat value at every
    check for longer than the peer timeout (raised to four of the peer's own
    intervals): a peer whose heartbeat was seen to move within that time is
    alive, whatever the wall clock does. *)
Theorem checkPeer_no_false_death (opts : LinkOptions) (i : identity) (tok interval hb0 t0 now : Z)
  (obs : list (Z * standardSuperblock)) (s : standardSuperblock)
  (Ht : isOwnerToken tok = true) (Hi : 0 < interval)
  (Hall : Forall (fun o => same_session i tok interval o.2) obs) (Hs : same_session i tok interval s)
  (Hst : status (checks opts i obs (mkMonitor PeerConnected tok hb0 t0)) = PeerConnected)
  (Hdead : (checkPeer opts i now s (checks opts i obs (mkMonitor PeerConnected tok hb0 t0))).2 = Some ErrPeerGone) :
  (exists first post, (exists pre, (t0, hb0) :: map (fun o => (o.1, ep_heartbeat (peer_rec i o.2))) obs = pre ++ first :: post) /\
     Forall (fun x => x.2 = first.2) post /\ first.2 = ep_heartbeat (peer_rec i s) /\
     Z.max (PeerTimeout opts) (4 * interval) < now - first.1).
Proof.
  destruct (checks_since opts i tok interval obs (mkMonitor PeerConnected tok hb0 t0) Ht Hi eq_refl eq_refl Hall Hst)
    as [Htok Hsince].
  set (m := checks opts i obs _) in *. destruct Hs as (E1 & E2 & E3 & E4).
  assert (Hx : ep_heartbeat (peer_rec i s) = lastHB m /\ Z.max (PeerTimeout opts) (4 * interval) < now - lastChange m).
  { unfold checkPeer in Hdead. rewrite Hst in Hdead. simpl in Hdead.
    rewrite E1, E2, !Z.eqb_refl, E3, Htok, Z.eqb_refl, E4 in Hdead. simpl in Hdead.
    destruct (tok =? detachedToken); [done|]. destruct (tok =? 0); [done|].
    destruct (Z.leb_spec interval 0); [lia|]. destruct (Z.eqb_spec (ep_heartbeat (peer_rec i s)) (lastHB m)); [|done].
    simpl in Hdead. unfold effectivePeerTimeout in Hdead.
    destruct (Z.ltb_spec (PeerTimeout opts) (4 * interval)), (_ <? _) eqn:El; try done; breflect; lia. }
  destruct Hx as [Hhb Hlt]. destruct Hsince as [(F1 & F2 & F3)|(pre & o & post & -> & F1 & F2 & F3)].
  - exists (t0, hb0), (map (fun o => (o.1, ep_heartbeat (peer_rec i o.2))) obs).
    split; [by exists []|]. simpl in *. split_and!; [|congruence|by rewrite <- F2].
    apply Forall_map. eapply Forall_impl; [|exact F3]. intros o Ho. simpl. congruence.
  - exists (o.1, ep_heartbeat (peer_rec i o.2)), (map (fun o => (o.1, ep_heartbeat (peer_rec i o.2))) post).
    split; [exists ((t0, hb0) :: map (fun o => (o.1, ep_heartbeat (peer_rec i o.2))) pre); by rewrite map_app|].
    simpl. split_and!; [|congruence|by rewrite <- F1].
    apply Forall_map. eapply Forall_impl; [|exact F3]. intros x Hx. simpl. congruence.
Qed.

Lemma checkPeer_no_false_death_witness :
  let i := mkId true 7 1 in
  let s hb := mkSb 0 0 0 0 0 0 0 0 1 0 0 0 0 (mkEp 7 0 0 0) (mkEp 8 0 hb 10) [] in
  let opts := default_opts roleAny in
  exists first post,
    (exists pre, (0, 3) :: map (fun o => (o.1, ep_heartbeat (peer_rec i o.2))) [(5, s 3); (20, s 4)] = pre ++ first :: post) /\
    Forall (fun x => x.2 = first.2) post /\ first.2 = 4 /\
    Z.max (PeerTimeout opts) (4 * 10) < 6000000000 - first.1.
Proof.
  intros i s opts.
  apply (checkPeer_no_false_death opts i 8 10 3 0 6000000000 [(5, s 3); (20, s 4)] (s 4)).
  - reflexivity.
  - lia.
  - repeat constructor.
  - repeat constructor.
  - vm_compute. reflexivity.
  - vm_compute. reflexivity.
Defined.
