(* ===== verification/Remainder.v ===== *)
(** * Remainder: the unread tails of partially read messages

    Models [recvRemainder] of standard.go: a FIFO of the tails [Read] left
    behind, whose backing buffers are recycled through a small free list.
    Buffers are shared objects: the tails, the free list and the callers that
    borrowed a view all refer to them, so a buffer is an index into a heap of
    byte arrays and aliasing is explicit. Every operation runs under the
    mutex of the remainder; the model is one operation at a time. *)
From S2P Require Import Prelude.

(** The byte arrays allocated so far; a Go slice of full capacity is an index. *)
Abbreviation heap := (list bytes).

Definition deref (h : heap) (b : nat) : bytes := default [] (h !! b).

(** [tail]: the unread part [buf[off:end]]; [None] is the nil buffer of a
    zeroed entry. *)
Record tail := mkTail { t_buf : option nat; t_off : nat; t_end : nat }.

Definition zero_tail : tail := mkTail None 0 0.

(** [t.buf[t.off:t.end]] *)
Definition view (h : heap) (t : tail) : bytes :=
  match t_buf t with Some b => slice (t_off t) (t_end t) (deref h b) | None => [] end.

Record recvRemainder := mkRem {
  r_pending : bool;
  r_queue : list tail;  (* the slice, consumed entries included *)
  r_cap : nat;          (* its capacity *)
  r_head : nat;
  r_free : list nat;
  r_size : nat
}.

Definition maxSpareTails : nat := 4.

Definition new_remainder (size : nat) : recvRemainder := mkRem false [] 0 0 [] size.

Section Operations.
(** The capacity [append] gives a full slice that holds [n] elements: the
    runtime's choice. *)
Context (grow : nat -> nat).
Implicit Types (r : recvRemainder) (h : heap).

(** [getBuf]: the last spare buffer if it is large enough (a smaller one is
    dropped), otherwise a new one. *)
Definition getBuf (n : nat) r h : recvRemainder * heap * nat :=
  let fresh r := (r, h ++ [replicate (Nat.max n (r_size r)) 0], length h) in
  match list.last (r_free r) with
  | Some b =>
      let r' := mkRem (r_pending r) (r_queue r) (r_cap r) (r_head r)
                  (take (length (r_free r) - 1) (r_free r)) (r_size r) in
      if (n <=? length (deref h b))%nat then (r', h, b) else fresh r'
  | None => fresh r
  end.

Definition putBuf (b : nat) r : recvRemainder :=
  if (length (r_free r) <? maxSpareTails)%nat
  then mkRem (r_pending r) (r_queue r) (r_cap r) (r_head r) (r_free r ++ [b]) (r_size r)
  else r.

Definition popLocked r : recvRemainder :=
  let queue := <[r_head r := zero_tail]> (r_queue r) in
  let head := S (r_head r) in
  if (head =? length queue)%nat
  then mkRem false [] (r_cap r) 0 (r_free r) (r_size r)
  else mkRem (r_pending r) queue (r_cap r) head (r_free r) (r_size r).

Definition store (src : bytes) r h : recvRemainder * heap :=
  let '(r, h, b) := getBuf (length src) r h in
  let n := copy_n (deref h b) src in
  let h := <[b := copy_to (deref h b) src]> h in
  let '(queue, head) :=
    if (0 <? r_head r)%nat && (length (r_queue r) =? r_cap r)%nat
    then (drop (r_head r) (r_queue r), 0%nat)
    else (r_queue r, r_head r) in
  let cap := if (length queue =? r_cap r)%nat then grow (length queue) else r_cap r in
  (mkRem true (queue ++ [mkTail (Some b) 0 n]) cap head (r_free r) (r_size r), h).

(** [read(dst, discard)]: the bytes copied into [dst] (of length [dlen]);
    [None]: not ok. *)
Definition read (dlen : nat) (discard : bool) r h : recvRemainder * option bytes :=
  if negb (r_pending r) then (r, None)
  else
    match r_queue r !! r_head r with
    | None => (r, None)
    | Some t =>
        let out := take dlen (view h t) in
        let t' := mkTail (t_buf t) (t_off t + length out) (t_end t) in
        let r1 := mkRem (r_pending r) (<[r_head r := t']> (r_queue r)) (r_cap r) (r_head r) (r_free r) (r_size r) in
        if discard || (t_off t' =? t_end t')%nat
        then (popLocked (match t_buf t with Some b => putBuf b r1 | None => r1 end), Some out)
        else (r1, Some out)
    end.

(** [take]: the whole oldest tail, lent out; its view is [view h t], its backing
    buffer [t_buf t]. *)
Definition take_tail r : recvRemainder * option tail :=
  if negb (r_pending r) then (r, None)
  else
    match r_queue r !! r_head r with
    | None => (r, None)
    | Some t => (popLocked r, Some t)
    end.

Definition giveBack (backing : option nat) r : recvRemainder :=
  match backing with Some b => putBuf b r | None => r end.

(** ** Invariant *)

Definition live_tails r : list tail := drop (r_head r) (r_queue r).

Definition tail_bufs (l : list tail) : list nat := omap t_buf l.

Definition tail_ok h (t : tail) : Prop :=
  exists b, t_buf t = Some b /\ (t_off t < t_end t <= length (deref h b))%nat.

(** Distinct allocated buffers. *)
Definition owned (n : nat) (l : list nat) : Prop := NoDup l /\ Forall (fun b => (b < n)%nat) l.

(** [lent]: the buffers lent out by [take] and not given back. Every buffer
    has one owner: a live tail, the free list or a borrower. *)
Record rem_inv (lent : list nat) r h : Prop := {
  ri_head : (r_head r < length (r_queue r))%nat \/ (r_queue r = [] /\ r_head r = 0%nat);
  ri_pending : r_pending r = negb (bool_decide (r_queue r = []));
  ri_cap : (length (r_queue r) <= r_cap r)%nat;
  ri_tails : Forall (tail_ok h) (live_tails r);
  ri_owner : owned (length h) (tail_bufs (live_tails r) ++ r_free r ++ lent);
  ri_free : (length (r_free r) <= maxSpareTails)%nat
}.

(** The queue the remainder represents. *)
Definition tails r h : list bytes := map (view h) (live_tails r).

End Operations.

(** ** Lemmas *)

Section Lemmas.
Implicit Types (r : recvRemainder) (h : heap) (lent : list nat) (b : nat).

Lemma owned_perm n l l' : l ≡ₚ l' -> owned n l -> owned n l'.
Proof. intros E [H1 H2]. split; by rewrite <- E. Qed.

Lemma owned_tail n b l : owned n (b :: l) -> owned n l.
Proof. intros [H1 H2]. apply list.NoDup_cons in H1 as [_ H1]. apply Forall_cons_iff in H2 as [_ H2]. done. Qed.

Lemma owned_fresh n l : owned n l -> owned (S n) (n :: l).
Proof.
  intros [H1 H2]. split.
  - apply list.NoDup_cons. split; [|done]. intros Hin.
    rewrite list.Forall_forall in H2. specialize (H2 n Hin). lia.
  - constructor; [lia|]. eapply Forall_impl; [|exact H2]. simpl. lia.
Qed.

Lemma deref_insert_ne h b b' x : b <> b' -> deref (<[b := x]> h) b' = deref h b'.
Proof. intros Hne. unfold deref. by rewrite list_lookup_insert_ne. Qed.

Lemma deref_insert h b x : (b < length h)%nat -> deref (<[b := x]> h) b = x.
Proof. intros Hb. unfold deref. by rewrite list_lookup_insert_eq. Qed.

Lemma deref_app h x b : (b < length h)%nat -> deref (h ++ [x]) b = deref h b.
Proof. intros Hb. unfold deref. by rewrite lookup_app_l. Qed.

(** Tails depend on their own buffers only. *)
Lemma tails_ext h h' l :
  (forall b, b ∈ tail_bufs l -> deref h' b = deref h b) ->
  Forall (tail_ok h) l -> Forall (tail_ok h') l /\ map (view h') l = map (view h) l.
Proof.
  unfold tail_bufs. induction l as [|t l IH]; intros Hd Hok; [by split|].
  apply Forall_cons_iff in Hok as [(b & Eb & Hr) Hok]. simpl in Hd. rewrite Eb in Hd.
  destruct (IH (fun b Hb => Hd b (list_elem_of_further _ _ _ Hb)) Hok) as [H1 H2].
  assert (E : deref h' b = deref h b) by (apply Hd; left).
  split; [constructor; [|done]|].
  - exists b. by rewrite E.
  - simpl. rewrite H2. f_equal. unfold view. by rewrite Eb, E.
Qed.

(** A change of the heap that leaves the buffers of the live tails alone. *)
Lemma rem_inv_heap lent r h h' :
  rem_inv lent r h -> (length h <= length h')%nat ->
  (forall b, b ∈ tail_bufs (live_tails r) -> deref h' b = deref h b) ->
  rem_inv lent r h' /\ tails r h' = tails r h.
Proof.
  intros H Hl Hd. destruct (tails_ext h h' _ Hd (ri_tails _ _ _ H)) as [H1 H2].
  split; [|done]. destruct H as [? ? ? ? [? Ho] ?]. constructor; try done.
  split; [done|]. eapply Forall_impl; [|exact Ho]. simpl. lia.
Qed.

(** The owner of a lent buffer is its borrower. *)
Lemma lent_not_tail lent r h b : rem_inv (b :: lent) r h -> b ∉ tail_bufs (live_tails r).
Proof.
  intros H Hin. destruct (ri_owner _ _ _ H) as [Hnd _].
  apply list.NoDup_app in Hnd as (_ & Hd & _). apply (Hd b Hin). set_solver.
Qed.

Lemma lent_alloc lent r h b : rem_inv (b :: lent) r h -> (b < length h)%nat.
Proof.
  intros H. destruct (ri_owner _ _ _ H) as [_ Ha]. rewrite list.Forall_forall in Ha. apply Ha. set_solver.
Qed.

Lemma getBuf_spec n lent r h r' h' b :
  rem_inv lent r h -> getBuf n r h = (r', h', b) ->
  rem_inv (b :: lent) r' h' /\ tails r' h' = tails r h /\ (n <= length (deref h' b))%nat /\
  (length h <= length h')%nat /\ (forall b', (b' < length h)%nat -> deref h' b' = deref h b') /\ live_tails r' = live_tails r.
Proof.
  intros H E.
  assert (Hfresh : forall r0, rem_inv lent r0 h -> live_tails r0 = live_tails r ->
    (r0, h ++ [replicate (Nat.max n (r_size r0)) 0], length h) = (r', h', b) ->
    rem_inv (b :: lent) r' h' /\ tails r' h' = tails r h /\ (n <= length (deref h' b))%nat /\
    (length h <= length h')%nat /\ (forall b', (b' < length h)%nat -> deref h' b' = deref h b') /\ live_tails r' = live_tails r).
  { intros r0 H0 El Eq. simplify_eq. set (x := replicate (Nat.max n (r_size r')) 0).
    destruct (rem_inv_heap lent r' h (h ++ [x]) H0) as [H1 Ht].
    - rewrite length_app. simpl. lia.
    - intros b Hb. apply deref_app. destruct (ri_owner _ _ _ H0) as [_ Ha].
      rewrite list.Forall_forall in Ha. apply Ha. set_solver.
    - split_and!; try done.
      + destruct H1. constructor; try done. rewrite length_app, Nat.add_1_r.
        eapply owned_perm; [|apply owned_fresh, (ri_owner _ _ _ H0)]. solve_Permutation.
      + rewrite Ht. unfold tails. by rewrite El.
      + unfold deref. rewrite lookup_app_r, Nat.sub_diag by lia. subst x. simpl. rewrite length_replicate. lia.
      + rewrite length_app. lia.
      + intros b' Hb. by apply deref_app. }
  unfold getBuf in E. destruct (list.last (r_free r)) as [c|] eqn:El; [|by apply (Hfresh r)].
  apply last_Some in El as [fr Ef].
  assert (Et : take (length (r_free r) - 1) (r_free r) = fr).
  { rewrite Ef, length_app. simpl. rewrite Nat.add_sub. apply take_app_length. }
  rewrite Et in E. set (r0 := mkRem _ _ _ _ _ _) in E.
  assert (H0 : rem_inv (c :: lent) r0 h).
  { destruct H. constructor; try done.
    - eapply owned_perm; [|exact ri_owner0]. simpl. rewrite Ef. solve_Permutation.
    - simpl. rewrite Ef, length_app in ri_free0. lia. }
  destruct (Nat.leb_spec n (length (deref h c))); [simplify_eq; done|].
  eapply (Hfresh r0); [|done|exact E]. destruct H0. constructor; try done.
  eapply owned_tail with (b := c), owned_perm; [|exact ri_owner0]. solve_Permutation.
Qed.

Lemma putBuf_spec lent r h b :
  rem_inv (b :: lent) r h -> rem_inv lent (putBuf b r) h /\ live_tails (putBuf b r) = live_tails r.
Proof.
  intros H. unfold putBuf. destruct (Nat.ltb_spec (length (r_free r)) maxSpareTails); split; try done.
  - destruct H. constructor; try done.
    + eapply owned_perm; [|exact ri_owner0]. simpl. unfold live_tails. simpl. solve_Permutation.
    + simpl. rewrite length_app. simpl. lia.
  - destruct H. constructor; try done.
    eapply owned_tail with (b := b), owned_perm; [|exact ri_owner0]. solve_Permutation.
Qed.

Lemma live_cons r t l : live_tails r = t :: l -> r_queue r !! r_head r = Some t /\ l = drop (S (r_head r)) (r_queue r).
Proof.
  unfold live_tails. intros E. split.
  - by rewrite <- (Nat.add_0_r (r_head r)), <- lookup_drop, E.
  - rewrite <- Nat.add_1_r, <- drop_drop, E. done.
Qed.

(** Popping the oldest tail lends its buffer to the caller. *)
Lemma popLocked_spec lent r h t l b :
  rem_inv lent r h -> live_tails r = t :: l -> t_buf t = Some b ->
  rem_inv (b :: lent) (popLocked r) h /\ live_tails (popLocked r) = l.
Proof.
  intros H El Eb. destruct (live_cons r t l El) as [Hq Hl].
  pose proof (lookup_lt_Some _ _ _ Hq) as Hlt.
  assert (Elive : live_tails (popLocked r) = l).
  { unfold popLocked. rewrite length_insert. destruct (Nat.eqb_spec (S (r_head r)) (length (r_queue r))) as [E|E].
    - rewrite Hl, E, drop_ge by lia. done.
    - unfold live_tails. cbn [r_head r_queue]. rewrite drop_insert_lt by lia. done. }
  split; [|done]. destruct H.
  assert (Hown : owned (length h) (tail_bufs l ++ r_free r ++ b :: lent)).
  { eapply owned_perm; [|exact ri_owner0]. rewrite El. unfold tail_bufs. simpl. rewrite Eb. solve_Permutation. }
  assert (Htl : Forall (tail_ok h) l) by (rewrite El in ri_tails0; by apply Forall_cons_iff in ri_tails0 as [_ ?]).
  assert (Ef : r_free (popLocked r) = r_free r) by (unfold popLocked; by case_match).
  constructor; rewrite ?Elive, ?Ef; try done; unfold popLocked; rewrite length_insert;
    destruct (Nat.eqb_spec (S (r_head r)) (length (r_queue r))) as [E|E]; simpl; rewrite ?length_insert; try done; auto; try lia.
  rewrite ri_pending0. f_equal. apply bool_decide_ext.
  rewrite <- !length_zero_iff_nil. by rewrite length_insert.
Qed.

(** Advancing the oldest tail by [n] of its bytes. *)
Lemma advance_spec lent r h t l n :
  rem_inv lent r h -> live_tails r = t :: l -> (t_off t + n < t_end t)%nat ->
  let t' := mkTail (t_buf t) (t_off t + n) (t_end t) in
  let r' := mkRem (r_pending r) (<[r_head r := t']> (r_queue r)) (r_cap r) (r_head r) (r_free r) (r_size r) in
  rem_inv lent r' h /\ live_tails r' = t' :: l.
Proof.
  intros H El Hn t' r'. destruct (live_cons r t l El) as [Hq Hl].
  pose proof (lookup_lt_Some _ _ _ Hq) as Hlt.
  assert (Elive : live_tails r' = t' :: l).
  { unfold live_tails, r'. cbn [r_head r_queue]. rewrite drop_insert_ge, Nat.sub_diag by lia.
    unfold live_tails in El. rewrite El. done. }
  split; [|done]. destruct H. constructor; rewrite ?Elive; simpl; rewrite ?length_insert; try done.
  - left. lia.
  - rewrite ri_pending0. f_equal. apply bool_decide_ext. rewrite <- !length_zero_iff_nil. by rewrite length_insert.
  - rewrite El in ri_tails0. apply Forall_cons_iff in ri_tails0 as [(b & Eb & Hr) Htl].
    constructor; [|done]. exists b. simpl. split; [done|]. lia.
  - rewrite El in ri_owner0. done.
Qed.

(** The live tails after the consumed prefix was reclaimed and a tail appended. *)
Lemma append_live (queue : list tail) head t :
  (head <= length queue)%nat -> drop head (queue ++ [t]) = drop head queue ++ [t].
Proof. intros H. by rewrite drop_app_le. Qed.

Lemma store_spec grow lent r h src :
  rem_inv lent r h -> (forall n, (n < grow n)%nat) -> src <> [] ->
  let '(r', h') := store grow src r h in
  rem_inv lent r' h' /\ tails r' h' = tails r h ++ [src] /\ (length h <= length h')%nat /\
  (forall b, b ∈ lent -> deref h' b = deref h b).
Proof.
  intros H Hg Hsrc. unfold store. destruct (getBuf (length src) r h) as [[r1 h1] b] eqn:E.
  destruct (getBuf_spec _ _ _ _ _ _ _ H E) as (H1 & Ht & Hn & Hlen & Hd & El).
  pose proof (lent_not_tail _ _ _ _ H1) as Hnt. pose proof (lent_alloc _ _ _ _ H1) as Hb.
  assert (En : copy_n (deref h1 b) src = length src) by (unfold copy_n; lia). rewrite En.
  set (h2 := <[b := copy_to (deref h1 b) src]> h1).
  destruct (rem_inv_heap _ _ h1 h2 H1) as [H2 Ht2].
  { unfold h2. by rewrite length_insert. }
  { intros b' Hb'. apply deref_insert_ne. intros ->. done. }
  destruct (if (0 <? r_head r1)%nat && _ then _ else _) as [queue hd] eqn:Eqh.
  assert (Hq : drop hd queue = live_tails r1 /\ (hd <= length queue)%nat /\
    (hd < length queue \/ queue = [] /\ hd = 0)%nat /\ (length queue <= r_cap r1)%nat).
  { pose proof (ri_cap _ _ _ H1) as Hcap. destruct (_ && _) eqn:Ec; simplify_eq.
    - apply andb_true_iff in Ec as [Ec _]. apply Nat.ltb_lt in Ec. rewrite drop_0. split; [done|].
      rewrite length_drop. destruct (ri_head _ _ _ H1) as [|[? ?]]; [|lia]. split_and!; try lia.
    - destruct (ri_head _ _ _ H1) as [|[? ?]]; split_and!; try done; lia || (by left) || (by right) || idtac. }
  destruct Hq as (Hlive & Hhd & Hor & Hcap).
  set (r2 := mkRem true _ _ _ _ _).
  assert (Elive : live_tails r2 = live_tails r1 ++ [mkTail (Some b) 0 (length src)]).
  { unfold live_tails at 1, r2. cbn [r_head r_queue]. rewrite append_live by done. by rewrite Hlive. }
  assert (Hdb : deref h2 b = copy_to (deref h1 b) src) by (by apply deref_insert).
  assert (Hpos : (0 < length src)%nat) by (destruct src; [done|simpl; lia]).
  split_and!.
  - destruct H2. constructor; rewrite ?Elive; simpl; rewrite ?length_app; simpl; try done.
    + left. lia.
    + rewrite bool_decide_eq_false_2; [done|]. by destruct queue.
    + destruct (Nat.eqb_spec (length queue) (r_cap r1)); [specialize (Hg (length queue)); lia|lia].
    + apply Forall_app. split; [done|]. constructor; [|done]. exists b. simpl. split; [done|].
      rewrite Hdb, length_copy_to. lia.
    + eapply owned_perm; [|exact ri_owner0]. unfold tail_bufs. rewrite omap_app. simpl. solve_Permutation.
  - unfold tails. rewrite Elive, map_app. fold (tails r1 h2). rewrite Ht2, Ht. f_equal. simpl. f_equal.
    unfold view. simpl. rewrite Hdb. unfold slice. rewrite drop_0, Nat.sub_0_r. by apply copy_to_fits.
  - unfold h2. by rewrite length_insert.
  - intros b' Hb'. destruct (ri_owner _ _ _ H1) as [Hnd _]. destruct (ri_owner _ _ _ H) as [_ Ha].
    assert (b <> b').
    { intros ->. apply list.NoDup_app in Hnd as (_ & _ & Hnd). apply list.NoDup_app in Hnd as (_ & _ & Hnd).
      apply list.NoDup_cons in Hnd as [Hnd _]. done. }
    unfold h2. rewrite deref_insert_ne by done. apply Hd. rewrite list.Forall_forall in Ha. apply Ha.
    clear -Hb'. set_solver.
Qed.

(** A pending remainder has an oldest tail. *)
Lemma pending_live lent r h :
  rem_inv lent r h ->
  if r_pending r then exists t l b, live_tails r = t :: l /\ r_queue r !! r_head r = Some t /\
      t_buf t = Some b /\ (t_off t < t_end t <= length (deref h b))%nat
  else live_tails r = [].
Proof.
  intros H. rewrite (ri_pending _ _ _ H). destruct (bool_decide_reflect (r_queue r = [])) as [E|E]; simpl.
  - unfold live_tails. rewrite E. apply drop_nil.
  - destruct (ri_head _ _ _ H) as [Hlt|[? _]]; [|done].
    destruct (live_tails r) as [|t l] eqn:El.
    { unfold live_tails in El. apply (f_equal length) in El. rewrite length_drop in El. simpl in El. lia. }
    pose proof (ri_tails _ _ _ H) as Ht. rewrite El in Ht. apply Forall_cons_iff in Ht as [(b & Eb & Hr) _].
    exists t, l, b. destruct (live_cons _ _ _ El). done.
Qed.

Lemma length_view h t b :
  t_buf t = Some b -> (t_off t <= t_end t <= length (deref h b))%nat -> length (view h t) = (t_end t - t_off t)%nat.
Proof. intros Eb Hr. unfold view. rewrite Eb. by apply length_slice. Qed.

Lemma view_advance h t b n :
  t_buf t = Some b -> (t_off t <= t_end t <= length (deref h b))%nat -> (t_off t + n <= t_end t)%nat ->
  view h (mkTail (t_buf t) (t_off t + n) (t_end t)) = drop n (view h t).
Proof.
  intros Eb Hr Hn. unfold view. cbn [t_buf t_off t_end]. rewrite Eb. unfold slice.
  rewrite <- drop_drop, skipn_firstn_comm. f_equal. lia.
Qed.

Lemma read_spec lent r h dlen discard :
  rem_inv lent r h ->
  let '(r', out) := read dlen discard r h in
  rem_inv lent r' h /\
  match tails r h with
  | [] => out = None /\ tails r' h = []
  | x :: q => out = Some (take dlen x) /\
      tails r' h = if discard || (length x <=? dlen)%nat then q else drop dlen x :: q
  end.
Proof.
  intros H. pose proof (pending_live _ _ _ H) as Hp. unfold read, tails.
  destruct (r_pending r) eqn:Ep; simpl negb; cbv iota; [|rewrite Hp; done].
  destruct Hp as (t & l & b & El & Hq & Eb & Hr). rewrite Hq, El, Eb. cbn [map].
  pose proof (length_view h t b Eb ltac:(lia)) as Hv.
  set (out := take dlen (view h t)).
  assert (Ho : length out = Nat.min dlen (t_end t - t_off t)) by (unfold out; rewrite length_take, Hv; done).
  set (t' := mkTail _ _ _). set (r1 := mkRem _ (<[_ := t']> _) _ _ _ _). cbn [t_off t_end t'].
  assert (Edone : (t_off t + length out =? t_end t)%nat = (length (view h t) <=? dlen)%nat).
  { rewrite Ho, Hv. destruct (Nat.eqb_spec (t_off t + Nat.min dlen (t_end t - t_off t)) (t_end t)),
      (Nat.leb_spec (t_end t - t_off t) dlen); lia || done. }
  rewrite Edone. destruct (discard || _) eqn:Ed.
  - (* the tail is dropped; popping overwrites the entry that was advanced *)
    destruct (popLocked_spec lent r h t l b H El Eb) as [H2 El2].
    assert (Epop : popLocked (putBuf b r1) = putBuf b (popLocked r)).
    { unfold popLocked, putBuf, r1. cbn [r_free r_queue r_head r_cap r_size r_pending].
      destruct (length (r_free r) <? maxSpareTails)%nat eqn:Ef; cbn [r_free r_queue r_head r_cap r_size r_pending];
        rewrite list_insert_insert_eq, !length_insert; destruct (S (r_head r) =? _)%nat;
        cbn [r_free r_queue r_head r_cap r_size r_pending]; by rewrite ?Ef, ?Ep. }
    rewrite Epop. destruct (putBuf_spec lent (popLocked r) h b H2) as [H3 El3].
    split; [done|]. split; [done|]. by rewrite El3, El2.
  - apply orb_false_iff in Ed as [_ Ed]. apply Nat.leb_gt in Ed.
    assert (Eo : length out = dlen) by lia.
    destruct (advance_spec lent r h t l (length out) H El ltac:(lia)) as [H2 El2]. rewrite Ep, Eb in H2, El2.
    split; [exact H2|]. split; [done|]. etransitivity; [exact (f_equal (map (view h)) El2)|]. cbn [map]. f_equal.
    rewrite <- Eb, (view_advance h t b) by (done || lia). by rewrite Eo.
Qed.

Lemma take_tail_spec lent r h :
  rem_inv lent r h ->
  let '(r', out) := take_tail r in
  match tails r h with
  | [] => out = None /\ r' = r
  | x :: q => exists t b, out = Some t /\ t_buf t = Some b /\ view h t = x /\
      rem_inv (b :: lent) r' h /\ tails r' h = q
  end.
Proof.
  intros H. pose proof (pending_live _ _ _ H) as Hp. unfold take_tail, tails.
  destruct (r_pending r); simpl negb; cbv iota; [|rewrite Hp; done].
  destruct Hp as (t & l & b & El & Hq & Eb & Hr). rewrite Hq, El. cbn [map].
  destruct (popLocked_spec lent r h t l b H El Eb) as [H2 El2].
  exists t, b. by rewrite El2.
Qed.

End Lemmas.

(** ** The remainder as a queue *)

Inductive rem_op := OpStore (src : bytes) | OpRead (dlen : nat) (discard : bool) | OpTake | OpGiveBack (i : nat).

(** What an operation returns. *)
Inductive rem_out := RNone | RBytes (bs : bytes) | RView (bs : bytes) (t : tail).

(** The whole state of a client: the remainder, the heap and the tails lent
    out, each with the bytes the borrower was shown. *)
Record rem_state := mkState { s_rem : recvRemainder; s_heap : heap; s_lent : list (tail * bytes) }.

Definition lent_bufs (l : list (tail * bytes)) : list nat := tail_bufs (map fst l).

Definition rem_run_op (grow : nat -> nat) (op : rem_op) (s : rem_state) : rem_state * rem_out :=
  match op with
  | OpStore src => let '(r, h) := store grow src (s_rem s) (s_heap s) in (mkState r h (s_lent s), RNone)
  | OpRead dlen discard =>
      let '(r, o) := read dlen discard (s_rem s) (s_heap s) in
      (mkState r (s_heap s) (s_lent s), match o with Some bs => RBytes bs | None => RNone end)
  | OpTake =>
      let '(r, o) := take_tail (s_rem s) in
      match o with
      | Some t => (mkState r (s_heap s) ((t, view (s_heap s) t) :: s_lent s), RView (view (s_heap s) t) t)
      | None => (mkState r (s_heap s) (s_lent s), RNone)
      end
  | OpGiveBack i =>
      match s_lent s !! i with
      | Some (t, _) => (mkState (giveBack (t_buf t) (s_rem s)) (s_heap s) (delete i (s_lent s)), RNone)
      | None => (s, RNone)
      end
  end.

Definition out_bytes (o : rem_out) : option bytes :=
  match o with RNone => None | RBytes bs | RView bs _ => Some bs end.

(** The specification: a list of tails. *)
Definition rem_spec (op : rem_op) (q : list bytes) : list bytes * option bytes :=
  match op, q with
  | OpStore src, _ => (q ++ [src], None)
  | OpRead dlen discard, x :: q' =>
      (if discard || (length x <=? dlen)%nat then q' else drop dlen x :: q', Some (take dlen x))
  | OpTake, x :: q' => (q', Some x)
  | _, _ => (q, None)
  end.

(** No empty tail is stored; a caller gives back what it borrowed, once (an
    index into the list of what is lent out). *)
Definition op_allowed (op : rem_op) : Prop :=
  match op with OpStore src => src <> [] | _ => True end.

(** A lent tail still shows what its borrower was shown. *)
Definition lent_ok (h : heap) (x : tail * bytes) : Prop := view h x.1 = x.2.

Definition rem_ok (s : rem_state) (q : list bytes) : Prop :=
  rem_inv (lent_bufs (s_lent s)) (s_rem s) (s_heap s) /\ tails (s_rem s) (s_heap s) = q /\
  Forall (lent_ok (s_heap s)) (s_lent s).

Lemma lent_bufs_delete l i t x :
  l !! i = Some (t, x) ->
  lent_bufs l ≡ₚ match t_buf t with Some b => [b] | None => [] end ++ lent_bufs (delete i l).
Proof.
  intros H. rewrite <- (take_drop_middle l i (t, x) H) at 1. rewrite delete_take_drop.
  unfold lent_bufs, tail_bufs. rewrite !map_app, !omap_app. simpl. destruct (t_buf t); simpl; solve_Permutation.
Qed.

Lemma rem_step_ok (grow : nat -> nat) (op : rem_op) (s : rem_state) (q : list bytes)
  (Hg : forall n, (n < grow n)%nat) (Hs : rem_ok s q) (Hop : op_allowed op) :
  rem_ok (rem_run_op grow op s).1 (rem_spec op q).1 /\
  out_bytes (rem_run_op grow op s).2 = (rem_spec op q).2.
Proof.
  destruct Hs as (H & <- & Hl). destruct op as [src|dlen discard| |i]; simpl in Hop |- *.
  - pose proof (store_spec grow _ _ _ src H Hg Hop) as Hst.
    destruct (store grow src (s_rem s) (s_heap s)) as [r h]. destruct Hst as (H1 & H2 & _ & H4).
    split; [|done]. split_and!; try done. cbn [s_heap s_lent fst]. rewrite list.Forall_forall in Hl |- *.
    intros [t x] Hx. specialize (Hl _ Hx). unfold lent_ok, view in *. cbn [fst snd] in *.
    destruct (t_buf t) as [b|] eqn:Eb; [|done]. rewrite H4; [done|].
    apply list_elem_of_omap. exists t. split; [by apply (list_elem_of_fmap_2 fst _ (t, x))|done].
  - pose proof (read_spec _ _ _ dlen discard H) as Hr. destruct (read dlen discard (s_rem s) (s_heap s)) as [r o].
    destruct Hr as [H1 Hr]. destruct (tails (s_rem s) (s_heap s)) as [|x q]; destruct Hr as [-> E]; split; try done.
  - pose proof (take_tail_spec _ _ _ H) as Ht. destruct (take_tail (s_rem s)) as [r o].
    destruct (tails (s_rem s) (s_heap s)) as [|x q] eqn:Eq.
    + destruct Ht as [-> ->]. split; [|done]. split_and!; done.
    + destruct Ht as (t & b & -> & Eb & Ev & H1 & H2). split; [|simpl; by rewrite Ev]. split_and!; try done; cbn [s_rem s_heap s_lent fst].
      * unfold lent_bufs, tail_bufs. simpl. by rewrite Eb.
      * constructor; done.
  - destruct (s_lent s !! i) as [[t x]|] eqn:Ei; [|by split].
    pose proof (lent_bufs_delete _ _ _ _ Ei) as Hp. split; [|done].
    assert (Hfd : Forall (lent_ok (s_heap s)) (delete i (s_lent s))) by (by apply Forall_delete).
    unfold rem_ok. cbn [s_rem s_heap s_lent fst]. destruct (t_buf t) as [b|]; simpl in Hp.
    + assert (H' : rem_inv (b :: lent_bufs (delete i (s_lent s))) (s_rem s) (s_heap s)).
      { destruct H. constructor; try done. eapply owned_perm; [|exact ri_owner0]. by rewrite Hp. }
      destruct (putBuf_spec _ _ _ _ H') as [H1 H2]. split_and!; [done|unfold tails; simpl; by rewrite H2|done].
    + split_and!; try done. destruct H. constructor; try done. eapply owned_perm; [|exact ri_owner0]. by rewrite Hp.
Qed.

Fixpoint rem_run (grow : nat -> nat) (ops : list rem_op) (s : rem_state) : rem_state * list (option bytes) :=
  match ops with
  | [] => (s, [])
  | op :: rest =>
      let (s1, o) := rem_run_op grow op s in
      let (s2, os) := rem_run grow rest s1 in (s2, out_bytes o :: os)
  end.

Fixpoint rem_spec_run (ops : list rem_op) (q : list bytes) : list bytes * list (option bytes) :=
  match ops with
  | [] => (q, [])
  | op :: rest =>
      let (q1, o) := rem_spec op q in
      let (q2, os) := rem_spec_run rest q1 in (q2, o :: os)
  end.

Lemma rem_run_ok grow (Hg : forall n, (n < grow n)%nat) ops : forall s q,
  rem_ok s q -> Forall op_allowed ops ->
  rem_ok (rem_run grow ops s).1 (rem_spec_run ops q).1 /\ (rem_run grow ops s).2 = (rem_spec_run ops q).2.
Proof.
  induction ops as [|op ops IH]; intros s q Hs Hal; simpl in *; [done|]. apply Forall_cons_iff in Hal as [Hop Hal].
  destruct (rem_step_ok grow op s q Hg Hs Hop) as [H1 H2].
  destruct (rem_run_op grow op s) as [s1 o], (rem_spec op q) as [q1 o']. simpl in *.
  destruct (IH s1 q1 H1 Hal) as [H3 H4].
  destruct (rem_run grow ops s1), (rem_spec_run ops q1). simpl in *. by rewrite H2, H4.
Qed.

Lemma new_remainder_ok size : rem_ok (mkState (new_remainder size) [] []) [].
Proof. split_and!; [|done|constructor]. repeat constructor; simpl; auto; lia. Qed.

(** ** Properties *)

(** The remainder is a FIFO of tails. A run of operations on a new remainder
    returns what the same run on a plain list of tails returns: a read copies
    from the oldest tail only and keeps or drops the rest of it, a take lends
    out the whole oldest tail. At the end every borrowed view still shows the
    bytes it was lent with, whatever was stored meanwhile, although buffers
    are recycled, and at most four spare buffers are kept. *)
Theorem remainder_is_fifo (grow : nat -> nat) (size : nat) (ops : list rem_op)
  (Hg : forall n, (n < grow n)%nat)
  (Hal : Forall op_allowed ops) :
  let (s, outs) := rem_run grow ops (mkState (new_remainder size) [] []) in
  outs = (rem_spec_run ops []).2 /\ tails (s_rem s) (s_heap s) = (rem_spec_run ops []).1 /\
  Forall (lent_ok (s_heap s)) (s_lent s) /\
  (length (r_free (s_rem s)) <= maxSpareTails)%nat.
Proof.
  destruct (rem_run_ok grow Hg ops _ _ (new_remainder_ok size) Hal) as [(H1 & H2 & H3) H4].
  destruct (rem_run _ _ _) as [s outs]. split_and!; try done. apply (ri_free _ _ _ H1).
Qed.

Lemma remainder_is_fifo_witness :
  let ops := [OpStore [1; 2; 3]; OpStore [4; 5]; OpRead 2 false; OpTake; OpStore [6]; OpGiveBack 0; OpRead 1 true; OpTake] in
  (rem_run S ops (mkState (new_remainder 4) [] [])).2 =
    [None; None; Some [1; 2]; Some [3]; None; None; Some [4]; Some [6]].
Proof.
  intros ops. pose proof (remainder_is_fifo S 4 ops ltac:(lia)) as H.
  destruct (rem_run S ops (mkState (new_remainder 4) [] [])) as [s outs] eqn:E.
  destruct H as [H _]; [|exact H]. repeat (constructor; [first [exact I | discriminate]|]). constructor.
Defined.

