(* ===== verification/Standard.v ===== *)
(** * Standard: the endpoint of a Standard link

    Models [StandardLink] of standard.go and packetconn.go. A slot of a ring
    owns the packet stored in it and the payload buffer of the same index
    ([txBufs[slot.Slot()]]), so the ring element of the model is the pair
    ([cell]). A call takes the memory of the ring it works on; while it waits
    for the ring other parties run, so [waits] lists how each wait ended and
    the memory it returned to (see Ring). [None]: still waiting. *)
From S2P Require Import Prelude Errors Protocol Layout Ring RingInv RingSeq Send Superblock Remainder.

(** A slot: its packet and its payload buffer. *)
Definition cell : Type := Packet * bytes.

Definition zero_cell : cell := (zero_packet, []).

Abbreviation ring_mem := (mring cell).
Abbreviation wait_list := (list (option error * ring_mem)).

(** What the other parties do during one reservation, given the memory it
    starts from. *)
Abbreviation wait_env := (ring_mem -> wait_list).

(** What a call with a callback returns: a result, or the callback's panic. *)
Inductive call_result (A : Type) := Ret (r : result error A) | Panic.
Arguments Ret {A} r.
Arguments Panic {A}.

Record StandardLink := mkLink {
  linkMode : LinkMode;
  bufferCount : Z;
  bufferSize : Z;
  l_opts : LinkOptions;
  l_id : identity;             (* self, token, epoch *)
  txRing : MPMCRing;
  rxRing : MPMCRing;
  recv : recvRemainder;
  l_heap : heap;               (* backing buffers of the remainder *)
  readDeadline : option Z;
  writeDeadline : option Z;
  closed : bool;
  hbRunning : bool;            (* hbStop != nil *)
  peer : peerMonitor;
  rxActive : Z;
  txActive : Z;
  txBase : Z
}.

(** *** Field updates *)

Definition with_recv (r : recvRemainder) (h : heap) (l : StandardLink) : StandardLink :=
  mkLink (linkMode l) (bufferCount l) (bufferSize l) (l_opts l) (l_id l) (txRing l) (rxRing l) r h
    (readDeadline l) (writeDeadline l) (closed l) (hbRunning l) (peer l) (rxActive l) (txActive l) (txBase l).

Definition with_active (rx tx : Z) (l : StandardLink) : StandardLink :=
  mkLink (linkMode l) (bufferCount l) (bufferSize l) (l_opts l) (l_id l) (txRing l) (rxRing l) (recv l) (l_heap l)
    (readDeadline l) (writeDeadline l) (closed l) (hbRunning l) (peer l) rx tx (txBase l).

Definition with_peer (p : peerMonitor) (l : StandardLink) : StandardLink :=
  mkLink (linkMode l) (bufferCount l) (bufferSize l) (l_opts l) (l_id l) (txRing l) (rxRing l) (recv l) (l_heap l)
    (readDeadline l) (writeDeadline l) (closed l) (hbRunning l) p (rxActive l) (txActive l) (txBase l).

Definition with_deadlines (rd wd : option Z) (l : StandardLink) : StandardLink :=
  mkLink (linkMode l) (bufferCount l) (bufferSize l) (l_opts l) (l_id l) (txRing l) (rxRing l) (recv l) (l_heap l)
    rd wd (closed l) (hbRunning l) (peer l) (rxActive l) (txActive l) (txBase l).

Definition with_closed (l : StandardLink) : StandardLink :=
  mkLink (linkMode l) (bufferCount l) (bufferSize l) (l_opts l) (l_id l) (txRing l) (rxRing l) (recv l) (l_heap l)
    (readDeadline l) (writeDeadline l) true (hbRunning l) (peer l) (rxActive l) (txActive l) (txBase l).

(** ** Admission of calls *)

Definition exitRx (l : StandardLink) : StandardLink := with_active (rxActive l - 1) (txActive l) l.
Definition exitTx (l : StandardLink) : StandardLink := with_active (rxActive l) (txActive l - 1) l.

Definition enterRx (l : StandardLink) : StandardLink * option error :=
  let l := with_active (rxActive l + 1) (txActive l) l in
  if closed l then (exitRx l, Some ErrClosed) else (l, None).

(** [checkPeer] of superblock.go on the link's monitor, at time [now] with the
    superblock [s]. *)
Definition link_checkPeer (now : Z) (s : standardSuperblock) (l : StandardLink) : StandardLink * option error :=
  let (p, e) := checkPeer (l_opts l) (l_id l) now s (peer l) in (with_peer p l, e).

Definition admitTx (check : bool) (now : Z) (s : standardSuperblock) (l : StandardLink) : StandardLink * option error :=
  if closed l then (l, Some ErrClosed)
  else if negb check then (l, None)
  else
    let l := if hbRunning l then l else (link_checkPeer now s l).1 in
    (l, peer_err (status (peer l))).

Definition enterTx (check : bool) (now : Z) (s : standardSuperblock) (l : StandardLink) : StandardLink * option error :=
  let l := with_active (rxActive l) (txActive l + 1) l in
  let (l, e) := admitTx check now s l in
  match e with Some e => (exitTx l, Some e) | None => (l, None) end.

(** [PeerState()] *)
Definition PeerState_call (now : Z) (s : standardSuperblock) (l : StandardLink) : StandardLink * PeerState :=
  let (l, e) := enterRx l in
  let l := match e with None => exitRx (link_checkPeer now s l).1 | Some _ => l end in
  (l, status (peer l)).

(** ** Packets *)

(** [classify]: the payload size, 0 for a tombstone. *)
Definition classify (bufSize : Z) (p : Packet) : result error Z :=
  let op := Op p in
  if op =? OpStandardLinkTombstone then Ok 0
  else if op =? OpStandardLinkCopy then
    let size := i64 (Operand p 2) in
    if (size <=? 0) || (bufSize <? size) then Err ErrInvalidSize else Ok size
  else if op =? OpError then
    Err (errorFromCode (Operand p 1))
  else Err ErrUnexpectedPacket.

Definition copyID (l : StandardLink) (s : ClaimedSlot) : Z := u64 (cs_pos s - txBase l + 1).

(** [slot.Value()] and the payload buffer of the slot. *)
Definition cell_of (h : MPMCRing) (s : ClaimedSlot) (m : ring_mem) : cell :=
  default zero_cell (load_data m (Slot h s)).

(** ** Receiving: the ring *)

Definition peerLost (e : error) : bool := bool_decide (e = ErrPeerClosed) || bool_decide (e = ErrPeerGone).

(** An attempt with [drainCancel]: fails instead of waiting. *)
Definition drain_waits (m : ring_mem) : wait_list := [(Some mpmc_ErrTimeout, m)].

Definition reserveRetry (h : MPMCRing) (m : ring_mem) (e : error) : option (ring_mem * result error ClaimedSlot) :=
  '(m', r) ← ReserveConsumerCancel h (drain_waits m) m;
  Some (m', match r with Ok s => Ok s | Err _ => Err e end).

Definition reserveDrained (h : MPMCRing) (waits : wait_list) (m : ring_mem)
  : option (ring_mem * result error ClaimedSlot) :=
  '(m1, r) ← ReserveConsumerCancel h waits m;
  match r with
  | Err e => if peerLost e then reserveRetry h m1 e else Some (m1, Err e)
  | Ok s => Some (m1, Ok s)
  end.

Definition dequeueDrained (h : MPMCRing) (waits : wait_list) (m : ring_mem)
  : option (ring_mem * list wake_event * result error (Z * cell)) :=
  '(m1, ev1, r) ← DequeueZeroCopyCancel zero_cell h waits m;
  match r with
  | Err e =>
      if peerLost e then
        '(m2, ev2, r2) ← DequeueZeroCopyCancel zero_cell h (drain_waits m1) m1;
        Some (m2, ev1 ++ ev2, match r2 with Ok x => Ok x | Err _ => Err e end)
      else Some (m1, ev1, Err e)
  | Ok x => Some (m1, ev1, Ok x)
  end.

Definition reserveRx (l : StandardLink) (waits : wait_list) (m : ring_mem)
  : option (ring_mem * result error ClaimedSlot) :=
  '(m1, r) ← reserveDrained (rxRing l) waits m;
  Some (m1, match r with Ok s => Ok s | Err e => Err (mapWaitErr e) end).

(** The receive loop shared by [recvMessage], [ReadZeroCopy] and
    [ReserveRead]: reserve, classify, release and go on at a tombstone; one
    entry of [envs] per iteration, which tells how the waits of its
    reservation end. It stops with the claimed slot of the first message, or
    with an error. *)
Fixpoint next_message (l : StandardLink) (envs : list wait_env) (m : ring_mem)
  : option (ring_mem * list wake_event * result error (ClaimedSlot * Z)) :=
  match envs with
  | [] => None
  | env :: rest =>
      '(m1, r) ← reserveRx l (env m) m;
      match r with
      | Err e => Some (m1, [], Err e)
      | Ok s =>
          match classify (bufferSize l) (cell_of (rxRing l) s m1).1 with
          | Err e => let (m2, ev) := ReleaseOwned (rxRing l) s m1 in Some (m2, ev, Err e)
          | Ok size =>
              if size =? 0 then
                let (m2, ev) := ReleaseOwned (rxRing l) s m1 in
                '(m3, ev', x) ← next_message l rest m2;
                Some (m3, ev ++ ev', x)
              else Some (m1, [], Ok (s, size))
          end
      end
  end.

Section Calls.
(** The growth of the remainder's slice (see Remainder). *)
Context (grow : nat -> nat).

(** *** Read and ReadFrom *)

Definition recvMessage (dlen : nat) (datagram : bool) (envs : list wait_env) (l : StandardLink) (m : ring_mem)
  : option (StandardLink * ring_mem * list wake_event * result error bytes) :=
  let (l, e) := enterRx l in
  match e with
  | Some e => Some (l, m, [], Err e)
  | None =>
      let (r, o) := if r_pending (recv l) then read dlen datagram (recv l) (l_heap l) else (recv l, None) in
      match o with
      | Some out => Some (exitRx (with_recv r (l_heap l) l), m, [], Ok out)
      | None =>
          let l := with_recv r (l_heap l) l in
          '(m1, ev, x) ← next_message l envs m;
          match x with
          | Err e => Some (exitRx l, m1, ev, Err (if bool_decide (e = ErrPeerClosed) then io_EOF else e))
          | Ok (s, size) =>
              let payload := take (Z.to_nat size) (cell_of (rxRing l) s m1).2 in
              let out := take dlen payload in
              let l := if (Z.of_nat (length out) <? size) && negb datagram
                       then let (r, h) := store grow (drop (length out) payload) (recv l) (l_heap l) in with_recv r h l
                       else l in
              let (m2, ev2) := ReleaseOwned (rxRing l) s m1 in
              Some (exitRx l, m2, ev ++ ev2, Ok out)
          end
      end
  end.

(** [Read]: a buffer of length [dlen]; the bytes copied into it. *)
Definition Read (dlen : nat) (envs : list wait_env) (l : StandardLink) (m : ring_mem)
  : option (StandardLink * ring_mem * list wake_event * result error bytes) :=
  if (dlen =? 0)%nat then Some (l, m, [], Ok []) else recvMessage dlen false envs l m.

(** [peerAddr]/[LocalAddr]: the endpoint whose address is reported. *)
Definition peerAddr (l : StandardLink) : LinkMode :=
  match linkMode l with LinkModeSecondary => LinkModePrimary | _ => LinkModeSecondary end.
Definition LocalAddr (l : StandardLink) : LinkMode :=
  match linkMode l with LinkModeSecondary => LinkModeSecondary | _ => LinkModePrimary end.

Definition ReadFrom (dlen : nat) (envs : list wait_env) (l : StandardLink) (m : ring_mem)
  : option (StandardLink * ring_mem * list wake_event * result error (bytes * LinkMode)) :=
  '(l', m', ev, r) ← recvMessage dlen true envs l m;
  Some (l', m', ev, match r with Ok b => Ok (b, peerAddr l') | Err e => Err e end).

(** *** ReadZeroCopy *)

(** The callback sees the payload; it returns nil or an error, or panics. *)
Inductive read_cb := CbNil | CbErr (e : error) | CbPanic.

Definition cb_result (fn : bytes -> read_cb) (payload : bytes) : call_result Z :=
  match fn payload with
  | CbNil => Ret (Ok (Z.of_nat (length payload)))
  | CbErr e => Ret (Err e)
  | CbPanic => Panic
  end.

Definition deliverZeroCopy (l : StandardLink) (s : ClaimedSlot) (size : Z) (fn : bytes -> read_cb) (m : ring_mem)
  : ring_mem * list wake_event * call_result Z :=
  let x := match fn (take (Z.to_nat size) (cell_of (rxRing l) s m).2) with
           | CbNil => Ret (Ok size) | CbErr e => Ret (Err e) | CbPanic => Panic end in
  let (m', ev) := ReleaseOwned (rxRing l) s m in (m', ev, x).

Definition ReadZeroCopy (fn : option (bytes -> read_cb)) (envs : list wait_env) (l : StandardLink) (m : ring_mem)
  : option (StandardLink * ring_mem * list wake_event * call_result Z) :=
  match fn with
  | None => Some (l, m, [], Ret (Err ErrInvalidOp))
  | Some fn =>
      let (l, e) := enterRx l in
      match e with
      | Some e => Some (l, m, [], Ret (Err e))
      | None =>
          let (r, o) := if r_pending (recv l) then take_tail (recv l) else (recv l, None) in
          match o with
          | Some t =>
              Some (exitRx (with_recv (giveBack (t_buf t) r) (l_heap l) l), m, [], cb_result fn (view (l_heap l) t))
          | None =>
              let l := with_recv r (l_heap l) l in
              '(m1, ev, x) ← next_message l envs m;
              match x with
              | Err e => Some (exitRx l, m1, ev, Ret (Err e))
              | Ok (s, size) =>
                  let '(m2, ev2, x) := deliverZeroCopy l s size fn m1 in
                  Some (exitRx l, m2, ev ++ ev2, x)
              end
          end
      end
  end.

(** *** Write *)

Definition Write (b : bytes) (now : Z) (s : standardSuperblock) (waits : wait_list) (l : StandardLink) (m : ring_mem)
  : option (StandardLink * ring_mem * list wake_event * result error Z) :=
  let bN := Z.of_nat (length b) in
  if bN =? 0 then Some (l, m, [], Ok 0)
  else if bufferSize l <? bN then Some (l, m, [], Err ErrBufferOverflow)
  else
    let (l, e) := enterTx true now s l in
    match e with
    | Some e => Some (l, m, [], Err e)
    | None =>
        '(m1, r) ← ReserveProducerCancel (txRing l) waits m;
        match r with
        | Err e => Some (exitTx l, m1, [], Err (mapWaitErr e))
        | Ok slot =>
            let idx := Slot (txRing l) slot in
            let (p, buf) := cell_of (txRing l) slot m1 in
            let m2 := store_data idx (storeCopyPacket p (copyID l slot) idx bN, copy_to buf b) m1 in
            let (m3, ev) := CommitOwned (txRing l) slot m2 in
            Some (exitTx l, m3, ev, Ok bN)
        end
    end.

(** *** WriteZeroCopy *)

(** The callback: what it writes into the buffer (it cannot change its
    length) and how it ends. *)
Inductive write_cb := WcbRet (n : Z) | WcbErr (e : error) | WcbPanic.

Definition fillSlot (l : StandardLink) (slot : ClaimedSlot) (fn : bytes -> bytes * write_cb) (m : ring_mem)
  : ring_mem * list wake_event * call_result Z :=
  let idx := Slot (txRing l) slot in
  let (p, buffer) := cell_of (txRing l) slot m in
  let id := copyID l slot in
  let (content, r) := fn buffer in
  let buf' := copy_to buffer content in
  let tombstone code := NewStandardLinkTombstonePacket id idx code in
  let '(p', x) :=
    match r with
    | WcbPanic => (tombstone ErrCodeInvalidOp, Panic)
    | WcbErr e => (tombstone ErrCodeInvalidOp, Ret (Err e))
    | WcbRet n =>
        if n <=? 0 then (tombstone ErrCodeInvalidSize, Ret (Err ErrInvalidSize))
        else if Z.of_nat (length buffer) <? n then (tombstone ErrCodeBufferOverflow, Ret (Err ErrBufferOverflow))
        else (storeCopyPacket p id idx n, Ret (Ok n))
    end in
  let (m', ev) := CommitOwned (txRing l) slot (store_data idx (p', buf') m) in
  (m', ev, x).

Definition WriteZeroCopy (fn : option (bytes -> bytes * write_cb)) (now : Z) (s : standardSuperblock)
    (waits : wait_list) (l : StandardLink) (m : ring_mem)
  : option (StandardLink * ring_mem * list wake_event * call_result Z) :=
  match fn with
  | None => Some (l, m, [], Ret (Err ErrInvalidOp))
  | Some fn =>
      let (l, e) := enterTx true now s l in
      match e with
      | Some e => Some (l, m, [], Ret (Err e))
      | None =>
          '(m1, r) ← ReserveProducerCancel (txRing l) waits m;
          match r with
          | Err e => Some (exitTx l, m1, [], Ret (Err (mapWaitErr e)))
          | Ok slot => let '(m2, ev, x) := fillSlot l slot fn m1 in Some (exitTx l, m2, ev, x)
          end
      end
  end.

(** *** Deadlines and Close *)

(** [setDeadline]: the ring's waiters are woken so that they see the new
    deadline; on a closed link the deadline is stored and the call fails. *)
Definition SetReadDeadline (t : option Z) (l : StandardLink) (m : ring_mem)
  : StandardLink * ring_mem * list wake_event * option error :=
  let l := with_deadlines t (writeDeadline l) l in
  let (l, e) := enterRx l in
  match e with
  | Some _ => (l, m, [], Some ErrClosed)
  | None => let (m', ev) := WakeAll (rxRing l) m in (exitRx l, m', ev, None)
  end.

Definition SetWriteDeadline (t : option Z) (now : Z) (s : standardSuperblock) (l : StandardLink) (m : ring_mem)
  : StandardLink * ring_mem * list wake_event * option error :=
  let l := with_deadlines (readDeadline l) t l in
  let (l, e) := enterTx false now s l in
  match e with
  | Some _ => (l, m, [], Some ErrClosed)
  | None => let (m', ev) := WakeAll (txRing l) m in (exitTx l, m', ev, None)
  end.

End Calls.

(** ** Representation *)

(** The elements of all slots, claimed or not. *)
Definition datas {T} (m : mring T) : list T := map e_data (slots m).

Lemma datas_set_cursor {T} side v (m : mring T) : datas (set_cursor side v m) = datas m.
Proof. by destruct side. Qed.

Lemma datas_store_seq {T} i v (m : mring T) : datas (store_seq i v m) = datas m.
Proof.
  unfold datas, store_seq. simpl. apply list_eq. intros j. rewrite !list_lookup_fmap.
  destruct (decide (Z.to_nat i = j)) as [->|Hne].
  - rewrite list_lookup_alter_eq. by destruct (slots m !! j).
  - by rewrite list_lookup_alter_ne.
Qed.

Lemma datas_publish {T} h pos (m : mring T) : datas (publish h pos m).1 = datas m.
Proof.
  unfold publish, notifyConsumers, wakeOne, wakeWord. repeat bcase; simpl; apply datas_store_seq.
Qed.

Lemma datas_release {T} h pos (m : mring T) : datas (release h pos m).1 = datas m.
Proof.
  unfold release, notifyProducers, wakeOne, wakeWord. repeat bcase; simpl; apply datas_store_seq.
Qed.

Lemma Forall_store_data {T} (P : T -> Prop) i v (m : mring T) :
  P v -> Forall P (datas m) -> Forall P (datas (store_data i v m)).
Proof.
  intros Hv Hm. unfold datas, store_data in *. simpl. rewrite list.Forall_fmap in *.
  apply Forall_alter; [done|]. intros; done.
Qed.

Lemma load_data_datas {T} (P : T -> Prop) (m : mring T) i :
  Forall P (datas m) -> 0 <= i < Z.of_nat (length (slots m)) ->
  exists v, load_data m i = Some v /\ P v.
Proof.
  intros Hm Hi. unfold load_data. destruct (lookup_lt_is_Some_2 (slots m) (Z.to_nat i)) as [e Ee]; [lia|].
  rewrite Ee. exists (e_data e). split; [done|]. unfold datas in Hm. rewrite list.Forall_fmap, list.Forall_lookup in Hm.
  exact (Hm _ _ Ee).
Qed.

(** What every slot of a send ring of a Standard link satisfies, claimed or
    not: [storeCopyPacket] relies on it. *)
Definition slot_ok (bs : Z) (c : cell) : Prop := tail_zero c.1 /\ Z.of_nat (length c.2) = bs.

(** A published slot carries a message, or a tombstone ([None]). *)
Definition encodes (bs : Z) (c : cell) (x : option bytes) : Prop :=
  match x with
  | Some msg => msg <> [] /\ classify bs c.1 = Ok (Z.of_nat (length msg)) /\ take (length msg) c.2 = msg
  | None => classify bs c.1 = Ok 0
  end.

(** The ring memory carries the queue [q] of messages and tombstones. *)
Definition link_holds (k : Z) (h : MPMCRing) (bs : Z) (m : ring_mem) (q : list (option bytes)) : Prop :=
  exists cells, holds k h m cells /\ Forall2 (encodes bs) cells q /\ Forall (slot_ok bs) (datas m).

Lemma classify_copy bs id slot n :
  0 < n <= bs -> bs < 2 ^ 63 -> word 64 id -> word 64 slot -> classify bs (NewStandardLinkCopyPacket id slot n) = Ok n.
Proof.
  intros Hn Hbs Hid Hsl. change (NewStandardLinkCopyPacket id slot n) with (NewPacket OpStandardLinkCopy [id; slot; n]).
  unfold classify. rewrite NewPacket_Op, NewPacket_Operand by (try (unfold word, OpStandardLinkCopy; lia); repeat constructor; unfold word in *; lia).
  simpl default. change (OpStandardLinkCopy =? OpStandardLinkTombstone) with false. cbv iota. rewrite Z.eqb_refl.
  change ((0 <=? 2) && (2 <? PacketOperandCount)) with true. cbv iota.
  assert (E : i64 n = n) by (unfold i64; rewrite u64_small by (unfold word; lia); destruct (Z.ltb_spec n (2 ^ 63)); lia).
  simpl. rewrite E. destruct (Z.leb_spec n 0), (Z.ltb_spec bs n); simpl; try lia. done.
Qed.

Lemma classify_tombstone bs id slot reason : classify bs (NewStandardLinkTombstonePacket id slot reason) = Ok 0.
Proof.
  change (NewStandardLinkTombstonePacket id slot reason) with (NewPacket OpStandardLinkTombstone [id; slot; reason]).
  unfold classify. rewrite NewPacket_Op by (unfold word, OpStandardLinkTombstone; lia). done.
Qed.

Lemma tail_zero_tombstone id slot reason : tail_zero (NewStandardLinkTombstonePacket id slot reason).
Proof. split; reflexivity. Qed.

Lemma tail_zero_copy id slot n : tail_zero (NewStandardLinkCopyPacket id slot n).
Proof. split; reflexivity. Qed.

(** ** The calls on one direction *)

Section Direction.
Context (k bs : Z) (Hbs : 0 < bs < 2 ^ 63).
Implicit Types (h : MPMCRing) (m : ring_mem) (q : list (option bytes)) (l : StandardLink).

(** Handles of the same ring are interchangeable. *)
Lemma link_holds_handle h h' m q : h_mask h' = h_mask h -> link_holds k h bs m q -> link_holds k h' bs m q.
Proof.
  intros E (cells & (g & H & Hq & Hc) & H2 & H3). exists cells. split_and!; try done. exists g. split_and!; try done.
  destruct H. constructor; try done. congruence.
Qed.

Lemma link_holds_length h m q : link_holds k h bs m q -> Z.of_nat (length q) <= 2 ^ k.
Proof.
  intros (cells & (g & H & _ & <-) & H2 & _). apply Forall2_length in H2. rewrite <- H2, length_contents.
  pose proof (rep_cursors _ _ _ _ H). lia.
Qed.

(** Claiming a free slot: its packet and buffer are fit for a message, and
    committing what was stored in it appends that to the queue. *)
Lemma link_produce h waits m q :
  link_holds k h bs m q -> Z.of_nat (length q) < 2 ^ k ->
  let slot := mkSlot (m_w m) true false in
  let m1 := set_cursor NotFull (u64 (m_w m + 1)) m in
  ReserveProducerCancel h waits m = Some (m1, Ok slot) /\
  word 64 (m_w m) /\ 0 <= Slot h slot < 2 ^ k /\
  slot_ok bs (cell_of h slot m1) /\ load_seq m1 (Slot h slot) = cs_pos slot /\
  forall c x, encodes bs c x -> slot_ok bs c ->
    link_holds k h bs (CommitOwned h slot (store_data (Slot h slot) c m1)).1 (q ++ [x]).
Proof.
  intros (cells & Hh & H2 & H3) Hlen slot m1.
  assert (Hl : Z.of_nat (length cells) < 2 ^ k) by (apply Forall2_length in H2; lia).
  destruct (producer_reserve k h waits m cells Hh Hl) as (E & Hsl & Hseq & Hpub). fold m1 in E, Hseq, Hpub.
  unfold ReserveProducerCancel. rewrite E. split; [done|].
  split; [destruct Hh as (g & H & _); rewrite (rep_w _ _ _ _ H); apply u64_range|].
  split; [destruct Hh as (g & H & _); rewrite (rep_len _ _ _ _ H) in Hsl; pose proof (pow_bounds k (rep_k _ _ _ _ H)); unfold Slot; simpl; lia|].
  split.
  - destruct (load_data_datas (slot_ok bs) m1 (slot_of h (m_w m))) as (v & Ev & Hv); [unfold m1; by rewrite datas_set_cursor|done|].
    unfold cell_of, Slot. simpl. rewrite Ev. done.
  - split; [exact Hseq|]. intros c x Hc Hok. exists (cells ++ [c]). split_and!; [apply Hpub|by apply Forall2_app; [|constructor]|].
    unfold CommitOwned. rewrite datas_publish. apply Forall_store_data; [done|]. unfold m1. by rewrite datas_set_cursor.
Qed.

Lemma link_consume h waits m x q :
  link_holds k h bs m (x :: q) ->
  let slot := mkSlot (m_r m) true false in
  let m1 := set_cursor NotEmpty (u64 (m_r m + 1)) m in
  ReserveConsumerCancel h waits m = Some (m1, Ok slot) /\
  encodes bs (cell_of h slot m1) x /\ link_holds k h bs (ReleaseOwned h slot m1).1 q /\
  load_seq m1 (Slot h slot) = u64 (cs_pos slot + 1).
Proof.
  intros (cells & Hh & H2 & H3) slot m1. inv H2 as [|c x' cells' q' Hc H2'].
  destruct (consumer_reserve k h waits m c cells' Hh) as (E & Ec & Hseq & Hrel). fold m1 in E, Ec, Hseq, Hrel.
  unfold ReserveConsumerCancel. rewrite E. split; [done|]. split.
  - unfold cell_of, Slot. simpl. rewrite Ec. done.
  - split; [|exact Hseq]. exists cells'. split_and!; [done..|]. unfold ReleaseOwned, m1. by rewrite datas_release, datas_set_cursor.
Qed.

Lemma link_empty_blocked h waits e m' m :
  link_holds k h bs m [] -> ReserveConsumerCancel h ((Some e, m') :: waits) m = Some (m', Err e).
Proof.
  intros (cells & Hh & H2 & _). inv H2. unfold ReserveConsumerCancel. by rewrite (consumer_blocked k).
Qed.

Lemma link_full_blocked h waits e m' m q :
  link_holds k h bs m q -> Z.of_nat (length q) = 2 ^ k ->
  ReserveProducerCancel h ((Some e, m') :: waits) m = Some (m', Err e).
Proof.
  intros (cells & Hh & H2 & _) Hl. apply Forall2_length in H2. unfold ReserveProducerCancel.
  rewrite (producer_blocked k h _ _ _ _ cells); [done..|lia].
Qed.

(** Receive-side reservations deliver what is published, whatever the waits
    would have been. *)
Lemma reserveRx_some l waits m x q :
  link_holds k (rxRing l) bs m (x :: q) ->
  reserveRx l waits m = Some (set_cursor NotEmpty (u64 (m_r m + 1)) m, Ok (mkSlot (m_r m) true false)).
Proof.
  intros H. destruct (link_consume _ waits _ _ _ H) as (E & _). unfold reserveRx, reserveDrained. by rewrite E.
Qed.

(** A wait that ends with an error: an error of the peer is reported only on
    an empty ring; any other error is reported as it is. *)
Lemma reserveRx_wait_err l waits e m' m q :
  link_holds k (rxRing l) bs m [] -> link_holds k (rxRing l) bs m' q ->
  reserveRx l ((Some e, m') :: waits) m =
    if peerLost e then
      match q with
      | [] => Some (m', Err (mapWaitErr e))
      | _ => Some (set_cursor NotEmpty (u64 (m_r m' + 1)) m', Ok (mkSlot (m_r m') true false))
      end
    else Some (m', Err (mapWaitErr e)).
Proof.
  intros H H'. unfold reserveRx, reserveDrained. rewrite (link_empty_blocked _ _ _ _ _ H). simpl.
  destruct (peerLost e); [|done]. unfold reserveRetry. destruct q as [|x q].
  - unfold drain_waits. by rewrite (link_empty_blocked _ _ _ _ _ H').
  - destruct (link_consume _ (drain_waits m') _ _ _ H') as (E & _). by rewrite E.
Qed.

(** An environment in which every wait ends with [e], the memory unchanged. *)
Definition blocked (e : error) : wait_env := fun m => [(Some e, m)].

Fixpoint skip_tombstones q : list (option bytes) :=
  match q with None :: q' => skip_tombstones q' | _ => q end.

Definition tombstones q : nat := length q - length (skip_tombstones q).

Lemma skip_length q : (length (skip_tombstones q) <= length q)%nat.
Proof. induction q as [|[x|] q IH]; simpl; lia. Qed.

Lemma skip_no_tombstone q q' : skip_tombstones q <> None :: q'.
Proof. induction q as [|[y|] q IH]; simpl; done. Qed.

Lemma next_message_spec l e q : forall n m,
  link_holds k (rxRing l) bs m q -> bufferSize l = bs -> (tombstones q < n)%nat ->
  exists m1 ev x, next_message l (replicate n (blocked e)) m = Some (m1, ev, x) /\
  match skip_tombstones q with
  | Some msg :: q' => exists s, x = Ok (s, Z.of_nat (length msg)) /\ msg <> [] /\
      take (length msg) (cell_of (rxRing l) s m1).2 = msg /\
      link_holds k (rxRing l) bs (ReleaseOwned (rxRing l) s m1).1 q' /\ consumer_Owned (rxRing l) s m1 = true
  | _ => x = Err (mapWaitErr e) /\ link_holds k (rxRing l) bs m1 []
  end.
Proof.
  unfold tombstones. induction q as [|x q IH]; intros n m H Hb Hn; (destruct n as [|n]; [lia|]); cbn [replicate next_message].
  - change (blocked e m) with [(Some e, m)]. rewrite (reserveRx_wait_err l [] e m m []) by done. simpl.
    destruct (peerLost e); simpl; by exists m, [], (Err (mapWaitErr e)).
  - rewrite (reserveRx_some l _ m x q) by done. simpl.
    destruct (link_consume _ [] _ _ _ H) as (_ & Hc & Hrel & Hseq). rewrite Hb.
    set (slot := mkSlot _ _ _) in *. set (m1 := set_cursor _ _ _) in *.
    destruct x as [msg|]; simpl in Hc.
    + destruct Hc as (Hne & Hcl & Htake). rewrite Hcl.
      destruct (Z.eqb_spec (Z.of_nat (length msg)) 0) as [E0|_]; [destruct msg; [done|simpl in E0; lia]|].
      exists m1, [], (Ok (slot, Z.of_nat (length msg))). split; [done|]. exists slot. split_and!; try done.
      unfold consumer_Owned. simpl. by apply Z.eqb_eq.
    + rewrite Hc. simpl. destruct (ReleaseOwned (rxRing l) slot m1) as [m2 ev] eqn:Er. simpl in Hrel.
      pose proof (skip_length q). simpl in Hn.
      destruct (IH n m2 Hrel Hb ltac:(lia)) as (m3 & ev' & x & Ex & Hx).
      rewrite Ex. simpl. exists m3, (ev ++ ev'), x. done.
Qed.

(** *** Specification: a queue of messages and a queue of tails *)

Record spec_state := mkSpec { sp_queue : list (option bytes); sp_tails : list bytes }.

(** [Read]/[ReadFrom] report a graceful close as the end of the stream. *)
Definition read_err (e : error) : error :=
  let e := mapWaitErr e in if bool_decide (e = ErrPeerClosed) then io_EOF else e.

Definition spec_recv (dlen : nat) (datagram : bool) (e : error) (s : spec_state) : spec_state * result error bytes :=
  match sp_tails s with
  | x :: ts =>
      (mkSpec (sp_queue s) (if datagram || (length x <=? dlen)%nat then ts else drop dlen x :: ts), Ok (take dlen x))
  | [] =>
      match skip_tombstones (sp_queue s) with
      | Some msg :: q =>
          (mkSpec q (if negb datagram && (dlen <? length msg)%nat then [drop dlen msg] else []), Ok (take dlen msg))
      | _ => (mkSpec [] [], Err (read_err e))
      end
  end.

Definition spec_zero_copy (fn : bytes -> read_cb) (e : error) (s : spec_state) : spec_state * call_result Z :=
  match sp_tails s with
  | x :: ts => (mkSpec (sp_queue s) ts, cb_result fn x)
  | [] =>
      match skip_tombstones (sp_queue s) with
      | Some msg :: q => (mkSpec q [], cb_result fn msg)
      | _ => (mkSpec [] [], Ret (Err (mapWaitErr e)))
      end
  end.

(** A send: [x] is appended, unless the queue is full. *)
Definition spec_send (x : option bytes) (r : call_result Z) (e : error) (s : spec_state) : spec_state * call_result Z :=
  if Z.of_nat (length (sp_queue s)) <? 2 ^ k then (mkSpec (sp_queue s ++ [x]) (sp_tails s), r)
  else (s, Ret (Err (mapWaitErr e))).

Definition spec_write (b : bytes) (e : error) (s : spec_state) : spec_state * call_result Z :=
  let n := Z.of_nat (length b) in
  if n =? 0 then (s, Ret (Ok 0))
  else if bs <? n then (s, Ret (Err ErrBufferOverflow))
  else spec_send (Some b) (Ret (Ok n)) e s.

Definition spec_write_zero_copy (content : bytes) (r : write_cb) (e : error) (s : spec_state) : spec_state * call_result Z :=
  match r with
  | WcbPanic => spec_send None Panic e s
  | WcbErr e' => spec_send None (Ret (Err e')) e s
  | WcbRet n =>
      if n <=? 0 then spec_send None (Ret (Err ErrInvalidSize)) e s
      else if bs <? n then spec_send None (Ret (Err ErrBufferOverflow)) e s
      else spec_send (Some (take (Z.to_nat n) content)) (Ret (Ok n)) e s
  end.

(** *** The receiving endpoint *)

Lemma exitRx_enter l r hp :
  exitRx (with_recv r hp (with_active (rxActive l + 1) (txActive l) l)) = with_recv r hp l.
Proof. destruct l. unfold exitRx, with_recv, with_active. simpl. f_equal; lia. Qed.

Lemma enterRx_open l : closed l = false -> enterRx l = (with_active (rxActive l + 1) (txActive l) l, None).
Proof. intros E. unfold enterRx. simpl. by rewrite E. Qed.

Lemma next_message_ext l l' envs m :
  rxRing l' = rxRing l -> bufferSize l' = bufferSize l -> next_message l' envs m = next_message l envs m.
Proof.
  intros E1 E2. revert m. induction envs as [|env envs IH]; intros m; simpl; [done|].
  unfold reserveRx. rewrite E1, E2. destruct (reserveDrained _ _ _) as [[m1 [s|e]]|]; simpl; try done.
  destruct (classify _ _); [|done]. destruct (_ =? 0); [|done]. destruct (ReleaseOwned _ _ _). by rewrite IH.
Qed.

Definition reader_ok (h : MPMCRing) (ts : list bytes) l : Prop :=
  closed l = false /\ rxRing l = h /\ bufferSize l = bs /\
  rem_inv [] (recv l) (l_heap l) /\ tails (recv l) (l_heap l) = ts.

Context (grow : nat -> nat) (Hgrow : forall n, (n < grow n)%nat).

Lemma recvMessage_spec h l m s dlen datagram e n :
  reader_ok h (sp_tails s) l -> link_holds k h bs m (sp_queue s) -> (tombstones (sp_queue s) < n)%nat ->
  exists l' m' ev, recvMessage grow dlen datagram (replicate n (blocked e)) l m =
      Some (l', m', ev, (spec_recv dlen datagram e s).2) /\
    link_holds k h bs m' (sp_queue (spec_recv dlen datagram e s).1) /\
    reader_ok h (sp_tails (spec_recv dlen datagram e s).1) l'.
Proof.
  intros (Hc & Hh & Hb & Hinv & Ht) Hm Hn. unfold recvMessage. rewrite enterRx_open by done. cbn [recv l_heap with_active].
  set (l1 := with_active _ _ l).
  pose proof (read_spec [] _ _ dlen datagram Hinv) as Hr. pose proof (pending_live _ _ _ Hinv) as Hp.
  unfold spec_recv. destruct (sp_tails s) as [|x ts] eqn:Ets.
  - assert (Epend : r_pending (recv l) = false).
    { destruct (r_pending (recv l)); [|done]. destruct Hp as (t & tl & b & El & _). unfold tails in Ht. by rewrite El in Ht. }
    rewrite Epend. destruct (next_message_spec l e (sp_queue s) n m) as (m1 & ev & x & Ex & Hx); [by rewrite Hh|done|done|].
    rewrite (next_message_ext l) by done. rewrite Ex. simpl. rewrite Hh in Hx.
    destruct (skip_tombstones (sp_queue s)) as [|[msg|] q] eqn:Es.
    + destruct Hx as [-> Hx]. eexists _, _, _. split; [reflexivity|]. split; [done|]. unfold l1. rewrite exitRx_enter. done.
    + destruct Hx as (sl & -> & Hne & Htk & Hrel & _). change (rxRing (with_recv _ _ l1)) with (rxRing l). rewrite Hh, Nat2Z.id, Htk.
      assert (Hcond : (Z.of_nat (length (take dlen msg)) <? Z.of_nat (length msg)) && negb datagram =
                      negb datagram && (dlen <? length msg)%nat).
      { rewrite andb_comm, length_take. destruct datagram; simpl; [done|].
        destruct (Z.ltb_spec (Z.of_nat (Nat.min dlen (length msg))) (Z.of_nat (length msg))), (Nat.ltb_spec dlen (length msg)); lia || done. }
      rewrite Hcond. destruct (negb datagram && (dlen <? length msg)%nat) eqn:Ed.
      * apply andb_true_iff in Ed as [_ Ed]. apply Nat.ltb_lt in Ed.
        rewrite length_take, Nat.min_l by lia. cbn [recv l_heap with_recv].
        assert (Hd : drop dlen msg <> []) by (intros E0; apply (f_equal length) in E0; rewrite length_drop in E0; simpl in E0; lia).
        pose proof (store_spec grow [] _ _ (drop dlen msg) Hinv Hgrow Hd) as Hst.
        destruct (store grow (drop dlen msg) (recv l) (l_heap l)) as [r2 h2]. destruct Hst as (Hi2 & Ht2 & _).
        cbn [rxRing with_recv with_active l1]. rewrite Hh. destruct (ReleaseOwned h sl m1) as [m2 ev2] eqn:Er.
        eexists _, _, _. split; [reflexivity|]. split; [exact Hrel|].
        change (with_recv r2 h2 (with_recv (recv l) (l_heap l) l1)) with (with_recv r2 h2 l1). unfold l1. rewrite exitRx_enter.
        split_and!; try done. change (tails r2 h2 = [drop dlen msg]). by rewrite Ht2, Ht.
      * cbn [rxRing with_recv with_active l1]. rewrite Hh. destruct (ReleaseOwned h sl m1) as [m2 ev2] eqn:Er.
        eexists _, _, _. split; [reflexivity|]. split; [exact Hrel|]. unfold l1. rewrite exitRx_enter. done.
    + by apply skip_no_tombstone in Es.
  - assert (Epend : r_pending (recv l) = true).
    { destruct (r_pending (recv l)); [done|]. unfold tails in Ht. by rewrite Hp in Ht. }
    rewrite Epend. destruct (read dlen datagram (recv l) (l_heap l)) as [r o]. destruct Hr as [Hi2 Hr]. rewrite Ht in Hr.
    destruct Hr as [-> Ht2]. eexists _, _, _. split; [reflexivity|]. split; [done|].
    unfold l1. rewrite exitRx_enter. done.
Qed.

Lemma ReadZeroCopy_spec h l m s fn e n :
  reader_ok h (sp_tails s) l -> link_holds k h bs m (sp_queue s) -> (tombstones (sp_queue s) < n)%nat ->
  exists l' m' ev, ReadZeroCopy (Some fn) (replicate n (blocked e)) l m =
      Some (l', m', ev, (spec_zero_copy fn e s).2) /\
    link_holds k h bs m' (sp_queue (spec_zero_copy fn e s).1) /\
    reader_ok h (sp_tails (spec_zero_copy fn e s).1) l'.
Proof.
  intros (Hc & Hh & Hb & Hinv & Ht) Hm Hn. unfold ReadZeroCopy. rewrite enterRx_open by done. cbn [recv l_heap with_active].
  set (l1 := with_active _ _ l).
  pose proof (take_tail_spec [] _ _ Hinv) as Hr. pose proof (pending_live _ _ _ Hinv) as Hp.
  unfold spec_zero_copy. destruct (sp_tails s) as [|x ts] eqn:Ets.
  - assert (Epend : r_pending (recv l) = false).
    { destruct (r_pending (recv l)); [|done]. destruct Hp as (t & tl & b & El & _). unfold tails in Ht. by rewrite El in Ht. }
    rewrite Epend. destruct (next_message_spec l e (sp_queue s) n m) as (m1 & ev & x & Ex & Hx); [by rewrite Hh|done|done|].
    rewrite (next_message_ext l) by done. rewrite Ex. simpl. rewrite Hh in Hx.
    destruct (skip_tombstones (sp_queue s)) as [|[msg|] q] eqn:Es.
    + destruct Hx as [-> Hx]. eexists _, _, _. split; [reflexivity|]. split; [done|]. unfold l1. rewrite exitRx_enter. done.
    + destruct Hx as (sl & -> & Hne & Htk & Hrel & _). unfold deliverZeroCopy.
      change (rxRing (with_recv _ _ l1)) with (rxRing l). rewrite Hh, Nat2Z.id, Htk.
      destruct (ReleaseOwned h sl m1) as [m2 ev2] eqn:Er.
      eexists _, _, _. split; [unfold cb_result; reflexivity|]. split; [exact Hrel|]. unfold l1. rewrite exitRx_enter. done.
    + by apply skip_no_tombstone in Es.
  - assert (Epend : r_pending (recv l) = true).
    { destruct (r_pending (recv l)); [done|]. unfold tails in Ht. by rewrite Hp in Ht. }
    rewrite Epend. destruct (take_tail (recv l)) as [r o]. rewrite Ht in Hr.
    destruct Hr as (t & b & -> & Eb & Ev & Hi2 & Ht2). cbn [l_heap with_active l1]. rewrite Ev, Eb. destruct (putBuf_spec [] r (l_heap l) b Hi2) as [Hi3 El3].
    eexists _, _, _. split; [reflexivity|]. split; [done|].
    unfold l1. rewrite exitRx_enter. split_and!; try done. simpl. unfold tails in *. by rewrite El3.
Qed.

(** *** The sending endpoint *)

Definition writer_ok (h : MPMCRing) l : Prop :=
  closed l = false /\ hbRunning l = true /\ peer_err (status (peer l)) = None /\ txRing l = h /\ bufferSize l = bs.

Lemma exitTx_enter l : exitTx (with_active (rxActive l) (txActive l + 1) l) = l.
Proof. destruct l. unfold exitTx, with_active. simpl. f_equal; lia. Qed.

Lemma enterTx_open h l now sb :
  writer_ok h l -> enterTx true now sb l = (with_active (rxActive l) (txActive l + 1) l, None).
Proof. intros (E1 & E2 & E3 & _). unfold enterTx, admitTx. simpl. rewrite E1, E2. simpl. by rewrite E3. Qed.

Lemma encodes_copy buf msg p id slot :
  Z.of_nat (length buf) = bs -> 0 < Z.of_nat (length msg) <= bs -> tail_zero p -> word 64 id -> word 64 slot ->
  (exists content, (length msg <= length content)%nat /\ take (length msg) content = msg /\ buf = content) ->
  encodes bs (storeCopyPacket p id slot (Z.of_nat (length msg)), buf) (Some msg) /\
  slot_ok bs (storeCopyPacket p id slot (Z.of_nat (length msg)), buf).
Proof.
  intros Hl Hn Hp Hid Hsl (content & Hc & Ht & ->). rewrite storeCopyPacket_copy by done. split.
  - split; [intros ->; simpl in Hn; lia|]. split; [|done]. apply classify_copy; lia || done.
  - split; [apply tail_zero_copy|done].
Qed.

Lemma encodes_tombstone buf id slot reason :
  Z.of_nat (length buf) = bs ->
  encodes bs (NewStandardLinkTombstonePacket id slot reason, buf) None /\
  slot_ok bs (NewStandardLinkTombstonePacket id slot reason, buf).
Proof. intros Hl. split; [apply classify_tombstone|]. split; [apply tail_zero_tombstone|done]. Qed.

Lemma pow_word : 1 <= k <= 61 -> forall x, 0 <= x < 2 ^ k -> word 64 x.
Proof. intros Hk x Hx. pose proof (pow_bounds k Hk). unfold word. lia. Qed.

Lemma link_holds_k h m q : link_holds k h bs m q -> 1 <= k <= 61.
Proof. intros (cells & (g & H & _) & _). apply (rep_k _ _ _ _ H). Qed.

Lemma Write_spec h l m s b now sb e :
  writer_ok h l -> link_holds k h bs m (sp_queue s) ->
  exists m' ev r, Write b now sb [(Some e, m)] l m = Some (l, m', ev, r) /\
    Ret r = (spec_write b e s).2 /\ link_holds k h bs m' (sp_queue (spec_write b e s).1) /\
    sp_tails (spec_write b e s).1 = sp_tails s.
Proof.
  intros Hw Hm. destruct (Hw) as (E1 & E2 & E3 & Hh & Hb). unfold Write, spec_write, spec_send. rewrite Hb.
  destruct (Z.eqb_spec (Z.of_nat (length b)) 0) as [E0|E0]; [by exists m, [], (Ok 0)|].
  destruct (Z.ltb_spec bs (Z.of_nat (length b))) as [Hov|Hov]; [by exists m, [], (Err ErrBufferOverflow)|].
  rewrite (enterTx_open h) by done. change (txRing (with_active _ _ l)) with (txRing l). rewrite Hh.
  destruct (Z.ltb_spec (Z.of_nat (length (sp_queue s))) (2 ^ k)) as [Hr|Hr].
  - destruct (link_produce h [(Some e, m)] m _ Hm Hr) as (-> & Hpos & Hsl & Hcell & _ & Hput). simpl.
    set (slot := mkSlot (m_w m) true false) in *. set (m1 := set_cursor _ _ m) in *.
    destruct (cell_of h slot m1) as [p buf]. destruct Hcell as [Hz Hl]. simpl in Hz, Hl.
    set (id := copyID _ slot). pose proof (link_holds_k _ _ _ Hm) as Hk.
    destruct (encodes_copy (copy_to buf b) b p id (Slot h slot)) as [Henc Hok]; try done.
    + by rewrite length_copy_to.
    + lia.
    + apply u64_range.
    + by apply (pow_word Hk).
    + exists (copy_to buf b). rewrite length_copy_to. split_and!; [lia| |done]. apply copy_to_fits. lia.
    + specialize (Hput _ _ Henc Hok). destruct (CommitOwned _ _ _) as [m3 ev].
      eexists _, _, _. split; [by rewrite exitTx_enter|]. done.
  - pose proof (link_holds_length _ _ _ Hm). rewrite (link_full_blocked h _ _ _ _ _ Hm) by lia. simpl.
    eexists _, _, _. split; [by rewrite exitTx_enter|]. done.
Qed.

Lemma WriteZeroCopy_spec h l m s content r now sb e :
  writer_ok h l -> link_holds k h bs m (sp_queue s) ->
  (forall n, r = WcbRet n -> n <= bs -> n <= Z.of_nat (length content)) ->
  exists m' ev, WriteZeroCopy (Some (fun _ : bytes => (content, r))) now sb [(Some e, m)] l m =
      Some (l, m', ev, (spec_write_zero_copy content r e s).2) /\
    link_holds k h bs m' (sp_queue (spec_write_zero_copy content r e s).1) /\
    sp_tails (spec_write_zero_copy content r e s).1 = sp_tails s.
Proof.
  intros Hw Hm Hcont. destruct (Hw) as (E1 & E2 & E3 & Hh & Hb). unfold WriteZeroCopy.
  rewrite (enterTx_open h) by done. change (txRing (with_active _ _ l)) with (txRing l). rewrite Hh.
  unfold spec_write_zero_copy, spec_send.
  destruct (Z.ltb_spec (Z.of_nat (length (sp_queue s))) (2 ^ k)) as [Hr|Hr].
  2:{ pose proof (link_holds_length _ _ _ Hm). rewrite (link_full_blocked h _ _ _ _ _ Hm) by lia. simpl.
      exists m, []. rewrite exitTx_enter. destruct r as [n| |]; [destruct (n <=? 0), (bs <? n)|..]; done. }
  destruct (link_produce h [(Some e, m)] m _ Hm Hr) as (-> & Hpos & Hsl & Hcell & _ & Hput). simpl.
  unfold fillSlot. change (txRing (with_active _ _ l)) with (txRing l). rewrite Hh.
  set (slot := mkSlot (m_w m) true false) in *. set (m1 := set_cursor _ _ m) in *.
  destruct (cell_of h slot m1) as [p buf]. destruct Hcell as [Hz Hl]. simpl in Hz, Hl.
  set (id := copyID _ slot). pose proof (link_holds_k _ _ _ Hm) as Hk.
  assert (Hl' : Z.of_nat (length (copy_to buf content)) = bs) by (by rewrite length_copy_to).
  assert (Htomb : forall code, link_holds k h bs
    (CommitOwned h slot (store_data (Slot h slot) (NewStandardLinkTombstonePacket id (Slot h slot) code, copy_to buf content) m1)).1
    (sp_queue s ++ [None])).
  { intros code. destruct (encodes_tombstone (copy_to buf content) id (Slot h slot) code Hl') as [H1 H2]. exact (Hput _ _ H1 H2). }
  destruct r as [n|e'|].
  - rewrite Hl. destruct (Z.leb_spec n 0) as [Hn|Hn]; [|destruct (Z.ltb_spec bs n) as [Hn2|Hn2]].
    + specialize (Htomb ErrCodeInvalidSize). destruct (CommitOwned _ _ _) as [m' ev].
      exists m', ev. by rewrite exitTx_enter.
    + specialize (Htomb ErrCodeBufferOverflow). destruct (CommitOwned _ _ _) as [m' ev].
      exists m', ev. by rewrite exitTx_enter.
    + specialize (Hcont n eq_refl Hn2). set (msg := take (Z.to_nat n) content).
      assert (Hlm : Z.of_nat (length msg) = n) by (unfold msg; rewrite length_take; lia).
      destruct (encodes_copy (copy_to buf content) msg p id (Slot h slot)) as [Henc Hok]; try done.
      * lia.
      * apply u64_range.
      * by apply (pow_word Hk).
      * exists (copy_to buf content). split_and!; [lia| |done]. unfold copy_to, copy_n.
        rewrite take_app_le by (rewrite length_take; lia). rewrite take_take, Nat.min_l by lia.
        unfold msg. rewrite length_take. f_equal. lia.
      * rewrite Hlm in Henc, Hok. specialize (Hput _ _ Henc Hok).
        destruct (CommitOwned _ _ _) as [m3 ev]. exists m3, ev. by rewrite exitTx_enter.
  - specialize (Htomb ErrCodeInvalidOp). destruct (CommitOwned _ _ _) as [m' ev]. exists m', ev. by rewrite exitTx_enter.
  - specialize (Htomb ErrCodeInvalidOp). destruct (CommitOwned _ _ _) as [m' ev]. exists m', ev. by rewrite exitTx_enter.
Qed.

End Direction.

(** ** A session on one direction *)

(** The sending endpoint, the receiving endpoint and the ring between them. *)
Record direction := mkDir { d_tx : StandardLink; d_rx : StandardLink; d_ring : ring_mem }.

Inductive link_op :=
| LWrite (b : bytes)
| LWriteZeroCopy (content : bytes) (r : write_cb)
| LRead (dlen : nat)
| LReadFrom (dlen : nat)
| LReadZeroCopy (fn : bytes -> read_cb).

Inductive link_out := OutCount (x : call_result Z) | OutBytes (r : result error bytes).

Section Session.
Context (grow : nat -> nat) (now : Z) (sb : standardSuperblock).

(** One call; [e] is the error a wait of the call ends with, should it have to
    wait. A receive loop of more iterations than the ring has slots cannot be
    needed. *)
Definition link_call (x : link_op * error) (d : direction) : option (direction * link_out) :=
  let (op, e) := x in
  let m := d_ring d in
  let envs := replicate (S (length (slots m))) (blocked e) in
  match op with
  | LWrite b =>
      '(l, m', _, r) ← Write b now sb [(Some e, m)] (d_tx d) m;
      Some (mkDir l (d_rx d) m', OutCount (Ret r))
  | LWriteZeroCopy content r =>
      '(l, m', _, r) ← WriteZeroCopy (Some (fun _ : bytes => (content, r))) now sb [(Some e, m)] (d_tx d) m;
      Some (mkDir l (d_rx d) m', OutCount r)
  | LRead dlen =>
      '(l, m', _, r) ← Read grow dlen envs (d_rx d) m; Some (mkDir (d_tx d) l m', OutBytes r)
  | LReadFrom dlen =>
      '(l, m', _, r) ← ReadFrom grow dlen envs (d_rx d) m;
      Some (mkDir (d_tx d) l m', OutBytes (match r with Ok (b, _) => Ok b | Err e => Err e end))
  | LReadZeroCopy fn =>
      '(l, m', _, r) ← ReadZeroCopy (Some fn) envs (d_rx d) m; Some (mkDir (d_tx d) l m', OutCount r)
  end.

Fixpoint link_run (ops : list (link_op * error)) (d : direction) : option (direction * list link_out) :=
  match ops with
  | [] => Some (d, [])
  | x :: rest =>
      '(d1, o) ← link_call x d;
      '(d2, os) ← link_run rest d1;
      Some (d2, o :: os)
  end.

End Session.

(** The specification of a call and of a run. *)
Definition spec_call (k bs : Z) (x : link_op * error) (s : spec_state) : spec_state * link_out :=
  let (op, e) := x in
  match op with
  | LWrite b => let (s, r) := spec_write k bs b e s in (s, OutCount r)
  | LWriteZeroCopy content r => let (s, r) := spec_write_zero_copy k bs content r e s in (s, OutCount r)
  | LRead dlen => if (dlen =? 0)%nat then (s, OutBytes (Ok []))
                  else let (s, r) := spec_recv dlen false e s in (s, OutBytes r)
  | LReadFrom dlen => let (s, r) := spec_recv dlen true e s in (s, OutBytes r)
  | LReadZeroCopy fn => let (s, r) := spec_zero_copy fn e s in (s, OutCount r)
  end.

Fixpoint spec_calls (k bs : Z) (ops : list (link_op * error)) (s : spec_state) : spec_state * list link_out :=
  match ops with
  | [] => (s, [])
  | x :: rest =>
      let (s1, o) := spec_call k bs x s in
      let (s2, os) := spec_calls k bs rest s1 in (s2, o :: os)
  end.

(** A callback that reports [n] bytes has written them. *)
Definition call_ok (bs : Z) (x : link_op * error) : Prop :=
  match x.1 with
  | LWriteZeroCopy content (WcbRet n) => n <= bs -> n <= Z.of_nat (length content)
  | _ => True
  end.

(** Two open endpoints, the sender's peer alive, on a ring that carries the
    queue of the specification; the receiver holds its tails. *)
Definition direction_ok (k bs : Z) (d : direction) (s : spec_state) : Prop :=
  writer_ok bs (txRing (d_tx d)) (d_tx d) /\ reader_ok bs (rxRing (d_rx d)) (sp_tails s) (d_rx d) /\
  h_mask (rxRing (d_rx d)) = h_mask (txRing (d_tx d)) /\
  link_holds k (txRing (d_tx d)) bs (d_ring d) (sp_queue s).

Lemma tombstones_bound k h bs m q : link_holds k h bs m q -> (tombstones q < S (length (slots m)))%nat.
Proof.
  intros H. pose proof (link_holds_length k bs h m q H) as Hq. destruct H as (cells & (g & H & _) & _).
  unfold tombstones. rewrite (rep_len _ _ _ _ H). lia.
Qed.

Lemma link_call_ok k bs grow now sb x d s :
  0 < bs < 2 ^ 63 -> (forall n, (n < grow n)%nat) -> direction_ok k bs d s -> call_ok bs x ->
  exists d', link_call grow now sb x d = Some (d', (spec_call k bs x s).2) /\
             direction_ok k bs d' (spec_call k bs x s).1.
Proof.
  intros Hbs Hg (Hw & Hr & Hmask & Hm) Hx. destruct x as [op e].
  pose proof (tombstones_bound _ _ _ _ _ Hm) as Hn.
  assert (Hm' : link_holds k (rxRing (d_rx d)) bs (d_ring d) (sp_queue s)) by (by apply (link_holds_handle k bs (txRing (d_tx d)))).
  assert (Hread : forall dlen dg, exists l' m' ev,
    recvMessage grow dlen dg (replicate (S (length (slots (d_ring d)))) (blocked e)) (d_rx d) (d_ring d) =
      Some (l', m', ev, (spec_recv dlen dg e s).2) /\ direction_ok k bs (mkDir (d_tx d) l' m') (spec_recv dlen dg e s).1).
  { intros dlen dg. destruct (recvMessage_spec k bs grow Hg (rxRing (d_rx d)) (d_rx d) (d_ring d) s dlen dg e _ Hr Hm' Hn)
      as (l' & m' & ev & E & H1 & H2). exists l', m', ev. split; [done|].
    assert (El : rxRing l' = rxRing (d_rx d)) by (by destruct H2 as (_ & ? & _)).
    split_and!; simpl; rewrite ?El; try done. by apply (link_holds_handle k bs (rxRing (d_rx d))). }
  destruct op as [b|content r|dlen|dlen|fn]; simpl in Hx; cbn [link_call spec_call].
  - destruct (Write_spec k bs Hbs (txRing (d_tx d)) (d_tx d) (d_ring d) s b now sb e Hw Hm) as (m' & ev & r & -> & E & H1 & H2).
    destruct (spec_write k bs b e s) as [s1 r1]. simpl in *. subst r1.
    eexists. split; [reflexivity|]. split_and!; simpl; rewrite ?H2; done.
  - destruct (WriteZeroCopy_spec k bs Hbs (txRing (d_tx d)) (d_tx d) (d_ring d) s content r now sb e Hw Hm) as (m' & ev & -> & H1 & H2).
    { intros n -> Hn'. by apply Hx. }
    destruct (spec_write_zero_copy k bs content r e s) as [s1 r1]. simpl in *.
    eexists. split; [reflexivity|]. split_and!; simpl; rewrite ?H2; done.
  - unfold Read. destruct (dlen =? 0)%nat; [by exists d; destruct d|].
    destruct (Hread dlen false) as (l' & m' & ev & -> & H1). destruct (spec_recv dlen false e s) as [s1 r1]. simpl in *.
    eexists. by split.
  - unfold ReadFrom. destruct (Hread dlen true) as (l' & m' & ev & -> & H1). destruct (spec_recv dlen true e s) as [s1 r1]. simpl in *.
    eexists. split; [|done]. by destruct r1.
  - destruct (ReadZeroCopy_spec k bs (rxRing (d_rx d)) (d_rx d) (d_ring d) s fn e _ Hr Hm' Hn) as (l' & m' & ev & -> & H1 & H2).
    destruct (spec_zero_copy fn e s) as [s1 r1]. simpl in *. eexists. split; [done|].
    assert (El : rxRing l' = rxRing (d_rx d)) by (by destruct H2 as (_ & ? & _)).
    split_and!; simpl; rewrite ?El; try done. by apply (link_holds_handle k bs (rxRing (d_rx d))).
Qed.

(** ** Properties *)

(** C7. A Standard link is a queue of messages. Any sequence of [Write],
    [WriteZeroCopy], [Read], [ReadFrom] and [ReadZeroCopy] calls on one
    direction, through the ring and the packets, returns what the same calls
    return on a bounded list of messages with a FIFO of unread tails: every
    message arrives once, whole and in order; a read never returns bytes of
    two messages; failed zero-copy writes leave nothing a reader sees;
    oversized and empty writes are refused; a call that would have to wait
    fails with the error its wait ended with, and a graceful close reads as
    the end of the stream. *)
Theorem standard_link_refines_message_queue (k bs : Z) (grow : nat -> nat) (now : Z) (sb : standardSuperblock)
  (ops : list (link_op * error)) (d : direction) (s : spec_state)
  (Hbs : 0 < bs < 2 ^ 63) (Hg : forall n, (n < grow n)%nat)
  (Hd : direction_ok k bs d s) (Hops : Forall (call_ok bs) ops) :
  exists d', link_run grow now sb ops d = Some (d', (spec_calls k bs ops s).2) /\
             direction_ok k bs d' (spec_calls k bs ops s).1.
Proof.
  revert d s Hd Hops. induction ops as [|x ops IH]; intros d s Hd Hops; simpl; [by exists d|].
  apply Forall_cons_iff in Hops as [Hx Hops].
  destruct (link_call_ok k bs grow now sb x d s Hbs Hg Hd Hx) as (d1 & -> & H1). simpl.
  destruct (spec_call k bs x s) as [s1 o]. simpl in *.
  destruct (IH d1 s1 H1 Hops) as (d2 & -> & H2). simpl. destruct (spec_calls k bs ops s1) as [s2 os]. by exists d2.
Qed.

(** A link as [openStandardLink] leaves it, on a ring of two slots of four bytes. *)
Definition sample_link (h : MPMCRing) : StandardLink :=
  mkLink LinkModePrimary 2 4 (mkOpts 1 1 1 roleAny 0 0) (mkId true 7 1) h h (new_remainder 4) []
    None None false true (mkMonitor PeerConnected 8 0 0) 0 0 0.

Definition sample_handle : MPMCRing := mkHandle 1 2 128 WaitAdaptive false.

Definition sample_ring : ring_mem :=
  mkRing mpmc_magic 2 mpmc_init 128 layoutVersion 0 0 0 0 0 0
    [mkElem 0 (zero_packet, [0; 0; 0; 0]); mkElem 1 (zero_packet, [0; 0; 0; 0])].

Lemma sample_ring_holds : link_holds 1 sample_handle 4 sample_ring [].
Proof.
  exists []. split_and!; [|constructor|repeat constructor].
  exists (fresh_ghost (zero_packet, [0; 0; 0; 0])). split_and!; [|split; [simpl; lia|done]|done].
  apply formatted_rep; try done; try lia.
  intros j Hj. assert (j = 0 \/ j = 1) as [-> | ->] by lia; reflexivity.
Qed.

Lemma standard_link_refines_message_queue_witness :
  let d := mkDir (sample_link sample_handle) (sample_link sample_handle) sample_ring in
  let ops := [(LWrite [1; 2; 3], ErrClosed); (LWriteZeroCopy [9] (WcbErr ErrInvalidOp), ErrClosed);
              (LWrite [4], mpmc_ErrTimeout); (LRead 2, ErrClosed); (LWrite [4], mpmc_ErrTimeout);
              (LReadZeroCopy (fun _ => CbNil), ErrClosed); (LRead 4, ErrClosed); (LRead 4, ErrPeerClosed)] in
  exists d', link_run S 0 blank ops d =
    Some (d', [OutCount (Ret (Ok 3)); OutCount (Ret (Err ErrInvalidOp)); OutCount (Ret (Err ErrTimeout));
               OutBytes (Ok [1; 2]); OutCount (Ret (Ok 1)); OutCount (Ret (Ok 1)); OutBytes (Ok [4]);
               OutBytes (Err io_EOF)]).
Proof.
  intros d ops.
  destruct (standard_link_refines_message_queue 1 4 S 0 blank ops d (mkSpec [] [])) as (d' & E & _).
  - lia.
  - lia.
  - split_and!; try done; [|apply sample_ring_holds].
    split_and!; try done. apply (new_remainder_ok 4).
  - repeat constructor.
  - exists d'. exact E.
Defined.

(** Messages published before the peer went away are delivered. A reservation
    on an empty ring whose wait ends with [ErrPeerClosed] or [ErrPeerGone]
    reports the error only if the ring is still empty; a message the peer
    published in the meantime is claimed instead. Other errors (a closed
    link, a deadline) are reported at once and claim nothing. *)
Theorem reserveRx_drains (k bs : Z) (l : StandardLink) (e : error) (m m' : ring_mem) (q : list (option bytes))
  (waits : wait_list)
  (Hm : link_holds k (rxRing l) bs m []) (Hm' : link_holds k (rxRing l) bs m' q) :
  exists m1 r, reserveRx l ((Some e, m') :: waits) m = Some (m1, r) /\
  match r with
  | Ok s => peerLost e = true /\ exists x q', q = x :: q' /\ encodes bs (cell_of (rxRing l) s m1) x /\
      link_holds k (rxRing l) bs (ReleaseOwned (rxRing l) s m1).1 q'
  | Err e' => e' = mapWaitErr e /\ m1 = m' /\ (peerLost e = true -> q = [])
  end.
Proof.
  rewrite (reserveRx_wait_err k bs l waits e m' m q Hm Hm'). destruct (peerLost e).
  - destruct q as [|x q]; [by exists m', (Err (mapWaitErr e))|].
    eexists _, _. split; [reflexivity|]. split; [done|]. exists x, q. split; [done|].
    destruct (link_consume k bs _ [] _ _ _ Hm') as (_ & H1 & H2 & _). done.
  - by exists m', (Err (mapWaitErr e)).
Qed.

Lemma reserveRx_drains_witness :
  exists m1 r, reserveRx (sample_link sample_handle) [(Some ErrPeerGone, sample_ring)] sample_ring = Some (m1, r) /\
    r = Err ErrPeerGone /\ m1 = sample_ring.
Proof.
  destruct (reserveRx_drains 1 4 (sample_link sample_handle) ErrPeerGone sample_ring sample_ring [] []
    sample_ring_holds sample_ring_holds) as (m1 & r & E & H).
  exists m1, r. split; [exact E|]. destruct r as [s|e].
  - destruct H as (_ & x & q' & Eq & _). discriminate.
  - destruct H as (-> & -> & _). split; reflexivity.
Defined.
