(* ===== verification/Reservation.v ===== *)
(** * Reservation: slots held across calls

    Models reservation.go: [ReserveWrite] with [Commit] and [Abort],
    [ReserveRead] with [Release]. A reservation is a value the caller may
    copy; the [done] flag belongs to the copy, so what protects the ring from
    a second completion is the sequence number of the slot. *)
From S2P Require Import Prelude Errors Protocol Layout Ring RingInv RingSeq Send Superblock Remainder Standard.

(** ** Write reservations *)

Record StandardWriteReservation := mkWrite { wr_slot : ClaimedSlot; wr_copyID : Z; wr_done : bool }.

(** The condition every method starts with. *)
Definition wr_stale (l : StandardLink) (r : StandardWriteReservation) (m : ring_mem) : bool :=
  wr_done r || negb (producer_Owned (txRing l) (wr_slot r) m).

(** [Buffer()]: [None] is nil. *)
Definition wr_Buffer (l : StandardLink) (r : StandardWriteReservation) (m : ring_mem) : option bytes :=
  if wr_stale l r m then None else Some (cell_of (txRing l) (wr_slot r) m).2.

(** The caller fills the buffer between the calls. *)
Definition wr_fill (l : StandardLink) (r : StandardWriteReservation) (content : bytes) (m : ring_mem) : ring_mem :=
  let (p, buf) := cell_of (txRing l) (wr_slot r) m in
  store_data (Slot (txRing l) (wr_slot r)) (p, copy_to buf content) m.

Definition ReserveWrite (now : Z) (s : standardSuperblock) (waits : wait_list) (l : StandardLink) (m : ring_mem)
  : option (StandardLink * ring_mem * result error StandardWriteReservation) :=
  let (l, e) := enterTx true now s l in
  match e with
  | Some e => Some (l, m, Err e)
  | None =>
      '(m1, r) ← ReserveProducerCancel (txRing l) waits m;
      Some (exitTx l, m1, match r with
                          | Err e => Err (mapWaitErr e)
                          | Ok slot => Ok (mkWrite slot (copyID l slot) false)
                          end)
  end.

(** Storing [p'] in the slot and completing it: the tail of [Commit] and of
    [publishTombstone]. *)
Definition wr_complete (p' : Packet -> Packet) (now : Z) (s : standardSuperblock) (l : StandardLink)
    (r : StandardWriteReservation) (m : ring_mem)
  : StandardWriteReservation * StandardLink * ring_mem * list wake_event * option error :=
  let (l, e) := enterTx false now s l in
  match e with
  | Some e => (r, l, m, [], Some e)
  | None =>
      let (p, buf) := cell_of (txRing l) (wr_slot r) m in
      let m1 := store_data (Slot (txRing l) (wr_slot r)) (p' p, buf) m in
      let '(slot, m2, ev, ok) := Commit (txRing l) (wr_slot r) m1 in
      (mkWrite slot (wr_copyID r) true, exitTx l, m2, ev, if ok then None else Some ErrInvalidOp)
  end.

Definition publishTombstone (reason : Z) (now : Z) (s : standardSuperblock) (l : StandardLink)
    (r : StandardWriteReservation) (m : ring_mem) :=
  wr_complete (fun _ => NewStandardLinkTombstonePacket (wr_copyID r) (Slot (txRing l) (wr_slot r)) reason) now s l r m.

(** [Commit(n)]; [len(r.buffer)] is the buffer size. *)
Definition wr_Commit (n : Z) (now : Z) (s : standardSuperblock) (l : StandardLink)
    (r : StandardWriteReservation) (m : ring_mem)
  : StandardWriteReservation * StandardLink * ring_mem * list wake_event * option error :=
  if wr_stale l r m then (r, l, m, [], Some ErrInvalidOp)
  else
    let refuse code err :=
      let '(r', l', m', ev, e) := publishTombstone code now s l r m in
      (r', l', m', ev, Some (default err e)) in
    if n <=? 0 then refuse ErrCodeInvalidSize ErrInvalidSize
    else if Z.of_nat (length (cell_of (txRing l) (wr_slot r) m).2) <? n then refuse ErrCodeBufferOverflow ErrBufferOverflow
    else wr_complete (fun p => storeCopyPacket p (wr_copyID r) (Slot (txRing l) (wr_slot r)) n) now s l r m.

Definition wr_Abort (reason : Z) (now : Z) (s : standardSuperblock) (l : StandardLink)
    (r : StandardWriteReservation) (m : ring_mem)
  : StandardWriteReservation * StandardLink * ring_mem * list wake_event * option error :=
  if wr_stale l r m then (r, l, m, [], Some ErrInvalidOp)
  else publishTombstone (if reason =? 0 then ErrCodeInvalidOp else reason) now s l r m.

(** ** Read reservations *)

(** [rr_local]: the tail a local reservation serves; its backing buffer is
    [t_buf]. *)
Record StandardReadReservation := mkRead {
  rr_slot : ClaimedSlot; rr_size : Z; rr_local : option tail; rr_done : bool
}.

Definition ReserveRead (envs : list wait_env) (l : StandardLink) (m : ring_mem)
  : option (StandardLink * ring_mem * list wake_event * result error StandardReadReservation) :=
  let (l, e) := enterRx l in
  match e with
  | Some e => Some (l, m, [], Err e)
  | None =>
      let (r, o) := if r_pending (recv l) then take_tail (recv l) else (recv l, None) in
      let l := with_recv r (l_heap l) l in
      match o with
      | Some t => Some (exitRx l, m, [], Ok (mkRead (mkSlot 0 false false) 0 (Some t) false))
      | None =>
          '(m1, ev, x) ← next_message l envs m;
          Some (exitRx l, m1, ev, match x with
                                  | Err e => Err e
                                  | Ok (s, size) => Ok (mkRead s size None false)
                                  end)
      end
  end.

Definition rr_Buffer (l : StandardLink) (r : StandardReadReservation) (m : ring_mem) : option bytes :=
  if rr_done r then None
  else
    match rr_local r with
    | Some t => Some (view (l_heap l) t)
    | None => if consumer_Owned (rxRing l) (rr_slot r) m
              then Some (take (Z.to_nat (rr_size r)) (cell_of (rxRing l) (rr_slot r) m).2) else None
    end.

Definition rr_Release (l : StandardLink) (r : StandardReadReservation) (m : ring_mem)
  : StandardReadReservation * StandardLink * ring_mem * list wake_event * option error :=
  if rr_done r then (r, l, m, [], Some ErrInvalidOp)
  else
    match rr_local r with
    | Some t =>
        (mkRead (rr_slot r) (rr_size r) (rr_local r) true, with_recv (giveBack (t_buf t) (recv l)) (l_heap l) l, m, [], None)
    | None =>
        if negb (consumer_Owned (rxRing l) (rr_slot r) m) then (r, l, m, [], Some ErrInvalidOp)
        else
          let (l, e) := enterRx l in
          match e with
          | Some e => (r, l, m, [], Some e)
          | None =>
              let '(slot, m2, ev, ok) := Release (rxRing l) (rr_slot r) m in
              (mkRead slot (rr_size r) None true, exitRx l, m2, ev, if ok then None else Some ErrInvalidOp)
          end
    end.

(** ** Lemmas *)

Lemma store_data_twice {T} i v w (m : mring T) : store_data i w (store_data i v m) = store_data i w m.
Proof.
  unfold store_data, with_slots. simpl. f_equal. apply list_eq. intros j.
  destruct (decide (Z.to_nat i = j)) as [->|Hne].
  - rewrite !list_lookup_alter_eq. by destruct (slots m !! j).
  - by rewrite !list_lookup_alter_ne.
Qed.

(** Completing a slot that is still owned is publishing it. *)
Lemma Commit_owned {T} h slot (m : mring T) :
  producer_Owned h slot m = true ->
  Commit h slot m = (mkSlot (cs_pos slot) (cs_elem slot) true, (CommitOwned h slot m).1, (CommitOwned h slot m).2, true).
Proof.
  unfold producer_Owned, Commit, publishSlot, CommitOwned, publish. intros [Hv Hs]%andb_true_iff. rewrite Hv, Hs. simpl.
  by destruct (notifyConsumers _ _).
Qed.

Lemma Release_owned {T} h slot (m : mring T) :
  consumer_Owned h slot m = true ->
  Release h slot m = (mkSlot (cs_pos slot) (cs_elem slot) true, (ReleaseOwned h slot m).1, (ReleaseOwned h slot m).2, true).
Proof.
  unfold consumer_Owned, Release, releaseSlot, ReleaseOwned, release. intros [Hv Hs]%andb_true_iff. rewrite Hv, Hs. simpl.
  by destruct (notifyProducers _ _).
Qed.

(** A published slot is not owned by its producer any more. *)
Lemma published_not_owned {T} h slot (m : mring T) :
  0 <= Slot h slot < Z.of_nat (length (slots m)) -> word 64 (cs_pos slot) ->
  producer_Owned h slot (CommitOwned h slot m).1 = false.
Proof.
  intros Hs Hw. unfold producer_Owned, CommitOwned, publish. apply andb_false_intro2. apply Z.eqb_neq.
  assert (E : forall m' : mring T, load_seq (notifyConsumers h m').1 (slot_of h (cs_pos slot)) = load_seq m' (slot_of h (cs_pos slot))).
  { intros m'. unfold notifyConsumers, wakeOne, wakeWord. repeat bcase; done. }
  rewrite E, load_seq_store_seq by (unfold Slot in Hs; lia). rewrite Z.eqb_refl.
  unfold u64, wrap, word in *. intros Hx. zlia.
Qed.

(** ** Properties *)

Section Writes.
Context (k bs : Z) (Hbs : 0 < bs < 2 ^ 63).

(** The claimed slot after [ReserveWrite] and the caller's writes. *)
Lemma reserved_slot h l now sb waits m q content :
  writer_ok bs h l -> link_holds k h bs m q -> Z.of_nat (length q) < 2 ^ k ->
  let slot := mkSlot (m_w m) true false in
  let m1 := set_cursor NotFull (u64 (m_w m + 1)) m in
  let r := mkWrite slot (copyID l slot) false in
  let c := cell_of h slot m1 in
  ReserveWrite now sb waits l m = Some (l, m1, Ok r) /\
  wr_fill l r content m1 = store_data (Slot h slot) (c.1, copy_to c.2 content) m1 /\
  producer_Owned h slot (wr_fill l r content m1) = true /\
  cell_of h slot (wr_fill l r content m1) = (c.1, copy_to c.2 content) /\
  Z.of_nat (length c.2) = bs /\ word 64 (m_w m) /\ 0 <= Slot h slot < Z.of_nat (length (slots m)).
Proof.
  intros Hw Hm Hr slot m1 r c. pose proof Hw as (E1 & E2 & E3 & Hh & Hb).
  destruct (link_produce k bs h waits m q Hm Hr) as (E & Hpos & Hsl & Hcell & Hseq & _).
  assert (Hin : 0 <= Slot h slot < Z.of_nat (length (slots m))).
  { destruct Hm as (cells & (g & H & _) & _). rewrite (rep_len _ _ _ _ H).
    pose proof (pow_bounds k (rep_k _ _ _ _ H)). fold slot in Hsl. lia. }
  split; [unfold ReserveWrite; rewrite (enterTx_open bs h) by done; change (txRing (with_active _ _ l)) with (txRing l);
          rewrite Hh, E; simpl; rewrite exitTx_enter; done|].
  assert (Ef : wr_fill l r content m1 = store_data (Slot h slot) (c.1, copy_to c.2 content) m1).
  { unfold wr_fill. cbn [wr_slot r]. rewrite Hh. fold c. by destruct c. }
  rewrite Ef. split; [done|]. split.
  { unfold producer_Owned. simpl. rewrite load_seq_store_data. apply Z.eqb_eq. exact Hseq. }
  split; [|split; [apply Hcell|done]].
  unfold cell_of. rewrite load_data_store_data by (unfold m1; destruct m; simpl in *; lia). by rewrite Z.eqb_refl.
Qed.

Lemma enterTx_unchecked l now sb :
  closed l = false -> enterTx false now sb l = (with_active (rxActive l) (txActive l + 1) l, None).
Proof. intros E. unfold enterTx, admitTx. simpl. by rewrite E. Qed.

(** Completing a reserved and filled slot writes the packet, publishes the slot
    and makes every copy of the reservation stale. *)
Lemma wr_complete_spec h l now sb r mf p' c :
  writer_ok bs h l -> wr_slot r = mkSlot (cs_pos (wr_slot r)) true false ->
  producer_Owned h (wr_slot r) mf = true -> cell_of h (wr_slot r) mf = c ->
  0 <= Slot h (wr_slot r) < Z.of_nat (length (slots mf)) -> word 64 (cs_pos (wr_slot r)) ->
  exists r' m' ev, wr_complete p' now sb l r mf = (r', l, m', ev, None) /\
    (m', ev) = CommitOwned h (wr_slot r) (store_data (Slot h (wr_slot r)) (p' c.1, c.2) mf) /\
    wr_done r' = true /\ producer_Owned h (wr_slot r) m' = false.
Proof.
  intros (E1 & E2 & E3 & Hh & Hb) Es Ho Hc Hin Hw. unfold wr_complete. rewrite enterTx_unchecked by done.
  change (txRing (with_active _ _ l)) with (txRing l). rewrite Hh, Hc.
  destruct c as [p buf]. cbn [fst snd].
  set (m1 := store_data (Slot h (wr_slot r)) (p' p, buf) mf).
  assert (Ho' : producer_Owned h (wr_slot r) m1 = true).
  { unfold producer_Owned, m1 in *. by rewrite load_seq_store_data. }
  rewrite (Commit_owned h _ m1 Ho'). eexists _, _, _. split; [rewrite exitTx_enter; reflexivity|].
  split; [by destruct (CommitOwned h (wr_slot r) m1)|]. split; [done|].
  apply published_not_owned; [|done]. unfold m1, store_data. simpl. by rewrite length_alter.
Qed.

(** The packet and the result for a callback that returned [n]. *)
Definition commit_outcome (n : Z) (id idx : Z) (p : Packet) : Packet * option error :=
  if n <=? 0 then (NewStandardLinkTombstonePacket id idx ErrCodeInvalidSize, Some ErrInvalidSize)
  else if bs <? n then (NewStandardLinkTombstonePacket id idx ErrCodeBufferOverflow, Some ErrBufferOverflow)
  else (storeCopyPacket p id idx n, None).

(** What [WriteZeroCopy] does with it. *)
Lemma zero_copy_outcome h l now sb waits m q content n m' ev :
  writer_ok bs h l -> link_holds k h bs m q -> Z.of_nat (length q) < 2 ^ k ->
  let slot := mkSlot (m_w m) true false in
  let m1 := set_cursor NotFull (u64 (m_w m + 1)) m in
  let c := cell_of h slot m1 in
  let x := commit_outcome n (copyID l slot) (Slot h slot) c.1 in
  (m', ev) = CommitOwned h slot (store_data (Slot h slot) (x.1, copy_to c.2 content) m1) ->
  WriteZeroCopy (Some (fun _ => (content, WcbRet n))) now sb waits l m =
    Some (l, m', ev, Ret (match x.2 with None => Ok n | Some err => Err err end)).
Proof.
  intros Hw Hm Hr slot m1 c x Ec. pose proof Hw as (_ & _ & _ & Hh & _).
  destruct (link_produce k bs h waits m q Hm Hr) as (Eclaim & _ & _ & [_ Hl] & _). fold slot m1 in Eclaim, Hl.
  unfold WriteZeroCopy. rewrite (enterTx_open bs h) by done.
  change (txRing (with_active _ _ l)) with (txRing l). rewrite Hh, Eclaim. simpl.
  unfold fillSlot. change (txRing (with_active _ _ l)) with (txRing l). rewrite Hh. fold c.
  change (copyID (with_active _ _ l) slot) with (copyID l slot). fold c in Hl.
  unfold x, commit_outcome in Ec |- *. destruct c as [p buf]. cbn [fst snd] in Hl, Ec |- *. rewrite Hl.
  destruct (n <=? 0); [|destruct (bs <? n)]; cbn [fst snd] in Ec |- *; rewrite <- Ec; by rewrite exitTx_enter.
Qed.

(** A slot that is not owned any more makes every method of every copy fail. *)
Lemma stale_inert h l now sb copy m :
  txRing l = h -> producer_Owned h (wr_slot copy) m = false ->
  wr_Buffer l copy m = None /\
  (forall n, wr_Commit n now sb l copy m = (copy, l, m, [], Some ErrInvalidOp)) /\
  (forall reason, wr_Abort reason now sb l copy m = (copy, l, m, [], Some ErrInvalidOp)).
Proof.
  intros Hh Hn. assert (Est : wr_stale l copy m = true).
  { unfold wr_stale. rewrite Hh, Hn. apply orb_true_r. }
  unfold wr_Buffer, wr_Commit, wr_Abort. by rewrite Est.
Qed.

(** A reservation is a zero-copy write in two steps. On a ring with room,
    [ReserveWrite], filling the buffer and [Commit(n)] leave the same ring
    memory and issue the same wake-ups as [WriteZeroCopy] with a callback that
    writes the same bytes and returns [n], and report the same result, valid
    or not. Afterwards every copy of the reservation is dead: it shows no
    buffer, and [Commit] and [Abort] through it fail with [ErrInvalidOp] and
    change nothing. *)
Theorem reserve_commit_is_zero_copy (h : MPMCRing) (l : StandardLink) (now : Z) (sb : standardSuperblock)
  (waits : wait_list) (m : ring_mem) (q : list (option bytes)) (content : bytes) (n : Z)
  (Hw : writer_ok bs h l) (Hm : link_holds k h bs m q) (Hr : Z.of_nat (length q) < 2 ^ k) :
  exists r m1 r' m' ev e,
    ReserveWrite now sb waits l m = Some (l, m1, Ok r) /\
    wr_Commit n now sb l r (wr_fill l r content m1) = (r', l, m', ev, e) /\
    WriteZeroCopy (Some (fun _ => (content, WcbRet n))) now sb waits l m =
      Some (l, m', ev, Ret (match e with None => Ok n | Some err => Err err end)) /\
    forall copy, wr_slot copy = wr_slot r -> wr_Buffer l copy m' = None /\
      (forall n', wr_Commit n' now sb l copy m' = (copy, l, m', [], Some ErrInvalidOp)) /\
      (forall reason, wr_Abort reason now sb l copy m' = (copy, l, m', [], Some ErrInvalidOp)).
Proof.
  destruct (reserved_slot h l now sb waits m q content Hw Hm Hr) as (Eres & Ef & Ho & Hc & Hl & Hpos & Hin).
  set (slot := mkSlot (m_w m) true false) in *. set (m1 := set_cursor NotFull (u64 (m_w m + 1)) m) in *.
  set (r := mkWrite slot (copyID l slot) false) in *. set (c := cell_of h slot m1) in *.
  set (mf := wr_fill l r content m1) in *.
  pose proof Hw as (E1 & E2 & E3 & Hh & Hb).
  assert (Hin' : 0 <= Slot h slot < Z.of_nat (length (slots mf)))
    by (rewrite Ef; unfold store_data, m1; simpl; rewrite length_alter; by destruct m).
  (* the completion of the reservation *)
  assert (Hdone : forall p', exists r' m' ev, wr_complete p' now sb l r mf = (r', l, m', ev, None) /\
    (m', ev) = CommitOwned h slot (store_data (Slot h slot) (p' c.1, copy_to c.2 content) mf) /\
    producer_Owned h slot m' = false).
  { intros p'. destruct (wr_complete_spec h l now sb r mf p' _ Hw eq_refl Ho Hc Hin' Hpos) as (r' & m' & ev & H1 & H2 & _ & H3).
    by exists r', m', ev. }
  assert (Enot : wr_stale l r mf = false) by (unfold wr_stale; simpl; rewrite Hh, Ho; done).
  set (x := commit_outcome n (copyID l slot) (Slot h slot) c.1).
  assert (Hcommit : exists r' m' ev, wr_Commit n now sb l r mf = (r', l, m', ev, x.2) /\
    (m', ev) = CommitOwned h slot (store_data (Slot h slot) (x.1, copy_to c.2 content) mf) /\
    producer_Owned h slot m' = false).
  { unfold wr_Commit. rewrite Enot. cbn [wr_slot r]. rewrite Hh, Hc. cbn [snd]. rewrite length_copy_to, Hl.
    unfold publishTombstone. cbn [wr_slot wr_copyID r]. rewrite Hh. fold r. unfold x, commit_outcome.
    destruct (n <=? 0); [|destruct (bs <? n)]; cbn [fst snd].
    - destruct (Hdone (fun _ => NewStandardLinkTombstonePacket (copyID l slot) (Slot h slot) ErrCodeInvalidSize))
        as (r' & m' & ev & E & Ec & Hno). rewrite E. by exists r', m', ev.
    - destruct (Hdone (fun _ => NewStandardLinkTombstonePacket (copyID l slot) (Slot h slot) ErrCodeBufferOverflow))
        as (r' & m' & ev & E & Ec & Hno). rewrite E. by exists r', m', ev.
    - apply Hdone. }
  destruct Hcommit as (r' & m' & ev & E & Ec & Hno). exists r, m1, r', m', ev, x.2.
  split_and!; [done..| |].
  - eapply zero_copy_outcome; [done..|]. rewrite Ef, store_data_twice in Ec. exact Ec.
  - intros copy Ecp. apply (stale_inert h); [done|]. by rewrite Ecp.
Qed.

End Writes.

Lemma reserve_commit_is_zero_copy_witness :
  let l := sample_link sample_handle in
  exists r m1 r' m' ev e,
    ReserveWrite 0 blank [] l sample_ring = Some (l, m1, Ok r) /\
    wr_Commit 2 0 blank l r (wr_fill l r [7; 8] m1) = (r', l, m', ev, e) /\
    WriteZeroCopy (Some (fun _ => ([7; 8], WcbRet 2))) 0 blank [] l sample_ring =
      Some (l, m', ev, Ret (match e with None => Ok 2 | Some err => Err err end)) /\
    wr_Commit 2 0 blank l r m' = (r, l, m', [], Some ErrInvalidOp).
Proof.
  intros l.
  destruct (reserve_commit_is_zero_copy 1 4 sample_handle l 0 blank [] sample_ring [] [7; 8] 2)
    as (r & m1 & r' & m' & ev & e & E1 & E2 & E3 & H).
  - repeat split.
  - apply sample_ring_holds.
  - simpl. lia.
  - exists r, m1, r', m', ev, e. split; [exact E1|]. split; [exact E2|]. split; [exact E3|].
    destruct (H r eq_refl) as (_ & Hc & _). apply Hc.
Defined.

(** A read reservation is a zero-copy read in two steps. When a tail or a
    message is there, [ReserveRead] shows exactly the bytes [ReadZeroCopy]
    would pass to its callback, and [Release] leaves the endpoint and the ring
    as [ReadZeroCopy] does, with the same wake-ups; a second [Release] of the
    same reservation fails with [ErrInvalidOp] and changes nothing. *)
Theorem reserve_read_is_zero_copy (k bs : Z) (h : MPMCRing) (l : StandardLink) (m : ring_mem) (s : spec_state)
  (fn : bytes -> read_cb) (e : error) (n : nat)
  (Hl : reader_ok bs h (sp_tails s) l) (Hm : link_holds k h bs m (sp_queue s))
  (Hn : (tombstones (sp_queue s) < n)%nat)
  (Hsome : sp_tails s <> [] \/ skip_tombstones (sp_queue s) <> []) :
  exists l1 m1 ev1 r payload r' l2 m2 ev2,
    ReserveRead (replicate n (blocked e)) l m = Some (l1, m1, ev1, Ok r) /\
    rr_Buffer l1 r m1 = Some payload /\
    rr_Release l1 r m1 = (r', l2, m2, ev2, None) /\
    ReadZeroCopy (Some fn) (replicate n (blocked e)) l m = Some (l2, m2, ev1 ++ ev2, cb_result fn payload) /\
    rr_Release l2 r' m2 = (r', l2, m2, [], Some ErrInvalidOp).
Proof.
  destruct Hl as (Hc & Hh & Hb & Hinv & Ht). unfold ReserveRead, ReadZeroCopy. rewrite enterRx_open by done.
  cbn [recv l_heap with_active]. set (l0 := with_active _ _ l).
  pose proof (take_tail_spec [] _ _ Hinv) as Hr. pose proof (pending_live _ _ _ Hinv) as Hp. rewrite Ht in Hr.
  destruct (r_pending (recv l)).
  - destruct Hp as (t & tl & b & El & _). unfold tails in Ht. rewrite El in Ht. rewrite <- Ht in Hr.
    destruct (take_tail (recv l)) as [r o]. destruct Hr as (t' & b' & -> & Eb & Ev & _).
    unfold l0. rewrite !exitRx_enter. cbn [l_heap with_active].
    eexists _, _, _, _, _, _, _, _, _. split_and!; try reflexivity.
  - assert (Ets : sp_tails s = []) by (unfold tails in Ht; by rewrite Hp in Ht).
    destruct (next_message_spec k bs l e (sp_queue s) n m) as (m1 & ev & x & Ex & Hx); [by rewrite Hh|done|done|].
    rewrite (next_message_ext l) by done. rewrite Ex. cbn [mbind option_bind].
    destruct (skip_tombstones (sp_queue s)) as [|[msg|] q] eqn:Es; [by destruct Hsome| |by apply skip_no_tombstone in Es].
    destruct Hx as (sl & -> & Hne & Htk & Hrel & Hown). unfold l0. rewrite !exitRx_enter.
    assert (Eid : with_recv (recv l) (l_heap l) l = l) by (by destruct l). rewrite Eid.
    eexists _, _, _, _, _, _, _, _, _. split; [reflexivity|]. unfold rr_Buffer, rr_Release. cbn [rr_done rr_local rr_slot rr_size].
    rewrite Hown. split; [reflexivity|]. cbn [negb]. rewrite enterRx_open by done.
    change (rxRing (with_active _ _ l)) with (rxRing l). rewrite (Release_owned _ _ _ Hown).
    split; [reflexivity|]. split; [|reflexivity]. unfold deliverZeroCopy.
    change (rxRing (with_recv _ _ _)) with (rxRing l).
    assert (Eex : exitRx (with_active (rxActive l + 1) (txActive l) l) = l).
    { destruct l. unfold exitRx, with_active. simpl. f_equal; lia. }
    rewrite Eex, Nat2Z.id, Htk. destruct (ReleaseOwned (rxRing l) sl m1). unfold cb_result. done.
Qed.

Lemma reserve_read_is_zero_copy_witness :
  exists l1 m1 ev1 r,
    ReserveRead (replicate 1 (blocked ErrClosed))
      (sample_link sample_handle) (match Write [5; 6] 0 blank [] (sample_link sample_handle) sample_ring with
                                    Some (_, m, _, _) => m | None => sample_ring end) = Some (l1, m1, ev1, Ok r) /\
    rr_Buffer l1 r m1 = Some [5; 6].
Proof.
  set (l := sample_link sample_handle).
  destruct (Write_spec 1 4 ltac:(lia) sample_handle l sample_ring (mkSpec [] []) [5; 6] 0 blank ErrClosed)
    as (m' & ev & r & E & _ & Hm & _); [repeat split|apply sample_ring_holds|].
  change (Write [5; 6] 0 blank [] l sample_ring) with (Write [5; 6] 0 blank [(Some ErrClosed, sample_ring)] l sample_ring).
  rewrite E.
  destruct (reserve_read_is_zero_copy 1 4 sample_handle l m' (mkSpec [Some [5; 6]] []) (fun _ => CbNil) ErrClosed 1)
    as (l1 & m1 & ev1 & rr & payload & r' & l2 & m2 & ev2 & E1 & E2 & _).
  - split_and!; try reflexivity. apply (new_remainder_ok 4).
  - exact Hm.
  - unfold tombstones. simpl. lia.
  - right. discriminate.
  - exists l1, m1, ev1, rr. split; [exact E1|]. rewrite E2.
    vm_compute in E. injection E as <- _ _. vm_compute in E1. injection E1 as <- <- <- <-.
    vm_compute in E2. injection E2 as <-. reflexivity.
Defined.

(** A local reservation (one that serves a queued tail) and a copy of it:
    release both, then read two more messages in part while a second local
    reservation is active. Returned: the results of the two releases, the
    buffer of the second reservation when it was made and the same buffer
    after the last read. *)
Definition double_release : option (option error * option error * option bytes * option bytes) :=
  let env := [blocked ErrClosed] in
  let l := sample_link sample_handle in
  '(l, m, _, _) ← Write [5; 6] 0 blank [] l sample_ring;
  '(l, m, _, _) ← Read S 1 env l m;
  '(l, m, _, r) ← ReserveRead env l m;
  match r with
  | Err _ => None
  | Ok r =>
      let '(_, l, m, _, e1) := rr_Release l r m in
      let '(_, l, m, _, e2) := rr_Release l r m in
      '(l, m, _, _) ← Write [1; 2; 3] 0 blank [] l m;
      '(l, m, _, _) ← Read S 1 env l m;
      '(l, m, _, r2) ← ReserveRead env l m;
      match r2 with
      | Err _ => None
      | Ok r2 =>
          let before := rr_Buffer l r2 m in
          '(l, m, _, _) ← Write [7; 8; 9] 0 blank [] l m;
          '(l, m, _, _) ← Read S 1 env l m;
          Some (e1, e2, before, rr_Buffer l r2 m)
      end
  end.

(** A local read reservation can be released twice through a copy: the second
    [Release] succeeds although it is documented to fail with [ErrInvalidOp],
    puts the backing buffer into the free list a second time, and the bytes
    of a later reservation change under its holder from its own message to
    another one's. *)
Example local_release_through_copy_corrupts :
  double_release = Some (None, None, Some [2; 3], Some [8; 9]).
Proof. vm_compute. reflexivity. Qed.
