(* ===== verification/Lifecycle.v ===== *)
(** * Lifecycle: closing an endpoint while calls run

    Models how [Close] of standard.go and the admission of calls ([enterRx],
    [exitRx], [enterTx], [exitTx]) interleave, one atomic access at a time.
    Every call increments its counter before it looks at the closed flag;
    [Close] sets the flag before it looks at the counters. *)
From S2P Require Import Prelude.

(** Receive-side and send-side calls have a counter each. *)
Inductive call_kind := RxCall | TxCall.

#[export] Instance call_kind_eq_dec : EqDecision call_kind.
Proof. solve_decision. Defined.

(** Where a call is: not started, counted and about to load [closed],
    admitted (it may touch shared memory), refused and about to undo the
    count, returned. *)
Inductive call_pc := CallStart | CallCounted | CallInside | CallRefused | CallReturned.

#[export] Instance call_pc_eq_dec : EqDecision call_pc.
Proof. solve_decision. Defined.

(** Where [Close] is: not called, the flag stored (at the top of the wait
    loop), [rxActive] seen zero, both seen zero in one evaluation of the loop
    condition (about to detach), detached. *)
Inductive close_pc := CloseStart | CloseWaiting | CloseRxIdle | CloseDrained | CloseDetached.

Record endpoint := mkEndpoint {
  ep_closed : bool;
  ep_rx : Z;
  ep_tx : Z;
  ep_attached : bool;                  (* the token is still in the superblock *)
  ep_calls : list (call_kind * call_pc);
  ep_close : close_pc
}.

Definition count_add (c : call_kind) (d : Z) (s : endpoint) : endpoint :=
  match c with
  | RxCall => mkEndpoint (ep_closed s) (ep_rx s + d) (ep_tx s) (ep_attached s) (ep_calls s) (ep_close s)
  | TxCall => mkEndpoint (ep_closed s) (ep_rx s) (ep_tx s + d) (ep_attached s) (ep_calls s) (ep_close s)
  end.

Definition set_call (i : nat) (c : call_kind) (pc : call_pc) (s : endpoint) : endpoint :=
  mkEndpoint (ep_closed s) (ep_rx s) (ep_tx s) (ep_attached s) (<[i := (c, pc)]> (ep_calls s)) (ep_close s).

Definition set_close (pc : close_pc) (s : endpoint) : endpoint :=
  mkEndpoint (ep_closed s) (ep_rx s) (ep_tx s) (ep_attached s) (ep_calls s) pc.

(** One access of call [i]. *)
Definition call_access (i : nat) (s : endpoint) : option endpoint :=
  match ep_calls s !! i with
  | Some (c, CallStart) => Some (set_call i c CallCounted (count_add c 1 s))
  | Some (c, CallCounted) => Some (set_call i c (if ep_closed s then CallRefused else CallInside) s)
  | Some (c, CallInside) => Some (set_call i c CallReturned (count_add c (-1) s))
  | Some (c, CallRefused) => Some (set_call i c CallReturned (count_add c (-1) s))
  | _ => None
  end.

(** One access of [Close]. *)
Definition close_access (s : endpoint) : option endpoint :=
  match ep_close s with
  | CloseStart => Some (mkEndpoint true (ep_rx s) (ep_tx s) (ep_attached s) (ep_calls s) CloseWaiting)
  | CloseWaiting => Some (if ep_rx s =? 0 then set_close CloseRxIdle s else s)
  | CloseRxIdle => Some (set_close (if ep_tx s =? 0 then CloseDrained else CloseWaiting) s)
  | CloseDrained => Some (mkEndpoint (ep_closed s) (ep_rx s) (ep_tx s) false (ep_calls s) CloseDetached)
  | CloseDetached => None
  end.

(** Calls may start at any time, also after [Close]. *)
Inductive life_step : endpoint -> endpoint -> Prop :=
| life_new s c : life_step s (mkEndpoint (ep_closed s) (ep_rx s) (ep_tx s) (ep_attached s) (ep_calls s ++ [(c, CallStart)]) (ep_close s))
| life_call s i s' : call_access i s = Some s' -> life_step s s'
| life_close s s' : close_access s = Some s' -> life_step s s'.

Definition life_init : endpoint := mkEndpoint false 0 0 true [] CloseStart.

(** ** Invariant *)

(** A call its counter counts. *)
Definition counted (c : call_kind) (x : call_kind * call_pc) : bool :=
  bool_decide (x.1 = c) && match x.2 with CallStart | CallReturned => false | _ => true end.

Definition count_calls (c : call_kind) (l : list (call_kind * call_pc)) : Z :=
  countb (counted c) l.

Definition no_inside (c : call_kind) (l : list (call_kind * call_pc)) : Prop :=
  Forall (fun x => x <> (c, CallInside)) l.

Record life_inv (s : endpoint) : Prop := {
  li_rx : ep_rx s = count_calls RxCall (ep_calls s);
  li_tx : ep_tx s = count_calls TxCall (ep_calls s);
  li_closed : ep_close s <> CloseStart -> ep_closed s = true;
  li_rx_idle : ep_close s = CloseRxIdle \/ ep_close s = CloseDrained \/ ep_close s = CloseDetached ->
    no_inside RxCall (ep_calls s);
  li_tx_idle : ep_close s = CloseDrained \/ ep_close s = CloseDetached -> no_inside TxCall (ep_calls s);
  li_attached : ep_attached s = negb (match ep_close s with CloseDetached => true | _ => false end)
}.

Lemma count_calls_insert c l i x y :
  l !! i = Some x ->
  count_calls c (<[i := y]> l) = count_calls c l - (if counted c x then 1 else 0) + (if counted c y then 1 else 0).
Proof. apply countb_insert. Qed.

Lemma count_calls_app c l x : count_calls c (l ++ [x]) = count_calls c l + (if counted c x then 1 else 0).
Proof. unfold count_calls. rewrite countb_app, countb_cons, countb_nil. lia. Qed.

(** A counter at zero means no call of its kind is inside. *)
Lemma count_zero_inside c l : count_calls c l = 0 -> no_inside c l.
Proof.
  intros H. apply list.Forall_forall. intros x Hx ->. apply (countb_zero _ _ _ H) in Hx.
  unfold counted in Hx. simpl in Hx. by rewrite bool_decide_eq_true_2 in Hx.
Qed.

Lemma no_inside_insert c l i c' pc : no_inside c l -> pc <> CallInside -> no_inside c (<[i := (c', pc)]> l).
Proof. intros H Hne. apply Forall_insert; [done|]. congruence. Qed.

Lemma counted_kind c c' pc : counted c (c', pc) = bool_decide (c' = c) && counted c' (c', pc).
Proof. unfold counted. simpl. rewrite (bool_decide_eq_true_2 (c' = c')) by done. done. Qed.

Lemma life_inv_step s s' : life_inv s -> life_step s s' -> life_inv s'.
Proof.
  intros H Hst. revert H. destruct Hst as [s0 c|s0 i s1 E|s0 s1 E]; intros [Hrx Htx Hc Hri Hti Ha].
  - constructor; simpl; rewrite ?count_calls_app; try (destruct c; simpl; lia || done); try done.
    + intros Hx. apply Forall_app. split; [by apply Hri|]. constructor; [congruence|constructor].
    + intros Hx. apply Forall_app. split; [by apply Hti|]. constructor; [congruence|constructor].
  - unfold call_access in E. destruct (ep_calls s0 !! i) as [[c pc]|] eqn:Ei; [|done].
    assert (Hins : forall c' pc', ep_close s0 <> CloseStart -> no_inside c' (ep_calls s0) ->
      (pc' = CallInside -> ep_closed s0 = false) -> no_inside c' (<[i := (c, pc')]> (ep_calls s0))).
    { intros c' pc' Hs Hn Hp. apply no_inside_insert; [done|]. intros ->.
      rewrite (Hc Hs) in Hp. by specialize (Hp eq_refl). }
    destruct pc; simplify_eq; destruct c; constructor; simpl;
      rewrite ?(count_calls_insert _ _ _ _ _ Ei); unfold counted; simpl; try done; try lia;
      try (destruct (ep_closed s0); simpl; lia);
      intros Hx; apply Hins; auto; try (destruct Hx as [Hx|[Hx|Hx]] || destruct Hx as [Hx|Hx]; rewrite Hx; done);
      try done; destruct (ep_closed s0); done.
  - unfold close_access in E. destruct (ep_close s0) eqn:Ec; simplify_eq.
    + constructor; simpl; try done; intros [?|[?|?]] || intros [?|?]; done.
    + destruct (Z.eqb_spec (ep_rx s0) 0) as [E0|E0]; constructor; simpl; rewrite ?Ec; try done; auto;
        try (intros [?|?]; done).
      intros _. apply count_zero_inside. lia.
    + destruct (Z.eqb_spec (ep_tx s0) 0) as [E0|E0]; constructor; simpl; try done; auto;
        try (intros [?|[?|?]]; done); try (intros [?|?]; done).
      intros _. apply count_zero_inside. lia.
    + constructor; simpl; try done; auto.
Qed.

Lemma life_reachable s : rtc life_step life_init s -> life_inv s.
Proof.
  intros H. remember life_init as s0 eqn:E. assert (Hi : life_inv s0).
  { subst. constructor; simpl; try done; try (intros; constructor). }
  clear E. induction H as [|x y z Hxy _ IH]; [done|]. apply IH. by eapply life_inv_step.
Qed.

(** ** Properties *)

(** C20. After [Close] has detached the endpoint (and already when it is about to),
    no call is inside: none touches the shared memory any more, and none ever
    will, however calls that started before, during or after [Close]
    interleave with it. A segment may therefore be unmapped once [Close] has
    returned. *)
Theorem close_quiesces (s s' : endpoint)
  (Hs : rtc life_step life_init s) (Hc : ep_close s = CloseDrained \/ ep_close s = CloseDetached)
  (Hs' : rtc life_step s s') :
  Forall (fun x => x.2 <> CallInside) (ep_calls s').
Proof.
  assert (Hmono : forall a b, life_step a b -> ep_close a = CloseDrained \/ ep_close a = CloseDetached ->
    ep_close b = CloseDrained \/ ep_close b = CloseDetached).
  { intros a b [a0 ?|a0 i ? E|a0 ? E] Hx; simpl; [done| |].
    - unfold call_access in E. destruct (ep_calls a0 !! i) as [[[] []]|]; by simplify_eq.
    - unfold close_access in E. destruct Hx as [Hx|Hx]; rewrite Hx in E; simplify_eq. by right. }
  assert (Hc' : ep_close s' = CloseDrained \/ ep_close s' = CloseDetached) by (clear Hs; induction Hs'; eauto).
  assert (Hreach : rtc life_step life_init s') by (etrans; done).
  pose proof (life_reachable s' Hreach) as [_ _ _ Hr Ht _].
  specialize (Hr ltac:(tauto)). specialize (Ht ltac:(tauto)). unfold no_inside in *.
  rewrite list.Forall_forall in *. intros [[] pc] Hx; simpl; intros ->; [by apply (Hr _ Hx)|by apply (Ht _ Hx)].
Qed.

(** A call that is inside delays [Close]; one that comes too late is refused. *)
Definition life_sample : endpoint := mkEndpoint true 0 0 true [(RxCall, CallReturned)] CloseDrained.

Lemma close_quiesces_witness :
  rtc life_step life_init life_sample /\
  Forall (fun x => x.2 <> CallInside)
    (ep_calls (mkEndpoint true 0 1 false [(RxCall, CallReturned); (TxCall, CallRefused)] CloseDetached)).
Proof.
  assert (H : rtc life_step life_init life_sample).
  { eapply rtc_l; [apply (life_new _ RxCall)|]. eapply rtc_l; [apply (life_call _ 0); reflexivity|].
    eapply rtc_l; [apply (life_call _ 0); reflexivity|]. eapply rtc_l; [apply life_close; reflexivity|].
    eapply rtc_l; [apply (life_call _ 0); reflexivity|]. eapply rtc_l; [apply life_close; reflexivity|].
    eapply rtc_l; [apply life_close; reflexivity|]. apply rtc_refl. }
  split; [exact H|]. apply (close_quiesces life_sample _ H); [left; reflexivity|].
  eapply rtc_l; [apply life_close; reflexivity|]. eapply rtc_l; [apply (life_new _ TxCall)|].
  eapply rtc_l; [apply (life_call _ 1); reflexivity|]. eapply rtc_l; [apply (life_call _ 1); reflexivity|]. apply rtc_refl.
Defined.
