(* ===== verification/Negotiate.v ===== *)
(** * Negotiate: the version and feature negotiation of an Advanced link

    Models the negotiation part of advanced.go: the state machine
    None -> Negotiating -> Negotiated | Failed, the two sides of the exchange
    and the answer. A call is a function of what it receives: [inbox] lists
    the results of its [recvPacket] calls (a packet, or the error that ended
    the wait), [send_err] the results of its [sendPacket] calls, [None] for a
    packet published. The call returns the packets it published. *)
From Stdlib Require Import Btauto.
From S2P Require Import Prelude Errors Protocol Superblock.

(** ** Features and versions *)

Definition FeatureNone : Z := 0.
Definition FeatureMessages : Z := 1.
Definition FeatureRequestResponse : Z := 2.
Definition FeatureCancel : Z := 4.
Definition FeatureMetadata : Z := 8.
Definition supportedFeatures : Z :=
  Z.lor (Z.lor (Z.lor FeatureMessages FeatureRequestResponse) FeatureCancel) FeatureMetadata.
Definition featuresSince11 : Z := Z.lor FeatureCancel FeatureMetadata.
Definition negotiatedBit : Z := 2 ^ 63.

Record ProtocolVersion := mkVersion { Major : Z; Minor : Z }.

#[export] Instance ProtocolVersion_eq_dec : EqDecision ProtocolVersion.
Proof. solve_decision. Defined.

Definition currentProtocolVersion : ProtocolVersion := mkVersion HQQProtocolMajorVersion HQQProtocolMinorVersion.

Definition encode (v : ProtocolVersion) : Z := Z.lor (Z.shiftl (Major v) 8) (Minor v).

Definition decodeVersion (v : Z) : ProtocolVersion := mkVersion (wrap 8 (Z.shiftr v 8)) (wrap 8 v).

(** ** State *)

Inductive ProtocolState := ProtocolStateNone | ProtocolStateNegotiating | ProtocolStateNegotiated | ProtocolStateFailed.

#[export] Instance ProtocolState_eq_dec : EqDecision ProtocolState.
Proof. solve_decision. Defined.

(** [negotiated] is the atomic word [negotiatedBit | features]. *)
Record negotiation := mkNeg {
  n_state : ProtocolState;
  negotiated : Z;
  negotiatedVersion : ProtocolVersion;
  negotiatedFeatures : Z
}.

Definition new_negotiation : negotiation := mkNeg ProtocolStateNone 0 (mkVersion 0 0) 0.

Definition beginNegotiation (n : negotiation) : negotiation * option error :=
  if bool_decide (n_state n = ProtocolStateNone)
  then (mkNeg ProtocolStateNegotiating (negotiated n) (negotiatedVersion n) (negotiatedFeatures n), None)
  else if bool_decide (n_state n = ProtocolStateFailed) then (n, Some ErrNegotiationFailed)
  else (n, Some ErrAlreadyNegotiated).

Definition setProtocolFailed (n : negotiation) : negotiation :=
  mkNeg ProtocolStateFailed (negotiated n) (negotiatedVersion n) (negotiatedFeatures n).

Definition setNegotiated (v : ProtocolVersion) (features : Z) (n : negotiation) : negotiation :=
  mkNeg ProtocolStateNegotiated (Z.lor negotiatedBit features) v features.

Definition requireNegotiated (n : negotiation) : option error :=
  if Z.land (negotiated n) negotiatedBit =? 0 then Some ErrNotNegotiated else None.

Definition requireFeature (feature : Z) (n : negotiation) : option error :=
  if (Z.land (negotiated n) negotiatedBit =? 0) || (Z.land (negotiated n) feature =? 0)
  then Some ErrNotNegotiated else None.

(** ** The calls *)

(** The state after the call, the packets published and the result. *)
Definition neg_out : Type := negotiation * list Packet * result error bool.

(** [sendPacket]: the [i]-th send of the call. *)
Definition send (send_err : nat -> option error) (i : nat) (p : Packet) : list Packet * option error :=
  match send_err i with Some e => ([], Some e) | None => ([p], None) end.

Definition answerNegotiation (send_err : nat -> option error) (i : nat) (p : Packet) (allowed : Z) (n : negotiation) : neg_out :=
  let requested := decodeVersion (Operand p 0) in
  if negb (Major requested =? HQQProtocolMajorVersion) then
    let (sent, _) := send send_err i (NewPacket OpError [0; ErrCodeInvalidOp]) in
    (setProtocolFailed n, sent, Err ErrNegotiationRejected)
  else
    let version := mkVersion (Major requested) (Z.min (Minor requested) HQQProtocolMinorVersion) in
    let features := Z.land (Z.land (Operand p 1) supportedFeatures) allowed in
    let features := if Minor version <? 1 then and_not features featuresSince11 else features in
    let (sent, e) := send send_err i (NewPacket OpProtoAck [encode version; features; 0]) in
    match e with
    | Some e => (setProtocolFailed n, sent, Err e)
    | None => (setNegotiated version features n, sent, Ok true)
    end.

(** The receive loop of [NegotiateProtocol]. [None]: still waiting. *)
Fixpoint request_loop (mode : LinkMode) (features : Z) (send_err : nat -> option error)
    (inbox : list (result error Packet)) (n : negotiation) : option neg_out :=
  match inbox with
  | [] => None
  | Err e :: _ => Some (setProtocolFailed n, [], Err e)
  | Ok p :: rest =>
      let op := Op p in
      if op =? OpStandardLinkTombstone then request_loop mode features send_err rest n
      else if op =? OpProtoAck then
        let ackVersion := decodeVersion (Operand p 0) in
        let ackFeatures := Operand p 1 in
        if negb (Major ackVersion =? HQQProtocolMajorVersion) || (HQQProtocolMinorVersion <? Minor ackVersion) ||
           negb (and_not ackFeatures (Z.land features supportedFeatures) =? 0)
        then Some (setProtocolFailed n, [], Err ErrNegotiationRejected)
        else Some (setNegotiated ackVersion ackFeatures n, [], Ok true)
      else if op =? OpProtoNegotiate then
        if bool_decide (mode = LinkModeSecondary) then Some (answerNegotiation send_err 1 p features n)
        else request_loop mode features send_err rest n
      else if op =? OpError then Some (setProtocolFailed n, [], Err ErrNegotiationRejected)
      else Some (setProtocolFailed n, [], Err ErrUnexpectedPacket)
  end.

Definition NegotiateProtocol (mode : LinkMode) (version : ProtocolVersion) (features : Z)
    (send_err : nat -> option error) (inbox : list (result error Packet)) (n : negotiation) : option neg_out :=
  let (n, e) := beginNegotiation n in
  match e with
  | Some e => Some (n, [], Err e)
  | None =>
      let (sent, e) := send send_err 0 (NewPacket OpProtoNegotiate [encode version; features; 0]) in
      match e with
      | Some e => Some (setProtocolFailed n, sent, Err e)
      | None => '(n', sent', r) ← request_loop mode features send_err inbox n; Some (n', sent ++ sent', r)
      end
  end.

Fixpoint wait_loop (allowed : Z) (send_err : nat -> option error) (inbox : list (result error Packet))
    (n : negotiation) : option neg_out :=
  match inbox with
  | [] => None
  | Err e :: _ => Some (setProtocolFailed n, [], Err e)
  | Ok p :: rest =>
      let op := Op p in
      if op =? OpStandardLinkTombstone then wait_loop allowed send_err rest n
      else if op =? OpProtoNegotiate then Some (answerNegotiation send_err 0 p allowed n)
      else if op =? OpError then Some (setProtocolFailed n, [], Err ErrNegotiationRejected)
      else Some (setProtocolFailed n, [], Err ErrUnexpectedPacket)
  end.

Definition waitForNegotiation (allowed : Z) (send_err : nat -> option error) (inbox : list (result error Packet))
    (n : negotiation) : option neg_out :=
  let (n, e) := beginNegotiation n in
  match e with
  | Some e => Some (n, [], Err e)
  | None => wait_loop allowed send_err inbox n
  end.

Definition WaitForNegotiation := waitForNegotiation supportedFeatures.

Definition Negotiate (mode : LinkMode) (features : Z) (send_err : nat -> option error)
    (inbox : list (result error Packet)) (n : negotiation) : option neg_out :=
  let features := if features =? FeatureNone then supportedFeatures else features in
  '(n', sent, r) ← match mode with
                   | LinkModePrimary => NegotiateProtocol mode currentProtocolVersion features send_err inbox n
                   | LinkModeSecondary => waitForNegotiation features send_err inbox n
                   end;
  Some (n', sent, match r with Ok false => Err ErrNegotiationRejected | r => r end).

(** ** Lemmas *)

Definition version_wf (v : ProtocolVersion) : Prop := word 8 (Major v) /\ word 8 (Minor v).

Lemma encode_arith v : version_wf v -> encode v = Major v * 256 + Minor v.
Proof.
  intros [H1 H2]. unfold encode, word in *. rewrite Z.shiftl_mul_pow2 by lia.
  pose proof (Z.add_lor_land (Major v * 2 ^ 8) (Minor v)) as E.
  assert (E0 : Z.land (Major v * 2 ^ 8) (Minor v) = 0); [|lia].
  apply Z.bits_inj'. intros i Hi. rewrite Z.land_spec, Z.bits_0.
  destruct (Z.lt_ge_cases i 8) as [Hlt|Hge].
  - by rewrite Z.mul_pow2_bits_low by lia.
  - destruct (Z.eq_dec (Minor v) 0) as [->|]; [by rewrite Z.bits_0, andb_false_r|].
    rewrite (Z.bits_above_log2 (Minor v)), andb_false_r; [done|lia|]. apply Z.log2_lt_pow2; [lia|].
    assert (2 ^ 8 <= 2 ^ i) by (apply Z.pow_le_mono_r; lia). lia.
Qed.

Lemma encode_word v : version_wf v -> word 64 (encode v).
Proof. intros H. rewrite encode_arith by done. destruct H. unfold word in *. lia. Qed.

Lemma decode_encode v : version_wf v -> decodeVersion (encode v) = v.
Proof.
  intros H. rewrite encode_arith by done. destruct H as [H1 H2]. unfold decodeVersion, wrap, word in *.
  rewrite Z.shiftr_div_pow2 by lia. destruct v as [a b]. simpl in *. f_equal; zlia.
Qed.

(** Membership in a feature set, bit by bit. *)
Ltac bits := apply Z.bits_inj'; intros ? ?;
  repeat progress rewrite ?Z.ldiff_spec, ?Z.land_spec, ?Z.lor_spec, ?Z.bits_0; btauto.

Definition subset (a b : Z) : Prop := Z.ldiff a b = 0.

Lemma subset_land_l a b c : subset a b -> subset (Z.land a c) b.
Proof. unfold subset. intros H. transitivity (Z.land (Z.ldiff a b) c); [bits|]. by rewrite H. Qed.

(** The features an answer grants. *)
Definition granted (requested allowed minor : Z) : Z :=
  let features := Z.land (Z.land requested supportedFeatures) allowed in
  if minor <? 1 then and_not features featuresSince11 else features.

Lemma granted_subset requested allowed minor :
  subset (granted requested allowed minor) (Z.land requested supportedFeatures) /\
  subset (granted requested allowed minor) (Z.land allowed supportedFeatures) /\
  (minor < 1 -> Z.land (granted requested allowed minor) featuresSince11 = 0).
Proof.
  unfold granted, subset, and_not. destruct (Z.ltb_spec minor 1); (split; [bits|split; [bits|intros ?; try lia; bits]]).
Qed.

Lemma supported_word a : word 64 (Z.land a supportedFeatures).
Proof.
  change supportedFeatures with (2 ^ 4 - 1). rewrite land_mask by lia. pose proof (Z.mod_pos_bound a (2 ^ 4)). unfold word. lia.
Qed.

Lemma granted_word requested allowed minor : word 64 (granted requested allowed minor).
Proof.
  destruct (granted_subset requested allowed minor) as [H _]. unfold subset in H.
  assert (E : granted requested allowed minor = Z.land (granted requested allowed minor) supportedFeatures).
  { unfold granted, and_not. destruct (minor <? 1); bits. }
  rewrite E. apply supported_word.
Qed.

(** What the peer reads in a negotiation packet. *)
Lemma neg_packet_fields op a b : word 8 op -> word 64 a -> word 64 b ->
  Op (NewPacket op [a; b; 0]) = op /\ Operand (NewPacket op [a; b; 0]) 0 = a /\ Operand (NewPacket op [a; b; 0]) 1 = b.
Proof.
  intros Ho Ha Hb.
  assert (HF : Forall (word 64) [a; b; 0]).
  { constructor; [exact Ha|]. constructor; [exact Hb|]. constructor; [unfold word; lia|constructor]. }
  rewrite NewPacket_Op, !NewPacket_Operand by done. done.
Qed.

Definition is_tombstone (x : result error Packet) : Prop :=
  match x with Ok p => Op p = OpStandardLinkTombstone | Err _ => False end.

Lemma wait_loop_skip allowed send_err pre rest n :
  Forall is_tombstone pre -> wait_loop allowed send_err (pre ++ rest) n = wait_loop allowed send_err rest n.
Proof.
  induction 1 as [|[p|e] pre Hp _ IH]; simpl in *; [done| |done]. rewrite Hp. done.
Qed.

Lemma request_loop_skip mode features send_err pre rest n :
  Forall is_tombstone pre -> request_loop mode features send_err (pre ++ rest) n = request_loop mode features send_err rest n.
Proof.
  induction 1 as [|[p|e] pre Hp _ IH]; simpl in *; [done| |done]. rewrite Hp. done.
Qed.

(** The answer to a request of version [v] with [features]. *)
Lemma answer_spec i v features allowed n :
  version_wf v -> word 64 features ->
  let p := NewPacket OpProtoNegotiate [encode v; features; 0] in
  answerNegotiation (fun _ => None) i p allowed n =
    if Major v =? HQQProtocolMajorVersion then
      let v' := mkVersion (Major v) (Z.min (Minor v) HQQProtocolMinorVersion) in
      let f := granted features allowed (Minor v') in
      (setNegotiated v' f n, [NewPacket OpProtoAck [encode v'; f; 0]], Ok true)
    else (setProtocolFailed n, [NewPacket OpError [0; ErrCodeInvalidOp]], Err ErrNegotiationRejected).
Proof.
  intros Hv Hf p. destruct (neg_packet_fields OpProtoNegotiate (encode v) features) as (E1 & E2 & E3);
    [unfold word, OpProtoNegotiate; lia|by apply encode_word|done|].
  unfold answerNegotiation, p. rewrite E2, E3, decode_encode by done.
  destruct (Major v =? HQQProtocolMajorVersion); done.
Qed.

(** How the requester takes an acknowledgment or a rejection. *)
Lemma request_loop_reply mode features v f rest n :
  version_wf v -> word 64 f ->
  request_loop mode features (fun _ => None) (Ok (NewPacket OpProtoAck [encode v; f; 0]) :: rest) n =
    Some (if negb (Major v =? HQQProtocolMajorVersion) || (HQQProtocolMinorVersion <? Minor v) ||
             negb (and_not f (Z.land features supportedFeatures) =? 0)
          then (setProtocolFailed n, [], Err ErrNegotiationRejected) else (setNegotiated v f n, [], Ok true)).
Proof.
  intros Hv Hf. destruct (neg_packet_fields OpProtoAck (encode v) f) as (E1 & E2 & E3);
    [unfold word, OpProtoAck; lia|by apply encode_word|done|].
  cbn [request_loop]. rewrite E1, E2, E3, decode_encode by done.
  change (OpProtoAck =? OpStandardLinkTombstone) with false. rewrite Z.eqb_refl. cbv iota zeta. by destruct (_ || _).
Qed.

(** ** Properties *)

(** How the Secondary may take part: waiting for the request, or requesting
    itself at the same time. *)
Inductive secondary_role := Waits | Requests (v : ProtocolVersion).

Definition secondary_call (role : secondary_role) (features : Z) (inbox : list (result error Packet)) : option neg_out :=
  match role with
  | Waits => waitForNegotiation features (fun _ => None) inbox new_negotiation
  | Requests v => NegotiateProtocol LinkModeSecondary v features (fun _ => None) inbox new_negotiation
  end.

(** What the Secondary has sent before it answers. *)
Definition own_request (role : secondary_role) (f2 : Z) : list Packet :=
  match role with Waits => [] | Requests v2 => [NewPacket OpProtoNegotiate [encode v2; f2; 0]] end.

Definition negotiating : negotiation := mkNeg ProtocolStateNegotiating 0 (mkVersion 0 0) 0.

(** The Secondary answers the request, whichever call it is in. *)
Lemma secondary_answers role v f1 f2 pre :
  version_wf v -> word 64 f1 -> Forall is_tombstone pre ->
  let request := NewPacket OpProtoNegotiate [encode v; f1; 0] in
  secondary_call role f2 (pre ++ [Ok request]) =
    (let '(n, sent, r) := answerNegotiation (fun _ => None) (match role with Waits => 0 | Requests _ => 1 end) request f2 negotiating in
     Some (n, own_request role f2 ++ sent, r)).
Proof.
  intros Hv Hf1 Hpre request.
  destruct (neg_packet_fields OpProtoNegotiate (encode v) f1) as (E1 & _ & _);
    [unfold word, OpProtoNegotiate; lia|by apply encode_word|done|]. fold request in E1.
  destruct role as [|v2]; unfold secondary_call, waitForNegotiation, NegotiateProtocol;
    change (beginNegotiation new_negotiation) with (negotiating, @None error); cbv beta iota.
  - rewrite wait_loop_skip by done. cbn [wait_loop]. rewrite E1.
    change (OpProtoNegotiate =? OpStandardLinkTombstone) with false. rewrite Z.eqb_refl. cbv iota zeta.
    by destruct (answerNegotiation _ _ _ _ _) as [[? ?] ?].
  - unfold send at 1. cbv beta iota. rewrite request_loop_skip by done. cbn [request_loop]. rewrite E1.
    change (OpProtoNegotiate =? OpStandardLinkTombstone) with false. change (OpProtoNegotiate =? OpProtoAck) with false.
    rewrite Z.eqb_refl. rewrite bool_decide_eq_true_2 by done. cbv iota zeta.
    by destruct (answerNegotiation _ _ _ _ _) as [[? ?] ?].
Qed.

(** The Primary skips tombstones and the Secondary's own request. *)
Lemma primary_skips role v f1 f2 pre sent :
  match role with Requests v2 => version_wf v2 | Waits => True end -> word 64 f2 -> Forall is_tombstone pre ->
  NegotiateProtocol LinkModePrimary v f1 (fun _ => None) (pre ++ map Ok (own_request role f2 ++ sent)) new_negotiation =
    ('(n', s', r) ← request_loop LinkModePrimary f1 (fun _ => None) (map Ok sent) negotiating;
     Some (n', [NewPacket OpProtoNegotiate [encode v; f1; 0]] ++ s', r)).
Proof.
  intros Hrole Hf2 Hpre. unfold NegotiateProtocol.
  change (beginNegotiation new_negotiation) with (negotiating, @None error). cbv beta iota.
  unfold send at 1. cbv beta iota. rewrite request_loop_skip by done. rewrite map_app.
  destruct role as [|v2]; [done|]. cbn [own_request map app request_loop].
  destruct (neg_packet_fields OpProtoNegotiate (encode v2) f2) as (E1 & _ & _);
    [unfold word, OpProtoNegotiate; lia|by apply encode_word|done|]. rewrite E1.
  change (OpProtoNegotiate =? OpStandardLinkTombstone) with false. change (OpProtoNegotiate =? OpProtoAck) with false.
  rewrite Z.eqb_refl. rewrite bool_decide_eq_false_2 by done. done.
Qed.

(** C8. Both endpoints agree. The Primary requests version [v] and the features
    [f1]; the Secondary, which allows [f2], waits for the request or has sent
    a request of its own; each receives what the other published, possibly
    after tombstones. If the major version is ours, both calls succeed with
    the same version, the requested one lowered to ours, and the same
    features, those both want and the package supports, without the 1.1
    features if the version is older; otherwise both fail for good. Nothing
    but these two outcomes is possible, in particular no deadlock when both
    request at the same time. This is the handshake of SPEC 10.1, where the
    Primary requests, on a link that delivers what is sent; timeouts, failed
    sends, and a Secondary that requests while the Primary only waits, are not
    part of the statement. *)
Theorem negotiation_agreement (role : secondary_role) (v : ProtocolVersion) (f1 f2 : Z)
  (preP preS : list (result error Packet))
  (Hv : version_wf v) (Hrole : match role with Requests v2 => version_wf v2 | Waits => True end)
  (Hf1 : word 64 f1) (Hf2 : word 64 f2) (HpP : Forall is_tombstone preP) (HpS : Forall is_tombstone preS) :
  let request := NewPacket OpProtoNegotiate [encode v; f1; 0] in
  let minor := Z.min (Minor v) HQQProtocolMinorVersion in
  exists nS sentS nP r,
    secondary_call role f2 (preS ++ [Ok request]) = Some (nS, sentS, r) /\
    NegotiateProtocol LinkModePrimary v f1 (fun _ => None) (preP ++ map Ok sentS) new_negotiation = Some (nP, [request], r) /\
    if Major v =? HQQProtocolMajorVersion then
      r = Ok true /\ n_state nS = ProtocolStateNegotiated /\ n_state nP = ProtocolStateNegotiated /\
      negotiatedVersion nP = mkVersion (Major v) minor /\ negotiatedVersion nS = mkVersion (Major v) minor /\
      negotiatedFeatures nP = granted f1 f2 minor /\ negotiatedFeatures nS = granted f1 f2 minor /\
      negotiated nP = negotiated nS
    else
      r = Err ErrNegotiationRejected /\ n_state nS = ProtocolStateFailed /\ n_state nP = ProtocolStateFailed.
Proof.
  intros request minor. assert (Es := secondary_answers role v f1 f2 preS Hv Hf1 HpS). cbv zeta in Es. fold request in Es.
  rewrite Es. unfold request at 1 2. rewrite answer_spec by done. fold request.
  destruct (Z.eqb_spec (Major v) HQQProtocolMajorVersion) as [EM|EM].
  - set (v' := mkVersion (Major v) (Z.min (Minor v) HQQProtocolMinorVersion)). cbn [Minor v']. fold minor.
    set (f := granted f1 f2 minor).
    assert (Hv' : version_wf v') by (destruct Hv; split; unfold word, HQQProtocolMinorVersion in *; simpl; lia).
    eexists _, _, _, _. split; [reflexivity|]. rewrite primary_skips by done. cbn [map].
    rewrite request_loop_reply by (done || apply granted_word).
    assert (Eok : negb (Major v' =? HQQProtocolMajorVersion) || (HQQProtocolMinorVersion <? Minor v') ||
      negb (and_not f (Z.land f1 supportedFeatures) =? 0) = false).
    { destruct (granted_subset f1 f2 minor) as [Hs _]. unfold subset in Hs. unfold and_not, f. rewrite Hs.
      simpl Major. rewrite EM, Z.eqb_refl. simpl. rewrite orb_false_r. apply Z.ltb_ge. unfold HQQProtocolMinorVersion. lia. }
    rewrite Eok. split; [reflexivity|]. done.
  - eexists _, _, _, _. split; [reflexivity|]. rewrite primary_skips by done. cbn [map request_loop].
    rewrite NewPacket_Op by (unfold word, OpError; lia).
    change (OpError =? OpStandardLinkTombstone) with false. change (OpError =? OpProtoAck) with false.
    change (OpError =? OpProtoNegotiate) with false. rewrite Z.eqb_refl. split; [reflexivity|]. done.
Qed.

Lemma negotiation_agreement_witness :
  let v := mkVersion 1 0 in
  let request := NewPacket OpProtoNegotiate [encode v; 15; 0] in
  exists nS sentS nP r,
    secondary_call (Requests (mkVersion 1 1)) 7 [Ok request] = Some (nS, sentS, r) /\
    NegotiateProtocol LinkModePrimary v 15 (fun _ => None) (map Ok sentS) new_negotiation = Some (nP, [request], r) /\
    r = Ok true /\ negotiatedFeatures nP = 3 /\ negotiatedFeatures nS = 3.
Proof.
  intros v request.
  destruct (negotiation_agreement (Requests (mkVersion 1 1)) v 15 7 [] []) as (nS & sentS & nP & r & E1 & E2 & H).
  1,2: split; unfold word; simpl; lia.
  1,2: unfold word; lia.
  1,2: constructor.
  destruct H as (Hr & _ & _ & _ & _ & H1 & H2 & _).
  exists nS, sentS, nP, r. split; [exact E1|]. split; [exact E2|]. split; [exact Hr|]. split; [exact H1|exact H2].
Defined.

(** A completed negotiation, and how a failed one leaves the link. *)
Definition neg_success (features : Z) (n' : negotiation) : Prop :=
  n_state n' = ProtocolStateNegotiated /\ subset (negotiatedFeatures n') (Z.land features supportedFeatures) /\
  Major (negotiatedVersion n') = HQQProtocolMajorVersion /\ Minor (negotiatedVersion n') <= HQQProtocolMinorVersion /\
  requireNegotiated n' = None /\
  forall f, requireFeature f n' = None -> Z.land f (Z.lor negotiatedBit supportedFeatures) <> 0.

Definition neg_failure (n n' : negotiation) : Prop :=
  n_state n' = ProtocolStateFailed /\ negotiated n' = negotiated n.

Lemma setNegotiated_success features v f n :
  Major v = HQQProtocolMajorVersion -> Minor v <= HQQProtocolMinorVersion ->
  subset f (Z.land features supportedFeatures) -> neg_success features (setNegotiated v f n).
Proof.
  intros H1 H2 H3. split; [done|]. split; [done|]. split; [done|]. split; [done|]. split.
  - unfold requireNegotiated. simpl. destruct (Z.eqb_spec (Z.land (Z.lor negotiatedBit f) negotiatedBit) 0) as [E|E]; [|done].
    exfalso. assert (E2 : Z.land (Z.lor negotiatedBit f) negotiatedBit = negotiatedBit) by bits. rewrite E2 in E. discriminate.
  - intros g Hg E. unfold requireFeature in Hg. cbn [negotiated setNegotiated] in Hg.
    destruct (Z.eqb_spec (Z.land (Z.lor negotiatedBit f) g) 0) as [|Hne]; [by rewrite orb_true_r in Hg|].
    apply Hne. unfold subset in H3.
    assert (E3 : Z.land (Z.lor negotiatedBit f) g =
      Z.lor (Z.land (Z.land g (Z.lor negotiatedBit supportedFeatures)) (Z.lor negotiatedBit f))
            (Z.land g (Z.ldiff f (Z.lor negotiatedBit supportedFeatures)))) by bits.
    rewrite E3, E. assert (E4 : Z.ldiff f (Z.lor negotiatedBit supportedFeatures) =
      Z.land (Z.ldiff f (Z.land features supportedFeatures)) (Z.ldiff f (Z.lor negotiatedBit supportedFeatures))) by bits.
    rewrite E4, H3. by rewrite Z.land_0_l, Z.land_0_r.
Qed.

Lemma answer_safe send_err i p features n n' sent r :
  answerNegotiation send_err i p features n = (n', sent, r) ->
  (r = Ok true /\ neg_success features n') \/ (exists e, r = Err e /\ neg_failure n n').
Proof.
  unfold answerNegotiation. destruct (Z.eqb_spec (Major (decodeVersion (Operand p 0))) HQQProtocolMajorVersion) as [EM|EM]; cbn [negb].
  - fold (granted (Operand p 1) features (Z.min (Minor (decodeVersion (Operand p 0))) HQQProtocolMinorVersion)).
    unfold send. destruct (send_err i) as [e|]; intros; simplify_eq; [right; by exists e|]. left. split; [done|].
    apply setNegotiated_success; simpl; [done|lia|]. apply granted_subset.
  - destruct (send _ _ _). intros; simplify_eq. right. by eexists.
Qed.

Lemma request_loop_safe mode features send_err n0 inbox n n' sent r :
  negotiated n = negotiated n0 ->
  request_loop mode features send_err inbox n = Some (n', sent, r) ->
  (r = Ok true /\ neg_success features n') \/ (exists e, r = Err e /\ neg_failure n0 n').
Proof.
  intros Hn. revert n' sent r. induction inbox as [|[p|e] inbox IH]; intros n2 s2 r2; cbn [request_loop]; intros E;
    [done| |simplify_eq; right; by exists e].
  destruct (_ =? OpStandardLinkTombstone); [by eapply IH|]. destruct (_ =? OpProtoAck).
  - destruct (negb _ || _ || _) eqn:Ec; simplify_eq; [right; by eexists|]. left. split; [done|].
    breflect. by apply setNegotiated_success.
  - destruct (_ =? OpProtoNegotiate).
    + destruct (bool_decide _); [|by eapply IH]. simplify_eq. unfold neg_failure. rewrite <- Hn. by eapply answer_safe in E.
    + destruct (_ =? OpError); simplify_eq; right; by eexists.
Qed.

Lemma wait_loop_safe features send_err n0 inbox n n' sent r :
  negotiated n = negotiated n0 ->
  wait_loop features send_err inbox n = Some (n', sent, r) ->
  (r = Ok true /\ neg_success features n') \/ (exists e, r = Err e /\ neg_failure n0 n').
Proof.
  intros Hn. revert n' sent r. induction inbox as [|[p|e] inbox IH]; intros n2 s2 r2; cbn [wait_loop]; intros E;
    [done| |simplify_eq; right; by exists e].
  destruct (_ =? OpStandardLinkTombstone); [by eapply IH|]. destruct (_ =? OpProtoNegotiate).
  - simplify_eq. unfold neg_failure. rewrite <- Hn. by eapply answer_safe in E.
  - destruct (_ =? OpError); simplify_eq; right; by eexists.
Qed.

(** The loops end at the latest when receiving fails. *)
Lemma loops_return mode features send_err inbox n e :
  Err e ∈ inbox ->
  is_Some (request_loop mode features send_err inbox n) /\ is_Some (wait_loop features send_err inbox n).
Proof.
  induction inbox as [|[p|e'] inbox IH]; intros Hin; [by apply elem_of_nil in Hin| |split; by eexists].
  apply elem_of_cons in Hin as [?|Hin]; [done|]. destruct (IH Hin) as [IH1 IH2]. cbn [request_loop wait_loop].
  split; destruct (_ =? OpStandardLinkTombstone); try done.
  - destruct (_ =? OpProtoAck); [destruct (negb _ || _ || _); by eexists|].
    destruct (_ =? OpProtoNegotiate); [destruct (bool_decide _); [by eexists|done]|]. destruct (_ =? OpError); by eexists.
  - destruct (_ =? OpProtoNegotiate); [by eexists|]. destruct (_ =? OpError); by eexists.
Qed.

Lemma beginNegotiation_cases n :
  beginNegotiation n =
    match n_state n with
    | ProtocolStateNone => (mkNeg ProtocolStateNegotiating (negotiated n) (negotiatedVersion n) (negotiatedFeatures n), None)
    | ProtocolStateFailed => (n, Some ErrNegotiationFailed)
    | _ => (n, Some ErrAlreadyNegotiated)
    end.
Proof. unfold beginNegotiation. by destruct (n_state n). Qed.

(** Whatever an untrusted peer sends. A negotiation that is not the first one
    changes nothing and publishes nothing. The first one, when it returns,
    either succeeds, with our major version, no newer minor version and no
    feature that was not requested and supported here, or leaves the link
    failed for good; a feature the calls of the link require later is one of
    those negotiated. And the call does return once receiving fails, because
    the context ended or the link was lost, if no packet ended it before. *)
Theorem negotiation_safe (requests : bool) (mode : LinkMode) (v : ProtocolVersion) (features : Z)
  (send_err : nat -> option error) (inbox : list (result error Packet)) (n : negotiation) :
  let call := if requests then NegotiateProtocol mode v features send_err inbox n
              else waitForNegotiation features send_err inbox n in
  (forall n' sent r, call = Some (n', sent, r) ->
    match n_state n with
    | ProtocolStateNone => (r = Ok true /\ neg_success features n') \/ (exists e, r = Err e /\ neg_failure n n')
    | ProtocolStateFailed => n' = n /\ sent = [] /\ r = Err ErrNegotiationFailed
    | _ => n' = n /\ sent = [] /\ r = Err ErrAlreadyNegotiated
    end) /\
  (forall e, Err e ∈ inbox -> is_Some call).
Proof.
  intros call. unfold call, NegotiateProtocol, waitForNegotiation. rewrite beginNegotiation_cases.
  set (neg := mkNeg ProtocolStateNegotiating _ _ _). split.
  - intros n' sent r H. destruct requests, (n_state n); try (simplify_eq; done); try exact (wait_loop_safe features send_err n inbox neg _ _ _ eq_refl H).
    unfold send in H. destruct (send_err 0%nat) as [e|]; [simplify_eq; right; by exists e|].
    destruct (request_loop mode features send_err inbox neg) as [[[n2 s2] r2]|] eqn:E; simpl in H; [|done].
    simplify_eq. exact (request_loop_safe mode features send_err n inbox neg _ _ _ eq_refl E).
  - intros e He. destruct (loops_return mode features send_err inbox neg e He) as [[[[n1 s1] r1] E1] H2].
    destruct requests, (n_state n); try (by eexists); try exact H2.
    unfold send. destruct (send_err 0%nat); [by eexists|]. rewrite E1. by eexists.
Qed.

Lemma negotiation_safe_witness :
  exists n' r, waitForNegotiation 15 (fun _ => None) [Ok (NewPacket OpConnClose [1])] new_negotiation = Some (n', [], r) /\
    (r = Ok true /\ neg_success 15 n' \/ exists e, r = Err e /\ neg_failure new_negotiation n').
Proof.
  eexists _, _. split; [reflexivity|].
  destruct (negotiation_safe false LinkModeSecondary currentProtocolVersion 15 (fun _ => None)
    [Ok (NewPacket OpConnClose [1])] new_negotiation) as [H _].
  exact (H _ _ _ eq_refl).
Defined.
