(* ===== verification/Calls.v ===== *)
(** * Calls: matching responses with waiting calls

    Models the pending-call table of advanced_dispatch.go and advanced_io.go:
    [registerPendingCall], [unregisterPendingCall], [abandonCall],
    [routeResponse], [failPendingCalls] and the recycling of the one-shot
    channels through [pendingPool]. A step is one critical section of
    [pendingMu] or one channel operation: [routeResponse] removes the entry
    under the lock and sends afterwards, so the send is a step of its own and
    anything may happen in between. *)
From stdpp Require Import gmap.
From S2P Require Import Prelude Errors.

Definition maxAbandonedCalls : nat := Z.to_nat 4096.

(** [advancedCallKey]: stream ID and message ID. *)
Abbreviation call_key := (Z * Z)%type.
Abbreviation chan := nat.

(** [advancedDispatchResult]: the response or the error; a result carries the
    key it was routed for, which the code knows from the header. *)
Inductive call_outcome := GotResponse (payload : bytes) | GotError (e : error).

Record calls := mkCalls {
  messageIDGenerator : Z;
  pendingCalls : gmap call_key chan;
  abandoned : gset call_key;
  abandonedOrder : list call_key;
  pendingPool : list chan;
  nextChan : chan;                                (* channels made so far *)
  chanBuf : gmap chan (call_key * call_outcome);  (* the one buffered value *)
  sending : list (chan * (call_key * call_outcome)); (* sends [routeResponse] is about to do *)
  waiting : gmap call_key chan;                   (* the calls that have not returned *)
  abandonedResponses : Z;
  droppedMessages : Z
}.

Definition no_calls : calls := mkCalls 0 ∅ ∅ [] [] 0 ∅ [] ∅ 0 0.

(** [nextMessageID]: skips 0 when the counter wraps. *)
Definition nextMessageID (gen : Z) : Z * Z :=
  let id := u64 (gen + 1) in
  if id =? 0 then let id := u64 (id + 1) in (id, id) else (id, id).

(** [pendingPool.Get()]: any pooled channel, or a new one. *)
Definition pool_get (choice : option nat) (s : calls) : option (chan * list chan * chan) :=
  match choice with
  | Some i => ch ← pendingPool s !! i; Some (ch, delete i (pendingPool s), nextChan s)
  | None => Some (nextChan s, pendingPool s, S (nextChan s))
  end.

(** The start of [CallWith]: a message ID and a registered channel. *)
Definition registerPendingCall (stream : Z) (choice : option nat) (s : calls) : option (calls * call_key) :=
  let (id, gen) := nextMessageID (messageIDGenerator s) in
  let key := (stream, id) in
  '(ch, pool, next) ← pool_get choice s;
  Some (mkCalls gen (<[key := ch]> (pendingCalls s)) (abandoned s) (abandonedOrder s) pool next (chanBuf s) (sending s)
          (<[key := ch]> (waiting s)) (abandonedResponses s) (droppedMessages s), key).

(** [unregisterPendingCall], after which the call returns. *)
Definition unregisterPendingCall (key : call_key) (ch : chan) (s : calls) : calls * bool :=
  let removed := bool_decide (pendingCalls s !! key = Some ch) in
  (mkCalls (messageIDGenerator s) (if removed then delete key (pendingCalls s) else pendingCalls s)
     (abandoned s) (abandonedOrder s) (if removed then ch :: pendingPool s else pendingPool s) (nextChan s) (chanBuf s)
     (sending s) (delete key (waiting s)) (abandonedResponses s) (droppedMessages s), removed).

(** [abandonCall], after which the call returns. *)
Definition abandonCall (key : call_key) (ch : chan) (s : calls) : calls * bool :=
  if bool_decide (pendingCalls s !! key = Some ch) then
    let '(ab, order) :=
      if (maxAbandonedCalls <=? length (abandonedOrder s))%nat then
        match abandonedOrder s with
        | oldest :: rest => (abandoned s ∖ {[ oldest ]}, rest)
        | [] => (abandoned s, [])
        end
      else (abandoned s, abandonedOrder s) in
    (mkCalls (messageIDGenerator s) (delete key (pendingCalls s)) ({[ key ]} ∪ ab) (order ++ [key]) (pendingPool s)
       (nextChan s) (chanBuf s) (sending s) (delete key (waiting s)) (abandonedResponses s) (droppedMessages s), true)
  else
    (mkCalls (messageIDGenerator s) (pendingCalls s) (abandoned s) (abandonedOrder s) (pendingPool s)
       (nextChan s) (chanBuf s) (sending s) (delete key (waiting s)) (abandonedResponses s) (droppedMessages s), false).

(** [routeResponse] up to the send. [o]: the response, or the error of an
    aborted one ([m == nil]). *)
Definition routeResponse (key : call_key) (o : call_outcome) (s : calls) : calls :=
  match pendingCalls s !! key with
  | Some ch =>
      mkCalls (messageIDGenerator s) (delete key (pendingCalls s)) (abandoned s) (abandonedOrder s) (pendingPool s)
        (nextChan s) (chanBuf s) ((ch, (key, o)) :: sending s) (waiting s) (abandonedResponses s) (droppedMessages s)
  | None =>
      if bool_decide (key ∈ abandoned s) then
        mkCalls (messageIDGenerator s) (pendingCalls s) (abandoned s ∖ {[ key ]}) (abandonedOrder s) (pendingPool s)
          (nextChan s) (chanBuf s) (sending s) (waiting s) (abandonedResponses s + 1) (droppedMessages s)
      else
        mkCalls (messageIDGenerator s) (pendingCalls s) (abandoned s) (abandonedOrder s) (pendingPool s) (nextChan s)
          (chanBuf s) (sending s) (waiting s) (abandonedResponses s)
          (match o with GotResponse _ => droppedMessages s + 1 | GotError _ => droppedMessages s end)
  end.

(** The send of [routeResponse]: [None] if the channel is full (it would block). *)
Definition completeSend (i : nat) (s : calls) : option calls :=
  '(ch, v) ← sending s !! i;
  match chanBuf s !! ch with
  | Some _ => None
  | None =>
      Some (mkCalls (messageIDGenerator s) (pendingCalls s) (abandoned s) (abandonedOrder s) (pendingPool s) (nextChan s)
              (<[ch := v]> (chanBuf s)) (delete i (sending s)) (waiting s) (abandonedResponses s) (droppedMessages s))
  end.

(** One iteration of the loop of [failPendingCalls]; the lock is held over all
    of them. *)
Definition failOne (e : error) (key : call_key) (ch : chan) (s : calls) : calls :=
  mkCalls (messageIDGenerator s) (delete key (pendingCalls s)) (abandoned s) (abandonedOrder s) (pendingPool s) (nextChan s)
    (match chanBuf s !! ch with Some _ => chanBuf s | None => <[ch := (key, GotError e)]> (chanBuf s) end)
    (sending s) (waiting s) (abandonedResponses s) (droppedMessages s).

Definition failPendingCalls (e : error) (s : calls) : calls :=
  fold_right (fun x s => failOne e x.1 x.2 s) s (map_to_list (pendingCalls s)).

(** A waiting call receives its result, recycles the channel and returns. *)
Definition receiveResult (key : call_key) (s : calls) : option (calls * (call_key * call_outcome)) :=
  ch ← waiting s !! key;
  v ← chanBuf s !! ch;
  Some (mkCalls (messageIDGenerator s) (pendingCalls s) (abandoned s) (abandonedOrder s) (ch :: pendingPool s) (nextChan s)
          (delete ch (chanBuf s)) (sending s) (delete key (waiting s)) (abandonedResponses s) (droppedMessages s), v).

(** ** Steps *)

Inductive calls_step : calls -> calls -> Prop :=
| cs_register s stream choice s' key :
    messageIDGenerator s < 2 ^ 64 - 1 -> registerPendingCall stream choice s = Some (s', key) -> calls_step s s'
| cs_unregister s key ch : waiting s !! key = Some ch -> calls_step s (unregisterPendingCall key ch s).1
| cs_abandon s key ch : waiting s !! key = Some ch -> calls_step s (abandonCall key ch s).1
| cs_route s key o : calls_step s (routeResponse key o s)
| cs_send s i s' : completeSend i s = Some s' -> calls_step s s'
| cs_fail s e : calls_step s (failPendingCalls e s)
| cs_receive s key s' v : receiveResult key s = Some (s', v) -> calls_step s s'
| cs_pool_drop s i : (* the pool may drop a channel at any time *)
    calls_step s (mkCalls (messageIDGenerator s) (pendingCalls s) (abandoned s) (abandonedOrder s) (delete i (pendingPool s))
                    (nextChan s) (chanBuf s) (sending s) (waiting s) (abandonedResponses s) (droppedMessages s)).

(** ** Invariant *)

(** A value on its way to a channel may only reach the call it is for. *)
Definition for_call (s : calls) (ch : chan) (v : call_key * call_outcome) : Prop :=
  forall key, waiting s !! key = Some ch -> key = v.1.

Record calls_inv (s : calls) : Prop := {
  ci_gen : 0 <= messageIDGenerator s < 2 ^ 64;
  ci_ids : forall key ch, waiting s !! key = Some ch -> 0 < key.2 <= messageIDGenerator s;
  ci_pending : forall key ch, pendingCalls s !! key = Some ch ->
    waiting s !! key = Some ch /\ chanBuf s !! ch = None /\ (ch ∉ map fst (sending s));
  ci_inj : forall k1 k2 ch, waiting s !! k1 = Some ch -> waiting s !! k2 = Some ch -> k1 = k2;
  ci_waiting : forall key ch, waiting s !! key = Some ch -> (ch ∉ pendingPool s) /\ (ch < nextChan s)%nat;
  ci_pool_nodup : NoDup (pendingPool s);
  ci_pool : forall ch, ch ∈ pendingPool s -> chanBuf s !! ch = None /\ (ch ∉ map fst (sending s)) /\ (ch < nextChan s)%nat;
  ci_sending : forall ch v, (ch, v) ∈ sending s -> chanBuf s !! ch = None /\ (ch < nextChan s)%nat /\ for_call s ch v;
  ci_sending_nodup : NoDup (map fst (sending s));
  ci_buf : forall ch v, chanBuf s !! ch = Some v -> (ch < nextChan s)%nat /\ for_call s ch v;
  ci_order : (length (abandonedOrder s) <= maxAbandonedCalls)%nat;
  ci_abandoned : forall key, key ∈ abandoned s -> key ∈ abandonedOrder s
}.

(** ** Lemmas *)

Lemma inv_init : calls_inv no_calls.
Proof.
  constructor; simpl; try (intros; set_solver); try (intros; simplify_map_eq; done); try lia; try constructor.
Qed.

Lemma nextMessageID_spec gen : 0 <= gen < 2 ^ 64 - 1 -> nextMessageID gen = (gen + 1, gen + 1).
Proof.
  intros H. unfold nextMessageID. rewrite u64_small by (unfold word; lia).
  destruct (Z.eqb_spec (gen + 1) 0); [lia|done].
Qed.

(** A value for [ch] stays right when the calls that wait become fewer. *)
Lemma for_call_delete s s' key ch v :
  waiting s' = delete key (waiting s) -> for_call s ch v -> for_call s' ch v.
Proof. intros E H k Hk. rewrite E in Hk. apply lookup_delete_Some in Hk as [_ Hk]. by apply H. Qed.

Lemma elem_of_sending (l : list (chan * (call_key * call_outcome))) ch v : (ch, v) ∈ l -> ch ∈ map fst l.
Proof. intros H. apply list_elem_of_fmap. by exists (ch, v). Qed.

Lemma calls_inv_register s stream choice s' key :
  calls_inv s -> messageIDGenerator s < 2 ^ 64 - 1 ->
  registerPendingCall stream choice s = Some (s', key) -> calls_inv s'.
Proof.
  intros H Hlt E. unfold registerPendingCall in E. rewrite nextMessageID_spec in E by (pose proof (ci_gen _ H); lia).
  destruct (pool_get choice s) as [[[ch pool] next]|] eqn:Ep; [|done]. simpl in E. simplify_eq.
  set (key := (stream, messageIDGenerator s + 1)).
  assert (Hfresh : waiting s !! key = None).
  { destruct (waiting s !! key) eqn:Ek; [|done]. apply (ci_ids _ H) in Ek. simpl in Ek. lia. }
  (* the channel is unused and was pooled or is new *)
  assert (Hch : chanBuf s !! ch = None /\ (ch ∉ map fst (sending s)) /\ (ch < next)%nat /\ (ch ∉ pool) /\ NoDup pool /\
    (forall c, c ∈ pool -> c ∈ pendingPool s) /\ (nextChan s <= next)%nat /\ (forall k, waiting s !! k <> Some ch)).
  { unfold pool_get in Ep. destruct choice as [i|].
    - destruct (pendingPool s !! i) as [c|] eqn:Ei; [|done]. simpl in Ep. simplify_eq.
      destruct (ci_pool _ H ch) as (H1 & H2 & H3); [by eapply list_elem_of_lookup_2|].
      pose proof (ci_pool_nodup _ H) as Hnd. rewrite (delete_Permutation _ _ _ Ei) in Hnd.
      apply list.NoDup_cons in Hnd as [Hn1 Hn2]. split_and!; try done; try lia.
      + intros c Hc. rewrite (delete_Permutation _ _ _ Ei). by right.
      + intros k Hk. apply (ci_waiting _ H) in Hk as [Hk _]. apply Hk. by eapply list_elem_of_lookup_2.
    - simplify_eq. split_and!; try done; try lia.
      + destruct (chanBuf s !! nextChan s) eqn:Eb; [|done]. apply (ci_buf _ H) in Eb as [Eb _]. lia.
      + intros Hin. apply list_elem_of_fmap in Hin as ([c v] & Ec & Hin). simpl in Ec. subst c.
        apply (ci_sending _ H) in Hin as (_ & Hin & _). lia.
      + intros Hin. apply (ci_pool _ H) in Hin as (_ & _ & Hin). lia.
      + apply (ci_pool_nodup _ H).
      + intros k Hk. apply (ci_waiting _ H) in Hk as [_ Hk]. lia. }
  destruct Hch as (Hb & Hsd & Hn & Hp & Hnd & Hsub & Hle & Hw).
  assert (Hfc : forall c v, c <> ch -> for_call s c v -> forall k, <[key := ch]> (waiting s) !! k = Some c -> k = v.1).
  { intros c v Hc Hf k Hk. apply lookup_insert_Some in Hk as [[_ ?]|[_ Hk]]; [done|]. by apply Hf. }
  pose proof (ci_gen _ H) as Hg. constructor; simpl.
  - lia.
  - intros k c [[<- _]|[_ Hk]]%lookup_insert_Some; [simpl; lia|]. apply (ci_ids _ H) in Hk. lia.
  - intros k c [[<- <-]|[Hne Hk]]%lookup_insert_Some; [by rewrite lookup_insert_eq|].
    rewrite lookup_insert_ne by done. by apply (ci_pending _ H).
  - intros k1 k2 c [[<- <-]|[Hn1 H1]]%lookup_insert_Some [[<- E2]|[Hn2 H2]]%lookup_insert_Some; try done.
    + by destruct (Hw _ H2).
    + subst c. by destruct (Hw _ H1).
    + by eapply (ci_inj _ H).
  - intros k c [[<- <-]|[_ Hk]]%lookup_insert_Some; [done|]. apply (ci_waiting _ H) in Hk as [Hk1 Hk2].
    split; [|lia]. intros Hc. by apply Hk1, Hsub.
  - done.
  - intros c Hc. destruct (ci_pool _ H c (Hsub c Hc)) as (? & ? & ?). split_and!; try done. lia.
  - intros c v Hc. destruct (ci_sending _ H c v Hc) as (? & ? & ?). split_and!; try done; [lia|].
    intros k Hk. eapply Hfc; [|done|done]. intros ->. apply Hsd. by eapply elem_of_sending.
  - apply (ci_sending_nodup _ H).
  - intros c v Hc. destruct (ci_buf _ H c v Hc) as (? & ?). split; [lia|].
    intros k Hk. eapply Hfc; [|done|done]. intros ->. congruence.
  - apply (ci_order _ H).
  - apply (ci_abandoned _ H).
Qed.

(** The table after the call [key], which waits on [ch], returned: its entry
    is gone, and the channel is pooled only if nothing can be sent to it. *)
Lemma inv_return s key ch pend ab order pool buf ar dm :
  calls_inv s -> waiting s !! key = Some ch ->
  pend = delete key (pendingCalls s) ->
  (length order <= maxAbandonedCalls)%nat -> (forall k, k ∈ ab -> k ∈ order) ->
  (pool = pendingPool s /\ buf = chanBuf s \/
   pool = ch :: pendingPool s /\ buf = delete ch (chanBuf s) /\ (ch ∉ map fst (sending s))) ->
  calls_inv (mkCalls (messageIDGenerator s) pend ab order pool (nextChan s) buf (sending s)
               (delete key (waiting s)) ar dm).
Proof.
  intros H Hw -> Ho Ha Hpool.
  assert (Hbuf : forall c v, buf !! c = Some v -> chanBuf s !! c = Some v).
  { intros c v Hc. destruct Hpool as [[_ ->]|(_ & -> & _)]; [done|]. by apply lookup_delete_Some in Hc as [_ Hc]. }
  assert (Hnone : forall c, chanBuf s !! c = None -> buf !! c = None).
  { intros c Hc. destruct (buf !! c) eqn:E; [|done]. apply Hbuf in E. congruence. }
  destruct (ci_waiting _ H _ _ Hw) as [Hnp Hlt].
  constructor; simpl; try done; try apply H.
  - intros k c [_ Hk]%lookup_delete_Some. by apply (ci_ids _ H) in Hk.
  - intros k c [Hne Hk]%lookup_delete_Some. destruct (ci_pending _ H _ _ Hk) as (H1 & H2 & H3).
    split_and!; [by rewrite lookup_delete_ne|by apply Hnone|done].
  - intros k1 k2 c [_ H1]%lookup_delete_Some [_ H2]%lookup_delete_Some. by eapply (ci_inj _ H).
  - intros k c [Hne Hk]%lookup_delete_Some. destruct (ci_waiting _ H _ _ Hk) as [H1 H2]. split; [|done].
    destruct Hpool as [[-> _]|(-> & _)]; [done|]. intros [->|Hc]%elem_of_cons; [|done].
    by apply Hne, (ci_inj _ H _ _ ch).
  - destruct Hpool as [[-> _]|(-> & _)]; [apply H|]. apply list.NoDup_cons. split; [done|apply H].
  - intros c Hc. assert (Hc' : c ∈ pendingPool s \/ c = ch /\ buf = delete ch (chanBuf s) /\ (ch ∉ map fst (sending s))).
    { destruct Hpool as [[-> _]|(-> & Hx)]; [by left|]. apply elem_of_cons in Hc as [->|Hc]; [by right|by left]. }
    destruct Hc' as [Hc'|(-> & -> & Hs)].
    + destruct (ci_pool _ H c Hc') as (? & ? & ?). split_and!; try done. by apply Hnone.
    + split_and!; try done. by rewrite lookup_delete_eq.
  - intros c v Hc. destruct (ci_sending _ H c v Hc) as (? & ? & ?). split_and!; [by apply Hnone|done|].
    by eapply for_call_delete.
  - intros c v Hc. apply Hbuf in Hc. destruct (ci_buf _ H c v Hc) as (? & ?). split; [done|]. by eapply for_call_delete.
Qed.

Lemma pending_waiting s key ch c : calls_inv s -> waiting s !! key = Some ch -> pendingCalls s !! key = Some c -> c = ch.
Proof. intros H Hw Hp. apply (ci_pending _ H) in Hp as [Hp _]. congruence. Qed.

(** The entry of a waiting call is its own or gone. *)
Lemma pending_own s key ch :
  calls_inv s -> waiting s !! key = Some ch ->
  pendingCalls s !! key = Some ch \/ (pendingCalls s !! key = None /\ delete key (pendingCalls s) = pendingCalls s).
Proof.
  intros H Hw. destruct (pendingCalls s !! key) as [c|] eqn:E.
  - left. by rewrite (pending_waiting s key ch c).
  - right. split; [done|]. by apply delete_id.
Qed.

Lemma inv_unregister s key ch :
  calls_inv s -> waiting s !! key = Some ch -> calls_inv (unregisterPendingCall key ch s).1.
Proof.
  intros H Hw. unfold unregisterPendingCall. destruct (pending_own s key ch H Hw) as [E|[E Ed]].
  - rewrite bool_decide_eq_true_2 by done. destruct (ci_pending _ H _ _ E) as (_ & Hb & Hs).
    apply (inv_return s key ch); try done; try apply H. right. split_and!; try done. by rewrite delete_id.
  - rewrite bool_decide_eq_false_2 by congruence. apply (inv_return s key ch); try done; try apply H. by left.
Qed.

Lemma inv_abandon s key ch :
  calls_inv s -> waiting s !! key = Some ch -> calls_inv (abandonCall key ch s).1.
Proof.
  intros H Hw. unfold abandonCall. destruct (pending_own s key ch H Hw) as [E|[E Ed]].
  - rewrite bool_decide_eq_true_2 by done. pose proof (ci_order _ H) as Ho. pose proof (ci_abandoned _ H) as Ha.
    assert (Hmax : (1 <= maxAbandonedCalls)%nat) by (unfold maxAbandonedCalls; lia).
    destruct (Nat.leb_spec maxAbandonedCalls (length (abandonedOrder s))) as [El|El].
    + destruct (abandonedOrder s) as [|oldest rest] eqn:Eo; [cbn [length] in El; lia|].
      apply (inv_return s key ch); try done; [rewrite length_app; cbn [length] in *; lia| |by left].
      intros k [->%elem_of_singleton|[Hk Hne]%elem_of_difference]%elem_of_union; apply elem_of_app; [right; left|].
      left. apply Ha, elem_of_cons in Hk as [->|Hk]; [|done]. by destruct Hne; apply elem_of_singleton.
    + apply (inv_return s key ch); try done; [rewrite length_app; cbn [length] in *; lia| |by left].
      intros k [->%elem_of_singleton|Hk]%elem_of_union; apply elem_of_app; [right; left|left; by apply Ha].
  - rewrite bool_decide_eq_false_2 by congruence. apply (inv_return s key ch); try done; try apply H. by left.
Qed.

Lemma inv_receive s key s' v : calls_inv s -> receiveResult key s = Some (s', v) -> calls_inv s'.
Proof.
  intros H E. unfold receiveResult in E. destruct (waiting s !! key) as [ch|] eqn:Hw; [|done]. simpl in E.
  destruct (chanBuf s !! ch) as [v'|] eqn:Eb; [|done]. simpl in E. simplify_eq.
  apply (inv_return s key ch); try done; try apply H.
  - destruct (pending_own s key ch H Hw) as [E|[_ ->]]; [|done].
    apply (ci_pending _ H) in E as (_ & E & _). congruence.
  - right. split_and!; try done. intros Hin. apply list_elem_of_fmap in Hin as ([c u] & Ec & Hin). simpl in Ec. subst c.
    apply (ci_sending _ H) in Hin as (Hin & _). congruence.
Qed.

(** Taking the entry of [key] out of the table, its value going to [ch] either
    at once or as a pending send. *)
Lemma calls_inv_take s key ch v buf snd' :
  calls_inv s -> pendingCalls s !! key = Some ch -> v.1 = key ->
  (buf = <[ch := v]> (chanBuf s) /\ snd' = sending s \/ buf = chanBuf s /\ snd' = (ch, v) :: sending s) ->
  calls_inv (mkCalls (messageIDGenerator s) (delete key (pendingCalls s)) (abandoned s) (abandonedOrder s) (pendingPool s)
               (nextChan s) buf snd' (waiting s) (abandonedResponses s) (droppedMessages s)).
Proof.
  intros H Hp Hv Hcase. destruct (ci_pending _ H _ _ Hp) as (Hw & Hb & Hs). destruct (ci_waiting _ H _ _ Hw) as [Hnp Hlt].
  assert (Hfc : for_call s ch v) by (intros k Hk; rewrite Hv; by apply (ci_inj _ H _ _ ch)).
  assert (Hbuf : forall c, c <> ch -> chanBuf s !! c = None -> buf !! c = None).
  { intros c Hne Hc. destruct Hcase as [[-> _]|[-> _]]; [by rewrite lookup_insert_ne|done]. }
  assert (Hsnd : forall c, c <> ch -> c ∉ map fst (sending s) -> c ∉ map fst snd').
  { intros c Hne Hc. destruct Hcase as [[_ ->]|[_ ->]]; [done|]. simpl. apply not_elem_of_cons. done. }
  constructor; simpl; try apply H.
  - intros k c [Hne Hk]%lookup_delete_Some. destruct (ci_pending _ H _ _ Hk) as (H1 & H2 & H3).
    assert (c <> ch) by (intros ->; by apply Hne, (ci_inj _ H _ _ ch)). split_and!; [done|by apply Hbuf|by apply Hsnd].
  - intros c Hc. destruct (ci_pool _ H c Hc) as (? & ? & ?). assert (c <> ch) by (intros ->; done).
    split_and!; [by apply Hbuf|by apply Hsnd|done].
  - intros c u Hc. destruct Hcase as [[-> ->]|[-> ->]].
    + destruct (ci_sending _ H c u Hc) as (? & ? & ?). split_and!; try done.
      rewrite lookup_insert_ne; [done|]. intros ->. apply Hs. by eapply elem_of_sending.
    + apply elem_of_cons in Hc as [E|Hc]; [simplify_eq; done|]. by apply (ci_sending _ H).
  - destruct Hcase as [[_ ->]|[_ ->]]; [apply H|]. simpl. apply list.NoDup_cons. split; [done|apply H].
  - intros c u Hc. destruct Hcase as [[-> ->]|[-> ->]]; [|by apply (ci_buf _ H)].
    apply lookup_insert_Some in Hc as [[<- <-]|[_ Hc]]; [done|]. by apply (ci_buf _ H).
Qed.

Lemma inv_route s key o : calls_inv s -> calls_inv (routeResponse key o s).
Proof.
  intros H. unfold routeResponse. destruct (pendingCalls s !! key) as [ch|] eqn:E.
  - eapply (calls_inv_take s key ch (key, o)); try done. by right.
  - case_bool_decide; destruct H; constructor; try done. simpl. intros k [Hk _]%elem_of_difference. by apply ci_abandoned0.
Qed.

Lemma inv_send s i s' : calls_inv s -> completeSend i s = Some s' -> calls_inv s'.
Proof.
  intros H E. unfold completeSend in E. destruct (sending s !! i) as [[ch v]|] eqn:Ei; [|done]. simpl in E.
  destruct (chanBuf s !! ch) eqn:Eb; [done|]. simplify_eq.
  assert (Hin : (ch, v) ∈ sending s) by (by eapply list_elem_of_lookup_2).
  destruct (ci_sending _ H _ _ Hin) as (_ & Hlt & Hfc).
  pose proof (delete_Permutation _ _ _ Ei) as Hperm. pose proof (ci_sending_nodup _ H) as Hnd.
  rewrite Hperm in Hnd. simpl in Hnd. apply list.NoDup_cons in Hnd as [Hn1 Hn2].
  assert (Hsub : forall c, c ∉ map fst (sending s) -> (c ∉ map fst (delete i (sending s))) /\ c <> ch).
  { intros c Hc. rewrite Hperm in Hc. simpl in Hc. by apply not_elem_of_cons in Hc as [? ?]. }
  assert (Hnb : forall c, c ∉ map fst (sending s) -> chanBuf s !! c = None -> <[ch := v]> (chanBuf s) !! c = None).
  { intros c Hc Hx. destruct (Hsub c Hc) as [_ Hne]. by rewrite lookup_insert_ne. }
  constructor; simpl; try apply H; try done.
  - intros k c Hk. destruct (ci_pending _ H _ _ Hk) as (H1 & H2 & H3). split_and!; [done|by apply Hnb|by apply Hsub].
  - intros c Hc. destruct (ci_pool _ H c Hc) as (H1 & H2 & H3). split_and!; [by apply Hnb|by apply Hsub|done].
  - intros c u Hc. assert (Hc' : (c, u) ∈ sending s) by (rewrite Hperm; by right).
    destruct (ci_sending _ H c u Hc') as (? & ? & ?). split_and!; try done. rewrite lookup_insert_ne; [done|].
    intros ->. apply Hn1. by eapply elem_of_sending.
  - intros c u [[<- <-]|[_ Hc]]%lookup_insert_Some; [done|]. by apply (ci_buf _ H).
Qed.

Lemma fail_fold e l : forall s,
  calls_inv s -> NoDup (map fst l) -> (forall k c, (k, c) ∈ l -> pendingCalls s !! k = Some c) ->
  let s' := fold_right (fun x s => failOne e x.1 x.2 s) s l in
  calls_inv s' /\ forall k, k ∉ map fst l -> pendingCalls s' !! k = pendingCalls s !! k.
Proof.
  induction l as [|[k c] l IH]; intros s H Hnd Hall; simpl; [done|]. simpl in Hnd. apply list.NoDup_cons in Hnd as [Hk Hnd].
  destruct (IH s H Hnd) as [H1 H2]; [intros; apply Hall; by right|].
  set (s1 := fold_right _ s l) in *.
  assert (Hp : pendingCalls s1 !! k = Some c) by (rewrite H2 by done; apply Hall; left).
  split.
  - unfold failOne. destruct (ci_pending _ H1 _ _ Hp) as (_ & -> & _).
    eapply (calls_inv_take s1 k c (k, GotError e)); try done. by left.
  - intros k' Hk'. apply not_elem_of_cons in Hk' as [Hne Hk']. simpl. rewrite lookup_delete_ne by done. by apply H2.
Qed.

Lemma inv_fail s e : calls_inv s -> calls_inv (failPendingCalls e s).
Proof.
  intros H. unfold failPendingCalls. apply (fail_fold e (map_to_list (pendingCalls s)) s H).
  - apply NoDup_fst_map_to_list.
  - intros k c Hk. by apply elem_of_map_to_list.
Qed.

Lemma calls_inv_step s s' : calls_inv s -> calls_step s s' -> calls_inv s'.
Proof.
  intros H Hst. destruct Hst; eauto using calls_inv_register, inv_unregister, inv_abandon, inv_route, inv_send, inv_fail, inv_receive.
  destruct H. constructor; try done; simpl.
  - intros key ch Hw. destruct (ci_waiting0 _ _ Hw). split; [|done]. intros Hd%list_elem_of_delete_inv. done.
  - apply (sublist_NoDup _ (pendingPool s)); [done|]. apply sublist_delete.
  - intros ch Hd. apply ci_pool0. by eapply list_elem_of_delete_inv.
Qed.

Lemma calls_reachable s : rtc calls_step no_calls s -> calls_inv s.
Proof.
  intros H. assert (G : forall a b, rtc calls_step a b -> calls_inv a -> calls_inv b).
  { clear. induction 1; eauto using calls_inv_step. }
  eapply G; [exact H|apply inv_init].
Qed.

(** ** Properties *)

(** C15. Responses find their calls. In every reachable state, however calls,
    responses, cancellations and failures interleave: a send to a call's
    channel never finds it full, so the receive path never blocks on it; a
    channel in the pool is empty, registered for no call and awaits no send,
    so recycling it is safe; a waiting call finds in its channel only a
    result routed for itself, never one meant for an earlier user of the
    channel; and at most 4096 abandoned calls are remembered. *)
Theorem responses_reach_their_calls (s : calls) (Hs : rtc calls_step no_calls s) :
  (forall i, (i < length (sending s))%nat -> exists s', completeSend i s = Some s') /\
  (forall ch, ch ∈ pendingPool s -> chanBuf s !! ch = None /\ (forall v, (ch, v) ∉ sending s) /\
     forall key, pendingCalls s !! key <> Some ch) /\
  (forall key s' v, receiveResult key s = Some (s', v) -> v.1 = key) /\
  (length (abandonedOrder s) <= maxAbandonedCalls)%nat /\ (size (abandoned s) <= maxAbandonedCalls)%nat.
Proof.
  apply calls_reachable in Hs as H. split_and!.
  - intros i Hi. destruct (lookup_lt_is_Some_2 _ _ Hi) as [[ch v] Ei]. unfold completeSend. rewrite Ei. simpl.
    destruct (ci_sending _ H ch v) as [-> _]; [by eapply list_elem_of_lookup_2|]. by eexists.
  - intros ch Hch. destruct (ci_pool _ H ch Hch) as (H1 & H2 & _). split_and!; [done| |].
    + intros v Hv. apply H2. by eapply elem_of_sending.
    + intros key Hk. apply (ci_pending _ H) in Hk as (Hk & _). by apply (ci_waiting _ H) in Hk as [Hk _].
  - intros key s' v E. unfold receiveResult in E. destruct (waiting s !! key) as [ch|] eqn:Hw; [|done]. simpl in E.
    destruct (chanBuf s !! ch) as [v'|] eqn:Eb; [|done]. simpl in E. simplify_eq.
    destruct (ci_buf _ H _ _ Eb) as [_ Hf]. symmetry. by apply Hf.
  - apply (ci_order _ H).
  - etrans; [|apply (ci_order _ H)]. unfold size, set_size. simpl. apply submseteq_length, NoDup_submseteq.
    + apply NoDup_elements.
    + intros k Hk%elem_of_elements. by apply (ci_abandoned _ H).
Qed.

(** A call that is answered: registered, response routed, sent. *)
Definition answered : calls :=
  let s := match registerPendingCall 0 None no_calls with Some (s, _) => s | None => no_calls end in
  match completeSend 0 (routeResponse (0, 1) (GotResponse [7]) s) with Some s => s | None => no_calls end.

Lemma responses_reach_their_calls_witness :
  rtc calls_step no_calls answered /\ exists s' v, receiveResult (0, 1) answered = Some (s', v) /\ v.1 = (0, 1).
Proof.
  assert (H : rtc calls_step no_calls answered).
  { eapply rtc_l; [eapply (cs_register no_calls 0 None); [vm_compute; reflexivity|reflexivity]|].
    eapply rtc_l; [apply (cs_route _ (0, 1) (GotResponse [7]))|].
    eapply rtc_l; [apply (cs_send _ 0); reflexivity|]. apply rtc_refl. }
  split; [exact H|]. destruct (receiveResult (0, 1) answered) as [[s' v]|] eqn:E; [|vm_compute in E; discriminate].
  exists s', v. split; [reflexivity|].
  destruct (responses_reach_their_calls answered H) as (_ & _ & Hr & _). apply (Hr _ _ _ E).
Defined.
