(* ===== verification/Streams.v ===== *)
(** * Streams: opening and accepting logical streams

    Models the control part of advanced_stream.go and advanced_control.go:
    stream requests that arrive ([handleConnCreate]) or are held until
    [ListenStreams], the bounded queue of control replies and the goroutine
    that sends them ([runControlJob]), and [AcceptStream]. A step is one
    critical section of [controlMu] or one channel operation; in particular
    [handleConnCreate] registers the stream in one step and reserves the
    accept slot in a later one. *)
From stdpp Require Import gmap.
From S2P Require Import Prelude Errors Protocol Superblock.

Definition minControlQueue : Z := 16.

Inductive OverflowPolicy := OverflowBlock | OverflowDrop | OverflowFail.

(** [controlJob]: the packet, and for an accept the stream it announces. *)
Inductive controlKind := controlReply | controlRefusedRequest | controlAccept (stream : Z).
Record controlJob := mkJob { j_packet : Packet; j_kind : controlKind }.

Record control := mkCtl {
  c_mode : LinkMode;
  overflow : OverflowPolicy;
  queueSize : Z;                   (* capacity of acceptCh and of acceptSlots *)
  ctrlCap : Z;                     (* capacity of the control queue *)
  grace : Z;                       (* streamListenGrace *)
  closing : bool;                  (* lifeCtx is canceled *)
  listening : bool;
  held : list Z;                   (* connection IDs of the held requests *)
  streams : gset Z;
  pendingConnections : gset Z;
  acceptSlots : Z;
  acceptCh : list Z;
  ctrlQueue : list controlJob;
  running : option controlJob;     (* the job the control sender is sending *)
  creating : option Z;             (* the create the receive path has registered and not answered *)
  accepting : Z;                   (* AcceptStream calls between the receive and releaseAcceptSlot *)
  c_dropped : Z;                   (* droppedMessages *)
  c_responses : Z
}.

(** *** Field updates *)

Definition set_queues (slots : Z) (ch : list Z) (q : list controlJob) (dropped : Z) (s : control) : control :=
  mkCtl (c_mode s) (overflow s) (queueSize s) (ctrlCap s) (grace s) (closing s) (listening s) (held s) (streams s)
    (pendingConnections s) slots ch q (running s) (creating s) (accepting s) dropped (c_responses s).

Definition set_streams (st pend : gset Z) (s : control) : control :=
  mkCtl (c_mode s) (overflow s) (queueSize s) (ctrlCap s) (grace s) (closing s) (listening s) (held s) st pend
    (acceptSlots s) (acceptCh s) (ctrlQueue s) (running s) (creating s) (accepting s) (c_dropped s) (c_responses s).

Definition set_listen (l : bool) (hd : list Z) (s : control) : control :=
  mkCtl (c_mode s) (overflow s) (queueSize s) (ctrlCap s) (grace s) (closing s) l hd (streams s)
    (pendingConnections s) (acceptSlots s) (acceptCh s) (ctrlQueue s) (running s) (creating s) (accepting s)
    (c_dropped s) (c_responses s).

Definition set_progress (r : option controlJob) (c : option Z) (a : Z) (resp : Z) (s : control) : control :=
  mkCtl (c_mode s) (overflow s) (queueSize s) (ctrlCap s) (grace s) (closing s) (listening s) (held s) (streams s)
    (pendingConnections s) (acceptSlots s) (acceptCh s) (ctrlQueue s) r c a (c_dropped s) resp.

Definition set_closing (s : control) : control :=
  mkCtl (c_mode s) (overflow s) (queueSize s) (ctrlCap s) (grace s) true (listening s) (held s) (streams s)
    (pendingConnections s) (acceptSlots s) (acceptCh s) (ctrlQueue s) (running s) (creating s) (accepting s)
    (c_dropped s) (c_responses s).

Definition drop_one (s : control) : control :=
  set_queues (acceptSlots s) (acceptCh s) (ctrlQueue s) (c_dropped s + 1) s.

(** ** Connection IDs *)

(** [nextConnectionID]: the ID and the counter; the loop runs at most twice,
    [None] is the third iteration. *)
Definition nextConnectionID (mode : LinkMode) (gen : Z) : option (Z * Z) :=
  let n := u64 (gen + 1) in
  match mode with
  | LinkModePrimary =>
      let id := u64 (Z.shiftl n 1) in
      if negb (id =? 0) then Some (id, n)
      else
        let n := u64 (n + 1) in
        let id := u64 (Z.shiftl n 1) in
        if negb (id =? 0) then Some (id, n) else None
  | LinkModeSecondary => Some (u64 (Z.shiftl n 1 - 1), n)
  end.

Definition peerOwnsConnectionID (mode : LinkMode) (connID : Z) : bool :=
  if connID =? 0 then false
  else Bool.eqb (Z.land connID 1 =? 1) (bool_decide (mode = LinkModePrimary)).

(** ** Control replies *)

(** [controlQueue]/[enqueueControl]: never blocks. *)
Definition enqueueControl (job : controlJob) (s : control) : control * bool :=
  if negb (closing s) && (Z.of_nat (length (ctrlQueue s)) <? ctrlCap s)
  then (set_queues (acceptSlots s) (acceptCh s) (ctrlQueue s ++ [job]) (c_dropped s) s, true)
  else (s, false).

Definition refuseStream (connID code : Z) (s : control) : control :=
  let (s, ok) := enqueueControl (mkJob (NewPacket OpError [connID; code]) controlReply) s in
  if ok then s else drop_one s.

Definition releaseAcceptSlot (s : control) : control :=
  if 0 <? acceptSlots s then set_queues (acceptSlots s - 1) (acceptCh s) (ctrlQueue s) (c_dropped s) s else s.

Definition forgetConnection (connID : Z) (s : control) : control :=
  set_streams (streams s ∖ {[ connID ]}) (pendingConnections s) s.

Definition accept_job (connID : Z) : controlJob := mkJob (NewPacket OpConnAccept [connID]) (controlAccept connID).

(** The common end of [handleConnCreate] and [admitCreateLocked]: the accept
    is queued, or the stream is forgotten again. The slot is already taken. *)
Definition queueAccept (connID : Z) (s : control) : control :=
  let (s, ok) := enqueueControl (accept_job connID) s in
  if ok then s else drop_one (releaseAcceptSlot (forgetConnection connID s)).

Definition takeSlot (s : control) : control :=
  set_queues (acceptSlots s + 1) (acceptCh s) (ctrlQueue s) (c_dropped s) s.

(** ** Stream requests *)

Definition holdCreateLocked (connID : Z) (s : control) : control * bool :=
  if (grace s <? 0) || closing s || (queueSize s <=? Z.of_nat (length (held s)) + acceptSlots s) then (s, false)
  else (set_listen (listening s) (held s ++ [connID]) s, true).

(** [handleConnCreate] under [controlMu]. *)
Definition handleConnCreate (connID : Z) (s : control) : control :=
  if negb (listening s) then
    let (s, ok) := holdCreateLocked connID s in
    if ok then s else refuseStream connID ErrCodeConnNotFound s
  else if bool_decide (connID ∈ streams s) || negb (peerOwnsConnectionID (c_mode s) connID)
  then refuseStream connID ErrCodeInvalidOp s
  else set_progress (running s) (Some connID) (accepting s) (c_responses s)
         (set_streams ({[ connID ]} ∪ streams s) (pendingConnections s) s).

(** The rest of it: reserve a slot and queue the accept. [ctx_err] ends the
    wait of [OverflowBlock]; [None] as a whole: it still waits. *)
Definition finishConnCreate (ctx_err : option error) (connID : Z) (s : control) : option (control * option error) :=
  let s := set_progress (running s) None (accepting s) (c_responses s) s in
  if acceptSlots s <? queueSize s then Some (queueAccept connID (takeSlot s), None)
  else
    match overflow s with
    | OverflowDrop => Some (refuseStream connID ErrCodeBufferOverflow (drop_one (forgetConnection connID s)), None)
    | OverflowFail => Some (forgetConnection connID s, Some ErrIncomingOverflow)
    | OverflowBlock => match ctx_err with Some e => Some (forgetConnection connID s, Some e) | None => None end
    end.

(** What became of a held request. *)
Inductive admission := Accepted | NotAllowed | NoSlot.

Definition admitCreateLocked (connID : Z) (s : control) : control * admission :=
  if bool_decide (connID ∈ streams s) || negb (peerOwnsConnectionID (c_mode s) connID)
  then (refuseStream connID ErrCodeInvalidOp s, NotAllowed)
  else if acceptSlots s <? queueSize s then
    (queueAccept connID (set_streams ({[ connID ]} ∪ streams s) (pendingConnections s) (takeSlot s)), Accepted)
  else (refuseStream connID ErrCodeBufferOverflow (drop_one s), NoSlot).

Fixpoint admit_all (l : list Z) (s : control) : control * list admission :=
  match l with
  | [] => (s, [])
  | connID :: rest =>
      let (s1, a) := admitCreateLocked connID s in
      let (s2, os) := admit_all rest s1 in (s2, a :: os)
  end.

(** The critical section of [ListenStreams]. *)
Definition ListenStreams (s : control) : control * result error (list admission) :=
  if listening s then (s, Err ErrAlreadyListening)
  else let (s', os) := admit_all (held s) (set_listen true [] s) in (s', Ok os).

Definition expireHeld (i : nat) (s : control) : control :=
  match held s !! i with
  | Some connID => refuseStream connID ErrCodeConnNotFound (set_listen (listening s) (delete i (held s)) s)
  | None => s
  end.

Definition releaseHeld (refuse : bool) (s : control) : control :=
  let s' := foldl (fun s connID => if refuse then refuseStream connID ErrCodeConnNotFound s else drop_one s) s (held s) in
  set_listen (listening s') [] s'.

(** ** The control sender and AcceptStream *)

Definition takeJob (s : control) : option control :=
  match ctrlQueue s, running s with
  | job :: rest, None =>
      Some (set_progress (Some job) (creating s) (accepting s) (c_responses s)
              (set_queues (acceptSlots s) (acceptCh s) rest (c_dropped s) s))
  | _, _ => None
  end.

(** The end of [runControlJob]; [err] is the result of the send. [None]: the
    send on [acceptCh] blocks. *)
Definition runControlJob (err : option error) (s : control) : option control :=
  job ← running s;
  let done resp s := set_progress None (creating s) (accepting s) resp s in
  match j_kind job with
  | controlReply => Some (done (c_responses s) s)
  | controlRefusedRequest => Some (done (match err with None => c_responses s + 1 | Some _ => c_responses s end) s)
  | controlAccept connID =>
      match err with
      | Some _ => Some (done (c_responses s) (releaseAcceptSlot (forgetConnection (Operand (j_packet job) 0) s)))
      | None =>
          if Z.of_nat (length (acceptCh s)) <? queueSize s
          then Some (done (c_responses s) (set_queues (acceptSlots s) (acceptCh s ++ [connID]) (ctrlQueue s) (c_dropped s) s))
          else None
      end
  end.

(** [AcceptStream]: receive the stream, then give the slot back. *)
Definition acceptReceive (s : control) : option (control * Z) :=
  match acceptCh s with
  | st :: rest =>
      Some (set_progress (running s) (creating s) (accepting s + 1) (c_responses s)
              (set_queues (acceptSlots s) rest (ctrlQueue s) (c_dropped s) s), st)
  | [] => None
  end.

Definition acceptRelease (s : control) : option control :=
  if 0 <? accepting s
  then Some (set_progress (running s) (creating s) (accepting s - 1) (c_responses s) (releaseAcceptSlot s))
  else None.

(** ** The streams this endpoint opens *)

Definition openStream (connID : Z) (s : control) : control :=
  set_streams ({[ connID ]} ∪ streams s) ({[ connID ]} ∪ pendingConnections s) s.

Definition openCleanup (connID : Z) (s : control) : control :=
  set_streams (streams s ∖ {[ connID ]}) (pendingConnections s ∖ {[ connID ]}) s.

Definition handleConnAccept (connID : Z) (s : control) : control :=
  set_streams (streams s) (pendingConnections s ∖ {[ connID ]}) s.

Definition routeControlError (connID : Z) (s : control) : control * bool :=
  if bool_decide (connID ∈ pendingConnections s)
  then (set_streams (streams s ∖ {[ connID ]}) (pendingConnections s ∖ {[ connID ]}) s, true)
  else (s, false).

Definition handlePeerClose (connID : Z) (s : control) : control * bool :=
  if bool_decide (connID ∈ streams s) && negb (bool_decide (connID ∈ pendingConnections s))
  then (set_streams (streams s ∖ {[ connID ]}) (pendingConnections s) s, true)
  else (s, false).

Definition failPendingConnections (s : control) : control :=
  set_streams (streams s ∖ pendingConnections s) ∅ s.

(** ** Steps *)

Inductive ctl_step : control -> control -> Prop :=
| ct_create s connID : creating s = None -> ctl_step s (handleConnCreate connID s)
| ct_finish s e connID s' r : creating s = Some connID -> finishConnCreate e connID s = Some (s', r) -> ctl_step s s'
| ct_listen s : ctl_step s (ListenStreams s).1
| ct_unlisten s : ctl_step s (set_listen false (held s) s)
| ct_expire s i : ctl_step s (expireHeld i s)
| ct_release s b : ctl_step s (releaseHeld b s)
| ct_reply s code connID : ctl_step s (refuseStream connID code s)
| ct_refuse_request s p : ctl_step s (enqueueControl (mkJob p controlRefusedRequest) s).1
| ct_take s s' : takeJob s = Some s' -> ctl_step s s'
| ct_run s err s' : runControlJob err s = Some s' -> ctl_step s s'
| ct_accept s s' st : acceptReceive s = Some (s', st) -> ctl_step s s'
| ct_accepted s s' : acceptRelease s = Some s' -> ctl_step s s'
| ct_open s connID : ctl_step s (openStream connID s)
| ct_cleanup s connID : ctl_step s (openCleanup connID s)
| ct_conn_accept s connID : ctl_step s (handleConnAccept connID s)
| ct_conn_error s connID : ctl_step s (routeControlError connID s).1
| ct_peer_close s connID : ctl_step s (handlePeerClose connID s).1
| ct_fail s : ctl_step s (failPendingConnections s)
| ct_clear s : ctl_step s (set_streams ∅ (pendingConnections s) s)
| ct_forget s connID : ctl_step s (forgetConnection connID s)
| ct_close s : ctl_step s (set_closing s).

Definition new_control (mode : LinkMode) (ov : OverflowPolicy) (qsize bufferCount grc : Z) : control :=
  mkCtl mode ov qsize (Z.max bufferCount minControlQueue) grc false false [] ∅ ∅ 0 [] [] None None 0 0 0.

(** ** Invariant *)

Definition is_accept (j : controlJob) : bool := match j_kind j with controlAccept _ => true | _ => false end.

Definition accept_count (l : list controlJob) : Z := countb is_accept l.

(** Accepts that are queued or being sent. *)
Definition accepts (s : control) : Z := accept_count (ctrlQueue s) + accept_count (option_list (running s)).

(** Every slot taken belongs to an accept on its way, a stream in the accept
    queue or an [AcceptStream] call about to give it back; [d] slots are taken
    and not yet accounted for. *)
Record ctl_inv_plus (d : Z) (s : control) : Prop := {
  ct_slots : acceptSlots s = accepts s + Z.of_nat (length (acceptCh s)) + accepting s + d;
  ct_accepting : 0 <= accepting s;
  ct_bound : Z.of_nat (length (held s)) + acceptSlots s <= queueSize s;
  ct_held : held s <> [] -> listening s = false /\ creating s = None;
  ct_ctrl : Z.of_nat (length (ctrlQueue s)) <= ctrlCap s
}.

Definition ctl_inv (s : control) : Prop := ctl_inv_plus 0 s.

Lemma accept_count_app l1 l2 : accept_count (l1 ++ l2) = accept_count l1 + accept_count l2.
Proof. apply countb_app. Qed.

Lemma accept_count_cons j l : accept_count (j :: l) = (if is_accept j then 1 else 0) + accept_count l.
Proof. apply countb_cons. Qed.

Lemma accept_count_nonneg l : 0 <= accept_count l.
Proof. apply countb_nonneg. Qed.

Lemma accepts_nonneg s : 0 <= accepts s.
Proof. unfold accepts. pose proof (accept_count_nonneg (ctrlQueue s)). pose proof (accept_count_nonneg (option_list (running s))). lia. Qed.

(** Queueing a job. *)
Lemma enqueueControl_inv d job s s' ok :
  ctl_inv_plus d s -> enqueueControl job s = (s', ok) ->
  ctl_inv_plus (d - if ok && is_accept job then 1 else 0) s' /\ held s' = held s /\ listening s' = listening s /\
  creating s' = creating s /\ acceptSlots s' = acceptSlots s /\ queueSize s' = queueSize s /\ (ok = false -> s' = s).
Proof.
  intros H E. unfold enqueueControl in E. destruct (negb (closing s) && _) eqn:Ec; simplify_eq; simpl.
  - breflect. split_and!; try done. destruct H. constructor; try done; simpl.
    + unfold accepts in *. simpl. rewrite accept_count_app, accept_count_cons. change (accept_count []) with 0. destruct (is_accept job); lia.
    + rewrite length_app. simpl. lia.
  - split_and!; try done. by rewrite Z.sub_0_r.
Qed.

Lemma drop_one_inv d s : ctl_inv_plus d s -> ctl_inv_plus d (drop_one s).
Proof. intros []. by constructor. Qed.

Lemma set_streams_inv d st pend s : ctl_inv_plus d s -> ctl_inv_plus d (set_streams st pend s).
Proof. intros []. by constructor. Qed.

Lemma refuseStream_inv d connID code s :
  ctl_inv_plus d s -> ctl_inv_plus d (refuseStream connID code s) /\ held (refuseStream connID code s) = held s /\
  listening (refuseStream connID code s) = listening s /\ creating (refuseStream connID code s) = creating s /\
  acceptSlots (refuseStream connID code s) = acceptSlots s /\ queueSize (refuseStream connID code s) = queueSize s.
Proof.
  intros H. unfold refuseStream. destruct (enqueueControl _ s) as [s' ok] eqn:E.
  destruct (enqueueControl_inv d _ s s' ok H E) as (H1 & H2 & H3 & H4 & H5 & H6 & _). simpl in H1.
  rewrite andb_false_r, Z.sub_0_r in H1. destruct ok; split_and!; try done. by apply drop_one_inv.
Qed.

Lemma releaseAcceptSlot_inv d s : 0 <= d -> ctl_inv_plus (d + 1) s -> ctl_inv_plus d (releaseAcceptSlot s).
Proof.
  intros Hd H. unfold releaseAcceptSlot. pose proof (accepts_nonneg s). destruct H.
  destruct (Z.ltb_spec 0 (acceptSlots s)); [|lia]. constructor; try done; simpl; unfold accepts in *; simpl; lia.
Qed.

(** Queueing the accept of a stream that holds an unaccounted slot. *)
Lemma queueAccept_inv connID s : ctl_inv_plus 1 s -> ctl_inv (queueAccept connID s).
Proof.
  intros H. unfold queueAccept. destruct (enqueueControl _ s) as [s' ok] eqn:E.
  destruct (enqueueControl_inv 1 _ s s' ok H E) as (H1 & _). destruct ok; simpl in H1; [exact H1|].
  apply drop_one_inv, releaseAcceptSlot_inv; [lia|]. by apply set_streams_inv.
Qed.

Lemma queueAccept_fields connID s :
  held (queueAccept connID s) = held s /\ listening (queueAccept connID s) = listening s /\
  creating (queueAccept connID s) = creating s /\ queueSize (queueAccept connID s) = queueSize s /\
  acceptSlots (queueAccept connID s) <= Z.max 0 (acceptSlots s).
Proof.
  unfold queueAccept, enqueueControl. destruct (negb (closing s) && _); simpl; [split_and!; try done; lia|].
  unfold releaseAcceptSlot, forgetConnection, drop_one. simpl. destruct (0 <? acceptSlots s) eqn:?; breflect; simpl; split_and!; try done; lia.
Qed.

Lemma takeSlot_inv s :
  ctl_inv s -> Z.of_nat (length (held s)) + acceptSlots s < queueSize s -> ctl_inv_plus 1 (takeSlot s).
Proof. intros [] Hlt. constructor; try done; simpl; unfold accepts in *; simpl; lia. Qed.

(** Admitting the held requests: every one finds a slot. *)
Lemma admit_all_inv l : forall s,
  ctl_inv s -> held s = [] -> Z.of_nat (length l) + acceptSlots s <= queueSize s ->
  let (s', os) := admit_all l s in
  ctl_inv s' /\ held s' = [] /\ length os = length l /\ NoSlot ∉ os.
Proof.
  induction l as [|connID l IH]; intros s H Hh Hl; simpl; [split_and!; try done; apply not_elem_of_nil|].
  simpl in Hl. unfold admitCreateLocked at 1.
  destruct (_ || _).
  - destruct (refuseStream_inv 0 connID ErrCodeInvalidOp s H) as (H1 & H2 & H3 & H4 & H5 & H6).
    specialize (IH (refuseStream connID ErrCodeInvalidOp s) H1). destruct (admit_all l _) as [s2 os].
    destruct IH as (I1 & I2 & I3 & I4); [congruence|rewrite H5, H6; lia|]. split_and!; try done; [simpl; lia|].
    apply not_elem_of_cons. done.
  - destruct (Z.ltb_spec (acceptSlots s) (queueSize s)) as [Hlt|]; [|lia].
    set (s1 := set_streams _ _ (takeSlot s)).
    assert (H1 : ctl_inv_plus 1 s1).
    { apply set_streams_inv, takeSlot_inv; [done|]. rewrite Hh. simpl. lia. }
    destruct (queueAccept_fields connID s1) as (F1 & F2 & F3 & F4 & F5).
    pose proof (accepts_nonneg s) as Hn. pose proof (ct_slots _ _ H) as Hs. pose proof (ct_accepting _ _ H) as Ha.
    specialize (IH (queueAccept connID s1) (queueAccept_inv connID s1 H1)). destruct (admit_all l _) as [s2 os].
    destruct IH as (I1 & I2 & I3 & I4); [by rewrite F1|rewrite F4; simpl in F5 |- *; lia|].
    split_and!; try done; [simpl; lia|]. by apply not_elem_of_cons.
Qed.

Lemma inv_create connID s : ctl_inv s -> creating s = None -> ctl_inv (handleConnCreate connID s).
Proof.
  intros H Hc. unfold handleConnCreate. destruct (listening s) eqn:El; simpl.
  - destruct (_ || _); [by apply refuseStream_inv|]. destruct H. constructor; try done. simpl.
    intros Hh. destruct (ct_held0 Hh). congruence.
  - unfold holdCreateLocked. destruct (_ || _) eqn:Eh; [by apply refuseStream_inv|]. breflect. destruct H.
    constructor; try done; simpl. rewrite length_app. simpl. lia.
Qed.

Lemma held_empty_creating s connID : ctl_inv s -> creating s = Some connID -> held s = [].
Proof.
  intros H Hc. destruct (held s) as [|x l] eqn:E; [done|]. destruct (ct_held _ _ H) as [_ Hx]; [by rewrite E|]. congruence.
Qed.

Lemma inv_finish e connID s s' r :
  ctl_inv s -> creating s = Some connID -> finishConnCreate e connID s = Some (s', r) -> ctl_inv s'.
Proof.
  intros H Hc E. pose proof (held_empty_creating s connID H Hc) as Hh.
  set (s0 := set_progress (running s) None (accepting s) (c_responses s) s).
  assert (H0 : ctl_inv s0) by (destruct H; by constructor).
  unfold finishConnCreate in E. fold s0 in E.
  destruct (Z.ltb_spec (acceptSlots s0) (queueSize s0)) as [Hlt|].
  - simplify_eq. apply queueAccept_inv, takeSlot_inv; [done|]. simpl in *. rewrite Hh. simpl. lia.
  - destruct (overflow s0).
    + destruct e; simplify_eq. by apply set_streams_inv.
    + simplify_eq. by apply refuseStream_inv, drop_one_inv, set_streams_inv.
    + simplify_eq. by apply set_streams_inv.
Qed.

Lemma inv_listen s : ctl_inv s -> ctl_inv (ListenStreams s).1.
Proof.
  intros H. unfold ListenStreams. destruct (listening s) eqn:El; [done|].
  pose proof (admit_all_inv (held s) (set_listen true [] s)) as Ha.
  destruct (admit_all (held s) (set_listen true [] s)) as [s' os]. apply Ha; [|done|by apply (ct_bound _ _ H)].
  destruct H. constructor; try done; simpl in *. lia.
Qed.

Lemma inv_set_held s l hd : ctl_inv s -> (length hd <= length (held s))%nat -> (hd <> [] -> l = false /\ creating s = None) ->
  ctl_inv (set_listen l hd s).
Proof. intros [] Hl Hx. constructor; try done; simpl in *; lia. Qed.

Lemma inv_expire i s : ctl_inv s -> ctl_inv (expireHeld i s).
Proof.
  intros H. unfold expireHeld. destruct (held s !! i) as [connID|] eqn:E; [|done].
  apply refuseStream_inv, inv_set_held; [done| |].
  - rewrite length_delete by (by eexists). lia.
  - intros _. apply (ct_held _ _ H). intros Hn. by rewrite Hn in E.
Qed.

Lemma inv_release b s : ctl_inv s -> ctl_inv (releaseHeld b s).
Proof.
  intros H. unfold releaseHeld. apply inv_set_held; [|simpl; lia|done].
  generalize (held s). intros l. revert s H. induction l as [|x l IH]; intros s H; simpl; [done|].
  apply IH. destruct b; [by apply refuseStream_inv|by apply drop_one_inv].
Qed.

Lemma inv_take s s' : ctl_inv s -> takeJob s = Some s' -> ctl_inv s'.
Proof.
  intros H E. unfold takeJob in E. destruct (ctrlQueue s) as [|job rest] eqn:Eq, (running s) eqn:Er; simplify_eq.
  destruct H. unfold accepts in *. rewrite Eq, Er in *. rewrite accept_count_cons in *.
  constructor; simpl in *; try done; try lia. unfold accepts. simpl. rewrite accept_count_cons.
  change (accept_count []) with 0 in *. lia.
Qed.

(** The send of an accepted stream on [acceptCh] finds room. *)
Lemma accept_room s job connID :
  ctl_inv s -> running s = Some job -> j_kind job = controlAccept connID -> Z.of_nat (length (acceptCh s)) < queueSize s.
Proof.
  intros [] Er Ek. unfold accepts in *. rewrite Er in *. simpl option_list in *. rewrite accept_count_cons in *.
  unfold is_accept in *. rewrite Ek in *. pose proof (accept_count_nonneg (ctrlQueue s)).
  change (accept_count []) with 0 in *. lia.
Qed.

Lemma inv_run err s s' : ctl_inv s -> runControlJob err s = Some s' -> ctl_inv s'.
Proof.
  intros H E. unfold runControlJob in E. destruct (running s) as [job|] eqn:Er; [|done]. cbn [mbind option_bind] in E.
  (* the job is done: its accept, if it is one, is not accounted for any more *)
  assert (Hdone : forall d s0 resp, ctl_inv_plus d s0 -> running s0 = Some job ->
    ctl_inv_plus (d + if is_accept job then 1 else 0) (set_progress None (creating s0) (accepting s0) resp s0)).
  { intros d s0 resp [] Er0. unfold accepts in *. rewrite Er0 in *. simpl option_list in *. rewrite accept_count_cons in *.
    constructor; try done; simpl. unfold accepts. simpl. change (accept_count []) with 0 in *. destruct (is_accept job); lia. }
  destruct (j_kind job) as [| |connID] eqn:Ek; unfold is_accept in Hdone; rewrite Ek in Hdone.
  - simplify_eq. by apply (Hdone 0).
  - simplify_eq. by apply (Hdone 0).
  - destruct err as [e|].
    + simplify_eq. set (s1 := forgetConnection _ s).
      assert (H1 : ctl_inv s1) by (by apply set_streams_inv).
      assert (H2 := Hdone 0 s1 (c_responses s) H1 Er). simpl in H2.
      apply releaseAcceptSlot_inv in H2; [|lia]. unfold releaseAcceptSlot in *. simpl in H2 |- *.
      destruct (0 <? acceptSlots s); exact H2.
    + destruct (Z.of_nat (length (acceptCh s)) <? queueSize s) eqn:El; simplify_eq. breflect.
      assert (H2 := Hdone 0 s (c_responses s) H Er). simpl in H2. destruct H2. constructor; try done; simpl in *.
      unfold accepts in *. simpl in *. rewrite length_app. simpl. lia.
Qed.

Lemma inv_accept s s' st : ctl_inv s -> acceptReceive s = Some (s', st) -> ctl_inv s'.
Proof.
  intros H E. unfold acceptReceive in E. destruct (acceptCh s) as [|x rest] eqn:Eq; simplify_eq.
  destruct H. rewrite Eq in *. unfold accepts in *. constructor; try done; simpl in *; unfold accepts; simpl; try lia.
Qed.

Lemma inv_accepted s s' : ctl_inv s -> acceptRelease s = Some s' -> ctl_inv s'.
Proof.
  intros H E. unfold acceptRelease in E. destruct (Z.ltb_spec 0 (accepting s)) as [Hlt|]; simplify_eq.
  assert (H1 : ctl_inv_plus 1 (set_progress (running s) (creating s) (accepting s - 1) (c_responses s) s)).
  { destruct H. unfold accepts in *. constructor; try done; simpl; unfold accepts; simpl; lia. }
  apply (releaseAcceptSlot_inv 0) in H1; [|lia]. unfold releaseAcceptSlot in *. simpl in *.
  destruct (0 <? acceptSlots s); exact H1.
Qed.

Lemma ctl_inv_step s s' : ctl_inv s -> ctl_step s s' -> ctl_inv s'.
Proof.
  intros H Hst. destruct Hst; eauto using inv_create, inv_finish, inv_listen, inv_expire, inv_release, inv_take, inv_run,
    inv_accept, inv_accepted; try (by apply set_streams_inv).
  - apply inv_set_held; [done|lia|]. intros Hh. by destruct (ct_held _ _ H Hh).
  - by apply refuseStream_inv.
  - destruct (enqueueControl _ s) as [s' ok] eqn:E. apply (enqueueControl_inv 0) in E as (E & _); [|exact H].
    simpl in E. rewrite andb_false_r in E. exact E.
  - unfold routeControlError. case_bool_decide; [by apply set_streams_inv|done].
  - unfold handlePeerClose. destruct (_ && _); [by apply set_streams_inv|done].
  - destruct H. by constructor.
Qed.

Lemma ctl_reachable mode ov qsize bc grc s :
  0 <= qsize -> rtc ctl_step (new_control mode ov qsize bc grc) s -> ctl_inv s.
Proof.
  intros Hq H. assert (G : forall a b, rtc ctl_step a b -> ctl_inv a -> ctl_inv b).
  { clear. induction 1; eauto using ctl_inv_step. }
  eapply G; [exact H|]. constructor; simpl; try done; try lia. unfold minControlQueue. lia.
Qed.

(** ** Properties *)

(** C16. Accepting streams neither blocks nor loses slots. In every reachable state:
    the control sender, having sent the accept of a stream, finds room for it
    in the accept queue, so it never waits for the application; the number of
    slots taken is exactly the number of accepts queued or being sent, streams
    waiting in the accept queue and [AcceptStream] calls about to return; the
    control queue, the accept queue and the held requests stay within their
    bounds; and [ListenStreams] finds a slot for every held request. *)
Theorem accepting_never_blocks (mode : LinkMode) (ov : OverflowPolicy) (qsize bufferCount grc : Z) (s : control)
  (Hq : 0 <= qsize) (Hs : rtc ctl_step (new_control mode ov qsize bufferCount grc) s) :
  (forall err, running s <> None -> exists s', runControlJob err s = Some s') /\
  acceptSlots s = accepts s + Z.of_nat (length (acceptCh s)) + accepting s /\
  Z.of_nat (length (acceptCh s)) <= queueSize s /\ Z.of_nat (length (held s)) + acceptSlots s <= queueSize s /\
  Z.of_nat (length (ctrlQueue s)) <= ctrlCap s /\
  (forall os, (ListenStreams s).2 = Ok os -> length os = length (held s) /\ NoSlot ∉ os).
Proof.
  apply ctl_reachable in Hs as H; [|done]. pose proof (accepts_nonneg s) as Hn. pose proof H as [Hsl Ha Hb _ Hc]. split_and!; try lia.
  - intros err Hr. unfold runControlJob. destruct (running s) as [job|] eqn:Er; [|done]. cbn [mbind option_bind].
    destruct (j_kind job) as [| |connID] eqn:Ek; [by eexists..|]. destruct err; [by eexists|].
    pose proof (accept_room s job connID H Er Ek). rewrite (proj2 (Z.ltb_lt _ _)) by done. by eexists.
  - intros os E. unfold ListenStreams in E. destruct (listening s); [done|].
    pose proof (admit_all_inv (held s) (set_listen true [] s)) as Hadm.
    destruct (admit_all (held s) (set_listen true [] s)) as [s' os']. simpl in E. simplify_eq.
    destruct Hadm as (_ & _ & H3 & H4); [|done|simpl; lia|done].
    destruct H. constructor; try done; simpl in *. lia.
Qed.

Lemma accepting_never_blocks_witness :
  let s0 := new_control LinkModePrimary OverflowBlock 2 4 0 in
  let s := handleConnCreate 3 (handleConnCreate 1 s0) in
  rtc ctl_step s0 s /\ Z.of_nat (length (held s)) = 2 /\
  exists os, (ListenStreams s).2 = Ok os /\ length os = 2%nat /\ NoSlot ∉ os.
Proof.
  intros s0 s.
  assert (H : rtc ctl_step s0 s).
  { eapply rtc_l; [apply (ct_create _ 1); reflexivity|]. eapply rtc_l; [apply (ct_create _ 3); reflexivity|]. apply rtc_refl. }
  split; [exact H|]. split; [reflexivity|].
  destruct (accepting_never_blocks LinkModePrimary OverflowBlock 2 4 0 s ltac:(lia) H) as (_ & _ & _ & _ & _ & Hl).
  destruct (ListenStreams s).2 as [os|e] eqn:E; [|vm_compute in E; discriminate].
  exists os. split; [reflexivity|]. exact (Hl os eq_refl).
Defined.

Definition other (mode : LinkMode) : LinkMode :=
  match mode with LinkModePrimary => LinkModeSecondary | LinkModeSecondary => LinkModePrimary end.

Lemma land_1 x : Z.land x 1 = x mod 2.
Proof. change 1 with (2 ^ 1 - 1). rewrite land_mask by lia. done. Qed.

Lemma primary_id n : word 64 n -> let id := u64 (Z.shiftl n 1) in
  word 64 id /\ id mod 2 = 0 /\ (id = 0 <-> n = 0 \/ n = 2 ^ 63).
Proof.
  intros Hn id. unfold id, word in *. rewrite Z.shiftl_mul_pow2 by lia. unfold u64, wrap.
  change (2 ^ 1) with 2. split_and!; [apply Z.mod_pos_bound; lia|apply Z.mod_pos_bound; lia| |split]; zlia.
Qed.

(** The endpoints never collide. Whatever the counter, also after it wrapped,
    an endpoint allocates an ID that is not zero, that its peer accepts in
    [handleConnCreate] and that the peer itself could never allocate; the
    first [2^63 - 1] IDs of an endpoint are pairwise distinct, so a stream ID
    is not reused. *)
Theorem connection_ids_disjoint (mode : LinkMode) (gen : Z) (Hg : word 64 gen) :
  exists id gen', nextConnectionID mode gen = Some (id, gen') /\ word 64 id /\ word 64 gen' /\ id <> 0 /\
    peerOwnsConnectionID (other mode) id = true /\ peerOwnsConnectionID mode id = false /\
    (gen < 2 ^ 63 - 1 -> gen' = gen + 1 /\ id = match mode with LinkModePrimary => 2 * (gen + 1) | LinkModeSecondary => 2 * gen + 1 end).
Proof.
  unfold peerOwnsConnectionID. destruct mode; simpl other; cbn [nextConnectionID].
  - assert (Hn : word 64 (u64 (gen + 1))) by apply u64_range.
    destruct (primary_id _ Hn) as (W1 & E1 & Z1).
    assert (Hgen : gen < 2 ^ 63 - 1 -> u64 (gen + 1) = gen + 1) by (intros ?; apply u64_small; unfold word in *; lia).
    destruct (Z.eqb_spec (u64 (Z.shiftl (u64 (gen + 1)) 1)) 0) as [E0|E0]; cbn [negb].
    + assert (Hn2 : word 64 (u64 (u64 (gen + 1) + 1))) by apply u64_range.
      destruct (primary_id _ Hn2) as (W2 & E2 & Z2).
      assert (Hne : u64 (Z.shiftl (u64 (u64 (gen + 1) + 1)) 1) <> 0).
      { apply Z1 in E0. rewrite Z2. unfold u64, wrap, word in *. intros [H|H]; destruct E0 as [E0|E0]; rewrite E0 in H; vm_compute in H; discriminate. }
      rewrite (proj2 (Z.eqb_neq _ 0) Hne). cbn [negb]. eexists _, _. split; [reflexivity|]. split_and!; try done.
      * rewrite (proj2 (Z.eqb_neq _ 0) Hne), land_1, E2. done.
      * rewrite (proj2 (Z.eqb_neq _ 0) Hne), land_1, E2. done.
      * intros Hlt. apply Z1 in E0. rewrite (Hgen Hlt) in E0. unfold word in *. lia.
    + eexists _, _. split; [reflexivity|]. split_and!; try done.
      * rewrite (proj2 (Z.eqb_neq _ 0) E0), land_1, E1. done.
      * rewrite (proj2 (Z.eqb_neq _ 0) E0), land_1, E1. done.
      * intros Hlt. rewrite (Hgen Hlt). split; [done|]. rewrite Z.shiftl_mul_pow2 by lia.
        rewrite u64_small by (unfold word in *; lia). lia.
  - assert (Ho : u64 (Z.shiftl (u64 (gen + 1)) 1 - 1) mod 2 = 1).
    { rewrite Z.shiftl_mul_pow2 by lia. unfold u64, wrap. change (2 ^ 1) with 2. zlia. }
    assert (Hne : u64 (Z.shiftl (u64 (gen + 1)) 1 - 1) <> 0) by (intros E; rewrite E in Ho; done).
    eexists _, _. split; [reflexivity|]. split_and!; try apply u64_range; try done.
    + rewrite (proj2 (Z.eqb_neq _ 0) Hne), land_1, Ho. done.
    + rewrite (proj2 (Z.eqb_neq _ 0) Hne), land_1, Ho. done.
    + intros Hlt. rewrite (u64_small (gen + 1)) by (unfold word in *; lia). split; [done|].
      rewrite Z.shiftl_mul_pow2 by lia. rewrite u64_small by (unfold word in *; lia). lia.
Qed.

Lemma connection_ids_disjoint_witness :
  exists id gen', nextConnectionID LinkModePrimary (2 ^ 64 - 1) = Some (id, gen') /\ id <> 0 /\
    peerOwnsConnectionID LinkModeSecondary id = true.
Proof.
  destruct (connection_ids_disjoint LinkModePrimary (2 ^ 64 - 1) ltac:(unfold word; lia)) as (id & gen' & E & _ & _ & Hne & Hp & _).
  exists id, gen'. split; [exact E|]. split; [exact Hne|exact Hp].
Defined.
