(* ===== verification/Shutdown.v ===== *)
(** * Shutdown: draining the requests in flight

    Models [Shutdown], [routeRequest], [newRequestCtx] and [requestDone] of
    advanced_request.go, one atomic access or channel operation at a time. A
    request is counted in [inflightN] before it looks at [shuttingDown];
    [Shutdown] sets the flag before it looks at the count; the last request
    to end leaves a token in the channel [drained] of capacity one. *)
From S2P Require Import Prelude.

(** Where a request is: not received, counted and about to load
    [shuttingDown], accepted (queued or handled), refused or handled and about
    to be released, released as the last one and about to load
    [shuttingDown], about to leave the token, gone. *)
Inductive request_pc := ReqNew | ReqCounted | ReqAccepted | ReqReleasing | ReqLast | ReqSignal | ReqGone.

#[export] Instance request_pc_eq_dec : EqDecision request_pc.
Proof. solve_decision. Defined.

(** Where a [Shutdown] call is: not called, at the head of the loop, waiting in
    the [select], about to call [stopServe], returned nil, returned the
    context's error or [ErrClosed]. *)
Inductive shutdown_pc := ShutNew | ShutLoop | ShutWait | ShutStop | ShutDone | ShutFailed.

#[export] Instance shutdown_pc_eq_dec : EqDecision shutdown_pc.
Proof. solve_decision. Defined.

Record server := mkServer {
  inflightN : Z;
  shuttingDown : bool;
  drained : bool;          (* the channel holds its token *)
  serveStopped : bool;
  requests : list request_pc;
  shutdowns : list shutdown_pc
}.

Definition set_request (i : nat) (pc : request_pc) (s : server) : server :=
  mkServer (inflightN s) (shuttingDown s) (drained s) (serveStopped s) (<[i := pc]> (requests s)) (shutdowns s).

Definition set_shutdown (i : nat) (pc : shutdown_pc) (s : server) : server :=
  mkServer (inflightN s) (shuttingDown s) (drained s) (serveStopped s) (requests s) (<[i := pc]> (shutdowns s)).

Definition add_inflight (d : Z) (s : server) : server :=
  mkServer (inflightN s + d) (shuttingDown s) (drained s) (serveStopped s) (requests s) (shutdowns s).

Definition set_drained (b : bool) (s : server) : server :=
  mkServer (inflightN s) (shuttingDown s) b (serveStopped s) (requests s) (shutdowns s).

(** One access of request [i]. *)
Definition request_step (i : nat) (s : server) : option server :=
  match requests s !! i with
  | Some ReqNew => Some (set_request i ReqCounted (add_inflight 1 s))
  | Some ReqCounted => Some (set_request i (if shuttingDown s then ReqReleasing else ReqAccepted) s)
  | Some ReqAccepted => Some (set_request i ReqReleasing s)
  | Some ReqReleasing =>
      let s := add_inflight (-1) s in
      Some (set_request i (if inflightN s =? 0 then ReqLast else ReqGone) s)
  | Some ReqLast => Some (set_request i (if shuttingDown s then ReqSignal else ReqGone) s)
  | Some ReqSignal => Some (set_request i ReqGone (set_drained true s))
  | _ => None
  end.

(** One access of [Shutdown] call [i]. *)
Definition shutdown_step (i : nat) (s : server) : option server :=
  match shutdowns s !! i with
  | Some ShutNew =>
      Some (set_shutdown i ShutLoop (mkServer (inflightN s) true (drained s) (serveStopped s) (requests s) (shutdowns s)))
  | Some ShutLoop => Some (set_shutdown i (if 0 <? inflightN s then ShutWait else ShutStop) s)
  | Some ShutWait => if drained s then Some (set_shutdown i ShutLoop (set_drained false s)) else None
  | Some ShutStop =>
      Some (set_shutdown i ShutDone (mkServer (inflightN s) (shuttingDown s) (drained s) true (requests s) (shutdowns s)))
  | _ => None
  end.

(** The context of a waiting call ends, or the link is closed. *)
Definition shutdown_cancel (i : nat) (s : server) : option server :=
  match shutdowns s !! i with Some ShutWait => Some (set_shutdown i ShutFailed s) | _ => None end.

Inductive server_step : server -> server -> Prop :=
| sv_arrive s : server_step s (mkServer (inflightN s) (shuttingDown s) (drained s) (serveStopped s) (requests s ++ [ReqNew]) (shutdowns s))
| sv_request s i s' : request_step i s = Some s' -> server_step s s'
| sv_shutdown s i s' : shutdown_step i s = Some s' -> server_step s s'
| sv_cancel s i s' : shutdown_cancel i s = Some s' -> server_step s s'.

(** [n] calls of [Shutdown] that may be made. *)
Definition server_init (n : nat) : server := mkServer 0 false false false [] (replicate n ShutNew).

(** ** Invariant *)

Definition in_flight (pc : request_pc) : bool :=
  match pc with ReqCounted | ReqAccepted | ReqReleasing => true | _ => false end.

Definition count_in_flight (l : list request_pc) : Z := countb in_flight l.

Definition past_drain (pc : shutdown_pc) : Prop := pc = ShutStop \/ pc = ShutDone.

(** The token is there or on its way. *)
Definition token_coming (s : server) : Prop := drained s = true \/ ReqLast ∈ requests s \/ ReqSignal ∈ requests s.

Record server_inv (s : server) : Prop := {
  sv_count : inflightN s = count_in_flight (requests s);
  sv_flag : forall pc, pc ∈ shutdowns s -> pc <> ShutNew -> shuttingDown s = true;
  sv_stopped : serveStopped s = true -> ShutDone ∈ shutdowns s;
  sv_signal : ReqSignal ∈ requests s -> shuttingDown s = true;
  sv_drained : forall pc, pc ∈ shutdowns s -> past_drain pc -> ReqAccepted ∉ requests s;
  sv_wakeup : length (shutdowns s) = 1%nat -> shutdowns s = [ShutWait] -> inflightN s = 0 -> token_coming s
}.

Lemma request_inv i s s' : server_inv s -> request_step i s = Some s' -> server_inv s'.
Proof.
  intros [Hc Hf Hst Hsi Hd Hw] E. pose proof (countb_nonneg in_flight (requests s)) as Hn.
  unfold request_step in E. destruct (requests s !! i) as [pc|] eqn:Ei; [|done].
  (* a call of Shutdown past the drain means that the flag is set *)
  assert (Hpast : forall q, q ∈ shutdowns s -> past_drain q -> shuttingDown s = true).
  { intros q Hq [->| ->]; by eapply Hf. }
  assert (Hnotin : forall pc', pc' <> ReqAccepted -> forall q, q ∈ shutdowns s -> past_drain q ->
    ReqAccepted ∉ <[i := pc']> (requests s)).
  { intros pc' Hne q Hq Hp Hin. apply elem_insert_inv in Hin as [?|Hin]; [by subst|]. by eapply Hd. }
  assert (Hzero : in_flight pc = true -> inflightN s <> 0).
  { intros Hin H0. rewrite Hc in H0. rewrite (countb_zero _ _ pc H0) in Hin; [done|]. by eapply list_elem_of_lookup_2. }
  assert (Hwait : shutdowns s = [ShutWait] -> shuttingDown s = true).
  { intros Ew. apply (Hf ShutWait); [rewrite Ew; left|done]. }
  destruct pc; simplify_eq; constructor; simpl; unfold count_in_flight in *;
    rewrite ?(countb_insert _ _ _ _ _ Ei); simpl; try done; try lia.
  - intros Hin. apply elem_insert_inv in Hin as [?|Hin]; [done|by apply Hsi].
  - intros q Hq Hp. by eapply Hnotin.
  - destruct (shuttingDown s); simpl; lia.
  - intros Hin. apply elem_insert_inv in Hin as [Hx|Hin]; [by destruct (shuttingDown s)|by apply Hsi].
  - intros q Hq Hp. rewrite (Hpast q Hq Hp). by eapply Hnotin.
  - intros _ _ H0. by destruct (Hzero eq_refl).
  - intros Hin. apply elem_insert_inv in Hin as [?|Hin]; [done|by apply Hsi].
  - intros q Hq Hp. by eapply Hnotin.
  - intros _ _ H0. by destruct (Hzero eq_refl).
  - destruct (inflightN s + -1 =? 0); simpl; lia.
  - intros Hin. apply elem_insert_inv in Hin as [Hx|Hin]; [by destruct (_ =? 0)|by apply Hsi].
  - intros q Hq Hp. destruct (_ =? 0); by eapply Hnotin.
  - intros _ _ H0. rewrite H0. simpl. right. left. by eapply elem_insert_new.
  - destruct (shuttingDown s); simpl; lia.
  - intros Hin. apply elem_insert_inv in Hin as [Hx|Hin]; [by destruct (shuttingDown s)|by apply Hsi].
  - intros q Hq Hp. destruct (shuttingDown s); by eapply Hnotin.
  - intros _ Ew _. rewrite (Hwait Ew). right. right. by eapply elem_insert_new.
  - intros Hin. apply elem_insert_inv in Hin as [?|Hin]; [done|by apply Hsi].
  - intros q Hq Hp. by eapply Hnotin.
  - intros _ _ _. by left.
Qed.

Lemma insert_singleton {A} (l : list A) i x y z :
  l !! i = Some x -> length (<[i := y]> l) = 1%nat -> <[i := y]> l = [z] -> y = z.
Proof.
  intros Hi Hl E. destruct l as [|a [|b l]]; simpl in *; [done| |rewrite ?length_insert in Hl; destruct i; simpl in Hl; try rewrite length_insert in Hl; lia].
  destruct i; [|done]. simpl in *. congruence.
Qed.

Lemma shutdown_inv i s s' : server_inv s -> shutdown_step i s = Some s' -> server_inv s'.
Proof.
  intros [Hc Hf Hst Hsi Hd Hw] E. pose proof (countb_nonneg in_flight (requests s)) as Hn.
  unfold shutdown_step in E. destruct (shutdowns s !! i) as [pc|] eqn:Ei; [|done].
  assert (Hin : pc ∈ shutdowns s) by (by eapply list_elem_of_lookup_2).
  assert (Hflag : pc <> ShutNew -> forall pc' q, q ∈ <[i := pc']> (shutdowns s) -> q <> ShutNew -> shuttingDown s = true).
  { intros Hne pc' q Hq Hnew. by apply (Hf pc). }
  assert (Hkeep : forall pc', pc <> ShutDone -> serveStopped s = true -> ShutDone ∈ <[i := pc']> (shutdowns s)).
  { intros pc' Hne Hs. eapply elem_insert_keep; [done|by apply Hst|done]. }
  destruct pc; simplify_eq.
  - constructor; simpl; try done; try (by apply Hflag); try (by apply Hkeep).
    + intros q Hq Hp. apply elem_insert_inv in Hq as [->|Hq]; [by destruct Hp|by eapply Hd].
    + intros Hl Ew _. rewrite length_insert in Hl. eapply insert_singleton in Ew; [done|done|by rewrite length_insert].
  - assert (Hnew : past_drain (if 0 <? inflightN s then ShutWait else ShutStop) -> ReqAccepted ∉ requests s).
    { destruct (Z.ltb_spec 0 (inflightN s)) as [|Hle]; [intros [?|?]; done|]. intros _ Hx.
      assert (H0 : count_in_flight (requests s) = 0) by (unfold count_in_flight in *; lia). by apply (countb_zero _ _ _ H0) in Hx. }
    constructor; simpl; try done; try (by apply Hflag); try (by apply Hkeep).
    + intros q Hq Hp. apply elem_insert_inv in Hq as [->|Hq]; [by apply Hnew|by eapply Hd].
    + intros Hl Ew H0. rewrite length_insert in Hl. rewrite H0 in Ew. simpl in Ew.
      eapply insert_singleton in Ew; [done|done|by rewrite length_insert].
  - destruct (drained s) eqn:Edr; simplify_eq. constructor; simpl; try done; try (by apply Hflag); try (by apply Hkeep).
    + intros q Hq Hp. apply elem_insert_inv in Hq as [->|Hq]; [by destruct Hp|by eapply Hd].
    + intros Hl Ew _. rewrite length_insert in Hl. eapply insert_singleton in Ew; [done|done|by rewrite length_insert].
  - constructor; simpl; try done; try (by apply Hflag); try (by apply Hkeep).
    + intros _. by eapply elem_insert_new.
    + intros q Hq Hp. apply elem_insert_inv in Hq as [->|Hq]; [|by eapply Hd]. apply (Hd ShutStop); [done|by left].
    + intros Hl Ew _. rewrite length_insert in Hl. eapply insert_singleton in Ew; [done|done|by rewrite length_insert].
Qed.

Lemma server_inv_step s s' : server_inv s -> server_step s s' -> server_inv s'.
Proof.
  intros H Hstep. revert H. destruct Hstep as [s0|s0 i s1 E|s0 i s1 E|s0 i s1 E]; intros H;
    [|by eapply request_inv|by eapply shutdown_inv|].
  - destruct H as [Hc Hf Hst Hsi Hd Hw]. constructor; simpl; try done.
    + rewrite Hc. unfold count_in_flight. rewrite countb_app. change (countb in_flight [ReqNew]) with 0. lia.
    + intros [Hx|Hx]%elem_of_app; [by apply Hsi|]. by apply list_elem_of_singleton in Hx.
    + intros pc Hpc Hp [Hx|Hx]%elem_of_app; [by eapply Hd|]. by apply list_elem_of_singleton in Hx.
    + intros H1 H2 H3. destruct (Hw H1 H2 H3) as [?|[?|?]]; [by left|right; left|right; right]; apply elem_of_app; by left.
  - unfold shutdown_cancel in E. destruct (shutdowns s0 !! i) as [[]|] eqn:Ei; simplify_eq.
    destruct H as [Hc Hf Hst Hsi Hd Hw]. assert (Hin : ShutWait ∈ shutdowns s0) by (by eapply list_elem_of_lookup_2).
    constructor; simpl; try done.
    + intros pc _ _. by apply (Hf ShutWait).
    + intros Hs. eapply elem_insert_keep; [done|by apply Hst|done].
    + intros q Hq Hp. apply elem_insert_inv in Hq as [->|Hq]; [by destruct Hp|by eapply Hd].
    + intros Hl Ew _. rewrite length_insert in Hl. eapply insert_singleton in Ew; [done|done|by rewrite length_insert].
Qed.

Lemma server_reachable n s : rtc server_step (server_init n) s -> server_inv s.
Proof.
  intros H. assert (G : forall a b, rtc server_step a b -> server_inv a -> server_inv b).
  { clear. induction 1; eauto using server_inv_step. }
  eapply G; [exact H|]. constructor; simpl; try done.
  - intros pc Hpc Hne. apply elem_of_replicate in Hpc as [? _]. done.
  - intros Hx. by apply not_elem_of_nil in Hx.
  - intros pc _ _ Hx. by apply not_elem_of_nil in Hx.
  - intros Hl Ew. destruct n; done.
Qed.

(** A call past the drain stays past it. *)
Lemma past_drain_stays s s' :
  server_step s s' -> (exists pc, pc ∈ shutdowns s /\ past_drain pc) -> exists pc, pc ∈ shutdowns s' /\ past_drain pc.
Proof.
  intros Hst (pc & Hin & Hp). destruct Hst as [s0|s0 i s1 E|s0 i s1 E|s0 i s1 E].
  - by exists pc.
  - unfold request_step in E. destruct (requests s0 !! i) as [[]|]; simplify_eq; by exists pc.
  - unfold shutdown_step in E. destruct (shutdowns s0 !! i) as [q|] eqn:Ei; [|done].
    destruct (decide (pc = q)) as [->|Hne].
    + destruct Hp as [-> | ->]; simplify_eq. exists ShutDone. split; [by eapply elem_insert_new|by right].
    + assert (Hkeep : forall y, pc ∈ <[i := y]> (shutdowns s0)) by (intros y; by eapply elem_insert_keep).
      destruct q; try (destruct (drained s0)); simplify_eq; exists pc; by split; [apply Hkeep|].
  - unfold shutdown_cancel in E. destruct (shutdowns s0 !! i) as [[]|] eqn:Ei; simplify_eq.
    exists pc. split; [|done]. eapply elem_insert_keep; [done|done|]. by destruct Hp as [-> | ->].
Qed.

(** A schedule: a request arrives, request [i] or call [i] makes a step. *)
Inductive action := Arrive | Req (i : nat) | Shut (i : nat).

Definition act (a : action) (s : server) : option server :=
  match a with
  | Arrive => Some (mkServer (inflightN s) (shuttingDown s) (drained s) (serveStopped s) (requests s ++ [ReqNew]) (shutdowns s))
  | Req i => request_step i s
  | Shut i => shutdown_step i s
  end.

Fixpoint schedule (l : list action) (s : server) : option server :=
  match l with [] => Some s | a :: l' => s' ← act a s; schedule l' s' end.

Lemma schedule_sound l : forall s s', schedule l s = Some s' -> rtc server_step s s'.
Proof.
  induction l as [|a l IH]; intros s s' E; simpl in E; [simplify_eq; apply rtc_refl|].
  destruct (act a s) as [s1|] eqn:Ea; [|done]. eapply rtc_l; [|by apply IH].
  destruct a; simpl in Ea; [simplify_eq; apply sv_arrive|by eapply sv_request|by eapply sv_shutdown].
Qed.

(** ** Properties *)

(** C17. [Shutdown] drains. Once a call of it has seen the count at zero (before it
    stops [Serve] and returns nil), no request is accepted or being handled,
    and none ever will be, whatever arrives: later requests are refused. And
    a single [Shutdown] is not forgotten: when every request is gone while it
    waits, the token that wakes it is in the channel. *)
Theorem shutdown_drains (n : nat) (s : server) (Hs : rtc server_step (server_init n) s) :
  (forall s' pc, rtc server_step s s' -> pc ∈ shutdowns s -> past_drain pc -> ReqAccepted ∉ requests s') /\
  (shutdowns s = [ShutWait] -> Forall (fun pc => pc = ReqGone) (requests s) -> exists s', shutdown_step 0 s = Some s').
Proof.
  split.
  - intros s' pc Hss Hin Hp.
    assert (Hex : exists q, q ∈ shutdowns s' /\ past_drain q).
    { assert (G : forall a b, rtc server_step a b -> (exists q, q ∈ shutdowns a /\ past_drain q) -> exists q, q ∈ shutdowns b /\ past_drain q).
      { clear. induction 1; eauto using past_drain_stays. }
      eapply G; [exact Hss|]. by exists pc. }
    destruct Hex as (q & Hq & Hpq). assert (Hreach : rtc server_step (server_init n) s') by (etrans; done).
    by apply (sv_drained _ (server_reachable _ _ Hreach) q).
  - intros Ew Hgone. pose proof (server_reachable _ _ Hs) as H.
    assert (H0 : inflightN s = 0).
    { rewrite (sv_count _ H). clear -Hgone. unfold count_in_flight. induction Hgone as [|x l -> _ IH]; [done|]. by rewrite countb_cons. }
    destruct (sv_wakeup _ H) as [Ht|[Ht|Ht]]; [by rewrite Ew|done|done| | |].
    + unfold shutdown_step. rewrite Ew. simpl. rewrite Ht. by eexists.
    + rewrite list.Forall_forall in Hgone. by apply Hgone in Ht.
    + rewrite list.Forall_forall in Hgone. by apply Hgone in Ht.
Qed.

(** One request, handled while [Shutdown] waits. *)
Definition drained_server : server := mkServer 0 true true false [ReqGone] [ShutWait].

Lemma shutdown_drains_witness :
  rtc server_step (server_init 1) drained_server /\ exists s', shutdown_step 0 drained_server = Some s'.
Proof.
  assert (H : rtc server_step (server_init 1) drained_server).
  { apply (schedule_sound [Arrive; Req 0; Req 0; Shut 0; Shut 0; Req 0; Req 0; Req 0; Req 0]). reflexivity. }
  split; [exact H|]. destruct (shutdown_drains 1 drained_server H) as [_ Hw]. apply Hw; [reflexivity|].
  constructor; [reflexivity|constructor].
Defined.

(** C18. Two concurrent [Shutdown] calls, although [Shutdown] is documented as safe
    for concurrent use: both wait, the last request leaves one token, one
    call takes it and returns nil. The other one is left waiting although
    nothing is in flight and [Serve] has stopped: no step of any request or
    call is enabled, only the end of its own context, a close of the link or
    the arrival of a new request can still end it. *)
Theorem concurrent_shutdown_hangs :
  exists s, rtc server_step (server_init 2) s /\ shutdowns s = [ShutDone; ShutWait] /\ serveStopped s = true /\
    inflightN s = 0 /\ requests s = [ReqGone] /\
    (forall i, request_step i s = None) /\ (forall i, shutdown_step i s = None).
Proof.
  exists (mkServer 0 true false true [ReqGone] [ShutDone; ShutWait]). split.
  - apply (schedule_sound [Arrive; Req 0; Req 0; Shut 0; Shut 0; Shut 1; Shut 1; Req 0; Req 0; Req 0; Req 0; Shut 0; Shut 0; Shut 0]).
    reflexivity.
  - split_and!; try done.
    + intros [|i]; [done|]. unfold request_step. simpl. by destruct i.
    + intros [|[|i]]; [done..|]. unfold shutdown_step. simpl. by destruct i.
Qed.
