(* ===== verification/RequestCtx.v ===== *)
(** * RequestCtx: the context of a request

    Models [reqCtx] of advanced_request.go: the context a handler gets, which
    ends for the first of several reasons, whose channel is made only if
    somebody asks for it, whose deadline is a reused timer, and which is
    recycled for the next request. One context is followed through request
    after request, one atomic access or critical section at a time, against any
    number of goroutines: those that cancel requests (the peer's OpCancel, a
    closed stream, a closing link, a Serve call that ends), the callbacks of the
    timer, and the handler and the goroutines it starts. *)
From S2P Require Import Prelude Errors.

(** Why a context ended. *)
Inductive code := ctxLive | ctxCanceled | ctxDeadline | ctxPeerCancel.

#[export] Instance code_eq_dec : EqDecision code.
Proof. solve_decision. Defined.

(** [cancel]: before the compare-and-swap, the load of [hasDone], the lock, the
    close and the unlock; returned. *)
Inductive cancel_pc := CCas (k : code) | CHas | CLock | CClose | CUnlock | CRet.

(** The goroutines that carry the request: in the pool; [newRequestCtx]; queued;
    [begin], with the cancel of an expired budget; the handler; [end], with the
    wait for a callback and the cancel; [release]. [WResp] knows whether the
    response is pointless. A context that handed out its channel is not
    recycled. *)
Inductive worker_pc :=
| WPool | WNew | WReg | WQueued
| WBegin | WBegun | WExpire (p : cancel_pc) | WArm | WHandle
| WEnd | WSpin | WCode | WEndCancel (b : bool) (p : cancel_pc) | WDisown (b : bool)
| WResp (b : bool) | WUnreg | WRecycle | WReset | WGone.

(** Another goroutine: elsewhere; canceling, with [inflightMu]; in [onTimer]; in
    [Done], before the load, the lock, the channel, the flag, the second load
    and the unlock. *)
Inductive thread_pc :=
| TIdle | TCancel (p : cancel_pc) | TTimer (p : cancel_pc)
| TLoad | TLock | TMake | TFlag | TCheck | TUnlock.

(** Who holds a lock: the worker ([None]) or a thread. *)
Notation who := (option nat).

Record reqCtx := mkReqCtx {
  errv : code;
  mu : option who;
  done : bool; closed : bool; hasDone : bool;
  closes : nat;                          (* close(c.done) ran so often; the second time it panics *)
  timerArmed : bool; armedFires : Z; fires : Z;
  pending : bool;                        (* the timer will fire *)
  owner : option nat;                    (* the Serve call *)
  registered : bool;                     (* l.inflight[key] is this context *)
  inflightMu : option who;
  wk : worker_pc;
  th : list thread_pc
}.

Definition new_ctx (n : nat) : reqCtx :=
  mkReqCtx ctxLive None false false false 0 false 0 0 false None false None WPool (replicate n TIdle).

(** *** Updates *)

Definition set_errv (x : code) (c : reqCtx) : reqCtx :=
  mkReqCtx x (mu c) (done c) (closed c) (hasDone c) (closes c) (timerArmed c) (armedFires c) (fires c) (pending c) (owner c) (registered c) (inflightMu c) (wk c) (th c).
Definition set_mu (x : option who) (c : reqCtx) : reqCtx :=
  mkReqCtx (errv c) x (done c) (closed c) (hasDone c) (closes c) (timerArmed c) (armedFires c) (fires c) (pending c) (owner c) (registered c) (inflightMu c) (wk c) (th c).
Definition set_done (c : reqCtx) : reqCtx :=
  mkReqCtx (errv c) (mu c) true (closed c) (hasDone c) (closes c) (timerArmed c) (armedFires c) (fires c) (pending c) (owner c) (registered c) (inflightMu c) (wk c) (th c).
Definition set_hasDone (c : reqCtx) : reqCtx :=
  mkReqCtx (errv c) (mu c) (done c) (closed c) true (closes c) (timerArmed c) (armedFires c) (fires c) (pending c) (owner c) (registered c) (inflightMu c) (wk c) (th c).
(** [c.closed = true; close(c.done)]. *)
Definition close_done (c : reqCtx) : reqCtx :=
  mkReqCtx (errv c) (mu c) (done c) true (hasDone c) (S (closes c)) (timerArmed c) (armedFires c) (fires c) (pending c) (owner c) (registered c) (inflightMu c) (wk c) (th c).
Definition set_armed (b : bool) (n : Z) (c : reqCtx) : reqCtx :=
  mkReqCtx (errv c) (mu c) (done c) (closed c) (hasDone c) (closes c) b n (fires c) (pending c) (owner c) (registered c) (inflightMu c) (wk c) (th c).
Definition add_fires (c : reqCtx) : reqCtx :=
  mkReqCtx (errv c) (mu c) (done c) (closed c) (hasDone c) (closes c) (timerArmed c) (armedFires c) (u64 (fires c + 1)) (pending c) (owner c) (registered c) (inflightMu c) (wk c) (th c).
Definition set_pending (b : bool) (c : reqCtx) : reqCtx :=
  mkReqCtx (errv c) (mu c) (done c) (closed c) (hasDone c) (closes c) (timerArmed c) (armedFires c) (fires c) b (owner c) (registered c) (inflightMu c) (wk c) (th c).
Definition set_owner (o : option nat) (c : reqCtx) : reqCtx :=
  mkReqCtx (errv c) (mu c) (done c) (closed c) (hasDone c) (closes c) (timerArmed c) (armedFires c) (fires c) (pending c) o (registered c) (inflightMu c) (wk c) (th c).
Definition set_inflight (b : bool) (l : option who) (c : reqCtx) : reqCtx :=
  mkReqCtx (errv c) (mu c) (done c) (closed c) (hasDone c) (closes c) (timerArmed c) (armedFires c) (fires c) (pending c) (owner c) b l (wk c) (th c).
Definition set_wk (p : worker_pc) (c : reqCtx) : reqCtx :=
  mkReqCtx (errv c) (mu c) (done c) (closed c) (hasDone c) (closes c) (timerArmed c) (armedFires c) (fires c) (pending c) (owner c) (registered c) (inflightMu c) p (th c).
Definition set_th (i : nat) (p : thread_pc) (c : reqCtx) : reqCtx :=
  mkReqCtx (errv c) (mu c) (done c) (closed c) (hasDone c) (closes c) (timerArmed c) (armedFires c) (fires c) (pending c) (owner c) (registered c) (inflightMu c) (wk c) (<[i := p]> (th c)).

(** ** The operations *)

Definition live (c : reqCtx) : bool := bool_decide (errv c = ctxLive).

(** [Err]: with the error of the Serve context, if it ended. *)
Definition Err (parent : option error) (c : reqCtx) : option error :=
  match errv c with
  | ctxLive => parent
  | ctxDeadline => Some ctx_DeadlineExceeded
  | _ => Some ctx_Canceled
  end.

(** The earlier of two deadlines. *)
Definition Deadline (own parent : option Z) : option Z :=
  match parent, own with
  | Some p, Some d => if p <? d then Some p else Some d
  | Some p, None => Some p
  | None, own => own
  end.

(** One access of [cancel], run by [w]. *)
Definition cancel_step (w : who) (p : cancel_pc) (c : reqCtx) : option (cancel_pc * reqCtx) :=
  match p with
  | CCas k => if live c then Some (CHas, set_errv k c) else Some (CRet, c)
  | CHas => Some (if hasDone c then CLock else CRet, c)
  | CLock => match mu c with None => Some (CClose, set_mu (Some w) c) | Some _ => None end
  | CClose => Some (CUnlock, if done c && negb (closed c) then close_done c else c)
  | CUnlock => Some (CRet, set_mu None c)
  | CRet => None
  end.

(** What the worker does where it has a choice: the message is dropped or taken
    by a Serve call; that call has ended; the request has no budget, an expired
    one, or one with time left; everything else. *)
Inductive worker_move := Drop | Begin (s : nat) | Stopped | NoBudget | Expired | Budget | Go.

Definition in_Done (p : thread_pc) : bool := match p with TLoad | TLock | TMake | TFlag | TCheck | TUnlock => true | _ => false end.

(** [newRequestCtx]: the context leaves the pool and is entered in the table. *)
Definition newRequestCtx_step (c : reqCtx) : option reqCtx :=
  match wk c with
  | WPool => Some (set_wk WNew c)
  | WNew => match inflightMu c with None => Some (set_wk WReg (set_inflight true (Some None) c)) | Some _ => None end
  | WReg => Some (set_wk WQueued (set_inflight (registered c) None c))
  | _ => None
  end.

(** [begin]; a request that must not be handled goes to [end]. *)
Definition begin_step (mv : worker_move) (c : reqCtx) : option reqCtx :=
  match wk c, mv with
  | WQueued, Begin s => Some (set_wk WBegin (set_owner (Some s) c))
  | WBegin, Go => Some (set_wk (if live c then WBegun else WEnd) c)
  | WBegun, Stopped => Some (set_wk WEnd c)
  | WBegun, NoBudget => Some (set_wk WHandle c)
  | WBegun, Expired => Some (set_wk (WExpire (CCas ctxDeadline)) c)
  | WBegun, Budget => Some (set_wk WArm (set_armed true (fires c) c))
  | WExpire CRet, Go => Some (set_wk WEnd c)
  | WExpire p, Go => '(p, c) ← cancel_step None p c; Some (set_wk (WExpire p) c)
  | WArm, Go => Some (set_wk WHandle (set_pending true c))
  | _, _ => None
  end.

(** [end]: the timer is stopped or its callback waited for. *)
Definition end_step (c : reqCtx) : option reqCtx :=
  match wk c with
  | WEnd =>
      if negb (timerArmed c) then Some (set_wk WCode c)
      else if pending c then Some (set_wk WCode (set_armed false (armedFires c) (set_pending false c)))
      else Some (set_wk WSpin c)
  | WSpin => if fires c =? armedFires c then Some c else Some (set_wk WCode (set_armed false (armedFires c) c))
  | WCode => Some (set_wk (WEndCancel (bool_decide (errv c = ctxDeadline) || bool_decide (errv c = ctxPeerCancel)) (CCas ctxCanceled)) c)
  | WEndCancel b CRet => Some (set_wk (WDisown b) c)
  | WEndCancel b p => '(p, c) ← cancel_step None p c; Some (set_wk (WEndCancel b p) c)
  | WDisown b => Some (set_wk (WResp b) (set_owner None c))
  | _ => None
  end.

(** [release]. *)
Definition release_step (c : reqCtx) : option reqCtx :=
  match wk c with
  | WResp b => match inflightMu c with None => Some (set_wk WUnreg (set_inflight false (Some None) c)) | Some _ => None end
  | WUnreg => Some (set_wk WRecycle (set_inflight (registered c) None c))
  | WRecycle => Some (set_wk (if hasDone c then WGone else WReset) c)
  | WReset => Some (set_wk WPool (set_errv ctxLive c))
  | _ => None
  end.

(** The handler returns when no call of [Done] runs any more: the context is
    valid only until then. *)
Definition worker_step (mv : worker_move) (c : reqCtx) : option reqCtx :=
  match wk c, mv with
  | (WPool | WNew | WReg), Go => newRequestCtx_step c
  | WQueued, Drop => Some (set_wk (WResp false) c)
  | (WQueued | WBegin | WBegun | WExpire _ | WArm), mv => begin_step mv c
  | WHandle, Go => if existsb in_Done (th c) then None else Some (set_wk WEnd c)
  | (WEnd | WSpin | WCode | WEndCancel _ _ | WDisown _), Go => end_step c
  | (WResp _ | WUnreg | WRecycle | WReset), Go => release_step c
  | _, _ => None
  end.

(** What another goroutine starts: [handleCancelPacket] or [cancelRequests],
    which find the context under [inflightMu]; [cancelServerRequests]; the timer
    fires; [Done], which is called while the handler runs; a request with the
    same key takes the entry of the table. *)
Inductive thread_move := Cancel (peer : bool) | CancelServer (s : nat) | Fire | CallDone | Overwrite | Next.

(** [Done], in goroutine [i]. *)
Definition Done_step (i : nat) (p : thread_pc) (c : reqCtx) : option reqCtx :=
  match p with
  | TLoad => Some (set_th i (if live c then TLock else TIdle) c)
  | TLock => match mu c with None => Some (set_th i TMake (set_mu (Some (Some i)) c)) | Some _ => None end
  | TMake => Some (if done c then set_th i TCheck c else set_th i TFlag (set_done c))
  | TFlag => Some (set_th i TCheck (set_hasDone c))
  | TCheck => Some (set_th i TUnlock (if negb (live c) && negb (closed c) then close_done c else c))
  | TUnlock => Some (set_th i TIdle (set_mu None c))
  | _ => None
  end.

(** [onTimer]. *)
Definition onTimer_step (i : nat) (p : cancel_pc) (c : reqCtx) : option reqCtx :=
  match p with
  | CRet => Some (set_th i TIdle (add_fires c))
  | p => '(p, c) ← cancel_step (Some i) p c; Some (set_th i (TTimer p) c)
  end.

(** [handleCancelPacket] and [cancelRequests], where they come to this context. *)
Definition cancelRequests_step (i : nat) (p : cancel_pc) (c : reqCtx) : option reqCtx :=
  match p with
  | CRet => Some (set_th i TIdle (set_inflight (registered c) None c))
  | p => '(p, c) ← cancel_step (Some i) p c; Some (set_th i (TCancel p) c)
  end.

Definition find_ctx (i : nat) (k : code) (c : reqCtx) : option reqCtx :=
  match inflightMu c with
  | None => if registered c then Some (set_th i (TCancel (CCas k)) (set_inflight true (Some (Some i)) c)) else None
  | Some _ => None
  end.

Definition thread_step (i : nat) (mv : thread_move) (c : reqCtx) : option reqCtx :=
  p ← th c !! i;
  match p, mv with
  | TIdle, Cancel peer => find_ctx i (if (peer : bool) then ctxPeerCancel else ctxCanceled) c
  | TIdle, CancelServer s => if bool_decide (owner c = Some s) then find_ctx i ctxCanceled c else None
  | TIdle, Fire => if pending c then Some (set_th i (TTimer (CCas ctxDeadline)) (set_pending false c)) else None
  | TIdle, CallDone => match wk c with WHandle => Some (set_th i TLoad c) | _ => None end
  | TIdle, Overwrite => match inflightMu c with None => Some (set_inflight false None c) | Some _ => None end
  | TCancel p, Next => cancelRequests_step i p c
  | TTimer p, Next => onTimer_step i p c
  | p, Next => Done_step i p c
  | _, _ => None
  end.

Inductive ctx_step : reqCtx -> reqCtx -> Prop :=
| cs_worker c mv c' : worker_step mv c = Some c' -> ctx_step c c'
| cs_thread c i mv c' : thread_step i mv c = Some c' -> ctx_step c c'.

(** ** Invariant *)

(** The request can be found in the table. *)
Definition active (p : worker_pc) : Prop :=
  match p with WPool | WNew | WReg | WUnreg | WRecycle | WReset | WGone => False | _ => True end.

Definition timed (p : worker_pc) : Prop := match p with WHandle | WEnd | WSpin => True | _ => False end.

Definition cancel_ok (w : who) (p : cancel_pc) (c : reqCtx) : Prop :=
  match p with
  | CCas k => k <> ctxLive
  | CHas | CRet => errv c <> ctxLive
  | CLock => errv c <> ctxLive /\ hasDone c = true
  | CClose => errv c <> ctxLive /\ hasDone c = true /\ mu c = Some w
  | CUnlock => errv c <> ctxLive /\ closed c = true /\ mu c = Some w
  end.

Definition thread_ok (c : reqCtx) (i : nat) (p : thread_pc) : Prop :=
  match p with
  | TIdle => True
  | TCancel q => cancel_ok (Some i) q c /\ inflightMu c = Some (Some i) /\ active (wk c)
  | TTimer q => cancel_ok (Some i) q c /\ timerArmed c = true /\ pending c = false /\ fires c = armedFires c /\ timed (wk c)
  | TLoad | TLock => wk c = WHandle
  | TMake => wk c = WHandle /\ mu c = Some (Some i)
  | TFlag => wk c = WHandle /\ mu c = Some (Some i) /\ done c = true
  | TCheck | TUnlock => wk c = WHandle /\ mu c = Some (Some i) /\ hasDone c = true
  end.

Definition gave_up (k : code) : Prop := k = ctxDeadline \/ k = ctxPeerCancel.

Definition worker_ok (c : reqCtx) : Prop :=
  match wk c with
  | WPool | WNew => errv c = ctxLive /\ hasDone c = false /\ owner c = None /\ registered c = false
  | WReg => errv c = ctxLive /\ hasDone c = false /\ owner c = None /\ inflightMu c = Some None
  | WQueued => owner c = None
  | WBegin | WBegun => True
  | WExpire p => cancel_ok None p c
  | WArm => timerArmed c = true /\ pending c = false /\ fires c = armedFires c
  | WHandle | WEnd => True
  | WSpin => timerArmed c = true /\ pending c = false
  | WCode => True
  | WEndCancel b p => cancel_ok None p c /\ (b = true -> gave_up (errv c))
  | WDisown b => (b = true -> gave_up (errv c))
  | WResp b => owner c = None /\ (b = true -> gave_up (errv c))
  | WUnreg => inflightMu c = Some None /\ registered c = false /\ owner c = None
  | WRecycle => registered c = false /\ owner c = None
  | WReset => hasDone c = false /\ registered c = false /\ owner c = None
  | WGone => registered c = false
  end.

(** A goroutine that will close the channel. *)
Definition closing (p : cancel_pc) : Prop := match p with CHas | CLock | CClose => True | _ => False end.
Definition worker_closes (p : worker_pc) : Prop := match p with WExpire q | WEndCancel _ q => closing q | _ => False end.
Definition thread_closes (p : thread_pc) : Prop := match p with TCancel q | TTimer q => closing q | TFlag | TCheck => True | _ => False end.
Definition will_close (c : reqCtx) : Prop := worker_closes (wk c) \/ exists i p, th c !! i = Some p /\ thread_closes p.

Definition is_timer (p : thread_pc) : Prop := match p with TTimer _ => True | _ => False end.
Definition callback (c : reqCtx) (i : nat) : Prop := exists p, th c !! i = Some p /\ is_timer p.

Record ctx_inv (c : reqCtx) : Prop := mkCtxInv {
  ci_worker : worker_ok c;
  ci_threads : forall i p, th c !! i = Some p -> thread_ok c i p;
  ci_closes : closes c = if closed c then 1%nat else 0%nat;
  ci_closed : closed c = true -> done c = true;
  ci_flag : hasDone c = true -> done c = true;
  ci_made : done c = true -> hasDone c = true \/ exists i, th c !! i = Some TFlag;
  ci_will : errv c <> ctxLive -> done c = true -> closed c = false -> will_close c;
  ci_registered : registered c = true -> active (wk c) \/ wk c = WReg;
  ci_fires : 0 <= fires c < 2 ^ 64;
  ci_pending : pending c = true -> timerArmed c = true /\ fires c = armedFires c /\ (wk c = WHandle \/ wk c = WEnd);
  ci_armed : timerArmed c = true -> wk c = WArm \/ timed (wk c);
  ci_callback : forall i j, callback c i -> callback c j -> i = j;
  ci_spin : timerArmed c = true -> timed (wk c) -> pending c = true \/ fires c <> armedFires c \/ exists i, callback c i
}.

Lemma insert_cases (l : list thread_pc) i p j q : <[i := p]> l !! j = Some q -> (i <> j /\ l !! j = Some q) \/ (i = j /\ q = p).
Proof. intros H. apply list_lookup_insert_Some in H. naive_solver. Qed.

Lemma no_Done c : existsb in_Done (th c) = false -> forall i p, th c !! i = Some p -> in_Done p = false.
Proof.
  intros H i p Hp. destruct (in_Done p) eqn:E; [|done]. rewrite <- H. symmetry. apply existsb_exists. exists p. split; [|done].
  apply list_elem_of_In. by eapply list_elem_of_lookup_2.
Qed.

Ltac easy_facts := simpl in *; first [done | congruence | tauto | lia | intuition congruence].

Ltac thread_facts H :=
  match type of H with thread_ok _ _ ?p => destruct p as [|[]|[]| | | | | |]; simpl in *; repeat match goal with E : wk _ = _ |- _ => rewrite E in * end; try easy_facts end.

(** A step of the worker leaves the other goroutines where they are. *)
Ltac worker_case Ew Ht Hwl Hm Hnd :=
  constructor; unfold worker_ok; simpl; try assumption;
  lazymatch goal with
  | |- forall i p, _ -> thread_ok _ i p =>
      let i := fresh in let p := fresh in let Hi := fresh in intros i p Hi; specialize (Ht i p Hi); clear Hwl Hm; try (specialize (Hnd _ _ Hi)); thread_facts Ht
  | |- _ -> _ -> _ -> will_close _ =>
      let A := fresh in let B := fresh in let C := fresh in let W := fresh in
      intros A B C; first [left; exact I | solve [exfalso; simpl in *; congruence] | solve [destruct (Hwl A B C) as [W|W]; [left; rewrite Ew in W; easy_facts|right; exact W]]
        | let i := fresh in let Hi := fresh in right; destruct (Hm B) as [?|[i Hi]]; [congruence|exists i, TFlag; split; [exact Hi|exact I]]
        | idtac]
  | |- _ => try easy_facts
  end.

Lemma worker_inv mv c c' : ctx_inv c -> worker_step mv c = Some c' -> ctx_inv c'.
Proof.
  intros [Hw Ht Hn Hc Hf Hm Hwl Hr Hfi Hp Ha Hcb Hs] E. unfold worker_step, newRequestCtx_step, begin_step, end_step, release_step in E. unfold worker_ok in Hw.
  destruct (wk c) eqn:Ew, mv; try done; try (by destruct p).
  - injection E as <-. worker_case Ew Ht Hwl Hm I.
  - destruct (inflightMu c) eqn:Ei; [done|]. injection E as <-. worker_case Ew Ht Hwl Hm I.
  - injection E as <-. worker_case Ew Ht Hwl Hm I.
  - injection E as <-. worker_case Ew Ht Hwl Hm I.
  - injection E as <-. worker_case Ew Ht Hwl Hm I.
  - injection E as <-. destruct (live c) eqn:El; worker_case Ew Ht Hwl Hm I.
  - injection E as <-. worker_case Ew Ht Hwl Hm I.
  - injection E as <-. worker_case Ew Ht Hwl Hm I.
  - injection E as <-. worker_case Ew Ht Hwl Hm I.
  - injection E as <-. assert (Hpf : pending c = false) by (destruct (pending c); [destruct Hp as (_ & _ & [|]); done|done]). worker_case Ew Ht Hwl Hm I.
  - destruct p; unfold cancel_step, mbind, option_bind in E; simpl in E.
    + destruct (live c) eqn:El; injection E as <-; unfold live in El; [apply bool_decide_eq_true in El|apply bool_decide_eq_false in El]; [|worker_case Ew Ht Hwl Hm I].
      worker_case Ew Ht Hwl Hm I.
    + injection E as <-. destruct (hasDone c) eqn:Eh; worker_case Ew Ht Hwl Hm I.
    + destruct (mu c) eqn:Em; [done|]. injection E as <-. worker_case Ew Ht Hwl Hm I.
    + injection E as <-. rewrite (Hf (proj1 (proj2 Hw))). destruct (closed c) eqn:Ec; simpl; worker_case Ew Ht Hwl Hm I; by rewrite Ec.
    + injection E as <-. worker_case Ew Ht Hwl Hm I.
    + injection E as <-. worker_case Ew Ht Hwl Hm I.
  - injection E as <-. worker_case Ew Ht Hwl Hm I.
  - destruct (existsb in_Done (th c)) eqn:Ed; [done|]. injection E as <-. pose proof (no_Done c Ed) as Hnd. worker_case Ew Ht Hwl Hm Hnd.
  - destruct (timerArmed c) eqn:Ea; simpl in E; [|injection E as <-; worker_case Ew Ht Hwl Hm I].
    destruct (pending c) eqn:Ep; injection E as <-; worker_case Ew Ht Hwl Hm I.
  - destruct (Z.eqb_spec (fires c) (armedFires c)); injection E as <-; [|worker_case Ew Ht Hwl Hm I].
    constructor; try done; unfold worker_ok; rewrite Ew; done.
  - injection E as <-. worker_case Ew Ht Hwl Hm I.
    split; [done|]. intros [H%bool_decide_eq_true|H%bool_decide_eq_true]%orb_true_iff; [by left|by right].
  - destruct p; unfold cancel_step, mbind, option_bind in E; simpl in E.
    + destruct (live c) eqn:El; injection E as <-; unfold live in El; [apply bool_decide_eq_true in El|apply bool_decide_eq_false in El]; [|worker_case Ew Ht Hwl Hm I].
      worker_case Ew Ht Hwl Hm I. destruct Hw as [H1 H2]. split; [done|]. intros Hb. destruct (H2 Hb); congruence.
    + injection E as <-. destruct (hasDone c) eqn:Eh; worker_case Ew Ht Hwl Hm I.
    + destruct (mu c) eqn:Em; [done|]. injection E as <-. worker_case Ew Ht Hwl Hm I.
    + injection E as <-. rewrite (Hf (proj1 (proj2 (proj1 Hw)))). destruct (closed c) eqn:Ec; simpl; worker_case Ew Ht Hwl Hm I; by rewrite Ec.
    + injection E as <-. worker_case Ew Ht Hwl Hm I.
    + injection E as <-. worker_case Ew Ht Hwl Hm I.
  - injection E as <-. worker_case Ew Ht Hwl Hm I.
  - destruct (inflightMu c) eqn:Ei; [done|]. injection E as <-. worker_case Ew Ht Hwl Hm I.
  - injection E as <-. worker_case Ew Ht Hwl Hm I.
  - injection E as <-. destruct (hasDone c) eqn:Eh; worker_case Ew Ht Hwl Hm I.
  - injection E as <-. worker_case Ew Ht Hwl Hm I.
Qed.

(** What happens to the facts about some goroutine when goroutine [i] goes from
    [p0] to [p1]. *)
Section Moved.
Context (l : list thread_pc) (i : nat) (p0 p1 : thread_pc) (Hi : l !! i = Some p0).

Lemma moved_exists (P : thread_pc -> Prop) : (exists j q, l !! j = Some q /\ P q) -> (P p0 -> P p1) -> exists j q, <[i := p1]> l !! j = Some q /\ P q.
Proof.
  intros (j & q & Hj & HP) H. destruct (decide (i = j)) as [<-|Hne].
  - exists i, p1. split; [|apply H; congruence]. apply list_lookup_insert_eq. by eapply lookup_lt_Some.
  - exists j, q. by rewrite list_lookup_insert_ne.
Qed.

Lemma moved_here : <[i := p1]> l !! i = Some p1.
Proof. apply list_lookup_insert_eq. by eapply lookup_lt_Some. Qed.

Lemma moved_flag : (exists j, l !! j = Some TFlag) -> p0 <> TFlag -> exists j, <[i := p1]> l !! j = Some TFlag.
Proof. intros [j Hj] Hne. exists j. rewrite list_lookup_insert_ne; [done|]. intros <-. congruence. Qed.

Lemma moved_closer (b : bool) : b = true \/ (exists j, l !! j = Some TFlag) -> b = false -> p0 <> TFlag -> exists j q, <[i := p1]> l !! j = Some q /\ thread_closes q.
Proof. intros [H|H] Hb Hne; [congruence|]. destruct (moved_flag H Hne) as [j Hj]. by exists j, TFlag. Qed.

Definition timers (l : list thread_pc) (j : nat) : Prop := exists q, l !! j = Some q /\ is_timer q.

Lemma moved_unique : (forall a b, timers l a -> timers l b -> a = b) -> (is_timer p1 -> is_timer p0 \/ forall a, ~ timers l a) ->
  forall a b, timers (<[i := p1]> l) a -> timers (<[i := p1]> l) b -> a = b.
Proof.
  intros Hu H a b (q & [[Na Ha]|[<- ->]]%insert_cases & Tq) (r & [[Nb Hb]|[<- ->]]%insert_cases & Tr); [apply Hu; [by exists q|by exists r]| | |done].
  - destruct (H Tr) as [T|T]; [apply Hu; [by exists q|by exists p0]|by destruct (T a); exists q].
  - destruct (H Tq) as [T|T]; [apply Hu; [by exists p0|by exists r]|by destruct (T b); exists r].
Qed.

Lemma moved_timer : (exists j, timers l j) -> (is_timer p0 -> is_timer p1) -> exists j, timers (<[i := p1]> l) j.
Proof. intros (j & q & Hj & Hq) H. destruct (moved_exists is_timer) as (k & r & Hk & Hr); [by exists j, q|done|]. by exists k, r. Qed.
End Moved.

Ltac thread_case i Hi Ht Hwl Hm Hcb Hs :=
  constructor; simpl; try assumption;
  lazymatch goal with
  | |- worker_ok _ =>
      unfold worker_ok in *; simpl; let Ew := fresh "Ew" in
      match goal with |- context [wk ?c] => destruct (wk c) as [| | | | | |[]| | | | | |? []| | | | | |] eqn:Ew; clear Hwl Hm Hcb Hs; specialize (Ht i _ Hi); unfold gave_up in *; simpl in *; rewrite ?Ew in *; try easy_facts end
  | |- forall i p, _ -> thread_ok _ i p =>
      let j := fresh "j" in let q := fresh "q" in let Hj := fresh "Hj" in let Hne := fresh "Hne" in
      intros j q [[Hne Hj]|[<- ->]]%insert_cases; clear Hwl Hm Hcb Hs; [let Ho := fresh in pose proof (Ht i _ Hi) as Ho; specialize (Ht j q Hj); thread_facts Ht|specialize (Ht i _ Hi); try easy_facts]
  | |- _ -> _ \/ exists i, _ !! i = Some TFlag =>
      let B := fresh "B" in let W := fresh in
      intros B; first [ solve [left; easy_facts] | solve [right; exists i; by eapply moved_here]
        | destruct (Hm B) as [W|W]; [left; easy_facts|right; apply (moved_flag _ _ _ _ Hi W); done] ]
  | |- _ -> _ -> _ -> will_close _ =>
      let A := fresh "A" in let B := fresh "B" in let C := fresh "C" in let W := fresh in
      intros A B C; unfold will_close; simpl;
      first [ solve [right; exists i; eexists; split; [by eapply moved_here|exact I]] | solve [exfalso; simpl in *; congruence]
        | solve [destruct (Hwl A B C) as [W|W]; [by left|right; apply (moved_exists _ _ _ _ Hi thread_closes W); done]]
        | solve [right; apply (moved_closer _ _ _ _ Hi _ (Hm B)); [congruence|done]]
        | idtac]
  | |- forall a b, callback _ a -> callback _ b -> a = b => apply (moved_unique _ _ _ _ Hi Hcb); try (simpl; tauto)
  | |- _ -> _ -> _ \/ _ \/ exists i, callback _ i =>
      let A := fresh "A" in let B := fresh "B" in let W := fresh in
      intros A B; first [ solve [right; right; exists i; eexists; split; [by eapply moved_here|exact I]]
        | destruct (Hs A B) as [W|[W|W]]; [by left|by right; left|right; right; apply (moved_timer _ _ _ _ Hi W); done]
        | idtac ]
  | |- _ => clear Ht Hwl Hm Hcb Hs; try easy_facts
  end.

Lemma next_fires n : 0 <= n < 2 ^ 64 -> u64 (n + 1) <> n /\ 0 <= u64 (n + 1) < 2 ^ 64.
Proof. intros H. unfold u64, wrap. pose proof (Z.mod_pos_bound (n + 1) (2 ^ 64)). destruct (Z.eq_dec (n + 1) (2 ^ 64)) as [E|]; [rewrite E, Z.mod_same; lia|rewrite Z.mod_small; lia]. Qed.

Lemma thread_inv i mv c c' : ctx_inv c -> thread_step i mv c = Some c' -> ctx_inv c'.
Proof.
  intros [Hw Ht Hn Hc Hf Hm Hwl Hr Hfi Hp Ha Hcb Hs] E. unfold thread_step, Done_step, onTimer_step, cancelRequests_step, find_ctx in E.
  destruct (th c !! i) as [p|] eqn:Hi; [|done]. simpl in E.
  destruct p, mv; try done; try (by destruct p).
  - destruct (inflightMu c) eqn:Ei; [done|]. destruct (registered c) eqn:Er; [|done]. injection E as <-.
    assert (Hact : active (wk c)) by (destruct (Hr eq_refl) as [|Ew]; [done|unfold worker_ok in Hw; rewrite Ew in Hw; easy_facts]).
    thread_case i Hi Ht Hwl Hm Hcb Hs. destruct peer; easy_facts.
  - destruct (bool_decide _); [|done]. destruct (inflightMu c) eqn:Ei; [done|]. destruct (registered c) eqn:Er; [|done]. injection E as <-.
    assert (Hact : active (wk c)) by (destruct (Hr eq_refl) as [|Ew]; [done|unfold worker_ok in Hw; rewrite Ew in Hw; easy_facts]).
    thread_case i Hi Ht Hwl Hm Hcb Hs.
  - destruct (pending c) eqn:Ep; [|done]. injection E as <-. destruct (Hp eq_refl) as (Ha1 & Hfe & Hwk).
    assert (Htm : timed (wk c)) by (by destruct Hwk as [-> | ->]).
    thread_case i Hi Ht Hwl Hm Hcb Hs.
    intros _. right. intros a (q & Hq & Tq). specialize (Ht a q Hq). destruct q; try done. easy_facts.
  - assert (Ew : wk c = WHandle) by (by destruct (wk c)). rewrite Ew in E. injection E as <-. thread_case i Hi Ht Hwl Hm Hcb Hs.
  - destruct (inflightMu c) eqn:Ei; [done|]. injection E as <-. constructor; simpl; try done.
    + unfold worker_ok in *. simpl. destruct (wk c) as [| | | | | |[]| | | | | |? []| | | | | |]; easy_facts.
    + intros j q Hj. specialize (Ht j q Hj). clear Hwl Hm Hcb Hs. thread_facts Ht.
  - destruct p; unfold cancel_step, mbind, option_bind in E; simpl in E.
    + destruct (live c) eqn:El; injection E as <-; unfold live in El; [apply bool_decide_eq_true in El|apply bool_decide_eq_false in El]; thread_case i Hi Ht Hwl Hm Hcb Hs.
    + injection E as <-. destruct (hasDone c) eqn:Eh; thread_case i Hi Ht Hwl Hm Hcb Hs.
    + destruct (mu c) eqn:Em; [done|]. injection E as <-. thread_case i Hi Ht Hwl Hm Hcb Hs.
    + injection E as <-. pose proof (Ht i _ Hi) as Hi'. rewrite (Hf ltac:(apply Hi')). destruct (closed c) eqn:Ec; simpl; thread_case i Hi Ht Hwl Hm Hcb Hs; by rewrite Ec.
    + injection E as <-. thread_case i Hi Ht Hwl Hm Hcb Hs.
    + injection E as <-. thread_case i Hi Ht Hwl Hm Hcb Hs.
  - destruct p; unfold cancel_step, mbind, option_bind in E; simpl in E.
    + destruct (live c) eqn:El; injection E as <-; unfold live in El; [apply bool_decide_eq_true in El|apply bool_decide_eq_false in El]; thread_case i Hi Ht Hwl Hm Hcb Hs.
    + injection E as <-. destruct (hasDone c) eqn:Eh; thread_case i Hi Ht Hwl Hm Hcb Hs.
    + destruct (mu c) eqn:Em; [done|]. injection E as <-. thread_case i Hi Ht Hwl Hm Hcb Hs.
    + injection E as <-. pose proof (Ht i _ Hi) as Hi'. rewrite (Hf ltac:(apply Hi')). destruct (closed c) eqn:Ec; simpl; thread_case i Hi Ht Hwl Hm Hcb Hs; by rewrite Ec.
    + injection E as <-. thread_case i Hi Ht Hwl Hm Hcb Hs.
    + injection E as <-. destruct (Ht i _ Hi) as (He & Hta & Hpf & Hfe & Htm). destruct (next_fires (fires c) Hfi) as [Hu Hu'].
      assert (Hno : forall j q, th c !! j = Some q -> i <> j -> ~ is_timer q).
      { intros j q Hj Hne Tq. apply Hne, Hcb; [by exists (TTimer CRet)|by exists q]. }
      thread_case i Hi Ht Hwl Hm Hcb Hs; try (by destruct (Hno j _ Hj Hne)); right; left; congruence.
  - injection E as <-. destruct (live c) eqn:El; thread_case i Hi Ht Hwl Hm Hcb Hs.
  - destruct (mu c) eqn:Em; [done|]. injection E as <-. thread_case i Hi Ht Hwl Hm Hcb Hs.
  - assert (Hh : done c = true -> hasDone c = true).
    { intros Hd. destruct (Hm Hd) as [|[j Hj]]; [done|]. pose proof (Ht i _ Hi) as [_ H1]. pose proof (Ht j _ Hj) as (_ & H2 & _). congruence. }
    assert (Ed : done c = true \/ done c = false) by (destruct (done c); auto).
    destruct Ed as [Ed|Ed]; rewrite Ed in E; injection E as <-; thread_case i Hi Ht Hwl Hm Hcb Hs.
  - injection E as <-. pose proof (Ht i _ Hi) as (_ & _ & Hd). thread_case i Hi Ht Hwl Hm Hcb Hs.
  - pose proof (Ht i _ Hi) as (_ & Hmu & Hh). assert (Hd := Hf Hh).
    destruct (negb (live c) && negb (closed c)) eqn:El; injection E as <-.
    + apply andb_true_iff in El as [El Ec]. apply negb_true_iff in El, Ec. thread_case i Hi Ht Hwl Hm Hcb Hs. by rewrite Hn, Ec.
    + thread_case i Hi Ht Hwl Hm Hcb Hs. exfalso. rewrite C, andb_true_r in El. apply negb_false_iff, bool_decide_eq_true in El. done.
  - injection E as <-. thread_case i Hi Ht Hwl Hm Hcb Hs.
Qed.

Lemma ctx_inv_new n : ctx_inv (new_ctx n).
Proof.
  assert (Hidle : forall i p, replicate n TIdle !! i = Some p -> p = TIdle) by (intros i p [-> _]%lookup_replicate; done).
  assert (Hno : forall i, ~ callback (new_ctx n) i) by (intros i (p & ->%Hidle & Hp); done).
  constructor; simpl; try done; try lia.
  - intros i p ->%Hidle. done.
  - intros i j H. by apply Hno in H.
Qed.

Lemma ctx_reachable n c : rtc ctx_step (new_ctx n) c -> ctx_inv c.
Proof.
  assert (G : forall a b, rtc ctx_step a b -> ctx_inv a -> ctx_inv b).
  { induction 1 as [|x y z Hs _ IH]; [done|]. intros H. apply IH. destruct Hs; eauto using worker_inv, thread_inv. }
  intros H. eapply G; [exact H|apply ctx_inv_new].
Qed.

(** ** Theorem *)

Lemma cancel_keeps w p c p' c' : cancel_step w p c = Some (p', c') -> errv c <> ctxLive -> errv c' = errv c.
Proof.
  intros E Hl. destruct p; simpl in E; repeat case_match; simplify_eq; simpl; try done. exfalso. apply Hl. unfold live in *. by case_bool_decide.
Qed.

(** A context that ended keeps its reason until it is recycled. *)
Lemma step_keeps c c' : ctx_step c c' -> errv c <> ctxLive -> wk c <> WReset -> errv c' = errv c.
Proof.
  intros Hs Hl Hr. destruct Hs as [c mv c' E|c i mv c' E].
  - unfold worker_step, newRequestCtx_step, begin_step, end_step, release_step in E. destruct (wk c), mv; try done; repeat case_match; simplify_eq; try done;
      apply bind_Some in E as ([p' c1] & E1 & [= <-]); by apply (cancel_keeps _ _ _ _ _ E1).
  - unfold thread_step, Done_step, onTimer_step, cancelRequests_step, find_ctx in E. destruct (th c !! i) as [p|]; [|done]. simpl in E.
    destruct p, mv; try done; repeat case_match; simplify_eq; try done;
      apply bind_Some in E as ([p' c1] & E1 & [= <-]); by apply (cancel_keeps _ _ _ _ _ E1).
Qed.

(** A context in the pool, as [newRequestCtx] expects it. *)
Definition clean_ctx (c : reqCtx) : Prop :=
  errv c = ctxLive /\ done c = false /\ hasDone c = false /\ closed c = false /\ owner c = None /\ registered c = false /\
  timerArmed c = false /\ pending c = false /\ forall i p, th c !! i = Some p -> p = TIdle.

Lemma pooled_clean c : ctx_inv c -> wk c = WPool -> clean_ctx c.
Proof.
  intros [Hw Ht Hn Hc Hf Hm Hwl Hr Hfi Hp Ha Hcb Hs] Ew. unfold worker_ok in Hw. rewrite Ew in *. destruct Hw as (He & Hh & Ho & Hreg).
  assert (Hidle : forall i p, th c !! i = Some p -> p = TIdle).
  { intros i p Hi. specialize (Ht i p Hi). destruct p; simpl in Ht; rewrite ?Ew in Ht; easy_facts. }
  assert (Hd : done c = false) by (destruct (done c); [destruct (Hm eq_refl) as [|[i Hi%Hidle]]; congruence|done]).
  split_and!; try done.
  - destruct (closed c); [|done]. specialize (Hc eq_refl). congruence.
  - destruct (timerArmed c); [|done]. by destruct (Ha eq_refl).
  - destruct (pending c); [|done]. by destruct (Hp eq_refl) as (_ & _ & [|]).
Qed.

(** C19. Request contexts. However the goroutines interleave, over any number of
    requests: the channel of a context is closed at most once, and once the
    context has ended a channel that was handed out is closed or some goroutine
    is on its way to close it; the first reason wins, and [Err] keeps reporting
    it until the request is released; a callback of the deadline timer runs only
    while the request it was armed for is handled or ends, and [end] waits for
    nothing but it; a response is left out only if the caller gave up; and a
    context goes back to the pool clean, with no goroutine left in it. *)
Theorem request_context_safe n c (Hc : rtc ctx_step (new_ctx n) c) :
  (closes c <= 1)%nat /\
  (errv c <> ctxLive -> done c = true -> closed c = true \/ will_close c) /\
  (forall c' parent parent', ctx_step c c' -> errv c <> ctxLive -> wk c <> WReset -> errv c' = errv c /\ Err parent' c' = Err parent c) /\
  (forall i, callback c i -> timerArmed c = true /\ timed (wk c) /\ forall j, callback c j -> j = i) /\
  (wk c = WSpin -> fires c <> armedFires c \/ exists i, callback c i) /\
  (wk c = WResp true -> gave_up (errv c)) /\
  (wk c = WPool -> clean_ctx c).
Proof.
  apply ctx_reachable in Hc. pose proof Hc as [Hw Ht Hn Hcl Hf Hm Hwl Hr Hfi Hp Ha Hcb Hs]. split_and!.
  - rewrite Hn. by destruct (closed c); lia.
  - intros He Hd. destruct (closed c); auto.
  - intros c' parent parent' Hst He Hwk. pose proof (step_keeps c c' Hst He Hwk) as E. split; [done|]. unfold Err. rewrite E. by destruct (errv c).
  - intros i Hi. pose proof Hi as (p & Hp' & Tp). specialize (Ht i p Hp'). destruct p; try done. destruct Ht as (_ & ? & _ & _ & ?). split_and!; [done|done|]. intros j Hj. by apply Hcb.
  - intros Ew. unfold worker_ok in Hw. rewrite Ew in *. destruct Hw as [H1 H2]. destruct (Hs H1 I) as [|[|]]; [congruence|by left|by right].
  - intros Ew. unfold worker_ok in Hw. rewrite Ew in Hw. by apply Hw.
  - intros Ew. by apply pooled_clean.
Qed.

(** A schedule of moves. *)
Inductive move := W (mv : worker_move) | T (i : nat) (mv : thread_move).

Fixpoint play (l : list move) (c : reqCtx) : option reqCtx :=
  match l with
  | [] => Some c
  | W mv :: l => worker_step mv c ≫= play l
  | T i mv :: l => thread_step i mv c ≫= play l
  end.

Lemma play_sound l : forall c c', play l c = Some c' -> rtc ctx_step c c'.
Proof.
  induction l as [|[mv|i mv] l IH]; intros c c' E; simpl in E; [injection E as ->; constructor|..].
  - apply bind_Some in E as (c1 & E1 & E2). eapply rtc_l; [by eapply cs_worker|by apply IH].
  - apply bind_Some in E as (c1 & E1 & E2). eapply rtc_l; [by eapply cs_thread|by apply IH].
Qed.

(** The handler asks for the channel while the deadline passes: the callback has
    ended the context and looks for the channel before its flag is set, so the
    call of Done itself closes it. *)
Definition deadline_schedule : list move :=
  replicate 3 (W Go) ++ [W (Begin 7); W Go; W Budget; W Go; T 0 CallDone; T 0 Next; T 0 Next; T 0 Next; T 1 Fire; T 1 Next; T 1 Next; T 0 Next].

Definition deadline_ctx : reqCtx := Eval vm_compute in default (new_ctx 0) (play deadline_schedule (new_ctx 2)).

Lemma deadline_played : play deadline_schedule (new_ctx 2) = Some deadline_ctx.
Proof. vm_compute. reflexivity. Qed.

Lemma request_context_safe_witness : rtc ctx_step (new_ctx 2) deadline_ctx /\ errv deadline_ctx = ctxDeadline /\ done deadline_ctx = true /\
  closed deadline_ctx = false /\ will_close deadline_ctx.
Proof.
  pose proof (play_sound _ _ _ deadline_played) as H. destruct (request_context_safe 2 deadline_ctx H) as (_ & H2 & _).
  split; [exact H|]. split; [reflexivity|]. split; [reflexivity|]. split; [reflexivity|].
  destruct H2 as [H2|H2]; [vm_compute; congruence|reflexivity|vm_compute in H2; discriminate H2|exact H2].
Defined.

(** One context serves a request that is canceled by the peer, goes back to the
    pool, and serves the next one. *)
Example recycled : exists c, play (replicate 3 (W Go) ++ [W (Begin 7); W Go; W NoBudget; T 0 (Cancel true); T 0 Next; T 0 Next; T 0 Next] ++ replicate 10 (W Go) ++
  replicate 3 (W Go)) (new_ctx 1) = Some c /\ wk c = WQueued /\ errv c = ctxLive /\ registered c = true.
Proof. eexists. vm_compute. done. Qed.
