(* ===== verification/Dispatch.v ===== *)
(** * Dispatch: who receives, and where messages go

    Models the receive side of an Advanced link above reassembly:
    [receiveQueued], [awaitResponse] and [receiveRoute] of advanced_io.go, the
    dispatcher with [route], [deliver] and [finishDelivery] of
    advanced_dispatch.go, and the closing of a stream (stream.go,
    [handlePeerClose] of advanced_stream.go). A caller that finds nobody
    receiving receives for everybody; otherwise a dispatcher takes over, which
    routes outside the lock the others receive under. A step is one atomic
    access, critical section or channel operation of one of any number of
    goroutines. *)
From stdpp Require Import gmap.
From S2P Require Import Prelude Errors Protocol Superblock Streams.

(** A destination: the queue of a stream, or the request queue. *)
Notation dest := (option Z).
Notation packet := (dest * Z)%type.

(** What the receive ring delivers, once reassembled: a message; a response (it
    goes to its call, see Calls); the peer opens or closes a stream; a control
    packet that does neither, or that is ignored (the close of a stream that is
    still opening); a frame that breaks the protocol. *)
Inductive item := IMsg (d : dest) (m : Z) | IResp | IOpen (id : Z) | IClose (id : Z) | ICtl | IBad.

(** Why a message never reaches a queue, or leaves it unread: no such stream;
    the queue was full; the stream or the link was closed; Shutdown refused the
    request. *)
Inductive fate := Unknown | Overflow | Discarded | Refused.

#[export] Instance fate_eq_dec : EqDecision fate.
Proof. solve_decision. Defined.

(** ** Messages *)

Record data := mkData {
  inbox : list item;
  queues : gmap dest (list Z);
  table : gset Z;                       (* l.streams and stream 0 *)
  lclosed : gset Z; pclosed : gset Z;   (* streamLocalClosed, streamPeerClosed *)
  life : bool;                          (* the link is not closing *)
  fly : option packet;                  (* the message being routed *)
  arrived : list packet; taken : list packet; lost : list (fate * packet);
  shuttingDown : bool;                  (* Shutdown was called *)
  opened : gset Z                       (* the streams that were ever in the table *)
}.

Definition queue (D : data) (d : dest) : list Z := default [] (queues D !! d).
Definition closed_id (D : data) (id : Z) : bool := bool_decide (id ∈ lclosed D) || bool_decide (id ∈ pclosed D).

Definition set_inbox (l : list item) (D : data) : data :=
  mkData l (queues D) (table D) (lclosed D) (pclosed D) (life D) (fly D) (arrived D) (taken D) (lost D) (shuttingDown D) (opened D).
Definition set_tables (t lc pc : gset Z) (D : data) : data :=
  mkData (inbox D) (queues D) t lc pc (life D) (fly D) (arrived D) (taken D) (lost D) (shuttingDown D) (opened D).
Definition end_life (D : data) : data :=
  mkData (inbox D) (queues D) (table D) (lclosed D) (pclosed D) false (fly D) (arrived D) (taken D) (lost D) (shuttingDown D) (opened D).

(** [Shutdown] sets [shuttingDown]. *)
Definition shut_down (D : data) : data :=
  mkData (inbox D) (queues D) (table D) (lclosed D) (pclosed D) (life D) (fly D) (arrived D) (taken D) (lost D) true (opened D).

(** The peer sends something. *)
Definition arrive (it : item) (D : data) : data :=
  mkData (inbox D ++ [it]) (queues D) (table D) (lclosed D) (pclosed D) (life D) (fly D)
    (match it with IMsg d m => arrived D ++ [(d, m)] | _ => arrived D end) (taken D) (lost D) (shuttingDown D) (opened D).

(** A message leaves the ring to be routed. *)
Definition lift (x : packet) (l : list item) (D : data) : data :=
  mkData l (queues D) (table D) (lclosed D) (pclosed D) (life D) (Some x) (arrived D) (taken D) (lost D) (shuttingDown D) (opened D).

(** It is queued, or it is not. *)
Definition enqueue (d : dest) (m : Z) (D : data) : data :=
  mkData (inbox D) (<[d := queue D d ++ [m]]> (queues D)) (table D) (lclosed D) (pclosed D) (life D) None (arrived D) (taken D) (lost D) (shuttingDown D) (opened D).
Definition lose (f : fate) (x : packet) (D : data) : data :=
  mkData (inbox D) (queues D) (table D) (lclosed D) (pclosed D) (life D) None (arrived D) (taken D) (lost D ++ [(f, x)]) (shuttingDown D) (opened D).

(** A receiver takes the first message of a queue; [drain] discards it. *)
Definition take_from (d : dest) (D : data) : option data :=
  match queue D d with
  | [] => None
  | m :: q => Some (mkData (inbox D) (<[d := q]> (queues D)) (table D) (lclosed D) (pclosed D) (life D) (fly D) (arrived D) (taken D ++ [(d, m)]) (lost D) (shuttingDown D) (opened D))
  end.
Definition drain_one (d : dest) (D : data) : option data :=
  match queue D d with
  | [] => None
  | m :: q => Some (mkData (inbox D) (<[d := q]> (queues D)) (table D) (lclosed D) (pclosed D) (life D) (fly D) (arrived D) (taken D) (lost D ++ [(Discarded, (d, m))]) (shuttingDown D) (opened D))
  end.

(** [handlePeerClose]: an unknown stream is ignored, and stream 0 is not in the
    table of the code. *)
Definition peer_close (id : Z) (D : data) : data :=
  if negb (id =? 0) && bool_decide (id ∈ table D) then set_tables (table D ∖ {[id]}) (lclosed D) (pclosed D ∪ {[id]}) D else D.

(** A stream enters the table; IDs are never used again (Streams). *)
Definition open_stream (id : Z) (D : data) : data :=
  if closed_id D id then D
  else mkData (inbox D) (queues D) (table D ∪ {[id]}) (lclosed D) (pclosed D) (life D) (fly D) (arrived D) (taken D) (lost D)
         (shuttingDown D) (opened D ∪ {[id]}).

Definition forget (id : Z) (D : data) : data := set_tables (table D ∖ {[id]}) (lclosed D) (pclosed D) D.

(** The tests of [route] and, for a request, of [routeRequest]: does the message
    have a destination? *)
Definition routable (d : dest) (D : data) : bool :=
  match d with None => negb (shuttingDown D) | Some id => bool_decide (id ∈ table D) && negb (closed_id D id) end.

Definition stray (d : dest) (D : data) : fate :=
  match d with Some id => if closed_id D id then Discarded else Unknown | None => Refused end.

(** ** Goroutines *)

(** What a caller waits for: a message of a queue, or the response to its call
    on a stream. *)
Inductive wanted := KRecv (d : dest) | KCall (id : Z).

(** A caller of [receiveQueued] or [awaitResponse], a goroutine of
    [finishDelivery], or one that closes a stream. The callers: before the test
    whether the stream is closed; before the first look at the queue; before
    the test whether the peer closed; before the last look after that; before
    the load of [dispatchStarted]; in the select of a link with a dispatcher;
    after the dispatcher ended; before TryLock, and [startDispatcher] if it fails
    (which fails on a link that is closing); with the lock, before the second
    load, before the look, in [receiveNextLocked], before the test of [route],
    in [deliver], before the unlock and the next round, a return or an error;
    before the look after an error. [REof] is a [Recv] that returned
    ErrPeerClosed. *)
Inductive thread_pc :=
| RIdle
| RTop (k : wanted) | RTake (k : wanted) | RPeer (k : wanted) | RLast (k : wanted) | REof (k : wanted) | RDisp (k : wanted) | RWait (k : wanted) | RDead (k : wanted)
| RTry (k : wanted) | RLocked (k : wanted) | RCheck (k : wanted) | RNext (k : wanted)
| RRoute (k : wanted) (d : dest) (m : Z) | RDeliver (k : wanted) (d : dest) (m : Z)
| RDone (k : wanted) | RRet (k : wanted) | RFail (k : wanted) | RErr (k : wanted)
| FBlock (d : dest) (m : Z) | FUnlock
| CMark (id : Z) | CForget (id : Z) | CDrain (id : Z).

(** The dispatcher: not started; before the lock; receiving; with a message,
    before the unlock; before the test of [route]; in [deliver]; in
    [deliverBlocking]; with an error, before the unlock; gone. *)
Inductive disp_pc :=
| DNone | DLock | DNext | DGot (d : dest) (m : Z) | DSkip | DRoute (d : dest) (m : Z) | DDeliver (d : dest) (m : Z) | DBlock (d : dest) (m : Z) | DFail | DGone.

(** Who holds [receiveMu]: the dispatcher ([None]) or a goroutine. *)
Record link := mkLink {
  receiveMu : option (option nat);
  dispatchStarted : bool;
  dpc : disp_pc;
  downed : bool;                        (* the dispatcher has held the lock *)
  th : list thread_pc;
  dat : data
}.

Definition set_pc (i : nat) (p : thread_pc) (s : link) : link :=
  mkLink (receiveMu s) (dispatchStarted s) (dpc s) (downed s) (<[i := p]> (th s)) (dat s).
Definition set_lock (l : option (option nat)) (s : link) : link := mkLink l (dispatchStarted s) (dpc s) (downed s) (th s) (dat s).
Definition set_dat (D : data) (s : link) : link := mkLink (receiveMu s) (dispatchStarted s) (dpc s) (downed s) (th s) D.
Definition set_dpc (p : disp_pc) (s : link) : link := mkLink (receiveMu s) (dispatchStarted s) p (downed s) (th s) (dat s).

(** [startDispatcher], for a link that is open. *)
Definition startDispatcher (s : link) : link :=
  if dispatchStarted s then s else mkLink (receiveMu s) true DLock (downed s) (th s) (dat s).

(** [go l.finishDelivery(stall)], which takes over the lock. *)
Definition spawn (d : dest) (m : Z) (s : link) : link :=
  mkLink (Some (Some (length (th s)))) (dispatchStarted s) (dpc s) (downed s) (th s ++ [FBlock d m]) (dat s).

Section Link.
Context (overflow : OverflowPolicy) (queueSize : nat).

Definition full (d : dest) (D : data) : bool := (queueSize <=? length (queue D d))%nat.

(** What a goroutine does: start to receive, wait for a response or close a
    stream; the next access; its context ends, its response is there or the
    select chooses the closed stream; the dispatcher is gone. *)
Inductive thread_move := Receive (k : wanted) | CloseStream (id : Z) | Go | GiveUp | Got | Wake | Gone.

(** The queue a caller looks at. *)
Definition look (k : wanted) (D : data) : option data := match k with KRecv d => take_from d D | KCall _ => None end.

Definition done_closed (k : wanted) (D : data) : bool :=
  match k with KRecv (Some id) | KCall id => closed_id D id | KRecv None => true end.

(** One packet of [receiveNextLocked]: what it is worth to the receiver. *)
Inductive received := GotMsg (d : dest) (m : Z) | GotResp | GotControl | GotError.

Definition receive_one (D : data) : option (received * data) :=
  match inbox D with
  | [] => None
  | IMsg d m :: l => Some (GotMsg d m, lift (d, m) l D)
  | IResp :: l => Some (GotResp, set_inbox l D)
  | IOpen id :: l => Some (GotControl, open_stream id (set_inbox l D))
  | IClose id :: l => Some (GotControl, peer_close id (set_inbox l D))
  | ICtl :: l => Some (GotControl, set_inbox l D)
  | IBad :: l => Some (GotError, set_inbox l D)
  end.

(** [receiveQueued] and [awaitResponse], up to the lock ... *)
Definition receiveQueued_step (i : nat) (p : thread_pc) (mv : thread_move) (s : link) : option link :=
  let D := dat s in
  match p, mv with
  | RTop (KCall _), Got => Some (set_pc i RIdle s)
  | RTop (KRecv None), GiveUp => Some (set_pc i RIdle s)
  | RTop k, Go => Some (set_pc i (match k with KRecv (Some id) => if bool_decide (id ∈ lclosed D) then RIdle else RTake k | _ => RTake k end) s)
  | RTake (KCall id), Go => Some (set_pc i (if closed_id D id then RIdle else RDisp (KCall id)) s)
  | RTake k, Go => Some (match look k D with Some D => set_pc i RIdle (set_dat D s) | None => set_pc i (RPeer k) s end)
  | RPeer k, Go => Some (set_pc i (match k with KRecv (Some id) => if bool_decide (id ∈ pclosed D) then RLast k else RDisp k | _ => RDisp k end) s)
  | RLast k, Go => Some (match look k D with Some D => set_pc i RIdle (set_dat D s) | None => set_pc i (REof k) s end)
  | REof k, Go => Some (set_pc i RIdle s)
  | RDisp k, Go => Some (set_pc i (if dispatchStarted s then RWait k else RTry k) s)
  | RWait k, Go => D ← look k D; Some (set_pc i RIdle (set_dat D s))
  | RWait (KCall _), Got | RWait _, GiveUp => Some (set_pc i RIdle s)
  | RWait k, Wake => if done_closed k D then Some (set_pc i (RTop k) s) else None
  | RWait k, Gone => match dpc s with DGone => Some (set_pc i (RDead k) s) | _ => None end
  | RDead k, Go => Some (match look k D with Some D => set_pc i RIdle (set_dat D s) | None => set_pc i RIdle s end)
  | RTry k, Go =>
      match receiveMu s with
      | None => Some (set_pc i (RLocked k) (set_lock (Some (Some i)) s))
      | Some _ => if life D then Some (set_pc i (match dpc s with DGone => RIdle | _ => RTop k end) (startDispatcher s)) else Some (set_pc i RIdle s)
      end
  | RTry k, GiveUp => match receiveMu s with Some _ => Some (set_pc i RIdle s) | None => None end
  | RErr k, Go => Some (match look k D with Some D => set_pc i RIdle (set_dat D s) | None => set_pc i RIdle s end)
  | _, _ => None
  end.

(** ... with the lock, and [receiveRoute]. *)
Definition receiveRoute_step (i : nat) (p : thread_pc) (mv : thread_move) (s : link) : option link :=
  let D := dat s in
  match p, mv with
  | RLocked k, Go => Some (set_pc i (if dispatchStarted s then RDone k else RCheck k) s)
  | RCheck (KCall id), Got => Some (set_pc i (RRet (KCall id)) s)
  | RCheck k, Go => Some (match look k D with Some D => set_pc i (RRet k) (set_dat D s) | None => set_pc i (RNext k) s end)
  | RNext k, GiveUp => Some (set_pc i (RFail k) s)
  | RNext k, Go =>
      '(r, D) ← receive_one D;
      Some (set_pc i (match r with GotMsg d m => RRoute k d m | GotResp => RDone k | GotControl => RNext k | GotError => RFail k end) (set_dat D s))
  | RRoute k d m, Go =>
      Some (if routable d D then set_pc i (RDeliver k d m) s else set_pc i (RDone k) (set_dat (lose (stray d D) (d, m) D) s))
  | RDeliver k d m, Go =>
      Some (if negb (full d D) then set_pc i (RDone k) (set_dat (enqueue d m D) s)
            else match overflow with
                 | OverflowDrop => set_pc i (RDone k) (set_dat (lose Overflow (d, m) D) s)
                 | OverflowFail => set_pc i (RFail k) (set_dat (lose Overflow (d, m) D) s)
                 | OverflowBlock => spawn d m (set_pc i (RTop k) s)
                 end)
  | RDone k, Go => Some (set_pc i (RTop k) (set_lock None s))
  | RRet k, Go => Some (set_pc i RIdle (set_lock None s))
  | RFail k, Go => Some (set_pc i (RErr k) (set_lock None s))
  | _, _ => None
  end.

(** [finishDelivery], with the select of [deliverBlocking]. *)
Definition finishDelivery_step (i : nat) (p : thread_pc) (mv : thread_move) (s : link) : option link :=
  let D := dat s in
  match p, mv with
  | FBlock d m, Go => if negb (full d D) then Some (set_pc i FUnlock (set_dat (enqueue d m D) s)) else None
  | FBlock (Some id) m, Wake => if closed_id D id then Some (set_pc i FUnlock (set_dat (lose Discarded (Some id, m) D) s)) else None
  | FBlock d m, GiveUp => if life D then None else Some (set_pc i FUnlock (set_dat (lose Discarded (d, m) D) s))
  | FUnlock, Go => Some (set_pc i RIdle (set_lock None s))
  | _, _ => None
  end.

(** [Stream.Close], with [markClosed], [forgetConnection] and [drain]. *)
Definition closeStream_step (i : nat) (p : thread_pc) (mv : thread_move) (s : link) : option link :=
  let D := dat s in
  match p, mv with
  | CMark id, Go =>
      Some (if (id =? 0) || bool_decide (id ∈ lclosed D) then set_pc i RIdle s
            else set_pc i (CForget id) (set_dat (set_tables (table D) (lclosed D ∪ {[id]}) (pclosed D) D) s))
  | CForget id, Go => Some (set_pc i (CDrain id) (set_dat (forget id D) s))
  | CDrain id, Go => Some (match drain_one (Some id) D with Some D => set_dat D s | None => set_pc i RIdle s end)
  | _, _ => None
  end.

Definition thread_step (i : nat) (mv : thread_move) (s : link) : option link :=
  p ← th s !! i;
  match p, mv with
  | RIdle, Receive k => Some (set_pc i (RTop k) s)
  | RIdle, CloseStream id => Some (set_pc i (CMark id) s)
  | (RTop _ | RTake _ | RPeer _ | RLast _ | REof _ | RDisp _ | RWait _ | RDead _ | RTry _ | RErr _), _ => receiveQueued_step i p mv s
  | (RLocked _ | RCheck _ | RNext _ | RRoute _ _ _ | RDeliver _ _ _ | RDone _ | RRet _ | RFail _), _ => receiveRoute_step i p mv s
  | (FBlock _ _ | FUnlock), _ => finishDelivery_step i p mv s
  | (CMark _ | CForget _ | CDrain _), _ => closeStream_step i p mv s
  | _, _ => None
  end.

(** [dispatchLoop]: it receives under the lock and routes without it. *)
Definition dispatch_step (mv : thread_move) (s : link) : option link :=
  let D := dat s in
  match dpc s, mv with
  | DLock, Go => match receiveMu s with None => Some (mkLink (Some None) (dispatchStarted s) DNext true (th s) D) | Some _ => None end
  | DNext, GiveUp => Some (set_dpc DFail s)
  | DNext, Go =>
      '(r, D) ← receive_one D;
      Some (set_dpc (match r with GotMsg d m => DGot d m | GotResp => DSkip | GotControl => DNext | GotError => DFail end) (set_dat D s))
  | DGot d m, Go => Some (set_dpc (DRoute d m) (set_lock None s))
  | DSkip, Go => Some (set_dpc DLock (set_lock None s))
  | DRoute d m, Go => Some (if routable d D then set_dpc (DDeliver d m) s else set_dpc DLock (set_dat (lose (stray d D) (d, m) D) s))
  | DDeliver d m, Go =>
      Some (if negb (full d D) then set_dpc DLock (set_dat (enqueue d m D) s)
            else match overflow with
                 | OverflowDrop => set_dpc DLock (set_dat (lose Overflow (d, m) D) s)
                 | OverflowFail => set_dpc DGone (set_dat (lose Overflow (d, m) D) s)
                 | OverflowBlock => set_dpc (DBlock d m) s
                 end)
  | DBlock d m, Go => if negb (full d D) then Some (set_dpc DLock (set_dat (enqueue d m D) s)) else None
  | DBlock (Some id) m, Wake => if closed_id D id then Some (set_dpc DLock (set_dat (lose Discarded (Some id, m) D) s)) else None
  | DBlock d m, GiveUp => if life D then None else Some (set_dpc DGone (set_dat (lose Discarded (d, m) D) s))
  | DFail, Go => Some (set_dpc DGone (set_lock None s))
  | _, _ => None
  end.

(** The peer sends; a stream is opened here, or leaves the table without being
    closed (OpenStream gives up, or the link is closed); the link is closed, or
    Shutdown called; a goroutine or the dispatcher goes on. *)
Inductive link_step : link -> link -> Prop :=
| ls_arrive s it : link_step s (set_dat (arrive it (dat s)) s)
| ls_open s id : link_step s (set_dat (open_stream id (dat s)) s)
| ls_forget s id : id <> 0 -> link_step s (set_dat (forget id (dat s)) s)
| ls_close s : link_step s (set_dat (end_life (dat s)) s)
| ls_shutdown s : link_step s (set_dat (shut_down (dat s)) s)
| ls_thread s i mv s' : thread_step i mv s = Some s' -> link_step s s'
| ls_dispatch s mv s' : dispatch_step mv s = Some s' -> link_step s s'.

End Link.

Definition new_link (n : nat) : link :=
  mkLink None false DNone false (replicate n RIdle) (mkData [] ∅ {[0]} ∅ ∅ true None [] [] [] false {[0]}).

(** ** The path of a message *)

(** The messages of a log that are for [d]. *)
Definition for_dest (d : dest) (l : list packet) : list Z := omap (fun x => if decide (x.1 = d) then Some x.2 else None) l.

Definition in_ring (l : list item) : list packet := omap (fun it => match it with IMsg d m => Some (d, m) | _ => None end) l.

(** Everything for [d] that was read, is queued, is being routed or is still in
    the ring. *)
Definition line (D : data) (d : dest) : list Z :=
  for_dest d (taken D) ++ queue D d ++ for_dest d (option_list (fly D)) ++ for_dest d (in_ring (inbox D)).

Definition lost_to (D : data) (d : dest) : list Z := for_dest d (lost D).*2.

(** What can still be said of a loss in every later state; [loss_ok] below is
    what holds at the moment it happens. *)
Definition fate_ok (overflow : OverflowPolicy) (D : data) (x : fate * packet) : Prop :=
  match x with
  | (Unknown, (d, _)) => d <> None
  | (Overflow, _) => overflow <> OverflowBlock
  | (Discarded, (d, _)) => life D = false \/ exists id, d = Some id /\ closed_id D id = true
  | (Refused, (d, _)) => d = None /\ shuttingDown D = true
  end.

(** Why a message may be lost at the moment it is: its stream is not in the
    table; the queue is full and the policy does not wait; its stream or the
    link is closed; it is a request and Shutdown was called. *)
Definition loss_ok (overflow : OverflowPolicy) (queueSize : nat) (D : data) (x : fate * packet) : Prop :=
  match x with
  | (Unknown, (d, _)) => exists id, d = Some id /\ id ∉ table D /\ closed_id D id = false
  | (Overflow, (d, _)) => overflow <> OverflowBlock /\ (queueSize <= length (queue D d))%nat
  | (Discarded, (d, _)) => life D = false \/ exists id, d = Some id /\ closed_id D id = true
  | (Refused, (d, _)) => d = None /\ shuttingDown D = true
  end.

(** Nothing is queued or read for a stream that never was in the table. *)
Record only_opened (D : data) : Prop := mkOnlyOpened {
  oo_table : table D ⊆ opened D;
  oo_queue : forall id, id ∉ opened D -> queue D (Some id) = [];
  oo_taken : forall id, id ∉ opened D -> for_dest (Some id) (taken D) = []
}.

Record data_inv (overflow : OverflowPolicy) (queueSize : nat) (D : data) : Prop := mkDataInv {
  di_order : forall d, line D d `sublist_of` for_dest d (arrived D);
  di_all : forall d, for_dest d (arrived D) ≡ₚ line D d ++ lost_to D d;
  di_fates : Forall (fate_ok overflow D) (lost D);
  di_room : forall d, (length (queue D d) <= queueSize)%nat
}.

Lemma for_dest_app d l l' : for_dest d (l ++ l') = for_dest d l ++ for_dest d l'.
Proof. unfold for_dest. by rewrite omap_app. Qed.

Lemma for_dest_one d e m : for_dest d [(e, m)] = if decide (e = d) then [m] else [].
Proof. unfold for_dest. simpl. by case_decide. Qed.

Section DataOps.
Context (overflow : OverflowPolicy) (queueSize : nat).
Notation inv := (data_inv overflow queueSize).

(** Changes that neither move nor lose messages. *)
Lemma same_messages D D' : inbox D' = inbox D -> queues D' = queues D -> fly D' = fly D -> arrived D' = arrived D -> taken D' = taken D -> lost D' = lost D ->
  (life D' = true -> life D = true) -> (shuttingDown D = true -> shuttingDown D' = true) -> (forall id, closed_id D id = true -> closed_id D' id = true) -> inv D -> inv D'.
Proof.
  intros E1 E2 E3 E4 E5 E6 Hl Hsd Hc [H1 H2 H3 H4].
  assert (El : forall d, line D' d = line D d) by (intros d; unfold line, queue; by rewrite E1, E2, E3, E5).
  constructor.
  - intros d. rewrite El, E4. apply H1.
  - intros d. unfold lost_to. rewrite El, E4, E6. apply H2.
  - rewrite E6. eapply Forall_impl; [|exact H3]. intros [[] [d m]]; simpl; try done; [|by intros [-> ?]; auto]. intros [Hlf|(id & -> & Hid)]; [left; destruct (life D'); [by specialize (Hl eq_refl); congruence|done]|right; eauto].
  - intros d. unfold queue. rewrite E2. apply H4.
Qed.

Lemma arrive_inv it D : inv D -> inv (arrive it D).
Proof.
  intros [H1 H2 H3 H4].
  assert (El : forall d, line (arrive it D) d = line D d ++ for_dest d (in_ring [it])).
  { intros d. unfold line, in_ring. simpl. rewrite omap_app, for_dest_app, !app_assoc. done. }
  assert (Ea : forall d, for_dest d (arrived (arrive it D)) = for_dest d (arrived D) ++ for_dest d (in_ring [it])).
  { intros d. destruct it; simpl; rewrite ?app_nil_r; try done. by rewrite for_dest_app. }
  constructor; [| |done|done].
  - intros d. rewrite El, Ea. by apply sublist_app.
  - intros d. rewrite El, Ea, (H2 d). unfold lost_to. simpl. rewrite <- !app_assoc. f_equiv. apply Permutation_app_comm.
Qed.

(** A message leaves the ring while none is being routed. *)
Lemma lift_inv d m l D : inbox D = IMsg d m :: l -> fly D = None -> inv D -> inv (lift (d, m) l D).
Proof.
  intros Ei Ef [H1 H2 H3 H4]. assert (El : forall e, line (lift (d, m) l D) e = line D e).
  { intros e. unfold line. simpl. rewrite Ei, Ef. change (in_ring (IMsg d m :: l)) with ([(d, m)] ++ in_ring l). by rewrite for_dest_app. }
  constructor; [| |done|done].
  - intros e. rewrite El. apply H1.
  - intros e. rewrite El. apply H2.
Qed.

Lemma skip_inv it l D : inbox D = it :: l -> (forall d m, it <> IMsg d m) -> inv D -> inv (set_inbox l D).
Proof.
  intros Ei Hm [H1 H2 H3 H4]. assert (El : forall e, line (set_inbox l D) e = line D e).
  { intros e. unfold line. simpl. rewrite Ei. unfold in_ring. destruct it as [d m| | | | |]; try done. by destruct (Hm d m). }
  constructor; [| |done|done].
  - intros e. rewrite El. apply H1.
  - intros e. rewrite El. apply H2.
Qed.

(** The message being routed is queued. *)
Lemma enqueue_inv d m D : fly D = Some (d, m) -> (length (queue D d) < queueSize)%nat -> inv D -> inv (enqueue d m D).
Proof.
  intros Ef Hr [H1 H2 H3 H4].
  assert (Eq : forall e, queue (enqueue d m D) e = if decide (d = e) then queue D d ++ [m] else queue D e).
  { intros e. unfold enqueue, queue. simpl. case_decide as E; [subst; by rewrite lookup_insert_eq|by rewrite lookup_insert_ne]. }
  assert (El : forall e, line (enqueue d m D) e = line D e).
  { intros e. unfold line. rewrite Eq, Ef. change (option_list (Some (d, m))) with [(d, m)]. rewrite for_dest_one.
    change (fly (enqueue d m D)) with (@None packet). change (taken (enqueue d m D)) with (taken D). change (inbox (enqueue d m D)) with (inbox D).
    case_decide as E; [subst|done]. by rewrite <- !app_assoc. }
  constructor; [| |done|].
  - intros e. rewrite El. apply H1.
  - intros e. rewrite El. apply H2.
  - intros e. rewrite Eq. case_decide; [|apply H4]. rewrite length_app. simpl. lia.
Qed.

(** ... or lost. *)
Lemma lose_inv f x D : fly D = Some x -> fate_ok overflow D (f, x) -> inv D -> inv (lose f x D).
Proof.
  intros Ef Hf [H1 H2 H3 H4]. destruct x as [d m].
  set (a := fun e => for_dest e (taken D) ++ queue D e). set (b := fun e => for_dest e (in_ring (inbox D))).
  assert (E0 : forall e, line D e = a e ++ for_dest e [(d, m)] ++ b e) by (intros e; unfold line, a, b; rewrite Ef; simpl; by rewrite <- app_assoc).
  assert (E1 : forall e, line (lose f (d, m) D) e = a e ++ b e) by (intros e; unfold line, a, b; simpl; by rewrite <- app_assoc).
  assert (E2 : forall e, lost_to (lose f (d, m) D) e = lost_to D e ++ for_dest e [(d, m)]) by (intros e; unfold lost_to; simpl; by rewrite fmap_app, for_dest_app).
  constructor; [| | |done].
  - intros e. rewrite E1. etrans; [|apply H1]. rewrite E0. apply sublist_app; [done|]. by apply sublist_inserts_l.
  - intros e. simpl. rewrite (H2 e), E0, E1, E2. solve_Permutation.
  - simpl. apply Forall_app. split; [done|]. by repeat constructor.
Qed.
(** The first message of a queue is read ... *)
Lemma take_inv d D D' : take_from d D = Some D' -> inv D -> inv D'.
Proof.
  unfold take_from. intros E [H1 H2 H3 H4]. destruct (queue D d) as [|m q] eqn:Eq; [done|]. injection E as <-. set (D' := mkData _ _ _ _ _ _ _ _ _ _ _ _).
  assert (Eq' : forall e, queue D' e = if decide (d = e) then q else queue D e).
  { intros e. unfold queue, D'. simpl. case_decide as E; [subst; by rewrite lookup_insert_eq|by rewrite lookup_insert_ne]. }
  assert (El : forall e, line D' e = line D e).
  { intros e. unfold line. rewrite Eq'. change (taken D') with (taken D ++ [(d, m)]). rewrite for_dest_app, for_dest_one.
    case_decide as E; [subst e; rewrite Eq; by rewrite <- !app_assoc|by rewrite app_nil_r]. }
  constructor; [| |done|].
  - intros e. rewrite El. apply H1.
  - intros e. rewrite El. apply H2.
  - intros e. rewrite Eq'. case_decide; [|apply H4]. specialize (H4 d). rewrite Eq in H4. simpl in H4. lia.
Qed.

(** ... or discarded. *)
Lemma drain_inv id D D' : closed_id D id = true -> drain_one (Some id) D = Some D' -> inv D -> inv D'.
Proof.
  unfold drain_one. intros Hc E [H1 H2 H3 H4]. destruct (queue D (Some id)) as [|m q] eqn:Eq; [done|]. injection E as <-. set (D' := mkData _ _ _ _ _ _ _ _ _ _ _ _).
  assert (Eq' : forall e, queue D' e = if decide (Some id = e) then q else queue D e).
  { intros e. unfold queue, D'. simpl. case_decide as E; [subst; by rewrite lookup_insert_eq|by rewrite lookup_insert_ne]. }
  assert (Ed : forall e, queue D e = for_dest e [(Some id, m)] ++ queue D' e).
  { intros e. rewrite Eq', for_dest_one. case_decide as E; [by subst e|done]. }
  set (t := fun e => for_dest e (taken D)). set (b := fun e => for_dest e (option_list (fly D)) ++ for_dest e (in_ring (inbox D))).
  assert (E0 : forall e, line D e = t e ++ for_dest e [(Some id, m)] ++ queue D' e ++ b e).
  { intros e. unfold line, t, b. rewrite (Ed e). by rewrite <- !app_assoc. }
  assert (E1 : forall e, line D' e = t e ++ queue D' e ++ b e) by done.
  assert (E2 : forall e, lost_to D' e = lost_to D e ++ for_dest e [(Some id, m)]) by (intros e; unfold lost_to; simpl; by rewrite fmap_app, for_dest_app).
  constructor.
  - intros e. rewrite E1. etrans; [|apply H1]. rewrite E0. apply sublist_app; [done|]. by apply sublist_inserts_l.
  - intros e. change (arrived D') with (arrived D). rewrite (H2 e), E0, E1, E2. solve_Permutation.
  - simpl. apply Forall_app. split; [done|]. constructor; [right; eauto|constructor].
  - intros e. specialize (H4 e). rewrite (Ed e), length_app in H4. lia.
Qed.
End DataOps.

(** ** The goroutines agree *)

(** Goroutines that hold the lock, that a dispatcher has not replaced, that
    carry a message, and those about to queue it. *)
Definition holds (p : thread_pc) : bool :=
  match p with RLocked _ | RCheck _ | RNext _ | RRoute _ _ _ | RDeliver _ _ _ | RDone _ | RRet _ | RFail _ | FBlock _ _ | FUnlock => true | _ => false end.
Definition early (p : thread_pc) : bool :=
  match p with RCheck _ | RNext _ | RRoute _ _ _ | RDeliver _ _ _ | FBlock _ _ => true | _ => false end.
Definition carries (p : thread_pc) : option packet :=
  match p with RRoute _ d m | RDeliver _ d m | FBlock d m => Some (d, m) | _ => None end.
Definition delivering (p : thread_pc) : option dest := match p with RDeliver _ d _ | FBlock d _ => Some d | _ => None end.

Definition dholds (p : disp_pc) : bool := match p with DNext | DGot _ _ | DSkip | DFail => true | _ => false end.
Definition dcarries (p : disp_pc) : option packet := match p with DGot d m | DRoute d m | DDeliver d m | DBlock d m => Some (d, m) | _ => None end.
Definition ddelivering (p : disp_pc) : option dest := match p with DDeliver d _ | DBlock d _ => Some d | _ => None end.

(** What a goroutine that tests the stream knows. *)
Definition knows (p : thread_pc) (D : data) : Prop :=
  match p with
  | RLast k => exists id, k = KRecv (Some id) /\ id ∈ pclosed D
  | REof k => exists id, k = KRecv (Some id) /\ id ∈ pclosed D /\ queue D (Some id) = []
  | CForget id | CDrain id => id ∈ lclosed D
  | _ => True
  end.

Record thread_ok (s : link) (i : nat) (p : thread_pc) : Prop := mkThreadOk {
  to_lock : holds p = true -> receiveMu s = Some (Some i);
  to_early : early p = true -> downed s = false;
  to_fly : forall x, carries p = Some x -> fly (dat s) = Some x;
  to_open : forall id, delivering p = Some (Some id) -> id ∉ pclosed (dat s);
  to_wait : forall k, p = RWait k -> dispatchStarted s = true;
  to_knows : knows p (dat s)
}.

Record disp_ok (s : link) : Prop := mkDispOk {
  do_lock : dholds (dpc s) = true -> receiveMu s = Some None;
  do_started : dpc s <> DNone <-> dispatchStarted s = true;
  do_downed : dpc s <> DNone -> dpc s <> DLock -> downed s = true;
  do_after : downed s = true -> dispatchStarted s = true;
  do_fly : forall x, dcarries (dpc s) = Some x -> fly (dat s) = Some x;
  do_open : forall id, ddelivering (dpc s) = Some (Some id) -> id ∉ pclosed (dat s)
}.

Record link_inv (overflow : OverflowPolicy) (queueSize : nat) (s : link) : Prop := mkLinkInv {
  li_th : forall i p, th s !! i = Some p -> thread_ok s i p;
  li_disp : disp_ok s;
  li_fly : forall x, fly (dat s) = Some x -> (exists i p, th s !! i = Some p /\ carries p = Some x) \/ dcarries (dpc s) = Some x;
  li_held : match receiveMu s with Some (Some i) => exists p, th s !! i = Some p /\ holds p = true | Some None => dholds (dpc s) = true | None => True end;
  li_dat : data_inv overflow queueSize (dat s)
}.

(** Changes of the data that take nothing away from what a goroutine knows. *)
Definition keeps (D D' : data) : Prop :=
  pclosed D ⊆ pclosed D' /\ lclosed D ⊆ lclosed D' /\ forall id, id ∈ pclosed D -> queue D (Some id) = [] -> queue D' (Some id) = [].

(** ... and that leave the message being routed alone. *)
Definition still (D D' : data) : Prop := keeps D D' /\ fly D' = fly D /\ pclosed D' = pclosed D.

Lemma knows_keeps p D D' : keeps D D' -> knows p D -> knows p D'.
Proof.
  intros (Hp & Hl & Hq). destruct p; simpl; try done.
  - intros (id & -> & Hid). eauto.
  - intros (id & -> & Hid & Hn). eauto 6.
  - apply Hl.
  - apply Hl.
Qed.

Lemma still_refl D : still D D. Proof. by repeat split. Qed.

Lemma same_queues_still D D' : queues D' = queues D -> fly D' = fly D -> pclosed D' = pclosed D -> lclosed D ⊆ lclosed D' -> still D D'.
Proof. intros E1 E2 E3 E4. unfold still, keeps, queue. rewrite E1, E3. split_and!; try done. Qed.

Lemma take_still d D D' : take_from d D = Some D' -> still D D'.
Proof.
  unfold take_from. destruct (queue D d) as [|m q] eqn:Eq; [done|]. intros [= <-]. split; [|done]. split_and!; [done|done|]. intros id _ Hn. unfold queue in *. simpl.
  destruct (decide (d = Some id)) as [->|Hne]; [congruence|by rewrite lookup_insert_ne].
Qed.

Lemma drain_still d D D' : drain_one d D = Some D' -> still D D'.
Proof.
  unfold drain_one. destruct (queue D d) as [|m q] eqn:Eq; [done|]. intros [= <-]. split; [|done]. split_and!; [done|done|]. intros id _ Hn. unfold queue in *. simpl.
  destruct (decide (d = Some id)) as [->|Hne]; [congruence|by rewrite lookup_insert_ne].
Qed.

Lemma look_still k D D' : look k D = Some D' -> still D D'.
Proof. destruct k; [apply take_still|done]. Qed.

Lemma enqueue_keeps d m D : (forall id, d = Some id -> id ∉ pclosed D) -> keeps D (enqueue d m D).
Proof.
  intros Ho. split_and!; [done|done|]. intros id Hid Hn. unfold queue in *. simpl. destruct (decide (d = Some id)) as [->|Hne]; [by destruct (Ho id)|by rewrite lookup_insert_ne].
Qed.

Section Control.
Context (overflow : OverflowPolicy) (queueSize : nat).
Notation dinv := (data_inv overflow queueSize).
Notation inv := (link_inv overflow queueSize).

Lemma look_inv k D D' : look k D = Some D' -> dinv D -> dinv D'.
Proof. destruct k; [apply take_inv|done]. Qed.

Lemma tables_inv t l D : lclosed D ⊆ l -> dinv D -> dinv (set_tables t l (pclosed D) D).
Proof.
  intros Hl. apply same_messages; try done. intros id Hc. unfold closed_id in *. simpl. apply orb_true_iff in Hc as [Hc|Hc]; apply orb_true_iff; [left|by right].
  apply bool_decide_eq_true in Hc. apply bool_decide_eq_true. set_solver.
Qed.

Lemma open_inv id D : dinv D -> dinv (open_stream id D) /\ still D (open_stream id D).
Proof. intros H. unfold open_stream. destruct (closed_id D id); [split; [done|apply still_refl]|]. split; [revert H; by apply same_messages|by apply same_queues_still]. Qed.

Lemma peer_close_inv id D : dinv D -> dinv (peer_close id D) /\ keeps D (peer_close id D) /\ fly (peer_close id D) = fly D.
Proof.
  intros H. unfold peer_close. case_match; [|split_and!; try done]. split_and!; try done.
  - revert H. apply same_messages; try done. intros j Hc. unfold closed_id in *. simpl. apply orb_true_iff in Hc as [Hc|Hc]; apply orb_true_iff; [by left|right].
    apply bool_decide_eq_true in Hc. apply bool_decide_eq_true. set_solver.
  - split_and!; [set_solver|done|done].
Qed.

(** A packet leaves the ring while no message is being routed. *)
Lemma receive_one_inv D r D' : receive_one D = Some (r, D') -> fly D = None -> dinv D ->
  dinv D' /\ keeps D D' /\ fly D' = match r with GotMsg d m => Some (d, m) | _ => None end.
Proof.
  unfold receive_one. intros E Hf H. destruct (inbox D) as [|it l] eqn:Ei; [done|].
  assert (Hskip : (forall d m, it <> IMsg d m) -> dinv (set_inbox l D)) by (intros; by eapply skip_inv).
  destruct it as [d m| |id|id| |]; injection E as <- <-.
  - split_and!; [by apply lift_inv|done|done].
  - split_and!; [by apply Hskip|done|done].
  - destruct (open_inv id (set_inbox l D)) as (H1 & (H2 & H3 & _)); [by apply Hskip|]. split_and!; [done|exact H2|]. rewrite H3. done.
  - destruct (peer_close_inv id (set_inbox l D)) as (H1 & H2 & H3); [by apply Hskip|]. split_and!; [done|exact H2|]. rewrite H3. done.
  - split_and!; [by apply Hskip|done|done].
  - split_and!; [by apply Hskip|done|done].
Qed.

(** A goroutine that is not concerned. *)
Lemma thread_ok_frame s s' j q : thread_ok s j q ->
  (receiveMu s = Some (Some j) -> receiveMu s' = Some (Some j) /\ downed s' = downed s) ->
  (dispatchStarted s = true -> dispatchStarted s' = true) ->
  keeps (dat s) (dat s') -> still (dat s) (dat s') \/ carries q = None -> thread_ok s' j q.
Proof.
  intros [H1 H2 H3 H4 H5 H6] Hl Hst Hk Hc. assert (He : early q = true -> holds q = true) by (by destruct q).
  constructor; [| | | |eauto|by eapply knows_keeps].
  - intros Hh. by apply Hl, H1.
  - intros Hq. destruct Hl as [_ ->]; auto.
  - intros x Hx. destruct Hc as [(_ & -> & _)|Hc]; [auto|congruence].
  - intros id Hd. destruct Hc as [(_ & _ & ->)|Hc]; [auto|by destruct q].
Qed.

(** At most one message is being routed. *)
Lemma one_carrier s i p j q : inv s -> th s !! i = Some p -> holds p = true -> th s !! j = Some q -> j <> i -> carries q = None.
Proof.
  intros [Ht _ _ _ _] Hi Hh Hj Hne. destruct (Ht i p Hi) as [H1 _ _ _ _ _]. destruct (Ht j q Hj) as [H2 _ _ _ _ _]. specialize (H1 Hh).
  destruct q; try done; specialize (H2 eq_refl); congruence.
Qed.

Lemma dispatcher_away s i p : inv s -> th s !! i = Some p -> early p = true -> dcarries (dpc s) = None.
Proof.
  intros [Ht Hd _ _ _] Hi He. destruct (Ht i p Hi) as [_ H2 _ _ _ _]. specialize (H2 He). destruct Hd as [_ _ H3 _ _ _].
  destruct (dpc s); try done; by rewrite H3 in H2.
Qed.

Lemma threads_away s i p : inv s -> downed s = true -> th s !! i = Some p -> carries p = None.
Proof. intros [Ht _ _ _ _] Hd Hi. destruct (Ht i p Hi) as [_ H2 _ _ _ _]. destruct p; try done; by rewrite H2 in Hd. Qed.

(** A step of a goroutine: the lock, if another holds it, stays; the dispatcher
    stays, or starts; and the message being routed stays, or the goroutine was
    the only one to route. *)
Lemma thread_update s i p s' p' : inv s -> th s !! i = Some p -> th s' = <[i := p']> (th s) -> thread_ok s' i p' ->
  (forall o, receiveMu s = Some o -> o <> Some i -> receiveMu s' = Some o) ->
  (receiveMu s' = receiveMu s /\ holds p' = holds p \/ receiveMu s' = None \/ receiveMu s' = Some (Some i) /\ holds p' = true) -> downed s' = downed s ->
  (dpc s' = dpc s /\ dispatchStarted s' = dispatchStarted s \/ dpc s = DNone /\ dpc s' = DLock /\ dispatchStarted s' = true) ->
  dinv (dat s') -> keeps (dat s) (dat s') ->
  (still (dat s) (dat s') /\ carries p' = carries p \/ early p = true /\ fly (dat s') = carries p') -> inv s'.
Proof.
  intros Hs Hi Et Hok Hlock Hheld Edown Hdisp Hdat Hk Heff. pose proof Hs as [Ht Hd Hf Hhd _].
  assert (Hlt : (i < length (th s))%nat) by (by eapply lookup_lt_Some).
  assert (Hcar : early p = true -> dcarries (dpc s) = None) by (intros; by eapply dispatcher_away).
  constructor; [| | | |done].
  - intros j q Hj. rewrite Et in Hj. apply list_lookup_insert_Some in Hj as [(<- & <- & _)|[Hne Hj]]; [done|].
    apply (thread_ok_frame s); [by apply Ht| |by destruct Hdisp as [[_ ->]|(_ & _ & ->)]|done|].
    + intros E. split; [|done]. apply Hlock; [done|congruence].
    + destruct Heff as [[]|[He _]]; [by left|right]. apply (one_carrier s i p j q); try done; by destruct p.
  - destruct Hd as [H1 H2 H3 H4 H5 H6]. constructor.
    + intros E. destruct Hdisp as [[Ep _]|(_ & Ep & _)]; rewrite Ep in *; [|done]. apply Hlock; [auto|done].
    + destruct Hdisp as [[Ep ->]|(_ & Ep & ->)]; [by rewrite Ep|by rewrite Ep].
    + intros E1 E2. rewrite Edown. destruct Hdisp as [[Ep _]|(_ & Ep & _)]; [rewrite Ep in *; auto|congruence].
    + rewrite Edown. intros E. destruct Hdisp as [[_ ->]|(_ & _ & ->)]; auto.
    + intros x E. destruct Hdisp as [[Ep _]|(_ & Ep & _)]; rewrite Ep in E; [|done]. destruct Heff as [[(_ & -> & _) _]|[He _]]; [auto|]. rewrite Hcar in E by done. done.
    + intros id E. destruct Hdisp as [[Ep _]|(_ & Ep & _)]; rewrite Ep in E; [|done]. destruct Heff as [[(_ & _ & ->) _]|[He _]]; [auto|]. specialize (Hcar He). by destruct (dpc s).
  - intros x Ex. destruct Heff as [[(_ & Ef & _) Ec]|[_ Ef]].
    + rewrite Ef in Ex. destruct (Hf x Ex) as [(j & q & Hj & Hc)|Hc].
      * left. rewrite Et. destruct (decide (i = j)) as [<-|Hne]; [exists i, p'; rewrite list_lookup_insert_eq by done; split; congruence|].
        exists j, q. by rewrite list_lookup_insert_ne.
      * destruct Hdisp as [[-> _]|(E & _)]; [by right|]. by rewrite E in Hc.
    + left. exists i, p'. rewrite Et, list_lookup_insert_eq by done. split; congruence.
  - destruct Hheld as [[-> Eh]|[-> |[-> Eh]]]; [|done|exists p'; by rewrite Et, list_lookup_insert_eq].
    destruct (receiveMu s) as [[j|]|]; [|destruct Hdisp as [[-> _]|(E & _)]; [done|by rewrite E in Hhd]|done].
    destruct Hhd as (q & Hj & Hq). rewrite Et. destruct (decide (i = j)) as [<-|Hne]; [exists p'; rewrite list_lookup_insert_eq by done; split; congruence|exists q; by rewrite list_lookup_insert_ne].
Qed.

(** A step of the dispatcher. *)
Lemma disp_update s s' : inv s -> th s' = th s -> disp_ok s' ->
  (forall j, receiveMu s = Some (Some j) -> receiveMu s' = Some (Some j) /\ downed s' = downed s) ->
  (forall j, receiveMu s' = Some (Some j) -> receiveMu s = Some (Some j)) -> (receiveMu s' = Some None -> dholds (dpc s') = true) ->
  (dispatchStarted s = true -> dispatchStarted s' = true) -> dinv (dat s') -> keeps (dat s) (dat s') ->
  (still (dat s) (dat s') /\ dcarries (dpc s') = dcarries (dpc s) \/ downed s = true /\ fly (dat s') = dcarries (dpc s')) -> inv s'.
Proof.
  intros Hs Et Hok Hlock Hl1 Hl2 Hst Hdat Hk Heff. pose proof Hs as [Ht Hd Hf Hh _].
  constructor; [|done| | |done].
  - intros j q Hj. rewrite Et in Hj. apply (thread_ok_frame s); [by apply Ht|apply Hlock|done|done|].
    destruct Heff as [[]|[He _]]; [by left|right]. eapply threads_away; eauto.
  - intros x Ex. rewrite Et. destruct Heff as [[(_ & Ef & _) Ec]|[_ Ef]]; [|right; congruence].
    rewrite Ef in Ex. rewrite Ec. by apply Hf.
  - rewrite Et. destruct (receiveMu s') as [[j|]|] eqn:El; [|auto|done]. by rewrite (Hl1 j eq_refl) in Hh.
Qed.

(** A step that only touches the data. *)
Lemma dat_update s D : inv s -> dinv D -> still (dat s) D -> inv (set_dat D s).
Proof.
  intros Hs HD Hst. apply (disp_update s); try done; [|by destruct Hs as [_ _ _ Hh _]; intros E; simpl in E; rewrite E in Hh|apply Hst|by left].
  destruct Hs as [_ [H1 H2 H3 H4 H5 H6] _ _ _]. destruct Hst as (_ & E1 & E2). constructor; try done.
  - intros x Hx. simpl. rewrite E1. auto.
  - intros id Hid. simpl. rewrite E2. auto.
Qed.

(** A goroutine that carries nothing goes on ... *)
Lemma quiet s i p p' D : inv s -> th s !! i = Some p -> carries p = None -> carries p' = None -> holds p' = holds p ->
  (early p' = true -> downed s = false) -> (forall k, p' = RWait k -> dispatchStarted s = true) -> knows p' D -> dinv D -> still (dat s) D -> inv (set_pc i p' (set_dat D s)).
Proof.
  intros Hs Hi C C' Hh He Hw Hk HD Hst. pose proof Hs as [Ht _ _ _ _]. destruct (Ht i p Hi) as [H1 H2 H3 H4 H5 H6].
  apply (thread_update s i p _ p'); try done; [|by left|by left|apply Hst|by left; rewrite C, C'].
  constructor; simpl; try done; auto; try congruence; [intros E; apply H1; congruence|]. intros id. by destruct p'.
Qed.

(** ... or releases the lock. *)
Lemma release_lock s i p p' : inv s -> th s !! i = Some p -> holds p = true -> carries p = None -> carries p' = None -> holds p' = false -> (forall k, p' <> RWait k) ->
  knows p' (dat s) -> inv (set_pc i p' (set_lock None s)).
Proof.
  intros Hs Hi Hh C C' Hh' Hw Hk. pose proof Hs as [Ht _ _ _ HD]. destruct (Ht i p Hi) as [H1 H2 H3 H4 H5 H6].
  apply (thread_update s i p _ p'); try done; [|by intros o Eo Hne; rewrite H1 in Eo by done; congruence|by right; left|by left|left; split; [apply still_refl|congruence]].
  constructor; simpl; try done; try congruence; [by destruct p'|by intros; destruct p'].
Qed.

(** The message a goroutine carries is dealt with. *)
Lemma settle s i p p' D : inv s -> th s !! i = Some p -> early p = true -> early p' = false -> holds p' = holds p -> knows p' D ->
  dinv D -> keeps (dat s) D -> fly D = None -> inv (set_pc i p' (set_dat D s)).
Proof.
  intros Hs Hi He He' Hh Hk HD Hkp Hf. pose proof Hs as [Ht _ _ _ _]. destruct (Ht i p Hi) as [H1 H2 H3 H4 H5 H6].
  apply (thread_update s i p _ p'); try done; [|by left|by left|right; split; [done|]; simpl; rewrite Hf; by destruct p'].
  assert (Hp : holds p = true) by (by destruct p).
  constructor; simpl; try done; auto; try (by destruct p'). by intros k ->; rewrite <- Hh in Hp.
Qed.

(** The goroutine only moves on, or after a look at its queue. *)
Ltac quiet_step :=
  match goal with
  | Hi : th ?s !! ?i = Some ?p, El : look ?k ?D = Some ?D' |- inv (set_pc ?i ?p' (set_dat ?D' ?s)) =>
      apply (quiet s i p p' D'); simpl; eauto using look_inv, look_still; done
  | Hi : th ?s !! ?i = Some ?p |- inv (set_pc ?i ?p' ?s) =>
      apply (quiet s i p p' (dat s)); simpl; auto using still_refl; done
  end.

Lemma take_lock s i k : inv s -> th s !! i = Some (RTry k) -> receiveMu s = None -> inv (set_pc i (RLocked k) (set_lock (Some (Some i)) s)).
Proof.
  intros Hs Hi Em. pose proof Hs as [_ _ _ _ HD]. apply (thread_update s i (RTry k) _ (RLocked k)); try done; [by intros o Eo; rewrite Em in Eo|by right; right|by left|].
  left. split; [apply still_refl|done].
Qed.

Lemma startDispatcher_inv s i k p' : inv s -> th s !! i = Some (RTry k) -> p' = RIdle \/ p' = RTop k -> inv (set_pc i p' (startDispatcher s)).
Proof.
  intros Hs Hi Hp. pose proof Hs as [_ Hd _ _ HD]. unfold startDispatcher. destruct (dispatchStarted s) eqn:Es; [destruct Hp as [-> | ->]; quiet_step|].
  assert (En : dpc s = DNone) by (destruct Hd as [_ H2 _ _ _ _]; destruct (dpc s); try done; rewrite (proj1 H2) in Es; done).
  apply (thread_update s i (RTry k) _ p'); try done; [destruct Hp as [-> | ->]; by constructor|left; split; [done|by destruct Hp as [-> | ->]]|by right|].
  left. split; [apply still_refl|by destruct Hp as [-> | ->]].
Qed.

Lemma receiveQueued_inv s i p mv s' : inv s -> th s !! i = Some p -> receiveQueued_step i p mv s = Some s' -> inv s'.
Proof.
  intros Hs Hi E. pose proof Hs as [Ht _ _ _ HD]. pose proof (to_knows _ _ _ (Ht i p Hi)) as Hk.
  destruct p, mv; simpl in E; try discriminate E; repeat case_match; simplify_eq; try quiet_step.
  all: try (apply (startDispatcher_inv _ _ k); auto; done).
  all: try (by apply take_lock).
  - apply (quiet s i (RPeer (KRecv (Some z))) _ (dat s)); simpl; try done. exists z. split; [done|]. by apply bool_decide_eq_true_1 in H1.
  - apply (quiet s i (RLast k) _ (dat s)); simpl; try done. destruct Hk as (id & -> & Hid). exists id. split_and!; [done|done|].
    match goal with El : look _ _ = None |- _ => simpl in El; unfold take_from in El; by destruct (queue (dat s) (Some id)) end.
  - apply bind_Some in E as (D & El & [= <-]). quiet_step.
Qed.

(** A packet is received under the lock. *)
Lemma receive_thread s i k r D : inv s -> th s !! i = Some (RNext k) -> receive_one (dat s) = Some (r, D) ->
  inv (set_pc i (match r with GotMsg d m => RRoute k d m | GotResp => RDone k | GotControl => RNext k | GotError => RFail k end) (set_dat D s)).
Proof.
  intros Hs Hi E. pose proof Hs as [Ht _ Hf _ HD]. destruct (Ht i _ Hi) as [H1 H2 _ _ _ _].
  assert (Hn : fly (dat s) = None).
  { destruct (fly (dat s)) as [x|]; [|done]. destruct (Hf x eq_refl) as [(j & q & Hj & Hc)|Hc]; [|by rewrite (dispatcher_away s i _ Hs Hi) in Hc].
    destruct (decide (j = i)) as [->|Hne]; [by simplify_eq|]. by rewrite (one_carrier s i _ j q Hs Hi eq_refl Hj Hne) in Hc. }
  destruct (receive_one_inv _ _ _ E Hn HD) as (HD' & Hk & Hf').
  eapply (thread_update s i (RNext k)); try done; [|by left; split; [|destruct r]|by left|right; split; [done|]; simpl; rewrite Hf'; by destruct r].
  constructor; simpl; destruct r; try done; auto. by intros x [= <-].
Qed.

(** The hand-over to a goroutine of [finishDelivery]. *)
Lemma spawn_delivery_inv s i k d m : inv s -> th s !! i = Some (RDeliver k d m) -> inv (spawn d m (set_pc i (RTop k) s)).
Proof.
  intros Hs Hi. pose proof Hs as [Ht Hd Hf _ HD]. destruct (Ht i _ Hi) as [H1 H2 H3 H4 _ _]. simpl in *.
  assert (Hlt : (i < length (th s))%nat) by (by eapply lookup_lt_Some).
  constructor; simpl; [| | | |done].
  - intros j q Hj. apply lookup_app_Some in Hj as [Hj|[Hl Hj]].
    + apply list_lookup_insert_Some in Hj as [(<- & <- & _)|[Hne Hj]]; [done|]. pose proof (Ht j q Hj) as Hq.
      assert (Hh : holds q = false).
      { destruct (holds q) eqn:Eh; [|done]. apply (to_lock _ _ _ Hq) in Eh. rewrite H1 in Eh by done. congruence. }
      destruct Hq as [_ _ _ _ H5 H6]. constructor; simpl; try done; [congruence|by destruct q..].
    + rewrite length_insert in *. apply list_lookup_singleton_Some in Hj as [Hj <-]. constructor; simpl; auto; try done. intros _. rewrite length_insert. repeat f_equal. lia.
  - pose proof (dispatcher_away s i _ Hs Hi eq_refl) as Hc. destruct Hd as [K1 K2 K3 K4 K5 K6]. constructor; simpl; auto.
    intros E. apply K1 in E. rewrite H1 in E by done. congruence.
  - intros x Ex. left. exists (length (th s)), (FBlock d m). rewrite lookup_app_r; rewrite length_insert; [|done]. rewrite Nat.sub_diag. split; [done|]. simpl.
    rewrite <- Ex. symmetry. by apply H3.
  - exists (FBlock d m). rewrite lookup_app_r; rewrite length_insert; [|done]. by rewrite Nat.sub_diag.
Qed.

Lemma stray_ok d m D : routable d D = false -> fate_ok overflow D (stray d D, (d, m)).
Proof. destruct d as [id|]; unfold stray; simpl; [|by intros ->%negb_false_iff]. destruct (closed_id D id) eqn:E; simpl; [eauto|done]. Qed.

Lemma routable_open id D : routable (Some id) D = true -> id ∉ pclosed D.
Proof. unfold routable, closed_id. intros [_ H]%andb_true_iff Hin. rewrite (bool_decide_eq_true_2 _ Hin), orb_true_r in H. done. Qed.

Lemma lose_keeps f x D : keeps D (lose f x D). Proof. by repeat split. Qed.

Lemma not_full d D : negb (full queueSize d D) = true -> (length (queue D d) < queueSize)%nat.
Proof. unfold full. rewrite negb_true_iff. by intros ?%Nat.leb_gt. Qed.

(** The carrier drops its message, or queues it. *)
Lemma lose_step s i p p' f x : inv s -> th s !! i = Some p -> carries p = Some x -> fate_ok overflow (dat s) (f, x) -> early p' = false -> holds p' = true -> knows p' (lose f x (dat s)) ->
  inv (set_pc i p' (set_dat (lose f x (dat s)) s)).
Proof.
  intros Hs Hi Hc Hf He Hh Hk. pose proof Hs as [Ht _ _ _ HD]. pose proof (to_fly _ _ _ (Ht i p Hi) x Hc) as Ef.
  apply (settle s i p); try done; [by destruct p|by rewrite Hh; destruct p|by apply lose_inv].
Qed.

Lemma queue_step s i p p' d m : inv s -> th s !! i = Some p -> carries p = Some (d, m) -> delivering p = Some d -> negb (full queueSize d (dat s)) = true ->
  early p' = false -> holds p' = true -> knows p' (enqueue d m (dat s)) -> inv (set_pc i p' (set_dat (enqueue d m (dat s)) s)).
Proof.
  intros Hs Hi Hc Hd Hf He Hh Hk. pose proof Hs as [Ht _ _ _ HD]. pose proof (to_fly _ _ _ (Ht i p Hi) _ Hc) as Ef. pose proof (to_open _ _ _ (Ht i p Hi)) as Ho.
  apply (settle s i p); try done; [by destruct p|by rewrite Hh; destruct p|by apply enqueue_inv, HD; [done|apply not_full]|].
  apply enqueue_keeps. intros id ->. auto.
Qed.

Lemma deliver_start s i k d m : inv s -> th s !! i = Some (RRoute k d m) -> routable d (dat s) = true -> inv (set_pc i (RDeliver k d m) s).
Proof.
  intros Hs Hi Hr. pose proof Hs as [Ht _ _ _ HD]. destruct (Ht i _ Hi) as [H1 H2 H3 H4 H5 H6].
  apply (thread_update s i (RRoute k d m) _ (RDeliver k d m)); try done; [|by left|by left|by left].
  constructor; try done. intros id [= ->]. by apply routable_open.
Qed.

Lemma receiveRoute_inv s i p mv s' : inv s -> th s !! i = Some p -> receiveRoute_step overflow queueSize i p mv s = Some s' -> inv s'.
Proof.
  intros Hs Hi E. pose proof Hs as [Ht [_ _ _ Ha _ _] _ _ HD]. pose proof (Ht i p Hi) as [H1 H2 H3 H4 H5 H6].
  assert (Hsp : forall k d m, p = RDeliver k d m -> inv (spawn d m (set_pc i (RTop k) s))) by (intros k d m ->; by apply spawn_delivery_inv).
  assert (Hlo : forall k d m p', p = RDeliver k d m -> overflow <> OverflowBlock -> early p' = false -> holds p' = true -> knows p' (lose Overflow (d, m) (dat s)) ->
    inv (set_pc i p' (set_dat (lose Overflow (d, m) (dat s)) s))) by (intros k d m p' -> ?; by apply (lose_step s i (RDeliver k d m))).
  destruct p, mv; simpl in E; try discriminate E; repeat case_match; simplify_eq; try quiet_step.
  all: try (eapply release_lock; eauto; done).
  all: try (by apply deliver_start).
  all: try (by eapply Hsp). all: try (by eapply Hlo). all: try (by eapply lose_step).
  - apply (quiet s i (RLocked k) _ (dat s)); simpl; try done. intros _. destruct (downed s); [|done]. rewrite Ha in *; done.
  - apply bind_Some in E as ([r D] & Er & [= <-]). by apply receive_thread.
  - eapply lose_step; eauto using stray_ok; done.
  - by eapply queue_step.
Qed.

Lemma finishDelivery_inv s i p mv s' : inv s -> th s !! i = Some p -> finishDelivery_step queueSize i p mv s = Some s' -> inv s'.
Proof.
  intros Hs Hi E. pose proof Hs as [Ht _ _ _ HD].
  destruct p, mv; simpl in E; try discriminate E; repeat case_match; simplify_eq.
  all: try (eapply release_lock; eauto; done). all: try (by eapply queue_step).
  all: eapply lose_step; eauto; simpl; eauto.
Qed.

Lemma closeStream_inv s i p mv s' : inv s -> th s !! i = Some p -> closeStream_step i p mv s = Some s' -> inv s'.
Proof.
  intros Hs Hi E. pose proof Hs as [Ht _ _ _ HD]. pose proof (to_knows _ _ _ (Ht i p Hi)) as Hk.
  destruct p, mv; simpl in E; try discriminate E; repeat case_match; simplify_eq; try quiet_step.
  - apply (quiet s i (CMark id)); simpl; try done; [set_solver|apply tables_inv; [set_solver|done]|apply same_queues_still; try done; simpl; set_solver].
  - apply (quiet s i (CForget id)); simpl; try done. by apply tables_inv.
  - match goal with Ed : drain_one _ _ = Some _ |- _ => apply dat_update; [done| |by eapply drain_still]; eapply drain_inv; [|exact Ed|done] end.
    unfold closed_id. by rewrite (bool_decide_eq_true_2 _ Hk).
Qed.

Lemma link_thread_inv s i mv s' : inv s -> thread_step overflow queueSize i mv s = Some s' -> inv s'.
Proof.
  intros Hs E. unfold thread_step in E. apply bind_Some in E as (p & Hi & E). pose proof Hs as [_ _ _ _ HD].
  destruct p; try (by eapply receiveQueued_inv); try (by eapply receiveRoute_inv); try (by eapply finishDelivery_inv); try (by eapply closeStream_inv).
  destruct mv; try discriminate E; injection E as <-; quiet_step.
Qed.

(** The dispatcher goes on, under the lock, without it, or as it gives it back. *)
Lemma disp_quiet s p' : inv s -> dpc s <> DNone -> downed s = true -> p' <> DNone -> dcarries p' = dcarries (dpc s) -> dholds p' = dholds (dpc s) ->
  (forall id, ddelivering p' = Some (Some id) -> id ∉ pclosed (dat s)) -> inv (set_dpc p' s).
Proof.
  intros Hs Hn Hd Hn' Hc Hh Ho. pose proof Hs as [_ [H1 H2 H3 H4 H5 H6] _ Hl HD].
  apply (disp_update s); try done; [|simpl; intros E; rewrite E in Hl; congruence|by left].
  constructor; simpl; try done.
  - intros E. apply H1. congruence.
  - split; [|done]. intros _. by apply H2.
  - intros x. rewrite Hc. apply H5.
Qed.

Lemma disp_unlock s p' : inv s -> dholds (dpc s) = true -> p' <> DNone -> dcarries p' = dcarries (dpc s) -> dholds p' = false -> ddelivering p' = None ->
  inv (set_dpc p' (set_lock None s)).
Proof.
  intros Hs Hh Hn' Hc Hh' Ho. pose proof Hs as [_ [H1 H2 H3 H4 H5 H6] _ Hl HD].
  assert (Hn : dpc s <> DNone) by (by intros E; rewrite E in Hh). assert (Hn1 : dpc s <> DLock) by (by intros E; rewrite E in Hh).
  apply (disp_update s); try done; [|by intros j E; rewrite H1 in E|by left].
  constructor; simpl; try done; try congruence; auto.
  - split; [|done]. intros _. by apply H2.
  - intros x. rewrite Hc. apply H5.
Qed.

(** The dispatcher takes a packet, or is done with its message. *)
Lemma disp_settle s p' D : inv s -> downed s = true -> dpc s <> DNone -> p' <> DNone -> dholds p' = dholds (dpc s) -> ddelivering p' = None ->
  dinv D -> keeps (dat s) D -> fly D = dcarries p' -> inv (set_dpc p' (set_dat D s)).
Proof.
  intros Hs Hd Hn Hn' Hh Ho HD Hk Hf. pose proof Hs as [_ [H1 H2 H3 H4 H5 H6] _ Hl _].
  apply (disp_update s); try done; [|simpl; intros E; rewrite E in Hl; congruence|by right].
  constructor; simpl; try done; try congruence; auto.
  - intros E. apply H1. congruence.
  - split; [|done]. intros _. by apply H2.
Qed.

Lemma disp_receive s r D : inv s -> dpc s = DNext -> receive_one (dat s) = Some (r, D) ->
  inv (set_dpc (match r with GotMsg d m => DGot d m | GotResp => DSkip | GotControl => DNext | GotError => DFail end) (set_dat D s)).
Proof.
  intros Hs Ep E. pose proof Hs as [Ht [H1 H2 H3 H4 H5 H6] Hf Hl HD]. rewrite Ep in *.
  assert (Hd : downed s = true) by auto.
  assert (Hn : fly (dat s) = None).
  { destruct (fly (dat s)) as [x|]; [|done]. destruct (Hf x eq_refl) as [(j & q & Hj & Hc)|Hc]; [|done]. by rewrite (threads_away s j q Hs Hd Hj) in Hc. }
  destruct (receive_one_inv _ _ _ E Hn HD) as (HD' & Hk & Hf').
  apply (disp_settle s); try done; rewrite ?Ep; try done; by destruct r.
Qed.

Lemma disp_lose s p' f x : inv s -> dcarries (dpc s) = Some x -> dholds (dpc s) = false -> fate_ok overflow (dat s) (f, x) -> p' = DLock \/ p' = DGone ->
  inv (set_dpc p' (set_dat (lose f x (dat s)) s)).
Proof.
  intros Hs Hc Hh Hf Hp. pose proof Hs as [_ [H1 H2 H3 H4 H5 H6] _ _ HD].
  assert (Hd : downed s = true) by (destruct (dpc s); try done; auto).
  apply (disp_settle s); try done; [by intros E; rewrite E in Hc|by destruct Hp as [-> | ->]|by rewrite Hh; destruct Hp as [-> | ->]|by destruct Hp as [-> | ->]|by apply lose_inv; auto|by destruct Hp as [-> | ->]].
Qed.

Lemma disp_queue s d m : inv s -> dcarries (dpc s) = Some (d, m) -> ddelivering (dpc s) = Some d -> negb (full queueSize d (dat s)) = true ->
  inv (set_dpc DLock (set_dat (enqueue d m (dat s)) s)).
Proof.
  intros Hs Hc Hd Hf. pose proof Hs as [_ [H1 H2 H3 H4 H5 H6] _ _ HD].
  assert (Hdn : downed s = true) by (destruct (dpc s); try done; auto).
  apply (disp_settle s); try done; [by intros E; rewrite E in Hc|by destruct (dpc s)|by apply enqueue_inv; auto using not_full|].
  apply enqueue_keeps. intros id ->. auto.
Qed.

Lemma disp_lock s : inv s -> dpc s = DLock -> receiveMu s = None -> inv (mkLink (Some None) (dispatchStarted s) DNext true (th s) (dat s)).
Proof.
  intros Hs Ep Em. pose proof Hs as [_ [H1 H2 H3 H4 H5 H6] _ _ HD]. apply (disp_update s); try done; [| |by left; rewrite Ep].
  - constructor; simpl; try done; [split; [|done]|]; intros _; apply H2; by rewrite Ep.
  - intros j E. by rewrite Em in E.
Qed.

Lemma dispatch_inv s mv s' : inv s -> dispatch_step overflow queueSize mv s = Some s' -> inv s'.
Proof.
  intros Hs E. unfold dispatch_step in E. pose proof Hs as [_ [H1 H2 H3 H4 H5 H6] _ _ HD].
  assert (Hlo : forall d m p', dpc s = DDeliver d m -> overflow <> OverflowBlock -> p' = DLock \/ p' = DGone -> inv (set_dpc p' (set_dat (lose Overflow (d, m) (dat s)) s)))
    by (intros d m p' Ep ? Hp; apply disp_lose; rewrite ?Ep; done).
  assert (Hbl : forall d m, dpc s = DDeliver d m -> inv (set_dpc (DBlock d m) s))
    by (intros d m Ep; apply disp_quiet; rewrite ?Ep in *; auto; done).
  destruct (dpc s) as [| | |d m| |d m|d m|d m| |] eqn:Ep, mv; try discriminate E; repeat case_match; simplify_eq.
  all: try (by apply disp_lock). all: try (by apply disp_unlock; rewrite ?Ep). all: try (by apply disp_queue; rewrite ?Ep).
  all: try (by eapply Hlo; auto). all: try (by eapply Hbl).
  all: try (apply disp_lose; rewrite ?Ep; simpl; eauto using stray_ok; done).
  - apply bind_Some in E as ([r D] & Er & [= <-]). by apply disp_receive.
  - apply disp_quiet; rewrite ?Ep; try done. auto.
  - apply disp_quiet; rewrite ?Ep; try done; [auto|]. intros id [= ->]. by apply routable_open.
  - apply disp_lose; rewrite ?Ep; auto. by apply stray_ok.
Qed.

Lemma link_step_inv s s' : inv s -> link_step overflow queueSize s s' -> inv s'.
Proof.
  intros Hs Hst. pose proof Hs as [_ _ _ _ HD]. destruct Hst as [s it|s id|s id Hid|s|s|s i mv s' E|s mv s' E].
  - apply dat_update; [done|by apply arrive_inv|by apply same_queues_still].
  - apply dat_update; [done|apply open_inv, HD..].
  - apply dat_update; [done|by apply tables_inv|by apply same_queues_still].
  - apply dat_update; [done| |by apply same_queues_still]. by apply (same_messages _ _ (dat s)).
  - apply dat_update; [done| |by apply same_queues_still]. by apply (same_messages _ _ (dat s)).
  - by eapply link_thread_inv.
  - by eapply dispatch_inv.
Qed.

Lemma link_inv_new n : inv (new_link n).
Proof.
  constructor; simpl; try done; [intros i p [-> _]%lookup_replicate; by constructor|].
  constructor; try done. intros d. change (0 <= queueSize)%nat. lia.
Qed.

Lemma link_reachable n s : rtc (link_step overflow queueSize) (new_link n) s -> inv s.
Proof.
  assert (G : forall a b, rtc (link_step overflow queueSize) a b -> inv a -> inv b) by (induction 1; eauto using link_step_inv).
  intros H. eapply G; [exact H|apply link_inv_new].
Qed.
End Control.

(** ** Losses and their reasons *)

Section Losses.
Context (overflow : OverflowPolicy) (queueSize : nat).

(** A step loses nothing, or one message for a reason that holds. *)
Definition loses (D D' : data) : Prop := lost D' = lost D \/ exists x, lost D' = lost D ++ [x] /\ loss_ok overflow queueSize D x.

Lemma stray_loss d m D : routable d D = false -> loss_ok overflow queueSize D (stray d D, (d, m)).
Proof.
  destruct d as [id|]; unfold stray; simpl; [|by intros ->%negb_false_iff]. destruct (closed_id D id) eqn:E; simpl; [eauto|].
  rewrite andb_true_r. intros H%bool_decide_eq_false. eauto.
Qed.

Lemma full_loss d m D : overflow <> OverflowBlock -> negb (full queueSize d D) = false -> loss_ok overflow queueSize D (Overflow, (d, m)).
Proof. intros Ho Hf. split; [done|]. unfold full in Hf. apply negb_false_iff in Hf. by apply Nat.leb_le. Qed.

Lemma take_lost d D D' : take_from d D = Some D' -> lost D' = lost D.
Proof. unfold take_from. destruct (queue D d); [done|]. by intros [= <-]. Qed.

Lemma look_lost k D D' : look k D = Some D' -> lost D' = lost D.
Proof. destruct k; [apply take_lost|done]. Qed.

Lemma receive_one_lost D r D' : receive_one D = Some (r, D') -> lost D' = lost D.
Proof.
  unfold receive_one, open_stream, peer_close. destruct (inbox D) as [|[] l]; intros E; simplify_eq; try done; by repeat case_match.
Qed.

Lemma thread_loses s i mv s' : link_inv overflow queueSize s -> thread_step overflow queueSize i mv s = Some s' -> loses (dat s) (dat s').
Proof.
  intros Hs E. unfold thread_step in E. apply bind_Some in E as (p & Hi & E). pose proof Hs as [Ht _ _ _ _].
  pose proof (to_knows _ _ _ (Ht i p Hi)) as Hk.
  assert (Hx : forall f x, loss_ok overflow queueSize (dat s) (f, x) -> loses (dat s) (lose f x (dat s))) by (intros f x Hf; right; by eexists).
  assert (Hfull : forall d m, overflow <> OverflowBlock -> negb (full queueSize d (dat s)) = false -> loses (dat s) (lose Overflow (d, m) (dat s)))
    by (intros; by apply Hx, full_loss).
  destruct p, mv; simpl in E; try discriminate E; repeat case_match; simplify_eq; simpl; try (by left).
  all: try (apply bind_Some in E as (? & El & [= <-]); simpl).
  all: try (left; by eapply look_lost). all: try (left; unfold startDispatcher; by case_match).
  all: try (apply Hx; eauto using stray_loss, full_loss; fail).
  all: try (by apply Hfull).
  all: try (apply Hx; simpl; by left). all: try (apply Hx; simpl; right; by eexists).
  - apply bind_Some in E as ([r D] & Er & [= <-]). left. simpl. by eapply receive_one_lost.
  - right. match goal with Ed : drain_one _ _ = Some _ |- _ => unfold drain_one in Ed; destruct (queue (dat s) (Some id)); [done|]; injection Ed as <- end.
    simpl. eexists. split; [done|]. simpl. right. exists id. split; [done|]. unfold closed_id. by rewrite (bool_decide_eq_true_2 _ Hk).
Qed.

Lemma dispatch_loses s mv s' : dispatch_step overflow queueSize mv s = Some s' -> loses (dat s) (dat s').
Proof.
  intros E. unfold dispatch_step in E.
  assert (Hx : forall f x, loss_ok overflow queueSize (dat s) (f, x) -> loses (dat s) (lose f x (dat s))) by (intros f x Hf; right; by eexists).
  assert (Hfull : forall d m, overflow <> OverflowBlock -> negb (full queueSize d (dat s)) = false -> loses (dat s) (lose Overflow (d, m) (dat s)))
    by (intros; by apply Hx, full_loss).
  destruct (dpc s), mv; try discriminate E; repeat case_match; simplify_eq; simpl; try (by left).
  all: try (apply Hx; eauto using stray_loss; fail). all: try (by apply Hfull).
  all: try (apply Hx; simpl; by left). all: try (apply Hx; simpl; right; by eexists).
  apply bind_Some in E as ([r D] & Er & [= <-]). left. simpl. by eapply receive_one_lost.
Qed.

Lemma link_step_loses s s' : link_inv overflow queueSize s -> link_step overflow queueSize s s' -> loses (dat s) (dat s').
Proof.
  intros Hs Hst. destruct Hst as [s it|s id|s id Hid|s|s|s i mv s' E|s mv s' E]; try (by left).
  - left. simpl. unfold open_stream. by case_match.
  - by eapply thread_loses.
  - by eapply dispatch_loses.
Qed.
End Losses.

(** ** Only streams that were opened *)

Record only_open (s : link) : Prop := mkOnlyOpen {
  op_dat : only_opened (dat s);
  op_th : forall j q id, th s !! j = Some q -> delivering q = Some (Some id) -> id ∈ opened (dat s);
  op_disp : forall id, ddelivering (dpc s) = Some (Some id) -> id ∈ opened (dat s)
}.

(** The data of a step that queues nothing. *)
Definition grows (D D' : data) : Prop := (only_opened D -> only_opened D') /\ opened D ⊆ opened D'.

Lemma grows_refl D : grows D D. Proof. done. Qed.

Lemma grows_trans D1 D2 D3 : grows D1 D2 -> grows D2 D3 -> grows D1 D3.
Proof. intros [H1 H2] [H3 H4]. split; [auto|set_solver]. Qed.

Lemma same_grows D D' : queues D' = queues D -> taken D' = taken D -> opened D' = opened D -> table D' ⊆ table D -> grows D D'.
Proof.
  intros E1 E2 E3 E4. split; [|by rewrite E3]. intros [H1 H2 H3]. constructor; unfold queue; rewrite ?E1, ?E2, ?E3; [set_solver|done|done].
Qed.

Lemma open_grows id D : grows D (open_stream id D).
Proof.
  unfold open_stream. case_match; [apply grows_refl|]. split; [|simpl; set_solver]. intros [H1 H2 H3].
  constructor; simpl; [set_solver|intros j Hj; apply H2; set_solver|intros j Hj; apply H3; set_solver].
Qed.

Lemma peer_close_grows id D : grows D (peer_close id D).
Proof. unfold peer_close. case_match; [|apply grows_refl]. apply same_grows; try done. simpl. set_solver. Qed.

Lemma receive_one_grows D r D' : receive_one D = Some (r, D') -> grows D D'.
Proof.
  unfold receive_one. destruct (inbox D) as [|[] l]; intros E; simplify_eq; try (by apply same_grows).
  - eapply grows_trans; [|apply open_grows]. by apply same_grows.
  - eapply grows_trans; [|apply peer_close_grows]. by apply same_grows.
Qed.

Lemma pop_grows d q D D' : queues D' = <[d := q]> (queues D) -> (queue D d = [] -> q = []) ->
  (taken D' = taken D \/ exists m, taken D' = taken D ++ [(d, m)] /\ queue D d <> []) -> opened D' = opened D -> table D' = table D -> grows D D'.
Proof.
  intros Eq Hq Ht Eo Et. split; [|by rewrite Eo]. intros [H1 H2 H3]. constructor; rewrite ?Eo, ?Et; [done|..]; intros id Hid; specialize (H2 id Hid).
  - unfold queue in *. rewrite Eq. destruct (decide (d = Some id)) as [->|Hne]; [rewrite lookup_insert_eq; simpl; by apply Hq|by rewrite lookup_insert_ne].
  - destruct Ht as [->|(m & -> & Hne)]; [by apply H3|]. rewrite for_dest_app, (H3 id Hid), for_dest_one. case_decide as E; [by subst|done].
Qed.

Lemma look_grows k D D' : look k D = Some D' -> grows D D'.
Proof.
  destruct k as [d|]; [|done]. simpl. unfold take_from. destruct (queue D d) as [|m q] eqn:Eq; [done|]. intros [= <-].
  eapply (pop_grows d q); simpl; try done; [by rewrite Eq|]. right. exists m. by rewrite Eq.
Qed.

Lemma drain_grows d D D' : drain_one d D = Some D' -> grows D D'.
Proof.
  unfold drain_one. destruct (queue D d) as [|m q] eqn:Eq; [done|]. intros [= <-].
  eapply (pop_grows d q); simpl; try done; [by rewrite Eq|]. by left.
Qed.

Lemma enqueue_grows d m D : (forall id, d = Some id -> id ∈ opened D) -> grows D (enqueue d m D).
Proof.
  intros Hd. split; [|done]. intros [H1 H2 H3]. constructor; simpl; try done. intros id Hid. unfold queue. simpl.
  destruct (decide (d = Some id)) as [->|Hne]; [by destruct Hid; apply Hd|]. rewrite lookup_insert_ne by done. by apply H2.
Qed.

Lemma routable_opened id D : only_opened D -> routable (Some id) D = true -> id ∈ opened D.
Proof. intros [H _ _]. simpl. intros [Hin%bool_decide_eq_true _]%andb_true_iff. set_solver. Qed.

Section OnlyOpen.
Context (overflow : OverflowPolicy) (queueSize : nat).

Lemma op_thread s i p p' s' : only_open s -> th s !! i = Some p -> th s' = <[i := p']> (th s) \/ (exists d m, th s' = <[i := p']> (th s) ++ [FBlock d m] /\ delivering p = Some d) ->
  dpc s' = dpc s \/ ddelivering (dpc s') = None -> grows (dat s) (dat s') ->
  (forall id, delivering p' = Some (Some id) -> delivering p = Some (Some id) \/ id ∈ opened (dat s)) -> only_open s'.
Proof.
  intros [H1 H2 H3] Hi Et Ed [Hg Ho] Hp'. constructor; [by apply Hg| |].
  - assert (Hold : forall j q id, <[i := p']> (th s) !! j = Some q -> delivering q = Some (Some id) -> id ∈ opened (dat s')).
    { intros j q id Hj Hq. apply Ho. apply list_lookup_insert_Some in Hj as [(<- & <- & _)|[Hne Hj]]; [|by eapply H2].
      destruct (Hp' id Hq); [by eapply H2|done]. }
    intros j q id Hj Hq. destruct Et as [Et|(d & m & Et & Hd)]; rewrite Et in Hj; [by eapply Hold|].
    apply lookup_app_Some in Hj as [Hj|[_ Hj]]; [by eapply Hold|]. apply list_lookup_singleton_Some in Hj as [_ <-]. simpl in Hq. simplify_eq.
    apply Ho. by eapply H2.
  - intros id E. apply Ho. destruct Ed as [Ed|Ed]; [apply H3; by rewrite <- Ed|by rewrite Ed in E].
Qed.

Lemma op_thread_step s i mv s' : only_open s -> thread_step overflow queueSize i mv s = Some s' -> only_open s'.
Proof.
  intros Hs E. unfold thread_step in E. apply bind_Some in E as (p & Hi & E). pose proof Hs as [H1 H2 H3].
  assert (Hold : forall id, delivering p = Some (Some id) -> id ∈ opened (dat s)) by (intros id; by apply (H2 i p id)).
  assert (Hlose : forall f x, grows (dat s) (lose f x (dat s))) by (intros; by apply same_grows).
  assert (Hspawn : forall k d m, p = RDeliver k d m -> only_open (spawn d m (set_pc i (RTop k) s))).
  { intros k d m ->. eapply op_thread; [done|exact Hi|right; by exists d, m|by left|apply grows_refl|done]. }
  assert (Hset : forall p' s1, s1 = set_pc i p' s -> delivering p' = None \/ delivering p' = delivering p -> only_open s1).
  { intros p' s1 -> Hp. eapply op_thread; [done|exact Hi|by left|by left|apply grows_refl|]. intros id Hid. destruct Hp as [Hp|Hp]; rewrite Hp in Hid; [done|by left]. }
  assert (Hdat : forall p' D s1, th s1 = <[i := p']> (th s) -> dpc s1 = dpc s \/ ddelivering (dpc s1) = None -> dat s1 = D -> grows (dat s) D -> delivering p' = None -> only_open s1).
  { intros p' D s1 Et Ed ED Hg Hp. eapply op_thread; [done|exact Hi|by left|done|by rewrite ED|]. intros id Hid. by rewrite Hp in Hid. }
  assert (Hstart : forall p', delivering p' = None -> only_open (set_pc i p' (startDispatcher s))).
  { intros p' Hp. unfold startDispatcher. destruct (dispatchStarted s); [eapply Hset; eauto|]. eapply Hdat; [reflexivity|by right|reflexivity|apply grows_refl|done]. }
  assert (Hroute : forall k d m, routable d (dat s) = true -> only_open (set_pc i (RDeliver k d m) s)).
  { intros k d m Hr. eapply op_thread; [done|exact Hi|by left|by left|apply grows_refl|]. intros id [= ->]. right. by apply routable_opened. }
  destruct p, mv; simpl in E; try discriminate E; repeat case_match; simplify_eq;
    try (eapply Hset; [reflexivity|by left]); try (by apply Hstart); try (by eapply Hspawn); try (by apply Hroute).
  all: try (eapply Hdat; [reflexivity|by left|reflexivity| |done]; first [apply grows_refl|apply Hlose|by eapply look_grows|by apply same_grows|apply enqueue_grows; intros ? ?; subst; auto; fail|apply enqueue_grows; intros ? [= <-]; auto; fail|by apply enqueue_grows|apply same_grows; simpl; (done || set_solver)]).
  - apply bind_Some in E as (D & El & [= <-]). eapply Hdat; [reflexivity|by left|reflexivity|by eapply look_grows|done].
  - apply bind_Some in E as ([r D] & El & [= <-]). eapply Hdat; [reflexivity|by left|reflexivity|by eapply receive_one_grows|by destruct r].
  - eapply (Hdat (CDrain id)); [simpl; symmetry; by apply list_insert_id|by left|reflexivity|by eapply drain_grows|done].
Qed.

Lemma op_dispatch_step s mv s' : only_open s -> dispatch_step overflow queueSize mv s = Some s' -> only_open s'.
Proof.
  intros [H1 H2 H3] E. unfold dispatch_step in E.
  assert (Hlose : forall f x, grows (dat s) (lose f x (dat s))) by (intros; by apply same_grows).
  assert (G : forall s1, th s1 = th s -> grows (dat s) (dat s1) -> (forall id, ddelivering (dpc s1) = Some (Some id) -> id ∈ opened (dat s)) -> only_open s1).
  { intros s1 Et [Hg Ho] Hd. constructor; [by apply Hg| |by intros id E1; apply Ho, Hd].
    intros j q id Hj Hq. apply Ho. rewrite Et in Hj. by eapply H2. }
  assert (Hroute : forall d m, routable d (dat s) = true -> only_open (set_dpc (DDeliver d m) s)).
  { intros d m Hr. apply G; [done|apply grows_refl|]. intros id [= ->]. by apply routable_opened. }
  destruct (dpc s) eqn:Ep, mv; try discriminate E; repeat case_match; simplify_eq; try (by apply Hroute).
  all: try (apply G; [done| |by simpl in *; auto]; simpl; first [apply grows_refl|apply Hlose|apply enqueue_grows; intros ? ?; simplify_eq; auto; fail]).
  apply bind_Some in E as ([r D] & Er & [= <-]). apply G; simpl; [done|by eapply receive_one_grows|by destruct r].
Qed.

Lemma op_reachable n s : rtc (link_step overflow queueSize) (new_link n) s -> only_open s.
Proof.
  assert (G : forall a b, rtc (link_step overflow queueSize) a b -> only_open a -> only_open b).
  { induction 1 as [|a b c Hab _ IH]; [done|]. intros Ha. apply IH. clear IH. pose proof Ha as [H1 H2 H3].
    assert (Hd : forall D, grows (dat a) D -> only_open (set_dat D a)).
    { intros D [Hg Ho]. constructor; [by apply Hg|intros j q id Hj Hq; apply Ho; by eapply H2|intros id Hq; by apply Ho, H3]. }
    destruct Hab as [s1 it|s1 id|s1 id Hid|s1|s1|s1 i mv s' E|s1 mv s' E].
    - apply Hd. by apply same_grows.
    - apply Hd, open_grows.
    - apply Hd. apply same_grows; try done. simpl. set_solver.
    - apply Hd. by apply same_grows.
    - apply Hd. by apply same_grows.
    - by eapply op_thread_step.
    - by eapply op_dispatch_step. }
  intros H. eapply G; [exact H|]. constructor; [by constructor| |done]. simpl. by intros j q id [-> _]%lookup_replicate.
Qed.
End OnlyOpen.

(** ** Theorem *)

(** Nobody is about to queue a message for stream [id]. *)
Definition quiet_stream (s : link) (id : Z) : Prop :=
  (forall j q, th s !! j = Some q -> delivering q <> Some (Some id)) /\ ddelivering (dpc s) <> Some (Some id).

(** C9. Delivery. For any number of goroutines that receive, wait for responses
    and close streams, with or without a dispatcher, and at every moment: what
    was read from a queue, what is queued, the message being routed and what is
    still in the ring are, in this order, a subsequence of what arrived for the
    queue, so messages are read in the order in which they were sent; each
    message that arrived is one of these or lost, once. A step loses one message
    at most, and only for a reason that holds at that moment: its stream is not
    in the table and was not closed; its queue is full and the overflow policy
    is not OverflowBlock; its stream or the link is closed; or it is a request
    and Shutdown was called. Nothing is queued or read for a stream that never
    was in the table; no queue outgrows its size;
    one goroutine at most holds the lock of the receive direction, and whoever
    has it still has to release it; a caller waits for the dispatcher only if
    there is one; and Recv reports that the peer closed the stream only when its
    queue is empty and nobody is about to add to it. *)
Theorem delivery_in_order overflow queueSize n s (Hs : rtc (link_step overflow queueSize) (new_link n) s) :
  (forall d, line (dat s) d `sublist_of` for_dest d (arrived (dat s)) /\ for_dest d (arrived (dat s)) ≡ₚ line (dat s) d ++ lost_to (dat s) d) /\
  Forall (fate_ok overflow (dat s)) (lost (dat s)) /\
  (forall s', link_step overflow queueSize s s' -> loses overflow queueSize (dat s) (dat s')) /\
  (forall id, id ∉ opened (dat s) -> queue (dat s) (Some id) = [] /\ for_dest (Some id) (taken (dat s)) = []) /\
  (forall d, (length (queue (dat s) d) <= queueSize)%nat) /\
  (forall i p, th s !! i = Some p -> holds p = true -> receiveMu s = Some (Some i)) /\
  (dholds (dpc s) = true -> receiveMu s = Some None) /\
  match receiveMu s with Some (Some i) => exists p, th s !! i = Some p /\ holds p = true | Some None => dholds (dpc s) = true | None => True end /\
  (forall i k, th s !! i = Some (RWait k) -> dpc s <> DNone) /\
  (forall i id, th s !! i = Some (REof (KRecv (Some id))) -> id ∈ pclosed (dat s) /\ queue (dat s) (Some id) = [] /\ quiet_stream s id).
Proof.
  destruct (op_reachable _ _ _ _ Hs) as [[_ Hoq Hot] _ _]. apply link_reachable in Hs as inv. pose proof inv as [Ht Hd Hf Hl [H1 H2 H3 H4]]. split_and!; try done.
  - intros s'. by apply link_step_loses.
  - intros id Hid. auto.
  - intros i p Hi. apply (to_lock _ _ _ (Ht i p Hi)).
  - apply (do_lock _ Hd).
  - intros i k Hi. apply (do_started _ Hd). by apply (to_wait _ _ _ (Ht i _ Hi) k).
  - intros i id Hi. destruct (to_knows _ _ _ (Ht i _ Hi)) as (id' & [= <-] & Hid & Hq). split_and!; [done|done|split].
    + intros j q Hj E. by apply (to_open _ _ _ (Ht j q Hj) id E).
    + intros E. by apply (do_open _ Hd id E).
Qed.

(** A schedule of moves. *)
Inductive move := Send (it : item) | T (i : nat) (mv : thread_move) | Disp (mv : thread_move).

Fixpoint play (overflow : OverflowPolicy) (queueSize : nat) (l : list move) (s : link) : option link :=
  match l with
  | [] => Some s
  | Send it :: l => play overflow queueSize l (set_dat (arrive it (dat s)) s)
  | T i mv :: l => thread_step overflow queueSize i mv s ≫= play overflow queueSize l
  | Disp mv :: l => dispatch_step overflow queueSize mv s ≫= play overflow queueSize l
  end.

Lemma play_link_sound overflow queueSize l : forall s s', play overflow queueSize l s = Some s' -> rtc (link_step overflow queueSize) s s'.
Proof.
  induction l as [|[it|i mv|mv] l IH]; intros s s' E; simpl in E; [injection E as ->; constructor|..].
  - eapply rtc_l; [apply ls_arrive|by apply IH].
  - apply bind_Some in E as (s1 & E1 & E2). eapply rtc_l; [by eapply ls_thread|by apply IH].
  - apply bind_Some in E as (s1 & E1 & E2). eapply rtc_l; [by eapply ls_dispatch|by apply IH].
Qed.

(** Queues of one message. Goroutine 0 receives for the request queue and finds
    two messages for stream 4: the second is handed to a new goroutine, with the
    lock. Goroutine 1 reads the first, goroutine 0 starts the dispatcher, which
    finds the third message and the close of the stream. Goroutine 1 reads the
    second and the third message, and then finds the stream closed. *)
Definition recv_move (i : nat) (d : dest) (n : nat) : list move := T i (Receive (KRecv d)) :: replicate n (T i Go).

Definition stall_schedule : list move :=
  [Send (IOpen 4); Send (IMsg (Some 4) 11); Send (IMsg (Some 4) 22); Send (IMsg (Some 4) 33); Send (IClose 4)] ++
  recv_move 0 None 27 ++ recv_move 1 (Some 4) 2 ++ [T 2 Go; T 2 Go] ++ recv_move 1 (Some 4) 2 ++ replicate 7 (Disp Go) ++
  recv_move 1 (Some 4) 2 ++ recv_move 1 (Some 4) 4.

Definition stall_state : link := Eval vm_compute in default (new_link 0) (play OverflowBlock 1 stall_schedule (new_link 2)).

Lemma stall_played : play OverflowBlock 1 stall_schedule (new_link 2) = Some stall_state.
Proof. vm_compute. reflexivity. Qed.

Lemma delivery_in_order_witness : rtc (link_step OverflowBlock 1) (new_link 2) stall_state /\ taken (dat stall_state) = [(Some 4, 11); (Some 4, 22); (Some 4, 33)] /\
  th stall_state !! 1%nat = Some (REof (KRecv (Some 4))) /\ queue (dat stall_state) (Some 4) = [] /\ dpc stall_state = DNext /\ receiveMu stall_state = Some None.
Proof.
  pose proof (play_link_sound _ _ _ _ _ stall_played) as H. destruct (delivery_in_order OverflowBlock 1 2 stall_state H) as (_ & _ & _ & _ & _ & _ & H5 & _ & _ & H8).
  split; [exact H|]. split; [reflexivity|]. split; [reflexivity|]. split; [apply (H8 1%nat 4); reflexivity|]. split; [reflexivity|apply H5; reflexivity].
Defined.

(** A full queue, without a goroutine that may wait: the message is dropped, and
    counted, or the receiver fails. *)
Example overflow_drops : exists s, play OverflowDrop 1 ([Send (IMsg (Some 0) 11); Send (IMsg (Some 0) 22)] ++ recv_move 0 None 21) (new_link 1) = Some s /\
  lost (dat s) = [(Overflow, (Some 0, 22))] /\ queue (dat s) (Some 0) = [11].
Proof. eexists. vm_compute. done. Qed.
