(* ===== verification/Rendezvous.v ===== *)
(** * Rendezvous: finding and joining a listener

    Models listener_layout.go, connect.go and the decisions of listener.go: the
    configurations and their defaults, the names of link segments, the connect
    record and its validation, the header of a listener segment from its claim to
    its publication, and what a client makes of it. The goroutines of an acceptor
    are in Acceptor. Names are byte strings; [pagesize] is the size of a page. *)
From Stdlib Require Import Ascii String.
From S2P Require Import Prelude Errors Layout Superblock Negotiate.

(** The bytes of a string constant. *)
Fixpoint text (s : string) : bytes :=
  match s with EmptyString => [] | String c s => Z.of_nat (nat_of_ascii c) :: text s end.

(** ** Configurations *)

Definition DefaultBufferCount : Z := 256.
Definition DefaultBufferSize : Z := 4096.
Definition DefaultAcceptorQueueSize : Z := 64.
Definition defaultAcceptorMaxBufferCount : Z := 4096.
Definition defaultAcceptorMaxBufferSize : Z := 2 ^ 20.
Definition defaultAcceptorMaxLinkSize : Z := 256 * 2 ^ 20.
Definition defaultAcceptorBacklog : Z := 16.
Definition defaultAcceptorHandshakes : Z := 16.
Definition defaultStuckSlotTimeout : Z := 2 * second.

Record Config := mkConfig { BufferCount : Z; BufferSize : Z; Perm : Z; Features : Z; cf_Link : LinkOptions }.

Definition or_default (v d : Z) : Z := if v =? 0 then d else v.

Definition Config_normalized (c : Config) : Config :=
  mkConfig (or_default (BufferCount c) DefaultBufferCount) (or_default (BufferSize c) DefaultBufferSize) (or_default (Perm c) 0x180)
    (or_default (Features c) supportedFeatures) (cf_Link c).

Record AcceptorConfig := mkAcceptorConfig {
  ac_Perm : Z; QueueSize : Z; ac_Features : Z; ac_Link : LinkOptions;
  MaxBufferCount : Z; MaxBufferSize : Z; MaxLinkSize : Z;
  Backlog : Z; MaxHandshakes : Z; HandshakeTimeout : Z; StuckSlotTimeout : Z
}.

Definition positive_or (v d : Z) : Z := if v <=? 0 then d else v.

(** ** Names of link segments *)

Definition listenerMaxNameLen : nat := 184.
Definition listenerMaxPrefixLen : nat := 32.
Definition listenerSuffixLen : nat := 16.
Definition listenerStemLen : nat := 12.

Definition lower (c : Z) : Z := if (65 <=? c) && (c <=? 90) then c + 32 else c.

(** [strings.EqualFold] against a scope: its letters fold to no others than
    their ASCII forms. *)
Definition EqualFold (a b : bytes) : bool := bool_decide (lower <$> a = lower <$> b).

(** The scope of a name, and the rest. *)
Definition has_scope (p name : bytes) : bool := (length p <? length name)%nat && EqualFold (take (length p) name) p.

Definition split_scope (name : bytes) : bytes * bytes :=
  let g := text "Global\" in let l := text "Local\" in
  if has_scope g name then (take (length g) name, drop (length g) name)
  else if has_scope l name then (take (length l) name, drop (length l) name)
  else ([], name).

Definition is_digit (c : Z) : bool := (48 <=? c) && (c <=? 57).

Definition stem_byte (c : Z) : Z :=
  if ((97 <=? c) && (c <=? 122)) || ((65 <=? c) && (c <=? 90)) || is_digit c || (c =? 95) || (c =? 45) then c else 95.

Definition listenerLinkPrefix (listenerName : bytes) : bytes :=
  let (scope, rest) := split_scope listenerName in
  let rest := match rest with 47 :: r => r | r => r end in
  scope ++ (stem_byte <$> take listenerStemLen rest) ++ [46].

Definition hexdigit (d : Z) : Z := if d <? 10 then 48 + d else 87 + d.

(** [strconv.AppendUint] in base 16. *)
Fixpoint append_hex (fuel : nat) (v : Z) (acc : bytes) : bytes :=
  match fuel with
  | O => acc
  | S fuel => if v <? 16 then hexdigit v :: acc else append_hex fuel (v / 16) (hexdigit (v mod 16) :: acc)
  end.

(** The digits are appended in the array itself and then moved to its end, so
    what is left in front of a short number is not the zeros but its own first
    digits. *)
Definition newLinkName (prefix : bytes) (token : Z) : bytes :=
  let buf := replicate listenerSuffixLen 48 in
  let n := length (append_hex 16 token []) in
  let buf := blit 0 (append_hex 16 token []) buf in
  prefix ++ blit (listenerSuffixLen - n) (take n buf) buf.

Definition is_hex (c : Z) : bool := is_digit c || ((97 <=? c) && (c <=? 102)).

Definition validLinkName (prefix name : bytes) : bool :=
  (length name =? length prefix + listenerSuffixLen)%nat && bool_decide (take (length prefix) name = prefix) && forallb is_hex (drop (length prefix) name).

(** ** Connect records *)

Record connectRecord := mkRecord {
  clientToken : Z; r_bufferCount : Z; r_bufferSize : Z; r_features : Z; r_flags : Z; nameLen : Z; clientPID : Z; r_reserved : Z;
  r_name : bytes
}.

Definition empty_record : connectRecord := mkRecord 0 0 0 0 0 0 0 0 (replicate listenerMaxNameLen 0).

Definition recordName (r : connectRecord) : option bytes :=
  if (nameLen r =? 0) || (Z.of_nat listenerMaxNameLen <? nameLen r) then None else Some (take (Z.to_nat (nameLen r)) (r_name r)).

Definition setName (name : bytes) (r : connectRecord) : option connectRecord :=
  if (length name =? 0)%nat || (listenerMaxNameLen <? length name)%nat then None
  else Some (mkRecord (clientToken r) (r_bufferCount r) (r_bufferSize r) (r_features r) (r_flags r) (Z.of_nat (length name)) (clientPID r) (r_reserved r)
               (copy_to (replicate listenerMaxNameLen 0) name)).

(** The record of [connectOnce]. *)
Definition connect_record (cfg : Config) (instance pid : Z) : connectRecord :=
  mkRecord instance (u64 (BufferCount cfg)) (u64 (BufferSize cfg)) (Features cfg) 0 0 pid 0 (replicate listenerMaxNameLen 0).

Section Segments.
Context (pagesize : Z).

Definition AcceptorConfig_normalized (c : AcceptorConfig) : result error AcceptorConfig :=
  let c := mkAcceptorConfig (or_default (ac_Perm c) 0x180) (or_default (QueueSize c) DefaultAcceptorQueueSize) (ac_Features c) (ac_Link c)
             (MaxBufferCount c) (MaxBufferSize c) (MaxLinkSize c) (Backlog c) (MaxHandshakes c) (HandshakeTimeout c) (StuckSlotTimeout c) in
  if listenerLayoutSize pagesize (QueueSize c) =? 0 then Err ErrInvalidSize
  else
    let c := mkAcceptorConfig (ac_Perm c) (QueueSize c) (or_default (ac_Features c) supportedFeatures) (ac_Link c)
               (or_default (MaxBufferCount c) defaultAcceptorMaxBufferCount) (or_default (MaxBufferSize c) defaultAcceptorMaxBufferSize)
               (or_default (MaxLinkSize c) defaultAcceptorMaxLinkSize) (Backlog c) (MaxHandshakes c) (HandshakeTimeout c) (StuckSlotTimeout c) in
    if (MaxBufferCount c <? MinBufferCount) || (maxBufferCount <? MaxBufferCount c) || (MaxBufferSize c <? MinBufferSize) || (maxBufferSize <? MaxBufferSize c)
    then Err ErrInvalidSize
    else Ok (mkAcceptorConfig (ac_Perm c) (QueueSize c) (ac_Features c) (ac_Link c) (MaxBufferCount c) (MaxBufferSize c) (MaxLinkSize c)
               (positive_or (Backlog c) defaultAcceptorBacklog) (positive_or (MaxHandshakes c) defaultAcceptorHandshakes)
               (positive_or (HandshakeTimeout c) DefaultAttachTimeout) (or_default (StuckSlotTimeout c) defaultStuckSlotTimeout)).

(** [Acceptor.validate] *)
Definition validate (prefix : bytes) (cfg : AcceptorConfig) (rec : connectRecord) : result error bytes :=
  if negb (r_flags rec =? 0) then Err errBadRecord
  else
    match recordName rec with
    | None => Err errBadRecord
    | Some name =>
        if negb (validLinkName prefix name) then Err errBadRecord
        else if negb (isOwnerToken (clientToken rec)) then Err errBadRecord
        else if (u64 (MaxBufferCount cfg) <? r_bufferCount rec) || (u64 (MaxBufferSize cfg) <? r_bufferSize rec) then Err errBadRecord
        else
          match computeLayout pagesize (i64 (r_bufferCount rec)) (i64 (r_bufferSize rec)) with
          | None => Err errBadRecord
          | Some layout => if MaxLinkSize cfg <? ly_total layout then Err errBadRecord else Ok name
          end
    end.

End Segments.

(** ** The header of a listener segment *)

Definition listenerMagic : Z := 0x4851515f4c534e31.
Definition listenerMajor : Z := 1.
Definition listenerMinor : Z := 0.
Definition listenerKnownRequiredFeatures : Z := 0.
Definition listenerRecordSize : Z := 248.
Definition listenerHeaderSize : Z := 4096.
Definition hour : Z := 3600 * second.

Record listenerHeader := mkHeader {
  h_magic : Z; h_state : Z; h_major : Z; h_minor : Z; h_ringOffset : Z; h_recordSize : Z; h_capacity : Z; h_layoutSize : Z;
  h_epoch : Z; h_initToken : Z; h_initHeartbeat : Z; h_requiredFeatures : Z; h_creatorToken : Z;
  h_server : endpointRecord;    (* serverToken, serverPID, serverHeartbeat, serverInterval *)
  h_maxBufferCount : Z; h_maxBufferSize : Z; h_maxLinkSize : Z; h_features : Z;
  h_prefixLen : Z; h_prefix : bytes;
  h_rest : bytes                (* the remaining bytes of the header *)
}.

Definition set_hstate (v : Z) (h : listenerHeader) : listenerHeader :=
  mkHeader (h_magic h) v (h_major h) (h_minor h) (h_ringOffset h) (h_recordSize h) (h_capacity h) (h_layoutSize h) (h_epoch h) (h_initToken h)
    (h_initHeartbeat h) (h_requiredFeatures h) (h_creatorToken h) (h_server h) (h_maxBufferCount h) (h_maxBufferSize h) (h_maxLinkSize h) (h_features h)
    (h_prefixLen h) (h_prefix h) (h_rest h).
Definition set_hinit (tok creator hb : Z) (h : listenerHeader) : listenerHeader :=
  mkHeader (h_magic h) (h_state h) (h_major h) (h_minor h) (h_ringOffset h) (h_recordSize h) (h_capacity h) (h_layoutSize h) (h_epoch h) tok
    hb (h_requiredFeatures h) creator (h_server h) (h_maxBufferCount h) (h_maxBufferSize h) (h_maxLinkSize h) (h_features h)
    (h_prefixLen h) (h_prefix h) (h_rest h).
Definition set_hepoch (v : Z) (h : listenerHeader) : listenerHeader :=
  mkHeader (h_magic h) (h_state h) (h_major h) (h_minor h) (h_ringOffset h) (h_recordSize h) (h_capacity h) (h_layoutSize h) v (h_initToken h)
    (h_initHeartbeat h) (h_requiredFeatures h) (h_creatorToken h) (h_server h) (h_maxBufferCount h) (h_maxBufferSize h) (h_maxLinkSize h) (h_features h)
    (h_prefixLen h) (h_prefix h) (h_rest h).

Definition stampListener (h : listenerHeader) : listenerHeader :=
  mkHeader (h_magic h) (h_state h) listenerMajor listenerMinor (h_ringOffset h) (h_recordSize h) (h_capacity h) (h_layoutSize h) (h_epoch h) (h_initToken h)
    (h_initHeartbeat h) 0 (h_creatorToken h) (h_server h) (h_maxBufferCount h) (h_maxBufferSize h) (h_maxLinkSize h) (h_features h)
    (h_prefixLen h) (h_prefix h) (h_rest h).

Definition listenerHeaderZero (h : listenerHeader) : bool :=
  forallb (Z.eqb 0) [h_magic h; h_state h; h_major h; h_minor h; h_ringOffset h; h_recordSize h; h_capacity h; h_layoutSize h; h_epoch h; h_initToken h;
    h_initHeartbeat h; h_requiredFeatures h; h_creatorToken h; h_maxBufferCount h; h_maxBufferSize h; h_maxLinkSize h; h_features h; h_prefixLen h] &&
  ep_zero (h_server h) && forallb (Z.eqb 0) (h_prefix h) && forallb (Z.eqb 0) (h_rest h).

Definition checkListenerCompat (h : listenerHeader) (initializing : bool) : option error :=
  if negb (and_not (h_requiredFeatures h) listenerKnownRequiredFeatures =? 0) then Some ErrIncompatibleLayout
  else if negb initializing then
    if negb (h_magic h =? listenerMagic) || negb (h_major h =? listenerMajor) then Some ErrIncompatibleLayout else None
  else if negb (h_magic h =? 0) && negb (h_magic h =? listenerMagic) then Some ErrIncompatibleLayout
  else if negb (h_major h =? listenerMajor) && (negb (h_major h =? 0) || negb (h_initToken h =? 0)) then Some ErrIncompatibleLayout
  else None.

(** [listenerSmallObject]: the header of an object of [cur] bytes, which is too
    small for the segment; mapping it succeeds. *)
Definition listenerSmallObject (cur : Z) (h : listenerHeader) : error :=
  if cur <? listenerHeaderSize then ErrIncompatibleLayout
  else match checkListenerCompat h false with Some _ => ErrIncompatibleLayout | None => ErrInvalidSize end.

(** [listenerServerAlive]: like the liveness of an endpoint (Superblock), but an
    absurd interval is no heartbeat either. *)
Definition listenerServerAlive (opts : LinkOptions) (wall : Z) (rec : endpointRecord) (samples : list (result error endpointRecord)) : result error bool :=
  if negb (isOwnerToken (ep_token rec)) then Ok false
  else
    let interval := i64 (ep_interval rec) in
    if (interval <=? 0) || (hour <? interval) then Ok true
    else if (ep_heartbeat rec =? 0) || heartbeatFresh wall (ep_heartbeat rec) (effectivePeerTimeout opts interval) then Ok true
    else watch_progress (ep_heartbeat rec) (ep_token rec) samples.

(** *** Claiming *)

(** What other processes do between two accesses is a function [itf] of the
    header. [beginListenerInit]: *)
Definition beginListenerInit (itf : listenerHeader -> listenerHeader) (token expected creatorToken wall : Z) (h : listenerHeader) : listenerHeader * bool :=
  let h := itf (stampListener h) in
  if h_initToken h =? expected then (set_hinit token creatorToken wall h, true) else (h, false).

Inductive llook := LClaimed | LFailed (e : error) | LAgain | LPoll.

(** What one look observes besides the header. *)
Record llook_env := mkLEnv {
  ll_ctx : option error; ll_now : Z; ll_wall : Z; ll_deadline : Z;
  ll_alive : endpointRecord -> result error bool      (* listenerServerAlive *)
}.

(** The end of an iteration, with the watch on another initializer (its token,
    its heartbeat, since when). *)
Definition listener_tail (env : llook_env) (stale : Z) (stalling : bool) (w : option (Z * Z * Z)) : llook :=
  let limit :=
    match w with
    | Some (_, _, since) => if stalling && (since <? ll_deadline env) then Z.max (ll_deadline env) (since + stale) else ll_deadline env
    | None => ll_deadline env
    end in
  if limit <? ll_now env then
    if stalling && match w with Some (_, _, since) => stale <=? ll_now env - since | None => false end then LAgain else LFailed errInitContended
  else LPoll.

Definition claim_header (itf : nat -> listenerHeader -> listenerHeader) (env : llook_env) (token creatorToken from : Z) (h : listenerHeader)
  : option (listenerHeader * llook) :=
  let h := itf 1%nat h in
  if h_state h =? from then
    let h := itf 2%nat (set_hstate superblockStateInitializing h) in
    let (h, ok) := beginListenerInit (itf 3%nat) token (h_initToken h) creatorToken (ll_wall env) h in
    Some (h, if ok then LClaimed else LFailed errInitContended)
  else None.

(** One pass of the loop of [claimListener]. *)
Definition claimListener_look (itf : nat -> listenerHeader -> listenerHeader) (env : llook_env) (token creatorToken : Z) (opts : LinkOptions)
    (w : option (Z * Z * Z)) (h : listenerHeader) : listenerHeader * option (Z * Z * Z) * llook :=
  match ll_ctx env with
  | Some e => (h, w, LFailed e)
  | None =>
      let h := itf 0%nat h in
      let st := h_state h in
      let stale := initStaleWindow opts in
      let w := if st =? superblockStateInitializing then w else None in
      let h := itf 4%nat h in
      if st =? superblockStateEmpty then
        if negb (listenerHeaderZero h) then
          let h := itf 1%nat h in
          if negb (h_state h =? superblockStateEmpty) then (h, w, LAgain) else (h, w, LFailed ErrIncompatibleLayout)
        else
          match claim_header itf env token creatorToken superblockStateEmpty h with
          | Some (h, r) => (h, w, r)
          | None => (itf 1%nat h, w, listener_tail env stale false w)
          end
      else if st =? superblockStateInitializing then
        let tok := h_initToken h in
        let h := itf 5%nat h in
        let hb := h_initHeartbeat h in
        let h := itf 6%nat h in
        match checkListenerCompat h true with
        | Some e => (h, w, LFailed e)
        | None =>
            let fresh := Some (tok, hb, ll_now env) in
            match w with
            | Some (wtok, whb, since) =>
                if negb (wtok =? tok) || negb (whb =? hb) then (h, fresh, listener_tail env stale true fresh)
                else if stale <=? ll_now env - since then
                  let (h, ok) := beginListenerInit (itf 3%nat) token tok creatorToken (ll_wall env) h in
                  if ok then (h, w, LClaimed) else (h, None, listener_tail env stale true None)
                else (h, w, listener_tail env stale true w)
            | None => (h, fresh, listener_tail env stale true fresh)
            end
        end
      else if st =? superblockStateReady then
        match checkListenerCompat h false with
        | Some e => (h, w, LFailed e)
        | None =>
            let h := itf 5%nat h in
            match ll_alive env (h_server h) with
            | Err e => (h, w, LFailed e)
            | Ok true => (h, w, LFailed ErrListenerBusy)
            | Ok false =>
                match claim_header itf env token creatorToken superblockStateReady h with
                | Some (h, r) => (h, w, r)
                | None => (itf 1%nat h, w, LAgain)
                end
            end
        end
      else (h, w, LFailed ErrIncompatibleLayout)
  end.

(** *** Publishing *)

(** The stores of [Acceptor.initialize] after the ring was formatted. *)
Definition publish_header (cfg : AcceptorConfig) (prefix : bytes) (size token pid wall interval : Z) (h : listenerHeader) : listenerHeader :=
  mkHeader listenerMagic (h_state h) listenerMajor listenerMinor listenerRingOffset listenerRecordSize (u64 (QueueSize cfg)) size (h_epoch h) (h_initToken h)
    (h_initHeartbeat h) 0 (h_creatorToken h) (mkEp token pid wall (u64 interval))
    (u64 (MaxBufferCount cfg)) (u64 (MaxBufferSize cfg)) (MaxLinkSize cfg) (ac_Features cfg)
    (Z.of_nat (length prefix)) (copy_to (replicate listenerMaxPrefixLen 0) prefix) (h_rest h).

(** [Acceptor.initialize], once the ring is formatted: the checks, the stores,
    the compare-and-swap that gives the initialization back, and the state. *)
Definition initialize (itf : nat -> listenerHeader -> listenerHeader) (ctx : option error) (cfg : AcceptorConfig) (prefix : bytes)
    (size token pid wall interval : Z) (h : listenerHeader) : listenerHeader * option error :=
  let h := itf 0%nat (set_hinit (h_initToken h) (h_creatorToken h) wall h) in
  match ctx with
  | Some e => (h, Some e)
  | None =>
      if negb (h_initToken h =? token) then (h, Some errInitContended)
      else
        let h := itf 1%nat (publish_header cfg prefix size token pid wall interval h) in
        if negb (h_initToken h =? token) then (h, Some errInitContended)
        else
          let h := itf 2%nat (set_hinit 0 (h_creatorToken h) (h_initHeartbeat h) h) in
          (set_hstate superblockStateReady (set_hepoch (u64 (h_epoch h + 1)) h), None)
  end.

(** ** The client *)

(** [listenerClient]: what a client reads from the header. *)
Record listenerClient := mkClient { lc_prefix : bytes; lc_maxBufferCount : Z; lc_maxBufferSize : Z; lc_maxLinkSize : Z }.

(** [listenerWatch] *)
Record listenerWatch := mkWatch { w_creator : Z; w_epoch : Z; w_token : Z; w_hb : Z; w_since : Z; w_peerTimeout : Z }.

Definition newListenerWatch (h : listenerHeader) (now peerTimeout : Z) : listenerWatch :=
  mkWatch (h_creatorToken h) (h_epoch h) (ep_token (h_server h)) (ep_heartbeat (h_server h)) now peerTimeout.

Definition watch_check (h : listenerHeader) (now : Z) (w : listenerWatch) : listenerWatch * option error :=
  if negb (h_state h =? superblockStateReady) || negb (h_creatorToken h =? w_creator w) || negb (h_epoch h =? w_epoch w) then (w, Some ErrListenerGone)
  else
    let tok := ep_token (h_server h) in
    if (tok =? detachedToken) || (tok =? 0) then (w, Some ErrListenerClosed)
    else if negb (tok =? w_token w) then (w, Some ErrListenerGone)
    else
      let interval := i64 (ep_interval (h_server h)) in
      if (interval <=? 0) || (hour <? interval) then (w, None)
      else
        let hb := ep_heartbeat (h_server h) in
        if negb (hb =? w_hb w) then (mkWatch (w_creator w) (w_epoch w) (w_token w) hb now (w_peerTimeout w), None)
        else if Z.max (4 * interval) (w_peerTimeout w) <? now - w_since w then (w, Some ErrListenerGone)
        else (w, None).

Section Client.
Context (pagesize : Z).

(** [inspectListener] on an object of [cur] bytes. *)
Definition inspectListener (h : listenerHeader) (cur : Z) : result error Z :=
  let st := h_state h in
  if st =? superblockStateEmpty then Err (if negb (listenerHeaderZero h) then ErrIncompatibleLayout else errListenerNotReady)
  else if st =? superblockStateInitializing then Err (default errListenerNotReady (checkListenerCompat h true))
  else if negb (st =? superblockStateReady) then Err ErrIncompatibleLayout
  else
    match checkListenerCompat h false with
    | Some e => Err e
    | None =>
        if (maxAcceptorQueueSize <? h_capacity h) || negb (h_ringOffset h =? listenerRingOffset) || negb (h_recordSize h =? listenerRecordSize)
        then Err ErrIncompatibleLayout
        else
          let size := listenerLayoutSize pagesize (i64 (h_capacity h)) in
          if (size =? 0) || negb (h_layoutSize h =? size) then Err ErrIncompatibleLayout
          else if cur <? size then Err ErrIncompatibleLayout else Ok size
    end.

(** The rest of [openListener], the ring being attached: is the acceptor alive,
    and what does it publish? *)
Definition openListener (h : listenerHeader) (cur : Z) (alive : result error bool) : result error listenerClient :=
  let! _ := inspectListener h cur in
  let! alive := alive in
  if negb alive then Err errListenerDead
  else
    let plen := h_prefixLen h in
    if (plen =? 0) || (Z.of_nat listenerMaxPrefixLen <? plen) then Err ErrIncompatibleLayout
    else Ok (mkClient (take (Z.to_nat plen) (h_prefix h)) (h_maxBufferCount h) (h_maxBufferSize h) (h_maxLinkSize h)).

(** [listenerClient.admits]; a refusal wraps ErrInvalidSize. *)
Definition admits (lc : listenerClient) (cfg : Config) : option error :=
  if negb (validConfig (BufferCount cfg) (BufferSize cfg)) then Some ErrInvalidSize
  else
    let total := SizeStandardLink pagesize (BufferCount cfg) (BufferSize cfg) in
    if (lc_maxBufferCount lc <? u64 (BufferCount cfg)) || (lc_maxBufferSize lc <? u64 (BufferSize cfg)) || (lc_maxLinkSize lc <? total)
    then Some ErrInvalidSize else None.

(** [connectOnce] up to the record it enqueues: the client opens the listener,
    its link segment [instance] gets a random name, and the record announces it. *)
Definition connect_request (h : listenerHeader) (cur : Z) (alive : result error bool) (cfg : Config) (random instance pid : Z)
  : result error (bytes * connectRecord) :=
  let! lc := openListener h cur alive in
  match admits lc cfg with
  | Some e => Err e
  | None =>
      let name := newLinkName (lc_prefix lc) random in
      match setName name (connect_record cfg instance pid) with
      | None => Err ErrInvalidName
      | Some rec => Ok (name, rec)
      end
  end.

End Client.

(** Which failed attempts are repeated; [notExist] tells os.ErrNotExist. *)
Definition connectRetryable (notExist : bool) (e : error) : bool :=
  notExist || errors_is e errSegmentNotReady || errors_is e errListenerNotReady || errors_is e errListenerDead.

Definition dialRetryable (notExist : bool) (e : error) : bool :=
  notExist || errors_is e errSegmentNotReady || errors_is e errInitContended || errors_is e errNoLiveEndpoint.

(** ** Names and records *)

Lemma prefix_length name : (length (listenerLinkPrefix name) <= 20)%nat.
Proof.
  unfold listenerLinkPrefix, split_scope. cbv zeta.
  assert (Hs : forall r : bytes, (length (stem_byte <$> take listenerStemLen match r with 47%Z :: r => r | r => r end) <= 12)%nat).
  { intros r. rewrite length_fmap, length_take. unfold listenerStemLen. lia. }
  assert (Hl : forall n (l : bytes), (length (take n l) <= n)%nat) by (intros; rewrite length_take; lia).
  destruct (has_scope _ name); [|destruct (has_scope _ name)]; rewrite !length_app; cbn [length].
  - pose proof (Hl 7%nat name). specialize (Hs (drop 7 name)). change (length (text "Global\")) with 7%nat. lia.
  - pose proof (Hl 6%nat name). specialize (Hs (drop 6 name)). change (length (text "Local\")) with 6%nat. lia.
  - specialize (Hs name). lia.
Qed.

Lemma prefix_nonempty name : (1 <= length (listenerLinkPrefix name))%nat.
Proof. unfold listenerLinkPrefix. destruct (split_scope name). rewrite !length_app. simpl. lia. Qed.

Lemma hexdigit_hex d : 0 <= d < 16 -> is_hex (hexdigit d) = true.
Proof. unfold hexdigit, is_hex, is_digit. intros. destruct (Z.ltb_spec d 10) as [E|E]; apply orb_true_iff; [left|right]; apply andb_true_iff; split; apply Z.leb_le; lia. Qed.

Lemma append_hex_spec fuel : forall v acc, 0 <= v -> (length (append_hex fuel v acc) <= fuel + length acc)%nat /\
  (forallb is_hex acc = true -> forallb is_hex (append_hex fuel v acc) = true).
Proof.
  induction fuel as [|fuel IH]; intros v acc Hv; simpl; [done|].
  destruct (Z.ltb_spec v 16) as [Hl|Hl].
  - simpl. split; [lia|]. intros ->. by rewrite hexdigit_hex.
  - destruct (IH (v / 16) (hexdigit (v mod 16) :: acc)) as (H1 & H3); [zlia|]. simpl in H1. split; [lia|].
    intros Ha. apply H3. simpl. rewrite hexdigit_hex by zlia. done.
Qed.

Lemma forallb_blit (p : Z -> bool) off src dst : forallb p src = true -> forallb p dst = true -> forallb p (blit off src dst) = true.
Proof.
  rewrite !forallb_forall. intros Hs Hd. assert (H : Forall (fun x => p x = true) (blit off src dst)).
  { apply Forall_blit; apply List.Forall_forall; auto. }
  by apply List.Forall_forall.
Qed.

(** Every generated name is the prefix and sixteen hexadecimal digits. *)
Lemma newLinkName_valid prefix token : 0 <= token -> validLinkName prefix (newLinkName prefix token) = true.
Proof.
  intros Ht. destruct (append_hex_spec 16 token [] Ht) as [Hl Hx]. specialize (Hx eq_refl).
  unfold newLinkName, listenerSuffixLen. cbv zeta. generalize dependent (append_hex 16 token []). intros ds Hl Hx. simpl in Hl. set (z := replicate 16 48).
  assert (Hz : forallb is_hex z = true) by reflexivity.
  assert (Hb : forallb is_hex (blit 0 ds z) = true) by (by apply forallb_blit).
  assert (Lb : length (blit 0 ds z) = 16%nat) by (apply length_blit; simpl; lia).
  assert (Ht' : forallb is_hex (take (length ds) (blit 0 ds z)) = true).
  { rewrite <- (take_drop (length ds) (blit 0 ds z)), forallb_app in Hb. by apply andb_true_iff in Hb as [-> _]. }
  unfold validLinkName, listenerSuffixLen. rewrite take_app_length, drop_app_length, length_app, bool_decide_eq_true_2 by done.
  rewrite forallb_blit by done. rewrite length_blit by (rewrite length_take, Lb; lia). rewrite Lb, Nat.eqb_refl. done.
Qed.

Lemma valid_name_length prefix name : validLinkName prefix name = true -> length name = (length prefix + 16)%nat.
Proof. unfold validLinkName. intros [[H _]%andb_true_iff _]%andb_true_iff. by apply Nat.eqb_eq in H. Qed.

(** A name survives the record. *)
Lemma record_name_roundtrip name r r' : setName name r = Some r' -> recordName r' = Some name /\
  clientToken r' = clientToken r /\ r_bufferCount r' = r_bufferCount r /\ r_bufferSize r' = r_bufferSize r /\ r_flags r' = r_flags r.
Proof.
  unfold setName. destruct (_ || _) eqn:E; [done|]. apply orb_false_iff in E as [E1 E2]. apply Nat.eqb_neq in E1. apply Nat.ltb_ge in E2.
  intros [= <-]. split; [|done]. unfold recordName. simpl nameLen. simpl r_name.
  destruct (Z.eqb_spec (Z.of_nat (length name)) 0); [lia|]. destruct (Z.ltb_spec (Z.of_nat listenerMaxNameLen) (Z.of_nat (length name))); [lia|]. simpl.
  rewrite Nat2Z.id. f_equal. apply copy_to_fits. change (length name <= listenerMaxNameLen)%nat. lia.
Qed.

(** ** Joining *)

(** What [validate] asks of a record, whatever its bytes are. *)
Record acceptable (pagesize : Z) (prefix : bytes) (cfg : AcceptorConfig) (rec : connectRecord) (name : bytes) : Prop := mkAcceptable {
  acc_flags : r_flags rec = 0;
  acc_name : recordName rec = Some name;
  acc_form : exists suffix, name = prefix ++ suffix /\ length suffix = 16%nat /\ Forall (fun c => is_hex c = true) suffix;
  acc_token : isOwnerToken (clientToken rec) = true;
  acc_count : r_bufferCount rec <= MaxBufferCount cfg;
  acc_size : r_bufferSize rec <= MaxBufferSize cfg;
  acc_geometry : validConfig (r_bufferCount rec) (r_bufferSize rec) = true;
  acc_total : SizeStandardLink pagesize (r_bufferCount rec) (r_bufferSize rec) <= MaxLinkSize cfg
}.

(** A configuration as [normalized] leaves it. *)
Record config_ok (pagesize : Z) (cfg : AcceptorConfig) : Prop := mkConfigOk {
  cok_count : MinBufferCount <= MaxBufferCount cfg <= maxBufferCount;
  cok_size : MinBufferSize <= MaxBufferSize cfg <= maxBufferSize;
  cok_queue : listenerLayoutSize pagesize (QueueSize cfg) <> 0
}.

Lemma normalized_ok pagesize c cfg : AcceptorConfig_normalized pagesize c = Ok cfg -> config_ok pagesize cfg.
Proof.
  unfold AcceptorConfig_normalized. cbv zeta. destruct (_ =? 0) eqn:Eq; [done|]. destruct (_ || _) eqn:E; [done|]. intros [= <-].
  apply orb_false_iff in E as [E E4]. apply orb_false_iff in E as [E E3]. apply orb_false_iff in E as [E1 E2]. apply Z.eqb_neq in Eq.
  constructor; simpl in *; breflect; try lia; done.
Qed.

Lemma validLinkName_iff prefix name : validLinkName prefix name = true <->
  exists suffix, name = prefix ++ suffix /\ length suffix = 16%nat /\ Forall (fun c => is_hex c = true) suffix.
Proof.
  unfold validLinkName, listenerSuffixLen. rewrite !andb_true_iff, Nat.eqb_eq, bool_decide_eq_true, forallb_forall. split.
  - intros [[Hl Hp] Hx]. exists (drop (length prefix) name). split_and!.
    + rewrite <- Hp at 1. by rewrite take_drop.
    + rewrite length_drop. lia.
    + by apply List.Forall_forall.
  - intros (suffix & -> & Hl & Hx). rewrite length_app, take_app_length, drop_app_length. split_and!; [lia|done|]. by apply List.Forall_forall.
Qed.

(** [validate] accepts exactly the acceptable records. *)
Lemma validate_ok pagesize prefix cfg rec
  (Hpage : superblockSize <= pagesize <= 2 ^ 31) (Hcfg : config_ok pagesize cfg) (Hc : word 64 (r_bufferCount rec)) (Hs : word 64 (r_bufferSize rec)) :
  forall name, validate pagesize prefix cfg rec = Ok name <-> acceptable pagesize prefix cfg rec name.
Proof.
  destruct Hcfg as [[K1 K2] [K3 K4] _]. unfold MinBufferCount, maxBufferCount, MinBufferSize, maxBufferSize in *.
  intros name. split.
  - unfold validate. destruct (_ =? 0) eqn:Ef; simpl; [|done]. destruct (recordName rec) as [n|] eqn:En; [|done].
    destruct (validLinkName prefix n) eqn:Ev; simpl; [|done]. destruct (isOwnerToken _) eqn:Et; simpl; [|done].
    destruct (_ || _) eqn:El; [done|]. apply orb_false_iff in El as [E1 E2]. rewrite u64_small in E1, E2 by (unfold word; lia). breflect.
    rewrite !i64_small by (unfold word in *; lia).
    destruct (computeLayout_correct pagesize (r_bufferCount rec) (r_bufferSize rec) Hpage) as [(V & l & -> & El & _)|(V & -> & _)]; [|done].
    destruct (Z.ltb_spec (MaxLinkSize cfg) (ly_total l)); [done|]. intros [= ->]. constructor; auto; [by apply validLinkName_iff|lia].
  - intros [A1 A2 A3 A4 A5 A6 A7 A8]. apply validLinkName_iff in A3. unfold validate. rewrite A1, A2, A3, A4. simpl.
    rewrite !u64_small by (unfold word; lia). rewrite (proj2 (Z.ltb_ge _ _)), (proj2 (Z.ltb_ge _ _)) by done. simpl.
    rewrite !i64_small by (unfold word in *; lia).
    destruct (computeLayout_correct pagesize (r_bufferCount rec) (r_bufferSize rec) Hpage) as [(V & l & -> & El & _)|(V & _)]; [|congruence].
    by rewrite (proj2 (Z.ltb_ge _ _)) by lia.
Qed.

(** The geometry a client asks for, against the limits of an acceptor. *)
Definition within (pagesize : Z) (acfg : AcceptorConfig) (cfg : Config) : Prop :=
  validConfig (BufferCount cfg) (BufferSize cfg) = true /\ BufferCount cfg <= MaxBufferCount acfg /\ BufferSize cfg <= MaxBufferSize acfg /\
  SizeStandardLink pagesize (BufferCount cfg) (BufferSize cfg) <= MaxLinkSize acfg.

Lemma admits_iff pagesize acfg prefix cfg : config_ok pagesize acfg ->
  match admits pagesize (mkClient prefix (u64 (MaxBufferCount acfg)) (u64 (MaxBufferSize acfg)) (MaxLinkSize acfg)) cfg with
  | None => within pagesize acfg cfg
  | Some e => e = ErrInvalidSize /\ ~ within pagesize acfg cfg
  end.
Proof.
  intros [[K1 K2] [K3 K4] _]. unfold admits, within. simpl. destruct (validConfig (BufferCount cfg) (BufferSize cfg)) eqn:V; simpl; [|by split; [|intros [? _]]].
  destruct (validConfig_spec _ _ V) as (_ & B1 & B2 & _). unfold MinBufferCount, maxBufferCount, MinBufferSize, maxBufferSize in *.
  rewrite !u64_small by (unfold word; lia). destruct (_ || _) eqn:E.
  - split; [done|]. intros (_ & L1 & L2 & L3). apply orb_true_iff in E as [[E|E]%orb_true_iff|E]; breflect; lia.
  - apply orb_false_iff in E as [[E1 E2]%orb_false_iff E3]. breflect. done.
Qed.

(** What an acceptor published, as a client finds it. *)
Lemma published_opens pagesize acfg name token pid wall interval h0 h1 cur : superblockSize <= pagesize <= 2 ^ 31 -> config_ok pagesize acfg ->
  initialize (fun _ h => h) None acfg (listenerLinkPrefix name) (listenerLayoutSize pagesize (QueueSize acfg)) token pid wall interval h0 = (h1, None) ->
  listenerLayoutSize pagesize (QueueSize acfg) <= cur ->
  openListener pagesize h1 cur (Ok true) = Ok (mkClient (listenerLinkPrefix name) (u64 (MaxBufferCount acfg)) (u64 (MaxBufferSize acfg)) (MaxLinkSize acfg)) /\
  h_server h1 = mkEp token pid wall (u64 interval).
Proof.
  intros Hpage Hcfg E Hcur. destruct (proj1 (proj1 (listenerLayoutSize_correct pagesize (QueueSize acfg) Hpage)) (cok_queue _ _ Hcfg)) as [_ Hq].
  unfold maxAcceptorQueueSize in Hq. unfold initialize in E. cbv zeta in E. simpl in E.
  destruct (h_initToken h0 =? token) eqn:Et; simpl in E; [|done]. injection E as <-. split; [|done].
  pose proof (prefix_length name). pose proof (prefix_nonempty name).
  unfold openListener, inspectListener. cbv [h_state h_magic h_major h_requiredFeatures h_capacity h_ringOffset h_recordSize h_layoutSize h_prefixLen h_prefix set_hstate set_hepoch
    set_hinit publish_header h_maxBufferCount h_maxBufferSize h_maxLinkSize checkListenerCompat].
  change (superblockStateReady =? superblockStateEmpty) with false. change (superblockStateReady =? superblockStateInitializing) with false. rewrite !Z.eqb_refl. cbn [negb orb].
  change (and_not 0 listenerKnownRequiredFeatures =? 0) with true. cbn [negb].
  rewrite u64_small by (unfold word; lia). rewrite i64_small by lia. rewrite (proj2 (Z.ltb_ge maxAcceptorQueueSize _)) by (unfold maxAcceptorQueueSize; lia). cbn [negb orb].
  rewrite (proj2 (Z.eqb_neq (listenerLayoutSize _ _) 0)) by (by apply (cok_queue _ _ Hcfg)). rewrite Z.eqb_refl. cbn [negb orb].
  rewrite (proj2 (Z.ltb_ge cur _)) by done. cbn [rbind negb].
  rewrite (proj2 (Z.eqb_neq (Z.of_nat _) 0)) by lia. rewrite (proj2 (Z.ltb_ge (Z.of_nat listenerMaxPrefixLen) _)) by (unfold listenerMaxPrefixLen; lia). cbn [orb].
  rewrite Nat2Z.id, copy_to_fits; [done|]. change (length (replicate listenerMaxPrefixLen 0)) with 32%nat. lia.
Qed.

Lemma published_alive opts token pid wall wall' interval : isOwnerToken token = true -> 0 <= wall <= wall' -> wall' < 2 ^ 62 -> 0 <= interval < 2 ^ 62 -> wall' - wall < PeerTimeout opts ->
  listenerServerAlive opts wall' (mkEp token pid wall (u64 interval)) [] = Ok true.
Proof.
  intros Ht Hw Hw' Hi Hp. unfold listenerServerAlive. simpl. rewrite Ht. simpl. rewrite u64_small by (unfold word; lia). rewrite i64_small by lia.
  destruct (_ || _); [done|]. destruct (wall =? 0); [done|]. simpl. unfold heartbeatFresh, wallAge. rewrite i64_small by lia.
  assert (E : (- heartbeatFutureSlack <? wall' - wall) && (wall' - wall <? effectivePeerTimeout opts interval) = true).
  { apply andb_true_iff. split; apply Z.ltb_lt; [unfold heartbeatFutureSlack, second; lia|]. unfold effectivePeerTimeout. destruct (Z.ltb_spec (PeerTimeout opts) (4 * interval)); lia. }
  by rewrite E.
Qed.

(** C11. Any record of an untrusted client: it is accepted exactly if it announces a
    segment of this listener, by an owner, with a geometry that is valid and
    within the limits; everything else is dropped. For a record that is accepted
    the acceptor maps a segment of at most MaxLinkSize bytes, with a sound
    layout. *)
Theorem validate_exact pagesize prefix cfg rec
  (Hpage : superblockSize <= pagesize <= 2 ^ 31) (Hcfg : config_ok pagesize cfg) (Hc : word 64 (r_bufferCount rec)) (Hs : word 64 (r_bufferSize rec)) :
  match validate pagesize prefix cfg rec with
  | Ok name => acceptable pagesize prefix cfg rec name /\
      exists l, computeLayout pagesize (r_bufferCount rec) (r_bufferSize rec) = Some l /\ layout_sound pagesize (r_bufferCount rec) (r_bufferSize rec) l /\
        ly_total l <= MaxLinkSize cfg
  | Err e => e = errBadRecord /\ forall name, ~ acceptable pagesize prefix cfg rec name
  end.
Proof.
  pose proof (validate_ok pagesize prefix cfg rec Hpage Hcfg Hc Hs) as Hv. destruct (validate _ _ _ _) as [name|e] eqn:E.
  - assert (A : acceptable pagesize prefix cfg rec name) by (by apply Hv). split; [done|]. destruct A as [_ _ _ _ _ _ V T].
    destruct (computeLayout_correct pagesize (r_bufferCount rec) (r_bufferSize rec) Hpage) as [(_ & l & El & Et & Ls)|(V' & _)]; [|congruence].
    exists l. split_and!; [done|done|lia].
  - split; [unfold validate in E; repeat case_match; congruence|]. intros name A%Hv. done.
Qed.

(** An acceptor with defaults, and the record of a client of "/echo service". *)
Definition small_config : AcceptorConfig := mkAcceptorConfig 0 8 0 (mkOpts 0 0 0 roleAny 0 0) 0 0 0 0 0 0 0.

Definition small_acceptor : AcceptorConfig := Eval vm_compute in
  match AcceptorConfig_normalized 4096 small_config with Ok c => c | Err _ => small_config end.

Definition echo_record (token : Z) : connectRecord :=
  default empty_record (setName (newLinkName (listenerLinkPrefix (text "/echo service")) 0xabc) (connect_record (mkConfig 256 4096 0 15 (mkOpts 0 0 0 roleAny 0 0)) token 17)).

Lemma validate_exact_witness :
  validate 4096 (text "echo_service.") small_acceptor (echo_record 77) = Ok (text "echo_service.abc0000000000abc") /\
  acceptable 4096 (text "echo_service.") small_acceptor (echo_record 77) (text "echo_service.abc0000000000abc").
Proof.
  assert (Hp : superblockSize <= 4096 <= 2 ^ 31) by (split; vm_compute; discriminate).
  assert (Hc : config_ok 4096 small_acceptor) by (constructor; [split; vm_compute; discriminate|split; vm_compute; discriminate|vm_compute; discriminate]).
  pose proof (validate_exact 4096 (text "echo_service.") small_acceptor (echo_record 77) Hp Hc ltac:(split; vm_compute; [discriminate|reflexivity]) ltac:(split; vm_compute; [discriminate|reflexivity])) as H.
  assert (E : validate 4096 (text "echo_service.") small_acceptor (echo_record 77) = Ok (text "echo_service.abc0000000000abc")) by (vm_compute; reflexivity).
  rewrite E in H. split; [exact E|exact (proj1 H)].
Defined.

(** C12. Connecting. An acceptor with any configuration publishes its listener, and a
    client opens it while the heartbeat is fresh. Whatever geometry the client
    asks for: it either fails at once with ErrInvalidSize, which it does exactly
    for a geometry that is invalid or beyond the limits; or it announces its
    segment under a name of the listener's prefix, of at most 36 bytes, in a
    record that the acceptor accepts and reads that very name from. *)
Theorem connect_accepted pagesize name acfg0 acfg token pid wall wall' interval h0 h1 cur opts cfg random instance cpid
  (Hpage : superblockSize <= pagesize <= 2 ^ 31) (Hacfg : AcceptorConfig_normalized pagesize acfg0 = Ok acfg)
  (Hinit : initialize (fun _ h => h) None acfg (listenerLinkPrefix name) (listenerLayoutSize pagesize (QueueSize acfg)) token pid wall interval h0 = (h1, None))
  (Hcur : listenerLayoutSize pagesize (QueueSize acfg) <= cur) (Htok : isOwnerToken token = true) (Hinst : isOwnerToken instance = true)
  (Hwall : 0 <= wall <= wall' /\ wall' < 2 ^ 62 /\ wall' - wall < PeerTimeout opts) (Hint : 0 <= interval < 2 ^ 62) (Hrand : 0 <= random) :
  match connect_request pagesize h1 cur (listenerServerAlive opts wall' (h_server h1) []) cfg random instance cpid with
  | Err e => e = ErrInvalidSize /\ ~ within pagesize acfg cfg
  | Ok (linkName, rec) => within pagesize acfg cfg /\ linkName = newLinkName (listenerLinkPrefix name) random /\ (length linkName <= 36)%nat /\
      validate pagesize (listenerLinkPrefix name) acfg rec = Ok linkName
  end.
Proof.
  apply normalized_ok in Hacfg. destruct (published_opens _ _ _ _ _ _ _ _ _ _ Hpage Hacfg Hinit Hcur) as [Ho Es].
  destruct Hwall as (W1 & W2 & W3). rewrite Es, published_alive by done. unfold connect_request. rewrite Ho. cbn [rbind].
  pose proof (admits_iff pagesize acfg (listenerLinkPrefix name) cfg Hacfg) as Ha. destruct (admits _ _ _) as [e|]; [done|]. cbn [lc_prefix].
  pose proof (newLinkName_valid (listenerLinkPrefix name) random Hrand) as Hv. pose proof (valid_name_length _ _ Hv) as Hl.
  pose proof (prefix_length name) as Hp. destruct (setName _ _) as [rec|] eqn:Esn.
  - destruct (record_name_roundtrip _ _ _ Esn) as (R1 & R2 & R3 & R4 & R5). pose proof Ha as (V & L1 & L2 & L3).
    destruct (validConfig_spec _ _ V) as (_ & B1 & B2 & _). unfold maxBufferCount, maxBufferSize, MinBufferCount, MinBufferSize in *. simpl in R3, R4.
    assert (Hc : r_bufferCount rec = BufferCount cfg) by (rewrite R3, u64_small; [done|unfold word; lia]).
    assert (Hz : r_bufferSize rec = BufferSize cfg) by (rewrite R4, u64_small; [done|unfold word; lia]).
    split_and!; [done|done|lia|]. apply validate_ok; [done|done|unfold word; lia..|].
    constructor; rewrite ?Hc, ?Hz, ?R2; try done. by apply validLinkName_iff.
  - exfalso. unfold setName in Esn. destruct (_ || _) eqn:E; [|done]. unfold listenerMaxNameLen in E.
    apply orb_true_iff in E as [E|E]; [apply Nat.eqb_eq in E|apply Nat.ltb_lt in E]; lia.
Qed.

Definition fresh_header : listenerHeader :=
  mkHeader 0 0 0 0 0 0 0 0 0 0 0 0 0 zero_ep 0 0 0 0 0 (replicate listenerMaxPrefixLen 0) (replicate 16 0).

Lemma connect_accepted_witness :
  exists rec, connect_request 4096 (initialize (fun _ h => h) None small_acceptor (listenerLinkPrefix (text "/echo service")) (listenerLayoutSize 4096 8) 9 1 1000 250
      (set_hinit 9 5 1000 (set_hstate 1 fresh_header))).1 8192 (listenerServerAlive (mkOpts 0 5000 0 roleAny 0 0) 1200 (mkEp 9 1 1000 250) [])
      (mkConfig 256 4096 0 15 (mkOpts 0 0 0 roleAny 0 0)) 0xabc 77 17 = Ok (text "echo_service.abc0000000000abc", rec) /\
    validate 4096 (listenerLinkPrefix (text "/echo service")) small_acceptor rec = Ok (text "echo_service.abc0000000000abc").
Proof.
  eexists. split; [vm_compute; reflexivity|].
  set (h0 := set_hinit 9 5 1000 (set_hstate 1 fresh_header)).
  set (h1 := (initialize (fun _ h => h) None small_acceptor (listenerLinkPrefix (text "/echo service")) (listenerLayoutSize 4096 8) 9 1 1000 250 h0).1).
  assert (Hp : superblockSize <= 4096 <= 2 ^ 31) by (split; vm_compute; discriminate).
  pose proof (connect_accepted 4096 (text "/echo service") small_config small_acceptor 9 1 1000 1200 250 h0 h1 8192 (mkOpts 0 5000 0 roleAny 0 0)
    (mkConfig 256 4096 0 15 (mkOpts 0 0 0 roleAny 0 0)) 0xabc 77 17 Hp ltac:(vm_compute; reflexivity) ltac:(vm_compute; reflexivity) ltac:(vm_compute; discriminate)
    eq_refl eq_refl ltac:(vm_compute; repeat split; discriminate || reflexivity) ltac:(vm_compute; split; [discriminate|reflexivity]) ltac:(vm_compute; discriminate)) as H.
  assert (E : connect_request 4096 h1 8192 (listenerServerAlive (mkOpts 0 5000 0 roleAny 0 0) 1200 (h_server h1) []) (mkConfig 256 4096 0 15 (mkOpts 0 0 0 roleAny 0 0)) 0xabc 77 17 =
    Ok (text "echo_service.abc0000000000abc", echo_record 77)) by (vm_compute; reflexivity).
  rewrite E in H. exact (proj2 (proj2 (proj2 H))).
Defined.

(** ** Claiming a listener *)

Lemma beginListenerInit_ok itf token expected creator wall h h' : beginListenerInit itf token expected creator wall h = (h', true) ->
  h_initToken h' = token /\ h_creatorToken h' = creator.
Proof. unfold beginListenerInit. destruct (_ =? _); intros; simplify_eq. done. Qed.

Lemma claim_header_ok itf env token creator from h h' r : claim_header itf env token creator from h = Some (h', r) ->
  h_state (itf 1%nat h) = from /\ (r = LClaimed /\ h_initToken h' = token /\ h_creatorToken h' = creator \/ r = LFailed errInitContended).
Proof.
  unfold claim_header. destruct (Z.eqb_spec (h_state (itf 1%nat h)) from); [|done]. destruct (beginListenerInit _ _ _ _ _ _) as [h1 ok] eqn:E. intros. simplify_eq.
  split; [done|]. destruct ok; [left|by right]. split; [done|]. by eapply beginListenerInit_ok.
Qed.

Lemma listener_tail_waits env stale stalling w : listener_tail env stale stalling w <> LClaimed.
Proof. unfold listener_tail. by repeat case_match. Qed.

(** Claiming a listener, one look at a time, whatever other processes do between
    its accesses: the caller may initialize the segment only if it found it
    empty, with a header of zeros; or Ready, of this layout and with an acceptor
    that is not alive; or Initializing, of this layout, by somebody who made no
    progress for the whole stale window; it is then the initializer, under its
    own creator token. And when nobody else runs, a look that claims nothing
    leaves the header as it is: live listeners, other layouts and foreign data
    are never touched. *)
Theorem claimListener_sound itf env token creator opts w h :
  let seen := itf 0%nat h in
  let seen4 := itf 4%nat seen in let seen5 := itf 5%nat seen4 in let seen6 := itf 6%nat seen5 in
  let '(h', _, r) := claimListener_look itf env token creator opts w h in
  (r = LClaimed -> h_initToken h' = token /\ h_creatorToken h' = creator /\
    (h_state seen = superblockStateEmpty /\ listenerHeaderZero seen4 = true \/
     h_state seen = superblockStateReady /\ checkListenerCompat seen4 false = None /\ ll_alive env (h_server seen5) = Ok false \/
     h_state seen = superblockStateInitializing /\ checkListenerCompat seen6 true = None /\
       exists since, w = Some (h_initToken seen4, h_initHeartbeat seen5, since) /\ initStaleWindow opts <= ll_now env - since)) /\
  (r <> LClaimed -> (forall k x, itf k x = x) -> h' = h).
Proof.
  intros seen seen4 seen5 seen6. destruct (claimListener_look _ _ _ _ _ _ _) as [[h' w'] r] eqn:E. unfold claimListener_look in E. cbv zeta in E.
  fold seen in E. fold seen4 in E. fold seen5 in E. fold seen6 in E.
  assert (Hsame : (forall k x, itf k x = x) -> seen = h /\ seen4 = h /\ seen5 = h /\ seen6 = h) by (intros Hid; unfold seen6, seen5, seen4, seen; by rewrite !Hid).
  assert (Htail := listener_tail_waits).
  destruct (ll_ctx env); [by simplify_eq|].
  destruct (Z.eqb_spec (h_state seen) superblockStateEmpty) as [E0|E0].
  { destruct (listenerHeaderZero seen4) eqn:Ez; simpl in E.
    - destruct (claim_header _ _ _ _ _ _) as [[h1 r1]|] eqn:Ec.
      + pose proof (claim_header_ok _ _ _ _ _ _ _ _ Ec) as [_ [(-> & ? & ?)| ->]]; simplify_eq; [split; [auto|done]|]. split; [done|]. intros _ Hid.
        exfalso. unfold claim_header, beginListenerInit in Ec. rewrite !Hid in Ec. simpl in Ec. rewrite Z.eqb_refl in Ec. by case_match.
      + simplify_eq. split; [intros Hr; by apply Htail in Hr|]. intros _ Hid. rewrite !Hid. by apply Hsame.
    - destruct (negb _); simplify_eq; split; try done; intros _ Hid; rewrite !Hid; by apply Hsame. }
  destruct (Z.eqb_spec (h_state seen) superblockStateInitializing) as [E1|E1].
  { destruct (checkListenerCompat seen6 true) eqn:Ec; [simplify_eq; split; [done|]; intros _ Hid; by apply Hsame|].
    destruct w as [[[wtok whb] since]|]; [|simplify_eq; split; [intros Hr; by apply Htail in Hr|]; intros _ Hid; by apply Hsame].
    destruct (negb _ || negb _) eqn:En; [simplify_eq; split; [intros Hr; by apply Htail in Hr|]; intros _ Hid; by apply Hsame|].
    destruct (Z.leb_spec (initStaleWindow opts) (ll_now env - since)) as [Hst|Hst]; [|simplify_eq; split; [intros Hr; by apply Htail in Hr|]; intros _ Hid; by apply Hsame].
    destruct (beginListenerInit _ _ _ _ _ _) as [h1 [|]] eqn:Eb; simplify_eq.
    - apply beginListenerInit_ok in Eb as [? ?]. split; [|done]. intros _. split_and!; [done|done|]. right. right. split_and!; [done|done|].
      apply orb_false_iff in En as [En1 En2]. apply negb_false_iff, Z.eqb_eq in En1, En2. exists since. split; [congruence|done].
    - split; [intros Hr; by apply Htail in Hr|]. intros _ Hid. exfalso. unfold beginListenerInit in Eb. rewrite Hid in Eb. simpl in Eb.
      destruct (Hsame Hid) as (_ & E4 & _ & E6). rewrite E4, E6, Z.eqb_refl in Eb. done. }
  destruct (Z.eqb_spec (h_state seen) superblockStateReady) as [E2|E2]; [|simplify_eq; split; [done|]; intros _ Hid; by apply Hsame].
  destruct (checkListenerCompat seen4 false) eqn:Ec; [simplify_eq; split; [done|]; intros _ Hid; by apply Hsame|].
  destruct (ll_alive env (h_server seen5)) as [[|]|] eqn:Ea; [simplify_eq; split; [done|]; intros _ Hid; by apply Hsame| |simplify_eq; split; [done|]; intros _ Hid; by apply Hsame].
  destruct (claim_header _ _ _ _ _ _) as [[h1 r1]|] eqn:Ech.
  - pose proof (claim_header_ok _ _ _ _ _ _ _ _ Ech) as [_ [(-> & ? & ?)| ->]]; simplify_eq; [split; [auto 10|done]|]. split; [done|]. intros _ Hid.
    exfalso. unfold claim_header, beginListenerInit in Ech. rewrite !Hid in Ech. simpl in Ech. rewrite Z.eqb_refl in Ech. by case_match.
  - simplify_eq. split; [done|]. intros _ Hid. rewrite !Hid. by apply Hsame.
Qed.
