(* ===== verification/Acceptor.v ===== *)
(** * Acceptor: serving a listener name

    Models the running [Acceptor] of listener.go: the recovery of queue slots
    that a client claimed and did not publish, on the words of the ring (Ring);
    and the goroutines that take connect records, run handshakes and hand links
    to Accept until Close, one channel operation, critical access or call at a
    time. *)
From Stdlib Require Import String.
From S2P Require Import Prelude Errors Ring Superblock Layout Rendezvous.

(** ** Stuck slots *)

(** [stuckSeen], [stuckPos] and [stuckSince]. *)
Record stuck := mkStuck { stuckSeen : bool; stuckPos : Z; stuckSince : Z }.

Section Stuck.
Context {R : Type}.

(** [recoverStuckSlot]; [itf] is what others do to the ring before each access.
    The last result tells whether a slot was published. *)
Definition recoverStuckSlot (itf : nat -> mring R -> mring R) (timeout queueSize now : Z) (h : MPMCRing) (st : stuck) (m : mring R) : mring R * stuck * bool :=
  if timeout <=? 0 then (m, st, false)
  else
    let m := itf 0%nat m in
    let r := m_r m in
    let m := itf 1%nat m in
    let w := m_w m in
    let slot := Z.land r (queueSize - 1) in
    let m := itf 2%nat m in
    if (i64 (w - r) <=? 0) || negb (load_seq m slot =? r) then (m, mkStuck false (stuckPos st) (stuckSince st), false)
    else if negb (stuckSeen st) || negb (stuckPos st =? r) then (m, mkStuck true r now, false)
    else if now - stuckSince st <? timeout then (m, st, false)
    else
      let m := itf 3%nat m in
      let st := mkStuck false (stuckPos st) (stuckSince st) in
      if load_seq m slot =? r then ((WakeAll h (store_seq slot (u64 (r + 1)) m)).1, st, true) else (m, st, false).

End Stuck.

(** ** Goroutines *)

(** The dispatcher: before it looks at [done]; in the dequeue; with a record;
    with a valid one, before it has a handshake slot; gone. *)
Inductive disp_pc := ALoop | ADequeue | ARecord (rec : connectRecord) | ASem (rec : connectRecord) | AGone.

(** A handshake: opening the client's segment; negotiating on a link; handing it
    over; closing it after a failed negotiation, and counting that; closing it
    because the acceptor is closed; giving the slot back; ending; gone. *)
Inductive hs_pc := HOpen | HNegotiate (l : nat) | HReady (l : nat) | HFail (l : nat) | HCount | HClose (l : nat) | HFree | HDone | HGone.

(** A caller of Accept: idle, or in its second select. *)
Inductive call_pc := CIdle | CSelect.

(** Close, which runs once: not called; after [close(a.done)]; waiting for the
    goroutines; draining; before the token is given back; returned. *)
Inductive close_pc := KOpen | KCancel | KWait | KDrain | KDetach | KEnd.

(** The counters, with one more for the records that Close made end. *)
Record counters := mkCounters { records : Z; accepted : Z; malformed : Z; unreachable : Z; handshakeFailed : Z; dropped : Z }.

Record acceptor := mkAcceptor {
  queue : list connectRecord;
  done : bool; canceled : bool;
  disp : disp_pc; hs : list hs_pc; housekeeping : bool;
  sem : Z; ready : list nat;
  callers : list call_pc; closer : close_pc;
  next : nat;                                   (* links opened so far *)
  returned : list nat; closed : list nat;       (* by Accept; by Close *)
  stats : counters
}.

Definition set_disp (p : disp_pc) (a : acceptor) : acceptor :=
  mkAcceptor (queue a) (done a) (canceled a) p (hs a) (housekeeping a) (sem a) (ready a) (callers a) (closer a) (next a) (returned a) (closed a) (stats a).
Definition set_hs (l : list hs_pc) (sm : Z) (a : acceptor) : acceptor :=
  mkAcceptor (queue a) (done a) (canceled a) (disp a) l (housekeeping a) sm (ready a) (callers a) (closer a) (next a) (returned a) (closed a) (stats a).
Definition set_queue (q : list connectRecord) (a : acceptor) : acceptor :=
  mkAcceptor q (done a) (canceled a) (disp a) (hs a) (housekeeping a) (sem a) (ready a) (callers a) (closer a) (next a) (returned a) (closed a) (stats a).
Definition set_links (n : nat) (rd rt cl : list nat) (a : acceptor) : acceptor :=
  mkAcceptor (queue a) (done a) (canceled a) (disp a) (hs a) (housekeeping a) (sem a) rd (callers a) (closer a) n rt cl (stats a).
Definition set_stats (c : counters) (a : acceptor) : acceptor :=
  mkAcceptor (queue a) (done a) (canceled a) (disp a) (hs a) (housekeeping a) (sem a) (ready a) (callers a) (closer a) (next a) (returned a) (closed a) c.
Definition set_callers (l : list call_pc) (a : acceptor) : acceptor :=
  mkAcceptor (queue a) (done a) (canceled a) (disp a) (hs a) (housekeeping a) (sem a) (ready a) l (closer a) (next a) (returned a) (closed a) (stats a).
Definition set_closer (dn cn : bool) (k : close_pc) (a : acceptor) : acceptor :=
  mkAcceptor (queue a) dn cn (disp a) (hs a) (housekeeping a) (sem a) (ready a) (callers a) k (next a) (returned a) (closed a) (stats a).
Definition stop_housekeeping (a : acceptor) : acceptor :=
  mkAcceptor (queue a) (done a) (canceled a) (disp a) (hs a) false (sem a) (ready a) (callers a) (closer a) (next a) (returned a) (closed a) (stats a).

Definition add_record (c : counters) : counters := mkCounters (records c + 1) (accepted c) (malformed c) (unreachable c) (handshakeFailed c) (dropped c).
Definition add_accepted (c : counters) : counters := mkCounters (records c) (accepted c + 1) (malformed c) (unreachable c) (handshakeFailed c) (dropped c).
Definition add_malformed (c : counters) : counters := mkCounters (records c) (accepted c) (malformed c + 1) (unreachable c) (handshakeFailed c) (dropped c).
Definition add_unreachable (c : counters) : counters := mkCounters (records c) (accepted c) (malformed c) (unreachable c + 1) (handshakeFailed c) (dropped c).
Definition add_failed (c : counters) : counters := mkCounters (records c) (accepted c) (malformed c) (unreachable c) (handshakeFailed c + 1) (dropped c).
Definition add_dropped (c : counters) : counters := mkCounters (records c) (accepted c) (malformed c) (unreachable c) (handshakeFailed c) (dropped c + 1).

Section Acceptor.
Context (pagesize : Z) (prefix : bytes) (cfg : AcceptorConfig).

(** The next access; the segment cannot be opened, or the negotiation fails; the
    select chooses the closed [done]. *)
Inductive amove := Go | Refuse | Quit.

(** [Acceptor.dispatch] *)
Definition dispatch_step (mv : amove) (a : acceptor) : option acceptor :=
  match disp a, mv with
  | ALoop, Go => Some (set_disp (if done a then AGone else ADequeue) a)
  | ADequeue, Go => match queue a with rec :: q => Some (set_disp (ARecord rec) (set_stats (add_record (stats a)) (set_queue q a))) | [] => None end
  | ADequeue, Quit => if done a then Some (set_disp AGone a) else None
  | ARecord rec, Go =>
      Some (match validate pagesize prefix cfg rec with
            | Err _ => set_disp ALoop (set_stats (add_malformed (stats a)) a)
            | Ok _ => set_disp (ASem rec) a
            end)
  | ASem rec, Go => if sem a <? MaxHandshakes cfg then Some (set_disp ALoop (set_hs (hs a ++ [HOpen]) (sem a + 1) a)) else None
  | ASem rec, Quit => if done a then Some (set_disp AGone (set_stats (add_dropped (stats a)) a)) else None
  | _, _ => None
  end.

(** [Acceptor.handshake], with its deferred calls. *)
Definition handshake_step (i : nat) (mv : amove) (a : acceptor) : option acceptor :=
  p ← hs a !! i;
  let put p a := set_hs (<[i := p]> (hs a)) (sem a) a in
  match p, mv with
  | HOpen, Go => Some (put (HNegotiate (next a)) (set_links (S (next a)) (ready a) (returned a) (closed a) a))
  | HOpen, Refuse => Some (put HFree (set_stats ((if canceled a then add_dropped else add_unreachable) (stats a)) a))
  | HNegotiate l, Go => Some (put (HReady l) a)
  | HNegotiate l, Refuse => Some (put (HFail l) a)
  | HFail l, Go => Some (put HCount (set_links (next a) (ready a) (returned a) (closed a ++ [l]) a))
  | HCount, Go => Some (put HFree (set_stats ((if canceled a then add_dropped else add_failed) (stats a)) a))
  | HReady l, Go => if Z.of_nat (length (ready a)) <? Backlog cfg then Some (put HFree (set_links (next a) (ready a ++ [l]) (returned a) (closed a) a)) else None
  | HReady l, Quit => if done a then Some (put (HClose l) (set_stats (add_dropped (stats a)) a)) else None
  | HClose l, Go => Some (put HFree (set_links (next a) (ready a) (returned a) (closed a ++ [l]) a))
  | HFree, Go => Some (set_hs (<[i := HDone]> (hs a)) (sem a - 1) a)
  | HDone, Go => Some (put HGone a)
  | _, _ => None
  end.

(** [Acceptor.Accept]: a closed acceptor is reported first. *)
Definition accept_step (i : nat) (mv : amove) (a : acceptor) : option acceptor :=
  p ← callers a !! i;
  match p, mv with
  | CIdle, Go => Some (if done a then a else set_callers (<[i := CSelect]> (callers a)) a)
  | CSelect, Go =>
      match ready a with
      | l :: rd => Some (set_callers (<[i := CIdle]> (callers a)) (set_stats (add_accepted (stats a)) (set_links (next a) rd (returned a ++ [l]) (closed a) a)))
      | [] => None
      end
  | CSelect, Quit => if done a then Some (set_callers (<[i := CIdle]> (callers a)) a) else None
  | CSelect, Refuse => Some (set_callers (<[i := CIdle]> (callers a)) a)
  | _, _ => None
  end.

Definition hs_gone (p : hs_pc) : bool := match p with HGone => true | _ => false end.

Definition all_gone (a : acceptor) : bool := match disp a with AGone => true | _ => false end && negb (housekeeping a) && forallb hs_gone (hs a).

(** [Acceptor.Close] *)
Definition shut_step (a : acceptor) : option acceptor :=
  match closer a with
  | KOpen => Some (set_closer true (canceled a) KCancel a)
  | KCancel => Some (set_closer (done a) true KWait a)
  | KWait => if all_gone a then Some (set_closer (done a) (canceled a) KDrain a) else None
  | KDrain =>
      Some (match ready a with
            | l :: rd => set_stats (add_dropped (stats a)) (set_links (next a) rd (returned a) (closed a ++ [l]) a)
            | [] => set_closer (done a) (canceled a) KDetach a
            end)
  | KDetach => Some (set_closer (done a) (canceled a) KEnd a)
  | KEnd => None
  end.

(** A record arrives in the queue; the dispatcher, a handshake, a caller of
    Accept or Close goes on; the housekeeping goroutine ends. *)
Inductive acc_step : acceptor -> acceptor -> Prop :=
| as_record a rec : acc_step a (set_queue (queue a ++ [rec]) a)
| as_dispatch a mv a' : dispatch_step mv a = Some a' -> acc_step a a'
| as_handshake a i mv a' : handshake_step i mv a = Some a' -> acc_step a a'
| as_accept a i mv a' : accept_step i mv a = Some a' -> acc_step a a'
| as_close a a' : shut_step a = Some a' -> acc_step a a'
| as_housekeeping a : done a = true -> acc_step a (stop_housekeeping a).

End Acceptor.

Definition new_acceptor (n : nat) : acceptor :=
  mkAcceptor [] false false ALoop [] true 0 [] (replicate n CIdle) KOpen 0 [] [] (mkCounters 0 0 0 0 0 0).

(** ** Invariant *)

(** Handshakes that have a slot, whose record is not counted yet, and the link
    they hold. *)
Definition holds_slot (p : hs_pc) : bool := match p with HDone | HGone => false | _ => true end.
Definition uncounted (p : hs_pc) : bool := match p with HOpen | HNegotiate _ | HReady _ | HFail _ | HCount => true | _ => false end.
Definition link_of (p : hs_pc) : option nat := match p with HNegotiate l | HReady l | HFail l | HClose l => Some l | _ => None end.

Definition held (a : acceptor) : list nat := omap link_of (hs a).
Definition with_dispatcher (p : disp_pc) : Z := match p with ARecord _ | ASem _ => 1 | _ => 0 end.

(** Records taken that have no outcome yet. *)
Definition in_progress (a : acceptor) : Z := with_dispatcher (disp a) + countb uncounted (hs a) + Z.of_nat (length (ready a)).

Record acc_inv (cfg : AcceptorConfig) (a : acceptor) : Prop := mkAccInv {
  ai_sem : sem a = countb holds_slot (hs a) /\ sem a <= MaxHandshakes cfg;
  ai_ready : Z.of_nat (length (ready a)) <= Backlog cfg;
  ai_links : held a ++ ready a ++ returned a ++ closed a ≡ₚ seq 0 (next a);
  ai_count : records (stats a) = accepted (stats a) + malformed (stats a) + unreachable (stats a) + handshakeFailed (stats a) + dropped (stats a) + in_progress a;
  ai_accepted : accepted (stats a) = Z.of_nat (length (returned a));
  ai_drop : 0 <= dropped (stats a) /\ (0 < dropped (stats a) -> done a = true);
  ai_cancel : canceled a = true -> done a = true;
  ai_closing : closer a <> KOpen -> done a = true;
  ai_gone : closer a = KDrain \/ closer a = KDetach \/ closer a = KEnd -> all_gone a = true;
  ai_drained : closer a = KDetach \/ closer a = KEnd -> ready a = []
}.

Lemma omap_insert_same {A B} (f : A -> option B) (l : list A) (i : nat) p p' : l !! i = Some p -> f p' = f p -> omap f (<[i := p']> l) = omap f l.
Proof.
  revert i. induction l as [|x l IH]; intros [|i] Hi E; try done; simpl in *; [injection Hi as ->; by rewrite E|]. by rewrite IH.
Qed.

Lemma omap_insert_add {A B} (f : A -> option B) (l : list A) (i : nat) p p' x : l !! i = Some p -> f p = None -> f p' = Some x -> omap f (<[i := p']> l) ≡ₚ x :: omap f l.
Proof.
  revert i. induction l as [|y l IH]; intros [|i] Hi E E'; try done; simpl in *; [injection Hi as ->; by rewrite E, E'|].
  destruct (f y); rewrite (IH i) by done; [apply Permutation_swap|done].
Qed.

Lemma omap_insert_drop {A B} (f : A -> option B) (l : list A) (i : nat) p p' x : l !! i = Some p -> f p = Some x -> f p' = None -> omap f l ≡ₚ x :: omap f (<[i := p']> l).
Proof.
  revert i. induction l as [|y l IH]; intros [|i] Hi E E'; try done; simpl in *; [injection Hi as ->; by rewrite E, E'|].
  destruct (f y); rewrite (IH i) by done; [apply Permutation_swap|done].
Qed.

Section Invariant.
Context (pagesize : Z) (prefix : bytes) (cfg : AcceptorConfig).
Notation inv := (acc_inv cfg).

Lemma gone_handshakes a i p : all_gone a = true -> hs a !! i = Some p -> p = HGone.
Proof.
  unfold all_gone. intros [_ H]%andb_true_iff Hi. rewrite forallb_forall in H. specialize (H p ltac:(apply list_elem_of_In; by eapply list_elem_of_lookup_2)). by destruct p.
Qed.

Lemma dispatch_acc a mv a' : inv a -> dispatch_step pagesize prefix cfg mv a = Some a' -> inv a'.
Proof.
  intros [H1 H2 H3 H4 H4' H5 H6 H7 H8 H9] E. unfold dispatch_step in E.
  assert (Hg : closer a = KDrain \/ closer a = KDetach \/ closer a = KEnd -> disp a = AGone).
  { intros K. specialize (H8 K). unfold all_gone in H8. by destruct (disp a). }
  unfold in_progress in H4. destruct (disp a) as [| |rec|rec|] eqn:Ed, mv; try done; repeat case_match; simplify_eq.
  all: constructor; unfold in_progress, held; simpl; try done; try (simpl in *; lia); try (by intros K; apply Hg in K); try (destruct H5; split; [lia|by auto]); try (intros K; first [by apply H6 in K|by apply H7 in K]).
  - rewrite countb_app, countb_cons, countb_nil. simpl. match goal with E : (_ <? _) = true |- _ => apply Z.ltb_lt in E end. lia.
  - rewrite omap_app. simpl. by rewrite app_nil_r.
  - rewrite countb_app, countb_cons, countb_nil. simpl in *. lia.
Qed.

Lemma handshake_acc a i mv a' : inv a -> handshake_step cfg i mv a = Some a' -> inv a'.
Proof.
  intros [H1 H2 H3 H4 H4' H5 H6 H7 H8 H9] E. unfold handshake_step in E. apply bind_Some in E as (p & Hi & E).
  assert (Hg : closer a = KDrain \/ closer a = KDetach \/ closer a = KEnd -> p = HGone) by (intros K; eapply gone_handshakes; eauto).
  assert (Hg' : closer a = KDetach \/ closer a = KEnd -> p = HGone) by (intros K; apply Hg; tauto).
  assert (Hs : forall y, countb holds_slot (<[i := y]> (hs a)) = countb holds_slot (hs a) - (if holds_slot p then 1 else 0) + (if holds_slot y then 1 else 0)) by (intros y; by apply countb_insert).
  assert (Hu : forall y, countb uncounted (<[i := y]> (hs a)) = countb uncounted (hs a) - (if uncounted p then 1 else 0) + (if uncounted y then 1 else 0)) by (intros y; by apply countb_insert).
  unfold in_progress in H4. unfold held in H3.
  destruct p, mv; try done; simpl in E; repeat case_match; simplify_eq.
  all: constructor; unfold in_progress, held; simpl; rewrite ?Hs, ?Hu, ?length_app; simpl; try done; try lia;
    try (by intros K; apply Hg in K); try (by intros K; apply Hg' in K); try (destruct H5; split; [lia|by auto]); try (intros K; first [by apply H6 in K|by apply H7 in K]).
  all: try (rewrite (omap_insert_same _ _ _ _ _ Hi) by done; done).
  all: try (intros K; congruence). all: try (intros _; by apply H6).
  - rewrite (omap_insert_add link_of _ _ _ (HNegotiate (next a)) (next a) Hi eq_refl eq_refl), <- app_comm_cons, H3. change (0%nat :: seq 1 (next a)) with (seq 0 (S (next a))). rewrite seq_S.
    apply Permutation_cons_append.
  - rewrite <- H3, (omap_insert_drop link_of _ _ _ HFree l Hi) by done. solve_Permutation.
  - rewrite <- H3, (omap_insert_drop link_of _ _ _ HCount l Hi) by done. solve_Permutation.
  - rewrite <- H3, (omap_insert_drop link_of _ _ _ HFree l Hi) by done. solve_Permutation.
Qed.

Lemma accept_acc a i mv a' : inv a -> accept_step i mv a = Some a' -> inv a'.
Proof.
  intros [H1 H2 H3 H4 H4' H5 H6 H7 H8 H9] E. unfold accept_step in E. apply bind_Some in E as (p & Hi & E). unfold in_progress in H4. unfold held in H3.
  destruct p, mv; try done; repeat case_match; simplify_eq; constructor; unfold in_progress, held; simpl; try done;
    try (intros K; first [by apply H6 in K|by apply H7 in K]); try (intros K; by apply H9 in K); simpl in *; rewrite ?length_app; simpl; try lia; try (destruct H5; split; [lia|by auto]).
  rewrite <- H3. solve_Permutation.
Qed.

Lemma close_acc a a' : inv a -> shut_step a = Some a' -> inv a'.
Proof.
  intros [H1 H2 H3 H4 H4' H5 H6 H7 H8 H9] E. unfold shut_step in E. unfold in_progress in H4. unfold held in H3.
  destruct (closer a) eqn:Ek; repeat case_match; simplify_eq; constructor; unfold in_progress, held; simpl; try done; rewrite ?Ek; try done; auto; try (intros K; intuition congruence).
  all: try (match goal with R : ready ?x = _ |- _ => rewrite R; done end). all: simpl in *; try lia.
  - rewrite <- H3. solve_Permutation.
  - destruct H5. split; [lia|]. intros _. by apply H7.
Qed.

Lemma acc_step_inv a a' : inv a -> acc_step pagesize prefix cfg a a' -> inv a'.
Proof.
  intros Hi Hs. destruct Hs; eauto using dispatch_acc, handshake_acc, accept_acc, close_acc.
  - destruct Hi as [H1 H2 H3 H4 H4' H5 H6 H7 H8 H9]. by constructor.
  - destruct Hi as [H1 H2 H3 H4 H4' H5 H6 H7 H8 H9]. constructor; try done. intros K. specialize (H8 K). unfold all_gone in *. simpl. by destruct (disp a), (forallb hs_gone (hs a)), (housekeeping a).
Qed.

Lemma acc_inv_new n : 0 <= MaxHandshakes cfg -> 0 <= Backlog cfg -> inv (new_acceptor n).
Proof. intros. constructor; simpl; try done; try (intros K; intuition congruence). Qed.

Lemma acc_reachable n a : 0 <= MaxHandshakes cfg -> 0 <= Backlog cfg -> rtc (acc_step pagesize prefix cfg) (new_acceptor n) a -> inv a.
Proof.
  assert (G : forall x y, rtc (acc_step pagesize prefix cfg) x y -> inv x -> inv y) by (induction 1; eauto using acc_step_inv).
  intros H1 H2 H. eapply G; [exact H|by apply acc_inv_new].
Qed.
End Invariant.

(** ** Theorems *)

(** C10. The goroutines of an acceptor, with any number of callers of Accept and
    whatever records and clients do: at most MaxHandshakes handshakes run and
    at most Backlog links wait; every record taken from the queue is counted
    once (accepted, malformed, unreachable, failed) or in progress, and only
    closing the acceptor makes one end uncounted; every link that was opened is
    at exactly one place: with its handshake, waiting, returned by one Accept, or
    closed by the acceptor; and when Close returned every goroutine has ended, no
    link waits, and each link was returned or closed. *)
Theorem acceptor_accounts pagesize prefix cfg n a (Hm : 0 <= MaxHandshakes cfg) (Hb : 0 <= Backlog cfg)
  (Ha : rtc (acc_step pagesize prefix cfg) (new_acceptor n) a) :
  countb holds_slot (hs a) <= MaxHandshakes cfg /\ Z.of_nat (length (ready a)) <= Backlog cfg /\
  records (stats a) = accepted (stats a) + malformed (stats a) + unreachable (stats a) + handshakeFailed (stats a) + dropped (stats a) + in_progress a /\
  accepted (stats a) = Z.of_nat (length (returned a)) /\ (done a = false -> dropped (stats a) = 0) /\
  held a ++ ready a ++ returned a ++ closed a ≡ₚ seq 0 (next a) /\
  (closer a = KEnd -> all_gone a = true /\ ready a = [] /\ returned a ++ closed a ≡ₚ seq 0 (next a)).
Proof.
  apply acc_reachable in Ha as [[H1 H1'] H2 H3 H4 H4' H5 H6 H7 H8 H9]; [|done|done]. split_and!; try done.
  - congruence.
  - intros Hd. destruct H5 as [H5 H5']. destruct (Z.eq_dec (dropped (stats a)) 0); [done|]. rewrite H5' in Hd by lia. done.
  - intros K. assert (Hg : all_gone a = true) by auto. assert (Hr : ready a = []) by auto. split_and!; try done.
    assert (Hn : held a = []).
    { unfold held. assert (Hall : forall p, p ∈ hs a -> p = HGone) by (intros p (i & Hi)%list_elem_of_lookup; by eapply gone_handshakes). revert Hall. clear.
      induction (hs a) as [|p l IH]; intros H; [done|]. simpl. rewrite (H p) by apply list_elem_of_here. simpl. apply IH. intros q Hq. apply H. by apply list_elem_of_further. }
    by rewrite Hn, Hr in H3.
Qed.

(** A schedule of moves. *)
Inductive move := Arrive (rec : connectRecord) | D (mv : amove) | H (i : nat) (mv : amove) | A (i : nat) (mv : amove) | K.

Fixpoint play_acceptor (pagesize : Z) (prefix : bytes) (cfg : AcceptorConfig) (l : list move) (a : acceptor) : option acceptor :=
  match l with
  | [] => Some a
  | Arrive rec :: l => play_acceptor pagesize prefix cfg l (set_queue (queue a ++ [rec]) a)
  | D mv :: l => dispatch_step pagesize prefix cfg mv a ≫= play_acceptor pagesize prefix cfg l
  | H i mv :: l => handshake_step cfg i mv a ≫= play_acceptor pagesize prefix cfg l
  | A i mv :: l => accept_step i mv a ≫= play_acceptor pagesize prefix cfg l
  | K :: l => shut_step a ≫= play_acceptor pagesize prefix cfg l
  end.

Lemma play_acceptor_sound pagesize prefix cfg l : forall a a', play_acceptor pagesize prefix cfg l a = Some a' -> rtc (acc_step pagesize prefix cfg) a a'.
Proof.
  induction l as [|[rec|mv|i mv|i mv|] l IH]; intros a a' E; simpl in E; [injection E as ->; constructor|..]; [eapply rtc_l; [apply as_record|by apply IH]|..];
    apply bind_Some in E as (a1 & E1 & E2); (eapply rtc_l; [|by apply IH]); [by eapply as_dispatch|by eapply as_handshake|by eapply as_accept|by eapply as_close].
Qed.

(** Three records: a malformed one, one that is accepted, and one whose handshake
    completes while the acceptor is closed. *)
Definition closing_schedule : list move :=
  [Arrive empty_record; Arrive (echo_record 77); Arrive (echo_record 78)] ++ replicate 3 (D Go) ++ replicate 4 (D Go) ++ replicate 4 (D Go) ++
  [H 0 Go; H 0 Go; H 0 Go; A 0 Go; A 0 Go; H 1 Go; K; H 1 Go; H 1 Go; K].

Definition closing_state : acceptor := Eval vm_compute in
  default (new_acceptor 0) (play_acceptor 4096 (text "echo_service.") small_acceptor closing_schedule (new_acceptor 1)).

Lemma closing_played : play_acceptor 4096 (text "echo_service.") small_acceptor closing_schedule (new_acceptor 1) = Some closing_state.
Proof. vm_compute. reflexivity. Qed.

Lemma acceptor_accounts_witness :
  rtc (acc_step 4096 (text "echo_service.") small_acceptor) (new_acceptor 1) closing_state /\ stats closing_state = mkCounters 3 1 1 0 0 0 /\
  returned closing_state = [0%nat] /\ ready closing_state = [1%nat] /\ closer closing_state = KWait /\ countb holds_slot (hs closing_state) <= 16.
Proof.
  pose proof (play_acceptor_sound _ _ _ _ _ _ closing_played) as HS.
  pose proof (acceptor_accounts 4096 (text "echo_service.") small_acceptor 1 closing_state ltac:(vm_compute; discriminate) ltac:(vm_compute; discriminate) HS) as HT.
  split; [exact HS|]. split; [reflexivity|]. split; [reflexivity|]. split; [reflexivity|]. split; [reflexivity|exact (proj1 HT)].
Defined.

(** *** Recovered slots *)

(** A slot is published on behalf of its client only if a look at least [timeout]
    ago found the same position claimed and unpublished, and so do the two looks
    at it now; nothing but its sequence number changes, apart from the wait
    words; and a client that held the slot as a reservation can no longer commit
    it. *)
Lemma recover_only_stuck {R} (itf : nat -> mring R -> mring R) timeout queueSize now h st (m m' : mring R) st' :
  recoverStuckSlot itf timeout queueSize now h st m = (m', st', true) -> h_mask h = queueSize - 1 ->
  let seen := itf 0%nat m in let seen1 := itf 1%nat seen in let seen2 := itf 2%nat seen1 in let seen3 := itf 3%nat seen2 in
  let r := m_r seen in
  0 < timeout /\ stuckSeen st = true /\ stuckPos st = r /\ timeout <= now - stuckSince st /\ 0 < i64 (m_w seen1 - r) /\
  load_seq seen2 (slot_of h r) = r /\ load_seq seen3 (slot_of h r) = r /\ m' = (WakeAll h (store_seq (slot_of h r) (u64 (r + 1)) seen3)).1.
Proof.
  unfold recoverStuckSlot, slot_of. intros E ->. destruct (Z.leb_spec timeout 0); [by simplify_eq|]. cbv zeta in E.
  destruct (_ || _) eqn:E1 in E; [by simplify_eq|]. destruct (_ || _) eqn:E2 in E; [by simplify_eq|]. destruct (_ <? _) eqn:E3 in E; [by simplify_eq|].
  destruct (_ =? _) eqn:E4 in E; [|by simplify_eq]. injection E as <- <-. breflect. cbv zeta. split_and!; auto; try lia; by destruct (stuckSeen st).
Qed.

(** A claim that finds its slot behind waits for ever if nobody changes the ring. *)
Lemma claim_waits {R} (side : Side) h (m : mring R) : i64 (load_seq m (slot_of h (cursor side m)) - target side (cursor side m)) < 0 ->
  forall fuel waits pc, Forall (fun w => w = (None, m)) waits -> (exists b, pc = ClLoad b) \/ (exists b, pc = ClSeq b (cursor side m)) \/ pc = ClWait (cursor side m) ->
  claim_run fuel side h waits m pc = None.
Proof.
  intros Hb. induction fuel as [|fuel IH]; intros waits pc Hw Hpc; [done|]. destruct Hpc as [[b ->]|[[b ->]| ->]]; simpl.
  - apply IH; eauto.
  - unfold claim_switch. rewrite (proj2 (Z.eqb_neq _ 0)) by lia. rewrite (proj2 (Z.ltb_ge 0 _)) by lia. destruct b; apply IH; eauto.
  - destruct waits as [|[we m'] waits]; [done|]. apply Forall_cons_1 in Hw as [[= -> ->] Hw]. simpl. apply IH; eauto.
Qed.

(** A listener with a queue of two records, and nobody else at work. *)
Definition pair_ring : mring connectRecord := mkRing mpmc_magic 2 mpmc_init 256 layoutVersion 0 0 0 0 0 0 [mkElem 0 empty_record; mkElem 1 empty_record].
Definition pair_handle : MPMCRing := mkHandle 1 2 256 WaitAdaptive false.
Definition alone (_ : nat) (m : mring connectRecord) : mring connectRecord := m.

(** [recoverStuckSlot] twice, at two times. *)
Definition recover_twice (timeout t1 t2 : Z) (h : MPMCRing) (m : mring connectRecord) : mring connectRecord * bool :=
  let '(m, st, _) := recoverStuckSlot alone timeout (h_size h) t1 h (mkStuck false 0 0) m in
  let '(m, _, b) := recoverStuckSlot alone timeout (h_size h) t2 h st m in (m, b).

Definition enqueue_record (h : MPMCRing) (rec : connectRecord) (m : mring connectRecord) : option (mring connectRecord) :=
  '(m, _, _) ← EnqueueZeroCopyCancel empty_record h [] (fun _ _ => Some rec) m; Some m.

Definition dequeue_record (h : MPMCRing) (m : mring connectRecord) : option (mring connectRecord * result error connectRecord) :=
  '(m, _, r) ← DequeueZeroCopyCancel empty_record h [] m; Some (m, match r with Ok (_, rec) => Ok rec | Err e => Err e end).

(** A client claims a slot and is held up; the acceptor publishes the slot and
    takes the record out; the client goes on and completes its
    [EnqueueZeroCopyCancel]: it writes its record and publishes. Another client
    then connects. *)
Definition late_client : option (mring connectRecord * bool * result error connectRecord) :=
  '(m, pos) ← claimProducer pair_handle [] pair_ring;
  let (m, b) := recover_twice defaultStuckSlotTimeout 0 defaultStuckSlotTimeout pair_handle m in
  '(m, rec) ← dequeue_record pair_handle m;
  let m := (publish pair_handle 0 (store_data 0 (echo_record 77) m)).1 in
  m ← enqueue_record pair_handle (echo_record 78) m;
  '(m, _) ← dequeue_record pair_handle m;
  Some (m, b, rec).

(** C13. A slow client stops the listener. The comment on [recoverStuckSlot] says
    that when the producer was only slow its commit fails and its record is
    lost. But Connect enqueues with a plain store of the sequence number, which
    does not fail: after the slot was recovered and consumed, the store sets the
    slot back a lap. From then on, as soon as the ring comes round to the slot,
    no client can ever queue a record, the dispatcher never finds one, and
    [recoverStuckSlot], at whatever time, does nothing. *)
Theorem late_publish_stops_listener : exists m,
  late_client = Some (m, true, Ok empty_record) /\
  (forall n, claimProducer pair_handle (replicate n (None, m)) m = None /\ claimConsumer pair_handle (replicate n (None, m)) m = None) /\
  (forall now st, exists st', recoverStuckSlot alone defaultStuckSlotTimeout 2 now pair_handle st m = (m, st', false)).
Proof.
  eexists. split; [vm_compute; reflexivity|]. split.
  - intros n. assert (Hr : forall m : mring connectRecord, Forall (fun w => w = (@None error, m)) (replicate n (None, m))) by (intros; by apply Forall_replicate).
    split; apply claim_waits; eauto; vm_compute; reflexivity.
  - intros now st. eexists. reflexivity.
Qed.

(** *** The record of a recovered slot *)

(** A formatted queue of [n] records. *)
Definition new_queue (n : Z) : mring connectRecord :=
  mkRing mpmc_magic n mpmc_init 256 layoutVersion 0 0 0 0 0 0 ((fun i => mkElem (Z.of_nat i) empty_record) <$> seq 0 (Z.to_nat n)).
Definition queue_handle (n : Z) : MPMCRing := mkHandle (n - 1) n 256 WaitAdaptive false.

(** Clients that connect one after the other, each record taken before the
    next; the records taken. *)
Fixpoint serve_records (n : Z) (l : list connectRecord) (m : mring connectRecord) : option (mring connectRecord * list (result error connectRecord)) :=
  match l with
  | [] => Some (m, [])
  | rec :: l =>
      m ← enqueue_record (queue_handle n) rec m;
      '(m, r) ← dequeue_record (queue_handle n) m;
      '(m, rs) ← serve_records n l m;
      Some (m, r :: rs)
  end.

(** The record of position [q] of a queue through which [l] went. *)
Definition record_at (l : list connectRecord) (q : Z) : connectRecord :=
  if 0 <=? q then default empty_record (l !! Z.to_nat q) else empty_record.

(** An empty queue through which [l] went: the slot of each position to come
    has the record of a lap before. *)
Record served (n : Z) (l : list connectRecord) (m : mring connectRecord) : Prop := mkServed {
  se_r : m_r m = Z.of_nat (length l);
  se_w : m_w m = Z.of_nat (length l);
  se_idle : emptyWaiters m = 0 /\ fullWaiters m = 0;
  se_slot : forall p, Z.of_nat (length l) <= p < Z.of_nat (length l) + n ->
    slots m !! Z.to_nat (p mod n) = Some (mkElem p (record_at l (p - n)))
}.

Section Laps.
Variable k : Z.
Hypothesis Hk : 0 <= k <= 30.
Notation n := (2 ^ k).
Notation h := (queue_handle n).

Lemma lap_bounds : 1 <= n <= 2 ^ 30.
Proof. split; [|apply Z.pow_le_mono_r; lia]. assert (0 < n) by (apply Z.pow_pos_nonneg; lia). lia. Qed.

Lemma lap_slot p : slot_of h p = p mod n.
Proof. apply land_mask. lia. Qed.

Lemma alter_at {A} (f : A -> A) (l : list A) (i : nat) x : l !! i = Some x -> alter f i l = <[i := f x]> l.
Proof. intros H. rewrite list_insert_alter. apply list_alter_ext; [|done]. intros y Hy. by simplify_eq. Qed.

(** A claim that finds its slot ready. *)
Lemma claim_ready side (m : mring connectRecord) :
  0 <= cursor side m < 2 ^ 63 -> load_seq m (slot_of h (cursor side m)) = target side (cursor side m) ->
  claim_run (claim_fuel (@nil (option error * mring connectRecord))) side h [] m (ClLoad false) = Some (set_cursor side (u64 (cursor side m + 1)) m, Ok (cursor side m)).
Proof.
  intros Hc Hs. unfold claim_fuel. simpl. rewrite Hs. unfold claim_switch. rewrite Z.sub_diag. change (i64 0) with 0. simpl.
  by rewrite Z.eqb_refl.
Qed.

Lemma notify_idle m : emptyWaiters m = 0 -> (@notifyConsumers connectRecord h m).1 = m.
Proof. intros E. unfold notifyConsumers. by rewrite E. Qed.

Lemma notify_idle' m : fullWaiters m = 0 -> (@notifyProducers connectRecord h m).1 = m.
Proof. intros E. unfold notifyProducers. by rewrite E. Qed.

(** A record is queued in the next slot. *)
Lemma enqueue_ready m j x e :
  0 <= j < 2 ^ 62 -> m_w m = j -> emptyWaiters m = 0 -> slots m !! Z.to_nat (j mod n) = Some (mkElem j e) ->
  enqueue_record h x m = Some (with_slots (set_cursor NotFull (j + 1) m) (<[Z.to_nat (j mod n) := mkElem (j + 1) x]> (slots m))).
Proof.
  intros Hj Hw Hi Hs. unfold enqueue_record, EnqueueZeroCopyCancel, claimProducer.
  rewrite claim_ready; simpl; rewrite ?Hw; [|lia|unfold load_seq; by rewrite lap_slot, Hs]. rewrite u64_small by (unfold word; lia).
  rewrite lap_slot. unfold publish. rewrite lap_slot.
  set (m1 := store_seq _ _ _). assert (Hi1 : emptyWaiters m1 = 0) by done.
  destruct (notifyConsumers h m1) as [m2 ev] eqn:En. assert (E2 : m2 = m1) by (rewrite <- (notify_idle m1 Hi1), En; done). simpl. rewrite E2. f_equal.
  unfold m1, store_seq, store_data, with_slots. simpl. f_equal. rewrite u64_small by (unfold word; lia).
  rewrite (alter_at _ _ _ _ Hs). erewrite alter_at by (apply list_lookup_insert_eq; by eapply lookup_lt_Some). by rewrite list_insert_insert_eq.
Qed.

(** The next record is taken, and its slot is ready for the next lap. *)
Lemma dequeue_ready m j x :
  0 <= j < 2 ^ 62 -> m_r m = j -> fullWaiters m = 0 -> slots m !! Z.to_nat (j mod n) = Some (mkElem (j + 1) x) ->
  dequeue_record h m = Some (with_slots (set_cursor NotEmpty (j + 1) m) (<[Z.to_nat (j mod n) := mkElem (j + n) x]> (slots m)), Ok x).
Proof.
  intros Hj Hw Hi Hs. pose proof lap_bounds. unfold dequeue_record, DequeueZeroCopyCancel, claimConsumer.
  rewrite claim_ready; simpl; rewrite ?Hw; [|lia|unfold load_seq; rewrite lap_slot, Hs; by rewrite u64_small by (unfold word; lia)].
  rewrite u64_small by (unfold word; lia). unfold release. rewrite lap_slot. unfold load_data. simpl. rewrite Hs. simpl.
  set (m1 := store_seq _ _ _). assert (Hi1 : fullWaiters m1 = 0) by done.
  destruct (notifyProducers h m1) as [m2 ev] eqn:En. assert (E2 : m2 = m1) by (rewrite <- (notify_idle' m1 Hi1), En; done). simpl. rewrite E2. repeat f_equal.
  unfold m1, store_seq, with_slots. simpl. f_equal. rewrite (alter_at _ _ _ _ Hs). simpl. rewrite u64_small by (unfold word; lia).
  by replace (j + (n - 1) + 1) with (j + n) by lia.
Qed.

Lemma served_new : served n [] (new_queue n).
Proof.
  pose proof lap_bounds. constructor; try done. intros p Hp. simpl in *. rewrite Z.mod_small by lia. rewrite list_lookup_fmap, lookup_seq_lt by lia. simpl.
  unfold record_at. rewrite (proj2 (Z.leb_gt 0 (p - n))) by lia. repeat f_equal. lia.
Qed.

Lemma mod_apart p j : j < p < j + n -> Z.to_nat (p mod n) <> Z.to_nat (j mod n).
Proof.
  intros Hp. pose proof lap_bounds. pose proof (Z.mod_pos_bound p n). pose proof (Z.mod_pos_bound j n). intros E.
  apply Z2Nat.inj in E; [|lia..]. assert (Hz : (p - j) mod n = 0) by (rewrite Zminus_mod, E, Z.sub_diag; apply Z.mod_0_l; lia).
  rewrite Z.mod_small in Hz; lia.
Qed.

Lemma served_step l m x :
  served n l m -> Z.of_nat (length l) < 2 ^ 62 ->
  exists m1 m2, enqueue_record h x m = Some m1 /\ dequeue_record h m1 = Some (m2, Ok x) /\ served n (l ++ [x]) m2.
Proof.
  intros [Hr Hw [He Hf] Hs] Hl. pose proof lap_bounds. set (j := Z.of_nat (length l)) in *.
  assert (Hsj : slots m !! Z.to_nat (j mod n) = Some (mkElem j (record_at l (j - n)))) by (apply Hs; lia).
  pose proof (lookup_lt_Some _ _ _ Hsj) as Hlt.
  do 2 eexists. split; [eapply (enqueue_ready m j); [lia|done..]|]. split; [eapply (dequeue_ready _ j); simpl; try done; [lia|by apply list_lookup_insert_eq]|].
  constructor; simpl; rewrite ?length_app; simpl; try lia. intros p Hp. rewrite list_insert_insert_eq.
  destruct (decide (p = j + n)) as [->|Hne].
  - rewrite <- Z.add_mod_idemp_r, Z.mod_same, Z.add_0_r, list_lookup_insert_eq by (done || lia). repeat f_equal.
    unfold record_at. replace (j + n - n) with j by lia. rewrite (proj2 (Z.leb_le 0 j)) by lia. unfold j. by rewrite Nat2Z.id, list_lookup_middle.
  - rewrite list_lookup_insert_ne by (apply not_eq_sym, mod_apart; lia). rewrite Hs by lia.
    assert (Eo : record_at (l ++ [x]) (p - n) = record_at l (p - n)); [|by rewrite Eo].
    unfold record_at. destruct (Z.leb_spec 0 (p - n)); [|done]. by rewrite lookup_app_l by lia.
Qed.

Lemma serve_all l' : forall l m, served n l m -> Z.of_nat (length l + length l') <= 2 ^ 62 ->
  exists m', serve_records n l' m = Some (m', Ok <$> l') /\ served n (l ++ l') m'.
Proof.
  induction l' as [|x l' IH]; intros l m Hm Hl; simpl in *; [exists m; by rewrite app_nil_r|].
  destruct (served_step l m x Hm) as (m1 & m2 & -> & E2 & H2); [lia|]. simpl. rewrite E2. simpl.
  destruct (IH (l ++ [x]) m2 H2) as (m' & -> & H'); [rewrite length_app; simpl; lia|]. exists m'. split; [done|]. by rewrite <- app_assoc in H'.
Qed.

(** The claim of a client that dies, and the two looks of the acceptor. *)
Lemma dead_claim l m timeout t1 t2 :
  served n l m -> Z.of_nat (length l) < 2 ^ 62 -> 0 < timeout <= t2 - t1 ->
  exists m1 m2 m3, claimProducer h [] m = Some (m1, Ok (Z.of_nat (length l))) /\ recover_twice timeout t1 t2 h m1 = (m2, true) /\
    dequeue_record h m2 = Some (m3, Ok (record_at l (Z.of_nat (length l) - n))).
Proof.
  intros [Hr Hw [He Hf] Hs] Hl Ht. pose proof lap_bounds. set (j := Z.of_nat (length l)) in *.
  assert (Hsj : slots m !! Z.to_nat (j mod n) = Some (mkElem j (record_at l (j - n)))) by (apply Hs; lia).
  pose proof (lookup_lt_Some _ _ _ Hsj) as Hlt.
  eexists _, _, _. split; [unfold claimProducer; rewrite claim_ready; simpl; rewrite ?Hw; [reflexivity|lia|unfold load_seq; by rewrite lap_slot, Hsj]|].
  rewrite u64_small by (unfold word; lia).
  assert (Hseq : load_seq (set_cursor NotFull (j + 1) m) (Z.land j (n - 1)) = j).
  { unfold load_seq. simpl. by rewrite land_mask, Hsj by lia. }
  split.
  - unfold recover_twice, recoverStuckSlot, alone. simpl. rewrite Hr.
    rewrite (proj2 (Z.leb_gt timeout 0)) by lia. replace (j + 1 - j) with 1 by lia. change (i64 1 <=? 0) with false. simpl.
    rewrite Hseq, Z.eqb_refl. simpl. rewrite Hr. replace (j + 1 - j) with 1 by lia. change (i64 1 <=? 0) with false. simpl.
    rewrite Hseq, Z.eqb_refl. simpl. rewrite (proj2 (Z.ltb_ge (t2 - t1) timeout)) by lia. reflexivity.
  - unfold WakeAll, wakeAll, wakeWord. simpl. eapply (dequeue_ready _ j); simpl; try done; [lia|].
    rewrite land_mask by lia. rewrite (alter_at _ _ _ _ Hsj). simpl. rewrite list_lookup_insert_eq by done. by rewrite u64_small by (unfold word; lia).
Qed.
End Laps.

(** C14. A recovered slot is not an empty record. Comments say that the slot of a
    dead client is published as an empty record, which fails validation and is
    counted as malformed. For every queue size [2^k] and every list of clients
    served before, whose records the acceptor took one by one: when a client
    then claims a slot and dies, the acceptor publishes it after the timeout,
    and what it takes from it is an empty record only on the first lap of the
    ring. From the second lap on it is the record that was taken a lap before,
    which the acceptor so takes, validates and counts a second time. *)
Theorem recovered_slot_repeats_record k l timeout t1 t2 :
  0 <= k <= 30 -> Z.of_nat (length l) < 2 ^ 62 -> 0 < timeout <= t2 - t1 ->
  exists m m1 m2 m3 rec,
    serve_records (2 ^ k) l (new_queue (2 ^ k)) = Some (m, Ok <$> l) /\
    claimProducer (queue_handle (2 ^ k)) [] m = Some (m1, Ok (Z.of_nat (length l))) /\
    recover_twice timeout t1 t2 (queue_handle (2 ^ k)) m1 = (m2, true) /\
    dequeue_record (queue_handle (2 ^ k)) m2 = Some (m3, Ok rec) /\
    (Z.of_nat (length l) < 2 ^ k -> rec = empty_record) /\
    (2 ^ k <= Z.of_nat (length l) -> l !! (length l - Z.to_nat (2 ^ k))%nat = Some rec).
Proof.
  intros Hk Hl Ht. pose proof (lap_bounds k Hk).
  destruct (serve_all k Hk l [] (new_queue (2 ^ k)) (served_new k Hk)) as (m & E & Hm); [simpl; lia|]. simpl in Hm.
  destruct (dead_claim k Hk l m timeout t1 t2 Hm Hl Ht) as (m1 & m2 & m3 & E1 & E2 & E3).
  exists m, m1, m2, m3, (record_at l (Z.of_nat (length l) - 2 ^ k)). split_and!; try done; unfold record_at; intros Hn.
  - by rewrite (proj2 (Z.leb_gt 0 _)) by lia.
  - rewrite (proj2 (Z.leb_le 0 _)) by lia. rewrite Z2Nat.inj_sub, Nat2Z.id by lia.
    destruct (lookup_lt_is_Some_2 l (length l - Z.to_nat (2 ^ k))%nat) as [x Hx]; [lia|]. by rewrite Hx.
Qed.

(** A queue of two, two clients served and a third that dies: the first record
    comes back, and passes validation. *)
Lemma recovered_slot_repeats_record_witness :
  (exists m m1 m2 m3, serve_records 2 [echo_record 77; echo_record 78] (new_queue 2) = Some (m, [Ok (echo_record 77); Ok (echo_record 78)]) /\
     claimProducer (queue_handle 2) [] m = Some (m1, Ok 2) /\
     recover_twice defaultStuckSlotTimeout 0 defaultStuckSlotTimeout (queue_handle 2) m1 = (m2, true) /\
     dequeue_record (queue_handle 2) m2 = Some (m3, Ok (echo_record 77))) /\
  validate 4096 (listenerLinkPrefix (text "/echo service")) small_acceptor (echo_record 77) = Ok (text "echo_service.abc0000000000abc").
Proof.
  split; [|vm_compute; reflexivity].
  destruct (recovered_slot_repeats_record 1 [echo_record 77; echo_record 78] defaultStuckSlotTimeout 0 defaultStuckSlotTimeout
    ltac:(lia) ltac:(simpl; lia) ltac:(vm_compute; split; [reflexivity|discriminate])) as (m & m1 & m2 & m3 & rec & E & E1 & E2 & E3 & _ & Hr).
  assert (rec = echo_record 77) as -> by (specialize (Hr ltac:(simpl; lia)); vm_compute in Hr; injection Hr as <-; reflexivity).
  exists m, m1, m2, m3. split; [exact E|]. split; [exact E1|]. split; [exact E2|exact E3].
Defined.
