(* ===== verification/Codec.v ===== *)
(** * Codec: the wire format of the bindgen runtime

    Models codec.go, wire.go, handle.go, errors.go and options.go of
    bindgen/rt, and the frames of the handshake in dial.go. Offsets and
    lengths are Go's [int]s; reading a slice out of range would panic, so a
    function that can panic returns [None]. *)
From S2P Require Import Prelude Errors Protocol.

(** ** Errors (errors.go) *)

(** Why a frame or body breaks the protocol; the constructors stand for the
    texts of the code. *)
Inductive reason :=
| ShortFrame | BadFlags | BadKind | TotalAboveMax | LengthMismatch | NoRequest | WrongRequest | AboveBound
| ContMismatch | ContLength | StatusFlags | StatusInvalid | StatusTooLong | StatusMessage
| FinalMalformed | FinalMessage | BodyMalformed | CloseAckMalformed | ClosingKind
| OpenShort | OpenNameLength | OpenGeometry | OpenNameChars
| HelloLength | HelloHeader | HelloMagic | HelloRevision | HelloFlags | HelloInFlight | HelloMaxMessage | HelloHandles.

#[export] Instance reason_eq_dec : EqDecision reason.
Proof. solve_decision. Defined.

(** The function of an error is its opcode, 0 for none. *)
Inductive rterr :=
| hqq (e : error)
| ErrInterfaceMismatch | ErrSessionBroken | ErrConcurrentUse | ErrFutureUsed | ErrForeignHandle | ErrInvalidArg
| ErrOutcomeUnknown | ErrUnknownOp | ErrBadRequest | ErrBadHandle | ErrLimit | ErrDenied | ErrInternal
| rt_ErrShuttingDown | errValue | errPoolClosed
| TransportError (fn : Z) (err : rterr) (unknown : bool)
| ProtocolError (fn : Z) (why : reason) (unknown : bool)
| StatusError (fn status : Z) (msg : bytes)
| LibError (fn code : Z) (detail : bytes)
| MismatchError (why : Z) (local remote : bytes)
| OpenError (code : Z) (msg : bytes)
| Joined1 (e : rterr) | Joined2 (e1 e2 : rterr).    (* errors.Join of one, of two errors *)

#[export] Instance rterr_eq_dec : EqDecision rterr.
Proof. solve_decision. Defined.

(** *** Wire constants (wire.go) *)

Definition FrameHeaderSize : Z := 16.
Definition MsgMax : Z := 32.
Definition ErrBodyMax : Z := 37.
Definition DetailMax : Z := 1024.
Definition NullLen : Z := 0xFFFFFFFF.

Definition protoMajor : Z := 1.
Definition protoMinor : Z := 0.
Definition rt_minBufferSize : Z := 128.
Definition rt_maxBufferSize : Z := 2 ^ 20.
Definition rt_minBufferCount : Z := 2.
Definition rt_maxBufferCount : Z := 4096.
Definition hardMaxMessage : Z := 2 ^ 30.
Definition minMaxMessage : Z := 4096.
Definition maxHandleCount : Z := 65535.
Definition helloBody : Z := 64.
Definition openResp : Z := 12.
Definition openName : Z := 64.
Definition openCodeGeometry : Z := 2.
Definition openCodeBusy : Z := 3.

Definition magic : bytes := [72; 81; 66; 71].    (* HQBG *)

Definition kindRequest : Z := 1.
Definition kindResponse : Z := 2.
Definition kindCont : Z := 3.
Definition kindHello : Z := 4.
Definition kindHelloReply : Z := 5.
Definition kindClose : Z := 8.
Definition kindCloseAck : Z := 9.

Definition flagDetail : Z := 1.
Definition flagFail : Z := 2.
Definition flagsKnown : Z := Z.lor flagDetail flagFail.

Definition statusOK : Z := 0.
Definition statusUnknownOp : Z := 1.
Definition statusBadRequest : Z := 2.
Definition statusBadHandle : Z := 3.
Definition statusLimit : Z := 4.
Definition statusDenied : Z := 5.
Definition statusInternal : Z := 6.
Definition statusProtocol : Z := 7.
Definition statusShuttingDown : Z := 8.
Definition statusAppMin : Z := 0x100.
Definition statusAppMax : Z := 0xFFFF.

Definition helloOK : Z := 0.
Definition helloDigestMismatch : Z := 1.

(** *** Matching errors *)

(** The [Is] methods. *)
Definition rt_is_method (e target : rterr) : bool :=
  match e with
  | TransportError _ _ unknown => unknown && bool_decide (target = ErrOutcomeUnknown)
  | ProtocolError _ _ unknown =>
      bool_decide (target = hqq ErrProtocol) || (unknown && bool_decide (target = ErrOutcomeUnknown))
  | StatusError _ status _ =>
      if status =? statusUnknownOp then bool_decide (target = ErrUnknownOp)
      else if status =? statusBadRequest then bool_decide (target = ErrBadRequest)
      else if status =? statusBadHandle then bool_decide (target = ErrBadHandle)
      else if status =? statusLimit then bool_decide (target = ErrLimit)
      else if status =? statusDenied then bool_decide (target = ErrDenied)
      else if status =? statusInternal then bool_decide (target = ErrInternal) || bool_decide (target = ErrOutcomeUnknown)
      else if status =? statusProtocol then bool_decide (target = hqq ErrProtocol) || bool_decide (target = ErrOutcomeUnknown)
      else if status =? statusShuttingDown
           then bool_decide (target = rt_ErrShuttingDown) || bool_decide (target = ErrOutcomeUnknown)
      else false
  | MismatchError _ _ _ => bool_decide (target = ErrInterfaceMismatch)
  | OpenError code _ => bool_decide (target = ErrLimit) && ((code =? openCodeBusy) || (code =? openCodeGeometry))
  | _ => false
  end.

(** [errors.Is]: [Unwrap] leads from a transport error to its cause. *)
Fixpoint rt_is (e target : rterr) : bool :=
  bool_decide (e = target) || rt_is_method e target ||
  match e with
  | hqq e' => match target with hqq t => errors_is e' t | _ => false end
  | TransportError _ err _ => rt_is err target
  | Joined1 e1 => rt_is e1 target
  | Joined2 e1 e2 => rt_is e1 target || rt_is e2 target
  | _ => false
  end.

(** [errors.Join] *)
Definition errors_Join (a b : option rterr) : option rterr :=
  match a, b with
  | None, None => None
  | Some e, None | None, Some e => Some (Joined1 e)
  | Some e1, Some e2 => Some (Joined2 e1 e2)
  end.

(** ** Values (codec.go) *)

Definition len (b : bytes) : Z := Z.of_nat (length b).

(** [b[lo:hi]] with [int] bounds in range. *)
Definition zslice (lo hi : Z) (b : bytes) : bytes := slice (Z.to_nat lo) (Z.to_nat hi) b.

Definition Uint32 (off : Z) (b : bytes) : Z := le_get (zslice off (off + 4) b).
Definition Uint16 (off : Z) (b : bytes) : Z := le_get (zslice off (off + 2) b).

Definition Align (off n : Z) : Z := and_not (i64 (off + n - 1)) (n - 1).

Definition BytesWire (n : Z) : Z := 4 + n.
Definition StrWire (n : Z) : Z := 4 + n + 1.

Definition has_nul (s : bytes) : bool := existsb (Z.eqb 0) s.

Definition CheckStr (s : bytes) (limit : Z) : option rterr :=
  if (0 <? limit) && (limit <? len s) then Some ErrInvalidArg
  else if has_nul s then Some ErrInvalidArg
  else None.

(** Overwriting bytes from [off] on; [None]: out of range. *)
Definition put (off : Z) (src b : bytes) : option bytes :=
  if (0 <=? off) && (off + len src <=? len b) then Some (blit (Z.to_nat off) src b) else None.

Definition PutStr (b : bytes) (off : Z) (s : bytes) : option (bytes * Z) :=
  let end_ := off + 4 + len s in
  b ← put off (le_put 4 (len s)) b;
  b ← put (off + 4) s b;
  b ← put end_ [0] b;
  Some (b, end_ + 1).

Definition PutBytes (b : bytes) (off : Z) (p : bytes) : option (bytes * Z) :=
  b ← put off (le_put 4 (len p)) b;
  b ← put (off + 4) p b;
  Some (b, off + 4 + len p).

(** [getLen]: the u32 at [off] aligned to 4, and the offset after it. *)
Definition getLen (b : bytes) (off : Z) : option (Z * Z) :=
  if (off <? 0) || (len b <? off) then None
  else
    let off := Align off 4 in
    if (len b <? off) || (len b - off <? 4) then None else Some (Uint32 off b, off + 4).

Definition lengthOK (n limit : Z) : bool :=
  if n =? NullLen then false else (limit <=? 0) || (n <=? limit).

Definition GetStr (b : bytes) (off limit : Z) : result rterr (bytes * Z) :=
  match getLen b off with
  | None => Err errValue
  | Some (n, p) =>
      if negb (lengthOK n limit) then Err errValue
      else if len b - p <? n + 1 then Err errValue
      else
        let end_ := p + n in
        if negb (default 0 (b !! Z.to_nat end_) =? 0) || has_nul (zslice p end_ b) then Err errValue
        else Ok (zslice p end_ b, end_ + 1)
  end.

(** [GetBytesInto]: the destination, the length and the end offset. *)
Definition GetBytesInto (dst b : bytes) (off : Z) : result rterr (bytes * Z * Z) :=
  match getLen b off with
  | None => Err errValue
  | Some (l, p) =>
      if (l =? NullLen) || (len dst <? l) || (len b - p <? l) then Err errValue
      else Ok (blit 0 (zslice p (p + l) b) dst, l, p + l)
  end.

Definition GetCount (b : bytes) (off limit minsize : Z) : result rterr (Z * Z) :=
  match getLen b off with
  | None => Err errValue
  | Some (c, p) =>
      if negb (lengthOK c limit) then Err errValue
      else if len b - p <? u64 (c * Z.max minsize 1) then Err errValue
      else Ok (c, p)
  end.

(** ** Frame headers (wire.go) *)

Record header := mkFrameHeader { h_kind : Z; h_flags : Z; h_op : Z; h_id : Z; h_total : Z; h_aux : Z }.

Definition header_ok (h : header) : Prop :=
  word 8 (h_kind h) /\ word 8 (h_flags h) /\ word 16 (h_op h) /\ word 32 (h_id h) /\ word 32 (h_total h) /\ word 32 (h_aux h).

Definition loadHeader (b : bytes) : header :=
  mkFrameHeader (default 0 (b !! 0%nat)) (default 0 (b !! 1%nat)) (Uint16 2 b) (Uint32 4 b) (Uint32 8 b) (Uint32 12 b).

Definition putHeader (b : bytes) (h : header) : bytes :=
  let w := Z.lor (Z.lor (Z.lor (h_kind h) (Z.shiftl (h_flags h) 8)) (Z.shiftl (h_op h) 16)) (Z.shiftl (h_id h) 32) in
  blit 12 (le_put 4 (h_aux h)) (blit 8 (le_put 4 (h_total h)) (PutUint64 0 w b)).

(** [nextID]: the successor of an ID, never 0. *)
Definition nextID (id : Z) : Z := if u32 (id + 1) =? 0 then 1 else u32 (id + 1).

(** ** Handles (handle.go) *)

Record Handle := mkHandle { hd_id : Z; hd_sess : Z }.

Definition NewHandle (sess id : Z) : Handle := if id =? 0 then mkHandle 0 0 else mkHandle id sess.

Definition CheckHandle (sess : Z) (h : Handle) (nullable : bool) : option rterr :=
  if hd_id h =? 0 then if nullable then None else Some ErrInvalidArg
  else if negb (hd_sess h =? sess) then Some ErrForeignHandle
  else None.

(** ** Options (options.go) *)

Record Options := mkOptions {
  o_BufferCount : Z; o_BufferSize : Z; o_MaxInFlight : Z; o_MaxMessage : Z;
  o_ConnectTimeout : Z; o_CloseTimeout : Z; o_CallTimeout : Z; o_PeerTimeout : Z
}.

Record config := mkConfig {
  cf_bufferCount : Z; cf_bufferSize : Z; cf_maxInFlight : Z; cf_maxMessage : Z;
  cf_connectTimeout : Z; cf_closeTimeout : Z; cf_callTimeout : Z; cf_peerTimeout : Z
}.

(** The values granted by the server. *)
Record Limits := mkLimits {
  BufferCount : Z; BufferSize : Z; MaxInFlight : Z; MaxMessage : Z; MaxHandles : Z
}.

Definition validBufferCount (n : Z) : bool :=
  (rt_minBufferCount <=? n) && (n <=? rt_maxBufferCount) && (Z.land n (n - 1) =? 0).

Definition validBufferSize (n : Z) : bool :=
  (rt_minBufferSize <=? n) && (n <=? rt_maxBufferSize) && (Z.rem n 64 =? 0).

Definition second : Z := 1000 * 1000 * 1000.

Definition or_default (d v : Z) : Z := if v =? 0 then d else v.

Definition resolve (o : Options) : result rterr config :=
  let bufferCount := or_default 64 (o_BufferCount o) in
  let c := mkConfig bufferCount (or_default 16384 (o_BufferSize o)) (or_default bufferCount (o_MaxInFlight o))
             (or_default (16 * 2 ^ 20) (o_MaxMessage o)) (or_default (5 * second) (o_ConnectTimeout o))
             (or_default (5 * second) (o_CloseTimeout o)) (o_CallTimeout o) (or_default (2 * second) (o_PeerTimeout o)) in
  if negb (validBufferCount (cf_bufferCount c)) || negb (validBufferSize (cf_bufferSize c))
     || ((cf_maxInFlight c <? 1) || (cf_bufferCount c <? cf_maxInFlight c))
     || ((cf_maxMessage c <? minMaxMessage) || (hardMaxMessage <? cf_maxMessage c))
     || (cf_connectTimeout c <? 0) || (cf_closeTimeout c <? 0) || (cf_callTimeout c <? 0)
  then Err ErrInvalidArg else Ok c.

(** ** The handshake (dial.go) *)

(** [grant]: the OPEN response. *)
Record grant := mkGrant { g_count : Z; g_size : Z; g_name : bytes }.

Definition name_char_ok (ch : Z) : bool :=
  negb ((ch <=? 32) || (0x7f <=? ch) || (ch =? 47) || (ch =? 92)).

Definition parseOpenResponse (b : bytes) : result rterr grant :=
  let bad why := Err (ProtocolError 0 why false) in
  if len b <? openResp then bad OpenShort
  else
    let count := Uint32 0 b in
    let size := Uint32 4 b in
    let nameLen := Uint16 8 b in
    if (nameLen <? 1) || (openName <? nameLen) || negb (len b =? openResp + nameLen) then bad OpenNameLength
    else if (rt_maxBufferCount <? count) || (rt_maxBufferSize <? size)
            || negb (validBufferCount count) || negb (validBufferSize size) then bad OpenGeometry
    else
      let name := zslice openResp (len b) b in
      if negb (forallb name_char_ok name) then bad OpenNameChars
      else Ok (mkGrant count size name).

(** [putHello]: the HELLO frame in a buffer of at least 80 bytes. *)
Definition putHello (b digest : bytes) (g : grant) (cfg : config) : bytes :=
  let b := putHeader b (mkFrameHeader kindHello 0 0 0 helloBody 0) in
  let body := magic ++ le_put 2 protoMajor ++ le_put 2 protoMinor ++ replicate 4 0 ++ le_put 4 (g_size g) ++
              le_put 4 (g_count g) ++ le_put 4 (cf_maxInFlight cfg) ++ le_put 4 (cf_maxMessage cfg) ++
              replicate 4 0 ++ digest in
  blit (Z.to_nat FrameHeaderSize) body b.

(** [parseHelloReply]: [frame] is the copy of the received frame, [n] its
    length as received. *)
Definition parseHelloReply (frame : bytes) (n : Z) (digest : bytes) (cfg : config) (g : grant) : result rterr Limits :=
  let bad why := Err (ProtocolError 0 why false) in
  if negb (n =? FrameHeaderSize + helloBody) then bad HelloLength
  else
    let h := loadHeader frame in
    if negb (h_kind h =? kindHelloReply) || negb (h_flags h =? 0) || negb (h_op h =? 0) || negb (h_id h =? 0)
       || negb (h_total h =? helloBody) then bad HelloHeader
    else
      let p := zslice FrameHeaderSize n frame in
      if negb (bool_decide (zslice 0 4 p = magic)) then bad HelloMagic
      else
        let remote := zslice 32 64 p in
        if negb (h_aux h =? helloOK) then Err (MismatchError (h_aux h) digest remote)
        else if negb (Uint16 4 p =? protoMajor) || (protoMinor <? Uint16 6 p) then bad HelloRevision
        else if negb (Uint32 8 p =? 0) then bad HelloFlags
        else if negb (bool_decide (remote = digest)) then Err (MismatchError helloDigestMismatch digest remote)
        else
          let mif := Uint32 12 p in
          let mm := Uint32 16 p in
          let mh := Uint32 20 p in
          if (mif <? 1) || (cf_maxInFlight cfg <? mif) || (g_count g <? mif) then bad HelloInFlight
          else if (mm <? minMaxMessage) || (cf_maxMessage cfg <? mm) then bad HelloMaxMessage
          else if (mh <? 1) || (maxHandleCount <? mh) then bad HelloHandles
          else Ok (mkLimits (g_count g) (g_size g) mif mm mh).

(** ** Lemmas *)

Section Values.
Implicit Types (b s src : bytes) (off e : Z).

Lemma len_nonneg b : 0 <= len b.
Proof. unfold len. lia. Qed.

Lemma len_app b s : len (b ++ s) = len b + len s.
Proof. unfold len. rewrite length_app. lia. Qed.

Lemma Align_4 off : 0 <= off <= max_int - 4 -> Align off 4 = (off + 3) / 4 * 4.
Proof.
  intros H. unfold Align, and_not, max_int in *. assert (E : i64 (off + 4 - 1) = off + 3).
  { unfold i64. rewrite u64_small by (unfold word; lia).
    destruct (Z.ltb_spec (off + 4 - 1) (2 ^ 63)); lia. }
  rewrite E. change (4 - 1) with (Z.ones 2). rewrite Z.ldiff_ones_r by lia.
  rewrite Z.shiftl_mul_pow2, Z.shiftr_div_pow2 by lia. done.
Qed.

Lemma Align_range off : 0 <= off <= max_int - 4 -> off <= Align off 4 < off + 4 /\ Align off 4 mod 4 = 0.
Proof. intros H. rewrite Align_4 by done. split; zlia. Qed.

Lemma Align_id off : 0 <= off <= max_int - 4 -> off mod 4 = 0 -> Align off 4 = off.
Proof. intros H Hm. rewrite Align_4 by done. zlia. Qed.

(** *** Overwriting *)

Lemma blit_adjacent (o : nat) s1 s2 b :
  (o + length s1 + length s2 <= length b)%nat ->
  blit (o + length s1) s2 (blit o s1 b) = blit o (s1 ++ s2) b.
Proof.
  intros H. apply list_eq. intros i. destruct (decide (i < o)%nat).
  - rewrite !lookup_blit_lt by (rewrite ?length_blit; lia). done.
  - destruct (decide (i < o + length s1)%nat).
    + rewrite lookup_blit_lt by (rewrite ?length_blit; lia).
      rewrite !lookup_blit_in by (rewrite ?length_app; lia). rewrite lookup_app_l by lia. done.
    + destruct (decide (i < o + length s1 + length s2)%nat).
      * rewrite !lookup_blit_in by (rewrite ?length_blit, ?length_app; lia). rewrite lookup_app_r by lia. f_equal. lia.
      * rewrite !lookup_blit_ge by (rewrite ?length_blit, ?length_app; lia). done.
Qed.

Lemma blit_id_iff (o : nat) src b :
  (o + length src <= length b)%nat -> blit o src b = b <-> slice o (o + length src) b = src.
Proof.
  intros H. split.
  - intros E. rewrite <- E at 1. by apply slice_blit_same.
  - intros E. apply list_eq. intros i. destruct (decide (i < o)%nat).
    + by rewrite lookup_blit_lt by lia.
    + destruct (decide (i < o + length src)%nat).
      * rewrite lookup_blit_in by lia. rewrite <- E at 1. rewrite lookup_slice by lia. f_equal. lia.
      * by rewrite lookup_blit_ge by lia.
Qed.

Lemma put_app off s1 s2 b : (b1 ← put off s1 b; put (off + len s1) s2 b1) = put off (s1 ++ s2) b.
Proof.
  unfold put. rewrite len_app. pose proof (len_nonneg s1). pose proof (len_nonneg s2). unfold len in *.
  destruct (Z.leb_spec 0 off); cbn [andb mbind option_bind]; [|done].
  destruct (Z.leb_spec (off + Z.of_nat (length s1)) (Z.of_nat (length b))); cbn [mbind option_bind].
  - rewrite length_blit by lia. rewrite (proj2 (Z.leb_le 0 _)) by lia. cbn [andb].
    rewrite <- Z.add_assoc. destruct (_ <=? _) eqn:E; [|done]. breflect.
    rewrite Z2Nat.inj_add, Nat2Z.id by lia. rewrite blit_adjacent by lia. done.
  - destruct (Z.leb_spec (off + (Z.of_nat (length s1) + Z.of_nat (length s2))) (Z.of_nat (length b))); [lia|done].
Qed.

Lemma put_id_iff off src b :
  put off src b = Some b <-> 0 <= off /\ off + len src <= len b /\ zslice off (off + len src) b = src.
Proof.
  unfold put, zslice, len. destruct (_ && _) eqn:E; breflect.
  - rewrite Z2Nat.inj_add, Nat2Z.id by lia. rewrite <- (blit_id_iff (Z.to_nat off) src b) by lia.
    split; [intros ?; simplify_eq; split_and!; try done; congruence|intros (_ & _ & ->); done].
  - split; [done|]. intros (H1 & H2 & _). apply andb_false_iff in E as [E|E]; breflect; lia.
Qed.

Lemma put_len off src b b' : put off src b = Some b' -> len b' = len b.
Proof.
  unfold put, len. destruct (_ && _) eqn:E; breflect; [|done]. intros. simplify_eq. by rewrite length_blit by lia.
Qed.

(** Writing the same bytes again changes nothing. *)
Lemma put_idem off src b b' : put off src b = Some b' -> put off src b' = Some b'.
Proof.
  intros H. pose proof (put_len _ _ _ _ H) as Hl. unfold put, len in *. destruct (_ && _) eqn:E in H; [|done]. breflect.
  simplify_eq. rewrite Hl. rewrite (proj2 (Z.leb_le 0 off)), (proj2 (Z.leb_le _ _)) by lia. cbn [andb].
  f_equal. apply blit_id_iff; [rewrite length_blit by lia; lia|]. apply slice_blit_same. lia.
Qed.

Lemma len_le_put v : len (le_put 4 v) = 4.
Proof. unfold len. by rewrite length_le_put. Qed.

Lemma PutStr_put b off s :
  PutStr b off s = (b' ← put off (le_put 4 (len s) ++ s ++ [0]) b; Some (b', off + 4 + len s + 1)).
Proof.
  unfold PutStr. rewrite <- put_app, len_le_put.
  destruct (put off (le_put 4 (len s)) b) as [b1|]; cbn [mbind option_bind]; [|done].
  rewrite <- put_app. destruct (put (off + 4) s b1) as [b2|]; cbn [mbind option_bind]; done.
Qed.

Lemma PutBytes_put b off p :
  PutBytes b off p = (b' ← put off (le_put 4 (len p) ++ p) b; Some (b', off + 4 + len p)).
Proof.
  unfold PutBytes. rewrite <- put_app, len_le_put.
  destruct (put off (le_put 4 (len p)) b) as [b1|]; cbn [mbind option_bind]; done.
Qed.

(** *** Reading *)

Lemma zslice_app off e1 e2 b :
  0 <= off <= e1 -> e1 <= e2 <= len b -> zslice off e2 b = zslice off e1 b ++ zslice e1 e2 b.
Proof.
  intros H1 H2. unfold zslice, slice, len in *.
  replace (Z.to_nat e2 - Z.to_nat off)%nat with ((Z.to_nat e1 - Z.to_nat off) + (Z.to_nat e2 - Z.to_nat e1))%nat by lia.
  rewrite <- take_take_drop. f_equal. rewrite drop_drop. f_equal. f_equal. lia.
Qed.

Lemma len_zslice off e b : 0 <= off <= e -> e <= len b -> len (zslice off e b) = e - off.
Proof. unfold len, zslice. intros H1 H2. rewrite length_slice; lia. Qed.

Lemma zslice_bytes off e b : Forall is_byte b -> Forall is_byte (zslice off e b).
Proof. intros H. unfold zslice, slice. by apply Forall_take, Forall_drop. Qed.

Lemma zslice_1 off b x : 0 <= off -> zslice off (off + 1) b = [x] <-> b !! Z.to_nat off = Some x.
Proof.
  intros H. unfold zslice, slice. replace (Z.to_nat (off + 1) - Z.to_nat off)%nat with 1%nat by lia.
  rewrite <- (Nat.add_0_r (Z.to_nat off)) at 2. rewrite <- lookup_drop.
  destruct (drop (Z.to_nat off) b) as [|y l]; [done|]. cbn. rewrite take_0. split; intros; simplify_eq; done.
Qed.

(** A u32 in the message is the number [n] exactly when its bytes are those of [n]. *)
Lemma Uint32_iff off b n :
  Forall is_byte b -> 0 <= off -> off + 4 <= len b -> 0 <= n < 2 ^ 32 ->
  Uint32 off b = n <-> zslice off (off + 4) b = le_put 4 n.
Proof.
  intros Hb Ho Hl Hn. unfold Uint32. split.
  - intros <-. pose proof (le_put_get _ (zslice_bytes off (off + 4) b Hb)) as E.
    assert (length (zslice off (off + 4) b) = 4%nat) as Hlen.
    { pose proof (len_zslice off (off + 4) b ltac:(lia) Hl) as E4. unfold len in E4. lia. }
    rewrite Hlen in E. done.
  - intros ->. apply le_get_put_word. change (256 ^ Z.of_nat 4) with (2 ^ 32). done.
Qed.

Lemma Uint32_range off b : Forall is_byte b -> 0 <= Uint32 off b < 2 ^ 32.
Proof.
  intros Hb. unfold Uint32. pose proof (le_get_range _ (zslice_bytes off (off + 4) b Hb)) as H.
  assert (Z.of_nat (length (zslice off (off + 4) b)) <= 4).
  { unfold zslice, slice. rewrite length_take. lia. }
  assert (256 ^ Z.of_nat (length (zslice off (off + 4) b)) <= 256 ^ 4) by (apply Z.pow_le_mono_r; lia). lia.
Qed.

End Values.

(** The length word of a value at [off], written and read. *)
Lemma getLen_iff b off n p :
  Forall is_byte b -> len b <= max_int - 4 ->
  getLen b off = Some (n, p) <->
  0 <= off <= len b /\ p = Align off 4 + 4 /\ p <= len b /\ 0 <= n < 2 ^ 32 /\
  zslice (Align off 4) (Align off 4 + 4) b = le_put 4 n.
Proof.
  intros Hb Hl. unfold getLen. destruct (_ || _) eqn:E1.
  { split; [done|]. intros (H & _). apply orb_true_iff in E1 as [E1|E1]; breflect; lia. }
  breflect. destruct (Align_range off ltac:(lia)) as [Ha _]. destruct (_ || _) eqn:E2.
  { split; [done|]. intros (_ & -> & Hx & _). apply orb_true_iff in E2 as [E2|E2]; breflect; lia. }
  breflect. pose proof (Uint32_range (Align off 4) b Hb) as Hr. split.
  - intros ?. simplify_eq. split_and!; try lia. apply Uint32_iff; try done; lia.
  - intros (_ & -> & _ & Hn & E). f_equal. f_equal. apply Uint32_iff; try done; lia.
Qed.

Lemma CheckStr_iff s limit :
  CheckStr s limit = None <-> (limit <= 0 \/ len s <= limit) /\ has_nul s = false.
Proof.
  unfold CheckStr. destruct (_ && _) eqn:E1; breflect; [split; [done|lia]|].
  destruct (has_nul s); split; try done; try (by intros [_ ?]).
  intros _. split; [|done]. apply andb_false_iff in E1 as [E1|E1]; breflect; [by left|by right].
Qed.

Lemma lengthOK_iff n limit : 0 <= n < 2 ^ 32 -> lengthOK n limit = true <-> n < NullLen /\ (limit <= 0 \/ n <= limit).
Proof.
  intros Hn. unfold lengthOK, NullLen. destruct (Z.eqb_spec n 0xFFFFFFFF).
  - split; [done|lia].
  - rewrite orb_true_iff, !Z.leb_le. lia.
Qed.

(** The bytes of an encoded string are its length, its text and a NUL. *)
Lemma PutStr_id_iff b off s e :
  PutStr b off s = Some (b, e) <->
  0 <= off /\ e = off + 4 + len s + 1 /\ e <= len b /\ zslice off (off + 4) b = le_put 4 (len s) /\
  zslice (off + 4) (off + 4 + len s) b = s /\ b !! Z.to_nat (off + 4 + len s) = Some 0.
Proof.
  rewrite PutStr_put. pose proof (len_nonneg s) as Hs.
  assert (Hl : len (le_put 4 (len s) ++ s ++ [0]) = 4 + len s + 1) by (rewrite !len_app, len_le_put; unfold len at 2; simpl; lia).
  transitivity (put off (le_put 4 (len s) ++ s ++ [0]) b = Some b /\ e = off + 4 + len s + 1).
  { destruct (put _ _ _) as [b'|]; cbn [mbind option_bind]; split; intros; simplify_eq; try done; destruct_and!; simplify_eq; done. }
  rewrite put_id_iff, Hl. split.
  - intros [(Ho & He & E) ->].
    rewrite (zslice_app off (off + 4) (off + (4 + len s + 1)) b) in E by lia.
    apply app_inj_1 in E as [E1 E];
      [|pose proof (len_zslice off (off + 4) b ltac:(lia) ltac:(lia)) as X; unfold len in X; rewrite length_le_put; lia].
    rewrite (zslice_app (off + 4) (off + 4 + len s) (off + (4 + len s + 1)) b) in E by lia.
    apply app_inj_1 in E as [E2 E3];
      [|pose proof (len_zslice (off + 4) (off + 4 + len s) b ltac:(lia) ltac:(lia)) as X; unfold len in *; lia].
    split_and!; try done; try lia. apply zslice_1; [lia|]. rewrite <- E3. f_equal. lia.
  - intros (Ho & -> & He & E1 & E2 & E3). split; [|done]. split_and!; try lia.
    rewrite (zslice_app off (off + 4) (off + (4 + len s + 1)) b) by lia. rewrite E1. f_equal.
    rewrite (zslice_app (off + 4) (off + 4 + len s) (off + (4 + len s + 1)) b) by lia. rewrite E2. f_equal.
    apply zslice_1 in E3; [|lia]. rewrite <- E3. f_equal. lia.
Qed.

Lemma PutBytes_id_iff b off p e :
  PutBytes b off p = Some (b, e) <->
  0 <= off /\ e = off + 4 + len p /\ e <= len b /\ zslice off (off + 4) b = le_put 4 (len p) /\
  zslice (off + 4) (off + 4 + len p) b = p.
Proof.
  rewrite PutBytes_put. pose proof (len_nonneg p) as Hp.
  assert (Hl : len (le_put 4 (len p) ++ p) = 4 + len p) by (rewrite !len_app, len_le_put; lia).
  transitivity (put off (le_put 4 (len p) ++ p) b = Some b /\ e = off + 4 + len p).
  { destruct (put _ _ _) as [b'|]; cbn [mbind option_bind]; split; intros; simplify_eq; try done; destruct_and!; simplify_eq; done. }
  rewrite put_id_iff, Hl. split.
  - intros [(Ho & He & E) ->].
    rewrite (zslice_app off (off + 4) (off + (4 + len p)) b) in E by lia.
    apply app_inj_1 in E as [E1 E];
      [|pose proof (len_zslice off (off + 4) b ltac:(lia) ltac:(lia)) as X; unfold len in X; rewrite length_le_put; lia].
    rewrite Z.add_assoc in E. split_and!; done || lia.
  - intros (Ho & -> & He & E1 & E2). split; [|done]. split_and!; try lia.
    rewrite (zslice_app off (off + 4) (off + (4 + len p)) b) by lia. rewrite E1, Z.add_assoc, E2. done.
Qed.

(** ** Properties *)

(** Decoding a string accepts exactly its encodings. [GetStr] returns a
    text and an end offset if and only if encoding that text with [PutStr] at
    the aligned offset leaves the message as it is and ends there, the text
    passes [CheckStr] and its length is not the NULL length: nothing else is
    accepted, no byte outside the message is read, and what was written is
    read back, by any later reader that aligns to the same offset. *)
Theorem str_codec_exact (b : bytes) (off limit : Z) (s : bytes) (e : Z)
  (Hb : Forall is_byte b) (Hl : len b <= max_int - 4) :
  (GetStr b off limit = Ok (s, e) <->
   0 <= off <= len b /\ CheckStr s limit = None /\ len s < NullLen /\ PutStr b (Align off 4) s = Some (b, e)) /\
  (forall b', 0 <= off <= len b -> PutStr b (Align off 4) s = Some (b', e) -> Forall is_byte b' -> CheckStr s limit = None ->
    len s < NullLen -> GetStr b' off limit = Ok (s, e)).
Proof.
  assert (Hiff : forall b, Forall is_byte b -> len b <= max_int - 4 ->
    GetStr b off limit = Ok (s, e) <->
    0 <= off <= len b /\ CheckStr s limit = None /\ len s < NullLen /\ PutStr b (Align off 4) s = Some (b, e)).
  { clear b Hb Hl. intros b Hb Hl. rewrite PutStr_id_iff, CheckStr_iff. unfold GetStr. split.
    - destruct (getLen b off) as [[n p]|] eqn:Eg; [|done]. apply getLen_iff in Eg as (Ho & -> & Hp & Hn & En); [|done..].
      destruct (Align_range off ltac:(lia)) as [Ha _].
      destruct (negb (lengthOK n limit)) eqn:El; [done|]. apply negb_false_iff, lengthOK_iff in El as [El1 El2]; [|done].
      destruct (_ <? _) eqn:E1; [done|]. breflect.
      destruct (_ || has_nul _) eqn:E2; [done|]. intros ?. simplify_eq. breflect.
      rewrite !len_zslice by lia. replace (_ + n - _) with n by lia. split_and!; try done; try lia.
      destruct (b !! Z.to_nat (Align off 4 + 4 + n)) as [x|] eqn:Ex; [simpl in *; congruence|].
      apply lookup_ge_None in Ex. unfold len in *. lia.
    - intros (Ho & (Hlim & Hnul) & Hs & Ho' & -> & He & E1 & E2 & E3). pose proof (len_nonneg s).
      rewrite (proj2 (getLen_iff b off (len s) (Align off 4 + 4) Hb Hl)).
      2: { unfold NullLen in Hs. split_and!; try done; lia. }
      rewrite (proj2 (lengthOK_iff (len s) limit ltac:(unfold NullLen in Hs; lia))) by done. cbn [negb].
      rewrite (proj2 (Z.ltb_ge _ _)) by lia. rewrite E3, E2. simpl. rewrite Hnul. done. }
  split; [by apply Hiff|]. intros b' Ho Hput Hb' Hc Hs.
  assert (Hlen : len b' = len b /\ PutStr b' (Align off 4) s = Some (b', e)).
  { rewrite PutStr_put in Hput |- *. destruct (put _ _ b) as [b1|] eqn:Ep; cbn [mbind option_bind] in Hput; [|done]. simplify_eq.
    split; [by eapply put_len|]. by rewrite (put_idem _ _ _ _ Ep). }
  destruct Hlen as [Hlen Hid]. apply Hiff; [done|lia|]. by rewrite Hlen.
Qed.

Lemma str_codec_exact_witness :
  exists b', PutStr (replicate 16 7) (Align 1 4) [104; 105] = Some (b', 11) /\ GetStr b' 1 8 = Ok ([104; 105], 11).
Proof.
  eexists. split; [vm_compute; reflexivity|].
  destruct (str_codec_exact (replicate 16 7) 1 8 [104; 105] 11) as [_ H].
  - apply Forall_replicate. unfold is_byte. lia.
  - vm_compute. discriminate.
  - apply H; try (vm_compute; reflexivity).
    + vm_compute. split; discriminate.
    + repeat constructor; unfold is_byte; lia.
Defined.

(** Decoding bytes accepts exactly the encodings that fit the caller's
    buffer, copies the value to its front and leaves the rest of it alone. *)
Theorem bytes_codec_exact (dst b : bytes) (off n e : Z) (dst' : bytes)
  (Hb : Forall is_byte b) (Hl : len b <= max_int - 4) :
  GetBytesInto dst b off = Ok (dst', n, e) <->
  exists p, 0 <= off <= len b /\ n = len p /\ n < NullLen /\ n <= len dst /\
    PutBytes b (Align off 4) p = Some (b, e) /\ dst' = blit 0 p dst.
Proof.
  unfold GetBytesInto. split.
  - destruct (getLen b off) as [[l q]|] eqn:Eg; [|done]. apply getLen_iff in Eg as (Ho & -> & Hp & Hn & En); [|done..].
    destruct (Align_range off ltac:(lia)) as [Ha _].
    destruct (_ || _ || _) eqn:E1; [done|]. breflect. intros ?. simplify_eq.
    exists (zslice (Align off 4 + 4) (Align off 4 + 4 + n) b). rewrite PutBytes_id_iff, !len_zslice by lia.
    replace (Align off 4 + 4 + n - (Align off 4 + 4)) with n by lia. unfold NullLen in *.
    split_and!; try done; lia.
  - intros (p & Ho & -> & Hnl & Hd & Hput & ->). apply PutBytes_id_iff in Hput as (Ho' & -> & He & E1 & E2).
    pose proof (len_nonneg p). unfold NullLen in *.
    rewrite (proj2 (getLen_iff b off (len p) (Align off 4 + 4) Hb Hl)) by (split_and!; try done; lia).
    rewrite (proj2 (Z.eqb_neq _ _)), !(proj2 (Z.ltb_ge _ _)) by lia. cbn [orb]. by rewrite E2.
Qed.

(** A count that decodes cannot make the caller allocate more than the
    message: [count] elements of [minsize] bytes fit in what is left. *)
Theorem GetCount_bounded (b : bytes) (off limit minsize c e : Z)
  (Hb : Forall is_byte b) (Hl : len b <= max_int - 4) (Hm : minsize < 2 ^ 32)
  (H : GetCount b off limit minsize = Ok (c, e)) :
  0 <= c /\ 0 <= e <= len b /\ c * Z.max minsize 1 <= len b - e /\ (limit <= 0 \/ c <= limit).
Proof.
  unfold GetCount in H. destruct (getLen b off) as [[n p]|] eqn:Eg; [|done].
  apply getLen_iff in Eg as (Ho & -> & Hp & Hn & _); [|done..].
  destruct (Align_range off ltac:(lia)) as [Ha _].
  destruct (negb (lengthOK n limit)) eqn:El; [done|]. apply negb_false_iff, lengthOK_iff in El as [El1 El2]; [|done].
  destruct (_ <? _) eqn:E1; [done|]. breflect. simplify_eq. rewrite u64_small in * by (unfold word; nia).
  split_and!; done || lia.
Qed.

(** *** Frame headers *)

Lemma land_shiftl_small a b k : 0 <= k -> 0 <= a < 2 ^ k -> Z.land a (Z.shiftl b k) = 0.
Proof.
  intros Hk Ha. apply Z.bits_inj'. intros i Hi. rewrite Z.land_spec, Z.bits_0.
  destruct (Z.ltb_spec i k).
  - rewrite Z.shiftl_spec_low by done. by rewrite andb_false_r.
  - destruct (decide (a = 0)) as [->|]; [by rewrite Z.bits_0|].
    rewrite (Z.bits_above_log2 a i); [done|lia|]. apply Z.log2_lt_pow2; [lia|].
    apply Z.lt_le_trans with (2 ^ k); [lia|]. apply Z.pow_le_mono_r; lia.
Qed.

Lemma lor_shiftl a b k : 0 <= k -> 0 <= a < 2 ^ k -> Z.lor a (Z.shiftl b k) = a + b * 2 ^ k.
Proof.
  intros Hk Ha. rewrite <- Z.shiftl_mul_pow2 by done.
  rewrite <- Z.lxor_lor by (by apply land_shiftl_small). symmetry. apply Z.add_nocarry_lxor. by apply land_shiftl_small.
Qed.

(** The first word of a header, as bytes. *)
Lemma header_word h : header_ok h ->
  le_put 8 (Z.lor (Z.lor (Z.lor (h_kind h) (Z.shiftl (h_flags h) 8)) (Z.shiftl (h_op h) 16)) (Z.shiftl (h_id h) 32)) =
  [h_kind h; h_flags h] ++ le_put 2 (h_op h) ++ le_put 4 (h_id h).
Proof.
  intros (Hk & Hf & Ho & Hi & _). unfold word in *.
  rewrite (lor_shiftl (h_kind h)) by lia. rewrite (lor_shiftl (_ + _) (h_op h)) by lia. rewrite lor_shiftl by lia.
  cbn [le_put app].
  repeat (f_equal; [zlia|]). f_equal. zlia.
Qed.

(** The bytes of a header. *)
Definition header_bytes (h : header) : bytes :=
  [h_kind h; h_flags h] ++ le_put 2 (h_op h) ++ le_put 4 (h_id h) ++ le_put 4 (h_total h) ++ le_put 4 (h_aux h).

Lemma length_header_bytes h : length (header_bytes h) = 16%nat.
Proof. unfold header_bytes. rewrite !length_app, !length_le_put. done. Qed.

Lemma putHeader_bytes b h :
  header_ok h -> (16 <= length b)%nat -> putHeader b h = header_bytes h ++ drop 16 b.
Proof.
  intros Hh Hl. unfold putHeader, PutUint64. rewrite header_word by done.
  set (w := [h_kind h; h_flags h] ++ le_put 2 (h_op h) ++ le_put 4 (h_id h)).
  assert (Hw : length w = 8%nat) by (unfold w; rewrite !length_app, !length_le_put; done).
  pose proof (blit_adjacent 0 w (le_put 4 (h_total h)) b) as E1. rewrite Hw, length_le_put in E1.
  pose proof (blit_adjacent 0 (w ++ le_put 4 (h_total h)) (le_put 4 (h_aux h)) b) as E2.
  rewrite length_app, Hw, !length_le_put in E2. cbn [Nat.add] in E1, E2. rewrite E1, E2 by lia.
  unfold blit. rewrite take_0, app_nil_l, Nat.add_0_l. rewrite !length_app, !length_le_put, Hw.
  unfold header_bytes, w. rewrite <- !app_assoc. done.
Qed.

Lemma zslice_prefix lo hi (p q : bytes) :
  0 <= lo -> hi <= Z.of_nat (length p) -> zslice lo hi (p ++ q) = zslice lo hi p.
Proof.
  intros Hlo Hhi. apply slice_ext. intros i Hi. apply lookup_app_l. lia.
Qed.

(** A header reads back as it was written. *)
Lemma loadHeader_bytes h rest : header_ok h -> loadHeader (header_bytes h ++ rest) = h.
Proof.
  intros Hh. pose proof Hh as (_ & _ & Ho & Hi & Ht & Ha). unfold loadHeader, Uint16, Uint32.
  rewrite !zslice_prefix by (rewrite ?length_header_bytes; lia).
  destruct h as [k f o i t a]. cbn [h_kind h_flags h_op h_id h_total h_aux] in *. f_equal.
  - change (zslice 2 (2 + 2) _) with (le_put 2 o). apply le_get_put_word. exact Ho.
  - change (zslice 4 (4 + 4) _) with (le_put 4 i). apply le_get_put_word. exact Hi.
  - change (zslice 8 (8 + 4) _) with (le_put 4 t). apply le_get_put_word. exact Ht.
  - change (zslice 12 (12 + 4) _) with (le_put 4 a). apply le_get_put_word. exact Ha.
Qed.

Lemma load_put_header b h :
  header_ok h -> (16 <= length b)%nat -> loadHeader (putHeader b h) = h /\ drop 16 (putHeader b h) = drop 16 b.
Proof.
  intros Hh Hl. rewrite putHeader_bytes by done. split; [by apply loadHeader_bytes|].
  by rewrite drop_app_length' by (by rewrite length_header_bytes).
Qed.

(** *** Limits *)

(** What a session relies on. *)
Record limits_ok (l : Limits) : Prop := {
  lo_count : 2 <= BufferCount l <= 4096;
  lo_pow2 : exists k, 0 <= k /\ BufferCount l = 2 ^ k;
  lo_size : 128 <= BufferSize l <= 2 ^ 20 /\ BufferSize l mod 64 = 0;
  lo_inflight : 1 <= MaxInFlight l <= BufferCount l;
  lo_message : 4096 <= MaxMessage l <= 2 ^ 30;
  lo_handles : 1 <= MaxHandles l <= 65535
}.

(** Whatever the server answers, the limits of a session that opens are
    usable: the geometry is one a link accepts, at most as many calls are in
    flight as the ring has slots, and no message is larger than asked for. *)
Theorem handshake_limits (o : Options) (cfg : config) (resp frame digest : bytes) (n : Z) (g : grant) (l : Limits)
  (Ho : resolve o = Ok cfg) (Hg : parseOpenResponse resp = Ok g) (Hl : parseHelloReply frame n digest cfg g = Ok l) :
  limits_ok l /\ MaxInFlight l <= cf_maxInFlight cfg /\ MaxMessage l <= cf_maxMessage cfg /\
  n = 80 /\ zslice 48 80 frame = digest /\
  1 <= len (g_name g) <= 64 /\ Forall (fun ch => 32 < ch < 127 /\ ch <> 47 /\ ch <> 92) (g_name g).
Proof.
  unfold resolve in Ho. cbv zeta in Ho. destruct (_ || _) eqn:E1 in Ho; [done|]. simplify_eq. breflect. simpl in *.
  unfold parseOpenResponse in Hg. cbv zeta in Hg. destruct (_ <? _) eqn:E2 in Hg; [done|].
  destruct (_ || _) eqn:E3 in Hg; [done|]. destruct (_ || _) eqn:E4 in Hg; [done|].
  destruct (negb (forallb _ _)) eqn:E5 in Hg; [done|]. simplify_eq.
  unfold parseHelloReply in Hl. cbv zeta in Hl. destruct (negb _) eqn:F1 in Hl; [done|].
  destruct (_ || _) eqn:F2 in Hl; [done|]. destruct (negb _) eqn:F3 in Hl; [done|]. destruct (negb _) eqn:F4 in Hl; [done|].
  destruct (_ || _) eqn:F5 in Hl; [done|]. destruct (negb _) eqn:F6 in Hl; [done|]. destruct (negb _) eqn:F7 in Hl; [done|].
  destruct (_ || _) eqn:F8 in Hl; [done|]. destruct (_ || _) eqn:F9 in Hl; [done|]. destruct (_ || _) eqn:F10 in Hl; [done|].
  simplify_eq. breflect. simpl in *. unfold validBufferCount, validBufferSize in *. breflect.
  rewrite bool_decide_eq_true in F7.
  unfold openName, openResp, rt_minBufferCount, rt_maxBufferCount, rt_minBufferSize, rt_maxBufferSize, minMaxMessage, hardMaxMessage,
    maxHandleCount, FrameHeaderSize, helloBody in *.
  split; [constructor; simpl; try lia|].
  - match goal with Hp : Z.land _ _ = 0 |- _ => idtac end. apply land_pred_pow2; [lia|done].
  - split; [lia|]. rewrite <- Z.rem_mod_nonneg by lia. done.
  - split_and!; try lia; try done.
    + rewrite <- F7. subst n. unfold zslice, slice. rewrite skipn_firstn_comm, take_take, drop_drop. done.
    + rewrite len_zslice by lia. lia.
    + rewrite len_zslice by lia. lia.
    + apply list.Forall_forall. intros ch Hch. apply list_elem_of_In in Hch.
      apply (proj1 (forallb_forall _ _) E5) in Hch. unfold name_char_ok in Hch. apply negb_true_iff in Hch. breflect. lia.
Qed.

Lemma handshake_limits_witness :
  let o := mkOptions 0 0 0 0 0 0 0 0 in
  let digest := replicate 32 9 in
  let resp := le_put 4 8 ++ le_put 4 256 ++ le_put 2 2 ++ [0; 0] ++ [97; 98] in
  let frame := header_bytes (mkFrameHeader kindHelloReply 0 0 0 64 0) ++ magic ++ le_put 2 1 ++ le_put 2 0 ++ le_put 4 0 ++
    le_put 4 8 ++ le_put 4 4096 ++ le_put 4 100 ++ replicate 8 0 ++ digest in
  exists l, limits_ok l /\ MaxInFlight l = 8.
Proof.
  intros o digest resp frame.
  destruct (resolve o) as [cfg|] eqn:E1; [|vm_compute in E1; discriminate].
  destruct (parseOpenResponse resp) as [g|] eqn:E2; [|vm_compute in E2; discriminate].
  assert (E3 : parseHelloReply frame 80 digest cfg g = Ok (mkLimits 8 256 8 4096 100)).
  { vm_compute in E1, E2. injection E1 as <-. injection E2 as <-. vm_compute. reflexivity. }
  exists (mkLimits 8 256 8 4096 100). split; [|reflexivity].
  exact (proj1 (handshake_limits o cfg resp frame digest 80 g _ E1 E2 E3)).
Defined.
