(* ===== verification/Pool.v ===== *)
(** * Pool: lending sessions to goroutines

    Models [Pool] of bindgen/rt/pool.go: at most [max] values exist, each is
    lent to one goroutine at a time, and a [Get] that finds none waits for a
    [Put] or [Discard]. A step is one critical section of the pool's mutex,
    one channel operation, one dial or one call of [closeFn]; any number of
    goroutines run. The channel of a waiting [Get] is named by its goroutine;
    it is made anew for every wait, so a token left in an abandoned channel is
    gone with it. *)
From S2P Require Import Prelude.

(** Where a goroutine is: outside the pool; in the [select] of [Get], or past
    its [ctx.Done] case and before the lock ([woken]: a token is in its
    channel); dialing; after a failed dial; after a dial and before the look
    at [closed]; holding a value; about to call [closeFn]; past it. *)
Inductive pool_pc :=
| PIdle
| PWait (woken : bool)
| PCancel (woken : bool)
| PDial
| PDialFailed
| PDialed (v : nat)
| PHas (v : nat)
| PDiscard (v : nat)
| PDiscarded.

#[export] Instance pool_pc_eq_dec : EqDecision pool_pc.
Proof. solve_decision. Defined.

Record pool := mkPool {
  p_max : Z;
  idle : list nat;
  p_n : Z;                    (* idle values, lent values and dials in progress *)
  p_closed : bool;
  waiters : list nat;
  towake : list nat;          (* waiters [Close] took and has still to wake *)
  toclose : list nat;         (* idle values [Close] took and has still to close *)
  threads : list pool_pc;
  fresh_value : nat;          (* values dialed so far *)
  dead : list nat             (* values closed so far *)
}.

Definition NewPool (max : Z) (goroutines : nat) : pool :=
  mkPool (if max <? 1 then 1 else max) [] 0 false [] [] [] (replicate goroutines PIdle) 0 [].

(** *** Field updates *)

Definition set_pc (t : nat) (pc : pool_pc) (s : pool) : pool :=
  mkPool (p_max s) (idle s) (p_n s) (p_closed s) (waiters s) (towake s) (toclose s) (<[t := pc]> (threads s))
    (fresh_value s) (dead s).

Definition set_values (i : list nat) (n : Z) (s : pool) : pool :=
  mkPool (p_max s) i n (p_closed s) (waiters s) (towake s) (toclose s) (threads s) (fresh_value s) (dead s).

Definition set_waiters (w : list nat) (s : pool) : pool :=
  mkPool (p_max s) (idle s) (p_n s) (p_closed s) w (towake s) (toclose s) (threads s) (fresh_value s) (dead s).

Definition set_towake (w : list nat) (s : pool) : pool :=
  mkPool (p_max s) (idle s) (p_n s) (p_closed s) (waiters s) w (toclose s) (threads s) (fresh_value s) (dead s).

Definition set_dead (c d : list nat) (s : pool) : pool :=
  mkPool (p_max s) (idle s) (p_n s) (p_closed s) (waiters s) (towake s) c (threads s) (fresh_value s) d.

(** ** Operations *)

(** A send on the channel of goroutine [w], whose capacity is one. [None]: the
    channel holds a token already, the send blocks. *)
Definition send_token (w : nat) (s : pool) : option pool :=
  match threads s !! w with
  | Some (PWait false) => Some (set_pc w (PWait true) s)
  | Some (PCancel false) => Some (set_pc w (PCancel true) s)
  | Some (PWait true) | Some (PCancel true) => None
  | _ => Some s
  end.

Definition wakeLocked (s : pool) : option pool :=
  match waiters s with
  | [] => Some s
  | w :: rest => send_token w (set_waiters rest s)
  end.

(** [removeWaiter] *)
Definition removeWaiter (w : nat) (s : pool) : pool * bool :=
  (set_waiters (filter (fun x => x <> w) (waiters s)) s, bool_decide (w ∈ waiters s)).

(** The critical section of [Get], at its start and after every wake-up. *)
Definition get_section (t : nat) (s : pool) : pool :=
  if p_closed s then set_pc t PIdle s
  else
    match list.last (idle s) with
    | Some v => set_pc t (PHas v) (set_values (take (length (idle s) - 1) (idle s)) (p_n s) s)
    | None =>
        if p_n s <? p_max s then set_pc t PDial (set_values (idle s) (p_n s + 1) s)
        else set_pc t (PWait false) (set_waiters (waiters s ++ [t]) s)
    end.

(** The end of a [Get] whose context is done. *)
Definition cancel_section (t : nat) (s : pool) : option pool :=
  let (s1, ok) := removeWaiter t s in
  if ok then Some (set_pc t PIdle s1) else wakeLocked (set_pc t PIdle s1).

(** The end of [discard] and of a failed dial. *)
Definition free_slot (t : nat) (s : pool) : option pool :=
  wakeLocked (set_pc t PIdle (set_values (idle s) (p_n s - 1) s)).

(** The critical section of [Put]. *)
Definition Put (t v : nat) (s : pool) : option pool :=
  if negb (p_closed s) then wakeLocked (set_pc t PIdle (set_values (idle s ++ [v]) (p_n s) s))
  else Some (set_pc t (PDiscard v) s).

(** The critical section of [Close]. *)
Definition Close (s : pool) : pool :=
  if p_closed s then s
  else mkPool (p_max s) [] (p_n s - Z.of_nat (length (idle s))) true [] (waiters s) (idle s) (threads s)
         (fresh_value s) (dead s).

(** What a goroutine does next, where it has a choice. *)
Inductive pool_move := Proceed | CtxDone | DialFails | DoPut | DoDiscard.

(** One step of goroutine [t]; [None]: not enabled, or blocked. *)
Definition pool_thread (t : nat) (mv : pool_move) (s : pool) : option pool :=
  match threads s !! t, mv with
  | Some PIdle, Proceed => Some (get_section t s)
  | Some (PWait true), Proceed => Some (get_section t s)
  | Some (PWait woken), CtxDone => Some (set_pc t (PCancel woken) s)
  | Some (PCancel _), Proceed => cancel_section t s
  | Some PDial, Proceed =>
      Some (set_pc t (PDialed (fresh_value s))
        (mkPool (p_max s) (idle s) (p_n s) (p_closed s) (waiters s) (towake s) (toclose s) (threads s)
           (S (fresh_value s)) (dead s)))
  | Some PDial, DialFails => Some (set_pc t PDialFailed s)
  | Some PDialFailed, Proceed => free_slot t s
  | Some (PDialed v), Proceed => Some (set_pc t (if p_closed s then PDiscard v else PHas v) s)
  | Some (PHas v), DoPut => Put t v s
  | Some (PHas v), DoDiscard => Some (set_pc t (PDiscard v) s)
  | Some (PDiscard v), Proceed => Some (set_pc t PDiscarded (set_dead (toclose s) (dead s ++ [v]) s))
  | Some PDiscarded, Proceed => free_slot t s
  | _, _ => None
  end.

(** The rest of [Close]: wake the waiters, then close the idle values. *)
Definition close_step (s : pool) : option pool :=
  match towake s, toclose s with
  | w :: rest, _ => send_token w (set_towake rest s)
  | [], v :: rest => Some (set_dead rest (dead s ++ [v]) s)
  | [], [] => None
  end.

Inductive pool_step : pool -> pool -> Prop :=
| ps_thread s t mv s' : pool_thread t mv s = Some s' -> pool_step s s'
| ps_close s : pool_step s (Close s)
| ps_closing s s' : close_step s = Some s' -> pool_step s s'.

(** ** Invariant *)

(** Goroutines that account for a value or a dial in [n]. *)
Definition owns (pc : pool_pc) : bool :=
  match pc with PDial | PDialFailed | PDialed _ | PHas _ | PDiscard _ | PDiscarded => true | _ => false end.

(** Goroutines with a wake-up they have not used yet. *)
Definition woken (pc : pool_pc) : bool := match pc with PWait true | PCancel true => true | _ => false end.

(** Goroutines that wait for a wake-up. *)
Definition waiting (pc : pool_pc) : bool := match pc with PWait false | PCancel false => true | _ => false end.

Definition value_of (pc : pool_pc) : list nat :=
  match pc with PDialed v | PHas v | PDiscard v => [v] | _ => [] end.

Definition held_values (l : list pool_pc) : list nat := l ≫= value_of.

(** Room for another [Get]: idle values and values that may still be dialed. *)
Definition available (s : pool) : Z := Z.of_nat (length (idle s)) + (p_max s - p_n s).

Definition all_values (s : pool) : list nat := idle s ++ held_values (threads s) ++ toclose s ++ dead s.

(** [d]: wake-ups that are due and not sent yet. *)
Record pool_inv_plus (d : Z) (s : pool) : Prop := {
  pi_nodup : NoDup (waiters s ++ towake s);
  pi_waiters : forall t, t ∈ waiters s -> exists pc, threads s !! t = Some pc /\ waiting pc = true;
  pi_waiting : forall t pc, threads s !! t = Some pc -> waiting pc = true -> t ∈ waiters s \/ t ∈ towake s;
  pi_towake : forall t, t ∈ towake s -> exists pc, threads s !! t = Some pc /\ (waiting pc = true \/ pc = PIdle);
  pi_closed : if p_closed s then waiters s = [] /\ idle s = [] else towake s = [] /\ toclose s = [];
  pi_count : p_n s = Z.of_nat (length (idle s)) + countb owns (threads s);
  pi_max : p_n s <= p_max s;
  pi_wake : waiters s <> [] -> available s <= countb woken (threads s) + d;
  pi_values : NoDup (all_values s) /\ Forall (fun v => (v < fresh_value s)%nat) (all_values s)
}.

Definition pool_inv (s : pool) : Prop := pool_inv_plus 0 s.

Lemma held_split l t x :
  l !! t = Some x -> exists others, held_values l ≡ₚ value_of x ++ others /\
    forall y, held_values (<[t := y]> l) ≡ₚ value_of y ++ others.
Proof.
  intros H. pose proof (lookup_lt_Some _ _ _ H) as Hlt.
  exists ((take t l ≫= value_of) ++ (drop (S t) l ≫= value_of)). unfold held_values. split.
  - rewrite <- (take_drop_middle l t x H) at 1.
    rewrite bind_app, bind_cons. by rewrite Permutation_app_swap_app.
  - intros y. rewrite insert_take_drop by done. rewrite bind_app, bind_cons. by rewrite Permutation_app_swap_app.
Qed.

(** A goroutine that neither waits nor starts to wait moves on. *)
Lemma move_inv d d' s t x y idle' n' fresh' dead' :
  pool_inv_plus d s -> threads s !! t = Some x -> waiting x = false -> waiting y = false ->
  (t ∈ towake s -> y = PIdle) ->
  n' = p_n s + (Z.of_nat (length idle') - Z.of_nat (length (idle s))) + ((if owns y then 1 else 0) - (if owns x then 1 else 0)) ->
  n' <= p_max s -> (p_closed s = true -> idle' = []) ->
  Z.of_nat (length idle') - n' - (if woken y then 1 else 0) - d' <= Z.of_nat (length (idle s)) - p_n s - (if woken x then 1 else 0) - d ->
  (forall rest, NoDup (idle s ++ value_of x ++ dead s ++ rest) ->
     Forall (fun v => (v < fresh_value s)%nat) (idle s ++ value_of x ++ dead s ++ rest) ->
     NoDup (idle' ++ value_of y ++ dead' ++ rest) /\ Forall (fun v => (v < fresh')%nat) (idle' ++ value_of y ++ dead' ++ rest)) ->
  pool_inv_plus d' (mkPool (p_max s) idle' n' (p_closed s) (waiters s) (towake s) (toclose s) (<[t := y]> (threads s)) fresh' dead').
Proof.
  intros [H1 H2 H3 H4 H5 H6 H7 H8 [H9 H10]] Et Hx Hy Htw Hn Hmax Hcl Hw Hv.
  assert (Hne : forall u, u ∈ waiters s -> t <> u).
  { intros u Hu ->. destruct (H2 u Hu) as (pc & Epc & Hpc). congruence. }
  constructor; simpl; try done.
  - intros u Hu. rewrite list_lookup_insert_ne by (by apply Hne). by apply H2.
  - intros u pc Hu Hpc. apply list_lookup_insert_Some in Hu as [(_ & <- & _)|[_ Hu]]; [congruence|by eapply H3].
  - intros u Hu. destruct (decide (t = u)) as [<-|Htu].
    + exists y. rewrite list_lookup_insert_eq by (by eapply lookup_lt_Some). split; [done|]. right. by apply Htw.
    + rewrite list_lookup_insert_ne by done. by apply H4.
  - destruct (p_closed s); [|done]. split; [by destruct H5|by apply Hcl].
  - rewrite (countb_insert _ _ _ _ _ Et). lia.
  - intros Hne'. specialize (H8 Hne'). unfold available in *. simpl. rewrite (countb_insert _ _ _ _ _ Et). lia.
  - unfold all_values in *. simpl. destruct (held_split _ _ _ Et) as (others & E1 & E2).
    assert (Ep : forall i z dd, i ++ (z ++ others) ++ toclose s ++ dd ≡ₚ i ++ z ++ dd ++ others ++ toclose s).
    { intros i z dd. apply Permutation_app_head. rewrite <- app_assoc. apply Permutation_app_head.
      rewrite app_assoc. apply Permutation_app_comm. }
    rewrite E1, Ep in H9, H10. rewrite (E2 y), Ep. by apply Hv.
Qed.

(** The waiter gets its token. *)
Definition token (pc : pool_pc) : pool_pc :=
  match pc with PWait _ => PWait true | PCancel _ => PCancel true | _ => pc end.

Lemma token_spec pc : waiting pc = true -> waiting (token pc) = false /\ woken pc = false /\ woken (token pc) = true /\
  owns (token pc) = owns pc /\ value_of (token pc) = value_of pc.
Proof. by destruct pc as [|[]|[]| | | | | |]. Qed.

Lemma send_token_waiting w s pc :
  threads s !! w = Some pc -> waiting pc = true -> send_token w s = Some (set_pc w (token pc) s).
Proof. intros E H. unfold send_token. rewrite E. by destruct pc as [|[]|[]| | | | | |]. Qed.

(** Goroutine [w] leaves the wait lists with a token. *)
Lemma woken_inv d d' s w pc W T :
  pool_inv_plus d s -> threads s !! w = Some pc -> waiting pc = true ->
  waiters s ++ towake s ≡ₚ w :: W ++ T -> (forall t, t ∈ W -> t ∈ waiters s) -> (forall t, t ∈ T -> t ∈ towake s) ->
  (if p_closed s then W = [] else T = []) -> d <= d' + 1 ->
  pool_inv_plus d' (set_pc w (token pc) (set_towake T (set_waiters W s))).
Proof.
  intros [H1 H2 H3 H4 H5 H6 H7 H8 H9] Ew Hw HP HW HT Hcl Hd.
  destruct (token_spec pc Hw) as (Hk1 & Hk2 & Hk3 & Hk4 & Hk5).
  rewrite HP in H1. apply list.NoDup_cons in H1 as [Hnin Hnd].
  assert (Hne : forall t, t ∈ W \/ t ∈ T -> w <> t) by (intros t Ht <-; apply Hnin, elem_of_app, Ht).
  constructor; simpl; try done.
  - intros t Ht. rewrite list_lookup_insert_ne by (apply Hne; by left). by apply H2, HW.
  - intros t pc' Ht Hpc'. apply list_lookup_insert_Some in Ht as [(_ & <- & _)|[Hwt Ht]]; [congruence|].
    apply elem_of_app. pose proof (H3 _ _ Ht Hpc') as Hin. apply elem_of_app in Hin. rewrite HP in Hin.
    apply elem_of_cons in Hin as [->|Hin]; done.
  - intros t Ht. rewrite list_lookup_insert_ne by (apply Hne; by right). by apply H4, HT.
  - destruct (p_closed s); destruct H5; done.
  - by rewrite (countb_insert _ _ _ _ _ Ew), Hk4, Z.sub_add.
  - intros HWne. unfold available in *. simpl. rewrite (countb_insert _ _ _ _ _ Ew), Hk2, Hk3.
    assert (waiters s <> []) as Hne'. { destruct W as [|u W]; [done|]. intros E. specialize (HW u). rewrite E in HW.
      apply not_elem_of_nil with u, HW. left. }
    specialize (H8 Hne'). lia.
  - unfold all_values in *. simpl. destruct (held_split _ _ _ Ew) as (others & E1 & E2). rewrite (E2 (token pc)), Hk5, <- E1. done.
Qed.

Lemma wake_inv s : pool_inv_plus 1 s -> exists s', wakeLocked s = Some s' /\ pool_inv s'.
Proof.
  intros H. unfold wakeLocked. destruct (waiters s) as [|w rest] eqn:Ew.
  - exists s. split; [done|]. destruct H. constructor; try done; by rewrite Ew.
  - destruct (pi_waiters _ _ H w ltac:(rewrite Ew; left)) as (pc & Epc & Hpc).
    rewrite (send_token_waiting w (set_waiters rest s) pc) by done. eexists. split; [reflexivity|].
    assert (Hcl : p_closed s = false).
    { pose proof (pi_closed _ _ H) as Hc. destruct (p_closed s); [|done]. destruct Hc as [Hc _]. congruence. }
    assert (Ht : towake s = []) by (pose proof (pi_closed _ _ H) as Hc; rewrite Hcl in Hc; tauto).
    pose proof (woken_inv 1 0 s w pc rest (towake s) H Epc Hpc) as Hinv. rewrite Ew, Ht, Hcl in Hinv.
    rewrite <- Ht in Hinv. unfold pool_inv. unfold set_towake, set_pc, set_waiters in *. simpl in *. rewrite Ht in *.
    apply Hinv; try done. intros t Hin. by right.
Qed.

Lemma close_step_inv s : pool_inv s -> towake s <> [] \/ toclose s <> [] -> exists s', close_step s = Some s' /\ pool_inv s'.
Proof.
  intros H Hne. pose proof (pi_closed _ _ H) as Hc. unfold close_step.
  assert (Hcl : p_closed s = true) by (destruct (p_closed s); [done|]; destruct Hc as [E1 E2]; rewrite E1, E2 in Hne; by destruct Hne). rewrite Hcl in Hc. destruct Hc as [Hw Hi].
  destruct (towake s) as [|w rest] eqn:Et.
  - destruct (toclose s) as [|v rest] eqn:Ec; [by destruct Hne|]. eexists. split; [reflexivity|]. destruct H as [H1 H2 H3 H4 H5 H6 H7 H8 H9].
    constructor; simpl; rewrite ?Hcl; try done. unfold all_values in *. simpl. rewrite Ec in H9.
    assert (Ep : rest ++ dead s ++ [v] ≡ₚ (v :: rest) ++ dead s) by (rewrite app_assoc; by rewrite <- Permutation_cons_append).
    by rewrite Ep.
  - destruct (pi_towake _ _ H w ltac:(rewrite Et; left)) as (pc & Epc & [Hpc| ->]).
    + rewrite (send_token_waiting w (set_towake rest s) pc) by done. eexists. split; [reflexivity|].
      pose proof (woken_inv 0 0 s w pc [] rest H Epc Hpc) as Hinv. rewrite Hw, Et, Hcl in Hinv.
      unfold pool_inv, set_towake, set_pc, set_waiters in *. simpl in *. rewrite Hw.
      apply Hinv; try done; try lia. intros t Ht. by right.
    + unfold send_token. simpl. rewrite Epc. eexists. split; [reflexivity|]. destruct H as [H1 H2 H3 H4 H5 H6 H7 H8 H9].
      rewrite Hw, Et in H1. simpl in H1. apply list.NoDup_cons in H1 as [_ H1].
      constructor; simpl; rewrite ?Hw; simpl; try done.
      * intros t Ht. by apply not_elem_of_nil in Ht.
      * intros t pc' Ht Hpc'. destruct (H3 t pc' Ht Hpc') as [Hin|Hin]; [rewrite Hw in Hin; by left|].
        rewrite Et in Hin. apply elem_of_cons in Hin as [->|Hin]; [simplify_eq; done|by right].
      * intros t Ht. apply H4. rewrite Et. by right.
      * by rewrite Hcl.
Qed.

Lemma get_inv s t x :
  pool_inv s -> threads s !! t = Some x -> x = PIdle \/ x = PWait true -> pool_inv (get_section t s).
Proof.
  intros H Et Hx. assert (Hwx : waiting x = false /\ owns x = false /\ value_of x = [])
    by (destruct Hx as [->| ->]; done). destruct Hwx as (Hwx & Hox & Hvx). unfold get_section.
  assert (Htw : forall y, p_closed s = false -> t ∈ towake s -> y = PIdle).
  { intros y Hcl Hin. pose proof (pi_closed _ _ H) as Hc. rewrite Hcl in Hc. destruct Hc as [Hc _]. rewrite Hc in Hin.
    by apply not_elem_of_nil in Hin. }
  destruct (p_closed s) eqn:Hcl.
  - (* closed: the call returns; nobody waits on *)
    pose proof (pi_closed _ _ H) as Hc. rewrite Hcl in Hc. destruct Hc as [Hw Hi].
    assert (H1 : pool_inv_plus 1 (set_pc t PIdle s)).
    { unfold set_pc. eapply (move_inv 0 1 s t x PIdle); rewrite ?Hox, ?Hvx; simpl;
        first [done | lia | apply (pi_max _ _ H) | (intros _; exact Hi) | by destruct Hx as [->| ->]; simpl; lia]. }
    destruct H1. constructor; try done; simpl; by rewrite Hw.
  - destruct (list.last (idle s)) as [v|] eqn:El.
    + apply last_Some in El as [l' El]. rewrite El, length_app. simpl. rewrite Nat.add_sub, take_app_length.
      unfold set_pc, set_values. simpl.
      eapply (move_inv 0 0 s t x (PHas v)); rewrite ?Hox, ?Hvx, ?El, ?length_app; simpl;
        first [done | lia | by apply Htw | apply (pi_max _ _ H) | congruence | by destruct Hx as [->| ->]; simpl; lia
              | by intros rest; rewrite <- app_assoc].
    + destruct (Z.ltb_spec (p_n s) (p_max s)) as [Hlt|Hge].
      * unfold set_pc, set_values. simpl.
        eapply (move_inv 0 0 s t x PDial); rewrite ?Hox, ?Hvx; simpl;
          first [done | lia | by apply Htw | congruence | by destruct Hx as [->| ->]; simpl; lia].
      * apply last_None in El. destruct H as [H1 H2 H3 H4 H5 H6 H7 H8 H9]. rewrite Hcl in H5. destruct H5 as [H5 H5'].
        assert (Hnin : t ∉ waiters s) by (intros Hin; destruct (H2 t Hin) as (pc & E1 & E2); congruence).
        constructor; simpl; rewrite ?H5, ?app_nil_r, ?Hcl; try done.
        -- rewrite H5, app_nil_r in H1. apply list.NoDup_app. split_and!; [done| |apply NoDup_singleton].
           intros u Hu Hu'. apply list_elem_of_singleton in Hu'. congruence.
        -- intros u Hu. apply elem_of_app in Hu as [Hu|Hu].
           ++ rewrite list_lookup_insert_ne by (intros ->; done). by apply H2.
           ++ apply list_elem_of_singleton in Hu as ->. exists (PWait false). rewrite list_lookup_insert_eq by (by eapply lookup_lt_Some). done.
        -- intros u pc Hu Hpc. left. apply elem_of_app.
           apply list_lookup_insert_Some in Hu as [(-> & _ & _)|[_ Hu]]; [right; by left|].
           left. destruct (H3 _ _ Hu Hpc) as [?|Hin]; [done|]. rewrite H5 in Hin. by apply not_elem_of_nil in Hin.
        -- intros u Hu. by apply not_elem_of_nil in Hu.
        -- by rewrite (countb_insert _ _ _ _ _ Et), Hox, Z.sub_0_r, Z.add_0_r.
        -- intros _. unfold available. simpl. rewrite El. simpl. pose proof (countb_nonneg woken (<[t:=PWait false]> (threads s))). lia.
        -- unfold all_values in *. simpl. destruct (held_split _ _ _ Et) as (others & E1 & E2).
           rewrite (E2 (PWait false)). rewrite Hvx in E1. simpl in *. by rewrite <- E1.
Qed.

(** What a goroutine can do, apart from sends that would block. *)
Definition enabled (pc : pool_pc) (mv : pool_move) : bool :=
  match pc, mv with
  | PWait _, CtxDone | PDial, DialFails | PHas _, DoPut | PHas _, DoDiscard => true
  | PWait false, Proceed | PHas _, Proceed => false
  | _, Proceed => true
  | _, _ => false
  end.

(** A goroutine that waits is not the actor of the other operations. *)
Lemma not_towake s t x : pool_inv s -> threads s !! t = Some x -> waiting x = false -> x <> PIdle -> t ∉ towake s.
Proof.
  intros H Et Hw Hne Hin. destruct (pi_towake _ _ H t Hin) as (pc & Epc & [Hpc| ->]); congruence.
Qed.

(** Giving up a wait; the wake-up, if one came, is passed on. *)
Lemma cancel_inv s t x :
  pool_inv s -> threads s !! t = Some x -> (exists b, x = PCancel b) -> exists s', cancel_section t s = Some s' /\ pool_inv s'.
Proof.
  intros H Et [b ->]. unfold cancel_section, removeWaiter.
  destruct (bool_decide (t ∈ waiters s)) eqn:Ein.
  - apply bool_decide_eq_true in Ein. eexists. split; [reflexivity|]. destruct H as [H1 H2 H3 H4 H5 H6 H7 H8 H9].
    destruct (H2 t Ein) as (pc & Epc & Hpc). simplify_eq. assert (b = false) as -> by (by destruct b).
    assert (Hcl : p_closed s = false) by (destruct (p_closed s); [|done]; destruct H5 as [H5 _]; rewrite H5 in Ein; by apply not_elem_of_nil in Ein).
    rewrite Hcl in H5. destruct H5 as [H5 H5'].
    constructor; simpl; rewrite ?H5, ?app_nil_r, ?Hcl; try done.
    + apply list.NoDup_filter. by rewrite H5, app_nil_r in H1.
    + intros u Hu. apply list_elem_of_filter in Hu as [Hne Hu]. rewrite list_lookup_insert_ne by done. by apply H2.
    + intros u pc' Hu Hpc'. apply list_lookup_insert_Some in Hu as [(_ & <- & _)|[Hne Hu]]; [done|]. left.
      apply list_elem_of_filter. split; [done|]. destruct (H3 _ _ Hu Hpc') as [?|Hin]; [done|].
      rewrite H5 in Hin. by apply not_elem_of_nil in Hin.
    + intros u Hu. by apply not_elem_of_nil in Hu.
    + by rewrite (countb_insert _ _ _ _ _ Et), Z.sub_0_r, Z.add_0_r.
    + intros Hne. unfold available in *. simpl. rewrite (countb_insert _ _ _ _ _ Et). simpl.
      assert (waiters s <> []) by (intros E; rewrite E in Ein; by apply not_elem_of_nil in Ein). specialize (H8 ltac:(done)). lia.
    + unfold all_values in *. simpl. destruct (held_split _ _ _ Et) as (others & E1 & E2).
      rewrite (E2 PIdle). simpl in *. by rewrite <- E1.
  - apply bool_decide_eq_false in Ein.
    assert (Ew : filter (fun x => x <> t) (waiters s) = waiters s).
    { clear -Ein. induction (waiters s) as [|u l IH]; [done|]. rewrite not_elem_of_cons in Ein. destruct Ein as [Hne Hin].
      rewrite filter_cons_True by congruence. by rewrite IH. }
    assert (Es : set_waiters (filter (fun x => x <> t) (waiters s)) s = s) by (rewrite Ew; by destruct s).
    rewrite Es. destruct b.
    + apply wake_inv. unfold set_pc.
      eapply (move_inv 0 1 s t (PCancel true) PIdle); simpl;
        first [done | lia | apply (pi_max _ _ H) | idtac].
      intros Hcl. pose proof (pi_closed _ _ H) as Hc. rewrite Hcl in Hc. tauto.
    + (* woken by Close, which has not sent the token yet *)
      destruct (pi_waiting _ _ H t _ Et eq_refl) as [Hin|Hin]; [done|].
      assert (Hcl : p_closed s = true).
      { pose proof (pi_closed _ _ H) as Hc. destruct (p_closed s); [done|]. destruct Hc as [Hc _]. rewrite Hc in Hin.
        by apply not_elem_of_nil in Hin. }
      apply wake_inv. destruct H as [H1 H2 H3 H4 H5 H6 H7 H8 H9]. rewrite Hcl in H5. destruct H5 as [H5 H5'].
      constructor; simpl; rewrite ?Hcl; try done.
      * intros u Hu. rewrite H5 in Hu. by apply not_elem_of_nil in Hu.
      * intros u pc' Hu Hpc'. apply list_lookup_insert_Some in Hu as [(_ & <- & _)|[Hne Hu]]; [done|]. by eapply H3.
      * intros u Hu. destruct (decide (t = u)) as [<-|Hne].
        -- exists PIdle. rewrite list_lookup_insert_eq by (by eapply lookup_lt_Some). auto.
        -- rewrite list_lookup_insert_ne by done. by apply H4.
      * by rewrite (countb_insert _ _ _ _ _ Et), Z.sub_0_r, Z.add_0_r.
      * unfold all_values in *. simpl. destruct (held_split _ _ _ Et) as (others & E1 & E2).
        rewrite (E2 PIdle). simpl in *. by rewrite <- E1.
Qed.

(** Every goroutine can take its step, and the invariant holds after it. *)
Lemma pool_thread_inv s t pc mv :
  pool_inv s -> threads s !! t = Some pc -> enabled pc mv = true -> exists s', pool_thread t mv s = Some s' /\ pool_inv s'.
Proof.
  intros H Et Hen. unfold pool_thread. rewrite Et.
  assert (Hcl : p_closed s = true -> idle s = []) by (intros Hcl; pose proof (pi_closed _ _ H) as Hc; rewrite Hcl in Hc; tauto).
  assert (Htw : waiting pc = false -> pc <> PIdle -> forall y, t ∈ towake s -> y = PIdle).
  { intros Hw Hne y Hin. by apply (not_towake s t pc) in Hin. }
  pose proof (pi_max _ _ H) as Hmax.
  (* the step leaves everything but the actor's point, and maybe n, as it is *)
  assert (Hmove : forall d' y n', waiting pc = false -> pc <> PIdle -> waiting y = false -> value_of y = value_of pc ->
    n' = p_n s + ((if owns y then 1 else 0) - (if owns pc then 1 else 0)) -> n' <= p_max s ->
    - n' - (if woken y then 1 else 0) - d' <= - p_n s - (if woken pc then 1 else 0) ->
    pool_inv_plus d' (set_pc t y (set_values (idle s) n' s))).
  { intros d' y n' Hw Hne Hy Hv Hn Hm Hd. unfold set_pc, set_values. simpl.
    eapply (move_inv 0 d' s t pc y); try done; try lia; [by apply Htw|]. intros rest. by rewrite Hv. }
  destruct pc as [|w|w| | |v|v|v|], mv; try done; try (destruct w; try done).
  - eexists. split; [reflexivity|]. eapply get_inv; eauto.
  - eexists. split; [reflexivity|]. eapply get_inv; eauto.
  - eexists. split; [reflexivity|]. specialize (Hmove 0 (PCancel true) (p_n s)). unfold set_values in Hmove.
    destruct s; simpl in *. apply Hmove; simpl; done || lia.
  - (* a waiter that has no token yet *)
    eexists. split; [reflexivity|]. destruct H as [H1 H2 H3 H4 H5 H6 H7 H8 H9].
    constructor; simpl; try done.
    + intros u Hu. destruct (decide (t = u)) as [<-|Hne]; [|rewrite list_lookup_insert_ne by done; by apply H2].
      exists (PCancel false). by rewrite list_lookup_insert_eq by (by eapply lookup_lt_Some).
    + intros u pc' Hu Hpc'. apply list_lookup_insert_Some in Hu as [(-> & _ & _)|[Hne Hu]]; [by eapply H3|by eapply H3].
    + intros u Hu. destruct (decide (t = u)) as [<-|Hne]; [|rewrite list_lookup_insert_ne by done; by apply H4].
      exists (PCancel false). rewrite list_lookup_insert_eq by (by eapply lookup_lt_Some). auto.
    + by rewrite (countb_insert _ _ _ _ _ Et), Z.sub_0_r, Z.add_0_r.
    + rewrite (countb_insert _ _ _ _ _ Et), Z.sub_0_r, Z.add_0_r. apply H8.
    + unfold all_values in *. simpl. destruct (held_split _ _ _ Et) as (others & E1 & E2).
      rewrite (E2 (PCancel false)). simpl in *. by rewrite <- E1.
  - eapply cancel_inv; eauto.
  - eapply cancel_inv; eauto.
  - eexists. split; [reflexivity|]. unfold set_pc. simpl.
    eapply (move_inv 0 0 s t PDial (PDialed (fresh_value s))); simpl; try done; try lia; [by apply Htw|].
    intros rest Hnd Hlt. split.
    + rewrite <- Permutation_middle. constructor; [|done]. intros Hin. apply (proj1 (list.Forall_forall _ _) Hlt) in Hin. lia.
    + rewrite <- Permutation_middle. constructor; [lia|]. eapply Forall_impl; [|exact Hlt]. simpl. lia.
  - eexists. split; [reflexivity|]. specialize (Hmove 0 PDialFailed (p_n s)). unfold set_values in Hmove.
    destruct s; simpl in *. apply Hmove; simpl; done || lia.
  - unfold free_slot. apply wake_inv. apply Hmove; simpl; done || lia.
  - eexists. split; [reflexivity|]. specialize (Hmove 0 (if p_closed s then PDiscard v else PHas v) (p_n s)).
    unfold set_values in Hmove. destruct s as [? ? ? []]; simpl in *; apply Hmove; simpl; done || lia.
  - unfold Put. destruct (p_closed s) eqn:Ec; simpl.
    + eexists. split; [reflexivity|]. specialize (Hmove 0 (PDiscard v) (p_n s)). unfold set_values in Hmove.
      destruct s; simpl in *. apply Hmove; simpl; done || lia.
    + apply wake_inv. unfold set_pc, set_values. simpl.
      eapply (move_inv 0 1 s t (PHas v) PIdle); simpl; rewrite ?length_app; simpl; try done; try lia; try congruence.
      intros rest. by rewrite <- app_assoc.
  - eexists. split; [reflexivity|]. specialize (Hmove 0 (PDiscard v) (p_n s)). unfold set_values in Hmove.
    destruct s; simpl in *. apply Hmove; simpl; done || lia.
  - eexists. split; [reflexivity|]. unfold set_pc, set_dead. simpl.
    eapply (move_inv 0 0 s t (PDiscard v) PDiscarded); simpl; try done; try lia; [by apply Htw|].
    intros rest. assert (Ep : (dead s ++ [v]) ++ rest ≡ₚ v :: dead s ++ rest) by (rewrite <- app_assoc; simpl; symmetry; apply Permutation_middle).
    by rewrite Ep.
  - unfold free_slot. apply wake_inv. apply Hmove; simpl; done || lia.
Qed.

Lemma pool_Close_inv s : pool_inv s -> pool_inv (Close s).
Proof.
  intros H. unfold Close. destruct (p_closed s) eqn:Hcl; [done|]. destruct H as [H1 H2 H3 H4 H5 H6 H7 H8 H9].
  rewrite Hcl in H5. destruct H5 as [H5 H5']. constructor; simpl; try done.
  - by rewrite H5, app_nil_r in H1.
  - intros t Ht. by apply not_elem_of_nil in Ht.
  - intros t pc Ht Hpc. right. destruct (H3 _ _ Ht Hpc) as [?|Hin]; [done|]. rewrite H5 in Hin. by apply not_elem_of_nil in Hin.
  - intros t Ht. destruct (H2 t Ht) as (pc & Epc & Hpc). exists pc. auto.
  - lia.
  - lia.
  - unfold all_values in *. simpl. rewrite H5' in H9. simpl in H9.
    assert (Ep : held_values (threads s) ++ idle s ++ dead s ≡ₚ idle s ++ held_values (threads s) ++ dead s)
      by apply Permutation_app_swap_app. by rewrite Ep.
Qed.

Lemma enabled_step s t pc mv s' : threads s !! t = Some pc -> pool_thread t mv s = Some s' -> enabled pc mv = true.
Proof. intros Et E. unfold pool_thread in E. rewrite Et in E. by destruct pc as [|[]|[]| | | | | |], mv. Qed.

Lemma pool_reachable max n s : rtc pool_step (NewPool max n) s -> pool_inv s.
Proof.
  intros H. assert (G : forall a b, rtc pool_step a b -> pool_inv a -> pool_inv b).
  { clear. induction 1 as [a|a b c Hab _ IH]; [done|]. intros Ha. apply IH. clear IH.
    revert Ha. destruct Hab as [s t mv s' E|s|s s' E]; intros Ha.
    - destruct (threads s !! t) as [pc|] eqn:Et; [|unfold pool_thread in E; rewrite Et in E; done].
      destruct (pool_thread_inv s t pc mv Ha Et (enabled_step _ _ _ _ _ Et E)) as (s1 & E1 & H1). congruence.
    - by apply pool_Close_inv.
    - destruct (close_step_inv s Ha) as (s1 & E1 & H1); [|congruence].
      unfold close_step in E. destruct (towake s); [|by left]. destruct (toclose s); [done|by right]. }
  eapply G; [exact H|]. clear H G. unfold NewPool.
  assert (Hc : forall p, p PIdle = false -> countb p (replicate n PIdle) = 0).
  { intros p Hp. induction n as [|n IH]; [done|]. simpl. by rewrite countb_cons, Hp. }
  assert (Hh : held_values (replicate n PIdle) = []) by (clear; induction n as [|n IH]; [done|exact IH]).
  constructor; simpl; try done.
  - constructor.
  - intros t Ht. by apply not_elem_of_nil in Ht.
  - intros t pc Ht Hpc. apply lookup_replicate in Ht as [-> _]. done.
  - intros t Ht. by apply not_elem_of_nil in Ht.
  - by rewrite Hc.
  - destruct (Z.ltb_spec max 1); lia.
  - unfold all_values. simpl. rewrite Hh. split; constructor.
Qed.

(** ** Properties *)

(** C34. A pool lends each value to one goroutine and loses no wake-up. In every
    state that any interleaving of Gets, Puts, Discards, dials, cancellations
    and Closes reaches: nobody ever blocks while it holds the mutex or wakes a
    waiter; the values in the pool, lent out or being opened are counted
    exactly and never exceed [max]; every value is idle, held by one goroutine
    or closed, and closed at most once; and a goroutine that waits without a
    wake-up while a value is idle, another could be dialed or the pool is
    closed is not forgotten: as many wake-ups as there is room are already on
    their way to other goroutines, which pass them on, or [Close] is about to
    wake it. *)
Theorem pool_safe (max : Z) (n : nat) (s : pool) (H : rtc pool_step (NewPool max n) s) :
  (forall t pc mv, threads s !! t = Some pc -> enabled pc mv = true -> is_Some (pool_thread t mv s)) /\
  (towake s <> [] \/ toclose s <> [] -> is_Some (close_step s)) /\
  p_n s = Z.of_nat (length (idle s)) + countb owns (threads s) /\ p_n s <= p_max s /\
  NoDup (idle s ++ held_values (threads s) ++ toclose s ++ dead s) /\
  (forall t, threads s !! t = Some (PWait false) ->
     if p_closed s then t ∈ towake s else available s <= countb woken (threads s)).
Proof.
  apply pool_reachable in H. split_and!.
  - intros t pc mv Et He. destruct (pool_thread_inv s t pc mv H Et He) as (s' & -> & _). by eexists.
  - intros Hne. destruct (close_step_inv s H Hne) as (s' & -> & _). by eexists.
  - apply (pi_count _ _ H).
  - apply (pi_max _ _ H).
  - apply (pi_values _ _ H).
  - intros t Et. pose proof (pi_closed _ _ H) as Hc. destruct (pi_waiting _ _ H t _ Et eq_refl) as [Hin|Hin].
    + assert (Hne : waiters s <> []) by (intros E; rewrite E in Hin; by apply not_elem_of_nil in Hin).
      destruct (p_closed s); [by destruct Hc|]. pose proof (pi_wake _ _ H Hne). lia.
    + destruct (p_closed s); [done|]. destruct Hc as [Hc _]. rewrite Hc in Hin. by apply not_elem_of_nil in Hin.
Qed.

(** Running a schedule of goroutine steps. *)
Fixpoint pool_run (l : list (nat * pool_move)) (s : pool) : option pool :=
  match l with [] => Some s | (t, mv) :: r => s' ← pool_thread t mv s; pool_run r s' end.

Lemma pool_run_reachable l : forall s s', pool_run l s = Some s' -> rtc pool_step s s'.
Proof.
  induction l as [|[t mv] l IH]; simpl; intros s s' E; [by simplify_eq; apply rtc_refl|].
  destruct (pool_thread t mv s) as [s1|] eqn:E1; simpl in E; [|done].
  eapply rtc_l; [by eapply ps_thread|by apply IH].
Qed.

(** One value: goroutine 0 holds it, 1 and 2 wait; 0 puts it back. *)
Lemma pool_safe_witness :
  exists s, pool_run [(0, Proceed); (0, Proceed); (0, Proceed); (1, Proceed); (2, Proceed); (0, DoPut)]%nat (NewPool 1 3) = Some s /\
    threads s = [PIdle; PWait true; PWait false] /\ available s <= countb woken (threads s).
Proof.
  destruct (pool_run _ (NewPool 1 3)) as [s|] eqn:E; [|vm_compute in E; discriminate].
  exists s. split; [reflexivity|]. pose proof (pool_run_reachable _ _ _ E) as Hr.
  assert (Ht : threads s = [PIdle; PWait true; PWait false] /\ p_closed s = false)
    by (vm_compute in E; injection E as <-; split; reflexivity). destruct Ht as [Ht Hc]. split; [exact Ht|].
  pose proof (pool_safe 1 3 s Hr) as (_ & _ & _ & _ & _ & Hw). specialize (Hw 2%nat). rewrite Ht, Hc in Hw.
  rewrite Ht. exact (Hw eq_refl).
Defined.
