(* ===== verification/Kill.v ===== *)
(** * Kill: ending a session under its owner's feet

    Models the gate of bindgen/rt/conn.go: [enter], [leave], [Kill] and
    [closeLink], one atomic access at a time. The owner of a session counts
    the spans in which it can touch link memory; [Kill], from any goroutine,
    sets a bit above the counts; whoever brings the counts to zero with the
    bit set closes the link, which unmaps the memory. The owner's own reason to
    close, [afterOp], is the move [Retire]: its condition that neither a request
    nor a response is open ([!txOpen && !rxOpen]) is that no span holds or takes
    a slot ([in_use] is zero), and [SelfClose] closes the link, possibly with a
    span still open. *)
From S2P Require Import Prelude.

Definition killedBit : Z := 2 ^ 62.

(** The owner: running; past the increment of [enter], with its result; past
    the decrement of [leave], with its result. *)
Inductive owner_pc := ORun | OEntered (g : Z) | OLeft (g : Z).

(** A call of [Kill]: not started; past the OR, with the old value; done. *)
Inductive kill_pc := KNew | KGot (old : Z) | KDone.

#[export] Instance kill_pc_eq_dec : EqDecision kill_pc.
Proof. solve_decision. Defined.

Record session := mkSession {
  gate : Z;
  owner : owner_pc;
  spans : Z;            (* spans the owner has open *)
  in_use : Z;            (* those of them in which it holds or takes a ring slot *)
  retired : bool;       (* the receive side died or the session was closed: no slot is touched any more *)
  killers : list kill_pc;
  link_closed : bool
}.

Definition new_session (kills : nat) : session := mkSession 0 ORun 0 0 false (replicate kills KNew) false.

(** What the owner does next: open a span, use memory in it, stop using it,
    close a span, retire, close the link itself ([afterOp], [Close]), or go on
    with [enter] or [leave]. *)
Inductive owner_move := Enter | Use | EndUse | Leave | Retire | SelfClose | Go.

Definition closeLink (s : session) : session :=
  mkSession (gate s) (owner s) (spans s) (in_use s) (retired s) (killers s) true.

(** One access of the owner. At most two spans are open: one for a request
    being built and one for a response being read. *)
Definition owner_step (mv : owner_move) (s : session) : option session :=
  match owner s, mv with
  | ORun, Enter =>
      if spans s <? 2 then
        let g := u64 (gate s + 1) in
        Some (mkSession g (OEntered g) (spans s) (in_use s) (retired s) (killers s) (link_closed s))
      else None
  | OEntered g, Go =>
      if negb (Z.land g killedBit =? 0) then
        let g := u64 (gate s - 1) in
        Some (mkSession g (OLeft g) (spans s) (in_use s) (retired s) (killers s) (link_closed s))
      else Some (mkSession (gate s) ORun (spans s + 1) (in_use s) (retired s) (killers s) (link_closed s))
  | ORun, Use =>
      if (in_use s <? spans s) && negb (retired s)
      then Some (mkSession (gate s) ORun (spans s) (in_use s + 1) (retired s) (killers s) (link_closed s)) else None
  | ORun, EndUse =>
      if 0 <? in_use s
      then Some (mkSession (gate s) ORun (spans s) (in_use s - 1) (retired s) (killers s) (link_closed s)) else None
  | ORun, Leave =>
      if in_use s <? spans s then
        let g := u64 (gate s - 1) in
        Some (mkSession g (OLeft g) (spans s - 1) (in_use s) (retired s) (killers s) (link_closed s))
      else None
  | OLeft g, Go =>
      let s1 := mkSession (gate s) ORun (spans s) (in_use s) (retired s) (killers s) (link_closed s) in
      Some (if g =? killedBit then closeLink s1 else s1)
  | ORun, Retire =>
      if in_use s =? 0
      then Some (mkSession (gate s) ORun (spans s) (in_use s) true (killers s) (link_closed s)) else None
  | ORun, SelfClose => if retired s then Some (closeLink s) else None
  | _, _ => None
  end.

(** One access of call [i] of [Kill]. *)
Definition kill_step (i : nat) (s : session) : option session :=
  match killers s !! i with
  | Some KNew =>
      Some (mkSession (Z.lor (gate s) killedBit) (owner s) (spans s) (in_use s) (retired s)
              (<[i := KGot (gate s)]> (killers s)) (link_closed s))
  | Some (KGot old) =>
      let s1 := mkSession (gate s) (owner s) (spans s) (in_use s) (retired s) (<[i := KDone]> (killers s)) (link_closed s) in
      Some (if and_not old killedBit =? 0 then closeLink s1 else s1)
  | _ => None
  end.

Inductive session_step : session -> session -> Prop :=
| se_owner s mv s' : owner_step mv s = Some s' -> session_step s s'
| se_kill s i s' : kill_step i s = Some s' -> session_step s s'.

(** ** Invariant *)

Definition killed (s : session) : bool := bool_decide (Exists (fun pc => pc <> KNew) (killers s)).

Definition entering (s : session) : Z := match owner s with OEntered _ => 1 | _ => 0 end.

Definition kbit (b : bool) : Z := if b then killedBit else 0.

(** The owner has no span, and gets none any more. *)
Definition shut_out (s : session) : Prop :=
  killed s = true /\ spans s = 0 /\ match owner s with OEntered g => Z.land g killedBit <> 0 | _ => True end.

Record session_inv (s : session) : Prop := {
  si_gate : gate s = spans s + entering s + kbit (killed s);
  si_spans : 0 <= spans s <= 2;
  si_one : forall g, owner s = OEntered g -> spans s < 2;
  si_using : 0 <= in_use s <= spans s;
  si_retired : retired s = true -> in_use s = 0;
  si_entered : forall g, owner s = OEntered g -> 0 <= g < 2 ^ 63 /\ (Z.land g killedBit <> 0 -> killed s = true);
  si_closed : link_closed s = true -> retired s = true \/ shut_out s;
  si_got : forall old, KGot old ∈ killers s -> and_not old killedBit = 0 -> shut_out s;
  si_left : forall g, owner s = OLeft g -> g = killedBit -> shut_out s;
  si_leak : killed s = true -> link_closed s = true \/ 0 < spans s + entering s \/
    (exists old, KGot old ∈ killers s /\ and_not old killedBit = 0) \/ owner s = OLeft killedBit
}.

Section Bits.
Implicit Types (c x : Z) (b : bool).

Lemma bit62 c b : 0 <= c < killedBit -> Z.testbit (c + kbit b) 62 = b.
Proof.
  intros H. unfold killedBit, kbit in *. destruct b.
  - apply Z.testbit_true; [lia|]. unfold killedBit. replace ((c + 2 ^ 62) / 2 ^ 62) with 1 by zlia. done.
  - apply Z.testbit_false; [lia|]. replace ((c + 0) / 2 ^ 62) with 0 by zlia. done.
Qed.

Lemma land_bit62 x : Z.land x killedBit = if Z.testbit x 62 then killedBit else 0.
Proof.
  apply Z.bits_inj'. intros i Hi. unfold killedBit. rewrite Z.land_spec, Z.pow2_bits_eqb by lia.
  destruct (Z.eqb_spec 62 i) as [<-|Hne].
  - destruct (Z.testbit x 62); [rewrite Z.pow2_bits_eqb by lia; done|by rewrite Z.bits_0].
  - rewrite andb_false_r. destruct (Z.testbit x 62); [|by rewrite Z.bits_0].
    rewrite Z.pow2_bits_eqb by lia. by rewrite (proj2 (Z.eqb_neq _ _) Hne).
Qed.

Lemma land_killed c b : 0 <= c < killedBit -> Z.land (c + kbit b) killedBit = kbit b.
Proof. intros H. rewrite land_bit62, bit62 by done. by destruct b. Qed.

Lemma and_not_killed c b : 0 <= c < killedBit -> and_not (c + kbit b) killedBit = c.
Proof.
  intros H. unfold and_not.
  assert (E : Z.ldiff (c + kbit b) killedBit = Z.ldiff (c + kbit b) (Z.land (c + kbit b) killedBit)).
  { apply Z.bits_inj'. intros i Hi. rewrite !Z.ldiff_spec, Z.land_spec. by destruct (Z.testbit (c + kbit b) i). }
  rewrite E, <- Z.sub_nocarry_ldiff; [rewrite land_killed by done; lia|].
  apply Z.bits_inj'. intros i Hi. rewrite Z.ldiff_spec, Z.land_spec, Z.bits_0. by destruct (Z.testbit (c + kbit b) i), (Z.testbit killedBit i).
Qed.

Lemma lor_killed c b : 0 <= c < killedBit -> Z.lor (c + kbit b) killedBit = c + killedBit.
Proof.
  intros H. assert (E : Z.lor (c + kbit b) killedBit = Z.lor (Z.ldiff (c + kbit b) killedBit) killedBit).
  { apply Z.bits_inj'. intros i Hi. rewrite !Z.lor_spec, Z.ldiff_spec. by destruct (Z.testbit (c + kbit b) i), (Z.testbit killedBit i). }
  change (Z.ldiff ?x ?y) with (and_not x y) in E. rewrite and_not_killed in E by done. rewrite E.
  assert (E0 : Z.land c killedBit = 0) by (rewrite <- (Z.add_0_r c); exact (land_killed c false H)).
  rewrite <- Z.lxor_lor by done. symmetry. by apply Z.add_nocarry_lxor.
Qed.

End Bits.

Lemma killed_insert s i old pc : killers s !! i = Some old -> pc <> KNew ->
  bool_decide (Exists (fun pc => pc <> KNew) (<[i := pc]> (killers s))) = true.
Proof.
  intros Hi Hpc. apply bool_decide_eq_true. apply Exists_exists. exists pc. split; [|done].
  apply list_elem_of_In. by eapply elem_insert_new.
Qed.

(** The gate as the accesses see it. *)
Lemma gate_small s : session_inv s -> 0 <= spans s + entering s <= 3 /\ word 64 (gate s) /\
  u64 (gate s + 1) = spans s + entering s + 1 + kbit (killed s).
Proof.
  intros [Hg Hs _ _ _ _ _ _ _ _]. assert (0 <= entering s <= 1) by (unfold entering; destruct (owner s); lia).
  assert (0 <= kbit (killed s) <= 2 ^ 62) by (unfold kbit, killedBit; destruct (killed s); lia).
  split_and!; try lia; [unfold word; lia|]. rewrite u64_small by (unfold word; lia). lia.
Qed.

Lemma shut_out_run s s' : shut_out s -> killers s' = killers s -> spans s' = spans s -> owner s' = ORun -> shut_out s'.
Proof. intros (Hk & Hs & _) E1 E2 E3. unfold shut_out, killed. rewrite E1, E2, E3. by split_and!. Qed.

Lemma owner_inv s mv s' : session_inv s -> owner_step mv s = Some s' -> session_inv s'.
Proof.
  intros H E. pose proof (gate_small s H) as (Hc & Hw & Hu). pose proof H as [Hg Hs H1 Hus Hr He Hcl Hgot Hl Hk].
  assert (Hkb : forall c, 0 <= c <= 4 -> 0 <= c < killedBit) by (unfold killedBit; lia).
  unfold owner_step, entering in *. destruct (owner s) as [|g|g] eqn:Eo; destruct mv; try done.
  - (* Enter *)
    destruct (Z.ltb_spec (spans s) 2); [|done]. simplify_eq.
    constructor; simpl; unfold entering, killed in *; simpl; try done; try lia.
    + intros g Hx. simplify_eq. rewrite Hu. split; [unfold kbit, killedBit; destruct (bool_decide _); lia|].
      rewrite land_killed by (apply Hkb; lia). by destruct (bool_decide _).
    + intros Hx. destruct (Hcl Hx) as [|(Hk1 & Hk2 & _)]; [by left|right]. split_and!; try done. simpl.
      rewrite Hu, land_killed by (apply Hkb; lia). unfold killed in *. rewrite Hk1. done.
    + intros old Hx Ho. destruct (Hgot old Hx Ho) as (Hk1 & Hk2 & _). split_and!; try done. simpl.
      rewrite Hu, land_killed by (apply Hkb; lia). unfold killed in *. rewrite Hk1. done.
  - (* Use *)
    destruct (_ && _) eqn:Eb; simplify_eq. breflect.
    constructor; simpl; unfold entering, killed in *; simpl; rewrite ?Eo; try done; try lia; [congruence|..].
    all: try (intros Hx; destruct (Hcl Hx) as [?|Hso]; [by left|right; by eapply shut_out_run]).
    all: intros old Hx Ho; by eapply shut_out_run; [exact (Hgot old Hx Ho)|..].
  - (* EndUse *)
    destruct (Z.ltb_spec 0 (in_use s)); simplify_eq.
    constructor; simpl; unfold entering, killed in *; simpl; rewrite ?Eo; try done; try lia; [intros Hx; specialize (Hr Hx); lia|..].
    all: try (intros Hx; destruct (Hcl Hx) as [?|Hso]; [by left|right; by eapply shut_out_run]).
    all: intros old Hx Ho; by eapply shut_out_run; [exact (Hgot old Hx Ho)|..].
  - (* Leave *)
    destruct (Z.ltb_spec (in_use s) (spans s)); simplify_eq.
    rewrite u64_small in * by (unfold word, kbit, killedBit in *; destruct (killed s); lia).
    constructor; simpl; unfold entering, killed in *; simpl; try done; try lia.
    + intros Hx. destruct (Hcl Hx) as [|(Hk1 & Hk2 & _)]; [by left|lia].
    + intros old Hx Ho. destruct (Hgot old Hx Ho) as (Hk1 & Hk2 & _). lia.
    + intros g Hx Hg0. simplify_eq. unfold shut_out, killed, kbit, killedBit in *. simpl.
      destruct (bool_decide _); [|lia]. split_and!; [done|lia|done].
    + intros Hx. destruct (decide (spans s = 1)) as [E1|]; [|right; left; lia].
      right. right. right. f_equal. rewrite Hg, E1. unfold kbit. rewrite Hx. lia.
  - (* Retire *)
    destruct (Z.eqb_spec (in_use s) 0); simplify_eq. constructor; simpl; unfold entering, killed in *; simpl; rewrite ?Eo; try done; try lia; try (by left).
    all: intros old Hx Ho; by eapply shut_out_run; [exact (Hgot old Hx Ho)|..].
  - (* SelfClose *)
    destruct (retired s) eqn:Er; simplify_eq. constructor; simpl; unfold entering, killed in *; simpl; rewrite ?Eo, ?Er; try done; try lia; try by left.
    all: intros old Hx Ho; by eapply shut_out_run; [exact (Hgot old Hx Ho)|..].
  - (* the rest of enter *)
    destruct (He g eq_refl) as [Hg0 Hgk]. specialize (H1 g eq_refl). destruct (Z.eqb_spec (Z.land g killedBit) 0) as [Ez|Ez]; simpl in E; simplify_eq.
    + constructor; simpl; unfold entering, killed in *; simpl; try done; try lia.
      * intros Hx. destruct (Hcl Hx) as [|(_ & _ & Hk3)]; [by left|]. rewrite Eo in Hk3. done.
      * intros old Hx Ho. destruct (Hgot old Hx Ho) as (_ & _ & Hk3). rewrite Eo in Hk3. done.
    + rewrite u64_small in * by (unfold word, kbit, killedBit in *; destruct (killed s); lia). specialize (Hgk Ez).
      constructor; simpl; unfold entering, killed in *; simpl; try done; try lia.
      * intros Hx. destruct (Hcl Hx) as [|(Hk1 & Hk2 & _)]; [by left|right]. by split_and!.
      * intros old Hx Ho. destruct (Hgot old Hx Ho) as (Hk1 & Hk2 & _). by split_and!.
      * intros g' Hx Hg1. simplify_eq. unfold shut_out, killed. rewrite Hgk in *. simpl in Hg. split_and!; [done| |done].
        unfold kbit in *. simpl. lia.
      * intros _. destruct (decide (spans s = 0)) as [E1|]; [|right; left; lia].
        right. right. right. f_equal. rewrite Hg, E1, Hgk. unfold kbit. lia.
  - (* the rest of leave *)
    simplify_eq. destruct (Z.eqb_spec g killedBit) as [->|Hne]; unfold closeLink; simpl.
    + pose proof (Hl _ eq_refl eq_refl) as (Hk1 & Hk2 & _).
      constructor; simpl; unfold entering, killed in *; simpl; try done; try lia; try (by left).
      intros _. right. by split_and!.
    + constructor; simpl; unfold entering, killed in *; simpl; try done; try lia.
      * intros Hx. destruct (Hcl Hx) as [|(Hk1 & Hk2 & _)]; [by left|right]. by split_and!.
      * intros old Hx Ho. destruct (Hgot old Hx Ho) as (Hk1 & Hk2 & _). by split_and!.
      * intros Hx. destruct (Hk Hx) as [?|[?|[?|Hx']]]; [by left|right; left; lia|by right; right; left|]. congruence.
Qed.

Lemma kill_inv s i s' : session_inv s -> kill_step i s = Some s' -> session_inv s'.
Proof.
  intros H E. pose proof (gate_small s H) as (Hc & Hw & Hu). pose proof H as [Hg Hs H1 Hus Hr He Hcl Hgot Hl Hk].
  assert (Hkb : 0 <= spans s + entering s < killedBit) by (unfold killedBit; lia).
  unfold kill_step in E. destruct (killers s !! i) as [[|old|]|] eqn:Ei; simplify_eq.
  - assert (Hk1 : bool_decide (Exists (fun pc => pc <> KNew) (<[i := KGot (gate s)]> (killers s))) = true)
      by (by eapply killed_insert).
    (* seen from now on as killed *)
    assert (Hso : shut_out s -> shut_out (mkSession (Z.lor (gate s) killedBit) (owner s) (spans s) (in_use s) (retired s)
              (<[i := KGot (gate s)]> (killers s)) (link_closed s))).
    { intros (_ & Hk2 & Hk3). by split_and!. }
    constructor; simpl; unfold entering, killed in *; simpl; rewrite ?Hk1; try done.
    + rewrite Hg, lor_killed by done. done.
    + intros g Hx. split; [by apply (He g Hx)|done].
    + intros Hx. destruct (Hcl Hx); [by left|right]. by apply Hso.
    + intros old Hx Ho. apply elem_insert_inv in Hx as [Hx|Hx]; [|by eapply Hso, Hgot]. simplify_eq.
      rewrite Hg, and_not_killed in Ho by done. 
      destruct (owner s) as [|g|g] eqn:Eo; [|exfalso; lia|]; split_and!; simpl; done || lia.
    + intros g Hx Hx'. by eapply Hso, Hl.
    + intros _. destruct (decide (spans s + match owner s with OEntered _ => 1 | _ => 0 end = 0)) as [E0|]; [|right; left; lia].
      right. right. left. exists (gate s). split; [by eapply elem_insert_new|]. rewrite Hg, and_not_killed by done. done.
  - assert (Hk1 : bool_decide (Exists (fun pc => pc <> KNew) (<[i := KDone]> (killers s))) = true)
      by (by eapply killed_insert).
    assert (Hk0 : killed s = true).
    { apply bool_decide_eq_true, Exists_exists. exists (KGot old). split; [|done]. apply list_elem_of_In. by eapply list_elem_of_lookup_2. }
    assert (Hin : forall o, KGot o ∈ <[i := KDone]> (killers s) -> KGot o ∈ killers s).
    { intros o Hx. by apply elem_insert_inv in Hx as [?|Hx]. }
    rewrite Hk0 in Hg.
    destruct (Z.eqb_spec (and_not old killedBit) 0) as [E0|E0]; unfold closeLink; simpl;
      constructor; simpl; unfold entering, killed, shut_out in *; simpl; rewrite ?Hk1; try done.
    + intros g Hx. split; [by apply (He g Hx)|done].
    + intros _. right. destruct (Hgot old) as (_ & Hk2 & Hk3); [by eapply list_elem_of_lookup_2|done|]. by split_and!.
    + intros o Hx Ho. destruct (Hgot o (Hin o Hx) Ho) as (_ & Hk2 & Hk3). by split_and!.
    + intros g Hx Hx'. destruct (Hl g Hx Hx') as (_ & Hk2 & Hk3). by split_and!.
    + by left.
    + intros g Hx. split; [by apply (He g Hx)|done].
    + intros Hx. destruct (Hcl Hx) as [?|(_ & Hk2 & Hk3)]; [by left|right]. by split_and!.
    + intros o Hx Ho. destruct (Hgot o (Hin o Hx) Ho) as (_ & Hk2 & Hk3). by split_and!.
    + intros g Hx Hx'. destruct (Hl g Hx Hx') as (_ & Hk2 & Hk3). by split_and!.
    + intros _. destruct (Hk Hk0) as [?|[?|[(o & Ho1 & Ho2)|?]]]; [by left|by right; left| |by right; right; right].
      right. right. left. exists o. split; [|done]. eapply elem_insert_keep; [done|done|]. congruence.
Qed.

Lemma session_reachable n s : rtc session_step (new_session n) s -> session_inv s.
Proof.
  intros H. assert (G : forall a b, rtc session_step a b -> session_inv a -> session_inv b).
  { clear. induction 1 as [a|a b c Hab _ IH]; [done|]. intros Ha. apply IH. destruct Hab; eauto using owner_inv, kill_inv. }
  eapply G; [exact H|]. clear.
  assert (Hk : killed (new_session n) = false).
  { apply bool_decide_eq_false. intros Hx. apply Exists_exists in Hx as (pc & Hin & Hne). apply list_elem_of_In in Hin.
    apply elem_of_replicate in Hin as [-> _]. done. }
  constructor; simpl; try done; try lia; try congruence.
  - unfold entering. simpl. by rewrite Hk.
  - intros old Hx. apply elem_of_replicate in Hx as [? _]. done.
Qed.

(** ** Properties *)

(** C35. [Kill] never takes memory from the owner, and never leaves a killed
    session open. Whatever the interleaving of the owner with any number of
    [Kill] calls: while the owner uses a slot, the link is not closed; once
    the session is killed the owner opens no new span; and when the owner has
    no span open and every [Kill] call has returned, the link is closed. The
    owner itself may close the link inside a span, after its last slot: [Close]
    and a call that finds the receive side dead do. *)
Theorem kill_safe (kills : nat) (s : session) (H : rtc session_step (new_session kills) s) :
  (0 < in_use s -> link_closed s = false) /\
  (forall s1 s2 g, killed s = true -> owner_step Enter s = Some s1 -> owner s1 = OEntered g ->
     owner_step Go s1 = Some s2 -> spans s2 = spans s /\ exists g', owner s2 = OLeft g') /\
  (killed s = true -> owner s = ORun -> spans s = 0 -> Forall (fun pc => pc = KNew \/ pc = KDone) (killers s) -> link_closed s = true).
Proof.
  apply session_reachable in H. pose proof (gate_small s H) as (Hc & _ & Hu). pose proof H as [Hg Hs H1 Hus Hr He Hcl Hgot Hl Hk].
  split_and!.
  - intros Hin. destruct (link_closed s); [|done]. destruct (Hcl eq_refl) as [Hx|(_ & Hx & _)]; [specialize (Hr Hx)|]; lia.
  - intros s1 s2 g Hkd E1 Eo E2. unfold owner_step in E1. destruct (owner s) eqn:Eow; [|done..].
    destruct (_ <? _); [|done]. simplify_eq. simpl in Eo. unfold owner_step in E2. simpl in E2.
    rewrite Hu, land_killed in E2 by (unfold killedBit; lia). rewrite Hkd in E2. simpl in E2. simplify_eq. simpl. split; [done|]. by eexists.
  - intros Hkd Eo Hsp Hall. destruct (Hk Hkd) as [?|[Hx|[(old & Hx & _)|Hx]]]; [done| | |congruence].
    + unfold entering in Hx. rewrite Eo in Hx. lia.
    + apply (proj1 (list.Forall_forall _ _) Hall) in Hx. by destruct Hx.
Qed.

(** Running a schedule: [None] for a step of the owner, [Some i] for one of
    call [i] of Kill. *)
Fixpoint session_run (l : list (owner_move + nat)) (s : session) : option session :=
  match l with
  | [] => Some s
  | inl mv :: r => s' ← owner_step mv s; session_run r s'
  | inr i :: r => s' ← kill_step i s; session_run r s'
  end.

Lemma session_run_reachable l : forall s s', session_run l s = Some s' -> rtc session_step s s'.
Proof.
  induction l as [|[mv|i] l IH]; simpl; intros s s' E; [by simplify_eq; apply rtc_refl|..].
  - destruct (owner_step mv s) as [s1|] eqn:E1; simpl in E; [|done]. eapply rtc_l; [by eapply se_owner|by apply IH].
  - destruct (kill_step i s) as [s1|] eqn:E1; simpl in E; [|done]. eapply rtc_l; [by eapply se_kill|by apply IH].
Qed.

(** The owner is killed inside a span; its [leave] closes the link. *)
Lemma kill_safe_witness :
  exists s1 s2, session_run [inl Enter; inl Go; inl Use; inr 0%nat; inr 0%nat] (new_session 1) = Some s1 /\ link_closed s1 = false /\
    session_run [inl EndUse; inl Leave; inl Go] s1 = Some s2 /\ link_closed s2 = true.
Proof.
  destruct (session_run [inl Enter; inl Go; inl Use; inr 0%nat; inr 0%nat] (new_session 1)) as [s1|] eqn:E1; [|vm_compute in E1; discriminate].
  destruct (session_run [inl EndUse; inl Leave; inl Go] s1) as [s2|] eqn:E2;
    [|vm_compute in E1; injection E1 as <-; vm_compute in E2; discriminate].
  exists s1, s2. split; [reflexivity|]. pose proof (session_run_reachable _ _ _ E1) as R1. pose proof (session_run_reachable _ _ _ E2) as R2.
  destruct (kill_safe 1 s1 R1) as (Hu & _ & _). assert (R3 : rtc session_step (new_session 1) s2) by (etrans; [exact R1|exact R2]). destruct (kill_safe 1 s2 R3) as (_ & _ & Hc).
  vm_compute in E1. injection E1 as <-. split; [apply Hu; reflexivity|]. split; [exact E2|].
  vm_compute in E2. injection E2 as <-. apply Hc; try reflexivity. constructor; [right; reflexivity|constructor].
Defined.
