(* ===== verification/Session.v ===== *)
(** * Session: one session of the bindgen runtime

    Models [Conn] of bindgen/rt/conn.go: building and committing requests,
    flow control, reading and reassembling responses, waiting, [Sync] and
    [Close]. A pointer to a [Call] is an index into the store of calls, a
    slice is the address of its array and its length, so recycled calls and
    buffers are shared as in the code. What the link does (a frame or an error
    for every [ReserveRead], a slot or an error for every [ReserveWrite], the
    deadlines, [Kill] on another goroutine) comes from a [world] that is
    consumed one outcome at a time; the gate itself is modelled in Kill.v. *)
From S2P Require Import Prelude Errors Protocol Codec.

(** ** Data *)

Definition keepBuf : Z := 2 ^ 20.
Definition maxFreeCalls : Z := 256.

Inductive rxMode := rxBuffer | rxHold | rxDiscard.

#[export] Instance rxMode_eq_dec : EqDecision rxMode.
Proof. solve_decision. Defined.

Record assembly := mkAsm { a_active : bool; a_id : Z; a_total : Z; a_got : Z }.

Definition no_asm : assembly := mkAsm false 0 0 0.

Record rfEntry := mkRf { rf_bound : Z; rf_rf : Z }.

(** A byte slice from the start of an array of the store, or of a ring slot
    that stays reserved. *)
Inductive bslice := SNil | SArr (a : nat) (n : Z) | SSlot (b : bytes).

(** A request being built. *)
Record Enc := mkEnc {
  e_op : Z; e_bodyLen : Z; e_respMax : Z; e_rf : Z; e_multi : bool;
  e_res : option error;    (* the reservation: what its Commit or Abort returns *)
  e_buf : bytes; e_body : bytes
}.

Record Call := mkCall {
  c_id : Z; c_op : Z; c_rf : Z; c_respMax : Z;
  c_pending : bool; c_done : bool; c_inPlace : bool;
  c_flags : Z; c_status : Z; c_msg : bytes; c_body : bslice; c_buf : bslice; c_idx : nat
}.

Definition new_call : Call := mkCall 0 0 0 0 false false false 0 0 [] SNil SNil 0.

Record pend := mkPend {
  unans : list (option nat);    (* the ring of the unanswered calls *)
  unansHd : nat;
  unansN : nat;
  unansRF : Z;    (* the response frames they may take *)
  live : list nat;    (* calls submitted and not yet waited for *)
  free : list nat;    (* calls to reuse *)
  asm : assembly;
  calls : list Call;    (* the Call objects; a pointer is an index *)
  arrs : list bytes    (* the arrays of their buffers *)
}.

Definition set_unans (v : list (option nat)) (p : pend) : pend :=
  mkPend v (unansHd p) (unansN p) (unansRF p) (live p) (free p) (asm p) (calls p) (arrs p).
Definition set_unansHd (v : nat) (p : pend) : pend :=
  mkPend (unans p) v (unansN p) (unansRF p) (live p) (free p) (asm p) (calls p) (arrs p).
Definition set_unansN (v : nat) (p : pend) : pend :=
  mkPend (unans p) (unansHd p) v (unansRF p) (live p) (free p) (asm p) (calls p) (arrs p).
Definition set_unansRF (v : Z) (p : pend) : pend :=
  mkPend (unans p) (unansHd p) (unansN p) v (live p) (free p) (asm p) (calls p) (arrs p).
Definition set_live (v : list nat) (p : pend) : pend :=
  mkPend (unans p) (unansHd p) (unansN p) (unansRF p) v (free p) (asm p) (calls p) (arrs p).
Definition set_free (v : list nat) (p : pend) : pend :=
  mkPend (unans p) (unansHd p) (unansN p) (unansRF p) (live p) v (asm p) (calls p) (arrs p).
Definition set_asm (v : assembly) (p : pend) : pend :=
  mkPend (unans p) (unansHd p) (unansN p) (unansRF p) (live p) (free p) v (calls p) (arrs p).
Definition set_calls (v : list Call) (p : pend) : pend :=
  mkPend (unans p) (unansHd p) (unansN p) (unansRF p) (live p) (free p) (asm p) v (arrs p).
Definition set_arrs (v : list bytes) (p : pend) : pend :=
  mkPend (unans p) (unansHd p) (unansN p) (unansRF p) (live p) (free p) (asm p) (calls p) v.

Record conn := mkConn {
  lim : Limits;
  nops : Z;    (* the number of functions of the interface *)
  chunk : Z;
  callTimeout : Z;
  last_id : Z;    (* the field nextID: the ID of the last committed request *)
  txOpen : bool;
  rxOpen : bool;
  enc : Enc;
  rxHeld : bool;
  rxRes : option rterr;    (* the held reservation: what its Release returns *)
  rxGen : Z;
  rdArmed : bool;
  pd : pend;    (* the fields about the calls *)
  rfs : list rfEntry;    (* by function *)
  scratch : bytes;
  broken : option rterr;
  rxDead : bool;
  closed : bool;
  closeRes : option rterr;
  spans : nat;    (* the counts of the gate *)
  link_closed : bool    (* closeOnce has run *)
}.

Definition set_last_id (v : Z) (c : conn) : conn :=
  mkConn (lim c) (nops c) (chunk c) (callTimeout c) v (txOpen c) (rxOpen c) (enc c) (rxHeld c) (rxRes c)
    (rxGen c) (rdArmed c) (pd c) (rfs c) (scratch c) (broken c) (rxDead c) (closed c) (closeRes c) (spans c)
    (link_closed c).
Definition set_txOpen (v : bool) (c : conn) : conn :=
  mkConn (lim c) (nops c) (chunk c) (callTimeout c) (last_id c) v (rxOpen c) (enc c) (rxHeld c) (rxRes c)
    (rxGen c) (rdArmed c) (pd c) (rfs c) (scratch c) (broken c) (rxDead c) (closed c) (closeRes c) (spans c)
    (link_closed c).
Definition set_rxOpen (v : bool) (c : conn) : conn :=
  mkConn (lim c) (nops c) (chunk c) (callTimeout c) (last_id c) (txOpen c) v (enc c) (rxHeld c) (rxRes c)
    (rxGen c) (rdArmed c) (pd c) (rfs c) (scratch c) (broken c) (rxDead c) (closed c) (closeRes c) (spans c)
    (link_closed c).
Definition set_enc (v : Enc) (c : conn) : conn :=
  mkConn (lim c) (nops c) (chunk c) (callTimeout c) (last_id c) (txOpen c) (rxOpen c) v (rxHeld c) (rxRes c)
    (rxGen c) (rdArmed c) (pd c) (rfs c) (scratch c) (broken c) (rxDead c) (closed c) (closeRes c) (spans c)
    (link_closed c).
Definition set_rxHeld (v : bool) (c : conn) : conn :=
  mkConn (lim c) (nops c) (chunk c) (callTimeout c) (last_id c) (txOpen c) (rxOpen c) (enc c) v (rxRes c)
    (rxGen c) (rdArmed c) (pd c) (rfs c) (scratch c) (broken c) (rxDead c) (closed c) (closeRes c) (spans c)
    (link_closed c).
Definition set_rxRes (v : option rterr) (c : conn) : conn :=
  mkConn (lim c) (nops c) (chunk c) (callTimeout c) (last_id c) (txOpen c) (rxOpen c) (enc c) (rxHeld c) v
    (rxGen c) (rdArmed c) (pd c) (rfs c) (scratch c) (broken c) (rxDead c) (closed c) (closeRes c) (spans c)
    (link_closed c).
Definition set_rxGen (v : Z) (c : conn) : conn :=
  mkConn (lim c) (nops c) (chunk c) (callTimeout c) (last_id c) (txOpen c) (rxOpen c) (enc c) (rxHeld c)
    (rxRes c) v (rdArmed c) (pd c) (rfs c) (scratch c) (broken c) (rxDead c) (closed c) (closeRes c) (spans c)
    (link_closed c).
Definition set_rdArmed (v : bool) (c : conn) : conn :=
  mkConn (lim c) (nops c) (chunk c) (callTimeout c) (last_id c) (txOpen c) (rxOpen c) (enc c) (rxHeld c)
    (rxRes c) (rxGen c) v (pd c) (rfs c) (scratch c) (broken c) (rxDead c) (closed c) (closeRes c) (spans c)
    (link_closed c).
Definition set_pd (v : pend) (c : conn) : conn :=
  mkConn (lim c) (nops c) (chunk c) (callTimeout c) (last_id c) (txOpen c) (rxOpen c) (enc c) (rxHeld c)
    (rxRes c) (rxGen c) (rdArmed c) v (rfs c) (scratch c) (broken c) (rxDead c) (closed c) (closeRes c)
    (spans c) (link_closed c).
Definition set_rfs (v : list rfEntry) (c : conn) : conn :=
  mkConn (lim c) (nops c) (chunk c) (callTimeout c) (last_id c) (txOpen c) (rxOpen c) (enc c) (rxHeld c)
    (rxRes c) (rxGen c) (rdArmed c) (pd c) v (scratch c) (broken c) (rxDead c) (closed c) (closeRes c) (spans c)
    (link_closed c).
Definition set_scratch (v : bytes) (c : conn) : conn :=
  mkConn (lim c) (nops c) (chunk c) (callTimeout c) (last_id c) (txOpen c) (rxOpen c) (enc c) (rxHeld c)
    (rxRes c) (rxGen c) (rdArmed c) (pd c) (rfs c) v (broken c) (rxDead c) (closed c) (closeRes c) (spans c)
    (link_closed c).
Definition set_broken (v : option rterr) (c : conn) : conn :=
  mkConn (lim c) (nops c) (chunk c) (callTimeout c) (last_id c) (txOpen c) (rxOpen c) (enc c) (rxHeld c)
    (rxRes c) (rxGen c) (rdArmed c) (pd c) (rfs c) (scratch c) v (rxDead c) (closed c) (closeRes c) (spans c)
    (link_closed c).
Definition set_rxDead (v : bool) (c : conn) : conn :=
  mkConn (lim c) (nops c) (chunk c) (callTimeout c) (last_id c) (txOpen c) (rxOpen c) (enc c) (rxHeld c)
    (rxRes c) (rxGen c) (rdArmed c) (pd c) (rfs c) (scratch c) (broken c) v (closed c) (closeRes c) (spans c)
    (link_closed c).
Definition set_closed (v : bool) (c : conn) : conn :=
  mkConn (lim c) (nops c) (chunk c) (callTimeout c) (last_id c) (txOpen c) (rxOpen c) (enc c) (rxHeld c)
    (rxRes c) (rxGen c) (rdArmed c) (pd c) (rfs c) (scratch c) (broken c) (rxDead c) v (closeRes c) (spans c)
    (link_closed c).
Definition set_closeRes (v : option rterr) (c : conn) : conn :=
  mkConn (lim c) (nops c) (chunk c) (callTimeout c) (last_id c) (txOpen c) (rxOpen c) (enc c) (rxHeld c)
    (rxRes c) (rxGen c) (rdArmed c) (pd c) (rfs c) (scratch c) (broken c) (rxDead c) (closed c) v (spans c)
    (link_closed c).
Definition set_spans (v : nat) (c : conn) : conn :=
  mkConn (lim c) (nops c) (chunk c) (callTimeout c) (last_id c) (txOpen c) (rxOpen c) (enc c) (rxHeld c)
    (rxRes c) (rxGen c) (rdArmed c) (pd c) (rfs c) (scratch c) (broken c) (rxDead c) (closed c) (closeRes c) v
    (link_closed c).
Definition set_link_closed (v : bool) (c : conn) : conn :=
  mkConn (lim c) (nops c) (chunk c) (callTimeout c) (last_id c) (txOpen c) (rxOpen c) (enc c) (rxHeld c)
    (rxRes c) (rxGen c) (rdArmed c) (pd c) (rfs c) (scratch c) (broken c) (rxDead c) (closed c) (closeRes c)
    (spans c) v.

(** What is still to happen on the link. *)
Record world := mkWorld {
  rxs : list (result error (bytes * option error));    (* frames with the result of their Release, or errors *)
  txs : list (result error (bytes * option error));    (* slots with the result of their Commit or Abort, or errors *)
  dls : list (option error);                           (* results of setting deadlines; then none fails *)
  kills : list bool;                                   (* what the reads of the killed bit see; then false *)
  caps : list nat;                                     (* the spare capacity of arrays made by append; then none *)
  closeErr : option error;                             (* the result of closing the link *)
  sent : list bytes                                    (* the frames committed so far, oldest first *)
}.

Record st := mkSt { cn : conn; wd : world }.

(** ** The monad *)

(** [Blocked]: waiting on the link for an outcome that the world does not have. *)
Inductive outcome (A : Type) := Ret (a : A) (s : st) | Panic | Blocked | OutOfFuel.
Arguments Ret {A} a s.
Arguments Panic {A}.
Arguments Blocked {A}.
Arguments OutOfFuel {A}.

Definition M (A : Type) : Type := st -> outcome A.

Definition ret {A} (a : A) : M A := fun s => Ret a s.
Definition bind {A B} (m : M A) (k : A -> M B) : M B := fun s =>
  match m s with Ret a s' => k a s' | Panic => Panic | Blocked => Blocked | OutOfFuel => OutOfFuel end.

Declare Scope session_scope.
Delimit Scope session_scope with session.
Notation "x ← m ; k" := (bind m (fun x => k)) : session_scope.
Notation "m ;; k" := (bind m (fun _ => k)) : session_scope.
Open Scope session_scope.

Definition get : M conn := fun s => Ret (cn s) s.
Definition upd (f : conn -> conn) : M unit := fun s => Ret tt (mkSt (f (cn s)) (wd s)).
Definition panic {A} : M A := fun _ => Panic.
Definition of_option {A} (o : option A) : M A := match o with Some a => ret a | None => panic end.

Definition updp (f : pend -> pend) : M unit := upd (fun c => set_pd (f (pd c)) c).

(** Pointers to calls. *)
Definition deref (r : nat) : M Call := c ← get; of_option (calls (pd c) !! r).
Definition upd_call (r : nat) (f : Call -> Call) : M unit :=
  updp (fun p => set_calls (alter f r (calls p)) p).

(** ** The link *)

Definition ReserveRead : M (result error (bytes * option error)) := fun s =>
  let w := wd s in
  match rxs w with
  | [] => Blocked
  | e :: r => Ret e (mkSt (cn s) (mkWorld r (txs w) (dls w) (kills w) (caps w) (closeErr w) (sent w)))
  end.

Definition ReserveWrite : M (result error (bytes * option error)) := fun s =>
  let w := wd s in
  match txs w with
  | [] => Blocked
  | e :: r => Ret e (mkSt (cn s) (mkWorld (rxs w) r (dls w) (kills w) (caps w) (closeErr w) (sent w)))
  end.

Definition SetDeadline : M (option error) := fun s =>
  let w := wd s in
  Ret (default None (head (dls w)))
    (mkSt (cn s) (mkWorld (rxs w) (txs w) (tail (dls w)) (kills w) (caps w) (closeErr w) (sent w))).

(** [killed] *)
Definition killed : M bool := fun s =>
  let w := wd s in
  Ret (default false (head (kills w)))
    (mkSt (cn s) (mkWorld (rxs w) (txs w) (dls w) (tail (kills w)) (caps w) (closeErr w) (sent w))).

Definition spare : M nat := fun s =>
  let w := wd s in
  Ret (default 0%nat (head (caps w)))
    (mkSt (cn s) (mkWorld (rxs w) (txs w) (dls w) (kills w) (tail (caps w)) (closeErr w) (sent w))).

(** [Commit(n)] of a slot: unless it fails, the first [n] bytes are published. *)
Definition Commit (buf : bytes) (res : option error) (n : Z) : M (option error) := fun s =>
  let w := wd s in
  match res with
  | Some e => Ret (Some e) s
  | None => Ret None (mkSt (cn s) (mkWorld (rxs w) (txs w) (dls w) (kills w) (caps w) (closeErr w)
                       (sent w ++ [take (Z.to_nat n) buf])))
  end.

(** ** Failures *)

Definition closeLink : M (option error) := fun s =>
  Ret (closeErr (wd s)) (mkSt (set_link_closed true (cn s)) (wd s)).

Definition leave : M unit :=
  upd (fun c => set_spans (pred (spans c)) c);;
  k ← killed; c ← get;
  if k && (spans c =? 0)%nat then closeLink;; ret tt else ret tt.

Definition enter : M bool :=
  upd (fun c => set_spans (S (spans c)) c);;
  k ← killed;
  if k then leave;; ret false else ret true.

Definition opName (c : conn) (op : Z) : Z := if (1 <=? op) && (op <=? nops c) then op else 0.

Definition violation (why : reason) : rterr := ProtocolError 0 why true.

(** The session error made of an error. *)
Definition session_error (err : rterr) : rterr :=
  match err with
  | TransportError _ _ _ | ProtocolError _ _ _ | StatusError _ _ _ => err
  | _ => TransportError 0 err true
  end.

Definition failRx (err : rterr) : M rterr :=
  c ← get;
  match broken c, rxDead c with
  | Some b, true => ret b
  | _, _ =>
      let b := session_error err in
      upd (fun c => set_broken (Some b) (set_rxDead true c));; ret b
  end.

Definition failTx (err : error) : M unit :=
  upd (fun c => match broken c with Some _ => c | None => set_broken (Some (TransportError 0 (hqq err) true)) c end).

Definition markKilled : M unit := failRx (TransportError 0 (hqq ErrClosed) true);; ret tt.

Definition txFailed (err : error) : M error :=
  k ← killed;
  if k then markKilled;; ret ErrClosed else failTx err;; ret err.

Definition afterOp : M unit :=
  c ← get;
  if rxDead c && negb (txOpen c) && negb (rxOpen c) then closeLink;; ret tt else ret tt.

Definition brokenErr (op : Z) : M rterr := c ← get; ret (TransportError (opName c op) ErrSessionBroken false).

Definition errForCall (op : Z) : M (option rterr) :=
  c ← get;
  let fn := opName c op in
  ret (match broken c with
        | Some (TransportError _ e _) => Some (TransportError fn e true)
        | Some (ProtocolError _ why u) => Some (ProtocolError fn why u)
        | Some (StatusError _ s m) => Some (StatusError fn s m)
        | b => b
        end).

Definition readError (err : error) : M rterr :=
  k ← killed;
  if k then failRx (TransportError 0 (hqq ErrClosed) true)
  else if rt_is (hqq err) (hqq ErrTimeout) then ret (hqq err)
  else failRx (TransportError 0 (hqq err) true).

Definition readFailed (op : Z) (err : rterr) : M rterr :=
  c ← get;
  if rxDead c then brokenErr op else ret (TransportError (opName c op) err false).

(** ** The calls *)

Definition newCall : M nat :=
  c ← get;
  match list.last (free (pd c)) with
  | Some r => updp (fun p => set_free (removelast (free p)) p);; ret r
  | None => updp (fun p => set_calls (calls p ++ [new_call]) p);; ret (length (calls (pd c)))
  end.

Definition set_idx (i : nat) (k : Call) : Call :=
  mkCall (c_id k) (c_op k) (c_rf k) (c_respMax k) (c_pending k) (c_done k) (c_inPlace k) (c_flags k) (c_status k)
    (c_msg k) (c_body k) (c_buf k) i.

(** [unregister]: the last call takes the place of the removed one. *)
Definition unregister (r : nat) : M unit :=
  c ← get; k ← deref r;
  match list.last (live (pd c)) with
  | None => panic
  | Some moved =>
      if (c_idx k <? length (live (pd c)))%nat then
        updp (fun p => set_live (removelast (<[c_idx k := moved]> (live p))) p);;
        upd_call moved (set_idx (c_idx k))
      else panic
  end.

Definition cap (p : pend) (s : bslice) : Z :=
  match s with SNil => 0 | SArr a _ => len (default [] (arrs p !! a)) | SSlot b => len b end.

Definition recycle (r : nat) : M unit :=
  unregister r;;
  c ← get;
  upd_call r (fun k =>
    mkCall (c_id k) (c_op k) (c_rf k) (c_respMax k) false false false (c_flags k) 0 [] SNil
      (if keepBuf <? cap (pd c) (c_buf k) then SNil else c_buf k) (c_idx k));;
  if Z.of_nat (length (free (pd c))) <? maxFreeCalls
  then updp (fun p => set_free (free p ++ [r]) p) else ret tt.

Definition dropCall (r : nat) : M unit :=
  unregister r;;
  upd_call r (fun k =>
    mkCall (c_id k) (c_op k) (c_rf k) (c_respMax k) false false false (c_flags k) (c_status k) (c_msg k) SNil
      (c_buf k) (c_idx k)).

Definition unansHead : M (option nat) :=
  c ← get;
  if (unansN (pd c) =? 0)%nat then ret None
  else h ← of_option (unans (pd c) !! unansHd (pd c)); ret h.

Definition set_done (k : Call) : Call :=
  mkCall (c_id k) (c_op k) (c_rf k) (c_respMax k) (c_pending k) true (c_inPlace k) (c_flags k) (c_status k)
    (c_msg k) (c_body k) (c_buf k) (c_idx k).

(** [finish]: the oldest unanswered call is answered. *)
Definition finish (r : nat) : M unit :=
  k ← deref r;
  upd_call r set_done;;
  c ← get;
  if (unansHd (pd c) <? length (unans (pd c)))%nat then
    updp (fun p =>
      let hd := S (unansHd p) in
      mkPend (<[unansHd p := None]> (unans p)) (if (hd =? length (unans p))%nat then 0%nat else hd) (pred (unansN p))
        (unansRF p - c_rf k) (live p) (free p) no_asm (calls p) (arrs p))
  else panic.

(** ** Buffers *)

Definition slen (s : bslice) : Z := match s with SNil => 0 | SArr _ n => n | SSlot b => len b end.

(** The bytes of a slice. *)
Definition content (p : pend) (s : bslice) : bytes :=
  match s with SNil => [] | SArr a n => take (Z.to_nat n) (default [] (arrs p !! a)) | SSlot b => b end.

Definition make (b : bytes) : M nat :=
  c ← get; updp (fun p => set_arrs (arrs p ++ [b]) p);; ret (length (arrs (pd c))).

Definition growTo (s : bslice) (n : Z) : M bslice :=
  c ← get;
  if n <=? cap (pd c) s then ret (match s with SArr a _ => SArr a n | _ => s end)
  else a ← make (replicate (Z.to_nat n) 0); ret (SArr a n).

(** [copy(s[off:], b)] *)
Definition copy_at (s : bslice) (off : Z) (b : bytes) : M unit :=
  if slen s <? off then panic
  else
    let n := Z.min (slen s - off) (len b) in
    match s with
    | SArr a _ => updp (fun p => set_arrs (alter (blit (Z.to_nat off) (take (Z.to_nat n) b)) a (arrs p)) p)
    | _ => ret tt
    end.

(** [append(s[:0], b...)] *)
Definition append0 (s : bslice) (b : bytes) : M bslice :=
  c ← get;
  if len b <=? cap (pd c) s then
    match s with
    | SArr a _ => updp (fun p => set_arrs (alter (blit 0 b) a (arrs p)) p);; ret (SArr a (len b))
    | _ => ret s
    end
  else x ← spare; a ← make (b ++ replicate x 0); ret (SArr a (len b)).

Definition set_buf (s : bslice) (k : Call) : Call :=
  mkCall (c_id k) (c_op k) (c_rf k) (c_respMax k) (c_pending k) (c_done k) (c_inPlace k) (c_flags k) (c_status k)
    (c_msg k) (c_body k) s (c_idx k).
Definition set_body (s : bslice) (k : Call) : Call :=
  mkCall (c_id k) (c_op k) (c_rf k) (c_respMax k) (c_pending k) (c_done k) (c_inPlace k) (c_flags k) (c_status k)
    (c_msg k) s (c_buf k) (c_idx k).
Definition set_flags (f : Z) (k : Call) : Call :=
  mkCall (c_id k) (c_op k) (c_rf k) (c_respMax k) (c_pending k) (c_done k) (c_inPlace k) f (c_status k)
    (c_msg k) (c_body k) (c_buf k) (c_idx k).
Definition set_status (s : Z) (m : bytes) (k : Call) : Call :=
  mkCall (c_id k) (c_op k) (c_rf k) (c_respMax k) (c_pending k) (c_done k) (c_inPlace k) (c_flags k) s
    m (c_body k) (c_buf k) (c_idx k).
Definition set_inPlace (k : Call) : Call :=
  mkCall (c_id k) (c_op k) (c_rf k) (c_respMax k) (c_pending k) (c_done k) true (c_flags k) (c_status k)
    (c_msg k) (c_body k) (c_buf k) (c_idx k).

(** ** Responses *)

Definition contMatches (h : header) (a : assembly) : bool :=
  if negb (h_kind h =? kindCont) || negb (h_flags h =? 0) || negb (h_op h =? 0) then false
  else (h_id h =? a_id a) && (h_total h =? a_total a) && (h_aux h =? a_got a).

Definition callStatusOK (s : Z) : bool :=
  if (statusUnknownOp <=? s) && (s <=? statusInternal) then true else (statusAppMin <=? s) && (s <=? statusAppMax).

Definition acceptCont (h : header) (body : bytes) (mode : rxMode) : M (result rterr bool) :=
  c ← get;
  let a := asm (pd c) in
  head ← unansHead;
  if negb (contMatches h a) then ret (Err (violation ContMismatch))
  else if negb (len body =? Z.min (a_total a - a_got a) (chunk c)) then ret (Err (violation ContLength))
  else
    (if bool_decide (mode = rxDiscard) then ret tt
     else r ← of_option head; k ← deref r; copy_at (c_buf k) (a_got a) body);;
    let got := a_got a + len body in
    updp (set_asm (mkAsm (a_active a) (a_id a) (a_total a) got));;
    if got <? a_total a then ret (Ok false)
    else
      r ← of_option head;
      (if bool_decide (mode = rxDiscard) then ret tt
       else upd_call r (fun k => set_body (c_buf k) k));;
      finish r;; ret (Ok true).

Definition statusResponse (r : nat) (h : header) (body : bytes) : M (option rterr) :=
  if negb (h_flags h =? 0) then ret (Some (violation StatusFlags))
  else if negb (callStatusOK (h_aux h)) then ret (Some (violation StatusInvalid))
  else if ErrBodyMax <? h_total h then ret (Some (violation StatusTooLong))
  else
    match GetStr body 0 MsgMax with
    | Ok (msg, e) =>
        if e =? len body then upd_call r (set_status (h_aux h) msg);; finish r;; ret None
        else ret (Some (violation StatusMessage))
    | Err _ => ret (Some (violation StatusMessage))
    end.

Definition finalFrame (h : header) (body : bytes) : rterr :=
  let finalStatus := (h_aux h =? statusProtocol) || (h_aux h =? statusShuttingDown) in
  if negb (h_flags h =? 0) || negb (h_op h =? 0) || negb finalStatus then violation FinalMalformed
  else
    match GetStr body 0 MsgMax with
    | Ok (msg, e) => if e =? len body then StatusError 0 (h_aux h) msg else violation FinalMessage
    | Err _ => violation FinalMessage
    end.

(** The first frame of a response of several frames for call [r]. *)
Definition acceptFirst (r : nat) (k : Call) (h : header) (body : bytes) (mode : rxMode) : M unit :=
  updp (set_asm (mkAsm true (h_id h) (h_total h) (len body)));;
  if bool_decide (mode = rxDiscard) then ret tt
  else s ← growTo (c_buf k) (h_total h); upd_call r (set_buf s);; copy_at s 0 body.

(** A response of one frame for call [r]: whether the slot stays held. *)
Definition acceptSingle (r : nat) (k : Call) (body : bytes) (mode : rxMode) : M bool :=
  match mode with
  | rxHold => upd_call r (set_body (SSlot body));; upd_call r set_inPlace;; finish r;; ret true
  | rxBuffer =>
      s ← append0 (c_buf k) body; upd_call r (set_buf s);; upd_call r (set_body s);; finish r;; ret false
  | rxDiscard => finish r;; ret false
  end.

(** [acceptFrame]: whether the slot stays held, and whether a response is
    complete. *)
Definition acceptFrame (b : bytes) (mode : rxMode) : M (result rterr (bool * bool)) :=
  let bad why := ret (Err (violation why)) in
  if len b <? FrameHeaderSize then bad ShortFrame
  else
    let h := loadHeader b in
    let body := zslice FrameHeaderSize (len b) b in
    if negb (and_not (h_flags h) flagsKnown =? 0) || (has_bits (h_flags h) flagDetail && negb (has_bits (h_flags h) flagFail))
    then bad BadFlags
    else
      c ← get;
      if a_active (asm (pd c)) then
        r ← acceptCont h body mode;
        ret (match r with Ok complete => Ok (false, complete) | Err e => Err e end)
      else if negb (h_kind h =? kindResponse) then bad BadKind
      else if MaxMessage (lim c) <? h_total h then bad TotalAboveMax
      else if negb (len body =? Z.min (h_total h) (chunk c)) then bad LengthMismatch
      else if h_id h =? 0 then ret (Err (finalFrame h body))
      else
        head ← unansHead;
        match head with
        | None => bad NoRequest
        | Some r =>
            k ← deref r;
            if negb (h_id h =? c_id k) || negb (h_op h =? c_op k) then bad WrongRequest
            else if negb (h_aux h =? statusOK) then
              e ← statusResponse r h body;
              ret (match e with Some e => Err e | None => Ok (false, true) end)
            else if c_respMax k <? h_total h then bad AboveBound
            else
              upd_call r (set_flags (h_flags h));;
              if chunk c <? h_total h then
                acceptFirst r k h body mode;; ret (Ok (false, false))
              else held ← acceptSingle r k body mode; ret (Ok (held, true))
        end.

Definition armRead : M (option error) :=
  c ← get;
  let check := k ← killed; ret (if k then Some ErrClosed else None) in
  if 0 <? callTimeout c then
    upd (set_rdArmed true);; e ← SetDeadline; match e with Some e => ret (Some e) | None => check end
  else if rdArmed c then
    upd (set_rdArmed false);; e ← SetDeadline; match e with Some e => ret (Some e) | None => check end
  else ret None.

(** [readResponse]: frames are read until a response is complete; [n] bounds
    their number. *)
Fixpoint readResponse (n : nat) (mode : rxMode) : M (option rterr) :=
  match n with
  | O => fun _ => OutOfFuel
  | S n =>
      res ← ReserveRead;
      match res with
      | Err err => e ← readError err; ret (Some e)
      | Ok (b, rel) =>
          r ← acceptFrame b mode;
          match r with
          | Err err =>
              e ← failRx (match rel with Some rerr => Joined2 err (hqq rerr) | None => err end); ret (Some e)
          | Ok (held, complete) =>
              if held : bool then upd (fun c => set_rxHeld true (set_rxRes (hqq <$> rel) c));; ret None
              else
                match rel with
                | Some rerr => e ← failRx (TransportError 0 (hqq rerr) true); ret (Some e)
                | None => if complete : bool then ret None else readResponse n mode
                end
          end
      end
  end.

(** More than the frames that can still come. *)
Definition enough : M nat := fun s => Ret (S (length (rxs (wd s)))) s.

Definition read_response (mode : rxMode) : M (option rterr) := n ← enough; readResponse n mode.

(** ** Requests *)

Definition validRequest (c : conn) (op bodyLen respMax : Z) : bool :=
  let maxMsg := MaxMessage (lim c) in
  let opOK := negb (op =? 0) && (op <=? nops c) in
  opOK && (0 <=? bodyLen) && (bodyLen <=? maxMsg) && (0 <=? respMax) && (respMax <=? maxMsg).

Definition rf_quotient (c : conn) (respMax : Z) : Z :=
  Z.max 1 (Z.quot (i64 (respMax + chunk c - 1)) (chunk c)).

Definition rfOf (op respMax : Z) : M Z :=
  c ← get;
  e ← of_option (rfs c !! Z.to_nat op);
  if negb (rf_rf e =? 0) && (rf_bound e =? respMax) then ret (rf_rf e)
  else
    let rf := rf_quotient c respMax in
    upd (fun c => set_rfs (<[Z.to_nat op := mkRf respMax rf]> (rfs c)) c);; ret rf.

Definition fits (c : conn) (rf : Z) : bool :=
  if MaxInFlight (lim c) <=? Z.of_nat (unansN (pd c)) then false
  else if rf <=? BufferCount (lim c) then unansRF (pd c) + rf <=? BufferCount (lim c)
  else (unansN (pd c) =? 0)%nat.

Fixpoint makeRoom_loop (n : nat) (op rf : Z) (armed : bool) : M (option rterr) :=
  match n with
  | O => fun _ => OutOfFuel
  | S n =>
      c ← get;
      if fits c rf then ret None
      else if rxDead c then e ← brokenErr op; ret (Some e)
      else
        e ← (if armed then ret None else armRead);
        match e with
        | Some err => e ← readFailed op (hqq err); ret (Some e)
        | None =>
            e ← read_response rxBuffer;
            match e with
            | Some err => e ← readFailed op err; ret (Some e)
            | None => makeRoom_loop n op rf true
            end
        end
  end.

Definition makeRoom (op rf : Z) : M (option rterr) := n ← enough; makeRoom_loop (S n) op rf false.

Definition scratchFor (n : Z) : M bytes :=
  c ← get;
  (if len (scratch c) <? n then upd (set_scratch (replicate (Z.to_nat n) 0)) else ret tt);;
  c ← get; ret (take (Z.to_nat n) (scratch c)).

Definition BeginRequest (op bodyLen respMax : Z) : M (option rterr) :=
  c ← get;
  if txOpen c || rxOpen c then ret (Some ErrConcurrentUse)
  else if negb (validRequest c op bodyLen respMax) then ret (Some ErrInvalidArg)
  else if closed c then ret (Some (TransportError (opName c op) (hqq ErrClosed) false))
  else if bool_decide (broken c <> None) then e ← brokenErr op; ret (Some e)
  else
    ok ← enter;
    if negb ok then markKilled;; e ← brokenErr op; ret (Some e)
    else
      rf ← rfOf op respMax;
      c ← get;
      e ← (if fits c rf then ret None else makeRoom op rf);
      match e with
      | Some err => leave;; ret (Some err)
      | None =>
          if FrameHeaderSize + bodyLen <=? BufferSize (lim c) then
            res ← ReserveWrite;
            match res with
            | Err err => err ← txFailed err; leave;; ret (Some (TransportError (opName c op) (hqq err) false))
            | Ok (buf, rel) =>
                if len buf <? FrameHeaderSize + bodyLen then panic
                else
                  upd (fun c => set_txOpen true (set_enc (mkEnc op bodyLen respMax rf false rel buf
                                  (zslice FrameHeaderSize (FrameHeaderSize + bodyLen) buf)) c));; ret None
            end
          else
            body ← scratchFor bodyLen;
            upd (fun c => set_txOpen true (set_enc (mkEnc op bodyLen respMax rf true (e_res (enc c)) (e_buf (enc c)) body) c));;
            ret None
      end.

(** The stub fills [Body()], every byte of it. *)
Definition write_body (b : bytes) (c : conn) : conn :=
  let e := enc c in
  if txOpen c && (len b =? e_bodyLen e)
  then
    let c := set_enc (mkEnc (e_op e) (e_bodyLen e) (e_respMax e) (e_rf e) (e_multi e) (e_res e) (e_buf e) b) c in
    if e_multi e then set_scratch (blit 0 b (scratch c)) c else c
  else c.

(** [sendFrames]: whether a frame reached the ring, and the error; [n] bounds
    the number of frames. *)
Fixpoint sendFrames_loop (n : nat) (h : header) (body : bytes) (off : Z) (committed : bool) : M (bool * option error) :=
  match n with
  | O => fun _ => OutOfFuel
  | S n =>
      c ← get;
      let m := Z.min (len body - off) (chunk c) in
      res ← ReserveWrite;
      match res with
      | Err err => ret (committed, Some err)
      | Ok (buf, rel) =>
          if len buf <? FrameHeaderSize then panic
          else
            let fh := if 0 <? off then mkFrameHeader kindCont 0 0 (h_id h) (h_total h) (u32 off) else h in
            let buf := putHeader buf fh in
            let buf := take 16 buf ++ copy_to (drop 16 buf) (zslice off (off + m) body) in
            e ← Commit buf rel (FrameHeaderSize + m);
            match e with
            | Some err => ret (committed, Some err)
            | None => if len body <=? off + m then ret (true, None) else sendFrames_loop n h body (off + m) true
            end
      end
  end.

Definition sendFrames (h : header) (body : bytes) : M (bool * option error) :=
  sendFrames_loop (S (length body)) h body 0 false.

Definition clear_enc (c : conn) : conn :=
  let e := enc c in
  set_enc (mkEnc (e_op e) (e_bodyLen e) (e_respMax e) (e_rf e) (e_multi e) (e_res e) [] []) c.

(** [Submit]: the new call. [mine]: the request is the one of this session. *)
Definition Submit (mine : bool) : M (result rterr nat) :=
  c ← get;
  if negb mine || negb (txOpen c) then ret (Err ErrInvalidArg)
  else
    let e := enc c in
    let id := nextID (last_id c) in
    let h := mkFrameHeader kindRequest 0 (e_op e) id (u32 (e_bodyLen e)) 0 in
    r ← (if negb (e_multi e)
         then err ← Commit (blit 16 (e_body e) (putHeader (e_buf e) h)) (e_res e) (FrameHeaderSize + e_bodyLen e);
              ret (false, err)
         else sendFrames h (e_body e));
    upd (fun c => clear_enc (set_txOpen false c));;
    match snd r with
    | Some err =>
        err ← txFailed err; afterOp;; leave;;
        ret (Err (TransportError (opName c (e_op e)) (hqq err) (fst r)))
    | None =>
        upd (set_last_id id);;
        call ← newCall;
        c ← get;
        upd_call call (fun k => mkCall id (e_op e) (e_rf e) (e_respMax e) true (c_done k) (c_inPlace k) (c_flags k)
                                 (c_status k) (c_msg k) (c_body k) (c_buf k) (length (live (pd c))));;
        let slots := length (unans (pd c)) in
        if (slots =? 0)%nat then panic
        else
          updp (fun p =>
            mkPend (<[(unansHd p + unansN p) mod slots := Some call]> (unans p))%nat (unansHd p) (S (unansN p))
              (unansRF p + e_rf e) (live p ++ [call]) (free p) (asm p) (calls p) (arrs p));;
          (if keepBuf <? len (scratch c) then upd (set_scratch []) else ret tt);;
          afterOp;; leave;; ret (Ok call)
    end.

Definition Abort (mine : bool) : M unit :=
  c ← get;
  if negb mine || negb (txOpen c) then ret tt
  else
    upd (set_txOpen false);;
    (if negb (e_multi (enc c))
     then match e_res (enc c) with Some err => failTx err | None => ret tt end else ret tt);;
    upd clear_enc;; afterOp;; leave.

(** ** Waiting *)

(** A response: [d_open] while the [Dec] has its session. *)
Record Dec := mkDec { d_Body : bslice; d_Detail : bool; d_Fail : bool; d_open : bool; d_gen : Z; d_op : Z }.

Definition no_dec : Dec := mkDec SNil false false false 0 0.

Definition abandonCall (r : nat) : M (option rterr) :=
  k ← deref r;
  e ← errForCall (c_op k);
  (if c_done k then recycle r else dropCall r);;
  ret e.

(** [await]; [n] bounds the number of responses. *)
Fixpoint await_loop (n : nat) (r : nat) (armed : bool) : M (option rterr) :=
  match n with
  | O => fun _ => OutOfFuel
  | S n =>
      k ← deref r; c ← get;
      if c_done k then ret None
      else if rxDead c then ret (broken c)
      else
        e ← (if armed then ret None else armRead);
        match e with
        | Some err => e ← readError err; ret (Some e)
        | None =>
            head ← unansHead;
            e ← read_response (if bool_decide (head = Some r) then rxHold else rxBuffer);
            match e with
            | Some err => ret (Some err)
            | None => await_loop n r true
            end
        end
  end.

Definition await (r : nat) : M (option rterr) := n ← enough; await_loop (S n) r false.

(** [Wait]: [None] is no call, or a call of another session. *)
Definition Wait (call : option nat) (id : Z) : M (Dec * option rterr) :=
  match call with
  | None => ret (no_dec, Some ErrFutureUsed)
  | Some r =>
      k ← deref r; c ← get;
      if negb (c_pending k) || negb (c_id k =? id) then ret (no_dec, Some ErrFutureUsed)
      else if rxOpen c then ret (no_dec, Some ErrConcurrentUse)
      else
        ok ← enter;
        if negb ok then markKilled;; e ← abandonCall r; ret (no_dec, e)
        else
          upd (set_rxOpen true);;
          e ← (if c_done k then ret None else await r);
          match e with
          | Some err =>
              upd (set_rxOpen false);;
              c ← get;
              if negb (rxDead c) then leave;; ret (no_dec, Some (TransportError (opName c (c_op k)) err true))
              else e ← abandonCall r; afterOp;; leave;; ret (no_dec, e)
          | None =>
              k ← deref r;
              if negb (c_status k =? statusOK) then
                c ← get;
                recycle r;; upd (set_rxOpen false);; afterOp;; leave;;
                ret (no_dec, Some (StatusError (opName c (c_op k)) (c_status k) (c_msg k)))
              else
                upd (fun c => set_rxGen (u32 (rxGen c + 1)) c);;
                c ← get;
                recycle r;;
                ret (mkDec (c_body k) (has_bits (c_flags k) flagDetail) (has_bits (c_flags k) flagFail) true (rxGen c)
                        (c_op k), None)
          end
  end.

Definition endRx : M unit :=
  c ← get;
  (if rxHeld c then
     upd (set_rxHeld false);;
     match rxRes c with Some err => failRx (TransportError 0 err true);; ret tt | None => ret tt end
   else ret tt);;
  upd (set_rxOpen false);; afterOp;; leave.

(** [Release]: the [Dec] it leaves. *)
Definition Release (d : Dec) : M Dec :=
  if negb (d_open d) then ret d
  else
    let d' := mkDec SNil (d_Detail d) (d_Fail d) false (d_gen d) (d_op d) in
    c ← get;
    if negb (d_gen d =? rxGen c) || negb (rxOpen c) then ret d'
    else endRx;; ret d'.

Definition Malformed (d : Dec) : M rterr :=
  if negb (d_open d) then ret (ProtocolError 0 BodyMalformed true)
  else
    c ← get;
    failRx (ProtocolError 0 BodyMalformed true);;
    ret (ProtocolError (opName c (d_op d)) BodyMalformed true).

(** [Dec.LibError] *)
Definition dec_LibError (d : Dec) (fn code g2Size : Z) : M rterr :=
  c ← get;
  let body := content (pd c) (d_Body d) in
  if d_Detail d then
    match GetStr body (Align g2Size 8) DetailMax with
    | Ok (s, e) => if e =? len body then ret (LibError fn code s) else Malformed d
    | Err _ => Malformed d
    end
  else if negb (len body =? g2Size) then Malformed d
  else ret (LibError fn code []).

(** ** Sync and Close *)

(** [discardAnswered] from position [i]; [n] bounds the iterations. *)
Fixpoint discard_loop (n i : nat) : M unit :=
  match n with
  | O => fun _ => OutOfFuel
  | S n =>
      c ← get;
      match live (pd c) !! i with
      | None => ret tt
      | Some r => k ← deref r; if c_done k then recycle r;; discard_loop n i else discard_loop n (S i)
      end
  end.

Definition discardAnswered : M unit := c ← get; discard_loop (S (length (live (pd c)))) 0.

Fixpoint abandon_loop (n : nat) : M unit :=
  match n with
  | O => fun _ => OutOfFuel
  | S n =>
      c ← get;
      match list.last (live (pd c)) with
      | None => ret tt
      | Some r => k ← deref r; (if c_done k then recycle r else dropCall r);; abandon_loop n
      end
  end.

Definition abandon : M unit :=
  c ← get;
  abandon_loop (S (length (live (pd c))));;
  updp (fun p => mkPend (replicate (length (unans p)) None) 0 0 0 (live p) (free p) no_asm (calls p) (arrs p)).

Fixpoint sync_loop (n : nat) (armed : bool) : M (option rterr) :=
  match n with
  | O => fun _ => OutOfFuel
  | S n =>
      c ← get;
      if (0 <? unansN (pd c))%nat && negb (rxDead c) then
        e ← (if armed then ret None else armRead);
        match e with
        | Some err => e ← readError err; ret (Some e)
        | None =>
            e ← read_response rxDiscard;
            match e with
            | Some err => ret (Some err)
            | None => sync_loop n true
            end
        end
      else ret None
  end.

Definition Sync : M (option rterr) :=
  c ← get;
  if txOpen c || rxOpen c then ret (Some ErrConcurrentUse)
  else
    ok ← enter;
    if negb ok then markKilled;; abandon;; afterOp;; c ← get; ret (broken c)
    else
      n ← enough;
      rerr ← sync_loop (S n) false;
      c ← get;
      if rxDead c then abandon;; afterOp;; leave;; c ← get; ret (broken c)
      else
        leave;; discardAnswered;;
        ret (match rerr with Some err => Some (TransportError 0 err true) | None => None end).

Definition transportErr (err : error) : M rterr :=
  k ← killed; ret (TransportError 0 (hqq (if k then ErrClosed else err)) false).

(** The responses that are skipped while closing; [n] bounds their number. *)
Fixpoint close_loop (n : nat) : M (option rterr) :=
  match n with
  | O => fun _ => OutOfFuel
  | S n =>
      res ← ReserveRead;
      match res with
      | Err err => e ← transportErr err; ret (Some e)
      | Ok (b, rel) =>
          let h := if FrameHeaderSize <=? len b then loadHeader b else mkFrameHeader 0 0 0 0 0 0 in
          match rel with
          | Some err => e ← transportErr err; ret (Some e)
          | None =>
              if len b <? FrameHeaderSize then ret (Some (violation ShortFrame))
              else if (h_kind h =? kindResponse) || (h_kind h =? kindCont) then close_loop n
              else if h_kind h =? kindCloseAck then
                if negb (len b =? FrameHeaderSize) || negb (h_flags h =? 0) || negb (h_op h =? 0) || negb (h_id h =? 0)
                   || negb (h_total h =? 0) then ret (Some (violation CloseAckMalformed))
                else ret None
              else ret (Some (violation ClosingKind))
          end
      end
  end.

Definition closeSession : M (option rterr) :=
  let fail err := e ← transportErr err; ret (Some e) in
  e ← SetDeadline;
  match e with
  | Some err => fail err
  | None =>
      k ← killed;
      if k : bool then fail ErrClosed
      else
        res ← ReserveWrite;
        match res with
        | Err err => fail err
        | Ok (buf, rel) =>
            if len buf <? FrameHeaderSize then panic
            else
              e ← Commit (putHeader buf (mkFrameHeader kindClose 0 0 0 0 0)) rel FrameHeaderSize;
              match e with
              | Some err => fail err
              | None =>
                  e ← SetDeadline;
                  match e with
                  | Some err => fail err
                  | None =>
                      upd (set_rdArmed true);;
                      k ← killed;
                      if k : bool then fail ErrClosed else n ← enough; close_loop n
                  end
              end
        end
  end.

Definition Close : M (option rterr) :=
  c ← get;
  if txOpen c || rxOpen c then ret (Some ErrConcurrentUse)
  else if closed c then ret (closeRes c)
  else
    upd (set_closed true);;
    abandon;;
    c ← get;
    err ← (if bool_decide (broken c = None) then
             ok ← enter;
             if ok : bool then e ← closeSession; leave;; ret e else markKilled;; ret None
           else ret None);
    lerr ← closeLink;
    let err := errors_Join err (hqq <$> lerr) in
    upd (set_closeRes err);;
    ret err.

(** ** A session and its owner's calls *)

Definition newConn (l : Limits) (nops callTimeout : Z) : conn :=
  mkConn l nops (BufferSize l - FrameHeaderSize) callTimeout 0 false false (mkEnc 0 0 0 0 false None [] []) false None 0 false
    (mkPend (replicate (Z.to_nat (MaxInFlight l)) None) 0 0 0 [] [] no_asm [] [])
    (replicate (S (Z.to_nat nops)) (mkRf 0 0)) [] None false false None 0 false.

(** One call of the owner. The answers are kept in [r_dec] and [r_err]. *)
Inductive op :=
| OBegin (f bodyLen respMax : Z) | OBody (b : bytes) | OSubmit | OAbort | OWait (call : nat) (id : Z)
| ORelease (d : Dec) | OMalformed (d : Dec) | OSync | OClose.

Inductive answer := AErr (e : option rterr) | ACall (r : result rterr nat) | ADec (d : Dec) (e : option rterr).

Definition run_op (o : op) : M answer :=
  match o with
  | OBegin f n m => e ← BeginRequest f n m; ret (AErr e)
  | OBody b => upd (write_body b);; ret (AErr None)
  | OSubmit => r ← Submit true; ret (ACall r)
  | OAbort => Abort true;; ret (AErr None)
  | OWait r id =>
      c ← get;
      d ← Wait (if (r <? length (calls (pd c)))%nat then Some r else None) id; ret (ADec (fst d) (snd d))
  | ORelease d => d ← Release d; ret (ADec d None)
  | OMalformed d => e ← Malformed d; ret (AErr (Some e))
  | OSync => e ← Sync; ret (AErr e)
  | OClose => e ← Close; ret (AErr e)
  end.

Fixpoint run_ops (l : list op) : M (list answer) :=
  match l with
  | [] => ret []
  | o :: l => a ← run_op o; r ← run_ops l; ret (a :: r)
  end.
