(* ===== verification/SessionInv.v ===== *)
(** * SessionInv: the invariant of a session

    What holds of a session ([Session.v]) between any two calls of its owner,
    whatever the server sends and whenever it is killed: the ring of
    unanswered calls, flow control, the live and free sets, the response being
    assembled and the ownership of the buffers. *)
From S2P Require Import Prelude Errors Protocol Codec Session.

(** ** Outcomes *)

(** The outcome has [Q], or the owner is blocked on the link. A panic is
    possible only where [b] is false. *)
Definition safe {A} (b : bool) (o : outcome A) (Q : A -> st -> Prop) : Prop :=
  match o with Ret a s => Q a s | Panic => b = false | Blocked => True | OutOfFuel => False end.

Section Safe.
Context {A B : Type} (b : bool).

Lemma safe_bind (m : M A) (k : A -> M B) s Q R :
  safe b (m s) R -> (forall a s', R a s' -> safe b (k a s') Q) -> safe b (bind m k s) Q.
Proof. unfold bind. destruct (m s); simpl; auto. Qed.

Lemma safe_mono (o : outcome A) (Q R : A -> st -> Prop) :
  safe b o R -> (forall a s', R a s' -> Q a s') -> safe b o Q.
Proof. destruct o; simpl; auto. Qed.

Lemma safe_true (o : outcome A) (Q : A -> st -> Prop) : safe true o Q -> safe b o Q.
Proof. by destruct o. Qed.

Lemma safe_get (k : conn -> M B) s Q : safe b (k (cn s) s) Q -> safe b (bind get k s) Q.
Proof. done. Qed.

End Safe.

(** ** The ring and the calls *)

(** The unanswered calls, oldest first. *)
Definition queue (p : pend) : list (option nat) :=
  take (unansN p) (drop (unansHd p) (unans p) ++ take (unansHd p) (unans p)).

Definition rf_at (p : pend) (r : nat) : Z := from_option c_rf 0 (calls p !! r).

Definition sum (l : list Z) : Z := foldr Z.add 0 l.

(** A slice of the store. *)
Definition slice_ok (p : pend) (s : bslice) : Prop :=
  match s with
  | SNil => True
  | SArr a n => exists v, arrs p !! a = Some v /\ 0 <= n <= len v
  | SSlot _ => False
  end.

(** Every call has a buffer of its own. *)
Definition bufs_ok (p : pend) : Prop :=
  (forall r k, calls p !! r = Some k -> slice_ok p (c_buf k)) /\
  (forall r1 r2 k1 k2 a n1 n2, calls p !! r1 = Some k1 -> calls p !! r2 = Some k2 ->
    c_buf k1 = SArr a n1 -> c_buf k2 = SArr a n2 -> r1 = r2).

(** The slots a response of up to [m] bytes takes. *)
Definition resp_slots (l : Limits) (m : Z) : Z :=
  Z.max 1 (Z.quot (i64 (m + (BufferSize l - 16) - 1)) (BufferSize l - 16)).

(** A call that waits for its response. *)
Definition open_call (l : Limits) (k : Call) : Prop :=
  c_done k = false /\ c_status k = 0 /\ 1 <= c_rf k /\ 0 <= c_respMax k <= MaxMessage l /\ c_rf k = resp_slots l (c_respMax k).

(** The frames that can still come: of the response being assembled the
    missing ones, of every other unanswered call as many as it was given slots. *)
Definition left (l : Limits) (q : list nat) (p : pend) : Z :=
  let a := asm p in
  if a_active a then resp_slots l (a_total a - a_got a) + sum (rf_at p <$> tail q) else sum (rf_at p <$> q).

(** The response being assembled is the one of the oldest call. *)
Definition asm_ok (l : Limits) (q : list nat) (p : pend) (a : assembly) : Prop :=
  a_active a = true -> exists r q' k, q = r :: q' /\ calls p !! r = Some k /\
    a_id a = c_id k /\ BufferSize l - 16 < a_total a <= c_respMax k /\ BufferSize l - 16 <= a_got a < a_total a.

Record pend_inv (l : Limits) (q : list nat) (p : pend) : Prop := {
  pi_slots : length (unans p) = Z.to_nat (MaxInFlight l);
  pi_hd : (unansHd p < length (unans p))%nat;
  pi_n : (unansN p <= length (unans p))%nat;
  pi_queue : queue p = Some <$> q;
  pi_nodup : NoDup q;
  pi_open : forall r, r ∈ q -> exists k, calls p !! r = Some k /\ open_call l k;
  pi_rf : unansRF p = sum (rf_at p <$> q);
  pi_flow : unansRF p <= BufferCount l \/ (length q <= 1)%nat;
  pi_live : forall i r, live p !! i = Some r -> exists k, calls p !! r = Some k /\ c_idx k = i /\ c_pending k = true;
  pi_pending : forall r k, calls p !! r = Some k -> c_pending k = true -> r ∈ live p;
  pi_unanswered : forall r k, calls p !! r = Some k -> c_pending k = true -> c_done k = false -> r ∈ q;
  pi_free_nodup : NoDup (free p);
  pi_free : forall r, r ∈ free p -> (r ∉ q) /\
    exists k, calls p !! r = Some k /\ c_pending k = false /\ c_done k = false /\ c_status k = 0;
  pi_asm : asm_ok l q p (asm p);
  pi_bufs : bufs_ok p
}.

(** The buffer of the response being assembled has its size. *)
Definition buffered (q : list nat) (p : pend) : Prop :=
  a_active (asm p) = true -> forall r k, head q = Some r -> calls p !! r = Some k ->
  exists a, c_buf k = SArr a (a_total (asm p)).

(** ** Sessions *)

(** The request being built fits the flow control. *)
Definition enc_ok (c : conn) (q : list nat) : Prop :=
  txOpen c = true ->
  let e := enc c in
  e_rf e = rf_quotient c (e_respMax e) /\ 0 <= e_respMax e <= MaxMessage (lim c) /\
  (length q < Z.to_nat (MaxInFlight (lim c)))%nat /\
  (unansRF (pd c) + e_rf e <= BufferCount (lim c) \/ q = []) /\
  len (e_body e) = e_bodyLen e /\ e_bodyLen e <= MaxMessage (lim c) /\
  (e_multi e = false -> 16 + e_bodyLen e <= BufferSize (lim c) /\ len (e_buf e) = BufferSize (lim c)) /\
  (e_multi e = true -> BufferSize (lim c) < 16 + e_bodyLen e).

Record conn_inv (b : bool) (q : list nat) (c : conn) : Prop := {
  ci_limits : limits_ok (lim c);
  ci_chunk : chunk c = BufferSize (lim c) - 16;
  ci_nops : 0 <= nops c;
  ci_rfs : length (rfs c) = S (Z.to_nat (nops c));
  ci_cached : forall e, e ∈ rfs c -> rf_rf e = 0 \/ rf_rf e = rf_quotient c (rf_bound e);
  ci_pend : pend_inv (lim c) q (pd c);
  ci_enc : enc_ok c q;
  ci_dead : rxDead c = true -> broken c <> None;
  ci_held : rxHeld c = true -> rxOpen c = true;
  ci_buffered : b = true -> buffered q (pd c)
}.

(** Slots have their size and memory is made of bytes. *)
Definition world_ok (l : Limits) (w : world) : Prop :=
  Forall (fun e => match e with Ok (b, _) => Forall is_byte b | Err _ => True end) (rxs w) /\
  Forall (fun e => match e with Ok (b, _) => len b = BufferSize l | Err _ => True end) (txs w).

(** The invariant, with the unanswered calls [q]. *)
Record sinv (b : bool) (q : list nat) (s : st) : Prop := {
  si_conn : conn_inv b q (cn s);
  si_world : world_ok (lim (cn s)) (wd s)
}.

(** ** Steps that leave the calls alone *)

(** Nothing but failure flags, deadlines and the gate changed. *)
Record quiet (s s' : st) : Prop := {
  qu_fixed : (lim (cn s'), nops (cn s'), chunk (cn s'), callTimeout (cn s')) =
             (lim (cn s), nops (cn s), chunk (cn s), callTimeout (cn s));
  qu_conn : (last_id (cn s'), txOpen (cn s'), rxOpen (cn s'), enc (cn s'), rxHeld (cn s'), rxGen (cn s'), pd (cn s'),
             rfs (cn s'), scratch (cn s'), closed (cn s')) =
            (last_id (cn s), txOpen (cn s), rxOpen (cn s), enc (cn s), rxHeld (cn s), rxGen (cn s), pd (cn s),
             rfs (cn s), scratch (cn s), closed (cn s));
  qu_dead : rxDead (cn s) = true -> rxDead (cn s') = true;
  qu_broken : broken (cn s) <> None -> broken (cn s') <> None;
  qu_new : rxDead (cn s') = true -> rxDead (cn s) = true \/ broken (cn s') <> None;
  qu_world : (rxs (wd s'), txs (wd s'), caps (wd s'), sent (wd s')) = (rxs (wd s), txs (wd s), caps (wd s), sent (wd s))
}.

#[export] Instance quiet_preorder : PreOrder quiet.
Proof.
  split; [intros s; constructor; auto|].
  intros s1 s2 s3 [A1 A2 A3 A4 A5 A6] [B1 B2 B3 B4 B5 B6]. constructor; try congruence; auto.
  intros H. destruct (B5 H) as [H1|]; [|by right]. destruct (A5 H1) as [|H2]; [by left|right]. by apply B4.
Qed.

Lemma quiet_inv b q s s' : quiet s s' -> sinv b q s -> sinv b q s'.
Proof.
  intros [E1 E2 E3 E4 E5 E6] [H Hw]. simplify_eq. destruct s as [c w], s' as [c' w']. simpl in *.
  split.
  - destruct H as [I1 I2 I3 I4 I5 I6 I7 I8 I9 I10].
    constructor; unfold enc_ok, rf_quotient in *; simpl; repeat match goal with E : _ c' = _ c |- _ => rewrite !E; clear E end; try done.
    intros Hd. destruct (E5 Hd) as [Hd'|]; [|done]. apply E4. by apply I8.
  - unfold world_ok in *. simpl. by repeat match goal with E : _ w' = _ w |- _ => rewrite E; clear E | E : lim c' = lim c |- _ => rewrite E; clear E end.
Qed.

(** Unfold a step to its cases. *)
Ltac quiet_case :=
  match goal with
  | |- context [match ?x with _ => _ end] => destruct x eqn:?; simpl; simplify_eq; try done
  end.

Ltac quiet_tac := repeat quiet_case; try (constructor; simpl; congruence || auto; try tauto).

Section Quiet.
Context (b : bool).

Lemma killed_quiet s : safe b (killed s) (fun _ s' => quiet s s').
Proof. constructor; simpl; auto. Qed.

Lemma SetDeadline_quiet s : safe b (SetDeadline s) (fun _ s' => quiet s s').
Proof. constructor; simpl; auto. Qed.

Lemma closeLink_quiet s : safe b (closeLink s) (fun _ s' => quiet s s').
Proof. constructor; simpl; auto. Qed.

Lemma leave_quiet s : safe b (leave s) (fun _ s' => quiet s s').
Proof. unfold leave, bind, upd, killed, get, closeLink, ret. simpl. quiet_tac. Qed.

Lemma leave_dead s : safe b (leave s) (fun _ s' => quiet s s' /\ rxDead (cn s') = rxDead (cn s)).
Proof. unfold leave, bind, upd, killed, get, closeLink, ret. simpl. repeat quiet_case; (split; [constructor; simpl; auto|done]). Qed.

Lemma enter_quiet s : safe b (enter s) (fun _ s' => quiet s s').
Proof.
  eapply safe_bind with (R := fun _ s' => quiet s s'); [constructor; simpl; auto|]. intros a s1 H1.
  eapply safe_bind; [apply killed_quiet|]. intros k s2 H2. destruct k; [|simpl; by etrans].
  eapply safe_bind; [apply leave_quiet|]. intros a' s3 H3. simpl. by do 2 (etrans; [done|]).
Qed.

Lemma failRx_quiet e s : safe b (failRx e s) (fun _ s' => quiet s s' /\ rxDead (cn s') = true).
Proof. unfold failRx, bind, get, upd, ret. simpl. repeat quiet_case; split; try done; constructor; simpl; auto; right; done. Qed.

Lemma failTx_quiet e s : safe b (failTx e s) (fun _ s' => quiet s s' /\ rxDead (cn s') = rxDead (cn s)).
Proof. unfold failTx, upd. simpl. destruct (broken (cn s)) eqn:E; (split; [constructor; simpl; auto|done]). Qed.

Lemma markKilled_quiet s : safe b (markKilled s) (fun _ s' => quiet s s' /\ rxDead (cn s') = true).
Proof. eapply safe_bind; [apply failRx_quiet|]. intros a s' H. exact H. Qed.

Lemma txFailed_quiet e s : safe b (txFailed e s) (fun _ s' => quiet s s').
Proof.
  eapply safe_bind; [apply killed_quiet|]. intros k s1 H1. destruct k; (eapply safe_bind; [(apply markKilled_quiet || apply failTx_quiet)|]);
    intros a s2 [H2 _]; simpl; by etrans.
Qed.

Lemma afterOp_quiet s : safe b (afterOp s) (fun _ s' => quiet s s').
Proof. apply safe_get. destruct (_ && _); [|simpl; done]. eapply safe_bind; [apply closeLink_quiet|]. done. Qed.

Lemma readError_quiet e s : safe b (readError e s) (fun _ s' => quiet s s').
Proof.
  eapply safe_bind; [apply killed_quiet|]. intros k s1 H1.
  destruct k; [|destruct (rt_is _ _); [simpl; done|]];
    (eapply safe_mono; [apply failRx_quiet|]; intros a s2 [H2 _]; by etrans).
Qed.

Lemma armRead_quiet s : safe b (armRead s) (fun _ s' => quiet s s').
Proof. unfold armRead, bind, get, upd, SetDeadline, killed, ret. simpl. quiet_tac. Qed.

End Quiet.

#[export] Hint Resolve killed_quiet SetDeadline_quiet closeLink_quiet leave_quiet enter_quiet failRx_quiet failTx_quiet
  markKilled_quiet txFailed_quiet afterOp_quiet readError_quiet armRead_quiet : hqq.

(** Steps that only record a failure or leave the gate. *)
Ltac quiet_step H := eapply safe_bind; [apply H|]; cbv beta.

(** ** The ring *)

(** The slot of the [i]-th entry after [hd]. *)
Definition ring_at (hd i n : nat) : nat := if (hd + i <? n)%nat then (hd + i)%nat else (hd + i - n)%nat.

(** Arithmetic on ring indices. *)
Ltac ring_lia :=
  unfold ring_at; repeat bcase;
  repeat match goal with H : (_ <? _)%nat = _ |- _ => apply Nat.ltb_lt in H || apply Nat.ltb_ge in H end; lia.

Section Ring.
Implicit Types (p : pend) (u : list (option nat)).

Lemma ring_at_mod hd i n : (hd < n)%nat -> (i < n)%nat -> ((hd + i) mod n)%nat = ring_at hd i n.
Proof.
  intros H1 H2. unfold ring_at. destruct (Nat.ltb_spec (hd + i) n); [by apply Nat.mod_small|].
  replace (hd + i)%nat with ((hd + i - n) + 1 * n)%nat at 1 by lia. rewrite Nat.Div0.mod_add. apply Nat.mod_small. lia.
Qed.

Lemma rot_lookup u hd i : (hd < length u)%nat -> (i < length u)%nat ->
  (drop hd u ++ take hd u) !! i = u !! ring_at hd i (length u).
Proof.
  intros H1 H2. unfold ring_at. destruct (Nat.ltb_spec (hd + i) (length u)).
  - rewrite lookup_app_l by (rewrite length_drop; lia). by rewrite lookup_drop.
  - rewrite lookup_app_r by (rewrite length_drop; lia). rewrite length_drop, lookup_take_lt by lia. f_equal. lia.
Qed.

Lemma queue_lookup p i : (unansHd p < length (unans p))%nat -> (unansN p <= length (unans p))%nat ->
  queue p !! i = if (i <? unansN p)%nat then unans p !! ring_at (unansHd p) i (length (unans p)) else None.
Proof.
  intros H1 H2. unfold queue. destruct (Nat.ltb_spec i (unansN p)).
  - rewrite lookup_take_lt by done. apply rot_lookup; lia.
  - apply lookup_ge_None. rewrite length_take. lia.
Qed.

Lemma queue_length p : (unansN p <= length (unans p))%nat -> length (queue p) = unansN p.
Proof. intros H. unfold queue. rewrite length_take, length_app, length_drop, length_take. lia. Qed.

(** [finish] takes the oldest entry off. *)
Lemma queue_pop p p' : (unansHd p < length (unans p))%nat -> (0 < unansN p <= length (unans p))%nat ->
  unans p' = <[unansHd p := None]> (unans p) -> unansN p' = pred (unansN p) ->
  unansHd p' = (if (S (unansHd p) =? length (unans p))%nat then 0%nat else S (unansHd p)) ->
  (unansHd p' < length (unans p'))%nat /\ queue p' = tail (queue p).
Proof.
  intros Hh Hn Eu En Eh. assert (Hl : length (unans p') = length (unans p)) by (rewrite Eu; apply length_insert).
  assert (Hh' : (unansHd p' < length (unans p'))%nat) by (rewrite Hl, Eh; destruct (Nat.eqb_spec (S (unansHd p)) (length (unans p))); lia).
  split; [done|]. apply list_eq. intros i. rewrite queue_lookup by lia.
  assert (Et : tail (queue p) !! i = queue p !! S i) by (by destruct (queue p)).
  rewrite Et, queue_lookup, En, Hl by lia.
  destruct (Nat.ltb_spec i (pred (unansN p))), (Nat.ltb_spec (S i) (unansN p)); try lia; [|done].
  rewrite Eu, list_lookup_insert_ne.
  - f_equal. rewrite Eh. destruct (Nat.eqb_spec (S (unansHd p)) (length (unans p))); ring_lia.
  - rewrite Eh. destruct (Nat.eqb_spec (S (unansHd p)) (length (unans p))); ring_lia.
Qed.

(** [Submit] appends one. *)
Lemma queue_push p p' r : (unansHd p < length (unans p))%nat -> (unansN p < length (unans p))%nat ->
  unans p' = <[((unansHd p + unansN p) mod length (unans p))%nat := Some r]> (unans p) -> unansN p' = S (unansN p) ->
  unansHd p' = unansHd p -> queue p' = queue p ++ [Some r].
Proof.
  intros Hh Hn Eu En Eh. rewrite ring_at_mod in Eu by lia.
  assert (Hl : length (unans p') = length (unans p)) by (rewrite Eu; apply length_insert).
  apply list_eq. intros i. rewrite queue_lookup by (rewrite ?Hl, ?Eh, ?En; lia). rewrite En, Eh, Hl.
  pose proof (queue_length p ltac:(lia)) as Hq. destruct (Nat.ltb_spec i (S (unansN p))).
  - destruct (decide (i = unansN p)) as [->|].
    + rewrite lookup_app_r, Hq, Nat.sub_diag by lia. rewrite Eu. apply list_lookup_insert_eq. ring_lia.
    + rewrite lookup_app_l, queue_lookup by lia. destruct (Nat.ltb_spec i (unansN p)); [|lia].
      rewrite Eu. apply list_lookup_insert_ne. ring_lia.
  - symmetry. apply lookup_ge_None. rewrite length_app, Hq. simpl. lia.
Qed.

End Ring.

(** ** Updates of the calls *)

(** The fields of a call the invariant is about. *)
Definition core (k : Call) : Z * Z * Z * Z * bool * bool * Z * nat :=
  (c_id k, c_op k, c_rf k, c_respMax k, c_pending k, c_done k, c_status k, c_idx k).

Lemma alter_id {A} r (l : list A) : alter (fun k => k) r l = l.
Proof.
  apply list_eq. intros i. destruct (decide (i = r)) as [->|]; [|by rewrite list_lookup_alter_ne].
  rewrite list_lookup_alter_eq. by destruct (l !! r).
Qed.

Lemma alter_alter {A} (f g : A -> A) r (l : list A) : alter f r (alter g r l) = alter (fun k => f (g k)) r l.
Proof.
  apply list_eq. intros i. destruct (decide (i = r)) as [->|]; [|by rewrite !list_lookup_alter_ne].
  rewrite !list_lookup_alter_eq. by destruct (l !! r).
Qed.

Section Updates.
Implicit Types (p : pend) (q : list nat) (l : Limits).

Lemma core_lookup p p' r k : (forall r, core <$> calls p' !! r = core <$> calls p !! r) ->
  calls p !! r = Some k -> exists k', calls p' !! r = Some k' /\ core k' = core k.
Proof. intros H E. specialize (H r). rewrite E in H. destruct (calls p' !! r) as [k'|]; simpl in H; [|done]. apply (inj Some) in H. by exists k'. Qed.

(** A step that changes neither the ring nor what the invariant says of a call. *)
Lemma pend_core l q p p' :
  (unans p', unansHd p', unansN p', unansRF p', live p', free p') = (unans p, unansHd p, unansN p, unansRF p, live p, free p) ->
  asm_ok l q p (asm p') -> (forall r, core <$> calls p' !! r = core <$> calls p !! r) -> bufs_ok p' ->
  pend_inv l q p -> pend_inv l q p'.
Proof.
  intros E1 E2 Hc Hb [I1 I2 I3 I4 I5 I6 I7 I8 I9 I10 I11 I12 I13 I14 I15]. simplify_eq.
  pose proof (core_lookup p p') as Hk. assert (Hk' : forall r k, calls p' !! r = Some k -> exists k', calls p !! r = Some k' /\ core k = core k').
  { intros r k Hr. destruct (core_lookup p' p r k) as (k' & ? & ?); [done|done|]. by eauto. }
  unfold core in *.
  constructor; unfold queue, open_call in *; try congruence; try done.
  - intros r Hr. destruct (I6 r Hr) as (k & Hr1 & Hr2). destruct (Hk r k Hc Hr1) as (k' & ? & ?). simplify_eq.
    exists k'. split; [done|]. repeat match goal with E : _ k' = _ k |- _ => rewrite E end. done.
  - replace (unansRF p') with (unansRF p) by done. rewrite I7. f_equal. apply list_fmap_ext. intros i r _. unfold rf_at.
    specialize (Hc r). destruct (calls p' !! r), (calls p !! r); simplify_eq/=; done.
  - intros i r Hr. destruct (I9 i r) as (k & Hr1 & Hr2 & Hr3); [congruence|]. destruct (Hk r k Hc Hr1) as (k' & ? & ?). simplify_eq.
    exists k'. split_and!; congruence.
  - intros r k Hr Hp. destruct (Hk' r k Hr) as (k' & Hr1 & ?). simplify_eq.
    replace (live p') with (live p) by done. apply (I10 r k'); congruence.
  - intros r k Hr Hp Hd. destruct (Hk' r k Hr) as (k' & Hr1 & ?). simplify_eq. apply (I11 r k'); congruence.
  - intros r Hr. destruct (I13 r) as (Hq & k & Hr1 & Hr2 & Hr3 & Hr4); [congruence|]. destruct (Hk r k Hc Hr1) as (k' & ? & ?). simplify_eq.
    split; [done|]. exists k'. split_and!; congruence.
  - intros Ha. destruct (E2 Ha) as (r & q' & k & Eq & Hr1 & Hr2 & Hr3 & Hr4). destruct (Hk r k Hc Hr1) as (k' & ? & ?). simplify_eq.
    exists r, q', k'. split_and!; congruence || lia.
Qed.

(** *** Buffers *)

(** [p'] has the arrays of [p], of the same lengths, and maybe more. *)
Definition arrs_grow p p' : Prop :=
  forall a v, arrs p !! a = Some v -> exists v', arrs p' !! a = Some v' /\ length v' = length v.

(** A slice that can become the buffer of [k]: it is in its array or in a new one. *)
Definition buf_for p p' (k : Call) (s : bslice) : Prop :=
  slice_ok p' s /\ forall a n, s = SArr a n -> (length (arrs p) <= a)%nat \/ exists n0, c_buf k = SArr a n0.

Lemma slice_grow p p' s : arrs_grow p p' -> slice_ok p s -> slice_ok p' s.
Proof.
  intros Hg. destruct s as [|a n|]; simpl; try done. intros (v & Hv & Hn). destruct (Hg a v Hv) as (v' & Hv' & El).
  exists v'. split; [done|]. unfold len in *. by rewrite El.
Qed.

Lemma bufs_same p p' : bufs_ok p -> arrs_grow p p' -> (forall r, c_buf <$> calls p' !! r = c_buf <$> calls p !! r) -> bufs_ok p'.
Proof.
  intros [H1 H2] Hg Hc.
  assert (Hk : forall r k, calls p' !! r = Some k -> exists k', calls p !! r = Some k' /\ c_buf k' = c_buf k).
  { intros r k Hr. specialize (Hc r). rewrite Hr in Hc. simpl in Hc. destruct (calls p !! r) as [k'|]; simpl in Hc; [|done].
    apply (inj Some) in Hc. by exists k'. }
  split.
  - intros r k Hr. destruct (Hk r k Hr) as (k' & Hr' & <-). eapply slice_grow; [done|]. by eapply H1.
  - intros r1 r2 k1 k2 a n1 n2 Hr1 Hr2 E1 E2. destruct (Hk _ _ Hr1) as (k1' & ? & ?), (Hk _ _ Hr2) as (k2' & ? & ?).
    eapply (H2 r1 r2 k1' k2'); try done; by etrans.
Qed.

Lemma bufs_set p p' r k s : bufs_ok p -> calls p !! r = Some k -> calls p' = alter (set_buf s) r (calls p) ->
  arrs_grow p p' -> buf_for p p' k s -> bufs_ok p'.
Proof.
  intros [H1 H2] Hr Ec Hg [Hs Hn].
  assert (Hk : forall r' k', calls p' !! r' = Some k' -> r' <> r /\ calls p !! r' = Some k' \/ r' = r /\ c_buf k' = s).
  { intros r' k' Hr'. rewrite Ec in Hr'. destruct (decide (r' = r)) as [->|Hne].
    - right. split; [done|]. rewrite list_lookup_alter_eq, Hr in Hr'. simplify_eq/=. done.
    - left. split; [done|]. by rewrite list_lookup_alter_ne in Hr' by done. }
  assert (Hx : forall r' k' a n n', r' <> r -> calls p !! r' = Some k' -> c_buf k' = SArr a n -> s = SArr a n' -> False).
  { intros r' k' a n n' Hne Hr' Eb Es. destruct (Hn a n' Es) as [Hge|(n0 & Ek)].
    - pose proof (H1 r' k' Hr') as Hok. rewrite Eb in Hok. destruct Hok as (v & Hv & _). apply lookup_lt_Some in Hv. lia.
    - apply Hne. eapply (H2 r' r); eauto. }
  split.
  - intros r' k' Hr'. destruct (Hk _ _ Hr') as [[_ Ho]|[_ ->]]; [|done]. eapply slice_grow; eauto.
  - intros r1 r2 k1 k2 a n1 n2 Hr1 Hr2 E1 E2.
    destruct (Hk _ _ Hr1) as [[Hn1 Ho1]|[-> Eb1]], (Hk _ _ Hr2) as [[Hn2 Ho2]|[-> Eb2]]; [by eapply H2| | |done]; exfalso.
    + eapply (Hx r1 k1 a n1 n2); [done|done|done|congruence].
    + eapply (Hx r2 k2 a n2 n1); [done|done|done|congruence].
Qed.

(** *** Answering the oldest call *)

Lemma sum_nonneg (l : list Z) : Forall (fun x => 0 <= x) l -> 0 <= sum l.
Proof. induction 1; simpl; lia. Qed.

(** The fields of a call that an answer keeps. *)
Definition same_call (k k' : Call) : Prop :=
  c_id k' = c_id k /\ c_op k' = c_op k /\ c_rf k' = c_rf k /\ c_respMax k' = c_respMax k /\ c_pending k' = c_pending k /\
  c_idx k' = c_idx k /\ c_buf k' = c_buf k.

Lemma rf_sum_ne p p' q r f :
  calls p' = alter f r (calls p) -> r ∉ q -> sum (rf_at p' <$> q) = sum (rf_at p <$> q).
Proof.
  intros E Hnin. f_equal. apply list_fmap_ext. intros i x Hx. unfold rf_at. rewrite E, list_lookup_alter_ne; [done|].
  intros ->. apply Hnin. by eapply list_elem_of_lookup_2.
Qed.

Lemma finish_inv l q r k f p p' :
  pend_inv l (r :: q) p -> calls p !! r = Some k -> same_call k (f k) -> c_done (f k) = true ->
  p' = mkPend (<[unansHd p := None]> (unans p)) (if (S (unansHd p) =? length (unans p))%nat then 0%nat else S (unansHd p))
         (pred (unansN p)) (unansRF p - c_rf k) (live p) (free p) no_asm (alter f r (calls p)) (arrs p) ->
  pend_inv l q p' /\ unansRF p' < unansRF p.
Proof.
  intros [I1 I2 I3 I4 I5 I6 I7 I8 I9 I10 I11 I12 I13 I14 I15] Hr (S1 & S2 & S3 & S4 & S5 & S6 & S7) Hd ->.
  pose proof (queue_length p I3) as Hl. rewrite I4, length_fmap in Hl. simpl in Hl.
  edestruct (queue_pop p (mkPend (<[unansHd p := None]> (unans p)) (if (S (unansHd p) =? length (unans p))%nat then 0%nat else S (unansHd p))
         (pred (unansN p)) (unansRF p - c_rf k) (live p) (free p) no_asm (alter f r (calls p)) (arrs p))) as [Hh Eq]; try done; [lia|].
  rewrite I4 in Eq. simpl in Eq. apply list.NoDup_cons in I5 as [Hnin Hnd].
  assert (Hrf : c_rf k = rf_at p r) by (unfold rf_at; by rewrite Hr).
  assert (Hpos : 0 <= sum (rf_at p <$> q)).
  { apply sum_nonneg, Forall_fmap, list.Forall_forall. intros x Hx. destruct (I6 x) as (kx & Ex & _ & _ & ? & _); [by right|].
    unfold compose, rf_at. rewrite Ex. simpl. lia. }
  assert (Hk1 : 1 <= c_rf k) by (destruct (I6 r) as (kx & Ex & _ & _ & ? & _); [by left|]; congruence || (simplify_eq; done)).
  rewrite fmap_cons in I7. change (unansRF p = rf_at p r + sum (rf_at p <$> q)) in I7.
  split; [|simpl; lia]. constructor; simpl; try done.
  - by rewrite length_insert.
  - rewrite length_insert. lia.
  - intros x Hx. destruct (I6 x) as (kx & Ex & Hx'); [by right|]. exists kx. split; [|done].
    rewrite list_lookup_alter_ne; [done|]. intros ->. done.
  - erewrite (rf_sum_ne p); [|done|done]. lia.
  - destruct I8; [left; lia|right; simpl in *; lia].
  - intros i x Hx. destruct (I9 i x Hx) as (kx & Ex & E1 & E2). destruct (decide (x = r)) as [->|Hne].
    + rewrite list_lookup_alter_eq, Hr. exists (f k). simplify_eq. split_and!; [done|congruence..].
    + rewrite list_lookup_alter_ne by done. by exists kx.
  - intros x kx Hx Hp. destruct (decide (x = r)) as [->|Hne].
    + rewrite list_lookup_alter_eq, Hr in Hx. simplify_eq/=. apply (I10 r k); congruence.
    + rewrite list_lookup_alter_ne in Hx by done. by eapply I10.
  - intros x kx Hx Hp Hdx. destruct (decide (x = r)) as [->|Hne].
    + rewrite list_lookup_alter_eq, Hr in Hx. simplify_eq/=. congruence.
    + rewrite list_lookup_alter_ne in Hx by done. pose proof (I11 x kx Hx Hp Hdx) as Hin. by apply elem_of_cons in Hin as [?|?].
  - intros x Hx. destruct (I13 x Hx) as (Hq & kx & Ex & E1 & E2 & E3). apply not_elem_of_cons in Hq as [Hq1 Hq2].
    split; [done|]. exists kx. by rewrite list_lookup_alter_ne.
  - eapply bufs_same; [exact I15| |]; [intros a v Hv; by exists v|]. simpl. intros x. destruct (decide (x = r)) as [->|Hne].
    + rewrite list_lookup_alter_eq, Hr. simpl. congruence.
    + by rewrite list_lookup_alter_ne.
Qed.

End Updates.

(** ** Steps that move the calls only *)

Definition with_pd (p : pend) (s : st) : st := mkSt (set_pd p (cn s)) (wd s).

Lemma set_pd_id c : set_pd (pd c) c = c.
Proof. by destruct c. Qed.

Lemma set_pd_pd p p' c : set_pd p (set_pd p' c) = set_pd p c.
Proof. done. Qed.

Lemma set_arrs_id p : set_arrs (arrs p) p = p.
Proof. by destruct p. Qed.

Lemma with_pd_id s : with_pd (pd (cn s)) s = s.
Proof. unfold with_pd. rewrite set_pd_id. by destruct s. Qed.

(** What a call keeps while its response comes in. *)
Definition request (k : Call) : Z * Z * Z * Z * bool * nat :=
  (c_id k, c_op k, c_rf k, c_respMax k, c_pending k, c_idx k).

Definition keeps (p p' : pend) : Prop :=
  live p' = live p /\ free p' = free p /\ forall r, request <$> calls p' !! r = request <$> calls p !! r.

#[export] Instance keeps_preorder : PreOrder keeps.
Proof.
  split; [done|]. intros p1 p2 p3 (A1 & A2 & A3) (B1 & B2 & B3). split_and!; try congruence.
Qed.

Lemma keeps_alter p p' r f : live p' = live p -> free p' = free p -> calls p' = alter f r (calls p) ->
  (forall k, calls p !! r = Some k -> request (f k) = request k) -> keeps p p'.
Proof.
  intros E1 E2 E3 Hf. split_and!; try done. intros i. rewrite E3. destruct (decide (i = r)) as [->|]; [|by rewrite list_lookup_alter_ne].
  rewrite list_lookup_alter_eq. destruct (calls p !! r) eqn:E; simpl; [by rewrite (Hf c)|done].
Qed.

Lemma keeps_calls p p' : live p' = live p -> free p' = free p -> calls p' = calls p -> keeps p p'.
Proof. intros E1 E2 E3. split_and!; try done. intros i. by rewrite E3. Qed.

(** Only the calls, and the spare capacities still to come, changed. *)
Definition only_pd (s s' : st) : Prop :=
  exists p cs, keeps (pd (cn s)) p /\ s' = mkSt (set_pd p (cn s))
    (mkWorld (rxs (wd s)) (txs (wd s)) (dls (wd s)) (kills (wd s)) cs (closeErr (wd s)) (sent (wd s))).

#[export] Instance only_pd_preorder : PreOrder only_pd.
Proof.
  split.
  - intros [c w]. exists (pd c), (caps w). split; [done|]. by destruct c, w.
  - intros s1 s2 s3 (p & cs & K & ->) (p' & cs' & K' & ->). exists p', cs'. split; [|done]. simpl in K'. by etrans.
Qed.

Lemma only_with_pd p s : keeps (pd (cn s)) p -> only_pd s (with_pd p s).
Proof. intros H. exists p, (caps (wd s)). split; [done|]. destruct s as [c w]. by destruct w. Qed.

(** Rewrite with the outcome of a step on a state equal by computation. *)
Ltac step_eq E :=
  match type of E with
  | ?f ?x = _ => match goal with |- context [f ?y] => change (f y) with (f x) end; rewrite E
  end.

Section Frames.
Implicit Types (q : list nat) (s : st) (p : pend) (k : Call) (r : nat).

Lemma conn_set_pd b q q' c p : conn_inv b q c -> pend_inv (lim c) q' p -> unansRF p <= unansRF (pd c) ->
  (length q' <= length q)%nat -> (b = true -> buffered q' p) -> conn_inv b q' (set_pd p c).
Proof.
  intros [I1 I2 I3 I4 I5 I6 I7 I8 I9 I10] Hp Hrf Hq Hb. constructor; simpl; try done.
  intros Ht. destruct (I7 Ht) as (E1 & E2 & E3 & E4 & E5). simpl in *. split; [done|]. split; [done|]. split; [lia|]. split; [|done].
  destruct E4 as [| ->]; [left; simpl; lia|right]. by destruct q'; simpl in *; [|lia].
Qed.

Lemma unansHead_spec l q s : pend_inv l q (pd (cn s)) -> unansHead s = Ret (head q) s.
Proof.
  intros [I1 I2 I3 I4 _ _ _ _ _ _ _ _ _ _ _]. unfold unansHead, bind, get, ret.
  pose proof (queue_length _ I3) as Hl. rewrite I4, length_fmap in Hl.
  destruct (Nat.eqb_spec (unansN (pd (cn s))) 0) as [E|E]; [by destruct q; simpl in *; [|lia]|].
  destruct q as [|r q]; simpl in Hl; [lia|]. pose proof (queue_lookup (pd (cn s)) 0 I2 I3) as Hq. rewrite I4 in Hq. simpl in Hq.
  destruct (Nat.ltb_spec 0 (unansN (pd (cn s)))); [|lia]. unfold ring_at in Hq. rewrite Nat.add_0_r in Hq.
  destruct (Nat.ltb_spec (unansHd (pd (cn s))) (length (unans (pd (cn s))))); [|lia]. rewrite <- Hq. done.
Qed.

Lemma deref_spec s r k : calls (pd (cn s)) !! r = Some k -> deref r s = Ret k s.
Proof. intros E. unfold deref, bind, get, of_option, ret. by rewrite E. Qed.

(** [finish] after the answer was written into the call. *)
Lemma finish_spec l q r k g p a s :
  pend_inv l (r :: q) p -> calls p !! r = Some k -> same_call k (g k) ->
  pd (cn s) = set_asm a (set_calls (alter g r (calls p)) p) ->
  exists p', finish r s = Ret tt (with_pd p' s) /\ pend_inv l q p' /\ unansRF p' < unansRF p /\ asm p' = no_asm /\
    calls p' = alter (fun k => set_done (g k)) r (calls p) /\ arrs p' = arrs p /\ live p' = live p /\ free p' = free p.
Proof.
  intros Hp Hr Hg E. pose proof Hp as [_ I2 _ _ _ _ _ _ _ _ _ _ _ _ _].
  unfold finish. unfold bind at 1. rewrite (deref_spec _ _ (g k)); [|rewrite E; simpl; by rewrite list_lookup_alter_eq, Hr].
  unfold bind, upd_call, updp, upd, get. simpl. rewrite E. simpl.
  destruct (Nat.ltb_spec (unansHd p) (length (unans p))); [|lia].
  edestruct (finish_inv l q r k (fun k => set_done (g k)) p) as [Hp' Hrf]; [done|done|..|reflexivity|]; [|done|].
  { destruct Hg as (?&?&?&?&?&?&?). by split_and!. }
  eexists. split; [|split_and!; [exact Hp'|exact Hrf|done..]].
  unfold with_pd. destruct s as [c w]. simpl in *. do 2 f_equal. destruct c. simpl in *. subst. unfold set_pd. simpl. f_equal. f_equal.
  - destruct Hg as (_&_&->&_). done.
  - apply list_eq. intros i. destruct (decide (i = r)) as [->|]; [rewrite !list_lookup_alter_eq, Hr; done|by rewrite !list_lookup_alter_ne].
Qed.


(** *** Buffers *)

Lemma growTo_spec s k n : slice_ok (pd (cn s)) (c_buf k) -> 0 < n ->
  exists a ar, growTo (c_buf k) n s = Ret (SArr a n) (with_pd (set_arrs ar (pd (cn s))) s) /\
    (forall i v, arrs (pd (cn s)) !! i = Some v -> ar !! i = Some v) /\
    buf_for (pd (cn s)) (set_arrs ar (pd (cn s))) k (SArr a n).
Proof.
  intros Hok Hn. unfold growTo, bind, get. destruct (Z.leb_spec n (cap (pd (cn s)) (c_buf k))) as [Hc|Hc].
  - destruct (c_buf k) as [|a m|] eqn:Eb; simpl in *; [lia| |done]. destruct Hok as (v & Hv & Hm). rewrite Hv in Hc. simpl in Hc.
    exists a, (arrs (pd (cn s))). split_and!.
    + by rewrite set_arrs_id, with_pd_id.
    + done.
    + split; [exists v; by split; [|lia]|]. intros a' n' E. simplify_eq. right. by exists m.
  - exists (length (arrs (pd (cn s)))), (arrs (pd (cn s)) ++ [replicate (Z.to_nat n) 0]). split_and!; [done| |split].
    + intros i v Hi. by apply lookup_app_l_Some.
    + exists (replicate (Z.to_nat n) 0). simpl. rewrite lookup_app_r, Nat.sub_diag by lia. split; [done|]. unfold len. rewrite length_replicate. lia.
    + intros a' n' E. simplify_eq. left. simpl. lia.
Qed.

Lemma copy_at_spec s a n off b : 0 <= off -> off + len b <= n ->
  copy_at (SArr a n) off b s = Ret tt (with_pd (set_arrs (alter (blit (Z.to_nat off) b) a (arrs (pd (cn s)))) (pd (cn s))) s).
Proof.
  intros H1 H2. unfold copy_at. simpl. destruct (Z.ltb_spec n off); [pose proof (len_nonneg b); lia|].
  rewrite Z.min_r by lia. unfold updp, upd, len. rewrite Nat2Z.id, firstn_all. done.
Qed.

Lemma append0_spec s k b : slice_ok (pd (cn s)) (c_buf k) ->
  exists sl ar cs, append0 (c_buf k) b s = Ret sl (mkSt (set_pd (set_arrs ar (pd (cn s))) (cn s))
      (mkWorld (rxs (wd s)) (txs (wd s)) (dls (wd s)) (kills (wd s)) cs (closeErr (wd s)) (sent (wd s)))) /\
    content (set_arrs ar (pd (cn s))) sl = b /\ arrs_grow (pd (cn s)) (set_arrs ar (pd (cn s))) /\
    (forall i v, arrs (pd (cn s)) !! i = Some v -> (forall n, c_buf k <> SArr i n) -> ar !! i = Some v) /\
    buf_for (pd (cn s)) (set_arrs ar (pd (cn s))) k sl.
Proof.
  intros Hok. unfold append0, bind, get. destruct s as [c w]. simpl in *. destruct (Z.leb_spec (len b) (cap (pd c) (c_buf k))) as [Hc|Hc].
  - destruct (c_buf k) as [|a m|] eqn:Eb; simpl in *; [| |done].
    + assert (b = []) as -> by (unfold len in Hc; destruct b; simpl in *; [done|lia]).
      exists SNil, (arrs (pd c)), (caps w). split_and!; try done; [|intros a v Hv; by exists v].
      rewrite set_arrs_id, set_pd_id. by destruct w.
    + destruct Hok as (v & Hv & Hm). rewrite Hv in Hc. simpl in Hc. unfold len in Hc.
      exists (SArr a (len b)), (alter (blit 0 b) a (arrs (pd c))), (caps w). split_and!.
      * destruct w. done.
      * simpl. rewrite list_lookup_alter_eq, Hv. simpl. unfold len. rewrite Nat2Z.id. unfold blit. by rewrite take_0, app_nil_l, take_app_length.
      * intros i u Hu. simpl. destruct (decide (i = a)) as [->|]; [|rewrite list_lookup_alter_ne by done; by exists u].
        rewrite list_lookup_alter_eq, Hu. simplify_eq. eexists. split; [done|]. apply length_blit. lia.
      * intros i u Hu Hne. rewrite list_lookup_alter_ne; [done|]. intros ->. by eapply Hne.
      * split; [|intros a' n' E; simplify_eq; right; by exists m]. exists (blit 0 b v). simpl. rewrite list_lookup_alter_eq, Hv.
        split; [done|]. unfold len. rewrite length_blit by lia. lia.
  - eexists (SArr _ (len b)), _, _. split_and!; [reflexivity|..].
    + simpl. rewrite lookup_app_r, Nat.sub_diag by lia. simpl. unfold len. rewrite Nat2Z.id. by rewrite take_app_length.
    + intros i u Hu. simpl. exists u. split; [by apply lookup_app_l_Some|done].
    + intros i u Hu _. by apply lookup_app_l_Some.
    + split; [|intros a' n' E; simplify_eq; left; simpl; lia]. eexists. simpl. rewrite lookup_app_r, Nat.sub_diag by lia.
      split; [done|]. rewrite len_app. unfold len. rewrite length_replicate. lia.
Qed.


Lemma copy_at_safe b s sl off body : slice_ok (pd (cn s)) sl -> 0 <= off -> (slen sl < off -> b = false) ->
  safe b (copy_at sl off body s) (fun _ s' => exists ar, s' = with_pd (set_arrs ar (pd (cn s))) s /\
    arrs_grow (pd (cn s)) (set_arrs ar (pd (cn s)))).
Proof.
  intros Hok Hoff Hb. unfold copy_at. destruct (Z.ltb_spec (slen sl) off) as [Hlt|Hge]; [by apply Hb|].
  destruct sl as [|a n|]; simpl in *; [|destruct Hok as (v & Hv & Hn)|done].
  - exists (arrs (pd (cn s))). rewrite set_arrs_id, with_pd_id. split; [done|]. intros a v Hv. by exists v.
  - eexists. split; [reflexivity|]. intros i u Hu. simpl. destruct (decide (i = a)) as [->|]; [|rewrite list_lookup_alter_ne by done; by exists u].
    rewrite list_lookup_alter_eq, Hu. simplify_eq. eexists. split; [done|]. apply length_blit.
    unfold len in *. rewrite length_take. lia.
Qed.

(** *** The frames still to come *)

Lemma resp_slots_eq l m : limits_ok l -> 0 <= m <= 2 ^ 31 ->
  resp_slots l m = Z.max 1 ((m + (BufferSize l - 16) - 1) / (BufferSize l - 16)).
Proof.
  intros Hl Hm. destruct (lo_size _ Hl) as [Hsz _]. unfold resp_slots. rewrite i64_small by lia. by rewrite Z.quot_div_nonneg by lia.
Qed.

Lemma resp_slots_mono l m n : limits_ok l -> 0 <= m <= n -> n <= 2 ^ 31 -> resp_slots l m <= resp_slots l n.
Proof.
  intros Hl Hm Hn. destruct (lo_size _ Hl) as [Hsz _]. rewrite !resp_slots_eq by (done || lia).
  pose proof (Z.div_le_mono (m + (BufferSize l - 16) - 1) (n + (BufferSize l - 16) - 1) (BufferSize l - 16)). lia.
Qed.

Lemma rf_kept p p' q : keeps p p' -> rf_at p' <$> q = rf_at p <$> q.
Proof.
  intros (_ & _ & K). apply list_fmap_ext. intros i r _. specialize (K r). unfold rf_at, request in *.
  destruct (calls p' !! r), (calls p !! r); simplify_eq/=; done.
Qed.

(** A full frame is one frame less. *)
Lemma resp_slots_full l m : limits_ok l -> BufferSize l - 16 < m <= 2 ^ 31 ->
  resp_slots l (m - (BufferSize l - 16)) < resp_slots l m.
Proof.
  intros Hl Hm. destruct (lo_size _ Hl) as [Hsz _]. rewrite !resp_slots_eq by (done || lia). set (c := BufferSize l - 16) in *.
  replace (m + c - 1) with (m - c + c - 1 + 1 * c) by lia. rewrite Z.div_add by lia.
  pose proof (Z.div_le_mono (1 * c) (m - c + c - 1) c). rewrite Z.div_mul in * by lia.
  assert (1 <= (m - c + c - 1) / c \/ m - c = 0) by lia. lia.
Qed.

Lemma resp_slots_pos l m : 1 <= resp_slots l m.
Proof. unfold resp_slots. lia. Qed.

(** *** Accepting a frame *)

(** What a frame does to a session with the unanswered calls [q]: an error
    leaves it alone, an incomplete response keeps [q], a complete one answers
    the oldest call. *)
Definition accepted (b : bool) (q : list nat) (s : st) (res : result rterr (bool * bool)) (s' : st) : Prop :=
  only_pd s s' /\
  match res with
  | Err _ => s' = s
  | Ok (_, false) => conn_inv b q (cn s') /\ left (lim (cn s)) q (pd (cn s')) < left (lim (cn s)) q (pd (cn s))
  | Ok (_, true) => exists r q', q = r :: q' /\ conn_inv b q' (cn s') /\ a_active (asm (pd (cn s'))) = false
  end.

(** The oldest call of [q] was not refused. *)
Definition status_ok (q : list nat) (s : st) : Prop :=
  forall r k, head q = Some r -> calls (pd (cn s)) !! r = Some k -> c_status k = 0.

(** The first arrays of a store, with new contents. *)
Lemma pend_arrs l q p ar a : pend_inv l q p -> arrs_grow p (set_arrs ar p) -> asm_ok l q p a ->
  pend_inv l q (set_asm a (set_arrs ar p)).
Proof.
  intros Hp Hg Ha. apply (pend_core l q p); [done|exact Ha|done| |exact Hp]. eapply bufs_same; [apply Hp| |done].
  intros i v Hv. by apply Hg.
Qed.

(** The oldest call is answered, after [g] was written into it. *)
Lemma answer_inv b q r k g p a s :
  conn_inv b (r :: q) (cn s) -> pend_inv (lim (cn s)) (r :: q) p -> unansRF p = unansRF (pd (cn s)) ->
  keeps (pd (cn s)) p -> calls p !! r = Some k -> same_call k (g k) ->
  let s1 := with_pd (set_asm a (set_calls (alter g r (calls p)) p)) s in
  exists p', finish r s1 = Ret tt (with_pd p' s1) /\ conn_inv b q (cn (with_pd p' s1)) /\ only_pd s (with_pd p' s1) /\
    calls p' = alter (fun k => set_done (g k)) r (calls p) /\ arrs p' = arrs p /\ live p' = live p /\ free p' = free p /\ asm p' = no_asm.
Proof.
  intros Hc Hp Hrf Hkeep Hr Hg s1. edestruct (finish_spec (lim (cn s)) q r k g p a s1) as
    (p' & E & Hp' & Hrf' & Ha & Hcl & Har & Hl & Hf); [done|done|done|done|].
  exists p'. split; [exact E|]. split; [|split; [|done]]; [|refine (only_with_pd p' s _)].
  2: { etrans; [exact Hkeep|]. eapply keeps_alter; [done..|]. intros k' Hk'. simplify_eq. destruct Hg as (?&?&?&?&?&?&?). unfold request. simpl. congruence. }
  refine (conn_set_pd b _ q (cn s) p' Hc _ _ _ _); [done|lia|simpl; lia|].
  intros _ Hx. rewrite Ha in Hx. done.
Qed.

Lemma acceptCont_inv b q s h body mode : conn_inv b q (cn s) -> a_active (asm (pd (cn s))) = true ->
  (mode = rxDiscard -> b = false) ->
  safe (b || bool_decide (mode = rxDiscard)) (acceptCont h body mode s)
    (fun res s' => accepted b q s (match res with Ok c => Ok (false, c) | Err e => Err e end) s').
Proof.
  intros Hc Ha Hm. pose proof (ci_pend _ _ _ Hc) as Hp. destruct (pi_asm _ _ _ Hp Ha) as (r & q' & k & -> & Hr & Hid & Ht & Hgot).
  pose proof (ci_chunk _ _ _ Hc) as Hch. pose proof (ci_limits _ _ _ Hc) as Hlim. pose proof (lo_size _ Hlim) as [Hsz _].
  unfold acceptCont. apply safe_get. unfold bind at 1. rewrite (unansHead_spec _ _ _ Hp). cbn [head].
  destruct (contMatches h (asm (pd (cn s)))); simpl; [|by split]. set (a := asm (pd (cn s))) in *.
  destruct (Z.eqb_spec (len body) (Z.min (a_total a - a_got a) (chunk (cn s)))) as [El|]; simpl; [|by split].
  pose proof (len_nonneg body) as Hln.
  eapply safe_bind with (R := fun _ s' => exists ar, s' = with_pd (set_arrs ar (pd (cn s))) s /\ arrs_grow (pd (cn s)) (set_arrs ar (pd (cn s)))).
  { destruct (bool_decide_reflect (mode = rxDiscard)) as [Hd|Hd]; simpl.
    - exists (arrs (pd (cn s))). rewrite set_arrs_id, with_pd_id. split; [done|]. intros i v Hv. by exists v.
    - unfold bind, of_option, ret. rewrite (deref_spec _ _ _ Hr). rewrite orb_false_r. apply copy_at_safe; [|lia|].
      + by apply (proj1 (pi_bufs _ _ _ Hp) r).
      + intros Hlt. destruct b; [|done]. destruct (ci_buffered _ _ _ Hc eq_refl Ha r k eq_refl Hr) as (x & Ex). fold a in Ex.
        rewrite Ex in Hlt. simpl in Hlt. lia. }
  intros [] s1 (ar & -> & Hg). unfold bind at 1, updp, upd. simpl.
  destruct (Z.ltb_spec (a_got a + len body) (a_total a)) as [Hlt|Hge]; simpl.
  - split; [by refine (only_with_pd _ s _); apply keeps_calls|]. split.
    2: { unfold left. simpl. fold a. rewrite Ha. replace (a_total a - (a_got a + len body)) with (a_total a - a_got a - (BufferSize (lim (cn s)) - 16)) by lia.
         destruct (pi_open _ _ _ Hp r) as (k' & Hr' & _ & _ & _ & Hmx & _); [by left|]. pose proof (lo_message _ Hlim). simplify_eq.
         pose proof (resp_slots_full (lim (cn s)) (a_total a - a_got a) Hlim). unfold rf_at. simpl. lia. }
    refine (conn_set_pd b (r :: q') (r :: q') (cn s) _ Hc _ _ _ _); [|simpl; lia|done|].
    + apply pend_arrs; [done|done|]. intros _. exists r, q', k. simpl. split_and!; try done; lia.
    + intros -> _ r' k' Er Hr'. by apply (ci_buffered _ _ _ Hc eq_refl Ha r' k').
  - assert (Hp1 : pend_inv (lim (cn s)) (r :: q') (set_arrs ar (pd (cn s)))).
    { pose proof (pend_arrs _ _ _ ar a Hp Hg (pi_asm _ _ _ Hp)) as Hx. by destruct (pd (cn s)). }
    set (A := mkAsm (a_active a) (a_id a) (a_total a) (a_got a + len body)).
    destruct (bool_decide (mode = rxDiscard)).
    + unfold bind, ret.
      edestruct (answer_inv b q' r k (fun k => k) (set_arrs ar (pd (cn s))) A) as (p' & E & Hinv & Honly & _ & _ & _ & _ & Hna); [exact Hc|exact Hp1|done|by apply keeps_calls|exact Hr|by split_and!|].
      rewrite alter_id in E. unfold with_pd in E. simpl in E. replace (set_calls _ _) with (set_arrs ar (pd (cn s))) in E by done.
      step_eq E. simpl. split; [exact Honly|]. exists r, q'. split_and!; [done|done|]. exact (f_equal a_active Hna).
    + unfold bind, upd_call, updp, upd, ret. simpl.
      edestruct (answer_inv b q' r k (fun k => set_body (c_buf k) k) (set_arrs ar (pd (cn s))) A) as (p' & E & Hinv & Honly & _ & _ & _ & _ & Hna); [exact Hc|exact Hp1|done|by apply keeps_calls|exact Hr|by split_and!|].
      step_eq E. simpl. split; [exact Honly|]. exists r, q'. split_and!; [done|done|]. exact (f_equal a_active Hna).
Qed.


(** A change of the call that keeps what the invariant says of it. *)
Lemma pend_alter l q p r f : pend_inv l q p -> (forall k, core (f k) = core k /\ c_buf (f k) = c_buf k) ->
  pend_inv l q (set_calls (alter f r (calls p)) p).
Proof.
  intros Hp Hf.
  assert (Hl : forall {B} (g : Call -> B) i, (forall k, g (f k) = g k) -> g <$> alter f r (calls p) !! i = g <$> calls p !! i).
  { intros B g i Hg. destruct (decide (i = r)) as [->|]; [|by rewrite list_lookup_alter_ne].
    rewrite list_lookup_alter_eq. destruct (calls p !! r); simpl; [by rewrite Hg|done]. }
  apply (pend_core l q p); [done|apply Hp| |..|exact Hp].
  - intros i. simpl. apply Hl. apply Hf.
  - eapply bufs_same; [apply Hp|by intros a v Hv; exists v|]. intros i. simpl. apply Hl. apply Hf.
Qed.

Lemma statusResponse_inv b q r k h body s : conn_inv b (r :: q) (cn s) -> calls (pd (cn s)) !! r = Some k ->
  safe true (statusResponse r h body s)
    (fun e s' => match e with Some _ => s' = s | None => only_pd s s' /\ conn_inv b q (cn s') /\ a_active (asm (pd (cn s'))) = false end).
Proof.
  intros Hc Hr. unfold statusResponse. destruct (negb _); [done|]. destruct (negb _); [done|]. destruct (_ <? _); [done|].
  destruct (GetStr body 0 MsgMax) as [[msg e]|]; [|done]. destruct (_ =? _); [|done].
  unfold bind, upd_call, updp, upd.
  edestruct (answer_inv b q r k (set_status (h_aux h) msg) (pd (cn s)) (asm (pd (cn s)))) as (p' & E & Hinv & Honly & _ & _ & _ & _ & Hna);
    [exact Hc|apply Hc|done|done|exact Hr|by split_and!|].
  step_eq E. simpl. split; [exact Honly|]. split; [exact Hinv|]. exact (f_equal a_active Hna).
Qed.

Lemma blit_grow p ar a off (src : bytes) v : ar !! a = Some v -> (off + length src <= length v)%nat ->
  arrs_grow (set_arrs ar p) (set_arrs (alter (blit off src) a ar) p).
Proof.
  intros Hv Hl i u Hu. simpl in *. destruct (decide (i = a)) as [->|]; [|rewrite list_lookup_alter_ne by done; by exists u].
  rewrite list_lookup_alter_eq, Hu. simplify_eq. eexists. split; [done|]. by apply length_blit.
Qed.

Lemma arrs_grow_trans p1 p2 p3 : arrs_grow p1 p2 -> arrs_grow p2 p3 -> arrs_grow p1 p3.
Proof. intros H1 H2 a v Hv. destruct (H1 a v Hv) as (v1 & Hv1 & E1), (H2 a v1 Hv1) as (v2 & Hv2 & E2). exists v2. split; [done|congruence]. Qed.

(** A call gets another buffer. *)
Lemma pend_set_buf l q p p' r k sl : pend_inv l q p -> calls p !! r = Some k -> asm_ok l q p (asm p') ->
  (unans p', unansHd p', unansN p', unansRF p', live p', free p') = (unans p, unansHd p, unansN p, unansRF p, live p, free p) ->
  calls p' = alter (set_buf sl) r (calls p) -> arrs_grow p p' -> buf_for p p' k sl -> pend_inv l q p'.
Proof.
  intros Hp Hr Ha E Ec Hg Hb. apply (pend_core _ _ p); [done|done| |by eapply bufs_set; [apply Hp|..]|done].
  intros i. rewrite Ec. destruct (decide (i = r)) as [->|]; [|by rewrite list_lookup_alter_ne]. by rewrite list_lookup_alter_eq, Hr.
Qed.

Lemma acceptFirst_inv b q r k h body mode s : conn_inv b (r :: q) (cn s) -> calls (pd (cn s)) !! r = Some k ->
  h_id h = c_id k -> chunk (cn s) < h_total h <= c_respMax k -> len body = chunk (cn s) -> (mode = rxDiscard -> b = false) ->
  safe true (acceptFirst r k h body mode s) (fun _ s' => only_pd s s' /\ conn_inv b (r :: q) (cn s') /\
    asm (pd (cn s')) = mkAsm true (h_id h) (h_total h) (len body)).
Proof.
  intros Hc Hr Hid Ht El Hm. pose proof (ci_pend _ _ _ Hc) as Hp. pose proof (ci_chunk _ _ _ Hc) as Hch.
  pose proof (lo_size _ (ci_limits _ _ _ Hc)) as [Hsz _].
  set (A := mkAsm true (h_id h) (h_total h) (len body)).
  assert (HA : asm_ok (lim (cn s)) (r :: q) (pd (cn s)) A) by (intros _; exists r, q, k; simpl; split_and!; try done; lia).
  assert (Hp1 : pend_inv (lim (cn s)) (r :: q) (set_asm A (pd (cn s)))).
  { apply (pend_core _ _ (pd (cn s))); [done|exact HA|done| |done]. eapply bufs_same; [apply Hp| |done]. intros i v Hv. by exists v. }
  unfold acceptFirst, bind, updp, upd. cbn [wd]. destruct (bool_decide_reflect (mode = rxDiscard)) as [Hd|Hd].
  - rewrite (Hm Hd) in *. simpl. split; [by apply only_with_pd, keeps_calls|]. split; [|done]. eapply conn_set_pd; [exact Hc|done|simpl; lia|done|done].
  - destruct (growTo_spec (with_pd (set_asm A (pd (cn s))) s) k (h_total h)) as (a & ar & E & Hold & Hb); [by apply (pi_bufs _ _ _ Hp) in Hr|lia|].
    step_eq E. unfold upd_call, updp, upd. rewrite copy_at_spec by (lia || (pose proof (len_nonneg body); lia)).
    simpl. split; [by refine (only_with_pd _ s _); eapply keeps_alter|]. split; [|done].
    set (p5 := set_arrs _ _). refine (conn_set_pd b _ (r :: q) (cn s) p5 Hc _ _ _ _); [|simpl; lia|done|].
    + destruct Hb as [(v & Hv & Hn) Hb]. simpl in Hv.
      assert (Hl : (0 + length body <= length v)%nat) by (unfold len in *; lia).
      assert (Hg : arrs_grow (set_arrs ar (pd (cn s))) p5) by (exact (blit_grow (pd (cn s)) ar a 0 body v Hv Hl)).
      apply (pend_set_buf _ _ (pd (cn s)) _ r k (SArr a (h_total h))); try done.
      * eapply arrs_grow_trans; [|exact Hg]. intros i u Hu. exists u. split; [by apply Hold|done].
      * split; [|exact Hb]. eapply slice_grow; [exact Hg|]. exists v. by split.
    + intros _ _ r' k' Er Hr'. simplify_eq/=. rewrite list_lookup_alter_eq, Hr in Hr'. simplify_eq/=. by exists a.
Qed.

Lemma acceptSingle_inv b q r k body mode s : conn_inv b (r :: q) (cn s) -> calls (pd (cn s)) !! r = Some k ->
  safe true (acceptSingle r k body mode s) (fun held s' => only_pd s s' /\ (conn_inv b q (cn s') /\ a_active (asm (pd (cn s'))) = false) /\
    (held = true -> mode = rxHold /\ forall k', calls (pd (cn s')) !! r = Some k' -> c_status k' = c_status k)).
Proof.
  intros Hc Hr. pose proof (ci_pend _ _ _ Hc) as Hp. unfold acceptSingle. destruct mode.
  - destruct (append0_spec s k body) as (sl & ar & cs & E & _ & Hg & _ & Hb); [by apply (pi_bufs _ _ _ Hp) in Hr|].
    unfold bind at 1. rewrite E. set (s1 := mkSt _ _). set (p1 := set_arrs ar (pd (cn s))) in *.
    set (p2 := set_calls (alter (set_buf sl) r (calls p1)) p1).
    assert (Hp2 : pend_inv (lim (cn s)) (r :: q) p2) by (apply (pend_set_buf _ _ (pd (cn s)) _ r k sl); try done; apply Hp).
    edestruct (answer_inv b q r (set_buf sl k) (set_body sl) p2 (asm p2) (mkSt (cn s) (wd s1))) as (p' & E' & Hinv & Honly & _ & _ & _ & _ & Hna);
      [exact Hc|exact Hp2|done|by eapply keeps_alter; [done..|]; intros; simpl in *|by simpl; rewrite list_lookup_alter_eq, Hr|by split_and!|].
    unfold bind, upd_call, updp, upd. step_eq E'. simpl. split; [|split; [split; [done|exact (f_equal a_active Hna)]|done]]. destruct Honly as (p3 & cs3 & Hk3 & E3). exists p3, cs3. by split.
  - edestruct (answer_inv b q r k (fun k => set_inPlace (set_body (SSlot body) k)) (pd (cn s)) (asm (pd (cn s)))) as (p' & E & Hinv & Honly & Hcalls & _ & _ & _ & Hna);
      [exact Hc|exact Hp|done|done|exact Hr|by split_and!|].
    unfold bind, upd_call, updp, upd. simpl. rewrite alter_alter.
    step_eq E. simpl. split; [exact Honly|]. split; [split; [done|exact (f_equal a_active Hna)]|]. intros _. split; [done|]. intros k' Hk'.
    change (calls p' !! r = Some k') in Hk'. rewrite Hcalls, list_lookup_alter_eq, Hr in Hk'. by simplify_eq/=.
  - edestruct (answer_inv b q r k (fun k => k) (pd (cn s)) (asm (pd (cn s)))) as (p' & E & Hinv & Honly & _ & _ & _ & _ & Hna);
      [exact Hc|exact Hp|done|done|exact Hr|by split_and!|]. rewrite alter_id in E.
    replace (set_asm _ _) with (pd (cn s)) in E by (by destruct (pd (cn s))). rewrite with_pd_id in E. unfold bind. rewrite E.
    simpl. split; [exact Honly|]. split; [split; [done|exact (f_equal a_active Hna)]|done].
Qed.

Lemma acceptFrame_inv b q s f mode : conn_inv b q (cn s) -> Forall is_byte f -> (mode = rxDiscard -> b = false) ->
  safe (b || bool_decide (mode = rxDiscard)) (acceptFrame f mode s)
    (fun res s' => accepted b q s res s' /\ forall c, res = Ok (true, c) -> mode = rxHold /\ c = true /\ status_ok q s').
Proof.
  intros Hc Hf Hm. pose proof (ci_pend _ _ _ Hc) as Hp. pose proof (ci_chunk _ _ _ Hc) as Hch.
  pose proof (ci_limits _ _ _ Hc) as Hlim. pose proof (lo_size _ Hlim) as [Hsz _].
  set (Q := fun res s' => accepted b q s res s' /\ forall c, res = Ok (true, c) -> mode = rxHold /\ c = true /\ status_ok q s').
  assert (Hcont : forall h body, a_active (asm (pd (cn s))) = true -> safe (b || bool_decide (mode = rxDiscard)) (acceptCont h body mode s)
    (fun res s' => accepted b q s (match res with Ok c => Ok (false, c) | Err e => Err e end) s')) by (intros; by apply acceptCont_inv).
  assert (Hcopy : bool_decide (mode = rxDiscard) = true \/ b || bool_decide (mode = rxDiscard) = b) by (destruct (bool_decide _); [by left|right; apply orb_false_r]).
  revert Hcont Hcopy. generalize (b || bool_decide (mode = rxDiscard)). intros bb Hcont Hcopy.
  assert (Hbad : forall e, safe bb (ret (Err e) s) Q) by (intros e; split; [by split|done]).
  unfold acceptFrame. destruct (_ <? _); [apply Hbad|]. destruct (_ || _); [apply Hbad|]. apply safe_get.
  set (h := loadHeader f). set (body := zslice FrameHeaderSize (len f) f).
  destruct (a_active (asm (pd (cn s)))) eqn:Ha.
  { eapply safe_bind; [by apply Hcont|]. intros [c|e] s' H; split; done. }
  destruct (negb _); [apply Hbad|]. destruct (Z.ltb_spec (MaxMessage (lim (cn s))) (h_total h)) as [|Emax]; [apply Hbad|].
  destruct (Z.eqb_spec (len body) (Z.min (h_total h) (chunk (cn s)))) as [El|]; [|apply Hbad]. cbn [negb].
  destruct (_ =? 0); [apply Hbad|]. unfold bind at 1. rewrite (unansHead_spec _ _ _ Hp).
  destruct q as [|r q]; [apply Hbad|]. cbn [head]. destruct (pi_open _ _ _ Hp r) as (k & Hr & Hk); [by left|].
  unfold bind at 1. rewrite (deref_spec _ _ _ Hr). destruct (negb (h_id h =? c_id k) || _) eqn:Eid; [apply Hbad|]. breflect. destruct (negb _).
  { eapply safe_bind with (R := fun e s' => match e with Some _ => s' = s | None => only_pd s s' /\ conn_inv b q (cn s') /\ a_active (asm (pd (cn s'))) = false end).
    - pose proof (statusResponse_inv b q r k h body s Hc Hr) as Hst. by destruct (statusResponse r h body s).
    - intros [e|] s' Hst'; simpl; [subst; apply Hbad|]. destruct Hst' as (H1 & H2 & H3). split; [|done]. split; [done|]. by exists r, q. }
  destruct (Z.ltb_spec (c_respMax k) (h_total h)) as [|Eb]; [apply Hbad|].
  set (p1 := set_calls (alter (set_flags (h_flags h)) r (calls (pd (cn s)))) (pd (cn s))).
  assert (Hc1 : conn_inv b (r :: q) (cn (with_pd p1 s))).
  { eapply conn_set_pd; [exact Hc|by apply pend_alter|simpl; lia|done|]. intros _ Hx. simpl in Hx. congruence. }
  assert (Hr1 : calls p1 !! r = Some (set_flags (h_flags h) k)) by (simpl; by rewrite list_lookup_alter_eq, Hr).
  unfold bind at 1, upd_call at 1, updp, upd. fold p1.
  destruct (Z.ltb_spec (chunk (cn s)) (h_total h)) as [Hlt|Hge].
  - eapply safe_bind; [apply safe_true, (acceptFirst_inv b q r (set_flags (h_flags h) k) h body mode (with_pd p1 s)); try done; simpl; lia|].
    intros [] s2 (H1 & H2 & H3). split; [|done].
    assert (Ho : only_pd s s2) by (etrans; [by apply (only_with_pd p1); eapply keeps_alter|done]). split; [done|]. split; [done|].
    unfold left. rewrite H3, Ha. cbn [a_active a_total a_got tail]. rewrite El, Z.min_r, Hch by lia.
    assert (Er : rf_at (pd (cn s2)) <$> q = rf_at (pd (cn s)) <$> q) by (destruct Ho as (p2 & cs & K & ->); exact (rf_kept _ _ q K)).
    rewrite Er, fmap_cons. unfold sum. cbn [foldr]. unfold rf_at at 2. rewrite Hr. cbn [from_option].
    pose proof (lo_message _ Hlim). destruct Hk as (_ & _ & _ & Hmx & ->).
    pose proof (resp_slots_full (lim (cn s)) (h_total h) Hlim). pose proof (resp_slots_mono (lim (cn s)) (h_total h) (c_respMax k) Hlim). lia.
  - eapply safe_bind; [apply safe_true, (acceptSingle_inv b q r (set_flags (h_flags h) k) body mode (with_pd p1 s)); done|].
    intros held s2 (H1 & H2 & H3). destruct Hk as (_ & Hst & _).
    split; [|intros c Hx; simplify_eq; destruct (H3 eq_refl) as [-> H4]; split_and!; [done|done|]].
    2: { intros x kx Ex Ekx. simplify_eq/=. by rewrite (H4 kx Ekx). }
    split; [etrans; [by apply (only_with_pd p1); eapply keeps_alter|done]|]. destruct H2. by exists r, q.
Qed.

End Frames.

(** ** Reading responses *)

(** What reading a response leaves alone. *)
Record stays (s s' : st) : Prop := {
  sy_fixed : (lim (cn s'), nops (cn s'), chunk (cn s'), callTimeout (cn s')) =
             (lim (cn s), nops (cn s), chunk (cn s), callTimeout (cn s));
  sy_conn : (last_id (cn s'), txOpen (cn s'), rxOpen (cn s'), enc (cn s'), rxGen (cn s'), rfs (cn s'), scratch (cn s'), closed (cn s')) =
            (last_id (cn s), txOpen (cn s), rxOpen (cn s), enc (cn s), rxGen (cn s), rfs (cn s), scratch (cn s), closed (cn s));
  sy_keeps : keeps (pd (cn s)) (pd (cn s'));
  sy_rxs : (length (rxs (wd s')) <= length (rxs (wd s)))%nat;
  sy_world : (txs (wd s'), sent (wd s')) = (txs (wd s), sent (wd s))
}.

#[export] Instance stays_preorder : PreOrder stays.
Proof.
  split; [intros s; by constructor|]. intros s1 s2 s3 [A1 A2 A3 A4 A5] [B1 B2 B3 B4 B5].
  constructor; [congruence..|by etrans|lia|congruence].
Qed.

Lemma quiet_stays s s' : quiet s s' -> stays s s'.
Proof. intros [E1 E2 E3 E4 E5 E6]. simplify_eq. constructor; try congruence; apply keeps_calls || apply Nat.eq_le_incl; congruence. Qed.

Lemma only_stays s s' : only_pd s s' -> stays s s'.
Proof. intros (p & cs & K & ->). by constructor. Qed.

#[export] Hint Resolve quiet_stays only_stays : hqq.

Section Reading.
Implicit Types (q : list nat) (s : st) (mode : rxMode).

(** The events taken from the link were frames that could still come, or the
    last of them is the reason of the error. *)
Definition frames_paid (q q' : list nat) (s s' : st) (e : option rterr) : Prop :=
  Z.of_nat (length (rxs (wd s))) + left (lim (cn s)) q' (pd (cn s')) <=
  Z.of_nat (length (rxs (wd s'))) + left (lim (cn s)) q (pd (cn s)) + match e with Some _ => 1 | None => 0 end.

(** The session after a response was read: a call was answered unless there
    was an error. *)
Definition read_post (b : bool) (q : list nat) (s : st) (mode : rxMode) (e : option rterr) (s' : st) : Prop :=
  exists q', sinv b q' s' /\ stays s s' /\ (q' = q /\ e <> None \/ exists r, q = r :: q') /\
    (rxHeld (cn s') = true -> rxHeld (cn s) = true \/ e = None /\ mode = rxHold /\ status_ok q s') /\
    frames_paid q q' s s' e.

Lemma quiet_pd s s' : quiet s s' -> pd (cn s') = pd (cn s).
Proof. intros Hq. pose proof (qu_conn _ _ Hq) as E. simplify_eq. congruence. Qed.

Lemma quiet_rxs s s' : quiet s s' -> length (rxs (wd s')) = length (rxs (wd s)).
Proof. intros Hq. pose proof (qu_world _ _ Hq) as E. simplify_eq. congruence. Qed.

Lemma left_nonneg b q s : sinv b q s -> 0 <= left (lim (cn s)) q (pd (cn s)) <= unansRF (pd (cn s)).
Proof.
  intros [Hc _]. pose proof (ci_pend _ _ _ Hc) as Hp. rewrite (pi_rf _ _ _ Hp). unfold left.
  assert (Hpos : forall q', (forall r, r ∈ q' -> r ∈ q) -> 0 <= sum (rf_at (pd (cn s)) <$> q')).
  { intros q' Hin. apply sum_nonneg, list.Forall_forall. intros x (r & -> & Hr)%list_elem_of_fmap.
    destruct (pi_open _ _ _ Hp r (Hin r Hr)) as (k & E & _ & _ & O & _). unfold rf_at. rewrite E. simpl. lia. }
  destruct (a_active (asm (pd (cn s)))) eqn:Ha; [|split; [by apply Hpos|lia]].
  destruct (pi_asm _ _ _ Hp Ha) as (r & q' & k & -> & Hr & _ & Ht & Hg). cbn [tail]. rewrite fmap_cons.
  pose proof (Hpos q' ltac:(intros x Hx; by right)) as Hq'. unfold sum in *. cbn [foldr]. unfold rf_at at 3. rewrite Hr. cbn [from_option].
  destruct (pi_open _ _ _ Hp r) as (k' & Hr' & _ & _ & _ & Hmx & Hrf); [by left|]. simplify_eq. rewrite Hrf.
  pose proof (ci_limits _ _ _ Hc) as Hl. pose proof (lo_message _ Hl). destruct (lo_size _ Hl) as [Hsz _].
  pose proof (resp_slots_mono (lim (cn s)) (a_total (asm (pd (cn s))) - a_got (asm (pd (cn s)))) (c_respMax k) Hl).
  pose proof (resp_slots_pos (lim (cn s)) (a_total (asm (pd (cn s))) - a_got (asm (pd (cn s))))). lia.
Qed.

(** A complete response pays for its last frame. *)
Lemma complete_paid b r q s s' : sinv b (r :: q) s -> keeps (pd (cn s)) (pd (cn s')) -> a_active (asm (pd (cn s'))) = false ->
  left (lim (cn s)) q (pd (cn s')) < left (lim (cn s)) (r :: q) (pd (cn s)).
Proof.
  intros [Hc _] K Ha. pose proof (ci_pend _ _ _ Hc) as Hp. unfold left. rewrite Ha, (rf_kept _ _ q K). cbn [tail].
  destruct (pi_open _ _ _ Hp r) as (k & Hr & _ & _ & O & _); [by left|]. rewrite fmap_cons. unfold sum. cbn [foldr]. unfold rf_at at 3.
  rewrite Hr. cbn [from_option]. pose proof (resp_slots_pos (lim (cn s)) (a_total (asm (pd (cn s))) - a_got (asm (pd (cn s))))).
  destruct (a_active (asm (pd (cn s)))); lia.
Qed.

Lemma failed_post b q q' s s1 s' mode e : sinv b q' s1 -> stays s s1 -> rxHeld (cn s1) = rxHeld (cn s) -> quiet s1 s' ->
  (q' = q \/ exists r, q = r :: q') -> frames_paid q q' s s1 (Some e) -> read_post b q s mode (Some e) s'.
Proof.
  intros Hs Hst Hh Hq Hor Hpaid. exists q'. unfold frames_paid. rewrite (quiet_pd _ _ Hq), (quiet_rxs _ _ Hq). split; [exact (quiet_inv _ _ _ _ Hq Hs)|]. split; [etrans; eauto with hqq|]. split.
  - destruct Hor; [left|right]; done.
  - split; [|done]. intros Hx. left. rewrite <- Hh, <- Hx. pose proof (qu_conn _ _ Hq) as E. simplify_eq. congruence.
Qed.

Lemma readResponse_inv b mode : (mode = rxDiscard -> b = false) -> forall n q s, sinv b q s ->
  (mode = rxHold -> rxOpen (cn s) = true) -> (length (rxs (wd s)) < n)%nat ->
  safe (b || bool_decide (mode = rxDiscard)) (readResponse n mode s)
    (fun e s' => read_post b q s mode e s' /\ (length (rxs (wd s')) < length (rxs (wd s)))%nat).
Proof.
  intros Hm. induction n as [|n IH]; intros q s [Hc [Hw1 Hw2]] Ho Hn; [lia|]. cbn [readResponse].
  unfold bind at 1, ReserveRead. destruct (rxs (wd s)) as [|ev rest] eqn:Erx; [done|]. inversion Hw1 as [|? ? Hev Hrest]; subst.
  set (s1 := mkSt _ _).
  assert (Hs1 : sinv b q s1) by (by split; [|split]).
  assert (Hst1 : stays s s1) by (constructor; try done; simpl; rewrite Erx; simpl; lia).
  assert (Hlt : forall s', stays s1 s' -> (length (rxs (wd s')) < S (length rest))%nat).
  { intros s' Hs'. apply sy_rxs in Hs'. simpl in Hs'. lia. }
  destruct ev as [[f rel]|err].
  - eapply safe_bind; [by apply (acceptFrame_inv b q s1 f mode)|]. intros res s2 [[Honly Hacc] Hheld]. apply only_stays in Honly as Hst2.
    assert (Hh2 : rxHeld (cn s2) = rxHeld (cn s)) by (by destruct Honly as (p & cs & _ & ->)).
    destruct res as [[held complete]|e].
    + assert (Hr2 : rxs (wd s2) = rest) by (by destruct Honly as (p & cs & _ & ->)).
      assert (Hq2 : exists q', sinv b q' s2 /\ (q' = q /\ complete = false \/ exists r, q = r :: q') /\
        left (lim (cn s)) q' (pd (cn s2)) < left (lim (cn s)) q (pd (cn s))).
      { assert (Hw : world_ok (lim (cn s2)) (wd s2)) by (destruct Honly as (p & cs & _ & ->); by split).
        destruct complete; [destruct Hacc as (r & q' & -> & Hacc & Hna); exists q'|destruct Hacc; exists q]; (split; [by split|]); [|by split; [left|]].
        split; [right; by exists r|]. by apply (complete_paid b r q' s1 s2 Hs1); [apply Hst2|]. }
      destruct Hq2 as (q' & Hs2 & Hor & Hpay).
      assert (Hpaid : forall e, frames_paid q q' s s2 e) by (intros e; unfold frames_paid; rewrite Erx, Hr2; simpl; destruct e; lia).
      destruct held; [|destruct rel as [rerr|]].
      * destruct (Hheld complete eq_refl) as (-> & -> & Hsok). simpl. destruct Hs2 as [Hc2 Hw2']. destruct Hor as [[_ ?]|Hor]; [done|].
        split; [|by apply Hlt; etrans; [exact Hst2|constructor]]. exists q'. split_and!; [split; [|done]| |by right|by right|exact (Hpaid None)].
        -- destruct Hc2 as [I1 I2 I3 I4 I5 I6 I7 I8 I9 I10]. constructor; try done. intros _. simpl.
           pose proof (sy_conn _ _ Hst2) as Hsy. injection Hsy as _ _ Hsy _. rewrite Hsy. by apply Ho.
        -- etrans; [exact Hst1|]. etrans; [exact Hst2|]. by constructor.
      * eapply safe_bind; [apply failRx_quiet|]. intros e s3 [Hq3 _]. split.
        -- eapply (failed_post b q q' s s2); [done|by etrans|done|done| |done]. destruct Hor as [[-> _]|]; [by left|by right].
        -- apply Hlt. etrans; eauto with hqq.
      * destruct complete.
        -- split; [|by apply Hlt]. exists q'. split; [done|]. split; [by etrans|]. split; [destruct Hor as [[_ ?]|]; [done|by right]|].
           split; [rewrite Hh2; by left|done].
        -- destruct Hacc as [Hacc Hpay2]. clear q' Hs2 Hor Hpay Hpaid. assert (Hs2 : sinv b q s2) by (destruct Honly as (p & cs & _ & ->); by split).
           pose proof (sy_fixed _ _ Hst2) as Hl2. injection Hl2 as Hl2 _ _ _. pose proof (sy_conn _ _ Hst2) as Hsy. injection Hsy as _ _ Hsy _. eapply safe_mono; [apply IH; [exact Hs2| |]|].
           ++ intros Hx. rewrite Hsy. by apply Ho.
           ++ pose proof (Hlt _ Hst2). simpl in Hn. lia.
           ++ intros e s3 [(q' & Hs3 & Hst3 & Hor & Hh3 & Hp3) Hl3]. split; [|by apply Hlt; etrans]. exists q'. split; [done|]. split; [by do 2 (etrans; [done|])|].
              rewrite Hh2 in Hh3. split_and!; [done|done|]. unfold frames_paid in *. rewrite Hl2, Hr2 in Hp3. rewrite Erx. simpl in *. lia.
    + subst s2. eapply safe_bind; [apply failRx_quiet|]. intros e' s3 [Hq3 _]. split; [|apply Hlt; eauto with hqq].
      eapply (failed_post b q q s s1); eauto. unfold frames_paid. rewrite Erx. simpl. lia.
  - eapply safe_bind; [apply readError_quiet|]. intros e s2 Hq2. split; [|apply Hlt; eauto with hqq].
    eapply (failed_post b q q s s1); eauto. unfold frames_paid. rewrite Erx. simpl. lia.
Qed.

End Reading.
