(* ===== verification/SessionOps.v ===== *)
(** * SessionOps: every call of the owner keeps the invariant of its session

    Starting from [newConn], the calls of the owner ([BeginRequest], [Submit],
    [Abort], [Wait], [Release], [Malformed], [Sync], [Close]) keep the
    invariant of SessionInv.v, whatever frames the server sends. *)
From S2P Require Import Prelude Errors Protocol Codec Session SessionInv.

(** ** Reading until something holds *)

Section Loops.
Implicit Types (q : list nat) (s : st).

Lemma read_response_inv b mode q s : (mode = rxDiscard -> b = false) -> sinv b q s -> (mode = rxHold -> rxOpen (cn s) = true) ->
  safe (b || bool_decide (mode = rxDiscard)) (read_response mode s)
    (fun e s' => read_post b q s mode e s' /\ (length (rxs (wd s')) < length (rxs (wd s)))%nat).
Proof. intros Hm Hs Ho. unfold read_response, bind, enough. apply readResponse_inv; [done..|simpl; lia]. Qed.

Lemma read_response_keep b mode q s : mode <> rxDiscard -> sinv b q s -> (mode = rxHold -> rxOpen (cn s) = true) ->
  safe b (read_response mode s) (fun e s' => read_post b q s mode e s' /\ (length (rxs (wd s')) < length (rxs (wd s)))%nat).
Proof.
  intros Hm Hs Ho. pose proof (read_response_inv b mode q s ltac:(done) Hs Ho) as H. by rewrite bool_decide_eq_false_2, orb_false_r in H.
Qed.

Lemma arm_inv b q s (armed : bool) : sinv b q s ->
  safe true ((if armed then ret None else armRead) s) (fun _ s' => sinv b q s' /\ quiet s s').
Proof.
  intros Hs. destruct armed; [done|]. eapply safe_mono; [apply armRead_quiet|]. intros e s' Hq. split; [eapply quiet_inv; [exact Hq|exact Hs]|done].
Qed.

Lemma makeRoom_inv b op rf : forall n q s armed, sinv b q s -> (length (rxs (wd s)) < n)%nat ->
  safe b (makeRoom_loop n op rf armed s) (fun e s' => exists q', sinv b q' s' /\ stays s s' /\ (e = None -> fits (cn s') rf = true)).
Proof.
  induction n as [|n IH]; intros q s armed Hs Hn; [lia|]. cbn [makeRoom_loop]. apply safe_get.
  destruct (fits (cn s) rf) eqn:Ef; [by exists q|]. destruct (rxDead (cn s)); [by exists q|].
  eapply safe_bind; [by apply safe_true, (arm_inv b q)|]. intros [err|] s1 [Hs1 Hq1].
  - unfold readFailed, bind, get, brokenErr. destruct (rxDead (cn s1)); exists q; split_and!; eauto with hqq; done.
  - eapply safe_bind; [by apply (read_response_keep b rxBuffer q s1)|].
    intros e s2 [(q' & Hs2 & Hst2 & Hor & Hh2 & _) Hl]. assert (Hst : stays s s2) by (etrans; eauto with hqq). destruct e as [err|].
    + unfold readFailed, bind, get, brokenErr. destruct (rxDead (cn s2)); exists q'; split_and!; try done; etrans; eauto with hqq.
    + eapply safe_mono; [apply (IH q' s2 true Hs2)|].
      * rewrite (quiet_rxs _ _ Hq1) in Hl. lia.
      * intros e s3 (q3 & Hs3 & Hst3 & Hf). exists q3. split_and!; [done|by etrans|done].
Qed.

Lemma keeps_lookup p p' r k : keeps p p' -> calls p !! r = Some k -> exists k', calls p' !! r = Some k' /\ request k' = request k.
Proof.
  intros (_ & _ & H) E. specialize (H r). rewrite E in H. destruct (calls p' !! r) as [k'|]; [|done]. exists k'. split; [done|]. by apply (inj Some) in H.
Qed.

(** An answered call that is still pending is done. *)
Lemma answered_done b q r s k : sinv b q s -> calls (pd (cn s)) !! r = Some k -> c_pending k = true -> r ∉ q -> c_done k = true.
Proof.
  intros Hs Hr Hk Hq. destruct (c_done k) eqn:E; [done|]. destruct Hq. by eapply (pi_unanswered _ _ _ (ci_pend _ _ _ (si_conn _ _ _ Hs))).
Qed.

Lemma await_inv b r : forall n q s armed k, sinv b q s -> rxOpen (cn s) = true -> (length (rxs (wd s)) < n)%nat ->
  calls (pd (cn s)) !! r = Some k -> c_pending k = true ->
  (rxHeld (cn s) = true -> c_done k = true /\ c_status k = 0) ->
  safe b (await_loop n r armed s) (fun e s' => exists q', sinv b q' s' /\ stays s s' /\ (e <> None -> rxHeld (cn s') = false) /\
    (e = None -> exists k, calls (pd (cn s')) !! r = Some k /\ c_done k = true /\ (rxHeld (cn s') = true -> c_status k = 0))).
Proof.
  induction n as [|n IH]; intros q s armed k Hs Ho Hn Hr Hpk Hh; [lia|]. cbn [await_loop]. unfold bind at 1. rewrite (deref_spec _ _ _ Hr). apply safe_get.
  destruct (c_done k) eqn:Ed.
  { exists q. split_and!; try done. intros _. exists k. split_and!; try done. intros Hx. by apply Hh. }
  assert (Hnh : rxHeld (cn s) = false) by (destruct (rxHeld (cn s)); [by destruct (Hh eq_refl)|done]).
  destruct (rxDead (cn s)) eqn:Ex.
  { exists q. split_and!; try done. intros E. by destruct (ci_dead _ _ _ (si_conn _ _ _ Hs) Ex). }
  eapply safe_bind; [by apply safe_true, (arm_inv b q)|]. intros [err|] s1 [Hs1 Hq1]; pose proof (qu_conn _ _ Hq1) as Ec1; injection Ec1 as _ _ Eo1 _ Eh1 _ Ep1 _ _ _.
  - eapply safe_bind; [apply readError_quiet|]. intros e s2 Hq2. cbv beta in Hq2. exists q. split_and!; [exact (quiet_inv _ _ _ _ Hq2 Hs1)|etrans; eauto with hqq| |done].
    intros _. pose proof (qu_conn _ _ Hq2) as Ec2. injection Ec2 as _ _ _ _ Eh2 _ _ _ _ _. congruence.
  - unfold bind at 1. pose proof (ci_pend _ _ _ (si_conn _ _ _ Hs1)) as Hp1. rewrite (unansHead_spec _ _ _ Hp1).
    set (mode := if bool_decide (head q = Some r) then rxHold else rxBuffer).
    assert (Hmode : mode <> rxDiscard) by (unfold mode; by destruct (bool_decide _)).
    eapply safe_bind; [apply (read_response_keep b mode q s1 Hmode Hs1); congruence|].
    intros e s2 [(q' & Hs2 & Hst2 & Hor & Hh2 & _) Hl]. assert (Hst : stays s s2) by (etrans; eauto with hqq).
    rewrite Eh1 in Hh2. destruct e as [err|].
    { exists q'. split_and!; try done. intros _. destruct (rxHeld (cn s2)); [|done]. destruct (Hh2 eq_refl) as [?|[? _]]; congruence. }
    destruct (keeps_lookup _ _ _ _ (sy_keeps _ _ Hst) Hr) as (k2 & Hr2 & Ek2). unfold request in Ek2. injection Ek2 as _ _ _ _ Epk2 _.
    eapply safe_mono; [apply (IH q' s2 true k2 Hs2); [|..|congruence|]|].
    + rewrite <- Ho. pose proof (sy_conn _ _ Hst) as Ec. injection Ec as _ _ Eo _. congruence.
    + rewrite (quiet_rxs _ _ Hq1) in Hl. lia.
    + done.
    + intros Hx. destruct (Hh2 Hx) as [?|(_ & Hm & Hst')]; [congruence|]. unfold mode in Hm.
      destruct (bool_decide_reflect (head q = Some r)) as [Hhd|]; [|done]. destruct Hor as [[_ ?]|(r' & ->)]; [done|]. simplify_eq/=.
      pose proof (pi_nodup _ _ _ Hp1) as Hnd. apply list.NoDup_cons in Hnd as [Hnin _].
      split; [by apply (answered_done b q' r s2 k2 Hs2 Hr2 ltac:(congruence) Hnin)|]. by apply (Hst' r).
    + intros e s3 (q3 & Hs3 & Hst3 & Hf). exists q3. split_and!; [done|by etrans|by apply Hf..].
Qed.

Lemma sync_inv : forall n q s armed, sinv false q s -> (length (rxs (wd s)) < n)%nat ->
  safe true (sync_loop n armed s) (fun e s' => exists q', sinv false q' s' /\ stays s s' /\ (e = None -> q' = [] \/ rxDead (cn s') = true)).
Proof.
  induction n as [|n IH]; intros q s armed Hs Hn; [lia|]. cbn [sync_loop]. apply safe_get.
  destruct ((0 <? unansN (pd (cn s)))%nat && negb (rxDead (cn s))) eqn:Eg.
  2: { exists q. split_and!; try done. intros _. apply andb_false_iff in Eg as [Eg|Eg]; [left|right; by destruct (rxDead (cn s))].
       pose proof (ci_pend _ _ _ (si_conn _ _ _ Hs)) as Hp. pose proof (queue_length _ (pi_n _ _ _ Hp)) as Hl. rewrite (pi_queue _ _ _ Hp), length_fmap in Hl.
       apply Nat.ltb_ge in Eg. destruct q; [done|simpl in Hl; lia]. }
  eapply safe_bind; [by apply (arm_inv false q)|]. intros [err|] s1 [Hs1 Hq1].
  - eapply safe_bind; [apply readError_quiet|]. intros e s2 Hq2. cbv beta in Hq2. exists q. split_and!; [exact (quiet_inv _ _ _ _ Hq2 Hs1)|etrans; eauto with hqq|done].
  - eapply safe_bind; [by apply (read_response_inv false rxDiscard q s1)|].
    intros e s2 [(q' & Hs2 & Hst2 & Hor & Hh2 & _) Hl]. assert (Hst : stays s s2) by (etrans; eauto with hqq). destruct e as [err|]; [by exists q'|].
    eapply safe_mono; [apply (IH q' s2 true Hs2)|].
    + rewrite (quiet_rxs _ _ Hq1) in Hl. lia.
    + intros e s3 (q3 & Hs3 & Hst3 & Hf). exists q3. split_and!; [done|by etrans|done].
Qed.

End Loops.

(** ** Leaving the live set *)

Section Live.
Implicit Types (p : pend) (q : list nat) (l : Limits).

Lemma live_index l q p r k : pend_inv l q p -> calls p !! r = Some k -> c_pending k = true -> live p !! c_idx k = Some r.
Proof.
  intros Hp Hr Hk. pose proof (pi_pending _ _ _ Hp r k Hr Hk) as Hin. apply list_elem_of_lookup in Hin as (i & Hi).
  destruct (pi_live _ _ _ Hp i r Hi) as (k' & Hr' & <- & _). congruence.
Qed.

Lemma removelast_lookup {A} (L : list A) i : removelast L !! i = if (i <? pred (length L))%nat then L !! i else None.
Proof.
  rewrite removelast_firstn_len. destruct (Nat.ltb_spec i (pred (length L))); [by apply lookup_take_lt|].
  apply lookup_ge_None. rewrite length_take. lia.
Qed.

(** The call [r] leaves: [f] ends it, and it is free afterwards or not. *)
Definition remove (r : nat) (f : Call -> Call) (fr : list nat) (moved i : nat) (p : pend) : pend :=
  mkPend (unans p) (unansHd p) (unansN p) (unansRF p) (removelast (<[i := moved]> (live p))) fr (asm p)
    (alter f r (alter (set_idx i) moved (calls p))) (arrs p).

(** What [f] keeps of the call [k] it ends. *)
Definition ended (p : pend) (q : list nat) (r : nat) (k k' : Call) : Prop :=
  c_id k' = c_id k /\ c_op k' = c_op k /\ c_rf k' = c_rf k /\ c_respMax k' = c_respMax k /\ c_pending k' = false /\
  c_done k' = false /\ (r ∈ q -> c_status k' = c_status k) /\ (c_buf k' = c_buf k \/ c_buf k' = SNil).

Lemma live_after p r i moved x j : live p !! i = Some r -> list.last (live p) = Some moved -> NoDup (live p) ->
  removelast (<[i := moved]> (live p)) !! j = Some x ->
  x <> r /\ x ∈ live p /\ (x = moved /\ j = i \/ x <> moved /\ live p !! j = Some x).
Proof.
  intros Hi Hl Hnd. rewrite removelast_lookup, length_insert. destruct (Nat.ltb_spec j (pred (length (live p)))) as [Hj|]; [|done].
  rewrite last_lookup in Hl. destruct (decide (j = i)) as [->|Hne].
  - rewrite list_lookup_insert_eq by (by eapply lookup_lt_Some). intros E. simplify_eq. split_and!; [|by eapply list_elem_of_lookup_2|by left].
    intros ->. pose proof (NoDup_lookup _ _ _ _ Hnd Hi Hl). lia.
  - rewrite list_lookup_insert_ne by done. intros E. split_and!; [|by eapply list_elem_of_lookup_2|right]; [|split; [|done]].
    + intros ->. pose proof (NoDup_lookup _ _ _ _ Hnd Hi E). lia.
    + intros ->. pose proof (NoDup_lookup _ _ _ _ Hnd Hl E). lia.
Qed.

Lemma live_stays p r i moved x : live p !! i = Some r -> list.last (live p) = Some moved -> x ∈ live p -> x <> r ->
  x ∈ removelast (<[i := moved]> (live p)).
Proof.
  intros Hi Hl Hx Hne. rewrite last_lookup in Hl. apply list_elem_of_lookup in Hx as (j & Hj).
  pose proof (lookup_lt_Some _ _ _ Hi) as Hil. pose proof (lookup_lt_Some _ _ _ Hj) as Hjl.
  assert (Hij : i <> j) by congruence.
  destruct (decide (j = pred (length (live p)))) as [->|Hlast].
  - simplify_eq. apply (list_elem_of_lookup_2 _ i). rewrite removelast_lookup, length_insert.
    destruct (Nat.ltb_spec i (pred (length (live p)))); [|lia]. by apply list_lookup_insert_eq.
  - apply (list_elem_of_lookup_2 _ j). rewrite removelast_lookup, length_insert.
    destruct (Nat.ltb_spec j (pred (length (live p)))); [|lia]. by rewrite list_lookup_insert_ne.
Qed.


Lemma live_nodup l q p : pend_inv l q p -> NoDup (live p).
Proof.
  intros Hp. apply NoDup_alt. intros i j r Hi Hj. destruct (pi_live _ _ _ Hp i r Hi) as (k1 & E1 & <- & _).
  destruct (pi_live _ _ _ Hp j r Hj) as (k2 & E2 & <- & _). congruence.
Qed.

(** The calls after a removal. *)
Lemma remove_lookup p r f fr moved i x k' : calls (remove r f fr moved i p) !! x = Some k' ->
  exists k, calls p !! x = Some k /\
    (x = r /\ k' = f (if decide (x = moved) then set_idx i k else k) \/ x <> r /\ k' = if decide (x = moved) then set_idx i k else k).
Proof.
  simpl. intros E. destruct (decide (x = r)) as [->|Hne].
  - rewrite list_lookup_alter_eq in E. destruct (decide (r = moved)) as [<-|Hm].
    + rewrite list_lookup_alter_eq in E. destruct (calls p !! r) as [k|]; simplify_eq/=. exists k. split; [done|]. by left.
    + rewrite list_lookup_alter_ne in E by done. destruct (calls p !! r) as [k|]; simplify_eq/=. exists k. split; [done|]. by left.
  - rewrite list_lookup_alter_ne in E by done. destruct (decide (x = moved)) as [->|Hm].
    + rewrite list_lookup_alter_eq in E. destruct (calls p !! moved) as [k|]; simplify_eq/=. exists k. split; [done|]. by right.
    + rewrite list_lookup_alter_ne in E by done. exists k'. split; [done|]. by right.
Qed.

Lemma remove_ne p r f fr moved i x k : calls p !! x = Some k -> x <> r ->
  calls (remove r f fr moved i p) !! x = Some (if decide (x = moved) then set_idx i k else k).
Proof.
  intros E Hne. simpl. rewrite list_lookup_alter_ne by done. destruct (decide (x = moved)) as [->|].
  - by rewrite list_lookup_alter_eq, E.
  - by rewrite list_lookup_alter_ne.
Qed.

Lemma remove_eq p r f fr moved i k : calls p !! r = Some k ->
  calls (remove r f fr moved i p) !! r = Some (f (if decide (r = moved) then set_idx i k else k)).
Proof.
  intros E. simpl. rewrite list_lookup_alter_eq. destruct (decide (r = moved)) as [<-|].
  - by rewrite list_lookup_alter_eq, E.
  - by rewrite list_lookup_alter_ne, E.
Qed.

Lemma remove_inv l q p r k f fr moved :
  pend_inv l q p -> calls p !! r = Some k -> c_pending k = true -> list.last (live p) = Some moved ->
  (forall k', core k' = core k \/ core k' = core (set_idx (c_idx k) k) -> c_buf k' = c_buf k -> ended p q r k (f k')) ->
  (fr = free p \/ fr = free p ++ [r] /\ (r ∉ q) /\ c_status (f (if decide (r = moved) then set_idx (c_idx k) k else k)) = 0) ->
  pend_inv l q (remove r f fr moved (c_idx k) p).
Proof.
  intros Hp Hr Hk Hm Hf Hfr. pose proof (live_index _ _ _ _ _ Hp Hr Hk) as Hi. pose proof (live_nodup _ _ _ Hp) as Hnd.
  assert (He : ended p q r k (f (if decide (r = moved) then set_idx (c_idx k) k else k))).
  { apply Hf; destruct (decide (r = moved)); auto. }
  pose proof (remove_eq p r f fr moved (c_idx k) k Hr) as Er.
  pose proof (remove_ne p r f fr moved (c_idx k)) as Ene.
  assert (Hx : forall x kx, calls p !! x = Some kx -> exists kx', calls (remove r f fr moved (c_idx k) p) !! x = Some kx' /\
    c_id kx' = c_id kx /\ c_rf kx' = c_rf kx /\ c_respMax kx' = c_respMax kx /\ (x ∈ q -> c_status kx' = c_status kx) /\
    (x <> r -> c_pending kx' = c_pending kx /\ c_done kx' = c_done kx /\ c_status kx' = c_status kx)).
  { intros x kx Hx. destruct (decide (x = r)) as [->|Hne].
    - rewrite Er. simplify_eq. destruct He as (?&?&?&?&?&?&?&?). eexists. split_and!; done.
    - rewrite (Ene x kx Hx Hne). eexists. split; [done|]. destruct (decide (x = moved)); done. }
  assert (Hback : forall x kx', calls (remove r f fr moved (c_idx k) p) !! x = Some kx' -> c_pending kx' = true ->
    x <> r /\ exists kx, calls p !! x = Some kx /\ c_pending kx = true /\ c_done kx = c_done kx').
  { intros x kx' E Hpx. destruct (remove_lookup _ _ _ _ _ _ _ _ E) as (kx & Hkx & [[-> _]|[Hne ->]]).
    - rewrite Er in E. simplify_eq. destruct He as (_&_&_&_&Hpe&_). congruence.
    - split; [done|]. exists kx. by destruct (decide (x = moved)). }
  pose proof Hp as [I1 I2 I3 I4 I5 I6 I7 I8 I9 I10 I11 I12 I13 I14 I15].
  assert (Hnf : r ∉ free p) by (intros Hx'; destruct (I13 r Hx') as (_ & k' & E & E1 & _); congruence).
  constructor; try done.
  - intros x Hxq. destruct (I6 x Hxq) as (kx & Ekx & O1 & O2 & O3 & O4 & O5). destruct (Hx x kx Ekx) as (kx' & Ekx' & _ & R1 & R2 & R3 & R4).
    exists kx'. split; [done|]. unfold open_call. rewrite R1, R2, (R3 Hxq). split_and!; try done; try lia.
    destruct (decide (x = r)) as [->|Hne]; [|by rewrite (proj1 (proj2 (R4 Hne)))]. rewrite Er in Ekx'. simplify_eq. apply He.
  - simpl. rewrite I7. f_equal. apply list_fmap_ext. intros j x Hj. apply list_elem_of_lookup_2 in Hj. destruct (I6 x Hj) as (kx & Ekx & _).
    destruct (Hx x kx Ekx) as (kx' & Ekx' & _ & R1 & _). unfold rf_at. rewrite Ekx, Ekx'. simpl. done.
  - intros j x Hj. destruct (live_after p r (c_idx k) moved x j Hi Hm Hnd Hj) as (Hne & Hin & Hor).
    apply list_elem_of_lookup in Hin as (j0 & Hj0). destruct (I9 j0 x Hj0) as (kx & Ekx & Eidx & Epx). rewrite (Ene x kx Ekx Hne).
    eexists. split; [done|]. destruct Hor as [[-> ->]|[Hnm Hj']].
    + by rewrite decide_True.
    + rewrite decide_False by done. split; [|done]. destruct (I9 j x Hj') as (kx2 & Ekx2 & <- & _). congruence.
  - intros x kx' E Hpx. destruct (Hback x kx' E Hpx) as (Hne & kx & Ekx & Epx & _). eapply live_stays; eauto.
  - intros x kx' E Hpx Hdx. destruct (Hback x kx' E Hpx) as (Hne & kx & Ekx & Epx & Edx). eapply I11; eauto; congruence.
  - destruct Hfr as [-> |[-> _]]; [done|]. apply list.NoDup_app. split_and!; [done| |apply list.NoDup_cons; by split; [intros ?%elem_of_nil|apply NoDup_nil_2]].
    intros x Hxf. rewrite list_elem_of_singleton. congruence.
  - intros x Hxf. assert (Hor : x ∈ free p \/ x = r /\ (r ∉ q) /\ c_status (f (if decide (r = moved) then set_idx (c_idx k) k else k)) = 0).
    { destruct Hfr as [-> |[-> [Hq Hst]]]; [by left|]. apply elem_of_app in Hxf as [?|Hxf]; [by left|right]. by apply list_elem_of_singleton in Hxf. }
    destruct Hor as [Hxf'|(-> & Hq & Hst)].
    + destruct (I13 x Hxf') as (Hq & kx & Ekx & E1 & E2 & E3). split; [done|]. assert (Hne : x <> r) by congruence.
      destruct (Hx x kx Ekx) as (kx' & Ekx' & _ & _ & _ & _ & R4). destruct (R4 Hne) as (R5 & R6 & R7). exists kx'. split_and!; congruence.
    + split; [done|]. eexists. split; [exact Er|]. destruct He as (_&_&_&_&?&?&_). by split_and!.
  - intros Ha. destruct (I14 Ha) as (x & q' & kx & Eq & Ekx & A1 & A2 & A3). destruct (Hx x kx Ekx) as (kx' & Ekx' & R1 & R2 & R3 & _).
    exists x, q', kx'. simpl. split_and!; try done; try congruence; lia.
  - destruct I15 as [B1 B2]. assert (Hbuf : forall x kx', calls (remove r f fr moved (c_idx k) p) !! x = Some kx' ->
      exists kx, calls p !! x = Some kx /\ (c_buf kx' = c_buf kx \/ c_buf kx' = SNil)).
    { intros x kx' E. destruct (remove_lookup _ _ _ _ _ _ _ _ E) as (kx & Hkx & [[-> _]|[Hne ->]]); exists kx; (split; [done|]).
      - rewrite Er in E. simplify_eq. destruct He as (_&_&_&_&_&_&_&Hb). done.
      - left. by destruct (decide (x = moved)). }
    split.
    + intros x kx' E. destruct (Hbuf x kx' E) as (kx & Ekx & [-> | ->]); [|done]. by apply (B1 x kx).
    + intros x1 x2 k1 k2 a n1 n2 E1 E2 F1 F2. destruct (Hbuf x1 k1 E1) as (k1' & Ek1 & [G1|G1]), (Hbuf x2 k2 E2) as (k2' & Ek2 & [G2|G2]); try congruence.
      apply (B2 x1 x2 k1' k2' a n1 n2); congruence.
Qed.

End Live.

Section Ending.
Implicit Types (q : list nat) (s : st) (k : Call) (r : nat).

Lemma unregister_spec l q s r k : pend_inv l q (pd (cn s)) -> calls (pd (cn s)) !! r = Some k -> c_pending k = true ->
  exists moved, list.last (live (pd (cn s))) = Some moved /\
    unregister r s = Ret tt (with_pd (remove r (fun k => k) (free (pd (cn s))) moved (c_idx k) (pd (cn s))) s).
Proof.
  intros Hp Hr Hk. pose proof (live_index _ _ _ _ _ Hp Hr Hk) as Hi. pose proof (lookup_lt_Some _ _ _ Hi) as Hlt.
  destruct (list.last (live (pd (cn s)))) as [moved|] eqn:El; [|apply last_None in El; rewrite El in Hlt; simpl in Hlt; lia].
  exists moved. split; [done|]. unfold unregister, bind, get. rewrite (deref_spec _ _ _ Hr), El.
  destruct (Nat.ltb_spec (c_idx k) (length (live (pd (cn s))))); [|lia].
  unfold updp, upd_call, updp, upd, with_pd, remove. simpl. by rewrite alter_id.
Qed.

(** [f] ends the call [r] after it left the live set. *)
Lemma end_call_inv b q s r k f fr moved :
  sinv b q s -> calls (pd (cn s)) !! r = Some k -> c_pending k = true -> list.last (live (pd (cn s))) = Some moved ->
  (forall k', core k' = core k \/ core k' = core (set_idx (c_idx k) k) -> c_buf k' = c_buf k -> ended (pd (cn s)) q r k (f k')) ->
  (r ∈ q -> forall k', c_buf (f k') = c_buf k') ->
  (fr = free (pd (cn s)) \/ fr = free (pd (cn s)) ++ [r] /\ (r ∉ q) /\ c_status (f (if decide (r = moved) then set_idx (c_idx k) k else k)) = 0) ->
  sinv b q (with_pd (remove r f fr moved (c_idx k) (pd (cn s))) s).
Proof.
  intros [Hc Hw] Hr Hk Hm Hf Hb Hfr. split; [|done]. pose proof (ci_pend _ _ _ Hc) as Hp.
  eapply conn_set_pd; [exact Hc|by apply remove_inv|simpl; lia|done|].
  intros -> Ha x kx Hx Ekx. simpl in Ha. assert (Hin : x ∈ q) by (destruct q; simplify_eq/=; by left).
  destruct (remove_lookup _ _ _ _ _ _ _ _ Ekx) as (kx0 & E0 & Hor).
  destruct (ci_buffered _ _ _ Hc eq_refl Ha x kx0 Hx E0) as (a & Ea). exists a. simpl. rewrite <- Ea.
  destruct Hor as [[-> ->]|[_ ->]]; [rewrite (Hb Hin)|]; by case_decide.
Qed.

Lemma removelast_insert_length {A} (L : list A) i x : length (removelast (<[i := x]> L)) = pred (length L).
Proof. rewrite removelast_firstn_len, length_take, length_insert. lia. Qed.

(** What remains after a call was ended. *)
Definition fewer s s' : Prop :=
  exists p, s' = with_pd p s /\ length (live p) = pred (length (live (pd (cn s)))) /\ asm p = asm (pd (cn s)) /\
    unansN p = unansN (pd (cn s)).

Lemma recycle_inv b q s r k : sinv b q s -> calls (pd (cn s)) !! r = Some k -> c_pending k = true -> c_done k = true ->
  safe true (recycle r s) (fun _ s' => sinv b q s' /\ fewer s s' /\
    exists f fr moved, s' = with_pd (remove r f fr moved (c_idx k) (pd (cn s))) s).
Proof.
  intros Hs Hr Hk Hd. pose proof (ci_pend _ _ _ (si_conn _ _ _ Hs)) as Hp.
  assert (Hnq : r ∉ q) by (intros Hin; destruct (pi_open _ _ _ Hp r Hin) as (k' & E & O & _); congruence).
  destruct (unregister_spec _ _ _ _ _ Hp Hr Hk) as (moved & Hm & E). unfold recycle, bind at 1. rewrite E. apply safe_get.
  set (p1 := remove _ _ _ _ _ _). set (f := fun k0 : Call => mkCall _ _ _ _ _ _ _ _ _ _ _ _ _).
  assert (He : forall fr, fr = free (pd (cn s)) \/ fr = free (pd (cn s)) ++ [r] ->
    sinv b q (with_pd (remove r f fr moved (c_idx k) (pd (cn s))) s) /\ fewer s (with_pd (remove r f fr moved (c_idx k) (pd (cn s))) s) /\
    exists f' fr' moved', with_pd (remove r f fr moved (c_idx k) (pd (cn s))) s = with_pd (remove r f' fr' moved' (c_idx k) (pd (cn s))) s).
  { intros fr Hfr. split; [|split; [|by exists f, fr, moved]].
    - apply end_call_inv; try done.
      + intros k' [Ek|Ek] Eb; unfold core in Ek; simplify_eq; unfold ended, f; simpl; split_and!; try congruence; try done;
          destruct (_ <? _); auto.
      + destruct Hfr as [-> | ->]; [by left|right]. done.
    - eexists. split; [reflexivity|]. split_and!; try done. apply removelast_insert_length. }
  unfold bind, upd_call, updp, upd. cbn [cn wd with_pd]. fold p1.
  assert (E1 : set_calls (alter f r (calls p1)) p1 = remove r f (free (pd (cn s))) moved (c_idx k) (pd (cn s))).
  { unfold p1, remove, set_calls. simpl. by rewrite alter_alter. }
  cbn [pd set_pd]. rewrite E1. destruct (_ <? maxFreeCalls).
  - exact (He _ (or_intror eq_refl)).
  - exact (He _ (or_introl eq_refl)).
Qed.

Lemma dropCall_inv b q s r k : sinv b q s -> calls (pd (cn s)) !! r = Some k -> c_pending k = true ->
  safe true (dropCall r s) (fun _ s' => sinv b q s' /\ fewer s s').
Proof.
  intros Hs Hr Hk. pose proof (ci_pend _ _ _ (si_conn _ _ _ Hs)) as Hp.
  destruct (unregister_spec _ _ _ _ _ Hp Hr Hk) as (moved & Hm & E). unfold dropCall, bind at 1. rewrite E.
  set (f := fun k0 : Call => mkCall _ _ _ _ _ _ _ _ _ _ _ _ _). unfold upd_call, updp, upd, safe.
  assert (E1 : set_calls (alter f r (calls (remove r (fun k => k) (free (pd (cn s))) moved (c_idx k) (pd (cn s)))))
     (remove r (fun k => k) (free (pd (cn s))) moved (c_idx k) (pd (cn s))) = remove r f (free (pd (cn s))) moved (c_idx k) (pd (cn s))).
  { unfold remove, set_calls. simpl. by rewrite alter_alter. }
  cbn [pd set_pd cn wd with_pd]. rewrite E1. split.
  - apply (end_call_inv b q s r k f (free (pd (cn s))) moved); try done; [|by left].
    intros k' [Ek|Ek] Eb; unfold core in Ek; simplify_eq; unfold ended, f; simpl; split_and!; try congruence; try done; by left.
  - eexists. split; [reflexivity|]. split_and!; try done. apply removelast_insert_length.
Qed.

End Ending.

(** ** Abandoning and discarding *)

Section Abandon.
Implicit Types (q : list nat) (s : st).

Lemma sinv_flag b b' q s : sinv b q s -> buffered q (pd (cn s)) -> sinv b' q s.
Proof. intros [[] Hw] Hb. split; [|done]. by constructor. Qed.

Lemma live_call b q s i r : sinv b q s -> live (pd (cn s)) !! i = Some r ->
  exists k, calls (pd (cn s)) !! r = Some k /\ c_pending k = true.
Proof. intros Hs Hi. destruct (pi_live _ _ _ (ci_pend _ _ _ (si_conn _ _ _ Hs)) i r Hi) as (k & ? & _ & ?). by exists k. Qed.

Lemma end_one_inv b q s r k : sinv b q s -> calls (pd (cn s)) !! r = Some k -> c_pending k = true ->
  safe true ((if c_done k then recycle r else dropCall r) s) (fun _ s' => sinv b q s' /\ fewer s s').
Proof. intros Hs Hr Hk. destruct (c_done k) eqn:Ed; [|by eapply dropCall_inv].
  eapply safe_mono; [by eapply recycle_inv|]. intros a s' (H1 & H2 & _). by split. Qed.

Lemma fewer_with_pd s p s' : fewer (with_pd p s) s' -> exists p', s' = with_pd p' s.
Proof. intros (p' & -> & _). by exists p'. Qed.

Lemma abandon_loop_inv b q : forall n s, sinv b q s -> (length (live (pd (cn s))) < n)%nat ->
  safe true (abandon_loop n s) (fun _ s' => sinv b q s' /\ live (pd (cn s')) = [] /\ exists p, s' = with_pd p s).
Proof.
  induction n as [|n IH]; intros s Hs Hn; [lia|]. cbn [abandon_loop]. apply safe_get.
  destruct (list.last (live (pd (cn s)))) as [r|] eqn:El.
  2: { apply last_None in El. split_and!; [done|done|]. exists (pd (cn s)). by rewrite with_pd_id. }
  rewrite last_lookup in El. destruct (live_call _ _ _ _ _ Hs El) as (k & Hr & Hk). unfold bind at 1. rewrite (deref_spec _ _ _ Hr).
  eapply safe_bind; [by apply (end_one_inv b q)|]. intros [] s1 (Hs1 & p & -> & Hlen & _).
  eapply safe_mono; [apply (IH _ Hs1)|].
  - simpl. apply lookup_lt_Some in El. lia.
  - intros [] s2 (Hs2 & Hl & p2 & ->). split_and!; [done|done|]. by exists p2.
Qed.

Lemma discard_loop_inv b q : forall n i s, sinv b q s -> (i <= length (live (pd (cn s))) < n + i)%nat ->
  safe true (discard_loop n i s) (fun _ s' => sinv b q s' /\ exists p, s' = with_pd p s).
Proof.
  induction n as [|n IH]; intros i s Hs Hn; [lia|]. cbn [discard_loop]. apply safe_get. destruct (live (pd (cn s)) !! i) as [r|] eqn:Ei.
  2: { split; [done|]. exists (pd (cn s)). by rewrite with_pd_id. }
  destruct (live_call _ _ _ _ _ Hs Ei) as (k & Hr & Hk). unfold bind at 1. rewrite (deref_spec _ _ _ Hr). apply lookup_lt_Some in Ei.
  destruct (c_done k) eqn:Ed.
  - eapply safe_bind; [by eapply recycle_inv|]. intros [] s1 (Hs1 & (p & -> & Hlen & _) & _).
    eapply safe_mono; [apply (IH i _ Hs1); simpl; lia|]. intros [] s2 (Hs2 & p2 & ->). split; [done|]. by exists p2.
  - apply (IH (S i) s Hs). lia.
Qed.

Lemma discardAnswered_inv b q s : sinv b q s -> safe true (discardAnswered s) (fun _ s' => sinv b q s' /\ exists p, s' = with_pd p s).
Proof. intros Hs. unfold discardAnswered. apply safe_get. apply discard_loop_inv; [done|lia]. Qed.

Lemma sum_rf_nonneg l q p : pend_inv l q p -> 0 <= unansRF p.
Proof.
  intros Hp. rewrite (pi_rf _ _ _ Hp). apply sum_nonneg, Forall_fmap, list.Forall_forall. intros x Hx.
  destruct (pi_open _ _ _ Hp x Hx) as (k & E & _ & _ & ? & _). unfold compose, rf_at. rewrite E. simpl. lia.
Qed.

Lemma abandon_inv b q s : sinv b q s -> safe true (abandon s) (fun _ s' => sinv true [] s' /\ exists p, s' = with_pd p s).
Proof.
  intros Hs. unfold abandon. apply safe_get. eapply safe_bind; [apply (abandon_loop_inv b q); [done|lia]|].
  intros [] s1 (Hs1 & Hl & p & ->). unfold updp, upd. simpl. split; [|by eexists].
  pose proof (si_conn _ _ _ Hs1) as Hc1. pose proof (ci_pend _ _ _ Hc1) as Hp1. simpl in Hp1, Hl.
  set (p' := mkPend _ _ _ _ _ _ _ _ _).
  assert (Hp' : pend_inv (lim (cn s)) [] p').
  { destruct Hp1 as [I1 I2 I3 I4 I5 I6 I7 I8 I9 I10 I11 I12 I13 I14 I15].
    constructor; simpl; try done; rewrite ?length_replicate; try done; try lia.
    - apply NoDup_nil_2.
    - intros r Hr. by apply elem_of_nil in Hr.
    - intros r k Hr Hk _. pose proof (I10 r k Hr Hk) as Hin. rewrite Hl in Hin. by apply elem_of_nil in Hin.
    - intros r Hr. split; [by intros ?%elem_of_nil|]. by destruct (I13 r Hr). }
  assert (Hs' : sinv b [] (with_pd p' s)).
  { destruct Hs1 as [_ Hw1]. split; [|done]. refine (conn_set_pd b q [] (cn (with_pd p s)) p' Hc1 Hp' _ _ _); simpl; [|lia|done].
    by eapply sum_rf_nonneg. }
  by eapply sinv_flag.
Qed.

End Abandon.

(** ** Committing a request *)

Section Requests.
Implicit Types (q : list nat) (s : st) (p : pend) (l : Limits).

Lemma sum_app (l1 l2 : list Z) : sum (l1 ++ l2) = sum l1 + sum l2.
Proof. induction l1 as [|x l1 IH]; simpl; [done|]. unfold sum in *. lia. Qed.

(** A call that is in no use. *)
Definition unused p q (r : nat) (k : Call) : Prop :=
  calls p !! r = Some k /\ (r ∉ q) /\ (r ∉ free p) /\ c_pending k = false /\ c_done k = false /\ c_status k = 0.

Lemma newCall_spec l q s : pend_inv l q (pd (cn s)) ->
  exists r p k, newCall s = Ret r (with_pd p s) /\ pend_inv l q p /\ unused p q r k /\
    (unans p, unansHd p, unansN p, unansRF p, live p, asm p, arrs p) =
    (unans (pd (cn s)), unansHd (pd (cn s)), unansN (pd (cn s)), unansRF (pd (cn s)), live (pd (cn s)), asm (pd (cn s)), arrs (pd (cn s))) /\
    (forall x kx, calls (pd (cn s)) !! x = Some kx -> calls p !! x = Some kx).
Proof.
  intros Hp. pose proof Hp as [I1 I2 I3 I4 I5 I6 I7 I8 I9 I10 I11 I12 I13 I14 I15]. unfold newCall, bind, get.
  destruct (list.last (free (pd (cn s)))) as [r|] eqn:El.
  - apply last_Some in El as (fr & El). unfold updp, upd, ret. exists r, (set_free (removelast (free (pd (cn s)))) (pd (cn s))).
    rewrite El, removelast_last. rewrite El in I12. apply list.NoDup_app in I12 as (N1 & N2 & _).
    destruct (I13 r) as (Hq & k & Hr & Hk); [rewrite El; apply elem_of_app; right; by left|]. exists k. split_and!; try done.
    + constructor; try done. intros x Hx. apply (I13 x). rewrite El. apply elem_of_app. by left.
    + split_and!; try apply Hk; try done. simpl. intros Hx. apply (N2 r Hx). by left.
  - unfold updp, upd, ret. exists (length (calls (pd (cn s)))), (set_calls (calls (pd (cn s)) ++ [new_call]) (pd (cn s))), new_call.
    assert (Hk : forall x kx, calls (pd (cn s)) !! x = Some kx -> (calls (pd (cn s)) ++ [new_call]) !! x = Some kx) by (intros; by apply lookup_app_l_Some).
    assert (Hk' : forall x kx, (calls (pd (cn s)) ++ [new_call]) !! x = Some kx -> calls (pd (cn s)) !! x = Some kx \/ x = length (calls (pd (cn s))) /\ kx = new_call).
    { intros x kx Hx. apply lookup_app_Some in Hx as [?|[Hge Hx]]; [by left|right].
      apply list_lookup_singleton_Some in Hx as [Hx <-]. split; [lia|done]. }
    assert (Hfresh : forall x kx, calls (pd (cn s)) !! x = Some kx -> x <> length (calls (pd (cn s)))) by (intros x kx Hx; apply lookup_lt_Some in Hx; lia).
    split_and!; try done.
    + constructor; simpl; try done.
      * intros x Hx. destruct (I6 x Hx) as (k & E & ?). exists k. auto.
      * rewrite I7. f_equal. apply list_fmap_ext. intros i x Hx. apply list_elem_of_lookup_2 in Hx. destruct (I6 x Hx) as (k & E & _).
        unfold rf_at. simpl. by rewrite (Hk x k E), E.
      * intros i x Hx. destruct (I9 i x Hx) as (k & E & ?). exists k. auto.
      * intros x k Hx Hpk. destruct (Hk' x k Hx) as [?|[_ ->]]; [by eapply I10|done].
      * intros x k Hx Hpk Hdk. destruct (Hk' x k Hx) as [?|[_ ->]]; [by eapply I11|done].
      * intros x Hx. destruct (I13 x Hx) as (? & k & E & ?). split; [done|]. exists k. auto.
      * intros Ha. destruct (I14 Ha) as (x & q' & k & ? & E & ?). exists x, q', k. auto.
      * destruct I15 as [B1 B2]. split.
        -- intros x k Hx. destruct (Hk' x k Hx) as [?|[_ ->]]; [by apply (B1 x)|done].
        -- intros x1 x2 k1 k2 a n1 n2 E1 E2 F1 F2. destruct (Hk' _ _ E1) as [?|[_ ->]], (Hk' _ _ E2) as [?|[_ ->]]; try done. by eapply (B2 x1 x2 k1 k2).
    + split_and!; try done; [simpl; by rewrite lookup_app_r, Nat.sub_diag by lia|..]; intros Hx.
      * destruct (I6 _ Hx) as (k & E & _). by apply Hfresh in E.
      * destruct (I13 _ Hx) as (_ & k & E & _). by apply Hfresh in E.
Qed.

Lemma register_inv l q p r k g rf :
  pend_inv l q p -> unused p q r k -> (length q < Z.to_nat (MaxInFlight l))%nat ->
  (unansRF p + rf <= BufferCount l \/ q = []) -> 1 <= rf -> 0 <= c_respMax (g k) <= MaxMessage l -> rf = resp_slots l (c_respMax (g k)) ->
  c_rf (g k) = rf -> c_pending (g k) = true -> c_done (g k) = c_done k -> c_status (g k) = c_status k -> c_buf (g k) = c_buf k ->
  c_idx (g k) = length (live p) ->
  pend_inv l (q ++ [r])
    (mkPend (<[((unansHd p + unansN p) mod length (unans p))%nat := Some r]> (unans p)) (unansHd p) (S (unansN p))
       (unansRF p + rf) (live p ++ [r]) (free p) (asm p) (alter g r (calls p)) (arrs p)).
Proof.
  intros Hp (Hr & Hq & Hfr & Hpk & Hdk & Hsk) Hn Hfl Hrf Hm Hslots G1 G2 G3 G4 G5 G6.
  pose proof Hp as [I1 I2 I3 I4 I5 I6 I7 I8 I9 I10 I11 I12 I13 I14 I15].
  pose proof (queue_length p I3) as Hl. rewrite I4, length_fmap in Hl.
  assert (Hnl : r ∉ live p) by (intros Hin; apply list_elem_of_lookup in Hin as (i & Hi); destruct (I9 i r Hi) as (k' & E & _ & E1); congruence).
  assert (Hne : forall x kx, calls p !! x = Some kx -> x <> r -> alter g r (calls p) !! x = Some kx) by (intros; by rewrite list_lookup_alter_ne).
  assert (Heq : alter g r (calls p) !! r = Some (g k)) by (by rewrite list_lookup_alter_eq, Hr).
  assert (Hback : forall x kx, alter g r (calls p) !! x = Some kx -> x = r /\ kx = g k \/ x <> r /\ calls p !! x = Some kx).
  { intros x kx Hx. destruct (decide (x = r)) as [->|Hxr]; [left; split; [done|congruence]|right]. by rewrite list_lookup_alter_ne in Hx. }
  assert (Hqr : forall x, x ∈ q -> x <> r) by (intros x Hx ->; done).
  constructor; simpl; try done.
  - by rewrite length_insert.
  - by rewrite length_insert.
  - rewrite length_insert, I1. lia.
  - rewrite fmap_app, <- I4. apply queue_push; simpl; try done; lia.
  - apply list.NoDup_app. split_and!; [done| |apply list.NoDup_cons; by split; [intros ?%elem_of_nil|apply NoDup_nil_2]].
    intros x Hx. rewrite list_elem_of_singleton. by apply Hqr.
  - intros x [Hx|Hx]%elem_of_app.
    + destruct (I6 x Hx) as (kx & E & ?). exists kx. split; [|done]. by apply Hne; [|apply Hqr].
    + apply list_elem_of_singleton in Hx as ->. exists (g k). split; [done|]. unfold open_call. split_and!; congruence || lia.
  - rewrite fmap_app, sum_app. erewrite (rf_sum_ne p _ q r g); [|reflexivity|done]. rewrite I7. simpl. unfold rf_at at 3. simpl.
    rewrite Heq. simpl. lia.
  - rewrite length_app. simpl. destruct Hfl as [| ->]; [left; lia|right; simpl; lia].
  - intros i x Hx. apply lookup_app_Some in Hx as [Hx|[Hge Hx]].
    + destruct (I9 i x Hx) as (kx & E & ?). exists kx. split; [|done]. apply Hne; [done|]. intros ->. apply Hnl. by eapply list_elem_of_lookup_2.
    + apply list_lookup_singleton_Some in Hx as [Hx <-]. exists (g k). split_and!; [done|lia|done].
  - intros x kx Hx Hpx. apply elem_of_app. destruct (Hback x kx Hx) as [[-> ->]|[_ E]]; [right; by left|left; by eapply I10].
  - intros x kx Hx Hpx Hdx. apply elem_of_app. destruct (Hback x kx Hx) as [[-> ->]|[_ E]]; [right; by left|left; by eapply I11].
  - intros x Hx. destruct (I13 x Hx) as (Hxq & kx & E & ?). assert (Hxr : x <> r) by congruence. split.
    + rewrite elem_of_app, list_elem_of_singleton. tauto.
    + exists kx. split; [by apply Hne|done].
  - intros Ha. destruct (I14 Ha) as (x & q' & kx & -> & E & ?). exists x, (q' ++ [r]), kx. split_and!; try done; try tauto; [|lia..].
    apply Hne; [done|]. apply Hqr. by left.
  - eapply (bufs_same p); [done|by intros a v Hv; exists v|]. intros x. simpl. destruct (decide (x = r)) as [->|]; [|by rewrite list_lookup_alter_ne].
    rewrite Heq, Hr. simpl. congruence.
Qed.

End Requests.

(** ** The calls of the owner *)

Section Calls.
Implicit Types (q : list nat) (s : st).

(** The session holds its invariant; a panic is possible only without [b]. *)
Definition good (b : bool) (s : st) : Prop := exists q, sinv b q s.

(** Only what is sent, and the slots still to come, changed. *)
Definition tx_only s s' : Prop :=
  cn s' = cn s /\ rxs (wd s') = rxs (wd s) /\ (forall l, world_ok l (wd s) -> world_ok l (wd s')).

#[export] Instance tx_only_preorder : PreOrder tx_only.
Proof.
  split; [by intros s; split_and!|]. intros s1 s2 s3 (A1 & A2 & A3) (B1 & B2 & B3). split_and!; [congruence..|auto].
Qed.

Lemma tx_only_inv b q s s' : tx_only s s' -> sinv b q s -> sinv b q s'.
Proof. intros (E1 & _ & E3) [Hc Hw]. rewrite <- E1 in *. split; [done|]. by apply E3. Qed.

Lemma Commit_inv buf res n s : safe true (Commit buf res n s) (fun _ s' => tx_only s s').
Proof. unfold Commit. destruct res; simpl; [done|]. by split_and!. Qed.

Lemma ReserveWrite_inv l s : world_ok l (wd s) ->
  safe true (ReserveWrite s) (fun res s' => tx_only s s' /\ forall buf rel, res = Ok (buf, rel) -> len buf = BufferSize l).
Proof.
  intros [_ Hw]. unfold ReserveWrite. destruct (txs (wd s)) as [|ev rest] eqn:E; [done|]. inversion Hw as [|? ? Hev Hrest]; subst. simpl.
  split; [split_and!; try done|intros buf rel ->; done].
  intros l' [H1 H2]. split; [done|]. rewrite E in H2. by inversion H2.
Qed.

Lemma sendFrames_inv l h body : forall n off committed s, limits_ok l -> chunk (cn s) = BufferSize l - 16 -> world_ok l (wd s) ->
  0 <= off < len body -> len body - off < Z.of_nat n -> safe true (sendFrames_loop n h body off committed s) (fun _ s' => tx_only s s').
Proof.
  induction n as [|n IH]; intros off committed s Hl Hch Hw Hoff Hn; [lia|]. cbn [sendFrames_loop]. apply safe_get.
  destruct (lo_size _ Hl) as [Hsz _]. eapply safe_bind; [by apply (ReserveWrite_inv l)|]. intros [[buf rel]|err] s1 [Ht Hb]; [|done].
  rewrite (Hb buf rel eq_refl). destruct (Z.ltb_spec (BufferSize l) FrameHeaderSize) as [Hlt|]; [unfold FrameHeaderSize in Hlt; lia|].
  eapply safe_bind; [apply Commit_inv|]. intros [err|] s2 Ht2; [by simpl; etrans|].
  destruct (Z.leb_spec (len body) (off + Z.min (len body - off) (chunk (cn s)))) as [|Hlt]; [by simpl; etrans|].
  assert (Ht3 : tx_only s s2) by (by etrans). pose proof Ht3 as (E & _ & Hw').
  eapply safe_mono; [apply IH; try done; rewrite ?E; auto; lia|]. intros [] s3 Ht4. by etrans.
Qed.

Lemma rf_quotient_pos c m : 1 <= rf_quotient c m.
Proof. unfold rf_quotient. lia. Qed.

(** Fields the invariant does not read. *)
Lemma conn_inv_flags b q c c' : conn_inv b q c ->
  (lim c', nops c', chunk c', pd c', rfs c', broken c', rxDead c') = (lim c, nops c, chunk c, pd c, rfs c, broken c, rxDead c) ->
  enc_ok c' q -> (rxHeld c' = true -> rxOpen c' = true) -> conn_inv b q c'.
Proof.
  intros [I1 I2 I3 I4 I5 I6 I7 I8 I9 I10] E He Hh. simplify_eq. constructor; try congruence; try done.
  - intros e Hin. unfold rf_quotient. replace (chunk c') with (chunk c) by done. apply I5. congruence.
  - intros Hd. replace (broken c') with (broken c) by done. apply I8. congruence.
  - replace (pd c') with (pd c) by done. done.
Qed.


Lemma good_quiet b s s' : quiet s s' -> good b s -> good b s'.
Proof. intros Hq (q & Hs). exists q. exact (quiet_inv _ _ _ _ Hq Hs). Qed.

Lemma good_intro b q s : sinv b q s -> good b s.
Proof. intros H. by exists q. Qed.

Hint Resolve good_quiet good_intro quiet_inv : hqq.

Lemma rfOf_inv b q op m s : sinv b q s -> op <= nops (cn s) ->
  safe true (rfOf op m s) (fun rf s' => sinv b q s' /\ rf = rf_quotient (cn s') m /\
    (lim (cn s'), nops (cn s'), chunk (cn s')) = (lim (cn s), nops (cn s), chunk (cn s))).
Proof.
  intros [Hc Hw] Hop. pose proof Hc as [I1 I2 I3 I4 I5 I6 I7 I8 I9 I10]. unfold rfOf. apply safe_get.
  destruct (lookup_lt_is_Some_2 (rfs (cn s)) (Z.to_nat op)) as [e He]; [lia|]. rewrite He. unfold bind at 1, of_option, ret.
  destruct (negb (rf_rf e =? 0) && (rf_bound e =? m)) eqn:Eb.
  - breflect. simpl. split_and!; [by split| |done]. destruct (I5 e (list_elem_of_lookup_2 _ _ _ He)) as [|Hq]; congruence.
  - simpl. split_and!; [|done|done]. split; [|done]. constructor; simpl; try done; [by rewrite length_insert|].
    intros e' [i Hi]%list_elem_of_lookup. destruct (decide (i = Z.to_nat op)) as [->|Hne].
    + rewrite list_lookup_insert_eq in Hi by lia. simplify_eq/=. by right.
    + rewrite list_lookup_insert_ne in Hi by done. apply I5. by eapply list_elem_of_lookup_2.
Qed.

Lemma fits_ok b q c m : conn_inv b q c -> fits c (rf_quotient c m) = true ->
  (length q < Z.to_nat (MaxInFlight (lim c)))%nat /\ (unansRF (pd c) + rf_quotient c m <= BufferCount (lim c) \/ q = []).
Proof.
  intros Hc Hf. pose proof (ci_pend _ _ _ Hc) as Hp. pose proof (queue_length _ (pi_n _ _ _ Hp)) as Hl.
  rewrite (pi_queue _ _ _ Hp), length_fmap in Hl. unfold fits in Hf.
  destruct (Z.leb_spec (MaxInFlight (lim c)) (Z.of_nat (unansN (pd c)))); [done|]. split; [lia|].
  destruct (_ <=? BufferCount (lim c)); breflect; [by left|]. apply Nat.eqb_eq in Hf. right. destruct q; [done|simpl in Hl; lia].
Qed.

(** A request begins. *)
Lemma begin_enc b q s e m : sinv b q s -> fits (cn s) (rf_quotient (cn s) m) = true -> 0 <= m <= MaxMessage (lim (cn s)) ->
  e_rf e = rf_quotient (cn s) m -> e_respMax e = m -> len (e_body e) = e_bodyLen e -> e_bodyLen e <= MaxMessage (lim (cn s)) ->
  (e_multi e = false -> 16 + e_bodyLen e <= BufferSize (lim (cn s)) /\ len (e_buf e) = BufferSize (lim (cn s))) ->
  (e_multi e = true -> BufferSize (lim (cn s)) < 16 + e_bodyLen e) ->
  good b (mkSt (set_txOpen true (set_enc e (cn s))) (wd s)).
Proof.
  intros [Hc Hw] Hf Hm E1 E2 E3 E4 E5 E6. destruct (fits_ok _ _ _ _ Hc Hf) as [Hn Hr]. exists q. split; [|done].
  eapply conn_inv_flags; [exact Hc|done| |apply Hc]. intros _. simpl. rewrite E1, E2. split_and!; try done; lia.
Qed.

Lemma scratchFor_inv b q n s : sinv b q s -> 0 <= n ->
  safe true (scratchFor n s) (fun body s' => sinv b q s' /\ len body = n /\ fits (cn s') = fits (cn s) /\
    rf_quotient (cn s') = rf_quotient (cn s) /\ lim (cn s') = lim (cn s)).
Proof.
  intros [Hc Hw] Hn. unfold scratchFor. apply safe_get. unfold len. destruct (Z.ltb_spec (Z.of_nat (length (scratch (cn s)))) n).
  - unfold bind, upd, get, ret. simpl. rewrite length_take, length_replicate. split_and!; try done; [|lia].
    split; [|done]. eapply conn_inv_flags; [exact Hc|done|apply Hc|apply Hc].
  - unfold bind, get, ret. simpl. rewrite length_take. split_and!; try done; lia.
Qed.

Lemma BeginRequest_inv b op n m s : good b s -> safe b (BeginRequest op n m s) (fun _ s' => good b s').
Proof.
  intros (q & Hs). unfold BeginRequest. apply safe_get. destruct (_ || _); [by exists q|].
  destruct (negb (validRequest (cn s) op n m)) eqn:Ev; [by exists q|]. destruct (closed (cn s)); [by exists q|].
  destruct (bool_decide _); [by exists q|]. apply negb_false_iff in Ev. unfold validRequest in Ev. breflect.
  quiet_step enter_quiet. intros ok s1 Hq1. pose proof (quiet_inv _ _ _ _ Hq1 Hs) as Hs1. destruct ok; cbn [negb].
  2: { quiet_step markKilled_quiet. intros [] s2 [Hq2 _]. simpl. eauto with hqq. }
  pose proof (qu_fixed _ _ Hq1) as Ef. injection Ef as El1 En1 Ec1 _.
  eapply safe_bind; [apply safe_true, (rfOf_inv b q); [done|lia]|]. intros rf s2 (Hs2 & -> & Ef2). apply safe_get. injection Ef2 as El2 En2 Ec2.
  eapply safe_bind with (R := fun e s3 => exists q3, sinv b q3 s3 /\ stays s2 s3 /\ (e = None -> fits (cn s3) (rf_quotient (cn s2) m) = true)).
  { destruct (fits (cn s2) (rf_quotient (cn s2) m)) eqn:Ef'; [by exists q|]. unfold makeRoom, bind, enough.
    apply (makeRoom_inv b op _ _ q); [done|lia]. }
  intros [err|] s3 (q3 & Hs3 & Hst3 & Hfit); [quiet_step leave_quiet; intros [] s4 Hq4; simpl; eauto with hqq|].
  pose proof (sy_fixed _ _ Hst3) as Ef3. injection Ef3 as El3 En3 Ec3 _. specialize (Hfit eq_refl).
  assert (Erf : rf_quotient (cn s3) m = rf_quotient (cn s2) m) by (unfold rf_quotient; by rewrite Ec3).
  destruct (Z.leb_spec (FrameHeaderSize + n) (BufferSize (lim (cn s2)))) as [Hsz|Hsz]; unfold FrameHeaderSize in *.
  - eapply safe_bind; [apply safe_true, ReserveWrite_inv, Hs3|]. intros [[buf rel]|err] s4 [Ht Hb].
    + rewrite (Hb buf rel eq_refl), El3. destruct (Z.ltb_spec (BufferSize (lim (cn s2))) (16 + n)); [lia|].
      pose proof (tx_only_inv b q3 s3 s4 Ht Hs3) as Hs4. pose proof Ht as (Et & _). specialize (Hb buf rel eq_refl).
      assert (El : lim (cn s3) = lim (cn s)) by congruence.
      unfold bind, upd, ret. simpl. apply (begin_enc b q3 s4 _ m); simpl; rewrite ?Et, ?Erf, ?El; try done; try lia.
      * rewrite len_zslice; rewrite ?Hb, ?El3; lia.
      * intros _. split; congruence.
    + quiet_step txFailed_quiet. intros e s5 Hq5. quiet_step leave_quiet. intros [] s6 Hq6. simpl.
      pose proof (tx_only_inv b q3 s3 s4 Ht Hs3). eauto with hqq.
  - eapply safe_bind; [apply safe_true, (scratchFor_inv b q3 n); [done|lia]|]. intros body s4 (Hs4 & Hbl & E1 & E2 & E3).
    assert (El : lim (cn s3) = lim (cn s)) by congruence.
    unfold bind, upd, ret. simpl. apply (begin_enc b q3 s4 _ m); simpl; rewrite ?E1, ?E2, ?E3, ?Erf, ?El; try done; try lia. intros _. rewrite <- El1, <- El2. lia.
Qed.


Lemma conn_set_pd_closed b q q' c p : conn_inv b q c -> txOpen c = false -> pend_inv (lim c) q' p ->
  (b = true -> buffered q' p) -> conn_inv b q' (set_pd p c).
Proof. intros [I1 I2 I3 I4 I5 I6 I7 I8 I9 I10] Ht Hp Hb. constructor; try done. intros Hx. simpl in Hx. congruence. Qed.

(** The committed request becomes a call. *)
Lemma register_call_inv b q s g rf :
  sinv b q s -> txOpen (cn s) = false -> (length q < Z.to_nat (MaxInFlight (lim (cn s))))%nat ->
  (unansRF (pd (cn s)) + rf <= BufferCount (lim (cn s)) \/ q = []) -> 1 <= rf ->
  (forall i k, c_rf (g i k) = rf /\ (0 <= c_respMax (g i k) <= MaxMessage (lim (cn s)) /\ rf = resp_slots (lim (cn s)) (c_respMax (g i k))) /\ c_pending (g i k) = true /\ c_done (g i k) = c_done k /\
    c_status (g i k) = c_status k /\ c_buf (g i k) = c_buf k /\ c_idx (g i k) = i) ->
  exists r p, newCall s = Ret r (with_pd p s) /\ length (unans p) <> 0%nat /\ arrs p = arrs (pd (cn s)) /\
    sinv b (q ++ [r]) (with_pd (mkPend (<[((unansHd p + unansN p) mod length (unans p))%nat := Some r]> (unans p)) (unansHd p)
      (S (unansN p)) (unansRF p + rf) (live p ++ [r]) (free p) (asm p) (alter (g (length (live p))) r (calls p)) (arrs p)) s).
Proof.
  intros [Hc Hw] Ht Hn Hf Hrf Hg. pose proof (ci_pend _ _ _ Hc) as Hp. destruct (newCall_spec _ _ _ Hp) as (r & p & k & E & Hp1 & Hu & Es & Hk).
  exists r, p. split; [done|]. split; [pose proof (pi_hd _ _ _ Hp1); lia|]. injection Es as _ _ _ Erf _ Easm Earr. split; [done|].
  destruct (Hg (length (live p)) k) as (G1 & [G2 G2'] & G3 & G4 & G5 & G6 & G7). split; [|done].
  eapply conn_set_pd_closed; [exact Hc|done| |].
  - apply (register_inv _ _ _ _ k); try done. by rewrite Erf.
  - intros -> Ha x kx Hx Ekx. simpl in Ha, Ekx. destruct (pi_asm _ _ _ Hp1 Ha) as (x' & q' & kx' & -> & Ekx' & _).
    simplify_eq/=. destruct Hu as (_ & Hnq & _). rewrite list_lookup_alter_ne in Ekx by (intros ->; apply Hnq; by left).
    destruct (pi_open _ _ _ Hp x) as (k0 & E0 & _); [by left|]. pose proof (Hk x k0 E0). simplify_eq. rewrite Easm in Ha |- *.
    by apply (ci_buffered _ _ _ Hc eq_refl Ha x kx).
Qed.

Lemma Submit_inv b mine s : good b s -> safe b (Submit mine s) (fun _ s' => good b s').
Proof.
  intros (q & Hs). unfold Submit. apply safe_get. destruct (negb mine || negb (txOpen (cn s))) eqn:Eg; [by exists q|]. breflect.
  pose proof Hs as [Hc Hw]. destruct (ci_enc _ _ _ Hc) as (E1 & E2 & E3 & E4 & E5 & E6 & E7 & E8); [done|].
  pose proof (ci_limits _ _ _ Hc) as Hl. destruct (lo_size _ Hl) as [Hsz _]. set (e := enc (cn s)) in *. set (id := nextID (last_id (cn s))).
  eapply safe_bind with (R := fun _ s1 => tx_only s s1).
  { destruct (e_multi e); cbn [negb]; [specialize (E8 eq_refl)|eapply safe_bind; [apply safe_true, Commit_inv|by intros err s1 H1]].
    apply safe_true, (sendFrames_inv (lim (cn s))); [done|apply Hc|done|lia|unfold len; lia]. }
  intros [committed err] s1 Ht. pose proof (tx_only_inv _ _ _ _ Ht Hs) as Hs1. destruct Ht as (Ecn & _).
  unfold bind at 1, upd. set (s2 := mkSt _ _).
  assert (Hs2 : sinv b q s2).
  { destruct Hs1 as [Hc1 Hw1]. split; [|done]. eapply conn_inv_flags; [exact Hc1|done|done|apply Hc1]. }
  cbn [snd fst]. destruct err as [err|].
  - quiet_step txFailed_quiet. intros e' s3 H3. quiet_step afterOp_quiet. intros [] s4 H4. quiet_step leave_quiet. intros [] s5 H5. simpl.
    assert (quiet s2 s5) by (by do 2 (etrans; [done|])). eauto with hqq.
  - unfold bind at 1, upd. set (s3 := mkSt _ _).
    assert (Hs3 : sinv b q s3) by (destruct Hs2 as [Hc2 Hw2]; split; [|done]; eapply conn_inv_flags; [exact Hc2|done|done|apply Hc2]).
    assert (El : lim (cn s3) = lim (cn s)) by (simpl; by rewrite Ecn).
    assert (Ep : pd (cn s3) = pd (cn s)) by (simpl; by rewrite Ecn). assert (Ht3 : txOpen (cn s3) = false) by done. clearbody s3.
    destruct (register_call_inv b q s3 (fun i k => mkCall id (e_op e) (e_rf e) (e_respMax e) true (c_done k) (c_inPlace k) (c_flags k)
      (c_status k) (c_msg k) (c_body k) (c_buf k) i) (e_rf e)) as (r & p & En & Hslots & _ & Hs4); [done|done|by rewrite El|by rewrite El, Ep| |..].
    { rewrite E1. apply rf_quotient_pos. }
    { intros i k. rewrite El. simpl. split_and!; try done; try apply E2. rewrite E1. unfold rf_quotient, resp_slots. by rewrite (ci_chunk _ _ _ Hc). }
    unfold bind at 1. rewrite En. apply safe_get. unfold bind at 1, upd_call, updp, upd. cbn [cn wd pd with_pd set_pd calls set_calls live unans].
    destruct (Nat.eqb_spec (length (unans p)) 0); [done|]. unfold bind at 1.
    eapply safe_bind with (R := fun _ s5 => good b s5).
    { destruct (_ <? _); (exists (q ++ [r])); [|exact Hs4]. destruct Hs4 as [Hc4 Hw4]. split; [|exact Hw4].
      eapply conn_inv_flags; [exact Hc4|done|intros Hx; simpl in Hx; congruence|apply Hc4]. }
    intros [] s5 H5. quiet_step afterOp_quiet. intros [] s6 H6. quiet_step leave_quiet. intros [] s7 H7. simpl. eauto with hqq.
Qed.

Lemma Abort_inv b mine s : good b s -> safe b (Abort mine s) (fun _ s' => good b s').
Proof.
  intros (q & Hs). unfold Abort. apply safe_get. destruct (_ || _); [by exists q|]. unfold bind at 1, upd. set (s1 := mkSt _ _).
  assert (Hs1 : sinv b q s1) by (destruct Hs as [Hc Hw]; split; [|done]; eapply conn_inv_flags; [exact Hc|done|done|apply Hc]).
  eapply safe_bind with (R := fun _ s2 => quiet s1 s2).
  { destruct (negb _); [|simpl; done]. destruct (e_res _); [|simpl; done]. eapply safe_mono; [apply failTx_quiet|]. by intros a s' [Hq _]. }
  intros [] s2 Hq2. unfold bind at 1. pose proof (quiet_inv _ _ _ _ Hq2 Hs1) as Hs2. set (s3 := mkSt _ _).
  assert (Hs3 : sinv b q s3).
  { destruct Hs2 as [Hc Hw]. split; [|done]. eapply conn_inv_flags; [exact Hc|done| |apply Hc]. intros Hx. pose proof (qu_conn _ _ Hq2) as E. simplify_eq. simpl in *. congruence. }
  quiet_step afterOp_quiet. intros [] s4 H4. eapply safe_mono; [apply leave_quiet|]. intros [] s5 H5. eauto with hqq.
Qed.


Lemma good_flags b q s f : sinv b q s -> (forall c, (lim (f c), nops (f c), chunk (f c), pd (f c), rfs (f c), broken (f c), rxDead (f c)) =
    (lim c, nops c, chunk c, pd c, rfs c, broken c, rxDead c)) -> (forall c, (txOpen (f c), enc (f c)) = (txOpen c, enc c)) ->
  (rxHeld (f (cn s)) = true -> rxOpen (f (cn s)) = true) -> sinv b q (mkSt (f (cn s)) (wd s)).
Proof.
  intros [Hc Hw] H1 H2 H3. specialize (H1 (cn s)). specialize (H2 (cn s)). simplify_eq.
  split; [|simpl; by replace (lim (f (cn s))) with (lim (cn s)) by done].
  eapply conn_inv_flags; [exact Hc|simpl; congruence| |done]. pose proof (ci_enc _ _ _ Hc) as He. unfold enc_ok, rf_quotient in *. simpl.
  replace (txOpen (f (cn s))) with (txOpen (cn s)) by done. replace (enc (f (cn s))) with (enc (cn s)) by done.
  replace (lim (f (cn s))) with (lim (cn s)) by done. replace (chunk (f (cn s))) with (chunk (cn s)) by done.
  by replace (pd (f (cn s))) with (pd (cn s)) by done.
Qed.

Lemma abandonCall_inv b q r k s : sinv b q s -> calls (pd (cn s)) !! r = Some k -> c_pending k = true ->
  safe true (abandonCall r s) (fun _ s' => sinv b q s' /\ exists p, s' = with_pd p s).
Proof.
  intros Hs Hr Hk. unfold abandonCall, bind at 1. rewrite (deref_spec _ _ _ Hr). unfold errForCall. unfold bind at 1, bind at 1, get, ret at 1.
  eapply safe_bind; [by apply (end_one_inv b q)|]. intros [] s1 (Hs1 & p & -> & _). simpl. split; [done|]. by exists p.
Qed.

(** Ending a read: the slot was released or never held. *)
Lemma close_rx b q s : sinv b q s -> rxHeld (cn s) = false -> sinv b q (mkSt (set_rxOpen false (cn s)) (wd s)).
Proof. intros Hs Hh. by apply (good_flags b q s (set_rxOpen false)); [..|simpl; congruence]. Qed.

Lemma Wait_inv b call id s : good b s -> (forall r, call = Some r -> is_Some (calls (pd (cn s)) !! r)) ->
  safe b (Wait call id s) (fun _ s' => good b s').
Proof.
  intros (q & Hs) Hcall. unfold Wait. destruct call as [r|]; [|by exists q]. destruct (Hcall r eq_refl) as [k Hr].
  unfold bind at 1. rewrite (deref_spec _ _ _ Hr). apply safe_get. destruct (negb (c_pending k) || negb (c_id k =? id)) eqn:Eg; [by exists q|]. breflect.
  destruct (rxOpen (cn s)) eqn:Eo; [by exists q|].
  assert (Hh : rxHeld (cn s) = false) by (destruct (rxHeld (cn s)) eqn:E; [pose proof (ci_held _ _ _ (si_conn _ _ _ Hs) E); congruence|done]).
  quiet_step enter_quiet. intros ok s1 Hq1. pose proof (quiet_inv _ _ _ _ Hq1 Hs) as Hs1. pose proof (qu_conn _ _ Hq1) as Ec1. injection Ec1 as _ _ _ _ Eh1 _ Ep1 _ _ _.
  destruct ok; cbn [negb].
  2: { quiet_step markKilled_quiet. intros [] s2 [Hq2 _]. pose proof (quiet_inv _ _ _ _ Hq2 Hs1) as Hs2.
       pose proof (qu_conn _ _ Hq2) as Ec2. injection Ec2 as _ _ _ _ _ _ Ep2 _ _ _.
       eapply safe_bind; [apply safe_true, (abandonCall_inv b q r k s2); congruence|]. intros e s3 [Hs3 _]. by exists q. }
  unfold bind at 1, upd. set (s2 := mkSt _ _). assert (Hs2 : sinv b q s2) by (by apply (good_flags b q s1 (set_rxOpen true))).
  eapply safe_bind with (R := fun e s3 => exists q3, sinv b q3 s3 /\ keeps (pd (cn s2)) (pd (cn s3)) /\ (e <> None -> rxHeld (cn s3) = false) /\
    (e = None -> exists k, calls (pd (cn s3)) !! r = Some k /\ c_done k = true /\ (rxHeld (cn s3) = true -> c_status k = 0))).
  { destruct (c_done k) eqn:Ed.
    - exists q. split_and!; try done. intros _. exists k. split_and!; [simpl; congruence|done|]. intros Hx. simpl in Hx. congruence.
    - unfold await, bind, enough. eapply safe_mono; [apply (await_inv b r _ q s2 false k); try done; simpl; [lia|congruence|congruence]|].
      intros e s3 (q3 & Hs3 & Hst3 & He & Hn). exists q3. split_and!; try done. apply Hst3. }
  intros e s3 (q3 & Hs3 & Hk3 & He3 & Hd3). destruct (keeps_lookup _ _ r k Hk3) as (k3 & Hr3 & Ek3); [simpl; congruence|].
  unfold request in Ek3. injection Ek3 as _ _ _ _ Epk _. rewrite H in Epk. destruct e as [err|].
  - specialize (He3 ltac:(done)). unfold bind at 1. pose proof (close_rx _ _ _ Hs3 He3) as Hs4. apply safe_get. simpl.
    destruct (negb (rxDead (cn s3))).
    + quiet_step leave_quiet. intros [] s5 H5. simpl. eauto with hqq.
    + eapply safe_bind; [apply safe_true, (abandonCall_inv b q3 r k3 _ Hs4); done|]. intros e' s5 [Hs5 _].
      quiet_step afterOp_quiet. intros [] s6 H6. quiet_step leave_quiet. intros [] s7 H7. simpl. eauto with hqq.
  - destruct (Hd3 eq_refl) as (k' & Hr' & Hdone & Hstat). simplify_eq. unfold bind at 1. rewrite (deref_spec _ _ _ Hr3).
    destruct (Z.eqb_spec (c_status k3) statusOK) as [Es|Es]; cbn [negb].
    + unfold bind at 1. set (s4 := mkSt _ _). assert (Hs4 : sinv b q3 s4) by (apply (good_flags b q3 s3 (fun c => set_rxGen (u32 (rxGen c + 1)) c)); [done..|apply Hs3]).
      apply safe_get. eapply safe_bind; [by apply safe_true, (recycle_inv b q3 s4 r k3)|]. intros [] s5 [Hs5 _]. by exists q3.
    + apply safe_get. eapply safe_bind; [by apply safe_true, (recycle_inv b q3 s3 r k3)|]. intros [] s5 (Hs5 & (p & -> & _) & _).
      unfold bind at 1. assert (Hh3 : rxHeld (cn s3) = false) by (destruct (rxHeld (cn s3)); [by destruct Es; apply Hstat|done]).
      pose proof (close_rx _ _ _ Hs5 Hh3) as Hs6.
      quiet_step afterOp_quiet. intros [] s7 H7. quiet_step leave_quiet. intros [] s8 H8. simpl. eauto with hqq.
Qed.


Lemma Release_inv b d s : good b s -> safe true (Release d s) (fun _ s' => good b s').
Proof.
  intros (q & Hs). unfold Release. destruct (negb (d_open d)); [by exists q|]. apply safe_get. destruct (_ || _); [by exists q|].
  eapply safe_bind with (R := fun _ s' => good b s'); [|done]. unfold endRx. apply safe_get.
  eapply safe_bind with (R := fun _ s' => sinv b q s' /\ rxHeld (cn s') = false).
  { destruct (rxHeld (cn s)) eqn:Eh; [|done]. unfold bind at 1, upd. set (s1 := mkSt _ _).
    assert (Hs1 : sinv b q s1) by (by apply (good_flags b q s (set_rxHeld false))). destruct (rxRes (cn s)); [|done].
    quiet_step failRx_quiet. intros a s2 [Hq2 _]. simpl. split; [exact (quiet_inv _ _ _ _ Hq2 Hs1)|].
    pose proof (qu_conn _ _ Hq2) as E. injection E as _ _ _ _ E _. done. }
  intros [] s1 [Hs1 Hh1]. unfold bind at 1, upd. pose proof (close_rx _ _ _ Hs1 Hh1) as Hs2.
  quiet_step afterOp_quiet. intros [] s3 H3. eapply safe_mono; [apply leave_quiet|]. intros [] s4 H4. eauto with hqq.
Qed.

Lemma Malformed_inv b d s : good b s -> safe true (Malformed d s) (fun _ s' => good b s').
Proof.
  intros Hs. unfold Malformed. destruct (negb _); [done|]. apply safe_get. quiet_step failRx_quiet. intros a s1 [Hq1 _]. simpl. eauto with hqq.
Qed.

Lemma write_body_inv b body s : good b s -> good b (mkSt (write_body body (cn s)) (wd s)).
Proof.
  intros (q & Hs). exists q. unfold write_body. destruct (txOpen (cn s) && (len body =? e_bodyLen (enc (cn s)))) eqn:E; [|by destruct s].
  breflect. destruct Hs as [Hc Hw]. destruct (ci_enc _ _ _ Hc) as (E1 & E2 & E3 & E4 & E5 & E6 & E7 & E8); [done|].
  destruct (e_multi (enc (cn s))) eqn:Em; (split; [|done]); (eapply conn_inv_flags; [exact Hc|done| |apply Hc]); intros _; simpl; rewrite ?Em in *;
    (split_and!; try done; try lia).
Qed.

(** A [Sync] that ran into its deadline in the middle of a response, with the
    session still alive: the frames that came were not kept. *)
Definition cut (o : op) (a : answer) (s : st) : bool :=
  match o, a with
  | OSync, AErr (Some (TransportError _ _ _)) => negb (rxDead (cn s)) && a_active (asm (pd (cn s)))
  | _, _ => false
  end.

Lemma sinv_weak b q s : sinv b q s -> sinv false q s.
Proof. intros [[] Hw]. split; [|done]. by constructor. Qed.

Lemma good_weak b s : good b s -> good false s.
Proof. intros (q & Hs). exists q. by eapply sinv_weak. Qed.

(** The session ends: every call is abandoned and the link is closed. *)
Lemma give_up_inv b q s (leaving : bool) : sinv b q s -> rxDead (cn s) = true ->
  safe true ((abandon;; afterOp;; (if leaving then leave else ret tt);; c ← get; ret (broken c)) s)
    (fun e s' => good true s' /\ rxDead (cn s') = true).
Proof.
  intros Hs Hd. eapply safe_bind; [by apply (abandon_inv b q)|]. intros [] s1 (Hs1 & p & ->). quiet_step afterOp_quiet. intros [] s2 H2.
  eapply safe_bind with (R := fun _ s3 => quiet s2 s3); [destruct leaving; [apply leave_quiet|simpl; done]|]. intros [] s3 H3.
  apply safe_get. simpl. assert (Hq : quiet (with_pd p s) s3) by (by etrans). split; [eauto with hqq|]. by apply (qu_dead _ _ Hq).
Qed.

Lemma Sync_inv b s : good b s -> safe true (Sync s) (fun e s' => good (b && negb (cut OSync (AErr e) s')) s').
Proof.
  intros (q & Hs). unfold Sync. apply safe_get. destruct (_ || _); [simpl; rewrite andb_true_r; by exists q|].
  assert (Hdead : forall e s', good true s' /\ rxDead (cn s') = true -> good (b && negb (cut OSync (AErr e) s')) s').
  { intros e s' [Hg Hd]. unfold cut. rewrite Hd. replace (negb _) with true by (by destruct e as [[]|]). rewrite andb_true_r.
    destruct b; [done|by eapply good_weak]. }
  quiet_step enter_quiet. intros ok s1 Hq1. pose proof (quiet_inv _ _ _ _ Hq1 Hs) as Hs1. destruct ok; cbn [negb].
  - unfold bind at 1, enough. eapply safe_bind; [apply (sync_inv _ q); [by eapply sinv_weak|lia]|]. intros e s2 (q2 & Hs2 & Hst2 & He). apply safe_get.
    destruct (rxDead (cn s2)) eqn:Ed.
    + eapply safe_mono; [exact (give_up_inv false q2 s2 true Hs2 Ed)|apply Hdead].
    + quiet_step leave_dead. intros [] s3 [H3 Hd3]. pose proof (quiet_inv _ _ _ _ H3 Hs2) as Hs3.
      eapply safe_bind; [by apply (discardAnswered_inv false q2)|]. intros [] s4 (Hs4 & p & ->). destruct e as [err|].
      * simpl. rewrite Hd3, Ed. simpl. destruct (a_active (asm p)) eqn:Ha; [rewrite andb_false_r; by exists q2|].
        exists q2. eapply sinv_flag; [exact Hs4|]. intros Hx. simpl in Hx. congruence.
      * destruct (He eq_refl) as [-> |]; [|congruence]. simpl. rewrite andb_true_r. exists []. eapply sinv_flag; [exact Hs4|]. done.
  - quiet_step markKilled_quiet. intros [] s2 [Hq2 Hd2]. pose proof (quiet_inv _ _ _ _ Hq2 Hs1) as Hs2.
    eapply safe_mono; [exact (give_up_inv b q s2 false Hs2 Hd2)|apply Hdead].
Qed.


Lemma transportErr_quiet e s : safe true (transportErr e s) (fun _ s' => quiet s s').
Proof. eapply safe_bind; [apply killed_quiet|]. intros k s1 H1. exact H1. Qed.

Lemma read_one b q s ev rest : sinv b q s -> rxs (wd s) = ev :: rest ->
  sinv b q (mkSt (cn s) (mkWorld rest (txs (wd s)) (dls (wd s)) (kills (wd s)) (caps (wd s)) (closeErr (wd s)) (sent (wd s)))).
Proof. intros [Hc [H1 H2]] E. split; [done|]. split; [|done]. rewrite E in H1. by inversion H1. Qed.

Lemma close_loop_inv b q : forall n s, sinv b q s -> (length (rxs (wd s)) < n)%nat -> safe true (close_loop n s) (fun _ s' => sinv b q s').
Proof.
  induction n as [|n IH]; intros s Hs Hn; [lia|]. cbn [close_loop]. unfold bind at 1, ReserveRead.
  destruct (rxs (wd s)) as [|ev rest] eqn:E; [done|]. pose proof (read_one _ _ _ _ _ Hs E) as Hs1. simpl in Hn.
  assert (Hfail : forall err s', sinv b q s' -> safe true (bind (transportErr err) (fun e => ret (Some e)) s') (fun _ s'' => sinv b q s'')).
  { intros err s' Hs'. quiet_step transportErr_quiet. intros e s2 H2. exact (quiet_inv _ _ _ _ H2 Hs'). }
  destruct ev as [[f rel]|err]; [|by apply Hfail]. destruct rel; [by apply Hfail|]. destruct (_ <? _); [done|].
  destruct (_ || _); [apply IH; [done|simpl; lia]|]. destruct (_ =? _); [|done]. by destruct (_ || _).
Qed.

Lemma closeSession_inv b q s : sinv b q s -> safe true (closeSession s) (fun _ s' => sinv b q s').
Proof.
  intros Hs. unfold closeSession.
  assert (Hfail : forall err s', sinv b q s' -> safe true (bind (transportErr err) (fun e => ret (Some e)) s') (fun _ s'' => sinv b q s'')).
  { intros err s' Hs'. quiet_step transportErr_quiet. intros e s2 H2. exact (quiet_inv _ _ _ _ H2 Hs'). }
  quiet_step SetDeadline_quiet. intros e s1 H1. pose proof (quiet_inv _ _ _ _ H1 Hs) as Hs1. destruct e; [by apply Hfail|].
  quiet_step killed_quiet. intros k s2 H2. pose proof (quiet_inv _ _ _ _ H2 Hs1) as Hs2. destruct k; [by apply Hfail|].
  destruct (lo_size _ (ci_limits _ _ _ (si_conn _ _ _ Hs2))) as [Hsz _].
  eapply safe_bind; [apply ReserveWrite_inv, Hs2|]. intros [[buf rel]|err] s3 [Ht Hb]; pose proof (tx_only_inv b q s2 s3 Ht Hs2) as Hs3; [|by apply Hfail].
  rewrite (Hb buf rel eq_refl). destruct (Z.ltb_spec (BufferSize (lim (cn s2))) FrameHeaderSize) as [Hx|]; [unfold FrameHeaderSize in Hx; lia|].
  eapply safe_bind; [apply Commit_inv|]. intros [err|] s4 Ht4; pose proof (tx_only_inv b q s3 s4 Ht4 Hs3) as Hs4; [by apply Hfail|].
  quiet_step SetDeadline_quiet. intros e s5 H5. pose proof (quiet_inv _ _ _ _ H5 Hs4) as Hs5. destruct e; [by apply Hfail|].
  unfold bind at 1, upd. set (s6 := mkSt _ _). assert (Hs6 : sinv b q s6) by (apply (good_flags b q s5 (set_rdArmed true)); [done..|apply Hs5]).
  quiet_step killed_quiet. intros k s7 H7. pose proof (quiet_inv _ _ _ _ H7 Hs6) as Hs7. destruct k; [by apply Hfail|].
  unfold bind, enough. apply close_loop_inv; [done|lia].
Qed.

Lemma Close_inv b s : good b s -> safe true (Close s) (fun _ s' => good b s').
Proof.
  intros (q & Hs). unfold Close. apply safe_get. destruct (_ || _); [by exists q|]. destruct (closed (cn s)); [by exists q|].
  unfold bind at 1, upd. set (s1 := mkSt _ _). assert (Hs1 : sinv b q s1) by (apply (good_flags b q s (set_closed true)); [done..|apply Hs]).
  eapply safe_bind; [by apply (abandon_inv b q)|]. intros [] s2 (Hs2 & _). apply safe_get.
  eapply safe_bind with (R := fun _ s3 => sinv true [] s3).
  { destruct (bool_decide _); [|done]. quiet_step enter_quiet. intros ok s3 H3. pose proof (quiet_inv _ _ _ _ H3 Hs2) as Hs3. destruct ok.
    - eapply safe_bind; [by apply (closeSession_inv true [])|]. intros e s4 Hs4. quiet_step leave_quiet. intros [] s5 H5. exact (quiet_inv _ _ _ _ H5 Hs4).
    - quiet_step markKilled_quiet. intros [] s4 [H4 _]. exact (quiet_inv _ _ _ _ H4 Hs3). }
  intros e s3 Hs3. quiet_step closeLink_quiet. intros e' s4 H4. pose proof (quiet_inv _ _ _ _ H4 Hs3) as Hs4. simpl.
  assert (Hg : good true (mkSt (set_closeRes (errors_Join e (hqq <$> e')) (cn s4)) (wd s4))).
  { exists []. apply (good_flags true [] s4 (set_closeRes (errors_Join e (hqq <$> e')))); [done..|apply Hs4]. }
  destruct b; [exact Hg|by eapply good_weak].
Qed.

Lemma newConn_good l nops ct w : limits_ok l -> 0 <= nops -> world_ok l w -> good true (mkSt (newConn l nops ct) w).
Proof.
  intros Hl Hn Hw. exists []. destruct (lo_inflight _ Hl) as [Hm _]. split; [|done]. constructor; simpl; try done.
  - by rewrite length_replicate.
  - intros e He. left. apply elem_of_cons in He as [-> |He]; [done|]. by apply elem_of_replicate in He as [-> _].
  - constructor; simpl; try done; rewrite ?length_replicate; try lia; try done; try apply NoDup_nil_2; try (by intros r Hr%elem_of_nil).
    all: intros; discriminate.
Qed.

(** Every call keeps the invariant. *)
Lemma run_op_inv b o s : good b s -> safe b (run_op o s) (fun a s' => good (b && negb (cut o a s')) s').
Proof.
  intros Hs. assert (Hb : forall s', good b s' -> good (b && true) s') by (intros s'; by rewrite andb_true_r). destruct o; simpl.
  - eapply safe_bind; [by apply BeginRequest_inv|]. intros e s1 H1. by apply Hb.
  - unfold bind, upd, ret. simpl. apply Hb. by apply write_body_inv.
  - eapply safe_bind; [by apply Submit_inv|]. intros e s1 H1. by apply Hb.
  - eapply safe_bind; [by apply Abort_inv|]. intros e s1 H1. by apply Hb.
  - apply safe_get. eapply safe_bind; [apply Wait_inv; [done|]|intros e s1 H1; by apply Hb].
    intros r Hr. destruct (Nat.ltb_spec call (length (calls (pd (cn s))))); [|done]. simplify_eq. by apply lookup_lt_is_Some.
  - eapply safe_bind; [by apply safe_true, Release_inv|]. intros e s1 H1. by apply Hb.
  - eapply safe_bind; [by apply safe_true, Malformed_inv|]. intros e s1 H1. by apply Hb.
  - eapply safe_bind; [by apply safe_true, Sync_inv|]. intros e s1 H1. exact H1.
  - eapply safe_bind; [by apply safe_true, Close_inv|]. intros e s1 H1. by apply Hb.
Qed.

End Calls.

(** ** Runs of a session *)

(** The states of a session; the flag is lost when a [Sync] runs into its
    deadline in the middle of a response and the session lives on. *)
Inductive reachable : bool -> st -> Prop :=
| reach_new l nops callTimeout w : limits_ok l -> 0 <= nops -> world_ok l w -> reachable true (mkSt (newConn l nops callTimeout) w)
| reach_op b s o a s' : reachable b s -> run_op o s = Ret a s' -> reachable (b && negb (cut o a s')) s'.

Lemma reachable_good b s : reachable b s -> good b s.
Proof.
  induction 1 as [|b s o a s' _ IH E]; [by apply newConn_good|]. pose proof (run_op_inv b o s IH) as H. by rewrite E in H.
Qed.

(** The call a pointer of the ring points to. *)
Definition rf_of (p : pend) (r : option nat) : Z := match r with Some r => rf_at p r | None => 0 end.

(** C36. Flow control. In every state of a session, whatever the server sent and
    whatever calls the owner made: at most MaxInFlight calls are unanswered,
    each of them a different call that waits for its response; their response
    frames are counted right, and they fit the ring of the server unless a
    single call needs more than the whole ring. So a server that answers never
    waits for a slot that only the client's next read would free. *)
Theorem session_flow_control (b : bool) (s : st) (H : reachable b s) :
  let p := pd (cn s) in
  let l := lim (cn s) in
  Z.of_nat (unansN p) <= MaxInFlight l /\ length (queue p) = unansN p /\ NoDup (queue p) /\
  (forall r, r ∈ queue p -> exists i k, r = Some i /\ calls p !! i = Some k /\ c_done k = false /\ 1 <= c_rf k) /\
  unansRF p = sum (rf_of p <$> queue p) /\ (unansRF p <= BufferCount l \/ (unansN p <= 1)%nat).
Proof.
  cbv zeta. destruct (reachable_good _ _ H) as (q & [Hc Hw]). destruct (ci_pend _ _ _ Hc) as [I1 I2 I3 I4 I5 I6 I7 I8 _ _ _ _ _ _ _].
  pose proof (queue_length _ I3) as Hl. destruct (lo_inflight _ (ci_limits _ _ _ Hc)) as [Hm _]. rewrite I4 in *. rewrite length_fmap in Hl.
  split_and!; [lia|by rewrite length_fmap|by apply NoDup_fmap_2; [apply _|]| | |].
  - intros r Hr. apply list_elem_of_fmap in Hr as (i & -> & Hi). destruct (I6 i Hi) as (k & E & O1 & _ & O3 & _). by exists i, k.
  - rewrite I7, <- list_fmap_compose. done.
  - destruct I8; [by left|right; lia].
Qed.
