(* ===== verification/SessionReads.v ===== *)
(** * SessionReads: how many frames a call of the owner reads

    Every call of the owner but [Close] reads a bounded number of frames,
    however many the server sends: the frames of the unanswered calls, which
    flow control has counted, and one event that fails the session or the
    call. [Close] has no such bound: it reads on for as long as responses come. *)
From S2P Require Import Prelude Errors Protocol Codec Session SessionInv SessionOps.

(** ** Steps that do not read *)

(** The step takes nothing from the link, and waits for nothing; with [w] it
    may wait for slots to write to, and take them. *)
Definition local {A} (w : bool) (m : M A) : Prop := forall s,
  match m s with
  | Ret _ s' => rxs (wd s') = rxs (wd s) /\ (w = false -> txs (wd s') = txs (wd s))
  | Blocked => w = true
  | Panic | OutOfFuel => True
  end.

Lemma local_bind {A B} w (m : M A) (k : A -> M B) : local w m -> (forall a, local w (k a)) -> local w (bind m k).
Proof.
  intros Hm Hk s. specialize (Hm s). unfold bind. destruct (m s) as [a s1| | |]; [|done..]. destruct Hm as [E1 E2].
  specialize (Hk a s1). destruct (k a s1) as [x s2| | |]; [|done..]. destruct Hk as [E3 E4]. split; [congruence|]. intros Hw. rewrite E4 by done. by apply E2.
Qed.

Lemma local_any {A} w (m : M A) : local false m -> local w m.
Proof. intros Hm s. specialize (Hm s). destruct (m s); [|done..]. destruct Hm as [E1 E2]. split; [done|]. intros _. by apply E2. Qed.

Create HintDb local.

Ltac local_tac :=
  repeat first
    [ progress cbv beta zeta
    | solve [auto with local]
    | solve [apply local_any; auto with local]
    | apply local_bind; [|intros]
    | match goal with |- local _ (match ?x with _ => _ end) => destruct x end ].

Section Local.

Lemma ret_local {A} (a : A) : local false (ret a).
Proof. done. Qed.
Lemma get_local : local false get.
Proof. done. Qed.
Lemma upd_local f : local false (upd f).
Proof. done. Qed.
Lemma updp_local f : local false (updp f).
Proof. done. Qed.
Lemma upd_call_local r f : local false (upd_call r f).
Proof. done. Qed.
Lemma panic_local {A} : local false (@panic A).
Proof. done. Qed.
Lemma of_option_local {A} (o : option A) : local false (of_option o).
Proof. by destruct o. Qed.
Lemma killed_local : local false killed.
Proof. done. Qed.
Lemma SetDeadline_local : local false SetDeadline.
Proof. done. Qed.
Lemma spare_local : local false spare.
Proof. done. Qed.
Lemma closeLink_local : local false closeLink.
Proof. done. Qed.
Lemma enough_local : local false enough.
Proof. done. Qed.
Lemma Commit_local buf res n : local false (Commit buf res n).
Proof. intros s. unfold Commit. by destruct res. Qed.
Lemma ReserveWrite_local : local true ReserveWrite.
Proof. intros s. unfold ReserveWrite. by destruct (txs (wd s)). Qed.
Lemma fuel_local {A} w : local w (fun _ => @OutOfFuel A).
Proof. done. Qed.

End Local.

#[export] Hint Resolve ret_local get_local upd_local updp_local upd_call_local panic_local of_option_local killed_local SetDeadline_local
  spare_local closeLink_local enough_local Commit_local ReserveWrite_local fuel_local : local.

Section Steps.

Lemma deref_local r : local false (deref r).
Proof. unfold deref. local_tac. Qed.
Lemma leave_local : local false leave.
Proof. unfold leave. local_tac. Qed.
#[local] Hint Resolve deref_local leave_local : local.
Lemma enter_local : local false enter.
Proof. unfold enter. local_tac. Qed.
Lemma failRx_local e : local false (failRx e).
Proof. unfold failRx. local_tac. Qed.
#[local] Hint Resolve failRx_local : local.
Lemma markKilled_local : local false markKilled.
Proof. unfold markKilled. local_tac. Qed.
#[local] Hint Resolve markKilled_local : local.
Lemma txFailed_local e : local false (txFailed e).
Proof. unfold txFailed, failTx. local_tac. Qed.
Lemma afterOp_local : local false afterOp.
Proof. unfold afterOp. local_tac. Qed.
Lemma brokenErr_local op : local false (brokenErr op).
Proof. unfold brokenErr. local_tac. Qed.
Lemma readError_local e : local false (readError e).
Proof. unfold readError. local_tac. Qed.
#[local] Hint Resolve brokenErr_local : local.
Lemma readFailed_local op e : local false (readFailed op e).
Proof. unfold readFailed. local_tac. Qed.
Lemma armRead_local : local false armRead.
Proof. unfold armRead. local_tac. Qed.
Lemma unansHead_local : local false unansHead.
Proof. unfold unansHead. local_tac. Qed.
Lemma unregister_local r : local false (unregister r).
Proof. unfold unregister. local_tac. Qed.
#[local] Hint Resolve unregister_local unansHead_local : local.
Lemma recycle_local r : local false (recycle r).
Proof. unfold recycle. local_tac. Qed.
Lemma dropCall_local r : local false (dropCall r).
Proof. unfold dropCall. local_tac. Qed.
#[local] Hint Resolve recycle_local dropCall_local : local.
Lemma abandonCall_local r : local false (abandonCall r).
Proof. unfold abandonCall, errForCall. local_tac. Qed.
Lemma discard_local : forall n i, local false (discard_loop n i).
Proof. induction n; intros i; cbn [discard_loop]; local_tac. Qed.
Lemma abandon_loop_local : forall n, local false (abandon_loop n).
Proof. induction n; cbn [abandon_loop]; local_tac. Qed.
#[local] Hint Resolve discard_local abandon_loop_local : local.
Lemma abandon_local : local false abandon.
Proof. unfold abandon. local_tac. Qed.
Lemma discardAnswered_local : local false discardAnswered.
Proof. unfold discardAnswered. local_tac. Qed.
Lemma finish_local r : local false (finish r).
Proof. unfold finish. local_tac. Qed.
Lemma newCall_local : local false newCall.
Proof. unfold newCall. local_tac. Qed.
Lemma make_local b : local false (make b).
Proof. unfold make. local_tac. Qed.
#[local] Hint Resolve make_local finish_local newCall_local : local.
Lemma growTo_local s n : local false (growTo s n).
Proof. unfold growTo. local_tac. Qed.
Lemma copy_at_local s off b : local false (copy_at s off b).
Proof. unfold copy_at. local_tac. Qed.
Lemma append0_local s b : local false (append0 s b).
Proof. unfold append0. local_tac. Qed.
#[local] Hint Resolve growTo_local copy_at_local append0_local : local.
Lemma acceptFrame_local b mode : local false (acceptFrame b mode).
Proof. unfold acceptFrame, acceptCont, statusResponse, acceptFirst, acceptSingle. local_tac. Qed.
Lemma rfOf_local op m : local false (rfOf op m).
Proof. unfold rfOf. local_tac. Qed.
Lemma scratchFor_local n : local false (scratchFor n).
Proof. unfold scratchFor. local_tac. Qed.
Lemma sendFrames_local h body : forall n off committed, local true (sendFrames_loop n h body off committed).
Proof. induction n; intros off committed; cbn [sendFrames_loop]; local_tac. Qed.
#[local] Hint Resolve sendFrames_local : local.
Lemma endRx_local : local false endRx.
Proof. unfold endRx. pose proof afterOp_local. local_tac. Qed.

End Steps.

#[export] Hint Resolve deref_local leave_local enter_local failRx_local markKilled_local txFailed_local afterOp_local brokenErr_local readError_local
  readFailed_local armRead_local unansHead_local recycle_local dropCall_local abandonCall_local abandon_local discardAnswered_local finish_local
  newCall_local acceptFrame_local rfOf_local scratchFor_local sendFrames_local endRx_local : local.

(** ** Calls that read *)

(** At most [n] events are taken from the link; who waits has read fewer than
    [n], or waits for a slot to write to. *)
Definition taken {A} (n : Z) (s : st) (o : outcome A) : Prop :=
  match o with
  | Ret _ s' => Z.of_nat (length (rxs (wd s))) <= Z.of_nat (length (rxs (wd s'))) + n
  | Blocked => Z.of_nat (length (rxs (wd s))) < n \/ txs (wd s) = []
  | Panic | OutOfFuel => True
  end.

(** The frames still to come, and one event more. *)
Definition due (q : list nat) (s : st) : Z := left (lim (cn s)) q (pd (cn s)) + 1.

Section Taken.
Context {A B : Type}.
Implicit Types (q : list nat) (s : st) (m : M A) (k : A -> M B).

Lemma taken_mono {C} n n' s (o : outcome C) : n <= n' -> taken n s o -> taken n' s o.
Proof. intros Hn. destruct o; simpl; [lia|done| |done]. intros [H|H]; [left; lia|by right]. Qed.

Lemma taken_local {C} n s (m : M C) : 0 <= n -> local false m -> taken n s (m s).
Proof. intros Hn Hm. specialize (Hm s). destruct (m s); [|done..]. destruct Hm as [E _]. simpl. rewrite E. lia. Qed.

Lemma taken_from {C} n s s' (o : outcome C) : (rxs (wd s'), txs (wd s')) = (rxs (wd s), txs (wd s)) -> taken n s' o -> taken n s o.
Proof. intros E. injection E as E1 E2. destruct o; simpl; rewrite ?E1, ?E2; done. Qed.

(** First a step that does not read. *)
Lemma taken_bind b n s m k (R : A -> st -> Prop) : local false m -> safe b (m s) R ->
  (forall a s', R a s' -> (rxs (wd s'), txs (wd s')) = (rxs (wd s), txs (wd s)) -> taken n s' (k a s')) -> taken n s (bind m k s).
Proof.
  intros Hm HR Hk. specialize (Hm s). unfold bind. destruct (m s) as [a s'| | |]; [|done..]. destruct Hm as [E1 E2]. specialize (E2 eq_refl).
  assert (E : (rxs (wd s'), txs (wd s')) = (rxs (wd s), txs (wd s))) by congruence. eapply taken_from; [exact E|]. by apply Hk.
Qed.

(** Then one that does not read. *)
Lemma taken_then n s m k : taken n s (m s) -> (forall a, local false (k a)) -> taken n s (bind m k s).
Proof.
  intros Hm Hk. unfold bind. destruct (m s) as [a s'| | |]; [|done..]. specialize (Hk a s'). simpl in Hm.
  destruct (k a s'); [|done..]. destruct Hk as [E _]. simpl. rewrite E. lia.
Qed.

End Taken.

Section Reads.
Implicit Types (q : list nat) (s : st) (mode : rxMode).

Lemma due_pos b q s : sinv b q s -> 1 <= due q s <= unansRF (pd (cn s)) + 1.
Proof. intros Hs. pose proof (left_nonneg b q s Hs). unfold due. lia. Qed.

(** Who waits for the next frame of a response has read only frames that
    could come. *)
Lemma readResponse_waits b mode : (mode = rxDiscard -> b = false) -> forall n q s, sinv b q s ->
  readResponse n mode s = Blocked -> Z.of_nat (length (rxs (wd s))) < due q s.
Proof.
  intros Hm. induction n as [|n IH]; intros q s Hs E; [done|]. pose proof (due_pos _ _ _ Hs) as Hpos. cbn [readResponse] in E.
  unfold bind at 1, ReserveRead in E. destruct Hs as [Hc [Hw1 Hw2]]. destruct (rxs (wd s)) as [|ev rest] eqn:Erx; [simpl; lia|].
  inversion Hw1 as [|? ? Hev Hrest]; subst. destruct ev as [[f rel]|err].
  2: { exfalso. revert E. match goal with |- ?m ?s1 = _ -> _ => assert (Hx : local false m) by local_tac; specialize (Hx s1); destruct (m s1); done end. }
  set (s1 := mkSt _ _) in E. unfold bind at 1 in E. pose proof (acceptFrame_local f mode s1) as Hloc.
  pose proof (acceptFrame_inv b q s1 f mode Hc Hev Hm) as Hacc. destruct (acceptFrame f mode s1) as [res s2| | |]; [|done..].
  assert (Hfail : forall e, (bind (failRx e) (fun e => ret (Some e)) s2 : outcome (option rterr)) <> Blocked).
  { intros e Hx. assert (Hl : local false (bind (failRx e) (fun e => ret (Some e)))) by local_tac. specialize (Hl s2). by rewrite Hx in Hl. }
  destruct res as [[held complete]|e]; [|by destruct (Hfail _ E)]. destruct held; [done|]. destruct rel as [rerr|]; [by destruct (Hfail _ E)|].
  destruct complete; [done|]. destruct Hacc as [[Honly [Hc2 Hpay]] _]. destruct Honly as (p & cs & _ & ->).
  assert (Hs2 : sinv b q (mkSt (set_pd p (cn s1)) (mkWorld (rxs (wd s1)) (txs (wd s1)) (dls (wd s1)) (kills (wd s1)) cs (closeErr (wd s1)) (sent (wd s1))))) by (by split).
  pose proof (IH _ _ Hs2 E) as Hx. unfold due in *. simpl in *. lia.
Qed.

(** Reading a response first. *)
Lemma taken_read {B} b mode q s (k : option rterr -> M B) : (mode = rxDiscard -> b = false) -> sinv b q s ->
  (mode = rxHold -> rxOpen (cn s) = true) -> (forall e, local false (k (Some e))) ->
  (forall q' s', sinv b q' s' -> rxOpen (cn s') = rxOpen (cn s) -> taken (due q' s') s' (k None s')) ->
  taken (due q s) s (bind (read_response mode) k s).
Proof.
  intros Hm Hs Ho He Hk. pose proof (read_response_inv b mode q s Hm Hs Ho) as Hr. unfold bind.
  destruct (read_response mode s) as [e s1| | |] eqn:E; [|done| |done].
  2: { left. unfold read_response, bind, enough in E. by eapply (readResponse_waits b mode Hm). }
  destruct Hr as [(q' & Hs1 & Hst & _ & _ & Hpaid) _]. pose proof (due_pos _ _ _ Hs1) as Hpos. unfold frames_paid in Hpaid.
  pose proof (sy_fixed _ _ Hst) as El. injection El as El _ _ _. pose proof (sy_world _ _ Hst) as Etx. injection Etx as Etx _.
  pose proof (sy_conn _ _ Hst) as Eo. injection Eo as _ _ Eo _. unfold due in *. rewrite El in Hpos. destruct e as [err|].
  - specialize (He err s1). destruct (k (Some err) s1); [|done..]. destruct He as [Erx _]. simpl. rewrite Erx. lia.
  - specialize (Hk q' s1 Hs1 Eo). rewrite El in Hk. destruct (k None s1); [|done| |done]; simpl in *; [lia|].
    destruct Hk as [Hk|Hk]; [left; lia|right; congruence].
Qed.

Lemma quiet_due q s s' : quiet s s' -> due q s' = due q s.
Proof. intros Hq. unfold due. rewrite (quiet_pd _ _ Hq). pose proof (qu_fixed _ _ Hq) as E. injection E as -> _ _ _. done. Qed.

(** Arming the deadline first, unless it is armed. *)
Lemma taken_arm {B} b q s (armed : bool) (k : option error -> M B) : sinv b q s -> (forall e, local false (k (Some e))) ->
  (forall s', sinv b q s' -> quiet s s' -> taken (due q s') s' (k None s')) ->
  taken (due q s) s (bind (if armed then ret None else armRead) k s).
Proof.
  intros Hs He Hk. eapply taken_bind; [destruct armed; local_tac|by apply (arm_inv b q)|]. intros [e|] s' [Hs' Hq] _.
  - pose proof (due_pos _ _ _ Hs). apply taken_local; [lia|done].
  - rewrite <- (quiet_due q s s' Hq). by apply Hk.
Qed.

Lemma quiet_rxOpen s s' : quiet s s' -> rxOpen (cn s') = rxOpen (cn s).
Proof. intros Hq. pose proof (qu_conn _ _ Hq) as E. injection E. congruence. Qed.

Lemma await_taken b r : forall n q s armed, sinv b q s -> rxOpen (cn s) = true -> taken (due q s) s (await_loop n r armed s).
Proof.
  induction n as [|n IH]; intros q s armed Hs Ho; [done|]. cbn [await_loop]. pose proof (due_pos _ _ _ Hs).
  unfold deref, bind at 1, bind at 1, get, of_option. destruct (calls (pd (cn s)) !! r) as [k|]; [|done]. unfold ret at 1, bind at 1.
  destruct (c_done k); [by apply taken_local; [lia|local_tac]|]. destruct (rxDead (cn s)); [by apply taken_local; [lia|local_tac]|].
  apply (taken_arm b q s armed); [done|intros; local_tac|]. intros s1 Hs1 Hq1. unfold bind at 1.
  rewrite (unansHead_spec _ _ _ (ci_pend _ _ _ (si_conn _ _ _ Hs1))). pose proof (quiet_rxOpen _ _ Hq1).
  apply (taken_read b); [by destruct (bool_decide _)|done|congruence|intros; local_tac|]. intros q' s' Hs' Ho'. apply IH; [done|congruence].
Qed.

Lemma makeRoom_taken b op rf : forall n q s armed, sinv b q s -> taken (due q s) s (makeRoom_loop n op rf armed s).
Proof.
  induction n as [|n IH]; intros q s armed Hs; [done|]. cbn [makeRoom_loop]. pose proof (due_pos _ _ _ Hs). unfold bind at 1, get.
  destruct (fits _ _); [by apply taken_local; [lia|local_tac]|]. destruct (rxDead (cn s)); [by apply taken_local; [lia|local_tac]|].
  apply (taken_arm b q s armed); [done|intros; local_tac|]. intros s1 Hs1 Hq1. apply (taken_read b); [done|done|done|intros; local_tac|].
  intros q' s' Hs' _. by apply IH.
Qed.

Lemma sync_taken : forall n q s armed, sinv false q s -> taken (due q s) s (sync_loop n armed s).
Proof.
  induction n as [|n IH]; intros q s armed Hs; [done|]. cbn [sync_loop]. pose proof (due_pos _ _ _ Hs). unfold bind at 1, get.
  destruct (_ && _); [|by apply taken_local; [lia|local_tac]].
  apply (taken_arm false q s armed); [done|intros; local_tac|]. intros s1 Hs1 Hq1. apply (taken_read false); [done|done|done|intros; local_tac|].
  intros q' s' Hs' _. by apply IH.
Qed.

End Reads.

(** ** The calls of the owner *)

Section Calls.
Implicit Types (q : list nat) (s : st).

(** A slot to write to, after reading. *)
Lemma taken_write {A B} n s (m : M A) (k : A -> M B) : taken n s (m s) ->
  (forall a s', m s = Ret a s' -> txs (wd s') = txs (wd s)) ->
  (forall a, local false (k a) \/ exists k', k a = bind ReserveWrite k' /\ forall r, local false (k' r)) ->
  taken n s (bind m k s).
Proof.
  intros Hm Htx Hk. unfold bind in *. destruct (m s) as [a s'| | |]; [|done..]. specialize (Htx a s' eq_refl). simpl in Hm.
  destruct (Hk a) as [Hl|(k' & -> & Hl)].
  - specialize (Hl s'). destruct (k a s'); [|done..]. destruct Hl as [E _]. simpl. rewrite E. lia.
  - unfold bind, ReserveWrite. destruct (txs (wd s')) as [|ev rest] eqn:Et; [right; congruence|].
    specialize (Hl ev (mkSt (cn s') (mkWorld (rxs (wd s')) rest (dls (wd s')) (kills (wd s')) (caps (wd s')) (closeErr (wd s')) (sent (wd s'))))).
    destruct (k' ev _); [|done..]. destruct Hl as [E _]. simpl in *. rewrite E. lia.
Qed.

Lemma Wait_taken b call id s : good b s -> taken (unansRF (pd (cn s)) + 1) s (Wait call id s).
Proof.
  intros (q & Hs). pose proof (due_pos _ _ _ Hs) as Hpos. unfold Wait. destruct call as [r|]; [|by apply taken_local; [lia|local_tac]].
  unfold deref, bind at 1, bind at 1, get, of_option. destruct (calls (pd (cn s)) !! r) as [k|]; [|done]. unfold ret at 1, bind at 1.
  destruct (_ || _); [by apply taken_local; [lia|local_tac]|]. destruct (rxOpen (cn s)); [by apply taken_local; [lia|local_tac]|].
  eapply (taken_bind true); [local_tac|apply enter_quiet|]. intros ok s1 Hq1 _. cbv beta in Hq1. pose proof (quiet_inv _ _ _ _ Hq1 Hs) as Hs1.
  destruct ok; cbn [negb]; [|by apply taken_local; [lia|local_tac]]. unfold bind at 1, upd. set (s2 := mkSt _ _).
  assert (Hs2 : sinv b q s2) by (by apply (good_flags b q s1 (set_rxOpen true))).
  apply (taken_from _ s1 s2); [done|].
  apply taken_then; [|intros [e|]; local_tac]. destruct (c_done k); [by apply taken_local; [lia|local_tac]|].
  unfold await, bind at 1, enough. eapply taken_mono; [|by apply (await_taken b)]. change (due q s2) with (due q s1). rewrite (quiet_due q s s1 Hq1). lia.
Qed.

Lemma Sync_taken b s : good b s -> taken (unansRF (pd (cn s)) + 1) s (Sync s).
Proof.
  intros (q & Hs%sinv_weak). pose proof (due_pos _ _ _ Hs) as Hpos. unfold Sync. unfold bind at 1, get.
  destruct (_ || _); [by apply taken_local; [lia|local_tac]|].
  eapply (taken_bind true); [local_tac|apply enter_quiet|]. intros ok s1 Hq1 _. cbv beta in Hq1. pose proof (quiet_inv _ _ _ _ Hq1 Hs) as Hs1.
  destruct ok; cbn [negb]; [|by apply taken_local; [lia|local_tac]]. unfold bind at 1, enough.
  apply taken_then; [|intros e; local_tac]. eapply taken_mono; [|by apply sync_taken]. rewrite (quiet_due q s s1 Hq1). lia.
Qed.

Lemma rfOf_due b q op m s : sinv b q s -> op <= nops (cn s) -> safe true (rfOf op m s) (fun _ s' => sinv b q s' /\ due q s' = due q s).
Proof.
  intros Hs Hop. pose proof (rfOf_inv b q op m s Hs Hop) as Hr. revert Hr. unfold rfOf, bind, get, of_option.
  destruct (rfs (cn s) !! _) as [e|]; [|done]. unfold ret. destruct (_ && _); simpl; intros (H & _); by split.
Qed.

Lemma BeginRequest_taken b op n m s : good b s -> taken (unansRF (pd (cn s)) + 1) s (BeginRequest op n m s).
Proof.
  intros (q & Hs). pose proof (due_pos _ _ _ Hs) as Hpos. unfold BeginRequest. unfold bind at 1, get.
  do 3 (case_match; [by apply taken_local; [lia|local_tac]|]). destruct (bool_decide _); [by apply taken_local; [lia|local_tac]|].
  match goal with E : negb (validRequest _ _ _ _) = false |- _ => apply negb_false_iff in E; unfold validRequest in E; breflect end.
  eapply (taken_bind true); [local_tac|apply enter_quiet|]. intros ok s1 Hq1 _. cbv beta in Hq1. pose proof (quiet_inv _ _ _ _ Hq1 Hs) as Hs1.
  destruct ok; cbn [negb]; [|by apply taken_local; [lia|local_tac]]. pose proof (qu_fixed _ _ Hq1) as Ef. injection Ef as El1 En1 Ec1 _.
  eapply (taken_bind true); [local_tac|apply (rfOf_due b q); [done|lia]|]. intros rf s2 (Hs2 & Ed) _. unfold bind at 1.
  rewrite (quiet_due q s s1 Hq1) in Ed. apply taken_write.
  - destruct (fits _ _); [by apply taken_local; [lia|local_tac]|]. unfold makeRoom, bind at 1, enough.
    eapply taken_mono; [|by apply (makeRoom_taken b)]. lia.
  - intros a s' E. destruct (fits _ _); [by injection E as _ <-|]. unfold makeRoom, bind, enough in E.
    pose proof (makeRoom_inv b op rf (S (S (length (rxs (wd s2))))) q s2 false Hs2 ltac:(lia)) as Hx. rewrite E in Hx.
    destruct Hx as (q' & _ & Hst & _). pose proof (sy_world _ _ Hst) as Etx. by injection Etx.
  - intros [e|]; [left; local_tac|]. destruct (_ <=? _); [|left; local_tac]. right. eexists. split; [reflexivity|]. intros r. local_tac.
Qed.

Lemma Submit_local mine : local true (Submit mine).
Proof. unfold Submit, sendFrames. local_tac. Qed.

Lemma Abort_local mine : local false (Abort mine).
Proof. unfold Abort, failTx. local_tac. Qed.

Lemma Release_local d : local false (Release d).
Proof. unfold Release. local_tac. Qed.

Lemma Malformed_local d : local false (Malformed d).
Proof. unfold Malformed. local_tac. Qed.

#[local] Hint Resolve Submit_local Abort_local Release_local Malformed_local : local.

Lemma run_op_taken b o s : good b s -> o <> OClose -> o <> OSubmit -> taken (unansRF (pd (cn s)) + 1) s (run_op o s).
Proof.
  intros Hs Hc Hu. assert (Hn : 0 <= unansRF (pd (cn s)) + 1) by (destruct Hs as (q & Hs); pose proof (due_pos _ _ _ Hs); lia).
  destruct o; try done; unfold run_op.
  - apply taken_then; [by apply (BeginRequest_taken b)|intros; local_tac].
  - apply taken_local; [done|local_tac].
  - apply taken_local; [done|local_tac].
  - unfold bind at 1, get. apply taken_then; [by apply (Wait_taken b)|intros; local_tac].
  - apply taken_local; [done|local_tac].
  - apply taken_local; [done|local_tac].
  - apply taken_then; [by apply (Sync_taken b)|intros; local_tac].
Qed.

End Calls.

(** ** Close *)

Section Closing.
Implicit Types (s : st).

(** A frame of a response, as [Close] sees it. *)
Definition response_like (e : result error (bytes * option error)) : Prop :=
  match e with
  | Ok (f, None) => FrameHeaderSize <= len f /\ (h_kind (loadHeader f) = kindResponse \/ h_kind (loadHeader f) = kindCont)
  | _ => False
  end.

Lemma close_loop_reads : forall n s, Forall response_like (rxs (wd s)) -> (length (rxs (wd s)) < n)%nat -> close_loop n s = Blocked.
Proof.
  induction n as [|n IH]; intros s Hf Hn; [lia|]. cbn [close_loop]. unfold bind at 1, ReserveRead.
  destruct (rxs (wd s)) as [|ev rest] eqn:E; [done|]. apply Forall_cons_1 in Hf as [He Hf].
  destruct ev as [[f [?|]]|?]; [done| |done]. destruct He as [Hl Hk]. destruct (Z.leb_spec FrameHeaderSize (len f)); [|lia].
  destruct (Z.ltb_spec (len f) FrameHeaderSize); [lia|]. replace (_ || _) with true by (destruct Hk as [-> | ->]; vm_compute; done).
  apply IH; simpl in *; [done|lia].
Qed.

#[local] Arguments close_loop : simpl never.

(** A session that can be closed: it is idle, not broken and not killed, and
    the link takes a frame. *)
Definition closable (s : st) : Prop :=
  txOpen (cn s) = false /\ rxOpen (cn s) = false /\ closed (cn s) = false /\ broken (cn s) = None /\
  kills (wd s) = [] /\ dls (wd s) = [] /\ exists buf rest, txs (wd s) = Ok (buf, None) :: rest.

Lemma Close_reads b s : good b s -> closable s -> Forall response_like (rxs (wd s)) -> Close s = Blocked.
Proof.
  intros (q & Hs) (Et & Er & Ecl & Eb & Ek & Ed & buf & rest & Etx) Hf. unfold Close. unfold bind at 1, get. rewrite Et, Er, Ecl. cbn [orb].
  unfold bind at 1, upd. set (s1 := mkSt _ _).
  assert (Hs1 : sinv b q s1) by (apply (good_flags b q s (set_closed true)); [done..|apply Hs]).
  pose proof (abandon_inv b q s1 Hs1) as Ha. pose proof (abandon_local s1) as Hl. unfold bind at 1.
  destruct (abandon s1) as [[] s2| | |]; [|done..]. destruct Ha as (Hs2 & p & ->). unfold bind at 1. cbn [cn with_pd set_pd broken s1 set_closed].
  destruct (lo_size _ (ci_limits _ _ _ (si_conn _ _ _ Hs))) as [Hsz _]. destruct (si_world _ _ _ Hs) as [_ Hw]. rewrite Etx in Hw.
  apply Forall_cons_1 in Hw as [Hb _].
  unfold s1. rewrite Eb. rewrite bool_decide_eq_true_2 by done.
  unfold enter, closeSession, killed, SetDeadline, ReserveWrite, Commit, bind, upd, get, ret. simpl. rewrite Ek, Ed, Etx. simpl.
  destruct (Z.ltb_spec (len buf) FrameHeaderSize) as [Hx|]; [unfold FrameHeaderSize in Hx; lia|]. cbn.
  match goal with |- context [close_loop ?n ?x] => rewrite (close_loop_reads n x) end; [done|done|simpl; lia].
Qed.

End Closing.

(** C37. No server makes a session panic, or read for ever before it closes.
    Whatever frames the server sent and however many, no call of the owner
    panics, unless an earlier [Sync] was stopped by its deadline in the middle of
    a response ([sync_timeout_panics]). Every call but [Close] takes at most as
    many frames from the link as the unanswered calls were given slots, and one
    event more; so with more events than that, and a slot to write to, every such
    call returns (except that [Submit] may wait for the slots of a long request).
    [Close] has no such bound: it reads on, past any number of responses, until
    the link has something else for it. *)
Theorem session_no_panic (b : bool) (s : st) (o : op) (H : reachable b s) :
  let n := unansRF (pd (cn s)) in
  (b = true -> run_op o s <> Panic) /\
  (o <> OClose -> forall a s', run_op o s = Ret a s' -> Z.of_nat (length (rxs (wd s))) <= Z.of_nat (length (rxs (wd s'))) + n + 1) /\
  (b = true -> o <> OClose -> o <> OSubmit -> n < Z.of_nat (length (rxs (wd s))) -> txs (wd s) <> [] ->
    exists a s', run_op o s = Ret a s') /\
  (closable s -> Forall response_like (rxs (wd s)) -> run_op OClose s = Blocked).
Proof.
  cbv zeta. pose proof (reachable_good _ _ H) as Hg. pose proof (run_op_inv b o s Hg) as Hr.
  assert (Hp : b = true -> run_op o s <> Panic) by (intros ->; by destruct (run_op o s)). split_and!; [done| | |].
  - intros Hc a s' E. assert (o = OSubmit \/ o <> OSubmit) as [-> |Hu] by (destruct o; (by left) || (by right)); [|pose proof (run_op_taken b o s Hg Hc Hu) as Ht; rewrite E in Ht; simpl in Ht; lia].
    assert (Hl : local true (run_op OSubmit)) by (pose proof (Submit_local true); unfold run_op; local_tac).
    specialize (Hl s). rewrite E in Hl. destruct Hl as [-> _]. destruct Hg as (q & Hs). pose proof (due_pos _ _ _ Hs). lia.
  - intros Hb Hc Hu Hn Htx. pose proof (run_op_taken b o s Hg Hc Hu) as Ht. specialize (Hp Hb).
    destruct (run_op o s) as [a s'| | |]; [by exists a, s'|done| |done]. destruct Ht; [lia|done].
  - intros Hcl Hf. unfold run_op, bind. by rewrite (Close_reads b s Hg Hcl Hf).
Qed.
