(* ===== verification/SessionWire.v ===== *)
(** * SessionWire: what a session sends and what it delivers

    The frames of a request and of a response (4.8): what [Submit] puts on the
    link, and what [Wait] makes of the frames a server sends. *)
From S2P Require Import Prelude Errors Protocol Codec Session SessionInv SessionOps.

(** ** The frames of a message *)

Section Frames.
Implicit Types (h : header) (body rest f : bytes) (ch : nat).

(** The continuation frames of [rest], which starts at offset [off]; [n]
    bounds their number. *)
Fixpoint cont_frames (n ch : nat) (id total off : Z) (rest : bytes) : list bytes :=
  match n, rest with
  | S n, _ :: _ =>
      (header_bytes (mkFrameHeader kindCont 0 0 id total off) ++ take ch rest)
        :: cont_frames n ch id total (off + Z.of_nat ch) (drop ch rest)
  | _, _ => []
  end.

(** The frames of a message with header [h], of at most [ch] bytes of body each. *)
Definition frames_of (ch : nat) (h : header) (body : bytes) : list bytes :=
  (header_bytes h ++ take ch body) :: cont_frames (length body) ch (h_id h) (h_total h) (Z.of_nat ch) (drop ch body).

(** The rules a receiver applies to continuation frames. *)
Fixpoint take_conts (ch : Z) (a : assembly) (got : bytes) (fs : list bytes) : option bytes :=
  match fs with
  | [] => if a_got a =? a_total a then Some got else None
  | f :: fs =>
      let h := loadHeader f in
      let body := drop 16 f in
      if (a_got a <? a_total a) && contMatches h a && (len body =? Z.min (a_total a - a_got a) ch)
      then take_conts ch (mkAsm (a_active a) (a_id a) (a_total a) (a_got a + len body)) (got ++ body) fs
      else None
  end.

(** A receiver's view of a message. *)
Definition reassemble (ch : Z) (fs : list bytes) : option (header * bytes) :=
  match fs with
  | [] => None
  | f :: fs =>
      let h := loadHeader f in
      let body := drop 16 f in
      if len body =? Z.min (h_total h) ch
      then b ← take_conts ch (mkAsm true (h_id h) (h_total h) (len body)) body fs; Some (h, b)
      else None
  end%stdpp.

Lemma drop_header h f : drop 16 (header_bytes h ++ f) = f.
Proof. by rewrite drop_app_length' by (by rewrite length_header_bytes). Qed.

Lemma cont_header id total off : word 32 id -> word 32 total -> word 32 off -> header_ok (mkFrameHeader kindCont 0 0 id total off).
Proof. intros. unfold header_ok, word in *. simpl. unfold kindCont. lia. Qed.

Lemma cont_frames_S n ch id total off rest : 0 < len rest -> cont_frames (S n) ch id total off rest =
  (header_bytes (mkFrameHeader kindCont 0 0 id total off) ++ take ch rest) :: cont_frames n ch id total (off + Z.of_nat ch) (drop ch rest).
Proof. destruct rest; [done|]. done. Qed.

Lemma cont_frames_nil n ch id total off : cont_frames n ch id total off [] = [].
Proof. by destruct n. Qed.

Lemma take_conts_frames ch id : (0 < ch)%nat -> word 32 id -> forall n body rest, (length rest <= n)%nat -> word 32 (len (body ++ rest)) ->
  take_conts (Z.of_nat ch) (mkAsm true id (len (body ++ rest)) (len body)) body
    (cont_frames n ch id (len (body ++ rest)) (len body) rest) = Some (body ++ rest).
Proof.
  intros Hch Hid. induction n as [|n IH]; intros body rest Hn Hw.
  { destruct rest; simpl in *; [|lia]. rewrite app_nil_r. by rewrite Z.eqb_refl. }
  destruct (decide (rest = [])) as [->|Hne]; [simpl; by rewrite app_nil_r, Z.eqb_refl|]. rename rest into rs.
  assert (Hrs : 0 < len rs) by (unfold len; destruct rs; simpl; [done|lia]).
  assert (Hlen : len (body ++ rs) = len body + len rs) by apply len_app. pose proof (len_nonneg body) as Hb0.
  rewrite cont_frames_S by done. cbn [take_conts a_got a_total a_active a_id].
  rewrite loadHeader_bytes by (apply cont_header; unfold word in *; lia). rewrite drop_header.
  assert (Htk : len (take ch rs) = Z.min (len rs) (Z.of_nat ch)) by (unfold len; rewrite length_take; lia).
  unfold contMatches. simpl. rewrite !Z.eqb_refl. rewrite Htk.
  destruct (Z.ltb_spec (len body) (len (body ++ rs))); [|lia]. destruct (Z.eqb_spec (Z.min (len rs) (Z.of_nat ch)) (Z.min (len (body ++ rs) - len body) (Z.of_nat ch))); [|lia].
  simpl. assert (E : body ++ rs = (body ++ take ch rs) ++ drop ch rs) by (by rewrite <- app_assoc, take_drop).
  destruct (decide (length rs <= ch)%nat) as [Hle|Hgt].
  - rewrite (drop_ge rs ch) by done. rewrite take_ge, cont_frames_nil by done. simpl. rewrite Z.min_l by (unfold len; lia). by rewrite Hlen, Z.eqb_refl.
  - rewrite Z.min_r by (unfold len; lia). rewrite E at 1 2 3.
    replace (len body + Z.of_nat ch) with (len (body ++ take ch rs)) by (rewrite len_app, Htk, Z.min_r by (unfold len; lia); done).
    rewrite IH; [by rewrite <- E|rewrite length_drop; unfold len in *; lia|by rewrite <- E].
Qed.

(** Splitting and reassembling are inverse. *)
Lemma reassemble_frames ch h body : (0 < ch)%nat -> header_ok h -> h_total h = len body ->
  reassemble (Z.of_nat ch) (frames_of ch h body) = Some (h, body).
Proof.
  intros Hch Hh Ht. unfold reassemble, frames_of. rewrite loadHeader_bytes by done. rewrite drop_header, Ht.
  assert (Htk : len (take ch body) = Z.min (len body) (Z.of_nat ch)) by (unfold len; rewrite length_take; lia).
  rewrite Htk, Z.eqb_refl. destruct Hh as (_ & _ & _ & Hid & Htot & _). rewrite Ht in Htot.
  destruct (decide (length body <= ch)%nat) as [Hle|Hgt].
  - rewrite (drop_ge body ch) by done. rewrite take_ge, cont_frames_nil by done. simpl. rewrite Z.min_l by (unfold len; lia). by rewrite Z.eqb_refl.
  - rewrite Z.min_r by (unfold len; lia). pose proof (take_conts_frames ch (h_id h) Hch Hid (length body) (take ch body) (drop ch body)) as H.
    rewrite take_drop, Htk, Z.min_r in H by (unfold len; lia). rewrite H; [done|rewrite length_drop; lia|done].
Qed.

End Frames.

(** ** What Submit sends *)

Section Sending.
Implicit Types (h : header) (body buf src : bytes) (ch : nat).

Lemma cont_frames_fuel ch id total : (0 < ch)%nat -> forall n m off rest, (length rest <= n)%nat -> (length rest <= m)%nat ->
  cont_frames n ch id total off rest = cont_frames m ch id total off rest.
Proof.
  intros Hch. induction n as [|n IH]; intros m off rest Hn Hm.
  { destruct rest; simpl in *; [by rewrite !cont_frames_nil|lia]. }
  destruct rest as [|x rest]; [by rewrite !cont_frames_nil|]. destruct m as [|m]; [simpl in Hm; lia|].
  cbn [cont_frames]. f_equal. apply IH; rewrite length_drop; simpl in *; lia.
Qed.

(** The frame a slot holds when it is committed. *)
Lemma slot_frame buf h src : header_ok h -> 16 + len src <= len buf ->
  take (Z.to_nat (16 + len src)) (take 16 (putHeader buf h) ++ copy_to (drop 16 (putHeader buf h)) src) = header_bytes h ++ src.
Proof.
  intros Hh Hl. pose proof (len_nonneg src). unfold len in *. rewrite putHeader_bytes by (done || lia).
  rewrite (take_app_length' (header_bytes h) _ 16), drop_header by (by rewrite length_header_bytes).
  unfold copy_to, copy_n. rewrite length_drop, Nat.min_r by lia. rewrite firstn_all, app_assoc.
  apply take_app_length'. rewrite length_app, length_header_bytes. lia.
Qed.

(** The frames of a message from offset [off] on. *)
Definition frames_at (ch : nat) (h : header) (body : bytes) (off : Z) : list bytes :=
  if off =? 0 then frames_of ch h body else cont_frames (length body) ch (h_id h) (h_total h) off (drop (Z.to_nat off) body).

Definition frame_header (h : header) (off : Z) : header :=
  if 0 <? off then mkFrameHeader kindCont 0 0 (h_id h) (h_total h) (u32 off) else h.

Lemma frames_at_step ch h body off : (0 < ch)%nat -> 0 <= off < len body -> word 32 (len body) ->
  let m := Z.min (len body - off) (Z.of_nat ch) in
  frames_at ch h body off =
    (header_bytes (frame_header h off) ++ zslice off (off + m) body) :: (if len body <=? off + m then [] else frames_at ch h body (off + m)).
Proof.
  intros Hch Hoff Hw m. unfold frames_at, frame_header.
  assert (Hsl : zslice off (off + m) body = take ch (drop (Z.to_nat off) body)).
  { unfold zslice, slice. destruct (decide (len body - off <= Z.of_nat ch)) as [Hle|Hgt].
    - rewrite !take_ge; [done|..]; rewrite length_drop; unfold len in *; lia.
    - f_equal. unfold m, len in *. lia. }
  rewrite Hsl. assert (Hne : off + m <> 0) by (unfold m; lia). rewrite (proj2 (Z.eqb_neq (off + m) 0) Hne).
  destruct (Z.eqb_spec off 0) as [->|Hoff0].
  - rewrite Z.add_0_l. change (Z.to_nat 0) with 0%nat. rewrite drop_0. unfold frames_of. simpl. f_equal. destruct (Z.leb_spec (len body) m) as [Hle|Hgt].
    + rewrite drop_ge by (unfold m, len in *; lia). by rewrite cont_frames_nil.
    + replace (Z.to_nat m) with ch by (unfold m, len in *; lia). by replace m with (Z.of_nat ch) by (unfold m in *; lia).
  - destruct (Z.ltb_spec 0 off); [|lia]. unfold u32. rewrite wrap_small by (unfold word in *; lia).
    destruct (length body) as [|n] eqn:El; [unfold len in *; lia|].
    rewrite cont_frames_S by (unfold len in *; rewrite length_drop; lia). f_equal. rewrite drop_drop.
    destruct (Z.leb_spec (len body) (off + m)) as [Hle|Hgt].
    + rewrite drop_ge by (unfold m, len in *; lia). by rewrite cont_frames_nil.
    + replace (off + Z.of_nat ch) with (off + m) by (unfold m in *; lia). replace (Z.to_nat off + ch)%nat with (Z.to_nat (off + m)) by (unfold m in *; lia).
      apply cont_frames_fuel; [done|..]; rewrite length_drop; unfold m, len in *; lia.
Qed.

(** The frames sent, and how much of the message they are. *)
Definition sent_post (s : st) (fs0 : list bytes) (committed : bool) (r : bool * option error) (s' : st) : Prop :=
  exists fs, sent (wd s') = sent (wd s) ++ fs /\
    match r with
    | (_, None) => fs = fs0
    | (c, Some _) => c = committed || negb (bool_decide (fs = []))
    end.

Lemma ReserveWrite_sent l s : world_ok l (wd s) ->
  safe true (ReserveWrite s) (fun res s' => cn s' = cn s /\ sent (wd s') = sent (wd s) /\ world_ok l (wd s') /\
    forall buf rel, res = Ok (buf, rel) -> len buf = BufferSize l).
Proof.
  intros [H1 H2]. unfold ReserveWrite. destruct (txs (wd s)) as [|ev rest] eqn:E; [done|]. inversion H2 as [|? ? Hev Hrest]; subst. simpl.
  split_and!; try done. intros buf rel ->. done.
Qed.

Lemma sendFrames_sent l h body : limits_ok l -> header_ok h -> word 32 (len body) ->
  let ch := Z.to_nat (BufferSize l - 16) in
  forall n off committed s, chunk (cn s) = BufferSize l - 16 -> world_ok l (wd s) -> 0 <= off < len body ->
  safe true (sendFrames_loop n h body off committed s) (sent_post s (frames_at ch h body off) committed) \/ (Z.of_nat n <= len body - off).
Proof.
  intros Hl Hh Hw ch. destruct (lo_size _ Hl) as [Hsz _]. induction n as [|n IH]; intros off committed s Hc Hwo Hoff; [right; lia|].
  destruct (decide (Z.of_nat (S n) <= len body - off)) as [|Hn]; [by right|left].
  cbn [sendFrames_loop]. apply safe_get. eapply safe_bind; [by apply (ReserveWrite_sent l)|].
  intros [[buf rel]|err] s1 (Ecn & Es & Hw1 & Hb); [|exists []; rewrite app_nil_r, orb_false_r; by split].
  rewrite (Hb buf rel eq_refl). destruct (Z.ltb_spec (BufferSize l) FrameHeaderSize) as [Hx|]; [unfold FrameHeaderSize in Hx; lia|].
  set (m := Z.min (len body - off) (chunk (cn s))). fold (frame_header h off).
  assert (Hm : m = Z.min (len body - off) (Z.of_nat ch)) by (unfold m, ch; lia).
  pose proof (frames_at_step ch h body off ltac:(unfold ch; lia) Hoff Hw) as Hstep. cbv zeta in Hstep. rewrite <- Hm in Hstep.
  assert (Hlm : len (zslice off (off + m) body) = m) by (rewrite len_zslice; lia).
  assert (Hfh : header_ok (frame_header h off)).
  { unfold frame_header. destruct (0 <? off); [|done]. destruct Hh as (_ & _ & _ & Hi & Ht & _). apply cont_header; [done|done|apply u32_range]. }
  pose proof (slot_frame buf (frame_header h off) (zslice off (off + m) body) Hfh ltac:(rewrite Hlm, (Hb buf rel eq_refl); lia)) as Hfr. rewrite Hlm in Hfr.
  unfold bind, Commit. destruct rel as [err|].
  { exists []. rewrite app_nil_r, Es. by rewrite orb_false_r. }
  unfold FrameHeaderSize. rewrite Hfr. set (s2 := mkSt _ _).
  destruct (Z.leb_spec (len body) (off + m)) as [Hle|Hgt].
  - eexists. split; [simpl; by rewrite Es|]. symmetry. exact Hstep.
  - destruct (IH (off + m) true s2) as [Hsafe|]; [simpl; congruence|exact Hw1|lia| |lia].
    eapply safe_mono; [exact Hsafe|]. intros [c [err|]] s3 (fs & E3 & Hr); simpl in E3; rewrite Es, <- app_assoc in E3; eexists; (split; [exact E3|]).
    + simpl in Hr. rewrite Hr. simpl. by rewrite orb_true_r.
    + rewrite Hr, Hstep. done.
Qed.


Lemma cont_frames_len ch id total : forall n off rest, Forall (fun f => len f <= 16 + Z.of_nat ch) (cont_frames n ch id total off rest).
Proof.
  induction n as [|n IH]; intros off rest; [constructor|]. destruct rest as [|x rest]; [constructor|]. cbn [cont_frames]. constructor; [|apply IH].
  cbv beta. rewrite len_app. unfold len. rewrite length_header_bytes, length_take. lia.
Qed.

Lemma frames_of_len ch h body : Forall (fun f => len f <= 16 + Z.of_nat ch) (frames_of ch h body).
Proof. constructor; [|apply cont_frames_len]. cbv beta. rewrite len_app. unfold len. rewrite length_header_bytes, length_take. lia. Qed.

Lemma nextID_range id : 1 <= nextID id < 2 ^ 32.
Proof. unfold nextID. pose proof (u32_range (id + 1)) as H. unfold word in H. destruct (Z.eqb_spec (u32 (id + 1)) 0); lia. Qed.

(** The one frame of a request that fits a slot. *)
Lemma single_frame ch h body buf : header_ok h -> (length body <= ch)%nat -> 16 + len body <= len buf ->
  [take (Z.to_nat (16 + len body)) (blit 16 body (putHeader buf h))] = frames_of ch h body.
Proof.
  intros Hh Hl Hb. unfold frames_of. rewrite (drop_ge body), (take_ge body), cont_frames_nil by done. f_equal.
  unfold len in *. rewrite putHeader_bytes by (done || lia). unfold blit.
  rewrite (take_app_length' (header_bytes h) _ 16) by (by rewrite length_header_bytes).
  rewrite app_assoc. apply take_app_length'. rewrite length_app, length_header_bytes. lia.
Qed.

(** The part of [Submit] that sends. *)
Lemma send_request b q s h : sinv b q s -> txOpen (cn s) = true -> header_ok h ->
  let e := enc (cn s) in
  safe true ((if negb (e_multi e)
         then bind (Commit (blit 16 (e_body e) (putHeader (e_buf e) h)) (e_res e) (FrameHeaderSize + e_bodyLen e)) (fun err => ret (false, err))
         else sendFrames h (e_body e)) s)
    (fun r s' => tx_only s s' /\ sent_post s (frames_of (Z.to_nat (BufferSize (lim (cn s)) - 16)) h (e_body e)) false r s').
Proof.
  intros [Hc Hw] Ht Hh e. destruct (ci_enc _ _ _ Hc Ht) as (_ & _ & _ & _ & E5 & E6 & E7 & E8). fold e in E5, E6, E7, E8.
  pose proof (ci_limits _ _ _ Hc) as Hl. destruct (lo_size _ Hl) as [Hsz _]. destruct (lo_message _ Hl) as [_ Hmm].
  destruct (e_multi e) eqn:Em; cbn [negb].
  - specialize (E8 eq_refl). assert (H1 : safe true (sendFrames h (e_body e) s) (fun _ s' => tx_only s s')).
    { apply (sendFrames_inv (lim (cn s))); [done|apply Hc|done|lia|unfold len; lia]. }
    destruct (sendFrames_sent (lim (cn s)) h (e_body e) Hl Hh ltac:(unfold word; lia) (S (length (e_body e))) 0 false s) as [H2|];
      [apply Hc|done|lia| |unfold len in *; lia].
    unfold sendFrames in *. destruct (sendFrames_loop _ _ _ _ _ _); done.
  - destruct (E7 eq_refl) as [E9 E10]. unfold bind, Commit, FrameHeaderSize. destruct (e_res e) as [err|].
    + split; [done|]. exists []. by rewrite app_nil_r.
    + split; [by split_and!|]. exists (frames_of (Z.to_nat (BufferSize (lim (cn s)) - 16)) h (e_body e)). split; [|done]. cbn [wd sent].
      rewrite <- E5. f_equal. apply single_frame; [done|unfold len in *; lia|lia].
Qed.

Lemma quiet_sent s s' : quiet s s' -> sent (wd s') = sent (wd s) /\ pd (cn s') = pd (cn s).
Proof. intros [_ E1 _ _ _ E2]. simplify_eq. by split. Qed.

End Sending.

(** What a committed call is. *)
Definition submitted (p : pend) (r : nat) (e : Enc) (id : Z) : Prop :=
  list.last (queue p) = Some (Some r) /\
  exists k, calls p !! r = Some k /\ c_id k = id /\ c_op k = e_op e /\ c_respMax k = e_respMax e /\ c_pending k = true /\ c_done k = false.

Lemma last_fmap_snoc {A B} (f : A -> B) (l : list A) x : list.last (f <$> l ++ [x]) = Some (f x).
Proof. rewrite fmap_app. apply last_snoc. Qed.

(** Nothing was written to a buffer, and an open read stays open. *)
Definition undisturbed s s' : Prop :=
  arrs (pd (cn s')) = arrs (pd (cn s)) /\ (rxOpen (cn s'), rxHeld (cn s')) = (rxOpen (cn s), rxHeld (cn s)).

Lemma quiet_undisturbed s s' : quiet s s' -> undisturbed s s'.
Proof. intros [_ E _ _ _ _]. simplify_eq. split; congruence. Qed.

Lemma Submit_sent b s : good b s -> txOpen (cn s) = true -> word 16 (e_op (enc (cn s))) ->
  let e := enc (cn s) in
  let h := mkFrameHeader kindRequest 0 (e_op e) (nextID (last_id (cn s))) (e_bodyLen e) 0 in
  safe true (Submit true s) (fun res s' => exists fs, sent (wd s') = sent (wd s) ++ fs /\
    match res with
    | Ok r => fs = frames_of (Z.to_nat (BufferSize (lim (cn s)) - 16)) h (e_body e) /\ submitted (pd (cn s')) r e (h_id h)
    | Err (TransportError _ _ u) => u = negb (bool_decide (fs = []))
    | Err _ => False
    end).
Proof.
  intros (q & Hs) Ht Hop e h. pose proof Hs as [Hc Hw]. destruct (ci_enc _ _ _ Hc Ht) as (E1 & E2 & E3 & E4 & E5 & E6 & E7 & E8).
  fold e in E1, E2, E4, E5, E6, Hop. pose proof (nextID_range (last_id (cn s))) as Hid. destruct (lo_message _ (ci_limits _ _ _ Hc)) as [_ Hmm].
  assert (Hbl : u32 (e_bodyLen e) = e_bodyLen e) by (apply wrap_small; pose proof (len_nonneg (e_body e)); unfold word; lia).
  assert (Hh : header_ok h).
  { unfold header_ok, h, word in *. simpl. pose proof (len_nonneg (e_body e)). split_and!; unfold kindRequest; lia. }
  unfold Submit. apply safe_get. rewrite Ht. cbn [negb orb]. fold e. rewrite Hbl. fold h.
  eapply safe_bind; [by apply (send_request b q)|]. intros [committed err] s1 [Htx (fs & Efs & Hfs)].
  pose proof (tx_only_inv _ _ _ _ Htx Hs) as Hs1. destruct Htx as (Ecn & _). unfold bind at 1, upd. set (s2 := mkSt _ _). cbn [snd fst].
  destruct err as [err|].
  - quiet_step txFailed_quiet. intros e' s3 H3. quiet_step afterOp_quiet. intros [] s4 H4. quiet_step leave_quiet. intros [] s5 H5.
    assert (Hq : quiet s2 s5) by (by do 2 (etrans; [done|])). apply quiet_sent in Hq as [Eq _]. exists fs. split; [rewrite Eq; exact Efs|exact Hfs].
  - unfold bind at 1, upd. set (s3 := mkSt _ _).
    assert (Hs3 : sinv b q s3) by (destruct Hs1 as [Hc1 Hw1]; split; [|done]; eapply conn_inv_flags; [exact Hc1|done|done|apply Hc1]).
    assert (El : lim (cn s3) = lim (cn s)) by (simpl; by rewrite Ecn). assert (Ep : pd (cn s3) = pd (cn s)) by (simpl; by rewrite Ecn).
    assert (Ht3 : txOpen (cn s3) = false) by done. assert (Es3 : sent (wd s3) = sent (wd s1)) by done. clearbody s3.
    destruct (register_call_inv b q s3 (fun i k => mkCall (nextID (last_id (cn s))) (e_op e) (e_rf e) (e_respMax e) true (c_done k) (c_inPlace k) (c_flags k)
      (c_status k) (c_msg k) (c_body k) (c_buf k) i) (e_rf e)) as (r & p & En & Hslots & Earr & Hs4); [done|done|by rewrite El|by rewrite El, Ep| |..].
    { rewrite E1. apply rf_quotient_pos. }
    { intros i k. rewrite El. simpl. split_and!; try done; try apply E2. rewrite E1. unfold rf_quotient, resp_slots. by rewrite (ci_chunk _ _ _ Hc). }
    unfold bind at 1. rewrite En. apply safe_get. unfold bind at 1, upd_call, updp, upd. cbn [cn wd pd with_pd set_pd calls set_calls live unans].
    destruct (Nat.eqb_spec (length (unans p)) 0); [done|]. unfold bind at 1. cbn [cn wd pd with_pd set_pd calls set_calls live unans]. set (s4 := mkSt _ _).
    eapply safe_bind with (R := fun _ s5 => sent (wd s5) = sent (wd s4) /\ pd (cn s5) = pd (cn s4)).
    { clearbody s4. destruct (_ <? _); done. }
    intros [] s5 [Es5 Ep5]. quiet_step afterOp_quiet. intros [] s6 H6. quiet_step leave_quiet. intros [] s7 H7.
    assert (Hq : quiet s5 s7) by (by etrans). apply quiet_sent in Hq as [Eq Eqp].
    exists fs. split; [rewrite Eq, Es5; change (sent (wd s3) = sent (wd s) ++ fs); by rewrite Es3|]. split; [exact Hfs|]. rewrite Eqp, Ep5.
    destruct Hs4 as [Hc4 _]. pose proof (ci_pend _ _ _ Hc4) as Hp4. split.
    + change (pd (cn s4)) with (pd (cn (with_pd (mkPend (<[((unansHd p + unansN p) mod length (unans p))%nat := Some r]> (unans p)) (unansHd p)
        (S (unansN p)) (unansRF p + e_rf e) (live p ++ [r]) (free p) (asm p) (alter (fun k => mkCall (nextID (last_id (cn s))) (e_op e) (e_rf e)
        (e_respMax e) true (c_done k) (c_inPlace k) (c_flags k) (c_status k) (c_msg k) (c_body k) (c_buf k) (length (live p))) r (calls p)) (arrs p)) s3))).
      rewrite (pi_queue _ _ _ Hp4). apply last_fmap_snoc.
    + destruct (pi_open _ _ _ Hp4 r) as (k & Ek & Hd & _); [apply elem_of_app; right; by left|]. simpl in Ek.
      rewrite list_lookup_alter_eq in Ek. destruct (calls p !! r) as [k0|] eqn:E0; [|done]. simplify_eq/=. eexists. rewrite list_lookup_alter_eq, E0. by split_and!.
Qed.

(** ** What a response becomes *)

Section Delivery.
Implicit Types (s : st) (p : pend) (k : Call) (r : nat) (q : list nat) (mode : rxMode) (body src : bytes).

(** The rest of the world while frames come in. *)
Definition after_frames (rest : list (result error (bytes * option error))) s : st :=
  mkSt (cn s) (mkWorld rest (txs (wd s)) (dls (wd s)) (kills (wd s)) (caps (wd s)) (closeErr (wd s)) (sent (wd s))).

Definition ok_frame (f : bytes) : result error (bytes * option error) := Ok (f, None).

(** A frame as [acceptFrame] sees it. *)
Lemma frame_parts h src : header_ok h -> len (header_bytes h ++ src) = 16 + len src /\ loadHeader (header_bytes h ++ src) = h /\
  zslice FrameHeaderSize (len (header_bytes h ++ src)) (header_bytes h ++ src) = src.
Proof.
  intros Hh. assert (Hl : len (header_bytes h ++ src) = 16 + len src) by (rewrite len_app; unfold len; rewrite length_header_bytes; lia).
  split_and!; [done|by apply loadHeader_bytes|]. unfold zslice, slice, FrameHeaderSize. rewrite Hl. change (Z.to_nat 16) with 16%nat.
  rewrite drop_header. apply take_ge. unfold len. lia.
Qed.

(** A continuation frame for the oldest call [r], whose buffer is array [a]. *)
Lemma accept_cont_frame q s r k a id total got src mode :
  sinv true (r :: q) s -> asm (pd (cn s)) = mkAsm true id total got -> calls (pd (cn s)) !! r = Some k -> c_buf k = SArr a total ->
  mode <> rxDiscard -> 0 <= got < total -> word 32 id -> word 32 total -> len src = Z.min (total - got) (chunk (cn s)) ->
  let f := header_bytes (mkFrameHeader kindCont 0 0 id total got) ++ src in
  let ar := alter (blit (Z.to_nat got) src) a (arrs (pd (cn s))) in
  if got + len src <? total
  then acceptFrame f mode s =
    Ret (Ok (false, false)) (with_pd (set_asm (mkAsm true id total (got + len src)) (set_arrs ar (pd (cn s)))) s)
  else exists p', acceptFrame f mode s = Ret (Ok (false, true)) (with_pd p' s) /\ asm p' = no_asm /\ arrs p' = ar /\
    calls p' = alter (fun k => set_done (set_body (c_buf k) k)) r (calls (pd (cn s))).
Proof.
  intros Hs Ha Hr Hb Hm Hg Hid Ht Hsrc f ar. pose proof (si_conn _ _ _ Hs) as Hc. pose proof (ci_pend _ _ _ Hc) as Hp.
  pose proof (len_nonneg src) as Hs0.
  destruct (frame_parts (mkFrameHeader kindCont 0 0 id total got) src) as (F1 & F2 & F3); [apply cont_header; unfold word in *; lia|].
  assert (Eacc : acceptFrame f mode s = bind (acceptCont (mkFrameHeader kindCont 0 0 id total got) src mode)
    (fun x => ret (match x with Ok complete => Ok (false, complete) | Err e => Err e end)) s).
  { unfold acceptFrame, f. rewrite F3, F2, F1. destruct (Z.ltb_spec (16 + len src) FrameHeaderSize) as [Hx|]; [unfold FrameHeaderSize in Hx; lia|].
    cbn [h_flags]. destruct (_ || _) eqn:Ef; [vm_compute in Ef; discriminate|]. unfold bind at 1, get. rewrite Ha. done. }
  assert (Egot : got + len src <= total) by lia.
  assert (Econt : acceptCont (mkFrameHeader kindCont 0 0 id total got) src mode s =
    (if got + len src <? total then ret (Ok false)
     else bind (of_option (Some r)) (fun r => bind (upd_call r (fun k => set_body (c_buf k) k)) (fun _ => bind (finish r) (fun _ => ret (Ok true)))))
      (with_pd (set_asm (mkAsm true id total (got + len src)) (set_arrs ar (pd (cn s)))) s)).
  { unfold acceptCont. unfold bind at 1, get. unfold bind at 1. rewrite (unansHead_spec _ _ _ Hp), Ha. cbn [head a_total a_got a_active a_id].
    unfold contMatches. cbn [h_kind h_flags h_op h_id h_total h_aux a_id a_total a_got]. rewrite !Z.eqb_refl. cbn [negb orb andb].
    rewrite (proj2 (Z.eqb_eq _ _) Hsrc). cbn [negb]. rewrite !bool_decide_eq_false_2 by done.
    unfold bind at 1, bind at 1, of_option, ret at 1. unfold bind at 1. rewrite (deref_spec _ _ _ Hr), Hb, copy_at_spec by lia.
    unfold bind at 1, updp, upd. cbn [cn wd pd with_pd set_pd]. done. }
  rewrite Eacc. unfold bind at 1. rewrite Econt. destruct (Z.ltb_spec (got + len src) total) as [Hlt|Hge]; [done|].
  pose proof (proj1 (pi_bufs _ _ _ Hp) r k Hr) as Hok. rewrite Hb in Hok. destruct Hok as (v & Hv & Hn).
  assert (Hg1 : arrs_grow (pd (cn s)) (set_arrs ar (pd (cn s)))).
  { pose proof (blit_grow (pd (cn s)) (arrs (pd (cn s))) a (Z.to_nat got) src v Hv ltac:(unfold len in *; lia)) as Hx. by rewrite set_arrs_id in Hx. }
  assert (Hp1 : pend_inv (lim (cn s)) (r :: q) (set_arrs ar (pd (cn s)))).
  { pose proof (pend_arrs _ _ _ ar (asm (pd (cn s))) Hp Hg1 (pi_asm _ _ _ Hp)) as Hx. by destruct (pd (cn s)). }
  edestruct (answer_inv true q r k (fun k => set_body (c_buf k) k) (set_arrs ar (pd (cn s))) (mkAsm true id total (got + len src)) s)
    as (p' & E & _ & _ & Hcl & Har & _ & _ & Has); [exact Hc|exact Hp1|done|by apply keeps_calls|exact Hr|by split_and!|].
  exists p'. split; [|done]. unfold bind at 1. rewrite Econt. destruct (Z.ltb_spec (got + len src) total); [lia|].
  unfold bind, of_option, ret, upd_call, updp, upd. step_eq E. done.
Qed.


(** The flags a response may carry. *)
Definition flags_ok (flags : Z) : Prop := flags = 0 \/ flags = flagFail \/ flags = Z.lor flagFail flagDetail.

(** The header of the response to call [k]. *)
Definition response_header k (flags : Z) body : header := mkFrameHeader kindResponse flags (c_op k) (c_id k) (len body) statusOK.

(** A response the call [k] accepts. *)
Definition response_for k (flags : Z) body : Prop :=
  flags_ok flags /\ len body <= c_respMax k /\ 1 <= c_id k < 2 ^ 32 /\ word 16 (c_op k) /\ Forall is_byte body.

Lemma response_header_ok l k flags body : response_for k flags body -> c_respMax k <= MaxMessage l -> limits_ok l -> header_ok (response_header k flags body).
Proof.
  intros (Hf & Hb & Hid & Hop & _) Hm Hl. destruct (lo_message _ Hl) as [_ Hmm]. pose proof (len_nonneg body).
  unfold header_ok, response_header, word, kindResponse, statusOK in *. simpl. destruct Hf as [-> |[-> | ->]]; unfold flagFail, flagDetail; simpl; split_and!; lia || done.
Qed.

(** The first frame of the response to the oldest call. *)
Lemma accept_response_frame q s r k flags body mode :
  sinv true (r :: q) s -> a_active (asm (pd (cn s))) = false -> calls (pd (cn s)) !! r = Some k -> response_for k flags body ->
  let h := response_header k flags body in
  let src := take (Z.to_nat (chunk (cn s))) body in
  acceptFrame (header_bytes h ++ src) mode s =
    (if chunk (cn s) <? len body then bind (acceptFirst r k h src mode) (fun _ => ret (Ok (false, false)))
     else bind (acceptSingle r k src mode) (fun held => ret (Ok (held, true))))
      (with_pd (set_calls (alter (set_flags flags) r (calls (pd (cn s)))) (pd (cn s))) s).
Proof.
  intros Hs Ha Hr Hresp h src. pose proof (si_conn _ _ _ Hs) as Hc. pose proof (ci_pend _ _ _ Hc) as Hp. pose proof (ci_limits _ _ _ Hc) as Hl.
  destruct (lo_size _ Hl) as [Hsz _]. pose proof (ci_chunk _ _ _ Hc) as Hch.
  destruct (pi_open _ _ _ Hp r) as (k' & Hr' & _ & _ & _ & Hm); [by left|]. simplify_eq.
  destruct (frame_parts h src) as (F1 & F2 & F3); [by eapply response_header_ok; [|apply Hm|]|]. pose proof Hresp as (Hf & Hb & Hid & Hop & _).
  pose proof (len_nonneg src) as Hs0. unfold acceptFrame. rewrite F3, F2, F1.
  destruct (Z.ltb_spec (16 + len src) FrameHeaderSize) as [Hx|]; [unfold FrameHeaderSize in Hx; lia|]. cbn [h h_flags h_kind h_total h_id h_op h_aux response_header].
  destruct (_ || _) eqn:Ef; [destruct Hf as [-> |[-> | ->]]; vm_compute in Ef; discriminate|].
  unfold bind at 1, get. rewrite Ha, Z.eqb_refl. cbn [negb].
  destruct (Z.ltb_spec (MaxMessage (lim (cn s))) (len body)); [lia|].
  destruct (Z.eqb_spec (len src) (Z.min (len body) (chunk (cn s)))) as [|Hne]; [|destruct Hne; unfold src, len; rewrite length_take; lia]. cbn [negb].
  destruct (Z.eqb_spec (c_id k) 0); [lia|]. unfold bind at 1. rewrite (unansHead_spec _ _ _ Hp). cbn [head].
  unfold bind at 1. rewrite (deref_spec _ _ _ Hr), !Z.eqb_refl. cbn [negb orb].
  destruct (Z.ltb_spec (c_respMax k) (len body)); [lia|]. unfold bind at 1, upd_call at 1, updp, upd. done.
Qed.

(** *** Stored answers *)

(** Call [r] has its answer, in its own buffer or in a held slot. *)
Definition stored p r (flags : Z) body : Prop :=
  exists k, calls p !! r = Some k /\ c_done k = true /\ c_status k = 0 /\ c_flags k = flags /\ content p (c_body k) = body /\
    forall a n, c_body k = SArr a n -> exists n', c_buf k = SArr a n'.

(** Only call [r], and arrays that no other call owns, may have changed. *)
Definition only_call r p p' : Prop :=
  (forall x, x <> r -> calls p' !! x = calls p !! x) /\
  (forall x k i n v, x <> r -> calls p !! x = Some k -> c_buf k = SArr i n -> arrs p !! i = Some v -> arrs p' !! i = Some v).

Lemma only_call_trans r p1 p2 p3 : only_call r p1 p2 -> only_call r p2 p3 -> only_call r p1 p3.
Proof.
  intros [A1 A2] [B1 B2]. split.
  - intros x Hx. by rewrite B1, A1.
  - intros x k i n v Hx Hk Hb Hv. eapply B2; [done| |done|]; [by rewrite A1|by eapply A2].
Qed.

Lemma stored_kept r x p p' flags body : bufs_ok p -> x <> r -> only_call r p p' -> stored p x flags body -> stored p' x flags body.
Proof.
  intros [Hok _] Hne [H1 H2] (k & Hk & Hd & Hs & Hf & Hb & Hown). exists k. rewrite H1 by done. split_and!; try done.
  rewrite <- Hb. unfold content. destruct (c_body k) as [|a n|] eqn:E; try done. destruct (Hown a n eq_refl) as (n' & Hbuf).
  pose proof (Hok x k Hk) as Hsl. rewrite Hbuf in Hsl. destruct Hsl as (v & Hv & _).
  by rewrite Hv, (H2 x k a n' v Hne Hk Hbuf Hv).
Qed.


(** *** Reading a response *)

(** Nothing failed on the way. *)
Definition calm s s' : Prop :=
  (rxDead (cn s'), broken (cn s'), kills (wd s'), dls (wd s')) = (rxDead (cn s), broken (cn s), kills (wd s), dls (wd s)).

(** The response was read, and the frames after it are left. *)
Definition delivered s rest r (flags : Z) body (o : outcome (option rterr)) : Prop :=
  exists s', o = Ret None s' /\ rxs (wd s') = rest /\ calm s s' /\ asm (pd (cn s')) = no_asm /\
    stored (pd (cn s')) r flags body /\ only_call r (pd (cn s)) (pd (cn s')).

(** The first [got] bytes of the response are in the buffer of the oldest call. *)
Definition partial q s r k (flags : Z) body (got : Z) : Prop :=
  sinv true (r :: q) s /\ asm (pd (cn s)) = mkAsm true (c_id k) (len body) got /\
  exists a v, calls (pd (cn s)) !! r = Some (set_buf (SArr a (len body)) (set_flags flags k)) /\ arrs (pd (cn s)) !! a = Some v /\
    take (Z.to_nat got) v = take (Z.to_nat got) body /\ len body <= len v.

Lemma take_blit_prefix (g m : nat) body v : (g + m <= length body)%nat -> (length body <= length v)%nat -> take g v = take g body ->
  take (g + m) (blit g (take m (drop g body)) v) = take (g + m) body.
Proof.
  intros H1 H2 E. unfold blit. rewrite app_assoc. rewrite (take_app_length' (take g v ++ take m (drop g body))).
  - rewrite E, <- take_take_drop. done.
  - rewrite length_app, !length_take, length_drop. lia.
Qed.

Lemma take_length_self {A} (m : nat) (l : list A) : take m l = take (length (take m l)) l.
Proof. rewrite length_take. destruct (decide (m <= length l)%nat); [by rewrite Nat.min_l by lia|]. by rewrite Nat.min_r, !take_ge by lia. Qed.

Lemma pop_inv b q s f rest : sinv b q s -> rxs (wd s) = ok_frame f :: rest -> sinv b q (after_frames rest s) /\ Forall is_byte f.
Proof.
  intros [Hc [H1 H2]] E. rewrite E in H1. inversion H1; subst. split; [|done]. split; [done|]. by split.
Qed.

Lemma own_other q s r k x kx i n a m : sinv true q s -> calls (pd (cn s)) !! r = Some k -> c_buf k = SArr a m ->
  x <> r -> calls (pd (cn s)) !! x = Some kx -> c_buf kx = SArr i n -> i <> a.
Proof.
  intros Hs Hr Hb Hne Hx Hbx ->. destruct (pi_bufs _ _ _ (ci_pend _ _ _ (si_conn _ _ _ Hs))) as [_ Hown]. apply Hne. by eapply (Hown x r).
Qed.

Lemma read_conts q r k flags body mode rest : mode <> rxDiscard -> response_for k flags body -> word 32 (len body) -> c_status k = 0 ->
  forall n m s got, partial q s r k flags body got -> 0 <= got < len body -> (length body <= n + Z.to_nat got)%nat ->
  rxs (wd s) = (ok_frame <$> cont_frames n (Z.to_nat (chunk (cn s))) (c_id k) (len body) got (drop (Z.to_nat got) body)) ++ rest ->
  (length (rxs (wd s)) < m)%nat -> delivered s rest r flags body (readResponse m mode s).
Proof.
  intros Hm Hresp Hw Hst. induction n as [|n IH]; intros m s got (Hs & Ha & a & v & Hr & Hv & Hpre & Hlv) Hg Hn Hrx Hfuel; [unfold len in *; lia|].
  pose proof (si_conn _ _ _ Hs) as Hc. destruct (lo_size _ (ci_limits _ _ _ Hc)) as [Hsz _]. pose proof (ci_chunk _ _ _ Hc) as Hch.
  set (ch := Z.to_nat (chunk (cn s))) in *. assert (Hdl : length (drop (Z.to_nat got) body) = (length body - Z.to_nat got)%nat) by apply length_drop.
  rewrite cont_frames_S in Hrx by (unfold len in *; lia). set (src := take ch (drop (Z.to_nat got) body)) in *.
  assert (Hls : len src = Z.min (len body - got) (chunk (cn s))) by (unfold src, len; rewrite length_take, Hdl; unfold ch, len in *; lia).
  rewrite fmap_cons, <- app_comm_cons in Hrx. destruct m as [|m]; [lia|]. cbn [readResponse]. unfold bind at 1, ReserveRead. rewrite Hrx.
  destruct (pop_inv _ _ _ _ _ Hs Hrx) as [Hs1 Hby]. set (s1 := after_frames _ s) in *.
  change (mkSt (cn s) _) with s1.
  pose proof (accept_cont_frame q s1 r _ a (c_id k) (len body) got src mode Hs1 Ha Hr eq_refl Hm Hg) as Hacc.
  destruct Hresp as (Hfl & Hbd & Hid & Hop & Hbytes). specialize (Hacc ltac:(unfold word; lia) Hw Hls). cbv zeta in Hacc.
  set (ar := alter (blit (Z.to_nat got) src) a (arrs (pd (cn s)))) in *.
  assert (Har : ar !! a = Some (blit (Z.to_nat got) src v)) by (unfold ar; by rewrite list_lookup_alter_eq, Hv).
  assert (Hpre2 : take (Z.to_nat (got + len src)) (blit (Z.to_nat got) src v) = take (Z.to_nat (got + len src)) body).
  { replace (Z.to_nat (got + len src)) with (Z.to_nat got + length src)%nat by (unfold len; lia).
    assert (Es : src = take (length src) (drop (Z.to_nat got) body)) by apply take_length_self.
    rewrite Es at 2. apply take_blit_prefix; unfold len in *; lia || done. }
  assert (Honly : forall p', calls p' = calls (pd (cn s)) \/ (exists f, calls p' = alter f r (calls (pd (cn s)))) -> arrs p' = ar -> only_call r (pd (cn s)) p').
  { intros p' Hcl Harr. split.
    - intros x Hx. destruct Hcl as [-> |(f & ->)]; [done|by rewrite list_lookup_alter_ne].
    - intros x kx i n' v' Hx Hkx Hbx Hv'. rewrite Harr. unfold ar. rewrite list_lookup_alter_ne; [done|]. intros <-. by eapply own_other. }
  assert (Hinv := acceptFrame_inv true (r :: q) s1 _ mode (si_conn _ _ _ Hs1) Hby ltac:(done)).
  destruct (Z.ltb_spec (got + len src) (len body)) as [Hlt|Hge].
  - unfold ok_frame. unfold bind at 1. rewrite Hacc in Hinv |- *. destruct Hinv as [[_ [Hc2 _]] _]. set (s2 := with_pd _ s1) in *.
    assert (Hcs : len src = Z.of_nat ch) by (unfold ch; lia).
    destruct (IH m s2 (got + len src)) as (s3 & E3 & Hrx3 & Hcalm & Ha3 & Hst3 & Ho3).
    + split; [by split; [|apply Hs1]|]. split; [done|]. exists a, (blit (Z.to_nat got) src v). split_and!; [done|done|done|].
      unfold len in *. rewrite length_blit; lia.
    + lia.
    + lia.
    + simpl. f_equal. f_equal. change (chunk (cn s2)) with (chunk (cn s)). fold ch. rewrite Hcs. f_equal. rewrite drop_drop. f_equal. lia.
    + simpl in *. rewrite Hrx in Hfuel. simpl in Hfuel. lia.
    + exists s3. split_and!; try done. eapply only_call_trans; [|exact Ho3]. by apply Honly; [left|].
  - destruct Hacc as (p' & E' & Ha' & Har' & Hcl'). unfold ok_frame. unfold bind at 1. rewrite E'. exists (with_pd p' s1).
    assert (Hend : drop ch (drop (Z.to_nat got) body) = []) by (apply drop_ge; rewrite Hdl; unfold ch, len in *; lia).
    split; [reflexivity|]. split; [change (rxs (wd (with_pd p' s1))) with (rxs (wd s1)); unfold s1, after_frames; cbn [wd rxs]; by rewrite Hend, cont_frames_nil|].
    split; [reflexivity|]. split; [exact Ha'|]. split.
    + exists (set_done (set_body (SArr a (len body)) (set_buf (SArr a (len body)) (set_flags flags k)))). simpl.
      rewrite Hcl', list_lookup_alter_eq. change (calls (pd (cn s1))) with (calls (pd (cn s))). rewrite Hr. split; [reflexivity|]. split; [reflexivity|]. split; [exact Hst|]. split; [reflexivity|]. split.
      * rewrite Har'. change (arrs (pd (cn s1))) with (arrs (pd (cn s))). fold ar. rewrite Har. simpl.
        replace (got + len src) with (len body) in Hpre2 by lia. rewrite Hpre2. apply take_ge. unfold len. lia.
      * intros a' n' E. injection E as <- <-. exists (len body). reflexivity.
    + apply Honly; [right; eexists; exact Hcl'|exact Har'].
Qed.


(** The array of a new buffer of call [r] is no other call's. *)
Lemma new_buf_other q s r k x kx i n a m p' : sinv true q s -> calls (pd (cn s)) !! r = Some k -> buf_for (pd (cn s)) p' k (SArr a m) ->
  x <> r -> calls (pd (cn s)) !! x = Some kx -> c_buf kx = SArr i n -> i <> a.
Proof.
  intros Hs Hr [_ Hb] Hne Hx Hbx. destruct (Hb a m eq_refl) as [Hge|(n0 & Ek)]; [|exact (own_other q s r k x kx i n a n0 Hs Hr Ek Hne Hx Hbx)].
  destruct (pi_bufs _ _ _ (ci_pend _ _ _ (si_conn _ _ _ Hs))) as [Hok _]. pose proof (Hok x kx Hx) as Hsl. rewrite Hbx in Hsl.
  destruct Hsl as (v & Hv & _). apply lookup_lt_Some in Hv. lia.
Qed.

Lemma first_frame q s r k flags body mode h src :
  sinv true (r :: q) s -> calls (pd (cn s)) !! r = Some (set_flags flags k) -> mode <> rxDiscard -> h_id h = c_id k -> h_total h = len body ->
  0 < len src < len body -> src = take (length src) body ->
  exists p' a v, acceptFirst r k h src mode s = Ret tt (with_pd p' s) /\ asm p' = mkAsm true (c_id k) (len body) (len src) /\
    calls p' !! r = Some (set_buf (SArr a (len body)) (set_flags flags k)) /\ arrs p' !! a = Some v /\
    take (length src) v = src /\ len body <= len v /\ only_call r (pd (cn s)) p'.
Proof.
  intros Hs Hr Hm Hid Ht Hls Hsrc. pose proof (ci_pend _ _ _ (si_conn _ _ _ Hs)) as Hp.
  pose proof (proj1 (pi_bufs _ _ _ Hp) r _ Hr) as Hok. cbn [c_buf set_flags] in Hok.
  set (A := mkAsm true (c_id k) (len body) (len src)). set (s1 := with_pd (set_asm A (pd (cn s))) s).
  destruct (growTo_spec s1 k (len body)) as (a & ar & E & Hold & Hb); [exact Hok|lia|].
  assert (Hother : forall x kx i n, x <> r -> calls (pd (cn s)) !! x = Some kx -> c_buf kx = SArr i n -> i <> a).
  { intros x kx i n Hx Hkx Hbx. eapply (new_buf_other (r :: q) s r (set_flags flags k) x kx i n a (len body) _ Hs Hr); [|done|done|done]. exact Hb. }
  destruct Hb as [(v & Hv & Hn) _]. cbn [arrs set_arrs] in Hv.
  assert (Eacc : acceptFirst r k h src mode s = Ret tt (with_pd (set_arrs (alter (blit 0 src) a ar)
      (set_calls (alter (set_buf (SArr a (len body))) r (calls (pd (cn s)))) (set_asm A (pd (cn s))))) s)).
  { unfold acceptFirst, bind at 1, updp, upd. rewrite bool_decide_eq_false_2 by done. rewrite Hid, Ht. fold A. unfold bind at 1. step_eq E.
    unfold bind, upd_call, updp, upd. rewrite copy_at_spec by lia. reflexivity. }
  eexists _, a, (blit 0 src v). split; [exact Eacc|]. cbn [asm set_arrs set_calls set_asm calls arrs].
  rewrite !list_lookup_alter_eq, Hr, Hv. split_and!; try done.
  - unfold blit. rewrite take_0, app_nil_l. by rewrite take_app_length.
  - unfold len in *. rewrite length_blit; lia.
  - split; [intros x Hx; cbn [calls set_calls set_arrs]; by rewrite list_lookup_alter_ne|].
    intros x kx i n v' Hx Hkx Hbx Hv'. cbn [arrs set_arrs]. rewrite list_lookup_alter_ne; [by apply Hold|]. intros <-. by eapply (Hother x kx a n).
Qed.

Lemma single_response q s r k flags body mode :
  sinv true (r :: q) s -> calls (pd (cn s)) !! r = Some (set_flags flags k) -> c_status k = 0 -> mode <> rxDiscard ->
  exists p' cs, acceptSingle r k body mode s = Ret (bool_decide (mode = rxHold)) (mkSt (set_pd p' (cn s))
      (mkWorld (rxs (wd s)) (txs (wd s)) (dls (wd s)) (kills (wd s)) cs (closeErr (wd s)) (sent (wd s)))) /\
    asm p' = no_asm /\ stored p' r flags body /\ only_call r (pd (cn s)) p'.
Proof.
  intros Hs Hr Hst Hm. pose proof (si_conn _ _ _ Hs) as Hc. pose proof (ci_pend _ _ _ Hc) as Hp. unfold acceptSingle. destruct mode; [| |done].
  - pose proof (proj1 (pi_bufs _ _ _ Hp) r _ Hr) as Hok. cbn [c_buf set_flags] in Hok.
    destruct (append0_spec s k body Hok) as (sl & ar & cs & E & Hcont & Hg & Hoth & Hb). unfold bind at 1. rewrite E. set (s1 := mkSt _ _).
    set (p1 := set_arrs ar (pd (cn s))) in *. set (p2 := set_calls (alter (set_buf sl) r (calls p1)) p1).
    assert (Hp2 : pend_inv (lim (cn s)) (r :: q) p2) by (apply (pend_set_buf _ _ (pd (cn s)) _ r (set_flags flags k) sl); try done; apply Hp).
    edestruct (answer_inv true q r (set_buf sl (set_flags flags k)) (set_body sl) p2 (asm p2) (mkSt (cn s) (wd s1))) as (p' & E' & _ & _ & Hcl & Har & _ & _ & Has);
      [exact Hc|exact Hp2|done|by eapply keeps_alter; [done..|]; intros; simpl in *|by simpl; rewrite list_lookup_alter_eq, Hr|by split_and!|].
    exists p', cs. split; [unfold bind, upd_call, updp, upd; step_eq E'; reflexivity|]. split; [done|].
    assert (Harr : arrs p' = ar) by (by rewrite Har). split; [|split].
    + exists (set_done (set_body sl (set_buf sl (set_flags flags k)))). rewrite Hcl, list_lookup_alter_eq. cbn [p2 calls set_calls]. rewrite list_lookup_alter_eq.
      cbn [p1 calls set_arrs]. rewrite Hr.
      split; [reflexivity|]. split; [reflexivity|]. split; [exact Hst|]. split; [reflexivity|]. cbn [c_body c_buf set_done set_body set_buf].
      split; [|intros a n ->; by exists n]. etrans; [|exact Hcont]. unfold content. destruct sl; try reflexivity. by rewrite Harr.
    + intros x Hx. rewrite Hcl. cbn [p2 p1 calls set_calls set_arrs]. by rewrite !list_lookup_alter_ne.
    + intros x kx i n v Hx Hkx Hbx Hv. rewrite Harr. apply Hoth; [done|]. intros n' Ek. by apply (own_other (r :: q) s r (set_flags flags k) x kx i n i n').
  - edestruct (answer_inv true q r (set_flags flags k) (fun k => set_inPlace (set_body (SSlot body) k)) (pd (cn s)) (asm (pd (cn s))) s) as (p' & E & _ & _ & Hcl & Har & _ & _ & Has);
      [exact Hc|exact Hp|done|done|exact Hr|by split_and!|].
    exists p', (caps (wd s)). split.
    { unfold bind, upd_call, updp, upd. cbn [pd set_pd cn calls set_calls]. rewrite alter_alter. step_eq E.
      rewrite bool_decide_eq_true_2 by done. unfold with_pd, ret. cbn [wd cn]. f_equal. f_equal. by destruct (wd s). }
    split; [done|]. split; [|split].
    + exists (set_done (set_inPlace (set_body (SSlot body) (set_flags flags k)))). rewrite Hcl, list_lookup_alter_eq, Hr. by split_and!.
    + intros x Hx. rewrite Hcl. by rewrite list_lookup_alter_ne.
    + intros x kx i n v Hx Hkx Hbx Hv. by rewrite Har.
Qed.


(** The frames of a response to the oldest call become its answer. *)
Lemma read_delivers q s r k flags body mode rest :
  sinv true (r :: q) s -> a_active (asm (pd (cn s))) = false -> calls (pd (cn s)) !! r = Some k -> response_for k flags body -> mode <> rxDiscard ->
  rxs (wd s) = (ok_frame <$> frames_of (Z.to_nat (chunk (cn s))) (response_header k flags body) body) ++ rest ->
  delivered s rest r flags body (read_response mode s).
Proof.
  intros Hs Ha Hr Hresp Hm Hrx. pose proof (si_conn _ _ _ Hs) as Hc. destruct (lo_size _ (ci_limits _ _ _ Hc)) as [Hsz _].
  destruct (lo_message _ (ci_limits _ _ _ Hc)) as [_ Hmm]. pose proof (ci_chunk _ _ _ Hc) as Hch.
  destruct (pi_open _ _ _ (ci_pend _ _ _ Hc) r) as (k' & Hr' & _ & Hst & _ & Hrm); [by left|]. rewrite Hr in Hr'. injection Hr' as <-.
  unfold frames_of in Hrx. rewrite fmap_cons, <- app_comm_cons in Hrx. cbn [h_id h_total response_header] in Hrx.
  unfold read_response, bind at 1, enough. rewrite Hrx. cbn [length readResponse]. unfold bind at 1, ReserveRead. rewrite Hrx.
  destruct (pop_inv _ _ _ _ _ Hs Hrx) as [Hs1 Hby]. set (s1 := after_frames _ s) in *. change (mkSt (cn s) _) with s1. unfold ok_frame at 1.
  pose proof (accept_response_frame q s1 r k flags body mode Hs1 Ha Hr Hresp) as Hacc. cbv zeta in Hacc. change (chunk (cn s1)) with (chunk (cn s)) in Hacc.
  set (src := take (Z.to_nat (chunk (cn s))) body) in *. set (s2 := with_pd _ s1) in Hacc.
  assert (Hr2 : calls (pd (cn s2)) !! r = Some (set_flags flags k)) by (simpl; by rewrite list_lookup_alter_eq, Hr).
  assert (Hs2 : sinv true (r :: q) s2).
  { split; [|apply Hs1]. eapply conn_set_pd; [apply Hs1|apply pend_alter; [apply (ci_pend _ _ _ Hc)|done]|simpl; lia|done|]. intros _ Hx. simpl in Hx. congruence. }
  assert (Hflag : only_call r (pd (cn s)) (pd (cn s2))).
  { split; [intros x Hx; simpl; by rewrite list_lookup_alter_ne|done]. }
  assert (Hls : len src = Z.min (len body) (chunk (cn s))) by (unfold src, len; rewrite length_take; lia).
  assert (Hinv := acceptFrame_inv true (r :: q) s1 _ mode (si_conn _ _ _ Hs1) Hby ltac:(done)).
  unfold bind at 1. rewrite Hacc in Hinv |- *. clear Hacc. destruct (Z.ltb_spec (chunk (cn s)) (len body)) as [Hlt|Hge].
  - destruct (first_frame q s2 r k flags body mode (response_header k flags body) src) as (p' & a & v & E & Ha' & Hr3 & Hv & Htk & Hlv & Ho);
      [done|done|done|done|done|lia|by apply take_length_self|]. unfold bind in Hinv |- *. rewrite E in Hinv |- *. destruct Hinv as [[_ [Hc3 _]] _].
    set (s3 := with_pd p' s2) in *. destruct (read_conts q r k flags body mode rest Hm Hresp ltac:(unfold word; pose proof (len_nonneg body); destruct Hresp as (_ & ? & _); lia) Hst
      (length body) (S (length (rxs (wd s3)))) s3 (len src)) as (s4 & E4 & R1 & R2 & R3 & R4 & R5).
    + split; [by split; [|apply Hs1]|]. split; [done|]. exists a, v. split_and!; [done|done| |done].
      unfold len at 1 2. rewrite !Nat2Z.id, Htk. by apply take_length_self.
    + lia.
    + lia.
    + change (chunk (cn s3)) with (chunk (cn s)). cbn [s3 s2 s1 with_pd after_frames wd rxs].
      replace (len src) with (Z.of_nat (Z.to_nat (chunk (cn s)))) by lia. by rewrite Nat2Z.id.
    + lia.
    + exists s4. split; [exact E4|]. split_and!; [done|exact R2|done|done|]. eapply only_call_trans; [exact Hflag|]. by eapply only_call_trans.
  - assert (Esrc : src = body) by (apply take_ge; unfold len in *; lia). rewrite Esrc in *.
    destruct (single_response q s2 r k flags body mode Hs2 Hr2 Hst Hm) as (p' & cs & E & Ha' & Hst' & Ho). unfold bind in Hinv |- *. rewrite E in *.
    assert (Hrest : rxs (wd s1) = rest) by (unfold s1, after_frames; cbn [wd rxs]; rewrite drop_ge, cont_frames_nil by (unfold len in *; lia); done).
    destruct (bool_decide (mode = rxHold)); eexists; (split; [reflexivity|]); (split; [exact Hrest|]); (split; [reflexivity|]); (split; [exact Ha'|]);
      (split; [exact Hst'|]); eapply only_call_trans; [exact Hflag|exact Ho|exact Hflag|exact Ho].
Qed.

End Delivery.

(** ** Waiting *)

Section Waiting.
Implicit Types (s : st) (p : pend) (k : Call) (r : nat) (q : list nat) (body : bytes).

(** Responses for the oldest calls, in order: the call, the flags, the body. *)
Abbreviation answers := (list (nat * (Z * bytes))).

Definition frames_for (ch : nat) p (rs : answers) : list (result error (bytes * option error)) :=
  rs ≫= fun x => match calls p !! x.1 with Some k => ok_frame <$> frames_of ch (response_header k x.2.1 x.2.2) x.2.2 | None => [] end.

(** Every response is one its call accepts. *)
Definition accepts p (rs : answers) : Prop :=
  Forall (fun x => exists k, calls p !! x.1 = Some k /\ response_for k x.2.1 x.2.2) rs.

Lemma frames_for_other ch r p p' (rs : answers) : only_call r p p' -> r ∉ rs.*1 -> frames_for ch p' rs = frames_for ch p rs.
Proof.
  intros [H _]. unfold frames_for. induction rs as [|x rs IH]; intros Hn; [done|]. simpl in Hn. apply not_elem_of_cons in Hn as [Hn1 Hn2].
  cbn [mbind list_bind]. rewrite H by done. f_equal. by apply IH.
Qed.

Lemma accepts_other r p p' (rs : answers) : only_call r p p' -> r ∉ rs.*1 -> accepts p rs -> accepts p' rs.
Proof.
  intros [H _] Hn Ha. induction Ha as [|x rs Hx Ha IH]; constructor; simpl in Hn; apply not_elem_of_cons in Hn as [Hn1 Hn2]; [|by apply IH].
  by rewrite H by done.
Qed.

Lemma frames_for_length ch p (rs : answers) : accepts p rs -> (length rs <= length (frames_for ch p rs))%nat.
Proof.
  unfold frames_for. induction 1 as [|x l (kx & Hkx & _) _ IH]; [simpl; lia|]. rewrite bind_cons, length_app, Hkx, length_fmap.
  change (length (x :: l)) with (S (length l)). set (m := length (frames_of _ _ _)). assert (1 <= m)%nat by (unfold m, frames_of; simpl; lia). lia.
Qed.

(** With no failure in sight. *)
Definition quiet_world s : Prop := kills (wd s) = [] /\ dls (wd s) = [].

Lemma armRead_calm (armed : bool) s : quiet_world s -> exists s1, (if armed then ret None else armRead) s = Ret None s1 /\ quiet s s1 /\
  quiet_world s1 /\ rxDead (cn s1) = rxDead (cn s).
Proof.
  intros [H1 H2]. destruct armed; [by exists s|]. destruct s as [c w]. destruct w as [rx tx dl ki ca ce se]. simpl in H1, H2. subst.
  unfold armRead, bind, get, upd, SetDeadline, killed, ret. cbn [wd cn].
  destruct (0 <? callTimeout c); [|destruct (rdArmed c)]; eexists; (split; [reflexivity|]); (split; [constructor; simpl; auto|done]).
Qed.

(** [await] reads the responses of the older calls and its own. *)
Lemma await_delivers q r : forall (rs : answers) n s armed k rest flags body,
  sinv true (rs.*1 ++ q) s -> list.last rs = Some (r, (flags, body)) -> accepts (pd (cn s)) rs -> a_active (asm (pd (cn s))) = false ->
  rxOpen (cn s) = true -> rxDead (cn s) = false -> quiet_world s -> calls (pd (cn s)) !! r = Some k -> c_pending k = true -> c_done k = false ->
  rxs (wd s) = frames_for (Z.to_nat (chunk (cn s))) (pd (cn s)) rs ++ rest -> (length rs < n)%nat ->
  exists s', await_loop n r armed s = Ret None s' /\ sinv true q s' /\ stays s s' /\ rxs (wd s') = rest /\
    Forall (fun x => stored (pd (cn s')) x.1 x.2.1 x.2.2) rs /\
    (forall z f b, z ∉ rs.*1 -> stored (pd (cn s)) z f b -> stored (pd (cn s')) z f b).
Proof.
  induction rs as [|[x [fx bx]] rs IH]; intros n s armed k rest flags body Hs Hlast Hacc Ha Ho Hd Hqw Hr Hpk Hdk Hrx Hn; [done|].
  destruct n as [|n]; [simpl in Hn; lia|]. cbn [await_loop]. unfold bind at 1. rewrite (deref_spec _ _ _ Hr). unfold bind at 1, get. rewrite Hdk, Hd.
  destruct (armRead_calm armed s Hqw) as (s1 & E1 & Hq1 & Hqw1 & Hd1). unfold bind at 1. rewrite E1.
  pose proof (quiet_inv _ _ _ _ Hq1 Hs) as Hs1. pose proof (qu_conn _ _ Hq1) as Ec. injection Ec as _ _ Eo1 _ Eh1 _ Ep1 _ _ _.
  pose proof (qu_fixed _ _ Hq1) as Ef. injection Ef as _ _ Ech _. pose proof (qu_world _ _ Hq1) as Ew. injection Ew as Erx _ _ _.
  unfold bind at 1. rewrite (unansHead_spec _ _ _ (ci_pend _ _ _ (si_conn _ _ _ Hs1))). cbn [fst fmap list_fmap app head].
  set (mode := if bool_decide (Some x = Some r) then rxHold else rxBuffer).
  assert (Hmode : mode <> rxDiscard) by (unfold mode; by destruct (bool_decide _)).
  apply Forall_cons_1 in Hacc as [(kx & Hkx & Hresp) Hacc]. cbn [fst snd] in Hkx, Hresp.
  assert (Hrx1 : rxs (wd s1) = (ok_frame <$> frames_of (Z.to_nat (chunk (cn s1))) (response_header kx fx bx) bx) ++ (frames_for (Z.to_nat (chunk (cn s))) (pd (cn s)) rs ++ rest)).
  { rewrite Erx, Hrx, Ech. unfold frames_for at 1. cbn [mbind list_bind fst snd]. rewrite Hkx. by rewrite app_assoc. }
  destruct (read_delivers (rs.*1 ++ q) s1 x kx fx bx mode _ Hs1 ltac:(by rewrite Ep1) ltac:(by rewrite Ep1) Hresp Hmode Hrx1) as (s2 & E2 & Hrx2 & Hcalm & Ha2 & Hst2 & Ho2).
  pose proof (read_response_keep true mode _ s1 Hmode Hs1 ltac:(congruence)) as Hinv. unfold bind at 1. rewrite E2 in Hinv |- *.
  destruct Hinv as [(q2 & Hs2 & Hsy2 & Hor & _) _]. destruct Hor as [[_ ?]|(x' & Hq2)]; [done|]. injection Hq2 as <- <-.
  rewrite Ep1 in Ho2. pose proof (pi_nodup _ _ _ (ci_pend _ _ _ (si_conn _ _ _ Hs))) as Hnd. cbn [fst fmap list_fmap app] in Hnd.
  apply list.NoDup_cons in Hnd as [Hxn Hnd]. assert (Hxr : x ∉ rs.*1) by (intros Hx; apply Hxn, elem_of_app; by left).
  assert (Hsy : stays s s2) by (etrans; eauto with hqq). injection Hcalm as Hc1 Hc2 Hc3 Hc4.
  pose proof (sy_conn _ _ Hsy) as Eo2. injection Eo2 as _ _ Eo2 _. pose proof (sy_fixed _ _ Hsy) as Ef2. injection Ef2 as _ _ Ech2 _.
  assert (Hkept : forall z f b, z <> x -> stored (pd (cn s)) z f b -> stored (pd (cn s2)) z f b).
  { intros z f b Hz Hst. eapply stored_kept; [apply (ci_pend _ _ _ (si_conn _ _ _ Hs))|exact Hz|exact Ho2|exact Hst]. }
  destruct rs as [|y rs'].
  - simpl in Hlast. injection Hlast as -> -> ->. destruct n as [|n]; [simpl in Hn; lia|]. cbn [await_loop].
    destruct Hst2 as (k2 & Hr2 & Hd2 & Hrest2). unfold bind at 1. rewrite (deref_spec _ _ _ Hr2). unfold bind at 1, get. rewrite Hd2.
    exists s2. split_and!; [reflexivity|exact Hs2|done|exact Hrx2| |].
    + constructor; [|constructor]. by exists k2.
    + intros z f b Hz. apply Hkept. simpl in Hz. by apply not_elem_of_cons in Hz as [? _].
  - set (rs := y :: rs') in *. assert (Hl' : list.last rs = Some (r, (flags, body))) by exact Hlast.
    assert (Hrin : r ∈ rs.*1) by (apply last_Some in Hl' as (l0 & ->); rewrite fmap_app; apply elem_of_app; right; by left).
    assert (Hrx_ne : r <> x) by congruence. destruct (IH n s2 true k rest flags body) as (s3 & E3 & Hs3 & Hsy3 & Hrx3 & Hall & Hkept3).
    + exact Hs2.
    + done.
    + by eapply accepts_other.
    + by rewrite Ha2.
    + congruence.
    + congruence.
    + destruct Hqw1. split; congruence.
    + by rewrite (proj1 Ho2) by done.
    + done.
    + done.
    + rewrite Hrx2, Ech2. f_equal. symmetry. by eapply frames_for_other.
    + simpl in Hn |- *. lia.
    + exists s3. split_and!; [exact E3|exact Hs3|by etrans|done| |].
      * constructor; [|exact Hall]. cbn [fst snd]. by apply Hkept3.
      * intros z f b Hz Hst. change (z ∉ x :: rs.*1) in Hz. apply not_elem_of_cons in Hz as [Hz1 Hz2]. by apply Hkept3, Hkept.
Qed.


(** [recycle] does not touch the link. *)
Lemma recycle_runs s r : recycle r s <> Blocked.
Proof.
  unfold recycle, unregister, bind, get, deref, of_option, updp, upd_call, updp, upd, ret, panic. cbn [bind get].
  unfold bind. cbn [cn]. destruct (calls (pd (cn s)) !! r); [|done]. destruct (list.last _); [|done]. destruct (_ <? _)%nat; [|done]. cbn. by destruct (_ <? _).
Qed.

Lemma stored_remove p r f fr moved i z flags body : z <> r -> stored p z flags body -> stored (remove r f fr moved i p) z flags body.
Proof.
  intros Hne (k & Hk & Hd & Hs & Hf & Hb & Ho). eexists. rewrite (remove_ne _ _ _ _ _ _ _ _ Hk Hne). split; [reflexivity|].
  by destruct (decide (z = moved)); split_and!.
Qed.

(** What [Wait] makes of a stored answer. *)
Definition dec_of s (d : Dec) (flags : Z) body : Prop :=
  content (pd (cn s)) (d_Body d) = body /\ d_Fail d = has_bits flags flagFail /\ d_Detail d = has_bits flags flagDetail /\
  d_open d = true /\ d_gen d = rxGen (cn s).

Lemma wait_end q s r k flags body : sinv true q s -> calls (pd (cn s)) !! r = Some k -> c_pending k = true -> stored (pd (cn s)) r flags body ->
  exists d s', (k ← deref r;
    if negb (c_status k =? statusOK) then
      c ← get; recycle r;; upd (set_rxOpen false);; afterOp;; leave;;
      ret (no_dec, Some (StatusError (opName c (c_op k)) (c_status k) (c_msg k)))
    else
      upd (fun c => set_rxGen (u32 (rxGen c + 1)) c);; c ← get; recycle r;;
      ret (mkDec (c_body k) (has_bits (c_flags k) flagDetail) (has_bits (c_flags k) flagFail) true (rxGen c) (c_op k), None)) s
    = Ret (d, None) s' /\ dec_of s' d flags body /\ wd s' = wd s /\ rxOpen (cn s') = rxOpen (cn s) /\
    (forall z f b, z <> r -> stored (pd (cn s)) z f b -> stored (pd (cn s')) z f b).
Proof.
  intros Hs Hr Hpk (k' & Hr' & Hd & Hst & Hf & Hb & Ho). rewrite Hr in Hr'. injection Hr' as <-. unfold bind at 1. rewrite (deref_spec _ _ _ Hr).
  destruct (Z.eqb_spec (c_status k) statusOK) as [_|Hx]; [|done]. cbn [negb]. unfold bind at 1, upd. set (s1 := mkSt _ _).
  assert (Hs1 : sinv true q s1) by (apply (good_flags true q s (fun c => set_rxGen (u32 (rxGen c + 1)) c)); [done..|apply Hs]).
  unfold bind at 1, get. pose proof (recycle_inv true q s1 r k Hs1 Hr Hpk Hd) as Hrec. unfold bind.
  pose proof (recycle_runs s1 r) as Hruns.
  destruct (recycle r s1) as [[] s2| | |]; [|done|by destruct Hruns|done]. destruct Hrec as (_ & _ & f & fr & moved & ->).
  eexists _, _. split; [reflexivity|]. split_and!; try done.
  - split_and!; [etrans; [|exact Hb]; cbn [d_Body]; by destruct (c_body k)|cbn [d_Fail]; by rewrite Hf|cbn [d_Detail]; by rewrite Hf|done|done].
  - intros z f0 b0 Hz Hstz. cbn [pd cn with_pd set_pd]. by apply stored_remove.
Qed.


(** The gate lets the owner of a session that nobody killed in. *)
Lemma enter_calm s : quiet_world s -> exists s1, enter s = Ret true s1 /\ quiet s s1 /\ quiet_world s1 /\ rxDead (cn s1) = rxDead (cn s).
Proof.
  intros [H1 H2]. destruct s as [c w]. destruct w as [rx tx dl ki ca ce se]. simpl in H1, H2. subst.
  eexists. split; [reflexivity|]. split; [constructor; simpl; auto|done].
Qed.

Lemma queue_unique q q' p : queue p = Some <$> q -> queue p = Some <$> q' -> q = q'.
Proof. intros -> H. by apply (inj (fmap Some)) in H. Qed.

(** The start of [Wait] on an open call. *)
Lemma wait_begin q s r k : sinv true q s -> calls (pd (cn s)) !! r = Some k -> c_pending k = true -> rxOpen (cn s) = false -> quiet_world s ->
  exists s1, sinv true q s1 /\ quiet_world s1 /\ pd (cn s1) = pd (cn s) /\ chunk (cn s1) = chunk (cn s) /\ rxs (wd s1) = rxs (wd s) /\
    rxOpen (cn s1) = true /\ rxDead (cn s1) = rxDead (cn s) /\
    Wait (Some r) (c_id k) s = (e ← (if c_done k then ret None else await r);
      match e with
      | Some err =>
          upd (set_rxOpen false);; c ← get;
          if negb (rxDead c) then leave;; ret (no_dec, Some (TransportError (opName c (c_op k)) err true))
          else e ← abandonCall r; afterOp;; leave;; ret (no_dec, e)
      | None => k ← deref r;
          if negb (c_status k =? statusOK) then
            c ← get; recycle r;; upd (set_rxOpen false);; afterOp;; leave;;
            ret (no_dec, Some (StatusError (opName c (c_op k)) (c_status k) (c_msg k)))
          else
            upd (fun c => set_rxGen (u32 (rxGen c + 1)) c);; c ← get; recycle r;;
            ret (mkDec (c_body k) (has_bits (c_flags k) flagDetail) (has_bits (c_flags k) flagFail) true (rxGen c) (c_op k), None)
      end) s1.
Proof.
  intros Hs Hr Hpk Ho Hw. destruct (enter_calm s Hw) as (s1 & E & Hq & Hw1 & Hd1). pose proof (quiet_inv _ _ _ _ Hq Hs) as Hs1.
  pose proof (qu_conn _ _ Hq) as Ec. injection Ec as _ _ _ _ _ _ Ep _ _ _. pose proof (qu_fixed _ _ Hq) as Ef. injection Ef as _ _ Ech _.
  pose proof (qu_world _ _ Hq) as Ew. injection Ew as Erx _ _ _.
  exists (mkSt (set_rxOpen true (cn s1)) (wd s1)). split; [by apply (good_flags true q s1 (set_rxOpen true))|].
  split_and!; try done; try (by destruct Hw1).
  unfold Wait, bind at 1. rewrite (deref_spec _ _ _ Hr). unfold bind at 1, get. rewrite Hpk, Z.eqb_refl, Ho. cbn [negb orb].
  unfold bind at 1. rewrite E. cbn [negb]. unfold bind at 1, upd. done.
Qed.

End Waiting.

(** ** Properties *)

(** What is sent, and what is known about it. A call of [Submit] that
    succeeds has put on the link frames that a receiver reassembles to exactly
    the header and the body of the request, none larger than a slot, and the
    new call is the youngest unanswered one. A call that fails reports an
    unknown outcome exactly if a frame of the request reached the link. *)
Theorem submit_outcome (b : bool) (s s' : st) (res : result rterr nat) (H : reachable b s) (Ht : txOpen (cn s) = true)
  (Hop : word 16 (e_op (enc (cn s)))) (E : Submit true s = Ret res s') :
  let e := enc (cn s) in
  let h := mkFrameHeader kindRequest 0 (e_op e) (nextID (last_id (cn s))) (e_bodyLen e) 0 in
  exists fs, sent (wd s') = sent (wd s) ++ fs /\
    match res with
    | Ok r => reassemble (chunk (cn s)) fs = Some (h, e_body e) /\ Forall (fun f => len f <= BufferSize (lim (cn s))) fs /\
              submitted (pd (cn s')) r e (h_id h)
    | Err (TransportError _ _ u) => u = negb (bool_decide (fs = []))
    | Err _ => False
    end.
Proof.
  pose proof (reachable_good _ _ H) as Hg. pose proof (Submit_sent b s Hg Ht Hop) as Hs. rewrite E in Hs. destruct Hg as (q & [Hc _]).
  destruct (lo_size _ (ci_limits _ _ _ Hc)) as [Hsz _]. destruct (lo_message _ (ci_limits _ _ _ Hc)) as [_ Hmm]. pose proof (ci_chunk _ _ _ Hc) as Hch.
  destruct (ci_enc _ _ _ Hc Ht) as (_ & _ & _ & _ & E5 & E6 & _). pose proof (nextID_range (last_id (cn s))) as Hid.
  destruct Hs as (fs & Hsent & Hres). exists fs. split; [exact Hsent|]. destruct res as [r|err]; [|exact Hres].
  destruct Hres as [-> Hsub]. split_and!; [| |exact Hsub].
  - rewrite Hch. replace (BufferSize (lim (cn s)) - 16) with (Z.of_nat (Z.to_nat (BufferSize (lim (cn s)) - 16))) at 1 by lia.
    apply reassemble_frames; [lia| |by cbn [h_total]]. unfold header_ok, word in *. cbn [h_kind h_flags h_op h_id h_total h_aux].
    pose proof (len_nonneg (e_body (enc (cn s)))). split_and!; unfold kindRequest; lia.
  - eapply Forall_impl; [|apply frames_of_len]. cbv beta. intros f Hf. lia.
Qed.

(** C38. Responses reach their calls. If the server answers the oldest unanswered
    calls in order, up to the call [r], each with frames of a response within
    its bound, then [Wait] on [r] returns a response with exactly the body and
    the flags that were sent for [r]; it reads no frame too many, and the
    answers of the older calls are stored with them. *)
Theorem wait_delivers (s : st) (rs : list (nat * (Z * bytes))) (q : list nat) (r : nat) (k : Call) (flags : Z) (body : bytes)
  (rest : list (result error (bytes * option error)))
  (H : reachable true s) (Hq : queue (pd (cn s)) = Some <$> rs.*1 ++ q) (Hlast : list.last rs = Some (r, (flags, body)))
  (Hacc : accepts (pd (cn s)) rs) (Ha : a_active (asm (pd (cn s))) = false) (Ho : rxOpen (cn s) = false) (Hd : rxDead (cn s) = false)
  (Hw : quiet_world s) (Hr : calls (pd (cn s)) !! r = Some k) (Hp : c_pending k = true)
  (Hrx : rxs (wd s) = frames_for (Z.to_nat (chunk (cn s))) (pd (cn s)) rs ++ rest) :
  exists d s', Wait (Some r) (c_id k) s = Ret (d, None) s' /\ dec_of s' d flags body /\ rxs (wd s') = rest /\
    Forall (fun x => x.1 <> r -> stored (pd (cn s')) x.1 x.2.1 x.2.2) rs.
Proof.
  destruct (reachable_good _ _ H) as (q0 & Hs). assert (q0 = rs.*1 ++ q) as -> by (eapply queue_unique; [apply (ci_pend _ _ _ (si_conn _ _ _ Hs))|done]).
  assert (Hrin : (r, (flags, body)) ∈ rs) by (apply last_Some in Hlast as (l0 & ->); apply elem_of_app; right; by left).
  assert (Hdk : c_done k = false).
  { destruct (pi_open _ _ _ (ci_pend _ _ _ (si_conn _ _ _ Hs)) r) as (k' & Hr' & Hopen & _); [|congruence].
    apply elem_of_app. left. apply list_elem_of_fmap. by exists (r, (flags, body)). }
  destruct (wait_begin _ s r k Hs Hr Hp Ho Hw) as (s1 & Hs1 & Hw1 & Ep1 & Ech1 & Erx1 & Eo1 & Ed1 & ->). rewrite Hdk.
  rewrite <- Ep1 in Hr, Ha, Hacc, Hrx. rewrite <- Ech1, <- Erx1 in Hrx. rewrite <- Ed1 in Hd. unfold await, bind at 1, bind at 1, enough.
  assert (Hfuel : (length rs < S (S (length (rxs (wd s1)))))%nat).
  { rewrite Hrx, length_app. pose proof (frames_for_length (Z.to_nat (chunk (cn s1))) _ _ Hacc). lia. }
  destruct (await_delivers q r rs _ s1 false k rest flags body Hs1 Hlast Hacc Ha Eo1 Hd Hw1 Hr Hp Hdk Hrx Hfuel) as (s2 & E2 & Hs2 & Hsy & Hrx2 & Hall & _).
  rewrite E2. destruct (keeps_lookup _ _ r k (sy_keeps _ _ Hsy) Hr) as (k2 & Hr2 & Ek). unfold request in Ek. injection Ek as _ _ _ _ Epk _.
  assert (Hst : stored (pd (cn s2)) r flags body) by (by apply (proj1 (list.Forall_forall _ _) Hall) in Hrin).
  destruct (wait_end q s2 r k2 flags body Hs2 Hr2 ltac:(congruence) Hst) as (d & s' & E' & Hdec & Hwd & _ & Hkeep).
  exists d, s'. split; [exact E'|]. split; [exact Hdec|]. split; [by rewrite Hwd|].
  eapply Forall_impl; [|exact Hall]. intros x Hx Hne. by apply Hkeep.
Qed.

(** An answer that is stored waits for its call: [Wait] returns it without
    reading from the link, and leaves the other stored answers alone. *)
Theorem wait_stored (s : st) (r : nat) (k : Call) (flags : Z) (body : bytes)
  (H : reachable true s) (Hr : calls (pd (cn s)) !! r = Some k) (Hp : c_pending k = true) (Hs : stored (pd (cn s)) r flags body)
  (Ho : rxOpen (cn s) = false) (Hw : quiet_world s) :
  exists d s', Wait (Some r) (c_id k) s = Ret (d, None) s' /\ dec_of s' d flags body /\ rxs (wd s') = rxs (wd s) /\
    forall z f b, z <> r -> stored (pd (cn s)) z f b -> stored (pd (cn s')) z f b.
Proof.
  destruct (reachable_good _ _ H) as (q & Hi). destruct (wait_begin q s r k Hi Hr Hp Ho Hw) as (s1 & Hs1 & _ & Ep1 & _ & Erx1 & _ & _ & ->).
  pose proof Hs as (k' & Hr' & Hd & _). rewrite Hr in Hr'. injection Hr' as <-. rewrite Hd. unfold bind at 1, ret at 1. rewrite <- Ep1 in *.
  destruct (wait_end q s1 r k flags body Hs1 Hr Hp Hs) as (d & s' & E & Hdec & Hwd & _ & Hkeep).
  exists d, s'. split; [exact E|]. split; [exact Hdec|]. split; [by rewrite Hwd|exact Hkeep].
Qed.

Lemma Submit_undisturbed b s : good b s -> safe b (Submit true s) (fun _ s' => undisturbed s s').
Proof.
  intros (q & Hs). unfold Submit. apply safe_get. destruct (txOpen (cn s)) eqn:Et; [|by split]. cbn [negb orb].
  pose proof Hs as [Hc Hw]. destruct (ci_enc _ _ _ Hc Et) as (E1 & E2 & E3 & E4 & E5 & E6 & E7 & E8).
  pose proof (ci_limits _ _ _ Hc) as Hl. destruct (lo_size _ Hl) as [Hsz _]. set (e := enc (cn s)) in *. set (id := nextID (last_id (cn s))).
  eapply safe_bind with (R := fun _ s1 => tx_only s s1).
  { destruct (e_multi e); cbn [negb]; [specialize (E8 eq_refl)|eapply safe_bind; [apply safe_true, Commit_inv|by intros err s1 H1]].
    apply safe_true, (sendFrames_inv (lim (cn s))); [done|apply Hc|done|lia|unfold len; lia]. }
  intros [committed err] s1 Ht. pose proof (tx_only_inv _ _ _ _ Ht Hs) as [Hc1 Hw1]. destruct Ht as (Ecn & _).
  unfold bind at 1, upd. set (s2 := mkSt _ _). cbn [snd fst].
  assert (Hu2 : undisturbed s s2) by (unfold undisturbed, s2; simpl; by rewrite Ecn).
  destruct err as [err|].
  - quiet_step txFailed_quiet. intros e' s3 H3. quiet_step afterOp_quiet. intros [] s4 H4. quiet_step leave_quiet. intros [] s5 H5.
    assert (Hq : quiet s2 s5) by (by do 2 (etrans; [done|])). apply quiet_undisturbed in Hq as [Q1 Q2]. destruct Hu2. split; congruence.
  - unfold bind at 1, upd. set (s3 := mkSt _ _).
    assert (Hs3 : sinv b q s3) by (split; [|done]; eapply conn_inv_flags; [exact Hc1|done|done|apply Hc1]).
    assert (El : lim (cn s3) = lim (cn s)) by (simpl; by rewrite Ecn). assert (Ep : pd (cn s3) = pd (cn s)) by (simpl; by rewrite Ecn).
    assert (Hu3 : undisturbed s s3) by exact Hu2. assert (Ht3 : txOpen (cn s3) = false) by done. clearbody s3. clear s2 Hu2.
    destruct (register_call_inv b q s3 (fun i k => mkCall id (e_op e) (e_rf e) (e_respMax e) true (c_done k) (c_inPlace k) (c_flags k)
      (c_status k) (c_msg k) (c_body k) (c_buf k) i) (e_rf e)) as (r & p & En & Hslots & Earr & _); [done|done|by rewrite El|by rewrite El, Ep| |..].
    { rewrite E1. apply rf_quotient_pos. }
    { intros i k. rewrite El. simpl. split_and!; try done; try apply E2. rewrite E1. unfold rf_quotient, resp_slots. by rewrite (ci_chunk _ _ _ Hc). }
    unfold bind at 1. rewrite En. apply safe_get. unfold bind at 1, upd_call, updp, upd. cbn [cn wd pd with_pd set_pd calls set_calls live unans].
    destruct (Nat.eqb_spec (length (unans p)) 0); [done|]. unfold bind at 1. set (s4 := mkSt _ _).
    assert (Hu4 : undisturbed s s4) by (destruct Hu3; split; [simpl; congruence|done]). clearbody s4.
    eapply safe_bind with (R := fun _ s5 => undisturbed s s5); [destruct (_ <? _); exact Hu4|].
    intros [] s5 Hu5. quiet_step afterOp_quiet. intros [] s6 H6. quiet_step leave_quiet. intros [] s7 H7.
    assert (Hq : quiet s5 s7) by (by etrans). apply quiet_undisturbed in Hq as [Q1 Q2]. destruct Hu5. split; congruence.
Qed.

Lemma Abort_undisturbed s : safe true (Abort true s) (fun _ s' => undisturbed s s').
Proof.
  unfold Abort. apply safe_get. destruct (_ || _); [by split|]. unfold bind at 1, upd. set (s1 := mkSt _ _).
  eapply safe_bind with (R := fun _ s2 => quiet s1 s2).
  { destruct (negb _); [|simpl; done]. destruct (e_res _); [|simpl; done]. eapply safe_mono; [apply failTx_quiet|]. by intros a s' [Hq _]. }
  intros [] s2 Hq2. unfold bind at 1. set (s3 := mkSt _ _). apply quiet_undisturbed in Hq2 as [A1 A2].
  quiet_step afterOp_quiet. intros [] s4 H4. eapply safe_mono; [apply leave_quiet|]. intros [] s5 H5.
  assert (Hq : quiet s3 s5) by (by etrans). apply quiet_undisturbed in Hq as [Q1 Q2]. simpl in *. split; congruence.
Qed.

(** A response stays as it is until it is released: whatever the owner calls
    in between (a stale [Dec] may be released too), the memory of the response
    is not written, and the slot it may be held in is kept. *)
Theorem response_stays (b : bool) (s s' : st) (o : op) (a : answer) (H : reachable b s) (Ho : rxOpen (cn s) = true)
  (Hd : forall d, o = ORelease d -> d_open d = true -> d_gen d <> rxGen (cn s)) (E : run_op o s = Ret a s') :
  undisturbed s s' /\ forall sl, content (pd (cn s')) sl = content (pd (cn s)) sl.
Proof.
  assert (Hu : undisturbed s s').
  2: { split; [done|]. intros sl. destruct Hu as [Ea _]. unfold content. destruct sl; try done. by rewrite Ea. }
  destruct (reachable_good _ _ H) as (q & Hs). destruct o as [f n m|body| | |r id|d|d| |]; cbn [run_op] in E.
  - unfold bind, BeginRequest, bind, get, ret in E. rewrite Ho, orb_true_r in E. by simplify_eq.
  - unfold bind, upd, ret in E. injection E as <- <-. unfold write_body.
    destruct (txOpen (cn s) && _); [destruct (e_multi (enc (cn s)))|]; by split.
  - pose proof (Submit_undisturbed b s (ex_intro _ q Hs)) as Hsub. unfold bind in E. destruct (Submit true s); unfold ret in E; simplify_eq. exact Hsub.
  - pose proof (Abort_undisturbed s) as Hab. unfold bind in E. destruct (Abort true s); unfold ret in E; simplify_eq. exact Hab.
  - unfold bind at 1, get in E. unfold bind at 1, Wait in E. destruct (_ <? _)%nat eqn:Er; [|by unfold ret in E; simplify_eq].
    apply Nat.ltb_lt, lookup_lt_is_Some in Er as [k Hk]. unfold bind at 1 in E. rewrite (deref_spec _ _ _ Hk) in E. unfold bind, get, ret in E. rewrite Ho in E.
    destruct (_ || _); by simplify_eq.
  - unfold bind, Release, ret in E. destruct (d_open d) eqn:Ed; cbn [negb] in E; [|by simplify_eq]. unfold bind, get in E.
    specialize (Hd d eq_refl Ed). rewrite (proj2 (Z.eqb_neq _ _) Hd) in E. cbn [negb orb] in E. by simplify_eq.
  - unfold Malformed in E. destruct (negb _); [unfold bind, ret in E; by simplify_eq|]. unfold bind, get, ret in E.
    pose proof (failRx_quiet true (ProtocolError 0 BodyMalformed true) s) as Hq. destruct (failRx _ s); simplify_eq. apply quiet_undisturbed, Hq.
  - unfold bind, Sync, bind, get, ret in E. rewrite Ho, orb_true_r in E. by simplify_eq.
  - unfold bind, Close, bind, get, ret in E. rewrite Ho, orb_true_r in E. by simplify_eq.
Qed.
