(* ===== verification/SessionRuns.v ===== *)
(** * SessionRuns: concrete runs of a session

    Runs that show the properties of SessionOps.v and SessionWire.v at work,
    and one that shows a panic: a [Sync] that runs into its deadline in the
    middle of a response leaves the response half read, and the next [Wait]
    copies the rest of it into a buffer that was never made. *)
From S2P Require Import Prelude Errors Protocol Codec Session SessionInv SessionOps SessionReads SessionWire.

(** A ring of four slots of 128 bytes, two calls in flight. *)
Definition small_limits : Limits := mkLimits 4 128 2 4096 16.

Lemma small_limits_ok : limits_ok small_limits.
Proof. constructor; simpl; try lia; [by exists 2|by split; [lia|]]. Qed.

Definition run_world (rx : list (result error (bytes * option error))) : world :=
  mkWorld rx (replicate 8 (Ok (replicate 128 0, None))) [] [] [] None [].

Definition start rx : st := mkSt (newConn small_limits 3 0) (run_world rx).

Lemma start_reachable rx : Forall (fun e => match e with Ok (b, _) => Forall is_byte b | Err _ => True end) rx -> reachable true (start rx).
Proof.
  intros H. apply reach_new; [apply small_limits_ok|lia|]. split; [done|]. simpl. repeat constructor.
Qed.

(** The state after some calls, none of them cut off. *)
Fixpoint run_state (l : list op) (s : st) : option st :=
  match l with
  | [] => Some s
  | o :: l => match run_op o s with Ret a s' => if cut o a s' then None else run_state l s' | _ => None end
  end.

Lemma run_state_reachable b l : forall s s', reachable b s -> run_state l s = Some s' -> reachable b s'.
Proof.
  induction l as [|o l IH]; simpl; intros s s' H E; [by simplify_eq|]. destruct (run_op o s) as [a s1| | |] eqn:Eo; try done.
  destruct (cut o a s1) eqn:Ec; [done|]. eapply IH; [|exact E]. pose proof (reach_op _ _ _ _ _ H Eo) as H1. by rewrite Ec, andb_true_r in H1.
Qed.

(** Memory is made of bytes, by computation. *)
Definition byteb (x : Z) : bool := (0 <=? x) && (x <? 256).

Lemma bytes_check (b : bytes) : forallb byteb b = true -> Forall is_byte b.
Proof.
  intros H. apply list.Forall_forall. intros x Hx. apply list_elem_of_In in Hx. apply (proj1 (forallb_forall _ _) H) in Hx.
  unfold byteb, is_byte in *. breflect. lia.
Qed.

Lemma frames_check (rx : list (result error (bytes * option error))) :
  forallb (fun e => match e with Ok (b, _) => forallb byteb b | Err _ => true end) rx = true ->
  Forall (fun e => match e with Ok (b, _) => Forall is_byte b | Err _ => True end) rx.
Proof.
  intros H. apply list.Forall_forall. intros [[b rel]|e] Hx; [|done]. apply list_elem_of_In in Hx.
  apply (proj1 (forallb_forall _ _) H) in Hx. by apply bytes_check.
Qed.

(** A body of [n] bytes. *)
Definition body_of (n : nat) : bytes := (fun i => Z.of_nat i mod 256) <$> seq 0 n.

(** The frames of a response to call [id] of function 1. *)
Definition response_frames (id flags : Z) (body : bytes) : list (result error (bytes * option error)) :=
  ok_frame <$> frames_of 112 (mkFrameHeader kindResponse flags 1 id (len body) statusOK) body.

Definition two_calls : list op := [OBegin 1 5 200; OBody (body_of 5); OSubmit; OBegin 1 300 200; OBody (body_of 300); OSubmit].

Lemma two_calls_reachable rx s : Forall (fun e => match e with Ok (b, _) => Forall is_byte b | Err _ => True end) rx ->
  run_state two_calls (start rx) = Some s -> reachable true s.
Proof. intros H E. eapply run_state_reachable; [by apply start_reachable|exact E]. Qed.

(** Two calls in flight need four slots: the ring is full. *)
Lemma session_flow_control_witness :
  exists s, run_state two_calls (start []) = Some s /\ Z.of_nat (unansN (pd (cn s))) <= 2 /\ unansRF (pd (cn s)) = 4.
Proof.
  destruct (run_state two_calls (start [])) as [s|] eqn:E; [|vm_compute in E; discriminate].
  exists s. split; [reflexivity|]. pose proof (two_calls_reachable [] s ltac:(constructor) E) as H.
  destruct (session_flow_control true s H) as (H1 & _). vm_compute in E. injection E as <-. split; [exact H1|reflexivity].
Defined.


(** The second request takes three frames. *)
Lemma submit_outcome_witness :
  exists s s' r fs, run_state (removelast two_calls) (start []) = Some s /\ Submit true s = Ret (Ok r) s' /\
    sent (wd s') = sent (wd s) ++ fs /\
    reassemble 112 fs = Some (mkFrameHeader kindRequest 0 1 2 300 0, body_of 300) /\ length fs = 3%nat.
Proof.
  destruct (run_state (removelast two_calls) (start [])) as [s|] eqn:E; [|vm_compute in E; discriminate].
  assert (H : reachable true s) by (eapply run_state_reachable; [apply (start_reachable []); constructor|exact E]).
  destruct (Submit true s) as [[r|e] s'| | |] eqn:Es; [|vm_compute in E; injection E as <-; vm_compute in Es; discriminate..].
  exists s, s', r. pose proof (submit_outcome true s s' (Ok r) H) as Hx. vm_compute in E. injection E as <-.
  destruct (Hx ltac:(reflexivity) ltac:(unfold word; simpl; lia) Es) as (fs & Hsent & Hre & _). exists fs.
  split; [reflexivity|]. split; [exact Es|]. split; [exact Hsent|]. split; [exact Hre|].
  vm_compute in Es. injection Es as <- <-. cbn [sent wd] in Hsent. apply (f_equal length) in Hsent. rewrite length_app in Hsent. simpl in Hsent. lia.
Defined.

(** Two responses, the first of them in two frames. *)
Definition two_responses : list (result error (bytes * option error)) :=
  response_frames 1 flagFail (body_of 150) ++ response_frames 2 0 (body_of 10).

Lemma two_responses_ok : Forall (fun e => match e with Ok (b, _) => Forall is_byte b | Err _ => True end) two_responses.
Proof. apply frames_check. vm_compute. reflexivity. Qed.

(** More frames than the two calls can still get: [Sync] reads its three and
    returns. A session that closes with nothing but responses to come reads
    them all and waits. *)
Definition flood : list (result error (bytes * option error)) := two_responses ++ two_responses.

Lemma flood_ok : Forall (fun e => match e with Ok (b, _) => Forall is_byte b | Err _ => True end) flood.
Proof. apply frames_check. vm_compute. reflexivity. Qed.

Lemma flood_like : Forall response_like flood.
Proof. repeat constructor; vm_compute; (left; reflexivity) || (right; reflexivity) || done. Qed.

Lemma session_no_panic_witness :
  exists s a s', run_state two_calls (start flood) = Some s /\ run_op (OWait 0 1) s <> Panic /\ run_op OSync s = Ret a s' /\
    length (rxs (wd s')) = 3%nat /\ run_op OClose s = Blocked.
Proof.
  destruct (run_state two_calls (start flood)) as [s|] eqn:E; [|vm_compute in E; discriminate].
  exists s. pose proof (two_calls_reachable flood s flood_ok E) as H.
  destruct (session_no_panic true s (OWait 0 1) H) as (H1 & _). destruct (session_no_panic true s OSync H) as (_ & _ & H3 & H4).
  vm_compute in E. injection E as <-.
  destruct H3 as (a & s' & Ea); [reflexivity|discriminate|discriminate|reflexivity|discriminate|].
  exists a, s'. split; [reflexivity|]. split; [by apply H1|]. split; [exact Ea|]. split; [vm_compute in Ea; injection Ea as _ <-; reflexivity|].
  apply H4; [|exact flood_like]. split_and!; try reflexivity. do 2 eexists. reflexivity.
Defined.

Lemma response_check k flags body : (flags =? 0) || (flags =? flagFail) || (flags =? Z.lor flagFail flagDetail) = true ->
  (len body <=? c_respMax k) && (1 <=? c_id k) && (c_id k <? 2 ^ 32) && (0 <=? c_op k) && (c_op k <? 2 ^ 16) && forallb byteb body = true ->
  response_for k flags body.
Proof.
  intros Hf H. breflect. split_and!; try lia; try (by apply bytes_check); [|unfold word; lia].
  unfold flags_ok. rewrite !orb_true_iff, !Z.eqb_eq in Hf. tauto.
Qed.

(** Waiting for the younger call stores the answer of the older one. *)
Lemma wait_delivers_witness :
  exists s d s', run_state two_calls (start two_responses) = Some s /\ Wait (Some 1%nat) 2 s = Ret (d, None) s' /\
    content (pd (cn s')) (d_Body d) = body_of 10 /\ d_Fail d = false /\ rxs (wd s') = [].
Proof.
  destruct (run_state two_calls (start two_responses)) as [s|] eqn:E; [|vm_compute in E; discriminate].
  pose proof (two_calls_reachable _ s two_responses_ok E) as H. exists s.
  set (rs := [(0%nat, (flagFail, body_of 150)); (1%nat, (0, body_of 10))] : list (nat * (Z * bytes))).
  assert (Hk : exists k0 k1, calls (pd (cn s)) = [k0; k1] /\ c_respMax k0 = 200 /\ c_id k0 = 1 /\ c_op k0 = 1 /\
    c_respMax k1 = 200 /\ c_id k1 = 2 /\ c_op k1 = 1 /\ c_pending k1 = true).
  { vm_compute in E. injection E as <-. do 2 eexists. split; [reflexivity|]. split_and!; reflexivity. }
  destruct Hk as (k0 & k1 & Ek & A1 & A2 & A3 & B1 & B2 & B3 & B4).
  assert (Hacc : accepts (pd (cn s)) rs).
  { constructor; [|constructor; [|constructor]]; cbn [fst snd]; rewrite Ek; (eexists; split; [reflexivity|]); apply response_check; try reflexivity;
      [rewrite A1, A2, A3|rewrite B1, B2, B3]; vm_compute; reflexivity. }
  assert (Hrx : rxs (wd s) = frames_for (Z.to_nat (chunk (cn s))) (pd (cn s)) rs ++ []).
  { vm_compute in E. injection E as <-. vm_compute. reflexivity. }
  destruct (wait_delivers s rs [] 1%nat k1 0 (body_of 10) [] H) as (d & s' & Ew & (Hb & Hf & _) & Hr & _);
    try exact Hacc; try exact Hrx; try exact B4; try (rewrite Ek; reflexivity); try (vm_compute in E; injection E as <-; (reflexivity || (split; reflexivity))).
  exists d, s'. rewrite B2 in Ew. split; [reflexivity|]. split; [exact Ew|]. split; [exact Hb|]. split; [exact Hf|exact Hr].
Defined.

(** The older call is waited for last. *)
Lemma wait_stored_witness :
  exists s d s', run_state (two_calls ++ [OWait 1 2; ORelease (mkDec SNil false false true 1 1)]) (start two_responses) = Some s /\
    Wait (Some 0%nat) 1 s = Ret (d, None) s' /\ content (pd (cn s')) (d_Body d) = body_of 150 /\ d_Fail d = true.
Proof.
  destruct (run_state (two_calls ++ [OWait 1 2; ORelease (mkDec SNil false false true 1 1)]) (start two_responses)) as [s|] eqn:E; [|vm_compute in E; discriminate].
  assert (H : reachable true s) by (eapply run_state_reachable; [apply (start_reachable _ two_responses_ok)|exact E]). exists s.
  assert (Hk : exists k, calls (pd (cn s)) !! 0%nat = Some k /\ c_id k = 1 /\ c_pending k = true /\ stored (pd (cn s)) 0 flagFail (body_of 150) /\
    rxOpen (cn s) = false /\ quiet_world s).
  { vm_compute in E. injection E as <-. eexists. split; [reflexivity|]. split; [reflexivity|]. split; [reflexivity|]. split; [|split; [reflexivity|split; reflexivity]].
    eexists. split; [reflexivity|]. split; [reflexivity|]. split; [reflexivity|]. split; [reflexivity|]. split; [vm_compute; reflexivity|].
    intros a n Ea. injection Ea as <- <-. eexists. reflexivity. }
  destruct Hk as (k & Hr & Hid & Hp & Hs & Ho & Hw). destruct (wait_stored s 0 k flagFail (body_of 150) H Hr Hp Hs Ho Hw) as (d & s' & Ew & (Hb & Hf & _) & _).
  exists d, s'. rewrite Hid in Ew. split; [reflexivity|]. split; [exact Ew|]. split; [exact Hb|exact Hf].
Defined.

(** A response that is open survives the release of another one. *)
Lemma response_stays_witness :
  exists s s' a, run_state (two_calls ++ [OWait 1 2]) (start two_responses) = Some s /\
    run_op (ORelease (mkDec SNil false false true 9 1)) s = Ret a s' /\ undisturbed s s'.
Proof.
  destruct (run_state (two_calls ++ [OWait 1 2]) (start two_responses)) as [s|] eqn:E; [|vm_compute in E; discriminate].
  assert (H : reachable true s) by (eapply run_state_reachable; [apply (start_reachable _ two_responses_ok)|exact E]). exists s.
  destruct (run_op (ORelease (mkDec SNil false false true 9 1)) s) as [a s'| | |] eqn:Er; [|vm_compute in E; injection E as <-; vm_compute in Er; discriminate..].
  exists s', a. split; [reflexivity|]. split; [reflexivity|].
  refine (proj1 (response_stays true s s' (ORelease (mkDec SNil false false true 9 1)) a H _ _ Er)); vm_compute in E; injection E as <-; [reflexivity|].
  intros d Hd _. injection Hd as <-. discriminate.
Defined.

(** The first frame of a response of 200 bytes, a deadline, and the rest. *)
Definition cut_response : list (result error (bytes * option error)) :=
  match response_frames 1 0 (body_of 200) with f :: fs => f :: Err ErrTimeout :: fs | [] => [] end.

(** C39. A panic. The server answers a call with the two frames of a correct
    response. [Sync] reads the first one, runs into its deadline and returns
    the timeout; the session is not broken and the call is still pending, as
    documented. But the first frame was read to be discarded, so no buffer was
    made for the response, and [Wait] on the call, which reads the second
    frame to keep it, slices that buffer out of range and panics. (The call is a
    new one; a recycled call whose old buffer is long enough does not panic.) *)
Theorem sync_timeout_panics :
  exists s s' e, run_state [OBegin 1 0 200; OSubmit] (start cut_response) = Some s /\ reachable true s /\
    run_op OSync s = Ret (AErr (Some e)) s' /\ rt_is e (hqq ErrTimeout) = true /\
    broken (cn s') = None /\ (exists k, calls (pd (cn s')) !! 0%nat = Some k /\ c_id k = 1 /\ c_pending k = true) /\
    run_op (OWait 0 1) s' = Panic.
Proof.
  destruct (run_state [OBegin 1 0 200; OSubmit] (start cut_response)) as [s|] eqn:E; [|vm_compute in E; discriminate].
  assert (H : reachable true s).
  { eapply run_state_reachable; [|exact E]. apply start_reachable, frames_check. vm_compute. reflexivity. }
  vm_compute in E. injection E as <-. do 3 eexists. split; [vm_compute; reflexivity|]. split; [exact H|]. split; [vm_compute; reflexivity|].
  split; [vm_compute; reflexivity|]. split; [reflexivity|]. split; [eexists; split; [reflexivity|split; reflexivity]|]. vm_compute. reflexivity.
Qed.
