(* ===== verification/Serve.v ===== *)
(** * Serve: the goroutines of an RPC server

    Models [Serve] of rpc.go with its receiver, its watchdog and its workers,
    one atomic access, channel operation or goroutine start at a time. One
    goroutine, the receiver, takes requests. It runs a handler itself while no
    other handler runs; a timer callback, the watchdog, passes the role of the
    receiver to a new goroutine when that handler takes too long; and while
    handlers run elsewhere the receiver hands requests to workers. A call of
    [respond] is one step that marks its request as answered; what it sends,
    if anything, is in Response. *)
From S2P Require Import Prelude Errors.

Definition phaseHandling : Z := 1.
Definition phaseEscalated : Z := 2.
Definition phaseDone : Z := 3.
Definition phaseMask : Z := 3.

(** Where a goroutine is. A request is a number; [h] is the state word of the
    inline run it belongs to, [t0] the start time read for it (kept for the
    statements; the code stores it in [startNs]). The result of the receive
    loop is [r]. *)
Inductive pc :=
(* run *)
| RRecv                                (* in receiveQueued *)
| RGot (m : nat)                       (* has a request, before len(s.slots) *)
| RInline (m : nat)                    (* before s.epoch++ and the clock *)
| RStart (m : nat) (h t0 : Z)          (* before startNs.Store *)
| RStore (m : nat) (h t0 : Z)          (* before state.Store *)
| RStored (m : nat) (h t0 : Z)         (* before armed.Load *)
| RArm (m : nat) (h t0 : Z)            (* in arm, before the swap *)
| RReset (m : nat) (h t0 : Z)          (* in arm, before timer.Reset *)
| RHandle (m : nat) (h t0 : Z)         (* the handler runs *)
| RReturned (m : nat) (h t0 : Z)       (* before the swap of state *)
| RRespond (m : nat)                   (* in respond, still the receiver *)
| RGiveBack (m : nat)                  (* escalated, before <-s.slots *)
| RLast (m : nat)                      (* escalated, in respond *)
(* dispatch *)
| DSlot (m : nat)                      (* before the slot *)
| DOffer (m : nat)                     (* before the send that does not wait *)
| DStart (m : nat)                     (* before s.started < s.max *)
| DWait (m : nat)                      (* in the last select *)
| DUndo (m : nat)                      (* context ended, before <-s.slots *)
(* the end of receiving *)
| SStop (r : option error)             (* before stopped.Store *)
| SWatch (r : option error)            (* in stopWatch, before armed.Load *)
| STimer (r : option error)            (* in stopWatch, before timer.Stop *)
| SCancel (r : option error)           (* before cancelServerRequests *)
| SResult (r : option error)           (* receiver: before the send of the result *)
| SClose                               (* receiver: before close(work) *)
| MClose (r : option error)            (* serve: before close(work) *)
| JResult                              (* serve: waits for the result *)
| JWait (r : option error)             (* serve: in wg.Wait *)
| Returned (r : option error)          (* Serve returned *)
(* worker *)
| WRun (m : nat)                       (* the handler runs *)
| WRelease (m : nat)                   (* before <-s.slots *)
| WRespond (m : nat)                   (* in respond *)
| WIdle                                (* receiving from work *)
| Gone.                                (* the goroutine ended *)

(** Where an execution of [watch] is; [st] is the state word it saw. *)
Inductive watch_pc :=
| WaTop                                (* before stopped.Load *)
| WaQuit                               (* stopped, before armed.Store *)
| WaLoad                               (* before state.Load *)
| WaClock (st : Z)                     (* before the clock *)
| WaAge (st : Z) (t : Z)               (* before startNs.Load *)
| WaReset (d : Z)                      (* before the final timer.Reset *)
| WaEsc (st : Z)                       (* in escalate, before the slot *)
| WaCas (st : Z)                       (* before the swap of state *)
| WaUndo (st : Z)                      (* the swap failed, before <-s.slots *)
| WaRetry (st : Z)                     (* escalate failed, before state.Load *)
| WaSpawn                              (* before wg.Add and the go statement *)
| WaDisarm                             (* before armed.Store(false) *)
| WaCheck1                             (* before the second stopped.Load *)
| WaCheck2                             (* before the second state.Load *)
| WaCheck3                             (* before the swap of armed *)
| WaGone.

#[export] Instance watch_pc_eq_dec : EqDecision watch_pc.
Proof. solve_decision. Defined.

Record server := mkServer {
  max : Z;
  limit : Z;   (* inlineLimit *)
  now : Z;   (* the monotonic clock, since base *)
  ctx : option error;   (* the error of the Serve context once it ended *)
  serveStopped : bool;   (* of the link: Shutdown completed *)
  slots : Z;   (* tokens in the channel, capacity [max] *)
  work_closed : bool;
  sresult : option (option error);   (* the channel, capacity one *)
  stopped : bool;
  timer : option Z;   (* when the timer fires, if it is scheduled *)
  state : Z;   (* epoch<<2 | phase of the inline run *)
  startNs : Z;
  armed : bool;
  epoch : Z;
  started : Z;   (* worker goroutines started *)
  wg : Z;
  threads : list pc;   (* Serve's own goroutine first *)
  watches : list watch_pc;   (* executions of the timer callback *)
  arrived : nat;   (* requests taken from the queue *)
  answered : list nat;   (* responded to, in that order *)
  dropped : list nat   (* released unanswered because the context ended *)
}.

(** *** Field updates *)

Definition set_now (v : Z) (s : server) : server :=
  mkServer (max s) (limit s) v (ctx s) (serveStopped s) (slots s) (work_closed s) (sresult s) (stopped s) (timer s) (state s) (startNs s) (armed s) (epoch s) (started s) (wg s) (threads s) (watches s) (arrived s) (answered s) (dropped s).
Definition set_ctx (v : option error) (s : server) : server :=
  mkServer (max s) (limit s) (now s) v (serveStopped s) (slots s) (work_closed s) (sresult s) (stopped s) (timer s) (state s) (startNs s) (armed s) (epoch s) (started s) (wg s) (threads s) (watches s) (arrived s) (answered s) (dropped s).
Definition set_serveStopped (v : bool) (s : server) : server :=
  mkServer (max s) (limit s) (now s) (ctx s) v (slots s) (work_closed s) (sresult s) (stopped s) (timer s) (state s) (startNs s) (armed s) (epoch s) (started s) (wg s) (threads s) (watches s) (arrived s) (answered s) (dropped s).
Definition set_slots (v : Z) (s : server) : server :=
  mkServer (max s) (limit s) (now s) (ctx s) (serveStopped s) v (work_closed s) (sresult s) (stopped s) (timer s) (state s) (startNs s) (armed s) (epoch s) (started s) (wg s) (threads s) (watches s) (arrived s) (answered s) (dropped s).
Definition set_work_closed (v : bool) (s : server) : server :=
  mkServer (max s) (limit s) (now s) (ctx s) (serveStopped s) (slots s) v (sresult s) (stopped s) (timer s) (state s) (startNs s) (armed s) (epoch s) (started s) (wg s) (threads s) (watches s) (arrived s) (answered s) (dropped s).
Definition set_sresult (v : option (option error)) (s : server) : server :=
  mkServer (max s) (limit s) (now s) (ctx s) (serveStopped s) (slots s) (work_closed s) v (stopped s) (timer s) (state s) (startNs s) (armed s) (epoch s) (started s) (wg s) (threads s) (watches s) (arrived s) (answered s) (dropped s).
Definition set_stopped (v : bool) (s : server) : server :=
  mkServer (max s) (limit s) (now s) (ctx s) (serveStopped s) (slots s) (work_closed s) (sresult s) v (timer s) (state s) (startNs s) (armed s) (epoch s) (started s) (wg s) (threads s) (watches s) (arrived s) (answered s) (dropped s).
Definition set_timer (v : option Z) (s : server) : server :=
  mkServer (max s) (limit s) (now s) (ctx s) (serveStopped s) (slots s) (work_closed s) (sresult s) (stopped s) v (state s) (startNs s) (armed s) (epoch s) (started s) (wg s) (threads s) (watches s) (arrived s) (answered s) (dropped s).
Definition set_state (v : Z) (s : server) : server :=
  mkServer (max s) (limit s) (now s) (ctx s) (serveStopped s) (slots s) (work_closed s) (sresult s) (stopped s) (timer s) v (startNs s) (armed s) (epoch s) (started s) (wg s) (threads s) (watches s) (arrived s) (answered s) (dropped s).
Definition set_startNs (v : Z) (s : server) : server :=
  mkServer (max s) (limit s) (now s) (ctx s) (serveStopped s) (slots s) (work_closed s) (sresult s) (stopped s) (timer s) (state s) v (armed s) (epoch s) (started s) (wg s) (threads s) (watches s) (arrived s) (answered s) (dropped s).
Definition set_armed (v : bool) (s : server) : server :=
  mkServer (max s) (limit s) (now s) (ctx s) (serveStopped s) (slots s) (work_closed s) (sresult s) (stopped s) (timer s) (state s) (startNs s) v (epoch s) (started s) (wg s) (threads s) (watches s) (arrived s) (answered s) (dropped s).
Definition set_epoch (v : Z) (s : server) : server :=
  mkServer (max s) (limit s) (now s) (ctx s) (serveStopped s) (slots s) (work_closed s) (sresult s) (stopped s) (timer s) (state s) (startNs s) (armed s) v (started s) (wg s) (threads s) (watches s) (arrived s) (answered s) (dropped s).
Definition set_started (v : Z) (s : server) : server :=
  mkServer (max s) (limit s) (now s) (ctx s) (serveStopped s) (slots s) (work_closed s) (sresult s) (stopped s) (timer s) (state s) (startNs s) (armed s) (epoch s) v (wg s) (threads s) (watches s) (arrived s) (answered s) (dropped s).
Definition set_wg (v : Z) (s : server) : server :=
  mkServer (max s) (limit s) (now s) (ctx s) (serveStopped s) (slots s) (work_closed s) (sresult s) (stopped s) (timer s) (state s) (startNs s) (armed s) (epoch s) (started s) v (threads s) (watches s) (arrived s) (answered s) (dropped s).
Definition set_threads (v : list pc) (s : server) : server :=
  mkServer (max s) (limit s) (now s) (ctx s) (serveStopped s) (slots s) (work_closed s) (sresult s) (stopped s) (timer s) (state s) (startNs s) (armed s) (epoch s) (started s) (wg s) v (watches s) (arrived s) (answered s) (dropped s).
Definition set_watches (v : list watch_pc) (s : server) : server :=
  mkServer (max s) (limit s) (now s) (ctx s) (serveStopped s) (slots s) (work_closed s) (sresult s) (stopped s) (timer s) (state s) (startNs s) (armed s) (epoch s) (started s) (wg s) (threads s) v (arrived s) (answered s) (dropped s).
Definition set_arrived (v : nat) (s : server) : server :=
  mkServer (max s) (limit s) (now s) (ctx s) (serveStopped s) (slots s) (work_closed s) (sresult s) (stopped s) (timer s) (state s) (startNs s) (armed s) (epoch s) (started s) (wg s) (threads s) (watches s) v (answered s) (dropped s).
Definition set_answered (v : list nat) (s : server) : server :=
  mkServer (max s) (limit s) (now s) (ctx s) (serveStopped s) (slots s) (work_closed s) (sresult s) (stopped s) (timer s) (state s) (startNs s) (armed s) (epoch s) (started s) (wg s) (threads s) (watches s) (arrived s) v (dropped s).
Definition set_dropped (v : list nat) (s : server) : server :=
  mkServer (max s) (limit s) (now s) (ctx s) (serveStopped s) (slots s) (work_closed s) (sresult s) (stopped s) (timer s) (state s) (startNs s) (armed s) (epoch s) (started s) (wg s) (threads s) (watches s) (arrived s) (answered s) v.

(** ** Steps *)

Definition set_pc (t : nat) (p : pc) (s : server) : server := set_threads (<[t := p]> (threads s)) s.
Definition set_watch (i : nat) (p : watch_pc) (s : server) : server := set_watches (<[i := p]> (watches s)) s.

Definition is_handling (st : Z) : bool := Z.land st phaseMask =? phaseHandling.
Definition with_phase (st phase : Z) : Z := Z.lor (and_not st phaseMask) phase.

(** [newServer] for a link of [n] buffers, and [serve] at its start. *)
Definition newServer (n limit : Z) : server :=
  mkServer (Z.max n 1) limit 0 None false 0 false None false None 0 0 false 0 0 0 [RRecv] [] 0 [] [].

(** [Serve]: the checks in front, [None] when the call returns at once. *)
Definition Serve (handler : bool) (feature : option error) (stopped : bool) (n limit : Z) : result (option error) server :=
  if negb handler then Err (Some ErrInvalidOp)
  else match feature with
       | Some e => Err (Some e)
       | None => if stopped then Err None else Ok (newServer n limit)
       end.

Definition mapError (s : server) (err : error) : option error :=
  match ctx s with
  | Some e => Some e
  | None => if serveStopped s then None else if errors_is err ErrPeerClosed then None else Some err
  end.

(** What a goroutine does next where it has a choice: go on; receive an error
    instead of a request; take the context's end; hand the request to the
    idle worker [w]. *)
Inductive move := Go | Fail (e : error) | CtxDone | Hand (w : nat).

Definition idle (w : nat) (s : server) : bool :=
  match threads s !! w with Some WIdle => true | _ => false end.

Definition no_idle (s : server) : bool :=
  forallb (fun p => match p with WIdle => false | _ => true end) (threads s).

(** A goroutine ends; all but Serve's own are counted in [wg]. *)
Definition exit (t : nat) (s : server) : server := set_wg (wg s - 1) (set_pc t Gone s).

(** One access of goroutine [t]; [None]: not enabled, or it waits. *)
Definition thread_step (t : nat) (mv : move) (s : server) : option server :=
  match threads s !! t, mv with
  (* run *)
  | Some RRecv, Go => Some (set_arrived (S (arrived s)) (set_pc t (RGot (arrived s)) s))
  | Some RRecv, Fail e => Some (set_pc t (SStop (mapError s e)) s)
  | Some (RGot m), Go => Some (set_pc t (if negb (slots s =? 0) then DSlot m else RInline m) s)
  | Some (RInline m), Go =>
      let e := u64 (epoch s + 1) in
      Some (set_epoch e (set_pc t (RStart m (Z.lor (u64 (Z.shiftl e 2)) phaseHandling) (now s)) s))
  | Some (RStart m h t0), Go => Some (set_startNs t0 (set_pc t (RStore m h t0) s))
  | Some (RStore m h t0), Go => Some (set_state h (set_pc t (RStored m h t0) s))
  | Some (RStored m h t0), Go => Some (set_pc t (if negb (armed s) then RArm m h t0 else RHandle m h t0) s)
  | Some (RArm m h t0), Go =>
      Some (if armed s then set_pc t (RHandle m h t0) s else set_armed true (set_pc t (RReset m h t0) s))
  | Some (RReset m h t0), Go => Some (set_timer (Some (now s + limit s)) (set_pc t (RHandle m h t0) s))
  | Some (RHandle m h t0), Go => Some (set_pc t (RReturned m h t0) s)
  | Some (RReturned m h t0), Go =>
      Some (if state s =? h then set_state (with_phase h phaseDone) (set_pc t (RRespond m) s)
            else set_pc t (RGiveBack m) s)
  | Some (RRespond m), Go => Some (set_answered (answered s ++ [m]) (set_pc t RRecv s))
  | Some (RGiveBack m), Go => if 0 <? slots s then Some (set_slots (slots s - 1) (set_pc t (RLast m) s)) else None
  | Some (RLast m), Go =>
      let s := set_answered (answered s ++ [m]) s in
      Some (if (t =? 0)%nat then set_pc t JResult s else exit t s)
  (* dispatch *)
  | Some (DSlot m), Go => if slots s <? max s then Some (set_slots (slots s + 1) (set_pc t (DOffer m) s)) else None
  | Some (DSlot m), CtxDone =>
      match ctx s with
      | Some e => Some (set_dropped (dropped s ++ [m]) (set_pc t (SStop (Some e)) s))
      | None => None
      end
  | Some (DOffer m), Hand w => if idle w s then Some (set_pc w (WRun m) (set_pc t RRecv s)) else None
  | Some (DOffer m), Go => if no_idle s then Some (set_pc t (DStart m) s) else None
  | Some (DStart m), Go =>
      if started s <? max s then
        let s := set_started (started s + 1) (set_wg (wg s + 1) (set_pc t RRecv s)) in
        Some (set_threads (threads s ++ [WRun m]) s)
      else Some (set_pc t (DWait m) s)
  | Some (DWait m), Hand w => if idle w s then Some (set_pc w (WRun m) (set_pc t RRecv s)) else None
  | Some (DWait m), CtxDone => match ctx s with Some _ => Some (set_pc t (DUndo m) s) | None => None end
  | Some (DUndo m), Go =>
      if 0 <? slots s then
        Some (set_dropped (dropped s ++ [m]) (set_slots (slots s - 1) (set_pc t (SStop (ctx s)) s)))
      else None
  (* the end of receiving *)
  | Some (SStop r), Go => Some (set_stopped true (set_pc t (SWatch r) s))
  | Some (SWatch r), Go => Some (set_pc t (if armed s then STimer r else SCancel r) s)
  | Some (STimer r), Go =>
      Some (match timer s with
            | Some _ => set_timer None (set_pc t (SCancel r) s)
            | None => set_pc t (SWatch r) s
            end)
  | Some (SCancel r), Go => Some (set_pc t (if (t =? 0)%nat then MClose r else SResult r) s)
  | Some (SResult r), Go =>
      match sresult s with None => Some (set_sresult (Some r) (set_pc t SClose s)) | Some _ => None end
  | Some SClose, Go => if work_closed s then None else Some (set_work_closed true (exit t s))
  | Some (MClose r), Go => if work_closed s then None else Some (set_work_closed true (set_pc t (JWait r) s))
  | Some JResult, Go =>
      match sresult s with Some r => Some (set_sresult None (set_pc t (JWait r) s)) | None => None end
  | Some (JWait r), Go => if wg s =? 0 then Some (set_pc t (Returned r) s) else None
  (* worker *)
  | Some (WRun m), Go => Some (set_pc t (WRelease m) s)
  | Some (WRelease m), Go => if 0 <? slots s then Some (set_slots (slots s - 1) (set_pc t (WRespond m) s)) else None
  | Some (WRespond m), Go => Some (set_answered (answered s ++ [m]) (set_pc t WIdle s))
  | Some WIdle, Go => if work_closed s then Some (exit t s) else None
  | _, _ => None
  end.

(** One access of execution [i] of [watch]. *)
Definition watch_step (i : nat) (s : server) : option server :=
  match watches s !! i with
  | Some WaTop => Some (set_watch i (if stopped s then WaQuit else WaLoad) s)
  | Some WaQuit => Some (set_armed false (set_watch i WaGone s))
  | Some WaLoad => Some (set_watch i (if is_handling (state s) then WaClock (state s) else WaDisarm) s)
  | Some (WaClock st) => Some (set_watch i (WaAge st (now s)) s)
  | Some (WaAge st t) =>
      let wait := limit s - (t - startNs s) in
      Some (set_watch i (if 0 <? wait then WaReset wait else WaEsc st) s)
  | Some (WaReset d) => Some (set_timer (Some (now s + d)) (set_watch i WaGone s))
  | Some (WaEsc st) =>
      Some (if slots s <? max s then set_slots (slots s + 1) (set_watch i (WaCas st) s) else set_watch i (WaRetry st) s)
  | Some (WaCas st) =>
      Some (if state s =? st then set_state (with_phase st phaseEscalated) (set_watch i WaSpawn s)
            else set_watch i (WaUndo st) s)
  | Some (WaUndo st) => if 0 <? slots s then Some (set_slots (slots s - 1) (set_watch i (WaRetry st) s)) else None
  | Some (WaRetry st) => Some (set_watch i (if state s =? st then WaReset (limit s) else WaTop) s)
  | Some WaSpawn => Some (set_wg (wg s + 1) (set_threads (threads s ++ [RRecv]) (set_watch i WaTop s)))
  | Some WaDisarm => Some (set_armed false (set_watch i WaCheck1 s))
  | Some WaCheck1 => Some (set_watch i (if stopped s then WaGone else WaCheck2) s)
  | Some WaCheck2 => Some (set_watch i (if is_handling (state s) then WaCheck3 else WaGone) s)
  | Some WaCheck3 => Some (if armed s then set_watch i WaGone s else set_armed true (set_watch i WaTop s))
  | _ => None
  end.

(** The environment: time passes, the timer fires, the context ends,
    [Shutdown] completes. *)
Inductive server_step : server -> server -> Prop :=
| ss_thread s t mv s' : thread_step t mv s = Some s' -> server_step s s'
| ss_watch s i s' : watch_step i s = Some s' -> server_step s s'
| ss_tick s d : 0 <= d -> server_step s (set_now (now s + d) s)
| ss_fire s d : timer s = Some d -> d <= now s -> server_step s (set_timer None (set_watches (watches s ++ [WaTop]) s))
| ss_ctx s e : ctx s = None -> server_step s (set_ctx (Some e) s)
| ss_shutdown s : server_step s (set_serveStopped true s).

(** ** Invariant *)

(** The request a goroutine carries. *)
Definition req (p : pc) : list nat :=
  match p with
  | RGot m | RInline m | RStart m _ _ | RStore m _ _ | RStored m _ _ | RArm m _ _ | RReset m _ _ | RHandle m _ _
  | RReturned m _ _ | RRespond m | RGiveBack m | RLast m | DSlot m | DOffer m | DStart m | DWait m | DUndo m
  | WRun m | WRelease m | WRespond m => [m]
  | _ => []
  end.

(** The inline run of a goroutine past [state.Store]. *)
Definition inline_run (p : pc) : option (Z * Z) :=
  match p with
  | RStored _ h t0 | RArm _ h t0 | RReset _ h t0 | RHandle _ h t0 | RReturned _ h t0 => Some (h, t0)
  | _ => None
  end.

Definition inlines (p : pc) : bool := match inline_run p with Some _ => true | None => false end.

(** An inline run that is still the receiver's, and one that was escalated. *)
Definition current (st : Z) (p : pc) : bool := match inline_run p with Some (h, _) => h =? st | None => false end.
Definition escalated (st : Z) (p : pc) : bool := match inline_run p with Some (h, _) => negb (h =? st) | None => false end.

(** Points between the look at the slots and [state.Store]. *)
Definition preparing (p : pc) : bool := match p with RInline _ | RStart _ _ _ | RStore _ _ _ => true | _ => false end.

(** Points in the end of receiving, past [stopped.Store]. *)
Definition ending (p : pc) : bool :=
  match p with SWatch _ | STimer _ | SCancel _ | SResult _ | SClose | MClose _ => true | _ => false end.

(** Points behind [stopWatch]. *)
Definition swept (p : pc) : bool :=
  match p with SCancel _ | SResult _ | SClose | MClose _ => true | _ => false end.

(** Points at which a goroutine has the role of the receiver, inline runs
    apart. *)
Definition has_role (p : pc) : bool :=
  match p with
  | RRecv | RGot _ | RRespond _ | DSlot _ | DOffer _ | DStart _ | DWait _ | DUndo _ | SStop _ => true
  | _ => preparing p || ending p
  end.

Definition holds_slot (p : pc) : bool :=
  match p with RGiveBack _ | DOffer _ | DStart _ | DWait _ | DUndo _ | WRun _ | WRelease _ => true | _ => false end.

Definition resetting (p : pc) : bool := match p with RReset _ _ _ => true | _ => false end.
Definition is_worker (p : pc) : bool := match p with WRun _ | WRelease _ | WRespond _ | WIdle => true | _ => false end.
Definition live (p : pc) : bool := match p with Gone => false | _ => true end.
Definition closing (p : pc) : bool := match p with SClose => true | _ => false end.
Definition is_returned (p : pc) : bool := match p with Returned _ => true | _ => false end.
Definition joined (p : pc) : bool := match p with JWait _ | Returned _ => true | _ => false end.

(** Executions of [watch] that have not given up [armed]. *)
Definition on_watch (p : watch_pc) : bool :=
  match p with WaCheck1 | WaCheck2 | WaCheck3 | WaGone => false | _ => true end.
Definition w_holds_slot (p : watch_pc) : bool := match p with WaCas _ | WaUndo _ => true | _ => false end.
Definition w_spawns (p : watch_pc) : bool := match p with WaSpawn => true | _ => false end.
Definition w_checks (p : watch_pc) : bool := match p with WaCheck1 | WaCheck2 | WaCheck3 => true | _ => false end.

Definition one (b : bool) : Z := if b then 1 else 0.
Definition is_some {A} (o : option A) : bool := match o with Some _ => true | None => false end.

(** A state word of epoch [e] in which a handler runs. *)
Definition run_word (e : Z) : Z := 4 * e + 1.

(** Somebody will look at the state word, or at the timer that is set. *)
Definition watched (s : server) : Prop := armed s = true \/ exists p, p ∈ watches s /\ w_checks p = true.

Definition thread_ok (s : server) (p : pc) : Prop :=
  match p with
  | RStart _ h t0 => h = run_word (epoch s) /\ state s < 4 * epoch s
  | RStore _ h t0 => h = run_word (epoch s) /\ state s < 4 * epoch s /\ startNs s = t0
  | RStored _ h t0 | RArm _ h t0 | RReset _ h t0 =>
      (exists e, h = run_word e) /\ h <= state s /\ (h = state s -> startNs s = t0)
  | RHandle _ h t0 | RReturned _ h t0 =>
      (exists e, h = run_word e) /\ h <= state s /\
      (h = state s -> startNs s = t0 /\ watched s)
  | DWait _ => max s <= started s
  | DUndo _ => ctx s <> None
  | _ => True
  end.

Definition watch_ok (s : server) (p : watch_pc) : Prop :=
  match p with
  | WaQuit => stopped s = true
  | WaClock st => (exists e, st = run_word e) /\ st <= state s
  | WaAge st t => (exists e, st = run_word e) /\ st <= state s /\ t <= now s
  | WaEsc st | WaCas st => (exists e, st = run_word e) /\ st <= state s /\ (st = state s -> startNs s + limit s <= now s)
  | WaUndo st | WaRetry st => st < state s
  | _ => True
  end.

Record server_inv (s : server) : Prop := {
  sv_max : 1 <= max s;
  sv_epoch : 0 <= epoch s < 2 ^ 61 /\ 0 <= state s < 4 * epoch s + 4;
  (* one goroutine has the role of the receiver, until receiving ended *)
  sv_role : countb has_role (threads s) + countb (current (state s)) (threads s) + countb w_spawns (watches s)
            + one (work_closed s) = 1;
  sv_current : countb (current (state s)) (threads s) = one (is_handling (state s));
  sv_slots : slots s = countb holds_slot (threads s) + countb (escalated (state s)) (threads s)
                       + countb w_holds_slot (watches s);
  sv_cap : slots s <= max s;
  sv_inline : countb preparing (threads s) + countb (current (state s)) (threads s) = 1 ->
    countb holds_slot (threads s) + countb (escalated (state s)) (threads s) = 0;
  sv_stop : one (stopped s) = countb ending (threads s) + one (work_closed s);
  sv_armed : one (is_some (timer s)) + countb resetting (threads s) + countb on_watch (watches s) <= one (armed s);
  (* until [stopWatch] returned, whoever set [armed] still answers for it *)
  sv_armed_eq : countb swept (threads s) + one (work_closed s) = 0 ->
    one (is_some (timer s)) + countb resetting (threads s) + countb on_watch (watches s) = one (armed s);
  sv_workers : work_closed s = false -> countb is_worker (threads s) = started s;
  sv_wg : wg s = countb live (threads s) - 1;
  sv_joined : one (is_some (sresult s)) + countb joined (threads s) = countb closing (threads s) + one (work_closed s);
  sv_returned : 0 < countb is_returned (threads s) -> countb live (threads s) = 1;
  sv_requests : answered s ++ dropped s ++ (threads s ≫= req) ≡ₚ seq 0 (arrived s);
  sv_dropped : dropped s <> [] -> ctx s <> None;
  sv_threads : Forall (thread_ok s) (threads s);
  sv_watches : Forall (watch_ok s) (watches s)
}.

(** *** State words *)

Lemma is_handling_mod st : is_handling st = (st mod 4 =? 1).
Proof. unfold is_handling, phaseMask, phaseHandling. change 3 with (Z.ones 2). by rewrite Z.land_ones. Qed.

Lemma run_word_handling e : is_handling (run_word e) = true.
Proof. rewrite is_handling_mod. unfold run_word. apply Z.eqb_eq. zlia. Qed.

Lemma handling_run_word st : is_handling st = true -> exists e, st = run_word e.
Proof. rewrite is_handling_mod. intros E. breflect. exists (st / 4). unfold run_word. zlia. Qed.

Lemma lor_low e p : 0 <= p < 4 -> Z.lor (e * 4) p = 4 * e + p.
Proof.
  intros Hp. rewrite <- Z.add_nocarry_lor; [lia|].
  apply Z.bits_inj'. intros i Hi. rewrite Z.land_spec, Z.bits_0. change 4 with (2 ^ 2). rewrite Z.mul_pow2_bits by lia.
  destruct (Z.ltb_spec i 2).
  - by rewrite Z.testbit_neg_r by lia.
  - assert (2 ^ 2 <= 2 ^ i) by (apply Z.pow_le_mono_r; lia).
    rewrite (proj2 (Z.testbit_false p i Hi)), andb_false_r; [done|]. by rewrite Z.div_small by lia.
Qed.

Lemma with_phase_run e p : 0 <= p < 4 -> with_phase (run_word e) p = 4 * e + p.
Proof.
  intros Hp. unfold with_phase, and_not, phaseMask, run_word. change 3 with (Z.ones 2).
  rewrite Z.ldiff_ones_r, Z.shiftr_div_pow2, Z.shiftl_mul_pow2 by lia. change (2 ^ 2) with 4.
  replace ((4 * e + 1) / 4) with e by zlia. by apply lor_low.
Qed.

Lemma new_run_word e : 0 <= e < 2 ^ 61 -> Z.lor (u64 (Z.shiftl (u64 e) 2)) phaseHandling = run_word e.
Proof.
  intros H. rewrite (u64_small e) by (unfold word; lia). rewrite Z.shiftl_mul_pow2 by lia. change (2 ^ 2) with 4.
  rewrite u64_small by (unfold word; lia). by apply lor_low.
Qed.

Lemma not_handling_run e p : p = phaseDone \/ p = phaseEscalated -> is_handling (with_phase (run_word e) p) = false.
Proof.
  intros [->| ->]; rewrite with_phase_run by (unfold phaseDone, phaseEscalated; lia); rewrite is_handling_mod;
    unfold phaseDone, phaseEscalated; apply Z.eqb_neq; zlia.
Qed.

(** *** Counting *)

Lemma inline_split st l : countb (escalated st) l = countb inlines l - countb (current st) l.
Proof.
  induction l as [|p l IH]; [done|]. rewrite !countb_cons, IH. unfold escalated, inlines, current.
  destruct (inline_run p) as [[h t0]|]; [|lia]. destruct (h =? st); simpl; lia.
Qed.

Lemma one_range b : 0 <= one b <= 1.
Proof. by destruct b. Qed.

Lemma one_mono a b : (a = true -> b = true) -> one a <= one b.
Proof. intros H. destruct a, b; try done. by specialize (H eq_refl). Qed.

Lemma countb_snoc {A} (f : A -> bool) l y : countb f (l ++ [y]) = countb f l + one (f y).
Proof. rewrite countb_app, countb_cons, countb_nil. unfold one. lia. Qed.

Lemma countb_unique {A} (f : A -> bool) l t x i p :
  countb f l <= 1 -> l !! t = Some x -> f x = true -> l !! i = Some p -> i <> t -> f p = false.
Proof.
  intros Hc Ht Hx Hi Hne. destruct (f p) eqn:Ep; [|done].
  assert (Hlt : (t < length l)%nat) by (by eapply lookup_lt_Some).
  rewrite <- (take_drop_middle l t x Ht), countb_app, countb_cons, Hx in Hc.
  assert (Hin : p ∈ take t l \/ p ∈ drop (S t) l).
  { rewrite <- (take_drop_middle l t x Ht) in Hi. apply lookup_app_Some in Hi as [Hi|[Hge Hi]].
    - left. by eapply list_elem_of_lookup_2.
    - right. rewrite length_take_le in * by lia. destruct (i - t)%nat as [|k] eqn:Ek; [lia|]. simpl in Hi. by eapply list_elem_of_lookup_2. }
  pose proof (countb_nonneg f (take t l)). pose proof (countb_nonneg f (drop (S t) l)).
  destruct Hin as [Hin|Hin]; pose proof (countb_pos f _ _ Hin Ep); lia.
Qed.

Lemma countb_mono {A} (p q : A -> bool) l : (forall z, p z = true -> q z = true) -> countb p l <= countb q l.
Proof.
  intros Hpq. induction l as [|z l IH]; [done|]. rewrite !countb_cons. pose proof (one_mono _ _ (Hpq z)). unfold one in *. lia.
Qed.

Lemma countb_none {A} (f : A -> bool) l : (forall z, f z = false) -> countb f l = 0.
Proof. intros H. induction l as [|z l IH]; [done|]. by rewrite countb_cons, IH, H. Qed.

(** Of the goroutines other than [x], no more prepare a run than have the role. *)
Lemma count_others {A} (p q : A -> bool) l t x :
  (forall z, p z = true -> q z = true) -> l !! t = Some x -> countb p l + one (q x) <= countb q l + one (p x).
Proof.
  intros Hpq Ht. rewrite <- (take_drop_middle l t x) by done. rewrite !countb_app, !countb_cons.
  pose proof (countb_mono p q (take t l) Hpq). pose proof (countb_mono p q (drop (S t) l) Hpq). unfold one. lia.
Qed.

Lemma preparing_role p : preparing p = true -> has_role p = true.
Proof. by destruct p. Qed.

Lemma ending_role p : ending p = true -> has_role p = true.
Proof. by destruct p. Qed.

Lemma no_current s st l :
  Forall (thread_ok s) l -> (forall e, run_word e <= state s -> run_word e <> st) -> countb (current st) l = 0.
Proof.
  intros H Hst. induction H as [|p l Hp _ IH]; [done|]. rewrite countb_cons, IH.
  assert (E : current st p = false); [|by rewrite E].
  unfold current. destruct p; simpl in *; try done; destruct Hp as ((e & ->) & Hle & _); apply Z.eqb_neq; auto.
Qed.

Lemma requests_insert l t x y :
  l !! t = Some x -> req x ++ (<[t := y]> l ≫= req) ≡ₚ req y ++ (l ≫= req).
Proof.
  intros H. pose proof (lookup_lt_Some _ _ _ H) as Hlt. rewrite insert_take_drop by done.
  rewrite <- (take_drop_middle l t x H) at 3. rewrite !bind_app, !bind_cons.
  rewrite (Permutation_app_swap_app _ (req y)), (Permutation_app_swap_app _ (req x)). apply Permutation_app_swap_app.
Qed.

(** *** What the other threads rely on *)

Lemma thread_ok_same s s' p :
  epoch s' = epoch s -> state s' = state s -> startNs s' = startNs s -> max s' = max s -> started s <= started s' ->
  (ctx s <> None -> ctx s' <> None) -> (is_handling (state s) = true -> watched s -> watched s') ->
  thread_ok s p -> thread_ok s' p.
Proof.
  intros E1 E2 E3 E4 E5 E6 E7. destruct p; simpl; rewrite ?E1, ?E2, ?E3, ?E4; try done; try lia; try tauto;
  intros (He & Hle & H); (split; [exact He|split; [exact Hle|]]); intros E; destruct (H E) as [H1 H2]; (split; [exact H1|]);
  (apply E7; [|exact H2]); destruct He as [e He]; rewrite <- E, He; apply run_word_handling.
Qed.

Lemma watch_ok_same s s' p :
  state s' = state s -> startNs s' = startNs s -> limit s' = limit s -> now s <= now s' -> (stopped s = true -> stopped s' = true) ->
  watch_ok s p -> watch_ok s' p.
Proof.
  intros E1 E2 E3 E4 E5. destruct p; simpl; rewrite ?E1, ?E2, ?E3; try done; try tauto; try lia.
  - intros (? & ? & ?). split_and!; auto; lia.
  - intros (? & ? & H). split_and!; auto. intros E. specialize (H E). lia.
  - intros (? & ? & H). split_and!; auto. intros E. specialize (H E). lia.
Qed.

(** The state word moves on to one in which no handler runs. *)
Lemma thread_ok_past s s' p :
  is_handling (state s') = false -> state s <= state s' -> (state s < 4 * epoch s -> state s' < 4 * epoch s) ->
  epoch s' = epoch s -> startNs s' = startNs s -> max s' = max s -> started s' = started s -> ctx s' = ctx s ->
  thread_ok s p -> thread_ok s' p.
Proof.
  intros Hh Hle Hep E1 E3 E4 E5 E6.
  assert (Hrun : forall e, run_word e <> state s') by (intros e E; by rewrite <- E, run_word_handling in Hh).
  destruct p; simpl; rewrite ?E1, ?E3, ?E4, ?E5, ?E6; try tauto;
    intros ((e & ->) & Hx & _); split_and!; eauto; try lia; intros E; by apply Hrun in E.
Qed.

Lemma watch_ok_past s s' p :
  is_handling (state s') = false -> state s <= state s' -> now s' = now s -> stopped s' = stopped s ->
  watch_ok s p -> watch_ok s' p.
Proof.
  intros Hh Hle E1 E2.
  assert (Hrun : forall e, run_word e <> state s') by (intros e E; by rewrite <- E, run_word_handling in Hh).
  destruct p; simpl; rewrite ?E1, ?E2; try tauto; try lia.
  - intros ((e & ->) & Hx). split; eauto. lia.
  - intros ((e & ->) & Hx & Hy). split_and!; eauto. lia.
  - intros ((e & ->) & Hx & _). split_and!; eauto; [lia|]. intros E; by apply Hrun in E.
  - intros ((e & ->) & Hx & _). split_and!; eauto; [lia|]. intros E; by apply Hrun in E.
Qed.

(** The receiver outside of an inline run is alone. *)
Lemma receiver_alone s t x :
  server_inv s -> threads s !! t = Some x -> has_role x = true ->
  is_handling (state s) = false /\ work_closed s = false /\ countb preparing (threads s) = one (preparing x) /\
  countb has_role (threads s) = 1 /\ countb w_spawns (watches s) = 0 /\ stopped s = ending x.
Proof.
  intros inv Et Hx. pose proof (sv_role _ inv) as H. pose proof (sv_current _ inv) as Hc.
  pose proof (count_others preparing has_role _ _ _ preparing_role Et) as H1. rewrite Hx in H1.
  pose proof (countb_pos has_role _ _ (list_elem_of_lookup_2 _ _ _ Et) Hx).
  pose proof (countb_nonneg w_spawns (watches s)). pose proof (one_range (work_closed s)).
  pose proof (one_range (is_handling (state s))). rewrite Hc in H. simpl in H1.
  pose proof (count_others (fun _ => false) preparing _ _ _ ltac:(done) Et) as Hp.
  assert (E0 : countb (fun _ => false) (threads s) = 0).
  { clear. induction (threads s) as [|z l IH]; [done|]. by rewrite countb_cons, IH. }
  rewrite E0 in Hp. simpl in Hp.
  split; [destruct (is_handling (state s)); simpl in *; [lia|done]|].
  split; [destruct (work_closed s); simpl in *; [lia|done]|].
  assert (Hone : countb has_role (threads s) = 1) by lia. split_and!; try lia.
  pose proof (sv_stop _ inv) as Hst. pose proof (count_others ending has_role _ _ _ ending_role Et) as He. rewrite Hx in He.
  pose proof (countb_nonneg ending (threads s)). simpl in He.
  destruct (ending x) eqn:Ex.
  - pose proof (countb_pos ending _ _ (list_elem_of_lookup_2 _ _ _ Et) Ex). destruct (stopped s); simpl in *; [done|lia].
  - destruct (stopped s), (work_closed s); simpl in *; (lia || done).
Qed.

Lemma nobody_joined s : server_inv s -> work_closed s = false -> countb closing (threads s) <= 0 -> countb joined (threads s) = 0.
Proof.
  intros inv Hc Hcl. pose proof (sv_joined _ inv) as H. rewrite Hc in H. pose proof (countb_nonneg joined (threads s)).
  pose proof (one_range (is_some (sresult s))). simpl in *. lia.
Qed.

(** *** One goroutine moves from [x] to [y] *)

Section Move.
Variables (s s' : server) (t : nat) (x y : pc).
Hypothesis inv : server_inv s.
Hypothesis at_x : threads s !! t = Some x.
Hypothesis to_y : threads s' = <[t := y]> (threads s).

Lemma count_move p : countb p (threads s') = countb p (threads s) - one (p x) + one (p y).
Proof. rewrite to_y. apply countb_insert, at_x. Qed.

Lemma thread_move :
  watches s' = watches s -> max s' = max s ->
  0 <= epoch s' < 2 ^ 61 /\ 0 <= state s' < 4 * epoch s' + 4 ->
  countb (current (state s')) (threads s') = one (is_handling (state s')) ->
  one (has_role y) + one (is_handling (state s')) + one (work_closed s')
    = one (has_role x) + one (is_handling (state s)) + one (work_closed s) ->
  slots s' + one (holds_slot x) + one (inlines x) - one (is_handling (state s))
    = slots s + one (holds_slot y) + one (inlines y) - one (is_handling (state s')) ->
  (slots s' <= slots s \/ countb preparing (threads s') + one (is_handling (state s')) = 0) /\ slots s' <= max s ->
  (one (preparing y) + one (is_handling (state s')) <= one (preparing x) + one (is_handling (state s)) \/ slots s = 0) ->
  one (stopped s') + one (ending x) + one (work_closed s) = one (stopped s) + one (ending y) + one (work_closed s') ->
  one (is_some (timer s')) + one (resetting y) + one (armed s) <= one (is_some (timer s)) + one (resetting x) + one (armed s') ->
  (swept y = false -> work_closed s' = false -> swept x = false /\ work_closed s = false /\
    one (is_some (timer s')) + one (resetting y) + one (armed s) = one (is_some (timer s)) + one (resetting x) + one (armed s')) ->
  (work_closed s' = false -> work_closed s = false /\ one (is_worker y) + started s = one (is_worker x) + started s') ->
  wg s' + one (live x) = wg s + one (live y) ->
  one (is_some (sresult s')) + one (joined y) + one (closing x) + one (work_closed s)
    = one (is_some (sresult s)) + one (joined x) + one (closing y) + one (work_closed s') ->
  live x = true /\ is_returned x = false /\ (is_returned y = true -> live y = true /\ wg s = 0) ->
  answered s' ++ dropped s' ++ (threads s' ≫= req) ≡ₚ seq 0 (arrived s') ->
  (dropped s' <> [] -> ctx s' <> None) ->
  Forall (thread_ok s') (threads s') -> Forall (watch_ok s') (watches s') -> server_inv s'.
Proof.
  intros Ew Em Hep Hcur Hrole Hsl [Hle Hcap] Hin Hst Har Hare Hwk Hwg Hj (Hx1 & Hx2 & Hy) Hreq Hdr Hth Hwa.
  destruct inv as [I1 I2 I3 I4 I5 I6 I7 I8 I9 I10 I11 I12 I13 I18 I14 I15 I16 I17].
  rewrite inline_split in *.
  constructor; rewrite ?inline_split, ?Ew, ?Em; try assumption; rewrite ?Hcur; rewrite ?count_move.
  all: pose proof (count_others preparing has_role (threads s) t x preparing_role at_x).
  all: pose proof (countb_nonneg holds_slot (threads s)); pose proof (countb_nonneg preparing (threads s));
    pose proof (countb_nonneg w_holds_slot (watches s)); pose proof (countb_nonneg inlines (threads s));
    pose proof (countb_nonneg (current (state s)) (threads s)).
  all: try lia.
  - pose proof (countb_nonneg holds_slot (threads s')). pose proof (countb_nonneg (escalated (state s')) (threads s')).
    pose proof (countb_nonneg (escalated (state s)) (threads s)). pose proof (countb_nonneg w_spawns (watches s)).
    pose proof (one_mono _ _ (preparing_role x)). pose proof (one_range (work_closed s')). pose proof (one_range (work_closed s)).
    rewrite !inline_split, Hcur, !count_move in *.
    lia.
  - intros E. pose proof (countb_nonneg swept (threads s)). pose proof (count_others (fun _ => false) swept _ _ _ (ltac:(done)) at_x) as Hz.
    rewrite countb_none in Hz by done. pose proof (one_range (work_closed s')). pose proof (one_range (swept y)). simpl in Hz.
    destruct Hare as (E1 & E2 & E3); [destruct (swept y); simpl in *; [lia|done]|destruct (work_closed s'); simpl in *; [lia|done]|].
    rewrite E1, E2 in *. simpl in *. specialize (I10 ltac:(lia)). lia.
  - intros E. destruct (Hwk E) as [E1 E2]. specialize (I11 E1). lia.
  - pose proof (count_others is_returned live (threads s) t x (ltac:(by intros [])) at_x) as Ho. rewrite Hx1, Hx2 in *. simpl in *.
    destruct (is_returned y) eqn:Ey; [destruct (Hy eq_refl) as [-> Hw]|]; simpl; lia.
  - by rewrite Ew in Hwa.
Qed.

(** The frequent case: the words the others rely on stay as they are. *)
Lemma thread_move_quiet :
  watches s' = watches s -> max s' = max s -> limit s' = limit s -> now s' = now s -> ctx s' = ctx s ->
  epoch s' = epoch s -> state s' = state s -> startNs s' = startNs s -> armed s' = armed s -> started s' = started s ->
  current (state s) y = current (state s) x ->
  one (has_role y) + one (work_closed s') = one (has_role x) + one (work_closed s) ->
  slots s' + one (holds_slot x) + one (inlines x) = slots s + one (holds_slot y) + one (inlines y) ->
  (slots s' <= slots s \/ countb preparing (threads s') + one (is_handling (state s)) = 0) /\ slots s' <= max s ->
  (one (preparing y) <= one (preparing x) \/ slots s = 0) ->
  one (stopped s') + one (ending x) + one (work_closed s) = one (stopped s) + one (ending y) + one (work_closed s') ->
  one (is_some (timer s')) + one (resetting y) <= one (is_some (timer s)) + one (resetting x) ->
  (swept y = false -> work_closed s' = false -> swept x = false /\ one (is_some (timer s')) + one (resetting y) = one (is_some (timer s)) + one (resetting x)) ->
  (work_closed s' = false -> one (is_worker y) = one (is_worker x)) ->
  wg s' + one (live x) = wg s + one (live y) ->
  one (is_some (sresult s')) + one (joined y) + one (closing x) + one (work_closed s)
    = one (is_some (sresult s)) + one (joined x) + one (closing y) + one (work_closed s') ->
  live x = true /\ is_returned x = false /\ (is_returned y = true -> live y = true /\ wg s = 0) ->
  answered s' ++ dropped s' ++ (threads s' ≫= req) ≡ₚ seq 0 (arrived s') ->
  (dropped s' <> [] -> ctx s <> None) -> (stopped s = true -> stopped s' = true) -> (work_closed s = true -> work_closed s' = true) ->
  thread_ok s y -> server_inv s'.
Proof.
  intros E1 E2 E3 E4 E5 E6 E7 E8 E9 E10 Hcur Hrole Hsl Hle Hin Hst Har Hare Hwk Hwg Hj Hret Hreq Hdr Hs Hc Hy.
  assert (Hok : forall p, thread_ok s p -> thread_ok s' p).
  { intros p. apply thread_ok_same; try congruence; try lia. intros _. unfold watched. by rewrite E1, E9. }
  apply thread_move; rewrite ?E6, ?E7, ?E5, ?E9, ?E10; try done; try lia.
  - apply (sv_epoch _ inv).
  - rewrite count_move, Hcur, (sv_current _ inv). lia.
  - intros E E'. destruct (Hare E E') as [? ?]. split_and!; [done| |lia]. destruct (work_closed s); [by rewrite Hc in E'|done].
  - intros E. split; [destruct (work_closed s); [by rewrite Hc in E|done]|]. specialize (Hwk E). lia.
  - rewrite to_y. apply Forall_insert; [|by apply Hok]. eapply Forall_impl; [exact Hok|apply (sv_threads _ inv)].
  - rewrite E1. eapply Forall_impl; [|apply (sv_watches _ inv)]. intros p. apply watch_ok_same; first [congruence | lia | done].
Qed.

End Move.

(** *** The requests of a move *)

Section Requests.
Variables (s : server) (t : nat) (x : pc).
Hypothesis inv : server_inv s.
Hypothesis at_x : threads s !! t = Some x.

Lemma requests_same y :
  req y = req x -> answered s ++ dropped s ++ (<[t := y]> (threads s) ≫= req) ≡ₚ seq 0 (arrived s).
Proof.
  intros E. rewrite <- (sv_requests _ inv). do 2 apply Permutation_app_head.
  pose proof (requests_insert _ _ _ y at_x) as H. rewrite E in H. by apply Permutation_app_inv_l in H.
Qed.

Lemma requests_answered m y : req x = [m] -> req y = [] ->
  (answered s ++ [m]) ++ dropped s ++ (<[t := y]> (threads s) ≫= req) ≡ₚ seq 0 (arrived s).
Proof.
  intros Ex Ey. rewrite <- (sv_requests _ inv). pose proof (requests_insert _ _ _ y at_x) as H.
  rewrite Ex, Ey in H. simpl in H. rewrite <- H, <- app_assoc. simpl. apply Permutation_app_head. by rewrite Permutation_middle.
Qed.

Lemma requests_dropped m y : req x = [m] -> req y = [] ->
  answered s ++ (dropped s ++ [m]) ++ (<[t := y]> (threads s) ≫= req) ≡ₚ seq 0 (arrived s).
Proof.
  intros Ex Ey. rewrite <- (sv_requests _ inv). pose proof (requests_insert _ _ _ y at_x) as H.
  rewrite Ex, Ey in H. simpl in H. by rewrite <- H, <- app_assoc.
Qed.

Lemma requests_new y : req x = [] -> req y = [arrived s] ->
  answered s ++ dropped s ++ (<[t := y]> (threads s) ≫= req) ≡ₚ seq 0 (S (arrived s)).
Proof.
  intros Ex Ey. rewrite seq_S, <- (sv_requests _ inv). pose proof (requests_insert _ _ _ y at_x) as H.
  rewrite Ex, Ey in H. simpl in H. rewrite H, <- !app_assoc. do 2 apply Permutation_app_head. apply Permutation_cons_append.
Qed.
End Requests.


(** *** The steps of a goroutine *)

Section ThreadSteps.
Variables (s : server) (t : nat).
Hypothesis inv : server_inv s.

Lemma thread_ok_at x : threads s !! t = Some x -> thread_ok s x.
Proof. intros Et. eapply Forall_lookup_1; [apply (sv_threads _ inv)|exact Et]. Qed.

(** The receiver starts to prepare a run. *)
Lemma begin_inv m :
  threads s !! t = Some (RInline m) -> epoch s + 1 < 2 ^ 61 ->
  server_inv (set_epoch (u64 (epoch s + 1))
    (set_pc t (RStart m (Z.lor (u64 (Z.shiftl (u64 (epoch s + 1)) 2)) phaseHandling) (now s)) s)).
Proof.
  intros Et He. destruct (sv_epoch _ inv) as [Hep Hst]. destruct (receiver_alone s t _ inv Et eq_refl) as (Hh & _ & _ & Hone & _).
  rewrite new_run_word by lia. rewrite u64_small by (unfold word; lia).
  eapply (thread_move s _ t _ _ inv Et); [reflexivity|..]; simpl; try done; try lia.
  - rewrite (countb_insert _ _ _ _ _ Et), (sv_current _ inv). simpl. lia.
  - pose proof (sv_cap _ inv). lia.
  - by apply (requests_same s t _ inv Et).
  - apply (sv_dropped _ inv).
  - apply Forall_lookup. intros i p. intros [(-> & <- & _)|[Hne Hi]]%list_lookup_insert_Some.
    + simpl. lia.
    + pose proof (Forall_lookup_1 _ _ _ _ (sv_threads _ inv) Hi) as Hok. 
      assert (Hnp : has_role p = false) by (eapply (countb_unique has_role _ t _ i); [|exact Et|done|exact Hi|done]; lia).
      destruct p; simpl in *; done.
  - eapply Forall_impl; [|apply (sv_watches _ inv)]. intros p. by apply watch_ok_same.
Qed.

(** The receiver stores the start time. *)
Lemma start_inv m h t0 :
  threads s !! t = Some (RStart m h t0) -> server_inv (set_startNs t0 (set_pc t (RStore m h t0) s)).
Proof.
  intros Et. destruct (receiver_alone s t _ inv Et eq_refl) as (Hh & _ & _ & Hone & _). pose proof (thread_ok_at _ Et) as [Hx1 Hx2].
  assert (Hrun : forall e, run_word e <> state s) by (intros e E; by rewrite <- E, run_word_handling in Hh).
  eapply (thread_move s _ t _ _ inv Et); [reflexivity|..]; simpl; try done; try lia.
  - apply (sv_epoch _ inv).
  - rewrite (countb_insert _ _ _ _ _ Et), (sv_current _ inv). simpl. lia.
  - pose proof (sv_cap _ inv). lia.
  - by apply (requests_same s t _ inv Et).
  - apply (sv_dropped _ inv).
  - apply Forall_lookup. intros i p. intros [(-> & <- & _)|[Hne Hi]]%list_lookup_insert_Some; [done|].
    pose proof (Forall_lookup_1 _ _ _ _ (sv_threads _ inv) Hi) as Hok.
    assert (Hnp : has_role p = false) by (eapply (countb_unique has_role _ t _ i); [|exact Et|done|exact Hi|done]; lia).
    destruct p; simpl in *; try done; destruct Hok as ((e & ->) & Hle & _); split_and!; eauto; intros E; by apply Hrun in E.
  - eapply Forall_impl; [|apply (sv_watches _ inv)]. intros p. destruct p; simpl; try done.
    + intros ((e & ->) & Hle & _). split_and!; eauto. intros E. by apply Hrun in E.
    + intros ((e & ->) & Hle & _). split_and!; eauto. intros E. by apply Hrun in E.
Qed.

(** The receiver publishes its run. *)
Lemma store_inv m h t0 :
  threads s !! t = Some (RStore m h t0) -> server_inv (set_state h (set_pc t (RStored m h t0) s)).
Proof.
  intros Et. destruct (receiver_alone s t _ inv Et eq_refl) as (Hh & _ & _ & Hone & _).
  pose proof (thread_ok_at _ Et) as (-> & Hlt & Ht0). destruct (sv_epoch _ inv) as [Hep Hst].
  eapply (thread_move s _ t _ _ inv Et); [reflexivity|..]; simpl; rewrite ?run_word_handling, ?Hh; simpl; try done; try lia.
  - unfold run_word. lia.
  - rewrite (countb_insert _ _ _ _ _ Et), (no_current s); [|apply (sv_threads _ inv)|unfold run_word; lia].
    unfold current. simpl. by rewrite Z.eqb_refl.
  - pose proof (sv_cap _ inv). lia.
  - by apply (requests_same s t _ inv Et).
  - apply (sv_dropped _ inv).
  - apply Forall_lookup. intros i p. intros [(-> & <- & _)|[Hne Hi]]%list_lookup_insert_Some; [simpl; split_and!; eauto; lia|].
    pose proof (Forall_lookup_1 _ _ _ _ (sv_threads _ inv) Hi) as Hok.
    assert (Hnp : has_role p = false) by (eapply (countb_unique has_role _ t _ i); [|exact Et|done|exact Hi|done]; lia).
    destruct p; simpl in *; try done; destruct Hok as (He & Hle & _); unfold run_word in *; split_and!; eauto; lia.
  - eapply Forall_impl; [|apply (sv_watches _ inv)]. intros p. unfold run_word. destruct p; simpl; try done; try lia.
    + intros (He & Hle). split_and!; eauto; lia.
    + intros (He & Hle & H). split_and!; eauto; lia.
    + intros (He & Hle & _). split_and!; eauto; lia.
    + intros (He & Hle & _). split_and!; eauto; lia.
Qed.

(** The inline handler returned in time. *)
Lemma done_inv m t0 :
  threads s !! t = Some (RReturned m (state s) t0) ->
  server_inv (set_state (with_phase (state s) phaseDone) (set_pc t (RRespond m) s)).
Proof.
  intros Et. pose proof (thread_ok_at _ Et) as ((e & Ee) & _). destruct (sv_epoch _ inv) as [Hep Hst].
  assert (Hh : is_handling (state s) = true) by (rewrite Ee; apply run_word_handling).
  assert (Hh' : is_handling (with_phase (state s) phaseDone) = false) by (rewrite Ee; apply not_handling_run; by left).
  assert (Ew : with_phase (state s) phaseDone = state s + 2)
    by (rewrite Ee, with_phase_run by (unfold phaseDone; lia); unfold run_word, phaseDone; lia).
  assert (Hst' : state s + 2 < 4 * epoch s + 4) by (unfold run_word in Ee; lia).
  eapply (thread_move s _ t _ _ inv Et); [reflexivity|..]; simpl; rewrite ?Hh', ?Hh; simpl; try done; try lia.
  - rewrite (countb_insert _ _ _ _ _ Et), (no_current s); [|apply (sv_threads _ inv)|].
    + unfold current. simpl. replace (state s =? _) with false; [done|]. symmetry. apply Z.eqb_neq. lia.
    + intros e' _ E. by rewrite <- E, run_word_handling in Hh'.
  - pose proof (sv_cap _ inv). lia.
  - by apply (requests_same s t _ inv Et).
  - apply (sv_dropped _ inv).
  - apply Forall_insert; [|done]. eapply Forall_impl; [|apply (sv_threads _ inv)].
    intros p. apply thread_ok_past; simpl; try done; unfold run_word in Ee; lia.
  - eapply Forall_impl; [|apply (sv_watches _ inv)]. intros p. apply watch_ok_past; simpl; try done; lia.
Qed.

(** The receiver arms the watchdog. *)
Lemma timer_arm_inv m h t0 :
  threads s !! t = Some (RArm m h t0) -> armed s = false -> server_inv (set_armed true (set_pc t (RReset m h t0) s)).
Proof.
  intros Et Ea. eapply (thread_move s _ t _ _ inv Et); [reflexivity|..]; simpl; rewrite ?Ea; simpl; try done; try lia.
  - apply (sv_epoch _ inv).
  - rewrite (countb_insert _ _ _ _ _ Et), (sv_current _ inv). unfold current. simpl. lia.
  - pose proof (sv_cap _ inv). lia.
  - intros _ E. split_and!; [done|done|lia].
  - by apply (requests_same s t _ inv Et).
  - apply (sv_dropped _ inv).
  - apply Forall_insert; [|exact (thread_ok_at _ Et)]. eapply Forall_impl; [|apply (sv_threads _ inv)].
    intros p. apply thread_ok_same; try done. intros _ _. by left.
  - eapply Forall_impl; [|apply (sv_watches _ inv)]. intros p. by apply watch_ok_same.
Qed.

(** The quiet steps. *)
Lemma quiet_same (x y : pc) s' :
  threads s !! t = Some x -> s' = set_pc t y s -> current (state s) y = current (state s) x ->
  one (has_role y) = one (has_role x) -> one (holds_slot x) + one (inlines x) = one (holds_slot y) + one (inlines y) ->
  (one (preparing y) <= one (preparing x) \/ slots s = 0) -> one (ending x) = one (ending y) ->
  one (resetting y) = one (resetting x) -> (swept x = true -> swept y = true) -> one (is_worker y) = one (is_worker x) -> one (live x) = one (live y) ->
  one (joined y) = one (joined x) -> one (closing x) = one (closing y) ->
  live x = true /\ is_returned x = false /\ (is_returned y = true -> live y = true /\ wg s = 0) -> req y = req x -> thread_ok s y -> server_inv s'.
Proof.
  intros Et -> Hcur Hr Hsl Hp He Hrs Hsw Hw Hl Hj Hc Hret Hq Hy.
  eapply (thread_move_quiet s _ t _ _ inv Et); [reflexivity|..]; simpl; try done; try lia.
  - pose proof (sv_cap _ inv). lia.
  - intros E _. split; [destruct (swept x); [by rewrite Hsw in E|done]|lia].
  - by apply (requests_same s t _ inv Et).
  - apply (sv_dropped _ inv).
Qed.

(** The receiver is rid of its request and its slot; the slot and the request
    then go to a worker. *)
Definition handed (m : nat) : server := set_answered (answered s ++ [m]) (set_slots (slots s - 1) (set_pc t RRecv s)).

Lemma handed_inv x m :
  threads s !! t = Some x -> x = DOffer m \/ x = DStart m \/ x = DWait m -> server_inv (handed m).
Proof.
  intros Et Hx. pose proof (sv_cap _ inv).
  destruct Hx as [->|[->| ->]]; (eapply (thread_move_quiet s _ t _ _ inv Et); [reflexivity|..]; simpl; try done; try lia;
    [by apply (requests_answered s t _ inv Et m)|apply (sv_dropped _ inv)]).
Qed.

Lemma hand_inv x m w :
  threads s !! t = Some x -> x = DOffer m \/ x = DStart m \/ x = DWait m -> threads s !! w = Some WIdle ->
  server_inv (set_pc w (WRun m) (set_pc t RRecv s)).
Proof.
  intros Et Hx Ew. pose proof (handed_inv x m Et Hx) as inv1. pose proof (sv_cap _ inv) as Hcap.
  assert (Hne : w <> t) by (intros ->; rewrite Et in Ew; destruct Hx as [->|[->| ->]]; done).
  assert (Et1 : threads (handed m) !! t = Some RRecv) by (simpl; apply list_lookup_insert_eq; by eapply lookup_lt_Some).
  assert (Ew1 : threads (handed m) !! w = Some WIdle) by (simpl; by rewrite list_lookup_insert_ne).
  destruct (receiver_alone _ t _ inv1 Et1 eq_refl) as (Hh & _ & Hp & _). simpl in Hh, Hp.
  eapply (thread_move_quiet (handed m) _ w _ _ inv1 Ew1); [reflexivity|..]; simpl; try done; try lia.
  - rewrite (countb_insert _ _ _ _ _ Ew1), Hh. simpl. lia.
  - pose proof (requests_insert _ _ _ (WRun m) Ew1) as H. simpl in H. rewrite H.
    pose proof (sv_requests _ inv1) as H1. simpl in H1. rewrite <- H1, <- app_assoc. apply Permutation_app_head. simpl.
    by rewrite Permutation_middle.
  - apply (sv_dropped _ inv).
Qed.
End ThreadSteps.

(** A goroutine is started. *)
Lemma append_inv s s' y :
  server_inv s -> threads s' = threads s ++ [y] -> max s' = max s -> limit s' = limit s -> now s' = now s -> ctx s' = ctx s ->
  epoch s' = epoch s -> state s' = state s -> startNs s' = startNs s -> armed s' = armed s -> started s <= started s' ->
  (watched s -> watched s') -> timer s' = timer s -> stopped s' = stopped s -> work_closed s' = work_closed s ->
  sresult s' = sresult s -> inlines y = false -> resetting y = false -> ending y = false -> joined y = false ->
  closing y = false -> preparing y = false -> live y = true -> countb joined (threads s) = 0 -> wg s' = wg s + 1 ->
  countb on_watch (watches s') = countb on_watch (watches s) ->
  one (has_role y) + countb w_spawns (watches s') = countb w_spawns (watches s) ->
  slots s' + countb w_holds_slot (watches s) = slots s + one (holds_slot y) + countb w_holds_slot (watches s') -> slots s' <= max s ->
  (holds_slot y = true -> countb preparing (threads s) + one (is_handling (state s)) = 0) ->
  started s' = started s + one (is_worker y) -> dropped s' = dropped s ->
  answered s' ++ dropped s' ++ (threads s' ≫= req) ≡ₚ seq 0 (arrived s') ->
  thread_ok s' y -> Forall (watch_ok s') (watches s') -> server_inv s'.
Proof.
  intros inv Eth E1 E2 E3 E4 E5 E6 E7 E8 E9 Hwd E10 E11 E12 E13 Y1 Y2 Y3 Y4 Y5 Y6 Y7 Hj0 Hwg Hon Hsp Hsl Hcap Hin Hst Hdr Hreq Hy Hwa.
  assert (Hcur : current (state s) y = false) by (unfold current, inlines in *; by destruct (inline_run y)).
  assert (Yr : is_returned y = false) by (destruct y; done). assert (Ys : swept y = false) by (destruct y; done).
  pose proof (countb_mono is_returned joined (threads s) (ltac:(by intros []))) as Hrj.
  destruct inv as [I1 I2 I3 I4 I5 I6 I7 I8 I9 I10 I11 I12 I13 I18 I14 I15 I16 I17].
  rewrite inline_split in *.
  constructor; rewrite ?inline_split, ?Eth, ?E1, ?E4, ?E5, ?E6, ?E8, ?E10, ?E11, ?E12, ?E13, ?Hdr; try assumption;
    rewrite ?countb_snoc, ?Hcur, ?Y1, ?Y2, ?Y3, ?Y4, ?Y5, ?Y6, ?Y7, ?Yr, ?Ys; simpl; try lia.
  - intros E. destruct (holds_slot y); [specialize (Hin eq_refl)|]; simpl; lia.
  - intros E. specialize (I11 E). lia.
  - by rewrite <- Eth, <- Hdr.
  - apply list.Forall_app; split; [|by constructor]. eapply Forall_impl; [|exact I16]. intros p.
    apply thread_ok_same; try done. congruence.
Qed.

Lemma start_worker_inv s t m :
  server_inv s -> threads s !! t = Some (DStart m) -> started s < max s ->
  let s1 := set_started (started s + 1) (set_wg (wg s + 1) (set_pc t RRecv s)) in
  server_inv (set_threads (threads s1 ++ [WRun m]) s1).
Proof.
  intros inv Et Hlt s1. pose proof (handed_inv s t inv _ m Et ltac:(tauto)) as inv1. pose proof (sv_cap _ inv) as Hcap.
  assert (Et1 : threads (handed s t m) !! t = Some RRecv) by (simpl; apply list_lookup_insert_eq; by eapply lookup_lt_Some).
  destruct (receiver_alone _ t _ inv1 Et1 eq_refl) as (Hh & Hc & Hp & Hone & _). simpl in Hh, Hp.
  eapply (append_inv (handed s t m) _ (WRun m) inv1); simpl; try reflexivity; try done; try lia.
  - apply (nobody_joined _ inv1 Hc). pose proof (count_others closing has_role _ _ _ (ltac:(by intros [])) Et1) as Ho. simpl in *. lia.
  - intros _. rewrite Hh, Hp. done.
  - pose proof (sv_requests _ inv1) as H1. simpl in H1. rewrite <- H1, bind_app, <- app_assoc. simpl.
    apply Permutation_app_head. by rewrite (Permutation_app_comm _ [m]), Permutation_middle.
  - eapply Forall_impl; [|apply (sv_watches _ inv)]. intros p. by apply watch_ok_same.
Qed.


(** *** Every step keeps the invariant *)

Ltac quiet inv Et :=
  eapply (quiet_same _ _ inv _ _ _ Et); [reflexivity|try reflexivity|..]; simpl; try done; try lia; auto.

(** As [quiet], for a step that changes the slots, the answers or the end. *)
Ltac busy inv Et :=
  eapply (thread_move_quiet _ _ _ _ _ inv Et); [reflexivity|..]; simpl; try done; try lia;
  try (by apply (requests_same _ _ _ inv Et)); try (by eapply (requests_answered _ _ _ inv Et));
  try (by eapply (requests_dropped _ _ _ inv Et)); try apply (sv_dropped _ inv); try congruence.

Section Steps.
Variables (s s' : server) (t : nat) (mv : move) (x : pc).
Hypothesis inv : server_inv s.
Hypothesis at_x : threads s !! t = Some x.
Hypothesis steps : thread_step t mv s = Some s'.
Hypothesis few : epoch s' < 2 ^ 61.

Lemma run_step_inv :
  match x with
  | RRecv | RGot _ | RInline _ | RStart _ _ _ | RStore _ _ _ | RStored _ _ _ | RArm _ _ _ | RReset _ _ _ | RHandle _ _ _
  | RReturned _ _ _ | RRespond _ | RGiveBack _ | RLast _ => server_inv s'
  | _ => True
  end.
Proof.
  pose proof (sv_slots _ inv) as Hsl. pose proof (sv_cap _ inv) as Hcap. pose proof (thread_ok_at s t inv x at_x) as Hx.
  pose proof steps as E. unfold thread_step in E. rewrite at_x in E.
  destruct x; try exact I; destruct mv; try done; simplify_eq; simpl in few.
  - busy inv at_x. by apply (requests_new _ _ _ inv at_x).
  - quiet inv at_x.
  - destruct (Z.eqb_spec (slots s) 0); simpl; quiet inv at_x.
  - apply begin_inv; [done|done|]. destruct (sv_epoch _ inv). rewrite u64_small in few by (unfold word; lia). done.
  - by apply start_inv.
  - by apply store_inv.
  - destruct (armed s) eqn:Ea; simpl; quiet inv at_x. destruct Hx as (H1 & H2 & H3). split_and!; auto.
    intros E. split; [auto|by left].
  - destruct (armed s) eqn:Ea; [|by apply timer_arm_inv]. quiet inv at_x. destruct Hx as (H1 & H2 & H3). split_and!; auto.
    intros E. split; [auto|by left].
  - pose proof (sv_armed _ inv) as Har. pose proof (countb_nonneg on_watch (watches s)).
    pose proof (countb_pos resetting _ _ (list_elem_of_lookup_2 _ _ _ at_x) eq_refl).
    assert (Ea : armed s = true /\ timer s = None) by (destruct (armed s), (timer s); simpl in *; (lia || done)).
    destruct Ea as [Ea Et]. busy inv at_x; rewrite ?Et; simpl; try lia. destruct Hx as (H1 & H2 & H3). split_and!; auto.
    intros E. split; [auto|by left].
  - quiet inv at_x.
  - destruct (Z.eqb_spec (state s) h) as [<-|Hne]; [by eapply done_inv|]. quiet inv at_x.
    unfold current. simpl. symmetry. apply Z.eqb_neq. congruence.
  - busy inv at_x.
  - destruct (Z.ltb_spec 0 (slots s)); simplify_eq. busy inv at_x.
  - destruct (t =? 0)%nat; busy inv at_x.
Qed.

Lemma dispatch_step_inv :
  match x with DSlot _ | DOffer _ | DStart _ | DWait _ | DUndo _ => server_inv s' | _ => True end.
Proof.
  pose proof (sv_slots _ inv) as Hsl. pose proof (sv_cap _ inv) as Hcap. pose proof (thread_ok_at s t inv x at_x) as Hx.
  pose proof steps as E. unfold thread_step in E. rewrite at_x in E. unfold idle in E.
  destruct x; try exact I; destruct mv; try done.
  - destruct (Z.ltb_spec (slots s) (max s)); simplify_eq.
    destruct (receiver_alone s t _ inv at_x eq_refl) as (Hh & _ & Hp & _). busy inv at_x.
    rewrite (countb_insert _ _ _ _ _ at_x), Hp, Hh. simpl. lia.
  - destruct (ctx s) eqn:Ec; simplify_eq. busy inv at_x.
  - destruct (no_idle s); simplify_eq. quiet inv at_x.
  - destruct (threads s !! w) as [[]|] eqn:Ew; simplify_eq. eapply hand_inv; eauto.
  - destruct (Z.ltb_spec (started s) (max s)); simplify_eq; [by apply start_worker_inv|]. quiet inv at_x.
  - destruct (ctx s) eqn:Ec; simplify_eq. quiet inv at_x. congruence.
  - destruct (threads s !! w) as [[]|] eqn:Ew; simplify_eq. eapply hand_inv; eauto.
  - destruct (Z.ltb_spec 0 (slots s)); simplify_eq. busy inv at_x.
Qed.

Lemma end_step_inv :
  match x with
  | SStop _ | SWatch _ | STimer _ | SCancel _ | SResult _ | SClose | MClose _ | JResult | JWait _ | Returned _ => server_inv s'
  | _ => True
  end.
Proof.
  pose proof (sv_cap _ inv) as Hcap. pose proof steps as E. unfold thread_step in E. rewrite at_x in E.
  destruct x; try exact I; destruct mv; try done.
  - destruct (receiver_alone s t _ inv at_x eq_refl) as (_ & Hc & _ & _ & _ & Hst). simplify_eq. busy inv at_x.
    rewrite Hst, Hc. done.
  - simplify_eq. destruct (armed s); quiet inv at_x.
  - destruct (receiver_alone s t _ inv at_x eq_refl) as (_ & Hc & _ & _ & _ & Hst). simpl in Hst.
    simplify_eq. destruct (timer s) eqn:Etm; [|quiet inv at_x]. busy inv at_x; rewrite ?Etm, ?Hst; simpl; (lia || done).
  - simplify_eq. destruct (t =? 0)%nat; quiet inv at_x.
  - destruct (sresult s) eqn:Er; simplify_eq. busy inv at_x. rewrite Er. simpl. lia.
  - destruct (work_closed s) eqn:Ec; simplify_eq. busy inv at_x; rewrite ?Ec; simpl; try lia; done.
  - destruct (work_closed s) eqn:Ec; simplify_eq. busy inv at_x; rewrite ?Ec; simpl; try lia; done.
  - destruct (sresult s) eqn:Er; simplify_eq. busy inv at_x. rewrite Er. simpl. lia.
  - destruct (Z.eqb_spec (wg s) 0); simplify_eq. quiet inv at_x.
Qed.

Lemma worker_step_inv :
  match x with WRun _ | WRelease _ | WRespond _ | WIdle | Gone => server_inv s' | _ => True end.
Proof.
  pose proof (sv_cap _ inv) as Hcap. pose proof steps as E. unfold thread_step in E. rewrite at_x in E.
  destruct x; try exact I; destruct mv; try done.
  - simplify_eq. quiet inv at_x.
  - destruct (Z.ltb_spec 0 (slots s)); simplify_eq. busy inv at_x.
  - simplify_eq. busy inv at_x.
  - destruct (work_closed s) eqn:Ec; simplify_eq. busy inv at_x; rewrite ?Ec; done.
Qed.
End Steps.

Lemma thread_step_inv s s' t mv : server_inv s -> epoch s' < 2 ^ 61 -> thread_step t mv s = Some s' -> server_inv s'.
Proof.
  intros inv few E. destruct (threads s !! t) as [x|] eqn:Et; [|unfold thread_step in E; by rewrite Et in E].
  pose proof (run_step_inv s s' t mv x inv Et E few). pose proof (dispatch_step_inv s s' t mv x inv Et E few).
  pose proof (end_step_inv s s' t mv x inv Et E few). pose proof (worker_step_inv s s' t mv x inv Et E few). by destruct x.
Qed.

(** *** The steps of the watchdog *)

Section WatchMove.
Variables (s s' : server) (i : nat) (x y : watch_pc).
Hypothesis inv : server_inv s.
Hypothesis at_x : watches s !! i = Some x.
Hypothesis to_y : watches s' = <[i := y]> (watches s).

Lemma wcount_move p : countb p (watches s') = countb p (watches s) - one (p x) + one (p y).
Proof. rewrite to_y. apply countb_insert, at_x. Qed.

(** An execution of [watch] moves on and leaves the state word as it is. *)
Lemma watch_move :
  threads s' = threads s -> max s' = max s -> limit s' = limit s -> now s' = now s -> ctx s' = ctx s -> epoch s' = epoch s ->
  state s' = state s -> startNs s' = startNs s -> started s' = started s -> stopped s' = stopped s ->
  work_closed s' = work_closed s -> sresult s' = sresult s -> wg s' = wg s -> answered s' = answered s ->
  dropped s' = dropped s -> arrived s' = arrived s ->
  w_spawns x = false -> w_spawns y = false -> slots s' + one (w_holds_slot x) = slots s + one (w_holds_slot y) -> slots s' <= max s ->
  one (is_some (timer s')) + one (on_watch y) + one (armed s) = one (is_some (timer s)) + one (on_watch x) + one (armed s') ->
  (is_handling (state s) = true -> watched s -> watched s') -> watch_ok s y -> server_inv s'.
Proof.
  intros Eth E1 E2 E3 E4 E5 E6 E7 E8 E9 E10 E11 E12 E13 E14 E15 Hx Hy Hsl Hcap Har Hwd Hok.
  destruct inv as [I1 I2 I3 I4 I5 I6 I7 I8 I9 I10 I11 I12 I13 I18 I14 I15 I16 I17].
  constructor; rewrite ?Eth, ?E1, ?E4, ?E5, ?E6, ?E8, ?E9, ?E10, ?E11, ?E12, ?E13, ?E14, ?E15; try assumption;
    rewrite ?wcount_move, ?Hx, ?Hy; simpl; try lia.
  - eapply Forall_impl; [|exact I16]. intros p. apply thread_ok_same; try done; try congruence; lia.
  - rewrite to_y.
    assert (Hs : forall p, watch_ok s p -> watch_ok s' p) by (intros p; apply watch_ok_same; try congruence; lia).
    apply Forall_insert; [|by apply Hs]. eapply Forall_impl; [exact Hs|exact I17].
Qed.
End WatchMove.

(** Whoever looks at the state word next, an execution of [watch] that moves
    on without touching [armed] or the timer is no less on watch. *)
Lemma watched_move s i x y :
  watches s !! i = Some x -> w_checks y = true \/ w_checks x = false -> watched s -> watched (set_watch i y s).
Proof.
  intros Et Hxy [Ha|(p & Hp & Hc)]; [by left|]. right. destruct (decide (p = x)) as [->|Hne].
  - exists y. split; [|by destruct Hxy; congruence]. simpl. by eapply elem_insert_new.
  - exists p. split; [|done]. simpl. by eapply elem_insert_keep.
Qed.

Ltac watching inv Et :=
  eapply (watch_move _ _ _ _ _ inv Et); [reflexivity|..]; simpl; try done; try lia;
  try (intros _; eapply (watched_move _ _ _ _ Et); simpl; auto; fail).

(** Once receiving ended no run is the receiver's. *)
Lemma stopped_idle s : server_inv s -> stopped s = true -> is_handling (state s) = false.
Proof.
  intros inv Es. pose proof (sv_stop _ inv) as H. pose proof (sv_role _ inv) as Hr. rewrite (sv_current _ inv) in Hr. rewrite Es in H.
  pose proof (countb_nonneg w_spawns (watches s)). pose proof (countb_nonneg has_role (threads s)).
  destruct (is_handling (state s)); [|done]. simpl in *.
  pose proof (countb_mono ending has_role (threads s) ending_role). lia.
Qed.

(** The execution that is on watch is the only one, and the timer is not set. *)
Lemma watch_alone s i x :
  server_inv s -> watches s !! i = Some x -> on_watch x = true ->
  armed s = true /\ timer s = None /\ countb on_watch (watches s) = 1 /\ countb resetting (threads s) = 0.
Proof.
  intros inv Et Hx. pose proof (sv_armed _ inv). pose proof (countb_pos on_watch _ _ (list_elem_of_lookup_2 _ _ _ Et) Hx).
  pose proof (countb_nonneg resetting (threads s)). destruct (armed s), (timer s); simpl in *; (lia || (split_and!; (done || lia))).
Qed.

(** [escalate] finds a free slot if the run it saw is still the receiver's. *)
Lemma escalate_has_slot s i st :
  server_inv s -> watches s !! i = Some (WaEsc st) -> state s = st -> slots s < max s.
Proof.
  intros inv Et E. pose proof (Forall_lookup_1 _ _ _ _ (sv_watches _ inv) Et) as ((e & Ee) & _).
  destruct (watch_alone s i _ inv Et eq_refl) as (_ & _ & Hone & _).
  pose proof (sv_role _ inv) as Hr. pose proof (sv_inline _ inv) as Hin. rewrite (sv_slots _ inv).
  rewrite (sv_current _ inv), E, Ee, run_word_handling in *. simpl in *.
  pose proof (count_others w_holds_slot on_watch _ _ _ (ltac:(by intros [])) Et) as Hw. simpl in Hw.
  pose proof (countb_nonneg w_spawns (watches s)). pose proof (countb_nonneg has_role (threads s)).
  pose proof (one_range (work_closed s)). pose proof (countb_nonneg preparing (threads s)).
  pose proof (countb_mono preparing has_role (threads s) preparing_role).
  pose proof (sv_max _ inv). lia.
Qed.

(** The escalation: the run loses the role, and its slot is the one taken. *)
Lemma escalate_inv s i st :
  server_inv s -> watches s !! i = Some (WaCas st) -> state s = st ->
  server_inv (set_state (with_phase st phaseEscalated) (set_watch i WaSpawn s)).
Proof.
  intros inv Et <-. pose proof (Forall_lookup_1 _ _ _ _ (sv_watches _ inv) Et) as ((e & Ee) & _).
  destruct (sv_epoch _ inv) as [Hep Hst].
  assert (Hh : is_handling (state s) = true) by (rewrite Ee; apply run_word_handling).
  assert (Hh' : is_handling (with_phase (state s) phaseEscalated) = false) by (rewrite Ee; apply not_handling_run; by right).
  assert (Ew : with_phase (state s) phaseEscalated = state s + 1)
    by (rewrite Ee, with_phase_run by (unfold phaseEscalated; lia); unfold run_word, phaseEscalated; lia).
  assert (Hnone : countb (current (with_phase (state s) phaseEscalated)) (threads s) = 0).
  { apply (no_current s); [apply (sv_threads _ inv)|]. intros e' _ E. by rewrite <- E, run_word_handling in Hh'. }
  pose proof (countb_mono preparing has_role (threads s) preparing_role).
  destruct inv as [I1 I2 I3 I4 I5 I6 I7 I8 I9 I10 I11 I12 I13 I18 I14 I15 I16 I17]. rewrite inline_split in *. rewrite Hh in I4. simpl in I4.
  constructor; simpl; rewrite ?inline_split, ?(countb_insert _ _ _ _ _ Et), ?Hnone, ?Hh'; simpl; try assumption; try lia.
  - unfold run_word in Ee. lia.
  - pose proof (countb_nonneg w_spawns (watches s)). pose proof (one_range (work_closed s)). lia.
  - eapply Forall_impl; [|exact I16]. intros p. apply thread_ok_past; simpl; try done; unfold run_word in Ee; lia.
  - apply Forall_insert; [|done]. eapply Forall_impl; [|exact I17]. intros p. apply watch_ok_past; simpl; try done; lia.
Qed.

(** The new receiver starts. *)
Lemma spawn_inv s i :
  server_inv s -> watches s !! i = Some WaSpawn ->
  server_inv (set_wg (wg s + 1) (set_threads (threads s ++ [RRecv]) (set_watch i WaTop s))).
Proof.
  intros inv Et. pose proof (sv_cap _ inv).
  eapply (append_inv s _ RRecv inv); simpl; rewrite ?(countb_insert _ _ _ _ _ Et); simpl; try done; try lia.
  - intros Hw. apply (watched_move _ _ _ WaTop Et) in Hw; [done|by right].
  - pose proof (sv_role _ inv) as Hr. rewrite (sv_current _ inv) in Hr. pose proof (countb_nonneg has_role (threads s)).
    pose proof (countb_pos w_spawns _ _ (list_elem_of_lookup_2 _ _ _ Et) eq_refl). pose proof (one_range (is_handling (state s))).
    pose proof (countb_mono closing has_role (threads s) (ltac:(by intros []))).
    apply (nobody_joined _ inv); [destruct (work_closed s); simpl in *; [lia|done]|]. pose proof (one_range (work_closed s)). lia.
  - rewrite bind_app, app_nil_r. apply (sv_requests _ inv).
  - apply Forall_insert; [|done]. eapply Forall_impl; [|apply (sv_watches _ inv)]. intros p. by apply watch_ok_same.
Qed.

Lemma watch_step_inv s s' i : server_inv s -> watch_step i s = Some s' -> server_inv s'.
Proof.
  intros inv E. unfold watch_step in E. destruct (watches s !! i) as [x|] eqn:Et; [|done].
  pose proof (sv_cap _ inv) as Hcap. pose proof (stopped_idle s inv) as Hidle.
  pose proof (Forall_lookup_1 _ _ _ _ (sv_watches _ inv) Et) as Hx.
  destruct x; simplify_eq.
  - destruct (stopped s) eqn:Es; watching inv Et.
  - destruct (watch_alone s i _ inv Et eq_refl) as (Ha & _). watching inv Et; simpl in Hx; rewrite ?Ha; simpl; try lia.
    intros Hh. rewrite Hidle in Hh by done. done.
  - destruct (is_handling (state s)) eqn:Eh; watching inv Et. split; [by apply handling_run_word|lia].
  - watching inv Et. destruct Hx. split_and!; (done || lia).
  - destruct (Z.ltb_spec 0 (limit s - (t - startNs s))); watching inv Et. destruct Hx as (H1 & H2 & H3).
    split_and!; auto. intros _. lia.
  - destruct (watch_alone s i _ inv Et eq_refl) as (Ha & Htm & _). watching inv Et; rewrite ?Htm; simpl; try lia.
  - destruct (Z.ltb_spec (slots s) (max s)); watching inv Et. destruct Hx as (H1 & H2 & H3).
    destruct (decide (state s = st)) as [Es|]; [|lia]. pose proof (escalate_has_slot s i st inv Et Es). lia.
  - destruct (Z.eqb_spec (state s) st); [by apply escalate_inv|]. watching inv Et. simpl in Hx. lia.
  - destruct (Z.ltb_spec 0 (slots s)); simplify_eq. watching inv Et.
  - simpl in Hx. rewrite (proj2 (Z.eqb_neq _ _)) by lia. watching inv Et.
  - by apply spawn_inv.
  - destruct (watch_alone s i _ inv Et eq_refl) as (Ha & _). watching inv Et; rewrite ?Ha; simpl; try lia.
    intros _ _. right. exists WaCheck1. split; [|done]. simpl. by eapply elem_insert_new.
  - destruct (stopped s) eqn:Es; watching inv Et. rewrite Hidle by done. done.
  - destruct (is_handling (state s)) eqn:Eh; watching inv Et. by rewrite Eh.
  - destruct (armed s) eqn:Ea; watching inv Et; rewrite ?Ea; simpl; try lia; intros _ _; by left.
Qed.

(** The environment touches nothing the invariant speaks about. *)
Lemma env_inv s s' :
  server_inv s -> threads s' = threads s -> watches s' = watches s \/ watches s' = watches s ++ [WaTop] /\ timer s <> None /\ timer s' = None ->
  (watches s' = watches s -> timer s' = timer s) ->
  max s' = max s -> limit s' = limit s -> now s <= now s' -> (ctx s <> None -> ctx s' <> None) -> slots s' = slots s ->
  work_closed s' = work_closed s -> sresult s' = sresult s -> stopped s' = stopped s -> state s' = state s ->
  startNs s' = startNs s -> armed s' = armed s -> epoch s' = epoch s -> started s' = started s -> wg s' = wg s ->
  arrived s' = arrived s -> answered s' = answered s -> dropped s' = dropped s -> server_inv s'.
Proof.
  intros inv Eth Ew Etm E1 E2 E3 E4 E5 E6 E7 E8 E9 E10 E11 E12 E13 E14 E15 E16 E17.
  assert (Hc : forall f, f WaTop = false -> countb f (watches s') = countb f (watches s)).
  { intros f Hf. destruct Ew as [->|(-> & _)]; [done|]. rewrite countb_snoc, Hf. simpl. lia. }
  assert (Hon : one (is_some (timer s')) + countb on_watch (watches s') = one (is_some (timer s)) + countb on_watch (watches s)).
  { destruct Ew as [Ew|(Ew & H1 & H2)]; rewrite Ew; [by rewrite Etm|]. rewrite countb_snoc, H2. destruct (timer s); [simpl; lia|done]. }
  assert (Hwd : watched s -> watched s').
  { intros [Ha|(p & Hp & Hpc)]; [left; congruence|]. right. exists p. split; [|done].
    destruct Ew as [->|(-> & _)]; [done|]. apply elem_of_app. by left. }
  destruct inv as [I1 I2 I3 I4 I5 I6 I7 I8 I9 I10 I11 I12 I13 I18 I14 I15 I16 I17].
  constructor; rewrite ?Eth, ?E1, ?E5, ?E6, ?E7, ?E8, ?E9, ?E11, ?E12, ?E13, ?E14, ?E15, ?E16, ?E17, ?Hc by done; try assumption; try lia; auto.
  - eapply Forall_impl; [|exact I16]. intros p. apply thread_ok_same; try done; try congruence; lia.
  - assert (Hs : Forall (watch_ok s') (watches s)).
    { eapply Forall_impl; [|exact I17]. intros p. apply watch_ok_same; try done; congruence. }
    destruct Ew as [->|(-> & _)]; [done|]. apply list.Forall_app. split; [done|]. by constructor.
Qed.

(** Runs with fewer than [2^61] inline handlers. *)
Definition bounded_step (s s' : server) : Prop := server_step s s' /\ epoch s' < 2 ^ 61.

Lemma server_step_inv s s' : server_inv s -> bounded_step s s' -> server_inv s'.
Proof.
  intros inv [H few]. destruct H as [s t mv s' E|s i s' E|s d Hd|s d Ed Hd|s e Ee|s].
  - by eapply thread_step_inv.
  - by eapply watch_step_inv.
  - apply (env_inv s); simpl; auto; lia.
  - apply (env_inv s); simpl; auto; try lia; [right; rewrite Ed; done|].
    intros E. exfalso. apply (f_equal length) in E. rewrite length_app in E. simpl in E. lia.
  - apply (env_inv s); simpl; auto; lia.
  - apply (env_inv s); simpl; auto; lia.
Qed.

Lemma newServer_inv n limit : server_inv (newServer n limit).
Proof.
  constructor; simpl; try done; try lia; repeat constructor.
Qed.

Lemma serve_reachable n limit s : rtc bounded_step (newServer n limit) s -> server_inv s.
Proof.
  intros H. assert (G : forall a b, rtc bounded_step a b -> server_inv a -> server_inv b).
  { induction 1 as [|a b c Hab _ IH]; [done|]. intros Ha. apply IH. by eapply server_step_inv. }
  eapply G; [exact H|]. apply newServer_inv.
Qed.

Lemma thread_step_const s s' t mv : thread_step t mv s = Some s' -> max s' = max s /\ limit s' = limit s.
Proof.
  unfold thread_step. intros E. destruct (threads s !! t) as [[]|], mv; simplify_eq; try done;
    repeat case_match; simplify_eq; done.
Qed.

Lemma bounded_step_const s s' : bounded_step s s' -> max s' = max s /\ limit s' = limit s.
Proof.
  intros [[]_]; try done; [by eapply thread_step_const|]. unfold watch_step in *. repeat case_match; simplify_eq; done.
Qed.

Lemma serve_const n lim s : rtc bounded_step (newServer n lim) s -> max s = Z.max n 1 /\ limit s = lim.
Proof.
  intros H. assert (G : forall a b, rtc bounded_step a b -> max b = max a /\ limit b = limit a).
  { induction 1 as [|a b c Hab _ IH]; [done|]. pose proof (bounded_step_const _ _ Hab). intuition congruence. }
  destruct (G _ _ H) as [-> ->]. done.
Qed.

(** While requests are taken, [armed] says exactly that somebody answers for
    it. *)
Lemma armed_running s :
  server_inv s -> stopped s = false ->
  one (is_some (timer s)) + countb resetting (threads s) + countb on_watch (watches s) = one (armed s).
Proof.
  intros inv Es. apply (sv_armed_eq _ inv). pose proof (sv_stop _ inv) as H. rewrite Es in H. simpl in H.
  pose proof (countb_mono swept ending (threads s) (ltac:(by intros []))). pose proof (countb_nonneg swept (threads s)).
  pose proof (one_range (work_closed s)). lia.
Qed.

(** ** Properties *)

(** The goroutine that takes requests. *)
Definition receives (s : server) (p : pc) : bool := has_role p || current (state s) p.

(** A handler runs. *)
Definition handles (p : pc) : bool := match p with RHandle _ _ _ | WRun _ => true | _ => false end.

Lemma receives_one s : server_inv s -> countb (receives s) (threads s) <= 1.
Proof.
  intros inv. pose proof (sv_role _ inv) as H. pose proof (countb_nonneg w_spawns (watches s)). pose proof (one_range (work_closed s)).
  assert (E : countb (receives s) (threads s) <= countb has_role (threads s) + countb (current (state s)) (threads s)); [|lia].
  clear. induction (threads s) as [|p l IH]; [done|]. rewrite !countb_cons. unfold receives at 1.
  destruct (has_role p), (current (state s) p); simpl; lia.
Qed.

Lemma handlers_bound s : server_inv s -> countb handles (threads s) <= max s.
Proof.
  intros inv.
  assert (H : countb handles (threads s)
              <= countb holds_slot (threads s) + countb (escalated (state s)) (threads s) + countb (current (state s)) (threads s)).
  { clear. induction (threads s) as [|p l IH]; [done|]. rewrite !countb_cons.
    unfold escalated at 1, current at 1. destruct p; simpl; try lia; destruct (h =? state s); simpl; lia. }
  pose proof (sv_max _ inv). pose proof (sv_cap _ inv). pose proof (sv_slots _ inv). pose proof (countb_nonneg w_holds_slot (watches s)).
  pose proof (sv_inline _ inv) as Hin. pose proof (sv_role _ inv) as Hr. rewrite (sv_current _ inv) in *.
  pose proof (countb_mono preparing has_role (threads s) preparing_role). pose proof (countb_nonneg preparing (threads s)).
  pose proof (countb_nonneg w_spawns (watches s)). pose proof (one_range (work_closed s)).
  destruct (is_handling (state s)); simpl in *; lia.
Qed.

(** All other goroutines ended when Serve returned. *)
Lemma returned_alone s r :
  server_inv s -> threads s !! 0%nat = Some (Returned r) -> forall t p, threads s !! t = Some p -> t <> 0%nat -> p = Gone.
Proof.
  intros inv E0 t p Et Hne.
  pose proof (countb_pos is_returned _ _ (list_elem_of_lookup_2 _ _ _ E0) eq_refl) as Hr. pose proof (sv_returned _ inv Hr) as Hl.
  assert (Hp : live p = false) by (eapply (countb_unique live _ 0 _ t); [|exact E0|done|exact Et|done]; lia).
  by destruct p.
Qed.

(** Not all workers run a handler while a request waits for one. *)
Lemma waiting_worker s t m :
  server_inv s -> threads s !! t = Some (DWait m) ->
  exists w q, threads s !! w = Some q /\ (q = WIdle \/ exists m, q = WRespond m).
Proof.
  intros inv Et. destruct (receiver_alone s t _ inv Et eq_refl) as (_ & Hc & _).
  pose proof (Forall_lookup_1 _ _ _ _ (sv_threads _ inv) Et) as Hst. simpl in Hst.
  pose proof (sv_workers _ inv Hc) as Hw. pose proof (sv_slots _ inv). pose proof (sv_cap _ inv).
  pose proof (countb_nonneg (escalated (state s)) (threads s)). pose proof (countb_nonneg w_holds_slot (watches s)).
  set (busy := fun p => match p with WRun _ | WRelease _ => true | _ => false end).
  set (free := fun p => match p with WRespond _ | WIdle => true | _ => false end).
  assert (Hs : countb is_worker (threads s) = countb busy (threads s) + countb free (threads s)).
  { clear. induction (threads s) as [|p l IH]; [done|]. rewrite !countb_cons, IH. destruct p; simpl; lia. }
  pose proof (count_others busy holds_slot _ _ _ (ltac:(by intros [])) Et) as Hb. simpl in Hb.
  destruct (countb_exists free (threads s)) as (w & q & Ew & Hq); [lia|]. exists w, q. split; [done|].
  destruct q; try done; eauto.
Qed.

(** *** Concrete runs *)

Inductive action := AT (t : nat) (mv : move) | AW (i : nat) | ATick (d : Z) | AFire.

Definition act (a : action) (s : server) : option server :=
  match a with
  | AT t mv => thread_step t mv s
  | AW i => watch_step i s
  | ATick d => if 0 <=? d then Some (set_now (now s + d) s) else None
  | AFire =>
      match timer s with
      | Some d => if d <=? now s then Some (set_timer None (set_watches (watches s ++ [WaTop]) s)) else None
      | None => None
      end
  end.

Fixpoint serve_run (l : list action) (s : server) : option server :=
  match l with
  | [] => Some s
  | a :: l => s' ← act a s; if epoch s' <? 2 ^ 61 then serve_run l s' else None
  end.

Lemma serve_run_steps l : forall s s', serve_run l s = Some s' -> rtc bounded_step s s'.
Proof.
  induction l as [|a l IH]; intros s s' E; simpl in E; [by simplify_eq|].
  destruct (act a s) as [s1|] eqn:E1; simpl in E; [|done]. destruct (Z.ltb_spec (epoch s1) (2 ^ 61)); [|done].
  eapply rtc_l; [|by apply IH]. split; [|done]. destruct a; simpl in E1.
  - by eapply ss_thread.
  - by eapply ss_watch.
  - destruct (Z.leb_spec 0 d); simplify_eq. by apply ss_tick.
  - destruct (timer s) eqn:Et; [|done]. destruct (Z.leb_spec z (now s)); simplify_eq. by eapply ss_fire.
Qed.

(** One request served inline by goroutine [t]; the first one arms the
    watchdog. *)
Definition inline_steps (t : nat) (first : bool) : list action :=
  replicate (if first then 8 else 6) (AT t Go).
Definition finish_steps (t : nat) : list action := replicate 3 (AT t Go).

(** The second request is escalated while its handler runs. *)
Definition escalate_second : list action :=
  inline_steps 0 true ++ finish_steps 0 ++ inline_steps 0 false ++ [ATick 10; AFire] ++ replicate 7 (AW 0).

(** A goroutine takes the result of a failed receive to the end of [Serve]. *)
Definition end_steps (t : nat) (e : error) : list action := AT t (Fail e) :: replicate 5 (AT t Go).

(** The goroutine of an escalated handler finishes it and, as Serve's own,
    waits for the others. *)
Definition wait_steps : list action := replicate 6 (AT 0 Go).

(** C21. A server answers every request once. In every interleaving of the
    receiver, the watchdog and the workers of a [Serve] call, at most one
    goroutine takes requests; at most [BufferCount] handlers run at a time;
    every request taken so far is with exactly one goroutine, or answered
    once, or was dropped because the context ended; and when [Serve] returned
    every other goroutine has ended, so that no request is left. A request is
    answered when [respond] was called for it, which sends nothing if the
    request was canceled, and ignores a failed send. *)
Theorem serve_exactly_once n lim s :
  rtc bounded_step (newServer n lim) s ->
  (forall t u p q, threads s !! t = Some p -> threads s !! u = Some q ->
     receives s p = true -> receives s q = true -> t = u) /\
  countb handles (threads s) <= Z.max n 1 /\
  answered s ++ dropped s ++ (threads s ≫= req) ≡ₚ seq 0 (arrived s) /\
  (dropped s <> [] -> ctx s <> None) /\
  (forall r, threads s !! 0%nat = Some (Returned r) ->
     (forall t p, threads s !! t = Some p -> t <> 0%nat -> p = Gone) /\ answered s ++ dropped s ≡ₚ seq 0 (arrived s)).
Proof.
  intros H. pose proof (serve_reachable _ _ _ H) as inv. destruct (serve_const _ _ _ H) as [Hm _]. split_and!.
  - intros t u p q Ht Hu Hp Hq. destruct (decide (u = t)) as [->|Hne]; [done|].
    rewrite (countb_unique (receives s) _ t p u q (receives_one s inv) Ht Hp Hu Hne) in Hq. done.
  - rewrite <- Hm. by apply handlers_bound.
  - apply (sv_requests _ inv).
  - apply (sv_dropped _ inv).
  - intros r E0. pose proof (returned_alone s r inv E0) as Hg. split; [exact Hg|].
    rewrite <- (sv_requests _ inv). assert (Hnil : threads s ≫= req = []); [|by rewrite Hnil, app_nil_r].
    destruct (threads s) as [|p l]; [done|]. simpl in E0. simplify_eq. simpl.
    assert (Hl : forall q, q ∈ l -> q = Gone) by (intros q [k Hk]%list_elem_of_lookup; by apply (Hg (S k) q)).
    clear -Hl. induction l as [|q l IH]; [done|]. rewrite bind_cons, (Hl q) by left. apply IH. intros q' Hq'. apply Hl. by right.
Qed.

Lemma serve_exactly_once_witness :
  exists s, rtc bounded_step (newServer 2 10) s /\ threads s !! 0%nat = Some (Returned None) /\ answered s ++ dropped s ≡ₚ [0; 1]%nat.
Proof.
  destruct (serve_run (escalate_second ++ replicate 5 (AW 0) ++ end_steps 1 ErrPeerClosed ++ wait_steps) (newServer 2 10)) as [s|] eqn:E;
    [|vm_compute in E; discriminate].
  exists s. pose proof (serve_run_steps _ _ _ E) as H. destruct (serve_exactly_once 2 10 s H) as (_ & _ & _ & _ & Hr).
  vm_compute in E. injection E as <-. split; [exact H|]. split; [reflexivity|]. apply (Hr None). reflexivity.
Defined.

(** The watchdog. A handler that runs inline past the look at [armed] is
    watched: the timer is set, or somebody is about to set it, or an
    execution of [watch] will look at the state word again. A run is escalated
    only when it has lasted for the limit, whatever start time the watchdog
    read; and after receiving ended none is. *)
Theorem serve_watched n lim s :
  rtc bounded_step (newServer n lim) s ->
  (forall t m h t0, threads s !! t = Some (RHandle m h t0) -> h = state s ->
     timer s <> None \/ (exists u p, threads s !! u = Some p /\ resetting p = true) \/
     (exists i p, watches s !! i = Some p /\ (on_watch p = true \/ w_checks p = true))) /\
  (forall i st, watches s !! i = Some (WaCas st) -> state s = st ->
     stopped s = false /\
     exists t p t0, threads s !! t = Some p /\ inline_run p = Some (st, t0) /\ t0 + lim <= now s).
Proof.
  intros H. pose proof (serve_reachable _ _ _ H) as inv. destruct (serve_const _ _ _ H) as [_ Hlim]. split.
  - intros t m h t0 Et Eh. pose proof (Forall_lookup_1 _ _ _ _ (sv_threads _ inv) Et) as ((e & Ee) & _ & Hw).
    destruct (Hw Eh) as [_ [Ha|(p & [i Hi]%list_elem_of_lookup & Hp)]]; [|right; right; eauto].
    assert (Hst : stopped s = false).
    { destruct (stopped s) eqn:Es; [|done]. pose proof (stopped_idle s inv Es) as Hi. by rewrite <- Eh, Ee, run_word_handling in Hi. }
    pose proof (armed_running s inv Hst) as Heq. rewrite Ha in Heq. simpl in Heq.
    destruct (timer s); [by left|]. right. destruct (decide (0 < countb resetting (threads s))) as [Hr|Hr].
    + left. by apply countb_exists in Hr as (u & p & ? & ?); eauto.
    + right. pose proof (countb_nonneg resetting (threads s)). simpl in Heq.
      destruct (countb_exists on_watch (watches s)) as (i & p & ? & ?); [lia|]. eauto.
  - intros i st Ei Es. pose proof (Forall_lookup_1 _ _ _ _ (sv_watches _ inv) Ei) as ((e & Ee) & _ & Ht).
    assert (Hh : is_handling (state s) = true) by (rewrite Es, Ee; apply run_word_handling). split.
    + destruct (stopped s) eqn:E; [|done]. by rewrite (stopped_idle s inv E) in Hh.
    + pose proof (sv_current _ inv) as Hc. rewrite Hh in Hc. simpl in Hc.
      destruct (countb_exists (current (state s)) (threads s)) as (t & p & Et & Hp); [lia|].
      pose proof (Forall_lookup_1 _ _ _ _ (sv_threads _ inv) Et) as Hok. unfold current in Hp.
      destruct (inline_run p) as [[h t0]|] eqn:Er; [|done]. breflect. subst h. rewrite Es in *. specialize (Ht eq_refl).
      exists t, p, t0. split_and!; try done. rewrite Hlim in Ht.
      destruct p; simpl in Er, Hok; simplify_eq; destruct Hok as (_ & _ & Hs); specialize (Hs ltac:(done)); lia.
Qed.

Lemma serve_watched_witness :
  exists s, rtc bounded_step (newServer 1 10) s /\ watches s !! 0%nat = Some (WaCas 9) /\ state s = 9 /\
    (exists t p t0, threads s !! t = Some p /\ inline_run p = Some (9, t0) /\ t0 + 10 <= now s).
Proof.
  destruct (serve_run (inline_steps 0 true ++ finish_steps 0 ++ inline_steps 0 false ++ [ATick 10; AFire] ++ replicate 5 (AW 0)) (newServer 1 10))
    as [s|] eqn:E; [|vm_compute in E; discriminate].
  exists s. pose proof (serve_run_steps _ _ _ E) as H. destruct (serve_watched 1 10 s H) as [_ Hw].
  vm_compute in E. injection E as <-. split; [exact H|]. split; [reflexivity|]. split; [reflexivity|].
  exact (proj2 (Hw 0%nat 9 eq_refl eq_refl)).
Defined.

(** Steps of the watchdog alone, as far as the escalation. *)
Lemma escalation_run s i :
  server_inv s -> epoch s < 2 ^ 61 -> watches s !! i = Some WaTop -> is_handling (state s) = true -> startNs s + limit s <= now s ->
  exists s', rtc bounded_step s s' /\ threads s' = threads s ++ [RRecv] /\ state s' = with_phase (state s) phaseEscalated /\
    slots s' = slots s + 1.
Proof.
  intros inv He Ei Hh Ht.
  assert (Hst : stopped s = false) by (destruct (stopped s) eqn:E; [by rewrite (stopped_idle s inv E) in Hh|done]).
  assert (Hstep : forall a b, rtc bounded_step s a -> watch_step i a = Some b -> epoch b = epoch s -> rtc bounded_step s b).
  { intros a b Ha Hb Hep. eapply rtc_r; [exact Ha|]. split; [by eapply ss_watch|by rewrite Hep]. }
  assert (Hlt : (i < length (watches s))%nat) by (by eapply lookup_lt_Some).
  assert (Hl : forall a p, (i < length (watches a))%nat -> watches (set_watch i p a) !! i = Some p)
    by (intros a p Ha; simpl; by apply list_lookup_insert_eq).
  assert (HL : forall a p, (i < length (watches a))%nat -> (i < length (watches (set_watch i p a)))%nat)
    by (intros; simpl; by rewrite length_insert).
  pose (s1 := set_watch i WaLoad s). pose (s2 := set_watch i (WaClock (state s)) s1).
  pose (s3 := set_watch i (WaAge (state s) (now s)) s2). pose (s4 := set_watch i (WaEsc (state s)) s3).
  pose (s5 := set_slots (slots s + 1) (set_watch i (WaCas (state s)) s4)).
  pose (s6 := set_state (with_phase (state s) phaseEscalated) (set_watch i WaSpawn s5)).
  pose (s7 := set_wg (wg s + 1) (set_threads (threads s ++ [RRecv]) (set_watch i WaTop s6))).
  pose proof (HL s WaLoad Hlt) as L1. pose proof (HL s1 (WaClock (state s)) L1) as L2.
  pose proof (HL s2 (WaAge (state s) (now s)) L2) as L3. pose proof (HL s3 (WaEsc (state s)) L3) as L4.
  pose proof (HL s4 (WaCas (state s)) L4) as L5.
  pose proof (Hl s WaLoad Hlt : watches s1 !! i = _) as E1. pose proof (Hl s1 _ L1 : watches s2 !! i = _) as E2.
  pose proof (Hl s2 _ L2 : watches s3 !! i = _) as E3. pose proof (Hl s3 _ L3 : watches s4 !! i = _) as E4.
  pose proof (Hl s4 _ L4 : watches s5 !! i = _) as E5. pose proof (Hl s5 WaSpawn L5 : watches s6 !! i = _) as E6.
  assert (R4 : rtc bounded_step s s4).
  { apply (Hstep s3); [apply (Hstep s2); [apply (Hstep s1); [apply (Hstep s); [done| |done]| |done]| |done]| |done]; unfold watch_step.
    - by rewrite Ei, Hst.
    - rewrite E1. simpl. by rewrite Hh.
    - by rewrite E2.
    - rewrite E3. simpl. destruct (Z.ltb_spec 0 (limit s - (now s - startNs s))); [lia|done]. }
  assert (Hs : slots s4 < max s4).
  { apply (escalate_has_slot s4 i (state s)); [|exact E4|done]. clear -R4 inv. induction R4 as [|a b c Hab _ IH]; [done|].
    apply IH. by eapply server_step_inv. }
  assert (R6 : rtc bounded_step s s6).
  { apply (Hstep s5); [apply (Hstep s4); [done| |done]| |done]; unfold watch_step.
    - rewrite E4. by rewrite (proj2 (Z.ltb_lt _ _) Hs).
    - rewrite E5. simpl. by rewrite Z.eqb_refl. }
  exists s7. split; [|done]. apply (Hstep s6); [done| |done]. unfold watch_step. by rewrite E6.
Qed.

(** A slow handler does not stop the server. From every state in which a
    handler runs inline and the timer is set, time and the watchdog alone lead
    to a state in which a new goroutine takes requests, the handler goes on
    undisturbed, and one more slot is taken for it. *)
Theorem serve_escalates n lim s t m h t0 :
  rtc bounded_step (newServer n lim) s -> threads s !! t = Some (RHandle m h t0) -> h = state s -> timer s <> None ->
  exists s', rtc bounded_step s s' /\ threads s' = threads s ++ [RRecv] /\ threads s' !! t = Some (RHandle m h t0) /\
    escalated (state s') (RHandle m h t0) = true /\ slots s' = slots s + 1.
Proof.
  intros H Et -> Htm. pose proof (serve_reachable _ _ _ H) as inv. destruct (sv_epoch _ inv) as [Hep _].
  pose proof (Forall_lookup_1 _ _ _ _ (sv_threads _ inv) Et) as ((e & Ee) & _). destruct (timer s) as [d|] eqn:Ed; [|done].
  assert (Hh : is_handling (state s) = true) by (rewrite Ee; apply run_word_handling).
  pose (s1 := set_now (now s + Z.max 0 (Z.max (d - now s) (startNs s + limit s - now s))) s).
  pose (s2 := set_timer None (set_watches (watches s1 ++ [WaTop]) s1)).
  assert (H1 : bounded_step s s1) by (split; [apply ss_tick; lia|simpl; lia]).
  assert (H2 : bounded_step s1 s2) by (split; [apply (ss_fire s1 d); [done|simpl; lia]|simpl; lia]).
  destruct (escalation_run s2 (length (watches s))) as (s' & Hr & Eth & Est & Esl); [|simpl; lia| |done|simpl; lia|].
  - eapply server_step_inv; [|exact H2]. by eapply server_step_inv.
  - simpl. by apply list_lookup_middle.
  - exists s'. split; [eapply rtc_l; [exact H1|]; by eapply rtc_l|]. split; [done|]. rewrite Eth. split; [by apply lookup_app_l_Some|].
    split; [|done]. unfold escalated. simpl. rewrite Est. simpl. rewrite Ee, with_phase_run by (unfold phaseEscalated; lia).
    unfold run_word, phaseEscalated. apply negb_true_iff, Z.eqb_neq. lia.
Qed.

Lemma serve_escalates_witness :
  exists s s', rtc bounded_step (newServer 1 10) s /\ threads s = [RHandle 0 5 0] /\ rtc bounded_step s s' /\
    threads s' = [RHandle 0 5 0; RRecv].
Proof.
  destruct (serve_run (inline_steps 0 true) (newServer 1 10)) as [s|] eqn:E; [|vm_compute in E; discriminate].
  exists s. pose proof (serve_run_steps _ _ _ E) as H. vm_compute in E. injection E as <-.
  destruct (serve_escalates 1 10 _ 0 0 5 0 H eq_refl eq_refl ltac:(done)) as (s' & Hr & Et & _).
  exists s'. split; [exact H|]. split; [reflexivity|]. split; [exact Hr|]. rewrite Et. reflexivity.
Defined.

(** C23. A callback after the end. [stopWatch] is documented to return only when
    no callback of the watchdog runs and none will, so that none touches the
    server after [Serve] returned. But the goroutine of an escalated handler
    may still be in front of its look at [armed]; it then arms the watchdog
    after [stopWatch] returned, and the callback runs when [Serve] is done. It
    finds [stopped] set and does no harm. *)
Theorem serve_late_callback :
  exists s s', rtc bounded_step (newServer 1 10) s /\ threads s = [Returned None; Gone] /\ stopped s = true /\
    server_step s s' /\ watches s' = watches s ++ [WaTop].
Proof.
  pose (prefix := inline_steps 0 true ++ finish_steps 0 ++ replicate 5 (AT 0 Go)).
  pose (escalate := [ATick 10; AFire] ++ replicate 12 (AW 0)).
  destruct (serve_run (prefix ++ escalate ++ end_steps 1 ErrPeerClosed ++ replicate 3 (AT 0 Go) ++ wait_steps ++ [ATick 10])
    (newServer 1 10)) as [s|] eqn:E; [|vm_compute in E; discriminate].
  pose proof (serve_run_steps _ _ _ E) as H. vm_compute in E. injection E as <-. do 2 eexists.
  split; [exact H|]. split; [reflexivity|]. split; [reflexivity|].
  split; [apply (ss_fire _ 20); [reflexivity|simpl; lia]|reflexivity].
Qed.
