(* ===== verification/ServeEnd.v ===== *)
(** * ServeEnd: Serve comes to its end

    The progress of the goroutines of [Serve]: a measure of the accesses that
    are left, which every goroutine, every execution of the watchdog and the
    timer lower, taking a new request and the watchdog's rounds apart; and the
    argument that until [Serve] returned some of them can always go on. *)
From S2P Require Import Prelude Errors Serve.

(** ** What is left to do *)

(** The accesses a goroutine has in front of it when the next receive fails,
    with what it starts or sets on the way. *)
Definition pc_work (p : pc) : nat :=
  match p with
  | RRecv => 7 | RGot _ => 20 | RInline _ => 19 | RStart _ _ _ => 18 | RStore _ _ _ => 17 | RStored _ _ _ => 16
  | RArm _ _ _ => 15 | RReset _ _ _ => 14 | RHandle _ _ _ => 10 | RReturned _ _ _ => 9 | RRespond _ => 8
  | RGiveBack _ => 4 | RLast _ => 3
  | DSlot _ => 14 | DOffer _ => 13 | DStart _ => 12 | DWait _ => 11 | DUndo _ => 7
  | SStop _ => 6 | SWatch _ | STimer _ => 5 | SCancel _ => 4 | SResult _ => 3 | SClose => 1 | MClose _ => 2
  | JResult => 2 | JWait _ => 1 | Returned _ => 0
  | WRun _ => 4 | WRelease _ => 3 | WRespond _ => 2 | WIdle => 1 | Gone => 0
  end%nat.

Definition watch_work (p : watch_pc) : nat :=
  match p with
  | WaTop => 2 | WaQuit => 1 | WaLoad => 15 | WaClock _ => 14 | WaAge _ _ => 13 | WaReset _ => 4 | WaEsc _ => 12
  | WaCas _ => 11 | WaUndo _ => 6 | WaRetry _ => 5 | WaSpawn => 10 | WaDisarm => 6 | WaCheck1 => 5 | WaCheck2 => 4
  | WaCheck3 => 3 | WaGone => 0
  end%nat.

Definition work (s : server) : nat :=
  sum_list_with pc_work (threads s) + sum_list_with watch_work (watches s) + (if timer s then 3 else 0).

(** The two accesses of [stopWatch]'s loop. *)
Definition polls (p : pc) : bool := match p with SWatch _ | STimer _ => true | _ => false end.

(** Points that may still count a run. *)
Definition unstarted (p : pc) : bool := match p with RGot _ | RInline _ => true | _ => false end.

(** Fewer than [2^61] inline runs, the one that is about to be counted
    included. *)
Definition room (s : server) : Prop := epoch s + countb unstarted (threads s) < 2 ^ 61.

(** Where Serve's own goroutine may be, and where the others. *)
Definition place (t : nat) (p : pc) : bool :=
  match p with
  | MClose _ | JResult | JWait _ | Returned _ => (t =? 0)%nat
  | SResult _ | SClose | WRun _ | WRelease _ | WRespond _ | WIdle | Gone => negb (t =? 0)%nat
  | _ => true
  end.

Record placed (s : server) : Prop := {
  pl_main : threads s <> [];
  pl_place : forall t p, threads s !! t = Some p -> place t p = true
}.

(** ** Lists *)

Lemma sum_insert {A} (f : A -> nat) l t x y :
  l !! t = Some x -> (sum_list_with f (<[t := y]> l) + f x = sum_list_with f l + f y)%nat.
Proof.
  intros H. pose proof (lookup_lt_Some _ _ _ H). rewrite insert_take_drop by done.
  rewrite <- (take_drop_middle l t x H) at 3. rewrite !sum_list_with_app. simpl. lia.
Qed.

Lemma sum_snoc {A} (f : A -> nat) l y : (sum_list_with f (l ++ [y]) = sum_list_with f l + f y)%nat.
Proof. rewrite sum_list_with_app. simpl. lia. Qed.

(** ** The places of the goroutines *)

Lemma placed_move s t x y :
  placed s -> threads s !! t = Some x -> (place t x = true -> place t y = true) -> forall u p, <[t := y]> (threads s) !! u = Some p -> place u p = true.
Proof.
  intros [_ H] Et Hy u p. intros [(<- & <- & _)|[Hne Hu]]%list_lookup_insert_Some; [by apply Hy, H|by apply H].
Qed.

Lemma thread_step_placed s s' t mv : placed s -> thread_step t mv s = Some s' -> placed s'.
Proof.
  intros pl E. pose proof (pl_main _ pl) as Hm. unfold thread_step in E. destruct (threads s !! t) as [x|] eqn:Et; [|done].
  assert (Hl : forall y, <[t := y]> (threads s) <> []).
  { intros y H. apply (f_equal length) in H. rewrite length_insert in H. by destruct (threads s). }
  assert (Hq : forall y, (place t x = true -> place t y = true) -> placed (set_pc t y s)).
  { intros y Hy. split; [apply Hl|]. simpl. by apply (placed_move s t x). }
  assert (Hw : forall w m, placed (set_pc t RRecv s) -> threads s !! w = Some WIdle -> w <> t -> placed (set_pc w (WRun m) (set_pc t RRecv s))).
  { intros w m [H1 H2] Ew Hne. split; simpl.
    - intros H. apply (f_equal length) in H. rewrite !length_insert in H. by destruct (threads s).
    - apply (placed_move (set_pc t RRecv s) w WIdle); [by split| |done]. simpl. by rewrite list_lookup_insert_ne. }
  assert (Hs : forall a b, threads b = threads a -> placed a -> placed b).
  { intros a b Eab [H1 H2]. split; rewrite Eab; done. }
  unfold idle in E.
  destruct x, mv; try done; simplify_eq; repeat (case_match; simplify_eq); try (eapply (Hs (set_pc t _ s)); [reflexivity|apply Hq; done]).
  all: try (apply Hw; [apply Hq; done|done|intros ->; congruence]).
  all: try (eapply (Hs (set_pc t _ s)); [reflexivity|]; apply Hq; intros _; simpl; by rewrite ?Nat.eqb_eq, ?negb_true_iff, ?Nat.eqb_neq in *).
  pose proof (Hq RRecv (fun _ => eq_refl)) as [H1 H2]. split; simpl; [by destruct (<[t:=RRecv]> (threads s))|].
  intros u p [Hu|[Hge Hu]]%lookup_app_Some; [by apply (H2 u)|]. destruct (u - _)%nat eqn:Eu; [|done]. simpl in Hu. simplify_eq. simpl.
  apply negb_true_iff, Nat.eqb_neq. intros ->. rewrite length_insert in Hge. destruct (threads s); [done|simpl in Hge; lia].
Qed.

Lemma placed_same s s' : threads s' = threads s -> placed s -> placed s'.
Proof. intros E [H1 H2]. split; rewrite E; done. Qed.

Lemma watch_step_placed s s' i : placed s -> watch_step i s = Some s' -> placed s'.
Proof.
  intros pl E. unfold watch_step in E. destruct (watches s !! i) as [x|]; [|done].
  destruct x; simplify_eq; repeat (case_match; simplify_eq); try (by apply (placed_same s)).
  destruct pl as [H1 H2]. split; simpl; [intros H; by apply app_eq_nil in H as [? ?]|].
  intros u p [Hu|[Hge Hu]]%lookup_app_Some; [by apply (H2 u)|]. destruct (u - _)%nat; [|done]. simpl in Hu. by simplify_eq.
Qed.

Lemma reachable_placed n lim s : rtc bounded_step (newServer n lim) s -> placed s.
Proof.
  intros H. assert (G : forall a b, rtc bounded_step a b -> placed a -> placed b).
  { induction 1 as [|a b c [Hab _] _ IH]; [done|]. intros Ha. apply IH.
    destruct Hab; [by eapply thread_step_placed|by eapply watch_step_placed|(by refine (placed_same _ _ _ Ha))..]. }
  eapply G; [exact H|]. split; [done|]. intros [|t] p; simpl; intros; by simplify_eq.
Qed.

(** ** The measure goes down *)

Lemma unstarted_role p : unstarted p = true -> has_role p = true.
Proof. by destruct p. Qed.

(** An access of a goroutine other than taking a request lowers the measure;
    those of [stopWatch]'s loop may leave it. *)
Lemma thread_step_work s s' t mv x :
  server_inv s -> thread_step t mv s = Some s' -> threads s !! t = Some x -> x <> RRecv \/ mv <> Go ->
  (work s' + (if polls x then 0 else 1) <= work s)%nat /\ (room s -> room s').
Proof.
  intros inv E Et Hmv. pose proof (sv_epoch _ inv) as [Hep _]. unfold thread_step in E. rewrite Et in E. unfold idle in E.
  assert (Hs : forall y, (sum_list_with pc_work (<[t := y]> (threads s)) + pc_work x = sum_list_with pc_work (threads s) + pc_work y)%nat)
    by (intros y; by apply sum_insert).
  assert (Hu : forall y, countb unstarted (<[t := y]> (threads s)) = countb unstarted (threads s) - one (unstarted x) + one (unstarted y))
    by (intros y; by apply countb_insert).
  assert (Hw : forall w m, w <> t -> threads s !! w = Some WIdle ->
     (sum_list_with pc_work (<[w := WRun m]> (<[t := RRecv]> (threads s))) + pc_work x = sum_list_with pc_work (threads s) + 10)%nat /\
     countb unstarted (<[w := WRun m]> (<[t := RRecv]> (threads s))) = countb unstarted (threads s) - one (unstarted x)).
  { intros w m Hne Ew. assert (Ew' : <[t := RRecv]> (threads s) !! w = Some WIdle) by (by rewrite list_lookup_insert_ne).
    pose proof (sum_insert pc_work _ _ _ (WRun m) Ew') as H1. specialize (Hs RRecv). simpl in *.
    rewrite (countb_insert _ _ _ _ _ Ew'), Hu. simpl. lia. }
  pose proof (countb_nonneg unstarted (threads s)) as Hn.
  assert (He : epoch s < 2 ^ 61 -> u64 (epoch s + 1) = epoch s + 1) by (intros; apply u64_small; unfold word; lia).
  destruct x, mv; try done; try (by destruct Hmv); simplify_eq; repeat (case_match; simplify_eq);
    unfold room, work; simpl;
    try match goal with H : timer s = _ |- _ => rewrite H end;
    try (destruct (Hw w m) as [Hw1 Hw2]; [intros ->; congruence|done|rewrite Hw2; simpl in *; lia]);
    rewrite ?He by lia;
    rewrite ?sum_snoc, ?countb_snoc, ?Hu; simpl;
    match goal with |- context [<[t := ?y]> (threads s)] => specialize (Hs y) | _ => idtac end; simpl in *; try lia;
    destruct (timer s); simpl; lia.
Qed.

(** So does an access of the watchdog, but for the one that begins another
    round while requests are taken. *)
Lemma watch_step_work s s' i x :
  watch_step i s = Some s' -> watches s !! i = Some x -> x <> WaTop \/ stopped s = true ->
  (work s' < work s)%nat /\ (room s -> room s').
Proof.
  intros E Ei Hx. unfold watch_step in E. rewrite Ei in E.
  assert (Hs : forall y, (sum_list_with watch_work (<[i := y]> (watches s)) + watch_work x = sum_list_with watch_work (watches s) + watch_work y)%nat)
    by (intros y; by apply sum_insert).
  destruct x; try done; simplify_eq; repeat (case_match; simplify_eq); try (by destruct Hx);
    unfold room, work; simpl; rewrite ?sum_snoc, ?countb_snoc; simpl;
    match goal with |- context [<[i := ?y]> (watches s)] => specialize (Hs y) end; simpl in *; try lia;
    destruct (timer s); simpl; lia.
Qed.

(** ** Somebody can go on *)

(** A step that brings [Serve] nearer to its end. *)
Definition nearer (s s' : server) : Prop := rtc bounded_step s s' /\ (work s' < work s)%nat /\ room s'.

Definition waits (p : pc) : bool :=
  match p with DSlot _ | DWait _ | SWatch _ | STimer _ | JResult | JWait _ | Returned _ | WIdle | Gone => true | _ => false end.

Lemma room_epoch s : room s -> epoch s < 2 ^ 61.
Proof. unfold room. pose proof (countb_nonneg unstarted (threads s)). lia. Qed.

Lemma thread_nearer s s' t mv x :
  server_inv s -> room s -> thread_step t mv s = Some s' -> threads s !! t = Some x -> x <> RRecv \/ mv <> Go -> polls x = false ->
  nearer s s'.
Proof.
  intros inv Hr E Et Hmv Hp. destruct (thread_step_work s s' t mv x inv E Et Hmv) as [H1 H2]. rewrite Hp in H1. specialize (H2 Hr).
  split_and!; [|lia|done]. apply rtc_once. split; [by eapply ss_thread|by apply room_epoch].
Qed.

Lemma watch_nearer s i x :
  server_inv s -> room s -> watches s !! i = Some x -> x <> WaGone -> x <> WaTop \/ stopped s = true -> exists s', nearer s s'.
Proof.
  intros inv Hr Ei Hg Hx. destruct (watch_step i s) as [s'|] eqn:E.
  - exists s'. destruct (watch_step_work s s' i x E Ei Hx) as [H1 H2]. specialize (H2 Hr). split_and!; [|done|done].
    apply rtc_once. split; [by eapply ss_watch|by apply room_epoch].
  - exfalso. unfold watch_step in E. rewrite Ei in E. destruct x; try done. case_match; [done|].
    pose proof (sv_slots _ inv). pose proof (countb_pos w_holds_slot _ _ (list_elem_of_lookup_2 _ _ _ Ei) eq_refl).
    pose proof (countb_nonneg holds_slot (threads s)). pose proof (countb_nonneg (escalated (state s)) (threads s)).
    breflect. lia.
Qed.

(** The result of the receive loop finds its channel empty. *)
Lemma result_free s t r : server_inv s -> threads s !! t = Some (SResult r) -> sresult s = None.
Proof.
  intros inv Et. destruct (receiver_alone s t _ inv Et eq_refl) as (_ & Hc & _ & Hone & _).
  pose proof (count_others closing has_role _ _ _ (ltac:(by intros [])) Et) as Ho. pose proof (sv_joined _ inv) as Hj.
  pose proof (countb_nonneg joined (threads s)). rewrite Hc in Hj. destruct (sresult s); [|done]. simpl in *. lia.
Qed.

Lemma holder_slots s t p : server_inv s -> threads s !! t = Some p -> holds_slot p = true -> 0 < slots s.
Proof.
  intros inv Et Hp. rewrite (sv_slots _ inv). pose proof (countb_pos holds_slot _ _ (list_elem_of_lookup_2 _ _ _ Et) Hp).
  pose proof (countb_nonneg (escalated (state s)) (threads s)). pose proof (countb_nonneg w_holds_slot (watches s)). lia.
Qed.

(** A goroutine that does not wait by its program can go on. *)
Lemma free_nearer s t x :
  server_inv s -> room s -> threads s !! t = Some x -> waits x = false -> exists s', nearer s s'.
Proof.
  intros inv Hr Et Hw.
  assert (Hh : holds_slot x = true -> 0 <? slots s = true) by (intros Hp; apply Z.ltb_lt; by eapply holder_slots).
  assert (Hc : has_role x = true -> work_closed s = false) by (intros Hp; by destruct (receiver_alone s t x inv Et Hp) as (_ & ? & _)).
  assert (G : (exists mv s', thread_step t mv s = Some s' /\ (x <> RRecv \/ mv <> Go)) -> exists s', nearer s s').
  { intros (mv & s' & E & Hmv). exists s'. eapply thread_nearer; eauto. by destruct x. }
  apply G. destruct x; try done.
  all: try (exists Go; eexists; split; [unfold thread_step; rewrite Et; rewrite ?Hh, ?Hc by done; reflexivity|by left]).
  - exists (Fail ErrPeerClosed). eexists. split; [unfold thread_step; by rewrite Et|by right].
  - destruct (no_idle s) eqn:Ei.
    + exists Go. eexists. split; [unfold thread_step; by rewrite Et, Ei|by left].
    + assert (exists w, threads s !! w = Some WIdle) as [w Ew].
      { clear -Ei. unfold no_idle in Ei. induction (threads s) as [|p l IH]; [done|]. simpl in Ei.
        destruct p; try (destruct (IH Ei) as [w Hw]; by exists (S w)). by exists 0%nat. }
      exists (Hand w). eexists. split; [unfold thread_step, idle; by rewrite Et, Ew|by left].
  - exists Go. destruct (started s <? max s) eqn:Es; eexists; (split; [unfold thread_step; by rewrite Et, Es|by left]).
  - exists Go. eexists. split; [unfold thread_step; by rewrite Et, (result_free s t _ inv Et)|by left].
Qed.

(** A waiting point other than the receiver's. *)
Lemma poll_nearer s t r x :
  server_inv s -> room s -> threads s !! t = Some x -> x = SWatch r \/ x = STimer r -> exists s', nearer s s'.
Proof.
  intros inv Hr Et Hx. pose proof (sv_armed _ inv) as Hle.
  pose proof (countb_nonneg resetting (threads s)). pose proof (countb_nonneg on_watch (watches s)).
  destruct (receiver_alone s t x inv Et ltac:(by destruct Hx as [->| ->])) as (_ & Hc & _ & Hone & _ & Hst).
  assert (Hstop : stopped s = true) by (by destruct Hx as [->| ->]).
  assert (Hsw : countb swept (threads s) = 0).
  { pose proof (count_others swept has_role _ _ _ (ltac:(by intros [])) Et) as Ho. pose proof (countb_nonneg swept (threads s)).
    destruct Hx as [->| ->]; simpl in Ho; lia. }
  pose proof (sv_armed_eq _ inv) as Heq. rewrite Hsw, Hc in Heq. specialize (Heq eq_refl).
  assert (Hlast : forall a z, rtc bounded_step s a -> server_inv a -> room a -> threads a !! t = Some z -> work a = work s ->
     (z = SWatch r /\ armed a = false \/ z = STimer r /\ timer a <> None) -> exists s', nearer s s').
  { intros a z Ra Ia Hra Ea Hwa Hz. destruct (thread_step t Go a) as [b|] eqn:Eb.
    - destruct (thread_step_work a b t Go z Ia Eb Ea ltac:(left; by destruct Hz as [[-> _]|[-> _]])) as [_ H2]. specialize (H2 Hra).
      exists b. split_and!; [eapply rtc_r; [exact Ra|]; split; [by eapply ss_thread|by apply room_epoch]| |done].
      rewrite <- Hwa. unfold thread_step in Eb. rewrite Ea in Eb.
      pose proof (sum_insert pc_work _ _ _ (SCancel r) Ea) as Hs.
      destruct Hz as [[-> Hz]|[-> Hz]]; [rewrite Hz in Eb|destruct (timer a) eqn:Etm; [|done]]; simplify_eq; unfold work; simpl in *; rewrite ?Etm; lia.
    - exfalso. unfold thread_step in Eb. rewrite Ea in Eb. destruct Hz as [[-> _]|[-> _]]; done. }
  assert (Hfirst : forall y, thread_step t Go s = Some (set_pc t y s) -> polls y = true -> polls x = true ->
     exists a, a = set_pc t y s /\ rtc bounded_step s a /\ server_inv a /\ room a /\ threads a !! t = Some y /\ work a = work s).
  { intros y E Hy Hpx. destruct (thread_step_work s _ t Go x inv E Et ltac:(left; by destruct x)) as [_ H2]. specialize (H2 Hr).
    eexists. split; [reflexivity|]. assert (Hb : bounded_step s (set_pc t y s)) by (split; [by eapply ss_thread|by apply room_epoch]).
    split_and!; [by apply rtc_once|by eapply server_step_inv|done|simpl; apply list_lookup_insert_eq; by eapply lookup_lt_Some|].
    pose proof (sum_insert pc_work _ _ _ y Et) as Hs. unfold work. simpl. destruct x, y; simpl in *; done || lia. }
  destruct (timer s) as [d|] eqn:Etm.
  - assert (Ea : armed s = true) by (destruct (armed s); simpl in *; [done|lia]). destruct Hx as [->| ->].
    + destruct (Hfirst (STimer r)) as (a & -> & Ra & Ia & Hra & Eta & Hwa); [unfold thread_step; by rewrite Et, Ea|done|done|].
      eapply Hlast; eauto. right. simpl. by rewrite Etm.
    + eapply (Hlast s); eauto using rtc_refl. right. by rewrite Etm.
  - destruct (armed s) eqn:Ea.
    + destruct (decide (0 < countb resetting (threads s))) as [Hp|Hp].
      * apply countb_exists in Hp as (u & p & Eu & Hp). eapply free_nearer; eauto. by destruct p.
      * destruct (countb_exists on_watch (watches s)) as (i & p & Ei & Hp'); [simpl in *; lia|].
        eapply watch_nearer; eauto. by intros ->.
    + destruct Hx as [->| ->]; [eapply (Hlast s); eauto using rtc_refl|].
      destruct (Hfirst (SWatch r)) as (a & -> & Ra & Ia & Hra & Eta & Hwa); [unfold thread_step; by rewrite Et, Etm|done|done|].
      eapply Hlast; eauto.
Qed.

(** A receiver that waits for a slot or for a worker: whoever holds what it
    waits for can go on. *)
Lemma slot_nearer s t m :
  server_inv s -> room s -> threads s !! t = Some (DSlot m) -> exists s', nearer s s'.
Proof.
  intros inv Hr Et. destruct (slots s <? max s) eqn:Es.
  - eexists. eapply (thread_nearer s _ t Go); eauto. unfold thread_step. by rewrite Et, Es.
  - destruct (receiver_alone s t _ inv Et eq_refl) as (_ & _ & _ & Hone & _). breflect.
    pose proof (sv_slots _ inv) as Hsl. pose proof (sv_max _ inv).
    destruct (decide (0 < countb holds_slot (threads s))) as [Hp|Hp]; [|destruct (decide (0 < countb (escalated (state s)) (threads s))) as [Hq|Hq]].
    + apply countb_exists in Hp as (u & p & Eu & Hp). eapply free_nearer; eauto.
      destruct (decide (u = t)) as [->|Hne]; [by simplify_eq|].
      pose proof (countb_unique has_role (threads s) t (DSlot m) u p (Z.eq_le_incl _ _ Hone) Et eq_refl Eu Hne). by destruct p.
    + apply countb_exists in Hq as (u & p & Eu & Hq). eapply free_nearer; eauto. by destruct p.
    + destruct (countb_exists w_holds_slot (watches s)) as (i & p & Ei & Hp'); [lia|]. eapply watch_nearer; eauto; [by intros ->|].
      left. by intros ->.
Qed.

Lemma wait_nearer s t m :
  server_inv s -> room s -> threads s !! t = Some (DWait m) -> exists s', nearer s s'.
Proof.
  intros inv Hr Et. destruct (waiting_worker s t m inv Et) as (w & q & Ew & [->|[m' ->]]).
  - eexists. eapply (thread_nearer s _ t (Hand w)); eauto. unfold thread_step, idle. by rewrite Et, Ew.
  - eapply free_nearer; eauto.
Qed.

(** After the channel of requests was closed: the idle workers end, and
    Serve's own goroutine takes the result and waits for the others. *)
Lemma closed_nearer s :
  server_inv s -> placed s -> room s -> work_closed s = true -> (forall r, threads s !! 0%nat <> Some (Returned r)) ->
  Forall (fun p => waits p = true) (threads s) -> exists s', nearer s s'.
Proof.
  intros inv pl Hr Hc Hret Hall. destruct (decide (0 < countb is_worker (threads s))) as [Hp|Hp].
  - apply countb_exists in Hp as (w & q & Ew & Hq). pose proof (Forall_lookup_1 _ _ _ _ Hall Ew) as Hwq. destruct q; try done.
    eexists. eapply (thread_nearer s _ w Go); eauto. unfold thread_step. by rewrite Ew, Hc.
  - pose proof (sv_role _ inv) as Hro. rewrite Hc in Hro. simpl in Hro.
    pose proof (countb_nonneg has_role (threads s)). pose proof (countb_nonneg (current (state s)) (threads s)).
    pose proof (countb_nonneg w_spawns (watches s)).
    assert (Hj : forall t p, threads s !! t = Some p -> t = 0%nat /\ (p = JResult \/ exists r, p = JWait r) \/ t <> 0%nat /\ p = Gone).
    { intros t p Et. pose proof (Forall_lookup_1 _ _ _ _ Hall Et) as Hw. pose proof (pl_place _ pl t p Et) as Hpl.
      assert (Hn : has_role p = false /\ is_worker p = false).
      { split; [destruct (has_role p) eqn:E; [|done]; pose proof (countb_pos has_role _ _ (list_elem_of_lookup_2 _ _ _ Et) E); lia|].
        destruct (is_worker p) eqn:E; [|done]. pose proof (countb_pos is_worker _ _ (list_elem_of_lookup_2 _ _ _ Et) E). lia. }
      destruct Hn. destruct p; try done; simpl in Hpl; rewrite ?negb_true_iff, ?Nat.eqb_neq, ?Nat.eqb_eq in Hpl; subst; eauto; by destruct (Hret _ Et). }
    destruct (threads s !! 0%nat) as [p|] eqn:E0; [|destruct pl as [Hm _]; by destruct (threads s)].
    destruct (Hj _ _ E0) as [[_ Hp0]|[? _]]; [|done].
    assert (Hl : forall f, f Gone = false -> countb f (threads s) = one (f p)).
    { intros f Hf. destruct (threads s) as [|p' l]; [done|]. simpl in E0. simplify_eq. rewrite countb_cons.
      assert (Hg : forall q, q ∈ l -> q = Gone) by (intros q [k Hk]%list_elem_of_lookup; by destruct (Hj (S k) q Hk) as [[? _]|[_ ?]]).
      assert (countb f l = 0); [|unfold one; lia]. clear -Hg Hf. induction l as [|q l IH]; [done|].
      rewrite countb_cons, (Hg q), Hf by left. rewrite IH; [done|]. intros q' Hq'. apply Hg. by right. }
    pose proof (sv_joined _ inv) as Hjo. rewrite Hc, !Hl in Hjo by done. pose proof (sv_wg _ inv) as Hwg. rewrite Hl in Hwg by done.
    destruct Hp0 as [->|[r ->]]; simpl in *.
    + destruct (sresult s) as [r|] eqn:Er; [|simpl in Hjo; lia].
      eexists. eapply (thread_nearer s _ 0 Go); eauto. unfold thread_step. by rewrite E0, Er.
    + eexists. eapply (thread_nearer s _ 0 Go); eauto. unfold thread_step. rewrite E0, Hwg. reflexivity.
Qed.

Lemma serve_progress s :
  server_inv s -> placed s -> room s -> (forall r, threads s !! 0%nat <> Some (Returned r)) -> exists s', nearer s s'.
Proof.
  intros inv pl Hr Hret. destruct (decide (Forall (fun p => waits p = true) (threads s))) as [Hall|Hn].
  2: { apply not_Forall_Exists in Hn; [|apply _]. apply list.Exists_exists in Hn as (p & Hin & Hp).
       apply list_elem_of_lookup in Hin as [t Et]. apply not_true_is_false in Hp. by eapply free_nearer. }
  destruct (work_closed s) eqn:Hc; [by apply closed_nearer|].
  pose proof (sv_role _ inv) as Hro. rewrite Hc in Hro. simpl in Hro.
  destruct (decide (0 < countb has_role (threads s))) as [Hp|Hp]; [|destruct (decide (0 < countb (current (state s)) (threads s))) as [Hq|Hq]].
  - apply countb_exists in Hp as (t & p & Et & Hp). pose proof (Forall_lookup_1 _ _ _ _ Hall Et) as Hw.
    destruct p; try done; eauto using slot_nearer, wait_nearer; eapply poll_nearer; eauto.
  - apply countb_exists in Hq as (t & p & Et & Hq). pose proof (Forall_lookup_1 _ _ _ _ Hall Et) as Hw. by destruct p.
  - destruct (countb_exists w_spawns (watches s)) as (i & p & Ei & Hp'); [lia|]. eapply watch_nearer; eauto; [by intros ->|].
    left. by intros ->.
Qed.

Lemma steps_keep s s' : rtc bounded_step s s' -> server_inv s /\ placed s -> server_inv s' /\ placed s'.
Proof.
  induction 1 as [|a b c Hab _ IH]; [done|]. intros [Ha Hp]. apply IH. split; [by eapply server_step_inv|].
  destruct Hab as [Hab _]. destruct Hab; [by eapply thread_step_placed|by eapply watch_step_placed|(by refine (placed_same _ _ _ Hp))..].
Qed.

(** So it can come to its end. *)
Lemma serve_can_return s :
  server_inv s -> placed s -> room s -> exists s' r, rtc bounded_step s s' /\ threads s' !! 0%nat = Some (Returned r).
Proof.
  remember (work s) as n eqn:En. revert s En. induction (lt_wf n) as [n _ IH]. intros s -> inv pl Hr.
  assert ((exists r, threads s !! 0%nat = Some (Returned r)) \/ forall r, threads s !! 0%nat <> Some (Returned r)) as [[r E]|Hn].
  { destruct (threads s !! 0%nat) as [[]|]; eauto; right; by intros r. }
  { by exists s, r. }
  destruct (serve_progress s inv pl Hr) as (s1 & R1 & Hlt & Hr1); [done|].
  destruct (steps_keep s s1 R1 (conj inv pl)) as [inv1 pl1].
  destruct (IH (work s1) Hlt s1 eq_refl inv1 pl1 Hr1) as (s' & r & R & E). exists s', r. split; [by etrans|done].
Qed.

(** ** Properties *)

Lemma stopped_room s : server_inv s -> stopped s = true -> room s /\ forall t p, threads s !! t = Some p -> p <> RRecv.
Proof.
  intros inv Es. assert (Hr : forall t p, threads s !! t = Some p -> has_role p = true -> ending p = true).
  { intros t p Et Hp. destruct (receiver_alone s t p inv Et Hp) as (_ & _ & _ & _ & _ & Hst). congruence. }
  split; [|intros t p Et ->; by specialize (Hr t RRecv Et eq_refl)].
  assert (Hz : countb unstarted (threads s) = 0); [|unfold room; rewrite Hz; destruct (sv_epoch _ inv); lia].
  pose proof (countb_nonneg unstarted (threads s)). destruct (decide (0 < countb unstarted (threads s))) as [Hp|Hp]; [|lia].
  apply countb_exists in Hp as (t & p & Et & Hp). specialize (Hr t p Et (unstarted_role p Hp)). by destruct p.
Qed.

Lemma stopped_mono s s' : bounded_step s s' -> stopped s = true -> stopped s' = true.
Proof.
  intros [H _] Es. destruct H as [s t mv s' E|s i s' E| | | | ]; try done.
  - unfold thread_step in E. destruct (threads s !! t) as [x|]; [|done]. destruct x, mv; try done; simplify_eq;
      repeat (case_match; simplify_eq); done.
  - unfold watch_step in E. destruct (watches s !! i) as [x|]; [|done]. destruct x; simplify_eq; repeat (case_match; simplify_eq); done.
Qed.

(** A run from [s], with the number of its accesses outside of [stopWatch]'s
    loop. *)
Inductive run_of : nat -> server -> server -> Prop :=
| run_none s : run_of 0 s s
| run_thread k s s1 s' t mv p :
    thread_step t mv s = Some s1 -> threads s !! t = Some p -> epoch s1 < 2 ^ 61 -> run_of k s1 s' ->
    run_of (if polls p then k else S k) s s'
| run_watch k s s1 s' i : watch_step i s = Some s1 -> epoch s1 < 2 ^ 61 -> run_of k s1 s' -> run_of (S k) s s'
| run_other k s s1 s' : bounded_step s s1 -> threads s1 = threads s -> run_of k s1 s' -> run_of k s s'.

Lemma other_work s s' : bounded_step s s' -> server_inv s -> stopped s = true -> (work s' <= work s)%nat.
Proof.
  intros [H _] inv Es. destruct (stopped_room s inv Es) as [_ Hn]. destruct H as [s t mv s' E|s i s' E|s d Hd|s d Ed Hd|s e Ee|s]; try done.
  - destruct (threads s !! t) as [x|] eqn:Et; [|unfold thread_step in E; by rewrite Et in E].
    destruct (thread_step_work s s' t mv x inv E Et) as [H _]; [left; by eapply Hn|lia].
  - destruct (watches s !! i) as [x|] eqn:Ei; [|unfold watch_step in E; by rewrite Ei in E].
    destruct (watch_step_work s s' i x E Ei ltac:(by right)). lia.
  - unfold work. simpl. rewrite Ed, sum_snoc. simpl. lia.
Qed.

Lemma run_work k s s' : run_of k s s' -> server_inv s -> stopped s = true -> (k + work s' <= work s)%nat.
Proof.
  induction 1 as [s|k s s1 s' t mv p E Et He _ IH|k s s1 s' i E He _ IH|k s s1 s' Hb _ _ IH]; intros inv Es; [done|..].
  - assert (Hb : bounded_step s s1) by (split; [by eapply ss_thread|done]). destruct (stopped_room s inv Es) as [_ Hn].
    destruct (thread_step_work s s1 t mv p inv E Et) as [H _]; [left; by eapply Hn|].
    specialize (IH (server_step_inv _ _ inv Hb) (stopped_mono _ _ Hb Es)). destruct (polls p); lia.
  - assert (Hb : bounded_step s s1) by (split; [by eapply ss_watch|done]).
    specialize (IH (server_step_inv _ _ inv Hb) (stopped_mono _ _ Hb Es)).
    destruct (watches s !! i) as [x|] eqn:Ei; [|unfold watch_step in E; by rewrite Ei in E].
    destruct (watch_step_work s s1 i x E Ei ltac:(by right)). lia.
  - specialize (IH (server_step_inv _ _ inv Hb) (stopped_mono _ _ Hb Es)). pose proof (other_work _ _ Hb inv Es). lia.
Qed.

(** Somebody has what the receiver waits for in front of [DSlot]. *)
Lemma slot_holder s t m :
  server_inv s -> threads s !! t = Some (DSlot m) -> max s <= slots s ->
  (exists u p, threads s !! u = Some p /\ u <> t /\ (holds_slot p = true \/ escalated (state s) p = true)) \/
  (exists i p, watches s !! i = Some p /\ w_holds_slot p = true).
Proof.
  intros inv Et Hle. pose proof (sv_slots _ inv). pose proof (sv_max _ inv).
  destruct (decide (0 < countb holds_slot (threads s))) as [Hp|Hp]; [|destruct (decide (0 < countb (escalated (state s)) (threads s))) as [Hq|Hq]].
  - left. apply countb_exists in Hp as (u & p & Eu & Hp). exists u, p. split_and!; auto. intros ->. by simplify_eq.
  - left. apply countb_exists in Hq as (u & p & Eu & Hq). exists u, p. split_and!; auto. intros ->. by simplify_eq.
  - right. apply countb_exists. lia.
Qed.

(** The loop of [stopWatch] waits for somebody. *)
Lemma poll_cause s t p :
  server_inv s -> threads s !! t = Some p -> polls p = true -> armed s = true ->
  timer s <> None \/ (exists u q, threads s !! u = Some q /\ resetting q = true) \/ (exists i q, watches s !! i = Some q /\ on_watch q = true).
Proof.
  intros inv Et Hp Ha. assert (Hr : has_role p = true) by (by destruct p).
  destruct (receiver_alone s t p inv Et Hr) as (_ & Hc & _ & Hone & _).
  pose proof (count_others swept has_role _ _ _ (ltac:(by intros [])) Et) as Ho. pose proof (countb_nonneg swept (threads s)).
  pose proof (sv_armed_eq _ inv) as Heq. rewrite Hc, Ha in Heq. rewrite Hr in Ho. assert (Hs : swept p = false) by (by destruct p).
  rewrite Hs in Ho. simpl in *. specialize (Heq ltac:(lia)). destruct (timer s); [by left|right]. simpl in Heq.
  destruct (decide (0 < countb resetting (threads s))) as [Hq|Hq]; [left; by apply countb_exists|right].
  apply countb_exists. pose proof (countb_nonneg resetting (threads s)). lia.
Qed.

(** Serve's own goroutine waits for a result that is there or will come. *)
Lemma result_comes s :
  server_inv s -> placed s -> threads s !! 0%nat = Some JResult ->
  sresult s <> None \/ (exists u p, threads s !! u = Some p /\ receives s p = true) \/ (exists i, watches s !! i = Some WaSpawn).
Proof.
  intros inv pl E0. pose proof (sv_joined _ inv) as Hj. pose proof (sv_role _ inv) as Hr.
  assert (H0 : countb joined (threads s) = 0).
  { pose proof (countb_nonneg joined (threads s)). destruct (decide (0 < countb joined (threads s))) as [Hp|Hp]; [|lia].
    apply countb_exists in Hp as (t & p & Et & Hp). pose proof (pl_place _ pl t p Et) as Hpl.
    destruct p; try done; simpl in Hpl; apply Nat.eqb_eq in Hpl as ->; by simplify_eq. }
  destruct (sresult s); [by left|right]. simpl in Hj. rewrite H0 in Hj.
  pose proof (countb_nonneg closing (threads s)). pose proof (one_range (work_closed s)).
  destruct (decide (0 < countb has_role (threads s))) as [Hp|Hp]; [|destruct (decide (0 < countb (current (state s)) (threads s))) as [Hq|Hq]].
  - left. apply countb_exists in Hp as (u & p & Eu & Hp). exists u, p. split; [done|]. unfold receives. by rewrite Hp.
  - left. apply countb_exists in Hq as (u & p & Eu & Hq). exists u, p. split; [done|]. unfold receives. by rewrite Hq, orb_true_r.
  - right. destruct (countb_exists w_spawns (watches s)) as (i & p & Ei & Hp'); [lia|]. exists i. by destruct p.
Qed.

(** C22. Nothing in a server blocks for ever. The receives that give a slot
    back find one; the send of a request to a worker and the close of the
    channel find it open, and it is closed once; the send of the result finds
    its channel empty. Whoever waits waits for somebody: the receiver in front
    of a full slot channel for a goroutine or a callback that holds a slot; a
    request after all workers were started for a worker that is idle or has
    only its response left; [stopWatch], while [armed] is set, for a timer that
    is set, a goroutine about to set it or an execution of [watch]; Serve's own
    goroutine for a result that is there, a receiver that will send it or a
    callback about to start one, and then for goroutines that have not ended.
    [escalate] fails only for a run that is over. And from every state [Serve]
    can be brought to its return. *)
Theorem serve_no_stall n lim s :
  rtc bounded_step (newServer n lim) s ->
  (forall t p, threads s !! t = Some p ->
     match p with
     | RGiveBack _ | WRelease _ | DUndo _ => 0 < slots s
     | DOffer _ | SClose | MClose _ => work_closed s = false
     | DSlot _ => max s <= slots s ->
         (exists u q, threads s !! u = Some q /\ u <> t /\ (holds_slot q = true \/ escalated (state s) q = true)) \/
         (exists i q, watches s !! i = Some q /\ w_holds_slot q = true)
     | DWait _ => work_closed s = false /\ exists w q, threads s !! w = Some q /\ (q = WIdle \/ exists m, q = WRespond m)
     | SWatch _ | STimer _ => armed s = true ->
         timer s <> None \/ (exists u q, threads s !! u = Some q /\ resetting q = true) \/
         (exists i q, watches s !! i = Some q /\ on_watch q = true)
     | SResult _ => sresult s = None
     | JResult =>
         sresult s <> None \/ (exists u q, threads s !! u = Some q /\ receives s q = true) \/
         (exists i, watches s !! i = Some WaSpawn)
     | JWait _ => wg s = countb live (threads s) - 1
     | _ => True
     end) /\
  (forall i p, watches s !! i = Some p ->
     match p with WaUndo _ => 0 < slots s | WaRetry st => state s <> st | _ => True end) /\
  (epoch s + 1 < 2 ^ 61 -> exists s' r, rtc bounded_step s s' /\ threads s' !! 0%nat = Some (Returned r)).
Proof.
  intros H. pose proof (serve_reachable _ _ _ H) as inv. pose proof (reachable_placed _ _ _ H) as pl. split_and!.
  - intros t p Et.
    assert (Hr : has_role p = true -> work_closed s = false) by (intros Hp; by destruct (receiver_alone s t p inv Et Hp) as (_ & ? & _)).
    destruct p; eauto using holder_slots, slot_holder, result_free.
    + split; [by apply Hr|]. apply (waiting_worker s t _ inv Et).
    + by eapply poll_cause.
    + by eapply poll_cause.
    + apply result_comes; try done. pose proof (pl_place _ pl t _ Et) as Hp. simpl in Hp. by apply Nat.eqb_eq in Hp as ->.
    + apply (sv_wg _ inv).
  - intros i p Ei. pose proof (Forall_lookup_1 _ _ _ _ (sv_watches _ inv) Ei) as Hok.
    pose proof (list_elem_of_lookup_2 _ _ _ Ei) as Hin. destruct p; auto.
    + pose proof (countb_pos w_holds_slot _ _ Hin eq_refl). rewrite (sv_slots _ inv).
      pose proof (countb_nonneg holds_slot (threads s)). pose proof (countb_nonneg (escalated (state s)) (threads s)). lia.
    + simpl in Hok. lia.
  - intros He. apply serve_can_return; [done..|]. unfold room.
    pose proof (countb_mono unstarted has_role (threads s) unstarted_role). pose proof (sv_role _ inv).
    pose proof (countb_nonneg (current (state s)) (threads s)). pose proof (countb_nonneg w_spawns (watches s)).
    pose proof (one_range (work_closed s)). lia.
Qed.

(** The receiver's receive failed while the escalated handler goes on, and
    the watchdog's callback is in the middle of its round. *)
Lemma serve_no_stall_witness :
  exists s, rtc bounded_step (newServer 1 10) s /\ threads s = [RHandle 1 9 0; SWatch None] /\ armed s = true /\
    exists s' r, rtc bounded_step s s' /\ threads s' !! 0%nat = Some (Returned r).
Proof.
  destruct (serve_run (escalate_second ++ [AT 1 (Fail ErrPeerClosed); AT 1 Go]) (newServer 1 10)) as [s|] eqn:E; [|vm_compute in E; discriminate].
  exists s. pose proof (serve_run_steps _ _ _ E) as H. destruct (serve_no_stall 1 10 s H) as (_ & _ & He).
  vm_compute in E. injection E as <-. split; [exact H|]. split; [reflexivity|]. split; [reflexivity|]. apply He. reflexivity.
Defined.

(** C40. [Serve] ends after receiving did. Once [stopped] is set, a run of the
    server's goroutines, callbacks and timer has, in every interleaving, no
    more accesses outside of [stopWatch]'s loop than [work] counts in front of
    it, and no step adds to them; and as long as [Serve] has not returned its
    goroutines and callbacks, left to themselves, do another one. So a
    schedule that lets everybody go on ends with [Serve] returned, with its
    handlers and workers gone. *)
Theorem serve_ends n lim s :
  rtc bounded_step (newServer n lim) s -> stopped s = true ->
  (forall k s', run_of k s s' -> (k + work s' <= work s)%nat) /\
  ((exists r, threads s !! 0%nat = Some (Returned r) /\ forall t p, threads s !! t = Some p -> t <> 0%nat -> p = Gone) \/
   (exists s', rtc bounded_step s s' /\ (work s' < work s)%nat)).
Proof.
  intros H Es. pose proof (serve_reachable _ _ _ H) as inv. pose proof (reachable_placed _ _ _ H) as pl. split.
  - intros k s' Hr. by apply run_work.
  - assert ((exists r, threads s !! 0%nat = Some (Returned r)) \/ forall r, threads s !! 0%nat <> Some (Returned r)) as [[r E]|Hn].
    { destruct (threads s !! 0%nat) as [[]|]; eauto; right; by intros r. }
    + left. exists r. split; [done|]. by eapply returned_alone.
    + right. destruct (serve_progress s inv pl (proj1 (stopped_room s inv Es)) Hn) as (s' & R & Hlt & _). by exists s'.
Qed.

Lemma serve_ends_witness :
  exists s, rtc bounded_step (newServer 1 10) s /\ stopped s = true /\ work s = 17%nat /\
    exists s', rtc bounded_step s s' /\ (work s' < 17)%nat.
Proof.
  destruct (serve_run (escalate_second ++ [AT 1 (Fail ErrPeerClosed); AT 1 Go]) (newServer 1 10)) as [s|] eqn:E; [|vm_compute in E; discriminate].
  exists s. pose proof (serve_run_steps _ _ _ E) as H. vm_compute in E. injection E as <-.
  destruct (serve_ends 1 10 _ H eq_refl) as (_ & [(r & Hr & _)|Hs]); [discriminate Hr|].
  split; [exact H|]. split; [reflexivity|]. split; [reflexivity|]. exact Hs.
Defined.
