(* ===== verification/Response.v ===== *)
(** * Response: what a handler writes and what the caller receives

    Models [ResponseWriter], [Mux], [respond] and [sendResponse] of rpc.go. The
    handlers are the user's code; a handler is known by the calls it makes on
    its response writer. Buffers come from the message pool with arbitrary
    contents; a function that could panic returns [None]. *)
From S2P Require Import Prelude Errors Meta Message.

(** ** The response writer *)

Record ResponseWriter := mkWriter {
  w_body : option Message;   (* pooled buffer, [m_n] bytes of it written *)
  w_status : Z;
  w_failed : bool;
  w_skip : bool
}.

Definition zero_writer : ResponseWriter := mkWriter None 0 false false.

Section Writer.
Variable maxMessageSize : Z.
Variable recycle : Z -> bytes.   (* the buffers the pool hands out, by class *)

(** [copy(m.data[n:need], p)] and [m.n = need] *)
Definition append_to (m : Message) (n : nat) (p : bytes) : option Message :=
  if (n + length p <=? length (m_data m))%nat
  then Some (mkMsg (m_hdr m) (blit n p (m_data m)) (m_off m) (n + length p) (m_class m) (m_meta m) (m_recvAt m))
  else None.

(** [copy(g.data, body.data[:n])] *)
Definition copy_body (g body : Message) (n : nat) : option Message :=
  if (n <=? length (m_data body))%nat
  then Some (mkMsg (m_hdr g) (copy_to (m_data g) (take n (m_data body))) (m_off g) (m_n g) (m_class g) (m_meta g) (m_recvAt g))
  else None.

(** [Write]: the writer, and the number of bytes written or the error. *)
Definition Write (p : bytes) (w : ResponseWriter) : option (ResponseWriter * result error nat) :=
  let n := match w_body w with Some m => m_n m | None => O end in
  if maxMessageSize - Z.min (Z.of_nat n) maxMessageSize <? Z.of_nat (length p) then Some (w, Err ErrBufferOverflow)
  else
    let need := (n + length p)%nat in
    body ← match w_body w with
           | None => get maxMessageSize recycle (Z.of_nat need)
           | Some m =>
               if (length (m_data m) <? need)%nat
               then g ← get maxMessageSize recycle (Z.of_nat need); copy_body g m n
               else Some m
           end;
    body ← append_to body n p;
    Some (mkWriter (Some body) (w_status w) (w_failed w) (w_skip w), Ok (length p)).

Definition WriteError (status : Z) (p : bytes) (w : ResponseWriter) : option ResponseWriter :=
  let status := if status =? 0 then ErrCodeInvalidOp else status in
  let body := match w_body w with
              | Some m => Some (mkMsg (m_hdr m) (m_data m) (m_off m) 0 (m_class m) (m_meta m) (m_recvAt m))
              | None => None
              end in
  '(w, r) ← Write p (mkWriter body status true (w_skip w));
  Some (match r with
        | Ok _ => w
        | Err _ => mkWriter (w_body w) ErrCodeBufferOverflow (w_failed w) (w_skip w)
        end).

(** The calls of a handler on its writer. *)
Inductive wcall := CallWrite (p : bytes) | CallError (status : Z) (p : bytes).

(** The writer after the calls, and what the [Write]s returned. *)
Fixpoint run_handler (l : list wcall) (w : ResponseWriter) : option (ResponseWriter * list (result error nat)) :=
  match l with
  | [] => Some (w, [])
  | CallWrite p :: l =>
      '(w, r) ← Write p w; '(w, rs) ← run_handler l w; Some (w, r :: rs)
  | CallError status p :: l => w ← WriteError status p w; run_handler l w
  end.

End Writer.

(** [sendResponse]: flags, status and payload of the message it sends. *)
Definition sendResponse (w : ResponseWriter) : Z * Z * bytes :=
  (if w_failed w then Z.lor AdvFlagResponse AdvFlagError else AdvFlagResponse,
   if w_failed w then w_status w else 0,
   match w_body w with Some m => Bytes m | None => [] end).

(** [respond], after a handler that ran: nothing is sent if the caller gave
    up. *)
Definition respond (w : ResponseWriter) : option (Z * Z * bytes) :=
  if w_skip w then None else Some (sendResponse w).

(** ** Requests and the mux *)

Record Request := mkRequest { r_msg : Message }.

Definition Method (r : Request) : Z := haux (m_hdr (r_msg r)).
Definition Payload (r : Request) : bytes := Bytes (r_msg r).
Definition StreamID (r : Request) : Z := streamID (m_hdr (r_msg r)).

Definition Handler : Type := Request -> list wcall.

Record Mux := mkMux { handlers : gmap Z Handler; NotFound : option Handler }.

Definition NewMux : Mux := mkMux ∅ None.

Definition Handle (method : Z) (h : Handler) (m : Mux) : Mux := mkMux (<[method := h]> (handlers m)) (NotFound m).

(** hqq: unknown method *)
Definition errUnknownMethod : bytes := [104; 113; 113; 58; 32; 117; 110; 107; 110; 111; 119; 110; 32; 109; 101; 116; 104; 111; 100].

Definition ServeHQQ (m : Mux) (req : Request) : list wcall :=
  match handlers m !! Method req with
  | Some h => h req
  | None =>
      match NotFound m with
      | Some h => h req
      | None => [CallError ErrCodeInvalidOp errUnknownMethod]
      end
  end.

(** ** What the calls mean *)

(** A response: whether it is an error response, its status and its body. *)
Record response := mkResponse { rs_failed : bool; rs_status : Z; rs_body : bytes }.

Definition empty_response : response := mkResponse false 0 [].

Section Spec.
Variable maxMessageSize : Z.

Definition spec_write (p : bytes) (r : response) : response * result error nat :=
  if Z.of_nat (length (rs_body r) + length p) <=? maxMessageSize
  then (mkResponse (rs_failed r) (rs_status r) (rs_body r ++ p), Ok (length p))
  else (r, Err ErrBufferOverflow).

Definition spec_error (status : Z) (p : bytes) : response :=
  let status := if status =? 0 then ErrCodeInvalidOp else status in
  if Z.of_nat (length p) <=? maxMessageSize then mkResponse true status p else mkResponse true ErrCodeBufferOverflow [].

Fixpoint spec_calls (l : list wcall) (r : response) : response * list (result error nat) :=
  match l with
  | [] => (r, [])
  | CallWrite p :: l => let (r, x) := spec_write p r in let (r, xs) := spec_calls l r in (r, x :: xs)
  | CallError status p :: l => spec_calls l (spec_error status p)
  end.

End Spec.

(** ** Refinement *)

Section Refines.
Variables (maxMessageSize : Z) (recycle : Z -> bytes).
Hypothesis max_ok : 0 <= maxMessageSize <= max_int.
Hypothesis recycle_ok : forall c, 0 <= c < pool_classes maxMessageSize -> Z.of_nat (length (recycle c)) = classSize maxMessageSize c.

(** The writer holds the response [r]. *)
Definition writes (w : ResponseWriter) (r : response) : Prop :=
  w_failed w = rs_failed r /\ w_status w = rs_status r /\ Z.of_nat (length (rs_body r)) <= maxMessageSize /\
  match w_body w with
  | None => rs_body r = []
  | Some m => m_off m = O /\ m_n m = length (rs_body r) /\ take (m_n m) (m_data m) = rs_body r /\ (m_n m <= length (m_data m))%nat
  end.

Lemma writes_Bytes w r : writes w r -> match w_body w with Some m => Bytes m | None => [] end = rs_body r.
Proof.
  intros (_ & _ & _ & H). destruct (w_body w) as [m|]; [|done]. destruct H as (E1 & E2 & E3 & _).
  unfold Bytes, slice. rewrite E1. simpl. by rewrite Nat.sub_0_r.
Qed.

(** A fresh or a grown buffer takes the bytes behind those it has. *)
Lemma append_to_ok m n p b :
  take n (m_data m) = b -> length b = n -> (n + length p <= length (m_data m))%nat -> m_off m = O ->
  exists m', append_to m n p = Some m' /\ m_off m' = O /\ m_n m' = length (b ++ p) /\
    take (m_n m') (m_data m') = b ++ p /\ (m_n m' <= length (m_data m'))%nat.
Proof.
  intros Hb Hn Hle Ho. unfold append_to. rewrite (proj2 (Nat.leb_le _ _) Hle). eexists. split; [reflexivity|]. simpl.
  rewrite length_app, Hn. split_and!; auto.
  - unfold blit. rewrite Hb, app_assoc. rewrite <- Hn, <- length_app. apply take_app_length.
  - rewrite length_blit; lia.
Qed.

Lemma get_fresh n :
  Z.of_nat n <= maxMessageSize -> exists g, get maxMessageSize recycle (Z.of_nat n) = Some g /\ m_off g = O /\ (n <= length (m_data g))%nat.
Proof.
  intros Hn. destruct (msgPool_get_fits maxMessageSize (Z.of_nat n) recycle) as (g & Eg & _ & Hl & _); [lia|lia|exact recycle_ok|].
  exists g. split; [done|]. split; [|lia]. unfold get in Eg. destruct (_ && _); by simplify_eq.
Qed.

Lemma Write_refines p w r :
  writes w r ->
  exists w', Write maxMessageSize recycle p w = Some (w', (spec_write maxMessageSize p r).2) /\
    writes w' (spec_write maxMessageSize p r).1 /\ w_skip w' = w_skip w.
Proof.
  intros (Hf & Hs & Hl & Hb). unfold Write, spec_write.
  assert (En : match w_body w with Some m => m_n m | None => O end = length (rs_body r)).
  { destruct (w_body w) as [m|]; [tauto|by rewrite Hb]. }
  rewrite En. rewrite Z.min_l by lia.
  destruct (Z.ltb_spec (maxMessageSize - Z.of_nat (length (rs_body r))) (Z.of_nat (length p))) as [Ho|Ho].
  - rewrite (proj2 (Z.leb_gt _ _)) by lia. exists w. split; [done|]. split; [|done]. by split_and!.
  - rewrite (proj2 (Z.leb_le _ _)) by lia. simpl.
    assert (Hbody : exists m, match w_body w with
        | Some m => if (length (m_data m) <? length (rs_body r) + length p)%nat
                    then g ← get maxMessageSize recycle (Z.of_nat (length (rs_body r) + length p)); copy_body g m (length (rs_body r))
                    else Some m
        | None => get maxMessageSize recycle (Z.of_nat (length (rs_body r) + length p)) end = Some m /\ m_off m = O /\
        take (length (rs_body r)) (m_data m) = rs_body r /\ (length (rs_body r) + length p <= length (m_data m))%nat).
    { destruct (w_body w) as [m|].
      - destruct Hb as (Eo & Emn & Et & Hle). rewrite Emn in *. destruct (Nat.ltb_spec (length (m_data m)) (length (rs_body r) + length p)); [|eauto].
        destruct (get_fresh (length (rs_body r) + length p)) as (g & Eg & Ego & Hg); [lia|]. rewrite Eg. simpl. unfold copy_body.
        rewrite (proj2 (Nat.leb_le _ _)) by lia. eexists. split; [reflexivity|]. simpl. rewrite Et. split; [done|].
        unfold copy_to, copy_n. rewrite Nat.min_r by lia. rewrite firstn_all.
        split; [apply take_app_length|]. rewrite length_app, length_drop. lia.
      - destruct (get_fresh (length (rs_body r) + length p)) as (g & Eg & Ego & Hg); [lia|]. rewrite Hb in *. eauto. }
    destruct Hbody as (m & -> & Hm1 & Hm2 & Hm3). simpl.
    destruct (append_to_ok m (length (rs_body r)) p _ Hm2 eq_refl Hm3 Hm1) as (m' & -> & H1 & H2 & H3 & H4). simpl.
    eexists. split; [reflexivity|]. split; [|done]. split_and!; simpl; auto. rewrite length_app. lia.
Qed.

Lemma WriteError_refines status p w r :
  writes w r ->
  exists w', WriteError maxMessageSize recycle status p w = Some w' /\ writes w' (spec_error maxMessageSize status p) /\ w_skip w' = w_skip w.
Proof.
  intros (Hf & Hs & Hl & Hb). unfold WriteError. set (st := if status =? 0 then ErrCodeInvalidOp else status).
  set (w1 := mkWriter _ st true (w_skip w)).
  assert (H1 : writes w1 (mkResponse true st [])).
  { split_and!; simpl; auto; [lia|]. destruct (w_body w) as [m|]; [|done]. simpl. destruct Hb as (Ho & _). split_and!; auto. lia. }
  destruct (Write_refines p w1 _ H1) as (w' & -> & Hw & Hsk). unfold spec_write, spec_error in *. simpl in *. fold st.
  destruct (Z.leb_spec (Z.of_nat (length p)) maxMessageSize); simpl in *; eexists; (split; [reflexivity|]); (split; [|done]); [done|].
  destruct Hw as (? & ? & ? & ?). by split_and!.
Qed.

Lemma run_handler_refines l : forall w r,
  writes w r -> exists w', run_handler maxMessageSize recycle l w = Some (w', (spec_calls maxMessageSize l r).2) /\
    writes w' (spec_calls maxMessageSize l r).1 /\ w_skip w' = w_skip w.
Proof.
  induction l as [|[p|status p] l IH]; intros w r H; simpl.
  - eauto.
  - destruct (Write_refines p w r H) as (w1 & -> & H1 & Hs1). destruct (spec_write maxMessageSize p r) as [r1 x]. simpl in *.
    destruct (IH w1 r1 H1) as (w2 & -> & H2 & Hs2). destruct (spec_calls maxMessageSize l r1) as [r2 xs]. simpl in *.
    eexists. split; [reflexivity|]. split; [done|congruence].
  - destruct (WriteError_refines status p w r H) as (w1 & -> & H1 & Hs1). simpl.
    destruct (IH w1 _ H1) as (w2 & -> & H2 & Hs2). eexists. split; [reflexivity|]. split; [done|congruence].
Qed.

End Refines.

(** ** Properties *)

(** C24. The response is what the handler wrote. For every handler a mux chooses
    for a request, and whatever the pooled buffers contain, no call on the
    response writer panics, each [Write] returns what the bound on messages
    says (one that would pass it is refused whole), and the message sent carries exactly the bytes written since the
    last [WriteError], its status and the error flag; it is never larger than
    the limit the sender applies. *)
Theorem response_as_written (maxMessageSize : Z) (recycle : Z -> bytes) (m : Mux) (req : Request) :
  0 <= maxMessageSize <= max_int ->
  (forall c, 0 <= c < pool_classes maxMessageSize -> Z.of_nat (length (recycle c)) = classSize maxMessageSize c) ->
  let (r, results) := spec_calls maxMessageSize (ServeHQQ m req) empty_response in
  exists w, run_handler maxMessageSize recycle (ServeHQQ m req) zero_writer = Some (w, results) /\
    respond w = Some (if rs_failed r then Z.lor AdvFlagResponse AdvFlagError else AdvFlagResponse,
                      if rs_failed r then rs_status r else 0, rs_body r) /\
    Z.of_nat (length (rs_body r)) <= maxMessageSize.
Proof.
  intros Hmax Hrec.
  destruct (run_handler_refines maxMessageSize recycle Hmax Hrec (ServeHQQ m req) zero_writer empty_response) as (w & E & Hw & Hs).
  { split_and!; simpl; try done. lia. }
  destruct (spec_calls maxMessageSize (ServeHQQ m req) empty_response) as [r results]. simpl in *.
  exists w. split; [done|]. unfold respond, sendResponse. rewrite Hs. simpl. rewrite (writes_Bytes _ _ _ Hw).
  destruct Hw as (-> & -> & Hl & _). done.
Qed.

(** A mux with one handler, which writes twice and then fails. *)
Definition sample_handler : Handler := fun req => [CallWrite (Payload req); CallWrite [1; 2]; CallError 9 [3]; CallWrite [4]].

Lemma response_as_written_witness :
  let recycle c := replicate (Z.to_nat (classSize 100 c)) 7 in
  let req := mkRequest (mkMsg (mkHeader 0 1 AdvFlagRequest 5) [10; 11] 0 2 0 no_meta 0) in
  exists w, run_handler 100 recycle (ServeHQQ (Handle 5 sample_handler NewMux) req) zero_writer = Some (w, [Ok 2%nat; Ok 2%nat; Ok 1%nat]) /\
    respond w = Some (48, 9, [3; 4]) /\ 2 <= 100.
Proof.
  intros recycle req. apply (response_as_written 100 recycle (Handle 5 sample_handler NewMux) req); [unfold max_int; lia|].
  intros c Hc. unfold recycle. rewrite length_replicate. apply Z2Nat.id.
  unfold classSize. pose proof (u64_range (Z.shiftl 1 (c + minMessageClass))) as H. unfold word in H. lia.
Defined.
