(* ===== verification/IdlTypes.v ===== *)
(** * IdlTypes: wire types of the interface language and their sizes

    Models model.go (types and their declarations) and types.go of bindgen/idl:
    what the wire rules derive from a type alone (size, alignment, smallest and
    largest encoding), with saturating 64-bit arithmetic and results stored in
    the declarations. Declarations refer to each other through pointers and may
    form cycles until the checker has rejected them; a pointer is the index of
    a declaration. *)
From S2P Require Import Prelude.
From Stdlib Require Ascii String.
Export String.StringSyntax.

(** ** Types and declarations *)

(** Text is a list of bytes; [str] turns a literal into one. *)
Fixpoint str (s : String.string) : bytes :=
  match s with
  | String.EmptyString => []
  | String.String c s => Z.of_N (Ascii.N_of_ascii c) :: str s
  end.

Arguments str s%_string_scope.

Definition VarSlack : Z := 11.
Definition DetailReserve : Z := 1032.
Definition DetailMax : Z := 1024.
Definition MaxStatic : Z := 2 ^ 30.
Definition MaxFixedArray : Z := 2 ^ 20.
Definition MaxBound : Z := 2 ^ 30.

Inductive Kind :=
| KBool | KI8 | KI16 | KI32 | KI64 | KU8 | KU16 | KU32 | KU64 | KSize | KF32 | KF64
| KStr | KBytes | KStruct | KUnion | KHandle | KFixedArray | KArray.

#[export] Instance Kind_eq_dec : EqDecision Kind.
Proof. solve_decision. Defined.

Definition Kind_index (k : Kind) : Z :=
  match k with
  | KBool => 1 | KI8 => 2 | KI16 => 3 | KI32 => 4 | KI64 => 5 | KU8 => 6 | KU16 => 7 | KU32 => 8 | KU64 => 9
  | KSize => 10 | KF32 => 11 | KF64 => 12 | KStr => 13 | KBytes => 14 | KStruct => 15 | KUnion => 16
  | KHandle => 17 | KFixedArray => 18 | KArray => 19
  end.

Definition IsInt (k : Kind) : bool := (Kind_index KI8 <=? Kind_index k) && (Kind_index k <=? Kind_index KSize).
Definition IsScalar (k : Kind) : bool := (Kind_index KBool <=? Kind_index k) && (Kind_index k <=? Kind_index KF64).

(** [Type]: the kind selects the fields that matter. A scalar has nothing but
    its kind; a declared type its name and the pointer to its declaration. *)
Inductive Ty :=
| Scalar (k : Kind)
| Str (Max : Z)
| Bytes (Max : Z)
| StructTy (Name : bytes) (St : nat)
| UnionTy (Name : bytes) (Un : nat)
| HandleTy (Name : bytes) (H : nat)
| FixedArray (Elem : Ty) (Len : Z)
| Array (Elem : Ty) (Max : Z).

#[export] Instance Ty_eq_dec : EqDecision Ty.
Proof. solve_decision. Defined.

Definition kind (t : Ty) : Kind :=
  match t with
  | Scalar k => k | Str _ => KStr | Bytes _ => KBytes | StructTy _ _ => KStruct | UnionTy _ _ => KUnion
  | HandleTy _ _ => KHandle | FixedArray _ _ => KFixedArray | Array _ _ => KArray
  end.

Definition Max (t : Ty) : Z := match t with Str m | Bytes m | Array _ m => m | _ => 0 end.

(** The declarations: the types of the members of every struct, and of the
    cases of every union with their tags ([None]: a case without a payload). *)
Record decls := mkDecls { d_structs : list (list Ty); d_unions : list (list (Z * option Ty)) }.

(** ** Saturating arithmetic *)

Definition satCap : Z := 2 ^ 61.

Definition satAdd (a b : Z) : Z := if a + b <? satCap then a + b else satCap.

(** The product is computed in 128 bits, [hi] and [lo]. *)
Definition satMul (a b : Z) : Z :=
  if (a =? 0) || (b =? 0) then 0
  else let hi := (a * b) / 2 ^ 64 in
       let lo := (a * b) mod 2 ^ 64 in
       if negb (hi =? 0) || (satCap <=? lo) then satCap else lo.

Definition roundUp (n a : Z) : Z := if a <=? 1 then n else (n + a - 1) / a * a.

(** ** What a type alone determines *)

Record tinfo := mkInfo { size : Z; align : Z; fixed : bool; min : Z; wc : Z; wcFinite : bool }.

Definition scalarSize (k : Kind) : Z :=
  match k with
  | KBool | KI8 | KU8 => 1
  | KI16 | KU16 => 2
  | KI32 | KU32 | KF32 | KHandle => 4
  | KI64 | KU64 | KSize | KF64 => 8
  | _ => 0
  end.

Definition scalar_info (k : Kind) : tinfo :=
  let s := scalarSize k in mkInfo s s true s (s + s - 1) true.

Definition handle_info : tinfo := mkInfo 4 4 true 4 7 true.

Definition str_info (mx : Z) : tinfo :=
  if 0 <? mx then mkInfo 0 4 false 5 (satAdd 8 mx) true else mkInfo 0 4 false 5 0 false.

Definition bytes_info (mx : Z) : tinfo :=
  if 0 <? mx then mkInfo 0 4 false 4 (satAdd 7 mx) true else mkInfo 0 4 false 4 0 false.

Definition fixedArray_info (e : tinfo) (len : Z) : tinfo :=
  if negb (fixed e) || (len <? 1) then mkInfo 0 (Z.max (align e) 1) false 4 0 false
  else let stride := roundUp (size e) (align e) in
       let body := satMul len stride in
       mkInfo body (align e) true body (satAdd (align e - 1) body) true.

Definition array_info (e : tinfo) (mx : Z) : tinfo :=
  if (0 <? mx) && wcFinite e then mkInfo 0 4 false 4 (satAdd 7 (satMul mx (wc e))) true
  else mkInfo 0 4 false 4 0 false.

(** One turn of the loop of [structInfo] over the members, with [off]. *)
Definition struct_member (mi : tinfo) (acc : tinfo * Z) : tinfo * Z :=
  let '(ti, off) := acc in
  (mkInfo (size ti) (Z.max (align ti) (align mi)) (fixed ti && fixed mi) (satAdd (min ti) (min mi))
     (if wcFinite mi then satAdd (wc ti) (wc mi) else wc ti) (wcFinite ti && wcFinite mi),
   if fixed mi then satAdd (roundUp off (align mi)) (size mi) else off).

Definition struct_start : tinfo * Z := (mkInfo 0 1 true 0 0 true, 0).

Definition struct_end (acc : tinfo * Z) : tinfo :=
  let '(ti, off) := acc in
  let ti := if fixed ti
            then let sz := roundUp off (align ti) in mkInfo sz (align ti) true (min ti) (satAdd (align ti - 1) sz) true
            else ti in
  if wcFinite ti then ti else mkInfo (size ti) (align ti) (fixed ti) (min ti) 0 false.

(** One turn of the loop of [unionInfo] over the cases that have a payload:
    [wcFinite] and [payload]. *)
Definition union_case (ci : tinfo) (acc : bool * Z) : bool * Z :=
  let '(fin, payload) := acc in
  if wcFinite ci then (fin, Z.max payload (wc ci)) else (false, payload).

Definition union_end (acc : bool * Z) : tinfo :=
  let '(fin, payload) := acc in
  if fin then mkInfo 0 4 false 4 (satAdd 7 payload) true else mkInfo 0 4 false 4 0 false.

(** ** The queries *)

(** A declaration: a struct or a union. *)
Inductive node := NStruct (i : nat) | NUnion (i : nat).

#[export] Instance node_eq_dec : EqDecision node.
Proof. solve_decision. Defined.

#[export] Instance node_countable : Countable node.
Proof.
  refine (inj_countable' (fun n => match n with NStruct i => inl i | NUnion i => inr i end)
            (fun x => match x with inl i => NStruct i | inr i => NUnion i end) _). by intros [].
Defined.

(** [info] and [infoBusy] of all of them. *)
Record memo := mkMemo { m_info : gmap node tinfo; m_busy : gset node }.

Definition empty_memo : memo := mkMemo ∅ ∅.

Section Info.
Context (D : decls).

(** The loops, over the query for a member's type. *)
Section Loops.
Variable query : Ty -> memo -> option (tinfo * memo).

Fixpoint struct_loop (ms : list Ty) (acc : tinfo * Z) (m : memo) : option ((tinfo * Z) * memo) :=
  match ms with
  | [] => Some (acc, m)
  | t :: ms => '(mi, m) ← query t m; struct_loop ms (struct_member mi acc) m
  end.

Fixpoint union_loop (cs : list (Z * option Ty)) (acc : bool * Z) (m : memo) : option ((bool * Z) * memo) :=
  match cs with
  | [] => Some (acc, m)
  | (_, None) :: cs => union_loop cs acc m
  | (_, Some t) :: cs => '(ci, m) ← query t m; union_loop cs (union_case ci acc) m
  end.

(** [s.infoBusy = true], the loop, [s.info = &ti], and the deferred reset. *)
Definition enter (n : node) (m : memo) : memo := mkMemo (m_info m) ({[n]} ∪ m_busy m).
Definition leave (n : node) (ti : tinfo) (m : memo) : memo := mkMemo (<[n := ti]> (m_info m)) (m_busy m ∖ {[n]}).

Definition structInfo (i : nat) (m : memo) : option (tinfo * memo) :=
  match d_structs D !! i with
  | None => Some (mkInfo 0 1 false 0 0 false, m)
  | Some ms =>
      match m_info m !! NStruct i with
      | Some ti => Some (ti, m)
      | None =>
          if decide (NStruct i ∈ m_busy m) then Some (mkInfo 0 1 false 0 0 false, m)
          else '(acc, m) ← struct_loop ms struct_start (enter (NStruct i) m);
               let ti := struct_end acc in Some (ti, leave (NStruct i) ti m)
      end
  end.

Definition unionInfo (i : nat) (m : memo) : option (tinfo * memo) :=
  match d_unions D !! i with
  | None => Some (mkInfo 0 4 false 4 0 false, m)
  | Some cs =>
      match m_info m !! NUnion i with
      | Some ti => Some (ti, m)
      | None =>
          if decide (NUnion i ∈ m_busy m) then Some (mkInfo 0 4 false 4 0 false, m)
          else '(acc, m) ← union_loop cs (true, 0) (enter (NUnion i) m);
               let ti := union_end acc in Some (ti, leave (NUnion i) ti m)
      end
  end.

End Loops.

(** [infoOf]; [None] only when the fuel runs out. *)
Fixpoint infoOf (fuel : nat) (t : Ty) (m : memo) : option (tinfo * memo) :=
  match fuel with
  | O => None
  | S fuel =>
      match t with
      | Scalar k => Some (if IsScalar k then scalar_info k else mkInfo 0 1 false 0 0 false, m)
      | HandleTy _ _ => Some (handle_info, m)
      | Str mx => Some (str_info mx, m)
      | Bytes mx => Some (bytes_info mx, m)
      | FixedArray e len => '(ei, m) ← infoOf fuel e m; Some (fixedArray_info ei len, m)
      | Array e mx => '(ei, m) ← infoOf fuel e m; Some (array_info ei mx, m)
      | StructTy _ i => structInfo (infoOf fuel) i m
      | UnionTy _ i => unionInfo (infoOf fuel) i m
      end
  end.

(** Enough fuel: every declaration is entered at most once on a path, and
    between two declarations there are at most as many calls as a type is deep. *)
Fixpoint depth (t : Ty) : nat := match t with FixedArray e _ | Array e _ => S (depth e) | _ => O end.

Definition decl_types : list Ty := mjoin (d_structs D) ++ omap snd (mjoin (d_unions D)).
Definition max_depth : nat := max_list (depth <$> decl_types).
Definition n_decls : nat := length (d_structs D) + length (d_unions D).
Definition info_fuel (t : Ty) : nat := S (depth t + n_decls * S max_depth).

End Info.

(** ** Reference: types without declarations *)

(** A type with its declarations written out. [XUnit] is the payload of a case
    without one. *)
Inductive xty :=
| XScalar (k : Kind) | XStr (mx : Z) | XBytes (mx : Z) | XHandle | XUnit
| XStruct (ms : list xty) | XUnion (tags : list Z) (cs : list xty)
| XFixedArray (e : xty) (len : Z) | XArray (e : xty) (mx : Z).

Definition is_unit (x : xty) : bool := match x with XUnit => true | _ => false end.

Fixpoint info (x : xty) : tinfo :=
  match x with
  | XScalar k => if IsScalar k then scalar_info k else mkInfo 0 1 false 0 0 false
  | XStr mx => str_info mx
  | XBytes mx => bytes_info mx
  | XHandle => handle_info
  | XUnit => mkInfo 0 1 false 0 0 false
  | XStruct ms => struct_end (fold_left (fun acc x => struct_member (info x) acc) ms struct_start)
  | XUnion _ cs => union_end (fold_left (fun acc x => if is_unit x then acc else union_case (info x) acc) cs (true, 0))
  | XFixedArray e len => fixedArray_info (info e) len
  | XArray e mx => array_info (info e) mx
  end.

Section Expand.
Context (D : decls).

Fixpoint expand_ty (rec : node -> option xty) (t : Ty) : option xty :=
  match t with
  | Scalar k => Some (XScalar k)
  | Str mx => Some (XStr mx)
  | Bytes mx => Some (XBytes mx)
  | HandleTy _ _ => Some XHandle
  | FixedArray e len => x ← expand_ty rec e; Some (XFixedArray x len)
  | Array e mx => x ← expand_ty rec e; Some (XArray x mx)
  | StructTy _ i => rec (NStruct i)
  | UnionTy _ i => rec (NUnion i)
  end.

Definition expand_case (rec : node -> option xty) (c : Z * option Ty) : option xty :=
  match c.2 with None => Some XUnit | Some t => expand_ty rec t end.

Fixpoint expand_node (k : nat) (n : node) : option xty :=
  match k with
  | O => None
  | S k =>
      match n with
      | NStruct i => ms ← d_structs D !! i; xs ← mapM (expand_ty (expand_node k)) ms; Some (XStruct xs)
      | NUnion i => cs ← d_unions D !! i; xs ← mapM (expand_case (expand_node k)) cs; Some (XUnion cs.*1 xs)
      end
  end.

(** [expand k t]: [t] written out, if its declarations nest less than [k] deep;
    a type that contains itself has no expansion. *)
Definition expand (k : nat) (t : Ty) : option xty := expand_ty (expand_node k) t.

End Expand.

(** ** The queries agree with the reference *)

Section Correct.
Context (D : decls).

Implicit Types (t : Ty) (n : node) (m : memo) (k : nat).

Lemma expand_ty_mono (f g : node -> option xty) t x :
  (forall n y, f n = Some y -> g n = Some y) -> expand_ty f t = Some x -> expand_ty g t = Some x.
Proof.
  intros Hfg. revert x. induction t; intros x E; simpl in *; auto;
    (destruct (expand_ty f t) eqn:Ef; simpl in E; [|done]; rewrite (IHt _ eq_refl); done).
Qed.

Lemma mapM_mono {A B} (f g : A -> option B) (l : list A) ys :
  (forall a b, f a = Some b -> g a = Some b) -> mapM f l = Some ys -> mapM g l = Some ys.
Proof.
  intros Hfg H. rewrite mapM_Some in H |- *. induction H as [|a b l bs Hab _ IH]; constructor; auto.
Qed.

Lemma expand_case_mono (f g : node -> option xty) c x :
  (forall n y, f n = Some y -> g n = Some y) -> expand_case f c = Some x -> expand_case g c = Some x.
Proof. intros Hfg. unfold expand_case. destruct c.2; [|done]. by apply expand_ty_mono. Qed.

Lemma expand_node_S k n x : expand_node D k n = Some x -> expand_node D (S k) n = Some x.
Proof.
  revert n x. induction k as [|k IH]; intros n x E; [done|].
  destruct n as [i|i]; cbn [expand_node] in E |- *.
  - destruct (d_structs D !! i) as [ms|]; cbn [mbind option_bind] in *; [|done].
    destruct (mapM _ ms) as [xs|] eqn:Em; cbn [mbind option_bind] in E; [|done].
    erewrite mapM_mono; [exact E| |exact Em]. intros a b Hab. eapply expand_ty_mono; [|exact Hab]. intros. by apply IH.
  - destruct (d_unions D !! i) as [cs|]; cbn [mbind option_bind] in *; [|done].
    destruct (mapM _ cs) as [xs|] eqn:Em; cbn [mbind option_bind] in E; [|done].
    erewrite mapM_mono; [exact E| |exact Em]. intros a b Hab. eapply expand_case_mono; [|exact Hab]. intros. by apply IH.
Qed.

Lemma expand_node_le k k' n x : (k <= k')%nat -> expand_node D k n = Some x -> expand_node D k' n = Some x.
Proof. induction 1; [done|]. intros. apply expand_node_S. auto. Qed.

Lemma expand_node_det k k' n x x' : expand_node D k n = Some x -> expand_node D k' n = Some x' -> x = x'.
Proof.
  intros H1 H2. apply (expand_node_le _ (Nat.max k k')) in H1; [|lia].
  apply (expand_node_le _ (Nat.max k k')) in H2; [|lia]. congruence.
Qed.

Lemma expand_S k t x : expand D k t = Some x -> expand D (S k) t = Some x.
Proof. apply expand_ty_mono. intros. by apply expand_node_S. Qed.

(** A stored result is the reference; a busy declaration contains [t]. *)
Definition memo_ok m : Prop :=
  forall n ti k x, m_info m !! n = Some ti -> expand_node D k n = Some x -> ti = info x.

Definition inside (busy : gset node) t : Prop :=
  forall n k, n ∈ busy -> is_Some (expand_node D (S k) n) -> is_Some (expand D k t).

Definition answers (query : Ty -> memo -> option (tinfo * memo)) t m : Prop :=
  forall r m', query t m = Some (r, m') -> memo_ok m -> inside (m_busy m) t ->
  m_busy m' = m_busy m /\ memo_ok m' /\ (forall k x, expand D k t = Some x -> r = info x).

(** A declaration inside itself has no expansion. *)
Lemma inside_self n k : (forall k, is_Some (expand_node D (S k) n) -> is_Some (expand_node D k n)) -> expand_node D k n = None.
Proof.
  intros H. induction k as [|k IH]; [done|]. destruct (expand_node D (S k) n) eqn:E; [|done].
  destruct (H k) as [y Hy]; [by rewrite E|]. congruence.
Qed.

Lemma memo_ok_enter n m : memo_ok m -> memo_ok (enter n m).
Proof. intros H n' ti k x. apply H. Qed.

Lemma memo_ok_leave n ti m :
  memo_ok m -> (forall k x, expand_node D k n = Some x -> ti = info x) -> memo_ok (leave n ti m).
Proof.
  intros Hm Hn n' ti' k x E Hx. simpl in E. destruct (decide (n' = n)) as [->|].
  - rewrite lookup_insert_eq in E. simplify_eq. by eapply Hn.
  - rewrite lookup_insert_ne in E by done. by eapply Hm.
Qed.

Lemma inside_struct busy i ms name t :
  d_structs D !! i = Some ms -> t ∈ ms -> inside busy (StructTy name i) -> inside ({[NStruct i]} ∪ busy) t.
Proof.
  intros Ei Ht Hin.
  assert (Hself : forall k, is_Some (expand_node D (S k) (NStruct i)) -> is_Some (expand D k t)).
  { intros k [x Hx]. cbn [expand_node] in Hx. rewrite Ei in Hx. cbn [mbind option_bind] in Hx.
    destruct (mapM _ ms) as [xs|] eqn:Em; [|done]. rewrite mapM_Some in Em.
    apply list_elem_of_lookup in Ht as [j Hj]. destruct (Forall2_lookup_l _ _ _ _ _ Em Hj) as (y & _ & Hy). by exists y. }
  intros n k [->%elem_of_singleton|Hb]%elem_of_union; [apply Hself|].
  intros Hs. destruct (Hin n k Hb Hs) as [y Hy]. unfold expand in Hy. simpl in Hy.
  apply Hself. exists y. by apply expand_node_S.
Qed.

Lemma inside_union busy i cs name tag t :
  d_unions D !! i = Some cs -> (tag, Some t) ∈ cs -> inside busy (UnionTy name i) -> inside ({[NUnion i]} ∪ busy) t.
Proof.
  intros Ei Ht Hin.
  assert (Hself : forall k, is_Some (expand_node D (S k) (NUnion i)) -> is_Some (expand D k t)).
  { intros k [x Hx]. cbn [expand_node] in Hx. rewrite Ei in Hx. cbn [mbind option_bind] in Hx.
    destruct (mapM _ cs) as [xs|] eqn:Em; [|done]. rewrite mapM_Some in Em.
    apply list_elem_of_lookup in Ht as [j Hj]. destruct (Forall2_lookup_l _ _ _ _ _ Em Hj) as (y & _ & Hy). by exists y. }
  intros n k [->%elem_of_singleton|Hb]%elem_of_union; [apply Hself|].
  intros Hs. destruct (Hin n k Hb Hs) as [y Hy]. unfold expand in Hy. simpl in Hy.
  apply Hself. exists y. by apply expand_node_S.
Qed.

Lemma struct_loop_ok query ms acc m acc' m' :
  (forall t m, answers query t m) -> struct_loop query ms acc m = Some (acc', m') -> memo_ok m ->
  (forall t, t ∈ ms -> inside (m_busy m) t) ->
  m_busy m' = m_busy m /\ memo_ok m' /\
  (forall k xs, mapM (expand D k) ms = Some xs -> acc' = fold_left (fun acc x => struct_member (info x) acc) xs acc).
Proof.
  intros Hq. revert acc m. induction ms as [|t ms IH]; intros acc m E Hm Hin; simpl in E.
  - simplify_eq. split_and!; [done..|]. intros k xs [= <-]. done.
  - destruct (query t m) as [[mi m1]|] eqn:Eq; simpl in E; [|done].
    destruct (Hq t m mi m1 Eq Hm (Hin t ltac:(left))) as (Hb & Hm1 & Hi).
    destruct (IH _ _ E Hm1) as (Hb' & Hm' & Hacc); [intros t' Ht'; rewrite Hb; apply Hin; by right|].
    split_and!; [congruence|done|]. intros k xs Hxs. rewrite mapM_Some in Hxs. inversion Hxs as [|? x ? xs' Hx Hxs' ]; subst.
    simpl. rewrite (Hi k x Hx) in Hacc. apply (Hacc k). by rewrite mapM_Some.
Qed.

Lemma union_loop_ok query cs acc m acc' m' :
  (forall t m, answers query t m) -> union_loop query cs acc m = Some (acc', m') -> memo_ok m ->
  (forall tag t, (tag, Some t) ∈ cs -> inside (m_busy m) t) ->
  m_busy m' = m_busy m /\ memo_ok m' /\
  (forall k xs, mapM (expand_case (expand_node D k)) cs = Some xs ->
     acc' = fold_left (fun acc x => if is_unit x then acc else union_case (info x) acc) xs acc).
Proof.
  intros Hq. revert acc m. induction cs as [|[tag [t|]] cs IH]; intros acc m E Hm Hin; simpl in E.
  - simplify_eq. split_and!; [done..|]. intros k xs [= <-]. done.
  - destruct (query t m) as [[ci m1]|] eqn:Eq; simpl in E; [|done].
    destruct (Hq t m ci m1 Eq Hm (Hin tag t ltac:(left))) as (Hb & Hm1 & Hi).
    destruct (IH _ _ E Hm1) as (Hb' & Hm' & Hacc); [intros tag' t' Ht'; rewrite Hb; apply (Hin tag'); by right|].
    split_and!; [congruence|done|]. intros k xs Hxs. rewrite mapM_Some in Hxs. inversion Hxs as [|? x ? xs' Hx Hxs' ]; subst.
    cbn [expand_case snd] in Hx. assert (Hu : is_unit x = false).
    { clear -Hx. unfold expand_case in Hx. simpl in Hx. destruct x; try done. exfalso. revert Hx.
      assert (Hn : forall k n, expand_node D k n <> Some XUnit)
        by (intros [|j] [i|i]; [done..| |]; simpl; [destruct (d_structs D !! i)|destruct (d_unions D !! i)]; simpl; [|done| |done];
            by destruct (mapM _ _)).
      destruct t; simpl; try done; try apply Hn; by destruct (expand_ty _ t). }
    simpl. rewrite Hu. rewrite (Hi k x Hx) in Hacc. apply (Hacc k). by rewrite mapM_Some.
  - destruct (IH _ _ E Hm) as (Hb' & Hm' & Hacc); [intros tag' t' Ht'; apply (Hin tag'); by right|].
    split_and!; [done..|]. intros k xs Hxs. rewrite mapM_Some in Hxs. inversion Hxs as [|? x ? xs' Hx Hxs' ]; subst.
    injection Hx as <-. simpl. apply (Hacc k). by rewrite mapM_Some.
Qed.

Lemma structInfo_answers query name i m :
  (forall t m, answers query t m) -> answers (fun _ => structInfo D query i) (StructTy name i) m.
Proof.
  intros IH r m' E Hm Hin. unfold structInfo in E. destruct (d_structs D !! i) as [ms|] eqn:Es.
  2:{ simplify_eq. split_and!; [done..|]. intros [|k'] x Hx; [done|]. unfold expand in Hx. simpl in Hx. by rewrite Es in Hx. }
  destruct (m_info m !! NStruct i) as [ti|] eqn:Ei.
  { simplify_eq. split_and!; [done..|]. intros k' x Hx. by apply (Hm _ _ k' x Ei). }
  destruct (decide (NStruct i ∈ m_busy m)) as [Hb|Hb].
  { simplify_eq. split_and!; [done..|]. intros k' x Hx. unfold expand in Hx. simpl in Hx.
    rewrite (inside_self (NStruct i) k') in Hx; [done|]. intros j Hj. apply (Hin _ j Hb Hj). }
  destruct (struct_loop _ ms _ _) as [[acc m1]|] eqn:El; simpl in E; [|done].
  destruct (struct_loop_ok _ _ _ _ _ _ IH El (memo_ok_enter _ _ Hm)) as (Hb1 & Hm1 & Hacc).
  { intros t Ht. by eapply inside_struct. }
  assert (Hx : forall k x, expand_node D k (NStruct i) = Some x -> struct_end acc = info x).
  { intros [|j] x Hx; [done|]. simpl in Hx. rewrite Es in Hx. simpl in Hx.
    destruct (mapM _ ms) as [xs|] eqn:Em; simplify_eq/=. by rewrite (Hacc j xs Em). }
  injection E as <- <-. split_and!; [|by apply memo_ok_leave|apply Hx].
  simpl. rewrite Hb1. simpl. clear -Hb. set_solver.
Qed.

Lemma unionInfo_answers query name i m :
  (forall t m, answers query t m) -> answers (fun _ => unionInfo D query i) (UnionTy name i) m.
Proof.
  intros IH r m' E Hm Hin. unfold unionInfo in E. destruct (d_unions D !! i) as [cs|] eqn:Es.
  2:{ simplify_eq. split_and!; [done..|]. intros [|k'] x Hx; [done|]. unfold expand in Hx. simpl in Hx. by rewrite Es in Hx. }
  destruct (m_info m !! NUnion i) as [ti|] eqn:Ei.
  { simplify_eq. split_and!; [done..|]. intros k' x Hx. by apply (Hm _ _ k' x Ei). }
  destruct (decide (NUnion i ∈ m_busy m)) as [Hb|Hb].
  { simplify_eq. split_and!; [done..|]. intros k' x Hx. unfold expand in Hx. simpl in Hx.
    rewrite (inside_self (NUnion i) k') in Hx; [done|]. intros j Hj. apply (Hin _ j Hb Hj). }
  destruct (union_loop _ cs _ _) as [[acc m1]|] eqn:El; simpl in E; [|done].
  destruct (union_loop_ok _ _ _ _ _ _ IH El (memo_ok_enter _ _ Hm)) as (Hb1 & Hm1 & Hacc).
  { intros tag t Ht. by eapply inside_union. }
  assert (Hx : forall k x, expand_node D k (NUnion i) = Some x -> union_end acc = info x).
  { intros [|j] x Hx; [done|]. simpl in Hx. rewrite Es in Hx. simpl in Hx.
    destruct (mapM _ cs) as [xs|] eqn:Em; simplify_eq/=. by rewrite (Hacc j xs Em). }
  injection E as <- <-. split_and!; [|by apply memo_ok_leave|apply Hx].
  simpl. rewrite Hb1. simpl. clear -Hb. set_solver.
Qed.

(** The element of an array. *)
Lemma elem_answers query (mk : Ty -> Ty) (mkx : xty -> xty) (f : tinfo -> tinfo) t m :
  (forall k, expand D k (mk t) = (x ← expand D k t; Some (mkx x))) -> (forall x, info (mkx x) = f (info x)) ->
  answers query t m -> answers (fun _ m => '(ei, m) ← query t m; Some (f ei, m)) (mk t) m.
Proof.
  intros Hmk Hf IH r m' E Hm Hin. destruct (query t m) as [[ei m1]|] eqn:Ee; simplify_eq/=.
  destruct (IH _ _ Ee Hm) as (Hb & Hm' & Hi).
  { intros n k Hn Hs. destruct (Hin n k Hn Hs) as [y Hy]. rewrite Hmk in Hy. by destruct (expand D k t). }
  split_and!; [done..|]. intros k x Hx. rewrite Hmk in Hx. destruct (expand D k t) as [y|] eqn:Ey; simplify_eq/=.
  by rewrite Hf, (Hi k y Ey).
Qed.

Lemma infoOf_answers fuel : forall t m, answers (infoOf D fuel) t m.
Proof.
  induction fuel as [|fuel IH]; intros t m; [done|]. destruct t;
    try (intros r m' E Hm Hin; simpl in E; simplify_eq; split_and!; [done..|]; intros k' x [= <-]; done).
  - exact (structInfo_answers (infoOf D fuel) Name St m IH).
  - exact (unionInfo_answers (infoOf D fuel) Name Un m IH).
  - exact (elem_answers (infoOf D fuel) (fun e => FixedArray e Len) (fun e => XFixedArray e Len)
             (fun ei => fixedArray_info ei Len) t m (fun _ => eq_refl) (fun _ => eq_refl) (IH t m)).
  - exact (elem_answers (infoOf D fuel) (fun e => Array e Max0) (fun e => XArray e Max0)
             (fun ei => array_info ei Max0) t m (fun _ => eq_refl) (fun _ => eq_refl) (IH t m)).
Qed.

(** ** Termination *)

Definition nodes : gset node := list_to_set ((NStruct <$> seq 0 (length (d_structs D))) ++ (NUnion <$> seq 0 (length (d_unions D)))).
Definition free m : nat := base.size (nodes ∖ m_busy m).

Lemma nodes_struct i ms : d_structs D !! i = Some ms -> NStruct i ∈ nodes.
Proof.
  intros Hi%lookup_lt_Some. apply elem_of_list_to_set, elem_of_app. left. apply list_elem_of_fmap. exists i. split; [done|].
  apply elem_of_seq. lia.
Qed.

Lemma nodes_union i cs : d_unions D !! i = Some cs -> NUnion i ∈ nodes.
Proof.
  intros Hi%lookup_lt_Some. apply elem_of_list_to_set, elem_of_app. right. apply list_elem_of_fmap. exists i. split; [done|].
  apply elem_of_seq. lia.
Qed.

Lemma free_le m : (free m <= n_decls D)%nat.
Proof.
  unfold free, n_decls. transitivity (base.size nodes); [apply subseteq_size; clear; set_solver|].
  unfold nodes. rewrite size_list_to_set; [rewrite length_app, !length_fmap, !length_seq; lia|].
  apply list.NoDup_app. split_and!.
  - apply NoDup_fmap; [by intros ?? [=]|apply NoDup_seq].
  - intros n (i & -> & _)%list_elem_of_fmap (j & ? & _)%list_elem_of_fmap. done.
  - apply NoDup_fmap; [by intros ?? [=]|apply NoDup_seq].
Qed.

Lemma free_enter n m : n ∈ nodes -> n ∉ m_busy m -> S (free (enter n m)) = free m.
Proof.
  intros Hn Hb. unfold free, enter. simpl.
  assert (E : nodes ∖ m_busy m = {[n]} ∪ nodes ∖ ({[n]} ∪ m_busy m)).
  { apply set_eq. intros x. rewrite elem_of_union, !elem_of_difference, elem_of_union, elem_of_singleton.
    destruct (decide (x = n)) as [->|]; naive_solver. }
  rewrite E at 1. rewrite (size_union (C := gset node) {[n]} (nodes ∖ ({[n]} ∪ m_busy m))) by (clear; set_solver). by rewrite size_singleton.
Qed.

Lemma free_busy m m' : m_busy m' = m_busy m -> free m' = free m.
Proof. unfold free. by intros ->. Qed.

Definition returns (query : Ty -> memo -> option (tinfo * memo)) t m : Prop :=
  exists r m', query t m = Some (r, m') /\ m_busy m' = m_busy m.

Lemma struct_loop_returns query ms acc m :
  (forall t m', t ∈ ms -> m_busy m' = m_busy m -> returns query t m') ->
  exists acc' m', struct_loop query ms acc m = Some (acc', m') /\ m_busy m' = m_busy m.
Proof.
  revert acc m. induction ms as [|t ms IH]; intros acc m Hq; simpl; [by do 2 eexists|].
  destruct (Hq t m) as (r & m1 & -> & Hb); [left|done|]. simpl.
  destruct (IH (struct_member r acc) m1) as (acc' & m' & E & Hb').
  - intros t' m' Ht' Hm'. apply Hq; [by right|congruence].
  - do 2 eexists. split; [exact E|congruence].
Qed.

Lemma union_loop_returns query cs acc m :
  (forall tag t m', (tag, Some t) ∈ cs -> m_busy m' = m_busy m -> returns query t m') ->
  exists acc' m', union_loop query cs acc m = Some (acc', m') /\ m_busy m' = m_busy m.
Proof.
  revert acc m. induction cs as [|[tag [t|]] cs IH]; intros acc m Hq; simpl; [by do 2 eexists| |].
  - destruct (Hq tag t m) as (r & m1 & -> & Hb); [left|done|]. simpl.
    destruct (IH (union_case r acc) m1) as (acc' & m' & E & Hb').
    + intros tag' t' m' Ht' Hm'. apply (Hq tag'); [by right|congruence].
    + do 2 eexists. split; [exact E|congruence].
  - apply IH. intros tag' t' m' Ht' Hm'. apply (Hq tag'); [by right|done].
Qed.

Lemma decl_depth_struct i ms t : d_structs D !! i = Some ms -> t ∈ ms -> (depth t <= max_depth D)%nat.
Proof.
  intros Hi Ht. apply max_list_elem_of_le, list_elem_of_fmap_2, elem_of_app. left.
  apply list_elem_of_join. exists ms. split; [done|]. by eapply list_elem_of_lookup_2.
Qed.

Lemma decl_depth_union i cs tag t : d_unions D !! i = Some cs -> (tag, Some t) ∈ cs -> (depth t <= max_depth D)%nat.
Proof.
  intros Hi Ht. apply max_list_elem_of_le, list_elem_of_fmap_2, elem_of_app. right.
  apply list_elem_of_omap. exists (tag, Some t). split; [|done].
  apply list_elem_of_join. exists cs. split; [done|]. by eapply list_elem_of_lookup_2.
Qed.

Lemma infoOf_returns fuel : forall t m, (depth t + free m * S (max_depth D) < fuel)%nat -> returns (infoOf D fuel) t m.
Proof.
  induction fuel as [|fuel IH]; intros t m Hf; [lia|].
  assert (Hin : forall n t' m', n ∈ nodes -> n ∉ m_busy m -> (depth t' <= max_depth D)%nat -> m_busy m' = m_busy (enter n m) ->
    returns (infoOf D fuel) t' m').
  { intros n t' m' Hn Hb Hd Hm'. apply IH. rewrite (free_busy _ _ Hm'). pose proof (free_enter n m Hn Hb). nia. }
  unfold returns. destruct t; simpl; try (by do 2 eexists).
  - unfold structInfo. destruct (d_structs D !! St) as [ms|] eqn:Es; [|by do 2 eexists].
    destruct (m_info m !! _); [by do 2 eexists|]. destruct (decide _) as [|Hb]; [by do 2 eexists|].
    destruct (struct_loop_returns (infoOf D fuel) ms struct_start (enter (NStruct St) m)) as (acc & m1 & -> & Hb1).
    { intros t m' Ht Hm'. apply (Hin (NStruct St)); [by eapply nodes_struct|done|by eapply decl_depth_struct|done]. }
    simpl. do 2 eexists. split; [done|]. simpl. rewrite Hb1. simpl. clear -Hb. set_solver.
  - unfold unionInfo. destruct (d_unions D !! Un) as [cs|] eqn:Es; [|by do 2 eexists].
    destruct (m_info m !! _); [by do 2 eexists|]. destruct (decide _) as [|Hb]; [by do 2 eexists|].
    destruct (union_loop_returns (infoOf D fuel) cs (true, 0) (enter (NUnion Un) m)) as (acc & m1 & -> & Hb1).
    { intros tag t m' Ht Hm'. apply (Hin (NUnion Un)); [by eapply nodes_union|done|by eapply decl_depth_union|done]. }
    simpl. do 2 eexists. split; [done|]. simpl. rewrite Hb1. simpl. clear -Hb. set_solver.
  - simpl in Hf. destruct (IH t m) as (r & m' & -> & Hb); [lia|]. by do 2 eexists.
  - simpl in Hf. destruct (IH t m) as (r & m' & -> & Hb); [lia|]. by do 2 eexists.
Qed.

End Correct.

(** Queries one after the other, on the same declarations. *)
Fixpoint queries (D : decls) (l : list Ty) (m : memo) : option memo :=
  match l with
  | [] => Some m
  | t :: l => '(_, m) ← infoOf D (info_fuel D t) t m; queries D l m
  end.

Lemma infoOf_idle D t m :
  memo_ok D m -> m_busy m = ∅ ->
  exists r m', infoOf D (info_fuel D t) t m = Some (r, m') /\ memo_ok D m' /\ m_busy m' = ∅ /\
    (forall k x, expand D k t = Some x -> r = info x).
Proof.
  intros Hm Hb. destruct (infoOf_returns D (info_fuel D t) t m) as (r & m' & E & _).
  { unfold info_fuel. pose proof (free_le D m). nia. }
  destruct (infoOf_answers D _ t m r m' E Hm) as (Hb' & Hm' & Hi); [intros n k; rewrite Hb; set_solver|].
  exists r, m'. split_and!; [done..|congruence|done].
Qed.

Lemma queries_idle D l m : memo_ok D m -> m_busy m = ∅ -> exists m', queries D l m = Some m' /\ memo_ok D m' /\ m_busy m' = ∅.
Proof.
  revert m. induction l as [|t l IH]; intros m Hm Hb; [by exists m|]. cbn [queries].
  destruct (infoOf_idle D t m Hm Hb) as (r & m' & -> & Hm' & Hb' & _). by apply IH.
Qed.

Lemma memo_ok_empty D : memo_ok D empty_memo.
Proof. intros n ti k x E. unfold empty_memo in E. simpl in E. by rewrite lookup_empty in E. Qed.

(** ** The exported queries *)

(** A computation that reads and stores results in the declarations. *)
Definition M (A : Type) : Type := memo -> A * memo.

#[export] Instance M_ret : MRet M := fun A x m => (x, m).
#[export] Instance M_bind : MBind M := fun A B f c m => let '(x, m) := c m in f x m.

Section Queries.
Context (D : decls).

(** [infoOf] with the fuel that is always enough. *)
Definition info_query (t : Ty) : M tinfo := fun m =>
  match infoOf D (info_fuel D t) t m with Some r => r | None => (mkInfo 0 1 false 0 0 false, m) end.

Definition SizeOf (t : Ty) : M (Z * Z * bool) := ti ← info_query t; mret (size ti, align ti, fixed ti).

Definition Stride (t : Ty) : M Z :=
  '(sz, al, fx) ← SizeOf t; mret (if negb fx then 0 else roundUp sz al).

Definition MinSize (t : Ty) : M Z := ti ← info_query t; mret (min ti).

Definition WorstCase (t : Ty) : M (Z * bool) := ti ← info_query t; mret (wc ti, wcFinite ti).

Definition isFixed (t : Ty) : M bool := '(_, _, fx) ← SizeOf t; mret fx.

(** The loop of [MemberOffsets]. *)
Fixpoint offsets_loop (ms : list Ty) (off : Z) : M (list Z) :=
  match ms with
  | [] => mret []
  | t :: ms =>
      '(sz, al, _) ← SizeOf t;
      let off := roundUp off al in
      offs ← offsets_loop ms (satAdd off sz);
      mret (off :: offs)
  end.

(** [MemberOffsets] of the struct [i]; [None] stands for nil. *)
Definition MemberOffsets (i : nat) : M (option (list Z)) :=
  ti ← info_query (StructTy [] i);
  match d_structs D !! i with
  | Some ms => if fixed ti then offs ← offsets_loop ms 0; mret (Some offs) else mret None
  | None => mret None
  end.

(** Between queries nothing is busy and the stored results are right. *)
Definition settled (m : memo) : Prop := memo_ok D m /\ m_busy m = ∅.

Lemma settled_empty : settled empty_memo.
Proof. split; [apply memo_ok_empty|done]. Qed.

Lemma info_query_ok t m : settled m ->
  exists r m', info_query t m = (r, m') /\ settled m' /\ (forall k x, expand D k t = Some x -> r = info x).
Proof.
  intros [Hm Hb]. destruct (infoOf_idle D t m Hm Hb) as (r & m' & E & Hm' & Hb' & Hi).
  exists r, m'. unfold info_query. rewrite E. by repeat split.
Qed.

(** [c] gives [v] whenever nothing is busy, and leaves it that way. *)
Definition computes {A} (c : M A) (v : A) : Prop := forall m, settled m -> exists m', c m = (v, m') /\ settled m'.

Lemma computes_ret {A} (v : A) : computes (mret v) v.
Proof. intros m Hm. by exists m. Qed.

Lemma computes_bind {A B} (c : M A) (f : A -> M B) v w : computes c v -> computes (f v) w -> computes (c ≫= f) w.
Proof.
  intros Hc Hf m Hm. destruct (Hc m Hm) as (m1 & E1 & Hm1). destruct (Hf m1 Hm1) as (m2 & E2 & Hm2).
  exists m2. split; [|done]. unfold mbind, M_bind. by rewrite E1.
Qed.

Lemma computes_info t k x : expand D k t = Some x -> computes (info_query t) (info x).
Proof.
  intros Hx m Hm. destruct (info_query_ok t m Hm) as (r & m' & E & Hm' & Hi). exists m'. by rewrite E, (Hi k x Hx).
Qed.

Lemma computes_SizeOf t k x : expand D k t = Some x -> computes (SizeOf t) (size (info x), align (info x), fixed (info x)).
Proof. intros Hx. eapply computes_bind; [by eapply computes_info|apply computes_ret]. Qed.

End Queries.

(** C33. Queries about types always return and agree with plain recursion. On any
    declarations, cyclic ones included, and after any earlier queries, a query
    ends within the fuel computed from the declarations and leaves no
    declaration busy; for a type that does not contain itself the answer is
    what recursion over the written-out type gives, so neither the results
    stored in declarations nor the busy marks change it. *)
Theorem infoOf_reference D earlier t :
  exists m r m', queries D earlier empty_memo = Some m /\ infoOf D (info_fuel D t) t m = Some (r, m') /\
    m_busy m' = ∅ /\ (forall k x, expand D k t = Some x -> r = info x).
Proof.
  destruct (queries_idle D earlier empty_memo (memo_ok_empty D) eq_refl) as (m & Em & Hm & Hb).
  destruct (infoOf_idle D t m Hm Hb) as (r & m' & E & _ & Hb' & Hi). by exists m, r, m'.
Qed.
