(* ===== verification/IdlSizes.v ===== *)
(** * IdlSizes: the size rules of the wire format and the encodings

    States the size rules of BINDGEN.md 2.3 without saturation, shows that the
    queries of types.go compute them, and relates them to the encodings of
    values (BINDGEN.md 4.5): a fixed type encodes to its size at its alignment,
    and every encoding lies between the smallest and the largest size. *)
From S2P Require Import Prelude IdlTypes.

(** ** Size rules *)

Fixpoint align_of (x : xty) : Z :=
  match x with
  | XScalar k => scalarSize k
  | XStruct ms => fold_left (fun a x => Z.max a (align_of x)) ms 1
  | XFixedArray e _ => align_of e
  | XUnit => 1
  | _ => 4
  end.

Fixpoint fixed_of (x : xty) : bool :=
  match x with
  | XScalar _ | XHandle | XFixedArray _ _ => true
  | XStruct ms => forallb fixed_of ms
  | _ => false
  end.

(** The size of a fixed type. *)
Fixpoint size_of (x : xty) : Z :=
  match x with
  | XScalar k => scalarSize k
  | XHandle => 4
  | XStruct ms =>
      roundUp (fold_left (fun off x => roundUp off (align_of x) + size_of x) ms 0)
              (fold_left (fun a x => Z.max a (align_of x)) ms 1)
  | XFixedArray e len => len * roundUp (size_of e) (align_of e)
  | _ => 0
  end.

Fixpoint min_of (x : xty) : Z :=
  match x with
  | XScalar k => scalarSize k
  | XStr _ => 5
  | XStruct ms => fold_left (fun n x => n + min_of x) ms 0
  | XFixedArray e len => len * roundUp (size_of e) (align_of e)
  | XUnit => 0
  | _ => 4
  end.

(** The largest encoding; [None]: there is none. *)
Fixpoint wc_of (x : xty) : option Z :=
  match x with
  | XScalar k => Some (scalarSize k + scalarSize k - 1)
  | XHandle => Some 7
  | XStr mx => if 0 <? mx then Some (8 + mx) else None
  | XBytes mx => if 0 <? mx then Some (7 + mx) else None
  | XFixedArray e len => Some (align_of e - 1 + len * roundUp (size_of e) (align_of e))
  | XArray e mx => if 0 <? mx then w ← wc_of e; Some (7 + mx * w) else None
  | XStruct ms =>
      if forallb fixed_of ms then Some (align_of (XStruct ms) - 1 + size_of (XStruct ms))
      else fold_left (fun acc x => n ← acc; w ← wc_of x; Some (n + w)) ms (Some 0)
  | XUnion _ cs => n ← fold_left (fun acc x => n ← acc; w ← wc_of x; Some (Z.max n w)) cs (Some 0); Some (7 + n)
  | XUnit => Some 0
  end.

(** Types the checker lets through: arrays with a length have fixed elements,
    bounds are not negative. *)
Fixpoint wf_ty (x : xty) : bool :=
  match x with
  | XScalar k => IsScalar k
  | XStr mx | XBytes mx => 0 <=? mx
  | XHandle => true
  | XUnit => false
  | XStruct ms => forallb wf_ty ms
  | XUnion tags cs => (length tags =? length cs)%nat && forallb (fun c => is_unit c || wf_ty c) cs
  | XFixedArray e len => wf_ty e && fixed_of e && (1 <=? len)
  | XArray e mx => wf_ty e && (0 <=? mx)
  end.

(** ** Values and their encodings *)

Inductive val :=
| VInt (n : Z)                    (* scalars (floats as their bits), handles *)
| VText (b : bytes)               (* str, bytes *)
| VList (l : list val)            (* arrays, structs *)
| VCase (i : nat) (p : val)       (* the case [i] of a union *)
| VUnit.                          (* the payload of a case without one *)

(** A value of a type, within its bounds. *)
Definition bound_ok (mx : Z) (n : nat) : bool := ((mx =? 0) || (Z.of_nat n <=? mx)) && (Z.of_nat n <? 2 ^ 32 - 1).

Fixpoint has_ty (x : xty) (v : val) {struct x} : bool :=
  match x, v with
  | XScalar k, VInt n => (0 <=? n) && (n <? 256 ^ scalarSize k)
  | XHandle, VInt n => (0 <=? n) && (n <? 2 ^ 32)
  | XStr mx, VText b => bound_ok mx (length b) && forallb (fun c => negb (c =? 0)) b
  | XBytes mx, VText b => bound_ok mx (length b)
  | XUnit, VUnit => true
  | XStruct ms, VList l =>
      (fix go ms l := match ms, l with
                      | [], [] => true
                      | x :: ms, v :: l => has_ty x v && go ms l
                      | _, _ => false
                      end) ms l
  | XUnion _ cs, VCase i p =>
      (fix pick cs i := match cs, i with
                        | c :: _, O => has_ty c p
                        | _ :: cs, S i => pick cs i
                        | [], _ => false
                        end) cs i
  | XFixedArray e len, VList l => (Z.of_nat (length l) =? len) && forallb (has_ty e) l
  | XArray e mx, VList l => bound_ok mx (length l) && forallb (has_ty e) l
  | _, _ => false
  end.

(** [align(a)] at a position. *)
Definition pad (a pos : Z) : bytes := replicate (Z.to_nat (roundUp pos a - pos)) 0.

(** Encodings one after the other. *)
Fixpoint enc_seq {A} (enc : A -> Z -> bytes) (l : list A) (pos : Z) : bytes :=
  match l with
  | [] => []
  | v :: l => let b := enc v pos in b ++ enc_seq enc l (pos + Z.of_nat (length b))
  end.

(** The bytes a value takes at a position, padding in front included. *)
Fixpoint enc (x : xty) (v : val) (pos : Z) {struct x} : bytes :=
  match x, v with
  | XScalar k, VInt n => pad (scalarSize k) pos ++ le_put (Z.to_nat (scalarSize k)) n
  | XHandle, VInt n => pad 4 pos ++ le_put 4 n
  | XStr _, VText b => pad 4 pos ++ le_put 4 (Z.of_nat (length b)) ++ b ++ [0]
  | XBytes _, VText b => pad 4 pos ++ le_put 4 (Z.of_nat (length b)) ++ b
  | XStruct ms, VList l =>
      let fields := (fix go ms l pos := match ms, l with
                                        | x :: ms, v :: l => let b := enc x v pos in b ++ go ms l (pos + Z.of_nat (length b))
                                        | _, _ => []
                                        end) in
      if forallb fixed_of ms then
        let a := align_of x in
        let front := pad a pos in
        let body := fields ms l (pos + Z.of_nat (length front)) in
        front ++ body ++ pad a (pos + Z.of_nat (length front) + Z.of_nat (length body))
      else fields ms l pos
  | XUnion tags cs, VCase i p =>
      let front := pad 4 pos ++ le_put 4 (nth i tags 0) in
      front ++ (fix pick cs i := match cs, i with
                                 | c :: _, O => enc c p (pos + Z.of_nat (length front))
                                 | _ :: cs, S i => pick cs i
                                 | [], _ => []
                                 end) cs i
  | XFixedArray e _, VList l =>
      let front := pad (align_of e) pos in
      front ++ enc_seq (fun v pos => let b := enc e v pos in b ++ pad (align_of e) (pos + Z.of_nat (length b))) l
                 (pos + Z.of_nat (length front))
  | XArray e _, VList l =>
      let front := pad 4 pos ++ le_put 4 (Z.of_nat (length l)) in
      front ++ enc_seq (enc e) l (pos + Z.of_nat (length front))
  | _, _ => []
  end.

Example enc_struct : enc (XStruct [XScalar KU8; XScalar KU16; XScalar KU8]) (VList [VInt 1; VInt 2; VInt 3]) 1 = [0; 1; 0; 2; 0; 3; 0].
Proof. reflexivity. Qed.

(** ** Arithmetic *)

Definition pow_align (a : Z) : Prop := a = 1 \/ a = 2 \/ a = 4 \/ a = 8.

Lemma roundUp_eq n a : 1 <= a -> roundUp n a = (n + a - 1) / a * a.
Proof. intros. unfold roundUp. destruct (Z.leb_spec a 1); [|done]. assert (a = 1) as -> by lia. rewrite Z.div_1_r. lia. Qed.

Lemma roundUp_bounds n a : 1 <= a -> n <= roundUp n a <= n + (a - 1).
Proof. intros. rewrite roundUp_eq by done. zlia. Qed.

Lemma roundUp_divide n a : 1 <= a -> (a | roundUp n a).
Proof. intros. rewrite roundUp_eq by done. apply Z.divide_factor_r. Qed.

Lemma roundUp_shift p n a : 1 <= a -> (a | p) -> roundUp (p + n) a = p + roundUp n a.
Proof.
  intros Ha [q ->]. rewrite !roundUp_eq by done. replace (q * a + n + a - 1) with (n + a - 1 + q * a) by lia.
  rewrite Z.div_add by lia. lia.
Qed.

Lemma roundUp_id n a : 1 <= a -> (a | n) -> roundUp n a = n.
Proof.
  intros Ha Hn. rewrite <- (Z.add_0_r n) at 1. rewrite roundUp_shift by done.
  rewrite roundUp_eq, Z.add_0_l, Z.div_small by lia. lia.
Qed.

Lemma roundUp_mono n n' a : 1 <= a -> n <= n' -> roundUp n a <= roundUp n' a.
Proof.
  intros Ha Hn. rewrite !roundUp_eq by done. apply Z.mul_le_mono_nonneg_r; [lia|]. apply Z.div_le_mono; lia.
Qed.

Lemma pow_align_pos a : pow_align a -> 1 <= a.
Proof. unfold pow_align. lia. Qed.

Lemma pow_align_divide a b : pow_align a -> pow_align b -> a <= b -> (a | b).
Proof.
  intros [->|[->|[->| ->]]] [->|[->|[->| ->]]] H; try lia;
    first [by exists 1|by exists 2|by exists 4|by exists 8].
Qed.

Lemma pow_align_max a b : pow_align a -> pow_align b -> pow_align (Z.max a b).
Proof. intros Ha Hb. destruct (Z.max_spec a b) as [[_ ->]|[_ ->]]; done. Qed.

Definition sat (n : Z) : Z := Z.min n satCap.

Lemma satCap_divide a : pow_align a -> (a | satCap).
Proof. intros [->|[->|[->| ->]]]; [exists (2 ^ 61)|exists (2 ^ 60)|exists (2 ^ 59)|exists (2 ^ 58)]; reflexivity. Qed.

Lemma satCap_pos : 1 <= satCap.
Proof. unfold satCap. lia. Qed.

Lemma satAdd_sat a b : satAdd a b = sat (a + b).
Proof. unfold satAdd, sat. destruct (Z.ltb_spec (a + b) satCap); lia. Qed.

Lemma satMul_sat a b : 0 <= a -> 0 <= b -> satMul a b = sat (a * b).
Proof.
  intros Ha Hb. unfold satMul. pose proof satCap_pos.
  destruct (Z.eqb_spec a 0) as [->|]; [unfold sat; simpl; lia|].
  destruct (Z.eqb_spec b 0) as [->|]; [unfold sat; simpl; lia|]. simpl. set (p := a * b). assert (0 <= p) by (unfold p; nia).
  destruct (Z.eqb_spec (p / 2 ^ 64) 0) as [Eh|Eh]; simpl.
  - assert (p < 2 ^ 64) by zlia. rewrite Z.mod_small by lia. destruct (Z.leb_spec satCap p); unfold sat; lia.
  - assert (2 ^ 64 <= p) by zlia. unfold sat, satCap in *. lia.
Qed.

Lemma sat_add a b : 0 <= a -> 0 <= b -> satAdd (sat a) (sat b) = sat (a + b).
Proof. intros. rewrite satAdd_sat. pose proof satCap_pos. unfold sat. lia. Qed.

Lemma sat_add_r a b : 0 <= a -> satAdd a (sat b) = sat (a + b).
Proof. intros. rewrite satAdd_sat. unfold sat. lia. Qed.

Lemma sat_mul_r a b : 0 <= a -> 0 <= b -> satMul a (sat b) = sat (a * b).
Proof.
  intros Ha Hb. pose proof satCap_pos. rewrite satMul_sat by (unfold sat; lia). unfold sat.
  destruct (Z.min_spec b satCap) as [[? ->]|[? ->]]; [done|]. destruct (decide (a = 0)) as [->|]; [done|]. rewrite !Z.min_r; nia.
Qed.

Lemma sat_roundUp n a : pow_align a -> roundUp (sat n) a = sat (roundUp n a).
Proof.
  intros Ha. pose proof (pow_align_pos a Ha) as H1. pose proof (roundUp_id satCap a H1 (satCap_divide a Ha)) as Hc. unfold sat.
  destruct (Z.min_spec n satCap) as [[? ->]|[? ->]].
  - pose proof (roundUp_mono n satCap a H1). lia.
  - pose proof (roundUp_mono satCap n a H1). lia.
Qed.

Lemma sat_small n : n < satCap -> sat n = n.
Proof. unfold sat. lia. Qed.

Lemma sat_exact n : sat n < satCap -> sat n = n.
Proof. unfold sat. lia. Qed.

(** ** Induction over written-out types *)

Lemma xty_ind' (P : xty -> Prop) :
  (forall k, P (XScalar k)) -> (forall mx, P (XStr mx)) -> (forall mx, P (XBytes mx)) -> P XHandle -> P XUnit ->
  (forall ms, Forall P ms -> P (XStruct ms)) -> (forall tags cs, Forall P cs -> P (XUnion tags cs)) ->
  (forall e len, P e -> P (XFixedArray e len)) -> (forall e mx, P e -> P (XArray e mx)) -> forall x, P x.
Proof.
  intros H1 H2 H3 H4 H5 H6 H7 H8 H9. fix IH 1.
  intros [k|mx|mx| | |ms|tags cs|e len|e mx];
    [apply H1|apply H2|apply H3|apply H4|apply H5|apply H6|apply H7|apply H8, IH|apply H9, IH].
  - induction ms; constructor; [apply IH|assumption].
  - induction cs; constructor; [apply IH|assumption].
Qed.

(** ** The queries compute the size rules *)

(** Facts about the sizes themselves. *)
Record sizes_ok (x : xty) : Prop := {
  so_align : pow_align (align_of x);
  so_size : 0 <= size_of x;
  so_divide : fixed_of x = true -> (align_of x | size_of x);
  so_min : 0 <= min_of x;
  so_wc : forall w, wc_of x = Some w -> 0 <= w
}.

Lemma scalarSize_align k : IsScalar k = true -> pow_align (scalarSize k).
Proof. unfold pow_align. destruct k; cbn; try done; tauto. Qed.

Lemma fold_align ms a : pow_align a -> Forall (fun x => pow_align (align_of x)) ms ->
  pow_align (fold_left (fun a x => Z.max a (align_of x)) ms a).
Proof. intros Ha H. revert a Ha. induction H; intros a Ha; [done|]. simpl. apply IHForall. by apply pow_align_max. Qed.

Lemma fold_align_le ms a : a <= fold_left (fun a x => Z.max a (align_of x)) ms a /\
  Forall (fun x => align_of x <= fold_left (fun a x => Z.max a (align_of x)) ms a) ms.
Proof.
  revert a. induction ms as [|x ms IH]; intros a; simpl; [split; [lia|constructor]|].
  destruct (IH (Z.max a (align_of x))) as [H1 H2]. split; [lia|]. constructor; [lia|done].
Qed.

Lemma fold_nonneg (f : Z -> xty -> Z) ms n : 0 <= n -> (forall n x, x ∈ ms -> 0 <= n -> 0 <= f n x) -> 0 <= fold_left f ms n.
Proof.
  revert n. induction ms as [|x ms IH]; intros n Hn Hf; [done|]. simpl. apply IH; [apply Hf; [left|done]|].
  intros. apply Hf; [by right|done].
Qed.

Lemma fold_wc_nonneg (f : Z -> Z -> Z) ms acc w :
  (forall a b, 0 <= a -> 0 <= b -> 0 <= f a b) -> Forall (fun x => forall w, wc_of x = Some w -> 0 <= w) ms ->
  (forall n, acc = Some n -> 0 <= n) ->
  fold_left (fun acc x => n ← acc; w ← wc_of x; Some (f n w)) ms acc = Some w -> 0 <= w.
Proof.
  intros Hf H. revert acc. induction H as [|x ms Hx _ IH]; intros acc Hacc E; simpl in E; [by apply Hacc|].
  eapply IH; [|exact E]. intros n. destruct acc as [n0|]; simpl; [|done]. destruct (wc_of x) as [w0|]; simpl; [|done].
  intros [= <-]. apply Hf; auto.
Qed.

Lemma wc_of_struct ms :
  wc_of (XStruct ms) =
    if forallb fixed_of ms then Some (align_of (XStruct ms) - 1 + size_of (XStruct ms))
    else fold_left (fun acc x => n ← acc; w ← wc_of x; Some (n + w)) ms (Some 0).
Proof. reflexivity. Qed.

Lemma wf_sizes x : wf_ty x = true -> sizes_ok x.
Proof.
  induction x as [k|mx|mx| | |ms IH|tags cs IH|e len IH|e mx IH] using xty_ind'; intros Hwf; simpl in Hwf.
  - pose proof (scalarSize_align k Hwf) as Ha. pose proof (pow_align_pos _ Ha).
    split; simpl; [done|lia|done|lia|]. intros w [= <-]. lia.
  - split; simpl; [unfold pow_align; tauto|lia|done|lia|]. intros w. destruct (Z.ltb_spec 0 mx); [|done]. intros [= <-]. lia.
  - split; simpl; [unfold pow_align; tauto|lia|done|lia|]. intros w. destruct (Z.ltb_spec 0 mx); [|done]. intros [= <-]. lia.
  - split; simpl; [unfold pow_align; tauto|lia|by exists 1|lia|]. intros w [= <-]. lia.
  - done.
  - rewrite forallb_forall in Hwf.
    assert (H : Forall sizes_ok ms) by (apply list.Forall_forall; intros x Hx; rewrite list.Forall_forall in IH; apply IH, Hwf; [done|by apply list_elem_of_In]).
    assert (Ha : pow_align (align_of (XStruct ms))).
    { apply fold_align; [unfold pow_align; tauto|]. eapply Forall_impl; [|exact H]. by intros ? []. }
    pose proof (pow_align_pos _ Ha) as Ha1. assert (Hs : 0 <= size_of (XStruct ms)).
    { simpl. etransitivity; [|apply roundUp_bounds, Ha1]. apply fold_nonneg; [lia|]. intros n x Hx Hn.
      rewrite list.Forall_forall in H. destruct (H x Hx) as [Hal Hsz _ _ _].
      pose proof (roundUp_bounds n (align_of x) (pow_align_pos _ Hal)). lia. }
    split; [done|done|intros _; by apply roundUp_divide| |].
    + change (0 <= fold_left (fun n x => n + min_of x) ms 0). apply fold_nonneg; [lia|]. intros n x Hx Hn. rewrite list.Forall_forall in H. destruct (H x Hx). cbv beta. lia.
    + intros w. rewrite wc_of_struct. destruct (forallb fixed_of ms); [intros E%(inj Some); lia|].
      apply (fold_wc_nonneg Z.add); [lia| |by intros ? [= <-]]. eapply Forall_impl; [|exact H]. by intros ? [].
  - apply andb_true_iff in Hwf as [_ Hwf]. rewrite forallb_forall in Hwf.
    split; simpl; [unfold pow_align; tauto|lia|done|lia|]. intros w.
    destruct (fold_left _ cs _) as [n|] eqn:E; simpl; [|done]. intros [= <-].
    apply (fold_wc_nonneg Z.max) in E; [lia|lia| |by intros ? [= <-]].
    apply list.Forall_forall. intros x Hx w Hw. rewrite list.Forall_forall in IH. specialize (IH x Hx).
    specialize (Hwf x ltac:(by apply list_elem_of_In)). destruct (is_unit x) eqn:Eu; [|by apply (IH Hwf)].
    destruct x; try done. by injection Hw as <-.
  - apply andb_true_iff in Hwf as [[Hwf Hfx]%andb_true_iff Hlen]. destruct (IH Hwf) as [Ha Hs Hd Hm _].
    pose proof (pow_align_pos _ Ha). pose proof (roundUp_bounds (size_of e) (align_of e)). breflect.
    split; simpl; [done|nia| |nia|intros w [= <-]; nia].
    intros _. apply Z.divide_mul_r. by apply roundUp_divide.
  - apply andb_true_iff in Hwf as [Hwf Hmx]. destruct (IH Hwf) as [_ _ _ _ Hw].
    split; simpl; [unfold pow_align; tauto|lia|done|lia|]. intros w. destruct (Z.ltb_spec 0 mx); [|done].
    destruct (wc_of e) as [we|]; simpl; [|done]. intros [= <-]. specialize (Hw we eq_refl). nia.
Qed.

(** The answer of the queries, in terms of the rules. *)
Definition info_of (x : xty) : tinfo :=
  mkInfo (if fixed_of x then sat (size_of x) else 0) (align_of x) (fixed_of x) (sat (min_of x))
    (match wc_of x with Some w => sat w | None => 0 end) (match wc_of x with Some _ => true | None => false end).

(** The state of the loop of [structInfo]: alignment, fixed, smallest size,
    largest size and offset so far. *)
Definition loop_state (acc : tinfo * Z) (a : Z) (f : bool) (mn : Z) (w : option Z) (off : Z) : Prop :=
  size acc.1 = 0 /\ align acc.1 = a /\ fixed acc.1 = f /\ min acc.1 = sat mn /\
  (match w with Some w => wcFinite acc.1 = true /\ wc acc.1 = sat w | None => wcFinite acc.1 = false end) /\
  (f = true -> acc.2 = sat off).

Lemma struct_fold ms acc a f mn w off :
  Forall (fun x => info x = info_of x /\ sizes_ok x) ms -> loop_state acc a f mn w off -> 0 <= mn -> (forall n, w = Some n -> 0 <= n) -> 0 <= off ->
  loop_state (fold_left (fun acc x => struct_member (info x) acc) ms acc)
    (fold_left (fun a x => Z.max a (align_of x)) ms a) (f && forallb fixed_of ms)
    (fold_left (fun n x => n + min_of x) ms mn)
    (fold_left (fun acc x => n ← acc; w ← wc_of x; Some (n + w)) ms w)
    (fold_left (fun off x => roundUp off (align_of x) + size_of x) ms off).
Proof.
  intros H. revert acc a f mn w off. induction H as [|x ms [Hi Hx] _ IH]; intros acc a f mn w off Hs Hmn Hw Hoff.
  { simpl. by rewrite andb_true_r. }
  cbn [fold_left forallb]. rewrite andb_assoc. destruct Hx as [Hal Hsz Hd Hmi Hwc].
  pose proof (roundUp_bounds off _ (pow_align_pos _ Hal)). apply IH; [|lia| |lia].
  2:{ intros n. destruct w as [w0|]; simpl; [|done]. destruct (wc_of x) as [wx|]; simpl; [|done]. intros [= <-].
      specialize (Hw w0 eq_refl). specialize (Hwc wx eq_refl). lia. }
  destruct acc as [ti o]. destruct Hs as (E1 & E2 & E3 & E4 & E5 & E6). rewrite Hi. unfold struct_member, info_of, loop_state. simpl in *.
  split_and!; [done|congruence|congruence|by rewrite E4, sat_add| |].
  - destruct w as [w0|]; simpl.
    + destruct E5 as [-> ->]. destruct (wc_of x) as [wx|]; simpl; [|done]. by rewrite sat_add by auto.
    + rewrite E5. done.
  - intros [-> ->]%andb_true_iff. rewrite E6 by done. by rewrite sat_roundUp, sat_add by (done || lia).
Qed.

Lemma info_struct ms :
  Forall (fun x => info x = info_of x /\ sizes_ok x) ms -> sizes_ok (XStruct ms) -> info (XStruct ms) = info_of (XStruct ms).
Proof.
  intros H Hok. pose proof (struct_fold ms struct_start 1 true 0 (Some 0) 0 H) as Hf.
  destruct Hf as (E1 & E2 & E3 & E4 & E5 & E6); [unfold loop_state; simpl; done|lia|by intros ? [= <-]|lia|].
  change (info (XStruct ms)) with (struct_end (fold_left (fun acc x => struct_member (info x) acc) ms struct_start)).
  unfold info_of. rewrite wc_of_struct. destruct (fold_left _ ms struct_start) as [ti off]. simpl in E1, E2, E3, E4, E5, E6.
  destruct Hok as [Hal Hsz _ _ _]. pose proof (pow_align_pos _ Hal). unfold struct_end. rewrite E3.
  change (fixed_of (XStruct ms)) with (forallb fixed_of ms). destruct (forallb fixed_of ms) eqn:Ef; simpl.
  - rewrite E2, E4, E6 by done. rewrite sat_roundUp by done.
    assert (1 <= fold_left (fun a x => Z.max a (align_of x)) ms 1) by done. by rewrite sat_add_r by lia.
  - destruct (fold_left (fun acc x => n ← acc; w ← wc_of x; Some (n + w)) ms (Some 0)) as [w|].
    + destruct E5 as [E5 E7]. rewrite E5. destruct ti. simpl in *. subst. done.
    + rewrite E5, E1, E2, E3, E4. done.
Qed.

Lemma union_fold cs fin payload (w : option Z) :
  Forall (fun x => is_unit x = true \/ info x = info_of x /\ sizes_ok x) cs ->
  (match w with Some n => fin = true /\ payload = sat n /\ 0 <= n | None => fin = false end) ->
  match fold_left (fun acc x => n ← acc; w ← wc_of x; Some (Z.max n w)) cs w with
  | Some n => fold_left (fun acc x => if is_unit x then acc else union_case (info x) acc) cs (fin, payload) = (true, sat n) /\ 0 <= n
  | None => (fold_left (fun acc x => if is_unit x then acc else union_case (info x) acc) cs (fin, payload)).1 = false
  end.
Proof.
  intros H. revert fin payload w. induction H as [|x cs Hx _ IH]; intros fin payload w Hw.
  { simpl. destruct w as [n|]; [by destruct Hw as (-> & -> & ?)|done]. }
  simpl. destruct Hx as [Hu|[Hi Hx]].
  - rewrite Hu. destruct x; try done. simpl. apply IH. destruct w as [n|]; simpl; [|done].
    destruct Hw as (-> & -> & ?). split_and!; [done|f_equal; lia|lia].
  - destruct (is_unit x) eqn:Eu; [by destruct x|]. unfold union_case. rewrite Hi. unfold info_of. simpl.
    destruct (wc_of x) as [wx|] eqn:Ew; simpl.
    + apply IH. destruct w as [n|]; simpl; [|done]. destruct Hw as (-> & -> & ?). destruct Hx as [_ _ _ _ Hwc].
      specialize (Hwc wx Ew). split_and!; [done|unfold sat; lia|lia].
    + apply IH. by destruct w.
Qed.

Lemma info_rules x : wf_ty x = true -> info x = info_of x.
Proof.
  induction x as [k|mx|mx| | |ms IH|tags cs IH|e len IH|e mx IH] using xty_ind'; intros Hwf.
  - simpl in Hwf. unfold info_of. simpl. rewrite Hwf. destruct k; simpl in Hwf |- *; done.
  - unfold info_of. simpl. unfold str_info. rewrite satAdd_sat. by destruct (0 <? mx).
  - unfold info_of. simpl. unfold bytes_info. rewrite satAdd_sat. by destruct (0 <? mx).
  - done.
  - done.
  - pose proof (wf_sizes _ Hwf) as Hok. apply info_struct; [|done]. simpl in Hwf. rewrite forallb_forall in Hwf.
    rewrite list.Forall_forall in IH |- *. intros x Hx. specialize (Hwf x ltac:(by apply list_elem_of_In)). by split; [apply IH|apply wf_sizes].
  - pose proof (wf_sizes _ Hwf) as Hok. simpl in Hwf. apply andb_true_iff in Hwf as [_ Hwf]. rewrite forallb_forall in Hwf.
    assert (Hcs : Forall (fun x => is_unit x = true \/ info x = info_of x /\ sizes_ok x) cs).
    { rewrite list.Forall_forall in IH |- *. intros x Hx. specialize (Hwf x ltac:(by apply list_elem_of_In)).
      apply orb_true_iff in Hwf as [Hu|Hwf]; [by left|right]. by split; [apply IH|apply wf_sizes]. }
    pose proof (union_fold cs true 0 (Some 0) Hcs ltac:(done)) as Hf. unfold info_of. cbn [info fixed_of align_of min_of wc_of].
    destruct (fold_left (fun acc x => n ← acc; w ← wc_of x; Some (Z.max n w)) cs (Some 0)) as [n|].
    + destruct Hf as [-> Hn]. simpl. by rewrite sat_add_r.
    + destruct (fold_left _ cs (true, 0)) as [f p]. simpl in Hf. by subst.
  - simpl in Hwf. apply andb_true_iff in Hwf as [[Hwf Hfx]%andb_true_iff Hlen]. destruct (wf_sizes _ Hwf) as [Ha Hs Hd _ _].
    pose proof (pow_align_pos _ Ha). cbn [info]. rewrite (IH Hwf). unfold fixedArray_info, info_of. simpl. rewrite Hfx. simpl.
    breflect. rewrite (proj2 (Z.ltb_ge len 1)) by lia. rewrite sat_roundUp by done.
    pose proof (roundUp_bounds (size_of e) (align_of e)). rewrite sat_mul_r by lia. by rewrite sat_add_r by lia.
  - simpl in Hwf. apply andb_true_iff in Hwf as [Hwf Hmx]. destruct (wf_sizes _ Hwf) as [_ _ _ _ Hw].
    cbn [info]. rewrite (IH Hwf). unfold array_info, info_of. simpl. destruct (Z.ltb_spec 0 mx); simpl; [|done].
    destruct (wc_of e) as [w|]; simpl; [|done]. specialize (Hw w eq_refl). by rewrite sat_mul_r, sat_add_r by lia.
Qed.

(** ** Encodings *)

Notation zlen b := (Z.of_nat (length b)).

(** The fields of a struct, named. *)
Fixpoint enc_fields (ms : list xty) (l : list val) (pos : Z) : bytes :=
  match ms, l with
  | x :: ms, v :: l => let b := enc x v pos in b ++ enc_fields ms l (pos + zlen b)
  | _, _ => []
  end.

Fixpoint fields_ok (ms : list xty) (l : list val) : bool :=
  match ms, l with
  | [], [] => true
  | x :: ms, v :: l => has_ty x v && fields_ok ms l
  | _, _ => false
  end.

Lemma enc_struct_eq ms l pos :
  enc (XStruct ms) (VList l) pos =
    if forallb fixed_of ms then
      let a := align_of (XStruct ms) in
      let body := enc_fields ms l (pos + zlen (pad a pos)) in
      pad a pos ++ body ++ pad a (pos + zlen (pad a pos) + zlen body)
    else enc_fields ms l pos.
Proof. reflexivity. Qed.

Lemma has_ty_struct ms l : has_ty (XStruct ms) (VList l) = fields_ok ms l.
Proof. reflexivity. Qed.

Lemma enc_union_eq tags cs i p pos c :
  cs !! i = Some c ->
  enc (XUnion tags cs) (VCase i p) pos =
    (pad 4 pos ++ le_put 4 (nth i tags 0)) ++ enc c p (pos + zlen (pad 4 pos ++ le_put 4 (nth i tags 0))).
Proof.
  intros Hc. cbn [enc]. f_equal. generalize (pos + zlen (pad 4 pos ++ le_put 4 (nth i tags 0))). clear tags. intros q.
  revert i Hc. induction cs as [|x cs IH]; intros [|i] Hc; simplify_eq/=; [done|]. by apply IH.
Qed.

Lemma has_ty_union tags cs i p : has_ty (XUnion tags cs) (VCase i p) = true -> exists c, cs !! i = Some c /\ has_ty c p = true.
Proof.
  cbn [has_ty]. revert i. induction cs as [|x cs IH]; intros [|i] H; simpl in *; [done..| |].
  - by exists x.
  - by apply IH.
Qed.

Lemma length_pad a pos : 1 <= a -> zlen (pad a pos) = roundUp pos a - pos.
Proof. intros Ha. unfold pad. rewrite length_replicate. pose proof (roundUp_bounds pos a Ha). lia. Qed.

Lemma length_pad_aligned a pos : 1 <= a -> (a | pos) -> zlen (pad a pos) = 0.
Proof. intros. rewrite length_pad by done. rewrite roundUp_id by done. lia. Qed.

(** *** Fixed types *)

Lemma fixed_sizes x : wf_ty x = true -> fixed_of x = true -> min_of x <= size_of x /\ wc_of x = Some (align_of x - 1 + size_of x).
Proof.
  induction x as [k|mx|mx| | |ms IH|tags cs IH|e len IH|e mx IH] using xty_ind'; intros Hwf Hfx; try done.
  - simpl. split; [lia|f_equal; lia].
  - rewrite wc_of_struct. change (fixed_of (XStruct ms)) with (forallb fixed_of ms) in Hfx. rewrite Hfx. split; [|done].
    pose proof (wf_sizes _ Hwf) as [Ha _ _ _ _].
    transitivity (fold_left (fun off x => roundUp off (align_of x) + size_of x) ms 0);
      [|apply roundUp_bounds; by apply (pow_align_pos (align_of (XStruct ms)))].
    change (fold_left (fun n x => n + min_of x) ms 0 <= fold_left (fun off x => roundUp off (align_of x) + size_of x) ms 0).
    simpl in Hwf. clear Ha. assert (H : forall n n', n <= n' ->
      fold_left (fun n x => n + min_of x) ms n <= fold_left (fun off x => roundUp off (align_of x) + size_of x) ms n'); [|by apply H].
    induction IH as [|x ms Hx _ IH]; intros n n' Hn; [done|]. simpl in *.
    apply andb_true_iff in Hwf as [Hwx Hwf], Hfx as [Hfx Hfs]. apply IH; [done..|]. destruct (Hx Hwx Hfx) as [Hm _].
    destruct (wf_sizes _ Hwx) as [Ha _ _ _ _]. pose proof (roundUp_bounds n' _ (pow_align_pos _ Ha)). lia.
Qed.

Lemma enc_fields_fixed ms l p0 off a :
  Forall (fun x => forall v pos, wf_ty x = true -> fixed_of x = true -> has_ty x v = true ->
            zlen (enc x v pos) = roundUp pos (align_of x) - pos + size_of x) ms ->
  forallb wf_ty ms = true -> forallb fixed_of ms = true -> fields_ok ms l = true ->
  pow_align a -> Forall (fun x => align_of x <= a) ms -> (a | p0) ->
  zlen (enc_fields ms l (p0 + off)) = fold_left (fun off x => roundUp off (align_of x) + size_of x) ms off - off.
Proof.
  intros H. revert l off. induction H as [|x ms Hx _ IH]; intros l off Hwf Hfx Hl Ha Hal Hp0.
  { simpl. lia. }
  destruct l as [|v l]; [done|]. simpl in Hwf, Hfx, Hl. apply andb_true_iff in Hwf as [Hwx Hwf], Hfx as [Hfx Hfs], Hl as [Hv Hl].
  inversion Hal as [|? ? Hax Hal' ]; subst. destruct (wf_sizes _ Hwx) as [Hxa Hsz _ _ _]. pose proof (pow_align_pos _ Hxa).
  assert (Hd : (align_of x | p0)) by (etransitivity; [by apply (pow_align_divide (align_of x) a)|done]).
  assert (E : p0 + off + zlen (enc x v (p0 + off)) = p0 + (roundUp off (align_of x) + size_of x)).
  { rewrite Hx by done. rewrite roundUp_shift by done. lia. }
  cbn [enc_fields fold_left]. rewrite length_app, Nat2Z.inj_add, E.
  rewrite IH by done. lia.
Qed.

Lemma enc_seq_fixed (f : val -> Z -> bytes) l pos step a :
  1 <= a -> (a | pos) -> (a | step) -> (forall v p, v ∈ l -> (a | p) -> zlen (f v p) = step) ->
  zlen (enc_seq f l pos) = zlen l * step.
Proof.
  intros Ha Hpos Hstep. revert pos Hpos. induction l as [|v l IH]; intros pos Hpos Hf; [done|].
  cbn [enc_seq]. rewrite length_app, Nat2Z.inj_add, IH.
  - rewrite Hf by (left || done). simpl length. lia.
  - rewrite Hf by (left || done). by apply Z.divide_add_r.
  - intros w p Hw Hp. apply Hf; [by right|done].
Qed.

Lemma enc_fixed x v pos :
  wf_ty x = true -> fixed_of x = true -> has_ty x v = true -> zlen (enc x v pos) = roundUp pos (align_of x) - pos + size_of x.
Proof.
  revert v pos. induction x as [k|mx|mx| | |ms IH|tags cs IH|e len IH|e mx IH] using xty_ind'; intros v pos Hwf Hfx Hv; try done.
  - destruct v; try done. simpl in Hwf. pose proof (pow_align_pos _ (scalarSize_align k Hwf)). cbn [enc align_of size_of].
    rewrite length_app, Nat2Z.inj_add, length_pad, length_le_put by done. lia.
  - destruct v; try done. cbn [enc align_of size_of]. rewrite length_app, Nat2Z.inj_add, length_pad, length_le_put by lia. lia.
  - destruct v as [| |l| |]; try done. rewrite enc_struct_eq. change (fixed_of (XStruct ms)) with (forallb fixed_of ms) in Hfx.
    rewrite Hfx. pose proof (wf_sizes _ Hwf) as [Ha _ _ _ _]. set (a := align_of (XStruct ms)) in *. pose proof (pow_align_pos _ Ha).
    cbv zeta. rewrite !length_app, !Nat2Z.inj_add. rewrite (length_pad a pos), (length_pad a _) by done.
    replace (pos + (roundUp pos a - pos)) with (roundUp pos a + 0) by lia.
    rewrite (enc_fields_fixed ms l (roundUp pos a) 0 a); [|done..|by apply fold_align_le|by apply roundUp_divide].
    rewrite !Z.add_0_r, Z.sub_0_r. rewrite roundUp_shift by (done || by apply roundUp_divide).
    change (size_of (XStruct ms)) with (roundUp (fold_left (fun off x => roundUp off (align_of x) + size_of x) ms 0) a). lia.
  - destruct v as [| |l| |]; try done. simpl in Hwf, Hv. apply andb_true_iff in Hwf as [[Hwf Hfe]%andb_true_iff Hlen], Hv as [Hn Hl].
    destruct (wf_sizes _ Hwf) as [Ha Hs Hd _ _]. pose proof (pow_align_pos _ Ha). specialize (Hd Hfe). breflect.
    cbn [enc align_of size_of]. rewrite length_app, Nat2Z.inj_add, length_pad by done.
    replace (pos + (roundUp pos (align_of e) - pos)) with (roundUp pos (align_of e)) by lia.
    rewrite (enc_seq_fixed _ l _ (roundUp (size_of e) (align_of e)) (align_of e)); [lia|done|by apply roundUp_divide..|].
    intros w p Hw Hp. rewrite length_app, Nat2Z.inj_add. rewrite forallb_forall in Hl.
    rewrite (IH w p Hwf Hfe) by (apply Hl; by apply list_elem_of_In). rewrite (roundUp_id p) by done.
    replace (p - p + size_of e) with (size_of e) by lia. rewrite length_pad_aligned by (done || by apply Z.divide_add_r).
    by rewrite roundUp_id, Z.add_0_r by done.
Qed.

(** *** All types *)

Lemma enc_seq_bounds (f : val -> Z -> bytes) l pos lo hi :
  (forall v p, v ∈ l -> lo <= zlen (f v p) /\ (forall h, hi = Some h -> zlen (f v p) <= h)) ->
  zlen l * lo <= zlen (enc_seq f l pos) /\ (forall h, hi = Some h -> zlen (enc_seq f l pos) <= zlen l * h).
Proof.
  revert pos. induction l as [|v l IH]; intros pos Hf; [done|]. cbn [enc_seq]. rewrite length_app, Nat2Z.inj_add.
  destruct (Hf v pos) as [Hlo Hhi]; [left|]. destruct (IH (pos + zlen (f v pos))) as [IHlo IHhi]; [intros; apply Hf; by right|].
  simpl length. split; [lia|]. intros h Hh. specialize (Hhi h Hh). specialize (IHhi h Hh). lia.
Qed.

Lemma enc_fields_bounds ms l pos n acc :
  Forall (fun x => forall v pos, has_ty x v = true ->
            min_of x <= zlen (enc x v pos) /\ (forall w, wc_of x = Some w -> zlen (enc x v pos) <= w)) ms ->
  fields_ok ms l = true ->
  fold_left (fun n x => n + min_of x) ms n - n <= zlen (enc_fields ms l pos) /\
  (forall w, fold_left (fun acc x => n ← acc; w ← wc_of x; Some (n + w)) ms acc = Some w ->
     exists w0, acc = Some w0 /\ zlen (enc_fields ms l pos) <= w - w0).
Proof.
  intros H. revert l pos n acc. induction H as [|x ms Hx _ IH]; intros l pos n acc Hl.
  { destruct l; [|done]. simpl. split; [lia|]. intros w ->. exists w. split; [done|lia]. }
  destruct l as [|v l]; [done|]. simpl in Hl. apply andb_true_iff in Hl as [Hv Hl].
  destruct (Hx v pos Hv) as [Hmin Hwc]. cbn [enc_fields fold_left]. rewrite length_app, Nat2Z.inj_add.
  destruct (IH l (pos + zlen (enc x v pos)) (n + min_of x) (n ← acc; w ← wc_of x; Some (n + w)) Hl) as [IHm IHw].
  split; [lia|]. intros w Hw. destruct (IHw w Hw) as (w1 & Hw1 & Hle).
  destruct acc as [w0|]; simpl in Hw1; [|done]. destruct (wc_of x) as [wx|] eqn:Ew; simpl in Hw1; [|done]. injection Hw1 as <-.
  exists w0. split; [done|]. specialize (Hwc wx eq_refl). lia.
Qed.

Lemma fold_max_ge cs acc w c :
  c ∈ cs -> fold_left (fun acc x => n ← acc; w ← wc_of x; Some (Z.max n w)) cs acc = Some w ->
  exists wx, wc_of c = Some wx /\ wx <= w.
Proof.
  assert (Hacc : forall cs acc, fold_left (fun acc x => n ← acc; w ← wc_of x; Some (Z.max n w)) cs acc = Some w -> exists n, acc = Some n /\ n <= w).
  { clear. induction cs as [|x cs IH]; intros acc E; simpl in E; [eauto with lia|]. destruct (IH _ E) as (n & En & Hn).
    destruct acc as [a|]; simpl in En; [|done]. destruct (wc_of x); simplify_eq/=. exists a. split; [done|lia]. }
  revert acc. induction cs as [|x cs IH]; intros acc Hc E; [by apply elem_of_nil in Hc|].
  apply elem_of_cons in Hc as [->|Hc]; simpl in E; [|by eapply IH].
  destruct (Hacc _ _ E) as (n & En & Hn). destruct acc as [a|]; simpl in En; [|done].
  destruct (wc_of x) as [wx|]; simplify_eq/=. exists wx. split; [done|lia].
Qed.

Lemma prefix_bounds pos : 4 <= zlen (pad 4 pos) + 4 <= 7.
Proof. rewrite length_pad by lia. pose proof (roundUp_bounds pos 4). lia. Qed.

Lemma enc_bounds_fixed x v pos :
  wf_ty x = true -> fixed_of x = true -> has_ty x v = true ->
  min_of x <= zlen (enc x v pos) /\ (forall w, wc_of x = Some w -> zlen (enc x v pos) <= w).
Proof.
  intros Hwf Hfx Hv. destruct (fixed_sizes _ Hwf Hfx) as [Hm Hw]. rewrite (enc_fixed _ v pos Hwf Hfx Hv), Hw.
  destruct (wf_sizes _ Hwf) as [Ha _ _ _ _]. pose proof (roundUp_bounds pos _ (pow_align_pos _ Ha)).
  split; [lia|]. intros w E%(inj Some). lia.
Qed.

Lemma enc_bounds x v pos :
  wf_ty x = true -> has_ty x v = true ->
  min_of x <= zlen (enc x v pos) /\ (forall w, wc_of x = Some w -> zlen (enc x v pos) <= w).
Proof.
  revert v pos. induction x as [k|mx|mx| | |ms IH|tags cs IH|e len IH|e mx IH] using xty_ind'; intros v pos Hwf Hv; try done.
  all: match goal with |- min_of ?x <= _ /\ _ => destruct (fixed_of x) eqn:Hfx end; [by apply enc_bounds_fixed|try done].
  all: pose proof (prefix_bounds pos) as Hp.
  - destruct v as [|b| | |]; try done. cbn [enc]. simpl in Hv. unfold bound_ok in Hv. breflect.
    rewrite !length_app, length_le_put, !Nat2Z.inj_add. simpl length. split; [simpl; lia|]. simpl. intros w.
    destruct (Z.ltb_spec 0 mx); [|done]. intros [= <-]. lia.
  - destruct v as [|b| | |]; try done. cbn [enc]. simpl in Hv. unfold bound_ok in Hv. breflect.
    rewrite !length_app, length_le_put, !Nat2Z.inj_add. split; [simpl; lia|]. simpl. intros w.
    destruct (Z.ltb_spec 0 mx); [|done]. intros [= <-]. lia.
  - destruct v as [| |l| |]; try done. rewrite enc_struct_eq, wc_of_struct.
    change (fixed_of (XStruct ms)) with (forallb fixed_of ms) in Hfx. rewrite Hfx. rewrite has_ty_struct in Hv.
    simpl in Hwf. rewrite forallb_forall in Hwf.
    destruct (enc_fields_bounds ms l pos 0 (Some 0)) as [Hmin Hwc]; [|done|].
    { rewrite list.Forall_forall in IH |- *. intros x Hx v p. apply IH; [done|]. apply Hwf. by apply list_elem_of_In. }
    change (min_of (XStruct ms)) with (fold_left (fun n x => n + min_of x) ms 0). split; [lia|].
    intros w Hw. destruct (Hwc w Hw) as (w0 & [= <-] & ?). lia.
  - destruct v as [| | |i p|]; try done. destruct (has_ty_union _ _ _ _ Hv) as (c & Hc & Hty).
    rewrite (enc_union_eq _ _ _ _ _ _ Hc). simpl in Hwf. apply andb_true_iff in Hwf as [_ Hwf]. rewrite forallb_forall in Hwf.
    rewrite !length_app, length_le_put, !Nat2Z.inj_add. set (q := pos + _).
    pose proof (list_elem_of_lookup_2 _ _ _ Hc) as Hin. split; [simpl; lia|].
    intros w. simpl. destruct (fold_left _ cs _) as [n|] eqn:Ef; simpl; [|done]. intros [= <-].
    destruct (fold_max_ge _ _ _ _ Hin Ef) as (wx & Hwx & Hle).
    assert (zlen (enc c p q) <= wx); [|lia]. specialize (Hwf c ltac:(by apply list_elem_of_In)).
    apply orb_true_iff in Hwf as [Hu|Hwf].
    + destruct c, p; try done. simpl in *. injection Hwx as <-. lia.
    + rewrite list.Forall_forall in IH. by apply (IH c Hin p q Hwf Hty).
  - destruct v as [| |l| |]; try done. simpl in Hwf, Hv. apply andb_true_iff in Hwf as [Hwf Hmx], Hv as [Hn Hl].
    unfold bound_ok in Hn. rewrite forallb_forall in Hl. cbn [enc]. rewrite !length_app, length_le_put, !Nat2Z.inj_add. set (q := pos + _).
    destruct (enc_seq_bounds (enc e) l q (min_of e) (wc_of e)) as [Hlo Hhi].
    { intros v p Hv. apply IH; [done|]. apply Hl. by apply list_elem_of_In. }
    destruct (wf_sizes _ Hwf) as [_ _ _ Hm0 Hw0]. split; [simpl; lia|]. simpl. intros w.
    destruct (Z.ltb_spec 0 mx); [|done]. destruct (wc_of e) as [we|]; simpl; [|done]. intros [= <-].
    specialize (Hhi we eq_refl). specialize (Hw0 we eq_refl). breflect. nia.
Qed.

(** ** The exported queries against the encodings *)

(** Sizes and encodings agree. For a type the checker lets through, whatever
    was asked before: an encoding of any of its values at any position takes at
    least [MinSize] bytes; at most [WorstCase] bytes if that is finite and not
    saturated; and exactly the alignment padding and [SizeOf] bytes if the type
    is fixed. *)
Theorem encoding_sizes D k t x v pos :
  expand D k t = Some x -> wf_ty x = true -> has_ty x v = true ->
  exists sz al fx mn w fin,
    computes D (SizeOf D t) (sz, al, fx) /\ computes D (MinSize D t) mn /\ computes D (WorstCase D t) (w, fin) /\
    mn <= zlen (enc x v pos) /\ (fin = true -> w < satCap -> zlen (enc x v pos) <= w) /\
    (fx = true -> sz < satCap -> zlen (enc x v pos) = roundUp pos al - pos + sz).
Proof.
  intros Hx Hwf Hv. pose proof (enc_bounds x v pos Hwf Hv) as [Hmin Hwc]. pose proof (computes_info D t k x Hx) as Hi.
  rewrite (info_rules x Hwf) in Hi. do 6 eexists. split_and!.
  - eapply computes_bind; [exact Hi|apply computes_ret].
  - eapply computes_bind; [exact Hi|apply computes_ret].
  - eapply computes_bind; [exact Hi|apply computes_ret].
  - simpl. unfold sat. lia.
  - simpl. destruct (wc_of x) as [w|]; [|done]. intros _ ->%sat_exact. by apply Hwc.
  - simpl. intros Hfx. rewrite Hfx. intros ->%sat_exact. by apply enc_fixed.
Qed.

(** A struct { u8; u16; u8 }: size 6, alignment 2, smallest size 4. *)
Definition sample_decls : decls := mkDecls [[Scalar KU8; Scalar KU16; Scalar KU8]] [].
Definition sample_xty : xty := XStruct [XScalar KU8; XScalar KU16; XScalar KU8].

Lemma encoding_sizes_witness :
  4 <= zlen (enc sample_xty (VList [VInt 1; VInt 2; VInt 3]) 1) <= 7 /\
  zlen (enc sample_xty (VList [VInt 1; VInt 2; VInt 3]) 1) = roundUp 1 2 - 1 + 6.
Proof.
  destruct (encoding_sizes sample_decls 1 (StructTy [] 0) sample_xty (VList [VInt 1; VInt 2; VInt 3]) 1 eq_refl eq_refl eq_refl)
    as (sz & al & fx & mn & w & fin & Hs & Hm & Hw & Hmin & Hwc & Hfx).
  destruct (Hs empty_memo (settled_empty _)) as (? & Es & _). vm_compute in Es.
  destruct (Hm empty_memo (settled_empty _)) as (? & Em & _). vm_compute in Em.
  destruct (Hw empty_memo (settled_empty _)) as (? & Ew & _). vm_compute in Ew. simplify_eq.
  split; [split; [exact Hmin|exact (Hwc eq_refl ltac:(done))]|]. exact (Hfx eq_refl ltac:(done)).
Defined.

(** *** Member offsets *)

Fixpoint member_offsets (ms : list xty) (off : Z) : list Z :=
  match ms with
  | [] => []
  | x :: ms => let o := roundUp off (align_of x) in o :: member_offsets ms (o + size_of x)
  end.

Lemma offsets_loop_computes D k ts ms off :
  Forall2 (fun t x => expand D k t = Some x /\ wf_ty x = true /\ fixed_of x = true) ts ms -> 0 <= off ->
  computes D (offsets_loop D ts (sat off)) (sat <$> member_offsets ms off).
Proof.
  intros H. revert off. induction H as [|t x ts ms (Hx & Hwf & Hfx) _ IH]; intros off Hoff; [apply computes_ret|].
  destruct (wf_sizes _ Hwf) as [Ha Hs _ _ _]. pose proof (roundUp_bounds off _ (pow_align_pos _ Ha)).
  eapply computes_bind; [by eapply computes_SizeOf|]. rewrite (info_rules x Hwf). unfold info_of. simpl. rewrite Hfx.
  rewrite sat_roundUp, sat_add by (done || lia). eapply computes_bind; [apply IH; lia|apply computes_ret].
Qed.

(** The members lie between the start and the end. *)
Lemma member_offsets_le ms off : Forall (fun x => sizes_ok x) ms ->
  off <= fold_left (fun off x => roundUp off (align_of x) + size_of x) ms off /\
  Forall2 (fun x o => off <= o /\ o + size_of x <= fold_left (fun off x => roundUp off (align_of x) + size_of x) ms off)
    ms (member_offsets ms off).
Proof.
  intros H. revert off. induction H as [|x ms Hx _ IH]; intros off; simpl; [split; [lia|constructor]|].
  destruct Hx as [Ha Hs _ _ _]. pose proof (roundUp_bounds off _ (pow_align_pos _ Ha)).
  destruct (IH (roundUp off (align_of x) + size_of x)) as [H1 H2]. split; [lia|]. constructor; [lia|].
  eapply Forall2_impl; [|exact H2]. intros y o Ho. simpl in Ho. lia.
Qed.

Lemma pad_aligned a pos : 1 <= a -> (a | pos) -> pad a pos = [].
Proof. intros. unfold pad. rewrite roundUp_id by done. by rewrite Z.sub_diag. Qed.

(** A fixed value is its padding and its encoding at the aligned position. *)
Lemma enc_pad x v pos : 
  wf_ty x = true -> fixed_of x = true -> has_ty x v = true ->
  enc x v pos = pad (align_of x) pos ++ enc x v (roundUp pos (align_of x)).
Proof.
  intros Hwf Hfx Hv. destruct (wf_sizes _ Hwf) as [Ha _ _ _ _]. pose proof (pow_align_pos _ Ha) as H1.
  assert (Hp : pos + zlen (pad (align_of x) pos) = roundUp pos (align_of x)) by (rewrite length_pad by done; lia).
  assert (Hn : pad (align_of x) (roundUp pos (align_of x)) = []) by (apply pad_aligned; [done|by apply roundUp_divide]).
  destruct x as [k|mx|mx| | |ms|tags cs|e len|e mx]; try done; destruct v as [n|b|l|i p|]; try done.
  - cbn [enc align_of] in *. by rewrite Hn.
  - cbn [enc align_of] in *. by rewrite Hn.
  - rewrite !enc_struct_eq. change (fixed_of (XStruct ms)) with (forallb fixed_of ms) in Hfx. rewrite Hfx. cbv zeta.
    rewrite Hp, Hn. change (zlen (@nil Z)) with 0. by rewrite !Z.add_0_r.
  - cbn [enc align_of] in *. rewrite Hp, Hn. change (zlen (@nil Z)) with 0. by rewrite !Z.add_0_r.
Qed.

Lemma enc_fields_at ms l p0 off a j x v :
  forallb wf_ty ms = true -> forallb fixed_of ms = true -> fields_ok ms l = true ->
  pow_align a -> Forall (fun x => align_of x <= a) ms -> (a | p0) -> 0 <= off ->
  ms !! j = Some x -> l !! j = Some v ->
  exists o rest, member_offsets ms off !! j = Some o /\ (align_of x | o) /\
    drop (Z.to_nat (o - off)) (enc_fields ms l (p0 + off)) = enc x v (p0 + o) ++ rest.
Proof.
  revert l off j. induction ms as [|y ms IH]; intros l off j Hwf Hfx Hl Ha Hal Hp0 Hoff Hx Hv; [done|].
  destruct l as [|w l]; [done|]. simpl in Hwf, Hfx, Hl. apply andb_true_iff in Hwf as [Hwy Hwf], Hfx as [Hfy Hfx], Hl as [Hw Hl].
  inversion Hal as [|? ? Hay Hal' ]; subst. destruct (wf_sizes _ Hwy) as [Hya Hsz _ _ _]. pose proof (pow_align_pos _ Hya) as H1.
  assert (Hd : (align_of y | p0)) by (etransitivity; [by apply (pow_align_divide (align_of y) a)|done]).
  pose proof (roundUp_bounds off _ H1). cbn [enc_fields member_offsets].
  assert (E : p0 + off + zlen (enc y w (p0 + off)) = p0 + (roundUp off (align_of y) + size_of y)).
  { rewrite enc_fixed by done. rewrite roundUp_shift by done. lia. }
  destruct j as [|j]; simplify_eq/=.
  - exists (roundUp off (align_of x)). pose proof (enc_pad x v (p0 + off) Hwy Hfy Hw) as Ep.
    rewrite roundUp_shift in Ep by done. rewrite Ep. eexists. split; [done|]. split; [by apply roundUp_divide|].
    rewrite <- app_assoc. replace (Z.to_nat (roundUp off (align_of x) - off)) with (length (pad (align_of x) (p0 + off)))
      by (apply Nat2Z.inj; rewrite length_pad, roundUp_shift by done; lia).
    by rewrite drop_app_length.
  - destruct (IH l (roundUp off (align_of y) + size_of y) j) as (o & rest & Ho & Hao & Hr); [done..|lia|done|done|].
    exists o, rest. split; [done|]. split; [done|]. rewrite <- Hr, E.
    assert (Hlo : roundUp off (align_of y) + size_of y <= o).
    { destruct (member_offsets_le ms (roundUp off (align_of y) + size_of y)) as [_ Hle].
      - apply list.Forall_forall. intros z Hz. rewrite forallb_forall in Hwf. apply wf_sizes, Hwf. by apply list_elem_of_In.
      - destruct (Forall2_lookup_r _ _ _ _ _ Hle Ho) as (? & _ & ?). lia. }
    replace (Z.to_nat (o - off)) with (length (enc y w (p0 + off)) + Z.to_nat (o - (roundUp off (align_of y) + size_of y)))%nat by lia.
    by rewrite drop_app_add.
Qed.

(** [MemberOffsets] gives where the members are. For a fixed struct within the
    saturation limit: every offset is a multiple of its member's alignment, and
    in the encoding of a value of the struct at an aligned position the member's
    encoding starts at that offset and ends within the size of the struct. *)
Theorem member_offsets_exact D k i ts ms l pos :
  d_structs D !! i = Some ts -> expand D (S k) (StructTy [] i) = Some (XStruct ms) ->
  wf_ty (XStruct ms) = true -> fixed_of (XStruct ms) = true -> size_of (XStruct ms) < satCap ->
  has_ty (XStruct ms) (VList l) = true -> (align_of (XStruct ms) | pos) ->
  exists offs, computes D (MemberOffsets D i) (Some offs) /\
    forall j x v, ms !! j = Some x -> l !! j = Some v ->
      exists o rest, offs !! j = Some o /\ (align_of x | o) /\ o + size_of x <= size_of (XStruct ms) /\
        drop (Z.to_nat o) (enc (XStruct ms) (VList l) pos) = enc x v (pos + o) ++ rest.
Proof.
  intros Hts Hx Hwf Hfx Hlt Hl Hpos. assert (Hfs : forallb fixed_of ms = true) by done. assert (Hws : forallb wf_ty ms = true) by done.
  assert (Hok : Forall sizes_ok ms).
  { apply list.Forall_forall. intros z Hz. rewrite forallb_forall in Hws. apply wf_sizes, Hws. by apply list_elem_of_In. }
  destruct (wf_sizes _ Hwf) as [Ha _ _ _ _]. pose proof (pow_align_pos _ Ha) as H1. destruct (member_offsets_le ms 0 Hok) as [_ Hle].
  pose proof (roundUp_bounds (fold_left (fun off x => roundUp off (align_of x) + size_of x) ms 0) _ H1) as Hend.
  change (roundUp _ (align_of (XStruct ms))) with (size_of (XStruct ms)) in Hend.
  exists (member_offsets ms 0). split.
  - eapply computes_bind; [by eapply computes_info|]. rewrite Hts, (info_rules _ Hwf). unfold info_of. cbn [fixed]. rewrite Hfx.
    eapply computes_bind; [|apply computes_ret].
    replace (member_offsets ms 0) with (sat <$> member_offsets ms 0).
    2:{ transitivity (id <$> member_offsets ms 0); [|apply list_fmap_id]. apply Forall_fmap_ext_1, Forall_lookup_2.
        intros j o Ho. destruct (Forall2_lookup_r _ _ _ _ _ Hle Ho) as (x & Hxj & ? & ?). change (sat o = o). apply sat_small.
        destruct (Forall_lookup_1 _ _ _ _ Hok Hxj). lia. }
    apply (offsets_loop_computes D k ts ms 0); [|lia].
    unfold expand in Hx. simpl in Hx. rewrite Hts in Hx. simpl in Hx. destruct (mapM _ ts) as [xs|] eqn:Em; simplify_eq/=.
    rewrite mapM_Some in Em. clear -Em Hws Hfs. induction Em as [|t x ts xs Ht _ IH]; [constructor|]. simpl in Hws, Hfs.
    apply andb_true_iff in Hws as [Hwx Hws], Hfs as [Hfx Hfs]. constructor; [done|]. by apply IH.
  - intros j x v Hj Hv. destruct (enc_fields_at ms l pos 0 (align_of (XStruct ms)) j x v) as (o & rest & Ho & Hao & Hr);
      [done..|by apply fold_align_le|done|lia|done|done|].
    destruct (Forall2_lookup_lr _ _ _ _ _ _ Hle Hj Ho) as [H0 Hsz].
    exists o, (rest ++ pad (align_of (XStruct ms)) (pos + zlen (enc_fields ms l pos))). split_and!; [done|done|lia|].
    assert (Hlen : zlen (enc_fields ms l pos) = fold_left (fun off x => roundUp off (align_of x) + size_of x) ms 0).
    { pose proof (enc_fields_fixed ms l pos 0 (align_of (XStruct ms))) as Hf. rewrite Z.add_0_r, Z.sub_0_r in Hf.
      apply Hf; [|done..|by apply fold_align_le|done]. apply list.Forall_forall. intros. by apply enc_fixed. }
    rewrite Z.sub_0_r, Z.add_0_r in Hr. rewrite enc_struct_eq, Hfs. cbv zeta. rewrite (pad_aligned _ pos) by done.
    change (zlen (@nil Z)) with 0. rewrite Z.add_0_r. destruct (Forall_lookup_1 _ _ _ _ Hok Hj).
    simpl app. rewrite drop_app_le by lia. by rewrite Hr, <- app_assoc.
Qed.

Lemma member_offsets_exact_witness :
  exists offs, computes sample_decls (MemberOffsets sample_decls 0) (Some offs) /\ offs !! 1%nat = Some 2.
Proof.
  destruct (member_offsets_exact sample_decls 0 0 [Scalar KU8; Scalar KU16; Scalar KU8] [XScalar KU8; XScalar KU16; XScalar KU8]
    [VInt 1; VInt 2; VInt 3] 4 eq_refl eq_refl eq_refl eq_refl ltac:(done) eq_refl ltac:(by exists 2)) as (offs & Hc & Hj).
  exists offs. split; [exact Hc|]. destruct (Hj 1%nat (XScalar KU16) (VInt 2) eq_refl eq_refl) as (o & rest & Ho & _).
  destruct (Hc empty_memo (settled_empty _)) as (? & Es & _). vm_compute in Es. by simplify_eq.
Defined.
