(* ===== verification/IdlModel.v ===== *)
(** * IdlModel: a parsed and validated interface

    The declarations of model.go of bindgen/idl, and the types of the wire plan
    (plan.go). A pointer to a declaration is its index in the [Spec]. *)
From S2P Require Import Prelude IdlTypes.

(** Positions in the source: line and column, from 1. *)
Record Pos := mkPos { Line : Z; Col : Z }.

#[export] Instance Pos_eq_dec : EqDecision Pos.
Proof. solve_decision. Defined.

Inductive Serialize := SerializeSession | SerializeNone.

Inductive Dir := DirIn | DirOut | DirInOut.

#[export] Instance Dir_eq_dec : EqDecision Dir.
Proof. solve_decision. Defined.

Record Const := mkConst { k_Name : bytes; k_Type : Kind; k_Value : Z; k_Pos : Pos }.

Record Handle := mkHandle {
  h_Name : bytes; h_CType : bytes;
  h_Parent : option nat;       (* owned_by: a handle *)
  h_Destroy : option nat;      (* a function *)
  h_RetainOnFail : bool;
  h_Cancel : bytes;
  h_ID : Z; h_Pos : Pos
}.

Record Member := mkMember { mb_Name : bytes; mb_Type : Ty; mb_Pos : Pos }.
Record Struct := mkStruct { s_Name : bytes; s_CType : bytes; s_Members : list Member; s_Pos : Pos }.

Record Case := mkCase { c_Tag : Z; c_Name : bytes; c_Type : option Ty; c_Pos : Pos }.
Record Union := mkUnion { u_Name : bytes; u_Cases : list Case; u_Pos : Pos }.

Record Attrs := mkAttrs { LenOf : bytes; OffsetIn : bytes; Free : bytes; CType : bytes; Nullable : bool; Borrowed : bool }.

Definition no_attrs : Attrs := mkAttrs [] [] [] [] false false.

Record Param := mkParam { p_Name : bytes; p_Dir : Dir; p_Type : Ty; p_Attrs : Attrs; p_Derived : bool; p_Pos : Pos }.

Inductive ErrKind := ErrNone | ErrStatus | ErrNull | ErrPredicate.

#[export] Instance ErrKind_eq_dec : EqDecision ErrKind.
Proof. solve_decision. Defined.

Record Detail := mkDetail { dt_Func : bytes; dt_Args : list bytes }.
Record ErrorConv := mkErrorConv { e_Kind : ErrKind; e_Ok : list Z; e_Predicate : bytes; e_Detail : option Detail }.

(** ** The wire plan *)

Inductive Role := RoleValue | RoleCap | RoleRet.

Record Field := mkField {
  fl_Name : bytes;             (* the parameter, or "ret" *)
  fl_Role : Role;
  fl_Type : Ty;
  fl_Param : Z;                (* index of the parameter, -1 for the return *)
  fl_Off : Z                   (* offset in the fixed group, -1 in the variable group *)
}.

Record Layout := mkLayout { Fixed : list Field; FixedSize : Z; FixedPad : Z; Var : list Field }.

Record Plan := mkPlan { Req : Layout; Resp : Layout; pl_Detail : bool }.

Record Func := mkFunc {
  f_Name : bytes; f_GoName : bytes;
  f_Opcode : Z;                (* 0 for a function only the server calls *)
  f_Shim : bool; f_Intercept : bool;
  f_Params : list Param;
  f_Ret : option Ty; f_RetAttrs : Attrs;
  f_Error : option ErrorConv;
  f_MaxOut : Z;
  f_Destroys : option nat;     (* the handle this function destroys *)
  f_Plan : option Plan;
  f_Pos : Pos
}.

Definition Wire (f : Func) : bool := negb (f_Opcode f =? 0).

Record Spec := mkSpec {
  sp_Service : bytes; sp_Serialize : Serialize; sp_Includes : list bytes;
  sp_Consts : list Const; sp_Handles : list Handle; sp_Structs : list Struct; sp_Unions : list Union;
  sp_Funcs : list Func;
  sp_Wire : list nat           (* the functions with an opcode, in order *)
}.

(** What the size queries see of the declarations. *)
Definition decls_of (structs : list Struct) (unions : list Union) : decls :=
  mkDecls (map (fun s => map mb_Type (s_Members s)) structs) (map (fun u => map (fun c => (c_Tag c, c_Type c)) (u_Cases u)) unions).

(** ** Parameters *)

Definition isVarBuf (t : Ty) : bool := match kind t with KStr | KBytes | KArray => true | _ => false end.

(** [callerSupplied]: an out buffer whose storage the caller provides. *)
Definition callerSupplied (p : Param) : bool :=
  match p_Dir p, kind (p_Type p) with
  | DirOut, (KBytes | KArray) => negb (Borrowed (p_Attrs p))
  | _, _ => false
  end.

(** [borrowedOut]: an out parameter whose memory the library owns. *)
Definition borrowedOut (p : Param) : bool :=
  match p_Dir p, kind (p_Type p) with
  | DirOut, KStr => true
  | DirOut, (KBytes | KArray) => Borrowed (p_Attrs p)
  | _, _ => false
  end.
