(* ===== verification/IdlPlan.v ===== *)
(** * IdlPlan: request and response bodies of a function

    Models plan.go of bindgen/idl: how the parameters of a function become the
    fixed and the variable group of its request and of its response, and the
    bound of a response that both sides compute. *)
From S2P Require Import Prelude IdlTypes IdlSizes IdlModel.

Definition max_int32 : Z := 2 ^ 31 - 1.

(** [VarStart] and [G2Pad]. *)
Definition VarStart (l : Layout) : Z := if negb (length (Var l) =? 0)%nat then FixedPad l else FixedSize l.

Definition G2Pad (p : Plan) : Z :=
  if negb (length (Var (Resp p)) =? 0)%nat || pl_Detail p then FixedPad (Resp p) else FixedSize (Resp p).

Record BoundTerm := mkTerm { bt_Name : bytes; bt_Param : Z; bt_Const : Z; bt_PerCap : Z; bt_CapMax : Z }.

Definition u32Type : Ty := Scalar KU32.

Section Plan.
Context (D : decls).

(** A field goes to the fixed or to the variable group. *)
Definition place (fl : Field) (groups : list Field * list Field) : M (list Field * list Field) :=
  fx ← isFixed D (fl_Type fl);
  mret (if (fx : bool) then (groups.1 ++ [fl], groups.2) else (groups.1, groups.2 ++ [fl])).

(** The loop over the parameters for the request ... *)
Fixpoint req_loop (i : Z) (ps : list Param) (groups : list Field * list Field) : M (list Field * list Field) :=
  match ps with
  | [] => mret groups
  | par :: ps =>
      if p_Derived par then req_loop (i + 1) ps groups
      else
        groups ← match p_Dir par with
                 | DirIn | DirInOut => place (mkField (p_Name par) RoleValue (p_Type par) i (-1)) groups
                 | DirOut => mret groups
                 end;
        let groups := if callerSupplied par
                      then (groups.1 ++ [mkField (p_Name par) RoleCap u32Type i (-1)], groups.2) else groups in
        req_loop (i + 1) ps groups
  end.

(** ... and for the response. *)
Fixpoint resp_loop (i : Z) (ps : list Param) (groups : list Field * list Field) : M (list Field * list Field) :=
  match ps with
  | [] => mret groups
  | par :: ps =>
      if p_Derived par || bool_decide (p_Dir par = DirIn) then resp_loop (i + 1) ps groups
      else groups ← place (mkField (p_Name par) RoleValue (p_Type par) i (-1)) groups; resp_loop (i + 1) ps groups
  end.

Definition set_Off (off : Z) (fl : Field) : Field := mkField (fl_Name fl) (fl_Role fl) (fl_Type fl) (fl_Param fl) off.

Fixpoint layout_loop (fixed : list Field) (off : Z) : M (list Field * Z) :=
  match fixed with
  | [] => mret ([], off)
  | fl :: fixed =>
      '(sz, al, _) ← SizeOf D (fl_Type fl);
      let off := roundUp off al in
      '(rest, end_) ← layout_loop fixed (satAdd off sz);
      mret (set_Off off fl :: rest, end_)
  end.

Definition layoutOf (fixed var : list Field) : M Layout :=
  '(fixed, off) ← layout_loop fixed 0;
  mret (mkLayout fixed (Z.min off max_int32) (Z.min (roundUp off 8) max_int32) var).

Definition buildPlan (f : Func) : M Plan :=
  let detail := match f_Error f with Some e => match e_Detail e with Some _ => true | None => false end | None => false end in
  '(reqFixed, reqVar) ← req_loop 0 (f_Params f) ([], []);
  groups ← match f_Ret f with
           | Some t => place (mkField (str "ret") RoleRet t (-1) (-1)) ([], [])
           | None => mret ([], [])
           end;
  '(respFixed, respVar) ← resp_loop 0 (f_Params f) groups;
  req ← layoutOf reqFixed reqVar;
  resp ← layoutOf respFixed respVar;
  mret (mkPlan req resp detail).

(** One term of the response bound. *)
Definition boundTerm (f : Func) (fl : Field) : M BoundTerm :=
  let t := fl_Type fl in
  let term c per cap := mkTerm (fl_Name fl) (fl_Param fl) c per cap in
  let supplied := match f_Params f !! Z.to_nat (fl_Param fl) with
                  | Some p => (0 <=? fl_Param fl) && callerSupplied p
                  | None => false
                  end in
  if supplied then
    per ← match t with Array e _ => Stride D e | _ => mret 1 end;
    mret (term VarSlack per (Max t))
  else
    match t with
    | Str mx => mret (term (satAdd (VarSlack + 1) mx) 0 0)
    | Bytes mx => mret (term (satAdd VarSlack mx) 0 0)
    | Array e mx =>
        fx ← isFixed D e;
        if (fx : bool) then s ← Stride D e; mret (term (satAdd VarSlack (satMul mx s)) 0 0)
        else mret (term (f_MaxOut f) 0 0)
    | _ => mret (term (f_MaxOut f) 0 0)
    end.

Fixpoint bound_loop (f : Func) (fls : list Field) : M (list BoundTerm) :=
  match fls with
  | [] => mret []
  | fl :: fls => bt ← boundTerm f fl; bts ← bound_loop f fls; mret (bt :: bts)
  end.

Definition BoundTerms (p : Plan) (f : Func) : M (list BoundTerm) := bound_loop f (Var (Resp p)).

(** The value of a term for a capacity. *)
Definition term_at (cap : Z) (bt : BoundTerm) : Z := bt_Const bt + bt_PerCap bt * cap.

Definition add_term (sum : Z) (bt : BoundTerm) : Z :=
  if negb (bt_PerCap bt =? 0) then
    if bt_CapMax bt =? 0 then sum else satAdd sum (satAdd (bt_Const bt) (satMul (bt_PerCap bt) (bt_CapMax bt)))
  else satAdd sum (bt_Const bt).

(** [StaticBound]; [None] stands for errNotWire. *)
Definition StaticBound (p : option Plan) (f : Func) : M (option Z) :=
  match p with
  | None => mret None
  | Some p =>
      bts ← BoundTerms p f;
      let g2 := G2Pad p in
      let sum := fold_left add_term bts g2 in
      mret (Some (if pl_Detail p then Z.max sum (g2 + DetailReserve) else sum))
  end.

End Plan.

(** ** The groups a function's items belong to *)

Definition value_field (i : Z) (par : Param) : Field := mkField (p_Name par) RoleValue (p_Type par) i (-1).
Definition cap_field (i : Z) (par : Param) : Field := mkField (p_Name par) RoleCap u32Type i (-1).

(** What a request carries for a parameter, and what a response carries. *)
Definition req_items_of (i : Z) (par : Param) : list Field :=
  if p_Derived par then []
  else (match p_Dir par with DirOut => [] | _ => [value_field i par] end) ++ (if callerSupplied par then [cap_field i par] else []).

Definition resp_items_of (i : Z) (par : Param) : list Field :=
  if p_Derived par then [] else match p_Dir par with DirIn => [] | _ => [value_field i par] end.

Fixpoint items (carried : Z -> Param -> list Field) (i : Z) (ps : list Param) : list Field :=
  match ps with [] => [] | par :: ps => carried i par ++ items carried (i + 1) ps end.

Definition req_items (f : Func) : list Field := items req_items_of 0 (f_Params f).
Definition resp_items (f : Func) : list Field :=
  (match f_Ret f with Some t => [mkField (str "ret") RoleRet t (-1) (-1)] | None => [] end) ++ items resp_items_of 0 (f_Params f).

Definition has_detail (f : Func) : bool :=
  match f_Error f with Some e => match e_Detail e with Some _ => true | None => false end | None => false end.

Section Lowering.
Context (D : decls) (k : nat) (X : Ty -> xty).

(** [X] writes [t] out. *)
Definition known (t : Ty) : Prop := expand D k t = Some (X t) /\ wf_ty (X t) = true.

Definition fixed_field (fl : Field) : bool := fixed_of (X (fl_Type fl)).

Definition split_items (fls : list Field) : list Field * list Field :=
  (filter (fun fl => fixed_field fl) fls, filter (fun fl => negb (fixed_field fl)) fls).

Lemma split_app a b : split_items (a ++ b) = ((split_items a).1 ++ (split_items b).1, (split_items a).2 ++ (split_items b).2).
Proof. unfold split_items. simpl. by rewrite !list.filter_app. Qed.

Lemma known_info t : known t -> computes D (info_query D t) (info_of (X t)).
Proof. intros [Hx Hwf]. rewrite <- (info_rules _ Hwf). by eapply computes_info. Qed.

Lemma known_isFixed t : known t -> computes D (isFixed D t) (fixed_of (X t)).
Proof.
  intros H. eapply computes_bind; [eapply computes_bind; [by apply known_info|apply computes_ret]|].
  unfold info_of. simpl. apply computes_ret.
Qed.

Lemma place_computes fl g : known (fl_Type fl) ->
  computes D (place D fl g) (g.1 ++ (split_items [fl]).1, g.2 ++ (split_items [fl]).2).
Proof.
  intros H. eapply computes_bind; [by apply known_isFixed|]. unfold split_items, fixed_field.
  rewrite !list.filter_cons. simpl. destruct (fixed_of (X (fl_Type fl))); simpl; rewrite !app_nil_r; apply computes_ret.
Qed.

Lemma resp_loop_computes ps i g :
  Forall (fun par => known (p_Type par)) ps ->
  computes D (resp_loop D i ps g) (g.1 ++ (split_items (items resp_items_of i ps)).1, g.2 ++ (split_items (items resp_items_of i ps)).2).
Proof.
  intros H. revert i g. induction H as [|par ps Hp _ IH]; intros i g.
  { simpl. rewrite !app_nil_r. destruct g. apply computes_ret. }
  cbn [resp_loop items]. unfold resp_items_of at 1 3. rewrite !split_app. simpl.
  destruct (p_Derived par) eqn:Ed; simpl; [apply IH|].
  destruct (p_Dir par) eqn:Edir; simpl; [apply IH|..];
    (eapply computes_bind; [by apply place_computes|]; rewrite !app_assoc; apply (IH (i + 1) (_, _))).
Qed.

Hypothesis known_u32 : known u32Type.

Lemma req_loop_computes ps i g :
  Forall (fun par => known (p_Type par)) ps ->
  computes D (req_loop D i ps g) (g.1 ++ (split_items (items req_items_of i ps)).1, g.2 ++ (split_items (items req_items_of i ps)).2).
Proof.
  intros H. revert i g. induction H as [|par ps Hp _ IH]; intros i g.
  { simpl. rewrite !app_nil_r. destruct g. apply computes_ret. }
  assert (Hcap : split_items [cap_field i par] = ([cap_field i par], [])).
  { assert (E : fixed_field (cap_field i par) = true).
    { unfold fixed_field. change (fl_Type _) with u32Type. destruct known_u32 as [Hu _]. by injection Hu as <-. }
    unfold split_items. by rewrite !list.filter_cons, E. }
  cbn [req_loop items]. rewrite !split_app. cbn [fst snd]. destruct (p_Derived par) eqn:Ed.
  { assert (E : req_items_of i par = []) by (unfold req_items_of; by rewrite Ed). rewrite E. apply IH. }
  assert (E : req_items_of i par = match p_Dir par with DirOut => [] | _ => [value_field i par] end
                                   ++ (if callerSupplied par then [cap_field i par] else []))
    by (unfold req_items_of; by rewrite Ed).
  rewrite E, !split_app. cbn [fst snd].
  eapply (computes_bind _ _ _ (g.1 ++ (split_items match p_Dir par with DirOut => [] | _ => [value_field i par] end).1,
                               g.2 ++ (split_items match p_Dir par with DirOut => [] | _ => [value_field i par] end).2)).
  { destruct (p_Dir par); [by apply place_computes| |by apply place_computes]. simpl. rewrite !app_nil_r. destruct g. apply computes_ret. }
  destruct (callerSupplied par).
  - rewrite !Hcap. simpl. rewrite app_nil_r, !app_assoc. apply (IH (i + 1) (_, _)).
  - simpl. rewrite !app_nil_r, !app_assoc. apply (IH (i + 1) (_, _)).
Qed.

(** *** The fixed group *)

Definition fields_types (fls : list Field) : list xty := (X ∘ fl_Type) <$> fls.

Definition group_end (fls : list Field) : Z :=
  fold_left (fun off x => roundUp off (align_of x) + size_of x) (fields_types fls) 0.

Lemma layout_loop_computes fls off :
  Forall (fun fl => known (fl_Type fl) /\ fixed_field fl = true) fls -> 0 <= off ->
  computes D (layout_loop D fls (sat off))
    (zip_with set_Off (sat <$> member_offsets (fields_types fls) off) fls,
     sat (fold_left (fun off x => roundUp off (align_of x) + size_of x) (fields_types fls) off)).
Proof.
  intros H. revert off. induction H as [|fl fls [Hk Hfx] _ IH]; intros off Hoff; [apply computes_ret|].
  destruct (wf_sizes _ (proj2 Hk)) as [Ha Hs _ _ _]. pose proof (roundUp_bounds off _ (pow_align_pos _ Ha)).
  eapply computes_bind; [eapply computes_bind; [by apply known_info|apply computes_ret]|]. unfold info_of. simpl.
  unfold fixed_field in Hfx. rewrite Hfx, sat_roundUp, sat_add by (done || lia).
  eapply computes_bind; [apply IH; lia|]. simpl. apply computes_ret.
Qed.

Definition laid_out (fls : list Field) (l : Layout) : Prop :=
  Fixed l = zip_with set_Off (sat <$> member_offsets (fields_types (split_items fls).1) 0) (split_items fls).1 /\
  Var l = (split_items fls).2 /\
  FixedSize l = Z.min (sat (group_end (split_items fls).1)) max_int32 /\
  FixedPad l = Z.min (roundUp (sat (group_end (split_items fls).1)) 8) max_int32.

Lemma layoutOf_computes fls :
  Forall (fun fl => known (fl_Type fl)) fls ->
  exists l, computes D (layoutOf D (split_items fls).1 (split_items fls).2) l /\ laid_out fls l.
Proof.
  intros H. eexists. split.
  - eapply computes_bind; [apply (layout_loop_computes _ 0); [|lia]|apply computes_ret].
    apply list.Forall_forall. intros fl [Hf Hin]%list_elem_of_filter.
    rewrite list.Forall_forall in H. split; [by apply H|by apply Is_true_true].
  - split_and!; reflexivity.
Qed.

Lemma items_known (carried : Z -> Param -> list Field) i ps :
  (forall i par, known (p_Type par) -> Forall (fun fl => known (fl_Type fl)) (carried i par)) ->
  Forall (fun par => known (p_Type par)) ps -> Forall (fun fl => known (fl_Type fl)) (items carried i ps).
Proof. intros Hc H. revert i. induction H; intros i; simpl; [constructor|]. apply list.Forall_app. auto. Qed.

Definition func_known (f : Func) : Prop :=
  Forall (fun par => known (p_Type par)) (f_Params f) /\ (forall t, f_Ret f = Some t -> known t).

Lemma req_items_known f : func_known f -> Forall (fun fl => known (fl_Type fl)) (req_items f).
Proof.
  intros [H _]. apply items_known; [|done]. intros i par Hp. unfold req_items_of. destruct (p_Derived par); [constructor|].
  apply list.Forall_app. split; [destruct (p_Dir par)|destruct (callerSupplied par)]; repeat constructor; apply Hp || apply known_u32.
Qed.

Lemma resp_items_known f : func_known f -> Forall (fun fl => known (fl_Type fl)) (resp_items f).
Proof.
  intros [H Hr]. apply list.Forall_app. split.
  - destruct (f_Ret f) as [t|]; [|constructor]. constructor; [by apply Hr|constructor].
  - apply items_known; [|done]. intros i par Hp. unfold resp_items_of. destruct (p_Derived par); [constructor|].
    destruct (p_Dir par); repeat constructor; apply Hp.
Qed.

Lemma buildPlan_computes f : func_known f ->
  exists p, computes D (buildPlan D f) p /\ laid_out (req_items f) (Req p) /\ laid_out (resp_items f) (Resp p) /\ pl_Detail p = has_detail f.
Proof.
  intros Hf. destruct (layoutOf_computes _ (req_items_known f Hf)) as (lq & Hq & Lq).
  destruct (layoutOf_computes _ (resp_items_known f Hf)) as (lr & Hr & Lr). destruct Hf as [Hps Hret].
  exists (mkPlan lq lr (has_detail f)). split; [|done].
  eapply computes_bind; [by apply req_loop_computes|]. simpl.
  eapply (computes_bind _ _ _ (split_items match f_Ret f with Some t => [mkField (str "ret") RoleRet t (-1) (-1)] | None => [] end)).
  { destruct (f_Ret f) as [t|]; [|apply computes_ret]. pose proof (place_computes (mkField (str "ret") RoleRet t (-1) (-1)) ([], []) (Hret t eq_refl)) as Hp.
    simpl app in Hp. by destruct (split_items _). }
  eapply computes_bind; [by apply resp_loop_computes|]. simpl.
  eapply computes_bind; [exact Hq|]. eapply computes_bind; [|apply computes_ret].
  unfold resp_items in Hr. rewrite split_app in Hr. exact Hr.
Qed.

End Lowering.

(** ** Bodies *)

(** The layout of a body: the variable items in order, the fixed ones in order,
    and, for a group that passed the size check, where the fixed items are in
    the encoding of any of their values. *)
Definition places (X : Ty -> xty) (fls : list Field) (l : Layout) : Prop :=
  let fx := filter (fun fl => fixed_field X fl) fls in
  Var l = filter (fun fl => negb (fixed_field X fl)) fls /\ set_Off (-1) <$> Fixed l = set_Off (-1) <$> fx /\
  (FixedSize l <= MaxStatic ->
     FixedPad l = roundUp (FixedSize l) 8 /\
     forall vals, fields_ok (fields_types X fx) vals = true ->
       zlen (enc_fields (fields_types X fx) vals 0) = FixedSize l /\
       forall j fl v, Fixed l !! j = Some fl -> vals !! j = Some v ->
         (align_of (X (fl_Type fl)) | fl_Off fl) /\
         exists rest, drop (Z.to_nat (fl_Off fl)) (enc_fields (fields_types X fx) vals 0) = enc (X (fl_Type fl)) v (fl_Off fl) ++ rest).

Section Bodies.
Context (D : decls) (k : nat) (X : Ty -> xty).

Lemma fixed_group fls : Forall (fun fl => known D k X (fl_Type fl)) fls ->
  forallb wf_ty (fields_types X (split_items X fls).1) = true /\ forallb fixed_of (fields_types X (split_items X fls).1) = true.
Proof.
  intros H. rewrite !forallb_forall. split; intros x (fl & -> & [Hf Hin]%list_elem_of_filter)%list_elem_of_In%list_elem_of_fmap.
  - rewrite list.Forall_forall in H. apply H, Hin.
  - by apply Is_true_true.
Qed.

Lemma types_align ts : forallb wf_ty ts = true -> Forall (fun x => align_of x <= 8) ts /\ Forall sizes_ok ts.
Proof.
  rewrite forallb_forall. intros H. rewrite !list.Forall_forall.
  assert (Hs : forall x, x ∈ ts -> sizes_ok x) by (intros x Hx; apply wf_sizes, H; by apply list_elem_of_In).
  split; [|done]. intros x Hx. destruct (Hs x Hx) as [Ha _ _ _ _]. unfold pow_align in Ha. lia.
Qed.

Lemma zip_set_Off offs fls : length offs = length fls -> set_Off (-1) <$> zip_with set_Off offs fls = set_Off (-1) <$> fls.
Proof. revert fls. induction offs; intros [|fl fls] H; simplify_eq/=; [done|]. f_equal. by apply IHoffs. Qed.

Lemma length_member_offsets ms off : length (member_offsets ms off) = length ms.
Proof. revert off. induction ms; intros off; simpl; [done|]. f_equal. apply IHms. Qed.

Lemma laid_out_places fls l : Forall (fun fl => known D k X (fl_Type fl)) fls -> laid_out X fls l -> places X fls l.
Proof.
  intros Hk (EF & EV & ES & EP). destruct (fixed_group fls Hk) as [Hwf Hfx]. destruct (types_align _ Hwf) as [Hal Hok].
  unfold places. change (filter (fun fl => fixed_field X fl) fls) with (split_items X fls).1.
  set (fx := (split_items X fls).1) in *. split; [done|]. split.
  { rewrite EF. apply zip_set_Off. unfold fields_types. by rewrite length_fmap, length_member_offsets, length_fmap. }
  intros Hsz. destruct (member_offsets_le _ 0 Hok) as [H0 Hoffs]. assert (Hend : group_end X fx < satCap) by (unfold sat, satCap, MaxStatic, max_int32 in *; lia).
  assert (ES' : FixedSize l = group_end X fx) by (unfold sat, satCap, MaxStatic, max_int32 in *; lia).
  split.
  { rewrite EP, ES', sat_small by done. pose proof (roundUp_bounds (group_end X fx) 8). unfold MaxStatic, max_int32 in *. lia. }
  intros vals Hv. split.
  { rewrite ES'. etransitivity; [apply (enc_fields_fixed (fields_types X fx) vals 0 0 8)|unfold group_end; lia];
      [|done..|by right; right; right|done|by exists 0].
    apply list.Forall_forall. intros. by apply enc_fixed. }
  intros j fl v Hj Hvj. rewrite EF in Hj. apply lookup_zip_with_Some in Hj as (o & fl0 & -> & Ho & Hfl).
  apply list_lookup_fmap_Some in Ho as (o' & -> & Ho).
  destruct (enc_fields_at (fields_types X fx) vals 0 0 8 j (X (fl_Type fl0)) v) as (o2 & rest & Ho2 & Hao & Hr);
    [done..|by right; right; right|done|by exists 0|lia| |done|].
  { unfold fields_types. rewrite list_lookup_fmap. by rewrite Hfl. }
  assert (o2 = o') as -> by congruence. destruct (Forall2_lookup_r _ _ _ _ _ Hoffs Ho) as (x & Hx & Ho0 & Hox).
  assert (Hso : sat o' = o').
  { apply sat_small. destruct (Forall_lookup_1 _ _ _ _ Hok Hx). unfold group_end in Hend. lia. }
  cbn [fl_Off fl_Type set_Off]. rewrite Hso. split; [done|]. exists rest. rewrite Z.sub_0_r, !Z.add_0_l in Hr. done.
Qed.

End Bodies.

(** A type written out. *)
Definition xof (D : decls) (k : nat) (t : Ty) : xty := default XUnit (expand D k t).

(** ** The response bound *)

Definition supplied (f : Func) (fl : Field) : bool :=
  match f_Params f !! Z.to_nat (fl_Param fl) with Some p => (0 <=? fl_Param fl) && callerSupplied p | None => false end.

(** The number of bytes or elements of a buffer. *)
Definition count (v : val) : Z := match v with VText b => zlen b | VList l => zlen l | _ => 0 end.

(** What the rules and the server guarantee of a variable item of a response:
    a caller's buffer is not filled beyond its capacity and has fixed elements;
    other buffers have a bound; a composite value stays within [@max_out]. *)
Definition item_ok (X : Ty -> xty) (f : Func) (fl : Field) (v : val) (cap : Z) : Prop :=
  if supplied f fl then
    count v <= cap /\ (match fl_Type fl with
                       | Bytes _ => True
                       | Array e _ => fixed_of (X e) = true /\ size_of (X e) < satCap
                       | _ => False
                       end)
  else match fl_Type fl with
       | Str mx | Bytes mx => 0 < mx
       | Array e mx => if fixed_of (X e) then 0 < mx else forall pos, zlen (enc (X (fl_Type fl)) v pos) <= f_MaxOut f
       | _ => forall pos, zlen (enc (X (fl_Type fl)) v pos) <= f_MaxOut f
       end.

(** The body of a successful response. *)
Definition response_body (X : Ty -> xty) (f : Func) (fixed_vals var_vals : list val) : bytes :=
  let fx := filter (fun fl => fixed_field X fl) (resp_items f) in
  let vr := filter (fun fl => negb (fixed_field X fl)) (resp_items f) in
  let g2 := enc_fields (fields_types X fx) fixed_vals 0 in
  if (length vr =? 0)%nat then g2
  else let g2 := g2 ++ pad 8 (zlen g2) in g2 ++ enc_fields (fields_types X vr) var_vals (zlen g2).

(** Elements that have a size take it, after one padding. *)
Lemma array_fixed_len e mx l pos :
  wf_ty e = true -> fixed_of e = true -> has_ty (XArray e mx) (VList l) = true ->
  zlen (enc (XArray e mx) (VList l) pos) <= VarSlack + zlen l * size_of e.
Proof.
  intros Hwf Hfx Hv. simpl in Hv. apply andb_true_iff in Hv as [_ Hl]. rewrite forallb_forall in Hl.
  destruct (wf_sizes _ Hwf) as [Ha Hs Hd _ _]. pose proof (pow_align_pos _ Ha) as H1. specialize (Hd Hfx).
  cbn [enc]. rewrite !length_app, length_le_put, !Nat2Z.inj_add. change (Z.of_nat 4) with 4. rewrite length_pad by lia.
  set (q := pos + _). assert (Hq : q = roundUp pos 4 + 4) by (unfold q; lia).
  assert (Hseq : zlen (enc_seq (enc e) l q) <= 4 + zlen l * size_of e).
  { destruct l as [|v l]; [simpl; lia|]. cbn [enc_seq]. rewrite length_app, Nat2Z.inj_add.
    rewrite (enc_fixed e v q) by (done || apply Hl; by left).
    rewrite (enc_seq_fixed (enc e) l _ (size_of e) (align_of e)); [|done| |done|].
    - assert (roundUp q (align_of e) - q <= 4); [|simpl length; lia].
      assert (H4 : (4 | q)) by (rewrite Hq; apply Z.divide_add_r; [by apply roundUp_divide|by exists 1]). destruct H4 as [r ->].
      destruct Ha as [->|[->|[->| ->]]]; rewrite roundUp_eq by lia; zlia.
    - replace (q + (roundUp q (align_of e) - q + size_of e)) with (roundUp q (align_of e) + size_of e) by lia.
      apply Z.divide_add_r; [by apply roundUp_divide|done].
    - intros w p Hw Hp. rewrite (enc_fixed e w p) by (done || apply Hl; right; by apply list_elem_of_In). rewrite roundUp_id by done. lia. }
  pose proof (roundUp_bounds pos 4). unfold VarSlack. lia.
Qed.

Section Bound.
Context (D : decls) (k : nat) (f : Func).
Notation X := (xof D k).
Notation written := (known D k X).

Lemma known_elem e mx : written (Array e mx) -> written e /\ X (Array e mx) = XArray (X e) mx.
Proof.
  unfold known, xof. intros [Hx Hwf]. unfold expand in *. simpl in *. destruct (expand_ty _ e) as [y|]; [|done]. simpl in *.
  by apply andb_true_iff in Hwf as [Hwf _].
Qed.

Lemma known_Stride e : written e -> fixed_of (X e) = true -> computes D (Stride D e) (sat (size_of (X e))).
Proof.
  intros Hk Hfx. destruct (wf_sizes _ (proj2 Hk)) as [Ha _ Hd _ _]. pose proof (pow_align_pos _ Ha).
  eapply computes_bind; [eapply computes_bind; [by apply (known_info D k X)|apply computes_ret]|].
  unfold info_of. simpl. rewrite Hfx. simpl. rewrite sat_roundUp, roundUp_id by auto. apply computes_ret.
Qed.

Lemma written_Max t : written t -> 0 <= Max t.
Proof.
  intros H. destruct t; simpl; try lia; [apply proj2 in H; unfold xof in H; simpl in H; breflect; lia..|].
  destruct (known_elem _ _ H) as [_ E]. apply proj2 in H. rewrite E in H. simpl in H. breflect. lia.
Qed.

Hypothesis max_out_nonneg : 0 <= f_MaxOut f.

(** A term bounds its item. *)
Definition term_bounds (fl : Field) (bt : BoundTerm) : Prop :=
  (0 <= bt_PerCap bt /\ 0 <= bt_Const bt /\ 0 <= bt_CapMax bt /\ (bt_PerCap bt <> 0 -> bt_Const bt = VarSlack)) /\
  forall v cap pos, has_ty (X (fl_Type fl)) v = true -> item_ok X f fl v cap -> bt_Const bt < satCap ->
    zlen (enc (X (fl_Type fl)) v pos) <= term_at cap bt.

Definition term_ok (fl : Field) : Prop := exists bt, computes D (boundTerm D f fl) bt /\ term_bounds fl bt.

Ltac term_side := rewrite ?satAdd_sat; unfold VarSlack, sat in *; pose proof satCap_pos; split_and!; first [lia|done].

Lemma boundTerm_supplied fl : written (fl_Type fl) -> supplied f fl = true -> term_ok fl.
Proof.
  intros Hk Es. pose proof (written_Max _ Hk) as Hmax. unfold term_ok, term_bounds, boundTerm. fold (supplied f fl). rewrite Es.
  destruct (fl_Type fl) as [kd|mx|mx|n i|n i|n i|e len|e mx] eqn:Et;
    try solve [eexists; split; [eapply computes_bind; apply computes_ret|]; split; [simpl; term_side|];
         unfold item_ok; rewrite Es, Et; intros v cap pos _ [_ []]].
  + eexists. split; [eapply computes_bind; apply computes_ret|]. split; [simpl; term_side|].
    unfold item_ok, term_at. rewrite Es, Et. cbn [bt_Const bt_PerCap]. change (X (Bytes mx)) with (XBytes mx).
    intros v cap pos Hv [Hc _] _. destruct v; try done. cbn [enc count] in *. pose proof (prefix_bounds pos).
    rewrite !length_app, length_le_put, !Nat2Z.inj_add. unfold VarSlack. lia.
  + destruct (known_elem e mx Hk) as [Hke Hxe]. rewrite Hxe. destruct (fixed_of (X e)) eqn:Hfe.
    * eexists. split; [eapply computes_bind; [by apply known_Stride|apply computes_ret]|].
      destruct (wf_sizes _ (proj2 Hke)) as [_ Hs _ _ _]. pose proof satCap_pos. split; [simpl; term_side|].
      unfold item_ok, term_at. rewrite Es, Et. cbn [bt_Const bt_PerCap]. intros v cap pos Hv (Hc & _ & Hlt) _.
      destruct v as [| |l| |]; try done. pose proof (array_fixed_len (X e) mx l pos (proj2 Hke) Hfe Hv). cbn [count] in Hc.
      rewrite sat_small by done. nia.
    * assert (Hst : exists s, computes D (Stride D e) s /\ 0 <= s).
      { exists 0. split; [|lia]. eapply computes_bind; [eapply computes_bind; [by apply (known_info D k X)|apply computes_ret]|].
        unfold info_of. simpl. rewrite Hfe. apply computes_ret. }
      destruct Hst as (s & Hst & Hs0). eexists. split; [eapply computes_bind; [exact Hst|apply computes_ret]|]. split; [simpl; term_side|].
      unfold item_ok. rewrite Es, Et. intros v cap pos _ (_ & Hf & _). congruence.
Qed.

Lemma boundTerm_other fl : written (fl_Type fl) -> supplied f fl = false -> term_ok fl.
Proof.
  intros Hk Es. pose proof (written_Max _ Hk) as Hmax. unfold term_ok, term_bounds, boundTerm. fold (supplied f fl). rewrite Es.
  destruct (fl_Type fl) as [kd|mx|mx|n i|n i|n i|e len|e mx] eqn:Et;
    try (eexists; split; [apply computes_ret|]; split; [simpl; term_side|];
         unfold item_ok, term_at; rewrite Es, Et; cbn [bt_Const bt_PerCap]; intros v cap pos _ Hm _; specialize (Hm pos); lia).
  + pose proof (proj2 Hk : (0 <=? mx) = true). breflect. eexists. split; [apply computes_ret|]. split; [simpl; term_side|].
    unfold item_ok, term_at. rewrite Es, Et. cbn [bt_Const bt_PerCap]. change (X (Str mx)) with (XStr mx).
    intros v cap pos Hv Hmx Hlt. destruct v; try done. simpl in Hv. unfold bound_ok in Hv. breflect. cbn [enc]. pose proof (prefix_bounds pos).
    rewrite !length_app, length_le_put, !Nat2Z.inj_add. rewrite satAdd_sat in *. rewrite sat_exact by done. simpl length. unfold VarSlack. lia.
  + pose proof (proj2 Hk : (0 <=? mx) = true). breflect. eexists. split; [apply computes_ret|]. split; [simpl; term_side|].
    unfold item_ok, term_at. rewrite Es, Et. cbn [bt_Const bt_PerCap]. change (X (Bytes mx)) with (XBytes mx).
    intros v cap pos Hv Hmx Hlt. destruct v; try done. simpl in Hv. unfold bound_ok in Hv. breflect. cbn [enc]. pose proof (prefix_bounds pos).
    rewrite !length_app, length_le_put, !Nat2Z.inj_add. rewrite satAdd_sat in *. rewrite sat_exact by done. unfold VarSlack. lia.
  + destruct (known_elem e mx Hk) as [Hke Hxe]. rewrite Hxe. destruct (fixed_of (X e)) eqn:Hfe.
    * assert (Hmx0 : 0 <= mx) by (pose proof (proj2 Hk) as Hw; rewrite Hxe in Hw; simpl in Hw; breflect; lia).
      destruct (wf_sizes _ (proj2 Hke)) as [_ Hs _ _ _]. pose proof (Z.mul_nonneg_nonneg _ _ Hmx0 Hs).
      eexists. split; [eapply computes_bind; [by apply (known_isFixed D k X)|rewrite Hfe; eapply computes_bind; [by apply known_Stride|apply computes_ret]]|].
      split; [simpl; rewrite sat_mul_r by done; term_side|]. unfold item_ok, term_at. rewrite Es, Et, Hfe. cbn [bt_Const bt_PerCap]. intros v cap pos Hv Hmx Hlt.
      destruct v as [| |l| |]; try done. pose proof (array_fixed_len (X e) mx l pos (proj2 Hke) Hfe Hv).
      rewrite sat_mul_r, sat_add_r in * by (unfold VarSlack; lia).
      rewrite sat_exact by done. simpl in Hv. unfold bound_ok in Hv. breflect. nia.
    * eexists. split; [eapply computes_bind; [by apply (known_isFixed D k X)|rewrite Hfe; apply computes_ret]|].
      split; [simpl; term_side|]. unfold item_ok, term_at. rewrite Es, Et, Hfe. cbn [bt_Const bt_PerCap]. intros v cap pos _ Hm _.
      specialize (Hm pos). rewrite Hxe in Hm. lia.
Qed.

Lemma boundTerm_ok fl : written (fl_Type fl) -> term_ok fl.
Proof. intros Hk. destruct (supplied f fl) eqn:Es; [by apply boundTerm_supplied|by apply boundTerm_other]. Qed.


Lemma bound_loop_computes fls : Forall (fun fl => written (fl_Type fl)) fls ->
  exists bts, computes D (bound_loop D f fls) bts /\ Forall2 term_bounds fls bts.
Proof.
  induction 1 as [|fl fls Hk _ (bts & IH & Hb)]; [exists []; split; [apply computes_ret|constructor]|].
  destruct (boundTerm_ok fl Hk) as (bt & Hc & Hbt). exists (bt :: bts). split; [|by constructor].
  eapply computes_bind; [exact Hc|]. eapply computes_bind; [exact IH|apply computes_ret].
Qed.

Definition sum_terms (caps : list Z) (bts : list BoundTerm) : Z := foldr Z.add 0 (zip_with term_at caps bts).

(** What a term adds to the static bound. *)
Definition share (bt : BoundTerm) : Z :=
  if negb (bt_PerCap bt =? 0) then if bt_CapMax bt =? 0 then 0 else bt_Const bt + bt_PerCap bt * bt_CapMax bt else bt_Const bt.

Lemma var_group_bound fls bts vals caps pos :
  Forall2 term_bounds fls bts -> fields_ok (fields_types X fls) vals = true -> Forall3 (item_ok X f) fls vals caps ->
  Forall (fun bt => bt_Const bt < satCap) bts ->
  zlen (enc_fields (fields_types X fls) vals pos) <= sum_terms caps bts.
Proof.
  intros H. revert vals caps pos. induction H as [|fl bt fls bts [_ Hb] _ IH]; intros vals caps pos Hv Hi Hc.
  { inversion Hi; subst. done. }
  inversion Hi as [|? v cap ? vs cs Hit Hi' ]; subst. inversion Hc as [|? ? Hcb Hc' ]; subst.
  simpl in Hv. apply andb_true_iff in Hv as [Hv Hvs]. cbn [fields_types fmap list_fmap enc_fields]. rewrite length_app, Nat2Z.inj_add.
  unfold sum_terms. simpl. specialize (Hb v cap pos Hv Hit Hcb). unfold compose in *.
  specialize (IH vs cs (pos + zlen (enc (X (fl_Type fl)) v pos)) Hvs Hi' Hc'). unfold sum_terms, fields_types, compose in IH. lia.
Qed.

Lemma share_nonneg fl bt : term_bounds fl bt -> 0 <= share bt.
Proof. intros [(Hp & Hc & Hm & _) _]. unfold share. repeat case_match; nia. Qed.

Lemma add_term_share fl bt g : term_bounds fl bt -> 0 <= g -> add_term (sat g) bt = sat (g + share bt).
Proof.
  intros [(Hp & Hc & Hm & _) _] Hg. unfold add_term, share. pose proof satCap_pos.
  destruct (Z.eqb_spec (bt_PerCap bt) 0); simpl; [rewrite satAdd_sat; unfold sat; lia|].
  destruct (Z.eqb_spec (bt_CapMax bt) 0); [by rewrite Z.add_0_r|].
  pose proof (Z.mul_nonneg_nonneg _ _ Hp Hm). rewrite satMul_sat by done. rewrite (sat_add_r (bt_Const bt)) by done.
  by rewrite sat_add by lia.
Qed.

Lemma static_sum fls bts g : Forall2 term_bounds fls bts -> 0 <= g ->
  fold_left add_term bts (sat g) = sat (g + foldr Z.add 0 (share <$> bts)).
Proof.
  intros H. revert g. induction H as [|fl bt fls bts Hb _ IH]; intros g Hg; csimpl; [by rewrite Z.add_0_r|].
  pose proof (share_nonneg fl bt Hb). rewrite (add_term_share fl) by done. rewrite IH by lia. f_equal. lia.
Qed.

Lemma shares_bound fls bts n : Forall2 term_bounds fls bts ->
  foldr Z.add 0 (share <$> bts) <= n -> n < satCap -> Forall (fun bt => bt_Const bt < satCap) bts.
Proof.
  intros H. revert n. induction H as [|fl bt fls bts Hb Hrest IH]; intros n Hn Hlt; csimpl in *; [constructor|].
  pose proof (share_nonneg fl bt Hb).
  assert (0 <= foldr Z.add 0 (share <$> bts)).
  { clear -Hrest. induction Hrest as [|fl bt fls bts Hb _ IH]; csimpl; [lia|]. pose proof (share_nonneg fl bt Hb). lia. }
  constructor; [|apply (IH n); lia]. destruct Hb as [(_ & _ & _ & Hs) _]. unfold share in *.
  destruct (Z.eqb_spec (bt_PerCap bt) 0); simpl in *; [lia|]. rewrite Hs by done. unfold VarSlack, satCap. lia.
Qed.

Lemma terms_within_shares fls bts caps :
  Forall2 term_bounds fls bts ->
  Forall2 (fun bt cap => bt_PerCap bt <> 0 -> cap <= bt_CapMax bt /\ bt_CapMax bt <> 0) bts caps ->
  sum_terms caps bts <= foldr Z.add 0 (share <$> bts).
Proof.
  intros H. revert caps. induction H as [|fl bt fls bts [(Hp & _) _] _ IH]; intros caps Hc.
  { by inversion Hc. }
  inversion Hc as [|? cap ? caps' Hcap Hc' ]; subst. specialize (IH _ Hc'). unfold sum_terms in *. csimpl.
  assert (term_at cap bt <= share bt); [|lia]. unfold term_at, share.
  destruct (Z.eqb_spec (bt_PerCap bt) 0) as [E|E]; simpl; [rewrite E; lia|]. destruct (Hcap E).
  destruct (Z.eqb_spec (bt_CapMax bt) 0); [done|]. nia.
Qed.

End Bound.

(** The terms computed for a function bound its successful responses: the body
    of a response whose buffers respect their capacities is at most [G2Pad] and
    the terms at these capacities; and if every capacity is within the bound of
    its buffer, it is at most [StaticBound]. The bounds are those of a function
    that passed the size checks, so nothing is saturated. *)
Lemma response_bounded D k f :
  known D k (xof D k) u32Type -> func_known D k (xof D k) f -> 0 <= f_MaxOut f ->
  exists p bts b,
    computes D (buildPlan D f) p /\ computes D (BoundTerms D p f) bts /\ computes D (StaticBound D (Some p) f) (Some b) /\
    (b <= MaxStatic -> FixedSize (Resp p) <= MaxStatic ->
     forall fixed_vals var_vals caps,
       fields_ok (fields_types (xof D k) (filter (fun fl => fixed_field (xof D k) fl) (resp_items f))) fixed_vals = true ->
       fields_ok (fields_types (xof D k) (Var (Resp p))) var_vals = true ->
       Forall3 (item_ok (xof D k) f) (Var (Resp p)) var_vals caps ->
       zlen (response_body (xof D k) f fixed_vals var_vals) <= G2Pad p + sum_terms caps bts /\
       (Forall2 (fun bt cap => bt_PerCap bt <> 0 -> cap <= bt_CapMax bt /\ bt_CapMax bt <> 0) bts caps ->
        zlen (response_body (xof D k) f fixed_vals var_vals) <= b)).
Proof.
  intros Hu Hf Hmo. destruct (buildPlan_computes D k _ Hu f Hf) as (p & Hp & _ & Hr & _).
  pose proof (resp_items_known D k _ f Hf) as Hk. pose proof (laid_out_places D k _ _ _ Hk Hr) as (EV & _ & Hpl).
  assert (Hkv : Forall (fun fl => known D k (xof D k) (fl_Type fl)) (Var (Resp p))).
  { rewrite EV. apply list.Forall_forall. intros fl [_ Hin]%list_elem_of_filter. rewrite list.Forall_forall in Hk. by apply Hk. }
  destruct (bound_loop_computes D k f Hmo _ Hkv) as (bts & Hbts & Htb). do 3 eexists. split; [exact Hp|]. split; [exact Hbts|].
  split; [eapply computes_bind; [exact Hbts|apply computes_ret]|]. intros Hb Hsz fvals vvals caps Hfv Hvv Hit.
  destruct (Hpl Hsz) as (EP & Hg). destruct (Hg fvals Hfv) as [Hlen _]. clear Hg.
  assert (HG0 : 0 <= FixedSize (Resp p)) by lia. pose proof (roundUp_bounds (FixedSize (Resp p)) 8) as Hru.
  assert (HG : FixedSize (Resp p) <= G2Pad p <= FixedSize (Resp p) + 7).
  { unfold G2Pad. destruct (negb _ || _); [rewrite EP; lia|lia]. }
  set (sum := fold_left add_term bts (G2Pad p)) in *.
  assert (Hsum : sum <= MaxStatic) by (destruct (pl_Detail p); lia).
  assert (Hsum' : sum = G2Pad p + foldr Z.add 0 (share <$> bts)).
  { unfold sum in *. rewrite <- (sat_small (G2Pad p)) in Hsum |- * by (unfold satCap, MaxStatic in *; lia).
    rewrite (static_sum D k f _ bts (G2Pad p) Htb) in Hsum |- * by lia. rewrite (sat_small (G2Pad p)) by (unfold satCap, MaxStatic in *; lia).
    apply sat_exact. unfold satCap, MaxStatic in *. lia. }
  assert (Hc : Forall (fun bt => bt_Const bt < satCap) bts).
  { eapply (shares_bound D k f _ bts MaxStatic Htb); [lia|unfold satCap, MaxStatic; lia]. }
  assert (Hbody : zlen (response_body (xof D k) f fvals vvals) <= G2Pad p + sum_terms caps bts).
  { unfold response_body. rewrite <- EV. cbv zeta. destruct (Nat.eqb_spec (length (Var (Resp p))) 0) as [E|E].
    - rewrite Hlen. apply nil_length_inv in E. rewrite E in Htb, Hit. inversion Htb; subst. inversion Hit; subst. unfold sum_terms. simpl. lia.
    - rewrite !length_app, !Nat2Z.inj_add, length_pad, Hlen by lia.
      assert (EG : G2Pad p = roundUp (FixedSize (Resp p)) 8).
      { unfold G2Pad. destruct (Nat.eqb_spec (length (Var (Resp p))) 0); [done|]. simpl. done. }
      pose proof (var_group_bound D k f _ bts vvals caps (FixedSize (Resp p) + (roundUp (FixedSize (Resp p)) 8 - FixedSize (Resp p))) Htb Hvv Hit Hc). lia. }
  split; [done|]. intros Hcaps. pose proof (terms_within_shares D k f _ bts caps Htb Hcaps). destruct (pl_Detail p); lia.
Qed.
