(* ===== verification/IdlLex.v ===== *)
(** * IdlLex: the lexer of the interface language

    Models lex.go of bindgen/idl over the bytes of a source file. The lexer is
    the bytes not consumed yet and the position; [pos_after] says what the
    position is after some bytes, and the theorems relate the tokens to the
    bytes they were read from. *)
From S2P Require Import Prelude IdlTypes IdlModel.

(** ** Tokens and errors *)

Inductive tokKind := tEOF | tIdent | tKw | tInt | tStr | tPunct | tAnn.

#[export] Instance tokKind_eq_dec : EqDecision tokKind.
Proof. solve_decision. Defined.

(** [val] is the value of an integer literal, 0 for the others. *)
Record token := mkToken { t_kind : tokKind; t_text : bytes; t_val : Z; t_pos : Pos }.

#[export] Instance token_eq_dec : EqDecision token.
Proof. solve_decision. Defined.

(** What a syntax error says; the texts are left out. *)
Inductive syntaxMsg :=
| OutOfFuel                        (* of the model; never returned *)
| ByteOrderMark | UnterminatedComment | InvalidUTF8 | AnnotationName | NonASCII | UnexpectedChar (c : Z)
| IdentTooLong | HexNoDigits | MalformedInt | IntRange | UnterminatedString | BadEscape | BadStringChar | StringTooLong
| Expected (what : bytes) | NestedTooDeep | UnterminatedDecl (name : bytes) | StrayAnnotations | ExpectedDeclaration.

Record syntaxError := mkSyntax { se_pos : Pos; se_msg : syntaxMsg }.

Definition maxIdentLen : Z := 128.
Definition maxStringLen : Z := 256.

Definition keywords : list bytes :=
  [str "idl"; str "service"; str "include"; str "const"; str "handle"; str "struct"; str "union"; str "case"; str "fn"; str "shim";
   str "in"; str "out"; str "inout"; str "destroy"; str "owned_by"; str "ret"; str "bool"; str "i8"; str "i16"; str "i32"; str "i64";
   str "u8"; str "u16"; str "u32"; str "u64"; str "f32"; str "f64"; str "size"; str "str"; str "bytes"].

Definition minInt : Z := - 2 ^ 63.
Definition maxInt : Z := 2 ^ 64 - 1.

(** ** Bytes *)

Definition between (lo hi c : Z) : bool := (lo <=? c) && (c <=? hi).

Definition isIdentStart (c : Z) : bool := (c =? 95) || between 97 122 c || between 65 90 c.
Definition isDigit (c : Z) : bool := between 48 57 c.
Definition isIdentPart (c : Z) : bool := isIdentStart c || isDigit c.
Definition isHexDigit (c : Z) : bool := isDigit c || between 97 102 c || between 65 70 c.

(** ** The lexer *)

Record lexer := mkLexer { lx_rest : bytes; lx_pos : Pos }.

Definition peekAt (n : nat) (lx : lexer) : Z := nth n (lx_rest lx) 0.

Definition advance (n : nat) (lx : lexer) : lexer :=
  mkLexer (drop n (lx_rest lx)) (mkPos (Line (lx_pos lx)) (Col (lx_pos lx) + Z.of_nat n)).

Definition newline (lx : lexer) : lexer := mkLexer (drop 1 (lx_rest lx)) (mkPos (Line (lx_pos lx) + 1) 1).

(** [utf8.DecodeRune]: the length of the sequence in front, [None] for an
    invalid one. *)
Definition cont (c : Z) : bool := between 0x80 0xBF c.

Definition decodeRune (b : bytes) : option nat :=
  match b with
  | [] => None
  | c0 :: b =>
      if c0 <? 0x80 then Some 1%nat
      else if between 0xC2 0xDF c0 then match b with c1 :: _ => if cont c1 then Some 2%nat else None | _ => None end
      else if between 0xE0 0xEF c0 then
        match b with
        | c1 :: c2 :: _ =>
            let ok := if c0 =? 0xE0 then between 0xA0 0xBF c1 else if c0 =? 0xED then between 0x80 0x9F c1 else cont c1 in
            if ok && cont c2 then Some 3%nat else None
        | _ => None
        end
      else if between 0xF0 0xF4 c0 then
        match b with
        | c1 :: c2 :: c3 :: _ =>
            let ok := if c0 =? 0xF0 then between 0x90 0xBF c1 else if c0 =? 0xF4 then between 0x80 0x8F c1 else cont c1 in
            if ok && cont c2 && cont c3 then Some 4%nat else None
        | _ => None
        end
      else None
  end.

Definition skipRune (lx : lexer) : result syntaxError lexer :=
  match decodeRune (lx_rest lx) with
  | Some n => Ok (advance n lx)
  | None => Err (mkSyntax (lx_pos lx) InvalidUTF8)
  end.

(** The rest of a line comment. *)
Fixpoint skip_line (fuel : nat) (lx : lexer) : result syntaxError lexer :=
  match fuel with
  | O => Err (mkSyntax (lx_pos lx) OutOfFuel)
  | S fuel =>
      match lx_rest lx with
      | [] => Ok lx
      | c :: _ => if c =? 10 then Ok lx else let! lx := skipRune lx in skip_line fuel lx
      end
  end.

(** The rest of a block comment, and whether it was closed. *)
Fixpoint skip_block (fuel : nat) (lx : lexer) : result syntaxError (lexer * bool) :=
  match fuel with
  | O => Err (mkSyntax (lx_pos lx) OutOfFuel)
  | S fuel =>
      match lx_rest lx with
      | [] => Ok (lx, false)
      | c :: _ =>
          if (c =? 42) && (peekAt 1 lx =? 47) then Ok (advance 2 lx, true)
          else if c =? 10 then skip_block fuel (newline lx)
          else let! lx := skipRune lx in skip_block fuel lx
      end
  end.

Fixpoint skipSpace (fuel : nat) (lx : lexer) : result syntaxError lexer :=
  match fuel with
  | O => Err (mkSyntax (lx_pos lx) OutOfFuel)
  | S fuel =>
      match lx_rest lx with
      | [] => Ok lx
      | c :: _ =>
          if c =? 10 then skipSpace fuel (newline lx)
          else if (c =? 32) || (c =? 9) || (c =? 13) then skipSpace fuel (advance 1 lx)
          else if (c =? 47) && (peekAt 1 lx =? 47) then let! lx := skip_line (S (length (lx_rest lx))) lx in skipSpace fuel lx
          else if (c =? 47) && (peekAt 1 lx =? 42) then
            let! r := skip_block (S (length (lx_rest lx))) (advance 2 lx) in
            if (r.2 : bool) then skipSpace fuel r.1 else Err (mkSyntax (lx_pos lx) UnterminatedComment)
          else Ok lx
      end
  end.

(** The longest prefix of bytes that satisfy [p]. *)
Fixpoint span (p : Z -> bool) (l : bytes) : bytes :=
  match l with [] => [] | c :: l => if p c then c :: span p l else [] end.

Definition ident (pos : Pos) (lx : lexer) : result syntaxError (token * lexer) :=
  let text := span isIdentPart (lx_rest lx) in
  let lx := advance (length text) lx in
  if maxIdentLen <? Z.of_nat (length text) then Err (mkSyntax pos IdentTooLong)
  else Ok (mkToken (if decide (text ∈ keywords) then tKw else tIdent) text 0 pos, lx).

Definition digit (c : Z) : Z := if isDigit c then c - 48 else if between 97 102 c then c - 87 else c - 55.

(** [SetString] on digits of the base. *)
Definition digits_value (base : Z) (ds : bytes) : Z := fold_left (fun v c => v * base + digit c) ds 0.

Definition base_digit (hex : bool) : Z -> bool := if hex then isHexDigit else isDigit.

(** [number] after the sign and the base. *)
Definition number_rest (pos : Pos) (start : bytes) (neg hex : bool) (lx : lexer) : result syntaxError (token * lexer) :=
  let ds := span (base_digit hex) (lx_rest lx) in
  let lx := advance (length ds) lx in
  if hex && (length ds =? 0)%nat then Err (mkSyntax pos HexNoDigits)
  else if match lx_rest lx with c :: _ => isIdentPart c | [] => false end then Err (mkSyntax pos MalformedInt)
  else if (length ds =? 0)%nat then Err (mkSyntax pos MalformedInt)
  else
    let v := digits_value (if hex then 16 else 10) ds in
    let v := if neg then - v else v in
    if (v <? minInt) || (maxInt <? v) then Err (mkSyntax pos IntRange)
    else Ok (mkToken tInt (take (length start - length (lx_rest lx)) start) v pos, lx).

Definition number (pos : Pos) (lx : lexer) : result syntaxError (token * lexer) :=
  let start := lx_rest lx in
  let neg := peekAt 0 lx =? 45 in
  let lx := if neg then advance 1 lx else lx in
  let hex := (peekAt 0 lx =? 48) && (peekAt 1 lx =? 120) in
  let lx := if hex then advance 2 lx else lx in
  number_rest pos start neg hex lx.

(** The loop of [str], after the opening quote. *)
Fixpoint str_loop (fuel : nat) (pos : Pos) (out : bytes) (lx : lexer) : result syntaxError (token * lexer) :=
  match fuel with
  | O => Err (mkSyntax (lx_pos lx) OutOfFuel)
  | S fuel =>
      match lx_rest lx with
      | [] => Err (mkSyntax pos UnterminatedString)
      | c :: _ =>
          if c =? 34 then Ok (mkToken tStr out 0 pos, advance 1 lx)
          else
            let step (out : bytes) (lx : lexer) :=
              if maxStringLen <? Z.of_nat (length out) then Err (mkSyntax pos StringTooLong) else str_loop fuel pos out lx in
            if c =? 92 then
              let e := peekAt 1 lx in
              if negb (e =? 92) && negb (e =? 34) then Err (mkSyntax (lx_pos lx) BadEscape)
              else step (out ++ [e]) (advance 2 lx)
            else if (c <? 0x20) || (0x7E <? c) then Err (mkSyntax (lx_pos lx) BadStringChar)
            else step (out ++ [c]) (advance 1 lx)
      end
  end.

(** [str] of lex.go. *)
Definition str_lit (pos : Pos) (lx : lexer) : result syntaxError (token * lexer) :=
  let lx := advance 1 lx in str_loop (S (length (lx_rest lx))) pos [] lx.

Definition punct1 : bytes := str "{}()[]<>,;:=".

(** [next], after the white space. *)
Definition scan (lx : lexer) : result syntaxError (token * lexer) :=
  let pos := lx_pos lx in
  match lx_rest lx with
  | [] => Ok (mkToken tEOF [] 0 pos, lx)
  | c :: _ =>
      if isIdentStart c then ident pos lx
      else if isDigit c then number pos lx
      else if (c =? 45) && isDigit (peekAt 1 lx) then number pos lx
      else if c =? 34 then str_lit pos lx
      else if c =? 64 then
        if negb (isIdentStart (peekAt 1 lx)) then Err (mkSyntax pos AnnotationName)
        else let lx := advance 1 lx in
             let! r := ident (lx_pos lx) lx in
             Ok (mkToken tAnn (t_text r.1) 0 pos, r.2)
      else
        let two := if (2 <=? length (lx_rest lx))%nat then take 2 (lx_rest lx) else [] in
        if decide (two = str "<=" \/ two = str "->") then Ok (mkToken tPunct two 0 pos, advance 2 lx)
        else if decide (c ∈ punct1) then Ok (mkToken tPunct [c] 0 pos, advance 1 lx)
        else if 0x80 <=? c then Err (mkSyntax pos NonASCII)
        else Err (mkSyntax pos (UnexpectedChar c))
  end.

Definition next (lx : lexer) : result syntaxError (token * lexer) :=
  let! lx := skipSpace (S (length (lx_rest lx))) lx in scan lx.

Fixpoint lex_loop (fuel : nat) (lx : lexer) (toks : list token) : result syntaxError (list token) :=
  match fuel with
  | O => Err (mkSyntax (lx_pos lx) OutOfFuel)
  | S fuel =>
      let! r := next lx in
      let toks := toks ++ [r.1] in
      match t_kind r.1 with tEOF => Ok toks | _ => lex_loop fuel r.2 toks end
  end.

Definition lex (src : bytes) : result syntaxError (list token) :=
  if bool_decide (take 3 src = [0xEF; 0xBB; 0xBF]) then Err (mkSyntax (mkPos 1 1) ByteOrderMark)
  else lex_loop (S (length src)) (mkLexer src (mkPos 1 1)) [].

Example lex_sample :
  lex (str "fn f(a: u8[0x10]<=-3) -> i32; // x") =
    Ok [mkToken tKw (str "fn") 0 (mkPos 1 1); mkToken tIdent (str "f") 0 (mkPos 1 4); mkToken tPunct (str "(") 0 (mkPos 1 5);
        mkToken tIdent (str "a") 0 (mkPos 1 6); mkToken tPunct (str ":") 0 (mkPos 1 7); mkToken tKw (str "u8") 0 (mkPos 1 9);
        mkToken tPunct (str "[") 0 (mkPos 1 11); mkToken tInt (str "0x10") 16 (mkPos 1 12); mkToken tPunct (str "]") 0 (mkPos 1 16);
        mkToken tPunct (str "<=") 0 (mkPos 1 17); mkToken tInt (str "-3") (-3) (mkPos 1 19); mkToken tPunct (str ")") 0 (mkPos 1 21);
        mkToken tPunct (str "->") 0 (mkPos 1 23); mkToken tKw (str "i32") 0 (mkPos 1 26); mkToken tPunct (str ";") 0 (mkPos 1 29);
        mkToken tEOF [] 0 (mkPos 1 35)].
Proof. vm_compute. reflexivity. Qed.

(** ** What the tokens of a text are *)

Definition pos_step (p : Pos) (c : Z) : Pos := if c =? 10 then mkPos (Line p + 1) 1 else mkPos (Line p) (Col p + 1).

(** The position after some bytes: lines from 1, columns in bytes from 1. *)
Definition pos_after (p : Pos) (b : bytes) : Pos := fold_left pos_step b p.

(** One UTF-8 sequence; sequences without a newline; the body of a block
    comment, up to the first end of comment. *)
Definition rune (x : bytes) : Prop := decodeRune x = Some (length x).

Inductive line_text : bytes -> Prop :=
| lt_nil : line_text []
| lt_rune x l : rune x -> x <> [10] -> line_text l -> line_text (x ++ l).

Inductive block_text : bytes -> Prop :=
| bt_nil : block_text []
| bt_rune x l : rune x -> ~ (x = [42] /\ head l = Some 47) -> block_text l -> block_text (x ++ l).

(** White space and comments; at the end of the text a line comment need not
    end with a newline. *)
Inductive blank : bytes -> Prop :=
| bl_nil : blank []
| bl_space c b : c ∈ [10; 32; 9; 13] -> blank b -> blank (c :: b)
| bl_line l b : line_text l -> blank b -> blank (47 :: 47 :: l ++ 10 :: b)
| bl_block l b : block_text l -> blank b -> blank (47 :: 42 :: l ++ 42 :: 47 :: b).

Definition blank_end (b : bytes) : Prop := blank b \/ exists b1 l, b = b1 ++ 47 :: 47 :: l /\ blank b1 /\ line_text l.

(** The content of a string literal and the text it stands for. *)
Inductive str_body : bytes -> bytes -> Prop :=
| sb_nil : str_body [] []
| sb_char c b out : 0x20 <= c <= 0x7E -> c <> 34 -> c <> 92 -> str_body b out -> str_body (c :: b) (c :: out)
| sb_escape e b out : e = 92 \/ e = 34 -> str_body b out -> str_body (92 :: e :: b) (e :: out).

Definition ident_text (x : bytes) : Prop :=
  match x with c :: cs => isIdentStart c = true /\ Forall (fun c => isIdentPart c = true) cs | [] => False end /\
  Z.of_nat (length x) <= maxIdentLen.

Definition int_text (x : bytes) (v : Z) : Prop :=
  exists (neg hex : bool) ds,
    x = (if neg then [45] else []) ++ (if hex then [48; 120] else []) ++ ds /\ ds <> [] /\
    Forall (fun c => base_digit hex c = true) ds /\
    v = (let n := digits_value (if hex then 16 else 10) ds in if neg then - n else n) /\ minInt <= v <= maxInt.

(** [x] spells the token [t], apart from its position. *)
Inductive spells : token -> bytes -> Prop :=
| sp_ident x p : ident_text x -> spells (mkToken (if decide (x ∈ keywords) then tKw else tIdent) x 0 p) x
| sp_ann x p : ident_text x -> spells (mkToken tAnn x 0 p) (64 :: x)
| sp_int x v p : int_text x v -> spells (mkToken tInt x v p) x
| sp_str b out p : str_body b out -> Z.of_nat (length out) <= maxStringLen -> spells (mkToken tStr out 0 p) (34 :: b ++ [34])
| sp_punct2 x p : x = str "<=" \/ x = str "->" -> spells (mkToken tPunct x 0 p) x
| sp_punct1 c p : c ∈ punct1 -> spells (mkToken tPunct [c] 0 p) [c].

(** A word is not followed by more of it, [<] not by [=]. *)
Definition ends_before (t : token) (rest : bytes) : Prop :=
  match head rest with
  | None => True
  | Some c =>
      match t_kind t with
      | tIdent | tKw | tAnn | tInt => isIdentPart c = false
      | tPunct => t_text t = str "<" -> c <> 61
      | _ => True
      end
  end.

(** The tokens of a text that starts at [p]. *)
Inductive tokens : Pos -> bytes -> list token -> Prop :=
| tk_end p b : blank_end b -> tokens p b [mkToken tEOF [] 0 (pos_after p b)]
| tk_cons p b x rest t ts :
    blank b -> spells t x -> t_pos t = pos_after p b -> ends_before t rest ->
    tokens (pos_after p (b ++ x)) rest ts -> tokens p (b ++ x ++ rest) (t :: ts).

(** *** Positions *)

Lemma pos_after_app p a b : pos_after p (a ++ b) = pos_after (pos_after p a) b.
Proof. apply fold_left_app. Qed.

Lemma pos_after_plain p b : 10 ∉ b -> pos_after p b = mkPos (Line p) (Col p + Z.of_nat (length b)).
Proof.
  revert p. induction b as [|c b IH]; intros p H; [destruct p; simpl; f_equal; lia|].
  apply not_elem_of_cons in H as [Hc H]. simpl. rewrite IH by done. unfold pos_step.
  destruct (Z.eqb_spec c 10); [congruence|]. simpl. f_equal. lia.
Qed.

Lemma advance_app n x rest p : n = length x -> 10 ∉ x -> advance n (mkLexer (x ++ rest) p) = mkLexer rest (pos_after p x).
Proof. intros -> H. unfold advance. simpl. by rewrite drop_app_length, pos_after_plain. Qed.

Lemma newline_app rest p : newline (mkLexer (10 :: rest) p) = mkLexer rest (pos_after p [10]).
Proof. reflexivity. Qed.

(** *** UTF-8 *)

Lemma decodeRune_spec b n : decodeRune b = Some n ->
  (1 <= n <= length b)%nat /\ (forall rest, decodeRune (take n b ++ rest) = Some n) /\
  (forall c, c ∈ take n b -> c = hd 0 b \/ 0x80 <= c) /\ ((1 < n)%nat -> 0x80 <= hd 0 b).
Proof.
  unfold decodeRune, cont, between. intros H.
  repeat (case_match; simplify_eq); breflect; simpl; split_and!; try lia; intros;
    repeat match goal with
           | H : _ ∈ _ :: _ |- _ => apply elem_of_cons in H as [->|H]
           | H : _ ∈ [] |- _ => by apply elem_of_nil in H
           | H : _ ∈ take 0 _ |- _ => rewrite take_0 in H
           end; auto; try (right; lia); try (repeat case_match; breflect; try lia; try done).
Qed.

Lemma rune_take b n : decodeRune b = Some n -> rune (take n b) /\ b = take n b ++ drop n b /\ (1 <= length (take n b))%nat.
Proof.
  intros H. destruct (decodeRune_spec b n H) as (Hn & Hp & _). split_and!.
  - unfold rune. specialize (Hp []). rewrite app_nil_r in Hp. rewrite Hp, length_take. f_equal. lia.
  - by rewrite take_drop.
  - rewrite length_take. lia.
Qed.

Lemma rune_app x rest : rune x -> decodeRune (x ++ rest) = Some (length x).
Proof.
  intros H. destruct (decodeRune_spec x _ H) as (_ & Hp & _). specialize (Hp rest). by rewrite take_ge in Hp.
Qed.

Lemma rune_nonempty x : rune x -> exists c x', x = c :: x'.
Proof. intros H. destruct x; [done|eauto]. Qed.

(** A newline, and every other ASCII byte, is a sequence of its own. *)
Lemma rune_ascii x c : rune x -> c ∈ x -> c < 0x80 -> x = [c].
Proof.
  intros H Hc Hlt. destruct (decodeRune_spec x _ H) as (_ & _ & Hb & Hh). rewrite take_ge in Hb by done.
  destruct x as [|c0 [|c1 x]]; [by apply elem_of_nil in Hc| |].
  - apply elem_of_cons in Hc as [->|Hc]; [done|by apply elem_of_nil in Hc].
  - specialize (Hh ltac:(simpl; lia)). simpl in Hh. destruct (Hb c Hc) as [->|]; simpl in *; lia.
Qed.

Lemma rune_plain x : rune x -> x <> [10] -> 10 ∉ x.
Proof. intros H Hn Hin. apply Hn. by apply rune_ascii. Qed.

Lemma skipRune_app x rest p : rune x -> x <> [10] -> skipRune (mkLexer (x ++ rest) p) = Ok (mkLexer rest (pos_after p x)).
Proof.
  intros H Hn. unfold skipRune. simpl. rewrite rune_app by done. f_equal. apply advance_app; [done|]. by apply rune_plain.
Qed.

Lemma skipRune_inv lx lx' : skipRune lx = Ok lx' -> head (lx_rest lx) <> Some 10 ->
  exists x, lx_rest lx = x ++ lx_rest lx' /\ lx_pos lx' = pos_after (lx_pos lx) x /\ rune x /\ x <> [10] /\ (1 <= length x)%nat.
Proof.
  destruct lx as [b p]. unfold skipRune. simpl. intros H Hh. destruct (decodeRune b) as [n|] eqn:E; [|done]. simplify_eq.
  destruct (rune_take b n E) as (Hr & Eb & Hl). set (x := take n b) in *.
  assert (Hx : x <> [10]).
  { intros Ex. rewrite Ex in Eb. rewrite Eb in Hh. done. }
  exists x. assert (Hlen : n = length x).
  { unfold x. rewrite length_take. destruct (decodeRune_spec b n E) as [? _]. lia. }
  pose proof (advance_app n x (drop n b) p Hlen (rune_plain x Hr Hx)) as Ha. rewrite <- Eb in Ha. rewrite Ha. done.
Qed.

(** *** White space and comments *)

Lemma skip_line_ok fuel lx : (length (lx_rest lx) < fuel)%nat ->
  match skip_line fuel lx with
  | Ok lx' => exists l, lx_rest lx = l ++ lx_rest lx' /\ lx_pos lx' = pos_after (lx_pos lx) l /\ line_text l /\
                (lx_rest lx' = [] \/ head (lx_rest lx') = Some 10)
  | Err e => se_msg e <> OutOfFuel
  end.
Proof.
  revert lx. induction fuel as [|fuel IH]; intros lx Hf; [lia|]. simpl. destruct (lx_rest lx) as [|c r] eqn:Er.
  { exists []. rewrite Er. split_and!; auto using lt_nil. }
  destruct (Z.eqb_spec c 10) as [->|Hc].
  { exists []. rewrite Er. split_and!; auto using lt_nil. }
  destruct (skipRune lx) as [lx1|e] eqn:Es.
  2:{ simpl. unfold skipRune in Es. destruct (decodeRune _); simplify_eq. done. }
  simpl. destruct (skipRune_inv lx lx1 Es) as (x & Ex & Ep & Hr & Hx & Hl); [rewrite Er; simpl; congruence|].
  specialize (IH lx1). rewrite <- Er, Ex, length_app in Hf. specialize (IH ltac:(lia)).
  destruct (skip_line fuel lx1) as [lx2|e]; [|done]. destruct IH as (l & El & Ep2 & Hl2 & Hend).
  exists (x ++ l). rewrite <- app_assoc, <- El, pos_after_app, <- Ep, <- Er. split_and!; [done..|by constructor|done].
Qed.

Lemma skip_line_app fuel l rest p : line_text l -> (length (l ++ rest) < fuel)%nat -> (rest = [] \/ head rest = Some 10) ->
  skip_line fuel (mkLexer (l ++ rest) p) = Ok (mkLexer rest (pos_after p l)).
Proof.
  intros H. revert fuel p. induction H as [|x l Hr Hx _ IH]; intros fuel p Hf Hend.
  - destruct fuel as [|fuel]; [simpl in Hf; lia|]. simpl. destruct Hend as [->|Hend]; [done|].
    destruct rest as [|c rest]; [done|]. by injection Hend as ->.
  - destruct fuel as [|fuel]; [lia|]. cbn [skip_line]. destruct (rune_nonempty x Hr) as (c & x' & Ex). rewrite <- app_assoc.
    replace (lx_rest _) with (c :: x' ++ l ++ rest) by (simpl; by rewrite Ex).
    destruct (Z.eqb_spec c 10) as [->|Hc].
    { exfalso. apply Hx. apply (rune_ascii x 10); [done|rewrite Ex; left|lia]. }
    rewrite skipRune_app by done. cbn [rbind]. rewrite IH; [by rewrite pos_after_app| |done].
    rewrite <- app_assoc, length_app, Ex in Hf. simpl in Hf. lia.
Qed.

(** Two ASCII bytes. *)
Lemma advance_two c d r p : c <> 10 -> d <> 10 -> advance 2 (mkLexer (c :: d :: r) p) = mkLexer r (pos_after p [c; d]).
Proof.
  intros Hc Hd. apply (advance_app 2 [c; d]); [done|]. intros [?|[?|?%elem_of_nil]%elem_of_cons]%elem_of_cons; congruence.
Qed.

Lemma skip_block_ok fuel lx : (length (lx_rest lx) < fuel)%nat ->
  match skip_block fuel lx with
  | Ok (lx', true) => exists l, lx_rest lx = l ++ 42 :: 47 :: lx_rest lx' /\ lx_pos lx' = pos_after (lx_pos lx) (l ++ [42; 47]) /\ block_text l
  | Ok (_, false) => True
  | Err e => se_msg e <> OutOfFuel
  end.
Proof.
  revert lx. induction fuel as [|fuel IH]; intros lx Hf; [lia|]. simpl. destruct (lx_rest lx) as [|c r] eqn:Er; [done|].
  destruct ((c =? 42) && (peekAt 1 lx =? 47)) eqn:Eend.
  { breflect. subst c. destruct lx as [b p]. cbn [lx_rest] in Er. subst b. unfold peekAt in *. cbn [lx_rest nth] in *.
    destruct r as [|c1 r]; [done|]. cbn [nth] in *. subst c1. rewrite advance_two by done.
    exists []. split_and!; [done..|constructor]. }
  assert (Hstep : forall x lx1, rune x -> lx_rest lx = x ++ lx_rest lx1 -> lx_pos lx1 = pos_after (lx_pos lx) x ->
    match skip_block fuel lx1 with
    | Ok (lx', true) => exists l, c :: r = l ++ 42 :: 47 :: lx_rest lx' /\ lx_pos lx' = pos_after (lx_pos lx) (l ++ [42; 47]) /\ block_text l
    | Ok (_, false) => True
    | Err e => se_msg e <> OutOfFuel
    end).
  { intros x lx1 Hr Ex Ep. destruct (rune_nonempty x Hr) as (c0 & x' & Ex0). specialize (IH lx1).
    rewrite <- Er, Ex, length_app, Ex0 in Hf. simpl in Hf. specialize (IH ltac:(lia)).
    destruct (skip_block fuel lx1) as [[lx2 []]|e]; [|done|done]. destruct IH as (l & El & Ep2 & Hb).
    exists (x ++ l). rewrite <- !app_assoc, <- El, pos_after_app, <- Ep, <- Er. split_and!; [done..|]. constructor; [done| |done].
    intros [-> Hh]. rewrite Er in Ex. simpl in Ex. injection Ex as -> ->. unfold peekAt in Eend. rewrite Er, El in Eend.
    destruct l as [|c1 l]; [done|]. simpl in Hh. injection Hh as ->. done. }
  destruct (Z.eqb_spec c 10) as [->|Hc].
  - apply (Hstep [10]); destruct lx as [b p]; simpl in *; subst b; done.
  - destruct (skipRune lx) as [lx1|e] eqn:Es.
    2:{ simpl. unfold skipRune in Es. destruct (decodeRune _); simplify_eq. done. }
    simpl. destruct (skipRune_inv lx lx1 Es) as (x & Ex & Ep & Hr & Hx & Hl); [rewrite Er; simpl; congruence|]. by apply (Hstep x).
Qed.

Lemma skip_block_app fuel l rest p : block_text l -> (length l + 2 + length rest < fuel)%nat ->
  skip_block fuel (mkLexer (l ++ 42 :: 47 :: rest) p) = Ok (mkLexer rest (pos_after p (l ++ [42; 47])), true).
Proof.
  intros H. revert fuel p. induction H as [|x l Hr Hx _ IH]; intros fuel p Hf.
  - destruct fuel as [|fuel]; [lia|]. simpl. by rewrite advance_two.
  - destruct fuel as [|fuel]; [lia|]. cbn [skip_block]. destruct (rune_nonempty x Hr) as (c & x' & Ex). rewrite <- !app_assoc.
    replace (lx_rest _) with (c :: x' ++ l ++ 42 :: 47 :: rest) by (simpl; by rewrite Ex).
    assert (Hf' : (length l + 2 + length rest < fuel)%nat) by (rewrite length_app, Ex in Hf; simpl in Hf; lia).
    destruct ((c =? 42) && (peekAt 1 _ =? 47)) eqn:Eend.
    { exfalso. breflect. subst c. assert (x = [42]) as -> by (apply rune_ascii; [done|rewrite Ex; left|lia]). simplify_eq.
      apply Hx. split; [done|]. unfold peekAt in *. simpl in *. destruct l as [|c1 l]; simpl in *; [done|congruence]. }
    destruct (Z.eqb_spec c 10) as [->|Hc].
    + assert (x = [10]) as -> by (apply rune_ascii; [done|rewrite Ex; left|lia]). simplify_eq.
      cbn [app]. rewrite newline_app, IH by done. by rewrite <- pos_after_app.
    + assert (Hx10 : x <> [10]) by (intros ->; congruence).
      rewrite skipRune_app by done. cbn [rbind]. rewrite IH by done. by rewrite <- pos_after_app.
Qed.

(** A token can start here. *)
Definition starts (rest : bytes) : Prop :=
  match rest with
  | c :: r => c ∉ [10; 32; 9; 13] /\ (c = 47 -> head r <> Some 47 /\ head r <> Some 42)
  | [] => False
  end.

Lemma blank_newline b : blank (10 :: b) -> blank b.
Proof. intros H. by inversion H. Qed.

Lemma blank_end_newline b : blank_end (10 :: b) -> blank_end b.
Proof.
  intros [H|(b1 & l & E & H & Hl)]; [left; by apply blank_newline|right]. destruct b1 as [|c b1]; simplify_eq/=.
  exists b1, l. split_and!; [done|by apply blank_newline|done].
Qed.

(** Something blank in front of the rest of the text. *)
Definition spaced (b rest : bytes) : Prop := (rest = [] /\ blank_end b) \/ (blank b /\ starts rest).

Lemma spaced_front pre b rest : (forall b, blank b -> blank (pre ++ b)) -> spaced b rest -> spaced (pre ++ b) rest.
Proof.
  intros Hpre [[-> [H|(b1 & l & -> & H & Hl)]]|[H Hs]]; [left; split; [done|left; by apply Hpre]| |right; auto].
  left. split; [done|]. right. exists (pre ++ b1), l. rewrite <- app_assoc. auto.
Qed.

Lemma spaced_newline b r rest : 10 :: r = b ++ rest -> spaced b rest -> exists b', b = 10 :: b' /\ spaced b' rest.
Proof.
  intros E H. destruct b as [|c b].
  - simpl in E. subst rest. destruct H as [[? _]|[_ [Hs _]]]; [done|]. exfalso. apply Hs. left.
  - injection E as <- ->. exists b. split; [done|]. destruct H as [[-> H]|[H Hs]]; [left|right]; split; auto using blank_newline, blank_end_newline.
Qed.

Lemma line_text_cons c l : line_text (c :: l) -> c < 0x80 -> line_text l.
Proof.
  intros H Hc. remember (c :: l) as b eqn:E. destruct H as [|x l' Hr Hx Hl]; [done|].
  destruct (rune_nonempty x Hr) as (c0 & x' & ->). simplify_eq/=.
  assert (E : c :: x' = [c]) by (apply rune_ascii; [done|left|done]). by injection E as ->.
Qed.

Lemma blank_line l b : line_text l -> blank b -> blank ((47 :: 47 :: l ++ [10]) ++ b).
Proof. intros. simpl. rewrite <- app_assoc. by constructor. Qed.

Lemma blank_block l b : block_text l -> blank b -> blank ((47 :: 42 :: l ++ [42; 47]) ++ b).
Proof. intros. simpl. rewrite <- app_assoc. by constructor. Qed.

(** A line comment up to its end, then more blanks. *)
Lemma spaced_line l r b rest :
  line_text (47 :: 47 :: l) -> (r = [] \/ head r = Some 10) -> r = b ++ rest -> spaced b rest -> spaced (47 :: 47 :: l ++ b) rest.
Proof.
  intros Hl Hend E Hs. apply line_text_cons, line_text_cons in Hl; [|lia..]. destruct Hend as [->|Hend].
  - symmetry in E. apply app_nil in E as [-> ->]. rewrite app_nil_r. left. split; [done|]. right. exists [], l. split_and!; [done|constructor|done].
  - destruct r as [|c r]; [done|]. injection Hend as ->. destruct (spaced_newline b r rest E Hs) as (b' & -> & Hs').
    replace (47 :: 47 :: l ++ 10 :: b') with ((47 :: 47 :: l ++ [10]) ++ b') by (simpl; by rewrite <- app_assoc).
    apply spaced_front; [|done]. intros. by apply blank_line.
Qed.

Lemma skipSpace_ok fuel lx : (length (lx_rest lx) < fuel)%nat ->
  match skipSpace fuel lx with
  | Ok lx' => exists b, lx_rest lx = b ++ lx_rest lx' /\ lx_pos lx' = pos_after (lx_pos lx) b /\ spaced b (lx_rest lx')
  | Err e => se_msg e <> OutOfFuel
  end.
Proof.
  revert lx. induction fuel as [|fuel IH]; intros [t p] Hf; [lia|]. cbn [skipSpace lx_rest lx_pos] in *. destruct t as [|c r].
  { exists []. split_and!; [done..|]. left. split; [done|left; constructor]. }
  simpl in Hf. destruct (Z.eqb_spec c 10) as [->|Hc].
  { rewrite newline_app. specialize (IH (mkLexer r (pos_after p [10])) ltac:(simpl; lia)).
    destruct (skipSpace fuel _) as [lx'|e]; [|done]. destruct IH as (b & E & Ep & Hs). simpl in E. subst r.
    exists (10 :: b). split_and!; [done..|]. apply (spaced_front [10]); [intros; constructor; [left|done]|done]. }
  destruct ((c =? 32) || (c =? 9) || (c =? 13)) eqn:Ew.
  { assert (Ha : advance 1 (mkLexer (c :: r) p) = mkLexer r (pos_after p [c])).
    { apply (advance_app 1 [c]); [done|]. intros [?|?%elem_of_nil]%elem_of_cons; congruence. }
    rewrite Ha. specialize (IH (mkLexer r (pos_after p [c])) ltac:(simpl; lia)).
    destruct (skipSpace fuel _) as [lx'|e]; [|done]. destruct IH as (b & E & Ep & Hs). simpl in E. subst r.
    exists (c :: b). split_and!; [done..|]. apply (spaced_front [c]); [|done]. intros. constructor; [|done].
    rewrite !orb_true_iff, !Z.eqb_eq in Ew. rewrite !elem_of_cons. tauto. }
  destruct ((c =? 47) && (peekAt 1 _ =? 47)) eqn:El.
  { apply andb_true_iff in El as [->%Z.eqb_eq Hp%Z.eqb_eq]. unfold peekAt in Hp. cbn [lx_rest nth] in Hp.
    destruct r as [|c1 r]; [done|]. simpl in Hp. subst c1.
    pose proof (skip_line_ok (S (length (47 :: 47 :: r))) (mkLexer (47 :: 47 :: r) p) ltac:(simpl; lia)) as Hl. cbn [lx_rest] in Hl.
    destruct (skip_line _ _) as [lx1|e]; [|done]. destruct Hl as (l & E & Ep & Hl & Hend). cbn [rbind].
    assert (Hsl : exists l', l = 47 :: 47 :: l').
    { destruct l as [|x [|y l]]; simpl in E.
      - rewrite <- E in Hend. simpl in Hend. destruct Hend; congruence.
      - injection E as <- E. rewrite <- E in Hend. simpl in Hend. destruct Hend; congruence.
      - injection E as <- <- _. by exists l. }
    destruct Hsl as [l' ->]. injection E as ->. cbn [lx_pos] in Ep.
    specialize (IH lx1). simpl in Hf. rewrite length_app in Hf. specialize (IH ltac:(lia)).
    destruct (skipSpace fuel lx1) as [lx'|e]; [|done]. destruct IH as (b & E & Ep2 & Hs).
    exists (47 :: 47 :: l' ++ b). rewrite E. split_and!; [simpl; by rewrite <- app_assoc| |by eapply spaced_line].
    rewrite Ep2, Ep. by rewrite <- pos_after_app. }
  destruct ((c =? 47) && (peekAt 1 _ =? 42)) eqn:Eb.
  { apply andb_true_iff in Eb as [->%Z.eqb_eq Hp%Z.eqb_eq]. unfold peekAt in Hp. cbn [lx_rest nth] in Hp.
    destruct r as [|c1 r]; [done|]. simpl in Hp. subst c1. rewrite advance_two by done.
    pose proof (skip_block_ok (S (length (47 :: 42 :: r))) (mkLexer r (pos_after p [47; 42])) ltac:(simpl; lia)) as Hl. cbn [lx_rest] in Hl.
    destruct (skip_block _ _) as [[lx1 []]|e]; [|done|done]. destruct Hl as (l & -> & Ep & Hl). cbn [rbind fst snd lx_pos] in *.
    specialize (IH lx1). simpl in Hf. rewrite length_app in Hf. simpl in Hf. specialize (IH ltac:(lia)).
    destruct (skipSpace fuel lx1) as [lx'|e]; [|done]. destruct IH as (b & E & Ep2 & Hs).
    exists ((47 :: 42 :: l ++ [42; 47]) ++ b). rewrite E. split_and!; [simpl; by rewrite <- !app_assoc| |].
    - rewrite Ep2, Ep. by rewrite <- !pos_after_app.
    - apply spaced_front; [|done]. intros. by apply blank_block. }
  exists []. split_and!; [done..|]. right. split; [constructor|]. unfold starts. cbn [lx_rest]. split.
  - rewrite !elem_of_cons, elem_of_nil. rewrite !orb_false_iff, !Z.eqb_neq in Ew. tauto.
  - intros ->. unfold peekAt in *. destruct r as [|c1 r]; [done|]. simpl in El, Eb. apply Z.eqb_neq in El, Eb. split; simpl; congruence.
Qed.

Lemma advance_one c r p : c <> 10 -> advance 1 (mkLexer (c :: r) p) = mkLexer r (pos_after p [c]).
Proof. intros Hc. apply (advance_app 1 [c]); [done|]. intros [?|?%elem_of_nil]%elem_of_cons; congruence. Qed.

Lemma line_text_slashes l : line_text l -> line_text (47 :: 47 :: l).
Proof. intros H. apply (lt_rune [47]); [done|done|]. by apply (lt_rune [47]). Qed.

Lemma skipSpace_stop fuel rest p : starts rest -> skipSpace (S fuel) (mkLexer rest p) = Ok (mkLexer rest p).
Proof.
  destruct rest as [|c r]; [done|]. intros [Hc Hs]. rewrite !not_elem_of_cons in Hc. cbn [skipSpace lx_rest].
  destruct (Z.eqb_spec c 10); [naive_solver|]. destruct (Z.eqb_spec c 32); [naive_solver|]. destruct (Z.eqb_spec c 9); [naive_solver|].
  destruct (Z.eqb_spec c 13); [naive_solver|]. cbn [orb]. destruct (Z.eqb_spec c 47) as [->|]; [|done].
  destruct (Hs eq_refl) as [H1 H2]. unfold peekAt. cbn [lx_rest nth andb]. destruct r as [|c1 r]; [done|]. simpl in H1, H2. cbn [nth].
  destruct (Z.eqb_spec c1 47); [congruence|]. by destruct (Z.eqb_spec c1 42); [congruence|].
Qed.

Lemma skipSpace_app fuel b rest p :
  blank b -> (length b + length rest < fuel)%nat ->
  exists fuel', (length rest < fuel')%nat /\ skipSpace fuel (mkLexer (b ++ rest) p) = skipSpace fuel' (mkLexer rest (pos_after p b)).
Proof.
  intros H Hf. revert fuel p Hf. induction H as [|c b Hc _ IH|l b Hl _ IH|l b Hl _ IH]; intros fuel p Hf.
  - by exists fuel.
  - destruct fuel as [|fuel]; [lia|]. simpl in Hf. cbn [skipSpace lx_rest app]. destruct (Z.eqb_spec c 10) as [->|Hn].
    + rewrite newline_app. apply IH. lia.
    + rewrite advance_one by done. destruct ((c =? 32) || (c =? 9) || (c =? 13)) eqn:Ew; [apply IH; lia|].
      rewrite !orb_false_iff, !Z.eqb_neq in Ew. rewrite !elem_of_cons, elem_of_nil in Hc. tauto.
  - destruct fuel as [|fuel]; [lia|]. simpl in Hf. rewrite length_app in Hf. simpl in Hf. cbn [skipSpace lx_rest app]. unfold peekAt. cbn [lx_rest nth Z.eqb orb andb Pos.eqb].
    replace (47 :: 47 :: (l ++ 10 :: b) ++ rest) with ((47 :: 47 :: l) ++ 10 :: b ++ rest) by (simpl; by rewrite <- app_assoc).
    rewrite skip_line_app; [|by apply line_text_slashes|rewrite length_app; simpl; rewrite !length_app; simpl; lia|by right].
    cbn [rbind]. destruct fuel as [|fuel]; [lia|]. cbn [skipSpace lx_rest]. rewrite Z.eqb_refl, newline_app, <- pos_after_app.
    destruct (IH fuel (pos_after p ((47 :: 47 :: l) ++ [10])) ltac:(lia)) as (fuel' & Hf' & E). exists fuel'. split; [done|].
    rewrite E. f_equal. f_equal. rewrite <- pos_after_app. f_equal. simpl. by rewrite <- app_assoc.
  - destruct fuel as [|fuel]; [lia|]. simpl in Hf. rewrite length_app in Hf. simpl in Hf. cbn [skipSpace lx_rest app]. unfold peekAt. cbn [lx_rest nth Z.eqb orb andb Pos.eqb].
    rewrite advance_two by done. replace ((l ++ 42 :: 47 :: b) ++ rest) with (l ++ 42 :: 47 :: b ++ rest) by (by rewrite <- app_assoc).
    rewrite skip_block_app; [|done|simpl; rewrite !length_app; simpl; rewrite !length_app; lia]. cbn [rbind fst snd]. rewrite <- pos_after_app.
    destruct (IH fuel (pos_after p ([47; 42] ++ l ++ [42; 47])) ltac:(lia)) as (fuel' & Hf' & E). exists fuel'. split; [done|].
    rewrite E. f_equal. f_equal. rewrite <- pos_after_app. f_equal. simpl. by rewrite <- app_assoc.
Qed.

Lemma skipSpace_spaced fuel b rest p :
  spaced b rest -> (length b + length rest < fuel)%nat -> skipSpace fuel (mkLexer (b ++ rest) p) = Ok (mkLexer rest (pos_after p b)).
Proof.
  assert (Hnil : forall fuel p, (0 < fuel)%nat -> skipSpace fuel (mkLexer [] p) = Ok (mkLexer [] p)) by (intros [|?] ? ?; [lia|done]).
  intros [[-> [H|(b1 & l & -> & H & Hl)]]|[H Hs]] Hf.
  - destruct (skipSpace_app fuel b [] p H Hf) as (fuel' & Hf' & ->). by apply Hnil.
  - rewrite app_nil_r. rewrite length_app in Hf. simpl in Hf.
    assert (Hc : forall fuel p, (S (S (length l)) < fuel)%nat -> skipSpace fuel (mkLexer (47 :: 47 :: l) p) = Ok (mkLexer [] (pos_after p (47 :: 47 :: l)))).
    { intros [|fu] q Hq; [lia|]. cbn [skipSpace lx_rest]. unfold peekAt. cbn [lx_rest nth Z.eqb orb andb Pos.eqb].
      pose proof (skip_line_app (S (length (47 :: 47 :: l))) (47 :: 47 :: l) [] q (line_text_slashes l Hl)) as E. rewrite app_nil_r in E.
      rewrite E; [|lia|by left]. cbn [rbind]. apply Hnil. simpl in Hq. lia. }
    destruct (skipSpace_app fuel b1 (47 :: 47 :: l) p H) as (fuel' & Hf' & ->); [simpl; lia|].
    rewrite Hc by done. by rewrite <- pos_after_app.
  - destruct (skipSpace_app fuel b rest p H Hf) as (fuel' & Hf' & ->).
    destruct fuel'; [lia|]. by apply skipSpace_stop.
Qed.

(** *** Words and numbers *)

Lemma span_app (p : Z -> bool) x rest :
  Forall (fun c => p c = true) x -> match head rest with Some c => p c = false | None => True end -> span p (x ++ rest) = x.
Proof.
  intros H Hr. induction H as [|c x Hc _ IH]; simpl; [|by rewrite Hc, IH].
  destruct rest as [|c rest]; [done|]. simpl in *. by rewrite Hr.
Qed.

Lemma span_inv (p : Z -> bool) l :
  exists rest, l = span p l ++ rest /\ Forall (fun c => p c = true) (span p l) /\ match head rest with Some c => p c = false | None => True end.
Proof.
  induction l as [|c l (rest & E & H & Hr)]; [by exists []|]. simpl. destruct (p c) eqn:Ec.
  - exists rest. split_and!; [simpl; congruence|by constructor|done].
  - exists (c :: l). split_and!; [done|constructor|done].
Qed.

(** Letters and digits are no newline. *)
Lemma plain_chars (p : Z -> bool) x : p 10 = false -> Forall (fun c => p c = true) x -> 10 ∉ x.
Proof. intros Hp H Hin. rewrite list.Forall_forall in H. specialize (H 10 Hin). congruence. Qed.

Lemma advance_span p rest q : p 10 = false ->
  exists r, rest = span p rest ++ r /\ advance (length (span p rest)) (mkLexer rest q) = mkLexer r (pos_after q (span p rest)) /\
    Forall (fun c => p c = true) (span p rest) /\ match head r with Some c => p c = false | None => True end.
Proof.
  intros Hp. destruct (span_inv p rest) as (r & E & H & Hr). exists r. split_and!; [done| |done|done].
  rewrite E at 2. apply advance_app; [done|]. by eapply plain_chars.
Qed.

Lemma ident_start_part c : isIdentStart c = true -> isIdentPart c = true.
Proof. unfold isIdentPart. by intros ->. Qed.

Lemma ident_text_chars x : ident_text x -> Forall (fun c => isIdentPart c = true) x /\ Z.of_nat (length x) <= maxIdentLen /\ x <> [].
Proof. destruct x as [|c x]; intros [H Hl]; [done|]. destruct H as [Hc Hx]. split_and!; [constructor; auto using ident_start_part|done|done]. Qed.

Lemma ident_ok pos lx : match head (lx_rest lx) with Some c => isIdentStart c = true | None => False end ->
  match ident pos lx with
  | Ok (t, lx') => exists x, lx_rest lx = x ++ lx_rest lx' /\ lx_pos lx' = pos_after (lx_pos lx) x /\ ident_text x /\
                     t = mkToken (if decide (x ∈ keywords) then tKw else tIdent) x 0 pos /\
                     match head (lx_rest lx') with Some c => isIdentPart c = false | None => True end
  | Err e => se_msg e <> OutOfFuel
  end.
Proof.
  destruct lx as [rest q]. cbn [lx_rest lx_pos]. intros Hs. unfold ident. cbn [lx_rest].
  destruct (advance_span isIdentPart rest q eq_refl) as (r & E & Ha & Hx & Hr). rewrite Ha.
  destruct (Z.ltb_spec maxIdentLen (Z.of_nat (length (span isIdentPart rest)))); [done|].
  exists (span isIdentPart rest). split_and!; [done..| |done|done]. split; [|done].
  destruct rest as [|c rest]; [done|]. cbn [head] in Hs. cbn [span] in Hx |- *. rewrite (ident_start_part c Hs) in Hx |- *. by inversion Hx.
Qed.

Lemma ident_app pos x rest q : ident_text x -> match head rest with Some c => isIdentPart c = false | None => True end ->
  ident pos (mkLexer (x ++ rest) q) = Ok (mkToken (if decide (x ∈ keywords) then tKw else tIdent) x 0 pos, mkLexer rest (pos_after q x)).
Proof.
  intros Hx Hr. destruct (ident_text_chars x Hx) as (Hc & Hl & _). unfold ident. cbn [lx_rest]. rewrite span_app by done.
  rewrite advance_app; [|done|by eapply (plain_chars isIdentPart)]. by destruct (Z.ltb_spec maxIdentLen (Z.of_nat (length x))); [lia|].
Qed.

Lemma base_digit_newline hex : base_digit hex 10 = false.
Proof. by destruct hex. Qed.

Lemma digit_part hex c : base_digit hex c = true -> isIdentPart c = true.
Proof.
  destruct hex; unfold base_digit, isIdentPart, isIdentStart, isHexDigit, isDigit, between; intros H; breflect;
    rewrite ?orb_true_iff, ?andb_true_iff, ?Z.leb_le, ?Z.eqb_eq; lia.
Qed.

Definition sign (neg : bool) : bytes := if neg then [45] else [].
Definition prefix (hex : bool) : bytes := if hex then [48; 120] else [].

(** The digits after a prefix [w] of the literal. *)
Lemma number_rest_ok pos (neg hex : bool) w rest q :
  match number_rest pos (w ++ rest) neg hex (mkLexer rest (pos_after q w)) with
  | Ok (t, lx') => exists ds v, rest = ds ++ lx_rest lx' /\ lx_pos lx' = pos_after q (w ++ ds) /\ ds <> [] /\
                     Forall (fun c => base_digit hex c = true) ds /\
                     v = (let n := digits_value (if hex then 16 else 10) ds in if neg then - n else n) /\ minInt <= v <= maxInt /\
                     t = mkToken tInt (w ++ ds) v pos /\
                     match head (lx_rest lx') with Some c => isIdentPart c = false | None => True end
  | Err e => se_msg e <> OutOfFuel
  end.
Proof.
  unfold number_rest. cbn [lx_rest].
  destruct (advance_span (base_digit hex) rest (pos_after q w) (base_digit_newline hex)) as (r & E & Ha & Hx & Hr). rewrite Ha.
  set (ds := span (base_digit hex) rest) in *. cbn [lx_rest]. destruct (hex && _); [done|].
  destruct (match r with c :: _ => isIdentPart c | [] => false end) eqn:Ep; [done|].
  destruct (Nat.eqb_spec (length ds) 0) as [|Hn]; [done|]. cbv zeta.
  destruct ((_ <? minInt) || (maxInt <? _)) eqn:Ev; [done|]. apply orb_false_iff in Ev as [H1%Z.ltb_ge H2%Z.ltb_ge].
  exists ds. eexists. split_and!; try done.
  - by rewrite pos_after_app.
  - intros E0. by rewrite E0 in Hn.
  - f_equal. rewrite E. rewrite !length_app. replace (length w + (length ds + length r) - length r)%nat with (length (w ++ ds)) by (rewrite length_app; lia).
    rewrite app_assoc. by rewrite take_app_length.
  - by destruct r.
Qed.

Lemma number_rest_app pos (neg hex : bool) w ds v rest q :
  ds <> [] -> Forall (fun c => base_digit hex c = true) ds ->
  v = (let n := digits_value (if hex then 16 else 10) ds in if neg then - n else n) -> minInt <= v <= maxInt ->
  match head rest with Some c => isIdentPart c = false | None => True end ->
  number_rest pos (w ++ ds ++ rest) neg hex (mkLexer (ds ++ rest) q) = Ok (mkToken tInt (w ++ ds) v pos, mkLexer rest (pos_after q ds)).
Proof.
  intros Hn Hd Hv Hr Hh. unfold number_rest. cbn [lx_rest]. rewrite span_app; [|done|].
  2:{ destruct rest as [|c rest]; [done|]. simpl in *. destruct (base_digit hex c) eqn:E; [|done]. apply digit_part in E. congruence. }
  rewrite advance_app; [|done|exact (plain_chars _ _ (base_digit_newline hex) Hd)].
  assert (E0 : (length ds =? 0)%nat = false) by (destruct ds; done). rewrite E0, andb_false_r. cbn [lx_rest].
  assert (Ep : match rest with c :: _ => isIdentPart c | [] => false end = false) by (destruct rest; done). rewrite Ep.
  cbv zeta in *. rewrite <- Hv. rewrite (proj2 (Z.ltb_ge v minInt)), (proj2 (Z.ltb_ge maxInt v)) by lia. cbn [orb].
  do 3 f_equal. rewrite !length_app. replace (length w + (length ds + length rest) - length rest)%nat with (length (w ++ ds)) by (rewrite length_app; lia).
  rewrite app_assoc. by rewrite take_app_length.
Qed.

(** A byte with which a number starts, possibly after a sign. *)
Definition number_starts (rest : bytes) : Prop :=
  match rest with c :: r => isDigit c = true \/ c = 45 /\ (exists d r', r = d :: r' /\ isDigit d = true) | [] => False end.

Lemma number_ok pos rest q : number_starts rest ->
  match number pos (mkLexer rest q) with
  | Ok (t, lx') => exists x v, rest = x ++ lx_rest lx' /\ lx_pos lx' = pos_after q x /\ int_text x v /\ t = mkToken tInt x v pos /\ x <> [] /\
                     match head (lx_rest lx') with Some c => isIdentPart c = false | None => True end
  | Err e => se_msg e <> OutOfFuel
  end.
Proof.
  intros Hs. unfold number. cbv zeta. cbn [lx_rest]. destruct rest as [|c r]; [done|].
  change (peekAt 0 (mkLexer (c :: r) q)) with c.
  assert (Hneg : exists neg r1, (c =? 45) = neg /\ c :: r = sign neg ++ r1 /\
    (if c =? 45 then advance 1 (mkLexer (c :: r) q) else mkLexer (c :: r) q) = mkLexer r1 (pos_after q (sign neg))).
  { destruct (Z.eqb_spec c 45) as [->|]; [exists true, r; by rewrite advance_one|by exists false, (c :: r)]. }
  destruct Hneg as (neg & r1 & En & Er & El). rewrite En in *. rewrite El. unfold peekAt. cbn [lx_rest]. rewrite Er.
  assert (Hhex : exists hex r2, ((nth 0 r1 0 =? 48) && (nth 1 r1 0 =? 120)) = hex /\ r1 = prefix hex ++ r2 /\
    (if hex then advance 2 (mkLexer r1 (pos_after q (sign neg))) else mkLexer r1 (pos_after q (sign neg)))
      = mkLexer r2 (pos_after q (sign neg ++ prefix hex))).
  { destruct ((nth 0 r1 0 =? 48) && (nth 1 r1 0 =? 120)) eqn:Eh.
    - apply andb_true_iff in Eh as [E1%Z.eqb_eq E2%Z.eqb_eq]. destruct r1 as [|a [|b r2]]; simpl in E1, E2; [done..|]. subst a b.
      exists true, r2. split_and!; [done..|]. rewrite advance_two by done. by rewrite <- pos_after_app.
    - exists false, r1. split_and!; [done..|]. unfold prefix. by rewrite app_nil_r. }
  destruct Hhex as (hex & r2 & -> & Er1 & El1). cbv zeta. rewrite El1, Er1, app_assoc.
  pose proof (number_rest_ok pos neg hex (sign neg ++ prefix hex) r2 q) as Hn.
  destruct (number_rest _ _ _ _ _) as [[t lx']|e]; [|done]. destruct Hn as (ds & v & E & Ep & Hd & Hf & Hv & Hr & Et & Hh).
  exists ((sign neg ++ prefix hex) ++ ds), v. split; [rewrite E; by rewrite !app_assoc|]. split_and!; try done.
  - exists neg, hex, ds. refine (conj _ (conj Hd (conj Hf (conj Hv Hr)))). by rewrite <- app_assoc.
  - intros [_ ?]%app_nil. done.
Qed.

Lemma decimal_second ds rest : ds <> [] -> Forall (fun c => base_digit false c = true) ds ->
  match head rest with Some c => isIdentPart c = false | None => True end -> nth 1 (ds ++ rest) 0 <> 120.
Proof.
  intros Hn Hd Hh. destruct ds as [|a [|b ds]]; [done| |].
  - destruct rest as [|c rest]; simpl; [done|]. intros ->. done.
  - inversion Hd as [|? ? _ Hb]; subst. inversion Hb as [|? ? Hc _]; subst. simpl. intros ->. done.
Qed.

Lemma number_app pos x v rest q : int_text x v -> match head rest with Some c => isIdentPart c = false | None => True end ->
  number pos (mkLexer (x ++ rest) q) = Ok (mkToken tInt x v pos, mkLexer rest (pos_after q x)).
Proof.
  intros (neg & hex & ds & -> & Hn & Hd & Hv & Hr) Hh. unfold number. cbv zeta. cbn [lx_rest].
  change (if neg then [45] else []) with (sign neg). change (if hex then [48; 120] else []) with (prefix hex).
  assert (Hfirst : nth 0 (prefix hex ++ ds ++ rest) 0 <> 45).
  { destruct hex; [done|]. destruct ds as [|a ds]; [done|]. inversion Hd as [|? ? Ha _]; subst. simpl. intros ->. done. }
  assert (Eneg : (peekAt 0 (mkLexer ((sign neg ++ prefix hex ++ ds) ++ rest) q) =? 45) = neg).
  { unfold peekAt. cbn [lx_rest]. rewrite <- !app_assoc. destruct neg; [done|]. apply Z.eqb_neq. exact Hfirst. }
  rewrite Eneg. assert (El : (if neg then advance 1 (mkLexer ((sign neg ++ prefix hex ++ ds) ++ rest) q)
                              else mkLexer ((sign neg ++ prefix hex ++ ds) ++ rest) q) = mkLexer (prefix hex ++ ds ++ rest) (pos_after q (sign neg))).
  { rewrite <- !app_assoc. destruct neg; [|done]. apply (advance_one 45); done. }
  rewrite El. assert (Ehex : ((peekAt 0 (mkLexer (prefix hex ++ ds ++ rest) (pos_after q (sign neg))) =? 48) &&
      (peekAt 1 (mkLexer (prefix hex ++ ds ++ rest) (pos_after q (sign neg))) =? 120)) = hex).
  { unfold peekAt. cbn [lx_rest]. destruct hex; [done|]. apply andb_false_iff. right. apply Z.eqb_neq.
    exact (decimal_second ds rest Hn Hd Hh). }
  rewrite Ehex. assert (El2 : (if hex then advance 2 (mkLexer (prefix hex ++ ds ++ rest) (pos_after q (sign neg)))
      else mkLexer (prefix hex ++ ds ++ rest) (pos_after q (sign neg))) = mkLexer (ds ++ rest) (pos_after q (sign neg ++ prefix hex))).
  { destruct hex; [|by rewrite app_nil_r]. rewrite pos_after_app. apply (advance_two 48 120); done. }
  rewrite El2. pose proof (number_rest_app pos neg hex (sign neg ++ prefix hex) ds v rest (pos_after q (sign neg ++ prefix hex)) Hn Hd Hv Hr Hh) as E.
  rewrite <- !app_assoc in *. rewrite E. by rewrite <- pos_after_app, <- !app_assoc.
Qed.

(** *** String literals *)

Lemma str_loop_ok fuel pos out lx : (length (lx_rest lx) < fuel)%nat -> Z.of_nat (length out) <= maxStringLen ->
  match str_loop fuel pos out lx with
  | Ok (t, lx') => exists b o, lx_rest lx = b ++ 34 :: lx_rest lx' /\ lx_pos lx' = pos_after (lx_pos lx) (b ++ [34]) /\
                     str_body b o /\ t = mkToken tStr (out ++ o) 0 pos /\ Z.of_nat (length (out ++ o)) <= maxStringLen
  | Err e => se_msg e <> OutOfFuel
  end.
Proof.
  revert out lx. induction fuel as [|fuel IH]; intros out [r q] Hf Ho; [lia|]. cbn [str_loop lx_rest lx_pos] in *.
  destruct r as [|c r]; [done|]. simpl in Hf. destruct (Z.eqb_spec c 34) as [->|Hq].
  { rewrite advance_one by done. exists [], []. rewrite app_nil_r. split_and!; [done..|constructor|done|done]. }
  assert (Hstep : forall x y r', c :: r = x ++ r' -> 10 ∉ x -> x <> [] -> (forall b o, str_body b o -> str_body (x ++ b) (y :: o)) ->
    match (if maxStringLen <? Z.of_nat (length (out ++ [y])) then Err (mkSyntax pos StringTooLong)
           else str_loop fuel pos (out ++ [y]) (mkLexer r' (pos_after q x))) with
    | Ok (t, lx') => exists b o, c :: r = b ++ 34 :: lx_rest lx' /\ lx_pos lx' = pos_after q (b ++ [34]) /\
                       str_body b o /\ t = mkToken tStr (out ++ o) 0 pos /\ Z.of_nat (length (out ++ o)) <= maxStringLen
    | Err e => se_msg e <> OutOfFuel
    end).
  { intros x y r' E Hx Hne Hb. destruct (Z.ltb_spec maxStringLen (Z.of_nat (length (out ++ [y])))); [done|].
    assert (Hl : (length r' < fuel)%nat).
    { apply (f_equal length) in E. rewrite length_app in E. destruct x; [done|]. simpl in E. lia. }
    specialize (IH (out ++ [y]) (mkLexer r' (pos_after q x)) Hl ltac:(lia)).
    destruct (str_loop _ _ _ _) as [[t lx']|e]; [|done]. destruct IH as (b & o & E' & Ep & Hbo & Et & Hlen). cbn [lx_rest lx_pos] in *.
    exists (x ++ b), (y :: o). rewrite <- app_assoc in Et, Hlen. split_and!; [by rewrite E, E', app_assoc| |auto|done|done].
    by rewrite Ep, <- pos_after_app, app_assoc. }
  destruct (Z.eqb_spec c 92) as [->|Hbs].
  - unfold peekAt. cbn [lx_rest nth]. destruct r as [|e r]; [done|]. cbn [nth].
    destruct (negb (e =? 92) && negb (e =? 34)) eqn:Ee; [done|].
    assert (He : e = 92 \/ e = 34) by (apply andb_false_iff in Ee as [Ee|Ee]; apply negb_false_iff, Z.eqb_eq in Ee; auto).
    rewrite advance_two by lia. apply (Hstep [92; e] e r); [done| |done|intros; by apply sb_escape].
    intros [?|[?|?%elem_of_nil]%elem_of_cons]%elem_of_cons; lia.
  - destruct ((c <? 0x20) || (0x7E <? c)) eqn:Ec; [done|]. apply orb_false_iff in Ec as [H1%Z.ltb_ge H2%Z.ltb_ge].
    rewrite advance_one by lia. apply (Hstep [c] c r); [done| |done|intros; apply sb_char; [lia|done..]].
    intros [?|?%elem_of_nil]%elem_of_cons; lia.
Qed.

Lemma str_loop_app fuel pos out b o rest q :
  str_body b o -> (length b + 1 + length rest < fuel)%nat -> Z.of_nat (length (out ++ o)) <= maxStringLen ->
  str_loop fuel pos out (mkLexer (b ++ 34 :: rest) q) = Ok (mkToken tStr (out ++ o) 0 pos, mkLexer rest (pos_after q (b ++ [34]))).
Proof.
  intros H. revert fuel out q. induction H as [|c b o Hc H34 H92 _ IH|e b o He _ IH]; intros fuel out q Hf Hl.
  - destruct fuel as [|fuel]; [lia|]. cbn [str_loop lx_rest app]. rewrite Z.eqb_refl, advance_one by done. by rewrite app_nil_r.
  - destruct fuel as [|fuel]; [lia|]. simpl in Hf. cbn [str_loop lx_rest app]. rewrite length_app in Hl. simpl in Hl.
    destruct (Z.eqb_spec c 34); [done|]. destruct (Z.eqb_spec c 92); [done|].
    rewrite (proj2 (Z.ltb_ge c 32)), (proj2 (Z.ltb_ge 126 c)) by lia. cbn [orb]. rewrite advance_one by lia.
    destruct (Z.ltb_spec maxStringLen (Z.of_nat (length (out ++ [c])))); [rewrite length_app in *; simpl in *; lia|].
    rewrite IH by (rewrite ?length_app in *; simpl in *; lia). by rewrite <- app_assoc.
  - destruct fuel as [|fuel]; [lia|]. simpl in Hf. cbn [str_loop lx_rest app]. rewrite length_app in Hl. simpl in Hl.
    change (92 =? 34) with false. rewrite Z.eqb_refl. unfold peekAt. cbn [lx_rest nth].
    assert (Ee : negb (e =? 92) && negb (e =? 34) = false) by (destruct He as [->| ->]; done). rewrite Ee, advance_two by lia.
    destruct (Z.ltb_spec maxStringLen (Z.of_nat (length (out ++ [e])))); [rewrite length_app in *; simpl in *; lia|].
    rewrite IH by (rewrite ?length_app in *; simpl in *; lia). by rewrite <- app_assoc.
Qed.

(** *** One token *)

Definition good_next (rest : bytes) (q : Pos) (t : token) (lx' : lexer) : Prop :=
  exists x, rest = x ++ lx_rest lx' /\ lx_pos lx' = pos_after q x /\ spells t x /\ t_pos t = q /\ ends_before t (lx_rest lx') /\ x <> [].

Lemma ends_word t rest : match head rest with Some c => isIdentPart c = false | None => True end ->
  t_kind t <> tPunct -> ends_before t rest.
Proof. unfold ends_before. destruct (head rest); [|done]. by destruct (t_kind t). Qed.

Lemma punct1_bounds c : c ∈ punct1 -> c <> 10 /\ isIdentStart c = false /\ isDigit c = false /\ c <> 45 /\ c <> 34 /\ c <> 64 /\ c <> 47 /\ c <> 32 /\ c <> 9 /\ c <> 13.
Proof. intros H. repeat (apply elem_of_cons in H as [->|H]; [done|]). by apply elem_of_nil in H. Qed.

Lemma scan_ok c r q :
  match scan (mkLexer (c :: r) q) with
  | Ok (t, lx') => good_next (c :: r) q t lx'
  | Err e => se_msg e <> OutOfFuel
  end.
Proof.
  unfold scan. cbv zeta. cbn [lx_rest lx_pos]. destruct (isIdentStart c) eqn:Hi.
  { pose proof (ident_ok q (mkLexer (c :: r) q) Hi) as H. destruct (ident q _) as [[t lx']|e]; [|done].
    destruct H as (x & E & Ep & Hx & -> & Hh). exists x. split_and!; [done..|by constructor|done| |].
    - apply ends_word; [done|]. simpl. by destruct (decide _).
    - by apply ident_text_chars in Hx as (_ & _ & ?). }
  assert (Hnum : number_starts (c :: r) -> match number q (mkLexer (c :: r) q) with
    | Ok (t, lx') => good_next (c :: r) q t lx' | Err e => se_msg e <> OutOfFuel end).
  { intros Hs. pose proof (number_ok q (c :: r) q Hs) as H. destruct (number q _) as [[t lx']|e]; [|done].
    destruct H as (x & v & E & Ep & Hx & -> & Hne & Hh). exists x. split_and!; [done..|by constructor|done|by apply ends_word|done]. }
  destruct (isDigit c) eqn:Hd; [apply Hnum; by left|].
  destruct ((c =? 45) && isDigit (peekAt 1 _)) eqn:Hm.
  { apply andb_true_iff in Hm as [->%Z.eqb_eq Hp]. apply Hnum. right. split; [done|]. unfold peekAt in Hp. cbn [lx_rest nth] in Hp.
    destruct r as [|d r]; [done|]. simpl in Hp. eauto. }
  destruct (Z.eqb_spec c 34) as [->|Hq].
  { unfold str_lit. rewrite advance_one by done. cbn [lx_rest].
    pose proof (str_loop_ok (S (length r)) q [] (mkLexer r (pos_after q [34])) ltac:(simpl; lia) ltac:(done)) as H.
    destruct (str_loop _ _ _ _) as [[t lx']|e]; [|done]. destruct H as (b & o & E & Ep & Hb & -> & Hl). cbn [lx_rest lx_pos app] in *.
    exists (34 :: b ++ [34]). split_and!; [simpl; by rewrite E, <- app_assoc|by rewrite Ep, <- pos_after_app|by constructor|done| |done].
    unfold ends_before. by destruct (head _). }
  destruct (Z.eqb_spec c 64) as [->|Ha].
  { destruct (negb (isIdentStart (peekAt 1 _))) eqn:Hp; [done|]. apply negb_false_iff in Hp. rewrite advance_one by done. cbn [lx_pos].
    pose proof (ident_ok (pos_after q [64]) (mkLexer r (pos_after q [64]))) as H. unfold peekAt in Hp. cbn [lx_rest nth] in Hp, H.
    destruct r as [|d r]; [done|]. specialize (H Hp). destruct (ident _ _) as [[t lx']|e]; [|done].
    destruct H as (x & E & Ep & Hx & -> & Hh). cbn [rbind fst snd lx_pos t_text] in *. exists (64 :: x).
    split_and!; [simpl; congruence|by rewrite Ep, <- pos_after_app|by constructor|done|by apply ends_word|done]. }
  destruct (decide _) as [Htwo|Htwo].
  { destruct (2 <=? length (c :: r))%nat eqn:Hl; [|by destruct Htwo]. apply Nat.leb_le in Hl. simpl in Hl.
    destruct r as [|d r]; [simpl in Hl; lia|]. change (take 2 (c :: d :: r)) with [c; d] in *.
    rewrite advance_two by (destruct Htwo as [[= -> ->]|[= -> ->]]; done). exists [c; d]. split_and!; [done..|by constructor|done| |done].
    unfold ends_before. destruct (head _); [|done]. simpl. by destruct Htwo as [-> | ->]. }
  destruct (decide (c ∈ punct1)) as [Hc|Hc]; [|by destruct (0x80 <=? c)].
  destruct (punct1_bounds c Hc) as [Hc10 _]. rewrite advance_one by done. exists [c]. split_and!; [done..|by constructor|done| |done].
  unfold ends_before. cbn [lx_rest t_kind t_text]. destruct r as [|d r]; [done|]. cbn [head]. intros [= ->] ->.
  apply Htwo. left. done.
Qed.

Lemma starts_char c r : c <> 10 -> c <> 32 -> c <> 9 -> c <> 13 -> c <> 47 -> starts (c :: r).
Proof. intros. split; [rewrite !not_elem_of_cons; pose proof (not_elem_of_nil c); tauto|done]. Qed.

Lemma ident_start_range c : isIdentStart c = true -> 65 <= c <= 122 /\ isDigit c = false.
Proof. unfold isIdentStart, isDigit, between. intros H. breflect. split; [lia|]. apply andb_false_iff. rewrite !Z.leb_gt. lia. Qed.

Lemma digit_range c : isDigit c = true -> 48 <= c <= 57 /\ isIdentStart c = false.
Proof.
  unfold isIdentStart, isDigit, between. intros H. breflect. split; [lia|].
  rewrite !orb_false_iff, !andb_false_iff, !Z.leb_gt, Z.eqb_neq. lia.
Qed.

(** The first bytes of a number. *)
Lemma int_text_starts x v rest : int_text x v ->
  exists c r, x ++ rest = c :: r /\ isIdentStart c = false /\ (isDigit c = true \/ (c = 45 /\ isDigit (nth 0 r 0) = true)).
Proof.
  intros (neg & hex & ds & -> & Hn & Hd & _). destruct ds as [|d ds]; [done|]. inversion Hd as [|? ? Hd0 _]; subst.
  assert (Hdd : hex = false -> isDigit d = true) by (by intros ->). destruct neg, hex; simpl; do 2 eexists; (split; [done|]).
  - split; [done|]. right. done.
  - split; [done|]. right. auto.
  - split; [done|]. by left.
  - specialize (Hdd eq_refl). split; [by apply digit_range|by left].
Qed.

Lemma scan_number t x v rest q : int_text x v -> t = mkToken tInt x v q -> match head rest with Some c => isIdentPart c = false | None => True end ->
  scan (mkLexer (x ++ rest) q) = Ok (t, mkLexer rest (pos_after q x)) /\ starts (x ++ rest).
Proof.
  intros Hx -> Hh. pose proof (number_app q x v rest q Hx Hh) as Hn. destruct (int_text_starts x v rest Hx) as (c & r & E & Hi & Hc).
  rewrite E in *. unfold scan, peekAt. cbv zeta. cbn [lx_rest lx_pos nth]. rewrite Hi. split.
  - destruct Hc as [Hd|[-> Hd]]; [by rewrite Hd|]. change (isDigit 45) with false. cbn [Z.eqb Pos.eqb andb]. destruct r as [|d r]; [done|].
    cbn [nth] in *. by rewrite Hd.
  - apply starts_char; destruct Hc as [[? _]%digit_range|[-> _]]; lia.
Qed.

Lemma scan_app t x rest q : spells t x -> t_pos t = q -> ends_before t rest ->
  scan (mkLexer (x ++ rest) q) = Ok (t, mkLexer rest (pos_after q x)) /\ starts (x ++ rest).
Proof.
  intros H Hq He. assert (Hword : t_kind t <> tPunct -> t_kind t <> tStr -> t_kind t <> tEOF -> match head rest with Some c => isIdentPart c = false | None => True end).
  { intros. unfold ends_before in He. destruct (head rest); [|done]. by destruct (t_kind t). }
  destruct H as [x p Hx|x p Hx|x v p Hx|b o p Hb Hl|x p Hx|c p Hc]; simpl in Hq; subst p.
  3:{ by eapply scan_number; [| |apply Hword]. }
  all: unfold scan; cbv zeta; cbn [lx_rest lx_pos].
  - destruct x as [|c x]; [by destruct Hx|]. destruct (proj1 Hx) as [Hc _]. destruct (ident_start_range c Hc) as [Hr _].
    pose proof (ident_app q (c :: x) rest q Hx) as Hi. cbn [app] in *. rewrite Hc, Hi by (apply Hword; simpl; by destruct (decide _)).
    split; [done|apply starts_char; lia].
  - destruct x as [|c x]; [by destruct Hx|]. destruct (proj1 Hx) as [Hc _].
    pose proof (ident_app (pos_after q [64]) (c :: x) rest (pos_after q [64]) Hx ltac:(by apply Hword)) as Hi. cbn [app] in *.
    change (isIdentStart 64) with false. change (isDigit 64) with false. unfold peekAt. cbn [lx_rest nth Z.eqb Pos.eqb andb]. rewrite Hc. cbn [negb].
    rewrite advance_one by done. cbn [lx_pos]. rewrite Hi. cbn [rbind fst snd t_text]. rewrite <- pos_after_app. split; [done|by apply starts_char].
  - cbn [app]. change (isIdentStart 34) with false. change (isDigit 34) with false. cbn [Z.eqb Pos.eqb andb].
    unfold str_lit. rewrite advance_one by done. cbn [lx_rest]. rewrite <- app_assoc. cbn [app].
    rewrite (str_loop_app _ q [] b o rest) by (done || (rewrite length_app; simpl; lia)). rewrite <- pos_after_app. split; [done|by apply starts_char].
  - assert (Hx' : exists c d, x = [c; d] /\ (c = 60 /\ d = 61 \/ c = 45 /\ d = 62)) by (destruct Hx as [-> | ->]; eauto 10).
    destruct Hx' as (c & d & -> & Hcd). split; [|destruct Hcd as [[-> _]|[-> _]]; by apply starts_char].
    assert (Htwo : (2 <=? length ([c; d] ++ rest))%nat = true) by done. rewrite Htwo. change (take 2 ([c; d] ++ rest)) with [c; d].
    cbn [app]. rewrite advance_two by lia. unfold peekAt. cbn [lx_rest nth]. by destruct Hcd as [[-> ->]|[-> ->]].
  - destruct (punct1_bounds c Hc) as (H10 & Hi & Hd & H45 & H34 & H64 & H47 & H32 & H9 & H13). cbn [app]. rewrite Hi, Hd.
    rewrite (proj2 (Z.eqb_neq c 45)), (proj2 (Z.eqb_neq c 34)), (proj2 (Z.eqb_neq c 64)) by done. cbn [andb].
    rewrite decide_False; [|]. { rewrite decide_True by done. rewrite advance_one by done. split; [done|by apply starts_char]. }
    destruct (2 <=? length (c :: rest))%nat eqn:Hl; [|intros [?|?]; done]. apply Nat.leb_le in Hl. simpl in Hl.
    destruct rest as [|d rest]; [simpl in Hl; lia|]. unfold ends_before in He. cbn in He. cbn [take]. intros [[= -> ->]|[= -> ->]]; [|done].
    by apply He.
Qed.

(** *** The whole text *)

Lemma spells_kind t x : spells t x -> t_kind t <> tEOF /\ x <> [].
Proof.
  intros []; simpl; split; try done; try (by destruct (decide _)).
  - by apply ident_text_chars in H as (_ & _ & ?).
  - destruct H as (neg & hex & ds & -> & Hn & _). intros [_ [_ ?]%app_nil]%app_nil. done.
  - by destruct H as [-> | ->].
Qed.

Lemma next_ok lx :
  match next lx with
  | Ok (t, lx') =>
      (blank_end (lx_rest lx) /\ t = mkToken tEOF [] 0 (pos_after (lx_pos lx) (lx_rest lx))) \/
      (exists b x, lx_rest lx = b ++ x ++ lx_rest lx' /\ lx_pos lx' = pos_after (lx_pos lx) (b ++ x) /\ blank b /\
         spells t x /\ t_pos t = pos_after (lx_pos lx) b /\ ends_before t (lx_rest lx'))
  | Err e => se_msg e <> OutOfFuel
  end.
Proof.
  unfold next. pose proof (skipSpace_ok (S (length (lx_rest lx))) lx ltac:(lia)) as H.
  destruct (skipSpace _ lx) as [[r q]|e]; [|done]. destruct H as (b & E & Ep & Hs). cbn [rbind lx_rest lx_pos] in *. subst q.
  destruct r as [|c r].
  - left. destruct Hs as [[_ Hb]|[_ []]]. rewrite app_nil_r in E. rewrite E. done.
  - destruct Hs as [[? _]|[Hb _]]; [done|]. pose proof (scan_ok c r (pos_after (lx_pos lx) b)) as Hn.
    destruct (scan _) as [[t lx']|e]; [|done]. destruct Hn as (x & Ex & Ep' & Hx & Ht & He & _). right. exists b, x.
    rewrite <- Ex, pos_after_app. done.
Qed.

Lemma next_app p b x rest t : blank b -> spells t x -> t_pos t = pos_after p b -> ends_before t rest ->
  next (mkLexer (b ++ x ++ rest) p) = Ok (t, mkLexer rest (pos_after p (b ++ x))).
Proof.
  intros Hb Hx Ht He. destruct (scan_app t x rest (pos_after p b) Hx Ht He) as [Hs Hst]. unfold next. cbn [lx_rest].
  rewrite skipSpace_spaced; [|by right|rewrite !length_app; lia]. cbn [rbind]. by rewrite pos_after_app.
Qed.

Lemma next_end p b : blank_end b -> exists lx', next (mkLexer b p) = Ok (mkToken tEOF [] 0 (pos_after p b), lx').
Proof.
  intros Hb. unfold next. cbn [lx_rest]. pose proof (skipSpace_spaced (S (length b)) b [] p (or_introl (conj eq_refl Hb))) as H.
  rewrite app_nil_r in H. rewrite H by (simpl; lia). by eexists.
Qed.

Lemma lex_loop_ok fuel lx acc : (length (lx_rest lx) < fuel)%nat ->
  match lex_loop fuel lx acc with
  | Ok l => exists ts, l = acc ++ ts /\ tokens (lx_pos lx) (lx_rest lx) ts
  | Err e => se_msg e <> OutOfFuel
  end.
Proof.
  revert lx acc. induction fuel as [|fuel IH]; intros lx acc Hf; [lia|]. cbn [lex_loop]. pose proof (next_ok lx) as H.
  destruct (next lx) as [[t lx']|e]; [|done]. cbn [rbind fst snd].
  destruct H as [[Hb ->]|(b & x & E & Ep & Hb & Hx & Ht & He)].
  - eexists. split; [done|]. by constructor.
  - destruct (spells_kind t x Hx) as [Hk Hne]. assert (Hl : (length (lx_rest lx') < fuel)%nat).
    { rewrite E, !length_app in Hf. destruct x; [done|]. simpl in Hf. lia. }
    specialize (IH lx' (acc ++ [t]) Hl). assert (EQ : forall A (a b : A), match t_kind t with tEOF => a | _ => b end = b) by (intros; by destruct (t_kind t)).
    rewrite EQ. destruct (lex_loop fuel lx' _) as [l|e]; [|done]. destruct IH as (ts & -> & Hts). exists (t :: ts).
    split; [by rewrite <- app_assoc|]. rewrite E. apply (tk_cons _ b x _ t ts); try done. by rewrite <- Ep.
Qed.

Lemma lex_loop_app fuel p src ts acc : tokens p src ts -> (length src < fuel)%nat -> lex_loop fuel (mkLexer src p) acc = Ok (acc ++ ts).
Proof.
  intros H. revert fuel acc. induction H as [p b Hb|p b x rest t ts Hb Hx Ht He _ IH]; intros fuel acc Hf; (destruct fuel as [|fuel]; [lia|]); cbn [lex_loop].
  - destruct (next_end p b Hb) as [lx' ->]. done.
  - rewrite (next_app p b x rest t) by done. cbn [rbind fst snd]. destruct (spells_kind t x Hx) as [Hk Hne].
    assert (EQ : forall A (a b : A), match t_kind t with tEOF => a | _ => b end = b) by (intros; by destruct (t_kind t)).
    rewrite EQ, IH; [by rewrite <- app_assoc|]. rewrite !length_app in Hf. destruct x; [done|]. simpl in Hf. lia.
Qed.

(** C32. The lexer computes the tokens of the language. A text without a byte order
    mark lexes to a list of tokens exactly if it is made of white space,
    comments and the spellings of these tokens, each as long as possible, with
    the positions at which the spellings start; and lexing always ends, with
    tokens or an error. *)
Theorem lex_exact src :
  take 3 src <> [0xEF; 0xBB; 0xBF] ->
  (forall toks, lex src = Ok toks <-> tokens (mkPos 1 1) src toks) /\ (forall e, lex src = Err e -> se_msg e <> OutOfFuel).
Proof.
  intros Hbom. unfold lex. rewrite bool_decide_eq_false_2 by done.
  pose proof (lex_loop_ok (S (length src)) (mkLexer src (mkPos 1 1)) [] ltac:(simpl; lia)) as H. split.
  - intros toks. split; [|intros Ht; by apply (lex_loop_app _ _ _ _ [] Ht); lia].
    intros E. rewrite E in H. by destruct H as (ts & -> & Hts).
  - intros e E. by rewrite E in H.
Qed.

Lemma lex_exact_witness :
  tokens (mkPos 1 1) (str "a<=-0x1F /* * */ @b")
    [mkToken tIdent (str "a") 0 (mkPos 1 1); mkToken tPunct (str "<=") 0 (mkPos 1 2); mkToken tInt (str "-0x1F") (-31) (mkPos 1 4);
     mkToken tAnn (str "b") 0 (mkPos 1 18); mkToken tEOF [] 0 (mkPos 1 20)].
Proof. apply (lex_exact (str "a<=-0x1F /* * */ @b")); [done|]. vm_compute. reflexivity. Defined.
