(* ===== verification/IdlParse.v ===== *)
(** * IdlParse: the parser of the interface language

    Models parse.go of bindgen/idl: the raw syntax tree and the recursive
    descent over the tokens. A syntax error, a panic in the code, ends the
    parse; violations the grammar can see are added to the diagnostics. *)
From S2P Require Import Prelude IdlTypes IdlModel IdlLex.

(** ** The raw syntax tree *)

Record rawIntRef := mkIntRef { ir_pos : Pos; ir_isName : bool; ir_name : bytes; ir_val : Z }.

Record rawType := mkRawType {
  rt_pos : Pos; rt_elem : bytes; rt_named : bool; rt_hasArr : bool;
  rt_arrLen : option rawIntRef; rt_bound : option rawIntRef; rt_boundPos : Pos
}.

Inductive argKind := aInt | aStr | aRet | aIdent.

#[export] Instance argKind_eq_dec : EqDecision argKind.
Proof. solve_decision. Defined.

Inductive rawArg := mkArg (ag_pos : Pos) (ag_kind : argKind) (ag_val : Z) (ag_text : bytes) (ag_hasParens : bool) (ag_args : list rawArg).

Definition ag_pos (a : rawArg) : Pos := match a with mkArg p _ _ _ _ _ => p end.
Definition ag_kind (a : rawArg) : argKind := match a with mkArg _ k _ _ _ _ => k end.
Definition ag_val (a : rawArg) : Z := match a with mkArg _ _ v _ _ _ => v end.
Definition ag_text (a : rawArg) : bytes := match a with mkArg _ _ _ t _ _ => t end.
Definition ag_hasParens (a : rawArg) : bool := match a with mkArg _ _ _ _ h _ => h end.
Definition ag_args (a : rawArg) : list rawArg := match a with mkArg _ _ _ _ _ l => l end.

Record rawAnn := mkAnn { an_pos : Pos; an_name : bytes; an_hasParens : bool; an_args : list rawArg }.
Record rawName := mkName { n_pos : Pos; n_text : bytes }.

Record rawConst := mkRawConst { rc_pos : Pos; rc_name : rawName; rc_typ : bytes; rc_val : Z; rc_vpos : Pos; rc_tpos : Pos }.
Record rawHandle := mkRawHandle { rh_pos : Pos; rh_anns : list rawAnn; rh_name : rawName; rh_ownedBy : option rawName; rh_destroy : rawName }.
Record rawMember := mkRawMember { rm_pos : Pos; rm_name : rawName; rm_typ : rawType }.
Record rawStruct := mkRawStruct { rs_pos : Pos; rs_anns : list rawAnn; rs_name : rawName; rs_members : list rawMember }.
Record rawCase := mkRawCase { rk_pos : Pos; rk_tag : Z; rk_tpos : Pos; rk_name : rawName; rk_typ : option rawType }.
Record rawUnion := mkRawUnion { ru_pos : Pos; ru_anns : list rawAnn; ru_name : rawName; ru_cases : list rawCase }.
Record rawParam := mkRawParam { rp_pos : Pos; rp_dir : Dir; rp_name : rawName; rp_typ : rawType; rp_anns : list rawAnn }.
Record rawFunc := mkRawFunc {
  rf_pos : Pos; rf_anns : list rawAnn; rf_shim : bool; rf_name : rawName; rf_params : list rawParam;
  rf_ret : option rawType; rf_retAnns : list rawAnn; rf_retPos : Pos
}.
Record rawInclude := mkRawInclude { ri_pos : Pos; ri_text : bytes }.

Record rawFile := mkRawFile {
  f_idlVersion : Z; f_idlPos : Pos; f_serviceAnns : list rawAnn; f_service : rawName; f_servicePos : Pos;
  f_includes : list rawInclude; f_consts : list rawConst; f_handles : list rawHandle;
  f_structs : list rawStruct; f_unions : list rawUnion; f_funcs : list rawFunc
}.

Definition no_pos : Pos := mkPos 0 0.

(** ** Diagnostics *)

(** A violated rule and where; the texts are left out. *)
Record Diagnostic := mkDiag { dg_pos : Pos; dg_rule : bytes }.

(** ** The parser *)

Record pstate := mkState { ps_toks : list token; ps_sink : list Diagnostic }.

(** A syntax error leaves the violations reported before it in the sink. *)
Definition P (A : Type) : Type := pstate -> result (syntaxError * list Diagnostic) (A * pstate).

#[export] Instance P_ret : MRet P := fun A x s => Ok (x, s).
#[export] Instance P_bind : MBind P := fun A B f c s =>
  match c s with Ok (x, s') => f x s' | Err e => Err e end.

Definition eof_token : token := mkToken tEOF [] 0 no_pos.

Definition cur (s : pstate) : token := hd eof_token (ps_toks s).

Definition current : P token := fun s => Ok (cur s, s).

Definition fail {A} (pos : Pos) (m : syntaxMsg) : P A := fun s => Err (mkSyntax pos m, ps_sink s).

(** [advance] stays at the end of the file. *)
Definition step : P token := fun s =>
  let t := cur s in
  Ok (t, match t_kind t with tEOF => s | _ => mkState (tl (ps_toks s)) (ps_sink s) end).

Definition report (pos : Pos) (rule : bytes) : P unit := fun s => Ok (tt, mkState (ps_toks s) (ps_sink s ++ [mkDiag pos rule])).

Definition is_tok (k : tokKind) (x : bytes) (t : token) : bool := bool_decide (t_kind t = k) && bool_decide (t_text t = x).

Definition isPunct (x : bytes) : P bool := t ← current; mret (is_tok tPunct x t).
Definition isKw (x : bytes) : P bool := t ← current; mret (is_tok tKw x t).

Definition expectPunct (x : bytes) : P token :=
  t ← current; if is_tok tPunct x t then step else fail (t_pos t) (Expected x).
Definition expectKw (x : bytes) : P token :=
  t ← current; if is_tok tKw x t then step else fail (t_pos t) (Expected x).

Definition expectIdent (what : bytes) : P rawName :=
  t ← current;
  if bool_decide (t_kind t = tIdent) then _ ← step; mret (mkName (t_pos t) (t_text t)) else fail (t_pos t) (Expected what).

Definition expectDeclName (what : bytes) : P rawName :=
  t ← current;
  if bool_decide (t_kind t = tKw) then _ ← report (t_pos t) (str "V1"); _ ← step; mret (mkName (t_pos t) (t_text t))
  else expectIdent what.

Definition expectInt (what : bytes) : P token :=
  t ← current; if bool_decide (t_kind t = tInt) then step else fail (t_pos t) (Expected what).
Definition expectString (what : bytes) : P token :=
  t ← current; if bool_decide (t_kind t = tStr) then step else fail (t_pos t) (Expected what).

(** *** Annotations *)

Definition maxAnnDepth : Z := 8.

(** [annArg]; [args] parses the arguments of an argument. *)
Definition annArg (args : P (list rawArg)) : P rawArg :=
  t ← current;
  match t_kind t with
  | tInt => _ ← step; mret (mkArg (t_pos t) aInt (t_val t) [] false [])
  | tStr => _ ← step; mret (mkArg (t_pos t) aStr 0 (t_text t) false [])
  | tIdent =>
      _ ← step;
      b ← isPunct (str "(");
      if (b : bool) then l ← args; mret (mkArg (t_pos t) aIdent 0 (t_text t) true l)
      else mret (mkArg (t_pos t) aIdent 0 (t_text t) false [])
  | _ =>
      if is_tok tKw (str "ret") t then _ ← step; mret (mkArg (t_pos t) aRet 0 (str "ret") false [])
      else fail (t_pos t) (Expected (str "annotation argument"))
  end.

(** One or more items with commas between them. *)
Fixpoint commas {A} (fuel : nat) (item : P A) : P (list A) :=
  match fuel with
  | O => fail no_pos OutOfFuel
  | S fuel =>
      a ← item;
      b ← isPunct (str ",");
      if (b : bool) then _ ← step; l ← commas fuel item; mret (a :: l) else mret [a]
  end.

(** [annArgs], called at [depth]; [n] bounds the calls inside each other. *)
Fixpoint annArgs (n : nat) (depth : Z) : P (list rawArg) :=
  match n with
  | O => fail no_pos OutOfFuel
  | S n => fun s =>
      (let depth := depth + 1 in
       if maxAnnDepth <? depth then t ← current; fail (t_pos t) NestedTooDeep
       else
         _ ← expectPunct (str "(");
         b ← isPunct (str ")");
         l ← if (b : bool) then mret [] else commas (S (length (ps_toks s))) (annArg (annArgs n depth));
         _ ← expectPunct (str ")");
         mret l) s
  end.

Definition annotation : P rawAnn :=
  t ← step;
  b ← isPunct (str "(");
  if (b : bool) then l ← annArgs 9 0; mret (mkAnn (t_pos t) (t_text t) true l)
  else mret (mkAnn (t_pos t) (t_text t) false []).

Fixpoint annotations_loop (fuel : nat) : P (list rawAnn) :=
  match fuel with
  | O => fail no_pos OutOfFuel
  | S fuel =>
      t ← current;
      if bool_decide (t_kind t = tAnn) then a ← annotation; l ← annotations_loop fuel; mret (a :: l) else mret []
  end.

Definition annotations : P (list rawAnn) := fun s => annotations_loop (S (length (ps_toks s))) s.

(** *** Types *)

Definition intTypeNames : list bytes :=
  [str "i8"; str "i16"; str "i32"; str "i64"; str "u8"; str "u16"; str "u32"; str "u64"; str "size"].

Definition typeNames : list bytes := intTypeNames ++ [str "bool"; str "f32"; str "f64"; str "str"; str "bytes"].

Definition intRef : P rawIntRef :=
  t ← current;
  match t_kind t with
  | tInt => _ ← step; mret (mkIntRef (t_pos t) false [] (t_val t))
  | tIdent => _ ← step; mret (mkIntRef (t_pos t) true (t_text t) 0)
  | _ => fail (t_pos t) (Expected (str "integer or const name"))
  end.

(** The element, the array part and the bound of a type. *)
Definition typ_elem : P (Pos * bytes * bool) :=
  t ← current;
  if bool_decide (t_kind t = tKw) && bool_decide (t_text t ∈ typeNames) then _ ← step; mret (t_pos t, t_text t, false)
  else if bool_decide (t_kind t = tIdent) then _ ← step; mret (t_pos t, t_text t, true)
  else fail (t_pos t) (Expected (str "type")).

Definition typ_array : P (bool * option rawIntRef) :=
  b ← isPunct (str "[");
  if (b : bool) then
    _ ← step;
    c ← isPunct (str "]");
    r ← if (c : bool) then mret None else (r ← intRef; mret (Some r));
    _ ← expectPunct (str "]");
    mret (true, r)
  else mret (false, None).

Definition typ_bound : P (Pos * option rawIntRef) :=
  b ← isPunct (str "<=");
  if (b : bool) then t ← step; r ← intRef; mret (t_pos t, Some r) else mret (no_pos, None).

Definition typ : P rawType :=
  '(pos, elem, named) ← typ_elem;
  '(arr, len) ← typ_array;
  '(bpos, bound) ← typ_bound;
  mret (mkRawType pos elem named arr len bound bpos).

(** *** Declarations *)

Definition constDecl : P rawConst :=
  t ← step;
  name ← expectDeclName (str "const name");
  _ ← expectPunct (str ":");
  tt ← current;
  if negb (bool_decide (t_kind tt = tKw)) || negb (bool_decide (t_text tt ∈ intTypeNames)) then fail (t_pos tt) (Expected (str "integer type"))
  else
    _ ← step;
    _ ← expectPunct (str "=");
    v ← expectInt (str "const value");
    _ ← expectPunct (str ";");
    mret (mkRawConst (t_pos t) name (t_text tt) (t_val v) (t_pos v) (t_pos tt)).

Definition handleDecl (anns : list rawAnn) : P rawHandle :=
  t ← step;
  name ← expectDeclName (str "handle name");
  b ← isKw (str "owned_by");
  owner ← if (b : bool) then (_ ← step; n ← expectIdent (str "parent handle name"); mret (Some n)) else mret None;
  _ ← expectKw (str "destroy");
  destroy ← expectIdent (str "destroy function name");
  _ ← expectPunct (str ";");
  mret (mkRawHandle (t_pos t) anns name owner destroy).

Definition member : P rawMember :=
  t ← current;
  name ← expectDeclName (str "field name");
  _ ← expectPunct (str ":");
  ty ← typ;
  _ ← expectPunct (str ";");
  mret (mkRawMember (t_pos t) name ty).

Definition union_member : P rawCase :=
  t ← current;
  _ ← expectKw (str "case");
  tag ← expectInt (str "case number");
  name ← expectDeclName (str "case name");
  b ← isPunct (str ":");
  ty ← if (b : bool) then (_ ← step; ty ← typ; mret (Some ty)) else mret None;
  _ ← expectPunct (str ";");
  mret (mkRawCase (t_pos t) (t_val tag) (t_pos tag) name ty).

(** The members up to the closing brace, which is not consumed. *)
Fixpoint until_brace {A} (fuel : nat) (decl : bytes) (item : P A) : P (list A) :=
  match fuel with
  | O => fail no_pos OutOfFuel
  | S fuel =>
      b ← isPunct (str "}");
      if (b : bool) then mret []
      else t ← current;
           if bool_decide (t_kind t = tEOF) then fail (t_pos t) (UnterminatedDecl decl)
           else a ← item; l ← until_brace fuel decl item; mret (a :: l)
  end.

Definition structDecl (anns : list rawAnn) : P rawStruct :=
  t ← step;
  name ← expectDeclName (str "struct name");
  _ ← expectPunct (str "{");
  ms ← (fun s => until_brace (S (length (ps_toks s))) (n_text name) member s);
  _ ← step;
  _ ← (if (length ms =? 0)%nat then report (n_pos name) (str "V5") else mret tt);
  mret (mkRawStruct (t_pos t) anns name ms).

Definition unionDecl (anns : list rawAnn) : P rawUnion :=
  t ← step;
  name ← expectDeclName (str "union name");
  _ ← expectPunct (str "{");
  cs ← (fun s => until_brace (S (length (ps_toks s))) (n_text name) union_member s);
  _ ← step;
  _ ← (if (length cs =? 0)%nat then report (n_pos name) (str "V5") else mret tt);
  mret (mkRawUnion (t_pos t) anns name cs).

Definition dir : P Dir :=
  t ← current;
  if is_tok tKw (str "in") t then _ ← step; mret DirIn
  else if is_tok tKw (str "out") t then _ ← step; mret DirOut
  else if is_tok tKw (str "inout") t then _ ← step; mret DirInOut
  else mret DirIn.

Definition param : P rawParam :=
  t ← current;
  d ← dir;
  name ← expectDeclName (str "parameter name");
  _ ← expectPunct (str ":");
  ty ← typ;
  anns ← annotations;
  mret (mkRawParam (t_pos t) d name ty anns).

Definition fnDecl (anns : list rawAnn) : P rawFunc :=
  t ← current;
  shim ← isKw (str "shim");
  _ ← (if (shim : bool) then step else current);
  _ ← expectKw (str "fn");
  name ← expectDeclName (str "function name");
  _ ← expectPunct (str "(");
  b ← isPunct (str ")");
  params ← if (b : bool) then mret [] else (fun s => commas (S (length (ps_toks s))) param s);
  _ ← expectPunct (str ")");
  arrow ← isPunct (str "->");
  '(ret, retAnns, retPos) ←
    if (arrow : bool) then (_ ← step; rt ← current; ty ← typ; l ← annotations; mret (Some ty, l, t_pos rt)) else mret (None, [], no_pos);
  _ ← expectPunct (str ";");
  mret (mkRawFunc (t_pos t) anns shim name params ret retAnns retPos).

Definition add_include (i : rawInclude) (f : rawFile) : rawFile :=
  mkRawFile (f_idlVersion f) (f_idlPos f) (f_serviceAnns f) (f_service f) (f_servicePos f) (f_includes f ++ [i]) (f_consts f) (f_handles f) (f_structs f) (f_unions f) (f_funcs f).
Definition add_const (c : rawConst) (f : rawFile) : rawFile :=
  mkRawFile (f_idlVersion f) (f_idlPos f) (f_serviceAnns f) (f_service f) (f_servicePos f) (f_includes f) (f_consts f ++ [c]) (f_handles f) (f_structs f) (f_unions f) (f_funcs f).
Definition add_handle (h : rawHandle) (f : rawFile) : rawFile :=
  mkRawFile (f_idlVersion f) (f_idlPos f) (f_serviceAnns f) (f_service f) (f_servicePos f) (f_includes f) (f_consts f) (f_handles f ++ [h]) (f_structs f) (f_unions f) (f_funcs f).
Definition add_struct (s : rawStruct) (f : rawFile) : rawFile :=
  mkRawFile (f_idlVersion f) (f_idlPos f) (f_serviceAnns f) (f_service f) (f_servicePos f) (f_includes f) (f_consts f) (f_handles f) (f_structs f ++ [s]) (f_unions f) (f_funcs f).
Definition add_union (u : rawUnion) (f : rawFile) : rawFile :=
  mkRawFile (f_idlVersion f) (f_idlPos f) (f_serviceAnns f) (f_service f) (f_servicePos f) (f_includes f) (f_consts f) (f_handles f) (f_structs f) (f_unions f ++ [u]) (f_funcs f).
Definition add_func (g : rawFunc) (f : rawFile) : rawFile :=
  mkRawFile (f_idlVersion f) (f_idlPos f) (f_serviceAnns f) (f_service f) (f_servicePos f) (f_includes f) (f_consts f) (f_handles f) (f_structs f) (f_unions f) (f_funcs f ++ [g]).

Definition includeDecl : P rawInclude :=
  _ ← step;
  s ← expectString (str "include path");
  _ ← expectPunct (str ";");
  mret (mkRawInclude (t_pos s) (t_text s)).

(** The declarations that may carry annotations, and a second service. *)
Definition annDecl (f : rawFile) (anns : list rawAnn) : P rawFile :=
  t ← current;
  if is_tok tKw (str "service") t then
    _ ← report (t_pos t) (str "V3"); _ ← step; _ ← expectDeclName (str "service name"); _ ← expectPunct (str ";"); mret f
  else if negb (bool_decide (t_kind t = tKw)) then fail (t_pos t) ExpectedDeclaration
  else if bool_decide (t_text t = str "handle") then h ← handleDecl anns; mret (add_handle h f)
  else if bool_decide (t_text t = str "struct") then s ← structDecl anns; mret (add_struct s f)
  else if bool_decide (t_text t = str "union") then u ← unionDecl anns; mret (add_union u f)
  else if bool_decide (t_text t = str "fn") || bool_decide (t_text t = str "shim") then g ← fnDecl anns; mret (add_func g f)
  else match anns with
       | a :: _ => fail (an_pos a) StrayAnnotations
       | [] => fail (t_pos t) ExpectedDeclaration
       end.

Definition decl (f : rawFile) : P rawFile :=
  t ← current;
  if is_tok tKw (str "include") t then i ← includeDecl; mret (add_include i f)
  else if is_tok tKw (str "const") t then c ← constDecl; mret (add_const c f)
  else anns ← annotations; annDecl f anns.

Fixpoint decls_loop (fuel : nat) (f : rawFile) : P rawFile :=
  match fuel with
  | O => fail no_pos OutOfFuel
  | S fuel => t ← current; if bool_decide (t_kind t = tEOF) then mret f else f ← decl f; decls_loop fuel f
  end.

Definition all_decls (f : rawFile) : P rawFile := fun s => decls_loop (S (length (ps_toks s))) f s.

Definition file0 : P rawFile :=
  _ ← expectKw (str "idl");
  v ← expectInt (str "IDL version");
  _ ← expectPunct (str ";");
  anns ← annotations;
  sv ← expectKw (str "service");
  name ← expectDeclName (str "service name");
  _ ← expectPunct (str ";");
  all_decls (mkRawFile (t_val v) (t_pos v) anns name (t_pos sv) [] [] [] [] [] []).

Definition parseFile (toks : list token) : result (syntaxError * list Diagnostic) (rawFile * list Diagnostic) :=
  let! r := file0 (mkState toks []) in Ok (r.1, ps_sink r.2).

Example parse_sample :
  match lex (str "idl 1; service s; const N: u8 = 4; struct p { a: u8[N]; b: str<=9; } @allow(wire) fn f(out x: p, n: u32 @len_of(x)) -> i32;") with
  | Ok toks => match parseFile toks with
               | Ok (f, sink) => sink = [] /\ map (fun s => map rm_typ (rs_members s)) (f_structs f) =
                   [[mkRawType (mkPos 1 50) (str "u8") false true (Some (mkIntRef (mkPos 1 53) true (str "N") 0)) None no_pos;
                     mkRawType (mkPos 1 60) (str "str") false false None (Some (mkIntRef (mkPos 1 65) false [] 9)) (mkPos 1 63)]] /\
                   map (fun g => (rf_shim g, map rp_dir (rf_params g))) (f_funcs f) = [(false, [DirOut; DirIn])]
               | Err _ => False
               end
  | Err _ => False
  end.
Proof. vm_compute. done. Qed.

(** ** The grammar *)

(** A phrase: its tokens, the tree it stands for, and the violations reported
    in it. *)
Definition phrase (A : Type) : Type := list token -> A -> list Diagnostic -> Prop.

Definition tok (k : tokKind) (x : bytes) (t : token) : Prop := t_kind t = k /\ t_text t = x.
Definition pun (x : bytes) : token -> Prop := tok tPunct x.
Definition kw (x : bytes) : token -> Prop := tok tKw x.

(** Zero or more phrases; one or more with commas between them. *)
Inductive many {A} (g : phrase A) : phrase (list A) :=
| many_nil : many g [] [] []
| many_cons ts a ds ts' l ds' : g ts a ds -> many g ts' l ds' -> many g (ts ++ ts') (a :: l) (ds ++ ds').

Inductive comma_list {A} (g : phrase A) : phrase (list A) :=
| cl_one ts a ds : g ts a ds -> comma_list g ts [a] ds
| cl_cons ts a ds c ts' l ds' :
    g ts a ds -> pun (str ",") c -> comma_list g ts' l ds' -> comma_list g (ts ++ c :: ts') (a :: l) (ds ++ ds').

(** The name of a declaration: an identifier; a keyword is accepted and reported. *)
Inductive g_name : phrase rawName :=
| gn_ident t : t_kind t = tIdent -> g_name [t] (mkName (t_pos t) (t_text t)) []
| gn_kw t : t_kind t = tKw -> g_name [t] (mkName (t_pos t) (t_text t)) [mkDiag (t_pos t) (str "V1")].

Inductive g_arg (args : phrase (list rawArg)) : phrase rawArg :=
| ga_int t : t_kind t = tInt -> g_arg args [t] (mkArg (t_pos t) aInt (t_val t) [] false []) []
| ga_str t : t_kind t = tStr -> g_arg args [t] (mkArg (t_pos t) aStr 0 (t_text t) false []) []
| ga_ret t : kw (str "ret") t -> g_arg args [t] (mkArg (t_pos t) aRet 0 (str "ret") false []) []
| ga_ident t : t_kind t = tIdent -> g_arg args [t] (mkArg (t_pos t) aIdent 0 (t_text t) false []) []
| ga_call t ts l ds : t_kind t = tIdent -> args ts l ds -> g_arg args (t :: ts) (mkArg (t_pos t) aIdent 0 (t_text t) true l) ds.

(** Arguments in parentheses, nested at most [d] deep. *)
Inductive g_parens (arg : phrase rawArg) : phrase (list rawArg) :=
| gp_none lp rp : pun (str "(") lp -> pun (str ")") rp -> g_parens arg [lp; rp] [] []
| gp_some lp ts l ds rp : pun (str "(") lp -> comma_list arg ts l ds -> pun (str ")") rp -> g_parens arg (lp :: ts ++ [rp]) l ds.

Fixpoint g_args (d : nat) : phrase (list rawArg) :=
  match d with O => fun _ _ _ => False | S d => g_parens (g_arg (g_args d)) end.

Inductive g_ann : phrase rawAnn :=
| gan_plain t : t_kind t = tAnn -> g_ann [t] (mkAnn (t_pos t) (t_text t) false []) []
| gan_args t ts l ds : t_kind t = tAnn -> g_args 8 ts l ds -> g_ann (t :: ts) (mkAnn (t_pos t) (t_text t) true l) ds.

Inductive g_intref : token -> rawIntRef -> Prop :=
| gi_int t : t_kind t = tInt -> g_intref t (mkIntRef (t_pos t) false [] (t_val t))
| gi_name t : t_kind t = tIdent -> g_intref t (mkIntRef (t_pos t) true (t_text t) 0).

Inductive g_elem : token -> Pos * bytes * bool -> Prop :=
| ge_kw t : t_kind t = tKw -> t_text t ∈ typeNames -> g_elem t (t_pos t, t_text t, false)
| ge_name t : t_kind t = tIdent -> g_elem t (t_pos t, t_text t, true).

Inductive g_array : list token -> bool * option rawIntRef -> Prop :=
| gr_none : g_array [] (false, None)
| gr_open lb rb : pun (str "[") lb -> pun (str "]") rb -> g_array [lb; rb] (true, None)
| gr_len lb t r rb : pun (str "[") lb -> g_intref t r -> pun (str "]") rb -> g_array [lb; t; rb] (true, Some r).

Inductive g_bound : list token -> Pos * option rawIntRef -> Prop :=
| gb_none : g_bound [] (no_pos, None)
| gb_some le t r : pun (str "<=") le -> g_intref t r -> g_bound [le; t] (t_pos le, Some r).

Inductive g_type : phrase rawType :=
| gt_type t pos elem named ts arr len ts' bpos bound :
    g_elem t (pos, elem, named) -> g_array ts (arr, len) -> g_bound ts' (bpos, bound) ->
    g_type (t :: ts ++ ts') (mkRawType pos elem named arr len bound bpos) [].

Inductive g_member : phrase rawMember :=
| gm_member ts name ds c ts' ty ds' sc :
    g_name ts name ds -> pun (str ":") c -> g_type ts' ty ds' -> pun (str ";") sc ->
    g_member (ts ++ c :: ts' ++ [sc]) (mkRawMember (n_pos name) name ty) (ds ++ ds').

Inductive g_case : phrase rawCase :=
| gc_plain kc tag ts name ds sc :
    kw (str "case") kc -> t_kind tag = tInt -> g_name ts name ds -> pun (str ";") sc ->
    g_case (kc :: tag :: ts ++ [sc]) (mkRawCase (t_pos kc) (t_val tag) (t_pos tag) name None) ds
| gc_payload kc tag ts name ds c ts' ty ds' sc :
    kw (str "case") kc -> t_kind tag = tInt -> g_name ts name ds -> pun (str ":") c -> g_type ts' ty ds' -> pun (str ";") sc ->
    g_case (kc :: tag :: ts ++ c :: ts' ++ [sc]) (mkRawCase (t_pos kc) (t_val tag) (t_pos tag) name (Some ty)) (ds ++ ds').

Inductive g_dir : list token -> Dir -> Prop :=
| gd_none : g_dir [] DirIn
| gd_in t : kw (str "in") t -> g_dir [t] DirIn
| gd_out t : kw (str "out") t -> g_dir [t] DirOut
| gd_inout t : kw (str "inout") t -> g_dir [t] DirInOut.

Inductive g_param : phrase rawParam :=
| gp_param ts0 d ts name ds c ts' ty ds' ts'' anns ds'' :
    g_dir ts0 d -> g_name ts name ds -> pun (str ":") c -> g_type ts' ty ds' -> many g_ann ts'' anns ds'' ->
    (ts0 = [] -> forall t, head ts = Some t -> ~ (exists x, kw x t /\ x ∈ [str "in"; str "out"; str "inout"])) ->
    g_param (ts0 ++ ts ++ c :: ts' ++ ts'')
      (mkRawParam (match ts0 with t :: _ => t_pos t | [] => n_pos name end) d name ty anns) (ds ++ ds' ++ ds'').

Inductive g_params : phrase (list rawParam) :=
| gps_none : g_params [] [] []
| gps_some ts l ds : comma_list g_param ts l ds -> g_params ts l ds.

Inductive g_ret : phrase (option rawType * list rawAnn * Pos) :=
| gret_none : g_ret [] (None, [], no_pos) []
| gret_some ar ts ty ds ts' anns ds' :
    pun (str "->") ar -> g_type ts ty ds -> many g_ann ts' anns ds' -> g_ret (ar :: ts ++ ts') (Some ty, anns, rt_pos ty) (ds ++ ds').

Inductive g_fn : list rawAnn -> phrase rawFunc :=
| gf_fn anns (shim : option token) kf ts name ds lp ts' params ds' rp ts'' ret retAnns retPos ds'' sc :
    match shim with Some t => kw (str "shim") t | None => True end -> kw (str "fn") kf -> g_name ts name ds ->
    pun (str "(") lp -> g_params ts' params ds' -> pun (str ")") rp -> g_ret ts'' (ret, retAnns, retPos) ds'' -> pun (str ";") sc ->
    g_fn anns (match shim with Some t => [t] | None => [] end ++ kf :: ts ++ lp :: ts' ++ rp :: ts'' ++ [sc])
      (mkRawFunc (match shim with Some t => t_pos t | None => t_pos kf end) anns (match shim with Some _ => true | None => false end)
         name params ret retAnns retPos) (ds ++ ds' ++ ds'').

(** An empty struct or union is reported. *)
Definition nonempty {A} (l : list A) (p : Pos) : list Diagnostic := match l with [] => [mkDiag p (str "V5")] | _ => [] end.

Inductive g_braces {A} (key : bytes) (item : phrase A) : phrase (Pos * rawName * list A) :=
| gbr k ts name ds lb ts' l ds' rb :
    kw key k -> g_name ts name ds -> pun (str "{") lb -> many item ts' l ds' -> pun (str "}") rb ->
    g_braces key item (k :: ts ++ lb :: ts' ++ [rb]) (t_pos k, name, l) (ds ++ ds' ++ nonempty l (n_pos name)).

Inductive g_handle : list rawAnn -> phrase rawHandle :=
| gh_plain anns k ts name ds kd d sc :
    kw (str "handle") k -> g_name ts name ds -> kw (str "destroy") kd -> t_kind d = tIdent -> pun (str ";") sc ->
    g_handle anns (k :: ts ++ [kd; d; sc]) (mkRawHandle (t_pos k) anns name None (mkName (t_pos d) (t_text d))) ds
| gh_owned anns k ts name ds ko o kd d sc :
    kw (str "handle") k -> g_name ts name ds -> kw (str "owned_by") ko -> t_kind o = tIdent ->
    kw (str "destroy") kd -> t_kind d = tIdent -> pun (str ";") sc ->
    g_handle anns (k :: ts ++ [ko; o; kd; d; sc])
      (mkRawHandle (t_pos k) anns name (Some (mkName (t_pos o) (t_text o))) (mkName (t_pos d) (t_text d))) ds.

(** One declaration, and what it does to the file. *)
Inductive g_decl (f : rawFile) : phrase rawFile :=
| gdc_include k s sc : kw (str "include") k -> t_kind s = tStr -> pun (str ";") sc ->
    g_decl f [k; s; sc] (add_include (mkRawInclude (t_pos s) (t_text s)) f) []
| gdc_const k ts name ds c ty eq v sc :
    kw (str "const") k -> g_name ts name ds -> pun (str ":") c -> t_kind ty = tKw -> t_text ty ∈ intTypeNames ->
    pun (str "=") eq -> t_kind v = tInt -> pun (str ";") sc ->
    g_decl f (k :: ts ++ [c; ty; eq; v; sc]) (add_const (mkRawConst (t_pos k) name (t_text ty) (t_val v) (t_pos v) (t_pos ty)) f) ds
| gdc_service ts0 anns ds0 k ts name ds sc :
    many g_ann ts0 anns ds0 -> kw (str "service") k -> g_name ts name ds -> pun (str ";") sc ->
    g_decl f (ts0 ++ k :: ts ++ [sc]) f (ds0 ++ mkDiag (t_pos k) (str "V3") :: ds)
| gdc_handle ts0 anns ds0 ts h ds : many g_ann ts0 anns ds0 -> g_handle anns ts h ds -> g_decl f (ts0 ++ ts) (add_handle h f) (ds0 ++ ds)
| gdc_struct ts0 anns ds0 ts pos name ms ds :
    many g_ann ts0 anns ds0 -> g_braces (str "struct") g_member ts (pos, name, ms) ds ->
    g_decl f (ts0 ++ ts) (add_struct (mkRawStruct pos anns name ms) f) (ds0 ++ ds)
| gdc_union ts0 anns ds0 ts pos name cs ds :
    many g_ann ts0 anns ds0 -> g_braces (str "union") g_case ts (pos, name, cs) ds ->
    g_decl f (ts0 ++ ts) (add_union (mkRawUnion pos anns name cs) f) (ds0 ++ ds)
| gdc_fn ts0 anns ds0 ts g ds : many g_ann ts0 anns ds0 -> g_fn anns ts g ds -> g_decl f (ts0 ++ ts) (add_func g f) (ds0 ++ ds).

Inductive g_decls : rawFile -> phrase rawFile :=
| gds_nil f : g_decls f [] f []
| gds_cons f ts f' ds ts' f'' ds' : g_decl f ts f' ds -> g_decls f' ts' f'' ds' -> g_decls f (ts ++ ts') f'' (ds ++ ds').

Inductive g_file : phrase rawFile :=
| gfl ki v s1 ts anns ds0 ks ts' name ds s2 ts'' f ds' :
    kw (str "idl") ki -> t_kind v = tInt -> pun (str ";") s1 -> many g_ann ts anns ds0 -> kw (str "service") ks ->
    g_name ts' name ds -> pun (str ";") s2 ->
    g_decls (mkRawFile (t_val v) (t_pos v) anns name (t_pos ks) [] [] [] [] [] []) ts'' f ds' ->
    g_file (ki :: v :: s1 :: ts ++ ks :: ts' ++ s2 :: ts'') f (ds0 ++ ds ++ ds').

(** ** What the parser accepts is a phrase *)

Definition wp {A} (p : P A) (s : pstate) (Q : A -> pstate -> Prop) : Prop :=
  match p s with Ok (a, s') => Q a s' | Err e => se_msg e.1 <> OutOfFuel end.

(** From [s] to [s'] the tokens [ts] were read and the violations [ds] reported. *)
Definition reads (s : pstate) (ts : list token) (ds : list Diagnostic) (s' : pstate) : Prop :=
  ps_toks s = ts ++ ps_toks s' /\ ps_sink s' = ps_sink s ++ ds /\ Forall (fun t => t_kind t <> tEOF) ts.

Definition reads_phrase {A} (g : phrase A) (s : pstate) (a : A) (s' : pstate) : Prop := exists ts ds, reads s ts ds s' /\ g ts a ds.

Lemma wp_ret {A} (a : A) s (Q : A -> pstate -> Prop) : Q a s -> wp (mret a) s Q.
Proof. done. Qed.

Lemma wp_bind {A B} (p : P A) (f : A -> P B) s (R : A -> pstate -> Prop) (Q : B -> pstate -> Prop) :
  wp p s R -> (forall a s', R a s' -> wp (f a) s' Q) -> wp (p ≫= f) s Q.
Proof. unfold wp, mbind, P_bind. intros Hp Hf. destruct (p s) as [[a s']|e]; [|done]. by apply Hf. Qed.

Lemma wp_mono {A} (p : P A) s (R Q : A -> pstate -> Prop) : wp p s R -> (forall a s', R a s' -> Q a s') -> wp p s Q.
Proof. unfold wp. intros Hp HQ. destruct (p s) as [[a s']|e]; [|done]. by apply HQ. Qed.

Lemma wp_fail {A} pos m s (Q : A -> pstate -> Prop) : m <> OutOfFuel -> wp (fail pos m) s Q.
Proof. done. Qed.

Lemma reads_nil s : reads s [] [] s.
Proof. repeat split; [by rewrite app_nil_r|constructor]. Qed.

Lemma reads_trans s ts ds s' ts' ds' s'' : reads s ts ds s' -> reads s' ts' ds' s'' -> reads s (ts ++ ts') (ds ++ ds') s''.
Proof.
  intros (E1 & E2 & F1) (E3 & E4 & F2). repeat split; [by rewrite E1, E3, app_assoc|by rewrite E4, E2, app_assoc|by apply Forall_app].
Qed.

Lemma reads_shorter s ts ds s' : reads s ts ds s' -> length (ps_toks s) = (length ts + length (ps_toks s'))%nat.
Proof. intros [-> _]. by rewrite length_app. Qed.

Lemma is_tok_true k x t : is_tok k x t = true -> tok k x t.
Proof. unfold is_tok. intros [H1%bool_decide_eq_true H2%bool_decide_eq_true]%andb_true_iff. done. Qed.

Lemma is_tok_iff k x t : tok k x t -> is_tok k x t = true.
Proof. intros [<- <-]. unfold is_tok. by rewrite !bool_decide_eq_true_2. Qed.

(** *** Looking at tokens and taking them *)

Lemma wp_look {B} (f : token -> P B) s (Q : B -> pstate -> Prop) : wp (f (cur s)) s Q -> wp (current ≫= f) s Q.
Proof. done. Qed.

(** The current token, when it is not the end, is the next one read. *)
Lemma wp_step s (Q : token -> pstate -> Prop) :
  t_kind (cur s) <> tEOF -> (forall s', reads s [cur s] [] s' -> Q (cur s) s') -> wp step s Q.
Proof.
  intros Hk HQ. unfold wp, step. destruct s as [[|t r] d]; [done|]. cbn [cur ps_toks hd] in *.
  assert (E : forall A (a b : A), match t_kind t with tEOF => a | _ => b end = b) by (intros; by destruct (t_kind t)). rewrite E.
  apply HQ. repeat split; [by rewrite app_nil_r|by constructor].
Qed.

Lemma wp_take {B} (f : token -> P B) s (Q : B -> pstate -> Prop) :
  t_kind (cur s) <> tEOF -> (forall s', reads s [cur s] [] s' -> wp (f (cur s)) s' Q) -> wp (step ≫= f) s Q.
Proof.
  intros Hk HQ. eapply (wp_bind _ _ _ (fun t s' => t = cur s /\ reads s [cur s] [] s')); [by apply wp_step|].
  intros t s' [-> Hr]. by apply HQ.
Qed.

Lemma wp_report {B} pos rule (f : unit -> P B) s (Q : B -> pstate -> Prop) :
  (forall s', reads s [] [mkDiag pos rule] s' -> cur s' = cur s -> wp (f tt) s' Q) -> wp (report pos rule ≫= f) s Q.
Proof. intros HQ. by apply HQ. Qed.

Lemma wp_isPunct {B} x (f : bool -> P B) s (Q : B -> pstate -> Prop) :
  (forall b, (b = true -> pun x (cur s)) -> wp (f b) s Q) -> wp (isPunct x ≫= f) s Q.
Proof. intros HQ. apply HQ. intros H. by apply is_tok_true. Qed.

Lemma wp_isKw {B} x (f : bool -> P B) s (Q : B -> pstate -> Prop) :
  (forall b, (b = true -> kw x (cur s)) -> wp (f b) s Q) -> wp (isKw x ≫= f) s Q.
Proof. intros HQ. apply HQ. intros H. by apply is_tok_true. Qed.

Lemma tok_not_end k x t : k <> tEOF -> tok k x t -> t_kind t <> tEOF.
Proof. by intros Hk [-> _]. Qed.

Lemma wp_expect_tok (k : tokKind) x s : k <> tEOF ->
  wp (t ← current; if is_tok k x t then step else fail (t_pos t) (Expected x)) s (fun t s' => reads s [t] [] s' /\ tok k x t).
Proof.
  intros Hk. unfold wp, mbind, P_bind, current. destruct (is_tok k x (cur s)) eqn:E; [|done]. apply is_tok_true in E.
  apply (wp_step s (fun t s' => reads s [t] [] s' /\ tok k x t)); [destruct E; congruence|done].
Qed.

Lemma wp_expectPunct x s : wp (expectPunct x) s (fun t s' => reads s [t] [] s' /\ pun x t).
Proof. by apply wp_expect_tok. Qed.

Lemma wp_expectKw x s : wp (expectKw x) s (fun t s' => reads s [t] [] s' /\ kw x t).
Proof. by apply wp_expect_tok. Qed.

Lemma wp_expect_kind (k : tokKind) what s : k <> tEOF ->
  wp (t ← current; if bool_decide (t_kind t = k) then step else fail (t_pos t) (Expected what)) s (fun t s' => reads s [t] [] s' /\ t_kind t = k).
Proof.
  intros Hk. unfold wp, mbind, P_bind, current. destruct (bool_decide (t_kind (cur s) = k)) eqn:E; [|done].
  apply bool_decide_eq_true in E. apply (wp_step s (fun t s' => reads s [t] [] s' /\ t_kind t = k)); [congruence|done].
Qed.

Lemma wp_expectInt what s : wp (expectInt what) s (fun t s' => reads s [t] [] s' /\ t_kind t = tInt).
Proof. by apply wp_expect_kind. Qed.

Lemma wp_expectString what s : wp (expectString what) s (fun t s' => reads s [t] [] s' /\ t_kind t = tStr).
Proof. by apply wp_expect_kind. Qed.

Lemma wp_expectIdent what s :
  wp (expectIdent what) s (fun n s' => exists t, reads s [t] [] s' /\ t_kind t = tIdent /\ n = mkName (t_pos t) (t_text t)).
Proof.
  unfold expectIdent. apply wp_look. destruct (bool_decide (t_kind (cur s) = tIdent)) eqn:E; [|by apply wp_fail].
  apply bool_decide_eq_true in E. apply wp_take; [congruence|]. intros s' Hr. apply wp_ret. by exists (cur s).
Qed.

Lemma wp_name what s : wp (expectDeclName what) s (reads_phrase g_name s).
Proof.
  unfold expectDeclName. apply wp_look. destruct (bool_decide (t_kind (cur s) = tKw)) eqn:E.
  - apply bool_decide_eq_true in E. apply wp_report. intros s1 Hr Ec. rewrite <- Ec in *. apply wp_take; [congruence|].
    intros s2 Hr2. apply wp_ret. do 2 eexists. split; [exact (reads_trans _ _ _ _ _ _ _ Hr Hr2)|]. simpl. by constructor.
  - eapply wp_mono; [apply wp_expectIdent|]. intros n s' (t & Hr & Hk & ->). do 2 eexists. split; [exact Hr|by constructor].
Qed.

(** *** One lemma per routine *)

(** The reads in the context, put end to end. *)
Ltac read_all :=
  unfold reads in *;
  repeat match goal with H : _ /\ _ |- _ => destruct H end;
  split; [|split];
  [repeat match goal with E : ps_toks ?a = _ |- context [ps_toks ?a] => rewrite E; clear E end
  |repeat match goal with E : ps_sink ?a = _ |- context [ps_sink ?a] => rewrite E; clear E end
  |repeat match goal with H : Forall _ (_ :: _) |- _ => apply Forall_cons_iff in H as [? _] end;
   repeat first [rewrite Forall_app | rewrite Forall_cons_iff]; repeat split; auto using List.Forall_nil];
  simpl; repeat (rewrite <- ?app_assoc, ?app_nil_r; simpl); reflexivity.

Lemma wp_seq {A B} (p : P A) (f : A -> P B) s (g : phrase A) (Q : B -> pstate -> Prop) :
  wp p s (reads_phrase g s) -> (forall a s' ts ds, reads s ts ds s' -> g ts a ds -> wp (f a) s' Q) -> wp (p ≫= f) s Q.
Proof. intros Hp Hf. eapply wp_bind; [exact Hp|]. intros a s' (ts & ds & Hr & Hg). by eapply Hf. Qed.

Lemma wp_punct {B} x (f : token -> P B) s (Q : B -> pstate -> Prop) :
  (forall t s', reads s [t] [] s' -> pun x t -> wp (f t) s' Q) -> wp (expectPunct x ≫= f) s Q.
Proof. intros Hf. eapply wp_bind; [apply wp_expectPunct|]. intros t s' [Hr Ht]. by apply Hf. Qed.

Lemma wp_kw {B} x (f : token -> P B) s (Q : B -> pstate -> Prop) :
  (forall t s', reads s [t] [] s' -> kw x t -> wp (f t) s' Q) -> wp (expectKw x ≫= f) s Q.
Proof. intros Hf. eapply wp_bind; [apply wp_expectKw|]. intros t s' [Hr Ht]. by apply Hf. Qed.

Lemma wp_int {B} x (f : token -> P B) s (Q : B -> pstate -> Prop) :
  (forall t s', reads s [t] [] s' -> t_kind t = tInt -> wp (f t) s' Q) -> wp (expectInt x ≫= f) s Q.
Proof. intros Hf. eapply wp_bind; [apply wp_expectInt|]. intros t s' [Hr Ht]. by apply Hf. Qed.

Lemma wp_string {B} x (f : token -> P B) s (Q : B -> pstate -> Prop) :
  (forall t s', reads s [t] [] s' -> t_kind t = tStr -> wp (f t) s' Q) -> wp (expectString x ≫= f) s Q.
Proof. intros Hf. eapply wp_bind; [apply wp_expectString|]. intros t s' [Hr Ht]. by apply Hf. Qed.

Lemma wp_ident {B} x (f : rawName -> P B) s (Q : B -> pstate -> Prop) :
  (forall t s', reads s [t] [] s' -> t_kind t = tIdent -> wp (f (mkName (t_pos t) (t_text t))) s' Q) -> wp (expectIdent x ≫= f) s Q.
Proof. intros Hf. eapply wp_bind; [apply wp_expectIdent|]. intros n s' (t & Hr & Ht & ->). by apply Hf. Qed.

Lemma wp_assoc {A B C} (p : P A) (f : A -> P B) (g : B -> P C) s (Q : C -> pstate -> Prop) :
  wp (p ≫= fun a => f a ≫= g) s Q -> wp ((p ≫= f) ≫= g) s Q.
Proof. unfold wp, mbind, P_bind. by destruct (p s) as [[a s']|e]. Qed.

Lemma wp_ret_bind {A B} (a : A) (f : A -> P B) s (Q : B -> pstate -> Prop) : wp (f a) s Q -> wp (mret a ≫= f) s Q.
Proof. done. Qed.

(** One step of a routine: the rule its next action asks for. *)
Ltac wp_next :=
  cbv beta iota;
  match goal with
  | |- wp (mret _) _ _ => apply wp_ret
  | |- wp (fail _ _) _ _ => by apply wp_fail
  | |- wp ((_ ≫= _) ≫= _) _ _ => apply wp_assoc
  | |- wp (mret _ ≫= _) _ _ => apply wp_ret_bind
  | |- wp (current ≫= _) _ _ => apply wp_look
  | |- wp (step ≫= _) _ _ => apply wp_take; [|intros ? ?]
  | |- wp (expectPunct _ ≫= _) _ _ => apply wp_punct; intros ????
  | |- wp (expectKw _ ≫= _) _ _ => apply wp_kw; intros ????
  | |- wp (expectInt _ ≫= _) _ _ => apply wp_int; intros ????
  | |- wp (expectString _ ≫= _) _ _ => apply wp_string; intros ????
  | |- wp (expectIdent _ ≫= _) _ _ => apply wp_ident; intros ????
  | |- wp (expectDeclName _ ≫= _) _ _ => eapply wp_seq; [apply wp_name|intros ??????]
  | |- wp (isPunct _ ≫= _) _ _ => apply wp_isPunct; intros [] ?
  | |- wp (isKw _ ≫= _) _ _ => apply wp_isKw; intros [] ?
  | |- t_kind _ <> tEOF => first [congruence | by eapply tok_not_end; [|eauto]]
  | H : true = true -> _ |- _ => specialize (H eq_refl)
  end.

Ltac reads_len := repeat match goal with H : reads _ _ _ _ |- _ => apply reads_shorter in H end; simpl in *; lia.

(** The phrase of the constructor [c], of what was read. *)
Ltac phrase_of c := do 2 eexists; split; cycle 1; [eapply c; eauto|read_all].

Lemma wp_annArg args gargs s :
  (forall s, wp args s (reads_phrase gargs s)) -> wp (annArg args) s (reads_phrase (g_arg gargs) s).
Proof.
  intros Ha. unfold annArg. wp_next. destruct (t_kind (cur s)) eqn:Ek;
    try (destruct (is_tok tKw (str "ret") (cur s)) eqn:E; [apply is_tok_true in E; try (destruct E; congruence)|wp_next]).
  all: repeat wp_next.
  - eapply wp_seq; [apply Ha|intros l s2 ts ds Hr2 Hg]. wp_next. phrase_of @ga_call.
  - phrase_of @ga_ident.
  - phrase_of @ga_ret.
  - phrase_of @ga_int.
  - phrase_of @ga_str.
Qed.

Lemma wp_commas {A} (item : P A) g : (forall s, wp item s (reads_phrase g s)) ->
  forall fuel s, (length (ps_toks s) < fuel)%nat -> wp (commas fuel item) s (reads_phrase (comma_list g) s).
Proof.
  intros Hi. induction fuel as [|fuel IH]; intros s Hf; [lia|]. simpl. eapply wp_seq; [apply Hi|intros a s1 ts ds Hr Hg].
  repeat wp_next.
  - eapply wp_seq; [apply IH|intros l s3 ts3 ds3 Hr3 Hg3; wp_next; phrase_of @cl_cons].
    reads_len.
  - phrase_of @cl_one.
Qed.

Lemma wp_annArgs n : forall depth s, 0 <= depth <= 8 -> (9 - Z.to_nat depth <= n)%nat ->
  wp (annArgs n depth) s (reads_phrase (g_args (8 - Z.to_nat depth)) s).
Proof.
  induction n as [|n IH]; intros depth s Hd Hn; [lia|]. cbn [annArgs]. unfold maxAnnDepth, wp. cbv beta.
  match goal with |- match ?p s with _ => _ end => change (wp p s (reads_phrase (g_args (8 - Z.to_nat depth)) s)) end. cbv zeta.
  destruct (8 <? depth + 1) eqn:E; [repeat wp_next|]. apply Z.ltb_ge in E.
  replace (8 - Z.to_nat depth)%nat with (S (8 - Z.to_nat (depth + 1))) by lia. cbn [g_args].
  repeat wp_next.
  - phrase_of @gp_none.
  - eapply wp_seq; [apply wp_commas; [intros ?; apply wp_annArg; intros ?; apply IH; lia|]|intros l s3 ts3 ds3 Hr3 Hg3].
    { reads_len. }
    repeat wp_next. phrase_of @gp_some.
Qed.

Lemma wp_annotation s : t_kind (cur s) = tAnn -> wp annotation s (reads_phrase g_ann s).
Proof.
  intros Hk. unfold annotation. repeat wp_next.
  - eapply wp_seq; [by apply (wp_annArgs 9 0); lia|intros l s2 ts ds Hr2 Hg]. wp_next. phrase_of @gan_args.
  - phrase_of @gan_plain.
Qed.

Lemma g_ann_nonempty ts a ds : g_ann ts a ds -> ts <> [].
Proof. by destruct 1. Qed.

Lemma wp_annotations_loop : forall fuel s, (length (ps_toks s) < fuel)%nat -> wp (annotations_loop fuel) s (reads_phrase (many g_ann) s).
Proof.
  induction fuel as [|fuel IH]; intros s Hf; [lia|]. simpl. wp_next. destruct (bool_decide (t_kind (cur s) = tAnn)) eqn:E.
  - apply bool_decide_eq_true in E. eapply wp_seq; [by apply wp_annotation|intros a s1 ts ds Hr Hg].
    pose proof (g_ann_nonempty _ _ _ Hg). eapply wp_seq; [apply IH; destruct ts; [done|reads_len]|intros l s2 ts2 ds2 Hr2 Hg2].
    wp_next. phrase_of @many_cons.
  - wp_next. phrase_of @many_nil.
Qed.

Lemma wp_annotations s : wp annotations s (reads_phrase (many g_ann) s).
Proof. apply (wp_annotations_loop (S (length (ps_toks s)))). lia. Qed.

(** Types *)

Definition one {A} (g : token -> A -> Prop) : phrase A := fun ts a ds => exists t, ts = [t] /\ ds = [] /\ g t a.
Definition quiet {A} (g : list token -> A -> Prop) : phrase A := fun ts a ds => ds = [] /\ g ts a.

Lemma wp_intRef s : wp intRef s (reads_phrase (one g_intref) s).
Proof.
  unfold intRef. wp_next. destruct (t_kind (cur s)) eqn:Ek; repeat wp_next;
    (exists [cur s], []; split; [done|]; exists (cur s); repeat split; by constructor).
Qed.

Lemma wp_typ_elem s : wp typ_elem s (reads_phrase (one g_elem) s).
Proof.
  unfold typ_elem. wp_next. destruct (bool_decide (t_kind (cur s) = tKw) && bool_decide (t_text (cur s) ∈ typeNames)) eqn:E.
  - apply andb_true_iff in E as [E1%bool_decide_eq_true E2%bool_decide_eq_true]. repeat wp_next.
    exists [cur s], []; split; [done|]; exists (cur s); repeat split; by constructor.
  - destruct (bool_decide (t_kind (cur s) = tIdent)) eqn:E2; repeat wp_next; apply bool_decide_eq_true in E2; [congruence|].
    exists [cur s], []; split; [done|]; exists (cur s); repeat split; by constructor.
Qed.

Lemma wp_typ_array s : wp typ_array s (reads_phrase (quiet g_array) s).
Proof.
  unfold typ_array. repeat wp_next.
  - exists [cur s; t], []. split; [read_all|]. split; [done|by constructor].
  - eapply wp_seq; [apply wp_intRef|intros r s2 ts ds Hr (t & -> & -> & Hg)]. apply wp_punct; intros rb s3 Hr3 Hrb. wp_next.
    exists [cur s; t; rb], []. split; [read_all|]. split; [done|by constructor].
  - eexists [], []. split; [apply reads_nil|]. split; [done|constructor].
Qed.

Lemma wp_typ_bound s : wp typ_bound s (reads_phrase (quiet g_bound) s).
Proof.
  unfold typ_bound. repeat wp_next.
  - eapply wp_seq; [apply wp_intRef|intros r s2 ts ds Hr (t & -> & -> & Hg)]. wp_next.
    exists [cur s; t], []. split; [read_all|]. split; [done|by constructor].
  - eexists [], []. split; [apply reads_nil|]. split; [done|constructor].
Qed.

Lemma wp_typ s : wp typ s (reads_phrase g_type s).
Proof.
  unfold typ. eapply wp_seq; [apply wp_typ_elem|intros [[pos elem] named] s1 ts ds Hr (t & -> & -> & Hg)].
  eapply wp_seq; [apply wp_typ_array|intros [arr len] s2 ts2 ds2 Hr2 (-> & Hg2)].
  eapply wp_seq; [apply wp_typ_bound|intros [bpos bound] s3 ts3 ds3 Hr3 (-> & Hg3)]. wp_next. phrase_of @gt_type.
Qed.

(** Declarations *)

(** A routine that only looks ahead reads the name at the current token. *)
Lemma name_pos s ts name ds s' : reads s ts ds s' -> g_name ts name ds -> t_pos (cur s) = n_pos name.
Proof. intros [E _] Hg. unfold cur. rewrite E. by destruct Hg. Qed.

Lemma wp_member s : wp member s (reads_phrase g_member s).
Proof.
  unfold member. repeat wp_next. eapply wp_seq; [apply wp_typ|intros ty s3 ts3 ds3 Hr3 Hg3]. repeat wp_next.
  erewrite name_pos by eauto. phrase_of @gm_member.
Qed.

Lemma cur_read s t ts ds s' : reads s (t :: ts) ds s' -> cur s = t.
Proof. intros [E _]. unfold cur. by rewrite E. Qed.

Lemma wp_union_member s : wp union_member s (reads_phrase g_case s).
Proof.
  unfold union_member. wp_next. wp_next. wp_next. wp_next. wp_next.
  all: repeat wp_next. 
  - eapply wp_seq; [apply wp_typ|intros ty s5 ts5 ds5 Hr5 Hg5]. repeat wp_next. erewrite cur_read by eauto. phrase_of @gc_payload.
  - erewrite cur_read by eauto. phrase_of @gc_plain.
Qed.

Lemma wp_until_brace {A} key (item : P A) g : (forall s, wp item s (reads_phrase g s)) -> (forall ts a ds, g ts a ds -> ts <> []) ->
  forall fuel s, (length (ps_toks s) < fuel)%nat ->
  wp (until_brace fuel key item) s (fun l s' => reads_phrase (many g) s l s' /\ pun (str "}") (cur s')).
Proof.
  intros Hi Hne. induction fuel as [|fuel IH]; intros s Hf; [lia|]. simpl. repeat wp_next.
  - split; [phrase_of @many_nil|done].
  - destruct (bool_decide _); [wp_next|]. eapply wp_seq; [apply Hi|intros a s1 ts ds Hr Hg].
    pose proof (Hne _ _ _ Hg). eapply wp_bind; [apply IH; destruct ts; [done|reads_len]|intros l s2 [(ts2 & ds2 & Hr2 & Hg2) Hb]].
    wp_next. split; [phrase_of @many_cons|done].
Qed.

Lemma g_member_nonempty ts a ds : g_member ts a ds -> ts <> [].
Proof. destruct 1. by destruct ts. Qed.

Lemma g_case_nonempty ts a ds : g_case ts a ds -> ts <> [].
Proof. by destruct 1. Qed.

(** The common shape of a struct and a union declaration. *)
Lemma wp_braces {A B} (key what : bytes) (item : P A) (g : phrase A) (mk : Pos -> rawName -> list A -> B) s :
  (forall s, wp item s (reads_phrase g s)) -> (forall ts a ds, g ts a ds -> ts <> []) -> kw key (cur s) ->
  wp (t ← step; name ← expectDeclName what; _ ← expectPunct (str "{");
      l ← (fun s => until_brace (S (length (ps_toks s))) (n_text name) item s);
      _ ← step; _ ← (if (length l =? 0)%nat then report (n_pos name) (str "V5") else mret tt);
      mret (mk (t_pos t) name l)) s
     (fun b s' => exists pos name l, reads_phrase (g_braces key g) s (pos, name, l) s' /\ b = mk pos name l).
Proof.
  intros Hi Hne Hk. repeat wp_next. eapply wp_bind.
  { apply (wp_until_brace (n_text _) item g Hi Hne (S (length (ps_toks _)))). lia. }
  intros l s4 [(ts4 & ds4 & Hr4 & Hg4) Hb]. repeat wp_next. destruct l as [|x l]; simpl.
  - apply wp_report. intros s6 Hr6 _. wp_next. do 3 eexists. split; [|done]. phrase_of @gbr.
  - repeat wp_next. do 3 eexists. split; [|done]. phrase_of @gbr.
Qed.

Lemma wp_constDecl s : kw (str "const") (cur s) ->
  wp constDecl s (fun c s' => forall f, reads_phrase (g_decl f) s (add_const c f) s').
Proof.
  intros Hk. unfold constDecl. repeat wp_next.
  match goal with |- wp (if ?b then _ else _) _ _ => destruct b eqn:E end; [repeat wp_next|].
  apply orb_false_iff in E as [E1%negb_false_iff%bool_decide_eq_true E2%negb_false_iff%bool_decide_eq_true].
  repeat wp_next. intros f. phrase_of @gdc_const.
Qed.

Lemma wp_handleDecl anns s : kw (str "handle") (cur s) -> wp (handleDecl anns) s (reads_phrase (g_handle anns) s).
Proof. intros Hk. unfold handleDecl. repeat wp_next; [phrase_of @gh_owned|phrase_of @gh_plain]. Qed.

Lemma wp_structDecl anns s : kw (str "struct") (cur s) ->
  wp (structDecl anns) s (fun b s' => exists pos name l, reads_phrase (g_braces (str "struct") g_member) s (pos, name, l) s' /\ b = mkRawStruct pos anns name l).
Proof.
  intros Hk. exact (wp_braces _ _ member g_member (fun p => mkRawStruct p anns) s wp_member g_member_nonempty Hk).
Qed.

Lemma wp_unionDecl anns s : kw (str "union") (cur s) ->
  wp (unionDecl anns) s (fun b s' => exists pos name l, reads_phrase (g_braces (str "union") g_case) s (pos, name, l) s' /\ b = mkRawUnion pos anns name l).
Proof.
  intros Hk. exact (wp_braces _ _ union_member g_case (fun p => mkRawUnion p anns) s wp_union_member g_case_nonempty Hk).
Qed.

Lemma wp_dir s :
  wp dir s (fun d s' => exists ts, reads s ts [] s' /\ g_dir ts d /\
    (ts = [] -> ~ (exists x, kw x (cur s) /\ x ∈ [str "in"; str "out"; str "inout"])) /\ (forall t, head ts = Some t -> t = cur s)).
Proof.
  unfold dir. wp_next.
  destruct (is_tok tKw (str "in") (cur s)) eqn:E1; [apply is_tok_true in E1; repeat wp_next|].
  2: destruct (is_tok tKw (str "out") (cur s)) eqn:E2; [apply is_tok_true in E2; repeat wp_next|].
  3: destruct (is_tok tKw (str "inout") (cur s)) eqn:E3; [apply is_tok_true in E3; repeat wp_next|wp_next].
  1-3: exists [cur s]; split; [done|]; repeat split; [by constructor|done|by intros t [=]].
  exists []. split; [apply reads_nil|]. split; [constructor|]. split; [|done].
  intros _ (x & Hx & Hin). apply is_tok_iff in Hx. set_unfold. naive_solver congruence.
Qed.

Lemma wp_param s : wp param s (reads_phrase g_param s).
Proof.
  unfold param. wp_next. eapply wp_bind; [apply wp_dir|intros d s1 (ts1 & Hr1 & Hd & Hno & Hh)]. repeat wp_next.
  eapply wp_seq; [apply wp_typ|intros ty s4 ts4 ds4 Hr4 Hg4]. eapply wp_seq; [apply wp_annotations|intros l s5 ts5 ds5 Hr5 Hg5]. wp_next.
  match goal with Hn : g_name ?ts ?name ?ds, Hr : reads s1 ?ts ?ds _ |- _ =>
    assert (Ep : t_pos (cur s) = match ts1 with t :: _ => t_pos t | [] => n_pos name end);
    [destruct ts1 as [|t0 ts1]; [rewrite <- (name_pos _ _ _ _ _ Hr Hn); destruct Hr1 as [E _]; unfold cur; by rewrite E|by rewrite <- (Hh t0)]|] end.
  rewrite Ep. do 2 eexists. split; cycle 1.
  - eapply gp_param; eauto. intros -> t1 Ht Hbad. apply Hno; [done|]. replace (cur s) with t1; [done|].
    destruct Hr1 as [E _]. unfold cur. rewrite E. simpl. match goal with Hn : g_name ?ts _ _, Hr : reads s1 ?ts _ _ |- _ => destruct Hr as [E2 _]; destruct ts; [done|] end.
    rewrite E2. simpl in *. congruence.
  - read_all.
Qed.

Lemma wp_params {B} (k : list rawParam -> P B) s (Q : B -> pstate -> Prop) :
  (forall l s' ts ds, reads s ts ds s' -> g_params ts l ds -> wp (k l) s' Q) ->
  wp (b ← isPunct (str ")"); l ← (if (b : bool) then mret [] else (fun s => commas (S (length (ps_toks s))) param s)); k l) s Q.
Proof.
  intros Hk. repeat wp_next.
  - apply (Hk _ _ [] []); [apply reads_nil|constructor].
  - eapply wp_seq; [apply (wp_commas param g_param wp_param (S (length (ps_toks s)))); lia|]. intros l s1 ts ds Hr Hg.
    eapply Hk; [exact Hr|by constructor].
Qed.

Lemma g_elem_pos t e : g_elem t e -> t_pos t = e.1.1.
Proof. destruct 1; done. Qed.

Lemma type_pos s ts ty ds s' : reads s ts ds s' -> g_type ts ty ds -> t_pos (cur s) = rt_pos ty.
Proof. intros [E _] Hg. unfold cur. rewrite E. destruct Hg as [t ????????? He]. exact (g_elem_pos _ _ He). Qed.

Lemma wp_return {B} (k : option rawType * list rawAnn * Pos -> P B) s (Q : B -> pstate -> Prop) :
  (forall r s' ts ds, reads s ts ds s' -> g_ret ts r ds -> wp (k r) s' Q) ->
  wp (arrow ← isPunct (str "->");
      r ← (if (arrow : bool) then (_ ← step; rt ← current; ty ← typ; l ← annotations; mret (Some ty, l, t_pos rt)) else mret (None, [], no_pos));
      k r) s Q.
Proof.
  intros Hk. repeat wp_next.
  - eapply wp_seq; [apply wp_typ|intros ty s2 ts2 ds2 Hr2 Hg2]. wp_next.
    eapply wp_seq; [apply wp_annotations|intros l s3 ts3 ds3 Hr3 Hg3]. wp_next. erewrite type_pos by eauto.
    eapply (Hk _ _ (cur s :: ts2 ++ ts3) (ds2 ++ ds3)); [read_all|by constructor].
  - apply (Hk _ _ [] []); [apply reads_nil|constructor].
Qed.

Lemma wp_fnDecl anns s : wp (fnDecl anns) s (reads_phrase (g_fn anns) s).
Proof.
  unfold fnDecl. repeat first [apply wp_params; intros params ????? | apply wp_return; intros [[ret ra] rp] ????? | wp_next].
  - do 2 eexists. split; cycle 1; [eapply (gf_fn anns (Some (cur s))); eauto|read_all].
  - erewrite cur_read by eauto. do 2 eexists. split; cycle 1; [eapply (gf_fn anns None); eauto|read_all].
Qed.

Lemma wp_includeDecl s : kw (str "include") (cur s) ->
  wp includeDecl s (fun i s' => forall f, reads_phrase (g_decl f) s (add_include i f) s').
Proof. intros Hk. unfold includeDecl. repeat wp_next. intros f. phrase_of @gdc_include. Qed.

Lemma wp_decl f s : wp (decl f) s (reads_phrase (g_decl f) s).
Proof.
  unfold decl. wp_next.
  destruct (is_tok tKw (str "include") (cur s)) eqn:E1; [apply is_tok_true in E1|].
  { eapply wp_bind; [by apply wp_includeDecl|]. intros i s' Hi. wp_next. apply Hi. }
  destruct (is_tok tKw (str "const") (cur s)) eqn:E2; [apply is_tok_true in E2|].
  { eapply wp_bind; [by apply wp_constDecl|]. intros i s' Hi. wp_next. apply Hi. }
  eapply wp_seq; [apply wp_annotations|intros anns s1 ts1 ds1 Hr1 Hg1]. unfold annDecl. wp_next.
  destruct (is_tok tKw (str "service") (cur s1)) eqn:E3; [apply is_tok_true in E3|].
  { apply wp_report. intros s2 Hr2 Ec. rewrite <- Ec in *. repeat wp_next. phrase_of @gdc_service. }
  destruct (bool_decide (t_kind (cur s1) = tKw)) eqn:Ek; cbn [negb]; [apply bool_decide_eq_true in Ek|wp_next].
  destruct (bool_decide (t_text (cur s1) = str "handle")) eqn:E4; [apply bool_decide_eq_true in E4|].
  { eapply wp_seq; [by apply wp_handleDecl|intros h s2 ts2 ds2 Hr2 Hg2]. wp_next. phrase_of @gdc_handle. }
  destruct (bool_decide (t_text (cur s1) = str "struct")) eqn:E5; [apply bool_decide_eq_true in E5|].
  { eapply wp_bind; [by apply wp_structDecl|intros st s2 (pos & name & l & (ts2 & ds2 & Hr2 & Hg2) & ->)]. wp_next. phrase_of @gdc_struct. }
  destruct (bool_decide (t_text (cur s1) = str "union")) eqn:E6; [apply bool_decide_eq_true in E6|].
  { eapply wp_bind; [by apply wp_unionDecl|intros st s2 (pos & name & l & (ts2 & ds2 & Hr2 & Hg2) & ->)]. wp_next. phrase_of @gdc_union. }
  destruct (_ || _); [|destruct anns; wp_next].
  eapply wp_seq; [by apply wp_fnDecl|intros g s2 ts2 ds2 Hr2 Hg2]. wp_next. phrase_of @gdc_fn.
Qed.

Lemma g_decl_nonempty f ts a ds : g_decl f ts a ds -> ts <> [].
Proof.
  destruct 1 as [ | |ts0 ? ? ? ? ? ? ? ? ? |ts0 ? ? ts ? ? ? Hg|ts0 ? ? ts ? ? ? ? ? Hg|ts0 ? ? ts ? ? ? ? ? Hg|ts0 ? ? ts ? ? ? Hg]; try done.
  all: destruct ts0; [|done]; try (destruct Hg; done); try done. destruct Hg as [? []]; done.
Qed.

Lemma wp_decls_loop : forall fuel f s, (length (ps_toks s) < fuel)%nat ->
  wp (decls_loop fuel f) s (fun r s' => reads_phrase (g_decls f) s r s' /\ t_kind (cur s') = tEOF).
Proof.
  induction fuel as [|fuel IH]; intros f s Hf; [lia|]. simpl. wp_next. destruct (bool_decide _) eqn:E.
  - wp_next. apply bool_decide_eq_true in E. split; [phrase_of @gds_nil|done].
  - eapply wp_seq; [apply wp_decl|intros f' s1 ts ds Hr Hg]. pose proof (g_decl_nonempty _ _ _ _ Hg).
    eapply wp_mono; [apply IH; destruct ts; [done|reads_len]|]. intros r s2 [(ts2 & ds2 & Hr2 & Hg2) Hk]. split; [phrase_of @gds_cons|done].
Qed.

Lemma wp_file0 s : wp file0 s (fun r s' => reads_phrase g_file s r s' /\ t_kind (cur s') = tEOF).
Proof.
  unfold file0. apply wp_kw; intros ki s1 Hr1 Hki. apply wp_int; intros v s2 Hr2 Hv. apply wp_punct; intros s1' s3 Hr3 Hs1.
  eapply wp_seq; [apply wp_annotations|intros anns s4 ts4 ds4 Hr4 Hg4]. repeat wp_next.
  eapply wp_mono; [apply (wp_decls_loop (S (length (ps_toks _)))); lia|]. intros r s8 [(ts8 & ds8 & Hr8 & Hg8) Hk].
  split; [phrase_of (gfl ki v s1')|done].
Qed.

(** A syntax error is never the model running out of fuel, and what parses is
    a file of the grammar followed by the end. *)
Lemma parse_sound toks :
  match parseFile toks with
  | Ok (f, sink) => exists pre rest, toks = pre ++ rest /\ g_file pre f sink /\ t_kind (hd eof_token rest) = tEOF
  | Err e => se_msg e.1 <> OutOfFuel
  end.
Proof.
  unfold parseFile. pose proof (wp_file0 (mkState toks [])) as H. unfold wp in H.
  destruct (file0 (mkState toks [])) as [[f s']|e]; [|done]. simpl. destruct H as [(ts & ds & (E1 & E2 & _) & Hg) Hk].
  exists ts, (ps_toks s'). simpl in *. by rewrite E2.
Qed.

(** ** A phrase is accepted *)

Definition runs {A} (p : P A) (ts : list token) (ds : list Diagnostic) (a : A) (rest : list token) : Prop :=
  forall d, p (mkState (ts ++ rest) d) = Ok (a, mkState rest (d ++ ds)).

Lemma run_bind {A B} (p : P A) (f : A -> P B) s a s' r : p s = Ok (a, s') -> f a s' = r -> (p ≫= f) s = r.
Proof. unfold mbind, P_bind. by intros -> ->. Qed.

Lemma run_assoc {A B C} (p : P A) (f : A -> P B) (g : B -> P C) s r : (p ≫= fun a => f a ≫= g) s = r -> ((p ≫= f) ≫= g) s = r.
Proof. unfold mbind, P_bind. by destruct (p s) as [[a s']|e]. Qed.

Lemma run_seq {A B} (p : P A) (f : A -> P B) ts ds a rest d r :
  runs p ts ds a rest -> f a (mkState rest (d ++ ds)) = r -> (p ≫= f) (mkState (ts ++ rest) d) = r.
Proof. intros Hp Hf. by eapply run_bind. Qed.

Lemma run_take {B} (f : token -> P B) t rest d r : t_kind t <> tEOF -> f t (mkState rest d) = r -> (step ≫= f) (mkState (t :: rest) d) = r.
Proof. intros Hk Hf. eapply run_bind; [|exact Hf]. unfold step, cur. simpl. by destruct (t_kind t). Qed.

(** Of two tokens the parser tells apart, one is not the other. *)
Lemma is_tok_other k x k' y t : tok k' y t -> bool_decide (k' = k /\ y = x) = false -> is_tok k x t = false.
Proof.
  intros [<- <-] H%bool_decide_eq_false. unfold is_tok. apply andb_false_iff.
  destruct (decide (t_kind t = k)); [right|left]; apply bool_decide_eq_false; naive_solver.
Qed.

Lemma is_tok_kind k x t : t_kind t <> k -> is_tok k x t = false.
Proof. intros H. unfold is_tok. by rewrite bool_decide_eq_false_2. Qed.

Lemma run_punct {B} x (f : token -> P B) t rest d r :
  pun x t -> f t (mkState rest d) = r -> (expectPunct x ≫= f) (mkState (t :: rest) d) = r.
Proof.
  intros Ht Hf. unfold expectPunct. apply run_assoc. eapply run_bind; [reflexivity|]. unfold cur; simpl. rewrite (is_tok_iff _ _ _ Ht).
  by apply run_take; [destruct Ht; congruence|].
Qed.

Lemma run_kw {B} x (f : token -> P B) t rest d r :
  kw x t -> f t (mkState rest d) = r -> (expectKw x ≫= f) (mkState (t :: rest) d) = r.
Proof.
  intros Ht Hf. unfold expectKw. apply run_assoc. eapply run_bind; [reflexivity|]. unfold cur; simpl. rewrite (is_tok_iff _ _ _ Ht).
  by apply run_take; [destruct Ht; congruence|].
Qed.

Lemma run_int {B} x (f : token -> P B) t rest d r :
  t_kind t = tInt -> f t (mkState rest d) = r -> (expectInt x ≫= f) (mkState (t :: rest) d) = r.
Proof.
  intros Ht Hf. unfold expectInt. apply run_assoc. eapply run_bind; [reflexivity|]. unfold cur; simpl.
  rewrite bool_decide_eq_true_2 by done. by apply run_take; [congruence|].
Qed.

Lemma run_string {B} x (f : token -> P B) t rest d r :
  t_kind t = tStr -> f t (mkState rest d) = r -> (expectString x ≫= f) (mkState (t :: rest) d) = r.
Proof.
  intros Ht Hf. unfold expectString. apply run_assoc. eapply run_bind; [reflexivity|]. unfold cur; simpl.
  rewrite bool_decide_eq_true_2 by done. by apply run_take; [congruence|].
Qed.

Lemma run_ident {B} x (f : rawName -> P B) t rest d r :
  t_kind t = tIdent -> f (mkName (t_pos t) (t_text t)) (mkState rest d) = r -> (expectIdent x ≫= f) (mkState (t :: rest) d) = r.
Proof.
  intros Ht Hf. unfold expectIdent. apply run_assoc. eapply run_bind; [reflexivity|]. unfold cur; simpl.
  rewrite bool_decide_eq_true_2 by done. apply run_assoc. by apply run_take; [congruence|].
Qed.

Lemma run_look {B} (f : token -> P B) s r : f (cur s) s = r -> (current ≫= f) s = r.
Proof. done. Qed.

Lemma run_isPunct {B} x (f : bool -> P B) s r : f (is_tok tPunct x (cur s)) s = r -> (isPunct x ≫= f) s = r.
Proof. done. Qed.

Lemma run_isKw {B} x (f : bool -> P B) s r : f (is_tok tKw x (cur s)) s = r -> (isKw x ≫= f) s = r.
Proof. done. Qed.

Lemma run_name what ts name ds rest : g_name ts name ds -> runs (expectDeclName what) ts ds name rest.
Proof.
  intros Hg d. destruct Hg as [t Ht|t Ht]; unfold expectDeclName; apply run_look; unfold cur; simpl.
  - rewrite bool_decide_eq_false_2 by congruence. rewrite app_nil_r. unfold expectIdent. apply run_look. unfold cur; simpl.
    rewrite bool_decide_eq_true_2 by done. apply run_take; [congruence|]. done.
  - rewrite bool_decide_eq_true_2 by done. eapply run_bind; [reflexivity|]. apply run_take; [congruence|]. done.
Qed.

(** What may stand after a type, an annotation or an argument. *)
Definition ender (t : token) : Prop := exists x, pun x t /\ x ∈ [str ";"; str ","; str ")"].
Definition fol (t : token) : Prop := ender t \/ t_kind t = tKw \/ t_kind t = tAnn.

Lemma ender_kind t : ender t -> t_kind t <> tAnn.
Proof. intros (x & [Hk _] & _). congruence. Qed.

Lemma fol_pun x t : x ∈ [str ";"; str ","; str ")"] -> pun x t -> fol t.
Proof. left. by exists x. Qed.

Lemma fol_not x t : fol t -> x ∈ [str "("; str "["; str "<="] -> is_tok tPunct x t = false.
Proof.
  intros [(y & Hy & Hin)|[Hk|Hk]] Hx; [|apply is_tok_kind; congruence..].
  apply (is_tok_other _ _ _ _ _ Hy). apply bool_decide_eq_false. intros [_ <-]. set_unfold. naive_solver.
Qed.

(** Every phrase that repeats starts with a token that is no punctuation. *)
Definition word (ts : list token) : Prop := match ts with t :: _ => t_kind t <> tPunct /\ t_kind t <> tEOF | [] => False end.

Lemma word_app ts ts' : word ts -> word (ts ++ ts').
Proof. by destruct ts. Qed.

Lemma word_not x ts rest : word ts -> is_tok tPunct x (hd eof_token (ts ++ rest)) = false.
Proof. destruct ts as [|t ts]; [done|]. intros [H1 H2]. by apply is_tok_kind. Qed.

(** The rule the next action asks for; the tokens are in front. *)
Ltac run_norm := cbn [app]; rewrite <- ?app_assoc; cbn [app].
Ltac run_test :=
  unfold cur; cbn [ps_toks hd];
  repeat match goal with
  | H : tok ?k ?x ?t |- context [is_tok ?k ?x ?t] => rewrite (is_tok_iff k x t H)
  | H : pun ?x ?t |- context [is_tok tPunct ?x ?t] => rewrite (is_tok_iff tPunct x t H)
  | H : kw ?x ?t |- context [is_tok tKw ?x ?t] => rewrite (is_tok_iff tKw x t H)
  | H : pun ?y ?t |- context [is_tok ?k ?x ?t] => rewrite (is_tok_other k x tPunct y t H) by reflexivity
  | H : kw ?y ?t |- context [is_tok ?k ?x ?t] => rewrite (is_tok_other k x tKw y t H) by reflexivity
  | H : t_kind ?t = _ |- context [is_tok ?k ?x ?t] => rewrite (is_tok_kind k x t) by congruence
  | H : fol ?t |- context [is_tok tPunct ?x ?t] => rewrite (fol_not x t H) by (set_unfold; tauto)
  end.
Ltac run_next :=
  run_norm; cbv beta iota;
  match goal with
  | |- mret _ _ = _ => rewrite ?app_nil_r, <- ?app_assoc; reflexivity
  | |- ((_ ≫= _) ≫= _) _ = _ => apply run_assoc
  | |- (mret _ ≫= _) _ = _ => eapply run_bind; [reflexivity|]
  | |- (current ≫= _) _ = _ => apply run_look
  | |- (step ≫= _) (mkState (_ :: _) _) = _ => apply run_take; [first [congruence | by eapply tok_not_end; [|eassumption]]|]
  | |- (expectPunct _ ≫= _) (mkState (_ :: _) _) = _ => apply run_punct; [eassumption|]
  | |- (expectKw _ ≫= _) (mkState (_ :: _) _) = _ => apply run_kw; [eassumption|]
  | |- (expectInt _ ≫= _) (mkState (_ :: _) _) = _ => apply run_int; [assumption|]
  | |- (expectString _ ≫= _) (mkState (_ :: _) _) = _ => apply run_string; [assumption|]
  | |- (expectIdent _ ≫= _) (mkState (_ :: _) _) = _ => apply run_ident; [assumption|]
  | |- (expectDeclName _ ≫= _) (mkState (_ ++ _) _) = _ => eapply run_seq; [eapply run_name; eassumption|]
  | |- (isPunct _ ≫= _) _ = _ => apply run_isPunct; run_test
  | |- (isKw _ ≫= _) _ = _ => apply run_isKw; run_test
  end.

Lemma run_annArg args gargs : (forall ts l ds rest, gargs ts l ds -> runs args ts ds l rest) ->
  (forall ts l ds, gargs ts l ds -> exists t ts', ts = t :: ts' /\ pun (str "(") t) ->
  forall ts a ds rest, g_arg gargs ts a ds -> fol (hd eof_token rest) -> runs (annArg args) ts ds a rest.
Proof.
  intros Ha Hp ts a ds rest Hg Hfol d. unfold annArg. apply run_look.
  destruct Hg as [t Hk|t Hk|t Hk|t Hk|t ts l ds Hk Hg]; unfold cur; cbn [ps_toks hd app].
  - rewrite Hk. repeat run_next.
  - rewrite Hk. repeat run_next.
  - rewrite (proj1 Hk). run_test. repeat run_next.
  - rewrite Hk. repeat run_next.
  - rewrite Hk. run_next. destruct (Hp _ _ _ Hg) as (t' & ts' & -> & Ht'). run_next.
    cbv iota. change (t' :: ts' ++ rest) with ((t' :: ts') ++ rest). eapply run_seq; [by apply Ha|]. run_next.
Qed.

Lemma g_arg_word gargs ts a ds : g_arg gargs ts a ds -> word ts.
Proof. destruct 1 as [t Hk|t Hk|t [Hk _]|t Hk|t ts l ds Hk Hg]; simpl; rewrite Hk; done. Qed.

Lemma comma_list_word {A} (g : phrase A) ts l ds : (forall ts a ds, g ts a ds -> word ts) -> comma_list g ts l ds -> word ts.
Proof. intros Hw [ts0 a ds0 Hg|ts0 a ds0 c ts' l' ds' Hg]; [by eapply Hw|apply word_app; by eapply Hw]. Qed.

Lemma run_commas {A} (item : P A) (g : phrase A) :
  (forall ts a ds rest, g ts a ds -> ender (hd eof_token rest) -> runs item ts ds a rest) ->
  forall ts l ds, comma_list g ts l ds -> forall fuel rest, (length ts < fuel)%nat -> ender (hd eof_token rest) ->
    is_tok tPunct (str ",") (hd eof_token rest) = false -> runs (commas fuel item) ts ds l rest.
Proof.
  intros Hi. induction 1 as [ts a ds Hg|ts a ds c ts' l ds' Hg Hc Hl IH]; intros [|fuel] rest Hf Hfol Hn d; try (simpl in *; lia); cbn [commas].
  - eapply run_seq; [by apply Hi|]. run_next. rewrite Hn. run_next.
  - run_norm. eapply run_seq; [apply Hi; [done|eexists; split; [eassumption|set_solver]]|]. repeat run_next.
    eapply run_seq; [apply IH; [rewrite length_app in Hf; simpl in Hf; lia|done..]|]. run_next.
Qed.

Lemma g_args_paren d ts l ds : g_args d ts l ds -> exists t ts', ts = t :: ts' /\ pun (str "(") t.
Proof. destruct d; [done|]. destruct 1; eauto. Qed.

Lemma run_annArgs d : forall depth n ts l ds rest, depth + Z.of_nat d = 8 -> (d < n)%nat -> g_args d ts l ds -> runs (annArgs n depth) ts ds l rest.
Proof.
  induction d as [|d IH]; intros depth n ts l ds rest Hd Hn Hg dd; [done|]. destruct n as [|n]; [lia|]. cbn [annArgs]. cbv zeta.
  replace (maxAnnDepth <? depth + 1) with false by (symmetry; apply Z.ltb_ge; unfold maxAnnDepth; lia).
  destruct Hg as [lp rp Hlp Hrp|lp ts l ds rp Hlp Hl Hrp]; repeat run_next.
  rewrite (word_not _ _ _ (comma_list_word _ _ _ _ (g_arg_word _) Hl)). cbv iota.
  eapply run_seq; [eapply run_commas; [|eassumption|..]|].
  - intros; eapply run_annArg; [intros; apply (IH (depth + 1) n); [lia|lia|eassumption]|apply g_args_paren|eassumption|by left].
  - simpl. rewrite !length_app. lia.
  - eexists; split; [eassumption|set_solver].
  - simpl. run_test. done.
  - repeat run_next.
Qed.

Lemma run_annotation ts a ds rest : g_ann ts a ds -> fol (hd eof_token rest) -> runs annotation ts ds a rest.
Proof.
  intros [t Hk|t ts' l ds' Hk Hg] Hfol d; unfold annotation; repeat run_next.
  replace (is_tok _ _ _) with true by (destruct (g_args_paren _ _ _ _ Hg) as (t' & ts'' & -> & Ht'); symmetry; by apply is_tok_iff).
  cbv iota.   eapply (run_seq (annArgs 9 0)); [by apply (run_annArgs 8); [lia|lia|]|]. run_next.
Qed.

Lemma g_ann_head ts a ds : g_ann ts a ds -> exists t ts', ts = t :: ts' /\ t_kind t = tAnn.
Proof. destruct 1; eauto. Qed.

(** What follows a type may be annotations. *)
Lemma anns_fol ts l ds rest : many g_ann ts l ds -> fol (hd eof_token rest) -> fol (hd eof_token (ts ++ rest)).
Proof. intros [|ts0 a ds0 ts' l' ds' Hg Hm] Hfol; [done|]. destruct (g_ann_head _ _ _ Hg) as (t & ? & -> & Hk). right. by right. Qed.

Lemma run_annotations_loop ts l ds : many g_ann ts l ds -> forall fuel rest, (length ts < fuel)%nat -> fol (hd eof_token rest) ->
  t_kind (hd eof_token rest) <> tAnn -> runs (annotations_loop fuel) ts ds l rest.
Proof.
  induction 1 as [|ts a ds ts' l ds' Hg Hm IH]; intros [|fuel] rest Hf Hfol Hn d; try (simpl in *; lia); cbn [annotations_loop]; apply run_look.
  - unfold cur; cbn [ps_toks app]. rewrite bool_decide_eq_false_2 by done. run_next.
  - destruct (g_ann_head _ _ _ Hg) as (t & ts0 & E & Hk). rewrite bool_decide_eq_true_2 by (by subst). run_norm.
    eapply run_seq; [apply run_annotation; [done|by eapply anns_fol]|].
    eapply run_seq; [apply IH; [|done..]|run_next]. subst. simpl in Hf. rewrite length_app in Hf. lia.
Qed.

Lemma run_annotations ts l ds rest : many g_ann ts l ds -> fol (hd eof_token rest) -> t_kind (hd eof_token rest) <> tAnn -> runs annotations ts ds l rest.
Proof. intros Hm Hfol Hn d. unfold annotations. cbn [ps_toks]. apply run_annotations_loop; [done| |done..]. rewrite length_app. lia. Qed.

Lemma run_intRef t r rest d : g_intref t r -> intRef (mkState (t :: rest) d) = Ok (r, mkState rest d).
Proof. intros [t' Hk|t' Hk]; unfold intRef; apply run_look; unfold cur; cbn [ps_toks hd]; rewrite Hk; repeat run_next. Qed.

Lemma g_intref_kind t r : g_intref t r -> t_kind t <> tPunct.
Proof. destruct 1; congruence. Qed.

Lemma run_typ_array ts r rest d : g_array ts r -> is_tok tPunct (str "[") (hd eof_token rest) = false ->
  typ_array (mkState (ts ++ rest) d) = Ok (r, mkState rest d).
Proof.
  intros [|lb rb Hl Hr|lb t r' rb Hl Ht Hr] Hn; unfold typ_array; repeat run_next.
  - cbn [app]. rewrite Hn. run_next.
  - rewrite is_tok_kind by (by eapply g_intref_kind). cbv iota. run_next. eapply run_bind; [by apply run_intRef|]. repeat run_next.
Qed.

Lemma run_typ_bound ts r rest d : g_bound ts r -> is_tok tPunct (str "<=") (hd eof_token rest) = false ->
  typ_bound (mkState (ts ++ rest) d) = Ok (r, mkState rest d).
Proof.
  intros [|le t r' Hl Ht] Hn; unfold typ_bound; repeat run_next.
  - cbn [app]. rewrite Hn. run_next.
  - eapply run_bind; [by apply run_intRef|]. run_next.
Qed.

Lemma run_typ ts ty ds rest : g_type ts ty ds -> fol (hd eof_token rest) -> runs typ ts ds ty rest.
Proof.
  intros [t pos elem named ts1 arr len ts2 bpos bound He Ha Hb] Hfol d. unfold typ. run_norm.
  eapply (run_bind typ_elem _ _ (pos, elem, named)).
  { unfold typ_elem. apply run_look. unfold cur; cbn [ps_toks hd]. inversion He; subst.
    - rewrite !bool_decide_eq_true_2 by done. cbn [andb]. run_next. reflexivity.
    - rewrite bool_decide_eq_false_2 by congruence. cbn [andb]. rewrite bool_decide_eq_true_2 by done. run_next. reflexivity. }
  cbv beta iota. eapply run_bind; [apply run_typ_array; [eassumption|]|cbv beta iota].
  { destruct Hb as [|le ? ? Hle _]; [apply fol_not; [done|set_solver]|]. cbn [app hd]. by run_test. }
  eapply run_bind; [apply run_typ_bound; [eassumption|apply fol_not; [done|set_solver]]|]. run_next.
Qed.

Lemma g_name_word ts name ds : g_name ts name ds -> word ts.
Proof. destruct 1 as [t Hk|t Hk]; simpl; rewrite Hk; done. Qed.

Lemma g_name_pos ts name ds rest : g_name ts name ds -> t_pos (hd eof_token (ts ++ rest)) = n_pos name.
Proof. by destruct 1. Qed.

Ltac fol_here := eapply fol_pun; [|eassumption]; set_solver.

Lemma run_member ts m ds rest : g_member ts m ds -> runs member ts ds m rest.
Proof.
  intros [ts1 name ds1 c ts' ty ds' sc Hn Hc Ht Hs] d. unfold member. run_next. unfold cur; cbn [ps_toks]. rewrite (g_name_pos _ _ _ _ Hn).
  repeat run_next. eapply run_seq; [apply run_typ; [done|fol_here]|]. repeat run_next.
Qed.

Lemma run_union_member ts m ds rest : g_case ts m ds -> runs union_member ts ds m rest.
Proof.
  intros [kc tag ts1 name ds1 sc Hk Ht Hn Hs|kc tag ts1 name ds1 c ts' ty ds' sc Hk Ht Hn Hc Hty Hs] d; unfold union_member; repeat run_next.
  eapply run_seq; [apply run_typ; [done|fol_here]|]. repeat run_next.
Qed.

Lemma run_until_brace {A} key (item : P A) (g : phrase A) :
  (forall ts a ds rest, g ts a ds -> runs item ts ds a rest) -> (forall ts a ds, g ts a ds -> word ts) ->
  forall ts l ds, many g ts l ds -> forall fuel rest, (length ts < fuel)%nat -> pun (str "}") (hd eof_token rest) ->
    runs (until_brace fuel key item) ts ds l rest.
Proof.
  intros Hi Hw. induction 1 as [|ts a ds ts' l ds' Hg Hm IH]; intros [|fuel] rest Hf Hb d; try (simpl in *; lia); cbn [until_brace].
  - repeat run_next.
  - run_next. pose proof (Hw _ _ _ Hg) as Hw1. rewrite word_not by done. cbv iota. run_next. destruct ts as [|t ts]; [done|]. destruct Hw1.
    unfold cur; cbn [ps_toks hd app]. rewrite bool_decide_eq_false_2 by done. eapply (run_seq item _ (t :: ts)); [by apply Hi|].
    eapply run_seq; [apply IH; [|done]|run_next]. simpl in Hf. rewrite length_app in Hf. lia.
Qed.

Lemma g_member_word ts m ds : g_member ts m ds -> word ts.
Proof. destruct 1. apply word_app. by eapply g_name_word. Qed.

Lemma g_case_word ts m ds : g_case ts m ds -> word ts.
Proof. destruct 1 as [kc ????? [Hk _]|kc ????????? [Hk _]]; simpl; rewrite Hk; done. Qed.

Lemma run_braces {A B} (key what : bytes) (item : P A) (g : phrase A) (mk : Pos -> rawName -> list A -> B) ts pos name l ds rest :
  (forall ts a ds rest, g ts a ds -> runs item ts ds a rest) -> (forall ts a ds, g ts a ds -> word ts) ->
  g_braces key g ts (pos, name, l) ds ->
  runs (t ← step; name ← expectDeclName what; _ ← expectPunct (str "{");
        l ← (fun s => until_brace (S (length (ps_toks s))) (n_text name) item s);
        _ ← step; _ ← (if (length l =? 0)%nat then report (n_pos name) (str "V5") else mret tt);
        mret (mk (t_pos t) name l)) ts ds (mk pos name l) rest.
Proof.
  intros Hi Hw Hg d. inversion Hg as [k ts1 name' ds1 lb ts2 l' ds2 rb Hk Hn Hl Hm Hr]; subst. repeat run_next.
  eapply (run_seq _ _ ts2 ds2 l (rb :: rest)).
  { intros d'. cbn [ps_toks]. eapply (run_until_brace _ _ g); [done|done|done| |done]. rewrite length_app. lia. }
  run_next. destruct l as [|x l]; simpl.
  - eapply run_bind; [reflexivity|]. cbn [ps_sink ps_toks]. run_next.
  - run_next. run_next.
Qed.

Lemma run_constDecl k ts name ds c ty eq v sc rest :
  kw (str "const") k -> g_name ts name ds -> pun (str ":") c -> t_kind ty = tKw -> t_text ty ∈ intTypeNames ->
  pun (str "=") eq -> t_kind v = tInt -> pun (str ";") sc ->
  runs constDecl (k :: ts ++ [c; ty; eq; v; sc]) ds (mkRawConst (t_pos k) name (t_text ty) (t_val v) (t_pos v) (t_pos ty)) rest.
Proof.
  intros Hk Hn Hc Ht Hin He Hv Hs d. unfold constDecl. repeat run_next. unfold cur; cbn [ps_toks hd].
  rewrite !bool_decide_eq_true_2 by done. cbn [negb orb]. repeat run_next.
Qed.

Lemma run_handleDecl anns ts h ds rest : g_handle anns ts h ds -> runs (handleDecl anns) ts ds h rest.
Proof. destruct 1; intros dd; unfold handleDecl; repeat run_next. Qed.

Lemma run_dir ts0 d ts name ds rest dd : g_dir ts0 d -> g_name ts name ds ->
  (ts0 = [] -> forall t, head ts = Some t -> ~ (exists x, kw x t /\ x ∈ [str "in"; str "out"; str "inout"])) ->
  dir (mkState (ts0 ++ ts ++ rest) dd) = Ok (d, mkState (ts ++ rest) dd).
Proof.
  intros Hd Hn Hno. unfold dir. run_next. destruct Hd as [|t Ht|t Ht|t Ht]; unfold cur; cbn [ps_toks hd app]; run_test; [|repeat run_next..].
  assert (Hx : forall x, x ∈ [str "in"; str "out"; str "inout"] -> is_tok tKw x (hd eof_token (ts ++ rest)) = false).
  { intros x Hx. destruct (is_tok tKw x _) eqn:E; [|done]. apply is_tok_true in E. destruct ts as [|t ts]; [by inversion Hn|].
    exfalso. apply (Hno eq_refl t eq_refl). by exists x. }
  rewrite !Hx by set_solver. run_next.
Qed.

Lemma run_param ts p ds rest : g_param ts p ds -> ender (hd eof_token rest) -> runs param ts ds p rest.
Proof.
  intros [ts0 d ts1 name ds1 c ts2 ty ds2 ts3 anns ds3 Hd Hn Hc Ht Ha Hno] Hend dd. unfold param. run_next.
  replace (t_pos (cur _)) with (match ts0 with t :: _ => t_pos t | [] => n_pos name end)
    by (unfold cur; cbn [ps_toks]; destruct ts0; cbn [app]; [by rewrite (g_name_pos _ _ _ _ Hn)|done]).
  eapply run_bind; [eapply run_dir; eassumption|]. repeat run_next.
  eapply run_seq; [apply run_typ; [done|by eapply anns_fol; [|left]]|].
  eapply run_seq; [by apply run_annotations; [|left|apply ender_kind]|]. run_next.
Qed.

Lemma g_param_word ts p ds : g_param ts p ds -> word ts.
Proof.
  destruct 1 as [ts0 d ts1 name ds1 c ts2 ty ds2 ts3 anns ds3 Hd Hn Hc Ht Ha Hno].
  destruct Hd as [|? [Hk _]|? [Hk _]|? [Hk _]]; simpl; try (rewrite Hk; done). apply word_app. by eapply g_name_word.
Qed.

Lemma run_params {B} (k : list rawParam -> P B) ts l ds rp rest d r : g_params ts l ds -> pun (str ")") rp ->
  k l (mkState (rp :: rest) (d ++ ds)) = r ->
  (b ← isPunct (str ")"); l ← (if (b : bool) then mret [] else (fun s => commas (S (length (ps_toks s))) param s)); k l) (mkState (ts ++ rp :: rest) d) = r.
Proof.
  intros [|ts' l' ds' Hl] Hr Hk; [rewrite app_nil_r in Hk; by repeat run_next|]. run_next.
  rewrite (word_not _ _ _ (comma_list_word _ _ _ _ g_param_word Hl)). cbv iota.
  eapply (run_seq _ _ ts' ds' l'); [|exact Hk]. intros d'. cbn [ps_toks]. eapply (run_commas param g_param); [|exact Hl|..].
  - intros; by apply run_param.
  - rewrite length_app. lia.
  - eexists; split; [eassumption|set_solver].
  - cbn [hd]. by run_test.
Qed.

Lemma run_return {B} (k : option rawType * list rawAnn * Pos -> P B) ts r0 ds sc rest d r : g_ret ts r0 ds -> pun (str ";") sc ->
  k r0 (mkState (sc :: rest) (d ++ ds)) = r ->
  (arrow ← isPunct (str "->");
   r ← (if (arrow : bool) then (_ ← step; rt ← current; ty ← typ; l ← annotations; mret (Some ty, l, t_pos rt)) else mret (None, [], no_pos));
   k r) (mkState (ts ++ sc :: rest) d) = r.
Proof.
  intros [|ar ts1 ty ds1 ts2 anns ds2 Har Ht Ha] Hs Hk; [rewrite app_nil_r in Hk; by repeat run_next|]. repeat run_next.
  replace (t_pos (cur _)) with (rt_pos ty) by (unfold cur; cbn [ps_toks]; destruct Ht as [t ????????? He]; symmetry; exact (g_elem_pos _ _ He)).
  assert (Hf : fol sc) by (eapply fol_pun; [|eassumption]; set_solver).
  eapply run_seq; [apply run_typ; [done|by eapply anns_fol]|]. run_next.
  eapply run_seq; [apply run_annotations; [done|done|cbn [hd]; destruct Hs; congruence]|]. run_next. exact Hk.
Qed.

Lemma run_fnDecl anns ts g ds rest : g_fn anns ts g ds -> runs (fnDecl anns) ts ds g rest.
Proof.
  intros [anns0 [sh|] kf ts1 name ds1 lp ts2 params ds2 rp ts3 ret ra rpos ds3 sc Hsh Hkf Hn Hlp Hps Hrp Hret Hsc] d; unfold fnDecl;
    repeat first [eapply run_params; [eassumption|eassumption|] | eapply run_return; [eassumption|eassumption|] | run_next].
Qed.

(** A declaration with annotations reaches the routine of its keyword. *)
Lemma decl_annotated f ts0 anns ds0 y rest d : many g_ann ts0 anns ds0 -> kw y (hd eof_token rest) -> y ∉ [str "include"; str "const"] ->
  decl f (mkState (ts0 ++ rest) d) = annDecl f anns (mkState rest (d ++ ds0)).
Proof.
  intros Ha Hk Hy. unfold decl. run_next.
  assert (Hn : forall x, x ∈ [str "include"; str "const"] -> is_tok tKw x (hd eof_token (ts0 ++ rest)) = false).
  { intros x Hx. destruct Ha as [|ts a ds ts' l ds' Hg Hm].
    - apply (is_tok_other _ _ _ _ _ Hk). apply bool_decide_eq_false. set_unfold. naive_solver.
    - destruct (g_ann_head _ _ _ Hg) as (t & ? & -> & Ht). by apply is_tok_kind; cbn [app hd]; rewrite Ht. }
  unfold cur; cbn [ps_toks]. rewrite !Hn by set_solver. eapply run_seq; [|reflexivity].
  apply run_annotations; [done| |]; destruct Hk as [Hk _]; [by right; left|congruence].
Qed.

Lemma annDecl_kw f anns s y : kw y (cur s) -> y ∈ [str "handle"; str "struct"; str "union"; str "fn"; str "shim"] ->
  annDecl f anns s =
    (if bool_decide (y = str "handle") then h ← handleDecl anns; mret (add_handle h f)
     else if bool_decide (y = str "struct") then t ← structDecl anns; mret (add_struct t f)
     else if bool_decide (y = str "union") then u ← unionDecl anns; mret (add_union u f)
     else g ← fnDecl anns; mret (add_func g f)) s.
Proof.
  intros Hk Hy. unfold annDecl. apply run_look.
  rewrite (is_tok_other tKw (str "service") tKw y (cur s) Hk) by (apply bool_decide_eq_false; set_unfold; naive_solver).
  destruct Hk as [Hk1 Hk2]. rewrite Hk1, Hk2. clear Hk2. set_unfold. destruct_or? Hy; by subst y.
Qed.

Lemma run_annDecl {A} (p : P A) (add : A -> rawFile) f anns y ts a ds ts0 ds0 rest d :
  many g_ann ts0 anns ds0 -> kw y (hd eof_token (ts ++ rest)) -> y ∈ [str "handle"; str "struct"; str "union"; str "fn"; str "shim"] ->
  (forall s, kw y (cur s) -> annDecl f anns s = (x ← p; mret (add x)) s) -> runs p ts ds a rest ->
  decl f (mkState ((ts0 ++ ts) ++ rest) d) = Ok (add a, mkState rest (d ++ ds0 ++ ds)).
Proof.
  intros Ha Hk Hy Hd Hr. rewrite <- app_assoc. rewrite (decl_annotated _ _ _ _ y) by (done || (set_unfold; naive_solver)).
  rewrite Hd by done. eapply run_seq; [exact Hr|]. run_next.
Qed.

Lemma run_decl f ts f' ds rest : g_decl f ts f' ds -> runs (decl f) ts ds f' rest.
Proof.
  intros Hg d. destruct Hg as [k s sc Hk Hs Hsc|k ts name ds c ty eq v sc Hk Hn Hc Ht Hin He Hv Hsc|ts0 anns ds0 k ts name ds sc Ha Hk Hn Hs
    |ts0 anns ds0 ts h ds Ha Hh|ts0 anns ds0 ts pos name ms ds Ha Hm|ts0 anns ds0 ts pos name ms ds Ha Hm|ts0 anns ds0 ts g ds Ha Hf].
  - unfold decl. run_next. run_test. cbv iota. unfold includeDecl. repeat run_next.
  - unfold decl. run_next. run_test. cbv iota. pose proof (run_constDecl k ts name ds c ty eq v sc rest Hk Hn Hc Ht Hin He Hv Hsc d) as R.
    cbn [app] in R. rewrite <- app_assoc in R. eapply run_bind; [exact R|]. run_next.
  - run_norm. rewrite (decl_annotated _ _ _ _ (str "service")) by (done || set_solver). unfold annDecl. run_next. run_test. cbv iota.
    eapply run_bind; [reflexivity|]. cbn [ps_sink ps_toks]. repeat run_next.
  - eapply (run_annDecl (handleDecl anns) (fun h => add_handle h f) f anns (str "handle")); [done| |set_solver| |by apply run_handleDecl].
    + by destruct Hh.
    + intros s Hk. rewrite (annDecl_kw _ _ _ _ Hk) by set_solver. done.
  - eapply (run_annDecl (structDecl anns) (fun h => add_struct h f) f anns (str "struct")); [done| |set_solver| |].
    + by inversion Hm.
    + intros s Hk. rewrite (annDecl_kw _ _ _ _ Hk) by set_solver. done.
    + by apply (run_braces (str "struct") _ member g_member (fun p => mkRawStruct p anns) _ _ _ _ _ _ run_member g_member_word).
  - eapply (run_annDecl (unionDecl anns) (fun h => add_union h f) f anns (str "union")); [done| |set_solver| |].
    + by inversion Hm.
    + intros s Hk. rewrite (annDecl_kw _ _ _ _ Hk) by set_solver. done.
    + by apply (run_braces (str "union") _ union_member g_case (fun p => mkRawUnion p anns) _ _ _ _ _ _ run_union_member g_case_word).
  - eapply (run_annDecl (fnDecl anns) (fun h => add_func h f) f anns (if rf_shim g then str "shim" else str "fn")); [done| | | |by apply run_fnDecl].
    + by destruct Hf as [? [?|]].
    + destruct (rf_shim g); set_solver.
    + intros s Hk. rewrite (annDecl_kw _ _ _ _ Hk) by (destruct (rf_shim g); set_solver). by destruct (rf_shim g).
Qed.

Lemma g_decl_head f ts f' ds rest : g_decl f ts f' ds -> t_kind (hd eof_token (ts ++ rest)) <> tEOF.
Proof.
  assert (Hm : forall ts0 anns ds0 ts, many g_ann ts0 anns ds0 -> t_kind (hd eof_token (ts ++ rest)) <> tEOF ->
                 t_kind (hd eof_token ((ts0 ++ ts) ++ rest)) <> tEOF).
  { intros ts0 anns ds0 tt [|ts1 a ds1 ts2 l ds2 Hg _] Ht; [done|]. destruct (g_ann_head _ _ _ Hg) as (t & ? & -> & Hk). cbn. congruence. }
  intros [k s sc [Hk _]|k ??????? ? [Hk _]|ts0 anns ds0 k ???? Ha [Hk _]|ts0 anns ds0 ts1 h ds1 Ha Hh|ts0 anns ds0 ts1 ?? ms ds1 Ha Hb
    |ts0 anns ds0 ts1 ?? ms ds1 Ha Hb|ts0 anns ds0 ts1 g ds1 Ha Hf]; try (cbn [app hd]; congruence); (eapply Hm; [exact Ha|]).
  - cbn [app hd]; congruence.
  - destruct Hh as [? k ?????? [Hk _]|? k ???????? [Hk _]]; cbn [app hd]; congruence.
  - inversion Hb as [k ???????? [Hk _]]; subst; cbn [app hd]; congruence.
  - inversion Hb as [k ???????? [Hk _]]; subst; cbn [app hd]; congruence.
  - destruct Hf as [? [t|] ??????????????? Hs [Hk _]]; [destruct Hs|]; cbn [app hd]; congruence.
Qed.

Lemma run_decls f ts f' ds : g_decls f ts f' ds -> forall fuel rest, (length ts < fuel)%nat -> t_kind (hd eof_token rest) = tEOF ->
  runs (decls_loop fuel f) ts ds f' rest.
Proof.
  induction 1 as [f|f ts f' ds ts' f'' ds' Hg Hgs IH]; intros [|fuel] rest Hf He d; try (simpl in *; lia); cbn [decls_loop]; apply run_look; unfold cur; cbn [ps_toks].
  - cbn [app]. rewrite bool_decide_eq_true_2 by done. run_next.
  - pose proof (g_decl_nonempty _ _ _ _ Hg). rewrite <- app_assoc. rewrite bool_decide_eq_false_2 by (by eapply g_decl_head).
    eapply run_seq; [by apply run_decl|]. rewrite app_assoc. apply IH; [|done]. rewrite length_app in Hf. destruct ts; simpl in *; [done|lia].
Qed.

Lemma run_file0 ts f ds rest : g_file ts f ds -> t_kind (hd eof_token rest) = tEOF -> runs file0 ts ds f rest.
Proof.
  intros [ki v s1 ts1 anns ds0 ks ts2 name ds1 s2 ts3 f' ds2 Hki Hv Hs1 Ha Hks Hn Hs2 Hd] He d. unfold file0. repeat run_next.
  eapply run_seq; [apply run_annotations; [done|..]; cbn [hd]; destruct Hks as [Hk _]; [by right; left|congruence]|]. repeat run_next.
  unfold all_decls. cbn [ps_toks]. etrans; [apply (run_decls _ _ _ _ Hd); [rewrite length_app; lia|done]|]. by rewrite <- !app_assoc.
Qed.

(** The first end-of-file token splits the tokens in one way. *)
Lemma app_eof_inj ts rest body eof : ts ++ rest = body ++ [eof] -> Forall (fun t => t_kind t <> tEOF) ts ->
  Forall (fun t => t_kind t <> tEOF) body -> t_kind eof = tEOF -> t_kind (hd eof_token rest) = tEOF -> ts = body.
Proof.
  revert body. induction ts as [|t ts IH]; intros [|b body] E Ht Hb He Hk; simpl in *; simplify_eq; try done.
  - by inversion Hb.
  - inversion Ht. by destruct ts.
  - inversion Ht. inversion Hb. f_equal. by apply IH.
Qed.

(** C31. The parser accepts exactly the grammar: on tokens that end as the lexer's
    do, at the first end-of-file token, it returns a tree and the violations it
    reported exactly if the tokens before the end are a phrase of the grammar
    with this tree and these violations; and it always ends, with a tree or a
    syntax error. *)
Theorem parse_exact body eof :
  Forall (fun t => t_kind t <> tEOF) body -> t_kind eof = tEOF ->
  (forall f sink, parseFile (body ++ [eof]) = Ok (f, sink) <-> g_file body f sink) /\
  (forall e, parseFile (body ++ [eof]) = Err e -> se_msg e.1 <> OutOfFuel).
Proof.
  intros Hb He. unfold parseFile. pose proof (wp_file0 (mkState (body ++ [eof]) [])) as H. unfold wp in H. split.
  - intros f sink. split; [|intros Hg; by rewrite (run_file0 _ _ _ [eof] Hg He)].
    destruct (file0 (mkState (body ++ [eof]) [])) as [[f' s']|e]; [|done]. simpl in *. intros [= <- <-].
    destruct H as [(ts & ds & (E1 & E2 & Hts) & Hg) Hk]. cbn [ps_toks ps_sink app] in *. subst ds.
    rewrite <- (app_eof_inj ts (ps_toks s') body eof); [congruence|done..].
  - intros e. destruct (file0 (mkState (body ++ [eof]) [])) as [[f' s']|e']; [done|]. by intros [= <-].
Qed.

Lemma parse_exact_witness :
  exists f, g_file
    [mkToken tKw (str "idl") 0 (mkPos 1 1); mkToken tInt (str "1") 1 (mkPos 1 5); mkToken tPunct (str ";") 0 (mkPos 1 6);
     mkToken tKw (str "service") 0 (mkPos 1 8); mkToken tIdent (str "s") 0 (mkPos 1 16); mkToken tPunct (str ";") 0 (mkPos 1 17);
     mkToken tKw (str "struct") 0 (mkPos 1 19); mkToken tIdent (str "e") 0 (mkPos 1 26); mkToken tPunct (str "{") 0 (mkPos 1 28);
     mkToken tPunct (str "}") 0 (mkPos 1 29)] f [mkDiag (mkPos 1 26) (str "V5")].
Proof.
  eexists. eapply (parse_exact _ (mkToken tEOF [] 0 (mkPos 1 30))); [repeat constructor; discriminate|reflexivity|vm_compute; reflexivity].
Defined.
