(* ===== verification/IdlCheck.v ===== *)
(** * IdlCheck: names and types of an interface

    Models check.go of bindgen/idl up to the functions: the rules for names,
    constants, handles, structs and unions, how raw types are resolved, and the
    search for types that contain themselves. Maps and lists that the checker
    fills in one pass and only reads afterwards are results of that pass; a
    pointer to a declaration is its index. *)
From S2P Require Import Prelude IdlTypes IdlSizes IdlModel IdlPlan IdlLex IdlParse.

(** ** Checks *)

(** Work that waits until the sizes of all types can be asked for: the element
    and the array of a T[N], or a struct. *)
Inductive deferredCheck := DArray (pos : Pos) (elem arr : Ty) | DStruct (i : nat).

(** What a check adds to the sink and to the deferred work. *)
Record out := mkOut { o_diags : list Diagnostic; o_deferred : list deferredCheck }.

Definition no_out : out := mkOut [] [].
Definition out_app (a b : out) : out := mkOut (o_diags a ++ o_diags b) (o_deferred a ++ o_deferred b).

(** A check also sees and changes the sizes stored in the declarations. *)
Definition C (A : Type) : Type := memo -> A * out * memo.

#[export] Instance C_ret : MRet C := fun A x m => (x, no_out, m).
#[export] Instance C_bind : MBind C := fun A B f c m =>
  let '(x, o, m) := c m in let '(y, o', m) := f x m in (y, out_app o o', m).

Definition add (pos : Pos) (rule : bytes) : C unit := fun m => (tt, mkOut [mkDiag pos rule] [], m).
Definition defer (d : deferredCheck) : C unit := fun m => (tt, mkOut [] [d], m).
Definition ask {A} (q : M A) : C A := fun m => let '(x, m) := q m in (x, no_out, m).

Definition RuleSyntax : bytes := str "syntax".

(** Reported if the condition holds. *)
Definition when (b : bool) (pos : Pos) (rule : bytes) : C unit := if b then add pos rule else mret tt.

Fixpoint each {A} (l : list A) (f : A -> C unit) : C unit :=
  match l with [] => mret tt | x :: l => _ ← f x; each l f end.

Fixpoint eachi {A} (i : nat) (l : list A) (f : nat -> A -> C unit) : C unit :=
  match l with [] => mret tt | x :: l => _ ← f i x; eachi (S i) l f end.

Fixpoint collect {A B} (l : list A) (f : A -> C B) : C (list B) :=
  match l with [] => mret [] | x :: l => y ← f x; ys ← collect l f; mret (y :: ys) end.

(** ** Names *)

Definition cKeywords : list bytes :=
  [str "auto"; str "break"; str "case"; str "char"; str "const"; str "continue"; str "default"; str "do"; str "double"; str "else";
   str "enum"; str "extern"; str "float"; str "for"; str "goto"; str "if"; str "inline"; str "int"; str "long"; str "register";
   str "restrict"; str "return"; str "short"; str "signed"; str "sizeof"; str "static"; str "struct"; str "switch"; str "typedef";
   str "union"; str "unsigned"; str "void"; str "volatile"; str "while"; str "_Alignas"; str "_Alignof"; str "_Atomic"; str "_Bool";
   str "_Complex"; str "_Generic"; str "_Imaginary"; str "_Noreturn"; str "_Static_assert"; str "_Thread_local"].

(** [strings.Contains(name, "__")] and [strings.EqualFold] with "hqq". *)
Fixpoint double_underscore (s : bytes) : bool :=
  match s with
  | [] => false
  | a :: s => ((a =? 95) && bool_decide (head s = Some 95)) || double_underscore s
  end.

Definition lower (c : Z) : Z := if between 65 90 c then c + 32 else c.
Definition hqq_prefix (s : bytes) : bool := bool_decide (map lower (take 3 s) = str "hqq").

Definition checkName (pos : Pos) (name : bytes) : C unit :=
  _ ← when (bool_decide (name ∈ cKeywords)) pos (str "V1");
  _ ← when (double_underscore name) pos (str "V1");
  when ((3 <=? length name)%nat && hqq_prefix name) pos (str "V37").

(** [strings.Split(s, string(sep))]. *)
Fixpoint split (sep : Z) (s : bytes) : list bytes :=
  match s with
  | [] => [[]]
  | c :: s => if c =? sep then [] :: split sep s
              else match split sep s with x :: xs => (c :: x) :: xs | [] => [[c]] end
  end.

Definition include_char (ch : Z) : bool :=
  between 97 122 ch || between 65 90 ch || between 48 57 ch || bool_decide (ch ∈ str "_./+-").

Definition checkInclude (i : rawInclude) : C unit :=
  let s := ri_text i in
  if (length s <? 1)%nat || (256 <? length s)%nat then add (ri_pos i) (str "V35")
  else if negb (forallb include_char s) then add (ri_pos i) (str "V35")
  else if bool_decide (head s = Some 47) then add (ri_pos i) (str "V35")
  else when (bool_decide (str ".." ∈ split 47 s)) (ri_pos i) (str "V35").

Definition symbol_start (s : bytes) : bool := match s with c :: _ => isIdentStart c | [] => false end.

Definition checkCType (pos : Pos) (s : bytes) : C unit :=
  if (length s <? 1)%nat || (64 <? length s)%nat then add pos (str "V36")
  else if negb (symbol_start s) then add pos (str "V36")
  else when (negb (forallb (fun ch => isIdentPart ch || (ch =? 32) || (ch =? 42)) s)) pos (str "V36").

Definition checkFreeSym (pos : Pos) (s : bytes) : C unit :=
  if (length s <? 1)%nat || (64 <? length s)%nat then add pos (str "V36")
  else if negb (symbol_start s) then add pos (str "V36")
  else when (negb (forallb isIdentPart s)) pos (str "V36").

Definition checkCancelSym (pos : Pos) (s : bytes) : C unit :=
  if (length s <? 1)%nat || (64 <? length s)%nat then add pos (str "V36")
  else if negb (symbol_start s) then add pos (str "V36")
  else if negb (forallb isIdentPart s) then add pos (str "V36")
  else checkName pos s.

(** ** Annotations *)

Notation annSet := (gmap bytes rawAnn).

(** [service]: the place is the service declaration. *)
Fixpoint takeAnns (anns : list rawAnn) (service : bool) (allowed : list bytes) (set : annSet) : C annSet :=
  match anns with
  | [] => mret set
  | a :: anns =>
      let seen := bool_decide (is_Some (set !! an_name a)) in
      if bool_decide (an_name a = str "serialize") && (negb service || seen) then
        _ ← add (an_pos a) (str "V3"); takeAnns anns service allowed set
      else if negb (bool_decide (an_name a ∈ allowed)) then _ ← add (an_pos a) RuleSyntax; takeAnns anns service allowed set
      else if seen then _ ← add (an_pos a) RuleSyntax; takeAnns anns service allowed set
      else takeAnns anns service allowed (<[an_name a := a]> set)
  end.

Definition noArgs (a : rawAnn) : C unit := when (negb (length (an_args a) =? 0)%nat) (an_pos a) RuleSyntax.

Definition oneString (a : rawAnn) : C (option bytes) :=
  match an_args a with
  | [x] => if bool_decide (ag_kind x = aStr) && negb (ag_hasParens x) then mret (Some (ag_text x))
           else _ ← add (an_pos a) RuleSyntax; mret None
  | _ => _ ← add (an_pos a) RuleSyntax; mret None
  end.

Definition oneIdent (a : rawAnn) (allowRet : bool) : C (option bytes) :=
  let bad := _ ← add (an_pos a) RuleSyntax; mret None in
  match an_args a with
  | [x] =>
      if negb (ag_hasParens x) then
        match ag_kind x with
        | aIdent => mret (Some (ag_text x))
        | aRet => if allowRet then mret (Some (str "ret")) else bad
        | _ => bad
        end
      else bad
  | _ => bad
  end.

Definition arg_pos (a : rawAnn) : Pos := match an_args a with x :: _ => ag_pos x | [] => no_pos end.

Definition serviceAnnotations (anns : list rawAnn) : C Serialize :=
  set ← takeAnns anns true [str "serialize"] ∅;
  match set !! str "serialize" with
  | None => mret SerializeSession
  | Some a =>
      v ← oneIdent a false;
      match v with
      | None => mret SerializeSession
      | Some v =>
          if bool_decide (v = str "session") then mret SerializeSession
          else if bool_decide (v = str "none") then mret SerializeNone
          else _ ← add (arg_pos a) RuleSyntax; mret SerializeSession
      end
  end.

(** ** Constants *)

(** [kindRange]: the values of an integer type. *)
Definition kindRange (k : Kind) : option (Z * Z) :=
  let signed n := Some (- 2 ^ (n - 1), 2 ^ (n - 1) - 1) in
  let unsigned n := Some (0, 2 ^ n - 1) in
  match k with
  | KI8 => signed 8 | KI16 => signed 16 | KI32 => signed 32 | KI64 => signed 64
  | KU8 => unsigned 8 | KU16 => unsigned 16 | KU32 => unsigned 32 | KU64 => unsigned 64
  | KSize => unsigned 64
  | _ => None
  end.

Definition fitsKind (v : Z) (k : Kind) : bool :=
  match kindRange k with Some (lo, hi) => (lo <=? v) && (v <=? hi) | None => false end.

(** The types the keywords name. The parser lets no other keyword through; the
    map of the code has the invalid kind for them. *)
Definition kindNames : list (bytes * Ty) :=
  [(str "bool", Scalar KBool); (str "i8", Scalar KI8); (str "i16", Scalar KI16); (str "i32", Scalar KI32); (str "i64", Scalar KI64);
   (str "u8", Scalar KU8); (str "u16", Scalar KU16); (str "u32", Scalar KU32); (str "u64", Scalar KU64); (str "size", Scalar KSize);
   (str "f32", Scalar KF32); (str "f64", Scalar KF64); (str "str", Str 0); (str "bytes", Bytes 0)].

Fixpoint assoc {A} (l : list (bytes * A)) (x : bytes) : option A :=
  match l with [] => None | (y, a) :: l => if bool_decide (y = x) then Some a else assoc l x end.

Definition kindByName (x : bytes) : Ty := default (Scalar KStruct) (assoc kindNames x).

Notation constMap := (gmap bytes Const).

Fixpoint declareConsts (rcs : list rawConst) (consts : constMap) : C (list Const * constMap) :=
  match rcs with
  | [] => mret ([], consts)
  | rc :: rcs =>
      _ ← checkName (n_pos (rc_name rc)) (n_text (rc_name rc));
      let k := kind (kindByName (rc_typ rc)) in
      let ct := mkConst (n_text (rc_name rc)) k (rc_val rc) (n_pos (rc_name rc)) in
      let dup := bool_decide (is_Some (consts !! k_Name ct)) in
      _ ← when dup (n_pos (rc_name rc)) (str "V1");
      let consts := if dup then consts else <[k_Name ct := ct]> consts in
      _ ← when (negb (fitsKind (rc_val rc) k)) (rc_vpos rc) (str "V30");
      '(cts, consts) ← declareConsts rcs consts;
      mret (ct :: cts, consts)
  end.

(** [intRef] and [argInt]. *)
Definition intValue (consts : constMap) (r : rawIntRef) : C (option Z) :=
  if negb (ir_isName r) then mret (Some (ir_val r))
  else match consts !! ir_name r with
       | None => _ ← add (ir_pos r) (str "V30"); mret None
       | Some k => mret (Some (k_Value k))
       end.

Definition argInt (consts : constMap) (a : rawArg) : C (option Z) :=
  match ag_kind a with
  | aInt => mret (Some (ag_val a))
  | aIdent => if negb (ag_hasParens a) then intValue consts (mkIntRef (ag_pos a) true (ag_text a) 0)
              else _ ← add (ag_pos a) RuleSyntax; mret None
  | _ => _ ← add (ag_pos a) RuleSyntax; mret None
  end.

(** ** Types *)

(** An entry of the type namespace. *)
Inductive typeEnt := EStruct (i : nat) | EUnion (i : nat) | EHandle (i : nat).

#[export] Instance typeEnt_eq_dec : EqDecision typeEnt.
Proof. solve_decision. Defined.

Notation typeMap := (gmap bytes typeEnt).

(** [add] of [declareTypes]. *)
Definition addType (name : rawName) (ent : typeEnt) (types : typeMap) : C typeMap :=
  _ ← checkName (n_pos name) (n_text name);
  if bool_decide (is_Some (types !! n_text name)) then _ ← add (n_pos name) (str "V1"); mret types
  else mret (<[n_text name := ent]> types).

(** The C type of a handle or a struct: @c. *)
Definition cTypeOf (set : annSet) : C bytes :=
  match set !! str "c" with
  | None => mret []
  | Some a => v ← oneString a; match v with None => mret [] | Some s => _ ← checkCType (arg_pos a) s; mret s end
  end.

Definition cancelOf (set : annSet) : C bytes :=
  match set !! str "cancel" with
  | None => mret []
  | Some a =>
      match an_args a with
      | [x] =>
          if negb (ag_hasParens x) && (bool_decide (ag_kind x = aIdent) || bool_decide (ag_kind x = aStr)) then
            _ ← checkCancelSym (ag_pos x) (ag_text x); mret (ag_text x)
          else _ ← add (an_pos a) RuleSyntax; mret []
      | _ => _ ← add (an_pos a) RuleSyntax; mret []
      end
  end.

Fixpoint declareHandles (i : nat) (rhs : list rawHandle) (types : typeMap) : C (list Handle * typeMap) :=
  match rhs with
  | [] => mret ([], types)
  | rh :: rhs =>
      set ← takeAnns (rh_anns rh) false [str "c"; str "cancel"] ∅;
      ct ← cTypeOf set;
      cancel ← cancelOf set;
      let h := mkHandle (n_text (rh_name rh)) ct None None false cancel (Z.of_nat i + 1) (n_pos (rh_name rh)) in
      types ← addType (rh_name rh) (EHandle i) types;
      '(hs, types) ← declareHandles (S i) rhs types;
      mret (h :: hs, types)
  end.

Fixpoint declareStructs (i : nat) (rss : list rawStruct) (types : typeMap) : C (list Struct * typeMap) :=
  match rss with
  | [] => mret ([], types)
  | rs :: rss =>
      set ← takeAnns (rs_anns rs) false [str "c"] ∅;
      ct ← cTypeOf set;
      let s := mkStruct (n_text (rs_name rs)) ct [] (n_pos (rs_name rs)) in
      types ← addType (rs_name rs) (EStruct i) types;
      '(ss, types) ← declareStructs (S i) rss types;
      mret (s :: ss, types)
  end.

Fixpoint declareUnions (i : nat) (rus : list rawUnion) (types : typeMap) : C (list Union * typeMap) :=
  match rus with
  | [] => mret ([], types)
  | ru :: rus =>
      _ ← takeAnns (ru_anns ru) false [] ∅;
      let u := mkUnion (n_text (ru_name ru)) [] (n_pos (ru_name ru)) in
      types ← addType (ru_name ru) (EUnion i) types;
      '(us, types) ← declareUnions (S i) rus types;
      mret (u :: us, types)
  end.

(** [declareTypes]. *)
Definition declareTypes (f : rawFile) : C (list Handle * list Struct * list Union * typeMap) :=
  '(hs, types) ← declareHandles 0 (f_handles f) ∅;
  '(ss, types) ← declareStructs 0 (f_structs f) types;
  '(us, types) ← declareUnions 0 (f_unions f) types;
  mret (hs, ss, us, types).

(** *** Owners of handles *)

Definition set_Parent (p : option nat) (h : Handle) : Handle :=
  mkHandle (h_Name h) (h_CType h) p (h_Destroy h) (h_RetainOnFail h) (h_Cancel h) (h_ID h) (h_Pos h).

Fixpoint parents (i : nat) (types : typeMap) (rhs : list rawHandle) (hs : list Handle) : C (list Handle) :=
  match rhs, hs with
  | rh :: rhs, h :: hs =>
      h ← match rh_ownedBy rh with
          | None => mret h
          | Some o =>
              match types !! n_text o with
              | Some (EHandle j) => if bool_decide (j = i) then _ ← add (n_pos o) (str "V7"); mret h else mret (set_Parent (Some j) h)
              | _ => _ ← add (n_pos o) (str "V7"); mret h
              end
          end;
      hs ← parents (S i) types rhs hs;
      mret (h :: hs)
  | _, _ => mret hs
  end.

(** The walk from the handle [i] to its owners: does it come back, or take more
    than [n] steps? *)
Fixpoint owner_cycle (fuel : nat) (hs : list Handle) (i : nat) (p : option nat) (steps : nat) : bool :=
  match fuel with
  | O => false
  | S fuel =>
      match p with
      | None => false
      | Some j => bool_decide (j = i) || (length hs <? steps)%nat || owner_cycle fuel hs i (h ← hs !! j; h_Parent h) (S steps)
      end
  end.

Fixpoint breakCycles (is_ : list nat) (hs : list Handle) : C (list Handle) :=
  match is_ with
  | [] => mret hs
  | i :: is_ =>
      match hs !! i with
      | None => breakCycles is_ hs
      | Some h =>
          if owner_cycle (length hs + 2) hs i (h_Parent h) 0
          then _ ← add (h_Pos h) (str "V7"); breakCycles is_ (alter (set_Parent None) i hs)
          else breakCycles is_ hs
      end
  end.

Definition resolveHandleParents (types : typeMap) (rhs : list rawHandle) (hs : list Handle) : C (list Handle) :=
  hs ← parents 0 types rhs hs; breakCycles (seq 0 (length hs)) hs.

(** *** Resolving types *)

(** The element type. *)
Definition resolveElem (types : typeMap) (rt : rawType) (inFunc : bool) : C (option Ty) :=
  if rt_named rt then
    match types !! rt_elem rt with
    | None => _ ← add (rt_pos rt) (str "V4"); mret None
    | Some (EStruct i) => mret (Some (StructTy (rt_elem rt) i))
    | Some (EUnion i) => mret (Some (UnionTy (rt_elem rt) i))
    | Some (EHandle i) =>
        _ ← when (negb inFunc || rt_hasArr rt) (rt_pos rt) (str "V8");
        mret (Some (HandleTy (rt_elem rt) i))
    end
  else mret (Some (kindByName (rt_elem rt))).

(** A count within [1, limit]; otherwise it is reported and stays 0. *)
Definition countIn (consts : constMap) (r : rawIntRef) (limit : Z) : C Z :=
  n ← intValue consts r;
  match n with
  | None => mret 0
  | Some n => if (n <? 1) || (limit <? n) then _ ← add (ir_pos r) (str "V6"); mret 0 else mret n
  end.

(** The array around it, if any. *)
Definition resolveArray (consts : constMap) (rt : rawType) (t : Ty) : C Ty :=
  if rt_hasArr rt then
    match rt_arrLen rt with
    | None => mret (Array t 0)
    | Some r => n ← countIn consts r MaxFixedArray; _ ← defer (DArray (rt_pos rt) t (FixedArray t n)); mret (FixedArray t n)
    end
  else mret t.

Definition set_Max (n : Z) (t : Ty) : Ty := match t with Str _ => Str n | Bytes _ => Bytes n | Array e _ => Array e n | _ => t end.

Definition resolveBound (consts : constMap) (rt : rawType) (t : Ty) : C Ty :=
  match rt_bound rt with
  | None => mret t
  | Some r =>
      if negb (isVarBuf t) then _ ← add (rt_boundPos rt) (str "V6"); mret t
      else n ← countIn consts r MaxBound; mret (set_Max n t)
  end.

Definition resolveType (consts : constMap) (types : typeMap) (rt : rawType) (inFunc : bool) : C (option Ty) :=
  e ← resolveElem types rt inFunc;
  match e with
  | None => mret None
  | Some e => t ← resolveArray consts rt e; t ← resolveBound consts rt t; mret (Some t)
  end.

Definition resolveMember (consts : constMap) (types : typeMap) (rm : rawMember) : C Member :=
  _ ← checkName (n_pos (rm_name rm)) (n_text (rm_name rm));
  t ← resolveType consts types (rm_typ rm) false;
  mret (mkMember (n_text (rm_name rm)) (default (Scalar KU8) t) (n_pos (rm_name rm))).

Definition resolveCase (consts : constMap) (types : typeMap) (rc : rawCase) : C Case :=
  _ ← checkName (n_pos (rk_name rc)) (n_text (rk_name rc));
  let ok := (0 <=? rk_tag rc) && (rk_tag rc <? 2 ^ 32) in
  _ ← when (negb ok) (rk_tpos rc) (str "V5");
  t ← match rk_typ rc with Some rt => resolveType consts types rt false | None => mret None end;
  mret (mkCase (if ok then rk_tag rc else 0) (n_text (rk_name rc)) t (n_pos (rk_name rc))).

Fixpoint structMembers (consts : constMap) (types : typeMap) (rss : list rawStruct) (ss : list Struct) : C (list Struct) :=
  match rss, ss with
  | rs :: rss, s :: ss =>
      ms ← collect (rs_members rs) (resolveMember consts types);
      rest ← structMembers consts types rss ss;
      mret (mkStruct (s_Name s) (s_CType s) ms (s_Pos s) :: rest)
  | _, _ => mret ss
  end.

Fixpoint unionCases (consts : constMap) (types : typeMap) (rus : list rawUnion) (us : list Union) : C (list Union) :=
  match rus, us with
  | ru :: rus, u :: us =>
      cs ← collect (ru_cases ru) (resolveCase consts types);
      rest ← unionCases consts types rus us;
      mret (mkUnion (u_Name u) cs (u_Pos u) :: rest)
  | _, _ => mret us
  end.

(** [resolveMembers]. *)
Definition resolveMembers (consts : constMap) (types : typeMap) (f : rawFile) (ss : list Struct) (us : list Union) : C (list Struct * list Union) :=
  ss ← structMembers consts types (f_structs f) ss;
  us ← unionCases consts types (f_unions f) us;
  mret (ss, us).

(** *** Types that contain themselves *)

(** The declaration a type contains, directly or through arrays. *)
Fixpoint typeDeps (t : Ty) : option node :=
  match t with
  | FixedArray e _ | Array e _ => typeDeps e
  | StructTy _ i => Some (NStruct i)
  | UnionTy _ i => Some (NUnion i)
  | _ => None
  end.

Inductive color := white | grey | black.

#[export] Instance color_eq_dec : EqDecision color.
Proof. solve_decision. Defined.

Notation colors := (gmap node color).

(** The types of the members or of the cases of a declaration, with their positions. *)
Definition parts (ss : list Struct) (us : list Union) (n : node) : list (Pos * option Ty) :=
  match n with
  | NStruct i => match ss !! i with Some s => map (fun m => (mb_Pos m, Some (mb_Type m))) (s_Members s) | None => [] end
  | NUnion i => match us !! i with Some u => map (fun c => (c_Pos c, c_Type c)) (u_Cases u) | None => [] end
  end.

Section Visit.
Context (ss : list Struct) (us : list Union).

(** The loop of [visit] over the parts, with the recursive call. *)
Fixpoint visit_parts (rec : node -> colors -> C colors) (l : list (Pos * option Ty)) (st : colors) : C colors :=
  match l with
  | [] => mret st
  | (pos, t) :: l =>
      match t ≫= typeDeps with
      | None => visit_parts rec l st
      | Some dep =>
          match default white (st !! dep) with
          | grey => _ ← add pos (str "V4"); visit_parts rec l st
          | white => st ← rec dep st; visit_parts rec l st
          | black => visit_parts rec l st
          end
      end
  end.

(** [visit]. On a path every declaration is grey at most once, so as many calls
    as there are declarations are inside each other. *)
Fixpoint visit (fuel : nat) (n : node) (st : colors) : C colors :=
  match fuel with
  | O => mret st
  | S fuel => st ← visit_parts (visit fuel) (parts ss us n) (<[n := grey]> st); mret (<[n := black]> st)
  end.

Definition all_nodes : list node := map NStruct (seq 0 (length ss)) ++ map NUnion (seq 0 (length us)).

Fixpoint visit_all (ns : list node) (st : colors) : C colors :=
  match ns with
  | [] => mret st
  | n :: ns =>
      st ← match default white (st !! n) with white => visit (length all_nodes) n st | _ => mret st end;
      visit_all ns st
  end.

Definition checkCycles : C unit := _ ← visit_all all_nodes ∅; mret tt.

End Visit.

(** *** Structs and unions *)

Fixpoint fieldNames (ms : list Member) (seen : gset bytes) : C unit :=
  match ms with
  | [] => mret tt
  | m :: ms => _ ← when (bool_decide (mb_Name m ∈ seen)) (mb_Pos m) (str "V5"); fieldNames ms ({[mb_Name m]} ∪ seen)
  end.

Fixpoint caseNames (cs : list Case) (names : gset bytes) (tags : gset Z) : C unit :=
  match cs with
  | [] => mret tt
  | c :: cs =>
      _ ← when (bool_decide (c_Name c ∈ names)) (c_Pos c) (str "V5");
      _ ← when (bool_decide (c_Tag c ∈ tags)) (c_Pos c) (str "V5");
      caseNames cs ({[c_Name c]} ∪ names) ({[c_Tag c]} ∪ tags)
  end.

Definition checkStructsAndUnions (ss : list Struct) (us : list Union) : C unit :=
  _ ← eachi 0 ss (fun i s => _ ← fieldNames (s_Members s) ∅; defer (DStruct i));
  each us (fun u => caseNames (u_Cases u) ∅ ∅).

(** The deferred work: V6 and V40 for a T[N], V40 for a struct. *)
Definition runDeferred (ss : list Struct) (us : list Union) (d : deferredCheck) : C unit :=
  let D := decls_of ss us in
  match d with
  | DArray pos elem arr =>
      '(_, _, fx) ← ask (SizeOf D elem);
      if negb fx then add pos (str "V6")
      else '(sz, _, _) ← ask (SizeOf D arr); when (MaxStatic <? sz) pos (str "V40")
  | DStruct i =>
      ti ← ask (info_query D (StructTy [] i));
      when (fixed ti && (MaxStatic <? size ti)) (match ss !! i with Some s => s_Pos s | None => no_pos end) (str "V40")
  end.
