(* ===== verification/IdlFunc.v ===== *)
(** * IdlFunc: the functions of an interface

    Models func.go of bindgen/idl: how a declared function becomes a [Func], and
    the rules its parameters, its return, its lengths, its handles and its error
    convention obey. *)
From stdpp Require Import sorting.
From S2P Require Import Prelude IdlTypes IdlSizes IdlModel IdlPlan IdlLex IdlParse IdlCheck.

(** [fnCheck]: a function with its annotations. *)
Record fnCheck := mkFn {
  fc_f : Func; fc_rf : rawFunc;
  fc_decl : annSet; fc_ret : annSet; fc_pset : list annSet;
  fc_server : bool;            (* @allow(server) *)
  fc_bad : bool;               (* something was reported about it: no plan is built *)
  fc_maxOut : option Z; fc_maxOutPos : Pos
}.

(** The functions by name. *)
Notation funcMap := (gmap bytes nat).

(** [phase]: did the stage report anything? *)
Definition phase {A} (run : C A) : C (A * bool) := fun m =>
  let '(x, o, m) := run m in ((x, negb (length (o_diags o) =? 0)%nat), o, m).

Section Functions.
Context (consts : constMap) (types : typeMap) (hs : list Handle) (ss : list Struct) (us : list Union).

Notation D := (decls_of ss us).

(** ** Building a function *)

(** [attrs]. *)
Definition identAttr (set : annSet) (name : bytes) (allowRet : bool) : C bytes :=
  match set !! name with None => mret [] | Some a => v ← oneIdent a allowRet; mret (default [] v) end.

Definition flagAttr (set : annSet) (name : bytes) : C bool :=
  match set !! name with None => mret false | Some a => _ ← noArgs a; mret true end.

Definition freeAttr (set : annSet) : C bytes :=
  match set !! str "free" with
  | None => mret []
  | Some a => v ← oneString a; match v with None => mret [] | Some s => _ ← checkFreeSym (arg_pos a) s; mret s end
  end.

Definition attrs (set : annSet) : C Attrs :=
  lenOf ← identAttr set (str "len_of") true;
  offsetIn ← identAttr set (str "offset_in") false;
  nullable ← flagAttr set (str "nullable");
  borrowed ← flagAttr set (str "borrowed");
  free ← freeAttr set;
  ct ← cTypeOf set;
  mret (mkAttrs lenOf offsetIn free ct nullable borrowed).

Definition buildParam (rp : rawParam) : C (Param * annSet) :=
  _ ← checkName (n_pos (rp_name rp)) (n_text (rp_name rp));
  t ← resolveType consts types (rp_typ rp) true;
  set ← takeAnns (rp_anns rp) false [str "len_of"; str "offset_in"; str "nullable"; str "borrowed"; str "free"; str "c"] ∅;
  at_ ← attrs set;
  mret (mkParam (n_text (rp_name rp)) (rp_dir rp) (default (Scalar KU8) t) at_ (negb (bool_decide (LenOf at_ = []))) (n_pos (rp_name rp)), set).

Definition parseMaxOut (set : annSet) : C (option Z * Pos) :=
  match set !! str "max_out" with
  | None => mret (None, no_pos)
  | Some a =>
      match an_args a with
      | [x] => v ← argInt consts x; mret (v, an_pos a)
      | _ => _ ← add (an_pos a) RuleSyntax; mret (None, an_pos a)
      end
  end.

(** ** Parameters *)

Definition annAt (pset : list annSet) (i : nat) (name : bytes) : option rawAnn := set ← pset !! i; set !! name.

(** [annPos]; [None] is the return. *)
Definition annPos (f : Func) (rf : rawFunc) (ret : annSet) (pset : list annSet) (i : option nat) (name : bytes) : Pos :=
  match i with
  | None => match ret !! name with Some a => an_pos a | None => rf_retPos rf end
  | Some i => match annAt pset i name with
              | Some a => an_pos a
              | None => match f_Params f !! i with Some p => p_Pos p | None => no_pos end
              end
  end.

(** [paramIndex]. *)
Definition paramIndex (f : Func) (name : bytes) : option nat :=
  fst <$> list_find (fun p => p_Name p = name) (f_Params f).

Definition structCType (t : Ty) : bytes := match t with StructTy _ i => match ss !! i with Some s => s_CType s | None => [] end | _ => [] end.

Definition checkOutType (shim : bool) (p : Param) : C unit :=
  let t := p_Type p in
  match t with
  | StructTy _ _ =>
      fx ← ask (isFixed D t);
      if negb fx then add (p_Pos p) (str "V27") else when (negb shim && bool_decide (structCType t = [])) (p_Pos p) (str "V26")
  | UnionTy _ _ => add (p_Pos p) (str "V27")
  | Str mx => when (mx =? 0) (p_Pos p) (str "V27")
  | Bytes mx => when (Borrowed (p_Attrs p) && (mx =? 0)) (p_Pos p) (str "V27")
  | Array e mx =>
      fx ← ask (isFixed D e);
      if negb fx then add (p_Pos p) (str "V27") else when (Borrowed (p_Attrs p) && (mx =? 0)) (p_Pos p) (str "V27")
  | _ => mret tt
  end.

Definition checkOffsetIn (f : Func) (i : nat) (p : Param) (a : rawAnn) : C unit :=
  if bool_decide (OffsetIn (p_Attrs p) = []) then mret tt
  else if negb (bool_decide (p_Dir p = DirOut)) || negb (bool_decide (kind (p_Type p) = KU32)) || negb (bool_decide (LenOf (p_Attrs p) = []))
  then add (an_pos a) (str "V12")
  else
    let ok := match paramIndex f (OffsetIn (p_Attrs p)) with
              | None => false
              | Some j => negb (j =? i)%nat &&
                  match f_Params f !! j with Some q => bool_decide (p_Dir q = DirIn) && bool_decide (kind (p_Type q) = KStr) | None => false end
              end in
    when (negb ok) (an_pos a) (str "V12").

(** The type of an in or inout parameter: V10 and V38. *)
Definition checkInType (p : Param) : C unit :=
  match p_Type p with
  | Scalar k => when (negb (IsScalar k)) (p_Pos p) (str "V38")
  | HandleTy _ _ | Str _ | Bytes _ | FixedArray _ _ => mret tt
  | Array e _ => fx ← ask (isFixed D e); when (negb fx) (p_Pos p) (str "V38")
  | _ => add (p_Pos p) (str "V38")
  end.

Definition inoutForbidden (t : Ty) : bool :=
  match kind t with KHandle | KStr | KBytes | KArray | KFixedArray => true | _ => false end.

Definition nullableType (t : Ty) : bool := match kind t with KHandle | KStr | KBytes | KArray => true | _ => false end.

Definition checkParam (f : Func) (pset : list annSet) (i : nat) (p : Param) : C unit :=
  let t := p_Type p in
  _ ← when (bool_decide (p_Dir p = DirInOut) && inoutForbidden t) (p_Pos p) (str "V10");
  _ ← (if negb (bool_decide (p_Dir p = DirOut)) then checkInType p else checkOutType (f_Shim f) p);
  _ ← match annAt pset i (str "offset_in") with Some a => checkOffsetIn f i p a | None => mret tt end;
  _ ← match annAt pset i (str "nullable") with
      | Some a => when (negb (bool_decide (p_Dir p = DirIn)) || negb (nullableType t)) (an_pos a) (str "V13")
      | None => mret tt
      end;
  _ ← match annAt pset i (str "borrowed") with
      | Some a => when (negb (bool_decide (p_Dir p = DirOut)) || negb (bool_decide (kind t = KBytes) || bool_decide (kind t = KArray))) (an_pos a) (str "V14")
      | None => mret tt
      end;
  match annAt pset i (str "free") with
  | Some a => when (negb (borrowedOut p)) (an_pos a) (str "V15")
  | None => mret tt
  end.

Fixpoint checkParams_loop (f : Func) (pset : list annSet) (i : nat) (ps : list Param) (seen : gset bytes) : C unit :=
  match ps with
  | [] => mret tt
  | p :: ps =>
      _ ← when (bool_decide (p_Name p ∈ seen)) (p_Pos p) (str "V9");
      _ ← checkParam f pset i p;
      checkParams_loop f pset (S i) ps ({[p_Name p]} ∪ seen)
  end.

Definition checkParams (f : Func) (pset : list annSet) : C unit := checkParams_loop f pset 0 (f_Params f) ∅.

(** ** The return *)

Definition composite (t : Ty) : C bool :=
  match t with
  | StructTy _ _ | UnionTy _ _ => mret true
  | Array e _ => fx ← ask (isFixed D e); mret (negb fx)
  | _ => mret false
  end.

(** [checkMaxOut] with the value of @max_out; what [MaxOut] becomes. *)
Definition checkMaxOut (t : Ty) (n : Z) (pos : Pos) : C Z :=
  if (n <? 1) || (MaxStatic <? n) then _ ← add pos (str "V41"); mret 0
  else '(w, finite) ← ask (WorstCase D t); _ ← when (finite && (n <? w)) pos (str "V41"); mret n.

(** A return of a non-shim function that is not composite. *)
Definition plainReturn (t : Ty) : bool :=
  match t with
  | Scalar k => IsScalar k
  | HandleTy _ _ | Str _ | Bytes _ => true
  | Array e _ => IsScalar (kind e)
  | _ => false
  end.

Definition checkReturn (f : Func) (rf : rawFunc) (ret : annSet) (maxOut : option Z) (maxOutPos : Pos) : C Z :=
  match f_Ret f with
  | None => mret 0
  | Some t =>
      let pos := rf_retPos rf in
      _ ← match ret !! str "nullable" with
          | Some a => when (negb (bool_decide (kind t = KHandle)) && negb (isVarBuf t)) (an_pos a) (str "V13")
          | None => mret tt
          end;
      _ ← match ret !! str "free" with Some a => when (negb (isVarBuf t)) (an_pos a) (str "V15") | None => mret tt end;
      _ ← when (isVarBuf t && (Max t =? 0)) pos (str "V27");
      comp ← composite t;
      _ ← (if (comp : bool) && negb (f_Shim f) then
             ok ← (if bool_decide (kind t = KStruct) && negb (bool_decide (structCType t = [])) then ask (isFixed D t) else mret false);
             when (negb ok) pos (str "V26")
           else if comp && bool_decide (maxOut = None) && bool_decide (ret !! str "max_out" = None) then add pos (str "V26")
           else when (negb comp && negb (f_Shim f) && negb (plainReturn t)) pos (str "V28"));
      match ret !! str "max_out" with
      | None => mret 0
      | Some a =>
          if negb (f_Shim f) || negb comp then _ ← add (an_pos a) (str "V26"); mret 0
          else match maxOut with Some n => checkMaxOut t n maxOutPos | None => mret 0 end
      end
  end.

(** ** Lengths *)

(** How many scalars are bound to each buffer and to the return. *)
Record lenBounds := mkLens { inBound : gmap nat nat; outBound : gmap nat nat; retBound : nat }.

Definition bump (j : nat) (b : gmap nat nat) : gmap nat nat := <[j := S (default 0%nat (b !! j))]> b.

(** One call of [check]: [idx] is [None] for the return. *)
Definition checkLen (f : Func) (rf : rawFunc) (ret : annSet) (pset : list annSet) (idx : option nat) (at_ : Attrs) (t : Ty) (dir : Dir)
    (b : lenBounds) : C lenBounds :=
  if bool_decide (LenOf at_ = []) then mret b
  else
    let pos := annPos f rf ret pset idx (str "len_of") in
    let bad := _ ← add pos (str "V11"); mret b in
    if negb (IsInt (kind t)) then bad
    else if bool_decide (dir = DirInOut) then bad
    else if bool_decide (LenOf at_ = str "ret") then
      match idx with
      | None => bad
      | Some _ =>
          if negb (bool_decide (dir = DirOut)) then bad
          else match f_Ret f with
               | Some (Bytes _) | Some (Array _ _) => mret (mkLens (inBound b) (outBound b) (S (retBound b)))
               | _ => bad
               end
      end
    else
      match paramIndex f (LenOf at_) with
      | None => bad
      | Some j =>
          if bool_decide (idx = Some j) then bad
          else match f_Params f !! j with
               | None => bad
               | Some target =>
                   if negb (isVarBuf (p_Type target)) then bad
                   else if bool_decide (is_Some idx) && bool_decide (dir = DirIn) then
                     if bool_decide (p_Dir target = DirIn) || callerSupplied target then mret (mkLens (bump j (inBound b)) (outBound b) (retBound b))
                     else bad
                   else if negb (bool_decide (p_Dir target = DirOut)) then bad
                   else mret (mkLens (inBound b) (bump j (outBound b)) (retBound b))
               end
      end.

Fixpoint lens_loop (f : Func) (rf : rawFunc) (ret : annSet) (pset : list annSet) (i : nat) (ps : list Param) (b : lenBounds) : C lenBounds :=
  match ps with
  | [] => mret b
  | p :: ps => b ← checkLen f rf ret pset (Some i) (p_Attrs p) (p_Type p) (p_Dir p) b; lens_loop f rf ret pset (S i) ps b
  end.

(** The rules for one buffer. *)
Definition checkBuffer (b : lenBounds) (j : nat) (p : Param) : C unit :=
  let nin := default 0%nat (inBound b !! j) in
  let nout := default 0%nat (outBound b !! j) in
  if negb (isVarBuf (p_Type p)) then mret tt
  else if bool_decide (p_Dir p = DirIn) then
    _ ← when ((nin =? 0)%nat && negb (bool_decide (kind (p_Type p) = KStr))) (p_Pos p) (str "V11");
    when (1 <? nin)%nat (p_Pos p) (str "V11")
  else if callerSupplied p then
    _ ← when (negb (nin =? 1)%nat) (p_Pos p) (str "V11");
    when (1 <? nout)%nat (p_Pos p) (str "V11")
  else if bool_decide (p_Dir p = DirOut) && negb (bool_decide (kind (p_Type p) = KStr)) then
    when (negb (nout =? 1)%nat) (p_Pos p) (str "V11")
  else when (1 <? nout)%nat (p_Pos p) (str "V11").

Definition checkLenOf (f : Func) (rf : rawFunc) (ret : annSet) (pset : list annSet) : C unit :=
  b ← lens_loop f rf ret pset 0 (f_Params f) (mkLens ∅ ∅ 0);
  b ← match f_Ret f with Some t => checkLen f rf ret pset None (f_RetAttrs f) t DirOut b | None => mret b end;
  _ ← eachi 0 (f_Params f) (checkBuffer b);
  _ ← when (1 <? retBound b)%nat (rf_retPos rf) (str "V11");
  match f_Ret f with
  | Some (Bytes _) | Some (Array _ _) => when (negb (f_Shim f) && negb (retBound b =? 1)%nat) (rf_retPos rf) (str "V28")
  | _ => mret tt
  end.

(** ** Owners *)

(** [checkOwnership]: a function that creates an owned handle takes its owner. *)
Definition checkOwner (f : Func) (pos : Pos) (t : Ty) : C unit :=
  match t with
  | HandleTy _ i =>
      match hs !! i ≫= h_Parent with
      | None => mret tt
      | Some parent =>
          let owner p := bool_decide (p_Dir p = DirIn) && match p_Type p with HandleTy _ j => bool_decide (j = parent) | _ => false end in
          when (negb (length (filter (fun p => owner p) (f_Params f)) =? 1)%nat) pos (str "V16")
      end
  | _ => mret tt
  end.

Definition checkOwnership (f : Func) (rf : rawFunc) : C unit :=
  _ ← each (f_Params f) (fun p => if bool_decide (p_Dir p = DirOut) then checkOwner f (p_Pos p) (p_Type p) else mret tt);
  match f_Ret f with Some t => checkOwner f (rf_retPos rf) t | None => mret tt end.

(** ** A function *)

(** @allow: is the function for the server only? *)
Definition allowServer (decl : annSet) : C bool :=
  match decl !! str "allow" with
  | None => mret false
  | Some a =>
      v ← oneIdent a false;
      match v with
      | None => mret false
      | Some v => if bool_decide (v = str "wire") then mret false
                  else if bool_decide (v = str "server") then mret true
                  else _ ← add (arg_pos a) RuleSyntax; mret false
      end
  end.

Definition intercepted (decl : annSet) (server : bool) (rf : rawFunc) : C bool :=
  match decl !! str "intercept" with
  | None => mret false
  | Some a =>
      _ ← noArgs a;
      _ ← (if server then _ ← add (an_pos a) (str "V29"); add (n_pos (rf_name rf)) (str "V31") else mret tt);
      mret true
  end.

(** The return type with its annotations. *)
Definition buildReturn (rf : rawFunc) : C (option Ty * Attrs * annSet * (option Z * Pos)) :=
  match rf_ret rf with
  | None => mret (None, no_attrs, ∅, (None, no_pos))
  | Some rt =>
      t ← resolveType consts types rt true;
      set ← takeAnns (rf_retAnns rf) false [str "len_of"; str "nullable"; str "free"; str "max_out"; str "c"] ∅;
      at_ ← attrs set;
      mo ← parseMaxOut set;
      mret (Some (default (Scalar KU8) t), at_, set, mo)
  end.

(** [build]. *)
Definition build (rf : rawFunc) : C fnCheck :=
  _ ← checkName (n_pos (rf_name rf)) (n_text (rf_name rf));
  decl ← takeAnns (rf_anns rf) false [str "error"; str "intercept"; str "allow"; str "retain_on_fail"] ∅;
  server ← allowServer decl;
  icpt ← intercepted decl server rf;
  _ ← match decl !! str "retain_on_fail" with Some a => noArgs a | None => mret tt end;
  params ← collect (rf_params rf) buildParam;
  '(ret, retAttrs, rset, (maxOut, maxOutPos)) ← buildReturn rf;
  let pset := params.*2 in
  let f := mkFunc (n_text (rf_name rf)) [] 0 (rf_shim rf) icpt params.*1 ret retAttrs None 0 None None (n_pos (rf_name rf)) in
  _ ← when (64 <? length params)%nat (n_pos (rf_name rf)) (str "V9");
  _ ← checkParams f pset;
  mo ← checkReturn f rf rset maxOut maxOutPos;
  let f := mkFunc (f_Name f) [] 0 (f_Shim f) icpt (f_Params f) ret retAttrs None mo None None (f_Pos f) in
  _ ← checkLenOf f rf rset pset;
  _ ← checkOwnership f rf;
  mret (mkFn f rf decl rset pset server false maxOut maxOutPos).

Definition set_bad (b : bool) (fc : fnCheck) : fnCheck :=
  mkFn (fc_f fc) (fc_rf fc) (fc_decl fc) (fc_ret fc) (fc_pset fc) (fc_server fc) (fc_bad fc || b) (fc_maxOut fc) (fc_maxOutPos fc).

Fixpoint declareFuncs (i : nat) (rfs : list rawFunc) (funcs : funcMap) : C (list fnCheck * funcMap) :=
  match rfs with
  | [] => mret ([], funcs)
  | rf :: rfs =>
      let dup := bool_decide (is_Some (funcs !! n_text (rf_name rf))) in
      _ ← when dup (n_pos (rf_name rf)) (str "V1");
      let funcs := if dup then funcs else <[n_text (rf_name rf) := i]> funcs in
      '(fc, bad) ← phase (build rf);
      '(fcs, funcs) ← declareFuncs (S i) rfs funcs;
      mret (set_bad bad fc :: fcs, funcs)
  end.

End Functions.

(** ** Destroy functions *)

Definition set_f (f : Func) (fc : fnCheck) : fnCheck :=
  mkFn f (fc_rf fc) (fc_decl fc) (fc_ret fc) (fc_pset fc) (fc_server fc) (fc_bad fc) (fc_maxOut fc) (fc_maxOutPos fc).

Definition set_Destroys (h : nat) (f : Func) : Func :=
  mkFunc (f_Name f) (f_GoName f) (f_Opcode f) (f_Shim f) (f_Intercept f) (f_Params f) (f_Ret f) (f_RetAttrs f) (f_Error f) (f_MaxOut f) (Some h) (f_Plan f) (f_Pos f).
Definition set_Error (e : ErrorConv) (f : Func) : Func :=
  mkFunc (f_Name f) (f_GoName f) (f_Opcode f) (f_Shim f) (f_Intercept f) (f_Params f) (f_Ret f) (f_RetAttrs f) (Some e) (f_MaxOut f) (f_Destroys f) (f_Plan f) (f_Pos f).

Definition set_Destroy (fn : nat) (retain : bool) (h : Handle) : Handle :=
  mkHandle (h_Name h) (h_CType h) (h_Parent h) (Some fn) retain (h_Cancel h) (h_ID h) (h_Pos h).

(** The shape of a destroy function of the handle [i]. *)
Definition destroyShape (i : nat) (f : Func) : bool :=
  match f_Params f with
  | [p] => bool_decide (p_Dir p = DirIn) && match p_Type p with HandleTy _ j => bool_decide (j = i) | _ => false end
  | _ => false
  end.

Fixpoint resolveDestroy (i : nat) (funcs : funcMap) (rhs : list rawHandle) (hs : list Handle) (fcs : list fnCheck) : C (list Handle * list fnCheck) :=
  match rhs, hs with
  | rh :: rhs, h :: hs =>
      '(h, fcs) ←
        match (k ← funcs !! n_text (rh_destroy rh); fc ← fcs !! k; Some (k, fc)) with
        | None => _ ← add (n_pos (rh_destroy rh)) (str "V7"); mret (h, fcs)
        | Some (k, fc) =>
            if negb (destroyShape i (fc_f fc)) then _ ← add (n_pos (rh_destroy rh)) (str "V7"); mret (h, fcs)
            else if bool_decide (is_Some (f_Destroys (fc_f fc))) then _ ← add (n_pos (rh_destroy rh)) (str "V7"); mret (h, fcs)
            else mret (set_Destroy k (bool_decide (is_Some (fc_decl fc !! str "retain_on_fail"))) h,
                       <[k := set_f (set_Destroys i (fc_f fc)) fc]> fcs)
        end;
      '(hs, fcs) ← resolveDestroy (S i) funcs rhs hs fcs;
      mret (h :: hs, fcs)
  | _, _ => mret (hs, fcs)
  end.

Definition statusError (f : Func) : bool := match f_Error f with Some e => bool_decide (e_Kind e = ErrStatus) | None => false end.

Definition checkDestroyFuncs (hs : list Handle) (fcs : list fnCheck) : C unit :=
  _ ← each hs (fun h =>
        match h_Destroy h ≫= (fun k => fcs !! k) with
        | None => mret tt
        | Some fc =>
            match f_Ret (fc_f fc) with
            | None => mret tt
            | Some t => when (negb (IsInt (kind t)) || negb (statusError (fc_f fc))) (f_Pos (fc_f fc)) (str "V7")
            end
        end);
  each fcs (fun fc =>
    match fc_decl fc !! str "retain_on_fail" with
    | None => mret tt
    | Some a => when (bool_decide (f_Destroys (fc_f fc) = None) || negb (statusError (fc_f fc))) (an_pos a) (str "V39")
    end).

(** ** Error conventions *)

(** [typeEq]: bounds do not count. *)
Fixpoint typeEq (a b : Ty) : bool :=
  match a, b with
  | Scalar k, Scalar k' => bool_decide (k = k')
  | Str _, Str _ | Bytes _, Bytes _ => true
  | StructTy n _, StructTy n' _ | UnionTy n _, UnionTy n' _ | HandleTy n _, HandleTy n' _ => bool_decide (n = n')
  | FixedArray e l, FixedArray e' l' => (l =? l') && typeEq e e'
  | Array e _, Array e' _ => typeEq e e'
  | _, _ => false
  end.

Definition isIntOrBool (t : Ty) : bool := IsInt (kind t) || bool_decide (kind t = KBool).

Section Errors.
Context (consts : constMap) (funcs : funcMap) (fcs : list fnCheck).

Definition serverFunc (name : bytes) : option Func :=
  k ← funcs !! name; fc ← fcs !! k; if fc_server fc then Some (fc_f fc) else None.

(** The loop of [statusOk]; the values in the order of the clause. *)
Fixpoint okValues (k : Kind) (args : list rawArg) (seen : gset Z) : C (list Z) :=
  match args with
  | [] => mret []
  | v :: args =>
      x ← argInt consts v;
      match x with
      | None => okValues k args seen
      | Some x =>
          if negb (fitsKind x k) || negb ((- 2 ^ 63 <=? x) && (x <? 2 ^ 63)) then _ ← add (ag_pos v) (str "V19"); okValues k args seen
          else if bool_decide (x ∈ seen) then _ ← add (ag_pos v) (str "V19"); okValues k args seen
          else xs ← okValues k args ({[x]} ∪ seen); mret (x :: xs)
      end
  end.

Definition statusOk (t : Ty) (okArg : option rawArg) (a : rawAnn) : C (list Z) :=
  if negb (IsInt (kind t)) then _ ← add (an_pos a) (str "V19"); mret []
  else match okArg with
       | None => mret [0]
       | Some x =>
           if (length (ag_args x) =? 0)%nat then _ ← add (ag_pos x) (str "V19"); mret []
           else vs ← okValues (kind t) (ag_args x) ∅; mret (merge_sort (≤) vs)
       end.

Definition checkPredicate (t : Ty) (name : bytes) (pos : Pos) : C unit :=
  match serverFunc name with
  | None => add pos (str "V21")
  | Some g =>
      if negb (match f_Params g with [p] => bool_decide (p_Dir p = DirIn) && typeEq (p_Type p) t | _ => false end) then add pos (str "V21")
      else when (negb (match f_Ret g with Some r => isIntOrBool r | None => false end)) pos (str "V21")
  end.

(** One argument of a detail clause: its name and its type. *)
Definition detailArg (f : Func) (arg : rawArg) : C (list bytes * option Ty) :=
  match ag_kind arg with
  | aRet =>
      match f_Ret f with
      | None => _ ← add (ag_pos arg) (str "V23"); mret ([str "ret"], None)
      | Some t => mret ([str "ret"], Some t)
      end
  | aIdent =>
      if ag_hasParens arg then _ ← add (ag_pos arg) (str "V22"); mret ([], None)
      else match (j ← paramIndex f (ag_text arg); f_Params f !! j) with
           | None => _ ← add (ag_pos arg) (str "V22"); mret ([ag_text arg], None)
           | Some p =>
               if negb (bool_decide (p_Dir p = DirIn) || (bool_decide (p_Dir p = DirOut) && bool_decide (kind (p_Type p) = KHandle)))
               then _ ← add (ag_pos arg) (str "V22"); mret ([ag_text arg], None)
               else
                 let destroyed := match p_Type p with HandleTy _ i => bool_decide (f_Destroys f = Some i) | _ => false end in
                 _ ← when destroyed (ag_pos arg) (str "V22");
                 mret ([ag_text arg], Some (p_Type p))
           end
  | _ => _ ← add (ag_pos arg) (str "V22"); mret ([], None)
  end.

Fixpoint detailArgs (f g : Func) (i : nat) (args : list rawArg) : C (list bytes) :=
  match args with
  | [] => mret []
  | arg :: args =>
      '(names, at_) ← detailArg f arg;
      _ ← match at_, f_Params g !! i with
          | Some t, Some p => when (negb (typeEq t (p_Type p))) (ag_pos arg) (if bool_decide (ag_kind arg = aRet) then str "V23" else str "V22")
          | _, _ => mret tt
          end;
      rest ← detailArgs f g (S i) args;
      mret (names ++ rest)
  end.

Definition detail (f : Func) (d : rawArg) : C (option Detail) :=
  match ag_args d with
  | x :: args =>
      if negb (ag_hasParens d) || negb (bool_decide (ag_kind x = aIdent)) || ag_hasParens x then _ ← add (ag_pos d) (str "V22"); mret None
      else
        match serverFunc (ag_text x) with
        | None => _ ← add (ag_pos x) (str "V22"); mret (Some (mkDetail (ag_text x) []))
        | Some g =>
            _ ← when (negb (match f_Ret g with Some (Str mx) => negb (mx =? 0) | _ => false end)) (ag_pos x) (str "V22");
            _ ← when (existsb (fun p => negb (bool_decide (p_Dir p = DirIn))) (f_Params g)) (ag_pos x) (str "V22");
            _ ← when (negb (length args =? length (f_Params g))%nat) (ag_pos d) (str "V22");
            names ← detailArgs f g 0 args;
            mret (Some (mkDetail (ag_text x) names))
        end
  | [] => _ ← add (ag_pos d) (str "V22"); mret None
  end.

(** What the loop of [errorConv] has collected. *)
Record errArgs := mkErrArgs { ea_kind : option ErrKind; ea_ok : option rawArg; ea_detail : option rawArg; ea_pred : bytes; ea_predPos : Pos }.

Definition setKind (pos : Pos) (k : ErrKind) (e : errArgs) : C errArgs :=
  _ ← when (bool_decide (is_Some (ea_kind e))) pos (str "V18");
  mret (mkErrArgs (Some k) (ea_ok e) (ea_detail e) (ea_pred e) (ea_predPos e)).

Definition errorArg (arg : rawArg) (e : errArgs) : C errArgs :=
  if negb (bool_decide (ag_kind arg = aIdent)) then _ ← add (ag_pos arg) (str "V18"); mret e
  else if bool_decide (ag_text arg = str "status") || bool_decide (ag_text arg = str "null") then
    _ ← when (ag_hasParens arg) (ag_pos arg) (str "V18");
    setKind (ag_pos arg) (if bool_decide (ag_text arg = str "status") then ErrStatus else ErrNull) e
  else if bool_decide (ag_text arg = str "predicate") then
    e ← setKind (ag_pos arg) ErrPredicate e;
    match ag_args arg with
    | [x] => if negb (bool_decide (ag_kind x = aIdent)) || ag_hasParens x then _ ← add (ag_pos arg) (str "V18"); mret e
             else mret (mkErrArgs (ea_kind e) (ea_ok e) (ea_detail e) (ag_text x) (ag_pos x))
    | _ => _ ← add (ag_pos arg) (str "V18"); mret e
    end
  else if bool_decide (ag_text arg = str "ok") then
    match ea_ok e with
    | Some _ => _ ← add (ag_pos arg) (str "V19"); mret e
    | None => mret (mkErrArgs (ea_kind e) (Some arg) (ea_detail e) (ea_pred e) (ea_predPos e))
    end
  else if bool_decide (ag_text arg = str "detail") then
    match ea_detail e with
    | Some _ => _ ← add (ag_pos arg) (str "V22"); mret e
    | None => mret (mkErrArgs (ea_kind e) (ea_ok e) (Some arg) (ea_pred e) (ea_predPos e))
    end
  else _ ← add (ag_pos arg) (str "V18"); mret e.

Fixpoint errorArgs (args : list rawArg) (e : errArgs) : C errArgs :=
  match args with [] => mret e | arg :: args => e ← errorArg arg e; errorArgs args e end.

(** The rules of the kind; the values of ok(...) and the predicate. *)
Definition errorKind (f : Func) (t : Ty) (a : rawAnn) (e : errArgs) (k : ErrKind) : C (list Z * bytes) :=
  match k with
  | ErrStatus => oks ← statusOk t (ea_ok e) a; mret (oks, [])
  | ErrNull =>
      _ ← when (negb (nullableType t)) (an_pos a) (str "V20");
      _ ← when (Nullable (f_RetAttrs f)) (an_pos a) (str "V20");
      mret ([], [])
  | ErrPredicate =>
      _ ← (if bool_decide (ea_pred e = []) then mret tt else checkPredicate t (ea_pred e) (ea_predPos e));
      mret ([], ea_pred e)
  | ErrNone => mret ([], [])
  end.

Definition errorConv (f : Func) (a : rawAnn) : C Func :=
  match f_Ret f with
  | None => _ ← add (an_pos a) (str "V18"); mret f
  | Some t =>
      e ← errorArgs (an_args a) (mkErrArgs None None None [] (an_pos a));
      match ea_kind e with
      | None => _ ← add (an_pos a) (str "V18"); mret f
      | Some k =>
          '(oks, pred) ← errorKind f t a e k;
          _ ← match ea_ok e with Some x => when (negb (bool_decide (k = ErrStatus))) (ag_pos x) (str "V19") | None => mret tt end;
          det ← match ea_detail e with Some d => detail f d | None => mret None end;
          mret (set_Error (mkErrorConv k oks pred det) f)
      end
  end.

Definition resolveError (fc : fnCheck) : C fnCheck :=
  '(f, bad) ← phase (match fc_decl fc !! str "error" with None => mret (fc_f fc) | Some a => errorConv (fc_f fc) a end);
  mret (set_bad bad (set_f f fc)).

End Errors.
