(* ===== verification/IdlSpec.v ===== *)
(** * IdlSpec: from the text of an interface to its model

    Models the end of check.go of bindgen/idl (opcodes, [run] and [Parse]),
    [finish] of plan.go, goname.go and the order of diagnostics (diag.go). *)
From S2P Require Import Prelude IdlTypes IdlSizes IdlModel IdlPlan IdlLex IdlParse IdlCheck IdlFunc.

(** ** Plans and opcodes *)

Definition set_Plan (p : Plan) (f : Func) : Func :=
  mkFunc (f_Name f) (f_GoName f) (f_Opcode f) (f_Shim f) (f_Intercept f) (f_Params f) (f_Ret f) (f_RetAttrs f) (f_Error f) (f_MaxOut f) (f_Destroys f) (Some p) (f_Pos f).
Definition set_Opcode (n : Z) (f : Func) : Func :=
  mkFunc (f_Name f) (f_GoName f) n (f_Shim f) (f_Intercept f) (f_Params f) (f_Ret f) (f_RetAttrs f) (f_Error f) (f_MaxOut f) (f_Destroys f) (f_Plan f) (f_Pos f).
Definition set_GoName (x : bytes) (f : Func) : Func :=
  mkFunc (f_Name f) x (f_Opcode f) (f_Shim f) (f_Intercept f) (f_Params f) (f_Ret f) (f_RetAttrs f) (f_Error f) (f_MaxOut f) (f_Destroys f) (f_Plan f) (f_Pos f).

(** [finish]: the plan of a wire function without diagnostics, and V40. *)
Definition finish (D : decls) (fc : fnCheck) : C fnCheck :=
  if fc_server fc || fc_bad fc then mret fc
  else
    let f := fc_f fc in
    p ← ask (buildPlan D f);
    let f := set_Plan p f in
    _ ← when (MaxStatic <? FixedSize (Req p)) (f_Pos f) (str "V40");
    _ ← when (MaxStatic <? FixedSize (Resp p)) (f_Pos f) (str "V40");
    b ← ask (StaticBound D (Some p) f);
    _ ← when (MaxStatic <? default 0 b) (f_Pos f) (str "V40");
    mret (set_f f fc).

(** The loop of [assignOpcodes]: the functions and the indices of the wire ones. *)
Fixpoint opcodes (i : nat) (n : Z) (fcs : list fnCheck) : list Func * list nat :=
  match fcs with
  | [] => ([], [])
  | fc :: fcs =>
      if fc_server fc then let '(fs, w) := opcodes (S i) n fcs in (fc_f fc :: fs, w)
      else let '(fs, w) := opcodes (S i) (n + 1) fcs in (set_Opcode (n + 1) (fc_f fc) :: fs, i :: w)
  end.

Definition assignOpcodes (fcs : list fnCheck) : C (list Func * list nat) :=
  let '(fs, w) := opcodes 0 0 fcs in
  _ ← match drop 65535 w with
      | i :: _ => match fs !! i with Some f => add (f_Pos f) (str "V9") | None => mret tt end
      | [] => mret tt
      end;
  mret (fs, w).

(** ** Go names *)

(** [unicode.ToUpper] of a byte of an identifier, which is ASCII. *)
Definition upper (c : Z) : Z := if between 97 122 c then c - 32 else c.
Definition capitalize (s : bytes) : bytes := match s with [] => [] | c :: s => upper c :: s end.

Fixpoint trimPrefix (p s : bytes) : option bytes :=
  match p, s with
  | [], s => Some s
  | a :: p, b :: s => if a =? b then trimPrefix p s else None
  | _ :: _, [] => None
  end.

Definition GoName (strip cname : bytes) : bytes :=
  mjoin (map capitalize (split 95 (default cname (trimPrefix strip cname)))).

Definition reservedGo : list bytes := [str "Client"; str "Dial"; str "Close"; str "Kill"; str "Conn"].
Definition exportedGo (name : bytes) : bool := match name with c :: _ => between 65 90 c | [] => false end.

(** [claim]: the names taken so far. *)
Definition claim (pos : Pos) (name : bytes) (owner : gset bytes) : C (gset bytes) :=
  if negb (exportedGo name) then _ ← add pos (str "V37"); mret owner
  else if bool_decide (name ∈ reservedGo) then _ ← add pos (str "V37"); mret owner
  else if bool_decide (name ∈ owner) then _ ← add pos (str "V37"); mret owner
  else mret ({[name]} ∪ owner).

Fixpoint claims (l : list (Pos * bytes)) (owner : gset bytes) : C (gset bytes) :=
  match l with [] => mret owner | (pos, x) :: l => owner ← claim pos x owner; claims l owner end.

#[export] Instance Const_eq_dec : EqDecision Const.
Proof. solve_decision. Defined.

Fixpoint goConsts (consts : constMap) (l : list Const) (owner : gset bytes) : C (gset bytes) :=
  match l with
  | [] => mret owner
  | k :: l =>
      owner ← (if bool_decide (consts !! k_Name k = Some k) then claim (k_Pos k) (capitalize (k_Name k)) owner else mret owner);
      goConsts consts l owner
  end.

Fixpoint goHandles (types : typeMap) (i : nat) (l : list Handle) (owner : gset bytes) : C (gset bytes) :=
  match l with
  | [] => mret owner
  | h :: l =>
      owner ← (if bool_decide (types !! h_Name h = Some (EHandle i)) then claim (h_Pos h) (capitalize (h_Name h)) owner else mret owner);
      goHandles types (S i) l owner
  end.

(** The Go fields of a struct. *)
Fixpoint goFields (ms : list Member) (seen : gmap bytes bytes) : C unit :=
  match ms with
  | [] => mret tt
  | m :: ms =>
      let g := capitalize (mb_Name m) in
      _ ← match seen !! g with
          | Some prev => when (negb (bool_decide (prev = mb_Name m))) (mb_Pos m) (str "V37")
          | None => mret tt
          end;
      goFields ms (<[g := mb_Name m]> seen)
  end.

Fixpoint goStructs (types : typeMap) (i : nat) (l : list Struct) (owner : gset bytes) : C (gset bytes) :=
  match l with
  | [] => mret owner
  | s :: l =>
      owner ← (if bool_decide (types !! s_Name s = Some (EStruct i)) then
                 owner ← claim (s_Pos s) (capitalize (s_Name s)) owner; _ ← goFields (s_Members s) ∅; mret owner
               else mret owner);
      goStructs types (S i) l owner
  end.

(** The cases of a union, whose Go name is [un]. *)
Fixpoint goCases (un : bytes) (cs : list Case) (seen : gmap bytes bytes) (owner : gset bytes) : C (gset bytes) :=
  match cs with
  | [] => mret owner
  | c :: cs =>
      let g := capitalize (c_Name c) in
      _ ← when (bool_decide (g = str "Tag")) (c_Pos c) (str "V37");
      let prev := seen !! g in
      if bool_decide (prev = Some (c_Name c)) then goCases un cs seen owner
      else
        _ ← when (bool_decide (is_Some prev)) (c_Pos c) (str "V37");
        owner ← claim (c_Pos c) (un ++ g) owner;
        goCases un cs (<[g := c_Name c]> seen) owner
  end.

Fixpoint goUnions (types : typeMap) (i : nat) (l : list Union) (owner : gset bytes) : C (gset bytes) :=
  match l with
  | [] => mret owner
  | u :: l =>
      owner ← (if bool_decide (types !! u_Name u = Some (EUnion i)) then
                 let un := capitalize (u_Name u) in
                 owner ← claims [(u_Pos u, un); (u_Pos u, un ++ str "Tag")] owner;
                 goCases un (u_Cases u) ∅ owner
               else mret owner);
      goUnions types (S i) l owner
  end.

Fixpoint goFuncs (strip : bytes) (funcs : funcMap) (i : nat) (l : list Func) (owner : gset bytes) : C (list Func) :=
  match l with
  | [] => mret []
  | f :: l =>
      let f := set_GoName (GoName strip (f_Name f)) f in
      owner ← (if negb (Wire f) || negb (bool_decide (funcs !! f_Name f = Some i)) then mret owner
               else claims [(f_Pos f, f_GoName f); (f_Pos f, f_GoName f ++ str "Async"); (f_Pos f, f_GoName f ++ str "Future")] owner);
      fs ← goFuncs strip funcs (S i) l owner;
      mret (f :: fs)
  end.

(** [checkGoNames]: the functions with their Go names. *)
Definition checkGoNames (strip : bytes) (consts : constMap) (types : typeMap) (funcs : funcMap)
    (cts : list Const) (hs : list Handle) (ss : list Struct) (us : list Union) (fs : list Func) : C (list Func) :=
  owner ← goConsts consts cts ∅;
  owner ← goHandles types 0 hs owner;
  owner ← goStructs types 0 ss owner;
  owner ← goUnions types 0 us owner;
  goFuncs strip funcs 0 fs owner.

(** ** The checker *)

(** Runs a check and hands its deferred work to the caller. *)
Definition withDeferred {A} (c : C A) : C (A * list deferredCheck) := fun m =>
  let '(x, o, m) := c m in ((x, o_deferred o), mkOut (o_diags o) [], m).

(** The passes up to the functions ... *)
Definition runTypes (f : rawFile) : C (Serialize * (list Const * constMap) * (list Handle * list Struct * list Union * typeMap)) :=
  _ ← when (negb (f_idlVersion f =? 1)) (f_idlPos f) (str "V2");
  _ ← checkName (n_pos (f_service f)) (n_text (f_service f));
  ser ← serviceAnnotations (f_serviceAnns f);
  _ ← each (f_includes f) checkInclude;
  '(cts, consts) ← declareConsts (f_consts f) ∅;
  '(hs, ss, us, types) ← declareTypes f;
  hs ← resolveHandleParents types (f_handles f) hs;
  '(ss, us) ← resolveMembers consts types f ss us;
  _ ← checkCycles ss us;
  _ ← checkStructsAndUnions ss us;
  mret (ser, (cts, consts), (hs, ss, us, types)).

(** ... and the functions. *)
Definition runFuncs (f : rawFile) (consts : constMap) (types : typeMap) (hs : list Handle) (ss : list Struct) (us : list Union)
    : C (list fnCheck * funcMap * list Handle) :=
  '(fcs, funcs) ← declareFuncs consts types hs ss us 0 (f_funcs f) ∅;
  '(hs, fcs) ← resolveDestroy 0 funcs (f_handles f) hs fcs;
  fcs ← collect fcs (resolveError consts funcs fcs);
  _ ← checkDestroyFuncs hs fcs;
  mret (fcs, funcs, hs).

(** [run]. *)
Definition run (strip : bytes) (f : rawFile) : C Spec :=
  '(ser, (cts, consts), (hs, ss, us, types), (fcs, funcs, hs'), deferred) ←
    ('(x, deferred) ← withDeferred (
       '(ser, cc, (hs, ss, us, types)) ← runTypes f;
       r ← runFuncs f cc.2 types hs ss us;
       mret (ser, cc, (hs, ss, us, types), r));
     mret (x, deferred));
  _ ← each deferred (runDeferred ss us);
  fcs ← collect fcs (finish (decls_of ss us));
  '(fs, w) ← assignOpcodes fcs;
  fs ← checkGoNames strip consts types funcs cts hs' ss us fs;
  mret (mkSpec (n_text (f_service f)) ser (map ri_text (f_includes f)) cts hs' ss us fs w).

(** ** Diagnostics in order *)

Fixpoint bytes_lt (a b : bytes) : bool :=
  match a, b with
  | _, [] => false
  | [], _ :: _ => true
  | x :: a, y :: b => (x <? y) || ((x =? y) && bytes_lt a b)
  end.

Definition diag_lt (a b : Diagnostic) : bool :=
  if negb (Line (dg_pos a) =? Line (dg_pos b)) then Line (dg_pos a) <? Line (dg_pos b)
  else if negb (Col (dg_pos a) =? Col (dg_pos b)) then Col (dg_pos a) <? Col (dg_pos b)
  else bytes_lt (dg_rule a) (dg_rule b).

Fixpoint insert_diag (x : Diagnostic) (l : list Diagnostic) : list Diagnostic :=
  match l with [] => [x] | y :: l => if diag_lt y x then y :: insert_diag x l else x :: y :: l end.

(** [sorted], a stable sort. *)
Definition sorted (l : list Diagnostic) : list Diagnostic := foldr insert_diag [] l.

(** [Parse]: the model of an interface, or what is wrong with its text. *)
Definition Parse (strip : bytes) (src : bytes) : result (list Diagnostic) Spec :=
  match lex src with
  | Err e => Err (sorted [mkDiag (se_pos e) RuleSyntax])
  | Ok toks =>
      match parseFile toks with
      | Err (e, sink) => Err (sorted (sink ++ [mkDiag (se_pos e) RuleSyntax]))
      | Ok (raw, sink) =>
          let '(spec, o, _) := run strip raw empty_memo in
          let sink := sink ++ o_diags o in
          if (length sink =? 0)%nat then Ok spec else Err (sorted sink)
      end
  end.
