(* ===== verification/IdlCycles.v ===== *)
(** * IdlCycles: types that contain themselves

    The logic of checks that report nothing, and the depth-first search of
    check.go of bindgen/idl: it reports a cycle exactly if some declaration
    contains itself. *)
From S2P Require Import Prelude IdlTypes IdlSizes IdlModel IdlPlan IdlLex IdlParse IdlCheck.

(** ** Checks that report nothing *)

(** If the check reports nothing, its result and the work it deferred satisfy
    [Q]; the sizes stored in the declarations [D] stay right. *)
Definition silent (D : decls) {A} (c : C A) (Q : A -> list deferredCheck -> Prop) : Prop :=
  forall m, settled D m -> o_diags (c m).1.2 = [] -> settled D (c m).2 /\ Q (c m).1.1 (o_deferred (c m).1.2).

Section Silent.
Context (D : decls).

Lemma silent_ret {A} (a : A) (Q : A -> list deferredCheck -> Prop) : Q a [] -> silent D (mret a) Q.
Proof. intros HQ m Hm _. done. Qed.

Lemma silent_bind {A B} (c : C A) (f : A -> C B) (R : A -> list deferredCheck -> Prop) (Q : B -> list deferredCheck -> Prop) :
  silent D c R -> (forall a d, R a d -> silent D (f a) (fun b d' => Q b (d ++ d'))) -> silent D (c ≫= f) Q.
Proof.
  intros Hc Hf m Hm. specialize (Hc m Hm). unfold mbind, C_bind. destruct (c m) as [[a o] m1]. cbn [fst snd] in Hc.
  specialize (Hf a (o_deferred o)). unfold silent in Hf. specialize (fun H => Hf H m1). destruct (f a m1) as [[b o'] m2]. cbn [fst snd out_app o_diags o_deferred] in *.
  intros [E1 E2]%app_eq_nil. destruct (Hc E1) as [Hm1 Ha]. by apply Hf.
Qed.

Lemma silent_mono {A} (c : C A) (R Q : A -> list deferredCheck -> Prop) :
  silent D c R -> (forall a d, R a d -> Q a d) -> silent D c Q.
Proof. intros Hc HQ m Hm E. destruct (Hc m Hm E). auto. Qed.

Lemma silent_and {A} (c : C A) (R Q : A -> list deferredCheck -> Prop) :
  silent D c R -> silent D c Q -> silent D c (fun a d => R a d /\ Q a d).
Proof. intros H1 H2 m Hm E. destruct (H1 m Hm E), (H2 m Hm E). auto. Qed.

Lemma silent_add {A} pos rule (f : unit -> C A) (Q : A -> list deferredCheck -> Prop) : silent D (add pos rule ≫= f) Q.
Proof. intros m Hm. unfold mbind, C_bind, add. by destruct (f tt m) as [[b o'] m2]. Qed.

Lemma silent_add_end pos rule (Q : unit -> list deferredCheck -> Prop) : silent D (add pos rule) Q.
Proof. intros m Hm. done. Qed.

Lemma silent_when b pos rule (Q : unit -> list deferredCheck -> Prop) : (b = false -> Q tt []) -> silent D (when b pos rule) Q.
Proof. intros HQ. destruct b; [apply silent_add_end|]. apply silent_ret. auto. Qed.

Lemma silent_ask {A} (q : M A) v (Q : A -> list deferredCheck -> Prop) : computes D q v -> Q v [] -> silent D (ask q) Q.
Proof. intros Hq HQ m Hm _. unfold ask. destruct (Hq m Hm) as (m' & -> & Hm'). done. Qed.

Lemma silent_defer d (Q : unit -> list deferredCheck -> Prop) : Q tt [d] -> silent D (defer d) Q.
Proof. intros HQ m Hm _. done. Qed.

Lemma silent_each {A} (l : list A) (f : A -> C unit) (P : A -> Prop) :
  (forall x, x ∈ l -> silent D (f x) (fun _ _ => P x)) -> silent D (each l f) (fun _ _ => Forall P l).
Proof.
  intros Hf. induction l as [|x l IH]; simpl; [by apply silent_ret|].
  eapply silent_bind; [apply Hf; left|]. intros [] d Hx. eapply silent_mono; [apply IH; intros; apply Hf; by right|]. intros [] d' Hl. by constructor.
Qed.

Lemma silent_eachi {A} (l : list A) (f : nat -> A -> C unit) (P : nat -> A -> list deferredCheck -> Prop) : forall i,
  (forall j x, l !! j = Some x -> silent D (f (i + j)%nat x) (fun _ d => P (i + j)%nat x d)) ->
  silent D (eachi i l f) (fun _ d => forall j x, l !! j = Some x -> exists d', P (i + j)%nat x d' /\ d' ⊆ d).
Proof.
  induction l as [|x l IH]; intros i Hf; simpl; [by apply silent_ret|].
  eapply silent_bind; [specialize (Hf 0%nat x eq_refl); rewrite Nat.add_0_r in Hf; exact Hf|]. intros [] d Hx.
  eapply silent_mono; [apply (IH (S i)); intros j y Hj; specialize (Hf (S j) y Hj); by rewrite Nat.add_succ_r in Hf|].
  intros [] d' Hl [|j] y Hj; simpl in Hj.
  - simplify_eq. exists d. rewrite Nat.add_0_r. split; [done|]. set_solver.
  - destruct (Hl j y Hj) as (d'' & HP & Hs). exists d''. rewrite Nat.add_succ_r. split; [done|]. set_solver.
Qed.

Lemma silent_collect {A B} (l : list A) (f : A -> C B) (P : A -> B -> list deferredCheck -> Prop) :
  (forall x, x ∈ l -> silent D (f x) (fun y d => P x y d)) ->
  silent D (collect l f) (fun ys d => Forall2 (fun x y => exists d', P x y d' /\ d' ⊆ d) l ys).
Proof.
  intros Hf. induction l as [|x l IH]; simpl; [apply silent_ret; constructor|].
  eapply silent_bind; [apply Hf; left|]. intros y d Hy.
  eapply silent_bind; [apply IH; intros; apply Hf; by right|]. intros ys d' Hys. apply silent_ret. constructor.
  - exists d. split; [done|]. set_solver.
  - eapply Forall2_impl; [|exact Hys]. intros a b (d'' & HP & Hs). exists d''. split; [done|]. set_solver.
Qed.

End Silent.

Ltac quiet_step :=
  match goal with
  | |- silent _ (add _ _ ≫= _) _ => apply silent_add
  | |- silent _ (add _ _) _ => apply silent_add_end
  | |- silent _ (mret _) _ => apply silent_ret
  | |- silent _ (when _ _ _) _ => apply silent_when
  | |- silent _ (mret _ ≫= _) _ => eapply (silent_bind _ _ _ (fun a d => a = _ /\ d = [])); [by apply silent_ret|intros ? ? [-> ->]]
  end.

(** ** Declarations and what they contain *)

Section Cycles.
Context (D0 : decls) (ss : list Struct) (us : list Union).

Notation D := (decls_of ss us).
Implicit Types (n dep : node) (st : colors).

Definition deps n : list node := omap (fun p => p.2 ≫= typeDeps) (parts ss us n).

(** Every declaration that is mentioned exists. *)
Definition closed : Prop := forall n dep, dep ∈ deps n -> dep ∈ all_nodes ss us.

(** No declaration contains itself: all of them can be written out. *)
Definition acyclic : Prop := forall n, n ∈ all_nodes ss us -> exists k, is_Some (expand_node D k n).

Lemma elem_of_all_nodes n :
  n ∈ all_nodes ss us <-> match n with NStruct i => (i < length ss)%nat | NUnion i => (i < length us)%nat end.
Proof.
  unfold all_nodes. rewrite list.elem_of_app, !list_elem_of_fmap. setoid_rewrite elem_of_seq. destruct n as [i|i].
  - split; [intros [(? & [= <-] & ?)|(? & [=] & ?)]; lia|]. intros. left. exists i. split; [done|lia].
  - split; [intros [(? & [=] & ?)|(? & [= <-] & ?)]; lia|]. intros. right. exists i. split; [done|lia].
Qed.

Lemma expand_ty_deps (rec : node -> option xty) t :
  is_Some (expand_ty rec t) <-> match typeDeps t with Some n => is_Some (rec n) | None => True end.
Proof.
  induction t as [k|mx|mx|x i|x i|x i|e IH len|e IH mx]; simpl; try (by split; eauto); (rewrite <- IH; split; [by intros [y (z & -> & _)%bind_Some]|by intros [y ->]]).
Qed.

Lemma mapM_is_Some_iff {A B} (f : A -> option B) l : is_Some (mapM f l) <-> Forall (fun x => is_Some (f x)) l.
Proof. rewrite mapM_is_Some. done. Qed.

(** A declaration can be written out exactly if what it contains can. *)
Lemma expand_node_deps k n : n ∈ all_nodes ss us ->
  is_Some (expand_node D (S k) n) <-> Forall (fun dep => is_Some (expand_node D k dep)) (deps n).
Proof.
  rewrite elem_of_all_nodes. intros Hn. unfold deps, parts. destruct n as [i|i]; cbn [expand_node decls_of d_structs d_unions].
  - destruct (lookup_lt_is_Some_2 _ _ Hn) as [s Hs]. rewrite !list_lookup_fmap, Hs. simpl.
    transitivity (is_Some (mapM (expand_ty (expand_node D k)) (map mb_Type (s_Members s)))).
    { split; [by intros [y (z & -> & _)%bind_Some]|by intros [y ->]]. }
    rewrite mapM_is_Some_iff. induction (s_Members s) as [|m ms IH]; simpl; [done|]. rewrite Forall_cons_iff, IH, expand_ty_deps.
    destruct (typeDeps (mb_Type m)); simpl; [by rewrite Forall_cons_iff|tauto].
  - destruct (lookup_lt_is_Some_2 _ _ Hn) as [u Hu]. rewrite !list_lookup_fmap, Hu. simpl.
    transitivity (is_Some (mapM (expand_case (expand_node D k)) (map (fun c => (c_Tag c, c_Type c)) (u_Cases u)))).
    { split; [by intros [y (z & -> & _)%bind_Some]|by intros [y ->]]. }
    rewrite mapM_is_Some_iff. induction (u_Cases u) as [|c cs IH]; simpl; [done|]. rewrite Forall_cons_iff, IH. unfold expand_case at 1. simpl.
    destruct (c_Type c) as [t|]; simpl; [|by split; [tauto|split; [by eauto|]]]. rewrite expand_ty_deps.
    destruct (typeDeps t); simpl; [by rewrite Forall_cons_iff|tauto].
Qed.

(** Enough steps for several declarations. *)
Lemma expand_all (l : list node) : Forall (fun n => exists k, is_Some (expand_node D k n)) l ->
  exists k, Forall (fun n => is_Some (expand_node D k n)) l.
Proof.
  induction 1 as [|n l [k1 H1] _ [k2 H2]]; [by exists 0%nat|]. exists (Nat.max k1 k2).
  assert (Hle : forall k k' n, (k <= k')%nat -> is_Some (expand_node D k n) -> is_Some (expand_node D k' n)).
  { intros k k' n' Hk [x Hx]. exists x. by eapply expand_node_le. }
  constructor; [eapply Hle; [|exact H1]; lia|]. eapply Forall_impl; [|exact H2]. intros n'. apply Hle. lia.
Qed.

(** *** A silent search has written everything out *)

Definition is_white st n : Prop := default white (st !! n) = white.

#[local] Instance is_white_dec st n : Decision (is_white st n) := decide (default white (st !! n) = white).

Definition whites st : nat := length (filter (is_white st) (all_nodes ss us)).

(** Finished declarations can be written out. *)
Definition good st : Prop := forall n, st !! n = Some black -> exists k, is_Some (expand_node D k n).

(** What is grey or black stays so. *)
Definition ext st st' : Prop := forall n c, c <> white -> st !! n = Some c -> st' !! n = Some c.

Lemma ext_refl st : ext st st.
Proof. by intros n c. Qed.

Lemma ext_trans st st' st'' : ext st st' -> ext st' st'' -> ext st st''.
Proof. intros H1 H2 n c Hc Hn. exact (H2 n c Hc (H1 n c Hc Hn)). Qed.

Lemma ext_white st st' n : ext st st' -> is_white st' n -> is_white st n.
Proof. unfold is_white. intros He Hw. destruct (st !! n) as [[]|] eqn:E; [done|by rewrite (He n grey) in Hw|by rewrite (He n black) in Hw|done]. Qed.

Lemma filter_length_le {A} (P Q : A -> Prop) `{!forall x, Decision (P x), !forall x, Decision (Q x)} (l : list A) :
  (forall x, P x -> Q x) -> (length (filter P l) <= length (filter Q l))%nat.
Proof. intros HPQ. induction l as [|x l IH]; [done|]. rewrite !list.filter_cons. repeat case_decide; simpl; [lia|naive_solver|lia|lia]. Qed.

Lemma whites_ext st st' : ext st st' -> (whites st' <= whites st)%nat.
Proof. intros He. apply filter_length_le. intros n. by apply ext_white. Qed.

Lemma ext_grey st n : is_white st n -> ext st (<[n := grey]> st).
Proof.
  intros Hw n' c Hc Hn. destruct (decide (n' = n)) as [->|]; [|by rewrite lookup_insert_ne].
  unfold is_white in Hw. rewrite Hn in Hw. by simpl in Hw; subst.
Qed.

Lemma whites_grey st n : n ∈ all_nodes ss us -> is_white st n -> (whites (<[n := grey]> st) < whites st)%nat.
Proof.
  unfold whites. induction (all_nodes ss us) as [|x l IH]; intros Hin Hw; [by inversion Hin|]. rewrite !list.filter_cons.
  assert (Hx : is_white (<[n := grey]> st) x -> is_white st x) by (apply ext_white; by apply ext_grey).
  destruct (decide (x = n)) as [->|Hne].
  - rewrite (decide_False (P := is_white (<[n := grey]> st) n)) by (unfold is_white; by rewrite lookup_insert_eq). rewrite decide_True by done. simpl.
    pose proof (filter_length_le (is_white (<[n := grey]> st)) (is_white st) l (fun y => ext_white _ _ y (ext_grey st n Hw))). lia.
  - apply elem_of_cons in Hin as [|Hin]; [done|]. specialize (IH Hin Hw). repeat case_decide; simpl; [lia|naive_solver|lia|lia].
Qed.

(** Nothing else is left grey. *)
Definition settles st st' : Prop := forall n, st' !! n = Some grey -> st !! n = Some grey.

(** What one call of [visit] guarantees. *)
Definition visited (rec : node -> colors -> C colors) (f : nat) : Prop := forall n st,
  (whites st <= f)%nat -> n ∈ all_nodes ss us -> is_white st n -> good st ->
  silent D0 (rec n st) (fun st' _ => good st' /\ ext st st' /\ settles st st' /\ st' !! n = Some black).

Lemma visit_parts_silent rec f l : visited rec f -> forall st,
  (whites st <= f)%nat -> (forall dep, dep ∈ omap (fun p => p.2 ≫= typeDeps) l -> dep ∈ all_nodes ss us) -> good st ->
  silent D0 (visit_parts rec l st) (fun st' _ => good st' /\ ext st st' /\ settles st st' /\ forall dep, dep ∈ omap (fun p => p.2 ≫= typeDeps) l -> st' !! dep = Some black).
Proof.
  intros Hrec. induction l as [|[pos t] l IH]; intros st Hf Hin Hg; simpl.
  { apply silent_ret. split_and!; [done|apply ext_refl|by intros n|]. intros dep []%elem_of_nil. }
  simpl in Hin. destruct (t ≫= typeDeps) as [dep|] eqn:Et; [|by apply IH].
  assert (Hdep : dep ∈ all_nodes ss us) by (apply Hin; left).
  assert (Hl : forall d, d ∈ omap (fun p => p.2 ≫= typeDeps) l -> d ∈ all_nodes ss us) by (intros; apply Hin; by right).
  destruct (default white (st !! dep)) eqn:Ec.
  - eapply silent_bind; [by apply Hrec|]. intros st1 d (Hg1 & He1 & Hs1 & Hb1). pose proof (whites_ext _ _ He1).
    eapply silent_mono; [apply IH; [lia|done|done]|]. intros st2 d2 (Hg2 & He2 & Hs2 & Hb2). split_and!; [done|by eapply ext_trans|by intros n ?%Hs2%Hs1|].
    intros dep' [->|Hd]%elem_of_cons; [by apply He2|by apply Hb2].
  - apply silent_add.
  - eapply silent_mono; [by apply IH|]. intros st2 d2 (Hg2 & He2 & Hs2 & Hb2). split_and!; [done|done|done|].
    intros dep' [->|Hd]%elem_of_cons; [|by apply Hb2]. apply He2; [done|]. by destruct (st !! dep) as [[]|]; simplify_eq/=.
Qed.

Lemma visit_silent (Hcl : closed) fuel : visited (visit ss us fuel) fuel.
Proof.
  induction fuel as [|fuel IH]; intros n st Hf Hin Hw Hg.
  { pose proof (whites_grey st n Hin Hw). lia. }
  cbn [visit]. pose proof (whites_grey st n Hin Hw) as Hlt.
  eapply silent_bind; [apply (visit_parts_silent _ fuel)|].
  - exact IH.
  - lia.
  - apply Hcl.
  - intros n' Hn'. destruct (decide (n' = n)) as [->|]; [by rewrite lookup_insert_eq in Hn'|]. rewrite lookup_insert_ne in Hn' by done. by apply Hg.
  - intros st1 d (Hg1 & He1 & Hs1 & Hb1). apply silent_ret. split_and!.
    + intros n' Hn'. destruct (decide (n' = n)) as [->|]; [|rewrite lookup_insert_ne in Hn' by done; by apply Hg1].
      destruct (expand_all (deps n)) as [k Hk]; [apply list.Forall_forall; intros dep Hd; by apply Hg1, Hb1|].
      exists (S k). by apply expand_node_deps.
    + intros n' c Hc Hn'. destruct (decide (n' = n)) as [->|]; [|rewrite lookup_insert_ne by done; apply He1; [done|]; by rewrite lookup_insert_ne].
      unfold is_white in Hw. rewrite Hn' in Hw. by simpl in Hw; subst.
    + intros n' Hn'. destruct (decide (n' = n)) as [->|]; [by rewrite lookup_insert_eq in Hn'|]. rewrite lookup_insert_ne in Hn' by done.
      apply Hs1 in Hn'. by rewrite lookup_insert_ne in Hn'.
    + by rewrite lookup_insert_eq.
Qed.

Lemma visit_all_silent (Hcl : closed) ns : forall st, (forall n, n ∈ ns -> n ∈ all_nodes ss us) -> good st -> (forall n, st !! n <> Some grey) ->
  silent D0 (visit_all ss us ns st) (fun st' _ => good st' /\ ext st st' /\ forall n, n ∈ ns -> st' !! n = Some black).
Proof.
  induction ns as [|n ns IH]; intros st Hin Hg Hno; cbn [visit_all].
  { apply silent_ret. split_and!; [done|apply ext_refl|]. intros n []%elem_of_nil. }
  eapply (silent_bind _ _ _ (fun st' _ => good st' /\ ext st st' /\ settles st st' /\ st' !! n = Some black)).
  - destruct (default white (st !! n)) eqn:Ec.
    + apply visit_silent; [done| |by apply Hin; left|done|done]. unfold whites. apply length_filter.
    + exfalso. apply (Hno n). by destruct (st !! n) as [[]|]; simplify_eq/=.
    + apply silent_ret. split_and!; [done|apply ext_refl|by intros n'|]. by destruct (st !! n) as [[]|]; simplify_eq/=.
  - intros st1 d (Hg1 & He1 & Hs1 & Hb1). eapply silent_mono; [apply IH; [intros; apply Hin; by right|done|]|].
    + intros n' Hn'. by apply (Hno n'), Hs1.
    + intros st2 d2 (Hg2 & He2 & Hb2). split_and!; [done|by eapply ext_trans|].
      intros n' [->|Hd]%elem_of_cons; [by apply He2|by apply Hb2].
Qed.

Lemma checkCycles_silent (Hcl : closed) : silent D0 (checkCycles ss us) (fun _ _ => acyclic).
Proof.
  unfold checkCycles. eapply silent_bind; [apply visit_all_silent; [done|done| |]|].
  - intros n Hn. by rewrite lookup_empty in Hn.
  - intros n Hn. by rewrite lookup_empty in Hn.
  - intros st d (Hg & _ & Hb). apply silent_ret. intros n Hn. by apply Hg, Hb.
Qed.

(** *** Without cycles nothing is reported *)

Definition quiet {A} (c : C A) (Q : A -> Prop) : Prop := forall m, o_diags (c m).1.2 = [] /\ (c m).2 = m /\ Q (c m).1.1.

Lemma quiet_ret {A} (a : A) (Q : A -> Prop) : Q a -> quiet (mret a) Q.
Proof. done. Qed.

Lemma quiet_bind {A B} (c : C A) (f : A -> C B) (R : A -> Prop) (Q : B -> Prop) :
  quiet c R -> (forall a, R a -> quiet (f a) Q) -> quiet (c ≫= f) Q.
Proof.
  intros Hc Hf m. unfold mbind, C_bind. specialize (Hc m). destruct (c m) as [[a o] m1]. cbn [fst snd] in Hc. destruct Hc as (E1 & -> & HR).
  specialize (Hf a HR m). destruct (f a m) as [[b o'] m2]. cbn [fst snd out_app o_diags] in *. destruct Hf as (E2 & Em & HQ). by rewrite E1, E2.
Qed.

(** The grey declarations contain [n]: if one of them can be written out in [k]
    steps, so can [n]. *)
Definition below st n : Prop := forall g k, st !! g = Some grey -> is_Some (expand_node D k g) -> is_Some (expand_node D k n).

Section Quiet.
Context (Hcl : closed) (Hac : acyclic).

Lemma dep_smaller n dep k : n ∈ all_nodes ss us -> dep ∈ deps n -> is_Some (expand_node D (S k) n) -> is_Some (expand_node D k dep).
Proof. intros Hn Hd H. apply expand_node_deps in H; [|done]. rewrite list.Forall_forall in H. by apply H. Qed.

Lemma below_dep st n dep : n ∈ all_nodes ss us -> dep ∈ deps n -> below st n -> below st dep.
Proof.
  intros Hn Hd Hb g [|k] Hg Hk; [by destruct Hk|]. destruct (dep_smaller n dep k Hn Hd (Hb g _ Hg Hk)) as [x Hx].
  exists x. by apply expand_node_S.
Qed.

(** Nothing a declaration contains is grey. *)
Lemma dep_not_grey st n dep : n ∈ all_nodes ss us -> dep ∈ deps n -> below st n -> st !! dep <> Some grey.
Proof.
  intros Hn Hd Hb Hg. destruct (Hac dep (Hcl n dep Hd)) as [k [x Hx]]. rewrite (inside_self D dep k) in Hx; [done|].
  intros j Hj. apply (dep_smaller n); [done|done|]. by apply (Hb dep).
Qed.

Lemma below_settles st st' n : settles st st' -> below st n -> below st' n.
Proof. intros Hs Hb g k Hg. by apply Hb, Hs. Qed.

Lemma visit_parts_quiet rec n l : n ∈ all_nodes ss us -> (forall p, p ∈ l -> p ∈ parts ss us n) ->
  (forall dep st, dep ∈ all_nodes ss us -> below st dep -> quiet (rec dep st) (settles st)) ->
  forall st, below st n -> quiet (visit_parts rec l st) (settles st).
Proof.
  intros Hn Hl Hrec. induction l as [|[pos t] l IH]; intros st Hb; simpl; [by apply quiet_ret; intros ?|].
  assert (IH' : forall st, below st n -> quiet (visit_parts rec l st) (settles st)) by (apply IH; intros; apply Hl; by right).
  destruct (t ≫= typeDeps) as [dep|] eqn:Et; [|by apply IH'].
  assert (Hd : dep ∈ deps n) by (apply list_elem_of_omap; exists (pos, t); split; [apply Hl; left|done]).
  destruct (default white (st !! dep)) eqn:Ec; [|exfalso; apply (dep_not_grey st n dep Hn Hd Hb); by destruct (st !! dep) as [[]|]; simplify_eq/=|by apply IH'].
  eapply quiet_bind; [apply Hrec; [by eapply Hcl|by eapply below_dep]|]. intros st1 Hs1.
  intros m. destruct (IH' st1 (below_settles _ _ _ Hs1 Hb) m) as (E & Em & Hs2). split_and!; [done|done|]. by intros n' ?%Hs2%Hs1.
Qed.

Lemma visit_quiet fuel : forall n st, n ∈ all_nodes ss us -> below st n -> quiet (visit ss us fuel n st) (settles st).
Proof.
  induction fuel as [|fuel IH]; intros n st Hn Hb; cbn [visit]; [by apply quiet_ret; intros ?|].
  eapply quiet_bind; [apply (visit_parts_quiet _ n); [done|done|exact IH|]|].
  - intros g k Hg Hk. destruct (decide (g = n)) as [->|]; [done|]. rewrite lookup_insert_ne in Hg by done. by eapply Hb.
  - intros st1 Hs. apply quiet_ret. intros n' Hn'. destruct (decide (n' = n)) as [->|]; [by rewrite lookup_insert_eq in Hn'|].
    rewrite lookup_insert_ne in Hn' by done. apply Hs in Hn'. by rewrite lookup_insert_ne in Hn'.
Qed.

Lemma visit_all_quiet ns : forall st, (forall n, n ∈ ns -> n ∈ all_nodes ss us) -> (forall n, st !! n <> Some grey) ->
  quiet (visit_all ss us ns st) (fun _ => True).
Proof.
  induction ns as [|n ns IH]; intros st Hin Hno; cbn [visit_all]; [by apply quiet_ret|].
  eapply (quiet_bind _ _ (settles st)).
  - destruct (default white (st !! n)); [apply visit_quiet; [by apply Hin; left|]|by apply quiet_ret; intros ?..]. by intros g k Hg%Hno.
  - intros st1 Hs. apply IH; [intros; apply Hin; by right|]. by intros n' Hn'%Hs%Hno.
Qed.

End Quiet.

End Cycles.

(** C30. The search for cycles is exact. When every declaration that is mentioned
    exists, [checkCycles] reports nothing exactly if no struct or union contains
    itself, that is, if all of them can be written out in finitely many steps. *)
Theorem checkCycles_exact ss us m :
  closed ss us -> settled (decls_of ss us) m ->
  o_diags (checkCycles ss us m).1.2 = [] <-> acyclic ss us.
Proof.
  intros Hcl Hm. split.
  - intros E. by apply (checkCycles_silent (decls_of ss us) ss us Hcl m Hm E).
  - intros Hac. unfold checkCycles. eapply (quiet_bind (visit_all ss us (all_nodes ss us) ∅) (fun _ => mret tt) (fun _ => True) (fun _ => True)).
    + apply visit_all_quiet; [done|done|done|]. intros n Hn. by rewrite lookup_empty in Hn.
    + intros st _. by apply quiet_ret.
Qed.

(** struct A { b: B[3]; c: A[]; } struct B { x: u8; }: the search finds A in A. *)
Definition cyclic_structs : list Struct :=
  [mkStruct (str "A") [] [mkMember (str "b") (FixedArray (StructTy (str "B") 1) 3) no_pos; mkMember (str "c") (Array (StructTy (str "A") 0) 0) no_pos] no_pos;
   mkStruct (str "B") [] [mkMember (str "x") (Scalar KU8) no_pos] no_pos].

Lemma checkCycles_exact_witness : ~ acyclic cyclic_structs [].
Proof.
  rewrite <- (checkCycles_exact cyclic_structs [] empty_memo).
  - vm_compute. discriminate.
  - intros [[|[|i]]|i] dep Hd; vm_compute in Hd |- *; repeat (apply elem_of_cons in Hd as [->|Hd]; [repeat constructor|]); by apply elem_of_nil in Hd.
  - apply settled_empty.
Defined.
