(* ===== verification/IdlSound.v ===== *)
(** * IdlSound: what the checker lets through

    The types and declarations of an interface that [Parse] accepts: what the
    passes of check.go of bindgen/idl guarantee when they report nothing. *)
From S2P Require Import Prelude IdlTypes IdlSizes IdlModel IdlPlan IdlLex IdlParse IdlCheck IdlCycles.

(** ** The raw tree *)

(** A type that is no name is one of the keywords. *)
Definition raw_type_ok (rt : rawType) : Prop := rt_named rt = false -> rt_elem rt ∈ typeNames.

Record raw_ok (f : rawFile) : Prop := mkRawOk {
  ro_consts : Forall (fun c => rc_typ c ∈ intTypeNames) (f_consts f);
  ro_structs : Forall (fun s => Forall (fun m => raw_type_ok (rm_typ m)) (rs_members s)) (f_structs f);
  ro_unions : Forall (fun u => Forall (fun c => forall rt, rk_typ c = Some rt -> raw_type_ok rt) (ru_cases u)) (f_unions f);
  ro_funcs : Forall (fun g => Forall (fun p => raw_type_ok (rp_typ p)) (rf_params g) /\ forall rt, rf_ret g = Some rt -> raw_type_ok rt) (f_funcs f)
}.

Lemma g_type_ok ts ty ds : g_type ts ty ds -> raw_type_ok ty.
Proof. destruct 1 as [t pos elem named ts arr len ts' bpos bound He]. unfold raw_type_ok. simpl. by inversion He. Qed.

Lemma many_all {A} (g : phrase A) (P : A -> Prop) ts l ds : (forall ts a ds, g ts a ds -> P a) -> many g ts l ds -> Forall P l.
Proof. intros Hg. induction 1; constructor; eauto. Qed.

Lemma commas_all {A} (g : phrase A) (P : A -> Prop) ts l ds : (forall ts a ds, g ts a ds -> P a) -> comma_list g ts l ds -> Forall P l.
Proof. intros Hg. induction 1; repeat constructor; eauto. Qed.

Lemma g_fn_ok anns ts g ds : g_fn anns ts g ds ->
  Forall (fun p => raw_type_ok (rp_typ p)) (rf_params g) /\ forall rt, rf_ret g = Some rt -> raw_type_ok rt.
Proof.
  intros [anns0 sh kf ts1 name ds1 lp ts2 params ds2 rp ts3 ret ra rpos ds3 sc _ _ _ _ Hp _ Hr _]. simpl. split.
  - destruct Hp as [|ts' l ds' Hl]; [constructor|]. eapply commas_all; [|exact Hl]. intros ? ? ? []. by eapply g_type_ok.
  - intros rt ->. inversion Hr; subst. by eapply g_type_ok.
Qed.

Lemma g_decl_ok f ts f' ds : g_decl f ts f' ds -> raw_ok f -> raw_ok f'.
Proof.
  intros Hg [H1 H2 H3 H4]. destruct Hg as [| |  |  |ts0 anns ds0 ts pos name ms ds _ Hb|ts0 anns ds0 ts pos name cs ds _ Hb|ts0 anns ds0 ts g ds _ Hf];
    constructor; simpl; try done; apply list.Forall_app; (split; [done|]); (constructor; [simpl|constructor]); try done.
  - inversion Hb; subst. eapply many_all; [|eassumption]. intros ? ? ? []. by eapply g_type_ok.
  - inversion Hb; subst. eapply many_all; [|eassumption]. intros ? ? ? [|]; simpl; intros rt [=]; subst. by eapply g_type_ok.
  - by apply (g_fn_ok _ _ _ _ Hf).
Qed.

Lemma g_file_ok ts f ds : g_file ts f ds -> raw_ok f.
Proof.
  destruct 1 as [ki v s1 ts anns ds0 ks ts' name ds s2 ts'' f ds' _ _ _ _ _ _ _ Hd].
  assert (H0 : raw_ok (mkRawFile (t_val v) (t_pos v) anns name (t_pos ks) [] [] [] [] [] [])) by (constructor; constructor).
  revert H0. induction Hd as [|? ? ? ? ? ? ? Hg _ IH]; [done|]. intros H. apply IH. by eapply g_decl_ok.
Qed.

(** ** Names *)

(** What the rules demand of a declared name. *)
Definition name_ok (x : bytes) : Prop := x ∉ cKeywords /\ double_underscore x = false /\ ((3 <= length x)%nat -> hqq_prefix x = false).

Section Names.
Context (D : decls).

Lemma checkName_silent pos x (Q : unit -> list deferredCheck -> Prop) : (name_ok x -> Q tt []) -> silent D (checkName pos x) Q.
Proof.
  intros HQ. unfold checkName. eapply silent_bind; [apply (silent_when _ _ _ _ (fun _ d => x ∉ cKeywords /\ d = []))|intros [] d [H1 ->]].
  { intros H%bool_decide_eq_false. done. }
  eapply silent_bind; [apply (silent_when _ _ _ _ (fun _ d => double_underscore x = false /\ d = [])); done|intros [] d [H2 ->]].
  apply silent_when. intros H3. apply HQ. split_and!; [done|done|]. intros Hl. apply andb_false_iff in H3 as [H3|H3]; [|done].
  apply Nat.leb_gt in H3. lia.
Qed.

(** ** Constants *)

Lemma declareConsts_silent rcs consts :
  silent D (declareConsts rcs consts) (fun r d => d = [] /\
    k_Name <$> r.1 = (fun rc => n_text (rc_name rc)) <$> rcs /\ NoDup (k_Name <$> r.1) /\
    Forall (fun c => name_ok (k_Name c) /\ fitsKind (k_Value c) (k_Type c) = true /\ consts !! k_Name c = None /\ r.2 !! k_Name c = Some c) r.1 /\
    consts ⊆ r.2 /\ (forall x c, r.2 !! x = Some c -> consts !! x = Some c \/ c ∈ r.1 /\ k_Name c = x)).
Proof.
  revert consts. induction rcs as [|rc rcs IH]; intros consts; cbn [declareConsts].
  { apply silent_ret. split_and!; [done|done|constructor|constructor|done|auto]. }
  eapply silent_bind; [apply (checkName_silent _ _ (fun _ d => name_ok (n_text (rc_name rc)) /\ d = [])); done|intros [] d0 [Hnm ->]].
  set (ct := mkConst _ _ _ _).
  eapply silent_bind; [apply (silent_when _ _ _ _ (fun _ d => consts !! k_Name ct = None /\ d = []))|intros [] d [Hd ->]].
  { intros H%bool_decide_eq_false. split; [|done]. by apply eq_None_not_Some. }
  rewrite bool_decide_eq_false_2 by (rewrite Hd; by intros []).
  eapply silent_bind; [apply (silent_when _ _ _ _ (fun _ d => fitsKind (rc_val rc) (kind (kindByName (rc_typ rc))) = true /\ d = []))|intros [] d [Hf ->]].
  { by intros H%negb_false_iff. }
  eapply silent_bind; [apply IH|]. intros [cts m] d (-> & En & Hnd & Hall & Hsub & Honly). cbn [fst snd] in *. apply silent_ret.
  assert (Hct : m !! k_Name ct = Some ct) by (eapply lookup_weaken; [|exact Hsub]; apply lookup_insert_eq).
  split_and!; cbn [fst snd app].
  - done.
  - csimpl. by rewrite En.
  - csimpl. apply list.NoDup_cons. split; [|done]. intros (c & E & Hc)%list_elem_of_fmap. rewrite list.Forall_forall in Hall.
    destruct (Hall c Hc) as (_ & _ & Hn & _). rewrite <- E, lookup_insert_eq in Hn. done.
  - constructor; [done|]. eapply Forall_impl; [|exact Hall]. intros c (H1 & H2 & H3 & H4). split_and!; [done|done| |done].
    apply lookup_insert_None in H3. apply H3.
  - etrans; [|exact Hsub]. by apply insert_subseteq.
  - intros x c Hx. destruct (Honly x c Hx) as [H|[H1 H2]]; [|right; split; [by right|done]].
    destruct (decide (x = k_Name ct)) as [->|Hne]; [rewrite lookup_insert_eq in H; simplify_eq; right; split; [left|done]|].
    rewrite lookup_insert_ne in H by done. by left.
Qed.

End Names.

(** ** Checks that defer nothing *)

Section Plain.
Context (D : decls).

Definition plain {A} (c : C A) : Prop := silent D c (fun _ d => d = []).

Lemma plain_bind {A B} (c : C A) (f : A -> C B) (Q : B -> list deferredCheck -> Prop) :
  plain c -> (forall a, silent D (f a) Q) -> silent D (c ≫= f) Q.
Proof. intros Hc Hf. eapply silent_bind; [exact Hc|]. intros a d ->. apply Hf. Qed.

Lemma plain_seq {A B} (c : C A) (f : A -> C B) : plain c -> (forall a, plain (f a)) -> plain (c ≫= f).
Proof. intros Hc Hf. by apply plain_bind. Qed.

Lemma plain_ret {A} (a : A) : plain (mret a).
Proof. by apply silent_ret. Qed.

Lemma plain_when b pos rule : plain (when b pos rule).
Proof. by apply silent_when. Qed.

Lemma plain_checkName pos x : plain (checkName pos x).
Proof. by apply checkName_silent. Qed.
End Plain.

#[export] Hint Resolve plain_when plain_checkName : plain.

(** The checks without [defer] and without questions about sizes. *)
Ltac plain_step :=
  first [ progress intros
        | solve [auto with plain nocore]
        | apply silent_add | apply silent_add_end | apply plain_ret | apply plain_seq
        | match goal with |- context [match ?x with _ => _ end] => destruct x end
        | progress cbv zeta ].
Ltac plain_auto := repeat plain_step.

Section Plain2.
Context (D : decls).

Lemma plain_takeAnns anns service allowed set : plain D (takeAnns anns service allowed set).
Proof. revert set. induction anns as [|a anns IH]; intros set; cbn [takeAnns]; plain_auto; apply IH. Qed.

Lemma plain_noArgs a : plain D (noArgs a).
Proof. unfold noArgs. plain_auto. Qed.

Lemma plain_oneString a : plain D (oneString a).
Proof. unfold oneString. plain_auto. Qed.

Lemma plain_oneIdent a b : plain D (oneIdent a b).
Proof. unfold oneIdent. plain_auto. Qed.

Lemma plain_checkCType pos s : plain D (checkCType pos s).
Proof. unfold checkCType. plain_auto. Qed.

Lemma plain_checkFreeSym pos s : plain D (checkFreeSym pos s).
Proof. unfold checkFreeSym. plain_auto. Qed.

Lemma plain_checkCancelSym pos s : plain D (checkCancelSym pos s).
Proof. unfold checkCancelSym. plain_auto. Qed.
End Plain2.

#[export] Hint Resolve plain_takeAnns plain_noArgs plain_oneString plain_oneIdent plain_checkCType plain_checkFreeSym plain_checkCancelSym : plain.

Lemma plain_cTypeOf D set : plain D (cTypeOf set).
Proof. unfold cTypeOf. plain_auto. Qed.

Lemma plain_cancelOf D set : plain D (cancelOf set).
Proof. unfold cancelOf. plain_auto. Qed.

Lemma plain_intValue D consts r : plain D (intValue consts r).
Proof. unfold intValue. plain_auto. Qed.

#[export] Hint Resolve plain_cTypeOf plain_cancelOf plain_intValue : plain.

Lemma plain_argInt D consts a : plain D (argInt consts a).
Proof. unfold argInt. plain_auto. Qed.

Lemma plain_checkInclude D i : plain D (checkInclude i).
Proof. unfold checkInclude. plain_auto. Qed.

Lemma plain_serviceAnnotations D anns : plain D (serviceAnnotations anns).
Proof. unfold serviceAnnotations. plain_auto. Qed.

#[export] Hint Resolve plain_argInt plain_checkInclude plain_serviceAnnotations : plain.

(** ** Declared types *)

Section Declare.
Context (D : decls).
Implicit Types (types : typeMap) (ent : typeEnt) (name : rawName).

Lemma addType_silent name ent types (Q : typeMap -> list deferredCheck -> Prop) :
  (name_ok (n_text name) -> types !! n_text name = None -> Q (<[n_text name := ent]> types) []) -> silent D (addType name ent types) Q.
Proof.
  intros HQ. unfold addType. eapply silent_bind; [apply (checkName_silent _ _ _ (fun _ d => name_ok (n_text name) /\ d = [])); done|intros [] d [Hn ->]].
  destruct (bool_decide _) eqn:E; [apply silent_add|]. apply silent_ret. apply bool_decide_eq_false in E. apply HQ; [done|]. by apply eq_None_not_Some.
Qed.

(** The names [xs] entered one after the other: they are new and distinct, and
    the map has nothing else. *)
Definition entered (mk : nat -> typeEnt) (i : nat) (xs : list bytes) (types types' : typeMap) : Prop :=
  NoDup xs /\ (forall x, x ∈ xs -> name_ok x /\ types !! x = None) /\
  forall x ent, types' !! x = Some ent <-> types !! x = Some ent \/ exists j, xs !! j = Some x /\ ent = mk (i + j)%nat.

Lemma entered_nil mk i types : entered mk i [] types types.
Proof. split_and!; [constructor|set_solver|]. intros x ent. split; [by left|]. by intros [|(j & [=] & _)]. Qed.

Lemma entered_cons mk i x xs types types' :
  name_ok x -> types !! x = None -> entered mk (S i) xs (<[x := mk i]> types) types' -> entered mk i (x :: xs) types types'.
Proof.
  intros Hx Hn (Hnd & Hnew & Hmap). split_and!.
  - apply list.NoDup_cons. split; [|done]. intros H. destruct (Hnew x H) as [_ E]. by rewrite lookup_insert_eq in E.
  - intros y [->|Hy]%elem_of_cons; [done|]. destruct (Hnew y Hy) as [? E]. split; [done|]. apply lookup_insert_None in E. apply E.
  - intros y ent. rewrite Hmap. destruct (decide (y = x)) as [->|Hne].
    + rewrite lookup_insert_eq, Hn. split.
      * intros [[= <-]|(j & Hj & ->)]; right; [exists 0%nat; by rewrite Nat.add_0_r|exists (S j); by rewrite Nat.add_succ_r].
      * intros [[=]|([|j] & Hj & ->)]; [left; by rewrite Nat.add_0_r|right; exists j; by rewrite Nat.add_succ_r].
    + rewrite lookup_insert_ne by done. split.
      * intros [H|(j & Hj & ->)]; [by left|right; exists (S j); by rewrite Nat.add_succ_r].
      * intros [H|([|j] & Hj & ->)]; [by left|simpl in Hj; congruence|right; exists j; by rewrite Nat.add_succ_r].
Qed.

Definition handle_names (rhs : list rawHandle) : list bytes := (fun rh => n_text (rh_name rh)) <$> rhs.
Definition struct_names (rss : list rawStruct) : list bytes := (fun rs => n_text (rs_name rs)) <$> rss.
Definition union_names (rus : list rawUnion) : list bytes := (fun ru => n_text (ru_name ru)) <$> rus.

Lemma declareHandles_silent rhs : forall i types,
  silent D (declareHandles i rhs types) (fun r d => d = [] /\ h_Name <$> r.1 = handle_names rhs /\
    Forall (fun h => h_Parent h = None /\ h_Destroy h = None) r.1 /\ entered EHandle i (handle_names rhs) types r.2).
Proof.
  induction rhs as [|rh rhs IH]; intros i types; cbn [declareHandles].
  { apply silent_ret. split_and!; [done|done|constructor|apply entered_nil]. }
  apply plain_bind; [auto with plain|intros set]. apply plain_bind; [auto with plain|intros ct]. apply plain_bind; [auto with plain|intros cn].
  eapply silent_bind; [apply (addType_silent _ _ _ (fun t d => d = [] /\ name_ok (n_text (rh_name rh)) /\ types !! n_text (rh_name rh) = None /\ t = <[n_text (rh_name rh) := EHandle i]> types)); done|].
  intros t d (-> & Hn & Hnone & ->). eapply silent_bind; [apply IH|]. intros [hs ty] d (-> & En & Hp & He). apply silent_ret. cbn [fst snd] in *.
  split_and!; [done|csimpl; by rewrite En|by constructor|by apply entered_cons].
Qed.

Lemma declareStructs_silent rss : forall i types,
  silent D (declareStructs i rss types) (fun r d => d = [] /\ s_Name <$> r.1 = struct_names rss /\
    Forall (fun s => s_Members s = []) r.1 /\ entered EStruct i (struct_names rss) types r.2).
Proof.
  induction rss as [|rs rss IH]; intros i types; cbn [declareStructs].
  { apply silent_ret. split_and!; [done|done|constructor|apply entered_nil]. }
  apply plain_bind; [auto with plain|intros set]. apply plain_bind; [auto with plain|intros ct].
  eapply silent_bind; [apply (addType_silent _ _ _ (fun t d => d = [] /\ name_ok (n_text (rs_name rs)) /\ types !! n_text (rs_name rs) = None /\ t = <[n_text (rs_name rs) := EStruct i]> types)); done|].
  intros t d (-> & Hn & Hnone & ->). eapply silent_bind; [apply IH|]. intros [hs ty] d (-> & En & Hp & He). apply silent_ret. cbn [fst snd] in *.
  split_and!; [done|csimpl; by rewrite En|by constructor|by apply entered_cons].
Qed.

Lemma declareUnions_silent rus : forall i types,
  silent D (declareUnions i rus types) (fun r d => d = [] /\ u_Name <$> r.1 = union_names rus /\
    Forall (fun u => u_Cases u = []) r.1 /\ entered EUnion i (union_names rus) types r.2).
Proof.
  induction rus as [|ru rus IH]; intros i types; cbn [declareUnions].
  { apply silent_ret. split_and!; [done|done|constructor|apply entered_nil]. }
  apply plain_bind; [auto with plain|intros set].
  eapply silent_bind; [apply (addType_silent _ _ _ (fun t d => d = [] /\ name_ok (n_text (ru_name ru)) /\ types !! n_text (ru_name ru) = None /\ t = <[n_text (ru_name ru) := EUnion i]> types)); done|].
  intros t d (-> & Hn & Hnone & ->). eapply silent_bind; [apply IH|]. intros [hs ty] d (-> & En & Hp & He). apply silent_ret. cbn [fst snd] in *.
  split_and!; [done|csimpl; by rewrite En|by constructor|by apply entered_cons].
Qed.

End Declare.

(** The type namespace: each name stands for the declaration with that name. *)
Definition types_ok (hn sn un : list bytes) (types : typeMap) : Prop := forall x ent, types !! x = Some ent <->
  exists i, ent = EHandle i /\ hn !! i = Some x \/ ent = EStruct i /\ sn !! i = Some x \/ ent = EUnion i /\ un !! i = Some x.

Lemma declareTypes_silent D f :
  silent D (declareTypes f) (fun '(hs, ss, us, types) d => d = [] /\
    h_Name <$> hs = handle_names (f_handles f) /\ s_Name <$> ss = struct_names (f_structs f) /\ u_Name <$> us = union_names (f_unions f) /\
    Forall (fun h => h_Parent h = None /\ h_Destroy h = None) hs /\ Forall (fun s => s_Members s = []) ss /\ Forall (fun u => u_Cases u = []) us /\
    types_ok (handle_names (f_handles f)) (struct_names (f_structs f)) (union_names (f_unions f)) types /\
    NoDup (handle_names (f_handles f) ++ struct_names (f_structs f) ++ union_names (f_unions f)) /\
    Forall name_ok (handle_names (f_handles f) ++ struct_names (f_structs f) ++ union_names (f_unions f))).
Proof.
  unfold declareTypes. eapply silent_bind; [apply declareHandles_silent|]. intros [hs t1] d (-> & E1 & P1 & N1 & W1 & M1). cbn [fst snd] in *.
  eapply silent_bind; [apply declareStructs_silent|]. intros [ss t2] d (-> & E2 & P2 & N2 & W2 & M2). cbn [fst snd] in *.
  eapply silent_bind; [apply declareUnions_silent|]. intros [us t3] d (-> & E3 & P3 & N3 & W3 & M3). cbn [fst snd] in *. apply silent_ret.
  set (hn := handle_names _) in *. set (sn := struct_names _) in *. set (un := union_names _) in *.
  assert (H12 : forall x, x ∈ hn -> x ∉ sn).
  { intros x [i Hi]%list_elem_of_lookup Hs. destruct (W2 x Hs) as [_ E]. rewrite (proj2 (M1 x (EHandle i))) in E; [done|]. right. by exists i. }
  assert (H3 : forall x, x ∈ un -> x ∉ hn /\ x ∉ sn).
  { intros x Hx. destruct (W3 x Hx) as [_ E]. split; intros [i Hi]%list_elem_of_lookup.
    - rewrite (proj2 (M2 x (EHandle i))) in E; [done|]. left. apply M1. right. by exists i.
    - rewrite (proj2 (M2 x (EStruct i))) in E; [done|]. right. by exists i. }
  split_and!; [done..| | |].
  - intros x ent. rewrite M3, M2, M1, lookup_empty. simpl. split.
    + intros [[[[=]|(j & Hj & ->)]|(j & Hj & ->)]|(j & Hj & ->)]; exists j; auto.
    + intros (i & [[-> H]|[[-> H]|[-> H]]]); [left; left; right|left; right|right]; by exists i.
  - apply list.NoDup_app. split_and!; [done|set_solver|]. apply list.NoDup_app. split_and!; [done| |done]. set_solver.
  - rewrite !list.Forall_app, !list.Forall_forall. split_and!; intros x Hx; [by apply W1|by apply W2|by apply W3].
Qed.

(** ** Owners of handles *)

(** The owners of a handle end. *)
Inductive rooted (hs : list Handle) : nat -> Prop :=
| rooted_step i h : hs !! i = Some h -> (forall p, h_Parent h = Some p -> rooted hs p) -> rooted hs i.

Section Owners.
Context (D : decls) (types : typeMap).

Lemma parents_silent rhs : forall i hs, Forall (fun h => h_Parent h = None /\ h_Destroy h = None) hs ->
  silent D (parents i types rhs hs) (fun hs' d => d = [] /\ h_Name <$> hs' = h_Name <$> hs /\ Forall (fun h => h_Destroy h = None) hs' /\
    forall j h p, hs' !! j = Some h -> h_Parent h = Some p -> exists x, types !! x = Some (EHandle p)).
Proof.
  induction rhs as [|rh rhs IH]; intros i hs Hh; cbn [parents].
  { apply silent_ret. split_and!; [done|done|eapply Forall_impl; [|exact Hh]; by intros h []|].
    intros j h p Hj Hp. rewrite list.Forall_lookup in Hh. destruct (Hh j h Hj). congruence. }
  destruct Hh as [|h hs [Hp Hd] Hh]; [by apply silent_ret|].
  eapply (silent_bind _ _ _ (fun h' d => d = [] /\ h_Name h' = h_Name h /\ h_Destroy h' = None /\
    forall p, h_Parent h' = Some p -> exists x, types !! x = Some (EHandle p))).
  - destruct (rh_ownedBy rh) as [o|]; [|apply silent_ret; split_and!; [done..|congruence]].
    destruct (types !! n_text o) as [[j|j|j]|] eqn:Et; try apply silent_add.
    destruct (bool_decide (j = i)); [apply silent_add|]. apply silent_ret. split_and!; [done..|]. intros p [= <-]. by exists (n_text o).
  - intros h' d (-> & En & Hd' & Hp'). eapply silent_bind; [by apply IH|]. intros hs' d (-> & Ens & Hds & Hps). apply silent_ret.
    split_and!; [done|csimpl; by rewrite En, Ens|by constructor|]. intros [|j] h0 p Hj Hp0; simpl in Hj; simplify_eq; [by apply Hp'|by eapply Hps].
Qed.

Lemma breakCycles_silent is_ : forall hs, silent D (breakCycles is_ hs) (fun hs' d => d = [] /\ hs' = hs /\
  forall i h, i ∈ is_ -> hs !! i = Some h -> owner_cycle (length hs + 2) hs i (h_Parent h) 0 = false).
Proof.
  induction is_ as [|i is_ IH]; intros hs; cbn [breakCycles].
  { apply silent_ret. split_and!; [done|done|]. by intros i h []%elem_of_nil. }
  destruct (hs !! i) as [h|] eqn:Eh.
  - destruct (owner_cycle _ _ _ _ _) eqn:Eo; [apply silent_add|]. eapply silent_mono; [apply IH|]. intros hs' d (-> & -> & H).
    split_and!; [done|done|]. intros j h' [->|Hj]%elem_of_cons Hh; [congruence|by apply H].
  - eapply silent_mono; [apply IH|]. intros hs' d (-> & -> & H). split_and!; [done|done|].
    intros j h' [->|Hj]%elem_of_cons Hh; [congruence|by apply H].
Qed.

(** A walk that does not come back and is not too long ends. *)
Lemma owner_cycle_rooted hs : (forall j h p, hs !! j = Some h -> h_Parent h = Some p -> (p < length hs)%nat) ->
  forall fuel i p steps, (length hs + 2 = fuel + steps)%nat -> (steps <= length hs + 1)%nat -> owner_cycle fuel hs i (Some p) steps = false -> (p < length hs)%nat -> rooted hs p.
Proof.
  intros Hin. induction fuel as [|fuel IH]; intros i p steps Hf Hs Ho Hp; simpl in Ho.
  - exfalso. lia.
  - apply orb_false_iff in Ho as [[_ H2]%orb_false_iff Ho]. apply Nat.ltb_ge in H2. destruct (lookup_lt_is_Some_2 _ _ Hp) as [h Hh].
    apply (rooted_step hs p h Hh). intros q Hq. rewrite Hh in Ho. simpl in Ho. rewrite Hq in Ho. eapply IH; [| |exact Ho|by eapply Hin]; lia.
Qed.

Lemma resolveHandleParents_silent hn sn un rhs hs : types_ok hn sn un types -> h_Name <$> hs = hn ->
  Forall (fun h => h_Parent h = None /\ h_Destroy h = None) hs ->
  silent D (resolveHandleParents types rhs hs) (fun hs' d => d = [] /\ h_Name <$> hs' = hn /\ Forall (fun h => h_Destroy h = None) hs' /\
    (forall j h p, hs' !! j = Some h -> h_Parent h = Some p -> (p < length hs')%nat) /\ forall i, (i < length hs')%nat -> rooted hs' i).
Proof.
  intros Ht En Hh. unfold resolveHandleParents. eapply silent_bind; [by apply parents_silent|]. intros hs1 d (-> & En1 & Hd & Hp).
  eapply silent_mono; [apply breakCycles_silent|]. intros hs2 d (-> & -> & Ho).
  assert (Hlen : length hs1 = length hn) by (rewrite <- En, <- (length_fmap h_Name hs1), En1; done).
  assert (Hin : forall j h p, hs1 !! j = Some h -> h_Parent h = Some p -> (p < length hs1)%nat).
  { intros j h p Hj Hpp. destruct (Hp j h p Hj Hpp) as [x Hx]. apply Ht in Hx as (i & [[[= <-] Hi]|[[[=] _]|[[=] _]]]).
    rewrite Hlen. by eapply lookup_lt_Some. }
  split_and!; [done|by rewrite En1|done|done|]. intros i Hi. destruct (lookup_lt_is_Some_2 _ _ Hi) as [h Hh1]. apply (rooted_step _ i h Hh1).
  intros p Hpp. apply (owner_cycle_rooted hs1 Hin (length hs1 + 2) i p 0); [lia|lia|rewrite <- Hpp; apply Ho; [apply elem_of_seq; lia|done]|by eapply Hin].
Qed.

End Owners.

(** ** Resolved types *)

Definition is_array (t : Ty) : bool := match t with FixedArray _ _ | Array _ _ => true | _ => false end.

(** A type as the checker builds it: declared names, scalars, bounds in range
    (0 is no bound), and arrays only of types that are no arrays. *)
Fixpoint ty_ok (hn sn un : list bytes) (t : Ty) : Prop :=
  match t with
  | Scalar k => IsScalar k = true
  | Str mx | Bytes mx => 0 <= mx <= MaxBound
  | StructTy x i => sn !! i = Some x
  | UnionTy x i => un !! i = Some x
  | HandleTy x i => hn !! i = Some x
  | FixedArray e n => ty_ok hn sn un e /\ is_array e = false /\ 1 <= n <= MaxFixedArray
  | Array e mx => ty_ok hn sn un e /\ is_array e = false /\ 0 <= mx <= MaxBound
  end.

(** Handles stand only in parameters and returns, and not in arrays. *)
Definition no_handle (t : Ty) : Prop := match t with HandleTy _ _ | FixedArray (HandleTy _ _) _ | Array (HandleTy _ _) _ => False | _ => True end.

Section Resolve.
Context (D : decls) (consts : constMap) (types : typeMap) (hn sn un : list bytes).
Context (Ht : types_ok hn sn un types).

Lemma kindByName_ok x : x ∈ typeNames -> ty_ok hn sn un (kindByName x) /\ is_array (kindByName x) = false /\ no_handle (kindByName x).
Proof.
  intros Hx. unfold typeNames, intTypeNames in Hx. cbn [app] in Hx.
  repeat (apply elem_of_cons in Hx as [->|Hx]; [vm_compute; done|]). by apply elem_of_nil in Hx.
Qed.

Lemma intValue_silent r (Q : option Z -> list deferredCheck -> Prop) : (forall n, Q (Some n) []) -> silent D (intValue consts r) Q.
Proof. intros HQ. unfold intValue. destruct (negb (ir_isName r)); [by apply silent_ret|]. destruct (consts !! ir_name r); [by apply silent_ret|apply silent_add]. Qed.

Lemma countIn_silent r limit (Q : Z -> list deferredCheck -> Prop) : (forall n, 1 <= n <= limit -> Q n []) -> silent D (countIn consts r limit) Q.
Proof.
  intros HQ. unfold countIn. eapply silent_bind; [apply (intValue_silent _ (fun x d => d = [] /\ is_Some x)); eauto|]. intros x d [-> [n ->]].
  destruct ((n <? 1) || (limit <? n)) eqn:E; [apply silent_add|]. apply silent_ret. apply orb_false_iff in E as [E1%Z.ltb_ge E2%Z.ltb_ge]. by apply HQ.
Qed.

(** A resolved type; a T[N] leaves a check of its sizes. *)
Definition resolved (inFunc : bool) (t : Ty) (d : list deferredCheck) : Prop :=
  ty_ok hn sn un t /\ (inFunc = false -> no_handle t) /\ no_handle (match t with HandleTy _ _ => Scalar KU8 | _ => t end) /\
  (forall e n, t = FixedArray e n -> exists pos, DArray pos e t ∈ d).

Lemma resolveElem_silent rt inFunc (Q : option Ty -> list deferredCheck -> Prop) : raw_type_ok rt ->
  (forall t, ty_ok hn sn un t -> is_array t = false -> (inFunc = false -> no_handle t) -> (rt_hasArr rt = true -> no_handle t) -> Q (Some t) []) ->
  silent D (resolveElem types rt inFunc) Q.
Proof.
  intros Hraw HQ. unfold resolveElem. destruct (rt_named rt) eqn:En; [|apply silent_ret; destruct (kindByName_ok _ (Hraw En)) as (H1 & H2 & H3); by apply HQ].
  destruct (types !! rt_elem rt) as [ent|] eqn:Et; [|apply silent_add]. apply Ht in Et as (i & [[-> Hi]|[[-> Hi]|[-> Hi]]]).
  - eapply silent_bind; [apply (silent_when _ _ _ _ (fun _ d => d = [] /\ inFunc = true /\ rt_hasArr rt = false))|].
    { intros [H1%negb_false_iff H2]%orb_false_iff. done. }
    intros [] d (-> & -> & Ha). apply silent_ret. apply HQ; [done|done|done|congruence].
  - apply silent_ret. by apply HQ.
  - apply silent_ret. by apply HQ.
Qed.

Lemma resolveType_silent rt inFunc (Q : option Ty -> list deferredCheck -> Prop) : raw_type_ok rt ->
  (forall t d, resolved inFunc t d -> Q (Some t) d) -> silent D (resolveType consts types rt inFunc) Q.
Proof.
  intros Hraw HQ. unfold resolveType.
  eapply silent_bind; [apply (resolveElem_silent rt inFunc (fun o d => d = [] /\ exists t, o = Some t /\ ty_ok hn sn un t /\ is_array t = false /\
    (inFunc = false -> no_handle t) /\ (rt_hasArr rt = true -> no_handle t))); eauto 10|].
  intros o d (-> & e & -> & He & Ha & Hh & Hh2).
  eapply (silent_bind _ _ _ (fun t d => resolved inFunc t d)).
  - unfold resolveArray. destruct (rt_hasArr rt) eqn:Er.
    + assert (Hne : no_handle (Array e 0) /\ forall n, no_handle (FixedArray e n)) by (specialize (Hh2 eq_refl); by destruct e).
      destruct (rt_arrLen rt) as [r|].
      * eapply silent_bind; [apply (countIn_silent _ _ (fun n d => d = [] /\ 1 <= n <= MaxFixedArray)); done|]. intros n d [-> Hn].
        eapply silent_bind; [apply (silent_defer _ _ (fun _ d => d = [DArray (rt_pos rt) e (FixedArray e n)])); done|]. intros [] d ->. apply silent_ret.
        split; [simpl; tauto|]. split; [intros _; apply Hne|]. split; [apply Hne|]. intros e' n' [= <- <-]. exists (rt_pos rt). simpl. left.
      * apply silent_ret. split; [simpl; unfold MaxBound; split_and!; [done|done|lia..]|]. split; [intros _; apply (proj1 Hne)|]. split; [apply (proj1 Hne)|done].
    + apply silent_ret. split; [done|]. split; [done|]. split; [by destruct e|]. by intros e' n' ->.
  - intros t d (Hok & Hh3 & Hh4 & Hd). eapply (silent_bind _ _ _ (fun t' d' => d' = [] /\ resolved inFunc t' d)).
    + unfold resolveBound. destruct (rt_bound rt) as [r|]; [|by apply silent_ret]. destruct (isVarBuf t) eqn:Ev; [|apply silent_add]. simpl.
      eapply silent_bind; [apply (countIn_silent _ _ (fun n d => d = [] /\ 1 <= n <= MaxBound)); done|]. intros n d' [-> Hn]. apply silent_ret. split; [done|].
      destruct t; try done; simpl in *; split_and!; simpl; naive_solver lia.
    + intros t' d' (-> & Hr). apply silent_ret. rewrite !app_nil_r. by apply HQ.
Qed.

Lemma resolved_mono inFunc t d d' : resolved inFunc t d -> d ⊆ d' -> resolved inFunc t d'.
Proof. intros (H1 & H2 & H3 & H4) Hd. split_and!; [done|done|done|]. intros e n E. destruct (H4 e n E) as [pos Hp]. exists pos. by apply Hd. Qed.

Definition member_ok (d : list deferredCheck) (m : Member) : Prop := name_ok (mb_Name m) /\ resolved false (mb_Type m) d.
Definition case_ok (d : list deferredCheck) (c : Case) : Prop :=
  name_ok (c_Name c) /\ 0 <= c_Tag c < 2 ^ 32 /\ forall t, c_Type c = Some t -> resolved false t d.

Lemma member_ok_mono d d' m : d ⊆ d' -> member_ok d m -> member_ok d' m.
Proof. intros Hd [H1 H2]. split; [done|by eapply resolved_mono]. Qed.

Lemma case_ok_mono d d' c : d ⊆ d' -> case_ok d c -> case_ok d' c.
Proof. intros Hd (H1 & H2 & H3). split_and!; [done|lia..|]. intros t E. eapply resolved_mono; [by apply H3|done]. Qed.

Lemma resolveMember_silent rm : raw_type_ok (rm_typ rm) -> silent D (resolveMember consts types rm) (fun m d => member_ok d m).
Proof.
  intros Hraw. unfold resolveMember. eapply silent_bind; [apply (checkName_silent _ _ _ (fun _ d => d = [] /\ name_ok (n_text (rm_name rm)))); done|].
  intros [] d [-> Hn]. eapply silent_bind; [apply (resolveType_silent _ _ (fun o d => exists t, o = Some t /\ resolved false t d)); eauto|].
  intros o d (t & -> & Hr). apply silent_ret. simpl. rewrite app_nil_r. done.
Qed.

Lemma resolveCase_silent rc : (forall rt, rk_typ rc = Some rt -> raw_type_ok rt) -> silent D (resolveCase consts types rc) (fun c d => case_ok d c).
Proof.
  intros Hraw. unfold resolveCase. eapply silent_bind; [apply (checkName_silent _ _ _ (fun _ d => d = [] /\ name_ok (n_text (rk_name rc)))); done|].
  intros [] d [-> Hn]. cbv zeta. eapply silent_bind; [apply (silent_when _ _ _ _ (fun _ d => d = [] /\ 0 <= rk_tag rc < 2 ^ 32))|].
  { intros [E1%Z.leb_le E2%Z.ltb_lt]%negb_false_iff%andb_true_iff. done. }
  intros [] d [-> Htag]. eapply (silent_bind _ _ _ (fun o d => forall t, o = Some t -> resolved false t d)).
  - destruct (rk_typ rc) as [rt|]; [|by apply silent_ret]. apply resolveType_silent; [by apply Hraw|]. by intros t d Hr ? [= <-].
  - intros o d Hr. apply silent_ret. simpl. rewrite app_nil_r.
    replace ((0 <=? rk_tag rc) && (rk_tag rc <? 2 ^ 32)) with true by (symmetry; apply andb_true_iff; split; [apply Z.leb_le|apply Z.ltb_lt]; lia). done.
Qed.

Lemma structMembers_silent rss : Forall (fun s => Forall (fun m => raw_type_ok (rm_typ m)) (rs_members s)) rss -> forall ss,
  Forall (fun s => s_Members s = []) ss ->
  silent D (structMembers consts types rss ss) (fun ss' d => s_Name <$> ss' = s_Name <$> ss /\ Forall (fun s => Forall (member_ok d) (s_Members s)) ss').
Proof.
  assert (Hnil : forall ss : list Struct, Forall (fun s => s_Members s = []) ss -> Forall (fun s => Forall (member_ok []) (s_Members s)) ss).
  { intros ss H. eapply Forall_impl; [|exact H]. intros s ->. constructor. }
  induction 1 as [|rs rss Hrs Hrss IH]; intros ss Hss; [apply silent_ret; auto|]. cbn [structMembers].
  destruct Hss as [|s ss Hs Hss]; [by apply silent_ret|].
  eapply silent_bind; [apply (silent_collect _ _ _ (fun _ m d => member_ok d m))|].
  { intros rm Hrm. apply resolveMember_silent. rewrite list.Forall_forall in Hrs. by apply Hrs. }
  intros ms d Hms. eapply silent_bind; [by apply IH|]. intros ss' d' [En Hall]. apply silent_ret. rewrite app_nil_r. split; [csimpl; by rewrite En|].
  constructor; simpl.
  - apply list.Forall_forall. intros m Hm. destruct (list_elem_of_lookup_1 _ _ Hm) as [j Hj].
    destruct (Forall2_lookup_r _ _ _ _ _ Hms Hj) as (rm & _ & d0 & Hok & Hsub). eapply member_ok_mono; [|exact Hok]. set_solver.
  - eapply Forall_impl; [|exact Hall]. intros s' Hs'. eapply Forall_impl; [|exact Hs']. intros m. apply member_ok_mono. set_solver.
Qed.

Lemma unionCases_silent rus : Forall (fun u => Forall (fun c => forall rt, rk_typ c = Some rt -> raw_type_ok rt) (ru_cases u)) rus -> forall us,
  Forall (fun u => u_Cases u = []) us ->
  silent D (unionCases consts types rus us) (fun us' d => u_Name <$> us' = u_Name <$> us /\ Forall (fun u => Forall (case_ok d) (u_Cases u)) us').
Proof.
  assert (Hnil : forall us : list Union, Forall (fun u => u_Cases u = []) us -> Forall (fun u => Forall (case_ok []) (u_Cases u)) us).
  { intros us H. eapply Forall_impl; [|exact H]. intros u ->. constructor. }
  induction 1 as [|ru rus Hru Hrus IH]; intros us Hus; [apply silent_ret; auto|]. cbn [unionCases].
  destruct Hus as [|u us Hu Hus]; [by apply silent_ret|].
  eapply silent_bind; [apply (silent_collect _ _ _ (fun _ c d => case_ok d c))|].
  { intros rc Hrc. apply resolveCase_silent. rewrite list.Forall_forall in Hru. by apply Hru. }
  intros cs d Hcs. eapply silent_bind; [by apply IH|]. intros us' d' [En Hall]. apply silent_ret. rewrite app_nil_r. split; [csimpl; by rewrite En|].
  constructor; simpl.
  - apply list.Forall_forall. intros c Hc. destruct (list_elem_of_lookup_1 _ _ Hc) as [j Hj].
    destruct (Forall2_lookup_r _ _ _ _ _ Hcs Hj) as (rc & _ & d0 & Hok & Hsub). eapply case_ok_mono; [|exact Hok]. set_solver.
  - eapply Forall_impl; [|exact Hall]. intros u' Hu'. eapply Forall_impl; [|exact Hu']. intros c. apply case_ok_mono. set_solver.
Qed.

End Resolve.

(** ** Structs and unions *)

Lemma fieldNames_silent D ms : forall seen, silent D (fieldNames ms seen) (fun _ d => d = [] /\ NoDup (mb_Name <$> ms) /\ forall m, m ∈ ms -> mb_Name m ∉ seen).
Proof.
  induction ms as [|m ms IH]; intros seen; cbn [fieldNames]; [apply silent_ret; split_and!; [done|constructor|set_solver]|].
  eapply silent_bind; [apply (silent_when _ _ _ _ (fun _ d => d = [] /\ mb_Name m ∉ seen)); by intros H%bool_decide_eq_false|]. intros [] d [-> Hm].
  eapply silent_mono; [apply IH|]. intros [] d (-> & Hnd & Hall). split_and!; [done| |].
  - csimpl. apply list.NoDup_cons. split; [|done]. intros (m' & E & Hm')%list_elem_of_fmap. apply (Hall m' Hm'). set_solver.
  - intros m' [->|Hm']%elem_of_cons; [done|]. specialize (Hall m' Hm'). set_solver.
Qed.

Lemma caseNames_silent D cs : forall names tags, silent D (caseNames cs names tags) (fun _ d => d = [] /\ NoDup (c_Name <$> cs) /\ NoDup (c_Tag <$> cs) /\
  forall c, c ∈ cs -> c_Name c ∉ names /\ c_Tag c ∉ tags).
Proof.
  induction cs as [|c cs IH]; intros names tags; cbn [caseNames]; [apply silent_ret; split_and!; [done|constructor|constructor|set_solver]|].
  eapply silent_bind; [apply (silent_when _ _ _ _ (fun _ d => d = [] /\ c_Name c ∉ names)); by intros H%bool_decide_eq_false|]. intros [] d [-> Hn].
  eapply silent_bind; [apply (silent_when _ _ _ _ (fun _ d => d = [] /\ c_Tag c ∉ tags)); by intros H%bool_decide_eq_false|]. intros [] d [-> Ht].
  eapply silent_mono; [apply IH|]. intros [] d (-> & Hnd & Hnt & Hall). split_and!; [done| | |].
  - csimpl. apply list.NoDup_cons. split; [|done]. intros (c' & E & Hc')%list_elem_of_fmap. destruct (Hall c' Hc'). set_solver.
  - csimpl. apply list.NoDup_cons. split; [|done]. intros (c' & E & Hc')%list_elem_of_fmap. destruct (Hall c' Hc'). set_solver.
  - intros c' [->|Hc']%elem_of_cons; [done|]. destruct (Hall c' Hc'). set_solver.
Qed.

Definition distinct_parts (ss : list Struct) (us : list Union) : Prop :=
  Forall (fun s => NoDup (mb_Name <$> s_Members s)) ss /\ Forall (fun u => NoDup (c_Name <$> u_Cases u) /\ NoDup (c_Tag <$> u_Cases u)) us.

Lemma checkStructsAndUnions_silent D ss us :
  silent D (checkStructsAndUnions ss us) (fun _ d => distinct_parts ss us /\ forall i, (i < length ss)%nat -> DStruct i ∈ d).
Proof.
  unfold checkStructsAndUnions. eapply silent_bind.
  - apply (silent_eachi _ _ _ (fun i s d => NoDup (mb_Name <$> s_Members s) /\ d = [DStruct i]) 0). intros j s Hj.
    eapply silent_bind; [apply fieldNames_silent|]. intros [] d (-> & Hnd & _). by apply silent_defer.
  - intros [] d Hs. eapply silent_mono; [apply (silent_each _ _ _ (fun u => NoDup (c_Name <$> u_Cases u) /\ NoDup (c_Tag <$> u_Cases u)))|].
    + intros u _. eapply silent_mono; [apply caseNames_silent|]. intros [] d' (-> & H1 & H2 & _). done.
    + intros [] d' Hu. split; [split; [|done]|].
      * apply list.Forall_lookup. intros j s Hj. destruct (Hs j s Hj) as (? & [H _] & _). done.
      * intros i Hi. destruct (lookup_lt_is_Some_2 _ _ Hi) as [s Hj]. destruct (Hs i s Hj) as (d0 & [_ ->] & Hsub). set_solver.
Qed.

(** ** Sizes *)

Section Known.
Context (hs : list Handle) (ss : list Struct) (us : list Union) (ds : list deferredCheck).

Notation D := (decls_of ss us).
Notation hn := (h_Name <$> hs).
Notation sn := (s_Name <$> ss).
Notation un := (u_Name <$> us).

(** All declarations are resolved. *)
Definition decls_ok : Prop := Forall (fun s => Forall (member_ok hn sn un ds) (s_Members s)) ss /\ Forall (fun u => Forall (case_ok hn sn un ds) (u_Cases u)) us.

Lemma ty_ok_dep t n : ty_ok hn sn un t -> typeDeps t = Some n -> n ∈ all_nodes ss us.
Proof.
  rewrite elem_of_all_nodes. induction t as [k|mx|mx|x i|x i|x i|e IH len|e IH mx]; simpl; [done|done|done|intros H [= <-]|intros H [= <-]|done|intros (H & _); by apply IH|intros (H & _); by apply IH].
  - rewrite <- (length_fmap s_Name). by eapply lookup_lt_Some.
  - rewrite <- (length_fmap u_Name). by eapply lookup_lt_Some.
Qed.

(** The types of the parts of a declaration. *)
Lemma part_resolved n pos t : decls_ok -> (pos, Some t) ∈ parts ss us n -> resolved hn sn un false t ds.
Proof.
  intros [Hs Hu] Hp. unfold parts in Hp. destruct n as [i|i].
  - destruct (ss !! i) as [s|] eqn:Es; [|set_solver]. apply list_elem_of_fmap in Hp as (m & [= -> ->] & Hm).
    rewrite list.Forall_lookup in Hs. specialize (Hs i s Es). rewrite list.Forall_forall in Hs. apply (Hs m Hm).
  - destruct (us !! i) as [u|] eqn:Eu; [|set_solver]. apply list_elem_of_fmap in Hp as (c & [= -> Ec] & Hc).
    rewrite list.Forall_lookup in Hu. specialize (Hu i u Eu). rewrite list.Forall_forall in Hu. by apply (Hu c Hc).
Qed.

Lemma decls_closed : decls_ok -> closed ss us.
Proof.
  intros Hok n dep Hd. apply list_elem_of_omap in Hd as ([pos t] & Hp & Hd). simpl in Hd. destruct t as [t|]; [|done].
  eapply ty_ok_dep; [|exact Hd]. by apply (part_resolved n pos t).
Qed.

(** What the deferred checks found: the elements of a T[N] are fixed, fixed
    arrays and structs are not too large. *)
Definition deferred_ok (d : deferredCheck) : Prop :=
  match d with
  | DArray _ e arr => (forall k x, expand D k e = Some x -> fixed (info x) = true) /\ (forall k x, expand D k arr = Some x -> size (info x) <= MaxStatic)
  | DStruct i => forall k x, expand D k (StructTy [] i) = Some x -> fixed (info x) = true -> size (info x) <= MaxStatic
  end.

Lemma silent_query {A} t (g : tinfo -> A) (Q : A -> list deferredCheck -> Prop) :
  (forall r, (forall k x, expand D k t = Some x -> r = info x) -> Q (g r) []) -> silent D (ask (ti ← info_query D t; mret (g ti))) Q.
Proof.
  intros HQ m Hm _. destruct (info_query_ok D t m Hm) as (r & m' & E & Hm' & Hi). unfold ask, mbind, M_bind. rewrite E. split; [done|]. by apply HQ.
Qed.

Lemma runDeferred_silent d : silent D (runDeferred ss us d) (fun _ _ => deferred_ok d).
Proof.
  destruct d as [pos e arr|i]; cbn [runDeferred deferred_ok].
  - eapply silent_bind; [apply (silent_query e (fun ti => (size ti, align ti, fixed ti)) (fun v _ => forall k x, expand D k e = Some x -> v.2 = fixed (info x)))|].
    { intros r Hr k x Hx. by rewrite (Hr k x Hx). }
    intros [[sz al] fx] d Hfx. simpl in Hfx. destruct fx; [|apply silent_add_end]. simpl.
    eapply silent_bind; [apply (silent_query arr (fun ti => (size ti, align ti, fixed ti)) (fun v _ => forall k x, expand D k arr = Some x -> v.1.1 = size (info x)))|].
    { intros r Hr k x Hx. by rewrite (Hr k x Hx). }
    intros [[sz' al'] fx'] d' Hsz. simpl in Hsz. apply silent_when. intros H%Z.ltb_ge. split; [by intros k x <-%Hfx|by intros k x <-%Hsz].
  - eapply (silent_bind _ _ _ (fun ti _ => forall k x, expand D k (StructTy [] i) = Some x -> ti = info x)).
    { intros m Hm _. destruct (info_query_ok D (StructTy [] i) m Hm) as (r & m' & E & Hm' & Hi). unfold ask. rewrite E. split; [done|]. exact Hi. }
    intros ti d Hti. apply silent_when. intros H k x Hx Hf. rewrite (Hti k x Hx) in H. rewrite Hf in H. simpl in H. by apply Z.ltb_ge.
Qed.

Context (Hok : decls_ok) (Hac : acyclic ss us) (Hds : Forall deferred_ok ds).

(** A resolved type whose parts are well formed is well formed. *)
Lemma expand_wf j (rec_wf : forall n x, expand_node D j n = Some x -> wf_ty x = true) inFunc t x :
  resolved hn sn un inFunc t ds -> expand D j t = Some x -> wf_ty x = true.
Proof.
  assert (Hbase : forall t x, ty_ok hn sn un t -> is_array t = false -> expand D j t = Some x -> wf_ty x = true).
  { intros [k|mx|mx|y i|y i|y i| |] x0 Ht Ha Hx; cbn in Ht, Ha, Hx; simplify_eq; try done; simpl; try by apply Z.leb_le; lia.
    - by eapply rec_wf. - by eapply rec_wf. }
  intros (Ht & _ & _ & Hd) Hx. destruct t as [k|mx|mx|y i|y i|y i|e n|e mx]; try by eapply Hbase.
  - simpl in Ht. destruct Ht as (He & Ha & Hn). unfold expand in Hx. simpl in Hx. apply bind_Some in Hx as (xe & Hxe & [= <-]).
    pose proof (Hbase e xe He Ha Hxe) as Hw. destruct (Hd e n eq_refl) as [pos Hp]. rewrite list.Forall_forall in Hds.
    destruct (Hds _ Hp) as [Hf _]. specialize (Hf j xe Hxe). rewrite (info_rules xe Hw) in Hf. simpl in *. rewrite Hw, Hf. apply Z.leb_le. lia.
  - simpl in Ht. destruct Ht as (He & Ha & Hn). unfold expand in Hx. simpl in Hx. apply bind_Some in Hx as (xe & Hxe & [= <-]).
    simpl. rewrite (Hbase e xe He Ha Hxe). apply Z.leb_le. lia.
Qed.

Lemma node_wf j : forall n x, expand_node D j n = Some x -> wf_ty x = true.
Proof.
  induction j as [|j IH]; intros n x Hx; [done|]. destruct n as [i|i]; cbn [expand_node decls_of d_structs d_unions] in Hx; rewrite list_lookup_fmap in Hx.
  - destruct (ss !! i) as [s|] eqn:Es; [|done]. simpl in Hx. apply bind_Some in Hx as (xs & Hxs & [= <-]). simpl. apply forallb_forall.
    intros y Hy%list_elem_of_In. apply mapM_Some in Hxs. destruct (list_elem_of_lookup_1 _ _ Hy) as [p Hp].
    destruct (Forall2_lookup_r _ _ _ _ _ Hxs Hp) as (t & Hpt & Ht). apply list_lookup_fmap_Some in Hpt as (m & -> & Hm).
    eapply (expand_wf j IH false); [|exact Ht]. apply (part_resolved (NStruct i) (mb_Pos m)); [done|]. unfold parts. rewrite Es.
    apply list_elem_of_fmap. exists m. split; [done|]. by eapply list_elem_of_lookup_2.
  - destruct (us !! i) as [u|] eqn:Eu; [|done]. simpl in Hx. apply bind_Some in Hx as (xs & Hxs & [= <-]). simpl. apply andb_true_iff. apply mapM_Some in Hxs. split.
    + apply Nat.eqb_eq. apply Forall2_length in Hxs. by rewrite length_fmap.
    + apply forallb_forall. intros y Hy%list_elem_of_In. destruct (list_elem_of_lookup_1 _ _ Hy) as [p Hp].
      destruct (Forall2_lookup_r _ _ _ _ _ Hxs Hp) as (t & Hpt & Ht). apply list_lookup_fmap_Some in Hpt as (c & -> & Hc). unfold expand_case in Ht. simpl in Ht.
      destruct (c_Type c) as [t|] eqn:Ec; [|by simplify_eq]. apply orb_true_iff. right. eapply (expand_wf j IH false); [|exact Ht].
      apply (part_resolved (NUnion i) (c_Pos c)); [done|]. unfold parts. rewrite Eu. apply list_elem_of_fmap. exists c. rewrite Ec. split; [done|]. by eapply list_elem_of_lookup_2.
Qed.

(** One number of steps writes out everything. *)
Lemma all_expand : exists k, forall n, n ∈ all_nodes ss us -> is_Some (expand_node D k n).
Proof. destruct (expand_all ss us (all_nodes ss us)) as [k Hk]; [apply list.Forall_forall; exact Hac|]. exists k. by apply list.Forall_forall. Qed.

Lemma resolved_known k inFunc t : (forall n, n ∈ all_nodes ss us -> is_Some (expand_node D k n)) -> resolved hn sn un inFunc t ds -> known D k (xof D k) t.
Proof.
  intros Hk Hr. assert (Hx : is_Some (expand D k t)).
  { apply expand_ty_deps. destruct (typeDeps t) as [n|] eqn:En; [|done]. apply Hk. eapply ty_ok_dep; [|exact En]. by apply Hr. }
  destruct Hx as [x Hx]. unfold known, xof. rewrite Hx. simpl. split; [done|]. eapply expand_wf; [apply node_wf|exact Hr|exact Hx].
Qed.

End Known.
