(* ===== verification/IdlAnnot.v ===== *)
(** * IdlAnnot: the annotations of a function

    The rules for the annotations of parameters and returns, stated of the
    [Func] that [build] returns, and that the checks of func.go of bindgen/idl
    let nothing else through: where [@offset_in], [@nullable], [@borrowed] and
    [@free] may stand (V12 to V15), what a [@len_of] binds and how many scalars
    each buffer has (V11, V28), and the owner of a created handle (V16). *)
From S2P Require Import Prelude IdlTypes IdlSizes IdlModel IdlPlan IdlLex IdlParse IdlCheck IdlCycles IdlFunc IdlSpec IdlSound.

(** ** The rules *)

(** An offset: an out u32 that counts into another parameter, an in [str]. *)
Definition offset_ok (f : Func) (i : nat) (p : Param) : Prop :=
  p_Dir p = DirOut /\ kind (p_Type p) = KU32 /\ LenOf (p_Attrs p) = [] /\
  exists j q, paramIndex f (OffsetIn (p_Attrs p)) = Some j /\ j <> i /\ f_Params f !! j = Some q /\ p_Dir q = DirIn /\ kind (p_Type q) = KStr.

(** A parameter in position [i]. *)
Record attr_rule (f : Func) (i : nat) (p : Param) : Prop := mkAttrRule {
  ar_offset : OffsetIn (p_Attrs p) <> [] -> offset_ok f i p;
  ar_nullable : Nullable (p_Attrs p) = true -> p_Dir p = DirIn /\ nullableType (p_Type p) = true;
  ar_borrowed : Borrowed (p_Attrs p) = true -> p_Dir p = DirOut /\ (kind (p_Type p) = KBytes \/ kind (p_Type p) = KArray);
  ar_free : Free (p_Attrs p) <> [] -> borrowedOut p = true
}.

(** A [@len_of] of the parameter [idx] or, for [None], of the return: an integer
    that is not inout; an out scalar for the buffer that is returned; or a scalar
    for another parameter that is a buffer, an in scalar for one whose length the
    caller chooses, an out scalar or the return for one the function fills. *)
Definition len_rule (f : Func) (idx : option nat) (a : Attrs) (t : Ty) (dir : Dir) : Prop :=
  LenOf a <> [] ->
  IsInt (kind t) = true /\ dir <> DirInOut /\
  if decide (LenOf a = str "ret") then
    is_Some idx /\ dir = DirOut /\ match f_Ret f with Some (Bytes _) | Some (Array _ _) => True | _ => False end
  else exists j b, paramIndex f (LenOf a) = Some j /\ f_Params f !! j = Some b /\ idx <> Some j /\ isVarBuf (p_Type b) = true /\
    (is_Some idx /\ dir = DirIn /\ (p_Dir b = DirIn \/ callerSupplied b = true) \/ (idx = None \/ dir <> DirIn) /\ p_Dir b = DirOut).

(** The buffer a [@len_of] names, and how many in scalars, out scalars (with the
    return) and out scalars for the return there are. *)
Definition bound_to (f : Func) (a : Attrs) : option nat :=
  if decide (LenOf a = [] \/ LenOf a = str "ret") then None else paramIndex f (LenOf a).

Definition binds_in (f : Func) (j : nat) (p : Param) : bool := bool_decide (bound_to f (p_Attrs p) = Some j) && bool_decide (p_Dir p = DirIn).
Definition binds_out (f : Func) (j : nat) (p : Param) : bool := bool_decide (bound_to f (p_Attrs p) = Some j) && negb (bool_decide (p_Dir p = DirIn)).
Definition binds_ret (p : Param) : bool := bool_decide (LenOf (p_Attrs p) = str "ret").

Definition in_scalars (f : Func) (j : nat) : Z := countb (binds_in f j) (f_Params f).
Definition out_scalars (f : Func) (j : nat) : Z :=
  countb (binds_out f j) (f_Params f) +
  match f_Ret f with Some _ => if bool_decide (bound_to f (f_RetAttrs f) = Some j) then 1 else 0 | None => 0 end.
Definition ret_scalars (f : Func) : Z := countb binds_ret (f_Params f).

(** An in buffer other than a [str] has exactly one length, a [str] at most one;
    a buffer of the caller exactly one capacity and at most one length; a
    borrowed out buffer exactly one length, an out [str] at most one. *)
Definition buffer_rule (f : Func) (j : nat) (p : Param) : Prop :=
  isVarBuf (p_Type p) = true ->
  if bool_decide (p_Dir p = DirIn) then in_scalars f j <= 1 /\ (kind (p_Type p) <> KStr -> in_scalars f j = 1)
  else if callerSupplied p then in_scalars f j = 1 /\ out_scalars f j <= 1
  else out_scalars f j <= 1 /\ (p_Dir p = DirOut -> kind (p_Type p) <> KStr -> out_scalars f j = 1).

Record lens_rule (f : Func) : Prop := mkLensRule {
  lr_params : forall i p, f_Params f !! i = Some p -> len_rule f (Some i) (p_Attrs p) (p_Type p) (p_Dir p);
  lr_ret : forall t, f_Ret f = Some t -> len_rule f None (f_RetAttrs f) t DirOut;
  lr_buffers : forall j p, f_Params f !! j = Some p -> buffer_rule f j p;
  lr_one : ret_scalars f <= 1;
  lr_returned : match f_Ret f with Some (Bytes _) | Some (Array _ _) => f_Shim f = false -> ret_scalars f = 1 | _ => True end
}.

(** A handle that is created has exactly one owner among the in parameters. *)
Definition is_owner (parent : nat) (p : Param) : bool :=
  bool_decide (p_Dir p = DirIn) && match p_Type p with HandleTy _ j => bool_decide (j = parent) | _ => false end.

Definition owner_rule (hs : list Handle) (f : Func) (t : Ty) : Prop :=
  match t with
  | HandleTy _ i => forall parent, hs !! i ≫= h_Parent = Some parent -> countb (is_owner parent) (f_Params f) = 1
  | _ => True
  end.

Record annot_rule (hs : list Handle) (f : Func) : Prop := mkAnnotRule {
  an_attrs : forall i p, f_Params f !! i = Some p -> attr_rule f i p;
  an_lens : lens_rule f;
  an_owners : Forall (fun p => p_Dir p = DirOut -> owner_rule hs f (p_Type p)) (f_Params f) /\ (forall t, f_Ret f = Some t -> owner_rule hs f t)
}.

(** ** The checks *)

(** The attributes come from the annotations. *)
Record attrs_of (set : annSet) (a : Attrs) : Prop := mkAttrsOf {
  ao_offset : OffsetIn a <> [] -> is_Some (set !! str "offset_in");
  ao_nullable : Nullable a = true -> is_Some (set !! str "nullable");
  ao_borrowed : Borrowed a = true -> is_Some (set !! str "borrowed");
  ao_free : Free a <> [] -> is_Some (set !! str "free")
}.

Lemma attrs_of_none set : attrs_of set no_attrs.
Proof. by constructor. Qed.

Section Annot.
Context (D : decls).

Lemma plain_end (c : C unit) (Q : unit -> list deferredCheck -> Prop) : plain D c -> Q tt [] -> silent D c Q.
Proof. intros Hc HQ. eapply silent_mono; [exact Hc|]. by intros [] d ->. Qed.

Lemma plain_each {A} (l : list A) (g : A -> C unit) : (forall x, plain D (g x)) -> plain D (each l g).
Proof. intros Hg. induction l as [|x l IH]; simpl; [apply plain_ret|]. apply plain_seq; [apply Hg|]. intros []. apply IH. Qed.

Lemma identAttr_silent set x b : silent D (identAttr set x b) (fun v d => d = [] /\ (v <> [] -> is_Some (set !! x))).
Proof. unfold identAttr. destruct (set !! x); [|by apply silent_ret]. apply plain_bind; [auto with plain|]. intros v. apply silent_ret. eauto. Qed.

Lemma flagAttr_silent set x : silent D (flagAttr set x) (fun v d => d = [] /\ (v = true -> is_Some (set !! x))).
Proof. unfold flagAttr. destruct (set !! x); [|by apply silent_ret]. apply plain_bind; [auto with plain|]. intros []. apply silent_ret. eauto. Qed.

Lemma freeAttr_silent set : silent D (freeAttr set) (fun v d => d = [] /\ (v <> [] -> is_Some (set !! str "free"))).
Proof.
  unfold freeAttr. destruct (set !! str "free"); [|by apply silent_ret]. apply plain_bind; [auto with plain|]. intros [v|]; [|by apply silent_ret].
  apply plain_bind; [auto with plain|]. intros []. apply silent_ret. eauto.
Qed.

Lemma attrs_silent set : silent D (attrs set) (fun a d => d = [] /\ attrs_of set a).
Proof.
  unfold attrs. eapply silent_bind; [apply identAttr_silent|]. intros lenOf d [-> _].
  eapply silent_bind; [apply identAttr_silent|]. intros off d [-> H1]. eapply silent_bind; [apply flagAttr_silent|]. intros nul d [-> H2].
  eapply silent_bind; [apply flagAttr_silent|]. intros bor d [-> H3]. eapply silent_bind; [apply freeAttr_silent|]. intros fre d [-> H4].
  apply plain_bind; [auto with plain|]. intros ct. apply silent_ret. split; [done|]. by constructor.
Qed.

Lemma checkOffsetIn_silent f i p a : OffsetIn (p_Attrs p) <> [] ->
  silent D (checkOffsetIn f i p a) (fun _ d => d = [] /\ offset_ok f i p).
Proof.
  intros Hne. unfold checkOffsetIn. rewrite bool_decide_eq_false_2 by done.
  destruct (_ || _) eqn:E; [apply silent_add_end|]. apply orb_false_iff in E as [[E1 E2]%orb_false_iff E3].
  apply negb_false_iff, bool_decide_eq_true in E1, E2, E3. apply silent_when. intros Hok%negb_false_iff. split; [done|]. do 3 (split; [done|]).
  destruct (paramIndex f _) as [j|]; [|done]. apply andb_true_iff in Hok as [Hj%negb_true_iff%Nat.eqb_neq Hq].
  destruct (f_Params f !! j) as [q|] eqn:Eq; [|done]. apply andb_true_iff in Hq as [H1%bool_decide_eq_true H2%bool_decide_eq_true].
  exists j, q. done.
Qed.

(** A check that runs where an annotation stands. *)
Lemma silent_at {A} (o : option A) (c : A -> C unit) (P R : Prop) :
  (P -> is_Some o) -> (forall a, o = Some a -> P -> silent D (c a) (fun _ d => d = [] /\ R)) -> (forall a, ~ P -> plain D (c a)) -> P \/ ~ P ->
  silent D (match o with Some a => c a | None => mret tt end) (fun _ d => d = [] /\ (P -> R)).
Proof.
  intros Ho Hc Hn [HP|HP].
  - destruct (Ho HP) as [a ->]. eapply silent_mono; [by apply Hc|]. intros [] d [-> HR]. done.
  - destruct o; [eapply silent_mono; [by apply Hn|]; intros [] d ->; done|]. by apply silent_ret.
Qed.
End Annot.

(** ** Lengths *)

Section Lens.
Context (D : decls) (f : Func) (rf : rawFunc) (ret : annSet) (pset : list annSet).

Definition nin (b : lenBounds) (j : nat) : Z := Z.of_nat (default 0%nat (inBound b !! j)).
Definition nout (b : lenBounds) (j : nat) : Z := Z.of_nat (default 0%nat (outBound b !! j)).

Lemma bump_at (j k : nat) (b : gmap nat nat) :
  Z.of_nat (default 0%nat (bump j b !! k)) = Z.of_nat (default 0%nat (b !! k)) + if bool_decide (j = k) then 1 else 0.
Proof. unfold bump. case_bool_decide; [subst; rewrite lookup_insert_eq; simpl; lia|]. rewrite lookup_insert_ne by done. lia. Qed.

(** What one [@len_of] adds. *)
Definition adds (idx : option nat) (a : Attrs) (dir : Dir) (b b' : lenBounds) : Prop :=
  (forall j, nin b' j = nin b j + if bool_decide (bound_to f a = Some j) && (bool_decide (is_Some idx) && bool_decide (dir = DirIn)) then 1 else 0) /\
  (forall j, nout b' j = nout b j + if bool_decide (bound_to f a = Some j) && negb (bool_decide (is_Some idx) && bool_decide (dir = DirIn)) then 1 else 0) /\
  Z.of_nat (retBound b') = Z.of_nat (retBound b) + if bool_decide (LenOf a = str "ret") then 1 else 0.

Lemma adds_nothing idx a dir b : LenOf a = [] -> adds idx a dir b b.
Proof.
  intros E. unfold adds. assert (Hb : bound_to f a = None) by (unfold bound_to; by rewrite decide_True by auto). rewrite Hb, E.
  split_and!; intros; rewrite (bool_decide_eq_false_2 (_ = _)) by done; simpl; lia.
Qed.

Lemma checkLen_silent idx a t dir b :
  silent D (checkLen f rf ret pset idx a t dir b) (fun b' d => d = [] /\ len_rule f idx a t dir /\ adds idx a dir b b').
Proof.
  unfold checkLen. case_bool_decide as E0; [apply silent_ret; split_and!; [done|done|by apply adds_nothing]|]. cbv zeta.
  destruct (IsInt (kind t)) eqn:Ei; [|apply silent_add]. cbn [negb]. case_bool_decide as Ed; [apply silent_add|].
  case_bool_decide as Er.
  - destruct idx as [i|]; [|apply silent_add]. case_bool_decide as Eo; [|apply silent_add]. cbn [negb].
    assert (Hadd : adds (Some i) a dir b (mkLens (inBound b) (outBound b) (S (retBound b)))).
    { unfold adds, nin, nout. assert (Hb : bound_to f a = None) by (unfold bound_to; by rewrite decide_True by auto). rewrite Hb.
      split_and!; simpl; [intros; try (rewrite (bool_decide_eq_false_2 (_ = _)) by done); simpl; lia..|]. rewrite bool_decide_eq_true_2 by done. lia. }
    destruct (f_Ret f) as [[]|] eqn:Ef; try apply silent_add; apply silent_ret; (split_and!; [done| |done]); intros _;
      (split_and!; [done|done|]); rewrite decide_True by done; rewrite Ef; eauto.
  - destruct (paramIndex f (LenOf a)) as [j|] eqn:Ej; [|apply silent_add]. case_bool_decide as Eij; [apply silent_add|].
    destruct (f_Params f !! j) as [target|] eqn:Et; [|apply silent_add]. destruct (isVarBuf (p_Type target)) eqn:Ev; [|apply silent_add]. cbn [negb].
    assert (Hb : bound_to f a = Some j) by (unfold bound_to; rewrite decide_False by naive_solver; done).
    assert (Hret : Z.of_nat (retBound b) = Z.of_nat (retBound b) + if bool_decide (LenOf a = str "ret") then 1 else 0) by (rewrite bool_decide_eq_false_2 by done; lia).
    destruct (bool_decide (is_Some idx) && bool_decide (dir = DirIn)) eqn:Ein.
    + apply andb_true_iff in Ein as [E1%bool_decide_eq_true E2%bool_decide_eq_true]. destruct (_ || _) eqn:Eor; [|apply silent_add].
      apply silent_ret. split; [done|]. split.
      * intros _. split_and!; [done|done|]. rewrite decide_False by done. exists j, target. split_and!; try done. left. split_and!; try done.
        apply orb_true_iff in Eor as [H%bool_decide_eq_true|H]; auto.
      * unfold adds, nin, nout. rewrite Hb, (bool_decide_eq_true_2 _ E1), (bool_decide_eq_true_2 _ E2). simpl. split_and!; [|intros; rewrite andb_false_r; lia|done].
        intros k. rewrite bump_at, andb_true_r. destruct (decide (j = k)) as [->|Hne]; [by rewrite !bool_decide_eq_true_2 by done|by rewrite !bool_decide_eq_false_2 by congruence].
    + destruct (bool_decide (p_Dir target = DirOut)) eqn:Eout; [|apply silent_add]. apply bool_decide_eq_true in Eout. cbn [negb]. apply silent_ret. split; [done|]. split.
      * intros _. split_and!; [done|done|]. rewrite decide_False by done. exists j, target. split_and!; try done. right. split; [|done].
        apply andb_false_iff in Ein as [H%bool_decide_eq_false|H%bool_decide_eq_false]; [left; by apply eq_None_not_Some|by right].
      * unfold adds, nin, nout. rewrite Hb, Ein. simpl. split_and!; [intros; rewrite andb_false_r; lia| |done].
        intros k. rewrite bump_at, andb_true_r. destruct (decide (j = k)) as [->|Hne]; [by rewrite !bool_decide_eq_true_2 by done|by rewrite !bool_decide_eq_false_2 by congruence].
Qed.

Lemma lens_loop_silent ps : forall i b,
  silent D (lens_loop f rf ret pset i ps b) (fun b' d => d = [] /\
    (forall k p, ps !! k = Some p -> len_rule f (Some (i + k)%nat) (p_Attrs p) (p_Type p) (p_Dir p)) /\
    (forall j, nin b' j = nin b j + countb (binds_in f j) ps) /\ (forall j, nout b' j = nout b j + countb (binds_out f j) ps) /\
    Z.of_nat (retBound b') = Z.of_nat (retBound b) + countb binds_ret ps).
Proof.
  induction ps as [|p ps IH]; intros i b; cbn [lens_loop].
  { apply silent_ret. split_and!; [done|by intros []|..]; intros; change (countb _ []) with 0; lia. }
  eapply silent_bind; [apply checkLen_silent|]. intros b1 d (-> & Hl & H1 & H2 & H3). eapply silent_mono; [apply IH|].
  intros b2 d (-> & Hls & K1 & K2 & K3). split_and!; [done|..].
  - intros [|k] q Hk; simpl in Hk; simplify_eq; [by rewrite Nat.add_0_r|]. rewrite Nat.add_succ_r. by apply (Hls k).
  - intros j. rewrite K1, H1, countb_cons. rewrite (bool_decide_eq_true_2 (is_Some _)) by eauto. unfold binds_in at 2. simpl. lia.
  - intros j. rewrite K2, H2, countb_cons. rewrite (bool_decide_eq_true_2 (is_Some _)) by eauto. unfold binds_out at 2. simpl. lia.
  - rewrite K3, H3, countb_cons. unfold binds_ret at 2. lia.
Qed.

Lemma checkBuffer_silent b j p : nin b j = in_scalars f j -> nout b j = out_scalars f j ->
  silent D (checkBuffer b j p) (fun _ d => d = [] /\ buffer_rule f j p).
Proof.
  intros Hi Ho. unfold checkBuffer, buffer_rule. cbv zeta. rewrite <- Hi, <- Ho. unfold nin, nout.
  set (x := default 0%nat (inBound b !! j)). set (y := default 0%nat (outBound b !! j)).
  destruct (isVarBuf (p_Type p)); [|by apply silent_ret]. cbn [negb]. destruct (bool_decide (p_Dir p = DirIn)).
  - eapply silent_bind; [apply (silent_when _ _ _ _ (fun _ d => d = [] /\ (kind (p_Type p) <> KStr -> x <> 0%nat)))|].
    { intros H. split; [done|]. intros Hk. rewrite bool_decide_eq_false_2 in H by done. rewrite andb_true_r in H. by apply Nat.eqb_neq. }
    intros [] d [-> H1]. apply silent_when. intros H2%Nat.ltb_ge. split; [done|]. intros _. split; [lia|]. intros Hk. specialize (H1 Hk). lia.
  - destruct (callerSupplied p).
    + eapply silent_bind; [apply (silent_when _ _ _ _ (fun _ d => d = [] /\ x = 1%nat)); by intros H%negb_false_iff%Nat.eqb_eq|].
      intros [] d [-> H1]. apply silent_when. intros H2%Nat.ltb_ge. split; [done|]. intros _. lia.
    + destruct (bool_decide (p_Dir p = DirOut) && negb (bool_decide (kind (p_Type p) = KStr))) eqn:E; apply silent_when.
      * intros H%negb_false_iff%Nat.eqb_eq. split; [done|]. intros _. split; [lia|]. intros. lia.
      * intros H%Nat.ltb_ge. split; [done|]. intros _. split; [lia|]. intros E1 E2.
        rewrite (bool_decide_eq_true_2 _ E1), (bool_decide_eq_false_2 _ E2) in E. done.
Qed.

Lemma eachi_silent {A} (l : list A) (g : nat -> A -> C unit) (P : nat -> A -> Prop) : (forall i x, silent D (g i x) (fun _ d => d = [] /\ P i x)) ->
  forall i, silent D (eachi i l g) (fun _ d => d = [] /\ forall k x, l !! k = Some x -> P (i + k)%nat x).
Proof.
  intros Hg. induction l as [|x l IH]; intros i; cbn [eachi]; [apply silent_ret; split; [done|]; by intros []|].
  eapply silent_bind; [apply Hg|]. intros [] d [-> Hx]. eapply silent_mono; [apply IH|]. intros [] d [-> Hl]. split; [done|].
  intros [|k] y Hk; simpl in Hk; simplify_eq; [by rewrite Nat.add_0_r|]. rewrite Nat.add_succ_r. by apply (Hl k).
Qed.

Lemma checkLenOf_silent : silent D (checkLenOf f rf ret pset) (fun _ d => d = [] /\ lens_rule f).
Proof.
  unfold checkLenOf. eapply silent_bind; [apply lens_loop_silent|]. intros b1 d (-> & Hps & H1 & H2 & H3).
  assert (H1' : forall j, nin b1 j = in_scalars f j) by (intros j; rewrite H1; unfold nin; simpl; rewrite lookup_empty; done).
  assert (H2' : forall j, nout b1 j = countb (binds_out f j) (f_Params f)) by (intros j; rewrite H2; unfold nout; simpl; rewrite lookup_empty; done).
  eapply (silent_bind _ _ _ (fun b d => d = [] /\ (forall t, f_Ret f = Some t -> len_rule f None (f_RetAttrs f) t DirOut) /\
    (forall j, nin b j = in_scalars f j) /\ (forall j, nout b j = out_scalars f j) /\ Z.of_nat (retBound b) = ret_scalars f)).
  { destruct (f_Ret f) as [t|] eqn:Er.
    - eapply silent_mono; [apply checkLen_silent|]. intros b2 d (-> & Hl & K1 & K2 & K3). split_and!; [done|by intros ? [= <-]|..].
      + intros j. rewrite K1, (bool_decide_eq_false_2 (is_Some None)), andb_false_r by (by intros []). rewrite H1'. lia.
      + intros j. rewrite K2, (bool_decide_eq_false_2 (is_Some None)), andb_true_r by (by intros []). rewrite H2'. unfold out_scalars. rewrite Er. lia.
      + rewrite K3, H3, bool_decide_eq_false_2; [unfold ret_scalars; change (Z.of_nat (retBound (mkLens ∅ ∅ 0))) with 0; lia|].
        intros E. destruct (Hl ltac:(by rewrite E)) as (_ & _ & Hd). rewrite decide_True in Hd by done. by destruct Hd as [[] _].
    - apply silent_ret. split_and!; [done|done|done| |by rewrite H3]. intros j. rewrite H2'. unfold out_scalars. rewrite Er. lia. }
  intros b d (-> & Hr & K1 & K2 & K3).
  eapply silent_bind; [apply (eachi_silent _ _ (buffer_rule f))|]. { intros j p. by apply checkBuffer_silent. }
  intros [] d [-> Hbuf]. eapply silent_bind; [apply (silent_when _ _ _ _ (fun _ d => d = [] /\ (retBound b <= 1)%nat)); by intros H%Nat.ltb_ge|].
  intros [] d [-> H0].
  eapply (silent_mono _ _ (fun _ d => d = [] /\ match f_Ret f with Some (Bytes _) | Some (Array _ _) => f_Shim f = false -> ret_scalars f = 1 | _ => True end)).
  - destruct (f_Ret f) as [[]|]; try (by apply silent_ret); apply silent_when; intros H; (split; [done|]); intros Es; rewrite Es in H;
      apply negb_false_iff, Nat.eqb_eq in H; lia.
  - intros [] d [-> Hlast]. split; [done|]. constructor; [by intros i p Hi; apply (Hps i p Hi)|done|by intros j p Hj; apply (Hbuf j p Hj)|lia|done].
Qed.
End Lens.

(** ** Owners *)

Section Owners.
Context (D : decls) (hs : list Handle).

Lemma filter_countb {A} (g : A -> bool) (l : list A) : Z.of_nat (length (filter (fun x => g x) l)) = countb g l.
Proof.
  induction l as [|x l IH]; [done|]. rewrite filter_cons, countb_cons. destruct (g x); simpl; lia.
Qed.

Lemma checkOwner_silent f pos t : silent D (checkOwner hs f pos t) (fun _ d => d = [] /\ owner_rule hs f t).
Proof.
  unfold checkOwner, owner_rule. destruct t as [| | | | |x i| |]; try by apply silent_ret. destruct (hs !! i ≫= h_Parent) as [parent|]; [|by apply silent_ret].
  cbv zeta. apply silent_when. intros H%negb_false_iff%Nat.eqb_eq. split; [done|]. intros ? [= <-].
  rewrite <- filter_countb. fold (is_owner parent) in H. apply (f_equal Z.of_nat) in H. exact H.
Qed.

Lemma checkOwnership_silent f rf : silent D (checkOwnership hs f rf) (fun _ d => d = [] /\
  Forall (fun p => p_Dir p = DirOut -> owner_rule hs f (p_Type p)) (f_Params f) /\ (forall t, f_Ret f = Some t -> owner_rule hs f t)).
Proof.
  unfold checkOwnership. eapply (silent_bind _ _ _ (fun _ d => d = [] /\ Forall (fun p => p_Dir p = DirOut -> owner_rule hs f (p_Type p)) (f_Params f))).
  - induction (f_Params f) as [|p l IH]; cbn [each]; [apply silent_ret; split; [done|constructor]|].
    eapply (silent_bind _ _ _ (fun _ d => d = [] /\ (p_Dir p = DirOut -> owner_rule hs f (p_Type p)))).
    { case_bool_decide; [|by apply silent_ret]. eapply silent_mono; [apply checkOwner_silent|]. by intros [] d [-> H1]. }
    intros [] d [-> Hp]. eapply silent_mono; [exact IH|]. intros [] d [-> Hl]. split; [done|]. by constructor.
  - intros [] d [-> Hp]. destruct (f_Ret f) as [t|]; [|by apply silent_ret].
    eapply silent_mono; [apply checkOwner_silent|]. intros [] d [-> H1]. split_and!; [done|done|by intros ? [= <-]].
Qed.
End Owners.
