(* ===== verification/IdlRules.v ===== *)
(** * IdlRules: the functions the checker lets through

    What the passes of check.go and func.go of bindgen/idl establish when they
    report nothing: the types ([runTypes]), then the parameters and the return
    of every function ([build], [declareFuncs]). *)
From S2P Require Import Prelude IdlTypes IdlSizes IdlModel IdlPlan IdlLex IdlParse IdlCheck IdlCycles IdlFunc IdlSpec IdlSound IdlAnnot.

(** ** Types *)

(** What the passes over the types establish; [d] is the deferred work. *)
Record types_done (cts : list Const) (consts : constMap) (hs : list Handle) (ss : list Struct) (us : list Union) (types : typeMap)
    (d : list deferredCheck) : Prop := mkTypesDone {
  td_const_names : NoDup (k_Name <$> cts);
  td_consts : Forall (fun c => fitsKind (k_Value c) (k_Type c) = true /\ consts !! k_Name c = Some c) cts;
  td_names : NoDup ((h_Name <$> hs) ++ (s_Name <$> ss) ++ (u_Name <$> us));
  td_types : types_ok (h_Name <$> hs) (s_Name <$> ss) (u_Name <$> us) types;
  td_destroy : Forall (fun h => h_Destroy h = None) hs;
  td_rooted : forall i, (i < length hs)%nat -> rooted hs i;
  td_decls : decls_ok hs ss us d;
  td_acyclic : acyclic ss us;
  td_parts : distinct_parts ss us;
  td_structs : forall i, (i < length ss)%nat -> DStruct i ∈ d
}.

Lemma decls_ok_mono hs ss us d d' : d ⊆ d' -> decls_ok hs ss us d -> decls_ok hs ss us d'.
Proof.
  intros Hd [Hs Hu]. split; (eapply Forall_impl; [|eassumption]); intros x Hx; (eapply Forall_impl; [|exact Hx]); intros y;
    [by apply member_ok_mono|by apply case_ok_mono].
Qed.

Lemma runTypes_silent D f : raw_ok f ->
  silent D (runTypes f) (fun '(ser, (cts, consts), (hs, ss, us, types)) d =>
    types_done cts consts hs ss us types d /\ length hs = length (f_handles f)).
Proof.
  intros [R1 R2 R3 R4]. unfold runTypes.
  apply plain_bind; [auto with plain|intros []]. apply plain_bind; [auto with plain|intros []]. apply plain_bind; [auto with plain|intros ser].
  eapply (silent_bind _ _ _ (fun _ d => d = [])).
  { induction (f_includes f) as [|i l IH]; simpl; [by apply silent_ret|]. apply plain_bind; [auto with plain|]. intros []. exact IH. }
  intros [] d0 ->. eapply silent_bind; [apply declareConsts_silent|]. intros [cts consts] d1 (-> & _ & Hcn & Hcs & _). cbn [fst snd] in *.
  eapply silent_bind; [apply declareTypes_silent|]. intros [[[hs0 ss0] us0] types] d2 (-> & Eh & Es & Eu & Ph & Ps & Pu & Ht & Hnd & _).
  eapply silent_bind; [by apply (resolveHandleParents_silent _ _ _ _ _ _ _ Ht)|]. intros hs d3 (-> & Enh & Hd & Hpr & Hroot).
  eapply (silent_bind _ _ _ (fun '(ss, us) d => s_Name <$> ss = s_Name <$> ss0 /\ u_Name <$> us = u_Name <$> us0 /\ decls_ok hs ss us d)).
  { unfold resolveMembers. eapply silent_bind; [by apply (structMembers_silent _ _ _ _ _ _ Ht)|]. intros ss d4 [Ens Hms].
    eapply silent_bind; [by apply (unionCases_silent _ _ _ _ _ _ Ht)|]. intros us d5 [Enu Hcsu]. apply silent_ret. split_and!; [done|done|].
    rewrite app_nil_r. unfold decls_ok. rewrite Ens, Enu, Es, Eu, Enh. split; (eapply Forall_impl; [|eassumption]); intros x Hx; (eapply Forall_impl; [|exact Hx]); intros y;
      [apply member_ok_mono|apply case_ok_mono]; set_solver. }
  intros [ss us] d4 (Ens & Enu & Hok).
  eapply (silent_bind _ _ _ (fun _ d => acyclic ss us)); [apply checkCycles_silent; by eapply decls_closed|]. intros [] d5 Hac.
  eapply silent_bind; [apply checkStructsAndUnions_silent|]. intros [] d6 [Hdp Hst]. apply silent_ret.
  split; [|rewrite <- (length_fmap h_Name hs), Enh; unfold handle_names; by rewrite length_fmap]. constructor.
  - done.
  - eapply Forall_impl; [|exact Hcs]. intros c (_ & H1 & _ & H2). done.
  - by rewrite Enh, Ens, Enu, Es, Eu.
  - by rewrite Enh, Ens, Enu, Es, Eu.
  - done.
  - done.
  - eapply decls_ok_mono; [|exact Hok]. set_solver.
  - done.
  - done.
  - intros i Hi. specialize (Hst i Hi). set_solver.
Qed.

(** ** Functions *)

Section FuncRules.
Context (D : decls).

(** Every expansion of the type is fixed. *)
Definition fixedT (t : Ty) : Prop := forall k x, expand D k t = Some x -> fixed (info x) = true.

(** An in or inout parameter: a scalar, a handle, text, a fixed array or an
    array of fixed elements. *)
Definition in_rule (p : Param) : Prop :=
  match p_Type p with
  | Scalar k => IsScalar k = true
  | HandleTy _ _ | Str _ | Bytes _ | FixedArray _ _ => True
  | Array e _ => fixedT e
  | _ => False
  end.

(** An out parameter has a size known before the call: the caller's capacity or
    a bound. *)
Definition out_rule (p : Param) : Prop :=
  match p_Type p with
  | StructTy _ _ => fixedT (p_Type p)
  | UnionTy _ _ => False
  | Str mx => mx <> 0
  | Bytes mx => Borrowed (p_Attrs p) = true -> mx <> 0
  | Array e mx => fixedT e /\ (Borrowed (p_Attrs p) = true -> mx <> 0)
  | _ => True
  end.

Definition param_rule (p : Param) : Prop :=
  match p_Dir p with DirIn => in_rule p | DirOut => out_rule p | DirInOut => in_rule p /\ inoutForbidden (p_Type p) = false end.

(** A return: buffers are bounded; what has neither a size nor a bound of its
    own stays within [@max_out], which covers the worst case if there is one. *)
Definition ret_rule (t : Ty) (maxOut : Z) : Prop :=
  (isVarBuf t = true -> Max t <> 0) /\
  match t with
  | StructTy _ _ | UnionTy _ _ | Array _ _ =>
      (match t with Array e _ => fixedT e | _ => fixedT t end) \/
      1 <= maxOut <= MaxStatic /\ (forall k x, expand D k t = Some x -> wcFinite (info x) = true -> wc (info x) <= maxOut)
  | _ => True
  end.

(** An out struct of a function that C exports has its C type. *)
Definition c_rule (ss : list Struct) (shim : bool) (p : Param) : Prop :=
  p_Dir p = DirOut -> shim = false -> match p_Type p with StructTy _ _ => structCType ss (p_Type p) <> [] | _ => True end.

(** The shape of a return: where [@nullable] and [@free] may stand; what a
    function that C exports returns; and that [@max_out] is for the composite
    return of a shim. *)
Definition ret_shape (ss : list Struct) (shim : bool) (a : Attrs) (t : Ty) (maxOut : Z) : Prop :=
  (Nullable a = true -> kind t = KHandle \/ isVarBuf t = true) /\
  (Free a <> [] -> isVarBuf t = true) /\
  (shim = false -> plainReturn t = true \/ kind t = KStruct /\ structCType ss t <> [] /\ fixedT t) /\
  (maxOut <> 0 -> shim = true /\
     match t with StructTy _ _ | UnionTy _ _ => True | Array e _ => forall k x, expand D k e = Some x -> fixed (info x) = false | _ => False end).
End FuncRules.

Section Build.
Context (consts : constMap) (types : typeMap) (hs : list Handle) (ss : list Struct) (us : list Union).

Notation D := (decls_of ss us).
Notation hn := (h_Name <$> hs).
Notation sn := (s_Name <$> ss).
Notation un := (u_Name <$> us).

Context (Ht : types_ok hn sn un types).

(** Whether a type is fixed, asked in a check. *)
Lemma ask_isFixed {B} t (f : bool -> C B) (Q : B -> list deferredCheck -> Prop) :
  (forall b, (forall k x, expand D k t = Some x -> b = fixed (info x)) -> silent D (f b) Q) -> silent D (ask (isFixed D t) ≫= f) Q.
Proof.
  intros Hf. eapply (silent_bind _ _ _ (fun b d => d = [] /\ forall k x, expand D k t = Some x -> b = fixed (info x))).
  - intros m Hm _. destruct (info_query_ok D t m Hm) as (r & m' & E & Hm' & Hi). unfold ask, isFixed, SizeOf, mbind, M_bind. rewrite E. simpl.
    split; [done|]. split; [done|]. intros k x Hx. by rewrite (Hi k x Hx).
  - intros b d [-> Hb]. by apply Hf.
Qed.

Lemma checkInType_silent p : silent D (checkInType ss us p) (fun _ d => d = [] /\ in_rule D p).
Proof.
  unfold checkInType, in_rule. destruct (p_Type p); try apply silent_add_end; try by apply silent_ret.
  - apply silent_when. by intros H%negb_false_iff.
  - apply ask_isFixed. intros b Hb. apply silent_when. intros ->%negb_false_iff. split; [done|]. intros k x Hx. by rewrite <- (Hb k x Hx).
Qed.

Lemma checkOutType_silent shim p : silent D (checkOutType ss us shim p) (fun _ d => d = [] /\ out_rule D p /\
  (shim = false -> match p_Type p with StructTy _ _ => structCType ss (p_Type p) <> [] | _ => True end)).
Proof.
  unfold checkOutType, out_rule. destruct (p_Type p) eqn:Et; try apply silent_add_end; try by apply silent_ret.
  - apply silent_when. by intros H%Z.eqb_neq.
  - apply silent_when. intros [H|H%Z.eqb_neq]%andb_false_iff; split_and!; try done; congruence.
  - apply ask_isFixed. intros b Hb. destruct b; [|apply silent_add_end]. apply silent_when. intros H. split_and!; [done|intros k x Hx; by rewrite <- (Hb k x Hx)|].
    intros ->. cbn [negb andb] in H. by apply bool_decide_eq_false in H.
  - apply ask_isFixed. intros b Hb. destruct b; [|apply silent_add_end]. apply silent_when.
    intros H. split; [done|]. split; [|done]. split; [intros k x Hx; by rewrite <- (Hb k x Hx)|]. intros Hbo. rewrite Hbo in H. by apply Z.eqb_neq in H.
Qed.

(** The annotations of the parameter [i] are where its attributes come from. *)
Definition attrs_at (pset : list annSet) (i : nat) (a : Attrs) : Prop := exists set, pset !! i = Some set /\ attrs_of set a.

Lemma checkParam_silent f pset i p : attrs_at pset i (p_Attrs p) ->
  silent D (checkParam ss us f pset i p) (fun _ d => d = [] /\ param_rule D p /\ attr_rule f i p /\ c_rule ss (f_Shim f) p).
Proof.
  intros (set & Hset & [A1 A2 A3 A4]). unfold checkParam. cbv zeta.
  assert (Han : forall x, annAt pset i x = set !! x) by (intros x; unfold annAt; by rewrite Hset).
  eapply silent_bind; [apply (silent_when _ _ _ _ (fun _ d => d = [] /\ (p_Dir p = DirInOut -> inoutForbidden (p_Type p) = false)))|].
  { intros H. split; [done|]. intros E. rewrite E in H. exact H. }
  intros [] d [-> H1]. eapply (silent_bind _ _ _ (fun _ d => d = [] /\ param_rule D p /\ c_rule ss (f_Shim f) p)).
  { unfold param_rule, c_rule. destruct (p_Dir p) eqn:E; cbn [bool_decide negb decide_rel].
    - eapply silent_mono; [apply checkInType_silent|]. intros [] d [-> Hr]. done.
    - eapply silent_mono; [apply checkOutType_silent|]. intros [] d (-> & Hr & Hc). auto.
    - eapply silent_mono; [apply checkInType_silent|]. intros [] d [-> Hr]. split_and!; auto; done. }
  intros [] d (-> & H2 & H3). rewrite !Han.
  eapply silent_bind.
  { apply (silent_at D (set !! str "offset_in") (checkOffsetIn f i p) (OffsetIn (p_Attrs p) <> []) (offset_ok f i p) A1).
    - intros a _ Hne. by apply checkOffsetIn_silent.
    - intros a Hn. unfold checkOffsetIn. destruct (OffsetIn (p_Attrs p)); [apply plain_ret|by destruct Hn].
    - destruct (OffsetIn (p_Attrs p)); [by right; intros []|by left]. }
  intros [] d [-> B1]. eapply silent_bind.
  { apply (silent_at D (set !! str "nullable") _ (Nullable (p_Attrs p) = true) (p_Dir p = DirIn /\ nullableType (p_Type p) = true) A2).
    - intros a _ _. apply silent_when. intros [E1%negb_false_iff%bool_decide_eq_true E2%negb_false_iff]%orb_false_iff. done.
    - intros a _. apply plain_when.
    - destruct (Nullable (p_Attrs p)); [by left|by right]. }
  intros [] d [-> B2]. eapply silent_bind.
  { apply (silent_at D (set !! str "borrowed") _ (Borrowed (p_Attrs p) = true) (p_Dir p = DirOut /\ (kind (p_Type p) = KBytes \/ kind (p_Type p) = KArray)) A3).
    - intros a _ _. apply silent_when. intros [E1%negb_false_iff%bool_decide_eq_true E2%negb_false_iff%orb_true_iff]%orb_false_iff.
      split_and!; try done. by destruct E2 as [E2%bool_decide_eq_true|E2%bool_decide_eq_true]; auto.
    - intros a _. apply plain_when.
    - destruct (Borrowed (p_Attrs p)); [by left|by right]. }
  intros [] d [-> B3]. eapply silent_mono.
  { apply (silent_at D (set !! str "free") _ (Free (p_Attrs p) <> []) (borrowedOut p = true) A4).
    - intros a _ _. apply silent_when. intros E%negb_false_iff. done.
    - intros a _. apply plain_when.
    - destruct (Free (p_Attrs p)); [by right; intros []|by left]. }
  intros [] d [-> B4]. split_and!; [done|done|by constructor|done].
Qed.

Lemma checkParams_loop_silent f pset ps : forall i seen, (forall k p, ps !! k = Some p -> attrs_at pset (i + k) (p_Attrs p)) ->
  silent D (checkParams_loop ss us f pset i ps seen) (fun _ d => d = [] /\ Forall (param_rule D) ps /\ NoDup (p_Name <$> ps) /\ (forall p, p ∈ ps -> p_Name p ∉ seen) /\
    (forall k p, ps !! k = Some p -> attr_rule f (i + k) p) /\ Forall (c_rule ss (f_Shim f)) ps).
Proof.
  induction ps as [|p ps IH]; intros i seen Ha; cbn [checkParams_loop]; [apply silent_ret; split_and!; [done|constructor|constructor|set_solver|by intros []|constructor]|].
  eapply silent_bind; [apply (silent_when _ _ _ _ (fun _ d => d = [] /\ p_Name p ∉ seen)); by intros H%bool_decide_eq_false|]. intros [] d [-> Hp].
  eapply silent_bind; [apply checkParam_silent; specialize (Ha 0%nat p eq_refl); by rewrite Nat.add_0_r in Ha|]. intros [] d (-> & Hr & Hat & Hcr).
  eapply silent_mono; [apply IH; intros k q Hk; specialize (Ha (S k) q Hk); by rewrite Nat.add_succ_r in Ha|]. intros [] d (-> & Hps & Hnd & Hall & Hats & Hcrs).
  split_and!; [done|by constructor| | | |by constructor].
  - csimpl. apply list.NoDup_cons. split; [|done]. intros (p' & E & Hp')%list_elem_of_fmap. apply (Hall p' Hp'). set_solver.
  - intros p' [->|Hp']%elem_of_cons; [done|]. specialize (Hall p' Hp'). set_solver.
  - intros [|k] q Hk; simpl in Hk; simplify_eq; [by rewrite Nat.add_0_r|]. rewrite Nat.add_succ_r. by apply (Hats k).
Qed.

Lemma argInt_silent D0 cs x : silent D0 (argInt cs x) (fun v d => d = [] /\ is_Some v).
Proof.
  unfold argInt. destruct (ag_kind x); try apply silent_add; [apply silent_ret; eauto|]. destruct (negb _); [|apply silent_add].
  apply intValue_silent. eauto.
Qed.

Lemma parseMaxOut_silent set (Q : option Z * Pos -> list deferredCheck -> Prop) :
  (forall mo pos, (set !! str "max_out" = None -> mo = None) -> (is_Some (set !! str "max_out") -> is_Some mo) -> Q (mo, pos) []) ->
  silent D (parseMaxOut consts set) Q.
Proof.
  intros HQ. unfold parseMaxOut. destruct (set !! str "max_out") as [a|]; [|apply silent_ret; apply HQ; [done|by intros []]].
  destruct (an_args a) as [|x [|]]; try apply silent_add.
  eapply silent_bind; [apply argInt_silent|]. intros v d [-> Hv]. apply silent_ret. by apply HQ.
Qed.

(** The result of [composite]. *)
Definition comp_is (t : Ty) (b : bool) : Prop :=
  match t with
  | StructTy _ _ | UnionTy _ _ => b = true
  | Array e _ => forall k x, expand D k e = Some x -> b = negb (fixed (info x))
  | _ => b = false
  end.

Lemma composite_silent t (Q : bool -> list deferredCheck -> Prop) : (forall b, comp_is t b -> Q b []) -> silent D (composite ss us t) Q.
Proof.
  intros HQ. unfold composite. destruct t; try (apply silent_ret; by apply HQ).
  apply ask_isFixed. intros b Hb. apply silent_ret. apply HQ. intros k x Hx. by rewrite (Hb k x Hx).
Qed.

Lemma checkMaxOut_silent t n pos (Q : Z -> list deferredCheck -> Prop) :
  (1 <= n <= MaxStatic -> (forall k x, expand D k t = Some x -> wcFinite (info x) = true -> wc (info x) <= n) -> Q n []) ->
  silent D (checkMaxOut ss us t n pos) Q.
Proof.
  intros HQ. unfold checkMaxOut. destruct ((n <? 1) || (MaxStatic <? n)) eqn:E; [apply silent_add|].
  apply orb_false_iff in E as [E1%Z.ltb_ge E2%Z.ltb_ge].
  eapply silent_bind; [apply (silent_query ss us t (fun ti => (wc ti, wcFinite ti)) (fun v d => d = [] /\ forall k x, expand D k t = Some x -> v = (wc (info x), wcFinite (info x))))|].
  { intros r Hr. split; [done|]. intros k x Hx. by rewrite (Hr k x Hx). }
  intros [w fin] d [-> Hw]. eapply silent_bind; [apply (silent_when _ _ _ _ (fun _ d => d = [] /\ (fin = true -> w <= n)))|].
  { intros H. split; [done|]. intros ->. simpl in H. by apply Z.ltb_ge. }
  intros [] d [-> Hwn]. apply silent_ret. apply HQ; [lia|]. intros k x Hx Hf. specialize (Hw k x Hx). simplify_eq. by apply Hwn.
Qed.

Lemma checkReturn_silent f rf ret mo pos : (ret !! str "max_out" = None -> mo = None) -> (is_Some (ret !! str "max_out") -> is_Some mo) ->
  attrs_of ret (f_RetAttrs f) ->
  silent D (checkReturn ss us f rf ret mo pos) (fun n d => d = [] /\ 0 <= n <= MaxStatic /\
    forall t, f_Ret f = Some t -> ret_rule D t n /\ ret_shape D ss (f_Shim f) (f_RetAttrs f) t n).
Proof.
  intros Hno Hyes [_ A2 _ A4]. unfold checkReturn. destruct (f_Ret f) as [t|]; [|apply silent_ret; unfold MaxStatic; split_and!; [done|lia..|done]].
  cbv zeta. eapply silent_bind.
  { apply (silent_at D (ret !! str "nullable") _ (Nullable (f_RetAttrs f) = true) (kind t = KHandle \/ isVarBuf t = true) A2).
    - intros a _ _. apply silent_when. intros [E1%negb_false_iff%bool_decide_eq_true|E2%negb_false_iff]%andb_false_iff; auto.
    - intros a _. apply plain_when.
    - destruct (Nullable (f_RetAttrs f)); [by left|by right]. }
  intros [] d [-> B1]. eapply silent_bind.
  { apply (silent_at D (ret !! str "free") _ (Free (f_RetAttrs f) <> []) (isVarBuf t = true) A4).
    - intros a _ _. apply silent_when. intros E%negb_false_iff. done.
    - intros a _. apply plain_when.
    - destruct (Free (f_RetAttrs f)); [by right; intros []|by left]. }
  intros [] d [-> B2].
  eapply silent_bind; [apply (silent_when _ _ _ _ (fun _ d => d = [] /\ (isVarBuf t = true -> Max t <> 0)))|].
  { intros H. split; [done|]. intros E. rewrite E in H. by apply Z.eqb_neq in H. }
  intros [] d [-> Hmax].
  eapply silent_bind; [apply (composite_silent t (fun b d => d = [] /\ comp_is t b)); done|]. intros comp d [-> Hcomp].
  eapply (silent_bind _ _ _ (fun _ d => d = [] /\ (comp = true -> f_Shim f = false -> fixedT D t /\ kind t = KStruct /\ structCType ss t <> []) /\
    (comp = true -> f_Shim f = true -> is_Some mo) /\ (comp = false -> f_Shim f = false -> plainReturn t = true))).
  { destruct comp; cbn [andb negb].
    - destruct (f_Shim f); cbn [andb negb].
      + destruct (bool_decide (mo = None)) eqn:Em; cbn [andb negb].
        * apply bool_decide_eq_true in Em. destruct (bool_decide _) eqn:Er; cbn [andb negb]; [apply silent_add_end|]. apply silent_when. intros _.
          split_and!; [done|done| |done]. intros _ _. apply Hyes. apply bool_decide_eq_false in Er. by destruct (ret !! str "max_out").
        * apply bool_decide_eq_false in Em. apply silent_when. intros _. split_and!; [done|done| |done]. intros _ _. by destruct mo.
      + destruct (bool_decide (kind t = KStruct) && _) eqn:Ek; cbn [andb negb].
        * apply andb_true_iff in Ek as [Ek%bool_decide_eq_true Ec%negb_true_iff%bool_decide_eq_false].
          apply ask_isFixed. intros b Hb. apply silent_when. intros ->%negb_false_iff. split_and!; [done| |done|done]. intros _ _. split_and!; [|done|done]. intros k x Hx. by rewrite <- (Hb k x Hx).
        * eapply silent_bind; [by apply (silent_ret _ false (fun b d => b = false))|]. intros b d ->. cbn [negb]. apply silent_add_end.
    - apply silent_when. intros H. split_and!; [done|done|done|]. intros _ Es. rewrite Es in H. cbn [negb andb] in H. by apply negb_false_iff in H. }
  intros [] d (-> & Hplain & Hshim & Hpr). assert (Hz : 0 <= 0 <= MaxStatic) by (unfold MaxStatic; lia).
  assert (Hnc : f_Shim f = false \/ comp = false -> forall n, ret_rule D t n).
  { intros Hc n. split; [done|]. destruct comp.
    - destruct Hc as [Hc|]; [|done]. destruct (Hplain eq_refl Hc) as (Hf & Hk & _). destruct t; try done. by left.
    - destruct t; try done. left. intros k x Hx. specialize (Hcomp k x Hx). by destruct (fixed (info x)). }
  assert (Hrs : forall n, (n <> 0 -> f_Shim f = true /\ comp = true) -> ret_shape D ss (f_Shim f) (f_RetAttrs f) t n).
  { intros n Hn. split_and!; [done|done| |].
    - intros Es. destruct comp; [destruct (Hplain eq_refl Es) as (? & ? & ?); auto|left; by apply Hpr].
    - intros H0. destruct (Hn H0) as [-> ->]. split; [done|]. destruct t; try done. intros k x Hx. specialize (Hcomp k x Hx). by destruct (fixed (info x)). }
  destruct (ret !! str "max_out") as [a|] eqn:Ea.
  - destruct (f_Shim f) eqn:Es; [|apply silent_add]. destruct comp eqn:Ec; [|apply silent_add]. simpl.
    destruct mo as [n|]; [|by destruct (Hyes ltac:(eauto))]. apply checkMaxOut_silent. intros Hn Hw. split_and!; [done|lia..|].
    intros ? [= <-]. split; [|by apply Hrs]. split; [done|]. destruct t; try done; by right.
  - apply silent_ret. split_and!; [done|lia..|]. intros ? [= <-]. split; [|by apply Hrs]. apply Hnc. destruct comp; [|by right]. left.
    destruct (f_Shim f); [|done]. destruct (Hshim eq_refl eq_refl). rewrite Hno in *; done.
Qed.

(** The rules for a function; they are about its parameters and its return only. *)
Record func_ok (d : list deferredCheck) (f : Func) : Prop := mkFuncOk {
  fo_params : Forall (fun p => name_ok (p_Name p) /\ resolved hn sn un true (p_Type p) d /\ param_rule D p) (f_Params f);
  fo_names : NoDup (p_Name <$> f_Params f);
  fo_count : (length (f_Params f) <= 64)%nat;
  fo_ret : forall t, f_Ret f = Some t -> resolved hn sn un true t d /\ ret_rule D t (f_MaxOut f);
  fo_maxOut : 0 <= f_MaxOut f <= MaxStatic;
  fo_annot : annot_rule hs f;
  fo_shape : Forall (c_rule ss (f_Shim f)) (f_Params f) /\ forall t, f_Ret f = Some t -> ret_shape D ss (f_Shim f) (f_RetAttrs f) t (f_MaxOut f)
}.

Lemma func_ok_mono d d' f : d ⊆ d' -> func_ok d f -> func_ok d' f.
Proof.
  intros Hd [H1 H2 H3 H4 H5 H6 H7]. constructor; [|done|done| |done|done|done].
  - eapply Forall_impl; [|exact H1]. intros p (Hn & Hr & Hp). split_and!; [done|by eapply resolved_mono|done].
  - intros t E. destruct (H4 t E). split; [by eapply resolved_mono|done].
Qed.

Definition fresh (f : Func) : Prop := f_Opcode f = 0 /\ f_Plan f = None /\ f_Error f = None /\ f_Destroys f = None.

Lemma buildParam_silent rp : raw_type_ok (rp_typ rp) ->
  silent D (buildParam consts types rp) (fun r d => name_ok (p_Name r.1) /\ resolved hn sn un true (p_Type r.1) d /\ attrs_of r.2 (p_Attrs r.1)).
Proof.
  intros Hraw. unfold buildParam.
  eapply silent_bind; [apply (checkName_silent _ _ _ (fun _ d => d = [] /\ name_ok (n_text (rp_name rp)))); done|]. intros [] d [-> Hn].
  eapply silent_bind; [apply (resolveType_silent _ _ _ _ _ _ Ht _ _ (fun o d => exists t, o = Some t /\ resolved hn sn un true t d)); eauto|].
  intros o d (t & -> & Hr). apply plain_bind; [auto with plain|intros set]. eapply silent_bind; [apply attrs_silent|]. intros at_ d' [-> Hat].
  apply silent_ret. rewrite app_nil_r. done.
Qed.

Lemma buildReturn_silent rf : (forall rt, rf_ret rf = Some rt -> raw_type_ok rt) ->
  silent D (buildReturn consts types rf) (fun r d => (forall t, r.1.1.1 = Some t -> resolved hn sn un true t d) /\
    (r.1.2 !! str "max_out" = None -> r.2.1 = None) /\ (is_Some (r.1.2 !! str "max_out") -> is_Some r.2.1) /\ attrs_of r.1.2 r.1.1.2).
Proof.
  intros Hraw. unfold buildReturn. destruct (rf_ret rf) as [rt|]; [|apply silent_ret; split_and!; [done|done|by intros []|apply attrs_of_none]].
  eapply silent_bind; [apply (resolveType_silent _ _ _ _ _ _ Ht _ _ (fun o d => exists t, o = Some t /\ resolved hn sn un true t d)); [by apply Hraw|eauto]|].
  intros o d (t & -> & Hr). apply plain_bind; [auto with plain|intros set]. eapply silent_bind; [apply attrs_silent|]. intros at_ d' [-> Hat].
  eapply silent_bind; [apply (parseMaxOut_silent set (fun r d => d = [] /\ (set !! str "max_out" = None -> r.1 = None) /\ (is_Some (set !! str "max_out") -> is_Some r.1))); auto|].
  intros mo d' (-> & H1 & H2). apply silent_ret. rewrite app_nil_r. split_and!; [by intros ? [= <-]|done|done|done].
Qed.

Lemma plain_allowServer decl : plain D (allowServer decl).
Proof. unfold allowServer. plain_auto. Qed.

Lemma plain_intercepted decl b rf : plain D (intercepted decl b rf).
Proof. unfold intercepted. plain_auto. Qed.

#[local] Hint Resolve plain_allowServer plain_intercepted : plain.

Lemma build_silent rf : Forall (fun p => raw_type_ok (rp_typ p)) (rf_params rf) -> (forall rt, rf_ret rf = Some rt -> raw_type_ok rt) ->
  silent D (build consts types hs ss us rf) (fun fc d => func_ok d (fc_f fc) /\ fresh (fc_f fc) /\
    name_ok (f_Name (fc_f fc)) /\ f_Name (fc_f fc) = n_text (rf_name rf) /\ fc_bad fc = false).
Proof.
  intros Hps Hret. unfold build.
  eapply silent_bind; [apply (checkName_silent _ _ _ (fun _ d => d = [] /\ name_ok (n_text (rf_name rf)))); done|]. intros [] d [-> Hn].
  apply plain_bind; [auto with plain|intros decl]. apply plain_bind; [auto with plain|intros server]. apply plain_bind; [auto with plain|intros icpt].
  apply plain_bind; [plain_auto|intros []].
  eapply silent_bind; [apply (silent_collect _ _ _ (fun _ r d => name_ok (p_Name r.1) /\ resolved hn sn un true (p_Type r.1) d /\ attrs_of r.2 (p_Attrs r.1)))|].
  { intros rp Hrp. apply buildParam_silent. rewrite list.Forall_forall in Hps. by apply Hps. }
  intros params d1 Hparams. eapply silent_bind; [by apply buildReturn_silent|]. intros [[[ret rattrs] rset] [mo mpos]] d2 (Hr & Hm1 & Hm2 & Hra).
  cbn [fst snd] in *. cbv zeta. set (f := mkFunc _ _ _ _ _ _ _ _ _ _ _ _ _).
  eapply silent_bind; [apply (silent_when _ _ _ _ (fun _ d => d = [] /\ (length params <= 64)%nat)); by intros H%Nat.ltb_ge|]. intros [] d3 [-> Hlen].
  eapply silent_bind; [apply checkParams_loop_silent|].
  { cbn [Nat.add f f_Params]. intros j p Hp. apply list_lookup_fmap_Some in Hp as ([p' set] & -> & Hj). exists set.
    destruct (Forall2_lookup_r _ _ _ _ _ Hparams Hj) as (rp & _ & d' & (_ & _ & Hat) & _). split; [by rewrite list_lookup_fmap, Hj|done]. }
  intros [] d4 (-> & Hrules & Hnd & _ & Hats & Hcr).
  eapply silent_bind; [by apply (checkReturn_silent f rf rset mo mpos)|]. intros n d5 (-> & Hn0 & Hrr).
  eapply silent_bind; [apply checkLenOf_silent|]. intros [] d6 [-> Hlens].
  eapply silent_bind; [apply checkOwnership_silent|]. intros [] d7 (-> & Hown). apply silent_ret.
  cbn [app fc_f fc_bad f f_Name]. split_and!; try done. constructor; simpl.
  - apply list.Forall_forall. intros p Hp. split_and!.
    + apply list_elem_of_fmap in Hp as (r & -> & Hp). destruct (list_elem_of_lookup_1 _ _ Hp) as [j Hj].
      destruct (Forall2_lookup_r _ _ _ _ _ Hparams Hj) as (rp & _ & d' & (H1 & _) & _). done.
    + apply list_elem_of_fmap in Hp as (r & -> & Hp). destruct (list_elem_of_lookup_1 _ _ Hp) as [j Hj].
      destruct (Forall2_lookup_r _ _ _ _ _ Hparams Hj) as (rp & _ & d' & (_ & H2 & _) & Hs). eapply resolved_mono; [exact H2|]. set_solver.
    + rewrite list.Forall_forall in Hrules. by apply Hrules.
  - done.
  - by rewrite length_fmap.
  - intros t E. split; [|by apply Hrr]. eapply resolved_mono; [by apply Hr|]. set_solver.
  - lia.
  - constructor; [|exact Hlens|exact Hown]. intros i p Hi. destruct (Hats i p Hi) as [H1 H2 H3 H4]. by constructor.
  - split; [done|]. intros t E. by apply Hrr.
Qed.

Lemma declareFuncs_silent rfs : Forall (fun g => Forall (fun p => raw_type_ok (rp_typ p)) (rf_params g) /\ forall rt, rf_ret g = Some rt -> raw_type_ok rt) rfs ->
  forall i funcs, silent D (declareFuncs consts types hs ss us i rfs funcs) (fun r d =>
    Forall (fun fc => func_ok d (fc_f fc) /\ fresh (fc_f fc) /\ name_ok (f_Name (fc_f fc)) /\ fc_bad fc = false) r.1 /\
    NoDup ((fun fc => f_Name (fc_f fc)) <$> r.1) /\
    (forall fc, fc ∈ r.1 -> funcs !! f_Name (fc_f fc) = None) /\
    (forall x k, r.2 !! x = Some k <-> funcs !! x = Some k \/ exists j fc, r.1 !! j = Some fc /\ f_Name (fc_f fc) = x /\ k = (i + j)%nat)).
Proof.
  induction 1 as [|rf rfs [Hp Hr] Hrfs IH]; intros i funcs; cbn [declareFuncs].
  { apply silent_ret. split_and!; [constructor|constructor|set_solver|]. intros x k. split; [by left|]. by intros [|(j & fc & [=] & _)]. }
  cbv zeta. eapply silent_bind; [apply (silent_when _ _ _ _ (fun _ d => d = [] /\ funcs !! n_text (rf_name rf) = None))|].
  { intros H%bool_decide_eq_false. split; [done|]. by apply eq_None_not_Some. }
  intros [] d [-> Hnone]. rewrite bool_decide_eq_false_2 by (rewrite Hnone; by intros []).
  eapply (silent_bind _ _ _ (fun r d => (func_ok d (fc_f r.1) /\ fresh (fc_f r.1) /\ name_ok (f_Name (fc_f r.1)) /\ f_Name (fc_f r.1) = n_text (rf_name rf) /\ fc_bad r.1 = false) /\ r.2 = false)).
  { intros m Hm E. pose proof (build_silent rf Hp Hr m Hm) as Hb. unfold phase in *. destruct (build consts types hs ss us rf m) as [[fc o] m']. simpl in *.
    destruct (Hb E) as [Hm' Hfc]. split; [done|]. split; [exact Hfc|]. by rewrite E. }
  intros [fc bad] d1 [(Hfc & Hfr & Hnm & En & Hbad) Eb]. cbn [fst snd] in *. subst bad.
  eapply silent_bind; [apply IH|]. intros [fcs fm] d2 (Hall & Hnd & Hnew & Hmap). apply silent_ret. cbn [fst snd app] in *. rewrite app_nil_r.
  split_and!.
  - constructor.
    + cbn [set_bad fc_f fc_bad]. rewrite Hbad. split; [eapply func_ok_mono; [|exact Hfc]; set_solver|]. split; [done|]. by split.
    + eapply Forall_impl; [|exact Hall]. intros fc' (H1 & H2). split; [eapply func_ok_mono; [|exact H1]; set_solver|done].
  - csimpl. apply list.NoDup_cons. split; [|done]. intros (fc' & E & Hin)%list_elem_of_fmap. specialize (Hnew fc' Hin). rewrite <- E, En, lookup_insert_eq in Hnew. done.
  - intros fc' [->|Hin]%elem_of_cons; [cbn; by rewrite En|]. specialize (Hnew fc' Hin). apply lookup_insert_None in Hnew. apply Hnew.
  - intros x k. rewrite Hmap. destruct (decide (x = n_text (rf_name rf))) as [->|Hne].
    + rewrite lookup_insert_eq, Hnone. split.
      * intros [[= <-]|(j & fc' & Hj & Ex & ->)]; right; [exists 0%nat; eexists; split; [done|]; cbn; by rewrite En, Nat.add_0_r|exists (S j), fc'; by rewrite Nat.add_succ_r].
      * intros [[=]|([|j] & fc' & Hj & Ex & ->)]; [left; by rewrite Nat.add_0_r|right; exists j, fc'; by rewrite Nat.add_succ_r].
    + rewrite lookup_insert_ne by done. split.
      * intros [H|(j & fc' & Hj & Ex & ->)]; [by left|right; exists (S j), fc'; by rewrite Nat.add_succ_r].
      * intros [H|([|j] & fc' & Hj & Ex & ->)]; [by left|simpl in Hj; simplify_eq; cbn in Hne; congruence|right; exists j, fc'; by rewrite Nat.add_succ_r].
Qed.

End Build.
