(* ===== verification/IdlAccept.v ===== *)
(** * IdlAccept: what an accepted interface guarantees

    The passes of bindgen/idl put together: the destroy functions and the error
    conventions, the plans and the opcodes, the Go names; then, from the text
    that [Parse] accepts, the properties of the [Spec] it returns. *)
From stdpp Require Import sorting.
From S2P Require Import Prelude IdlTypes IdlSizes IdlModel IdlPlan IdlLex IdlParse IdlCheck IdlCycles IdlFunc IdlSpec IdlSound IdlAnnot IdlRules.

(** ** Destroy functions *)

(** What a function keeps while it is completed: everything but its error
    convention, its handle, its plan, its opcode and its Go name. *)
Definition core (f : Func) :=
  (f_Name f, f_Shim f, f_Intercept f, f_Params f, f_Ret f, f_RetAttrs f, f_MaxOut f, f_Pos f).

(** The second state of a function being checked continues the first. *)
Definition same_core (fc fc' : fnCheck) : Prop :=
  core (fc_f fc) = core (fc_f fc') /\ fc_decl fc = fc_decl fc' /\ fc_server fc = fc_server fc' /\ fc_bad fc = fc_bad fc' /\
  f_Opcode (fc_f fc) = f_Opcode (fc_f fc') /\ f_Plan (fc_f fc) = f_Plan (fc_f fc').

#[export] Instance same_core_preorder : PreOrder same_core.
Proof.
  split; [done|]. intros x y z (H1 & H2 & H3 & H4 & H5 & H6) (K1 & K2 & K3 & K4 & K5 & K6). unfold same_core. split_and!; congruence.
Qed.

Definition same_error (fc fc' : fnCheck) : Prop := same_core fc fc' /\ f_Error (fc_f fc) = f_Error (fc_f fc').

#[export] Instance same_error_preorder : PreOrder same_error.
Proof. split; [done|]. intros x y z [H1 H2] [K1 K2]. split; [by trans y|congruence]. Qed.

Lemma core_destroyShape i f g : core f = core g -> destroyShape i f = destroyShape i g.
Proof. intros [=]. unfold destroyShape. by repeat (case_match; simplify_eq/=; try congruence). Qed.

(** The destroy functions of the handles from the [i]th on and the handles of
    the functions name each other. *)
Definition linked (i : nat) (hs : list Handle) (fcs : list fnCheck) : Prop :=
  forall j h, hs !! j = Some h -> exists k fc, h_Destroy h = Some k /\ fcs !! k = Some fc /\
    f_Destroys (fc_f fc) = Some (i + j)%nat /\ destroyShape (i + j) (fc_f fc) = true.

Definition keeps_Destroys (fcs fcs' : list fnCheck) : Prop :=
  forall k fc fc' x, fcs !! k = Some fc -> fcs' !! k = Some fc' -> f_Destroys (fc_f fc) = Some x -> f_Destroys (fc_f fc') = Some x.

(** A link comes from before or from one of the handles. *)
Definition from_handles (i : nat) (hs : list Handle) (fcs fcs' : list fnCheck) : Prop :=
  forall k fc' x, fcs' !! k = Some fc' -> f_Destroys (fc_f fc') = Some x ->
    (exists fc, fcs !! k = Some fc /\ f_Destroys (fc_f fc) = Some x) \/ (exists j h, x = (i + j)%nat /\ hs !! j = Some h /\ h_Destroy h = Some k).

Definition same_handle (h h' : Handle) : Prop := h_Name h = h_Name h' /\ h_Parent h = h_Parent h' /\ h_Pos h = h_Pos h'.

Lemma resolveDestroy_silent D funcs rhs : forall i hs fcs, length rhs = length hs ->
  silent D (resolveDestroy i funcs rhs hs fcs) (fun r d => d = [] /\ Forall2 same_handle hs r.1 /\ Forall2 same_error fcs r.2 /\
    linked i r.1 r.2 /\ keeps_Destroys fcs r.2 /\ from_handles i r.1 fcs r.2).
Proof.
  induction rhs as [|rh rhs IH]; intros i [|h hs] fcs Hl; try done; cbn [resolveDestroy].
  { apply silent_ret. cbn [fst snd]. split_and!; [done|apply Forall2_nil_2|reflexivity|by intros []|intros k fc fc1 x; congruence|intros k fc x H1 H2; left; eauto]. }
  injection Hl as Hl.
  eapply (silent_bind _ _ _ (fun r d => d = [] /\ exists k fc, fcs !! k = Some fc /\ destroyShape i (fc_f fc) = true /\ f_Destroys (fc_f fc) = None /\
    h_Destroy r.1 = Some k /\ same_handle h r.1 /\ r.2 = <[k := set_f (set_Destroys i (fc_f fc)) fc]> fcs)).
  { destruct (funcs !! n_text (rh_destroy rh)) as [k|]; [|apply silent_add]. simpl. destruct (fcs !! k) as [fc|] eqn:Ek; [|apply silent_add]. simpl.
    destruct (destroyShape i (fc_f fc)) eqn:Es; [|apply silent_add]. cbn [negb].
    case_bool_decide as Hd; [apply silent_add|]. apply silent_ret. split; [done|]. exists k, fc. apply eq_None_not_Some in Hd. done. }
  intros [h1 fcs1] d (-> & k & fc & Hk & Hs & Hd & Eh & Hh & E1). cbn [fst snd] in *. subst fcs1.
  eapply silent_bind; [by apply IH|]. intros [hs' fcs'] d (-> & Hhs & Hco & Hlk & Hkp & Hfr). apply silent_ret. cbn [fst snd app] in *.
  assert (Hkl : (k < length fcs)%nat) by (by eapply lookup_lt_Some).
  assert (Hbase : Forall2 same_error fcs (<[k := set_f (set_Destroys i (fc_f fc)) fc]> fcs)).
  { rewrite <- (list_insert_id fcs k fc Hk) at 1. apply Forall2_insert; [reflexivity|done]. }
  assert (Hkp' : keeps_Destroys fcs (<[k := set_f (set_Destroys i (fc_f fc)) fc]> fcs)).
  { intros k' fc1 fc2 x H1 H2 H3. destruct (decide (k' = k)) as [->|Hne]; [congruence|]. rewrite list_lookup_insert_ne in H2 by done. congruence. }
  split_and!.
  - done.
  - by constructor.
  - by trans (<[k := set_f (set_Destroys i (fc_f fc)) fc]> fcs).
  - intros [|j] h' Hj; simpl in Hj; simplify_eq.
    + destruct (Forall2_lookup_l _ _ _ k (set_f (set_Destroys i (fc_f fc)) fc) Hco) as (fc' & Hk' & Hc'); [by apply list_lookup_insert_eq|].
      exists k, fc'. split_and!; [done|done| |]; rewrite Nat.add_0_r.
      * eapply Hkp; [by apply list_lookup_insert_eq|done|done].
      * rewrite <- (core_destroyShape _ _ _ (proj1 (proj1 Hc'))). done.
    + destruct (Hlk j h' Hj) as (k' & fc' & H). exists k', fc'. by rewrite Nat.add_succ_r.
  - intros k' fc1 fc2 x H1 H2 H3. destruct (Forall2_lookup_l _ _ _ k' fc1 Hbase H1) as (fc3 & H4 & _). exact (Hkp k' fc3 fc2 x H4 H2 (Hkp' k' fc1 fc3 x H1 H4 H3)).
  - intros k' fc2 x H1 H2. destruct (Hfr k' fc2 x H1 H2) as [(fc1 & H3 & H4)|(j & h' & -> & Hj & Hd')].
    + destruct (decide (k' = k)) as [->|Hne].
      * rewrite list_lookup_insert_eq in H3 by done. simplify_eq/=. right. exists 0%nat, h1. by rewrite Nat.add_0_r.
      * rewrite list_lookup_insert_ne in H3 by done. left. eauto.
    + right. exists (S j), h'. by rewrite Nat.add_succ_r.
Qed.

(** ** Error conventions *)

Section ErrorRules.
Context (D : decls) (consts : constMap) (funcs : funcMap) (fcs : list fnCheck).

(** The values of ok(...) for a return of the kind [k]. *)
Definition ok_values (k : Kind) (vs : list Z) : Prop :=
  vs <> [] /\ NoDup vs /\ StronglySorted Z.le vs /\ Forall (fun v => fitsKind v k = true /\ - 2 ^ 63 <= v < 2 ^ 63) vs.

(** A predicate takes the returned value and answers with an integer or a bool. *)
Definition predicate_ok (t : Ty) (name : bytes) : Prop :=
  exists g p r, serverFunc funcs fcs name = Some g /\ f_Params g = [p] /\ p_Dir p = DirIn /\ typeEq (p_Type p) t = true /\
    f_Ret g = Some r /\ isIntOrBool r = true.

(** An argument of a detail clause for the parameter [q] of the detail function:
    the returned value, an in parameter or a handle that was created, but not the
    handle the function destroys. *)
Definition detail_arg (f : Func) (x : bytes) (q : Param) : Prop :=
  x = str "ret" /\ (exists t, f_Ret f = Some t /\ typeEq t (p_Type q) = true) \/
  exists j p, paramIndex f x = Some j /\ f_Params f !! j = Some p /\ (p_Dir p = DirIn \/ p_Dir p = DirOut /\ kind (p_Type p) = KHandle) /\
    (forall y i, p_Type p = HandleTy y i -> f_Destroys f <> Some i) /\ typeEq (p_Type p) (p_Type q) = true.

(** A detail function returns a bounded [str] and takes the arguments, all in. *)
Definition detail_ok (f : Func) (det : Detail) : Prop :=
  exists g, serverFunc funcs fcs (dt_Func det) = Some g /\ (exists mx, f_Ret g = Some (Str mx) /\ mx <> 0) /\
    Forall (fun q => p_Dir q = DirIn) (f_Params g) /\ Forall2 (detail_arg f) (dt_Args det) (f_Params g).

Definition error_ok (f : Func) : Prop :=
  forall e, f_Error f = Some e -> exists t, f_Ret f = Some t /\
    match e_Kind e with
    | ErrStatus => IsInt (kind t) = true /\ ok_values (kind t) (e_Ok e)
    | ErrNull => nullableType t = true /\ Nullable (f_RetAttrs f) = false
    | ErrPredicate => e_Predicate e <> [] -> predicate_ok t (e_Predicate e)
    | ErrNone => False
    end /\ forall det, e_Detail e = Some det -> detail_ok f det.

Lemma okValues_silent k args : forall seen,
  silent D (okValues consts k args seen) (fun vs d => d = [] /\ length vs = length args /\ NoDup vs /\
    Forall (fun v => (fitsKind v k = true /\ - 2 ^ 63 <= v < 2 ^ 63) /\ v ∉ seen) vs).
Proof.
  induction args as [|a args IH]; intros seen; cbn [okValues]; [apply silent_ret; split_and!; [done|done|constructor|constructor]|].
  eapply silent_bind; [apply argInt_silent|]. intros o d [-> [x ->]].
  destruct (negb (fitsKind x k) || _) eqn:Ef; [apply silent_add|]. apply orb_false_iff in Ef as [Ef%negb_false_iff Er%negb_false_iff].
  apply andb_true_iff in Er as [Er1%Z.leb_le Er2%Z.ltb_lt]. case_bool_decide as Hs; [apply silent_add|].
  eapply silent_bind; [apply IH|]. intros vs d (-> & Hl & Hnd & Hall). apply silent_ret. split_and!; [done|by simpl; rewrite Hl| |].
  - apply list.NoDup_cons. split; [|done]. intros Hx. rewrite list.Forall_forall in Hall. destruct (Hall x Hx). set_solver.
  - constructor; [done|]. eapply Forall_impl; [|exact Hall]. intros v [H1 H2]. split; [done|]. set_solver.
Qed.

Lemma statusOk_silent t okArg a : silent D (statusOk consts t okArg a) (fun vs d => d = [] /\ IsInt (kind t) = true /\ ok_values (kind t) vs).
Proof.
  unfold statusOk. destruct (IsInt (kind t)) eqn:Ei; [|apply silent_add]. cbn [negb]. destruct okArg as [x|].
  - destruct (Nat.eqb_spec (length (ag_args x)) 0) as [|Hne]; [apply silent_add|].
    eapply silent_bind; [apply okValues_silent|]. intros vs d (-> & Hl & Hnd & Hall). apply silent_ret. split_and!; [done|done|].
    pose proof (merge_sort_Permutation Z.le vs) as Hp. split_and!.
    + intros E. rewrite E in Hp. apply Permutation_nil in Hp. subst vs. simpl in Hl. lia.
    + by rewrite Hp.
    + apply Sorted_StronglySorted; [intros ? ? ?; lia|]. apply (Sorted_merge_sort Z.le).
    + rewrite Hp. eapply Forall_impl; [|exact Hall]. by intros v [H _].
  - apply silent_ret. split_and!; [done|done|]. split_and!; [done|apply NoDup_singleton|by repeat constructor|].
    constructor; [|constructor]. split; [by destruct (kind t)|lia].
Qed.

Lemma checkPredicate_silent t name pos : silent D (checkPredicate funcs fcs t name pos) (fun _ d => d = [] /\ predicate_ok t name).
Proof.
  unfold checkPredicate, predicate_ok. destruct (serverFunc funcs fcs name) as [g|] eqn:Eg; [|apply silent_add_end].
  destruct (f_Params g) as [|p []] eqn:Ep; try apply silent_add_end. cbn [negb].
  destruct (bool_decide (p_Dir p = DirIn) && typeEq (p_Type p) t) eqn:E; [|apply silent_add_end]. cbn [negb].
  apply andb_true_iff in E as [Ed%bool_decide_eq_true Et]. apply silent_when. intros Hr%negb_false_iff. split; [done|].
  destruct (f_Ret g) as [r|] eqn:Er; [|done]. exists g, p, r. done.
Qed.

Lemma detailArg_silent f a :
  silent D (detailArg f a) (fun r d => d = [] /\ exists x t, r = ([x], Some t) /\ forall q, typeEq t (p_Type q) = true -> detail_arg f x q).
Proof.
  unfold detailArg. destruct (ag_kind a); try apply silent_add.
  - destruct (f_Ret f) as [t|] eqn:Er; [|apply silent_add]. apply silent_ret. split; [done|]. exists (str "ret"), t. split; [done|]. intros q Hq. left. eauto.
  - destruct (ag_hasParens a); [apply silent_add|]. destruct (paramIndex f (ag_text a)) as [j|] eqn:Ej; [|apply silent_add]. simpl.
    destruct (f_Params f !! j) as [p|] eqn:Ep; [|apply silent_add]. destruct (_ || _) eqn:Ed; [|apply silent_add]. cbn [negb].
    eapply silent_bind; [apply (silent_when _ _ _ _ (fun _ d => d = [] /\ forall y i, p_Type p = HandleTy y i -> f_Destroys f <> Some i))|].
    { intros H. split; [done|]. intros y i E. rewrite E in H. by apply bool_decide_eq_false in H. }
    intros [] d [-> Hd]. apply silent_ret. split; [done|]. exists (ag_text a), (p_Type p). split; [done|]. intros q Hq. right. exists j, p. split_and!; try done.
    apply orb_true_iff in Ed as [H%bool_decide_eq_true|[H1%bool_decide_eq_true H2%bool_decide_eq_true]%andb_true_iff]; auto.
Qed.

Lemma detailArgs_silent f g args : forall i,
  silent D (detailArgs f g i args) (fun names d => d = [] /\ length names = length args /\
    forall k x q, names !! k = Some x -> f_Params g !! (i + k)%nat = Some q -> detail_arg f x q).
Proof.
  induction args as [|a args IH]; intros i; cbn [detailArgs]; [by apply silent_ret|].
  eapply silent_bind; [apply detailArg_silent|]. intros [names at_] d (-> & x & t & E & Hx). injection E as -> ->. cbv beta iota.
  eapply (silent_bind _ _ _ (fun _ d => d = [] /\ forall q, f_Params g !! i = Some q -> detail_arg f x q)).
  { destruct (f_Params g !! i) as [q|]; [|by apply silent_ret]. apply silent_when. intros H%negb_false_iff. split; [done|]. intros ? [= <-]. by apply Hx. }
  intros [] d [-> Hq]. eapply silent_bind; [apply IH|]. intros rest d (-> & Hl & Hr). apply silent_ret. split_and!; [done|simpl; by rewrite Hl|].
  intros [|k] y q Hk Hp; simpl in Hk; [simplify_eq; rewrite Nat.add_0_r in Hp; by apply Hq|]. rewrite Nat.add_succ_r in Hp. by eapply Hr.
Qed.

Lemma detail_silent f d0 : silent D (detail funcs fcs f d0) (fun o d => d = [] /\ exists det, o = Some det /\ detail_ok f det).
Proof.
  unfold detail. destruct (ag_args d0) as [|x args]; [apply silent_add|]. destruct (_ || _); [apply silent_add|].
  destruct (serverFunc funcs fcs (ag_text x)) as [g|] eqn:Eg; [|apply silent_add].
  eapply silent_bind; [apply (silent_when _ _ _ _ (fun _ d => d = [] /\ exists mx, f_Ret g = Some (Str mx) /\ mx <> 0))|].
  { intros H%negb_false_iff. split; [done|]. destruct (f_Ret g) as [[]|]; try done. apply negb_true_iff, Z.eqb_neq in H. eauto. }
  intros [] d [-> H1]. eapply silent_bind; [apply (silent_when _ _ _ _ (fun _ d => d = [] /\ Forall (fun q => p_Dir q = DirIn) (f_Params g)))|].
  { intros H. split; [done|]. apply list.Forall_forall. intros q Hq. destruct (decide (p_Dir q = DirIn)) as [|Hne]; [done|]. exfalso.
    assert (Ht : existsb (fun p => negb (bool_decide (p_Dir p = DirIn))) (f_Params g) = true); [|congruence].
    apply existsb_exists. exists q. split; [by apply list_elem_of_In|]. by rewrite bool_decide_eq_false_2. }
  intros [] d [-> H2]. eapply silent_bind; [apply (silent_when _ _ _ _ (fun _ d => d = [] /\ length args = length (f_Params g))); by intros H%negb_false_iff%Nat.eqb_eq|].
  intros [] d [-> H3]. eapply silent_bind; [apply detailArgs_silent|]. intros names d (-> & Hl & Hn). apply silent_ret. split; [done|].
  exists (mkDetail (ag_text x) names). split; [done|]. exists g. simpl. split_and!; try done. apply Forall2_same_length_lookup_2; [congruence|].
  intros k y q Hy Hq. by apply (Hn k y q).
Qed.

(** The kind is one of those that can be written. *)
Definition written_kind (e : errArgs) : Prop := ea_kind e <> Some ErrNone.

Lemma setKind_silent pos k e : k <> ErrNone -> silent D (setKind pos k e) (fun e' d => d = [] /\ written_kind e').
Proof. intros Hk. unfold setKind. apply plain_bind; [auto with plain|intros []]. apply silent_ret. split; [done|]. unfold written_kind. simpl. congruence. Qed.

Lemma errorArg_silent a e : written_kind e -> silent D (errorArg a e) (fun e' d => d = [] /\ written_kind e').
Proof.
  intros He. unfold errorArg. case_bool_decide; [|apply silent_add]. cbn [negb]. destruct (_ || _).
  { apply plain_bind; [auto with plain|intros []]. apply setKind_silent. by destruct (bool_decide _). }
  case_bool_decide.
  { eapply silent_bind; [by apply setKind_silent|]. intros e1 d [-> He1]. destruct (ag_args a) as [|x []]; try apply silent_add.
    destruct (_ || _); [apply silent_add|]. by apply silent_ret. }
  case_bool_decide.
  { destruct (ea_ok e); [apply silent_add|]. by apply silent_ret. }
  case_bool_decide; [|apply silent_add]. destruct (ea_detail e); [apply silent_add|]. by apply silent_ret.
Qed.

Lemma errorArgs_silent args : forall e, written_kind e -> silent D (errorArgs args e) (fun e' d => d = [] /\ written_kind e').
Proof.
  induction args as [|a args IH]; intros e He; cbn [errorArgs]; [by apply silent_ret|].
  eapply silent_bind; [by apply errorArg_silent|]. intros e1 d [-> He1]. by apply IH.
Qed.

Lemma errorConv_silent f a :
  silent D (errorConv consts funcs fcs f a) (fun f' d => d = [] /\ error_ok f' /\ exists e, f' = set_Error e f).
Proof.
  unfold errorConv. destruct (f_Ret f) as [t|] eqn:Er; [|apply silent_add].
  eapply silent_bind; [by apply errorArgs_silent|]. intros e d [-> He]. destruct (ea_kind e) as [k|] eqn:Ek; [|apply silent_add].
  eapply (silent_bind _ _ _ (fun r d => d = [] /\ match k with
    | ErrStatus => IsInt (kind t) = true /\ ok_values (kind t) r.1
    | ErrNull => nullableType t = true /\ Nullable (f_RetAttrs f) = false
    | ErrPredicate => r.2 <> [] -> predicate_ok t r.2
    | ErrNone => False end)).
  { unfold errorKind. destruct k.
    - by destruct He.
    - eapply silent_bind; [apply statusOk_silent|]. intros vs d (-> & H). by apply silent_ret.
    - eapply silent_bind; [apply (silent_when _ _ _ _ (fun _ d => d = [] /\ nullableType t = true)); by intros H%negb_false_iff|]. intros [] d [-> H1].
      eapply silent_bind; [apply (silent_when _ _ _ _ (fun _ d => d = [] /\ Nullable (f_RetAttrs f) = false)); done|]. intros [] d [-> H2]. by apply silent_ret.
    - case_bool_decide as Hp.
      + apply plain_bind; [apply plain_ret|intros []]. apply silent_ret. done.
      + eapply silent_bind; [apply checkPredicate_silent|]. intros [] d [-> H]. by apply silent_ret. }
  intros [oks pred] d [-> Hk]. cbn [fst snd] in Hk. apply plain_bind; [plain_auto|intros []].
  eapply (silent_bind _ _ _ (fun o d => d = [] /\ forall det, o = Some det -> detail_ok f det)).
  { destruct (ea_detail e) as [d0|]; [|by apply silent_ret]. eapply silent_mono; [apply detail_silent|]. intros o d (-> & det & -> & Hd). split; [done|]. by intros ? [= <-]. }
  intros det d [-> Hdet]. apply silent_ret. split_and!; [done| |eauto]. intros e' [= <-]. exists t. split; [done|]. split; [by destruct k|exact Hdet].
Qed.

Lemma silent_phase {A} (c : C A) (Q : A -> list deferredCheck -> Prop) : silent D c Q -> silent D (phase c) (fun r d => Q r.1 d /\ r.2 = false).
Proof.
  intros Hc m Hm. specialize (Hc m Hm). unfold phase. destruct (c m) as [[a o] m']. cbn [fst snd] in *. intros E. destruct (Hc E). by rewrite E.
Qed.

Lemma resolveError_silent fc : f_Error (fc_f fc) = None ->
  silent D (resolveError consts funcs fcs fc) (fun fc' d => d = [] /\ same_core fc fc' /\ f_Destroys (fc_f fc) = f_Destroys (fc_f fc') /\ error_ok (fc_f fc')).
Proof.
  intros Hn. unfold resolveError. eapply silent_bind.
  - apply (silent_phase _ (fun f' d => d = [] /\ error_ok f' /\ (f' = fc_f fc \/ exists e, f' = set_Error e (fc_f fc)))).
    destruct (fc_decl fc !! str "error") as [a|].
    + eapply silent_mono; [apply errorConv_silent|]. intros f' d (-> & H1 & H2). auto.
    + apply silent_ret. split_and!; [done| |by left]. intros e. by rewrite Hn.
  - intros [f' b] d [(-> & He & Hf) Eb]. cbn [fst snd] in *. subst b. apply silent_ret. split; [done|].
    unfold same_core, set_bad, set_f. cbn [fc_f fc_decl fc_server fc_bad]. rewrite orb_false_r. split; [|split; [|done]].
    + by destruct Hf as [->|[e ->]].
    + by destruct Hf as [->|[e ->]].
Qed.

End ErrorRules.

(** ** All functions *)

(** A destroy function returns nothing or a status. *)
Definition destroy_returns (hs : list Handle) (fcs : list fnCheck) : Prop :=
  forall h k fc t, h ∈ hs -> h_Destroy h = Some k -> fcs !! k = Some fc -> f_Ret (fc_f fc) = Some t ->
    IsInt (kind t) = true /\ statusError (fc_f fc) = true.

Lemma checkDestroyFuncs_silent ss us hs fcs : silent (decls_of ss us) (checkDestroyFuncs hs fcs) (fun _ _ => destroy_returns hs fcs).
Proof.
  unfold checkDestroyFuncs. eapply silent_bind.
  - apply (silent_each _ _ _ (fun h => forall k fc t, h_Destroy h = Some k -> fcs !! k = Some fc -> f_Ret (fc_f fc) = Some t ->
      IsInt (kind t) = true /\ statusError (fc_f fc) = true)).
    intros h _. destruct (h_Destroy h) as [k|]; [|by apply silent_ret]. simpl. destruct (fcs !! k) as [fc|] eqn:Ek; [|apply silent_ret; congruence].
    destruct (f_Ret (fc_f fc)) as [t|] eqn:Er; [|apply silent_ret; congruence]. apply silent_when.
    intros [H1%negb_false_iff H2%negb_false_iff]%orb_false_iff k' fc' t' [= <-] ?. simplify_eq. rewrite Er. by intros [= <-].
  - intros [] d Hh. eapply silent_mono; [apply plain_each|].
    + intros fc. plain_auto.
    + intros [] d' _ h k fc t Hin. rewrite list.Forall_forall in Hh. by apply Hh.
Qed.

Lemma names_core fcs fcs' : Forall2 same_core fcs fcs' -> (fun fc => f_Name (fc_f fc)) <$> fcs = (fun fc => f_Name (fc_f fc)) <$> fcs'.
Proof. induction 1 as [|fc fc' fcs fcs' (E & _) _ IH]; csimpl; [done|]. injection E as E _. by rewrite E, IH. Qed.

Section Funcs.
Context (f : rawFile) (consts : constMap) (types : typeMap) (hs : list Handle) (ss : list Struct) (us : list Union).

Notation D := (decls_of ss us).

(** The functions and handles once everything but the plans is known. *)
Record funcs_done (fcs : list fnCheck) (funcs : funcMap) (hs' : list Handle) (d : list deferredCheck) : Prop := mkFuncsDone {
  fd_funcs : Forall (fun fc => func_ok hs ss us d (fc_f fc) /\ f_Opcode (fc_f fc) = 0 /\ f_Plan (fc_f fc) = None /\ name_ok (f_Name (fc_f fc)) /\ fc_bad fc = false) fcs;
  fd_names : NoDup ((fun fc => f_Name (fc_f fc)) <$> fcs);
  fd_index : forall x k, funcs !! x = Some k <-> exists fc, fcs !! k = Some fc /\ f_Name (fc_f fc) = x;
  fd_handles : Forall2 same_handle hs hs';
  fd_linked : linked 0 hs' fcs;
  fd_unlinked : forall k fc i, fcs !! k = Some fc -> f_Destroys (fc_f fc) = Some i -> exists h, hs' !! i = Some h /\ h_Destroy h = Some k;
  fd_returns : destroy_returns hs' fcs;
  fd_errors : exists fcs0, Forall2 same_core fcs0 fcs /\ Forall (fun fc => error_ok funcs fcs0 (fc_f fc)) fcs
}.

Lemma annot_core hs0 g g' : core g = core g' -> annot_rule hs0 g -> annot_rule hs0 g'.
Proof.
  destruct g, g'. intros [= -> -> -> -> -> -> -> ->] [H1 [L1 L2 L3 L4 L5] H3]. constructor; [|by constructor|done].
  intros i p Hi. destruct (H1 i p Hi). by constructor.
Qed.

Lemma func_ok_core d g g' : core g = core g' -> func_ok hs ss us d g -> func_ok hs ss us d g'.
Proof.
  intros E [H1 H2 H3 H4 H5 H6 H7]. pose proof (annot_core _ _ _ E H6) as H6'. injection E as _ E4 _ E1 E2 E5 E3 _.
  constructor; rewrite <- ?E1, <- ?E2, <- ?E3, <- ?E4, <- ?E5; done.
Qed.

Lemma runFuncs_silent : raw_ok f -> types_ok (h_Name <$> hs) (s_Name <$> ss) (u_Name <$> us) types -> length hs = length (f_handles f) ->
  silent D (runFuncs f consts types hs ss us) (fun '(fcs, funcs, hs') d => funcs_done fcs funcs hs' d).
Proof.
  intros [_ _ _ R4] Ht Hl. unfold runFuncs.
  eapply silent_bind; [by apply declareFuncs_silent|]. intros [fcs0 funcs] d0 (Hall & Hnd & _ & Hmap). cbn [fst snd] in *.
  eapply silent_bind; [by apply resolveDestroy_silent|]. intros [hs' fcs1] d1 (-> & Hsame & Hc1 & Hlk & _ & Hfr). cbn [fst snd] in *.
  assert (Hfresh : Forall (fun fc => f_Error (fc_f fc) = None) fcs1).
  { apply list.Forall_lookup. intros k fc Hk. destruct (Forall2_lookup_r _ _ _ _ _ Hc1 Hk) as (fc0 & Hk0 & _ & <-).
    rewrite list.Forall_lookup in Hall. apply (Hall k fc0 Hk0). }
  eapply silent_bind; [apply (silent_collect _ _ _ (fun fc fc' d => d = [] /\ same_core fc fc' /\ f_Destroys (fc_f fc) = f_Destroys (fc_f fc') /\ error_ok funcs fcs1 (fc_f fc')))|].
  { intros fc Hin. apply resolveError_silent. rewrite list.Forall_forall in Hfresh. by apply Hfresh. }
  intros fcs2 d2 H2.
  assert (Hc2 : Forall2 same_core fcs1 fcs2) by (eapply Forall2_impl; [|exact H2]; by intros ? ? (? & (_ & ? & _) & _)).
  assert (Hc : Forall2 same_core fcs0 fcs2) by (trans fcs1; [eapply Forall2_impl; [|exact Hc1]; by intros ? ? []|done]).
  eapply silent_bind; [apply checkDestroyFuncs_silent|]. intros [] d3 Hret. apply silent_ret.
  assert (Hback : forall k fc, fcs2 !! k = Some fc -> exists fc1, fcs1 !! k = Some fc1 /\ same_core fc1 fc /\ f_Destroys (fc_f fc1) = f_Destroys (fc_f fc) /\ error_ok funcs fcs1 (fc_f fc)).
  { intros k fc Hk. destruct (Forall2_lookup_r _ _ _ _ _ H2 Hk) as (fc1 & Hk1 & ? & (_ & H) & _). eauto. }
  assert (Hnames : (fun fc => f_Name (fc_f fc)) <$> fcs2 = (fun fc => f_Name (fc_f fc)) <$> fcs0).
  { symmetry. by apply names_core. }
  constructor.
  - apply list.Forall_lookup. intros k fc Hk. destruct (Forall2_lookup_r _ _ _ _ _ Hc Hk) as (fc0 & Hk0 & Hco & _ & _ & Eb & Eo & Ep).
    rewrite list.Forall_lookup in Hall. destruct (Hall k fc0 Hk0) as (Hok & (H0 & Hp & _) & Hn & Hb).
    split; [apply (func_ok_core _ _ _ Hco); eapply func_ok_mono; [|exact Hok]; set_solver|]. injection Hco as En _. split_and!; congruence.
  - by rewrite Hnames.
  - intros x k. rewrite Hmap, lookup_empty. split.
    + intros [|(j & fc0 & Hj & <- & ->)]; [done|]. destruct (Forall2_lookup_l _ _ _ _ _ Hc Hj) as (fc & Hk & Hco & _). injection Hco as En _. eauto.
    + intros (fc & Hk & <-). right. destruct (Forall2_lookup_r _ _ _ _ _ Hc Hk) as (fc0 & Hk0 & Hco & _). injection Hco as En _. eauto.
  - done.
  - intros j h Hj. destruct (Hlk j h Hj) as (k & fc1 & H1 & Hk1 & Hd & Hs). destruct (Forall2_lookup_l _ _ _ _ _ H2 Hk1) as (fc & Hk & ? & (_ & Hco & Ed & _) & _).
    exists k, fc. split_and!; [done|done|congruence|]. by rewrite <- (core_destroyShape _ _ _ (proj1 Hco)).
  - intros k fc i Hk Hd. destruct (Hback k fc Hk) as (fc1 & Hk1 & _ & Ed & _). rewrite <- Ed in Hd.
    destruct (Hfr k fc1 i Hk1 Hd) as [(fc0 & Hk0 & Hd0)|(j & h & -> & Hj & Hh)]; [|eauto].
    rewrite list.Forall_lookup in Hall. destruct (Hall k fc0 Hk0) as (_ & (_ & _ & _ & Hn) & _). congruence.
  - done.
  - exists fcs1. split; [done|]. apply list.Forall_lookup. intros k fc Hk. destruct (Hback k fc Hk) as (? & _ & _ & _ & H). done.
Qed.

End Funcs.

(** ** Plans *)

(** What the caller and the server guarantee of an item of a response: a
    caller's buffer is not filled beyond its capacity; a value without a worst
    case stays within [@max_out]. *)
Definition respects (X : Ty -> xty) (f : Func) (fl : Field) (v : val) (cap : Z) : Prop :=
  has_ty (X (fl_Type fl)) v = true /\
  if supplied f fl then count v <= cap
  else wc_of (X (fl_Type fl)) = None -> forall pos, zlen (enc (X (fl_Type fl)) v pos) <= f_MaxOut f.

(** A capacity the caller may ask for. *)
Definition cap_within (bt : BoundTerm) (cap : Z) : Prop := bt_PerCap bt <> 0 -> cap <= bt_CapMax bt /\ bt_CapMax bt <> 0.

(** The body of a response takes at most the bounds computed for it. *)
Definition response_fits (X : Ty -> xty) (f : Func) (p : Plan) (bts : list BoundTerm) (b : Z) : Prop :=
  forall fixed_vals var_vals caps,
    fields_ok (fields_types X (filter (fun fl => fixed_field X fl) (resp_items f))) fixed_vals = true ->
    Forall3 (respects X f) (Var (Resp p)) var_vals caps ->
    zlen (response_body X f fixed_vals var_vals) <= G2Pad p + sum_terms caps bts /\
    (Forall2 cap_within bts caps -> zlen (response_body X f fixed_vals var_vals) <= b).

(** The plan of a function on the wire. *)
Record planned (D : decls) (X : Ty -> xty) (f : Func) (p : Plan) (bts : list BoundTerm) (b : Z) : Prop := mkPlanned {
  pd_built : computes D (buildPlan D f) p;
  pd_terms : computes D (BoundTerms D p f) bts;
  pd_static : computes D (StaticBound D (Some p) f) (Some b);
  pd_sizes : FixedSize (Req p) <= MaxStatic /\ FixedSize (Resp p) <= MaxStatic /\ b <= MaxStatic;
  pd_request : places X (req_items f) (Req p);
  pd_response : places X (resp_items f) (Resp p);
  pd_fits : response_fits X f p bts b
}.

Lemma respects_fields X f fls vals caps : Forall3 (respects X f) fls vals caps -> fields_ok (fields_types X fls) vals = true.
Proof. induction 1 as [|fl v cap fls vals caps [H _] _ IH]; [done|]. simpl. unfold compose in *. rewrite H. exact IH. Qed.

Lemma bound_loop_core D f g fls : core f = core g -> bound_loop D f fls = bound_loop D g fls.
Proof.
  intros E. injection E as _ _ _ Ep _ _ Em _. induction fls as [|fl fls IH]; [done|]. cbn [bound_loop]. rewrite IH.
  unfold boundTerm. by rewrite Ep, Em.
Qed.

(** A plan does not depend on the opcode or the Go name. *)
Lemma planned_core D X f g p bts b : core f = core g -> f_Error f = f_Error g -> planned D X f p bts b -> planned D X g p bts b.
Proof.
  intros E Ee [H1 H2 H3 H4 H5 H6 H7]. unfold BoundTerms, StaticBound, BoundTerms in *.
  rewrite (bound_loop_core D f g _ E) in H2, H3. destruct f, g. unfold core in E. simpl in *. injection E as -> -> -> -> -> -> -> ->. subst. by split.
Qed.

Section Plans.
Context (hs : list Handle) (ss : list Struct) (us : list Union) (ds : list deferredCheck) (k : nat).

Notation D := (decls_of ss us).
Notation X := (xof D k).
Notation hn := (h_Name <$> hs).
Notation sn := (s_Name <$> ss).
Notation un := (u_Name <$> us).

Context (Hok : decls_ok hs ss us ds) (Hds : Forall (deferred_ok ss us) ds) (Hst : forall i, (i < length ss)%nat -> DStruct i ∈ ds).
Context (Hk : forall n, n ∈ all_nodes ss us -> is_Some (expand_node D k n)).

Lemma type_known inFunc t : resolved hn sn un inFunc t ds -> known D k X t.
Proof. by apply resolved_known. Qed.

Lemma known_u32 : known D k X u32Type.
Proof. done. Qed.

Lemma func_ok_known f : func_ok hs ss us ds f -> func_known D k X f.
Proof.
  intros [Hp _ _ Hr _]. split.
  - eapply Forall_impl; [|exact Hp]. intros p (_ & H & _). by eapply type_known.
  - intros t E. eapply type_known. by apply Hr.
Qed.

Lemma known_fixedT t : known D k X t -> fixedT D t -> fixed_of (X t) = true.
Proof. intros [Hx Hwf] Hf. specialize (Hf k _ Hx). by rewrite (info_rules _ Hwf) in Hf. Qed.

Lemma union_not_fixed x i : fixed_of (X (UnionTy x i)) = false.
Proof. unfold xof, expand. simpl. destruct k; [done|]. cbn [expand_node]. destruct (_ !! i); [|done]. simpl. by destruct (mapM _ _). Qed.

Lemma fixedArray_fixed e n : known D k X (FixedArray e n) -> fixed_of (X (FixedArray e n)) = true.
Proof. unfold known, xof, expand. simpl. intros [H _]. by destruct (expand_ty _ e). Qed.

(** Fixed elements of arrays are small. *)
Lemma elem_size inFunc e mx : resolved hn sn un inFunc (Array e mx) ds -> fixedT D e -> fixed_of (X e) = true /\ size_of (X e) < satCap.
Proof.
  intros Hr Hf. pose proof (type_known _ _ Hr) as Hka. destruct (known_elem _ _ _ _ Hka) as [Hke _]. pose proof (known_fixedT _ Hke Hf) as Hfx.
  split; [done|]. destruct Hr as (Ht & _). simpl in Ht. destruct Ht as (He & Ha & _). destruct e as [kd|mx'|mx'|x i|x i|x i|e' n|e' mx']; try done.
  - unfold xof. simpl. unfold satCap. destruct kd; simpl; lia.
  - simpl in He. assert (Hi : (i < length ss)%nat) by (rewrite <- (length_fmap s_Name); by eapply lookup_lt_Some).
    rewrite list.Forall_forall in Hds. destruct Hke as [Hx Hwf].
    pose proof (Hds _ (Hst i Hi) k (X (StructTy x i)) Hx) as Hs. rewrite (info_rules _ Hwf) in Hs. specialize (Hs Hfx).
    unfold info_of in Hs. simpl in Hs. rewrite Hfx in Hs. unfold sat, MaxStatic, satCap in *. lia.
  - by rewrite union_not_fixed in Hfx.
Qed.

Lemma ret_not_supplied f x r t off : supplied f (mkField x r t (-1) off) = false.
Proof. unfold supplied. cbn [fl_Param]. by destruct (f_Params f !! _). Qed.

(** The items of a response are the returned value and out parameters. *)
Lemma items_param f fl : fl ∈ items resp_items_of 0 (f_Params f) ->
  exists j p, f_Params f !! j = Some p /\ p_Derived p = false /\ (p_Dir p = DirOut \/ p_Dir p = DirInOut) /\ fl_Type fl = p_Type p /\ fl_Param fl = Z.of_nat j.
Proof.
  assert (H : forall ps i, fl ∈ items resp_items_of i ps -> exists j p, ps !! j = Some p /\ p_Derived p = false /\
    (p_Dir p = DirOut \/ p_Dir p = DirInOut) /\ fl_Type fl = p_Type p /\ fl_Param fl = i + Z.of_nat j).
  { induction ps as [|p ps IH]; intros i Hin; [set_solver|]. simpl in Hin. apply list.elem_of_app in Hin as [Hin|Hin].
    - exists 0%nat, p. unfold resp_items_of in Hin. destruct (p_Derived p); [set_solver|]. destruct (p_Dir p); [set_solver|..];
        apply list_elem_of_singleton in Hin as ->; simpl; split_and!; auto; lia.
    - destruct (IH _ Hin) as (j & p' & Hj & H1 & H2 & H3 & H4). exists (S j), p'. split_and!; [done..|]. lia. }
  apply H.
Qed.

(** The rules of parameters and returns make the server's promise enough. *)
Lemma respects_item_ok f fl v cap : func_ok hs ss us ds f -> fl ∈ resp_items f -> fixed_field X fl = false -> respects X f fl v cap -> item_ok X f fl v cap.
Proof.
  intros [Hps _ _ Hret _] Hin Hnf [Hty Hr]. unfold resp_items in Hin. apply list.elem_of_app in Hin as [Hin|Hin].
  - destruct (f_Ret f) as [t|] eqn:Et; [|set_solver]. apply list_elem_of_singleton in Hin as ->. destruct (Hret t eq_refl) as [Hrs [Hmax Hrule]].
    pose proof (type_known _ _ Hrs) as Hkt. pose proof (written_Max _ _ _ Hkt) as H0. unfold fixed_field in Hnf. simpl in *.
    unfold item_ok. rewrite ret_not_supplied in *. simpl.
    assert (Hcomp : 1 <= f_MaxOut f <= MaxStatic /\ (forall k x, expand D k t = Some x -> wcFinite (info x) = true -> wc (info x) <= f_MaxOut f) ->
      forall pos, zlen (enc (X t) v pos) <= f_MaxOut f).
    { intros [Hm Hw] pos. destruct (wc_of (X t)) as [w|] eqn:Ew; [|by apply Hr]. destruct Hkt as [Hx Hwf].
      specialize (Hw k (X t) Hx). rewrite (info_rules _ Hwf) in Hw. unfold info_of in Hw. simpl in Hw. rewrite Ew in Hw. specialize (Hw eq_refl).
      destruct (enc_bounds (X t) v pos Hwf Hty) as [_ Hub]. specialize (Hub w Ew). unfold sat, MaxStatic, satCap in *. lia. }
    destruct t as [kd|mx|mx|x i|x i|x i|e n|e mx]; simpl in Hmax; try done; try (specialize (Hmax eq_refl); simpl in *; lia).
    + destruct Hrule as [Hf|Hc]; [|by apply Hcomp]. apply (known_fixedT _ Hkt) in Hf. congruence.
    + destruct Hrule as [Hf|Hc]; [|by apply Hcomp]. apply (known_fixedT _ Hkt) in Hf. congruence.
    + by rewrite fixedArray_fixed in Hnf.
    + destruct (fixed_of (X e)) eqn:Efe; [specialize (Hmax eq_refl); simpl in *; lia|]. destruct Hrule as [Hf|Hc]; [|by apply Hcomp].
      destruct (known_elem _ _ _ _ Hkt) as [Hke _]. apply (known_fixedT _ Hke) in Hf. congruence.
  - apply items_param in Hin as (j & p & Hj & Hd & Hp & Et & Ep). rewrite list.Forall_lookup in Hps. destruct (Hps j p Hj) as (_ & Hrs & Hrule).
    pose proof (type_known _ _ Hrs) as Hkt. pose proof (written_Max _ _ _ Hkt) as H0. unfold fixed_field in Hnf. rewrite Et in Hnf. unfold param_rule in Hrule.
    assert (Es : supplied f fl = callerSupplied p).
    { unfold supplied. rewrite Ep, Nat2Z.id, Hj. by rewrite (proj2 (Z.leb_le 0 _)) by lia. }
    unfold item_ok. rewrite Es in *. rewrite Et in *. unfold callerSupplied in *.
    destruct Hp as [Ed|Ed]; rewrite Ed in *.
    + unfold out_rule in Hrule. destruct (p_Type p) as [kd|mx|mx|x i|x i|x i|e n|e mx]; try done; simpl in *.
      * lia.
      * destruct (Borrowed _); simpl in *; [specialize (Hrule eq_refl); lia|done].
      * apply (known_fixedT _ Hkt) in Hrule. congruence.
      * by rewrite fixedArray_fixed in Hnf.
      * destruct Hrule as [Hf Hb]. destruct (elem_size _ _ _ Hrs Hf) as [Hfx Hsz].
        destruct (Borrowed _); simpl in *; [rewrite Hfx; specialize (Hb eq_refl); lia|done].
    + destruct Hrule as [Hrule Hio]. unfold in_rule in Hrule. by destruct (p_Type p).
Qed.

Lemma func_planned f : func_ok hs ss us ds f -> exists p bts b,
  computes D (buildPlan D f) p /\ computes D (StaticBound D (Some p) f) (Some b) /\
  (FixedSize (Req p) <= MaxStatic -> FixedSize (Resp p) <= MaxStatic -> b <= MaxStatic -> planned D X f p bts b).
Proof.
  intros Hf. pose proof (func_ok_known f Hf) as Hkn.
  destruct (response_bounded D k f known_u32 Hkn ltac:(apply Hf)) as (p & bts & b & Hp & Ht & Hb & Hfit).
  destruct (buildPlan_computes D k X known_u32 f Hkn) as (p' & Hp' & Hq & Hr & _).
  assert (p' = p) as ->.
  { destruct (Hp empty_memo (settled_empty _)) as (m1 & E1 & _), (Hp' empty_memo (settled_empty _)) as (m2 & E2 & _). congruence. }
  exists p, bts, b. split_and!; [done|done|]. intros H1 H2 H3.
  assert (Hpl : places X (resp_items f) (Resp p)) by (eapply laid_out_places; [by apply resp_items_known|done]).
  split; [done|done|done|done|eapply laid_out_places; [by apply req_items_known|done]|done|].
  intros fvals vvals caps Hfv Hvv. apply (Hfit H3 H2); [done|by eapply respects_fields|].
  rewrite (proj1 Hpl) in Hvv |- *. clear Hfv Hfit.
  assert (Hall : Forall (fun fl => fl ∈ resp_items f /\ fixed_field X fl = false) (filter (fun fl => negb (fixed_field X fl)) (resp_items f))).
  { apply list.Forall_forall. intros fl [Hn Hin]%list_elem_of_filter. split; [done|]. by destruct (fixed_field X fl). }
  revert Hall. induction Hvv; intros Hall; constructor; inversion Hall as [|? ? [Hin Hnf]]; subst; auto. by apply respects_item_ok.
Qed.

Lemma finish_silent fc : func_ok hs ss us ds (fc_f fc) -> fc_bad fc = false ->
  silent D (finish D fc) (fun fc' _ => if fc_server fc then fc' = fc
    else exists p bts b, fc' = set_f (set_Plan p (fc_f fc)) fc /\ planned D X (fc_f fc') p bts b).
Proof.
  intros Hf Hb. unfold finish. rewrite Hb, orb_false_r. destruct (fc_server fc); [by apply silent_ret|].
  destruct (func_planned (fc_f fc) Hf) as (p & bts & b & Hp & Hsb & Hpl).
  eapply silent_bind; [apply (silent_ask _ _ p (fun v _ => v = p)); done|]. intros ? d ->.
  eapply silent_bind; [apply (silent_when _ _ _ _ (fun _ _ => FixedSize (Req p) <= MaxStatic)); by intros H%Z.ltb_ge|]. intros [] d1 H1.
  eapply silent_bind; [apply (silent_when _ _ _ _ (fun _ _ => FixedSize (Resp p) <= MaxStatic)); by intros H%Z.ltb_ge|]. intros [] d2 H2.
  eapply silent_bind; [apply (silent_ask _ _ (Some b) (fun v _ => v = Some b)); [|done]|].
  { unfold StaticBound, BoundTerms in *. by rewrite <- (bound_loop_core D (fc_f fc)). }
  intros ? d3 ->.
  eapply silent_bind; [apply (silent_when _ _ _ _ (fun _ _ => b <= MaxStatic)); by intros H%Z.ltb_ge|]. intros [] d4 H3.
  apply silent_ret. exists p, bts, b. split; [done|].
  by eapply planned_core; [| |exact (Hpl H1 H2 H3)].
Qed.

End Plans.

(** ** Opcodes *)

(** The functions with their opcodes: those of the wire are numbered from
    [n + 1] on in declaration order, the others have none. *)
Record numbered (i : nat) (n : Z) (fcs : list fnCheck) (fs : list Func) (w : list nat) : Prop := mkNumbered {
  nb_same : Forall2 (fun fc f => f = if fc_server fc then fc_f fc else set_Opcode (f_Opcode f) (fc_f fc)) fcs fs;
  nb_wire : forall j k, w !! j = Some k -> exists f, (i <= k)%nat /\ fs !! (k - i)%nat = Some f /\ f_Opcode f = n + 1 + Z.of_nat j;
  nb_all : forall j fc, fcs !! j = Some fc -> fc_server fc = false -> (i + j)%nat ∈ w;
  nb_order : StronglySorted lt w
}.

Lemma opcodes_numbered fcs : forall i n, numbered i n fcs (opcodes i n fcs).1 (opcodes i n fcs).2.
Proof.
  induction fcs as [|fc fcs IH]; intros i n; cbn [opcodes]; [by constructor; [constructor| | |constructor]|]. destruct (fc_server fc) eqn:Es.
  - specialize (IH (S i) n). destruct (opcodes (S i) n fcs) as [fs w]. destruct IH as [H1 H2 H3 H4]. constructor; simpl in *.
    + constructor; [by rewrite Es|done].
    + intros j k Hj. destruct (H2 j k Hj) as (f & Hi & Hf & Ho). exists f. split_and!; [lia| |done]. by replace (k - i)%nat with (S (k - S i)) by lia.
    + intros [|j] fc' Hj Hs; simpl in Hj; [congruence|]. specialize (H3 j fc' Hj Hs). by rewrite Nat.add_succ_r.
    + done.
  - specialize (IH (S i) (n + 1)). destruct (opcodes (S i) (n + 1) fcs) as [fs w]. destruct IH as [H1 H2 H3 H4]. constructor; simpl in *.
    + constructor; [by rewrite Es|done].
    + intros [|j] k Hj; simpl in Hj.
      * simplify_eq. rewrite Nat.sub_diag. eexists. split_and!; [lia|done|]. simpl. lia.
      * destruct (H2 j k Hj) as (f & Hi & Hf & Ho). exists f. split_and!; [lia| |lia]. by replace (k - i)%nat with (S (k - S i)) by lia.
    + intros [|j] fc' Hj Hs; simpl in Hj; [rewrite Nat.add_0_r; left|]. right. specialize (H3 j fc' Hj Hs). by rewrite Nat.add_succ_r.
    + constructor; [done|]. apply list.Forall_forall. intros k Hk. apply list_elem_of_lookup in Hk as [j Hj]. destruct (H2 j k Hj) as (_ & Hi & _). lia.
Qed.

Lemma assignOpcodes_silent D fcs : silent D (assignOpcodes fcs) (fun r _ => numbered 0 0 fcs r.1 r.2 /\ (length r.2 <= 65535)%nat).
Proof.
  pose proof (opcodes_numbered fcs 0 0) as Hn. unfold assignOpcodes. destruct (opcodes 0 0 fcs) as [fs w]. cbn [fst snd] in Hn.
  eapply (silent_bind _ _ _ (fun _ _ => (length w <= 65535)%nat)).
  - destruct (drop 65535 w) as [|i rest] eqn:Ed.
    + apply silent_ret. apply (f_equal length) in Ed. rewrite length_drop in Ed. simpl length in Ed. lia.
    + assert (Hi : w !! (65535 + 0)%nat = Some i) by (by rewrite <- lookup_drop, Ed). destruct (nb_wire _ _ _ _ _ Hn _ _ Hi) as (f & _ & Hf & _).
      rewrite Nat.sub_0_r in Hf. rewrite Hf. apply silent_add_end.
  - intros [] d Hl. apply silent_ret. done.
Qed.

(** ** Go names *)

(** [names] are new, distinct and usable, and the names taken are now those of
    [owner'] . *)
Definition claimed (names : list bytes) (owner owner' : gset bytes) : Prop :=
  NoDup names /\ Forall (fun x => x ∉ owner /\ exportedGo x = true /\ x ∉ reservedGo) names /\ owner' = list_to_set names ∪ owner.

Lemma claimed_nil owner : claimed [] owner owner.
Proof. split_and!; [constructor|constructor|set_solver]. Qed.

Lemma claimed_app n1 n2 o1 o2 o3 : claimed n1 o1 o2 -> claimed n2 o2 o3 -> claimed (n1 ++ n2) o1 o3.
Proof.
  intros (A1 & A2 & ->) (B1 & B2 & ->). rewrite list.Forall_forall in A2, B2. split_and!.
  - apply list.NoDup_app. split_and!; [done| |done]. intros x Hx Hx2. destruct (B2 x Hx2). set_solver.
  - apply list.Forall_app. split; apply list.Forall_forall; intros x Hx; [by apply A2|]. destruct (B2 x Hx) as (? & ? & ?). set_solver.
  - rewrite list_to_set_app_L. set_solver.
Qed.

(** The Go names of a struct's fields, of the declarations and of a function. *)
Definition go_unions (us : list Union) : list bytes :=
  us ≫= (fun u => [capitalize (u_Name u); capitalize (u_Name u) ++ str "Tag"] ++
                  ((fun c => capitalize (u_Name u) ++ capitalize (c_Name c)) <$> u_Cases u)).
Definition go_funcs (fs : list Func) : list bytes :=
  fs ≫= (fun f => if Wire f then [f_GoName f; f_GoName f ++ str "Async"; f_GoName f ++ str "Future"] else []).
Definition go_decls (cts : list Const) (hs : list Handle) (ss : list Struct) (us : list Union) : list bytes :=
  ((fun c => capitalize (k_Name c)) <$> cts) ++ ((fun h => capitalize (h_Name h)) <$> hs) ++ ((fun s => capitalize (s_Name s)) <$> ss) ++ go_unions us.

Section GoNames.
Context (D : decls).

Lemma claim_silent pos x owner : silent D (claim pos x owner) (fun o _ => claimed [x] owner o).
Proof.
  unfold claim. destruct (exportedGo x) eqn:E; [|apply silent_add]. cbn [negb]. case_bool_decide; [apply silent_add|]. case_bool_decide; [apply silent_add|].
  apply silent_ret. split_and!; [apply NoDup_singleton|by repeat constructor|]. simpl. set_solver.
Qed.

Lemma claims_silent l : forall owner, silent D (claims l owner) (fun o _ => claimed l.*2 owner o).
Proof.
  induction l as [|[pos x] l IH]; intros owner; cbn [claims]; [apply silent_ret, claimed_nil|].
  eapply silent_bind; [apply claim_silent|]. intros o d Ho. eapply silent_mono; [apply IH|]. intros o' d' Ho'. exact (claimed_app _ _ _ _ _ Ho Ho').
Qed.

Lemma goConsts_silent consts l : Forall (fun c => consts !! k_Name c = Some c) l -> forall owner,
  silent D (goConsts consts l owner) (fun o _ => claimed ((fun c => capitalize (k_Name c)) <$> l) owner o).
Proof.
  induction 1 as [|c l Hc _ IH]; intros owner; cbn [goConsts]; [apply silent_ret, claimed_nil|]. rewrite bool_decide_eq_true_2 by done.
  eapply silent_bind; [apply claim_silent|]. intros o d Ho. eapply silent_mono; [apply IH|]. intros o' d' Ho'. exact (claimed_app _ _ _ _ _ Ho Ho').
Qed.

Lemma goHandles_silent types l : forall i owner, (forall j h, l !! j = Some h -> types !! h_Name h = Some (EHandle (i + j))) ->
  silent D (goHandles types i l owner) (fun o _ => claimed ((fun h => capitalize (h_Name h)) <$> l) owner o).
Proof.
  induction l as [|h l IH]; intros i owner Hl; cbn [goHandles]; [apply silent_ret, claimed_nil|].
  rewrite bool_decide_eq_true_2 by (specialize (Hl 0%nat h eq_refl); by rewrite Nat.add_0_r in Hl).
  eapply silent_bind; [apply claim_silent|]. intros o d Ho. eapply silent_mono; [apply IH|]; [intros j h' Hj; specialize (Hl (S j) h' Hj); by rewrite Nat.add_succ_r in Hl|].
  intros o' d' Ho'. exact (claimed_app _ _ _ _ _ Ho Ho').
Qed.

(** Fields whose names differ have different Go names. *)
Lemma goFields_silent ms : forall seen, NoDup (mb_Name <$> ms) -> (forall g x, seen !! g = Some x -> x ∉ mb_Name <$> ms) ->
  silent D (goFields ms seen) (fun _ _ => NoDup ((fun m => capitalize (mb_Name m)) <$> ms) /\ forall m, m ∈ ms -> seen !! capitalize (mb_Name m) = None).
Proof.
  induction ms as [|m ms IH]; intros seen Hnd Hs; cbn [goFields]; [apply silent_ret; split; [constructor|set_solver]|]. csimpl in Hnd. apply list.NoDup_cons in Hnd as [Hm Hnd].
  eapply (silent_bind _ _ _ (fun _ _ => seen !! capitalize (mb_Name m) = None)).
  { destruct (seen !! capitalize (mb_Name m)) as [x|] eqn:E; [|by apply silent_ret]. apply silent_when. intros H%negb_false_iff%bool_decide_eq_true. subst.
    destruct (Hs _ _ E). csimpl. left. }
  intros [] d Hn. eapply silent_mono; [apply IH; [done|]|].
  { intros g x Hg. destruct (decide (g = capitalize (mb_Name m))) as [->|Hne].
    - rewrite lookup_insert_eq in Hg. by simplify_eq.
    - rewrite lookup_insert_ne in Hg by done. intros Hx. apply (Hs g x Hg). csimpl. by right. }
  intros [] d' [H1 H2]. split.
  - csimpl. apply list.NoDup_cons. split; [|done]. intros (m' & E & Hm')%list_elem_of_fmap. specialize (H2 m' Hm'). rewrite <- E, lookup_insert_eq in H2. done.
  - intros m' [->|Hm']%elem_of_cons; [done|]. specialize (H2 m' Hm'). by apply lookup_insert_None in H2 as [H2 _].
Qed.

Lemma goStructs_silent types l : forall i owner, (forall j s, l !! j = Some s -> types !! s_Name s = Some (EStruct (i + j))) ->
  Forall (fun s => NoDup (mb_Name <$> s_Members s)) l ->
  silent D (goStructs types i l owner) (fun o _ => claimed ((fun s => capitalize (s_Name s)) <$> l) owner o /\
    Forall (fun s => NoDup ((fun m => capitalize (mb_Name m)) <$> s_Members s)) l).
Proof.
  induction l as [|s l IH]; intros i owner Hl Hnd; cbn [goStructs]; [apply silent_ret; split; [apply claimed_nil|constructor]|]. inversion Hnd as [|? ? Hs Hnd']; subst.
  rewrite bool_decide_eq_true_2 by (specialize (Hl 0%nat s eq_refl); by rewrite Nat.add_0_r in Hl).
  eapply (silent_bind _ _ _ (fun o _ => claimed [capitalize (s_Name s)] owner o /\ NoDup ((fun m => capitalize (mb_Name m)) <$> s_Members s))).
  { eapply silent_bind; [apply claim_silent|]. intros o d Ho. eapply silent_bind; [by apply goFields_silent|]. intros [] d' [Hf _]. by apply silent_ret. }
  intros o d [Ho Hf]. eapply silent_mono; [apply IH; [|done]|]; [intros j s' Hj; specialize (Hl (S j) s' Hj); by rewrite Nat.add_succ_r in Hl|].
  intros o' d' [Ho' Hf']. split; [exact (claimed_app _ _ _ _ _ Ho Ho')|by constructor].
Qed.

Lemma goCases_silent un cs : forall seen owner, NoDup (c_Name <$> cs) -> (forall g x, seen !! g = Some x -> x ∉ c_Name <$> cs) ->
  silent D (goCases un cs seen owner) (fun o _ => claimed ((fun c => un ++ capitalize (c_Name c)) <$> cs) owner o).
Proof.
  induction cs as [|c cs IH]; intros seen owner Hnd Hs; cbn [goCases]; [apply silent_ret, claimed_nil|]. csimpl in Hnd. apply list.NoDup_cons in Hnd as [Hc Hnd].
  apply plain_bind; [auto with plain|intros []]. cbv zeta.
  rewrite bool_decide_eq_false_2 by (intros E; apply (Hs _ _ E); csimpl; left). apply plain_bind; [auto with plain|intros []].
  eapply silent_bind; [apply claim_silent|]. intros o d Ho. eapply silent_mono; [apply IH; [done|]|].
  { intros g x Hg. destruct (decide (g = capitalize (c_Name c))) as [->|Hne].
    - rewrite lookup_insert_eq in Hg. by simplify_eq.
    - rewrite lookup_insert_ne in Hg by done. intros Hx. apply (Hs g x Hg). csimpl. by right. }
  intros o' d' Ho'. exact (claimed_app _ _ _ _ _ Ho Ho').
Qed.

Lemma goUnions_silent types l : forall i owner, (forall j u, l !! j = Some u -> types !! u_Name u = Some (EUnion (i + j))) ->
  Forall (fun u => NoDup (c_Name <$> u_Cases u)) l ->
  silent D (goUnions types i l owner) (fun o _ => claimed (go_unions l) owner o).
Proof.
  induction l as [|u l IH]; intros i owner Hl Hnd; cbn [goUnions]; [apply silent_ret, claimed_nil|]. inversion Hnd as [|? ? Hu Hnd']; subst.
  rewrite bool_decide_eq_true_2 by (specialize (Hl 0%nat u eq_refl); by rewrite Nat.add_0_r in Hl). cbv zeta.
  eapply (silent_bind _ _ _ (fun o _ => claimed ([capitalize (u_Name u); capitalize (u_Name u) ++ str "Tag"] ++ ((fun c => capitalize (u_Name u) ++ capitalize (c_Name c)) <$> u_Cases u)) owner o)).
  { eapply silent_bind; [apply claims_silent|]. intros o d Ho. eapply silent_mono; [apply goCases_silent; [done|]|]; [intros g x Hg; by rewrite lookup_empty in Hg|].
    intros o' d' Ho'. exact (claimed_app _ _ _ _ _ Ho Ho'). }
  intros o d Ho. eapply silent_mono; [apply IH; [|done]|]; [intros j u' Hj; specialize (Hl (S j) u' Hj); by rewrite Nat.add_succ_r in Hl|].
  intros o' d' Ho'. exact (claimed_app _ _ _ _ _ Ho Ho').
Qed.

Lemma goFuncs_silent (strip : bytes) (funcs : funcMap) l : forall i owner, (forall j f, l !! j = Some f -> funcs !! f_Name f = Some (i + j)%nat) ->
  silent D (goFuncs strip funcs i l owner) (fun fs _ => (exists o, claimed (go_funcs fs) owner o) /\
    fs = (fun f => set_GoName (GoName strip (f_Name f)) f) <$> l).
Proof.
  induction l as [|f l IH]; intros i owner Hl; cbn [goFuncs]; [apply silent_ret; split; [exists owner; apply claimed_nil|done]|]. cbv zeta.
  set (f' := set_GoName _ f). rewrite (bool_decide_eq_true_2 (funcs !! f_Name f' = Some i)) by (specialize (Hl 0%nat f eq_refl); by rewrite Nat.add_0_r in Hl).
  eapply (silent_bind _ _ _ (fun o _ => claimed (if Wire f' then [f_GoName f'; f_GoName f' ++ str "Async"; f_GoName f' ++ str "Future"] else []) owner o)).
  { destruct (Wire f'); cbn [negb orb]; [|apply silent_ret, claimed_nil]. apply claims_silent. }
  intros o d Ho. eapply silent_bind; [apply IH; intros j g Hj; specialize (Hl (S j) g Hj); by rewrite Nat.add_succ_r in Hl|].
  intros fs d' [[o' Ho'] ->]. apply silent_ret. split; [|done]. exists o'. exact (claimed_app _ _ _ _ _ Ho Ho').
Qed.

End GoNames.

(** ** The whole check *)

(** What an accepted interface went through. *)
Record accepted (strip : bytes) (s : Spec) : Prop := mkAccepted {
  ac_all : exists consts hs types ds fcs fcs' funcs fs k,
    types_done (sp_Consts s) consts hs (sp_Structs s) (sp_Unions s) types ds /\
    funcs_done hs (sp_Structs s) (sp_Unions s) fcs funcs (sp_Handles s) ds /\
    Forall (deferred_ok (sp_Structs s) (sp_Unions s)) ds /\
    (forall n, n ∈ all_nodes (sp_Structs s) (sp_Unions s) -> is_Some (expand_node (decls_of (sp_Structs s) (sp_Unions s)) k n)) /\
    Forall2 (fun fc fc' => if fc_server fc then fc' = fc
      else exists p bts b, fc' = set_f (set_Plan p (fc_f fc)) fc /\
             planned (decls_of (sp_Structs s) (sp_Unions s)) (xof (decls_of (sp_Structs s) (sp_Unions s)) k) (fc_f fc') p bts b) fcs fcs' /\
    numbered 0 0 fcs' fs (sp_Wire s) /\ (length (sp_Wire s) <= 65535)%nat /\
    sp_Funcs s = (fun f => set_GoName (GoName strip (f_Name f)) f) <$> fs;
  ac_go : exists o, claimed (go_decls (sp_Consts s) (sp_Handles s) (sp_Structs s) (sp_Unions s) ++ go_funcs (sp_Funcs s)) ∅ o;
  ac_fields : Forall (fun t => NoDup ((fun m => capitalize (mb_Name m)) <$> s_Members t)) (sp_Structs s)
}.

Lemma C_bind_eq {A B} (c : C A) (f : A -> C B) m : (c ≫= f) m = let '(a, o, m1) := c m in let '(b, o', m2) := f a m1 in (b, out_app o o', m2).
Proof. done. Qed.

Lemma same_names hs hs' : Forall2 same_handle hs hs' -> h_Name <$> hs = h_Name <$> hs'.
Proof. induction 1 as [|h h' hs hs' [E _] _ IH]; csimpl; [done|]. by rewrite E, IH. Qed.

Lemma checkGoNames_silent strip consts types funcs cts hs ss us fs D :
  Forall (fun c => consts !! k_Name c = Some c) cts -> types_ok (h_Name <$> hs) (s_Name <$> ss) (u_Name <$> us) types ->
  distinct_parts ss us -> (forall j f, fs !! j = Some f -> funcs !! f_Name f = Some j) ->
  silent D (checkGoNames strip consts types funcs cts hs ss us fs) (fun fs' _ =>
    (exists o, claimed (go_decls cts hs ss us ++ go_funcs fs') ∅ o) /\
    Forall (fun t => NoDup ((fun m => capitalize (mb_Name m)) <$> s_Members t)) ss /\
    fs' = (fun f => set_GoName (GoName strip (f_Name f)) f) <$> fs).
Proof.
  intros Hc Ht [Hps Hpu] Hf. unfold checkGoNames.
  eapply silent_bind; [by apply goConsts_silent|]. intros o1 d1 H1.
  eapply silent_bind; [apply goHandles_silent|]. { intros j h Hj. apply Ht. exists j. left. split; [done|]. by rewrite list_lookup_fmap, Hj. }
  intros o2 d2 H2. eapply silent_bind; [apply goStructs_silent; [|done]|].
  { intros j t Hj. apply Ht. exists j. right. left. split; [done|]. by rewrite list_lookup_fmap, Hj. }
  intros o3 d3 [H3 H3']. eapply silent_bind; [apply goUnions_silent|].
  { intros j u Hj. apply Ht. exists j. right. right. split; [done|]. by rewrite list_lookup_fmap, Hj. }
  { eapply Forall_impl; [|exact Hpu]. by intros u []. }
  intros o4 d4 H4. eapply silent_mono; [by apply goFuncs_silent|]. intros fs' d5 [[o5 H5] Hfs]. split_and!; [|done|done].
  exists o5. exact (claimed_app _ _ _ _ _ (claimed_app _ _ _ _ _ H1 (claimed_app _ _ _ _ _ H2 (claimed_app _ _ _ _ _ H3 H4))) H5).
Qed.

Lemma types_done_mono cts consts hs ss us types d d' : d ⊆ d' -> types_done cts consts hs ss us types d -> types_done cts consts hs ss us types d'.
Proof. intros Hd []. constructor; try done; [by eapply decls_ok_mono|auto]. Qed.

Lemma funcs_done_mono hs ss us fcs funcs hs' d d' : d ⊆ d' -> funcs_done hs ss us fcs funcs hs' d -> funcs_done hs ss us fcs funcs hs' d'.
Proof.
  intros Hd [H]. constructor; try done. eapply Forall_impl; [|exact H]. intros fc (Hf & Hr). split; [by eapply func_ok_mono|done].
Qed.

(** The passes after the declarations. *)
Lemma finish_accepts strip service ser includes cts consts types hs ss us fcs funcs hs' ds :
  types_done cts consts hs ss us types ds -> funcs_done hs ss us fcs funcs hs' ds ->
  silent (decls_of ss us)
    (_ ← each ds (runDeferred ss us);
     fcs ← collect fcs (finish (decls_of ss us));
     '(fs, w) ← assignOpcodes fcs;
     fs ← checkGoNames strip consts types funcs cts hs' ss us fs;
     mret (mkSpec service ser includes cts hs' ss us fs w)) (fun s _ => accepted strip s).
Proof.
  intros Hty Hfd. eapply silent_bind; [apply silent_each; intros d _; apply runDeferred_silent|]. intros [] d0 Hds.
  destruct (all_expand ss us (td_acyclic _ _ _ _ _ _ _ Hty)) as [k Hk].
  eapply silent_bind; [apply (silent_collect _ _ _ (fun fc fc' _ => if fc_server fc then fc' = fc
      else exists p bts b, fc' = set_f (set_Plan p (fc_f fc)) fc /\ planned (decls_of ss us) (xof (decls_of ss us) k) (fc_f fc') p bts b))|].
  { intros fc Hin. destruct (proj1 (list.Forall_forall _ _) (fd_funcs _ _ _ _ _ _ _ Hfd) fc Hin) as (Hok & _ & _ & _ & Hb).
    apply (finish_silent hs ss us ds k); [by apply Hty|done|by apply Hty|done|done|done]. }
  intros fcs' d1 Hfin.
  assert (Hfin' : Forall2 (fun fc fc' => if fc_server fc then fc' = fc
      else exists p bts b, fc' = set_f (set_Plan p (fc_f fc)) fc /\ planned (decls_of ss us) (xof (decls_of ss us) k) (fc_f fc') p bts b) fcs fcs').
  { eapply Forall2_impl; [|exact Hfin]. by intros ? ? (? & ? & _). }
  eapply silent_bind; [apply assignOpcodes_silent|]. intros [fs w] d2 [Hnum Hlen]. cbn [fst snd] in *.
  eapply silent_bind; [apply checkGoNames_silent|].
  - eapply Forall_impl; [|exact (td_consts _ _ _ _ _ _ _ Hty)]. by intros c [].
  - rewrite <- (same_names hs hs') by apply Hfd. by apply Hty.
  - by apply Hty.
  - intros j f Hj. destruct (Forall2_lookup_r _ _ _ _ _ (nb_same _ _ _ _ _ Hnum) Hj) as (fc' & Hj' & Ef).
    destruct (Forall2_lookup_r _ _ _ _ _ Hfin' Hj') as (fc & Hj0 & Efc). apply (fd_index _ _ _ _ _ _ _ Hfd). exists fc. split; [done|].
    rewrite Ef. destruct (fc_server fc) eqn:Es; [subst; by rewrite Es|]. destruct Efc as (p & bts & b & -> & _). simpl. by destruct (fc_server fc).
  - intros fs' d3 (Hgo & Hflds & Hfs). apply silent_ret. constructor; simpl; [|done|done].
    exists consts, hs, types, ds, fcs, fcs', funcs, fs, k. done.
Qed.

Lemma run_accepts strip f s o m : raw_ok f -> run strip f empty_memo = (s, o, m) -> o_diags o = [] -> accepted strip s.
Proof.
  intros Hraw E Ho. unfold run, withDeferred in E. rewrite !C_bind_eq in E.
  destruct (runTypes f empty_memo) as [[[[ser [cts consts]] [[[hs ss] us] types]] o1] m1] eqn:E1.
  rewrite C_bind_eq in E. cbn [fst snd] in E. destruct (runFuncs f consts types hs ss us m1) as [[[[fcs funcs] hs'] o2] m2] eqn:E2.
  unfold mret at 1 2, C_ret at 1 2 in E. cbn [out_app o_diags o_deferred app no_out] in E. rewrite !app_nil_r in E.
  destruct ((each _ _ ≫= _) m2) as [[s' o3] m3] eqn:E3.
  simplify_eq. cbn [out_app o_diags] in Ho. rewrite ?app_nil_r in Ho. apply app_eq_nil in Ho as [[Ho1 Ho2]%app_eq_nil Ho3].
  set (D := decls_of ss us). pose proof (runTypes_silent D f Hraw empty_memo (settled_empty D)) as HT. rewrite E1 in HT. cbn [fst snd] in HT.
  destruct (HT Ho1) as [Hm1 [Hty Hlen]].
  pose proof (runFuncs_silent f consts types hs ss us Hraw (td_types _ _ _ _ _ _ _ Hty) Hlen m1 Hm1) as HF. rewrite E2 in HF. cbn [fst snd] in HF.
  destruct (HF Ho2) as [Hm2 Hfd].
  assert (Hty' : types_done cts consts hs ss us types (o_deferred o1 ++ o_deferred o2)) by (eapply types_done_mono; [|exact Hty]; set_solver).
  assert (Hfd' : funcs_done hs ss us fcs funcs hs' (o_deferred o1 ++ o_deferred o2)) by (eapply funcs_done_mono; [|exact Hfd]; set_solver).
  pose proof (finish_accepts strip (n_text (f_service f)) ser (map ri_text (f_includes f)) _ _ _ _ _ _ _ _ _ _ Hty' Hfd' m2 Hm2) as HR. rewrite E3 in HR.
  by apply HR.
Qed.


Lemma parseFile_raw_ok toks f sink : parseFile toks = Ok (f, sink) -> raw_ok f.
Proof.
  unfold parseFile. pose proof (wp_file0 (mkState toks [])) as H. unfold wp in H. destruct (file0 (mkState toks [])) as [[f' s']|e]; [|done].
  simpl. intros [= <- <-]. destruct H as [(ts & ds & _ & Hg) _]. by eapply g_file_ok.
Qed.

Lemma Parse_accepted strip src s : Parse strip src = Ok s -> accepted strip s.
Proof.
  unfold Parse. destruct (lex src) as [toks|]; [|done]. destruct (parseFile toks) as [[raw sink]|[]] eqn:Ep; [|done].
  destruct (run strip raw empty_memo) as [[spec o] m] eqn:Er. destruct (Nat.eqb_spec (length (sink ++ o_diags o)) 0) as [E|]; [|done]. intros [= <-].
  apply nil_length_inv, app_eq_nil in E as [_ E]. eapply run_accepts; [by eapply parseFile_raw_ok|exact Er|done].
Qed.

(** A function of an accepted interface: it is on the wire, with a plan and an
    opcode, or only the server calls it. *)
Lemma accepted_func strip s : accepted strip s -> exists consts hs types ds fcs funcs k,
  types_done (sp_Consts s) consts hs (sp_Structs s) (sp_Unions s) types ds /\
  Forall (deferred_ok (sp_Structs s) (sp_Unions s)) ds /\
  (forall n, n ∈ all_nodes (sp_Structs s) (sp_Unions s) -> is_Some (expand_node (decls_of (sp_Structs s) (sp_Unions s)) k n)) /\
  funcs_done hs (sp_Structs s) (sp_Unions s) fcs funcs (sp_Handles s) ds /\
  length fcs = length (sp_Funcs s) /\
  forall j f, sp_Funcs s !! j = Some f -> exists fc, fcs !! j = Some fc /\ core (fc_f fc) = core f /\ f_Error (fc_f fc) = f_Error f /\
    f_Destroys (fc_f fc) = f_Destroys f /\ f_GoName f = GoName strip (f_Name f) /\
    if fc_server fc then f_Opcode f = 0 /\ f_Plan f = None
    else (exists i, sp_Wire s !! i = Some j /\ f_Opcode f = Z.of_nat i + 1) /\
         exists p bts b, f_Plan f = Some p /\ planned (decls_of (sp_Structs s) (sp_Unions s)) (xof (decls_of (sp_Structs s) (sp_Unions s)) k) f p bts b.
Proof.
  intros [(consts & hs & types & ds & fcs & fcs' & funcs & fs & k & Hty & Hfd & Hds & Hk & Hfin & Hnum & _ & Hfs) _ _].
  exists consts, hs, types, ds, fcs, funcs, k. do 4 (split; [done|]). split.
  { rewrite Hfs, length_fmap. rewrite (Forall2_length Hfin). exact (Forall2_length (nb_same _ _ _ _ _ Hnum)). }
  intros j f Hj. rewrite Hfs in Hj. apply list_lookup_fmap_Some in Hj as (f0 & -> & Hj).
  destruct (Forall2_lookup_r _ _ _ _ _ (nb_same _ _ _ _ _ Hnum) Hj) as (fc' & Hj' & Ef).
  destruct (Forall2_lookup_r _ _ _ _ _ Hfin Hj') as (fc & Hj0 & Efc). exists fc. split; [done|].
  destruct (fc_server fc) eqn:Es.
  - subst fc'. rewrite Es in Ef. subst f0. destruct (proj1 (list.Forall_lookup _ _) (fd_funcs _ _ _ _ _ _ _ Hfd) j fc Hj0) as (_ & Ho & Hp & _). done.
  - destruct Efc as (p & bts & b & -> & Hpl). simpl in Ef. rewrite Es in Ef. rewrite Ef. split_and!; try done.
    + pose proof (nb_all _ _ _ _ _ Hnum j _ Hj' Es) as Hin. apply list_elem_of_lookup in Hin as [i Hi]. exists i. split; [done|].
      destruct (nb_wire _ _ _ _ _ Hnum i j Hi) as (f & _ & Hf & Ho). rewrite Nat.sub_0_r in Hf. simpl. simplify_eq. lia.
    + exists p, bts, b. split; [done|]. by eapply planned_core; [| |exact Hpl].
Qed.

(** ** Theorems *)

(** The types an interface mentions: of members, cases, parameters and returns. *)
Definition spec_types (s : Spec) : list Ty :=
  (sp_Structs s ≫= (fun t => mb_Type <$> s_Members t)) ++ (sp_Unions s ≫= (fun u => omap c_Type (u_Cases u))) ++
  (sp_Funcs s ≫= (fun f => (p_Type <$> f_Params f) ++ option_list (f_Ret f))).

Definition spec_decls (s : Spec) : decls := decls_of (sp_Structs s) (sp_Unions s).

(** The declarations of an interface make sense. *)
Record well_typed (s : Spec) : Prop := mkWellTyped {
  wt_const_names : NoDup (k_Name <$> sp_Consts s);
  wt_consts : Forall (fun c => fitsKind (k_Value c) (k_Type c) = true) (sp_Consts s);
  wt_names : NoDup ((h_Name <$> sp_Handles s) ++ (s_Name <$> sp_Structs s) ++ (u_Name <$> sp_Unions s));
  wt_funcs : NoDup (f_Name <$> sp_Funcs s);
  wt_parts : distinct_parts (sp_Structs s) (sp_Unions s);
  wt_acyclic : acyclic (sp_Structs s) (sp_Unions s);
  wt_resolved : Forall (ty_ok (h_Name <$> sp_Handles s) (s_Name <$> sp_Structs s) (u_Name <$> sp_Unions s)) (spec_types s);
  wt_known : exists k, Forall (known (spec_decls s) k (xof (spec_decls s) k)) (spec_types s) /\
    forall i, (i < length (sp_Structs s))%nat ->
      let x := xof (spec_decls s) k (StructTy [] i) in wf_ty x = true /\ (fixed_of x = true -> size_of x <= MaxStatic)
}.

Lemma resolved_weaken hn sn un t d : resolved hn sn un false t d -> resolved hn sn un true t d.
Proof. intros (H1 & _ & H3 & H4). by split_and!. Qed.

(** All types of an accepted interface are resolved. *)
Lemma accepted_types hs ss us fs ds : decls_ok hs ss us ds -> Forall (func_ok hs ss us ds) fs ->
  forall t, t ∈ (ss ≫= (fun t => mb_Type <$> s_Members t)) ++ (us ≫= (fun u => omap c_Type (u_Cases u))) ++
    (fs ≫= (fun f => (p_Type <$> f_Params f) ++ option_list (f_Ret f))) -> resolved (h_Name <$> hs) (s_Name <$> ss) (u_Name <$> us) true t ds.
Proof.
  intros [Hs Hu] Hf t. rewrite !list.elem_of_app, !list_elem_of_bind. rewrite list.Forall_forall in Hs. rewrite list.Forall_forall in Hu. rewrite list.Forall_forall in Hf.
  intros [(st & Hin & Hst)|[(u & Hin & Hut)|(f & Hin & Hft)]].
  - apply list_elem_of_fmap in Hin as (m & -> & Hm). specialize (Hs st Hst). rewrite list.Forall_forall in Hs. apply resolved_weaken. by apply (Hs m Hm).
  - apply list_elem_of_omap in Hin as (c & Hc & Et). specialize (Hu u Hut). rewrite list.Forall_forall in Hu. destruct (Hu c Hc) as (_ & _ & H). apply resolved_weaken. by apply H.
  - destruct (Hf f Hft) as [Hp _ _ Hr _]. apply list.elem_of_app in Hin as [Hin|Hin].
    + apply list_elem_of_fmap in Hin as (p & -> & Hin). rewrite list.Forall_forall in Hp. by apply (Hp p Hin).
    + destruct (f_Ret f) as [r|]; simpl in Hin; [|by apply elem_of_nil in Hin]. apply list_elem_of_singleton in Hin as ->. by apply Hr.
Qed.

(** The functions keep what was checked of them. *)
Lemma accepted_funcs_ok hs ss us d fcs (fs : list Func) : Forall (fun fc => func_ok hs ss us d (fc_f fc)) fcs ->
  (forall j f, fs !! j = Some f -> exists fc, fcs !! j = Some fc /\ core (fc_f fc) = core f) -> Forall (func_ok hs ss us d) fs.
Proof.
  intros Hall H. apply list.Forall_lookup. intros j f Hj. destruct (H j f Hj) as (fc & Hfc & E). eapply func_ok_core; [exact E|].
  rewrite list.Forall_lookup in Hall. by apply (Hall j).
Qed.

Lemma accepted_func_names fcs (fs : list Func) : length fcs = length fs -> NoDup ((fun fc => f_Name (fc_f fc)) <$> fcs) ->
  (forall j f, fs !! j = Some f -> exists fc, fcs !! j = Some fc /\ core (fc_f fc) = core f) -> NoDup (f_Name <$> fs).
Proof.
  intros El Hnd H. replace (f_Name <$> fs) with ((fun fc => f_Name (fc_f fc)) <$> fcs); [done|]. apply list_eq_same_length with (length fs); rewrite ?length_fmap; [done|done|].
  intros j x y _ Hx Hy. apply list_lookup_fmap_Some in Hx as (fc & -> & Hfc), Hy as (f & -> & Hf). destruct (H j f Hf) as (fc' & Hfc' & E). rewrite Hfc in Hfc'. injection Hfc' as <-. by injection E as E _.
Qed.

(** C26. Types. In an interface that [Parse] accepts, the names of the constants, of the types
    and of the functions are distinct, and so are the members of each struct and
    the cases and the tags of each union; every constant is a value of its type;
    every type that is mentioned is declared and within the limits of the
    language; no declaration contains itself, so that all types can be written
    out and are well formed; and a struct of fixed size takes at most 2^30
    bytes. *)
Theorem parse_types strip src s : Parse strip src = Ok s -> well_typed s.
Proof.
  intros (consts & hs & types & ds & fcs & funcs & k & Hty & Hds & Hk & Hfd & El & Hf)%Parse_accepted%accepted_func.
  pose proof (same_names _ _ (fd_handles _ _ _ _ _ _ _ Hfd)) as En.
  assert (Hf' : forall j f, sp_Funcs s !! j = Some f -> exists fc, fcs !! j = Some fc /\ core (fc_f fc) = core f).
  { intros j f Hj. destruct (Hf j f Hj) as (fc & ? & ? & _). eauto. }
  assert (Hfo : Forall (func_ok hs (sp_Structs s) (sp_Unions s) ds) (sp_Funcs s)).
  { eapply accepted_funcs_ok; [|exact Hf']. eapply Forall_impl; [|exact (fd_funcs _ _ _ _ _ _ _ Hfd)]. by intros fc []. }
  pose proof (accepted_types hs _ _ _ ds (td_decls _ _ _ _ _ _ _ Hty) Hfo) as Hres. constructor.
  - apply Hty.
  - eapply Forall_impl; [|exact (td_consts _ _ _ _ _ _ _ Hty)]. by intros c [].
  - rewrite <- En. apply Hty.
  - eapply accepted_func_names; [exact El|apply Hfd|exact Hf'].
  - apply Hty.
  - apply Hty.
  - rewrite <- En. apply list.Forall_forall. intros t Ht. by apply Hres.
  - exists k. split.
    + apply list.Forall_forall. intros t Ht. eapply (type_known hs); [apply Hty|done|done|by apply Hres].
    + intros i Hi. assert (Hn : NStruct i ∈ all_nodes (sp_Structs s) (sp_Unions s)) by (by apply elem_of_all_nodes). destruct (Hk _ Hn) as [x Hx].
      unfold xof, expand, spec_decls. simpl. rewrite Hx. simpl. assert (Hwf : wf_ty x = true) by (eapply (node_wf hs); [apply Hty|exact Hds|exact Hx]).
      split; [done|]. intros Hfx. rewrite list.Forall_forall in Hds. specialize (Hds _ (td_structs _ _ _ _ _ _ _ Hty i Hi) k x Hx).
      rewrite (info_rules _ Hwf) in Hds. specialize (Hds Hfx). unfold info_of in Hds. simpl in Hds. rewrite Hfx in Hds. unfold sat, MaxStatic, satCap in *. lia.
Qed.

(** An interface with everything in it. *)
Definition sample_src : bytes := str
  "idl 1; service s; const N: u8 = 4; const BAD: i32 = -7;
   handle Db destroy db_close; handle Stmt owned_by Db destroy stmt_free;
   struct Pt { x: i16; y: u8; } struct Rec { id: u64; name: str<=32; pts: Pt[N]; }
   union Val { case 1 I: i64; case 2 S: str; case 3 Nil; }
   @error(status, ok(0)) fn db_close(db: Db) -> i32;
   fn stmt_free(s: Stmt);
   @error(status, ok(0, BAD)) fn prep(db: Db, out stmt: Stmt) -> i32;
   fn read(db: Db, out buf: bytes<=64, cap: u32 @len_of(buf), out n: u16) -> i32;
   @error(predicate(failed)) fn calc(x: i32) -> i32;
   shim fn get(db: Db) -> Val @max_out(4096);
   @allow(server) fn failed(x: i32) -> bool;".

Definition sample_spec : Spec := Eval vm_compute in
  match Parse (str "s_") sample_src with Ok s => s | Err _ => mkSpec [] SerializeNone [] [] [] [] [] [] [] end.

Lemma sample_accepted : Parse (str "s_") sample_src = Ok sample_spec.
Proof. vm_compute. reflexivity. Qed.

Lemma parse_types_witness : Parse (str "s_") sample_src = Ok sample_spec /\ well_typed sample_spec /\ length (spec_types sample_spec) = 24%nat.
Proof. split; [exact sample_accepted|]. split; [exact (parse_types _ _ _ sample_accepted)|vm_compute; reflexivity]. Defined.











(** C25. Plans and bounds. In an interface that [Parse] accepts, exactly the
    functions on the wire have a plan. It is the one [buildPlan] computes: the
    items of the request and of the response are in their groups, and the fixed
    ones lie where the plan says. The fixed groups and the bound of the response
    take at most 2^30 bytes, and every successful response fits: if the server fills no
    buffer beyond the capacity the caller gave, and a value without a worst case
    stays within its [@max_out], the body takes at most the terms at these
    capacities, and at most the bound if the capacities are within theirs. *)
Theorem parse_plans strip src s : Parse strip src = Ok s ->
  exists k, forall f, f ∈ sp_Funcs s ->
    if Wire f then exists p bts b, f_Plan f = Some p /\ planned (spec_decls s) (xof (spec_decls s) k) f p bts b else f_Plan f = None.
Proof.
  intros (consts & hs & types & ds & fcs & funcs & k & _ & _ & _ & _ & _ & Hf)%Parse_accepted%accepted_func.
  exists k. intros f [j Hj]%list_elem_of_lookup. destruct (Hf j f Hj) as (fc & _ & _ & _ & _ & _ & H). unfold Wire. destruct (fc_server fc).
  - by destruct H as [-> ->].
  - destruct H as [(i & _ & ->) H]. destruct (Z.eqb_spec (Z.of_nat i + 1) 0); [lia|]. exact H.
Qed.

Lemma parse_plans_witness : exists f k p bts b, sp_Funcs sample_spec !! 3%nat = Some f /\ f_Plan f = Some p /\
  planned (spec_decls sample_spec) (xof (spec_decls sample_spec) k) f p bts b /\ b = 83.
Proof.
  destruct (parse_plans _ _ _ sample_accepted) as [k Hk].
  destruct (sp_Funcs sample_spec !! 3%nat) as [f|] eqn:Ef; [|vm_compute in Ef; discriminate].
  pose proof (Hk f (list_elem_of_lookup_2 _ _ _ Ef)) as H. vm_compute in Ef. injection Ef as <-.
  destruct H as (p & bts & b & Ep & H). eexists _, k, p, bts, b. split; [reflexivity|]. split; [exact Ep|]. split; [exact H|].
  destruct (pd_static _ _ _ _ _ _ H empty_memo (settled_empty _)) as (m & E & _). injection Ep as <-. vm_compute in E. by injection E as <- _.
Defined.

Lemma rooted_same hs hs' i : Forall2 same_handle hs hs' -> rooted hs i -> rooted hs' i.
Proof.
  intros Hs. induction 1 as [i h Hh _ IH]. destruct (Forall2_lookup_l _ _ _ _ _ Hs Hh) as (h' & Hh' & _ & Ep & _).
  apply (rooted_step _ i h' Hh'). intros p Hp. apply IH. congruence.
Qed.

(** C28. Handles. In an interface that [Parse] accepts, the owners of every handle
    end, so that releasing a handle and what it owns ends; every handle has a
    destroy function, which takes exactly this handle and returns nothing or a
    status; and a function destroys a handle exactly if it is the destroy
    function of this handle, so no two handles share one. *)
Theorem parse_handles strip src s : Parse strip src = Ok s ->
  (forall i h, sp_Handles s !! i = Some h -> rooted (sp_Handles s) i /\
     exists k f, h_Destroy h = Some k /\ sp_Funcs s !! k = Some f /\ f_Destroys f = Some i /\ destroyShape i f = true /\
       forall t, f_Ret f = Some t -> IsInt (kind t) = true /\ statusError f = true) /\
  (forall k f i, sp_Funcs s !! k = Some f -> f_Destroys f = Some i -> exists h, sp_Handles s !! i = Some h /\ h_Destroy h = Some k).
Proof.
  intros (consts & hs & types & ds & fcs & funcs & k & Hty & _ & _ & Hfd & El & Hf)%Parse_accepted%accepted_func. split.
  - intros i h Hi. pose proof (fd_handles _ _ _ _ _ _ _ Hfd) as Hs. split.
    { eapply rooted_same; [exact Hs|]. apply (td_rooted _ _ _ _ _ _ _ Hty). rewrite (Forall2_length Hs). by eapply lookup_lt_Some. }
    destruct (fd_linked _ _ _ _ _ _ _ Hfd i h Hi) as (j & fc & Hd & Hfc & Hds & Hsh). cbn [Nat.add] in Hds, Hsh.
    destruct (lookup_lt_is_Some_2 (sp_Funcs s) j) as [f Hj]; [rewrite <- El; by eapply lookup_lt_Some|].
    destruct (Hf j f Hj) as (fc' & Hfc' & Eco & Ee & Ed & _). rewrite Hfc in Hfc'. injection Hfc' as <-. exists j, f. split_and!; [done|done|congruence| |].
    + by rewrite <- (core_destroyShape _ _ _ Eco).
    + intros t Et. destruct (fd_returns _ _ _ _ _ _ _ Hfd h j fc t) as [H1 H2]; [by eapply list_elem_of_lookup_2|done|done|injection Eco; congruence|].
      split; [done|]. unfold statusError in *. by rewrite <- Ee.
  - intros j f i Hj Hd. destruct (Hf j f Hj) as (fc & Hfc & _ & _ & Ed & _). apply (fd_unlinked _ _ _ _ _ _ _ Hfd j fc i Hfc). congruence.
Qed.

Lemma parse_handles_witness : rooted (sp_Handles sample_spec) 1 /\ (h_Parent <$> sp_Handles sample_spec !! 1%nat) = Some (Some 0%nat) /\
  (h_Destroy <$> sp_Handles sample_spec) = [Some 0%nat; Some 1%nat].
Proof.
  split; [|vm_compute; done]. destruct (parse_handles _ _ _ sample_accepted) as [H _].
  destruct (sp_Handles sample_spec !! 1%nat) as [h|] eqn:E; [|vm_compute in E; discriminate]. apply (H 1%nat h E).
Defined.

(** Opcodes and Go names. In an interface that [Parse] accepts, the functions on
    the wire are numbered from 1 in declaration order, with numbers of 16 bits;
    and the names of the generated Go declarations (constants, handles, structs,
    unions with their tags and cases, and the three of each function on the
    wire) are distinct, exported and not those of the generated client; the Go
    fields of each struct are distinct. *)
Theorem parse_names strip src s : Parse strip src = Ok s ->
  StronglySorted lt (sp_Wire s) /\ (length (sp_Wire s) <= 65535)%nat /\
  (forall k f, sp_Funcs s !! k = Some f -> f_GoName f = GoName strip (f_Name f) /\
     forall i, sp_Wire s !! i = Some k <-> f_Opcode f = Z.of_nat i + 1) /\
  NoDup (go_decls (sp_Consts s) (sp_Handles s) (sp_Structs s) (sp_Unions s) ++ go_funcs (sp_Funcs s)) /\
  Forall (fun x => exportedGo x = true /\ x ∉ reservedGo) (go_decls (sp_Consts s) (sp_Handles s) (sp_Structs s) (sp_Unions s) ++ go_funcs (sp_Funcs s)) /\
  Forall (fun t => NoDup ((fun m => capitalize (mb_Name m)) <$> s_Members t)) (sp_Structs s).
Proof.
  intros Ha%Parse_accepted. destruct (accepted_func _ _ Ha) as (consts1 & hs1 & types1 & ds1 & fcs & funcs1 & k1 & _ & _ & _ & _ & _ & Hf).
  destruct Ha as [(consts & hs & types & ds & fcs0 & fcs' & funcs & fs & k0 & _ & _ & _ & _ & _ & Hnum & Hlen & Hfs) [o (Hnd & Hall & _)] Hfl].
  split_and!; [apply Hnum|done| |done| |done].
  - intros k f Hk. destruct (Hf k f Hk) as (fc & _ & _ & _ & _ & Eg & Hop). split; [done|].
    assert (Hw : forall i, sp_Wire s !! i = Some k -> f_Opcode f = Z.of_nat i + 1).
    { intros i Hi. destruct (nb_wire _ _ _ _ _ Hnum i k Hi) as (f0 & _ & Hf0 & Ho). rewrite Nat.sub_0_r in Hf0.
      rewrite Hfs, list_lookup_fmap, Hf0 in Hk. injection Hk as <-. simpl. lia. }
    intros i. split; [apply Hw|]. intros Ho. destruct (fc_server fc); [destruct Hop as [Ho' _]; lia|].
    destruct Hop as [(i' & Hi' & Ho') _]. assert (i' = i) as -> by lia. done.
  - eapply Forall_impl; [|exact Hall]. by intros x (_ & H).
Qed.

Lemma parse_names_witness : length (go_funcs (sp_Funcs sample_spec)) = 18%nat /\ NoDup (go_funcs (sp_Funcs sample_spec)) /\
  map f_Opcode (sp_Funcs sample_spec) = [1; 2; 3; 4; 5; 6; 0].
Proof.
  split; [vm_compute; reflexivity|]. split; [|vm_compute; reflexivity].
  destruct (parse_names _ _ _ sample_accepted) as (_ & _ & _ & Hnd & _). by apply list.NoDup_app in Hnd as (_ & _ & Hnd).
Defined.

(** ** Diagnostics *)

Lemma bytes_lt_asym a : forall b, bytes_lt a b = true -> bytes_lt b a = false.
Proof.
  induction a as [|x a IH]; intros [|y b] H; simpl in *; try done. destruct (Z.ltb_spec x y), (Z.ltb_spec y x), (Z.eqb_spec x y), (Z.eqb_spec y x); simpl in *; try lia; try done.
  by apply IH.
Qed.

Lemma diag_lt_asym a b : diag_lt a b = true -> diag_lt b a = false.
Proof.
  unfold diag_lt. rewrite (Z.eqb_sym (Line (dg_pos b))), (Z.eqb_sym (Col (dg_pos b))).
  destruct (Z.eqb_spec (Line (dg_pos a)) (Line (dg_pos b))); simpl; [|intros H%Z.ltb_lt; apply Z.ltb_ge; lia].
  destruct (Z.eqb_spec (Col (dg_pos a)) (Col (dg_pos b))); simpl; [|intros H%Z.ltb_lt; apply Z.ltb_ge; lia]. apply bytes_lt_asym.
Qed.

(** By position, then by rule. *)
Definition diag_le (a b : Diagnostic) : Prop := diag_lt b a = false.

Lemma sorted_perm l : sorted l ≡ₚ l.
Proof.
  assert (Hi : forall x l, insert_diag x l ≡ₚ x :: l).
  { intros x l'. induction l' as [|y l' IH]; simpl; [done|]. destruct (diag_lt y x); [|done]. rewrite IH. apply Permutation_swap. }
  induction l as [|x l IH]; simpl; [done|]. by rewrite Hi, IH.
Qed.

Lemma sorted_Sorted l : Sorted diag_le (sorted l).
Proof.
  assert (Hi : forall x l, Sorted diag_le l -> Sorted diag_le (insert_diag x l)).
  { intros x l'. induction 1 as [|y l' Hs IH Hh]; simpl; [by repeat constructor|]. destruct (diag_lt y x) eqn:E.
    - constructor; [done|]. apply diag_lt_asym in E. destruct l' as [|z l']; simpl in *; [by constructor|].
      inversion Hh; subst. destruct (diag_lt z x); by constructor.
    - constructor; [by constructor|]. by constructor. }
  induction l as [|x l IH]; simpl; [constructor|]. by apply Hi.
Qed.

(** The order of diagnostics. A text that [Parse] rejects has at least one
    diagnostic; the diagnostics are ordered by position, then by rule, and are
    those of the lexer, of the parser, or of the parser and the checks. *)
Theorem parse_diagnostics strip src l : Parse strip src = Err l ->
  l <> [] /\ Sorted diag_le l /\
  match lex src with
  | Err e => l = [mkDiag (se_pos e) RuleSyntax]
  | Ok toks =>
      match parseFile toks with
      | Err (e, sink) => l ≡ₚ sink ++ [mkDiag (se_pos e) RuleSyntax]
      | Ok (raw, sink) => l ≡ₚ sink ++ o_diags (run strip raw empty_memo).1.2
      end
  end.
Proof.
  unfold Parse. destruct (lex src) as [toks|e]; [|intros [= <-]; split_and!; [done|by repeat constructor|done]].
  assert (Hne : forall l : list Diagnostic, l <> [] -> sorted l <> []).
  { intros l' Hl E. apply Hl. apply Permutation_nil. by rewrite <- E, sorted_perm. }
  destruct (parseFile toks) as [[raw sink]|[e sink]].
  - destruct (run strip raw empty_memo) as [[spec o] m]. destruct (Nat.eqb_spec (length (sink ++ o_diags o)) 0) as [|Hl]; [done|]. intros [= <-].
    split_and!; [|apply sorted_Sorted|apply sorted_perm]. apply Hne. intros E. by rewrite E in Hl.
  - intros [= <-]. split_and!; [|apply sorted_Sorted|apply sorted_perm]. apply Hne. by destruct sink.
Qed.

Definition bad_src : bytes := str "idl 1; service s; struct S { } fn f(a: T, a: i8);".

Definition bad_diags : list Diagnostic := Eval vm_compute in match Parse [] bad_src with Ok _ => [] | Err l => l end.

Lemma bad_rejected : Parse [] bad_src = Err bad_diags.
Proof. vm_compute. reflexivity. Qed.

Lemma parse_diagnostics_witness : Parse [] bad_src = Err bad_diags /\ Sorted diag_le bad_diags /\ dg_rule <$> bad_diags = [str "V5"; str "V4"; str "V9"].
Proof.
  split; [exact bad_rejected|]. split; [|vm_compute; reflexivity]. destruct (parse_diagnostics [] bad_src bad_diags bad_rejected) as (_ & H & _). exact H.
Defined.

(** A syntax error is reported together with the violations the parser had
    found before it: here the keyword used as a name (V1), then the word that
    starts no declaration. *)
Lemma syntax_error_not_alone :
  Parse [] (str "idl 1; service in; foo") = Err [mkDiag (mkPos 1 16) (str "V1"); mkDiag (mkPos 1 20) RuleSyntax].
Proof. vm_compute. reflexivity. Qed.
