(* ===== verification/IdlNames.v ===== *)
(** * IdlNames: the names of an accepted interface

    Follows the names of an interface through the passes of bindgen/idl: the
    lexer tells identifiers from keywords, the parser reports a keyword in the
    place of a name, and the checker copies names. So the names of an accepted
    interface are identifiers of the language and no keywords, which is what
    keeps its canonical text unambiguous (IdlCanon). *)
From S2P Require Import Prelude IdlTypes IdlSizes IdlModel IdlPlan IdlLex IdlParse IdlCheck IdlCycles IdlFunc IdlSpec IdlSound IdlRules IdlAccept.

Definition clean (x : bytes) : Prop := Forall (fun c => isIdentPart c = true) x.

(** A declared name: an identifier that is no keyword. *)
Definition word (x : bytes) : Prop := ident_text x /\ x ∉ keywords.

Lemma word_clean x : word x -> clean x.
Proof.
  intros [[Hx _] _]. destruct x as [|c x]; [done|]. destruct Hx as [Hc Hx]. constructor; [|done]. unfold isIdentPart. by rewrite Hc.
Qed.

(** ** From the text to the raw file *)

Definition tok_named (t : token) : Prop := t_kind t = tIdent -> word (t_text t).

Lemma spells_named t x : spells t x -> tok_named t.
Proof. intros []; unfold tok_named; simpl; try done. case_decide; [done|]. done. Qed.

Lemma lex_named src toks : lex src = Ok toks -> Forall tok_named toks.
Proof.
  unfold lex. case_bool_decide as Hb; [done|]. intros E. pose proof (lex_loop_ok (S (length src)) (mkLexer src (mkPos 1 1)) [] ltac:(simpl; lia)) as H. rewrite E in H.
  destruct H as (ts & -> & Hts). simpl. clear E. induction Hts; constructor; try done; by eapply spells_named.
Qed.

Definition arg_named (a : rawArg) : Prop := ag_kind a = aIdent -> word (ag_text a).
Definition ann_named (a : rawAnn) : Prop := Forall arg_named (an_args a).
Definition param_named (p : rawParam) : Prop := word (n_text (rp_name p)) /\ Forall ann_named (rp_anns p).

Record raw_named (f : rawFile) : Prop := mkRawNamed {
  rn_service : word (n_text (f_service f));
  rn_handles : Forall (fun h => word (n_text (rh_name h))) (f_handles f);
  rn_structs : Forall (fun s => word (n_text (rs_name s)) /\ Forall (fun m => word (n_text (rm_name m))) (rs_members s)) (f_structs f);
  rn_unions : Forall (fun u => word (n_text (ru_name u)) /\ Forall (fun c => word (n_text (rk_name c))) (ru_cases u)) (f_unions f);
  rn_funcs : Forall (fun g => word (n_text (rf_name g)) /\ Forall param_named (rf_params g) /\ Forall ann_named (rf_retAnns g)) (f_funcs f)
}.

(** Phrases that report nothing, of tokens with proper names. *)
Definition names {A} (g : phrase A) (P : A -> Prop) : Prop := forall ts a ds, g ts a ds -> Forall tok_named ts -> ds = [] -> P a.

Lemma names_many {A} (g : phrase A) (P : A -> Prop) : names g P -> names (many g) (Forall P).
Proof.
  intros Hg ts l ds. induction 1 as [|ts a ds ts' l ds' Ha _ IH]; [constructor|]. intros [H1 H2]%Forall_app [-> ->]%app_eq_nil. constructor; [by eapply Hg|by apply IH].
Qed.

Lemma names_commas {A} (g : phrase A) (P : A -> Prop) : names g P -> names (comma_list g) (Forall P).
Proof.
  intros Hg ts l ds. induction 1 as [ts a ds Ha|ts a ds c ts' l ds' Ha _ _ IH].
  - intros H1 H2. constructor; [by eapply Hg|constructor].
  - intros [H1 H2]%Forall_app [-> ->]%app_eq_nil. inversion H2; subst. constructor; [by eapply Hg|by apply IH].
Qed.

Lemma names_name : names g_name (fun n => word (n_text n)).
Proof. intros ts n ds [t Hk|t Hk]; [|done]. intros Ht _. inversion Ht; subst. auto. Qed.

Lemma names_arg args : names (g_arg args) arg_named.
Proof.
  intros ts a ds [t Hk|t Hk|t Hk|t Hk|t ts' l ds' Hk _] Ht _; unfold arg_named; simpl; try done; inversion Ht; subst; auto.
Qed.

Lemma names_ann : names g_ann ann_named.
Proof.
  intros ts a ds [t Hk|t ts' l ds' Hk Hl] Ht Hd; unfold ann_named; simpl; [constructor|]. apply Forall_cons_1 in Ht as [_ Ht']. cbn [g_args] in Hl.
  destruct Hl as [|lp ts' l ds' rp _ Hc _]; [constructor|]. apply Forall_cons_1 in Ht' as [_ [H1 _]%Forall_app]. by eapply (names_commas _ _ (names_arg _)).
Qed.

(** Splits what is known of the tokens and the reports of a phrase. *)
Ltac split_names :=
  repeat match goal with
  | H : Forall _ (_ ++ _) |- _ => apply Forall_app in H as [? H]
  | H : Forall _ (_ :: _) |- _ => apply Forall_cons_1 in H as [? H]
  | H : _ ++ _ = [] |- _ => apply app_eq_nil in H as [? H]
  end; subst.

Lemma names_member : names g_member (fun m => word (n_text (rm_name m))).
Proof. intros ts m ds [ts1 name ds1 c ts2 ty ds2 sc Hn _ _ _] Ht Hd. split_names. by eapply names_name. Qed.

Lemma names_case : names g_case (fun c => word (n_text (rk_name c))).
Proof. intros ts m ds [kc tag ts1 name ds1 sc _ _ Hn _|kc tag ts1 name ds1 c ts2 ty ds2 sc _ _ Hn _ _ _] Ht Hd; split_names; by eapply names_name. Qed.

Lemma names_param : names g_param param_named.
Proof. intros ts p ds [ts0 d ts1 name ds1 c ts2 ty ds2 ts3 anns ds3 _ Hn _ _ Ha _] Ht Hd. split_names. split; simpl; [by eapply names_name|by eapply (names_many _ _ names_ann)]. Qed.

Lemma names_braces {A} key (g : phrase A) (P : A -> Prop) : names g P -> names (g_braces key g) (fun '(_, name, l) => word (n_text name) /\ Forall P l).
Proof. intros Hg ts r ds [k ts1 name ds1 lb ts2 l ds2 rb _ Hn _ Hl _] Ht Hd. split_names. split; [by eapply names_name|by eapply (names_many _ _ Hg)]. Qed.

Lemma names_handle anns : names (g_handle anns) (fun h => word (n_text (rh_name h))).
Proof. intros ts h ds [? k ts1 name ds1 kd d sc _ Hn _ _ _|? k ts1 name ds1 ko o kd d sc _ Hn _ _ _ _ _] Ht Hd; split_names; by eapply names_name. Qed.

Lemma names_params : names g_params (Forall param_named).
Proof. intros ts l ds [|ts' l' ds' Hl] Ht Hd; [constructor|]. by eapply (names_commas _ _ names_param). Qed.

Lemma names_ret : names g_ret (fun r => Forall ann_named r.1.2).
Proof. intros ts r ds [|ar ts1 ty ds1 ts2 anns ds2 _ _ Ha] Ht Hd; [constructor|]. split_names. by eapply (names_many _ _ names_ann). Qed.

Lemma names_fn anns : names (g_fn anns) (fun g => word (n_text (rf_name g)) /\ Forall param_named (rf_params g) /\ Forall ann_named (rf_retAnns g)).
Proof.
  intros ts g ds [? sh kf ts1 name ds1 lp ts2 params ds2 rp ts3 ret ra rpos ds3 sc _ _ Hn _ Hp _ Hr _] Ht Hd. split_names. simpl. split_and!.
  - by eapply names_name.
  - by eapply names_params.
  - by eapply (names_ret _ _ _ Hr).
Qed.

Lemma names_decl f : raw_named f -> names (g_decl f) raw_named.
Proof.
  intros [H0 H1 H2 H3 H4] ts f' ds Hg Ht Hd.
  destruct Hg as [| | |ts0 anns ds0 ts h ds _ Hh|ts0 anns ds0 ts pos name ms ds _ Hb|ts0 anns ds0 ts pos name cs ds _ Hb|ts0 anns ds0 ts g ds _ Hf];
    constructor; simpl; try done; split_names; apply list.Forall_app; (split; [done|]); (constructor; [simpl|constructor]).
  - by eapply names_handle.
  - exact (names_braces _ _ _ names_member _ _ _ Hb Ht eq_refl).
  - exact (names_braces _ _ _ names_case _ _ _ Hb Ht eq_refl).
  - by eapply names_fn.
Qed.

Lemma names_decls f : raw_named f -> names (g_decls f) raw_named.
Proof.
  intros H0 ts f' ds Hd. revert H0. induction Hd as [|f ts f' ds ts' f'' ds' Hg _ IH]; [done|]. intros H0 Ht Hds. split_names.
  apply IH; [|done|done]. by eapply (names_decl f).
Qed.

Lemma names_file : names g_file raw_named.
Proof.
  intros ts f ds [ki v s1 ts1 anns ds0 ks ts' name ds1 s2 ts'' f' ds' _ _ _ _ _ Hn _ Hd] Ht Hds. split_names.
  eapply names_decls; [|exact Hd|done|done]. constructor; [by eapply names_name|constructor..].
Qed.

Lemma parse_named src toks f : lex src = Ok toks -> parseFile toks = Ok (f, []) -> raw_named f.
Proof.
  intros Hl%lex_named Hp. pose proof (parse_sound toks) as H. rewrite Hp in H. destruct H as (pre & rest & -> & Hg & _). apply Forall_app in Hl as [Hl _].
  by eapply names_file.
Qed.

(** ** Through the checker *)

(** What a check returns, whatever it reports. *)
Definition yields {A} (c : C A) (Q : A -> Prop) : Prop := forall m, Q (c m).1.1.

Lemma yields_ret {A} (a : A) (Q : A -> Prop) : Q a -> yields (mret a) Q.
Proof. by intros H m. Qed.

Lemma yields_bind {A B} (c : C A) (f : A -> C B) (R : A -> Prop) (Q : B -> Prop) : yields c R -> (forall a, R a -> yields (f a) Q) -> yields (c ≫= f) Q.
Proof.
  intros Hc Hf m. rewrite C_bind_eq. specialize (Hc m). destruct (c m) as [[a o] m1]. specialize (Hf a Hc m1). by destruct (f a m1) as [[b o'] m2].
Qed.

Lemma yields_then {A B} (c : C A) (f : A -> C B) (Q : B -> Prop) : (forall a, yields (f a) Q) -> yields (c ≫= f) Q.
Proof. intros Hf. eapply (yields_bind _ _ (fun _ => True)); [done|auto]. Qed.

Lemma yields_mono {A} (c : C A) (R Q : A -> Prop) : yields c R -> (forall a, R a -> Q a) -> yields c Q.
Proof. intros H HQ m. by apply HQ. Qed.

Lemma yields_collect {A B} (l : list A) (f : A -> C B) (P : A -> Prop) (Q : B -> Prop) : Forall P l -> (forall a, P a -> yields (f a) Q) -> yields (collect l f) (Forall Q).
Proof.
  intros Hl Hf. induction Hl as [|a l Ha _ IH]; cbn [collect]; [by apply yields_ret|]. eapply yields_bind; [by apply Hf|]. intros b Hb.
  eapply yields_bind; [exact IH|]. intros bs Hbs. by apply yields_ret; constructor.
Qed.

Lemma yields_phase {A} (c : C A) (Q : A -> Prop) : yields c Q -> yields (phase c) (fun r => Q r.1).
Proof. intros H m. specialize (H m). unfold phase. by destruct (c m) as [[a o] m1]. Qed.

Definition attrs_ok (a : Attrs) : Prop := clean (LenOf a) /\ clean (OffsetIn a).
Definition func_named (f : Func) : Prop :=
  word (f_Name f) /\ Forall (fun p => word (p_Name p) /\ attrs_ok (p_Attrs p)) (f_Params f) /\ attrs_ok (f_RetAttrs f).
Definition fc_named (fc : fnCheck) : Prop := func_named (fc_f fc).

(** *** Annotations *)

Definition set_named (set : annSet) : Prop := map_Forall (fun _ a => ann_named a) set.

Lemma takeAnns_named anns service allowed : forall set, Forall ann_named anns -> set_named set -> yields (takeAnns anns service allowed set) set_named.
Proof.
  induction anns as [|a anns IH]; intros set Ha Hs; cbn [takeAnns]; [by apply yields_ret|]. apply Forall_cons_1 in Ha as [Ha Hl].
  destruct (_ && _); [apply yields_then; intros _; by apply IH|]. destruct (negb _); [apply yields_then; intros _; by apply IH|].
  destruct (bool_decide (is_Some _)); [apply yields_then; intros _; by apply IH|]. apply IH; [done|]. by apply map_Forall_insert_2.
Qed.

Lemma identAttr_named set x b : set_named set -> yields (identAttr set x b) clean.
Proof.
  intros Hs. unfold identAttr. destruct (set !! x) as [a|] eqn:E; [|apply yields_ret; constructor]. specialize (Hs x a E).
  eapply (yields_bind _ _ (fun v => clean (default [] v))); [|intros v Hv; by apply yields_ret]. unfold oneIdent.
  assert (Hbad : yields (_ ← add (an_pos a) RuleSyntax; mret None) (fun v : option bytes => clean (default [] v))) by (apply yields_then; intros; apply yields_ret; constructor).
  destruct (an_args a) as [|y [|? ?]] eqn:Ea; [done| |done]. destruct (negb (ag_hasParens y)); [|done]. destruct (ag_kind y) eqn:Ek; try done.
  - destruct b; [|done]. apply yields_ret. repeat constructor.
  - apply yields_ret. unfold ann_named in Hs. rewrite Ea in Hs. apply Forall_cons_1 in Hs as [Hy _]. by apply word_clean, Hy.
Qed.

Lemma attrs_named set : set_named set -> yields (attrs set) attrs_ok.
Proof.
  intros Hs. unfold attrs. eapply yields_bind; [by apply identAttr_named|]. intros x Hx. eapply yields_bind; [by apply identAttr_named|]. intros y Hy.
  do 4 (apply yields_then; intros ?). by apply yields_ret.
Qed.

(** *** Functions *)

Lemma buildParam_named consts types rp : param_named rp -> yields (buildParam consts types rp) (fun r => word (p_Name r.1) /\ attrs_ok (p_Attrs r.1)).
Proof.
  intros [Hn Ha]. unfold buildParam. do 2 (apply yields_then; intros ?). eapply yields_bind; [by apply takeAnns_named|]. intros set Hs.
  eapply yields_bind; [by apply attrs_named|]. intros at_ Hat. by apply yields_ret.
Qed.

Lemma buildReturn_named consts types rf : Forall ann_named (rf_retAnns rf) -> yields (buildReturn consts types rf) (fun r => attrs_ok r.1.1.2).
Proof.
  intros Ha. unfold buildReturn. destruct (rf_ret rf) as [rt|]; [|apply yields_ret; split; constructor]. apply yields_then; intros t.
  eapply yields_bind; [by apply takeAnns_named|]. intros set Hs. eapply yields_bind; [by apply attrs_named|]. intros at_ Hat. apply yields_then; intros mo. by apply yields_ret.
Qed.

Lemma build_named consts types hs ss us rf : word (n_text (rf_name rf)) -> Forall param_named (rf_params rf) -> Forall ann_named (rf_retAnns rf) ->
  yields (build consts types hs ss us rf) fc_named.
Proof.
  intros Hn Hp Hr. unfold build. do 5 (apply yields_then; intros ?). eapply yields_bind; [apply (yields_collect _ _ param_named (fun r => word (p_Name r.1) /\ attrs_ok (p_Attrs r.1)) Hp); intros rp; apply buildParam_named|].
  intros params Hps. eapply yields_bind; [by apply buildReturn_named|]. intros [[[ret ra] rset] [mo mp]] Hra. do 5 (apply yields_then; intros ?). apply yields_ret.
  split_and!; [done| |done]. by apply Forall_map.
Qed.

Lemma declareFuncs_named consts types hs ss us rfs :
  Forall (fun g => word (n_text (rf_name g)) /\ Forall param_named (rf_params g) /\ Forall ann_named (rf_retAnns g)) rfs ->
  forall i funcs, yields (declareFuncs consts types hs ss us i rfs funcs) (fun r => Forall fc_named r.1).
Proof.
  induction 1 as [|rf rfs (H1 & H2 & H3) _ IH]; intros i funcs; cbn [declareFuncs]; [by apply yields_ret|]. apply yields_then; intros _.
  eapply yields_bind; [by apply yields_phase, build_named|]. intros [fc bad] Hfc. eapply yields_bind; [apply IH|]. intros [fcs funcs'] Hfcs. apply yields_ret. by constructor.
Qed.

Lemma resolveDestroy_named funcs rhs : forall i hs fcs, Forall (fun h => word (h_Name h)) hs -> Forall fc_named fcs ->
  yields (resolveDestroy i funcs rhs hs fcs) (fun r => Forall (fun h => word (h_Name h)) r.1 /\ Forall fc_named r.2).
Proof.
  induction rhs as [|rh rhs IH]; intros i [|h hs] fcs Hh Hf; cbn [resolveDestroy]; try by apply yields_ret. apply Forall_cons_1 in Hh as [Hh Hhs].
  eapply (yields_bind _ _ (fun r => word (h_Name r.1) /\ Forall fc_named r.2)).
  - destruct (k ← _; fc ← fcs !! k; Some (k, fc)) as [[k fc]|] eqn:E; [|by apply yields_then; intros; apply yields_ret].
    destruct (negb (destroyShape _ _)); [by apply yields_then; intros; apply yields_ret|]. destruct (bool_decide _); [by apply yields_then; intros; apply yields_ret|].
    apply yields_ret. split; [done|]. apply Forall_insert; [done|]. apply bind_Some in E as (k' & _ & (fc' & Hfc & [= -> ->])%bind_Some). exact (proj1 (list.Forall_lookup _ _) Hf k fc Hfc).
  - intros [h' fcs'] [Hh' Hf']. eapply yields_bind; [by apply IH|]. intros [hs' fcs''] [H1 H2]. apply yields_ret. split; [by constructor|done].
Qed.

Lemma errorConv_named consts funcs fcs f a : func_named f -> yields (errorConv consts funcs fcs f a) func_named.
Proof.
  intros Hf. unfold errorConv. destruct (f_Ret f) as [t|]; [|by apply yields_then; intros; apply yields_ret]. apply yields_then; intros e.
  destruct (ea_kind e) as [k|]; [|by apply yields_then; intros; apply yields_ret]. apply yields_then; intros [oks pred]. do 2 (apply yields_then; intros ?). by apply yields_ret.
Qed.

Lemma resolveError_named consts funcs fcs fc : fc_named fc -> yields (resolveError consts funcs fcs fc) fc_named.
Proof.
  intros Hf. unfold resolveError. eapply yields_bind; [apply (yields_phase _ func_named)|].
  - destruct (fc_decl fc !! str "error"); [by apply errorConv_named|by apply yields_ret].
  - intros [f bad] H. by apply yields_ret.
Qed.

Lemma finish_named D fc : fc_named fc -> yields (finish D fc) fc_named.
Proof. intros Hf. unfold finish. destruct (_ || _); [by apply yields_ret|]. do 5 (apply yields_then; intros ?). by apply yields_ret. Qed.

Lemma opcodes_named fcs : Forall fc_named fcs -> forall i n, Forall func_named (opcodes i n fcs).1.
Proof.
  induction 1 as [|fc fcs Hf _ IH]; intros i n; cbn [opcodes]; [constructor|]. destruct (fc_server fc).
  - specialize (IH (S i) n). destruct (opcodes (S i) n fcs). by constructor.
  - specialize (IH (S i) (n + 1)). destruct (opcodes (S i) (n + 1) fcs). by constructor.
Qed.

Lemma goFuncs_named (strip : bytes) funcs fs : Forall func_named fs -> forall i owner, yields (goFuncs strip funcs i fs owner) (Forall func_named).
Proof.
  induction 1 as [|f fs Hf _ IH]; intros i owner; cbn [goFuncs]; [by apply yields_ret|]. apply yields_then; intros owner'. eapply yields_bind; [apply IH|].
  intros fs' Hfs. apply yields_ret. by constructor.
Qed.

(** *** Types *)

Notation hs_named := (Forall (fun h => word (h_Name h))).
Notation ss_named := (Forall (fun s => word (s_Name s) /\ Forall (fun m => word (mb_Name m)) (s_Members s))).
Notation us_named := (Forall (fun u => word (u_Name u) /\ Forall (fun c => word (c_Name c)) (u_Cases u))).

Lemma declareHandles_named rhs : Forall (fun h => word (n_text (rh_name h))) rhs -> forall i types, yields (declareHandles i rhs types) (fun r => hs_named r.1).
Proof.
  induction 1 as [|rh rhs Hh _ IH]; intros i types; cbn [declareHandles]; [by apply yields_ret|]. do 4 (apply yields_then; intros ?).
  eapply yields_bind; [apply IH|]. intros [hs types'] H. apply yields_ret. by constructor.
Qed.

Lemma declareStructs_named rss : Forall (fun s => word (n_text (rs_name s)) /\ Forall (fun m => word (n_text (rm_name m))) (rs_members s)) rss ->
  forall i types, yields (declareStructs i rss types) (fun r => ss_named r.1).
Proof.
  induction 1 as [|rs rss [Hs _] _ IH]; intros i types; cbn [declareStructs]; [by apply yields_ret|]. do 3 (apply yields_then; intros ?).
  eapply yields_bind; [apply IH|]. intros [ss types'] H. apply yields_ret. constructor; [|done]. split; [done|constructor].
Qed.

Lemma declareUnions_named rus : Forall (fun u => word (n_text (ru_name u)) /\ Forall (fun c => word (n_text (rk_name c))) (ru_cases u)) rus ->
  forall i types, yields (declareUnions i rus types) (fun r => us_named r.1).
Proof.
  induction 1 as [|ru rus [Hu _] _ IH]; intros i types; cbn [declareUnions]; [by apply yields_ret|]. do 2 (apply yields_then; intros ?).
  eapply yields_bind; [apply IH|]. intros [us types'] H. apply yields_ret. constructor; [|done]. split; [done|constructor].
Qed.

Lemma parents_named types rhs : forall i hs, hs_named hs -> yields (parents i types rhs hs) hs_named.
Proof.
  induction rhs as [|rh rhs IH]; intros i [|h hs] Hh; cbn [parents]; try by apply yields_ret. apply Forall_cons_1 in Hh as [Hh Hhs].
  eapply (yields_bind _ _ (fun h => word (h_Name h))).
  - destruct (rh_ownedBy rh) as [o|]; [|by apply yields_ret]. destruct (types !! n_text o) as [[| |j]|]; try (by apply yields_then; intros; apply yields_ret).
    case_bool_decide; [by apply yields_then; intros; apply yields_ret|by apply yields_ret].
  - intros h' Hh'. eapply yields_bind; [by apply IH|]. intros hs' H. apply yields_ret. by constructor.
Qed.

Lemma breakCycles_named is_ : forall hs, hs_named hs -> yields (breakCycles is_ hs) hs_named.
Proof.
  induction is_ as [|i is_ IH]; intros hs Hh; cbn [breakCycles]; [by apply yields_ret|]. destruct (hs !! i) as [h|] eqn:E; [|by apply IH].
  destruct (owner_cycle _ _ _ _ _); [|by apply IH]. apply yields_then; intros _. apply IH. apply Forall_alter; [done|]. by intros.
Qed.

Lemma structMembers_named consts types rss : Forall (fun s => word (n_text (rs_name s)) /\ Forall (fun m => word (n_text (rm_name m))) (rs_members s)) rss ->
  forall ss, ss_named ss -> yields (structMembers consts types rss ss) ss_named.
Proof.
  induction 1 as [|rs rss [_ Hm] _ IH]; intros [|s ss] Hs; cbn [structMembers]; try by apply yields_ret. apply Forall_cons_1 in Hs as [[Hs _] Hss].
  eapply yields_bind; [apply (yields_collect _ _ _ (fun m => word (mb_Name m)) Hm)|].
  - intros rm Hn. unfold resolveMember. do 2 (apply yields_then; intros ?). by apply yields_ret.
  - intros ms Hms. eapply yields_bind; [by apply IH|]. intros rest Hr. apply yields_ret. by constructor.
Qed.

Lemma unionCases_named consts types rus : Forall (fun u => word (n_text (ru_name u)) /\ Forall (fun c => word (n_text (rk_name c))) (ru_cases u)) rus ->
  forall us, us_named us -> yields (unionCases consts types rus us) us_named.
Proof.
  induction 1 as [|ru rus [_ Hc] _ IH]; intros [|u us] Hu; cbn [unionCases]; try by apply yields_ret. apply Forall_cons_1 in Hu as [[Hu _] Hus].
  eapply yields_bind; [apply (yields_collect _ _ _ (fun c => word (c_Name c)) Hc)|].
  - intros rc Hn. unfold resolveCase. do 3 (apply yields_then; intros ?). by apply yields_ret.
  - intros cs Hcs. eapply yields_bind; [by apply IH|]. intros rest Hr. apply yields_ret. by constructor.
Qed.

Lemma runTypes_named f : raw_named f -> yields (runTypes f) (fun r => hs_named r.2.1.1.1 /\ ss_named r.2.1.1.2 /\ us_named r.2.1.2).
Proof.
  intros [R0 R1 R2 R3 R4]. unfold runTypes. do 4 (apply yields_then; intros ?). apply yields_then; intros [cts consts].
  eapply (yields_bind _ _ (fun r => hs_named r.1.1.1 /\ ss_named r.1.1.2 /\ us_named r.1.2)).
  { unfold declareTypes. eapply yields_bind; [by apply declareHandles_named|]. intros [hs t1] H1. eapply yields_bind; [by apply declareStructs_named|]. intros [ss t2] H2.
    eapply yields_bind; [by apply declareUnions_named|]. intros [us t3] H3. by apply yields_ret. }
  intros [[[hs ss] us] types] (H1 & H2 & H3). cbn [fst snd] in *.
  eapply (yields_bind _ _ hs_named); [unfold resolveHandleParents; eapply yields_bind; [by apply parents_named|]; intros; by apply breakCycles_named|]. intros hs' H1'.
  eapply (yields_bind _ _ (fun r => ss_named r.1 /\ us_named r.2)).
  { unfold resolveMembers. eapply yields_bind; [by apply structMembers_named|]. intros ss' H2'. eapply yields_bind; [by apply unionCases_named|]. intros us' H3'. by apply yields_ret. }
  intros [ss' us'] [H2' H3']. do 2 (apply yields_then; intros ?). by apply yields_ret.
Qed.

Lemma runFuncs_named f consts types hs ss us : raw_named f -> hs_named hs ->
  yields (runFuncs f consts types hs ss us) (fun r => Forall fc_named r.1.1 /\ hs_named r.2).
Proof.
  intros [R0 R1 R2 R3 R4] Hh. unfold runFuncs. eapply yields_bind; [by apply declareFuncs_named|]. intros [fcs funcs] H1.
  eapply yields_bind; [by apply resolveDestroy_named|]. intros [hs' fcs'] [H2 H3]. eapply yields_bind; [apply (yields_collect _ _ _ fc_named H3); intros; by apply resolveError_named|].
  intros fcs'' H4. apply yields_then; intros _. by apply yields_ret.
Qed.

(** The names of an interface. *)
Record spec_named (s : Spec) : Prop := mkSpecNamed {
  sn_service : word (sp_Service s);
  sn_handles : hs_named (sp_Handles s);
  sn_structs : ss_named (sp_Structs s);
  sn_unions : us_named (sp_Unions s);
  sn_funcs : Forall func_named (sp_Funcs s)
}.

Lemma yields_withDeferred {A} (c : C A) (Q : A -> Prop) : yields c Q -> yields (withDeferred c) (fun r => Q r.1).
Proof. intros H m. specialize (H m). unfold withDeferred. by destruct (c m) as [[a o] m1]. Qed.

Lemma run_named (strip : bytes) f : raw_named f -> yields (run strip f) spec_named.
Proof.
  intros Hf. unfold run.
  eapply (yields_bind _ _ (fun r => let '(x, _) := r in let '(_, (hs, ss, us, _), (fcs, _, hs')) := x in ss_named ss /\ us_named us /\ Forall fc_named fcs /\ hs_named hs')).
  { eapply yields_bind; [apply yields_withDeferred|].
    - eapply yields_bind; [by apply runTypes_named|]. intros [[ser cc] [[[hs ss] us] types]] (H1 & H2 & H3). cbn [fst snd] in *.
      eapply (yields_bind _ _ (fun r => Forall fc_named r.1.1 /\ hs_named r.2)); [by apply runFuncs_named|]. intros [[fcs funcs] hs'] [H4 H5].
      apply (yields_ret _ (fun x => let '(_, (_, ss, us, _), (fcs, _, hs')) := x in ss_named ss /\ us_named us /\ Forall fc_named fcs /\ hs_named hs')). done.
    - intros [[[[ser cc] [[[hs ss] us] types]] [[fcs funcs] hs']] ds] H. by apply yields_ret. }
  intros [[[[ser [cts consts]] [[[hs ss] us] types]] [[fcs funcs] hs']] ds] (H1 & H2 & H3 & H4).
  apply yields_then; intros _. eapply yields_bind; [apply (yields_collect _ _ _ fc_named H3); intros; by apply finish_named|]. intros fcs' H3'.
  eapply (yields_bind _ _ (fun r => Forall func_named r.1)).
  { unfold assignOpcodes. pose proof (opcodes_named fcs' H3' 0 0) as Ho. destruct (opcodes 0 0 fcs') as [fs w]. apply yields_then; intros _. by apply yields_ret. }
  intros [fs w] Hfs. eapply yields_bind; [unfold checkGoNames; do 4 (apply yields_then; intros ?); by apply goFuncs_named|]. intros fs' Hfs'. apply yields_ret.
  constructor; try done. apply Hf.
Qed.

Lemma Parse_named strip src s : Parse strip src = Ok s -> spec_named s.
Proof.
  unfold Parse. destruct (lex src) as [toks|] eqn:El; [|done]. destruct (parseFile toks) as [[raw sink]|[]] eqn:Ep; [|done].
  pose proof (run_named strip raw) as H. destruct (run strip raw empty_memo) as [[spec o] m] eqn:Er. destruct (Nat.eqb_spec (length (sink ++ o_diags o)) 0) as [E|]; [|done]. intros [= <-].
  apply nil_length_inv, app_eq_nil in E as [-> _]. specialize (H (parse_named _ _ _ El Ep) empty_memo). by rewrite Er in H.
Qed.
