(* ===== verification/IdlCanon.v ===== *)
(** * IdlCanon: the canonical text of an interface

    Models canon.go of bindgen/idl and the String methods of model.go it uses,
    and shows that the text identifies the interface: two accepted files have the
    same canonical text exactly if they declare the same interface, in whatever
    order, layout and spelling. *)
From stdpp Require Import sorting.
From S2P Require Import Prelude IdlTypes IdlSizes IdlModel IdlPlan IdlLex IdlParse IdlCheck IdlCycles IdlFunc IdlSpec IdlSound IdlRules IdlAccept IdlNames.

(** ** Text *)

Fixpoint decimal_loop (fuel : nat) (n : Z) (acc : bytes) : bytes :=
  match fuel with
  | O => acc
  | S fuel => let acc := 48 + n mod 10 :: acc in if n <? 10 then acc else decimal_loop fuel (n / 10) acc
  end.

(** [strconv.FormatUint] and [FormatInt] in base 10; a number has fewer digits
    than bits. *)
Definition FormatUint (n : Z) : bytes := decimal_loop (S (Z.to_nat (Z.log2 n))) n [].
Definition FormatInt (n : Z) : bytes := if n <? 0 then 45 :: FormatUint (- n) else FormatUint n.

(** [strings.Join] with a separator of one byte. *)
Fixpoint join (sep : Z) (l : list bytes) : bytes :=
  match l with [] => [] | [x] => x | x :: l => x ++ sep :: join sep l end.

Definition Dir_String (d : Dir) : bytes := match d with DirOut => str "out" | DirInOut => str "inout" | DirIn => str "in" end.

(** The kinds that can be written as they are. *)
Definition Kind_String (k : Kind) : bytes :=
  match k with
  | KBool => str "bool" | KI8 => str "i8" | KI16 => str "i16" | KI32 => str "i32" | KI64 => str "i64"
  | KU8 => str "u8" | KU16 => str "u16" | KU32 => str "u32" | KU64 => str "u64" | KSize => str "size"
  | KF32 => str "f32" | KF64 => str "f64" | KStr => str "str" | KBytes => str "bytes"
  | KStruct => str "struct" | KUnion => str "union" | KHandle => str "handle" | KFixedArray | KArray => str "array"
  end.

Definition bound_text (mx : Z) : bytes := if 0 <? mx then str "<=" ++ FormatInt mx else [].

(** [Type.String]. *)
Fixpoint Type_String (t : Ty) : bytes :=
  match t with
  | StructTy x _ | UnionTy x _ | HandleTy x _ => x
  | FixedArray e len => Type_String e ++ 91 :: FormatInt len ++ [93]
  | Array e mx => Type_String e ++ str "[]" ++ bound_text mx
  | Str mx => Kind_String KStr ++ bound_text mx
  | Bytes mx => Kind_String KBytes ++ bound_text mx
  | Scalar k => Kind_String k
  end.

Definition ErrKind_String (k : ErrKind) : bytes :=
  match k with ErrStatus => str "status" | ErrNull => str "null" | ErrPredicate => str "predicate" | ErrNone => str "none" end.

Definition filled (x : bytes) : bool := negb (bool_decide (x = [])).

(** [Attrs.canonical]: the parts, and the text with a colon before each. *)
Definition attr_parts (a : Attrs) : list bytes :=
  (if filled (LenOf a) then [str "len_of=" ++ LenOf a] else []) ++ (if filled (OffsetIn a) then [str "offset_in=" ++ OffsetIn a] else []) ++
  (if Nullable a then [str "nullable"] else []) ++ (if Borrowed a then [str "borrowed"] else []).

Definition attrs_canonical (a : Attrs) : bytes := attr_parts a ≫= (fun p => 58 :: p).

(** ** Sorting *)

Section SortBy.
Context {A : Type} (lt : A -> A -> bool).

Fixpoint insert_by (x : A) (l : list A) : list A :=
  match l with [] => [x] | y :: l => if lt y x then y :: insert_by x l else x :: y :: l end.

(** [sort.Slice], for keys that differ, where the result is determined. *)
Definition sort_by (l : list A) : list A := foldr insert_by [] l.
End SortBy.

(** ** The lines *)

Section Canonical.
Context (s : Spec).

Definition parent_name (h : Handle) : option bytes := h_Parent h ≫= (fun p => h_Name <$> sp_Handles s !! p).
Definition destroy_name (h : Handle) : bytes := default [] (h_Destroy h ≫= (fun k => f_Name <$> sp_Funcs s !! k)).

Definition handle_line (h : Handle) : list bytes :=
  [str "handle"; h_Name h; str "parent=" ++ default (str "-") (parent_name h); str "destroy=" ++ destroy_name h;
   str "retain=" ++ (if h_RetainOnFail h then str "1" else str "0")].

Definition member_text (m : Member) : bytes := mb_Name m ++ 58 :: Type_String (mb_Type m).
Definition struct_line (t : Struct) : list bytes := str "struct" :: s_Name t :: map member_text (s_Members t).

Definition case_text (c : Case) : bytes :=
  FormatUint (c_Tag c) ++ 58 :: c_Name c ++ 58 :: default (str "-") (Type_String <$> c_Type c).
Definition union_line (u : Union) : list bytes :=
  str "union" :: u_Name u :: map case_text (sort_by (fun a b => c_Tag a <? c_Tag b) (u_Cases u)).

(** Structs and unions together, by name. *)
Definition type_lines : list (bytes * list bytes) :=
  sort_by (fun a b => bytes_lt a.1 b.1)
    (map (fun t => (s_Name t, struct_line t)) (sp_Structs s) ++ map (fun u => (u_Name u, union_line u)) (sp_Unions s)).

Definition param_text (p : Param) : bytes :=
  str "p=" ++ Dir_String (p_Dir p) ++ 58 :: p_Name p ++ 58 :: Type_String (p_Type p) ++ attrs_canonical (p_Attrs p).

Definition ret_text (f : Func) : bytes :=
  str "ret=" ++ match f_Ret f with Some t => Type_String t ++ attrs_canonical (f_RetAttrs f) | None => str "-" end.

Definition error_texts (f : Func) : list bytes :=
  let '(k, ok, det) :=
    match f_Error f with
    | None => (str "none", str "-", str "0")
    | Some e => (ErrKind_String (e_Kind e),
                 if bool_decide (e_Kind e = ErrStatus) then join 44 (map FormatInt (e_Ok e)) else str "-",
                 if bool_decide (is_Some (e_Detail e)) then str "1" else str "0")
    end in
  [str "err=" ++ k; str "ok=" ++ ok; str "detail=" ++ det;
   str "max_out=" ++ (if 0 <? f_MaxOut f then FormatInt (f_MaxOut f) else str "-")].

Definition fn_line (f : Func) : list bytes :=
  str "fn" :: FormatInt (f_Opcode f) :: f_Name f :: map param_text (f_Params f) ++ ret_text f :: error_texts f.

Definition wire_funcs : list Func := omap (fun k => sp_Funcs s !! k) (sp_Wire s).

Definition canonical_lines : list (list bytes) :=
  [str "HQQ-IDL"; str "1"] :: [str "service"; sp_Service s] ::
  map handle_line (sort_by (fun a b => bytes_lt (h_Name a) (h_Name b)) (sp_Handles s)) ++ (type_lines).*2 ++ map fn_line wire_funcs.

(** [Canonical]. *)
Definition Canonical : bytes := canonical_lines ≫= (fun l => join 32 l ++ [10]).
End Canonical.

(** ** The interface a file declares *)

(** A type by the names it mentions. *)
Inductive nty := NScalar (k : Kind) | NStr (mx : Z) | NBytes (mx : Z) | NNamed (x : bytes) | NFixed (e : nty) (len : Z) | NArray (e : nty) (mx : Z).

Fixpoint nty_of (t : Ty) : nty :=
  match t with
  | Scalar k => NScalar k
  | Str mx => NStr mx
  | Bytes mx => NBytes mx
  | StructTy x _ | UnionTy x _ | HandleTy x _ => NNamed x
  | FixedArray e len => NFixed (nty_of e) len
  | Array e mx => NArray (nty_of e) mx
  end.

(** Members in order; cases by their tags. *)
Inductive itype := IStruct (ms : list (bytes * nty)) | IUnion (cs : gmap Z (bytes * option nty)).

Record iattrs := mkIattrs { ia_LenOf : bytes; ia_OffsetIn : bytes; ia_Nullable : bool; ia_Borrowed : bool }.

Record ifunc := mkIfunc {
  if_Opcode : Z; if_Name : bytes;
  if_Params : list (Dir * bytes * nty * iattrs);
  if_Ret : option (nty * iattrs);
  if_Error : ErrKind; if_Ok : option (list Z); if_Detail : bool; if_MaxOut : Z
}.

(** What a client and a server must agree on: handles and types by name, the
    functions on the wire in order. *)
Record iface := mkIface {
  if_Service : bytes;
  if_Handles : gmap bytes (option bytes * bytes * bool);
  if_Types : gmap bytes itype;
  if_Funcs : list ifunc
}.

Definition iattrs_of (a : Attrs) : iattrs := mkIattrs (LenOf a) (OffsetIn a) (Nullable a) (Borrowed a).

Definition ihandle (s : Spec) (h : Handle) : bytes * (option bytes * bytes * bool) := (h_Name h, (parent_name s h, destroy_name s h, h_RetainOnFail h)).
Definition imember (m : Member) : bytes * nty := (mb_Name m, nty_of (mb_Type m)).
Definition icase (c : Case) : Z * (bytes * option nty) := (c_Tag c, (c_Name c, nty_of <$> c_Type c)).
Definition istruct (t : Struct) : bytes * itype := (s_Name t, IStruct (map imember (s_Members t))).
Definition iunion (u : Union) : bytes * itype := (u_Name u, IUnion (list_to_map (map icase (u_Cases u)))).
Definition iparam (p : Param) : Dir * bytes * nty * iattrs := (p_Dir p, p_Name p, nty_of (p_Type p), iattrs_of (p_Attrs p)).

Definition ifunc_of (f : Func) : ifunc :=
  mkIfunc (f_Opcode f) (f_Name f) (map iparam (f_Params f)) ((fun t => (nty_of t, iattrs_of (f_RetAttrs f))) <$> f_Ret f)
    (default ErrNone (e_Kind <$> f_Error f)) (e ← f_Error f; if bool_decide (e_Kind e = ErrStatus) then Some (e_Ok e) else None)
    (bool_decide (is_Some (f_Error f ≫= e_Detail))) (f_MaxOut f).

Definition iface_of (s : Spec) : iface :=
  mkIface (sp_Service s) (list_to_map (map (ihandle s) (sp_Handles s)))
    (list_to_map (map istruct (sp_Structs s) ++ map iunion (sp_Unions s))) (map ifunc_of (wire_funcs s)).

Example canonical_sample : Canonical sample_spec = str
"HQQ-IDL 1
service s
handle Db parent=- destroy=db_close retain=0
handle Stmt parent=Db destroy=stmt_free retain=0
struct Pt x:i16 y:u8
struct Rec id:u64 name:str<=32 pts:Pt[4]
union Val 1:I:i64 2:S:str 3:Nil:-
fn 1 db_close p=in:db:Db ret=i32 err=status ok=0 detail=0 max_out=-
fn 2 stmt_free p=in:s:Stmt ret=- err=none ok=- detail=0 max_out=-
fn 3 prep p=in:db:Db p=out:stmt:Stmt ret=i32 err=status ok=-7,0 detail=0 max_out=-
fn 4 read p=in:db:Db p=out:buf:bytes<=64 p=in:cap:u32:len_of=buf p=out:n:u16 ret=i32 err=none ok=- detail=0 max_out=-
fn 5 calc p=in:x:i32 ret=i32 err=predicate ok=- detail=0 max_out=-
fn 6 get p=in:db:Db ret=Val err=none ok=- detail=0 max_out=4096
".
Proof. vm_compute. reflexivity. Qed.

(** ** Separators *)

(** A prefix all of whose elements satisfy [P], and the rest, which does not
    start with such an element, are determined. *)
Lemma span_unique {A} (P : A -> Prop) a : forall a' r r', Forall P a -> Forall P a' ->
  (forall x, head r = Some x -> ~ P x) -> (forall x, head r' = Some x -> ~ P x) -> a ++ r = a' ++ r' -> a = a' /\ r = r'.
Proof.
  induction a as [|x a IH]; intros [|y a'] r r' Ha Ha' Hr Hr' E; simpl in *.
  - done.
  - subst r. inversion Ha'; subst. by destruct (Hr y eq_refl).
  - subst r'. inversion Ha; subst. by destruct (Hr' x eq_refl).
  - injection E as <- E. inversion Ha; subst. inversion Ha'; subst. by destruct (IH a' r r') as [-> ->].
Qed.

(** Text without a byte. *)
Definition without (c : Z) (x : bytes) : Prop := Forall (fun b => b <> c) x.

Lemma end_unique c a a' r r' : without c a -> without c a' -> (r = [] \/ head r = Some c) -> (r' = [] \/ head r' = Some c) -> a ++ r = a' ++ r' -> a = a' /\ r = r'.
Proof.
  intros Ha Ha' Hr Hr' E. apply (span_unique (fun b => b <> c)); [done|done| | |done].
  - destruct Hr as [->|Hr]; [done|]. rewrite Hr. by intros x [= <-] [].
  - destruct Hr' as [->|Hr']; [done|]. rewrite Hr'. by intros x [= <-] [].
Qed.

Lemma sep_unique c a a' r r' : without c a -> without c a' -> a ++ c :: r = a' ++ c :: r' -> a = a' /\ r = r'.
Proof. intros Ha Ha' E. destruct (end_unique c a a' (c :: r) (c :: r') Ha Ha') as [-> [= ->]]; auto. Qed.

Lemma join_cons c x l : join c (x :: l) = x ++ match l with [] => [] | _ => c :: join c l end.
Proof. destruct l; simpl; [by rewrite app_nil_r|done]. Qed.

Lemma join_inj c l : forall l', l <> [] -> l' <> [] -> Forall (without c) l -> Forall (without c) l' -> join c l = join c l' -> l = l'.
Proof.
  induction l as [|x l IH]; intros [|y l'] H1 H2 Hl Hl' E; try done. rewrite !join_cons in E. inversion Hl; subst. inversion Hl'; subst.
  destruct (end_unique c x y (match l with [] => [] | _ => c :: join c l end) (match l' with [] => [] | _ => c :: join c l' end)) as [-> Er];
    [done|done|destruct l; [by left|by right]|destruct l'; [by left|by right]|done|].
  destruct l as [|x2 l], l' as [|y2 l']; try done. injection Er as Er. f_equal. by apply IH.
Qed.

(** A list of texts with a byte before each. *)
Lemma before_inj c (l : list bytes) : forall l' : list bytes, Forall (without c) l -> Forall (without c) l' ->
  (l ≫= (fun p => c :: p)) = (l' ≫= (fun p => c :: p)) -> l = l'.
Proof.
  assert (Hh : forall k : list bytes, let r := k ≫= (fun p => c :: p) in r = [] \/ head r = Some c) by (intros [|]; [by left|by right]).
  induction l as [|x l IH]; intros [|y l'] Hl Hl' E; try done. csimpl in E. injection E as E. inversion Hl; subst. inversion Hl'; subst.
  destruct (end_unique c x y _ _ ltac:(done) ltac:(done) (Hh l) (Hh l') E) as [-> Er]. f_equal. by apply IH.
Qed.

(** Lines end with a byte. *)
Lemma lines_inj (l : list bytes) : forall l' : list bytes, Forall (without 10) l -> Forall (without 10) l' ->
  (l ≫= (fun p => p ++ [10])) = (l' ≫= (fun p => p ++ [10])) -> l = l'.
Proof.
  induction l as [|x l IH]; intros [|y l'] Hl Hl' E; try done; csimpl in E; rewrite <- ?app_assoc in E.
  - by destruct y.
  - by destruct x.
  - inversion Hl; subst. inversion Hl'; subst. destruct (sep_unique 10 x y _ _ ltac:(done) ltac:(done) E) as [-> Er]. f_equal. by apply IH.
Qed.

(** ** Numbers *)

Lemma decimal_loop_digits fuel : forall n acc, 0 <= n -> Forall (fun c => isDigit c = true) acc -> Forall (fun c => isDigit c = true) (decimal_loop fuel n acc).
Proof.
  induction fuel as [|fuel IH]; intros n acc Hn Ha; simpl; [done|].
  assert (Hd : Forall (fun c => isDigit c = true) (48 + n mod 10 :: acc)).
  { constructor; [|done]. pose proof (Z.mod_pos_bound n 10). unfold isDigit, between. apply andb_true_iff. split; apply Z.leb_le; lia. }
  destruct (n <? 10); [done|]. apply IH; [|done]. apply Z.div_pos; lia.
Qed.

Definition value (ds : bytes) : Z := fold_left (fun v c => v * 10 + (c - 48)) ds 0.

Lemma value_app a b : value (a ++ b) = fold_left (fun v c => v * 10 + (c - 48)) b (value a).
Proof. unfold value. by rewrite fold_left_app. Qed.

Lemma decimal_loop_value fuel : forall n acc, 0 <= n < 2 ^ Z.of_nat fuel -> (0 < fuel)%nat ->
  exists ds, decimal_loop fuel n acc = ds ++ acc /\ value ds = n /\ ds <> [].
Proof.
  induction fuel as [|fuel IH]; intros n acc Hn Hf; [lia|]. cbn [decimal_loop]. pose proof (Z.div_mod n 10 ltac:(lia)) as Hdm. pose proof (Z.mod_pos_bound n 10 ltac:(lia)).
  destruct (Z.ltb_spec n 10).
  - exists [48 + n mod 10]. split; [done|]. split; [|done]. unfold value. simpl. rewrite Z.mod_small by lia. lia.
  - destruct (IH (n / 10) (48 + n mod 10 :: acc)) as (ds & -> & Hv & Hne).
    + rewrite Nat2Z.inj_succ, Z.pow_succ_r in Hn by lia. split; [apply Z.div_pos; lia|]. apply Z.div_lt_upper_bound; lia.
    + destruct fuel; [simpl in Hn; lia|lia].
    + exists (ds ++ [48 + n mod 10]). split; [by rewrite <- app_assoc|]. split; [|by destruct ds]. rewrite value_app, Hv. simpl. lia.
Qed.

Lemma FormatUint_spec n : 0 <= n -> value (FormatUint n) = n /\ FormatUint n <> [] /\ Forall (fun c => isDigit c = true) (FormatUint n).
Proof.
  intros Hn. unfold FormatUint. destruct (decimal_loop_value (S (Z.to_nat (Z.log2 n))) n []) as (ds & E & Hv & Hne).
  - rewrite Nat2Z.inj_succ, Z2Nat.id by apply Z.log2_nonneg. destruct (Z.eq_dec n 0) as [->|]; [simpl; lia|]. pose proof (Z.log2_spec n). lia.
  - lia.
  - split; [by rewrite E, app_nil_r|]. split; [by rewrite E, app_nil_r|]. by apply decimal_loop_digits.
Qed.

Lemma FormatUint_inj a b : 0 <= a -> 0 <= b -> FormatUint a = FormatUint b -> a = b.
Proof. intros Ha Hb E. rewrite <- (proj1 (FormatUint_spec a Ha)), <- (proj1 (FormatUint_spec b Hb)). by rewrite E. Qed.

Lemma FormatInt_inj a b : FormatInt a = FormatInt b -> a = b.
Proof.
  assert (Hh : forall n r, 0 <= n -> FormatUint n <> 45 :: r).
  { intros n r Hn E. destruct (FormatUint_spec n Hn) as (_ & _ & Hd). rewrite E in Hd. inversion Hd. done. }
  unfold FormatInt. destruct (Z.ltb_spec a 0), (Z.ltb_spec b 0); intros E.
  - injection E as E. apply FormatUint_inj in E; lia.
  - symmetry in E. by apply Hh in E.
  - by apply Hh in E.
  - by apply FormatUint_inj.
Qed.

(** ** Names and types *)

(** The bytes of the canonical text that are in no name. *)
Definition separators : list Z := [10; 32; 44; 45; 58; 60; 61; 91; 93].

Lemma separator_not_part c : c ∈ separators -> isIdentPart c = false.
Proof. unfold separators. rewrite !elem_of_cons, elem_of_nil. intros H. destruct_or! H; subst; done. Qed.

Lemma clean_without c x : c ∈ separators -> clean x -> without c x.
Proof. intros Hc Hx. eapply Forall_impl; [|exact Hx]. intros b Hb ->. by rewrite separator_not_part in Hb. Qed.

Lemma digits_clean x : Forall (fun c => isDigit c = true) x -> clean x.
Proof. intros Hx. eapply Forall_impl; [|exact Hx]. intros b Hb. simpl. unfold isIdentPart. by rewrite Hb, orb_true_r. Qed.

Lemma FormatUint_clean n : 0 <= n -> clean (FormatUint n).
Proof. intros Hn. apply digits_clean, (FormatUint_spec n Hn). Qed.

Lemma FormatInt_pos n : 0 <= n -> FormatInt n = FormatUint n.
Proof. intros Hn. unfold FormatInt. by rewrite (proj2 (Z.ltb_ge n 0) Hn). Qed.

(** The types of an accepted interface, as text. *)
Definition leaf_ok (t : Ty) : Prop :=
  match t with
  | Scalar k => IsScalar k = true
  | Str mx | Bytes mx => 0 <= mx
  | StructTy x _ | UnionTy x _ | HandleTy x _ => word x
  | FixedArray _ _ | Array _ _ => False
  end.

Definition text_ok (t : Ty) : Prop :=
  match t with FixedArray e len => leaf_ok e /\ 1 <= len | Array e mx => leaf_ok e /\ 0 <= mx | _ => leaf_ok t end.

(** A type that is no array: its word and its bound. *)
Definition leaf_word (t : Ty) : bytes :=
  match t with StructTy x _ | UnionTy x _ | HandleTy x _ => x | _ => Kind_String (kind t) end.

Lemma leaf_split t : leaf_ok t -> Type_String t = leaf_word t ++ bound_text (Max t) /\ clean (leaf_word t) /\ 0 <= Max t.
Proof.
  destruct t as [k|mx|mx|x i|x i|x i|e n|e mx]; cbn [leaf_ok Type_String leaf_word Max kind]; intros H; try done; (split; [|split; [|lia]]).
  all: try (by rewrite app_nil_r). all: try done. all: try by apply word_clean.
  - destruct k; try done; by repeat constructor.
  - by repeat constructor.
  - by repeat constructor.
Qed.

Lemma bound_unique b b' r r' : 0 <= b -> 0 <= b' -> (r = [] \/ head r = Some 91) -> (r' = [] \/ head r' = Some 91) ->
  bound_text b ++ r = bound_text b' ++ r' -> b = b' /\ r = r'.
Proof.
  intros Hb Hb' Hr Hr'. unfold bound_text. destruct (Z.ltb_spec 0 b), (Z.ltb_spec 0 b'); cbn [app].
  - intros E. injection E as E. change (FormatInt b ++ r = FormatInt b' ++ r') in E. rewrite !FormatInt_pos in E by lia.
    destruct (span_unique (fun c => isDigit c = true) (FormatUint b) (FormatUint b') r r') as [Ed ->].
    + apply FormatUint_spec; lia.
    + apply FormatUint_spec; lia.
    + destruct Hr as [->|Hr]; [done|]. rewrite Hr. by intros x [= <-].
    + destruct Hr' as [->|Hr']; [done|]. rewrite Hr'. by intros x [= <-].
    + done.
    + split; [|done]. by apply FormatUint_inj.
  - intros <-. exfalso. simpl in Hr'. destruct Hr' as [|[=]]; done.
  - intros ->. exfalso. simpl in Hr. destruct Hr as [|[=]]; done.
  - intros ->. split; [lia|done].
Qed.

Lemma Kind_String_keyword k : IsScalar k = true \/ k = KStr \/ k = KBytes -> Kind_String k ∈ keywords.
Proof. intros H. apply (bool_decide_unpack _). destruct H as [H|[-> | ->]]; [|vm_compute; done..]. by destruct k; try discriminate H; vm_compute. Qed.

Lemma Kind_String_inj k k' : Kind_String k = Kind_String k' -> k <> KFixedArray -> k <> KArray -> k' <> KFixedArray -> k' <> KArray -> k = k'.
Proof. intros E H1 H2 H3 H4. destruct k; try done; destruct k'; try done; discriminate E. Qed.

Lemma leaf_kind t : leaf_ok t -> (exists x, word x /\ leaf_word t = x /\ nty_of t = NNamed x) \/
  (IsScalar (kind t) = true \/ kind t = KStr \/ kind t = KBytes) /\ leaf_word t = Kind_String (kind t) /\
  nty_of t = match kind t with KStr => NStr (Max t) | KBytes => NBytes (Max t) | k => NScalar k end.
Proof. destruct t as [k|mx|mx|x i|x i|x i|e n|e mx]; simpl; intros H; try done; try (left; by eauto); right; split_and!; auto. by destruct k. Qed.

Lemma leaf_unique t t' r r' : leaf_ok t -> leaf_ok t' -> (r = [] \/ head r = Some 91) -> (r' = [] \/ head r' = Some 91) ->
  Type_String t ++ r = Type_String t' ++ r' -> nty_of t = nty_of t' /\ r = r'.
Proof.
  intros Ht Ht' Hr Hr' E. destruct (leaf_split t Ht) as (E1 & C1 & M1), (leaf_split t' Ht') as (E2 & C2 & M2). rewrite E1, E2, <- !app_assoc in E.
  assert (Hh : forall b r, 0 <= b -> (r = [] \/ head r = Some 91) -> forall x, head (bound_text b ++ r) = Some x -> ~ isIdentPart x = true).
  { intros b r0 Hb H0 x. unfold bound_text. destruct (0 <? b); simpl; [by intros [= <-]|]. destruct H0 as [->|H0]; [done|]. rewrite H0. by intros [= <-]. }
  destruct (span_unique (fun c => isIdentPart c = true) (leaf_word t) (leaf_word t') _ _ C1 C2 (Hh _ _ M1 Hr) (Hh _ _ M2 Hr') E) as [Ew Es].
  destruct (bound_unique _ _ _ _ M1 M2 Hr Hr' Es) as [Em ->]. split; [|done].
  destruct (leaf_kind t Ht) as [(x & Hx & Hw & ->)|(Hk & Hw & ->)], (leaf_kind t' Ht') as [(x' & Hx' & Hw' & ->)|(Hk' & Hw' & ->)].
  - congruence.
  - exfalso. apply (proj2 Hx). rewrite <- Hw, Ew, Hw'. by apply Kind_String_keyword.
  - exfalso. apply (proj2 Hx'). rewrite <- Hw', <- Ew, Hw. by apply Kind_String_keyword.
  - assert (Ek : kind t = kind t').
    { apply Kind_String_inj; [congruence|..]; intros E0; rewrite E0 in *; simpl in *; naive_solver. }
    rewrite Ek, Em. done.
Qed.

(** What follows the word and the bound of a type that is no array. *)
Inductive suffix := SNone | SFixed (len : Z) | SArray (mx : Z).

Definition suffix_text (x : suffix) : bytes :=
  match x with SNone => [] | SFixed len => 91 :: FormatInt len ++ [93] | SArray mx => 91 :: 93 :: bound_text mx end.
Definition suffix_ok (x : suffix) : Prop := match x with SNone => True | SFixed len => 1 <= len | SArray mx => 0 <= mx end.
Definition suffix_nty (e : nty) (x : suffix) : nty := match x with SNone => e | SFixed len => NFixed e len | SArray mx => NArray e mx end.

Lemma suffix_head x : suffix_text x = [] \/ head (suffix_text x) = Some 91.
Proof. destruct x; auto. Qed.

Lemma FormatInt_head n : 0 <= n -> exists c r, FormatInt n = c :: r /\ isDigit c = true.
Proof.
  intros Hn. rewrite FormatInt_pos by done. destruct (FormatUint_spec n Hn) as (_ & Hne & Hd). destruct (FormatUint n) as [|c r]; [done|].
  inversion Hd. eauto.
Qed.

Lemma suffix_text_inj x y : suffix_ok x -> suffix_ok y -> suffix_text x = suffix_text y -> x = y.
Proof.
  assert (Hd : forall n r q, 1 <= n -> FormatInt n ++ r = 93 :: q -> False).
  { intros n r q Hn E. destruct (FormatInt_head n ltac:(lia)) as (c & r' & E' & Hc). rewrite E' in E. injection E as -> _. done. }
  destruct x as [|n|mx], y as [|n'|mx']; simpl; intros Hx Hy E; try done; injection E as E.
  - apply app_inj_tail in E as [E _]. apply FormatInt_inj in E. congruence.
  - by apply Hd in E.
  - symmetry in E. by apply Hd in E.
  - destruct (bound_unique mx mx' [] []) as [-> _]; auto. by rewrite !app_nil_r.
Qed.

Lemma text_view t : text_ok t -> exists e x, leaf_ok e /\ suffix_ok x /\ Type_String t = Type_String e ++ suffix_text x /\ nty_of t = suffix_nty (nty_of e) x.
Proof.
  destruct t as [k|mx|mx|x i|x i|x i|e n|e mx]; simpl; intros H.
  7: destruct H; by exists e, (SFixed n). 7: destruct H; by exists e, (SArray mx).
  1: exists (Scalar k), SNone. 2: exists (Str mx), SNone. 3: exists (Bytes mx), SNone. 4: exists (StructTy x i), SNone. 5: exists (UnionTy x i), SNone.
  6: exists (HandleTy x i), SNone.
  all: simpl; by rewrite app_nil_r.
Qed.

Lemma Type_String_inj t t' : text_ok t -> text_ok t' -> Type_String t = Type_String t' -> nty_of t = nty_of t'.
Proof.
  intros (e & x & He & Hx & E & ->)%text_view (e' & x' & He' & Hx' & E' & ->)%text_view Et. rewrite E, E' in Et.
  destruct (leaf_unique e e' _ _ He He' (suffix_head x) (suffix_head x') Et) as [-> Es]. by apply suffix_text_inj in Es as ->.
Qed.

Lemma Type_String_eq t : forall t', nty_of t = nty_of t' -> Type_String t = Type_String t'.
Proof. induction t; intros []; simpl; intros [=]; subst; try done; f_equal; auto. Qed.

(** The text of a type has no separators but those of types. *)
Lemma Type_String_without c t : c ∈ separators -> c ∉ [60; 61; 91; 93] -> text_ok t -> without c (Type_String t).
Proof.
  intros Hc Hn Ht.
  assert (Hnum : forall n, 0 <= n -> without c (FormatInt n)) by (intros n H; rewrite FormatInt_pos by done; by apply clean_without, FormatUint_clean).
  assert (Hb : forall mx, 0 <= mx -> without c (bound_text mx)).
  { intros mx H. unfold bound_text. destruct (0 <? mx); [|constructor]. apply Forall_app. split; [|by apply Hnum]. repeat constructor; intros <-; set_solver. }
  destruct (text_view t Ht) as (e & x & He & Hx & -> & _). destruct (leaf_split e He) as (-> & Hw & Hm).
  apply Forall_app. split; [apply Forall_app; split; [by apply clean_without|by apply Hb]|].
  destruct x as [|n|mx]; simpl in *; [constructor| |].
  - constructor; [intros <-; set_solver|]. apply Forall_app. split; [by apply Hnum; lia|]. repeat constructor. intros <-. set_solver.
  - constructor; [intros <-; set_solver|]. constructor; [intros <-; set_solver|]. by apply Hb.
Qed.

(** ** Functions *)

Definition param_ok (p : Param) : Prop := word (p_Name p) /\ text_ok (p_Type p) /\ attrs_ok (p_Attrs p).
Definition func_text_ok (f : Func) : Prop :=
  word (f_Name f) /\ Forall param_ok (f_Params f) /\ (forall t, f_Ret f = Some t -> text_ok t /\ attrs_ok (f_RetAttrs f)) /\
  0 <= f_Opcode f /\ 0 <= f_MaxOut f /\ forall e, f_Error f = Some e -> e_Kind e <> ErrNone /\ (e_Kind e = ErrStatus -> e_Ok e <> []).

Lemma seg_unique {A} (P : A -> Prop) a a' r r' : Forall P a -> Forall P a' -> Forall (fun x => ~ P x) r -> Forall (fun x => ~ P x) r' ->
  a ++ r = a' ++ r' -> a = a' /\ r = r'.
Proof.
  intros Ha Ha' Hr Hr'. apply (span_unique P); [done|done| |].
  - intros x E. destruct r; [done|]. injection E as ->. by inversion Hr.
  - intros x E. destruct r'; [done|]. injection E as ->. by inversion Hr'.
Qed.

(** A constant without separators. *)
Lemma const_without c x : c ∈ [10; 32; 58] -> bool_decide (Forall (fun b => b ∉ [10; 32; 58]) x) = true -> without c x.
Proof. intros Hc Hx%bool_decide_eq_true. eapply Forall_impl; [|exact Hx]. intros b Hb ->. by apply Hb. Qed.

Lemma sep_in c : c ∈ [10; 32; 58] -> c ∈ separators.
Proof. unfold separators. set_solver. Qed.

Lemma attr_parts_without c a : c ∈ [10; 32; 58] -> attrs_ok a -> Forall (without c) (attr_parts a).
Proof.
  intros Hc [H1 H2]. pose proof (sep_in c Hc) as Hs. unfold attr_parts. apply Forall_app. split; [|apply Forall_app; split; [|apply Forall_app; split]].
  - destruct (filled (LenOf a)); [|constructor]. constructor; [|constructor]. apply Forall_app. split; [by apply const_without|by apply clean_without].
  - destruct (filled (OffsetIn a)); [|constructor]. constructor; [|constructor]. apply Forall_app. split; [by apply const_without|by apply clean_without].
  - destruct (Nullable a); [|constructor]. constructor; [by apply const_without|constructor].
  - destruct (Borrowed a); [|constructor]. constructor; [by apply const_without|constructor].
Qed.

Lemma filled_inv x : filled x = false -> x = [].
Proof. unfold filled. by intros H%negb_false_iff%bool_decide_eq_true. Qed.

Definition starts_with (c : Z) (x : bytes) : Prop := head x = Some c.

Lemma optional_starts (b : bool) c (x : bytes) : head x = Some c -> Forall (starts_with c) (if b then [x] else []).
Proof. intros H. destruct b; by repeat constructor. Qed.

Lemma starts_other c d l : c <> d -> Forall (starts_with c) l -> Forall (fun x => ~ starts_with d x) l.
Proof. intros Hn H. eapply Forall_impl; [|exact H]. unfold starts_with. intros x E E'. congruence. Qed.

Lemma optional_inj (b b' : bool) (x x' : bytes) : (if b then [x] else []) = (if b' then [x'] else []) -> b = b' /\ (b = true -> x = x').
Proof. intros E. destruct b, b'; try discriminate E; (split; [done|]); [|done]. intros _. congruence. Qed.

(** The parts tell each other apart by their first letters. *)
Lemma attr_parts_inj a b : attr_parts a = attr_parts b -> iattrs_of a = iattrs_of b.
Proof.
  assert (H1 : forall a, Forall (starts_with 108) (if filled (LenOf a) then [str "len_of=" ++ LenOf a] else [])) by (intros; by apply optional_starts).
  assert (H2 : forall a, Forall (starts_with 111) (if filled (OffsetIn a) then [str "offset_in=" ++ OffsetIn a] else [])) by (intros; by apply optional_starts).
  assert (H3 : forall a, Forall (starts_with 110) (if Nullable a then [str "nullable"] else [])) by (intros; by apply optional_starts).
  assert (H4 : forall a, Forall (starts_with 98) (if Borrowed a then [str "borrowed"] else [])) by (intros; by apply optional_starts).
  assert (Hopt : forall (x y pre : bytes), (if filled x then [pre ++ x] else []) = (if filled y then [pre ++ y] else []) -> x = y).
  { intros x y pre [E1 E2]%optional_inj. destruct (filled x) eqn:Ex; [by apply app_inv_head in E2|]. symmetry in E1. apply filled_inv in E1, Ex. congruence. }
  unfold attr_parts. intros E.
  apply (seg_unique (starts_with 108)) in E as [E1 E]; [|done|done| |]; [|repeat (apply Forall_app; split); eapply starts_other; eauto; lia..].
  apply (seg_unique (starts_with 111)) in E as [E2 E]; [|done|done| |]; [|repeat (apply Forall_app; split); eapply starts_other; eauto; lia..].
  apply (seg_unique (starts_with 110)) in E as [E3 E4]; [|done|done| |]; [|eapply starts_other; eauto; lia..].
  unfold iattrs_of. apply Hopt in E1, E2. apply optional_inj in E3 as [E3 _], E4 as [E4 _]. congruence.
Qed.

Lemma attrs_canonical_inj a b : attrs_ok a -> attrs_ok b -> attrs_canonical a = attrs_canonical b -> iattrs_of a = iattrs_of b.
Proof. intros Ha Hb E. apply attr_parts_inj. by apply (before_inj 58); [apply attr_parts_without; [set_solver|]..|]. Qed.

Lemma attrs_canonical_eq a b : iattrs_of a = iattrs_of b -> attrs_canonical a = attrs_canonical b.
Proof. intros [=]. unfold attrs_canonical, attr_parts. by repeat match goal with H : _ = _ |- _ => rewrite H; clear H end. Qed.

Lemma attrs_canonical_without c a : c ∈ [10; 32] -> attrs_ok a -> without c (attrs_canonical a).
Proof.
  intros Hc Ha. assert (Hp : Forall (without c) (attr_parts a)) by (apply attr_parts_without; [set_solver|done]). unfold attrs_canonical.
  induction Hp as [|p l Hp _ IH]; csimpl; [constructor|]. constructor; [intros <-; set_solver|]. by apply Forall_app.
Qed.

Lemma attrs_canonical_head a : attrs_canonical a = [] \/ head (attrs_canonical a) = Some 58.
Proof. unfold attrs_canonical. destruct (attr_parts a); csimpl; auto. Qed.

(** A type and its attributes. *)
Lemma typed_inj t t' a a' : text_ok t -> text_ok t' -> attrs_ok a -> attrs_ok a' ->
  Type_String t ++ attrs_canonical a = Type_String t' ++ attrs_canonical a' -> nty_of t = nty_of t' /\ iattrs_of a = iattrs_of a'.
Proof.
  intros Ht Ht' Ha Ha' E. assert (H58 : forall t, text_ok t -> without 58 (Type_String t)) by (intros; apply Type_String_without; [unfold separators; set_solver|set_solver|done]).
  destruct (end_unique 58 _ _ _ _ (H58 t Ht) (H58 t' Ht') (attrs_canonical_head a) (attrs_canonical_head a') E) as [E1 E2].
  split; [by apply Type_String_inj|by apply attrs_canonical_inj].
Qed.

Lemma map_inj_on {A B C} (P : A -> Prop) (f : A -> B) (g : A -> C) : (forall a b, P a -> P b -> f a = f b -> g a = g b) ->
  forall l l', Forall P l -> Forall P l' -> map f l = map f l' -> map g l = map g l'.
Proof.
  intros H. induction l as [|a l IH]; intros [|b l'] Hl Hl' E; simpl in *; try done. injection E as E1 E2. inversion Hl; subst. inversion Hl'; subst.
  f_equal; [by apply H|by apply IH].
Qed.

Lemma Dir_String_inj d d' : Dir_String d = Dir_String d' -> d = d'.
Proof. by destruct d, d'. Qed.

Lemma ErrKind_String_inj k k' : ErrKind_String k = ErrKind_String k' -> k = k'.
Proof. by destruct k, k'. Qed.

Lemma word_without c x : c ∈ [10; 32; 58] -> word x -> without c x.
Proof. intros Hc Hx. apply clean_without; [by apply sep_in|by apply word_clean]. Qed.

Lemma param_text_inj p q : param_ok p -> param_ok q -> param_text p = param_text q -> iparam p = iparam q.
Proof.
  intros (Hn & Ht & Ha) (Hn' & Ht' & Ha') E. unfold param_text in E. apply app_inv_head in E.
  assert (Hd : forall d, without 58 (Dir_String d)) by (intros []; apply const_without; [set_solver|reflexivity|set_solver|reflexivity|set_solver|reflexivity]).
  destruct (sep_unique 58 _ _ _ _ (Hd (p_Dir p)) (Hd (p_Dir q)) E) as [E1 E2]. apply Dir_String_inj in E1.
  destruct (sep_unique 58 _ _ _ _ (word_without 58 _ ltac:(set_solver) Hn) (word_without 58 _ ltac:(set_solver) Hn') E2) as [E3 E4].
  destruct (typed_inj _ _ _ _ Ht Ht' Ha Ha' E4) as [E5 E6]. unfold iparam. congruence.
Qed.

Lemma param_text_eq p q : iparam p = iparam q -> param_text p = param_text q.
Proof. intros [= E1 E2 E3 E4 E5 E6 E7]. unfold param_text. rewrite E1, E2, (Type_String_eq _ _ E3), (attrs_canonical_eq (p_Attrs p) (p_Attrs q)); [done|]. unfold iattrs_of. congruence. Qed.

Lemma ret_text_inj f g : func_text_ok f -> func_text_ok g -> ret_text f = ret_text g -> if_Ret (ifunc_of f) = if_Ret (ifunc_of g).
Proof.
  intros (_ & _ & Hf & _) (_ & _ & Hg & _) E. unfold ret_text in E. apply app_inv_head in E. simpl.
  assert (Hd : forall t r, text_ok t -> Type_String t ++ r <> str "-").
  { intros t r Ht E0. destruct (text_view t Ht) as (e & x & He & _ & E1 & _). destruct (leaf_split e He) as (E2 & Hw & _).
    rewrite E1, E2, <- !app_assoc in E0. assert (Hne : leaf_word e <> []).
    { destruct e as [k| | | | | | |]; simpl in *; try done; [by destruct k|..]; destruct He as [[H0 _] _]; by intros ->. }
    destruct (leaf_word e); [done|]. injection E0 as -> _. inversion Hw. done. }
  destruct (f_Ret f) as [t|], (f_Ret g) as [t'|]; simpl.
  - destruct (Hf t eq_refl) as [T1 A1], (Hg t' eq_refl) as [T2 A2]. destruct (typed_inj t t' _ _ T1 T2 A1 A2 E). congruence.
  - destruct (Hf t eq_refl). by apply Hd in E.
  - symmetry in E. destruct (Hg t' eq_refl). by apply Hd in E.
  - done.
Qed.

Lemma ret_text_eq f g : if_Ret (ifunc_of f) = if_Ret (ifunc_of g) -> ret_text f = ret_text g.
Proof.
  unfold ret_text. simpl. destruct (f_Ret f) as [t|], (f_Ret g) as [t'|]; simpl; try done. intros E. injection E as E1 E2 E3 E4 E5.
  rewrite (Type_String_eq _ _ E1), (attrs_canonical_eq (f_RetAttrs f) (f_RetAttrs g)); [done|]. unfold iattrs_of. congruence.
Qed.

(** The last words of a function, from the interface. *)
Lemma error_texts_eq f : error_texts f =
  [str "err=" ++ ErrKind_String (if_Error (ifunc_of f)); str "ok=" ++ match if_Ok (ifunc_of f) with Some l => join 44 (map FormatInt l) | None => str "-" end;
   str "detail=" ++ (if if_Detail (ifunc_of f) then str "1" else str "0");
   str "max_out=" ++ (if 0 <? if_MaxOut (ifunc_of f) then FormatInt (if_MaxOut (ifunc_of f)) else str "-")].
Proof. unfold error_texts. simpl. destruct (f_Error f) as [e|]; simpl; [|done]. by destruct (bool_decide (e_Kind e = ErrStatus)). Qed.

Lemma FormatInt_without c n : c ∈ [10; 32; 44; 58] -> without c (FormatInt n).
Proof.
  intros Hc. assert (Hs : c ∈ separators) by (unfold separators; set_solver). unfold FormatInt. destruct (Z.ltb_spec n 0).
  - constructor; [intros <-; set_solver|]. apply clean_without; [done|]. apply FormatUint_clean. lia.
  - apply clean_without; [done|]. by apply FormatUint_clean.
Qed.

Lemma error_texts_inj f g : func_text_ok f -> func_text_ok g -> error_texts f = error_texts g ->
  if_Error (ifunc_of f) = if_Error (ifunc_of g) /\ if_Ok (ifunc_of f) = if_Ok (ifunc_of g) /\ if_Detail (ifunc_of f) = if_Detail (ifunc_of g) /\
  f_MaxOut f = f_MaxOut g.
Proof.
  intros (_ & _ & _ & _ & Mf & Hf) (_ & _ & _ & _ & Mg & Hg). rewrite !error_texts_eq. intros E. injection E as E1 E2 E3 E4.
  apply ErrKind_String_inj in E1. split; [done|]. split_and!.
  - cbn [ifunc_of if_Ok if_Error] in *. destruct (f_Error f) as [e|], (f_Error g) as [e'|]; simpl in *; try done.
    + subst. rewrite E1 in E2 |- *. destruct (bool_decide (e_Kind e' = ErrStatus)) eqn:Hk; [|done]. apply bool_decide_eq_true in Hk. simpl in *. f_equal. rewrite <- (map_id (e_Ok e)), <- (map_id (e_Ok e')).
      apply (map_inj_on (fun _ => True) FormatInt id); [intros a b _ _; apply FormatInt_inj|by apply Forall_true|by apply Forall_true|].
      apply (join_inj 44); [|..|done].
      * intros E0%map_eq_nil. by apply (proj2 (Hf e eq_refl)); [congruence|].
      * intros E0%map_eq_nil. by apply (proj2 (Hg e' eq_refl)).
      * apply Forall_map, Forall_true. intros. apply FormatInt_without. set_solver.
      * apply Forall_map, Forall_true. intros. apply FormatInt_without. set_solver.
    + exfalso. by apply (proj1 (Hf e eq_refl)).
    + exfalso. by apply (proj1 (Hg e' eq_refl)).
  - cbn [ifunc_of if_Detail] in *. by destruct (bool_decide (is_Some (f_Error f ≫= e_Detail))), (bool_decide (is_Some (f_Error g ≫= e_Detail))).
  - cbn [ifunc_of if_MaxOut] in E4. destruct (Z.ltb_spec 0 (f_MaxOut f)), (Z.ltb_spec 0 (f_MaxOut g)).
    + by apply FormatInt_inj.
    + exfalso. destruct (FormatInt_head (f_MaxOut f)) as (c & r & E0 & Hc); [lia|]. rewrite E0 in E4. by injection E4 as -> _.
    + exfalso. destruct (FormatInt_head (f_MaxOut g)) as (c & r & E0 & Hc); [lia|]. rewrite E0 in E4. by injection E4 as <- _.
    + lia.
Qed.

Lemma cons_inv {A} (x y : A) l l' : x :: l = y :: l' -> x = y /\ l = l'.
Proof. by intros [= -> ->]. Qed.

Lemma fn_line_inj f g : func_text_ok f -> func_text_ok g -> fn_line f = fn_line g -> ifunc_of f = ifunc_of g.
Proof.
  intros Hf Hg E. unfold fn_line in E. apply cons_inv in E as [_ [E1 [E2 E3]%cons_inv]%cons_inv]. apply FormatInt_inj in E1.
  assert (Hp : forall l, Forall (starts_with 112) (map param_text l)) by (intros l; apply list.Forall_forall; by intros x (p & -> & _)%list_elem_of_fmap).
  apply (span_unique (starts_with 112)) in E3 as [E4 E5]; [|apply Hp|apply Hp|by intros x [= <-]|by intros x [= <-]].
  apply cons_inv in E5 as [E5 E6]. destruct (error_texts_inj f g Hf Hg E6) as (K1 & K2 & K3 & K4).
  apply (map_inj_on param_ok param_text iparam) in E4; [|by intros ? ?; apply param_text_inj|apply Hf|apply Hg].
  pose proof (ret_text_inj f g Hf Hg E5) as K5. unfold ifunc_of in *. cbn [if_Ret if_Error if_Ok if_Detail] in *.
  by rewrite E1, E2, E4, K1, K2, K3, K4, K5.
Qed.

Lemma fn_line_eq f g : ifunc_of f = ifunc_of g -> fn_line f = fn_line g.
Proof.
  intros E. unfold fn_line. rewrite !error_texts_eq, E, (ret_text_eq f g) by congruence. injection E as -> -> E _ _ _ _ _.
  rewrite (map_inj_on (fun _ => True) iparam param_text) with (l' := f_Params g); [done|intros ? ? _ _; apply param_text_eq|by apply Forall_true..|done].
Qed.

(** A word of the text. *)
Definition plainw (x : bytes) : Prop := without 10 x /\ without 32 x.

Lemma plainw_app x y : plainw x -> plainw y -> plainw (x ++ y).
Proof. intros [] []. split; by apply Forall_app. Qed.

Lemma plainw_cons c x : c <> 10 -> c <> 32 -> plainw x -> plainw (c :: x).
Proof. intros ? ? []. split; by constructor. Qed.

Lemma plainw_const x : bool_decide (Forall (fun b => b ∉ [10; 32; 58]) x) = true -> plainw x.
Proof. intros H. split; apply const_without; [set_solver|done|set_solver|done]. Qed.

Lemma plainw_word x : word x -> plainw x.
Proof. intros H. split; apply word_without; [set_solver|done|set_solver|done]. Qed.

Lemma plainw_int n : plainw (FormatInt n).
Proof. split; apply FormatInt_without; set_solver. Qed.

Lemma plainw_type t : text_ok t -> plainw (Type_String t).
Proof. intros H. split; apply Type_String_without; try done; unfold separators; set_solver. Qed.

Lemma plainw_attrs a : attrs_ok a -> plainw (attrs_canonical a).
Proof. intros H. split; apply attrs_canonical_without; [set_solver|done|set_solver|done]. Qed.

#[local] Hint Resolve plainw_app plainw_word plainw_int plainw_type plainw_attrs : plainw.
#[local] Hint Extern 1 (plainw (str _)) => apply plainw_const; reflexivity : plainw.
#[local] Hint Extern 2 (plainw (_ :: _)) => apply plainw_cons; [lia|lia|] : plainw.

Lemma plainw_join l : Forall plainw l -> plainw (join 44 l).
Proof.
  induction 1 as [|x l Hx Hl IH]; [split; constructor|]. rewrite join_cons. apply plainw_app; [done|]. destruct l; [split; constructor|]. by apply plainw_cons.
Qed.

Lemma fn_line_plain f : func_text_ok f -> Forall plainw (fn_line f).
Proof.
  intros (Hn & Hp & Hr & _ & _ & He). unfold fn_line. do 3 (constructor; [auto with plainw|]). apply Forall_app. split.
  - apply list.Forall_forall. intros x (p & -> & Hin)%list_elem_of_fmap. rewrite list.Forall_forall in Hp. destruct (Hp p Hin) as (H1 & H2 & H3).
    unfold param_text. apply plainw_app; [auto with plainw|]. apply plainw_app; [destruct (p_Dir p); by apply plainw_const|].
    apply plainw_cons; [done|done|]. apply plainw_app; [auto with plainw|]. apply plainw_cons; [done|done|]. auto with plainw.
  - constructor.
    + unfold ret_text. apply plainw_app; [auto with plainw|]. destruct (f_Ret f) as [t|]; [|auto with plainw]. destruct (Hr t eq_refl). auto with plainw.
    + rewrite error_texts_eq. constructor; [|constructor; [|constructor; [|constructor; [|constructor]]]]; (apply plainw_app; [auto with plainw|]).
      * destruct (if_Error _); by apply plainw_const.
      * destruct (if_Ok _) as [l|]; [|auto with plainw]. apply plainw_join. apply list.Forall_forall. intros x (n & -> & _)%list_elem_of_fmap. auto with plainw.
      * destruct (if_Detail _); auto with plainw.
      * destruct (0 <? _); auto with plainw.
Qed.

(** ** Sorted lists *)

Lemma bytes_lt_trans a : forall b c, bytes_lt a b = true -> bytes_lt b c = true -> bytes_lt a c = true.
Proof.
  induction a as [|x a IH]; intros [|y b] [|z c]; simpl; try done. intros [H1%Z.ltb_lt|[H1%Z.eqb_eq H2]%andb_true_iff]%orb_true_iff [H3%Z.ltb_lt|[H3%Z.eqb_eq H4]%andb_true_iff]%orb_true_iff;
    apply orb_true_iff; [left; apply Z.ltb_lt; lia..|]. right. apply andb_true_iff. split; [apply Z.eqb_eq; lia|by apply (IH b)].
Qed.

Lemma bytes_lt_total a : forall b, bytes_lt a b = false -> a <> b -> bytes_lt b a = true.
Proof.
  induction a as [|x a IH]; intros [|y b]; simpl; try done. intros [H1%Z.ltb_ge H2%andb_false_iff]%orb_false_iff Hn.
  apply orb_true_iff. destruct (Z.eqb_spec y x) as [->|]; [|left; apply Z.ltb_lt; lia]. right. simpl. rewrite Z.eqb_refl in H2. destruct H2 as [|H2]; [done|].
  apply IH; [done|congruence].
Qed.

(** An order of keys, and items with keys. *)
Section Sorted.
Context {K : Type} (lt : K -> K -> bool).
Hypothesis lt_asym : forall a b, lt a b = true -> lt b a = false.
Hypothesis lt_trans : forall a b c, lt a b = true -> lt b c = true -> lt a c = true.
Hypothesis lt_total : forall a b, lt a b = false -> a <> b -> lt b a = true.
Context {A : Type} (key : A -> K).
Notation sort := (sort_by (fun a b => lt (key a) (key b))).
Notation insert := (insert_by (fun a b => lt (key a) (key b))).

Lemma insert_by_perm x l : insert x l ≡ₚ x :: l.
Proof. induction l as [|y l IH]; simpl; [done|]. destruct (lt (key y) (key x)); [|done]. rewrite IH. constructor. Qed.

Lemma sort_by_perm l : sort l ≡ₚ l.
Proof. induction l as [|x l IH]; simpl; [done|]. by rewrite insert_by_perm, IH. Qed.

Lemma insert_by_sorted x l : key x ∉ map key l -> StronglySorted (fun a b => lt (key a) (key b) = true) l -> StronglySorted (fun a b => lt (key a) (key b) = true) (insert x l).
Proof.
  induction l as [|y l IH]; intros Hx Hl; simpl; [repeat constructor|]. inversion Hl as [|? ? Hl' Hy]; subst. csimpl in Hx. apply not_elem_of_cons in Hx as [Hxy Hx].
  destruct (lt (key y) (key x)) eqn:E.
  - constructor; [by apply IH|]. rewrite insert_by_perm. by constructor.
  - constructor; [done|]. assert (Hlt : lt (key x) (key y) = true) by (by apply lt_total; [|congruence]). constructor; [done|].
    eapply Forall_impl; [|exact Hy]. simpl. intros z Hz. by apply (lt_trans _ (key y)).
Qed.

Lemma sort_by_sorted l : NoDup (map key l) -> StronglySorted (fun a b => lt (key a) (key b) = true) (sort l).
Proof.
  induction l as [|x l IH]; simpl; intros Hd; [constructor|]. apply list.NoDup_cons in Hd as [Hx Hd]. apply insert_by_sorted; [|by apply IH].
  intros Hin. apply Hx. by rewrite (sort_by_perm l) in Hin.
Qed.
End Sorted.

(** Sorted lists of items with different keys hold the same items exactly if
    they are the same map. *)
Section SortedMap.
Context `{Countable K} (lt : K -> K -> bool).
Hypothesis lt_asym : forall a b, lt a b = true -> lt b a = false.
Hypothesis lt_trans : forall a b c, lt a b = true -> lt b c = true -> lt a c = true.
Hypothesis lt_total : forall a b, lt a b = false -> a <> b -> lt b a = true.
Context {A V : Type} (key : A -> K).
Notation sort := (sort_by (fun a b => lt (key a) (key b))).

Lemma sorted_items (item : A -> K * V) l : (forall a, (item a).1 = key a) -> NoDup (map key l) ->
  StronglySorted (fun a b => lt a.1 b.1 = true) (map item (sort l)).
Proof.
  intros Hk Hd. pose proof (sort_by_sorted lt lt_trans lt_total key l Hd) as Hs. induction Hs as [|x k _ IH Hx]; simpl; [constructor|].
  constructor; [done|]. apply Forall_map. eapply Forall_impl; [|exact Hx]. simpl. intros y Hy. by rewrite !Hk.
Qed.

Lemma item_keys (item : A -> K * V) l : (forall a, (item a).1 = key a) -> (map item l).*1 = map key l.
Proof. intros Hk. induction l as [|a l IH]; csimpl; [done|]. by rewrite Hk, IH. Qed.

Lemma sorted_map (item item' : A -> K * V) l l' : (forall a, (item a).1 = key a) -> (forall a, (item' a).1 = key a) -> NoDup (map key l) -> NoDup (map key l') ->
  map item (sort l) = map item' (sort l') <-> (list_to_map (map item l) : gmap K V) = list_to_map (map item' l').
Proof.
  intros Hk Hk' Hd Hd'.
  assert (P : map item (sort l) ≡ₚ map item l) by (by rewrite sort_by_perm). assert (P' : map item' (sort l') ≡ₚ map item' l') by (by rewrite sort_by_perm).
  split.
  - intros E. rewrite (list_to_map_proper (map item l) (map item (sort l))) by (rewrite ?item_keys by done; done || by symmetry).
    rewrite E. symmetry. apply list_to_map_proper; [by rewrite item_keys|by symmetry].
  - intros E. apply list_to_map_inj in E; [|by rewrite item_keys..].
    apply (StronglySorted_unique_strong (fun a b => lt a.1 b.1 = true)).
    + intros a b _ _ E1 E2. apply lt_asym in E1. congruence.
    + by apply sorted_items.
    + by apply sorted_items.
    + by rewrite P, P'.
Qed.
End SortedMap.

(** ** Handles and types *)

Lemma map_inj_on2 {A B C} (P P' : A -> Prop) (f f' : A -> B) (g g' : A -> C) : (forall a b, P a -> P' b -> f a = f' b -> g a = g' b) ->
  forall l l', Forall P l -> Forall P' l' -> map f l = map f' l' -> map g l = map g' l'.
Proof.
  intros H. induction l as [|a l IH]; intros [|b l'] Hl Hl' E; simpl in *; try done. injection E as E1 E2. inversion Hl; subst. inversion Hl'; subst.
  f_equal; [by apply H|by apply IH].
Qed.

Definition handle_text_ok (s : Spec) (h : Handle) : Prop :=
  word (h_Name h) /\ (forall x, parent_name s h = Some x -> word x) /\ clean (destroy_name s h).

Lemma word_not_dash x : word x -> x <> str "-".
Proof. intros H ->. by destruct H as [[[H _] _] _]. Qed.

(** A name or a dash. *)
Lemma dash_inj (o o' : option bytes) : (forall x, o = Some x -> x <> str "-") -> (forall x, o' = Some x -> x <> str "-") ->
  default (str "-") o = default (str "-") o' -> o = o'.
Proof.
  intros H H' E. destruct o as [x|], o' as [y|]; simpl in E; [congruence| | |done].
  - by destruct (H x).
  - by destruct (H' y).
Qed.

Lemma handle_line_inj s s' h h' : handle_text_ok s h -> handle_text_ok s' h' -> handle_line s h = handle_line s' h' -> ihandle s h = ihandle s' h'.
Proof.
  intros (_ & Hp & _) (_ & Hp' & _) E. unfold handle_line in E. apply cons_inv in E as [_ [E1 [E2%app_inv_head [E3%app_inv_head [E4%app_inv_head _]%cons_inv]%cons_inv]%cons_inv]%cons_inv].
  apply dash_inj in E2; [|intros; by apply word_not_dash; auto..]. unfold ihandle. rewrite E1, E2, E3. by destruct (h_RetainOnFail h), (h_RetainOnFail h').
Qed.

Lemma handle_line_eq s s' h h' : ihandle s h = ihandle s' h' -> handle_line s h = handle_line s' h'.
Proof. unfold ihandle, handle_line. intros E. injection E as -> -> -> ->. done. Qed.

Lemma plainw_clean x : clean x -> plainw x.
Proof. intros H. split; apply clean_without; try done; unfold separators; set_solver. Qed.

Lemma handle_line_plain s h : handle_text_ok s h -> Forall plainw (handle_line s h).
Proof.
  intros (Hn & Hp & Hd). unfold handle_line. constructor; [auto with plainw|]. constructor; [auto with plainw|].
  constructor; [|constructor; [|constructor; [|constructor]]]; (apply plainw_app; [auto with plainw|]).
  - destruct (parent_name s h) as [x|]; simpl; [auto with plainw|by apply plainw_const].
  - by apply plainw_clean.
  - destruct (h_RetainOnFail h); auto with plainw.
Qed.

Definition member_text_ok (m : Member) : Prop := word (mb_Name m) /\ text_ok (mb_Type m).
Definition case_text_ok (c : Case) : Prop := 0 <= c_Tag c /\ word (c_Name c) /\ forall t, c_Type c = Some t -> text_ok t.

Lemma member_text_inj m n : member_text_ok m -> member_text_ok n -> member_text m = member_text n -> imember m = imember n.
Proof.
  intros [Hm Ht] [Hn Ht'] E. destruct (sep_unique 58 _ _ _ _ (word_without 58 _ ltac:(set_solver) Hm) (word_without 58 _ ltac:(set_solver) Hn) E) as [E1 E2].
  apply Type_String_inj in E2; [|done..]. unfold imember. congruence.
Qed.

Lemma text_not_dash t : text_ok t -> Type_String t <> str "-".
Proof.
  intros Ht E. assert (Hw : without 45 (Type_String t)) by (apply Type_String_without; [unfold separators; set_solver|set_solver|done]). rewrite E in Hw. by inversion Hw.
Qed.

Lemma case_text_inj c d : case_text_ok c -> case_text_ok d -> case_text c = case_text d -> icase c = icase d.
Proof.
  intros (Hg & Hm & Ht) (Hg' & Hn & Ht') E.
  assert (Hu : forall n, 0 <= n -> without 58 (FormatUint n)) by (intros n H; apply clean_without; [unfold separators; set_solver|by apply FormatUint_clean]).
  destruct (sep_unique 58 _ _ _ _ (Hu _ Hg) (Hu _ Hg') E) as [E1%FormatUint_inj E2]; [|done..].
  destruct (sep_unique 58 _ _ _ _ (word_without 58 _ ltac:(set_solver) Hm) (word_without 58 _ ltac:(set_solver) Hn) E2) as [E3 E4].
  apply dash_inj in E4; [|intros x (t & E0 & ->)%fmap_Some_1; apply text_not_dash; auto..]. unfold icase. rewrite E1, E3. do 2 f_equal.
  destruct (c_Type c) as [t|], (c_Type d) as [t'|]; simpl in *; try done. f_equal. apply Type_String_inj; auto. congruence.
Qed.

Lemma member_text_eq m n : imember m = imember n -> member_text m = member_text n.
Proof. intros E. injection E as E1 E2. unfold member_text. by rewrite E1, (Type_String_eq _ _ E2). Qed.

Lemma case_text_eq c d : icase c = icase d -> case_text c = case_text d.
Proof.
  intros E. injection E as E1 E2 E3. unfold case_text. rewrite E1, E2. destruct (c_Type c) as [t|], (c_Type d) as [t'|]; simpl in *; try done.
  injection E3 as E3. by rewrite (Type_String_eq _ _ E3).
Qed.

(** Structs and unions in one list. *)
Notation tdecl := (Struct + Union)%type.
Definition t_name (d : tdecl) : bytes := match d with inl t => s_Name t | inr u => u_Name u end.
Definition t_line (d : tdecl) : list bytes := match d with inl t => struct_line t | inr u => union_line u end.
Definition t_item (d : tdecl) : bytes * itype := match d with inl t => istruct t | inr u => iunion u end.
Definition tdecls (s : Spec) : list tdecl := map inl (sp_Structs s) ++ map inr (sp_Unions s).

Definition tdecl_ok (d : tdecl) : Prop :=
  match d with
  | inl t => word (s_Name t) /\ Forall member_text_ok (s_Members t)
  | inr u => word (u_Name u) /\ Forall case_text_ok (u_Cases u) /\ NoDup (map c_Tag (u_Cases u))
  end.

Lemma sort_by_map {A B} (f : A -> B) (lt : B -> B -> bool) l : sort_by lt (map f l) = map f (sort_by (fun a b => lt (f a) (f b)) l).
Proof.
  induction l as [|x l IH]; simpl; [done|]. rewrite IH. generalize (sort_by (fun a b => lt (f a) (f b)) l) as k. clear.
  induction k as [|y k IH]; simpl; [done|]. destruct (lt (f y) (f x)); [|done]. simpl. by rewrite IH.
Qed.

Lemma type_lines_eq s : (type_lines s).*2 = map t_line (sort_by (fun a b => bytes_lt (t_name a) (t_name b)) (tdecls s)).
Proof.
  unfold type_lines. assert (E : map (fun t => (s_Name t, struct_line t)) (sp_Structs s) ++ map (fun u => (u_Name u, union_line u)) (sp_Unions s) =
    map (fun d => (t_name d, t_line d)) (tdecls s)) by (unfold tdecls; by rewrite map_app, !map_map).
  rewrite E, sort_by_map. simpl. by rewrite map_map.
Qed.

Lemma types_eq s : map istruct (sp_Structs s) ++ map iunion (sp_Unions s) = map t_item (tdecls s).
Proof. unfold tdecls. by rewrite map_app, !map_map. Qed.

Lemma tag_asym a b : (a <? b) = true -> (b <? a) = false.
Proof. rewrite Z.ltb_lt, Z.ltb_ge. lia. Qed.
Lemma tag_trans a b c : (a <? b) = true -> (b <? c) = true -> (a <? c) = true.
Proof. rewrite !Z.ltb_lt. lia. Qed.
Lemma tag_total a b : (a <? b) = false -> a <> b -> (b <? a) = true.
Proof. rewrite Z.ltb_lt, Z.ltb_ge. lia. Qed.

Lemma sorted_Forall {A} (lt : A -> A -> bool) (P : A -> Prop) l : Forall P l -> Forall P (sort_by lt l).
Proof. intros H. by rewrite (sort_by_perm lt id). Qed.

Lemma cases_iff l l' : Forall case_text_ok l -> Forall case_text_ok l' -> NoDup (map c_Tag l) -> NoDup (map c_Tag l') ->
  map case_text (sort_by (fun a b => c_Tag a <? c_Tag b) l) = map case_text (sort_by (fun a b => c_Tag a <? c_Tag b) l') <->
  (list_to_map (map icase l) : gmap Z _) = list_to_map (map icase l').
Proof.
  intros Hl Hl' Hd Hd'. rewrite <- (sorted_map Z.ltb tag_asym tag_trans tag_total c_Tag icase icase) by done. split.
  - apply (map_inj_on case_text_ok); [by apply case_text_inj|by apply sorted_Forall..].
  - apply (map_inj_on case_text_ok); [intros ? ? _ _; by apply case_text_eq|by apply sorted_Forall..].
Qed.

Lemma t_line_inj d d' : tdecl_ok d -> tdecl_ok d' -> t_line d = t_line d' -> t_item d = t_item d'.
Proof.
  destruct d as [t|u], d' as [t'|u']; simpl; intros H H' E; try (apply cons_inv in E as [E _]; vm_compute in E; discriminate E);
    apply cons_inv in E as [_ [E1 E2]%cons_inv].
  - destruct H, H'. apply (map_inj_on member_text_ok _ imember) in E2; [|by apply member_text_inj|done..]. unfold istruct. by rewrite E1, E2.
  - destruct H as (_ & Hc & Hd), H' as (_ & Hc' & Hd'). apply cases_iff in E2; [|done..]. unfold iunion. by rewrite E1, E2.
Qed.

Lemma t_line_eq d d' : tdecl_ok d -> tdecl_ok d' -> t_item d = t_item d' -> t_line d = t_line d'.
Proof.
  destruct d as [t|u], d' as [t'|u']; simpl; intros H H' E; try discriminate E; injection E as E1 E2.
  - unfold struct_line. rewrite E1. do 2 f_equal. revert E2. apply (map_inj_on (fun _ => True)); [intros ? ? _ _; apply member_text_eq|by apply Forall_true..].
  - unfold union_line. rewrite E1. do 2 f_equal. apply cases_iff; [apply H|apply H'|apply H|apply H'|done].
Qed.

Lemma t_line_plain d : tdecl_ok d -> Forall plainw (t_line d).
Proof.
  destruct d as [t|u]; simpl; intros H.
  - destruct H as [Hn Hm]. constructor; [auto with plainw|]. constructor; [auto with plainw|]. apply Forall_map. eapply Forall_impl; [|exact Hm].
    intros m [H1 H2]. simpl. unfold member_text. auto 6 with plainw.
  - destruct H as (Hn & Hc & _). constructor; [auto with plainw|]. constructor; [auto with plainw|]. apply Forall_map, sorted_Forall. eapply Forall_impl; [|exact Hc].
    intros c (H0 & H1 & H2). simpl. unfold case_text. apply plainw_app; [by apply plainw_clean, FormatUint_clean|]. apply plainw_cons; [done|done|].
    apply plainw_app; [auto with plainw|]. apply plainw_cons; [done|done|]. destruct (c_Type c) as [t|]; simpl; [auto with plainw|by apply plainw_const].
Qed.

(** ** The whole text *)

Definition spec_text_ok (s : Spec) : Prop :=
  word (sp_Service s) /\ Forall (handle_text_ok s) (sp_Handles s) /\ NoDup (map h_Name (sp_Handles s)) /\
  Forall tdecl_ok (tdecls s) /\ NoDup (map t_name (tdecls s)) /\ Forall func_text_ok (wire_funcs s).

Lemma canonical_lines_plain s : spec_text_ok s -> Forall (fun l => l <> [] /\ Forall plainw l) (canonical_lines s).
Proof.
  intros (Hs & Hh & _ & Ht & _ & Hf). unfold canonical_lines. rewrite type_lines_eq. constructor; [|constructor].
  - split; [done|]. constructor; [by apply plainw_const|]. constructor; [by apply plainw_const|constructor].
  - split; [done|]. constructor; [by apply plainw_const|]. constructor; [auto with plainw|constructor].
  - apply Forall_app. split; [|apply Forall_app; split]; apply Forall_map; [apply sorted_Forall|apply sorted_Forall|]; (eapply Forall_impl; [|eassumption]); simpl.
    + intros h H. split; [done|by apply handle_line_plain].
    + intros d H. split; [by destruct d|by apply t_line_plain].
    + intros f H. split; [done|by apply fn_line_plain].
Qed.

Lemma lines_text_inj (l l' : list (list bytes)) : Forall (fun x => x <> [] /\ Forall plainw x) l -> Forall (fun x => x <> [] /\ Forall plainw x) l' ->
  (l ≫= (fun x => join 32 x ++ [10])) = (l' ≫= (fun x => join 32 x ++ [10])) -> l = l'.
Proof.
  intros Hl Hl' E.
  assert (Hb : forall k : list (list bytes), (k ≫= (fun x => join 32 x ++ [10])) = (map (join 32) k ≫= (fun p => p ++ [10]))).
  { induction k as [|x k IH]; csimpl; [done|]. by rewrite IH. }
  assert (Hw : forall k : list (list bytes), Forall (fun x => x <> [] /\ Forall plainw x) k -> Forall (without 10) (map (join 32) k)).
  { intros k Hk. apply Forall_map. eapply Forall_impl; [|exact Hk]. simpl. intros x [_ Hx]. clear -Hx. induction Hx as [|w x Hw _ IH]; [constructor|].
    rewrite join_cons. apply Forall_app. split; [apply Hw|]. destruct x; [constructor|]. by constructor. }
  rewrite !Hb in E. apply lines_inj in E; [|by apply Hw..]. rewrite <- (map_id l), <- (map_id l').
  revert E. apply (map_inj_on (fun x => x <> [] /\ Forall plainw x)); [|done..]. intros a b [Ha Pa] [Hb' Pb]. apply join_inj; [done|done| |].
  - eapply Forall_impl; [|exact Pa]. by intros x [].
  - eapply Forall_impl; [|exact Pb]. by intros x [].
Qed.

(** The first word of a line tells its segment. *)
Definition is_handle_line (l : list bytes) : Prop := head l = Some (str "handle").
Definition is_type_line (l : list bytes) : Prop := head l = Some (str "struct") \/ head l = Some (str "union").

Lemma handle_lines s l : Forall is_handle_line (map (handle_line s) l).
Proof. apply Forall_map, Forall_true. done. Qed.
Lemma type_lines_head l : Forall is_type_line (map t_line l).
Proof. apply Forall_map, Forall_true. intros [t|u]; [by left|by right]. Qed.
Lemma rest_no_handle l fs : Forall (fun x => ~ is_handle_line x) (map t_line l ++ map fn_line fs).
Proof. apply Forall_app. split; apply Forall_map, Forall_true; [intros [t|u]|intros f]; by intros H%(inj Some). Qed.
Lemma fn_no_type fs : Forall (fun x => ~ is_type_line x) (map fn_line fs).
Proof. apply Forall_map, Forall_true. intros f [H|H]; by apply (inj Some) in H. Qed.

Lemma canonical_lines_inj s s' : canonical_lines s = canonical_lines s' ->
  sp_Service s = sp_Service s' /\
  map (handle_line s) (sort_by (fun a b => bytes_lt (h_Name a) (h_Name b)) (sp_Handles s)) = map (handle_line s') (sort_by (fun a b => bytes_lt (h_Name a) (h_Name b)) (sp_Handles s')) /\
  map t_line (sort_by (fun a b => bytes_lt (t_name a) (t_name b)) (tdecls s)) = map t_line (sort_by (fun a b => bytes_lt (t_name a) (t_name b)) (tdecls s')) /\
  map fn_line (wire_funcs s) = map fn_line (wire_funcs s').
Proof.
  unfold canonical_lines. rewrite !type_lines_eq. intros E. apply cons_inv in E as [_ [E1 E]%cons_inv]. split; [congruence|].
  apply (seg_unique is_handle_line) in E as [E2 E]; [|apply handle_lines|apply handle_lines|apply rest_no_handle|apply rest_no_handle]. split; [done|].
  apply (seg_unique is_type_line) in E; [done|apply type_lines_head|apply type_lines_head|apply fn_no_type|apply fn_no_type].
Qed.

Lemma handles_iff s s' : spec_text_ok s -> spec_text_ok s' ->
  map (handle_line s) (sort_by (fun a b => bytes_lt (h_Name a) (h_Name b)) (sp_Handles s)) = map (handle_line s') (sort_by (fun a b => bytes_lt (h_Name a) (h_Name b)) (sp_Handles s')) <->
  if_Handles (iface_of s) = if_Handles (iface_of s').
Proof.
  intros (_ & H1 & H2 & _) (_ & H1' & H2' & _). simpl. rewrite <- (sorted_map bytes_lt bytes_lt_asym bytes_lt_trans bytes_lt_total h_Name) by done. split.
  - apply (map_inj_on2 (handle_text_ok s) (handle_text_ok s')); [by apply handle_line_inj|by apply sorted_Forall..].
  - apply (map_inj_on2 (handle_text_ok s) (handle_text_ok s')); [intros ? ? _ _; by apply handle_line_eq|by apply sorted_Forall..].
Qed.

Lemma types_iff s s' : spec_text_ok s -> spec_text_ok s' ->
  map t_line (sort_by (fun a b => bytes_lt (t_name a) (t_name b)) (tdecls s)) = map t_line (sort_by (fun a b => bytes_lt (t_name a) (t_name b)) (tdecls s')) <->
  if_Types (iface_of s) = if_Types (iface_of s').
Proof.
  intros (_ & _ & _ & H1 & H2 & _) (_ & _ & _ & H1' & H2' & _). simpl. rewrite !types_eq.
  rewrite <- (sorted_map bytes_lt bytes_lt_asym bytes_lt_trans bytes_lt_total t_name t_item t_item); [|by intros []|by intros []|done|done]. split.
  - apply (map_inj_on tdecl_ok); [by apply t_line_inj|by apply sorted_Forall..].
  - apply (map_inj_on tdecl_ok); [by apply t_line_eq|by apply sorted_Forall..].
Qed.

Lemma funcs_iff s s' : spec_text_ok s -> spec_text_ok s' ->
  map fn_line (wire_funcs s) = map fn_line (wire_funcs s') <-> if_Funcs (iface_of s) = if_Funcs (iface_of s').
Proof.
  intros (_ & _ & _ & _ & _ & H) (_ & _ & _ & _ & _ & H'). simpl. split.
  - apply (map_inj_on func_text_ok); [by apply fn_line_inj|done..].
  - apply (map_inj_on func_text_ok); [intros ? ? _ _; by apply fn_line_eq|done..].
Qed.

Lemma canonical_iff s s' : spec_text_ok s -> spec_text_ok s' -> Canonical s = Canonical s' <-> iface_of s = iface_of s'.
Proof.
  intros H H'. split; intros E.
  - apply lines_text_inj in E; [|by apply canonical_lines_plain..]. apply canonical_lines_inj in E as (E1 & E2 & E3 & E4).
    apply handles_iff in E2; [|done..]. apply types_iff in E3; [|done..]. apply funcs_iff in E4; [|done..]. unfold iface_of in *. simpl in *. congruence.
  - unfold Canonical. f_equal. unfold canonical_lines. rewrite !type_lines_eq.
    assert (E1 : sp_Service s = sp_Service s') by exact (f_equal if_Service E).
    pose proof (proj2 (handles_iff s s' H H') (f_equal if_Handles E)) as E2. pose proof (proj2 (types_iff s s' H H') (f_equal if_Types E)) as E3.
    pose proof (proj2 (funcs_iff s s' H H') (f_equal if_Funcs E)) as E4. by rewrite E1, E2, E3, E4.
Qed.

(** ** Accepted interfaces *)

Lemma ty_text_ok hn sn un t : Forall word hn -> Forall word sn -> Forall word un -> ty_ok hn sn un t -> text_ok t.
Proof.
  intros H1 H2 H3. rewrite list.Forall_lookup in H1. rewrite list.Forall_lookup in H2. rewrite list.Forall_lookup in H3.
  assert (Hl : forall t, ty_ok hn sn un t -> is_array t = false -> leaf_ok t) by (intros []; simpl; intros; try done; eauto; lia).
  destruct t; simpl; intros Ht; eauto; try lia; destruct Ht as (He & Hn & Hb); (split; [by apply Hl|lia]).
Qed.

Lemma fmap_named {A} (name : A -> bytes) (P : A -> Prop) l : Forall P l -> (forall a, P a -> word (name a)) -> Forall word (name <$> l).
Proof. intros Hl H. apply Forall_fmap. eapply Forall_impl; [|exact Hl]. exact H. Qed.

Lemma wire_func s f : f ∈ wire_funcs s -> f ∈ sp_Funcs s.
Proof. unfold wire_funcs. intros (k & _ & E)%list_elem_of_omap. by eapply list_elem_of_lookup_2. Qed.

Lemma handles_text_ok s : spec_named s -> Forall (handle_text_ok s) (sp_Handles s).
Proof.
  intros [_ N1 _ _ N4]. rewrite list.Forall_lookup in N1. rewrite list.Forall_lookup in N4. apply list.Forall_lookup. intros i h Hi. split_and!; [by eapply N1| |].
  - intros x (p & _ & (h' & Hh' & ->)%fmap_Some_1)%bind_Some. by eapply N1.
  - unfold destroy_name. destruct (h_Destroy h ≫= _) as [x|] eqn:E; [|constructor]. apply bind_Some in E as (k & _ & (f & Hf & ->)%fmap_Some_1). by eapply word_clean, N4.
Qed.

Section Texts.
Context (s : Spec) (hs : list Handle) (ds : list deferredCheck) (Hn : spec_named s).
Context (Htext : forall t b, resolved (h_Name <$> hs) (s_Name <$> sp_Structs s) (u_Name <$> sp_Unions s) b t ds -> text_ok t).

Lemma tdecls_text_ok : decls_ok hs (sp_Structs s) (sp_Unions s) ds -> distinct_parts (sp_Structs s) (sp_Unions s) -> Forall tdecl_ok (tdecls s).
Proof.
  destruct Hn as [_ _ N2 N3 _]. intros [D1 D2] [_ P2]. apply Forall_app. split; apply Forall_map, list.Forall_forall.
  - intros t Ht. rewrite list.Forall_forall in N2. rewrite list.Forall_forall in D1. destruct (N2 t Ht) as [Nt Nm]. split; [done|]. specialize (D1 t Ht).
    rewrite list.Forall_forall in Nm. rewrite list.Forall_forall in D1. apply list.Forall_forall. intros m Hm. split; [by apply Nm|]. eapply Htext, (D1 m Hm).
  - intros u Hu. rewrite list.Forall_forall in N3. rewrite list.Forall_forall in D2. rewrite list.Forall_forall in P2. destruct (N3 u Hu) as [Nu Nc], (P2 u Hu) as [_ Pt]. split_and!; [done| |done].
    specialize (D2 u Hu). rewrite list.Forall_forall in Nc. rewrite list.Forall_forall in D2. apply list.Forall_forall. intros c Hc. destruct (D2 c Hc) as (_ & Htag & Ht).
    split_and!; [lia|by apply Nc|]. intros t E. by eapply Htext, Ht.
Qed.

Lemma func_text f : func_named f -> func_ok hs (sp_Structs s) (sp_Unions s) ds f -> 0 <= f_Opcode f ->
  (forall e, f_Error f = Some e -> e_Kind e <> ErrNone /\ (e_Kind e = ErrStatus -> e_Ok e <> [])) -> func_text_ok f.
Proof.
  intros (Nf & Np & Nr) [F1 _ _ F4 F5 _ _] Ho He. split_and!; [done| | |done|lia|done].
  - rewrite list.Forall_forall in Np. rewrite list.Forall_forall in F1. apply list.Forall_forall. intros p Hp. destruct (Np p Hp) as [N1 N2], (F1 p Hp) as (_ & R & _).
    split_and!; [done|by eapply Htext|done].
  - intros t E. split; [|done]. by eapply Htext, F4.
Qed.
End Texts.

Lemma error_text fcs funcs f : error_ok funcs fcs f -> forall e, f_Error f = Some e -> e_Kind e <> ErrNone /\ (e_Kind e = ErrStatus -> e_Ok e <> []).
Proof. intros H e E. destruct (H e E) as (t & _ & Hk & _). split; [intros E0; by rewrite E0 in Hk|]. intros E0. rewrite E0 in Hk. apply Hk. Qed.

Lemma Parse_text_ok strip src s : Parse strip src = Ok s -> spec_text_ok s.
Proof.
  intros HP. pose proof (Parse_named _ _ _ HP) as HN. pose proof HN as [N0 N1 N2 N3 N4].
  destruct (accepted_func _ _ (Parse_accepted _ _ _ HP)) as (consts & hs & types & ds & fcs & funcs & k & Hty & Hds & Hk & Hfd & El & Hf).
  pose proof (same_names _ _ (fd_handles _ _ _ _ _ _ _ Hfd)) as En.
  assert (Htext : forall t b, resolved (h_Name <$> hs) (s_Name <$> sp_Structs s) (u_Name <$> sp_Unions s) b t ds -> text_ok t).
  { intros t b [Ht _]. eapply ty_text_ok; [| | |exact Ht]; [rewrite En; by eapply fmap_named|eapply fmap_named; [exact N2|]; by intros ? []|eapply fmap_named; [exact N3|]; by intros ? []]. }
  pose proof (td_names _ _ _ _ _ _ _ Hty) as Hnd. rewrite En in Hnd. apply list.NoDup_app in Hnd as (Hnh & _ & Hnt).
  split_and!.
  - done.
  - by apply handles_text_ok.
  - done.
  - eapply tdecls_text_ok; [done|exact Htext|apply Hty|apply Hty].
  - unfold tdecls. rewrite map_app, !map_map. exact Hnt.
  - apply list.Forall_forall. intros f (j & Hj)%wire_func%list_elem_of_lookup. rewrite list.Forall_lookup in N4. destruct (Hf j f Hj) as (fc & Hfc & Ec & Ee & _ & _ & Hw).
    destruct (proj1 (list.Forall_lookup _ _) (fd_funcs _ _ _ _ _ _ _ Hfd) j fc Hfc) as (Hok & _). destruct (fd_errors _ _ _ _ _ _ _ Hfd) as (fcs0 & _ & Herr).
    rewrite list.Forall_lookup in Herr. eapply func_text; [exact Htext|by eapply N4|by eapply func_ok_core| |].
    + destruct (fc_server fc); [destruct Hw; lia|]. destruct Hw as [(i & _ & ->) _]. lia.
    + rewrite <- Ee. eapply error_text, Herr, Hfc.
Qed.

(** C29. The canonical text identifies the interface. Two accepted files have the same
    canonical text (2.6) exactly if they declare the same interface: the same
    service, the same handles with their owners, destroy functions and failure
    rules, the same structs and unions by name, and the same functions on the
    wire in the same order, with their parameters, attributes, error conventions
    and bounds. The order of the declarations of types and of the cases of
    unions, the constants that name numbers, the functions only the server
    calls, C types, Go names, comments and layout do not count. *)
Theorem canonical_exact strip1 src1 s1 strip2 src2 s2 : Parse strip1 src1 = Ok s1 -> Parse strip2 src2 = Ok s2 ->
  Canonical s1 = Canonical s2 <-> iface_of s1 = iface_of s2.
Proof. intros H1%Parse_text_ok H2%Parse_text_ok. by apply canonical_iff. Qed.

(** The interface of [sample_src] in other words. *)
Definition moved_src : bytes := str
  "idl 1; service s;
   union Val { case 3 Nil; case 1 I: i64; case 2 S: str; } // first
   struct Rec { id: u64; name: str<=0x20; pts: Pt[4]; } struct Pt { x: i16; y: u8; }
   handle Stmt owned_by Db destroy stmt_free; handle Db destroy db_close;
   @error(status, ok(0)) fn db_close(db: Db) -> i32; fn stmt_free(s: Stmt);
   @allow(server) fn odd(x: i32) -> i8;
   @error(status, ok(-7, 0)) fn prep(in db: Db, out stmt: Stmt) -> i32;
   fn read(db: Db, out buf: bytes<=64, cap: u32 @len_of(buf), out n: u16) -> i32;
   @error(predicate(odd)) fn calc(x: i32) -> i32; shim fn get(db: Db) -> Val @max_out(4096);".

Definition moved_spec : Spec := Eval vm_compute in
  match Parse [] moved_src with Ok s => s | Err _ => mkSpec [] SerializeNone [] [] [] [] [] [] [] end.

Lemma moved_accepted : Parse [] moved_src = Ok moved_spec.
Proof. vm_compute. reflexivity. Qed.

Lemma moved_canonical : Canonical sample_spec = Canonical moved_spec.
Proof. vm_compute. reflexivity. Qed.

Lemma canonical_exact_witness : Parse (str "s_") sample_src = Ok sample_spec /\ Parse [] moved_src = Ok moved_spec /\ iface_of sample_spec = iface_of moved_spec.
Proof.
  split; [exact sample_accepted|]. split; [exact moved_accepted|].
  exact (proj1 (canonical_exact _ _ _ _ _ _ sample_accepted moved_accepted) moved_canonical).
Defined.
